(* ===== verification/_CoqProject ===== *)
-Q . S2P
Prelude.v
MpyTypes.v
Ir.v
CfgState.v
UnionStorage.v
CfgRefcount.v
CfgOwnership.v
CfgEpilogue.v
CfgMerge.v
CfgInvariant.v
CfgReturn.v
ClassChain.v
OverloadResolution.v
OverloadDispatch.v
OverloadBinding.v
RawList.v
Bisect.v
RawDict.v
UnsafeDict.v
CInt.v
MsvcOverflow.v
Arithmetic.v
Bits.v
Bitstream.v
Huffman.v
HuffmanTree.v
Lz77.v
Deflate.v
Inflate.v
InflateSafe.v
DeflateTokens.v
DeflateHeader.v
DeflateCorrect.v
GlobalOrder.v
ValueTypes.v
Mangling.v
Buffers.v
IntDigits.v
IntArith.v
Utf8.v
StrOps.v
StrIndex.v
IntText.v
StrPad.v
FloatText.v
Json.v
JsonSpec.v
JsonText.v
JsonParse.v
JsonDump.v
Generics.v
TypeTables.v
Monomorphize.v
MonomorphizeCorrect.v
Inference.v
WorkQueue.v
RegexProgram.v
RegexMatcher.v
RegexSpec.v
RegexExplore.v
RegexCompile.v
RegexSafe.v
RegexCorrect.v
RegexHalts.v
RegexExact.v
RegexParser.v
RegexParse.v
RegexPattern.v
RegexPieces.v
RegexEscape.v
RegexSamples.v
