(* ===== verification/Prelude.v ===== *)
(** * A verification of MetalPy, a compiler from typed Python to C

    MetalPy compiles a typed subset of Python.  [discovery.py] collects the
    declarations of the modules, [type_resolver.py] gives every expression a
    type, [lowering*.py] turn function bodies into the instructions of [ir.py]
    and ask [cfg.py] which references to retain and release,
    [overload_resolution.py] decides what a call reaches, [monomorphize.py]
    copies generic code per instance, and [emitter_c.py] prints C.  A program is
    compiled together with the library under [lib/], written in the same
    language.  This development models the decision procedures of the compiler
    and the library modules whose correctness rests on an algorithm.  Functions
    keep their Python names, without the leading underscore.

    ** The parts

    Shared: [Prelude] (this file: the error monad, lists, dicts), [Bits]
    (fixed-width integers, panics and [Result] of the library modules).

    The compiler:
    - [MpyTypes] ([mpy_types.py]): the types and which of them carry references;
      [Ir] ([ir.py]): instructions, and a machine that executes the retain,
      release and jump instructions; [UnionStorage] ([union_storage.py]): tags.
    - [CfgState], [CfgRefcount], [CfgOwnership], [CfgEpilogue], [CfgMerge]
      ([cfg.py], class [CFGState]): its state with snapshots and brackets, the
      instructions that retain and release a value, the statement-level
      transitions, leaving a function, joining paths.  [Epilogue] objects are
      shared and mutated by the code, so they live in a store.  [CfgInvariant]
      and [CfgReturn] prove what the operations keep together and what is
      released in the end; [CfgReturn] adds the part of [lowering_stmt.py] and
      [lowering_epilogue.py] a [return] goes through.
    - [ClassChain] ([mpy_types.py], [emitter_c.py]): lazy resolution of base
      classes, lookup along the chain, the slots of virtual tables.
    - [OverloadResolution], [OverloadDispatch] ([overload_resolution.py],
      [lowering_calls.py]): the box subtraction that plans a call, and the run
      of the plan; [OverloadBinding] ([discovery.py]): the checks of an
      overload group at its declaration, and what they give the calls.
    - [CInt], [MsvcOverflow], [Arithmetic] ([emitter_c.py],
      [arithmetic_mode.py], [lowering_shared.py], [lowering_intrinsics.py]):
      C's integers with promotion and undefined behaviour and the overflow
      built-ins of the two compilers, those of GCC and Clang and the functions the prologue
      defines for MSVC; when the latter are right; the C statements of
      every integer opcode in the wrapping, checked, panicking and saturating
      modes, under either compiler.
    - [Generics], [TypeTables] ([discovery.py], [mpy_types.py]): types as objects
      compared by identity and the tables that intern them by name;
      [Monomorphize], [MonomorphizeCorrect] ([monomorphize.py],
      [tuple_storage.py]): substitution of type parameters and the classes and
      functions made with it; [Inference] ([lowering.py],
      [lowering_generic_call.py]): unification of declared parameter types with
      the arguments' types.
    - [GlobalOrder], [ValueTypes], [Mangling] ([emitter_c.py]): the order of the
      initializers of globals, the order of struct bodies, C names.

    The library:
    - [RawList], [Bisect], [RawDict], [UnsafeDict] ([lib/builtins/], [lib/bisect.py]):
      the byte buffer under [list], binary search, the two arrays under [dict],
      and [dict] with the ownership of keys and values, counted or copied.  Each file proves a
      contract (a list, a partition point, a list of pairs) and the next one
      uses only that.
    - [Bitstream], [Huffman], [HuffmanTree], [Lz77], [Deflate], [Inflate]
      ([lib/bitstream.py], [lib/huffman.py], [lib/lz77.py], [lib/deflate.py]):
      the DEFLATE stack, one file per layer; [InflateSafe], [DeflateTokens],
      [DeflateHeader] and [DeflateCorrect] hold its theorems.
    - [Buffers] (raw byte memory whose cells may be uninitialized, and loops
      over it), [IntDigits], [IntArith], [IntText] ([lib/builtins/__int.py]):
      decimal digit buffers in place, the operators of [int] over them, its
      texts and its conversions to the fixed widths.
    - [Utf8], [StrOps], [StrIndex] ([lib/builtins/__str.py], class [str] of
      [lib/builtins/__init__.py]): validation and the code point index, search
      and everything built on it, indexing, order, [chr] and [ord].
    - [StrPad] (class [str] again), [FloatText] ([lib/builtins/__float.py]):
      padding and grouping of numbers in a field; the texts of [f64].
    - JSON ([lib/json.py]): [Json] (values, [loads], [dumps], arrays and objects
      as containers of a store that the values share), [JsonSpec] (the grammar
      of RFC 8259 with its meaning, with or without unpaired escapes of surrogates, and a
      reader of code points that is sound and complete for it), [JsonText] and [JsonParse] (the parser follows the
      reader byte by byte), [JsonDump].
    - [WorkQueue] ([lib/queue.py], [_PoolWorker] of [lib/threading.py]): a
      multi-producer queue and its worker as threads that take turns at every
      lock and semaphore operation.
    - Regular expressions ([lib/re.py]): [RegexProgram] (operations and the
      fragments they are put together from), [RegexMatcher] (the backtracking
      machine), [RegexParser], [RegexPattern] (patterns, matches, the loops of
      [finditer], [findall], [sub] and [split]).  [RegexSpec] gives syntax trees
      a meaning, a relation between states labelled with the choices made;
      [RegexExplore] to [RegexExact] prove the machine against it, [RegexParse]
      the parser, [RegexPieces] and [RegexEscape] what callers see;
      [RegexSamples] runs the cases in which the engine is not Python's.

    ** What is shown

    - Reference counting: the emitted code applies an operation once to each
      reference a value holds ([CfgRefcount.refcount_correct]); leaving by a
      jump into the shared ladder equals unwinding inline, when nothing was
      spliced into the jump, only releases are pending, no construction is under
      way and no entry below the label was cancelled after it was taken
      ([CfgEpilogue.jump_equals_inline] states each of these); from any state the
      straight-line statements of [CfgInvariant.step] reach, a return releases each owned
      name once, unless the flag of a captured entry is down; joins and loops
      accept exactly the paths that agree ([CfgMerge]).  The concrete runs at
      the end of [CfgEpilogue] and [CfgReturn] show programs the pass gets wrong.
    - Calls: a resolved call covers every combination of leaf types; of one
      argument, it reaches the first member that accepts it, where a member accepts what
      conforms to a protocol it names; for two, the
      concluding example of [OverloadDispatch] shows a call it misroutes.
    - Generics: the tables hold one object per type ([TypeTables]);
      monomorphizing a class ends and is parallel substitution
      ([MonomorphizeCorrect]), for classes without arrays of a type variable and
      generators that are sent something, which the code leaves as they are;
      inference finds the typing of a call that has one ([Inference]), where the declared types determine it.  [norm] forgets which of its two objects a type is.
    - Arithmetic: each statement is compared with the mathematical result; the
      theorems name exactly the operands where the C code is undefined or wrong.
    - Emission: initializers run after what they mention, themselves or through
      direct calls, or a cycle is reported; bodies come after what their own fields
      embed; names are shared only where stated.  [GlobalOrder.needed_by] and
      [ValueTypes.embeds] say what C would need, and examples show where the code
      falls short of it (calls through pointers; inline arrays, inherited fields).
    - Library: refinement of each container to its specification without an
      access out of bounds (a buffer of positive initial capacity; a dictionary whose keys have one
      hash when they are equal); [compress] then [decompress] is the identity, and
      decompression of any input ends with bytes or an error value; [int] is
      exact, and its digits canonical; [str] is a sequence of scalar values,
      however its methods walk its bytes; the queue loses no wakeup under any
      scheduler, as long as it is unbounded or no client asks it to shut down.
    - Texts of floats: the first of [printf]'s roundings that reads back, rearranged without
      changing the value ([FloatText]).  JSON: [loads] accepts exactly the texts
      of the grammar whose surrogates are escaped in pairs ([JsonParse]) and reads back what [dumps] writes
      ([JsonDump]).
    - Regular expressions: every pattern compiles to the program of a syntax
      tree or is rejected; a search finds the leftmost match and there the one
      of the first alternatives; searching for an escaped text is [str.find];
      [split], [sub] and [findall] cut a text alike.  The theorems on searches
      ask that no back reference is inside of the group it names and that a
      pattern that looks behind meets ASCII only: [RegexSamples] shows what
      happens otherwise.

    ** Bounds and fuel

    A loop or recursion that is not structural takes fuel and returns [None] or
    an error without it; the theorems say that the fuel used is enough.
    - [CfgRefcount]: the nesting depth of the type.
    - [OverloadResolution]: the program's own limit of 4096 tracked states
      (past it the call is rejected), and one round per candidate when grouping.
    - [ClassChain]: the length of the chain.
    - [Bisect]: the length of the array plus one; [RawDict.scan]: the entries
      left.
    - [Bitstream]: one more than the bits asked for; [Lz77]: the input length;
      [HuffmanTree]: the capacity of the node arrays plus one; [Inflate]: the
      unread bits plus one, and the number of code lengths.
    - [GlobalOrder]: one round per pair of a function and a global, one step per
      global; [ValueTypes]: one level per class.
    - [IntDigits]: the bit length of a number for its digits, the longer digit
      count plus one for a sum, one more than the digits of a factor for a row
      of a product; [IntText]: the text read, four digits of base 2, 8 or 16 per
      decimal digit of a number printed in that base, the text grouped;
      [Utf8], [StrOps], [StrIndex]: the bytes of the text.
    - [Monomorphize]: classes made inside one another, at most the
      instantiations that can be reached; [Inference]: one level per bound that
      leads from a type parameter to another.
    - [FloatText]: 17 precisions; [StrPad]: the width; [Json]: the length of the
      text for each of its loops and one more for the nesting of a text, the
      nesting of a value for [dumps], which does not end on a container that
      contains itself.
    - [RegexMatcher]: one more than the steps the program allows itself
      ([max_steps]); [RegexParser]: the text for its loops and for the nesting
      of groups; [RegexPattern]: the positions left in the text.

    ** Parameters

    [str_order] and [fn_order] ([GlobalOrder]) and [set_order] ([CfgMerge]) are
    the orders in which Python iterates over sets; [Platform] ([RawList]) has the width of [usize] and the
    allocator; [Target] ([Arithmetic]) the pointer width and whether the C
    compiler has 128-bit integers; [StoredType] and [KeyOps] ([UnsafeDict]) what a
    dictionary's key and value types are; [UnionNames] ([UnionStorage]) the names already
    declared in a union; [entered] ([GlobalOrder]) what an instruction may enter when it runs; [Injected] ([OverloadResolution]) the
    callbacks its callers pass; [crt_memcmp] ([StrIndex]) the C library's byte
    comparison, of which only the sign is fixed; [Counting] ([WorkQueue]) a
    counting semaphore; [is_alnum_cp] ([RegexEscape]) the operating system's
    letters and digits, which are the usual ones in ASCII; [Float] ([FloatText])
    the doubles with C's [printf] and [strtod], of which [FloatLaws] says that
    one writes a decimal in scientific form, that 17 digits determine a double
    and that the other gives texts of one value one double.

    ** Not modelled

    Parsing is Python's own [ast].  Walking modules, files and syntax trees
    ([discovery.py], most of [type_resolver.py] and of [lowering*.py]) has no
    state of its own beyond the parts named above.  The text of the C code is
    modelled only where its meaning is ([Arithmetic]).  Bindings to the
    operating system and to C libraries are calls to code that is not here.
    Memory exhaustion is modelled in [RawList] and assumed away above it; so is
    Python's recursion limit.  Lengths of strings and digit buffers are natural
    numbers; the sizes [str.join] and [str.replace] compute are checked against
    [usize] ([StrOps]), those of the buffers that exist already are not: that they fit is what the messages of the code's own
    [panic_arithmetic] blocks assume.  Case mapping and character classes call
    the operating system.  The 128-bit integers of [IntText] have their 128 bits;
    MSVC's 64-bit stand-ins for them are left out.  [Monomorphize] leaves out
    overload groups inside a generic class and methods generic of their own,
    whose copies share their type variables' names.  The manifest lists every part that is left out
    with its reason.

    This file: results, the state and error monad, and lemmas on lists, maps
    and integers the components share. *)

From stdpp Require Export base gmap sets list strings pretty.
From Stdlib Require Export ZArith.

Set Default Proof Using "Type".

(** ** Results and the state/error monad

    The compiler reports a failure by raising an exception ([CompileError]);
    what was mutated before the [raise] stays mutated.  [M S E A] keeps that:
    the state is returned whether or not the computation fails. *)

Inductive result (E A : Type) : Type :=
| Ok (a : A)
| Err (e : E).
Arguments Ok {E A} a.
Arguments Err {E A} e.

Definition is_ok {E A} (r : result E A) : bool :=
  match r with Ok _ => true | Err _ => false end.

Definition result_bind {E A B} (r : result E A) (k : A -> result E B) : result E B :=
  match r with Ok a => k a | Err e => Err e end.

Definition M (S E A : Type) : Type := S -> result E A * S.

Definition ret {S E A} (a : A) : M S E A := fun s => (Ok a, s).
Definition raise {S E A} (e : E) : M S E A := fun s => (Err e, s).
Definition bind {S E A B} (m : M S E A) (k : A -> M S E B) : M S E B :=
  fun s => match m s with
           | (Ok a, s') => k a s'
           | (Err e, s') => (Err e, s')
           end.
Definition get {S E} : M S E S := fun s => (Ok s, s).
Definition modify {S E} (f : S -> S) : M S E unit := fun s => (Ok tt, f s).
Definition lift {S E A} (r : result E A) : M S E A := fun s => (r, s).

Declare Scope monad_scope.
Delimit Scope monad_scope with monad.
Notation "'let*' x ':=' m 'in' k" := (bind m (fun x => k))
  (at level 10, x pattern, m at level 100, k at level 200) : monad_scope.
Notation "m ;;; k" := (bind m (fun _ => k))
  (at level 199, k at level 200, right associativity) : monad_scope.
Notation "'let?' x ':=' m 'in' k" := (result_bind m (fun x => k))
  (at level 10, x pattern, m at level 100, k at level 200) : monad_scope.

(** [mfold f l a]: a Python [for] loop that threads an accumulator. *)
Fixpoint mfold {S E A B} (f : A -> B -> M S E A) (l : list B) (a : A) : M S E A :=
  match l with
  | [] => ret a
  | x :: xs => bind (f a x) (fun a' => mfold f xs a')
  end.

Section monad_lemmas.
Context {S E : Type}.

Lemma bind_ok {A B} (m : M S E A) (k : A -> M S E B) s a s' :
  m s = (Ok a, s') -> bind m k s = k a s'.
Proof. unfold bind. by intros ->. Qed.

Lemma bind_err {A B} (m : M S E A) (k : A -> M S E B) s e s' :
  m s = (Err e, s') -> bind m k s = (Err e, s').
Proof. unfold bind. by intros ->. Qed.

Lemma bind_inv {A B} (m : M S E A) (k : A -> M S E B) s b s' :
  bind m k s = (Ok b, s') ->
  exists a s1, m s = (Ok a, s1) /\ k a s1 = (Ok b, s').
Proof. unfold bind. destruct (m s) as [[a|e] s1]; [eauto|done]. Qed.

Lemma ret_inv {A} (a b : A) (s s' : S) : @ret S E A a s = (Ok b, s') -> a = b /\ s = s'.
Proof. unfold ret. by intros [= -> ->]. Qed.

Lemma mfold_app {A B} (f : A -> B -> M S E A) l1 l2 a s :
  mfold f (l1 ++ l2) a s = bind (mfold f l1 a) (mfold f l2) s.
Proof.
  revert a s. induction l1 as [|x l1 IH]; intros a s; simpl; [done|].
  unfold bind in *. destruct (f a x s) as [[a'|e] s']; [apply IH|done].
Qed.

Lemma bind_modify {B} f (k : unit -> M S E B) s : bind (modify f) k s = k tt (f s).
Proof. done. Qed.

Lemma bind_ret {A B} a (k : A -> M S E B) s : bind (ret a) k s = k a s.
Proof. done. Qed.

Lemma bind_get {B} (k : S -> M S E B) s : bind get k s = k s s.
Proof. done. Qed.

Lemma bind_bind {A B C} (m : M S E A) (k : A -> M S E B) (k' : B -> M S E C) s :
  bind (bind m k) k' s = bind m (fun a => bind (k a) k') s.
Proof. unfold bind. by destruct (m s) as [[a|e] s']. Qed.

(** A property of the state kept by every iteration is kept by the loop,
    failures included. *)
Lemma mfold_state {A B} (P : S -> Prop) (f : A -> B -> M S E A) l :
  (forall a x s, P s -> P (f a x s).2) ->
  forall a s, P s -> P (mfold f l a s).2.
Proof.
  intros Hf. induction l as [|x xs IH]; intros a s Hs; simpl; [done|].
  unfold bind. specialize (Hf a x s Hs).
  destruct (f a x s) as [[a'|e] s']; simpl in *; [by apply IH|done].
Qed.

Lemma bind_err_inv {A B} (m : M S E A) (k : A -> M S E B) s e s' :
  bind m k s = (Err e, s') ->
  m s = (Err e, s') \/ exists a s1, m s = (Ok a, s1) /\ k a s1 = (Err e, s').
Proof. unfold bind. destruct (m s) as [[a|e'] s1]; [eauto|]. intros [= -> ->]. by left. Qed.

(** What every iteration that fails raises, the loop raises. *)
Lemma mfold_error {A B} (Q : E -> Prop) (f : A -> B -> M S E A) l :
  (forall a x s e s', f a x s = (Err e, s') -> Q e) ->
  forall a s e s', mfold f l a s = (Err e, s') -> Q e.
Proof.
  intros Hf. induction l as [|x l IH]; intros a s e s' E0; simpl in E0; [done|].
  apply bind_err_inv in E0 as [E0|(a1 & s1 & _ & E0)]; eauto.
Qed.

Lemma mfold_concat {A B} (f : A -> B -> M S E A) ls : forall a s,
  mfold (fun a l => mfold f l a) ls a s = mfold f (concat ls) a s.
Proof.
  induction ls as [|l ls IH]; intros a s; simpl; [done|]. rewrite mfold_app. unfold bind.
  destruct (mfold f l a s) as [[a'|e] s']; [apply IH|done].
Qed.

Lemma mfold_ext {A B} (f g : A -> B -> M S E A) l :
  (forall a x s, f a x s = g a x s) -> forall a s, mfold f l a s = mfold g l a s.
Proof.
  intros Hfg. induction l as [|x l IH]; intros a s; simpl; [done|]. unfold bind. rewrite Hfg.
  destruct (g a x s) as [[a'|e] s']; [apply IH|done].
Qed.

(** An invariant of a loop that runs to its end, indexed by what it has
    processed. *)
Lemma mfold_invariant {A B} (P : list B -> A -> S -> Prop) (f : A -> B -> M S E A) l :
  (forall done x a s a' s', x ∈ l -> P done a s -> f a x s = (Ok a', s') -> P (done ++ [x]) a' s') ->
  forall a s a' s', P [] a s -> mfold f l a s = (Ok a', s') -> P l a' s'.
Proof.
  intros Hstep.
  cut (forall todo done a s a' s', l = done ++ todo -> P done a s ->
    mfold f todo a s = (Ok a', s') -> P l a' s').
  { intros Hc a s a' s'. by apply (Hc l []). }
  induction todo as [|x todo IH]; intros done a s a' s' -> Hp E0; simpl in E0.
  - apply ret_inv in E0 as [<- <-]. by rewrite app_nil_r.
  - apply bind_inv in E0 as (a1 & s1 & E1 & E0).
    refine (IH (done ++ [x]) a1 s1 a' s' _ _ E0); [by rewrite <- app_assoc|].
    eapply Hstep; [|done|exact E1]. rewrite elem_of_app. right. left.
Qed.
End monad_lemmas.

(** A loop over a list that may fail, with an accumulator. *)
Fixpoint result_fold {E A B} (f : A -> B -> result E A) (a : A) (l : list B) : result E A :=
  match l with
  | [] => Ok a
  | x :: l => result_bind (f a x) (fun a => result_fold f a l)
  end.

(** A fold that never fails and keeps an indexed invariant. *)
Lemma result_fold_ok {E A B} (P : list B -> A -> Prop) (f : A -> B -> result E A) l :
  (forall done x todo a, l = done ++ x :: todo -> P done a -> exists a', f a x = Ok a' /\ P (done ++ [x]) a') ->
  forall a, P [] a -> exists a', result_fold f a l = Ok a' /\ P l a'.
Proof.
  intros Hf. cut (forall todo done a, l = done ++ todo -> P done a -> exists a', result_fold f a todo = Ok a' /\ P l a').
  { intros Hc a. by apply (Hc l []). }
  induction todo as [|x todo IH]; intros done a -> Hp; simpl.
  - exists a. by rewrite app_nil_r.
  - destruct (Hf done x todo a) as (a1 & -> & H1); [done|done|]. simpl.
    apply (IH (done ++ [x]) a1); [by rewrite <- app_assoc|done].
Qed.

(** ** Python dictionaries

    A [dict[str, V]] iterates in insertion order, assignment to a present key
    keeps its position and a new key goes last. *)

Abbreviation dict V := (list (string * V)).

Section dict.
Context {V : Type}.
Implicit Types (d : dict V) (k : string).

Fixpoint dict_get k d : option V :=
  match d with
  | [] => None
  | (k', v) :: d' => if bool_decide (k = k') then Some v else dict_get k d'
  end.

Fixpoint dict_set k (v : V) d : dict V :=
  match d with
  | [] => [(k, v)]
  | (k', v') :: d' => if bool_decide (k = k') then (k', v) :: d' else (k', v') :: dict_set k v d'
  end.

Fixpoint dict_del k d : dict V :=
  match d with
  | [] => []
  | (k', v') :: d' => if bool_decide (k = k') then dict_del k d' else (k', v') :: dict_del k d'
  end.

Definition dict_keys d : list string := map fst d.
Definition dict_mem k d : bool := match dict_get k d with Some _ => true | None => false end.

Lemma dict_get_set_eq k v d : dict_get k (dict_set k v d) = Some v.
Proof.
  induction d as [|[k' v'] d IH]; simpl.
  - by rewrite bool_decide_true.
  - case_bool_decide; simpl; [by rewrite bool_decide_true|by rewrite bool_decide_false].
Qed.

Lemma dict_get_set_ne k k' v d : k <> k' -> dict_get k (dict_set k' v d) = dict_get k d.
Proof.
  intros Hne. induction d as [|[k1 v1] d IH]; simpl.
  - by rewrite bool_decide_false.
  - destruct (bool_decide_reflect (k' = k1)) as [->|]; simpl.
    + by rewrite bool_decide_false.
    + case_bool_decide; [done|apply IH].
Qed.

Lemma dict_get_del_eq k d : dict_get k (dict_del k d) = None.
Proof.
  induction d as [|[k' v'] d IH]; simpl; [done|].
  case_bool_decide; [done|]; simpl. by rewrite bool_decide_false.
Qed.

Lemma dict_get_del_ne k k' d : k <> k' -> dict_get k (dict_del k' d) = dict_get k d.
Proof.
  intros Hne. induction d as [|[k1 v1] d IH]; simpl; [done|].
  destruct (bool_decide_reflect (k' = k1)) as [->|]; simpl.
  - by rewrite bool_decide_false.
  - case_bool_decide; [done|apply IH].
Qed.

Lemma dict_get_Some_in k v d : dict_get k d = Some v -> (k, v) ∈ d.
Proof.
  induction d as [|[k' v'] d IH]; simpl; [done|].
  case_bool_decide; [intros [= ->]; subst; left|right; auto].
Qed.

Lemma dict_mem_keys k d : dict_mem k d = true <-> k ∈ dict_keys d.
Proof.
  unfold dict_mem. induction d as [|[k' v'] d IH]; simpl.
  - split; [done|by intros ?%not_elem_of_nil].
  - rewrite elem_of_cons, <- IH. case_bool_decide; subst; [tauto|].
    split; [auto|by intros [->|?]].
Qed.

Lemma dict_mem_get k d : dict_mem k d = true <-> is_Some (dict_get k d).
Proof. unfold dict_mem. destruct (dict_get k d); split; eauto; [done|by intros []]. Qed.

Lemma dict_in_get d k v :
  NoDup (dict_keys d) -> (k, v) ∈ d -> dict_get k d = Some v.
Proof.
  induction d as [|[k' v'] d IH]; simpl; [by intros _ ?%not_elem_of_nil|].
  intros [Hni Hnd]%NoDup_cons [[= -> ->]|Hin]%elem_of_cons.
  - by rewrite bool_decide_true.
  - case_bool_decide; [|auto]. subst k'. destruct Hni.
    apply list_elem_of_In, in_map_iff. exists (k, v). split; [done|by apply list_elem_of_In].
Qed.

Lemma dict_keys_set k v d :
  dict_keys (dict_set k v d) = if dict_mem k d then dict_keys d else dict_keys d ++ [k].
Proof.
  unfold dict_mem. induction d as [|[k' v'] d IH]; simpl; [done|].
  case_bool_decide; simpl; [by subst|]. rewrite IH. by destruct (dict_get k d).
Qed.

Lemma dict_keys_set_NoDup k v d : NoDup (dict_keys d) -> NoDup (dict_keys (dict_set k v d)).
Proof.
  intros Hnd. rewrite dict_keys_set. destruct (dict_mem k d) eqn:Hm; [done|].
  apply NoDup_app. split_and!; [done| |apply NoDup_singleton].
  intros x Hx ->%list_elem_of_singleton. apply dict_mem_keys in Hx. congruence.
Qed.

Lemma dict_keys_del_subseteq k d x : x ∈ dict_keys (dict_del k d) -> x ∈ dict_keys d.
Proof.
  induction d as [|[k' v'] d IH]; simpl; [done|].
  case_bool_decide; simpl; rewrite ?elem_of_cons; tauto.
Qed.

Lemma dict_keys_del_NoDup k d : NoDup (dict_keys d) -> NoDup (dict_keys (dict_del k d)).
Proof.
  induction d as [|[k' v'] d IH]; simpl; [done|].
  intros [Hni Hnd]%NoDup_cons. case_bool_decide; simpl; [auto|].
  apply NoDup_cons. split; [|auto]. by intros ?%dict_keys_del_subseteq.
Qed.
End dict.

(** ** Identity

    Python compares compiler objects with [is].  A component's objects carry
    an identity; [Identity A] is what [is] observes. *)

Class Identity (A : Type) := ident : A -> nat.

Definition is_same {A} `{Identity A} (x y : A) : bool := bool_decide (ident x = ident y).

Section identity.
Context {A : Type} `{Identity A}.

(** [any( m is existing for existing in l )] *)
Definition mem_ident (m : A) (l : list A) : bool := existsb (is_same m) l.

Lemma is_same_true (x y : A) : is_same x y = true <-> ident x = ident y.
Proof. unfold is_same. apply bool_decide_eq_true. Qed.

Lemma mem_ident_true m l : mem_ident m l = true <-> exists y, y ∈ l /\ ident m = ident y.
Proof.
  unfold mem_ident. rewrite existsb_exists. setoid_rewrite is_same_true.
  by setoid_rewrite list_elem_of_In.
Qed.
End identity.

(** ** Dictionaries built by a comprehension

    [{ key( x ): val( x ) for x in l }]: the last of two equal keys wins. *)

Lemma foldl_insert_lookup `{Countable K} {A B} (key : A -> K) (val : A -> B) l : forall (m : gmap K B) k,
  is_Some (foldl (fun d x => <[key x := val x]> d) m l !! k) <-> is_Some (m !! k) \/ k ∈ map key l.
Proof.
  induction l as [|x l IH]; intros m k; simpl; [by rewrite elem_of_nil; tauto|].
  rewrite IH, lookup_insert_is_Some, elem_of_cons. destruct (decide (key x = k)); naive_solver.
Qed.

(** [{ key( x ): x for x in l }] *)
Definition index_by `{Countable K} {A} (key : A -> K) (l : list A) : gmap K A :=
  foldl (fun d x => <[key x := x]> d) ∅ l.

Section index_by.
Context `{Countable K} {A : Type} (key : A -> K).

Lemma index_by_known l k : is_Some (index_by key l !! k) <-> k ∈ map key l.
Proof. unfold index_by. rewrite foldl_insert_lookup, lookup_empty. split; [by intros [[]|]|by right]. Qed.

Lemma index_by_lookup l k x : NoDup (map key l) -> index_by key l !! k = Some x <-> x ∈ l /\ key x = k.
Proof.
  intros Hnd.
  assert (Hin : forall x l (m : gmap K A), foldl (fun d x => <[key x := x]> d) m l !! k = Some x ->
    m !! k = Some x \/ x ∈ l /\ key x = k).
  { clear. intros x. induction l as [|y l IH]; intros m E; simpl in *; [by left|]. apply IH in E as [E|[Hl Hk]].
    - apply lookup_insert_Some in E as [[Hk <-]|[_ E]]; [right|by left]. split; [left|done].
    - right. split; [by right|done]. }
  split.
  - intros [E|Hl]%Hin; [by rewrite lookup_empty in E|done].
  - intros [Hx Hk]. destruct (proj2 (index_by_known l k)) as [y E].
    { rewrite <- Hk. by apply list_elem_of_fmap_2. }
    rewrite E. destruct (Hin _ _ _ E) as [E'|[Hy Hk']]; [by rewrite lookup_empty in E'|]. f_equal.
    apply list_elem_of_lookup in Hx as [i Hi], Hy as [j Hj]. assert (i = j) as <-; [|congruence].
    eapply NoDup_lookup; [exact Hnd|by apply list_lookup_fmap_Some_2|].
    rewrite Hk, <- Hk'. by apply list_lookup_fmap_Some_2.
Qed.
End index_by.

Lemma elem_of_rev {A} (x : A) l : x ∈ rev l <-> x ∈ l.
Proof. rewrite !list_elem_of_In. symmetry. apply in_rev. Qed.

Lemma difference_nil (X Y : gset string) : elements (X ∖ Y) = [] <-> X ⊆ Y.
Proof.
  rewrite elements_empty_iff. split.
  - intros He x Hx. destruct (decide (x ∈ Y)); [done|]. assert (x ∈ (∅ : gset string)) as []%elem_of_empty. apply He, elem_of_difference. done.
  - intros Hs x. split; [|by intros ?%elem_of_empty]. intros [Hx Hn]%elem_of_difference. destruct Hn. by apply Hs.
Qed.

(** ** Strings *)

Lemma append_cons c (s t : string) : String c s +:+ t = String c (s +:+ t).
Proof. done. Qed.

Lemma append_assoc (s1 s2 s3 : string) : (s1 +:+ s2) +:+ s3 = s1 +:+ (s2 +:+ s3).
Proof. induction s1 as [|c s1 IH]; [done|]. exact (f_equal (String c) IH). Qed.

Lemma append_empty (s : string) : s +:+ "" = s.
Proof. induction s as [|c s IH]; [done|]. exact (f_equal (String c) IH). Qed.

(** ** Proof automation shared by the files *)

Create HintDb mpy.
Create Rewrite HintDb mpy.
#[export] Hint Resolve dict_get_set_eq dict_get_del_eq dict_keys_set_NoDup dict_keys_del_NoDup : mpy.
#[export] Hint Rewrite @dict_get_set_eq @dict_get_del_eq : mpy.

(** Running the steps of a computation that cannot fail. *)
Create Rewrite HintDb monad.
#[export] Hint Rewrite @bind_modify @bind_ret @bind_get @bind_bind : monad.

(** Invert one monadic step that succeeded. *)
Ltac inv_bind H :=
  let a := fresh "a" in let s := fresh "st" in
  let H1 := fresh H in
  apply bind_inv in H as (a & s & H1 & H).

(** Destruct the [if]s and [match]es of the goal until it is closed. *)
Ltac crush_match := repeat (case_match; simplify_eq/=; try done).
