(* ===== verification/MpyTypes.v ===== *)
(** * The type language of the compiler ([mpy_types.py])

    [Ty] has one constructor per type kind of [mpy_types.py], with the fields
    the reference-counting classification reads; [Annotation] adds the
    [move[T]]/[copy[T]] ownership wrappers, which are not runtime types. *)

From S2P Require Import Prelude.

#[warnings="-register-all"]
Inductive Ty : Type :=
| Scalar (stem : string) (sizeof : Z)
| TypeVar (qualname : string)
| Specialization (base : Ty) (args : list Ty)
| CallableType (arg_types : list Ty) (return_type : Ty)
| FixedArrayType (elem_type : Ty) (count : Z)
| TupleType (elem_types : list Ty)
| GeneratorType (elem_type error_type : Ty)
| Protocol (qualname : string)
| RCClass (qualname : string)
| ClosureType (arg_types : list Ty) (return_type : Ty)
| CStruct (qualname : string) (is_interface : bool)
| CUnion (qualname : string)
| TaggedUnion (stem qualname : string) (type_params : list Ty) (attributes : list (string * Ty))
| CEnum (qualname : string)
| CType (c_name : string).

(** ** Induction through the nested lists *)

Section Ty_ind.
Variable P : Ty -> Prop.
Hypothesis HScalar : forall s n, P (Scalar s n).
Hypothesis HTypeVar : forall q, P (TypeVar q).
Hypothesis HSpec : forall b args, P b -> Forall P args -> P (Specialization b args).
Hypothesis HCallable : forall a r, Forall P a -> P r -> P (CallableType a r).
Hypothesis HArray : forall e n, P e -> P (FixedArrayType e n).
Hypothesis HTuple : forall es, Forall P es -> P (TupleType es).
Hypothesis HGen : forall e r, P e -> P r -> P (GeneratorType e r).
Hypothesis HProto : forall q, P (Protocol q).
Hypothesis HRC : forall q, P (RCClass q).
Hypothesis HClosure : forall a r, Forall P a -> P r -> P (ClosureType a r).
Hypothesis HStruct : forall q i, P (CStruct q i).
Hypothesis HCUnion : forall q, P (CUnion q).
Hypothesis HUnion : forall s q ps attrs,
  Forall P ps -> Forall (fun a => P a.2) attrs -> P (TaggedUnion s q ps attrs).
Hypothesis HEnum : forall q, P (CEnum q).
Hypothesis HCType : forall q, P (CType q).

Fixpoint Ty_nested_ind (t : Ty) : P t :=
  let all := fix all (l : list Ty) : Forall P l :=
    match l with
    | [] => Forall_nil_2 _
    | x :: xs => Forall_cons_2 _ _ _ (Ty_nested_ind x) (all xs)
    end in
  let all_attrs := fix all_attrs (l : list (string * Ty)) : Forall (fun a => P a.2) l :=
    match l with
    | [] => Forall_nil_2 _
    | x :: xs => Forall_cons_2 _ _ _ (Ty_nested_ind x.2) (all_attrs xs)
    end in
  match t with
  | Scalar s n => HScalar s n
  | TypeVar q => HTypeVar q
  | Specialization b args => HSpec b args (Ty_nested_ind b) (all args)
  | CallableType a r => HCallable a r (all a) (Ty_nested_ind r)
  | FixedArrayType e n => HArray e n (Ty_nested_ind e)
  | TupleType es => HTuple es (all es)
  | GeneratorType e r => HGen e r (Ty_nested_ind e) (Ty_nested_ind r)
  | Protocol q => HProto q
  | RCClass q => HRC q
  | ClosureType a r => HClosure a r (all a) (Ty_nested_ind r)
  | CStruct q i => HStruct q i
  | CUnion q => HCUnion q
  | TaggedUnion s q ps attrs => HUnion s q ps attrs (all ps) (all_attrs attrs)
  | CEnum q => HEnum q
  | CType q => HCType q
  end.
End Ty_ind.

(** ** Decidable identity

    Types are interned ("the same type is the same object"), so the [is] of
    the source is equality of [Ty]. *)

Fixpoint Ty_eqb (x y : Ty) : bool :=
  let all := fix all (l1 l2 : list Ty) : bool :=
    match l1, l2 with
    | [], [] => true
    | a :: l1', b :: l2' => Ty_eqb a b && all l1' l2'
    | _, _ => false
    end in
  let all_attrs := fix all_attrs (l1 l2 : list (string * Ty)) : bool :=
    match l1, l2 with
    | [], [] => true
    | a :: l1', b :: l2' => bool_decide (a.1 = b.1) && Ty_eqb a.2 b.2 && all_attrs l1' l2'
    | _, _ => false
    end in
  match x, y with
  | Scalar s n, Scalar s' n' => bool_decide (s = s') && bool_decide (n = n')
  | TypeVar q, TypeVar q' => bool_decide (q = q')
  | Specialization b args, Specialization b' args' => Ty_eqb b b' && all args args'
  | CallableType a r, CallableType a' r' => all a a' && Ty_eqb r r'
  | FixedArrayType e n, FixedArrayType e' n' => Ty_eqb e e' && bool_decide (n = n')
  | TupleType es, TupleType es' => all es es'
  | GeneratorType e r, GeneratorType e' r' => Ty_eqb e e' && Ty_eqb r r'
  | Protocol q, Protocol q' => bool_decide (q = q')
  | RCClass q, RCClass q' => bool_decide (q = q')
  | ClosureType a r, ClosureType a' r' => all a a' && Ty_eqb r r'
  | CStruct q i, CStruct q' i' => bool_decide (q = q') && Bool.eqb i i'
  | CUnion q, CUnion q' => bool_decide (q = q')
  | TaggedUnion s q ps attrs, TaggedUnion s' q' ps' attrs' =>
      bool_decide (s = s') && bool_decide (q = q') && all ps ps' && all_attrs attrs attrs'
  | CEnum q, CEnum q' => bool_decide (q = q')
  | CType q, CType q' => bool_decide (q = q')
  | _, _ => false
  end.

Lemma Ty_eqb_eq x : forall y, Ty_eqb x y = true <-> x = y.
Proof.
  assert (Hall : forall l : list Ty, Forall (fun x => forall y, Ty_eqb x y = true <-> x = y) l ->
    forall l', (fix all (l1 l2 : list Ty) : bool :=
      match l1, l2 with
      | [], [] => true
      | a :: l1', b :: l2' => Ty_eqb a b && all l1' l2'
      | _, _ => false
      end) l l' = true <-> l = l').
  { induction 1 as [|a l Ha _ IH]; intros [|b l']; simpl; try (split; congruence).
    rewrite andb_true_iff, Ha, IH. split; [by intros [-> ->]|by intros [= -> ->]]. }
  assert (Hattrs : forall l : list (string * Ty),
    Forall (fun a => forall y, Ty_eqb a.2 y = true <-> a.2 = y) l ->
    forall l', (fix all_attrs (l1 l2 : list (string * Ty)) : bool :=
      match l1, l2 with
      | [], [] => true
      | a :: l1', b :: l2' => bool_decide (a.1 = b.1) && Ty_eqb a.2 b.2 && all_attrs l1' l2'
      | _, _ => false
      end) l l' = true <-> l = l').
  { induction 1 as [|[n a] l Ha _ IH]; intros [|[m b] l']; simpl; try (split; congruence).
    rewrite !andb_true_iff, bool_decide_eq_true, Ha, IH. simpl.
    split; [by intros [[-> ->] ->]|by intros [= -> -> ->]]. }
  induction x using Ty_nested_ind; intros []; simpl; try (split; congruence);
    rewrite ?andb_true_iff, ?bool_decide_eq_true, ?Bool.eqb_true_iff;
    repeat match goal with
    | IH : forall y, Ty_eqb ?x y = true <-> ?x = y |- _ => rewrite IH; clear IH
    | IH : Forall (fun x => forall y, Ty_eqb x y = true <-> _) _ |- _ => rewrite (Hall _ IH); clear IH
    | IH : Forall (fun a => forall y, Ty_eqb a.2 y = true <-> _) _ |- _ => rewrite (Hattrs _ IH); clear IH
    end; (split; [intros; destruct_and?; congruence|intros [=]; done]).
Qed.

#[global] Instance Ty_eq_dec : EqDecision Ty.
Proof.
  intros x y. destruct (Ty_eqb x y) eqn:E.
  - left. by apply Ty_eqb_eq.
  - right. intros Heq%Ty_eqb_eq. congruence.
Defined.

(** ** Classification ([Type.leaves] ... [Type.has_vtable] and the overrides) *)

(** [TypeVar]s are the keys of a substitution; [zip] stops at the shorter list. *)
Definition subst_pairs {A} (params : list Ty) (args : list A) : list (Ty * A) := zip params args.

Fixpoint subst_lookup {A} (t : Ty) (sub : list (Ty * A)) : option A :=
  match sub with
  | [] => None
  | (k, a) :: sub' =>
      (* a Python dict built from the pairs: the last binding of a key wins *)
      match subst_lookup t sub' with
      | Some b => Some b
      | None => if bool_decide (t = k) then Some a else None
      end
  end.

(** [leaves()]: a union's member types, any other type itself. *)
Definition leaves (t : Ty) : list Ty :=
  match t with
  | TaggedUnion _ _ _ attrs => map snd attrs
  | _ => [t]
  end.

Fixpoint is_rc (t : Ty) : bool :=
  match t with
  | RCClass _ | ClosureType _ _ | TupleType _ => true
  | TaggedUnion _ _ _ attrs => existsb (fun a => is_rc a.2) attrs
  | Specialization base args =>
      match base with
      | TaggedUnion _ _ params attrs =>
          (* [bool( self.rc_leaves() )], with the substituted leaves asked in place *)
          let sub := subst_pairs params (map is_rc args) in
          existsb (fun a => match subst_lookup a.2 sub with Some b => b | None => is_rc a.2 end) attrs
      | _ => is_rc base
      end
  | _ => false
  end.

Fixpoint is_result_type (t : Ty) : bool :=
  match t with
  | TaggedUnion stem _ _ _ => bool_decide (stem = "Result")
  | Specialization base _ => is_result_type base
  | _ => false
  end.

Fixpoint is_rc_pointer (t : Ty) : bool :=
  match t with
  | RCClass _ | ClosureType _ _ | TupleType _ => true
  | Specialization base _ => is_rc_pointer base
  | _ => false
  end.

Fixpoint has_object_header (t : Ty) : bool :=
  match t with
  | RCClass _ | ClosureType _ _ => true
  | Specialization base _ => has_object_header base
  | _ => false
  end.

Fixpoint has_vtable (t : Ty) : bool :=
  match t with
  | RCClass _ | ClosureType _ _ => true
  | CStruct _ is_interface => is_interface
  | Specialization base _ => has_vtable base
  | _ => false
  end.

(** The leaves of a specialized union, its type parameters substituted one
    level deep ([Specialization.rc_leaves]). *)
Definition substituted_leaves (params : list Ty) (attrs : list (string * Ty)) (args : list Ty) : list Ty :=
  let sub := subst_pairs params args in
  map (fun leaf => match subst_lookup leaf sub with Some a => a | None => leaf end) (map snd attrs).

Definition rc_leaves (t : Ty) : list Ty :=
  match t with
  | Specialization (TaggedUnion _ _ params attrs) args =>
      List.filter is_rc (substituted_leaves params attrs args)
  | TaggedUnion _ _ _ attrs => List.filter is_rc (map snd attrs)
  | _ => if is_rc t then [t] else []
  end.

(** ** Ownership annotations ([Move], [Copy]) *)

Inductive Annotation : Type :=
| Plain (t : Ty)
| Move (inner : Ty)
| Copy (inner : Ty).

Definition unwrap_ownership (a : Annotation) : Ty :=
  match a with Plain t | Move t | Copy t => t end.

(** Asking a wrapper a runtime question is an [AssertionError]. *)
Inductive OwnershipAssertion := NotARuntimeType (question : string) (inner : Ty).

Definition ask {A} (question : string) (f : Ty -> A) (a : Annotation) : result OwnershipAssertion A :=
  match a with
  | Plain t => Ok (f t)
  | Move t | Copy t => Err (NotARuntimeType question t)
  end.

(** ** Integer scalar ranges ([Scalar.is_signed], [int_stem_range]) *)

Definition _SIGNED_INT_STEMS : list string := ["i8"; "i16"; "i32"; "i64"; "i128"; "isize"].

Definition is_signed (stem : string) : bool := existsb (String.eqb stem) _SIGNED_INT_STEMS.
Definition is_float (stem : string) : bool := String.eqb stem "f32" || String.eqb stem "f64".

Definition int_stem_range (stem : string) (sizeof : Z) : Z * Z :=
  let bits := (sizeof * 8)%Z in
  if bool_decide (String.get 0 stem = String.get 0 "i")
  then ((- 2 ^ (bits - 1))%Z, (2 ^ (bits - 1) - 1)%Z)
  else (0%Z, (2 ^ bits - 1)%Z).

(** ** Facts about the classification *)

Lemma filter_nil_existsb {A} (f : A -> bool) l :
  existsb f l = negb (bool_decide (List.filter f l = [])).
Proof.
  induction l as [|x l IH]; simpl; [done|].
  by destruct (f x).
Qed.

Lemma existsb_map {A B} (f : B -> bool) (g : A -> B) l :
  existsb f (map g l) = existsb (fun x => f (g x)) l.
Proof. induction l as [|x l IH]; simpl; [done|by rewrite IH]. Qed.

Lemma existsb_ext {A} (f g : A -> bool) l :
  (forall x, f x = g x) -> existsb f l = existsb g l.
Proof. intros H. induction l as [|x l IH]; simpl; [done|by rewrite H, IH]. Qed.

Lemma subst_lookup_map {A B} (f : A -> B) t params (args : list A) :
  subst_lookup t (subst_pairs params (map f args)) = f <$> subst_lookup t (subst_pairs params args).
Proof.
  unfold subst_pairs. revert args.
  induction params as [|p params IH]; intros [|a args]; simpl; try done.
  rewrite IH. destruct (subst_lookup t (zip params args)); simpl; [done|].
  by case_bool_decide.
Qed.

Lemma is_rc_leaves t : is_rc t = negb (bool_decide (rc_leaves t = [])).
Proof.
  assert (Hself : forall t, is_rc t = negb (bool_decide ((if is_rc t then [t] else []) = []))).
  { intros u. by destruct (is_rc u). }
  destruct t as [| |base args| | | | | | | | | |s q ps attrs| |]; try apply Hself.
  - destruct base; try apply Hself. simpl.
    rewrite <- filter_nil_existsb. unfold substituted_leaves. rewrite !existsb_map.
    apply existsb_ext. intros [n leaf]. simpl. rewrite subst_lookup_map.
    by destruct (subst_lookup leaf _).
  - simpl. by rewrite <- filter_nil_existsb, existsb_map.
Qed.

Lemma rc_leaves_nil t : rc_leaves t = [] <-> is_rc t = false.
Proof.
  rewrite is_rc_leaves, negb_false_iff, bool_decide_eq_true. done.
Qed.

Lemma rc_leaves_is_rc t leaf : leaf ∈ rc_leaves t -> is_rc leaf = true.
Proof.
  assert (Hself : forall u, leaf ∈ (if is_rc u then [u] else []) -> is_rc leaf = true).
  { intros u. destruct (is_rc u) eqn:E; [by intros ->%list_elem_of_singleton|by intros ?%not_elem_of_nil]. }
  destruct t as [| |base args| | | | | | | | | |s q ps attrs| |]; try apply Hself.
  - destruct base; try apply Hself.
    unfold rc_leaves. rewrite list_elem_of_In, filter_In. tauto.
  - unfold rc_leaves. rewrite list_elem_of_In, filter_In. tauto.
Qed.

Lemma is_rc_pointer_is_rc t : is_rc_pointer t = true -> is_rc t = true.
Proof.
  induction t using Ty_nested_ind; simpl; try done.
  destruct t; simpl in *; try done; auto.
Qed.

#[export] Hint Rewrite rc_leaves_nil : mpy.
#[export] Hint Resolve rc_leaves_is_rc is_rc_pointer_is_rc : mpy.

(** Every type kind whose values carry references and are not a union is a
    bare pointer: an RC type is a pointer or a (specialized) union. *)
Fixpoint is_union (t : Ty) : bool :=
  match t with
  | TaggedUnion _ _ _ _ => true
  | Specialization base _ => is_union base
  | _ => false
  end.

