(* ===== verification/Ir.v ===== *)
(** * The intermediate representation ([ir.py])

    Operands, the instructions the ownership pass emits or walks over, and the
    meaning of the reference-counting fragment: [exec] runs a list of
    instructions whose jumps all go forward, which is what [cfg.py] emits. *)

From S2P Require Import Prelude MpyTypes.

(** ** Values named by instructions *)

(** [mpy_types.Variable]: [v_uid] is the process-wide counter that gives the
    object its identity, [v_pending] is [resolve is not None], [v_type] the
    type once resolved. *)
Record Variable_ := mkVariable_ {
  v_uid : nat;
  v_stem : string;
  v_type : Ty;
  v_is_global : bool;
  v_pending : bool;
}.

#[global] Instance Variable_identity : Identity Variable_ := v_uid.

Record Parameter_ := mkParameter_ {
  p_var : Variable_;
  p_is_move : bool;
  p_is_copy : bool;
}.

Record Temp := mkTemp { temp_type : Ty; temp_id : nat }.

Inductive ConstValue :=
| CBool (b : bool)
| CInt (z : Z)
| CStr (s : string)
| CNone.

Inductive Operand :=
| OTemp (t : Temp)
| OConst (type : Ty) (value : ConstValue)
| OVar (v : Variable_)
| OFunctionRef (qualname : string).

(** [x is operand] for a variable [x]. *)
Definition operand_is (op : Operand) (v : Variable_) : bool :=
  match op with OVar w => is_same v w | _ => false end.

(** A label is [__{prefix}_{id}__]; the counter makes it unique. *)
Record label := mkLabel { l_prefix : string; l_id : nat }.

#[global] Instance label_eq_dec : EqDecision label.
Proof. solve_decision. Defined.
#[global] Instance label_countable : Countable label.
Proof.
  refine (inj_countable' (fun l => (l_prefix l, l_id l)) (fun p => mkLabel p.1 p.2) _).
  by intros [].
Defined.

Inductive CmpOp := EQ | NE | LT | LE | GT | GE.

Inductive Instruction :=
| DeclareTemp (temp : Temp)
| DeleteTemp (temp : Temp)
| DeclareLocal (variable : Variable_)
| Assign (dest src : Operand)
| GetAttr (dest : Temp) (obj : Operand) (attr : string)
| SetAttr (obj : Operand) (attr : string) (value : Operand)
| Cmp (dest : Temp) (op : CmpOp) (left right : Operand)
| Label (name : label)
| Jump (target : label)
| JumpIfFalse (cond : Operand) (target : label)
| JumpIfTrue (cond : Operand) (target : label)
| Call (dest : option Temp) (target : string) (receiver : option Operand)
       (args : list Operand) (kwargs : dict Operand)
| Allocate (dest : Temp) (cls : Ty) (fields : dict Operand)
| Incref (value : Operand)
| Decref (value : Operand)
| AcquireGlobalLock (var : Variable_) (exclusive : bool)
| ReleaseGlobalLock (var : Variable_)
| Return (value : option Operand).

(** ** Meaning of the reference-counting fragment *)

(** A pointer is the address of a heap object; a union is a tag and the raw
    payload memory its members share. *)
Inductive val :=
| VPtr (p : nat)
| VBool (b : bool)
| VInt (z : Z)
| VOther
| VUnion (tag : nat) (payload : val)
| VData (payload : val).

Inductive rc_op := OpIncref | OpDecref.

Record mach := mkMach {
  m_temps : gmap nat val;          (* by [temp_id] *)
  m_vars : gmap nat val;           (* by [v_uid] *)
  m_log : list (rc_op * nat);      (* retains and releases done so far, in order *)
}.

Inductive mode := Running | Skipping (l : label) | Stuck.

Definition eval_const (c : ConstValue) : val :=
  match c with CBool b => VBool b | CInt z => VInt z | _ => VOther end.

Definition eval (m : mach) (op : Operand) : option val :=
  match op with
  | OTemp t => m_temps m !! temp_id t
  | OConst _ c => Some (eval_const c)
  | OVar v => m_vars m !! v_uid v
  | OFunctionRef _ => Some VOther
  end.

(** Reading a member of the payload C union reinterprets the same memory,
    whichever member is named. *)
Definition get_attr (v : val) (attr : string) : option val :=
  match v with
  | VUnion tag pl =>
      if String.eqb attr "tag" then Some (VInt (Z.of_nat tag))
      else if String.eqb attr "data" then Some (VData pl) else None
  | VData pl => Some pl
  | _ => None
  end.

Definition set_temp (t : Temp) (v : val) (m : mach) : mach :=
  mkMach (<[temp_id t := v]> (m_temps m)) (m_vars m) (m_log m).

Definition set_dest (d : Operand) (v : val) (m : mach) : option mach :=
  match d with
  | OTemp t => Some (set_temp t v m)
  | OVar x => Some (mkMach (m_temps m) (<[v_uid x := v]> (m_vars m)) (m_log m))
  | _ => None
  end.

Definition log_rc (op : rc_op) (p : nat) (m : mach) : mach :=
  mkMach (m_temps m) (m_vars m) (m_log m ++ [(op, p)]).

Definition val_eqb (v w : val) : option bool :=
  match v, w with
  | VInt a, VInt b => Some (Z.eqb a b)
  | VBool a, VBool b => Some (Bool.eqb a b)
  | VPtr a, VPtr b => Some (Nat.eqb a b)
  | _, _ => None
  end.

Definition exec_rc (op : rc_op) (value : Operand) (m : mach) : mode * mach :=
  match eval m value with
  | Some (VPtr p) => (Running, log_rc op p m)
  | _ => (Stuck, m)
  end.

(** One instruction while running. *)
Definition step (i : Instruction) (m : mach) : mode * mach :=
  match i with
  | DeclareTemp _ | DeclareLocal _ | Label _ => (Running, m)
  | AcquireGlobalLock _ _ | ReleaseGlobalLock _ => (Running, m)
  | Assign d src =>
      match eval m src with
      | Some v => match set_dest d v m with Some m' => (Running, m') | None => (Stuck, m) end
      | None => (Stuck, m)
      end
  | GetAttr d obj attr =>
      match eval m obj ≫= fun v => get_attr v attr with
      | Some v => (Running, set_temp d v m)
      | None => (Stuck, m)
      end
  | Cmp d EQ l r =>
      match eval m l, eval m r with
      | Some v, Some w =>
          match val_eqb v w with
          | Some b => (Running, set_temp d (VBool b) m)
          | None => (Stuck, m)
          end
      | _, _ => (Stuck, m)
      end
  | Jump l => (Skipping l, m)
  | JumpIfFalse c l =>
      match eval m c with
      | Some (VBool b) => (if b then Running else Skipping l, m)
      | _ => (Stuck, m)
      end
  | JumpIfTrue c l =>
      match eval m c with
      | Some (VBool b) => (if b then Skipping l else Running, m)
      | _ => (Stuck, m)
      end
  | Incref v => exec_rc OpIncref v m
  | Decref v => exec_rc OpDecref v m
  | _ => (Stuck, m)
  end.

(** After a jump, instructions are passed over up to the target label. *)
Definition exec_instr (c : mode * mach) (i : Instruction) : mode * mach :=
  let '(md, m) := c in
  match md with
  | Running => step i m
  | Skipping l =>
      match i with
      | Label l' => if bool_decide (l = l') then (Running, m) else (md, m)
      | _ => (md, m)
      end
  | Stuck => (md, m)
  end.

Definition exec (code : list Instruction) (c : mode * mach) : mode * mach :=
  fold_left exec_instr code c.

Lemma exec_app a b c : exec (a ++ b) c = exec b (exec a c).
Proof. apply fold_left_app. Qed.

Lemma exec_cons i a c : exec (i :: a) c = exec a (exec_instr c i).
Proof. done. Qed.

(** The labels declared in a piece of code come from a range of the counter. *)
Definition labels_in (lo hi : nat) (code : list Instruction) : Prop :=
  forall l, Label l ∈ code -> lo <= l_id l < hi.

Lemma labels_in_nil lo hi : labels_in lo hi [].
Proof. intros l Hl. by apply not_elem_of_nil in Hl. Qed.

Lemma labels_in_app lo hi a b : labels_in lo hi a -> labels_in lo hi b -> labels_in lo hi (a ++ b).
Proof. intros Ha Hb l [?|?]%elem_of_app; auto. Qed.

Lemma labels_in_cons lo hi i a :
  (forall l, i = Label l -> lo <= l_id l < hi) -> labels_in lo hi a -> labels_in lo hi (i :: a).
Proof. intros Hi Ha l [Heq|?]%elem_of_cons; auto. Qed.

Lemma labels_in_weaken lo hi lo' hi' a :
  labels_in lo hi a -> lo' <= lo -> hi <= hi' -> labels_in lo' hi' a.
Proof. intros Ha ? ? l Hl. specialize (Ha l Hl). lia. Qed.

#[export] Hint Resolve labels_in_nil labels_in_app : mpy.

Lemma exec_skip l code m :
  Label l ∉ code -> exec code (Skipping l, m) = (Skipping l, m).
Proof.
  induction code as [|i code IH]; [done|]. intros [Hi Hc]%not_elem_of_cons.
  rewrite exec_cons. simpl. destruct i; auto. case_bool_decide; [by subst|auto].
Qed.

Lemma exec_skip_range l lo hi code m :
  labels_in lo hi code -> (l_id l < lo \/ hi <= l_id l) ->
  exec code (Skipping l, m) = (Skipping l, m).
Proof. intros Hc Hl. apply exec_skip. intros Hin. apply Hc in Hin. lia. Qed.

Lemma exec_skip_to l code rest m :
  Label l ∉ code -> exec (code ++ Label l :: rest) (Skipping l, m) = exec rest (Running, m).
Proof.
  intros Hc. rewrite exec_app, exec_skip by done. rewrite exec_cons. simpl.
  by rewrite bool_decide_true.
Qed.
