(* ===== verification/CfgState.v ===== *)
(** * The ownership pass: its state ([cfg.py], [CFGState])

    [CFGState] is the state the pass keeps while one function is lowered.
    [Epilogue] objects are mutated in place and shared between the stack, the
    bindings and snapshots, so they live in a heap and everything else holds
    references to them. *)

From S2P Require Import Prelude MpyTypes Ir.

(** ** Errors *)

Inductive OwnState := OWNED | BORROWED | MOVED.

#[global] Instance OwnState_eq_dec : EqDecision OwnState.
Proof. solve_decision. Defined.

(** One constructor per [raise CompileError] of [cfg.py] (the message's data),
    then the Python exceptions a broken invariant would raise. *)
Inductive exn :=
| ResultsNeverInspected (names : gset string)
| ResultsNeverInspectedInLoop (ctx : string) (names : gset string)
| ResultDiscarded (stem : string)
| ResultDiscardedByDel (stem : string)
| ResultInspectedOnOneBranch (ctx name : string)
| ResultLeavesBranchUninspected (ctx name : string)
| ResultFreshEachIteration (ctx name : string)
| IndeterminateAfterIf (ctx name : string) (on_true on_false : OwnState)
| ExistsOnOneBranch (ctx name : string)
| IndeterminateAcrossLoop (ctx name : string) (entering at_end : OwnState)
| InconsistentAcrossLoop (ctx name : string)
| NotInitialized (ctx stem : string)
| CannotMove (target_qualname param_stem stem : string) (state : OwnState)
| SelfEscapes (ctx : string) (missing : list string)
| InitMissing (ctx : string) (missing : list string)
| UnionFieldCollision (qualname field : string)
| AssertionError (what : string)
| KeyError (key : string)
| IndexError (what : string)
| RecursionError
| DanglingReference (r : nat).

(** ** Data *)

Record Epilogue := mkEpilogue {
  e_instructions : list Instruction;
  e_name : label;
  e_operand : option Variable_;
  e_type : option Ty;
  e_flag : option Variable_;
  e_is_err_only : bool;
  e_cancelled : bool;
  e_is_construction_attr : bool;
  e_survives_loop_restore : bool;
}.

Definition is_flag_guarded (e : Epilogue) : bool :=
  match e_flag e with Some _ => true | None => false end.

Definition with_cancelled (c : bool) (e : Epilogue) : Epilogue :=
  mkEpilogue (e_instructions e) (e_name e) (e_operand e) (e_type e) (e_flag e)
    (e_is_err_only e) c (e_is_construction_attr e) (e_survives_loop_restore e).

Definition with_flag (f : option Variable_) (e : Epilogue) : Epilogue :=
  mkEpilogue (e_instructions e) (e_name e) (e_operand e) (e_type e) f
    (e_is_err_only e) (e_cancelled e) (e_is_construction_attr e) (e_survives_loop_restore e).

Record Binding := mkBinding {
  b_operand : Variable_;
  b_type : Ty;
  b_state : OwnState;
  b_entry : option nat;
}.

Record InlineScope := mkInlineScope {
  is_boundary_depth : nat;
  is_label : label;
  is_captured : bool;
  is_merge_captured : bool;
}.

(** What [lowering_stmt.py] keeps on behalf of [new_temp] and [new_label]:
    the counters, and the [DeclareTemp]s [new_temp] emits as it mints. *)
Record Lowering := mkLowering {
  lw_temp_id : nat;
  lw_label_id : nat;
  lw_uid : nat;
  lw_emitted : list Instruction;
}.

Record CFGState := mkCFGState {
  fn_qualname : option string;  (* self.fn.qualname, None for a global's initializer *)
  heap : gmap nat Epilogue;  (* the Epilogue objects, by reference *)
  next_ref : nat;  (* first unused reference *)
  epilogue_stack : list nat;  (* self._epilogue_stack, the top last *)
  captured_labels : gset label;  (* self._captured_labels *)
  any_shared_label_used : bool;  (* self._any_shared_label_used *)
  cancel_flags : list Variable_;  (* self._cancel_flags *)
  confinement_depths : list nat;  (* self._confinement_depths *)
  inline_scope_stack : list InlineScope;  (* self._inline_scope_stack *)
  break_narrowed_stack : list (list (dict (list Variable_)));  (* self._break_narrowed_stack *)
  break_live_stack : list (list (gset string));  (* self._break_live_stack *)
  bindings : dict Binding;  (* self.bindings *)
  live : gset string;  (* self._live *)
  unchecked_results : gset string;  (* self._unchecked_results *)
  narrowed : dict (list Variable_);  (* self._narrowed *)
  temp_states : gmap nat Ty;  (* self._temp_states, by temp id *)
  prologue_instructions : list Instruction;  (* self.prologue_instructions *)
  construction_self : option Variable_;  (* self._construction_self *)
  construction_required : list Variable_;  (* self._construction_required *)
  possibly_retained : gset string;  (* self._possibly_retained *)
  reassigned_outside_init : gset nat;  (* Variable.reassigned_outside_init, by uid *)
  lw : Lowering;  (* the function lowering's own counters and stream *)
}.

Definition set_heap (v : gmap nat Epilogue) (s : CFGState) : CFGState :=
  mkCFGState
    s.(fn_qualname) v s.(next_ref) s.(epilogue_stack) s.(captured_labels)
    s.(any_shared_label_used) s.(cancel_flags) s.(confinement_depths) s.(inline_scope_stack)
    s.(break_narrowed_stack) s.(break_live_stack) s.(bindings) s.(live)
    s.(unchecked_results) s.(narrowed) s.(temp_states) s.(prologue_instructions)
    s.(construction_self) s.(construction_required) s.(possibly_retained)
    s.(reassigned_outside_init) s.(lw).
Definition set_next_ref (v : nat) (s : CFGState) : CFGState :=
  mkCFGState
    s.(fn_qualname) s.(heap) v s.(epilogue_stack) s.(captured_labels)
    s.(any_shared_label_used) s.(cancel_flags) s.(confinement_depths) s.(inline_scope_stack)
    s.(break_narrowed_stack) s.(break_live_stack) s.(bindings) s.(live)
    s.(unchecked_results) s.(narrowed) s.(temp_states) s.(prologue_instructions)
    s.(construction_self) s.(construction_required) s.(possibly_retained)
    s.(reassigned_outside_init) s.(lw).
Definition set_epilogue_stack (v : list nat) (s : CFGState) : CFGState :=
  mkCFGState
    s.(fn_qualname) s.(heap) s.(next_ref) v s.(captured_labels) s.(any_shared_label_used)
    s.(cancel_flags) s.(confinement_depths) s.(inline_scope_stack) s.(break_narrowed_stack)
    s.(break_live_stack) s.(bindings) s.(live) s.(unchecked_results) s.(narrowed)
    s.(temp_states) s.(prologue_instructions) s.(construction_self)
    s.(construction_required) s.(possibly_retained) s.(reassigned_outside_init) s.(lw).
Definition set_captured_labels (v : gset label) (s : CFGState) : CFGState :=
  mkCFGState
    s.(fn_qualname) s.(heap) s.(next_ref) s.(epilogue_stack) v s.(any_shared_label_used)
    s.(cancel_flags) s.(confinement_depths) s.(inline_scope_stack) s.(break_narrowed_stack)
    s.(break_live_stack) s.(bindings) s.(live) s.(unchecked_results) s.(narrowed)
    s.(temp_states) s.(prologue_instructions) s.(construction_self)
    s.(construction_required) s.(possibly_retained) s.(reassigned_outside_init) s.(lw).
Definition set_any_shared_label_used (v : bool) (s : CFGState) : CFGState :=
  mkCFGState
    s.(fn_qualname) s.(heap) s.(next_ref) s.(epilogue_stack) s.(captured_labels) v
    s.(cancel_flags) s.(confinement_depths) s.(inline_scope_stack) s.(break_narrowed_stack)
    s.(break_live_stack) s.(bindings) s.(live) s.(unchecked_results) s.(narrowed)
    s.(temp_states) s.(prologue_instructions) s.(construction_self)
    s.(construction_required) s.(possibly_retained) s.(reassigned_outside_init) s.(lw).
Definition set_cancel_flags (v : list Variable_) (s : CFGState) : CFGState :=
  mkCFGState
    s.(fn_qualname) s.(heap) s.(next_ref) s.(epilogue_stack) s.(captured_labels)
    s.(any_shared_label_used) v s.(confinement_depths) s.(inline_scope_stack)
    s.(break_narrowed_stack) s.(break_live_stack) s.(bindings) s.(live)
    s.(unchecked_results) s.(narrowed) s.(temp_states) s.(prologue_instructions)
    s.(construction_self) s.(construction_required) s.(possibly_retained)
    s.(reassigned_outside_init) s.(lw).
Definition set_confinement_depths (v : list nat) (s : CFGState) : CFGState :=
  mkCFGState
    s.(fn_qualname) s.(heap) s.(next_ref) s.(epilogue_stack) s.(captured_labels)
    s.(any_shared_label_used) s.(cancel_flags) v s.(inline_scope_stack)
    s.(break_narrowed_stack) s.(break_live_stack) s.(bindings) s.(live)
    s.(unchecked_results) s.(narrowed) s.(temp_states) s.(prologue_instructions)
    s.(construction_self) s.(construction_required) s.(possibly_retained)
    s.(reassigned_outside_init) s.(lw).
Definition set_inline_scope_stack (v : list InlineScope) (s : CFGState) : CFGState :=
  mkCFGState
    s.(fn_qualname) s.(heap) s.(next_ref) s.(epilogue_stack) s.(captured_labels)
    s.(any_shared_label_used) s.(cancel_flags) s.(confinement_depths) v
    s.(break_narrowed_stack) s.(break_live_stack) s.(bindings) s.(live)
    s.(unchecked_results) s.(narrowed) s.(temp_states) s.(prologue_instructions)
    s.(construction_self) s.(construction_required) s.(possibly_retained)
    s.(reassigned_outside_init) s.(lw).
Definition set_break_narrowed_stack (v : list (list (dict (list Variable_)))) (s : CFGState) : CFGState :=
  mkCFGState
    s.(fn_qualname) s.(heap) s.(next_ref) s.(epilogue_stack) s.(captured_labels)
    s.(any_shared_label_used) s.(cancel_flags) s.(confinement_depths) s.(inline_scope_stack)
    v s.(break_live_stack) s.(bindings) s.(live) s.(unchecked_results) s.(narrowed)
    s.(temp_states) s.(prologue_instructions) s.(construction_self)
    s.(construction_required) s.(possibly_retained) s.(reassigned_outside_init) s.(lw).
Definition set_break_live_stack (v : list (list (gset string))) (s : CFGState) : CFGState :=
  mkCFGState
    s.(fn_qualname) s.(heap) s.(next_ref) s.(epilogue_stack) s.(captured_labels)
    s.(any_shared_label_used) s.(cancel_flags) s.(confinement_depths) s.(inline_scope_stack)
    s.(break_narrowed_stack) v s.(bindings) s.(live) s.(unchecked_results) s.(narrowed)
    s.(temp_states) s.(prologue_instructions) s.(construction_self)
    s.(construction_required) s.(possibly_retained) s.(reassigned_outside_init) s.(lw).
Definition set_bindings (v : dict Binding) (s : CFGState) : CFGState :=
  mkCFGState
    s.(fn_qualname) s.(heap) s.(next_ref) s.(epilogue_stack) s.(captured_labels)
    s.(any_shared_label_used) s.(cancel_flags) s.(confinement_depths) s.(inline_scope_stack)
    s.(break_narrowed_stack) s.(break_live_stack) v s.(live) s.(unchecked_results)
    s.(narrowed) s.(temp_states) s.(prologue_instructions) s.(construction_self)
    s.(construction_required) s.(possibly_retained) s.(reassigned_outside_init) s.(lw).
Definition set_live (v : gset string) (s : CFGState) : CFGState :=
  mkCFGState
    s.(fn_qualname) s.(heap) s.(next_ref) s.(epilogue_stack) s.(captured_labels)
    s.(any_shared_label_used) s.(cancel_flags) s.(confinement_depths) s.(inline_scope_stack)
    s.(break_narrowed_stack) s.(break_live_stack) s.(bindings) v s.(unchecked_results)
    s.(narrowed) s.(temp_states) s.(prologue_instructions) s.(construction_self)
    s.(construction_required) s.(possibly_retained) s.(reassigned_outside_init) s.(lw).
Definition set_unchecked_results (v : gset string) (s : CFGState) : CFGState :=
  mkCFGState
    s.(fn_qualname) s.(heap) s.(next_ref) s.(epilogue_stack) s.(captured_labels)
    s.(any_shared_label_used) s.(cancel_flags) s.(confinement_depths) s.(inline_scope_stack)
    s.(break_narrowed_stack) s.(break_live_stack) s.(bindings) s.(live) v s.(narrowed)
    s.(temp_states) s.(prologue_instructions) s.(construction_self)
    s.(construction_required) s.(possibly_retained) s.(reassigned_outside_init) s.(lw).
Definition set_narrowed (v : dict (list Variable_)) (s : CFGState) : CFGState :=
  mkCFGState
    s.(fn_qualname) s.(heap) s.(next_ref) s.(epilogue_stack) s.(captured_labels)
    s.(any_shared_label_used) s.(cancel_flags) s.(confinement_depths) s.(inline_scope_stack)
    s.(break_narrowed_stack) s.(break_live_stack) s.(bindings) s.(live)
    s.(unchecked_results) v s.(temp_states) s.(prologue_instructions) s.(construction_self)
    s.(construction_required) s.(possibly_retained) s.(reassigned_outside_init) s.(lw).
Definition set_temp_states (v : gmap nat Ty) (s : CFGState) : CFGState :=
  mkCFGState
    s.(fn_qualname) s.(heap) s.(next_ref) s.(epilogue_stack) s.(captured_labels)
    s.(any_shared_label_used) s.(cancel_flags) s.(confinement_depths) s.(inline_scope_stack)
    s.(break_narrowed_stack) s.(break_live_stack) s.(bindings) s.(live)
    s.(unchecked_results) s.(narrowed) v s.(prologue_instructions) s.(construction_self)
    s.(construction_required) s.(possibly_retained) s.(reassigned_outside_init) s.(lw).
Definition set_prologue_instructions (v : list Instruction) (s : CFGState) : CFGState :=
  mkCFGState
    s.(fn_qualname) s.(heap) s.(next_ref) s.(epilogue_stack) s.(captured_labels)
    s.(any_shared_label_used) s.(cancel_flags) s.(confinement_depths) s.(inline_scope_stack)
    s.(break_narrowed_stack) s.(break_live_stack) s.(bindings) s.(live)
    s.(unchecked_results) s.(narrowed) s.(temp_states) v s.(construction_self)
    s.(construction_required) s.(possibly_retained) s.(reassigned_outside_init) s.(lw).
Definition set_construction_self (v : option Variable_) (s : CFGState) : CFGState :=
  mkCFGState
    s.(fn_qualname) s.(heap) s.(next_ref) s.(epilogue_stack) s.(captured_labels)
    s.(any_shared_label_used) s.(cancel_flags) s.(confinement_depths) s.(inline_scope_stack)
    s.(break_narrowed_stack) s.(break_live_stack) s.(bindings) s.(live)
    s.(unchecked_results) s.(narrowed) s.(temp_states) s.(prologue_instructions) v
    s.(construction_required) s.(possibly_retained) s.(reassigned_outside_init) s.(lw).
Definition set_construction_required (v : list Variable_) (s : CFGState) : CFGState :=
  mkCFGState
    s.(fn_qualname) s.(heap) s.(next_ref) s.(epilogue_stack) s.(captured_labels)
    s.(any_shared_label_used) s.(cancel_flags) s.(confinement_depths) s.(inline_scope_stack)
    s.(break_narrowed_stack) s.(break_live_stack) s.(bindings) s.(live)
    s.(unchecked_results) s.(narrowed) s.(temp_states) s.(prologue_instructions)
    s.(construction_self) v s.(possibly_retained) s.(reassigned_outside_init) s.(lw).
Definition set_possibly_retained (v : gset string) (s : CFGState) : CFGState :=
  mkCFGState
    s.(fn_qualname) s.(heap) s.(next_ref) s.(epilogue_stack) s.(captured_labels)
    s.(any_shared_label_used) s.(cancel_flags) s.(confinement_depths) s.(inline_scope_stack)
    s.(break_narrowed_stack) s.(break_live_stack) s.(bindings) s.(live)
    s.(unchecked_results) s.(narrowed) s.(temp_states) s.(prologue_instructions)
    s.(construction_self) s.(construction_required) v s.(reassigned_outside_init) s.(lw).
Definition set_reassigned_outside_init (v : gset nat) (s : CFGState) : CFGState :=
  mkCFGState
    s.(fn_qualname) s.(heap) s.(next_ref) s.(epilogue_stack) s.(captured_labels)
    s.(any_shared_label_used) s.(cancel_flags) s.(confinement_depths) s.(inline_scope_stack)
    s.(break_narrowed_stack) s.(break_live_stack) s.(bindings) s.(live)
    s.(unchecked_results) s.(narrowed) s.(temp_states) s.(prologue_instructions)
    s.(construction_self) s.(construction_required) s.(possibly_retained) v s.(lw).
Definition set_lw (v : Lowering) (s : CFGState) : CFGState :=
  mkCFGState
    s.(fn_qualname) s.(heap) s.(next_ref) s.(epilogue_stack) s.(captured_labels)
    s.(any_shared_label_used) s.(cancel_flags) s.(confinement_depths) s.(inline_scope_stack)
    s.(break_narrowed_stack) s.(break_live_stack) s.(bindings) s.(live)
    s.(unchecked_results) s.(narrowed) s.(temp_states) s.(prologue_instructions)
    s.(construction_self) s.(construction_required) s.(possibly_retained)
    s.(reassigned_outside_init) v.

(** The fields [__init__] sets, before it enters the parameters. *)
Definition empty_state (qualname : option string) : CFGState :=
  mkCFGState qualname ∅ 0 [] ∅ false [] [] [] [] [] [] ∅ ∅ [] ∅ [] None [] ∅ ∅
    (mkLowering 0 0 0 []).

Record Snapshot := mkSnapshot {
  snap_bindings : dict Binding;
  snap_stack_depth : nat;
  snap_results : gset string;
  snap_narrowed : dict (list Variable_);
  snap_live : gset string;
  snap_entry_cancelled : list bool;
  snap_entry_flag : list (option Variable_);
  snap_entry_objects : list nat;
}.

Abbreviation C A := (M CFGState exn A).

(** ** References to epilogue entries *)

Definition deref (r : nat) : C Epilogue :=
  fun s => match heap s !! r with
           | Some e => (Ok e, s)
           | None => (Err (DanglingReference r), s)
           end.

Definition store (r : nat) (e : Epilogue) : C unit :=
  modify (fun s => set_heap (<[r := e]> (heap s)) s).

(** Constructing an object: a reference nothing else holds. *)
Definition alloc (e : Epilogue) : C nat :=
  fun s => (Ok (next_ref s), set_next_ref (S (next_ref s)) (set_heap (<[next_ref s := e]> (heap s)) s)).

Definition gets {A} (f : CFGState -> A) : C A := fun s => (Ok (f s), s).

Lemma bind_gets {A B} (f : CFGState -> A) (k : A -> C B) s : bind (gets f) k s = k (f s) s.
Proof. done. Qed.
#[export] Hint Rewrite @bind_gets : monad.

Open Scope monad_scope.

(** ** The callbacks handed to [CFGState] by the lowering *)

Definition new_temp (t : Ty) : C Temp := fun s =>
  let tmp := mkTemp t (lw_temp_id (lw s)) in
  (Ok tmp, set_lw (mkLowering (S (lw_temp_id (lw s))) (lw_label_id (lw s)) (lw_uid (lw s))
                    (lw_emitted (lw s) ++ [DeclareTemp tmp])) s).

Definition new_label (prefix : string) : C label := fun s =>
  (Ok (mkLabel prefix (lw_label_id (lw s))),
   set_lw (mkLowering (lw_temp_id (lw s)) (S (lw_label_id (lw s))) (lw_uid (lw s)) (lw_emitted (lw s))) s).

(** Constructing a [Variable] takes the next uid. *)
Definition new_variable (stem : string) (t : Ty) : C Variable_ := fun s =>
  (Ok (mkVariable_ (lw_uid (lw s)) stem t false false),
   set_lw (mkLowering (lw_temp_id (lw s)) (lw_label_id (lw s)) (S (lw_uid (lw s))) (lw_emitted (lw s))) s).

(** ** Snapshots *)

Definition snapshot : C Snapshot := fun s =>
  match mapM (fun r => heap s !! r) (epilogue_stack s) with
  | Some es =>
      (Ok (mkSnapshot (bindings s) (length (epilogue_stack s)) (unchecked_results s) (narrowed s)
             (live s) (map e_cancelled es) (map e_flag es) (epilogue_stack s)), s)
  | None => (Err (DanglingReference 0), s)
  end.

(** [for i, orig in enumerate( objects ): if not stack[i].is_flag_guarded: stack[i] = orig] *)
Fixpoint swap_back (h : gmap nat Epilogue) (objects stack : list nat) : option (list nat) :=
  match objects, stack with
  | [], _ => Some stack
  | _ :: _, [] => None
  | orig :: objects', cur :: stack' =>
      e ← h !! cur;
      rest ← swap_back h objects' stack';
      Some ((if is_flag_guarded e then cur else orig) :: rest)
  end.

Definition survives (s : CFGState) (e : Epilogue) : bool :=
  is_flag_guarded e || bool_decide (e_name e ∈ captured_labels s) || e_survives_loop_restore e.

Definition survivors (s : CFGState) (refs : list nat) : list nat :=
  List.filter (fun r => match heap s !! r with Some e => survives s e | None => false end) refs.

(** The facts a snapshot reverts unconditionally. *)
Definition revert_facts (snap : Snapshot) (s : CFGState) : CFGState :=
  set_bindings (snap_bindings snap)
    (set_unchecked_results (snap_results snap)
      (set_narrowed (snap_narrowed snap)
        (set_live (snap_live snap) s))).

Definition restore (snap : Snapshot) : C unit := fun s0 =>
  let s := revert_facts snap s0 in
  match swap_back (heap s) (snap_entry_objects snap) (epilogue_stack s) with
  | None => (Err (IndexError "epilogue_stack"), s)
  | Some stack =>
      let kept := survivors s (drop (snap_stack_depth snap) stack) in
      (Ok tt, set_epilogue_stack (take (snap_stack_depth snap) stack ++ kept) s)
  end.

(** [for i, (orig, cancelled, flag) in enumerate( zip( ... )): ...] *)
Fixpoint hard_swap (objects : list nat) (cs : list bool) (fs : list (option Variable_))
    (h : gmap nat Epilogue) (stack : list nat) : option (gmap nat Epilogue * list nat) :=
  match objects, cs, fs with
  | orig :: objects', c :: cs', f :: fs' =>
      e ← h !! orig;
      match stack with
      | [] => None
      | _ :: stack' =>
          '(h', rest) ← hard_swap objects' cs' fs' (<[orig := with_flag f (with_cancelled c e)]> h) stack';
          Some (h', orig :: rest)
      end
  | _, _, _ => Some (h, stack)
  end.

Definition hard_restore (snap : Snapshot) : C unit := fun s0 =>
  let s := revert_facts snap s0 in
  match hard_swap (snap_entry_objects snap) (snap_entry_cancelled snap) (snap_entry_flag snap)
          (heap s) (epilogue_stack s) with
  | None => (Err (IndexError "epilogue_stack"), s)
  | Some (h, stack) =>
      (Ok tt, set_epilogue_stack (take (snap_stack_depth snap) stack) (set_heap h s))
  end.

(** ** Loop and branch brackets *)

Definition enter_loop (stack_depth : nat) : C unit := modify (fun s =>
  set_break_live_stack (break_live_stack s ++ [[]])
    (set_break_narrowed_stack (break_narrowed_stack s ++ [[]])
      (set_confinement_depths (confinement_depths s ++ [stack_depth]) s))).

(** [list.pop()] *)
Definition pop_last {A} (l : list A) : option (A * list A) :=
  x ← last l; Some (x, take (length l - 1) l).

Definition exit_loop : C (list (dict (list Variable_)) * list (gset string)) := fun s =>
  match pop_last (confinement_depths s) with
  | None => (Err (IndexError "_confinement_depths"), s)
  | Some (_, cds) =>
      let s1 := set_confinement_depths cds s in
      match pop_last (break_narrowed_stack s1), pop_last (break_live_stack s1) with
      | Some (bn, bns), Some (bl, bls) =>
          (Ok (bn, bl), set_break_live_stack bls (set_break_narrowed_stack bns s1))
      | Some (_, bns), None => (Err (IndexError "_break_live_stack"), set_break_narrowed_stack bns s1)
      | None, _ => (Err (IndexError "_break_narrowed_stack"), s1)
      end
  end.

(** [if stack: stack[-1].append( x )] *)
Definition append_to_last {A} (x : A) (l : list (list A)) : list (list A) :=
  match pop_last l with
  | Some (xs, l') => l' ++ [xs ++ [x]]
  | None => l
  end.

Definition record_break_narrowed : C unit := modify (fun s =>
  set_break_narrowed_stack (append_to_last (narrowed s) (break_narrowed_stack s)) s).

Definition record_break_live : C unit := modify (fun s =>
  set_break_live_stack (append_to_last (live s) (break_live_stack s)) s).

Definition enter_branch (stack_depth : nat) : C unit := modify (fun s =>
  set_confinement_depths (confinement_depths s ++ [stack_depth]) s).

Definition exit_branch : C unit := fun s =>
  match pop_last (confinement_depths s) with
  | Some (_, cds) => (Ok tt, set_confinement_depths cds s)
  | None => (Err (IndexError "_confinement_depths"), s)
  end.

(** ** Inline scopes *)

Definition push_inline_scope : C label :=
  let* l := new_label "inline_epilogue" in
  let* depth := gets (fun s => length (epilogue_stack s)) in
  modify (fun s => set_inline_scope_stack
    (inline_scope_stack s ++ [mkInlineScope depth l false false]) s) ;;;
  ret l.

(** [self._inline_scope_stack[-1]] *)
Definition top_inline_scope : C InlineScope := fun s =>
  match last (inline_scope_stack s) with
  | Some sc => (Ok sc, s)
  | None => (Err (IndexError "_inline_scope_stack"), s)
  end.

Definition update_top_inline_scope (f : InlineScope -> InlineScope) : C unit := fun s =>
  match pop_last (inline_scope_stack s) with
  | Some (sc, rest) => (Ok tt, set_inline_scope_stack (rest ++ [f sc]) s)
  | None => (Err (IndexError "_inline_scope_stack"), s)
  end.

Definition capture_scope (sc : InlineScope) : InlineScope :=
  mkInlineScope (is_boundary_depth sc) (is_label sc) true (is_merge_captured sc).

Definition inline_scope_captured : C bool :=
  let* sc := top_inline_scope in ret (is_captured sc).

Definition mark_inline_scope_captured : C unit :=
  update_top_inline_scope (fun sc =>
    mkInlineScope (is_boundary_depth sc) (is_label sc) (is_captured sc) true).

Definition pop_inline_scope : C bool := fun s =>
  match pop_last (inline_scope_stack s) with
  | Some (sc, rest) => (Ok (is_merge_captured sc), set_inline_scope_stack rest s)
  | None => (Err (IndexError "_inline_scope_stack"), s)
  end.

(** ** Definite assignment and unchecked results *)

Definition live_snapshot : C (gset string) := gets live.
Definition is_live (name : string) : C bool := gets (fun s => bool_decide (name ∈ live s)).
Definition mark_live (name : string) : C unit := modify (fun s => set_live (live s ∪ {[name]}) s).
Definition unmark_live (name : string) : C unit := modify (fun s => set_live (live s ∖ {[name]}) s).
Definition replace_live (l : gset string) : C unit := modify (set_live l).

Definition track_result (name : string) : C unit :=
  modify (fun s => set_unchecked_results (unchecked_results s ∪ {[name]}) s).
Definition clear_result (name : string) : C unit :=
  modify (fun s => set_unchecked_results (unchecked_results s ∖ {[name]}) s).
Definition is_unchecked (name : string) : C bool :=
  gets (fun s => bool_decide (name ∈ unchecked_results s)).

Definition check_unchecked_results (returned_operand : option Operand) : C unit := fun s =>
  let excluded : gset string := match returned_operand with Some (OVar v) => {[v_stem v]} | _ => ∅ end in
  let remaining := unchecked_results s ∖ excluded in
  let s' := set_unchecked_results ∅ s in
  if bool_decide (remaining = ∅) then (Ok tt, s') else (Err (ResultsNeverInspected remaining), s').

Definition check_loop_exit_unchecked_results (entry_results : gset string) (ctx : string) : C unit := fun s =>
  let confined := unchecked_results s ∖ entry_results in
  let s' := set_unchecked_results (unchecked_results s ∖ confined) s in
  if bool_decide (confined = ∅) then (Ok tt, s') else (Err (ResultsNeverInspectedInLoop ctx confined), s').

(** ** Flags and counters the lowering reads back *)

Definition cancel_flag_count : C nat := gets (fun s => length (cancel_flags s)).
Definition truncate_cancel_flags (count : nat) : C unit :=
  modify (fun s => set_cancel_flags (take count (cancel_flags s)) s).

Definition mark_possibly_retained (operand : Operand) : C unit :=
  match operand with
  | OVar v => modify (fun s => set_possibly_retained (possibly_retained s ∪ {[v_stem v]}) s)
  | _ => ret tt
  end.

(** ** Rolling back to a snapshot *)

Definition flagged_at (h : gmap nat Epilogue) (r : nat) : bool :=
  match h !! r with Some e => is_flag_guarded e | None => false end.

Lemma swap_back_spec h : forall objects stack,
  length objects <= length stack -> (forall r, r ∈ stack -> is_Some (h !! r)) ->
  swap_back h objects stack =
    Some (zip_with (fun orig cur => if flagged_at h cur then cur else orig) objects stack
          ++ drop (length objects) stack).
Proof.
  induction objects as [|o objects IH]; intros stack Hlen Hall; [done|].
  destruct stack as [|cur stack]; simpl in *; [lia|].
  destruct (Hall cur) as [e He]; [left|]. unfold flagged_at at 1. rewrite He. simpl.
  rewrite IH by (try lia; intros; apply Hall; by right). done.
Qed.

Lemma snapshot_inv s snap s' :
  snapshot s = (Ok snap, s') -> s' = s /\ exists es, mapM (fun r => heap s !! r) (epilogue_stack s) = Some es /\
    snap = mkSnapshot (bindings s) (length (epilogue_stack s)) (unchecked_results s) (narrowed s)
             (live s) (map e_cancelled es) (map e_flag es) (epilogue_stack s).
Proof. unfold snapshot. case_match; [|done]. intros [= <- <-]. split; [done|]. by eexists. Qed.

(** The stack [restore] leaves: the snapshot's entries, except those a flag
    meanwhile decides, then the newer entries that must survive. *)
Definition restored_stack (s0 s : CFGState) : list nat :=
  zip_with (fun orig cur => if flagged_at (heap s) cur then cur else orig) (epilogue_stack s0) (epilogue_stack s)
  ++ survivors s (drop (length (epilogue_stack s0)) (epilogue_stack s)).

Lemma restore_run s0 snap s :
  snapshot s0 = (Ok snap, s0) ->
  length (epilogue_stack s0) <= length (epilogue_stack s) ->
  (forall r, r ∈ epilogue_stack s -> is_Some (heap s !! r)) ->
  restore snap s = (Ok tt,
    set_epilogue_stack (restored_stack s0 s)
      (set_bindings (bindings s0) (set_unchecked_results (unchecked_results s0)
        (set_narrowed (narrowed s0) (set_live (live s0) s))))).
Proof.
  intros [_ (es & Hes & ->)]%snapshot_inv Hlen Hall. unfold restore, revert_facts. simpl.
  rewrite swap_back_spec by done. f_equal. f_equal. unfold restored_stack.
  assert (Hz : length (zip_with (fun orig cur => if flagged_at (heap s) cur then cur else orig)
                 (epilogue_stack s0) (epilogue_stack s)) = length (epilogue_stack s0))
    by (rewrite length_zip_with; lia).
  by rewrite take_app_length', drop_app_length' by done.
Qed.

Lemma hard_swap_spec : forall objects es h stack,
  length objects <= length stack -> length es = length objects -> NoDup objects ->
  (forall r, r ∈ objects -> is_Some (h !! r)) ->
  exists h', hard_swap objects (map e_cancelled es) (map e_flag es) h stack
      = Some (h', objects ++ drop (length objects) stack) /\
    (forall r, r ∉ objects -> h' !! r = h !! r) /\
    forall i r e0 e, objects !! i = Some r -> es !! i = Some e0 -> h !! r = Some e ->
      h' !! r = Some (with_flag (e_flag e0) (with_cancelled (e_cancelled e0) e)).
Proof.
  induction objects as [|o objects IH]; intros es h stack Hlen Hes Hnd Hall.
  { destruct es; [|done]. exists h. split_and!; done. }
  destruct es as [|e0 es]; [done|]. destruct stack as [|cur stack]; simpl in *; [lia|].
  apply NoDup_cons in Hnd as [Ho Hnd]. destruct (Hall o) as [e He]; [left|]. rewrite He. simpl.
  set (h1 := <[o := _]> h).
  destruct (IH es h1 stack) as (h' & E & Hout & Hin); [lia|lia|done| |].
  { intros r Hr. unfold h1. rewrite lookup_insert_ne by (intros ->; done). apply Hall. by right. }
  rewrite E. simpl. exists h'. split; [done|]. split.
  - intros r [Hr Hr']%not_elem_of_cons. rewrite Hout by done. unfold h1. by rewrite lookup_insert_ne.
  - intros [|i] r e1 e2 Hr He1 He2; simplify_eq/=.
    + rewrite Hout by done. unfold h1. by rewrite lookup_insert_eq.
    + apply (Hin i); [done..|]. unfold h1. rewrite lookup_insert_ne; [done|].
      intros ->. apply Ho. by eapply list_elem_of_lookup_2.
Qed.

(** [hard_restore] undoes an abandoned attempt exactly.  From any state
    the attempt can leave (the stack no shorter, the snapshot's entries still
    allocated), it gives back the snapshot's bindings, facts and stack, and
    every entry on it has its snapshot-time cancellation and flag again. *)
Theorem hard_restore_undoes s0 snap s :
  snapshot s0 = (Ok snap, s0) -> NoDup (epilogue_stack s0) ->
  length (epilogue_stack s0) <= length (epilogue_stack s) ->
  (forall r, r ∈ epilogue_stack s0 -> is_Some (heap s !! r)) ->
  exists s', hard_restore snap s = (Ok tt, s') /\
    bindings s' = bindings s0 /\ unchecked_results s' = unchecked_results s0 /\
    narrowed s' = narrowed s0 /\ live s' = live s0 /\ epilogue_stack s' = epilogue_stack s0 /\
    forall r e0 e, r ∈ epilogue_stack s0 -> heap s0 !! r = Some e0 -> heap s !! r = Some e ->
      heap s' !! r = Some (with_flag (e_flag e0) (with_cancelled (e_cancelled e0) e)).
Proof.
  intros [_ (es & Hes & ->)]%snapshot_inv Hnd Hlen Hall. unfold hard_restore, revert_facts. simpl.
  apply mapM_Some in Hes. pose proof (Forall2_length _ _ _ Hes) as Hl.
  destruct (hard_swap_spec (epilogue_stack s0) es (heap s) (epilogue_stack s)) as (h' & E & _ & Hin); [done..|].
  rewrite E. eexists. split; [done|]. simpl. rewrite take_app_length. split_and!; [done..|].
  intros r e0 e Hr He0 He. destruct (list_elem_of_lookup_1 _ _ Hr) as [i Hi].
  apply (Hin i); [done| |done].
  apply Forall2_same_length_lookup in Hes as [_ Hes].
  destruct (lookup_lt_is_Some_2 es i) as [e1 He1]; [rewrite <- Hl; by eapply lookup_lt_Some|].
  rewrite He1. specialize (Hes i r e1 Hi He1). congruence.
Qed.

Definition sample_entry (c : bool) : Epilogue :=
  mkEpilogue [] (mkLabel "epilogue" 0) None None None false c false false.

Lemma hard_restore_undoes_witness :
  let s0 := set_epilogue_stack [0] (set_heap {[0 := sample_entry false]} (empty_state None)) in
  let s := set_epilogue_stack [1] (set_heap {[0 := sample_entry true; 1 := sample_entry false]} s0) in
  exists s', hard_restore (mkSnapshot [] 1 ∅ [] ∅ [false] [None] [0]) s = (Ok tt, s') /\
    bindings s' = bindings s0 /\ unchecked_results s' = unchecked_results s0 /\
    narrowed s' = narrowed s0 /\ live s' = live s0 /\ epilogue_stack s' = epilogue_stack s0 /\
    forall r e0 e, r ∈ epilogue_stack s0 -> heap s0 !! r = Some e0 -> heap s !! r = Some e ->
      heap s' !! r = Some (with_flag (e_flag e0) (with_cancelled (e_cancelled e0) e)).
Proof.
  intros s0 s. apply (hard_restore_undoes s0 (mkSnapshot [] 1 ∅ [] ∅ [false] [None] [0]) s).
  - by vm_compute.
  - apply NoDup_singleton.
  - simpl. lia.
  - intros r ->%list_elem_of_singleton. by eexists.
Defined.
