(* ===== verification/UnionStorage.v ===== *)
(** * Runtime representation of tagged unions ([union_storage.py])

    [get] gives every union its [tag: u8] field (a member's ordinal by
    declaration order) and its [data] field, a C union with one [v_<member>]
    field per member. *)

From S2P Require Import Prelude MpyTypes Ir CfgState.

Definition u8_cls : Ty := Scalar "u8" 1.

Record Storage := mkStorage {
  tag_attr : string * Ty;
  data_attr : string * Ty;
  payload_cls : Ty;
  tags : dict nat;
}.

(** What a union's [names] maps a name to: a variable of a type, or
    anything else (a method, a nested class). *)
Inductive NamedObject :=
| NVariable (type : Ty)
| NOther.

(** [union.names], by the union's qualified name: what the discovery (or the
    monomorphizer, for an instance) registered: members and methods alike. *)
Class UnionNames := union_names : string -> dict NamedObject.

(** [{ attr.stem: i for i, attr in enumerate( attributes ) }] *)
Fixpoint enumerate_tags (i : nat) (attrs : list (string * Ty)) (d : dict nat) : dict nat :=
  match attrs with
  | [] => d
  | a :: attrs' => enumerate_tags (S i) attrs' (dict_set a.1 i d)
  end.

Section get.
Context {un : UnionNames}.

(** An instance whose base already has a storage inherits its two fields. *)
Definition existing_storage (qualname : string) (attrs : list (string * Ty)) : option Storage :=
  match dict_get "tag" (union_names qualname), dict_get "data" (union_names qualname) with
  | Some (NVariable tag), Some (NVariable (CUnion q as payload)) =>
      if String.eqb q (qualname ++ "$data")
      then Some (mkStorage ("tag", tag) ("data", payload) payload (enumerate_tags 0 attrs []))
      else None
  | _, _ => None
  end.

(** A name the union already declares, whatever it names, must not be one of
    the two fields. *)
Definition storage_get (t : Ty) : result exn Storage :=
  match t with
  | TaggedUnion _ qualname _ attrs =>
      match existing_storage qualname attrs with
      | Some st => Ok st
      | None =>
          match List.find (fun n => dict_mem n (union_names qualname)) ["tag"; "data"] with
          | Some n => Err (UnionFieldCollision qualname n)
          | None =>
              let payload := CUnion (qualname ++ "$data") in
              Ok (mkStorage ("tag", u8_cls) ("data", payload) payload (enumerate_tags 0 attrs []))
          end
      end
  | _ => Err (AssertionError "union_storage: not a union")
  end.
End get.

(** ** Tags are ordinals *)

Lemma enumerate_tags_other attrs i d n :
  n ∉ map fst attrs -> dict_get n (enumerate_tags i attrs d) = dict_get n d.
Proof.
  revert i d. induction attrs as [|a attrs IH]; intros i d Hn; [done|]. simpl in *.
  apply not_elem_of_cons in Hn as [Hne Hn].
  rewrite IH by done. by apply dict_get_set_ne.
Qed.

Lemma enumerate_tags_lookup attrs i d k n u :
  NoDup (map fst attrs) -> attrs !! k = Some (n, u) ->
  dict_get n (enumerate_tags i attrs d) = Some (i + k).
Proof.
  revert i d k. induction attrs as [|a attrs IH]; intros i d k Hnd Hk; [done|].
  simpl in *. apply NoDup_cons in Hnd as [Hn Hnd]. destruct k as [|k]; simplify_eq/=.
  - rewrite enumerate_tags_other by done. rewrite dict_get_set_eq. f_equal. lia.
  - erewrite IH by done. f_equal. lia.
Qed.

Section correctness.
Context {un : UnionNames}.

(** A union the storage accepts: its members' names are distinct, and its
    names hold either neither of the two fields or both as an earlier call
    made them. *)
Definition storage_ok (qualname : string) (attrs : list (string * Ty)) : Prop :=
  NoDup (map fst attrs) /\
  ((dict_get "tag" (union_names qualname) = None /\ dict_get "data" (union_names qualname) = None) \/
   (dict_get "tag" (union_names qualname) = Some (NVariable u8_cls) /\
    dict_get "data" (union_names qualname) = Some (NVariable (CUnion (qualname ++ "$data"))))).

Lemma storage_get_ok s q ps attrs :
  storage_ok q attrs ->
  storage_get (TaggedUnion s q ps attrs) =
    Ok (mkStorage ("tag", u8_cls) ("data", CUnion (q ++ "$data")) (CUnion (q ++ "$data"))
          (enumerate_tags 0 attrs [])).
Proof.
  intros (_ & [[Ht Hd]|[Ht Hd]]); unfold storage_get, existing_storage; rewrite Ht, ?Hd.
  - cbn [List.find]. unfold dict_mem. by rewrite Ht, Hd.
  - by rewrite String.eqb_refl.
Qed.

Lemma storage_tag s q ps attrs st k n u :
  storage_ok q attrs -> storage_get (TaggedUnion s q ps attrs) = Ok st ->
  attrs !! k = Some (n, u) -> dict_get n (tags st) = Some k.
Proof.
  intros Hok. rewrite storage_get_ok by done. intros [= <-] Hk. simpl.
  destruct Hok as (Hnd & _). by erewrite enumerate_tags_lookup.
Qed.
End correctness.

#[export] Hint Resolve storage_get_ok storage_tag : mpy.
