(* ===== verification/CfgRefcount.v ===== *)
(** * Retain/release emission ([cfg.py], [_refcount_instructions] and below)

    The instruction sequence that retains or releases a value of a given
    type, and its correctness: executed on a value of the type, it performs
    one operation per reference the value holds at run time and nothing else. *)

From S2P Require Import Prelude MpyTypes Ir CfgState UnionStorage.

Definition rc_instr (op : rc_op) (value : Operand) : Instruction :=
  match op with OpIncref => Incref value | OpDecref => Decref value end.

Section refcount.
Context {un : UnionNames}.
(** The lowering's [resolve_type] callback: a specialization's monomorphized
    class, any other type itself. *)
Context (resolve_type : Ty -> Ty) (bool_type : Ty).

Definition extract_payload (t : Ty) (operand : Operand) (member : string * Ty)
    : C (list Instruction * Temp) :=
  let* st := lift (storage_get t) in
  let* payload_dest := new_temp (payload_cls st) in
  let* leaf_dest := new_temp member.2 in
  ret ([GetAttr payload_dest operand (data_attr st).1;
        GetAttr leaf_dest (OTemp payload_dest) ("v_" ++ member.1)], leaf_dest).

Definition tag_of (st : Storage) (stem : string) : C nat :=
  match dict_get stem (tags st) with Some k => ret k | None => raise (KeyError stem) end.

(** One arm of the tag-gated sequence. *)
Definition tag_gated_member (rec : Ty -> Operand -> C (list Instruction))
    (t : Ty) (operand : Operand) (st : Storage) (end_label : label)
    (acc : list Instruction) (member : string * Ty) : C (list Instruction) :=
  let* next_label := new_label "rc_next" in
  let* tag_dest := new_temp (tag_attr st).2 in
  let* cmp_dest := new_temp bool_type in
  let* k := tag_of st member.1 in
  let test := [GetAttr tag_dest operand (tag_attr st).1;
               Cmp cmp_dest EQ (OTemp tag_dest) (OConst (tag_attr st).2 (CInt (Z.of_nat k)));
               JumpIfFalse (OTemp cmp_dest) next_label] in
  let* (extract, payload) := extract_payload t operand member in
  let* inner := rec member.2 (OTemp payload) in
  ret (acc ++ test ++ extract ++ inner ++ [Jump end_label; Label next_label]).

Definition tag_gated_refcount_instructions (rec : Ty -> Operand -> C (list Instruction))
    (t : Ty) (operand : Operand) (rcs : list Ty) : C (list Instruction) :=
  let* st := lift (storage_get t) in
  let attrs := match t with TaggedUnion _ _ _ attrs => attrs | _ => [] end in
  let members := List.filter (fun m => existsb (fun leaf => bool_decide (m.2 = leaf)) rcs) attrs in
  let* end_label := new_label "rc_end" in
  let* code := mfold (tag_gated_member rec t operand st end_label) members [] in
  ret (code ++ [Label end_label]).

(** The recursion goes through [resolve_type], so it carries fuel: running
    out is Python's own [RecursionError]. *)
Fixpoint refcount_instructions (fuel : nat) (op : rc_op) (t0 : Ty) (operand : Operand)
    : C (list Instruction) :=
  match fuel with
  | O => raise RecursionError
  | S fuel' =>
      let t := resolve_type t0 in
      let rcs := rc_leaves t in
      if bool_decide (rcs = []) then ret [] else
      match t with
      | TaggedUnion _ _ _ attrs =>
          if Nat.eqb (length rcs) (length (leaves t)) && forallb is_rc_pointer rcs then
            match attrs with
            | [] => raise (IndexError "attributes")
            | first :: _ =>
                let* (instrs, payload) := extract_payload t operand first in
                ret (instrs ++ [rc_instr op (OTemp payload)])
            end
          else tag_gated_refcount_instructions (refcount_instructions fuel' op) t operand rcs
      | _ => ret [rc_instr op operand]
      end
  end.
End refcount.

(** ** Values of a type *)

(** Union members nest finitely; everything else is a leaf. *)
Fixpoint depth (t : Ty) : nat :=
  match t with
  | TaggedUnion _ _ _ attrs => S (list_max (map (fun a => depth a.2) attrs))
  | _ => 0
  end.

(** No specialization of a union is left (they are monomorphized), and every
    union has a storage. *)
Fixpoint resolved {un : UnionNames} (t : Ty) : Prop :=
  match t with
  | TaggedUnion _ q _ attrs =>
      storage_ok q attrs /\ (fix all l := match l with [] => True | a :: l' => resolved a.2 /\ all l' end) attrs
  | Specialization base _ => is_union base = false
  | _ => True
  end.

(** What [resolve_type] may answer for a resolved type: an instance of the
    same kind for a specialization of a class, the backing class of a tuple,
    any other type itself. *)
Inductive resolves_to : Ty -> Ty -> Prop :=
| resolves_itself t : resolves_to t t
| resolves_tuple elems q : resolves_to (TupleType elems) (RCClass q)
| resolves_class q args q' : resolves_to (Specialization (RCClass q) args) (RCClass q')
| resolves_cstruct q i args q' : resolves_to (Specialization (CStruct q i) args) (CStruct q' i)
| resolves_cunion q args q' : resolves_to (Specialization (CUnion q) args) (CUnion q')
| resolves_cenum q args q' : resolves_to (Specialization (CEnum q) args) (CEnum q').

Lemma resolves_to_kind t u :
  resolves_to t u -> u = t \/ (is_union t = false /\ is_union u = false /\ is_rc u = is_rc t).
Proof. destruct 1; auto. Qed.

Inductive has_type : val -> Ty -> Prop :=
| HT_pointer p t : is_rc_pointer t = true -> has_type (VPtr p) t
| HT_plain v t : is_rc t = false -> is_union t = false -> has_type v t
| HT_union s q ps attrs k n u pl :
    attrs !! k = Some (n, u) -> has_type pl u ->
    has_type (VUnion k pl) (TaggedUnion s q ps attrs).

(** The references a value holds: the active member's, through nested unions. *)
Fixpoint held (t : Ty) (v : val) {struct t} : list nat :=
  match t with
  | TaggedUnion _ _ _ attrs =>
      match v with
      | VUnion k pl =>
          (fix go (k : nat) (l : list (string * Ty)) {struct l} := match l, k with
                         | [], _ => []
                         | a :: _, O => held a.2 pl
                         | _ :: l', S k' => go k' l'
                         end) k attrs
      | _ => []
      end
  | _ => if is_rc t then match v with VPtr p => [p] | _ => [] end else []
  end.

(** ** Counters only grow, the rest of the state is untouched *)

Definition lw_ext (s s' : CFGState) : Prop :=
  exists l, s' = set_lw l s /\
    lw_temp_id (lw s) <= lw_temp_id l /\ lw_label_id (lw s) <= lw_label_id l /\
    lw_uid (lw s) = lw_uid l.

Lemma set_lw_set_lw l l' s : set_lw l (set_lw l' s) = set_lw l s.
Proof. done. Qed.

Lemma set_lw_id s : set_lw (lw s) s = s.
Proof. by destruct s. Qed.

#[global] Instance lw_ext_refl : Reflexive lw_ext.
Proof. intros s. exists (lw s). by rewrite set_lw_id. Qed.

#[global] Instance lw_ext_trans : Transitive lw_ext.
Proof.
  intros s1 s2 s3 (l & -> & ? & ? & ?) (l' & -> & ? & ? & ?). simpl in *.
  exists l'. rewrite set_lw_set_lw. split_and!; try done; lia.
Qed.

Lemma lw_ext_temp s s' : lw_ext s s' -> lw_temp_id (lw s) <= lw_temp_id (lw s').
Proof. by intros (l & -> & ? & ? & ?). Qed.

Lemma lw_ext_label s s' : lw_ext s s' -> lw_label_id (lw s) <= lw_label_id (lw s').
Proof. by intros (l & -> & ? & ? & ?). Qed.

Lemma new_temp_spec t s :
  exists s', new_temp t s = (Ok (mkTemp t (lw_temp_id (lw s))), s') /\ lw_ext s s' /\
    lw_temp_id (lw s') = S (lw_temp_id (lw s)) /\ lw_label_id (lw s') = lw_label_id (lw s).
Proof.
  eexists. split; [done|]. split; [|done]. eexists. split; [done|]. simpl. split_and!; lia.
Qed.

Lemma new_label_spec p s :
  exists s', new_label p s = (Ok (mkLabel p (lw_label_id (lw s))), s') /\ lw_ext s s' /\
    lw_temp_id (lw s') = lw_temp_id (lw s) /\ lw_label_id (lw s') = S (lw_label_id (lw s)).
Proof.
  eexists. split; [done|]. split; [|done]. eexists. split; [done|]. simpl. split_and!; lia.
Qed.

(** An operand that names no temp still to be minted. *)
Definition older (s : CFGState) (operand : Operand) : Prop :=
  match operand with OTemp t => temp_id t < lw_temp_id (lw s) | _ => True end.

Lemma older_ext s s' operand : lw_ext s s' -> older s operand -> older s' operand.
Proof. intros Hle%lw_ext_temp. destruct operand; simpl; [lia|done..]. Qed.

(** [m'] is [m] after operations [ops], fresh temps aside. *)
Definition after (s : CFGState) (m m' : mach) (ops : list (rc_op * nat)) : Prop :=
  m_vars m' = m_vars m /\ m_log m' = m_log m ++ ops /\
  forall i, i < lw_temp_id (lw s) -> m_temps m' !! i = m_temps m !! i.

Lemma after_refl s m : after s m m [].
Proof. split_and!; [done|by rewrite app_nil_r|done]. Qed.

Lemma after_trans s s' m1 m2 m3 o1 o2 :
  lw_ext s s' -> after s m1 m2 o1 -> after s' m2 m3 o2 -> after s m1 m3 (o1 ++ o2).
Proof.
  intros Hle%lw_ext_temp (Hv & Hl & Ht) (Hv' & Hl' & Ht'). split_and!.
  - congruence.
  - by rewrite Hl', Hl, (assoc_L (++)).
  - intros i Hi. rewrite Ht' by lia. by apply Ht.
Qed.

Lemma eval_after s m m' ops operand :
  after s m m' ops -> older s operand -> eval m' operand = eval m operand.
Proof. intros (Hv & _ & Ht) Ho. destruct operand; simpl in *; [by apply Ht|done|by rewrite Hv|done]. Qed.

Lemma after_set_temp s m t v :
  lw_temp_id (lw s) <= temp_id t -> after s m (set_temp t v m) [].
Proof.
  intros Hge. split_and!; simpl; [done|by rewrite app_nil_r|].
  intros i Hi. rewrite lookup_insert_ne by lia. done.
Qed.

(** [gen] emits code that applies [op] to each reference a [t] value holds. *)
Definition emits (op : rc_op) (t : Ty) (operand : Operand) (gen : C (list Instruction)) (s : CFGState) : Prop :=
  exists code s', gen s = (Ok code, s') /\ lw_ext s s' /\
    labels_in (lw_label_id (lw s)) (lw_label_id (lw s')) code /\
    forall v m, has_type v t -> eval m operand = Some v ->
      exists m', exec code (Running, m) = (Running, m') /\
                 after s m m' (map (pair op) (held t v)).

(** ** Union arithmetic *)

Lemma filter_length_all {A} (f : A -> bool) l :
  length (List.filter f l) = length l -> forallb f l = true.
Proof.
  induction l as [|x l IH]; simpl; [done|].
  assert (length (List.filter f l) <= length l).
  { clear. induction l as [|x l IH]; simpl; [done|]. case_match; simpl; lia. }
  destruct (f x); simpl; [intros [=]; by apply IH|lia].
Qed.

Lemma forallb_filter_id {A} (f : A -> bool) l : forallb f l = true -> List.filter f l = l.
Proof.
  induction l as [|x l IH]; simpl; [done|]. intros [Hx Hl]%andb_true_iff.
  by rewrite Hx, IH.
Qed.

Lemma held_union s q ps attrs k n u pl :
  attrs !! k = Some (n, u) -> held (TaggedUnion s q ps attrs) (VUnion k pl) = held u pl.
Proof.
  cbn [held]. revert k. induction attrs as [|a attrs IH]; intros [|k] Hk; simplify_eq/=; [done|by apply IH].
Qed.

Lemma held_plain t v :
  is_union t = false -> held t v = if is_rc t then match v with VPtr p => [p] | _ => [] end else [].
Proof. destruct t; intros Hu; first [reflexivity|discriminate]. Qed.

Lemma is_union_shape t :
  is_union t = false \/ (exists base args, t = Specialization base args) \/
  exists s q ps attrs, t = TaggedUnion s q ps attrs.
Proof. destruct t; simpl; eauto 8. Qed.

Lemma held_not_rc t v : is_rc t = false -> held t v = [].
Proof.
  revert v. induction t using Ty_nested_ind; intros v Hrc; try done;
    [cbn [held]; by rewrite Hrc|].
  destruct v as [| | | |k pl|]; try done. cbn in Hrc |- *. revert k Hrc.
  match goal with H : Forall _ attrs |- _ => induction H as [|a attrs Ha _ IH] end;
    intros [|k] Hrc; try done; apply orb_false_iff in Hrc as [? ?]; auto.
Qed.

Lemma has_type_union_inv v s q ps attrs :
  has_type v (TaggedUnion s q ps attrs) -> is_rc (TaggedUnion s q ps attrs) = true ->
  exists k n u pl, v = VUnion k pl /\ attrs !! k = Some (n, u) /\ has_type pl u.
Proof. inversion 1; subst; simpl in *; try done; eauto 10. Qed.

Lemma has_type_rc_inv v t :
  has_type v t -> is_rc t = true -> is_union t = false -> exists p, v = VPtr p.
Proof. inversion 1; subst; simpl in *; try done; eauto. congruence. Qed.

Lemma held_pointer t p : is_rc t = true -> is_union t = false -> held t (VPtr p) = [p].
Proof. intros Hrc Hu. by rewrite held_plain, Hrc. Qed.

Lemma is_rc_pointer_not_union t : is_rc_pointer t = true -> is_union t = false.
Proof. induction t using Ty_nested_ind; simpl; auto. Qed.

Section storages.
Context {un : UnionNames}.

Lemma resolved_attrs attrs :
  (fix all l := match l with [] => True | a :: l' => resolved a.2 /\ all l' end) attrs <->
  Forall (fun a : string * Ty => resolved a.2) attrs.
Proof. induction attrs as [|a attrs IH]; [done|]. by rewrite Forall_cons, IH. Qed.

Lemma resolved_not_union_spec t :
  resolved t -> (exists s q ps attrs, t = TaggedUnion s q ps attrs) \/ is_union t = false.
Proof. destruct t; simpl; eauto 6. Qed.

End storages.

Lemma depth_attr s q ps attrs a :
  a ∈ attrs -> depth a.2 < depth (TaggedUnion s q ps attrs).
Proof.
  intros Ha. simpl. enough (depth a.2 <= list_max (map (fun a => depth a.2) attrs)) by lia.
  assert (Hall : Forall (fun k => k <= list_max (map (fun a => depth a.2) attrs))
                   (map (fun a => depth a.2) attrs)) by (by apply list_max_le).
  rewrite Forall_forall in Hall. apply Hall, list_elem_of_In, in_map_iff.
  exists a. split; [done|by apply list_elem_of_In].
Qed.

(** ** Running the emitted pieces *)

Lemma exec_step i code m md m' :
  step i m = (md, m') -> exec (i :: code) (Running, m) = exec code (md, m').
Proof. intros H. by rewrite exec_cons; simpl; rewrite H. Qed.

Lemma step_get_attr d obj attr m v w :
  eval m obj = Some v -> get_attr v attr = Some w ->
  step (GetAttr d obj attr) m = (Running, set_temp d w m).
Proof. intros H1 H2. simpl. by rewrite H1; simpl; rewrite H2. Qed.

Lemma eval_set_temp_eq t v m : eval (set_temp t v m) (OTemp t) = Some v.
Proof. simpl. apply lookup_insert_eq. Qed.

Lemma step_rc op value m p :
  eval m value = Some (VPtr p) -> step (rc_instr op value) m = (Running, log_rc op p m).
Proof. intros H. destruct op; simpl; unfold exec_rc; by rewrite H. Qed.

Lemma after_log_rc s m op p : after s m (log_rc op p m) [(op, p)].
Proof. by split_and!. Qed.

Section correctness.
Context {un : UnionNames} (resolve_type : Ty -> Ty) (bool_type : Ty) (op : rc_op).
Context (resolve_resolved : forall t, resolved t -> resolves_to t (resolve_type t)).

(** Reading a member's payload out of a union value. *)
Lemma extract_payload_spec s0 q ps attrs operand member s :
  storage_ok q attrs -> older s operand ->
  exists instrs payload s', extract_payload (TaggedUnion s0 q ps attrs) operand member s
      = (Ok (instrs, payload), s') /\
    lw_ext s s' /\ lw_label_id (lw s') = lw_label_id (lw s) /\ older s' (OTemp payload) /\
    (forall l, Label l ∉ instrs) /\
    forall k pl m, eval m operand = Some (VUnion k pl) ->
      exists m', exec instrs (Running, m) = (Running, m') /\ after s m m' [] /\
                 eval m' (OTemp payload) = Some pl.
Proof.
  intros Hok Ho. unfold extract_payload.
  rewrite (bind_ok _ _ s _ s) by (unfold lift; by rewrite storage_get_ok).
  destruct (new_temp_spec (CUnion (q ++ "$data")) s) as (s1 & E1 & Hx1 & Ht1 & Hl1).
  cbn [payload_cls]. rewrite (bind_ok _ _ _ _ _ E1).
  destruct (new_temp_spec member.2 s1) as (s2 & E2 & Hx2 & Ht2 & Hl2).
  rewrite (bind_ok _ _ _ _ _ E2). eexists _, _, _. split; [done|].
  split_and!; [by etrans|congruence|simpl; lia|by intros l; rewrite !not_elem_of_cons; split_and!;
    [done..|apply not_elem_of_nil]|].
  intros k pl m Hm.
  assert (Hm' : forall w, eval (set_temp (mkTemp (CUnion (q ++ "$data")) (lw_temp_id (lw s))) w m)
            (OTemp (mkTemp (CUnion (q ++ "$data")) (lw_temp_id (lw s)))) = Some w)
    by (intros; apply eval_set_temp_eq).
  eexists. split_and!.
  - erewrite exec_step by (eapply step_get_attr; [apply Hm|reflexivity]).
    erewrite exec_step by (eapply step_get_attr; [apply Hm'|reflexivity]). reflexivity.
  - eapply (after_trans s s _ _ _ [] []); [done| |]; apply after_set_temp; simpl; lia.
  - apply eval_set_temp_eq.
Qed.

(** Running one piece of code from [s]'s operands: where it stops and what
    it did. *)
Definition runs (s : CFGState) (code : list Instruction) (m : mach) (md : mode)
    (ops : list (rc_op * nat)) : Prop :=
  exists m', exec code (Running, m) = (md, m') /\ after s m m' ops.

Lemma runs_app s s' a b m md o1 o2 :
  lw_ext s s' -> runs s a m Running o1 ->
  (forall m', after s m m' o1 -> runs s' b m' md o2) -> runs s (a ++ b) m md (o1 ++ o2).
Proof.
  intros Hx (m1 & E1 & A1) Hb. destruct (Hb m1 A1) as (m2 & E2 & A2).
  exists m2. rewrite exec_app, E1. split; [done|]. by eapply after_trans.
Qed.

Section members.
Context (rec : Ty -> Operand -> C (list Instruction)).
Context (s0 q : string) (ps : list Ty) (attrs : list (string * Ty)) (st : Storage).
Context (operand : Operand) (e : label).
Local Abbreviation union := (TaggedUnion s0 q ps attrs).
Context (Hok : storage_ok q attrs) (Hst : storage_get union = Ok st).
Context (Hrec : forall a o s, a ∈ attrs -> older s o -> emits op a.2 o (rec a.2 o) s).

(** One arm: it runs the member's code and leaves for the end label when
    the tag is the member's, and falls through untouched otherwise. *)
Lemma arm_spec k0 n0 u0 acc s :
  attrs !! k0 = Some (n0, u0) -> older s operand ->
  exists code s', tag_gated_member bool_type rec union operand st e acc (n0, u0) s
      = (Ok (acc ++ code), s') /\ lw_ext s s' /\
    labels_in (lw_label_id (lw s)) (lw_label_id (lw s')) code /\
    forall k n u pl m, l_id e < lw_label_id (lw s) ->
      attrs !! k = Some (n, u) -> has_type pl u -> eval m operand = Some (VUnion k pl) ->
      if decide (k = k0) then runs s code m (Skipping e) (map (pair op) (held u pl))
      else runs s code m Running [].
Proof.
  intros Hk0 Ho. unfold tag_gated_member.
  destruct (new_label_spec "rc_next" s) as (s1 & E1 & X1 & T1 & L1).
  rewrite (bind_ok _ _ _ _ _ E1). set (next := mkLabel _ _).
  destruct (new_temp_spec (tag_attr st).2 s1) as (s2 & E2 & X2 & T2 & L2).
  rewrite (bind_ok _ _ _ _ _ E2). set (tagt := mkTemp _ _).
  destruct (new_temp_spec bool_type s2) as (s3 & E3 & X3 & T3 & L3).
  rewrite (bind_ok _ _ _ _ _ E3). set (cmpt := mkTemp _ _).
  rewrite (bind_ok _ _ _ k0 s3) by (unfold tag_of; by erewrite storage_tag by done).
  assert (X03 : lw_ext s s3) by (etrans; [done|]; by etrans).
  destruct (extract_payload_spec s0 q ps attrs operand (n0, u0) s3 Hok (older_ext _ _ _ X03 Ho))
    as (ex & pay & s4 & E4 & X4 & L4 & Hpay & Hnol & Hrun4).
  rewrite (bind_ok _ _ _ _ _ E4).
  destruct (Hrec (n0, u0) (OTemp pay) s4) as (inner & s5 & E5 & X5 & Hlab5 & Hrun5);
    [by eapply list_elem_of_lookup_2|done|].
  cbn [snd] in E5. rewrite (bind_ok _ _ _ _ _ E5).
  assert (Hnext : l_id next = lw_label_id (lw s)) by done.
  assert (Hnl : Label next ∉ inner) by (intros Hin%Hlab5; lia).
  pose proof (lw_ext_label _ _ X5).
  eexists _, s5. split; [done|]. split; [etrans; [done|]; by etrans|]. split.
  { repeat first [apply labels_in_nil | apply labels_in_app | apply labels_in_cons; [intros l; try done; intros [= <-]; simpl; lia|]].
    - intros l Hl. by destruct (Hnol l).
    - eapply labels_in_weaken; [done|lia..]. }
  intros k n u pl m He Hk Hpl Hm.
  set (m1 := set_temp tagt (VInt (Z.of_nat k)) m).
  set (m2 := set_temp cmpt (VBool (Z.eqb (Z.of_nat k) (Z.of_nat k0))) m1).
  assert (A02 : after s m m2 []).
  { eapply (after_trans s s _ _ _ [] []); [done| |]; apply after_set_temp; simpl; lia. }
  assert (Etest : forall rest,
    exec ([GetAttr tagt operand (tag_attr st).1;
           Cmp cmpt EQ (OTemp tagt) (OConst (tag_attr st).2 (CInt (Z.of_nat k0)));
           JumpIfFalse (OTemp cmpt) next] ++ rest) (Running, m) =
    exec rest (if Z.eqb (Z.of_nat k) (Z.of_nat k0) then Running else Skipping next, m2)).
  { intros rest. rewrite storage_get_ok in Hst by done. simplify_eq/=.
    rewrite Hm. simpl. rewrite lookup_insert_eq. simpl. by rewrite lookup_insert_eq. }
  unfold runs. rewrite Etest. case_decide as Hkk.
  - subst k. simplify_eq. rewrite Z.eqb_refl.
    destruct (Hrun4 k0 pl m2) as (m3 & Er3 & A3 & Hpm); [by rewrite (eval_after s m m2 [])|].
    destruct (Hrun5 pl m3) as (m4 & Er4 & A4); [done|done|].
    exists m4. rewrite exec_app, Er3, exec_app, Er4. simpl.
    rewrite bool_decide_false by (intros ->; lia). split; [done|].
    eapply (after_trans s s3 _ _ _ [] _); [done|done|].
    by eapply (after_trans s3 s4 _ _ _ [] _).
  - rewrite (proj2 (Z.eqb_neq _ _)) by lia. exists m2.
    rewrite exec_app, exec_skip by apply Hnol.
    rewrite exec_app, exec_skip by done. simpl. by rewrite bool_decide_true.
Qed.

(** All arms in order. *)
Lemma arms_spec ms : forall acc s,
  (forall a, a ∈ ms -> a ∈ attrs) -> NoDup ms -> older s operand ->
  exists code s', mfold (tag_gated_member bool_type rec union operand st e) ms acc s
      = (Ok (acc ++ code), s') /\ lw_ext s s' /\
    labels_in (lw_label_id (lw s)) (lw_label_id (lw s')) code /\
    forall k n u pl m, l_id e < lw_label_id (lw s) ->
      attrs !! k = Some (n, u) -> has_type pl u -> eval m operand = Some (VUnion k pl) ->
      if decide ((n, u) ∈ ms) then runs s code m (Skipping e) (map (pair op) (held u pl))
      else runs s code m Running [].
Proof.
  induction ms as [|[n0 u0] ms IH]; intros acc s Hms Hnd Ho.
  { exists [], s. rewrite app_nil_r. split_and!; [done..|apply labels_in_nil|].
    intros. rewrite decide_False by apply not_elem_of_nil. exists m. split; [done|apply after_refl]. }
  apply NoDup_cons in Hnd as [Hni Hnd].
  destruct (list_elem_of_lookup_1 attrs (n0, u0)) as [k0 Hk0]; [apply Hms; left|].
  destruct (arm_spec k0 n0 u0 acc s Hk0 Ho) as (c1 & s1 & E1 & X1 & Lab1 & R1).
  destruct (IH (acc ++ c1) s1) as (c2 & s2 & E2 & X2 & Lab2 & R2);
    [intros; apply Hms; by right|done|by eapply older_ext|].
  exists (c1 ++ c2), s2. cbn [mfold]. rewrite (bind_ok _ _ _ _ _ E1), E2, (assoc_L (++)).
  pose proof (lw_ext_label _ _ X1). pose proof (lw_ext_label _ _ X2).
  split_and!; [done|by etrans|apply labels_in_app; (eapply labels_in_weaken; [done|lia..])|].
  intros k n u pl m He Hk Hpl Hm. specialize (R1 k n u pl m He Hk Hpl Hm). case_decide as Hkk.
  - subst k. simplify_eq. rewrite decide_True by left.
    destruct R1 as (m1 & Er & A1). exists m1. rewrite exec_app, Er. split; [|done].
    eapply exec_skip_range; [done|lia].
  - assert (Hiff : (n, u) ∈ (n0, u0) :: ms <-> (n, u) ∈ ms).
    { rewrite elem_of_cons. split; [intros [[= -> ->]|?]; [|done]|by right].
      destruct Hkk. destruct Hok as (Hnd' & _).
      eapply (NoDup_lookup (map fst attrs)); [done|..]; by rewrite list_lookup_fmap, ?Hk, ?Hk0. }
    assert (Hgo : runs s1 c2 m Running [] -> True) by done.
    assert (Hc2 : forall m', after s m m' [] ->
      if decide ((n, u) ∈ ms) then runs s1 c2 m' (Skipping e) (map (pair op) (held u pl))
      else runs s1 c2 m' Running []).
    { intros m' A. apply (R2 k n u pl m'); [lia|done..|]. by rewrite (eval_after s m m' []). }
    destruct (decide ((n, u) ∈ ms)) as [Hin|Hin].
    + rewrite decide_True by by apply Hiff. eapply (runs_app s s1 c1 c2 m _ [] _); [done|done|].
      intros m' A. specialize (Hc2 m' A). done.
    + rewrite decide_False by (by rewrite Hiff).
      eapply (runs_app s s1 c1 c2 m _ [] []); [done|done|done].
Qed.
End members.
(** A leaf of the union is one of its RC leaves exactly when it is RC. *)
Lemma members_filter s0 q ps attrs :
  List.filter (fun m : string * Ty =>
      existsb (fun leaf => bool_decide (m.2 = leaf)) (rc_leaves (TaggedUnion s0 q ps attrs))) attrs
  = List.filter (fun m => is_rc m.2) attrs.
Proof.
  unfold rc_leaves. apply filter_ext_in. intros [n u] Hin. cbn [snd].
  apply eq_bool_prop_intro. rewrite !Is_true_true, existsb_exists. split.
  - intros (leaf & [_ Hrc]%filter_In & ->%bool_decide_eq_true). done.
  - intros Hrc. exists u. rewrite bool_decide_eq_true, filter_In. split_and!; [|done..].
    apply in_map_iff. by exists (n, u).
Qed.

Lemma tag_gated_spec rec s0 q ps attrs operand s :
  storage_ok q attrs -> older s operand -> is_rc (TaggedUnion s0 q ps attrs) = true ->
  (forall a o s, a ∈ attrs -> older s o -> emits op a.2 o (rec a.2 o) s) ->
  emits op (TaggedUnion s0 q ps attrs) operand
    (tag_gated_refcount_instructions bool_type rec (TaggedUnion s0 q ps attrs) operand
       (rc_leaves (TaggedUnion s0 q ps attrs))) s.
Proof.
  intros Hok Ho Hrc Hrec. unfold tag_gated_refcount_instructions. rewrite members_filter.
  destruct (storage_get (TaggedUnion s0 q ps attrs)) as [st|] eqn:Hst;
    [|by rewrite storage_get_ok in Hst by done].
  unfold emits. rewrite (bind_ok _ _ s st s) by done.
  destruct (new_label_spec "rc_end" s) as (s1 & E1 & X1 & T1 & L1).
  rewrite (bind_ok _ _ _ _ _ E1). set (e := mkLabel _ _).
  set (ms := List.filter _ attrs).
  assert (Hms : forall a, a ∈ ms <-> a ∈ attrs /\ is_rc a.2 = true).
  { intros a. unfold ms. by rewrite !list_elem_of_In, filter_In. }
  assert (Hnd : NoDup ms).
  { unfold ms. apply NoDup_ListNoDup, List.NoDup_filter, NoDup_ListNoDup.
    eapply (NoDup_fmap_1 fst), Hok. }
  destruct (arms_spec rec s0 q ps attrs st operand e Hok Hst Hrec ms [] s1)
    as (code & s2 & E2 & X2 & Lab & R); [intros a Ha; by apply Hms|done|by eapply older_ext|].
  cbn [app] in E2. rewrite (bind_ok _ _ _ _ _ E2). pose proof (lw_ext_label _ _ X2).
  eexists _, s2. split; [done|]. split; [by etrans|]. split.
  { apply labels_in_app; [eapply labels_in_weaken; [done|lia..]|].
    apply labels_in_cons, labels_in_nil. intros l [= <-]. simpl. lia. }
  intros v m Hv Hm.
  destruct (has_type_union_inv _ _ _ _ _ Hv Hrc) as (k & n & u & pl & -> & Hk & Hpl).
  specialize (R k n u pl m ltac:(simpl; lia) Hk Hpl Hm). erewrite held_union by done.
  case_decide as Hin; destruct R as (m' & Er & A); exists m'; rewrite exec_app, Er; simpl.
  - rewrite bool_decide_true by done. split; [done|].
    eapply (after_trans s s1 _ _ _ [] _); [done|apply after_refl|done].
  - split; [done|]. rewrite held_not_rc.
    + eapply (after_trans s s1 _ _ _ [] _); [done|apply after_refl|done].
    + destruct (is_rc u) eqn:Hu; [|done]. destruct Hin. apply Hms. split; [|done].
      by eapply list_elem_of_lookup_2.
Qed.

(** Every member is a bare pointer: one read through any accessor. *)
Lemma all_pointers_spec s0 q ps first attrs operand s :
  storage_ok q (first :: attrs) -> older s operand ->
  (forall a, a ∈ first :: attrs -> is_rc_pointer a.2 = true) ->
  emits op (TaggedUnion s0 q ps (first :: attrs)) operand
    (let* (instrs, payload) := extract_payload (TaggedUnion s0 q ps (first :: attrs)) operand first in
     ret (instrs ++ [rc_instr op (OTemp payload)])) s.
Proof.
  intros Hok Ho Hall.
  destruct (extract_payload_spec s0 q ps (first :: attrs) operand first s Hok Ho)
    as (ex & pay & s1 & E1 & X1 & L1 & Hpay & Hnol & Hrun).
  unfold emits. rewrite (bind_ok _ _ _ _ _ E1). eexists _, s1. split; [done|]. split; [done|]. split.
  { apply labels_in_app; [intros l Hl; by destruct (Hnol l)|].
    apply labels_in_cons, labels_in_nil. by destruct op. }
  intros v m Hv Hm.
  assert (Hrc : is_rc (TaggedUnion s0 q ps (first :: attrs)) = true).
  { simpl. rewrite is_rc_pointer_is_rc; [done|]. apply Hall. left. }
  destruct (has_type_union_inv _ _ _ _ _ Hv Hrc) as (k & n & u & pl & -> & Hk & Hpl).
  assert (Hu : is_rc_pointer u = true) by (apply (Hall (n, u)); by eapply list_elem_of_lookup_2).
  destruct (has_type_rc_inv _ _ Hpl) as (p & ->);
    [by apply is_rc_pointer_is_rc|by apply is_rc_pointer_not_union|].
  destruct (Hrun k (VPtr p) m Hm) as (m' & Er & A & Hp).
  exists (log_rc op p m'). cbn [fst snd]. rewrite exec_app, Er. cbn [exec fold_left exec_instr].
  rewrite (step_rc op _ m' p) by done. split; [done|].
  erewrite held_union by done. rewrite held_pointer by auto using is_rc_pointer_is_rc, is_rc_pointer_not_union.
  eapply (after_trans s s _ _ _ [] _); [done|done|apply after_log_rc].
Qed.

Lemma emits_nil t operand s : is_rc t = false -> emits op t operand (ret []) s.
Proof.
  intros Hrc. exists [], s. split_and!; [done..|apply labels_in_nil|]. intros v m _ _.
  exists m. split; [done|]. rewrite held_not_rc by done. apply after_refl.
Qed.

Lemma emits_pointer t operand s :
  is_rc t = true -> is_union t = false -> emits op t operand (ret [rc_instr op operand]) s.
Proof.
  intros Hrc Hu. exists [rc_instr op operand], s. split_and!; [done..| |].
  { apply labels_in_cons, labels_in_nil. by destruct op. }
  intros v m Hv Hm. destruct (has_type_rc_inv _ _ Hv) as (p & ->); [done..|].
  exists (log_rc op p m). simpl. rewrite (step_rc op _ m p) by done.
  rewrite held_pointer by done. split; [done|apply after_log_rc].
Qed.

Lemma refcount_emits fuel : forall t operand s,
  depth t < fuel -> resolved t -> older s operand ->
  emits op t operand (refcount_instructions resolve_type bool_type fuel op t operand) s.
Proof.
  induction fuel as [|fuel IH]; intros t operand s Hd Hr Ho; [lia|].
  cbn [refcount_instructions].
  destruct (resolves_to_kind _ _ (resolve_resolved t Hr)) as [->|(Hu & Hu' & Hrc)].
  2: { destruct (is_rc t) eqn:Et.
       - rewrite bool_decide_false by (rewrite rc_leaves_nil; congruence).
         destruct (resolve_type t); try done; by apply emits_pointer.
       - rewrite bool_decide_true by (rewrite rc_leaves_nil; congruence). by apply emits_nil. }
  case_bool_decide as Hnil; [by apply emits_nil, rc_leaves_nil|].
  assert (Hrc : is_rc t = true).
  { destruct (is_rc t) eqn:E; [done|]. by destruct Hnil; apply rc_leaves_nil. }
  destruct (resolved_not_union_spec t Hr) as [(s0 & q & ps & attrs & ->)|Hu].
  2: { destruct t; try done; by apply emits_pointer. }
  destruct Hr as [Hok Hall%resolved_attrs]. rewrite Forall_forall in Hall.
  destruct (Nat.eqb _ _ && _) eqn:Hptr.
  - apply andb_true_iff in Hptr as [Hlen%Nat.eqb_eq Hptr].
    destruct attrs as [|first attrs]; [by destruct Hnil|].
    unfold leaves, rc_leaves in Hlen, Hptr.
    rewrite (forallb_filter_id is_rc) in Hptr by by apply filter_length_all.
    apply all_pointers_spec; [done..|]. rewrite forallb_forall in Hptr.
    intros a Ha. apply Hptr, in_map, list_elem_of_In, Ha.
  - apply tag_gated_spec; [done..|]. intros a o s' Ha Ho'.
    apply IH; [|by apply Hall|done]. pose proof (depth_attr s0 q ps attrs a Ha). lia.
Qed.
End correctness.

(** ** The property *)

(** C1: [_refcount_instructions] is correct.  For a monomorphized type and an
    operand naming no temp still to be minted, generation succeeds, and the
    emitted code, run on any value of the type, finishes without getting
    stuck, having applied the operation exactly once to each reference the
    value holds (the active member's, through nested unions), in order, and
    having written only the temps it minted. *)
Theorem refcount_correct {un : UnionNames} resolve_type bool_type fuel op t operand s :
  (forall u, resolved u -> resolves_to u (resolve_type u)) ->
  resolved t -> depth t < fuel -> older s operand ->
  exists code s', refcount_instructions resolve_type bool_type fuel op t operand s = (Ok code, s') /\
    lw_ext s s' /\
    forall v m, has_type v t -> eval m operand = Some v ->
      exists m', exec code (Running, m) = (Running, m') /\
        m_vars m' = m_vars m /\
        m_log m' = m_log m ++ map (pair op) (held t v) /\
        forall i, i < lw_temp_id (lw s) -> m_temps m' !! i = m_temps m !! i.
Proof.
  intros Hres Ht Hd Ho.
  destruct (refcount_emits resolve_type bool_type op Hres fuel t operand s)
    as (code & s' & E & X & _ & R); [done..|].
  exists code, s'. split_and!; [done..|]. intros v m Hv Hm.
  destruct (R v m Hv Hm) as (m' & ? & ? & ? & ?). by exists m'.
Qed.

(** A union of an [int] scalar, a class, a list and a nested union of two
    classes, the first with a method. *)
Definition sample_union : Ty :=
  TaggedUnion "U" "m.U" []
    [("i", Scalar "i64" 8); ("s", RCClass "m.S"); ("l", Specialization (RCClass "list") [Scalar "i64" 8]);
     ("n", TaggedUnion "V" "m.V" [] [("a", RCClass "m.A"); ("b", RCClass "m.B")])].

Definition sample_names : UnionNames := fun qualname =>
  if String.eqb qualname "m.U" then [("i", NVariable (Scalar "i64" 8)); ("describe", NOther)] else [].

Definition sample_resolve (t : Ty) : Ty :=
  match t with Specialization (RCClass q) _ => RCClass (q ++ "[i64]") | _ => t end.

Lemma sample_resolves t : resolves_to t (sample_resolve t).
Proof. destruct t as [| |base args| | | | | | | | | | | |]; try constructor. destruct base; constructor. Qed.

Definition sample_var : Variable_ := mkVariable_ 7 "x" sample_union false false.

Lemma refcount_correct_witness :
  exists code s', refcount_instructions (un := sample_names) sample_resolve (Scalar "bool" 1) 3 OpDecref
      sample_union (OVar sample_var) (empty_state None) = (Ok code, s') /\
    lw_ext (empty_state None) s' /\
    forall v m, has_type v sample_union -> eval m (OVar sample_var) = Some v ->
      exists m', exec code (Running, m) = (Running, m') /\
        m_vars m' = m_vars m /\
        m_log m' = m_log m ++ map (pair OpDecref) (held sample_union v) /\
        forall i, i < lw_temp_id (lw (empty_state None)) -> m_temps m' !! i = m_temps m !! i.
Proof.
  apply (refcount_correct (un := sample_names) sample_resolve (Scalar "bool" 1) 3 OpDecref sample_union
           (OVar sample_var)).
  - intros u _. apply sample_resolves.
  - cbn. unfold storage_ok. cbn. split_and!; try exact I; try (by left); by apply (bool_decide_unpack _).
  - simpl. lia.
  - done.
Defined.
