(* ===== verification/CfgOwnership.v ===== *)
(** * Ownership transitions ([cfg.py])

    The operations of [CFGState] that bind, overwrite, move, delete and
    release one variable, attribute or temp.  Each returns the instructions
    the lowering emits around the statement. *)

From S2P Require Import Prelude MpyTypes Ir CfgState UnionStorage CfgRefcount.

(** What the constructor of [CFGState] is handed by the lowering: the names
    of the unions [union_storage] reads, the [resolve_type] callback and the
    [bool] type, and the recursion limit. *)
Class Callbacks := mkCallbacks {
  #[global] callback_names :: UnionNames;
  resolve_type : Ty -> Ty;
  bool_type : Ty;
  recursion_limit : nat;
}.

Section ownership.
Context {cb : Callbacks}.

Definition incref_instructions (t : Ty) (operand : Operand) : C (list Instruction) :=
  refcount_instructions resolve_type bool_type recursion_limit OpIncref t operand.

Definition decref_instructions (t : Ty) (operand : Operand) : C (list Instruction) :=
  refcount_instructions resolve_type bool_type recursion_limit OpDecref t operand.

(** [bool( rc_leaves( t ))] *)
Definition has_rc_leaves (t : Ty) : bool := negb (bool_decide (rc_leaves t = [])).

(** [self.bindings[key] = binding], [self.bindings.get( key )] *)
Definition bind_name (key : string) (b : Binding) : C unit :=
  modify (fun s => set_bindings (dict_set key b (bindings s)) s).
Definition binding_of (key : string) : C (option Binding) :=
  gets (fun s => dict_get key (bindings s)).

(** [self._temp_states.pop( temp.id, None )] *)
Definition pop_temp (temp : Temp) : C unit :=
  modify (fun s => set_temp_states (delete (temp_id temp) (temp_states s)) s).

(** [if isinstance( operand, ir.Temp ): self._temp_states.pop( ... )] *)
Definition pop_if_temp (operand : Operand) : C unit :=
  match operand with OTemp t => pop_temp t | _ => ret tt end.

Definition set_cancelled (r : nat) (c : bool) : C unit :=
  let* e := deref r in store r (with_cancelled c e).

(** ** Registering *)

Definition push (operand : Variable_) (t : Ty) (st : OwnState) (key : option string)
    (is_construction_attr survives_loop_restore : bool) : C nat :=
  let* name := new_label "epilogue" in
  let* entry := alloc (mkEpilogue [] name (Some operand) (Some t) None false false
                         is_construction_attr survives_loop_restore) in
  modify (fun s => set_epilogue_stack (epilogue_stack s ++ [entry]) s) ;;;
  bind_name (default (v_stem operand) key) (mkBinding operand t st (Some entry)) ;;;
  ret entry.

Definition push_defer (instructions : list Instruction) (flag : Variable_) (is_err_only : bool) : C nat :=
  let* name := new_label "epilogue" in
  let* entry := alloc (mkEpilogue instructions name None None (Some flag) is_err_only false false false) in
  modify (fun s => set_epilogue_stack (epilogue_stack s ++ [entry]) s) ;;;
  ret entry.

Definition enter_parameter (param : Parameter_) : C unit :=
  let var := p_var param in
  mark_live (v_stem var) ;;;
  if p_is_move param then
    if has_rc_leaves (v_type var) then
      push var (v_type var) OWNED None false false ;;; ret tt
    else ret tt
  else if p_is_copy param then
    if has_rc_leaves (v_type var) then
      let* instructions := incref_instructions (v_type var) (OVar var) in
      modify (fun s => set_prologue_instructions (prologue_instructions s ++ instructions) s) ;;;
      push var (v_type var) OWNED None false false ;;; ret tt
    else ret tt
  else if has_rc_leaves (v_type var) then
    bind_name (v_stem var) (mkBinding var (v_type var) BORROWED None)
  else ret tt.

(** [CFGState( fn, ... )] *)
Definition init (parameters : list Parameter_) : C unit :=
  mfold (fun _ p => enter_parameter p) parameters tt.

Definition enter_self (self_param : Variable_) (is_move : bool) : C unit :=
  mark_live (v_stem self_param) ;;;
  if negb (has_rc_leaves (v_type self_param)) then ret tt
  else if is_move then push self_param (v_type self_param) OWNED None false false ;;; ret tt
  else bind_name (v_stem self_param) (mkBinding self_param (v_type self_param) BORROWED None).

Definition enter_construction (self_param : Variable_) (required : list Variable_) : C unit :=
  enter_self self_param false ;;;
  modify (set_construction_self (Some self_param)) ;;;
  modify (set_construction_required required).

(** ** Temps *)

Definition fresh_temp (temp : Temp) (t : Ty) : C unit :=
  if has_rc_leaves t then modify (fun s => set_temp_states (<[temp_id temp := t]> (temp_states s)) s)
  else ret tt.

Definition is_fresh_temp (operand : Operand) : C bool :=
  match operand with
  | OTemp t => gets (fun s => bool_decide (is_Some (temp_states s !! temp_id t)))
  | _ => ret false
  end.

Definition delete_temp (temp : Temp) : C (list Instruction) :=
  let* t := gets (fun s => temp_states s !! temp_id temp) in
  pop_temp temp ;;;
  match t with None => ret [] | Some t => decref_instructions t (OTemp temp) end.

Definition untrack_temp (operand : option Operand) : C unit :=
  match operand with Some op => pop_if_temp op | None => ret tt end.

Definition snapshot_temp_states : C (gmap nat Ty) := gets temp_states.
Definition restore_temp_states (snap : gmap nat Ty) : C unit := modify (set_temp_states snap).

(** ** Assignment *)

(** The [is_alias] branch of [assign]: take a reference to [src]'s value. *)
Definition take_alias (t : Ty) (src : Operand) : C (list Instruction) :=
  let* fresh := is_fresh_temp src in
  if fresh then pop_if_temp src ;;; ret []
  else
    let lock := match src with
                | OVar v => if v_is_global v then [AcquireGlobalLock v false] else []
                | _ => []
                end in
    let* inc := incref_instructions t src in
    ret (lock ++ inc).

Definition assign_global (dest : Variable_) : C (list Instruction) :=
  modify (fun s => set_reassigned_outside_init ({[v_uid dest]} ∪ reassigned_outside_init s) s) ;;;
  let* dec := decref_instructions (v_type dest) (OVar dest) in
  ret (AcquireGlobalLock dest true :: dec).

(** The tail of [assign]: release what [dest] held, own what it now holds. *)
Definition assign_local (dest : Variable_) : C (list Instruction) :=
  let* existing := binding_of (v_stem dest) in
  match existing with
  | Some (mkBinding _ _ st (Some r)) =>
      let* dec := if bool_decide (st = OWNED) then decref_instructions (v_type dest) (OVar dest) else ret [] in
      set_cancelled r false ;;;
      bind_name (v_stem dest) (mkBinding dest (v_type dest) OWNED (Some r)) ;;;
      ret dec
  | _ => push dest (v_type dest) OWNED None false false ;;; ret []
  end.

Definition assign (dest : Variable_) (src : Operand) (is_alias track borrow : bool) : C (list Instruction) :=
  mark_live (v_stem dest) ;;;
  let* unchecked := is_unchecked (v_stem dest) in
  if unchecked then raise (ResultDiscarded (v_stem dest))
  else
    (if track && is_result_type (v_type dest) then track_result (v_stem dest)
     else clear_result (v_stem dest)) ;;;
    if borrow then
      bind_name (v_stem dest) (mkBinding dest (v_type dest) BORROWED None) ;;; ret []
    else if negb (has_rc_leaves (v_type dest)) then ret []
    else
      let* instructions := if is_alias then take_alias (v_type dest) src
                           else pop_if_temp src ;;; ret [] in
      let* rest := if v_is_global dest then assign_global dest else assign_local dest in
      ret (instructions ++ rest).

Definition assign_global_initializer (dest : Variable_) : C (list Instruction) :=
  if negb (has_rc_leaves (v_type dest)) then ret []
  else
    let* dec := decref_instructions (v_type dest) (OVar dest) in
    ret (AcquireGlobalLock dest true :: dec).

(** ** Attributes *)

Definition self_key (attr : Variable_) : string := "self." ++ v_stem attr.

Definition attr_assign (attr : Variable_) (src : Operand) (is_alias : bool) : C (list Instruction) :=
  let key := self_key attr in
  let rc := has_rc_leaves (v_type attr) in
  let* inc := if rc then
                if is_alias then incref_instructions (v_type attr) src
                else pop_if_temp src ;;; ret []
              else ret [] in
  let* existing := binding_of key in
  match existing with
  | Some (mkBinding _ _ st (Some r)) =>
      let* dec := if rc && bool_decide (st = OWNED) then decref_instructions (v_type attr) (OVar attr)
                  else ret [] in
      set_cancelled r false ;;;
      bind_name key (mkBinding attr (v_type attr) OWNED (Some r)) ;;;
      ret (inc ++ dec)
  | _ =>
      if rc then push attr (v_type attr) OWNED (Some key) true false ;;; ret inc
      else bind_name key (mkBinding attr (v_type attr) OWNED None) ;;; ret inc
  end.

Definition attr_replace (t : Ty) (old new : Operand) (is_alias : bool) : C (list Instruction) :=
  let* inc := if is_alias then incref_instructions t new else pop_if_temp new ;;; ret [] in
  let* dec := decref_instructions t old in
  ret (inc ++ dec).

Definition field_value (t : Ty) (operand : Operand) (is_alias : bool) : C (list Instruction) :=
  if is_alias then incref_instructions t operand
  else pop_if_temp operand ;;; ret [].

(** ** Cancelling an entry *)

Definition mint_cancel_flag : C Variable_ :=
  let* index := gets (fun s => length (cancel_flags s)) in
  let* flag := new_variable ("__cancel_flag_" ++ pretty index) bool_type in
  modify (fun s => set_cancel_flags (cancel_flags s ++ [flag]) s) ;;;
  ret flag.

(** [ir.Assign( dest = flag, src = ir.Const( type = flag.type, value = False ))] *)
Definition disarm (flag : Variable_) : Instruction :=
  Assign (OVar flag) (OConst (v_type flag) (CBool false)).

(** [for i, e in enumerate( stack ): if e is entry: stack[i] = new_entry; break] *)
Fixpoint replace_first (entry new_entry : nat) (stack : list nat) : list nat :=
  match stack with
  | [] => []
  | e :: stack' => if Nat.eqb e entry then new_entry :: stack' else e :: replace_first entry new_entry stack'
  end.

Definition neutralize (entry : nat) : C (nat * list Instruction) :=
  let* e := deref entry in
  let* captured := gets (fun s => bool_decide (e_name e ∈ captured_labels s)) in
  if negb captured then
    let* new_entry := alloc (with_cancelled true e) in
    modify (fun s => set_epilogue_stack (replace_first entry new_entry (epilogue_stack s)) s) ;;;
    ret (new_entry, [])
  else
    match e_flag e with
    | Some flag => ret (entry, [disarm flag])
    | None =>
        let* flag := mint_cancel_flag in
        store entry (with_flag (Some flag) e) ;;;
        ret (entry, [disarm flag])
    end.

Definition disarm_defer (entry : nat) : C (list Instruction) :=
  let* (_, instructions) := neutralize entry in ret instructions.

(** ** [move( x )], [del x], [compiler.decref( x )] *)

Definition move (operand : Operand) (target_qualname param_stem : string) : C (list Instruction) :=
  match operand with
  | OVar v =>
      let* binding := binding_of (v_stem v) in
      match binding with
      | None => ret []
      | Some b =>
          if negb (bool_decide (b_state b = OWNED)) then
            raise (CannotMove target_qualname param_stem (v_stem v) (b_state b))
          else
            let* (new_entry, instructions) :=
              match b_entry b with
              | Some r => let* (n, i) := neutralize r in ret (Some n, i)
              | None => ret (None, [])
              end in
            bind_name (v_stem v) (mkBinding (b_operand b) (b_type b) MOVED new_entry) ;;;
            ret instructions
      end
  | OTemp t => pop_temp t ;;; ret []
  | _ => ret []
  end.

Definition deleted (variable : Variable_) (ctx : string) : C (list Instruction) :=
  let* unchecked := is_unchecked (v_stem variable) in
  if unchecked then raise (ResultDiscardedByDel (v_stem variable)) else
  let* alive := is_live (v_stem variable) in
  if negb alive then raise (NotInitialized ctx (v_stem variable)) else
  unmark_live (v_stem variable) ;;;
  let* binding := binding_of (v_stem variable) in
  modify (fun s => set_bindings (dict_del (v_stem variable) (bindings s)) s) ;;;
  match binding with
  | Some (mkBinding _ t st (Some r)) =>
      let* dec := if bool_decide (st = OWNED) then decref_instructions t (OVar variable) else ret [] in
      let* (_, instructions) := neutralize r in
      ret (dec ++ instructions)
  | _ => ret []
  end.

Definition manually_decreffed (operand : Operand) : C (list Instruction) :=
  match operand with
  | OVar v =>
      let* binding := binding_of (v_stem v) in
      match binding with
      | Some (mkBinding x t OWNED (Some r)) =>
          let* retained := gets (fun s => bool_decide (v_stem v ∈ possibly_retained s)) in
          if retained then
            bind_name (v_stem v) (mkBinding x t MOVED (Some r)) ;;; ret []
          else
            let* (new_entry, instructions) := neutralize r in
            bind_name (v_stem v) (mkBinding x t MOVED (Some new_entry)) ;;;
            ret instructions
      | _ => ret []
      end
  | OTemp t => pop_temp t ;;; ret []
  | _ => ret []
  end.

(** ** Construction of [self] *)

Definition missing_attributes (s : CFGState) : list string :=
  map v_stem (List.filter (fun attr => negb (dict_mem (self_key attr) (bindings s))) (construction_required s)).

Definition check_self_escape (operand : Operand) (ctx : string) : C unit := fun s =>
  match construction_self s with
  | Some self =>
      if operand_is operand self then
        match missing_attributes s with
        | [] => (Ok tt, s)
        | missing => (Err (SelfEscapes ctx missing), s)
        end
      else (Ok tt, s)
  | None => (Ok tt, s)
  end.

Definition complete_attribute (attr : Variable_) : C unit :=
  let* binding := binding_of (self_key attr) in
  match binding with
  | None => raise (KeyError (self_key attr))
  | Some b => match b_entry b with Some r => set_cancelled r true | None => ret tt end
  end.

Definition complete_construction (ctx : string) : C unit :=
  let* missing := gets missing_attributes in
  match missing with
  | [] =>
      let* required := gets construction_required in
      mfold (fun _ attr => complete_attribute attr) required tt
  | _ => raise (InitMissing ctx missing)
  end.

(** [attr.resolve()] fills in the type and clears [resolve]. *)
Definition resolve_attr (attr : Variable_) : Variable_ :=
  mkVariable_ (v_uid attr) (v_stem attr) (v_type attr) (v_is_global attr) false.

Definition complete_base_attribute (attr0 : Variable_) : C unit :=
  let attr := resolve_attr attr0 in
  if v_pending attr0 && is_rc (v_type attr) then raise (AssertionError "RC base attribute arrived unresolved")
  else
    (if has_rc_leaves (v_type attr) then
       push attr (v_type attr) OWNED (Some (self_key attr)) true false ;;; ret tt
     else bind_name (self_key attr) (mkBinding attr (v_type attr) OWNED None)) ;;;
    modify (fun s => set_construction_required (construction_required s ++ [attr]) s).

Definition complete_base_construction (base_required : list Variable_) : C unit :=
  mfold (fun _ attr => complete_base_attribute attr) base_required tt.
End ownership.
