(* ===== verification/CfgEpilogue.v ===== *)
(** * Leaving a function: inline unwinding and the shared ladder ([cfg.py])

    A [return] either unwinds inline ([return_]) or jumps to the label of the
    topmost pending entry in a ladder built once at the closing brace
    ([current_epilogue_label], [build_epilogue_ladder]). *)

From S2P Require Import Prelude MpyTypes Ir CfgState UnionStorage CfgRefcount CfgOwnership.

Section epilogue.
Context {cb : Callbacks}.

(** The [is_err()] check of the value being returned, generated afresh for
    each [errdefer]. *)
Abbreviation err_check := (option (C (list Instruction * Operand))).

Definition load_entries (refs : list nat) : C (list Epilogue) := fun s =>
  match mapM (fun r => heap s !! r) refs with
  | Some es => (Ok es, s)
  | None => (Err (DanglingReference 0), s)
  end.

Definition decref_entry (e : Epilogue) : C (list Instruction) :=
  match e_type e, e_operand e with
  | Some t, Some x => decref_instructions t (OVar x)
  | _, _ => raise (AssertionError "entry has no operand to release")
  end.

Definition replay_body (e : Epilogue) : C (list Instruction) :=
  match e_type e with Some _ => decref_entry e | None => ret (e_instructions e) end.

Definition replay (e : Epilogue) (get_is_err_check : err_check) : C (list Instruction) :=
  match e_flag e with
  | None => decref_entry e
  | Some flag =>
      let* skip_label := new_label "defer_skip" in
      let* check :=
        if e_is_err_only e then
          match get_is_err_check with
          | Some chk => let* (instrs, is_err) := chk in
                        ret (instrs ++ [JumpIfFalse is_err skip_label])
          | None => raise (AssertionError "get_is_err_check is None")
          end
        else ret [] in
      let* body := replay_body e in
      ret (JumpIfFalse (OVar flag) skip_label :: check ++ body ++ [Label skip_label])
  end.

(** [entry.operand is returned_operand], [None] never being one *)
Definition entry_is (e : Epilogue) (returned_operand : option Operand) : bool :=
  match e_operand e, returned_operand with
  | Some x, Some op => operand_is op x
  | _, _ => false
  end.

Definition any_live_entry (es : list Epilogue) (op : option Operand) : bool :=
  existsb (fun e => negb (e_cancelled e) && entry_is e op) es.

(** ** Leaving a scope without leaving the function *)

Definition unwind_entry (exclude : option Operand) (acc : list Instruction) (e : Epilogue)
    : C (list Instruction) :=
  if e_cancelled e || is_flag_guarded e then ret acc
  else if entry_is e exclude then ret acc
  else let* dec := decref_entry e in ret (acc ++ dec).

Definition unwind_confined (floor : nat) (exclude : option Operand) : C (list Instruction) :=
  let* refs := gets (fun s => drop floor (epilogue_stack s)) in
  let* es := load_entries refs in
  mfold (unwind_entry exclude) (rev es) [].

Definition unwind_to (snap : Snapshot) : C (list Instruction) :=
  let* refs := gets (fun s => drop (snap_stack_depth snap) (epilogue_stack s)) in
  let* es := load_entries refs in
  mfold (unwind_entry None) (rev es) [].

(** ** [return] *)

Definition boundary (scope : option InlineScope) : nat :=
  match scope with Some sc => is_boundary_depth sc | None => 0 end.

Definition inline_scope : C (option InlineScope) := gets (fun s => last (inline_scope_stack s)).

Definition return_entry (returned_operand : option Operand) (chk : err_check)
    (acc : list Instruction) (e : Epilogue) : C (list Instruction) :=
  if e_cancelled e then ret acc
  else if entry_is e returned_operand then ret acc
  else let* code := replay e chk in ret (acc ++ code).

Definition return_ (returned_operand : option Operand) (chk : err_check) : C (list Instruction) :=
  untrack_temp returned_operand ;;;
  let* scope := inline_scope in
  let* refs := gets (fun s => drop (boundary scope) (epilogue_stack s)) in
  let* es := load_entries refs in
  mfold (return_entry returned_operand chk) (rev es) [].

Definition has_live_entry (operand : option Operand) : C bool :=
  let* refs := gets epilogue_stack in
  let* es := load_entries refs in
  ret (any_live_entry es operand).

(** ** The shared label *)

(** [min( depths ) if depths else None] *)
Definition confinement_floor (s : CFGState) : option nat :=
  match confinement_depths s with
  | [] => None
  | d :: ds => Some (foldr Nat.min d ds)
  end.

Definition at_or_above (floor : option nat) (i : nat) : bool :=
  match floor with Some f => f <=? i | None => false end.

(** The scan of the eligible suffix: a plain entry the enclosing loop or
    branch will drop. *)
Definition doomed (floor : option nat) (lower_bound : nat) (es : list Epilogue) : bool :=
  match floor with
  | None => false
  | Some f => existsb (fun e => negb (e_cancelled e) && negb (is_flag_guarded e))
                (drop (Nat.max f lower_bound) es)
  end.

Definition when (b : bool) (m : C unit) : C unit := if b then m else ret tt.

Definition scope_fallback (scope : option InlineScope) (mark : bool) : C (option label) :=
  match scope with
  | Some sc => when mark (update_top_inline_scope capture_scope) ;;; ret (Some (is_label sc))
  | None => ret None
  end.

Definition mark_captured (scope : option InlineScope) (name : label) : C unit :=
  when (match scope with None => true | Some _ => false end) (modify (set_any_shared_label_used true)) ;;;
  modify (fun s => set_captured_labels ({[name]} ∪ captured_labels s) s).

(** [for i, entry in reversed( list( enumerate( stack )))]; [es] is reversed
    and [length es'] is the index of the entry at its head. *)
Fixpoint label_walk (floor : option nat) (scope : option InlineScope) (mark : bool)
    (es : list Epilogue) : C (option label) :=
  match es with
  | [] => scope_fallback scope mark
  | e :: es' =>
      let i := length es' in
      if i <? boundary scope then scope_fallback scope mark
      else if e_cancelled e then label_walk floor scope mark es'
      else if negb (is_flag_guarded e) && at_or_above floor i then ret None
      else when mark (mark_captured scope (e_name e)) ;;; ret (Some (e_name e))
  end.

Definition current_epilogue_label (returned_operand : option Operand) (mark : bool) : C (option label) :=
  let* refs := gets epilogue_stack in
  let* es := load_entries refs in
  if any_live_entry es returned_operand then ret None else
  let* floor := gets confinement_floor in
  let* scope := inline_scope in
  if doomed floor (boundary scope) es then ret None else
  label_walk floor scope mark (rev es).

(** The classification pass: [None] is the bail-out, otherwise the pending
    attributes, top first, and the entry to jump to. *)
Fixpoint err_classify (floor : option nat) (bound : nat) (es attrs : list Epilogue)
    (candidate : option Epilogue) : option (list Epilogue * option Epilogue) :=
  match es with
  | [] => Some (attrs, candidate)
  | e :: es' =>
      let i := length es' in
      if i <? bound then Some (attrs, candidate)
      else if e_cancelled e then err_classify floor bound es' attrs candidate
      else if negb (is_flag_guarded e) && at_or_above floor i then None
      else if e_is_construction_attr e then err_classify floor bound es' (attrs ++ [e]) candidate
      else err_classify floor bound es' attrs
             (match candidate with None => Some e | Some _ => candidate end)
  end.

Definition current_epilogue_label_for_construction_err (returned_operand : option Operand)
    : C (option label * list Instruction) :=
  let* refs := gets epilogue_stack in
  let* es := load_entries refs in
  if any_live_entry es returned_operand then ret (None, []) else
  let* floor := gets confinement_floor in
  let* scope := inline_scope in
  match err_classify floor (boundary scope) (rev es) [] None with
  | None => ret (None, [])
  | Some (attrs, candidate) =>
      let* inline := mfold (fun acc e => let* dec := decref_entry e in ret (acc ++ dec)) attrs [] in
      match candidate with
      | None =>
          match scope with
          | Some sc => update_top_inline_scope capture_scope ;;; ret (Some (is_label sc), inline)
          | None => ret (None, inline)
          end
      | Some e => mark_captured scope (e_name e) ;;; ret (Some (e_name e), inline)
      end
  end.

Definition used_shared_epilogue_label : C bool := gets any_shared_label_used.

(** ** The ladder *)

Definition ladder_rung (chk : err_check) (acc : list Instruction) (e : Epilogue) : C (list Instruction) :=
  let* captured := gets (fun s => bool_decide (e_name e ∈ captured_labels s)) in
  let acc := if captured then acc ++ [Label (e_name e)] else acc in
  if negb (e_cancelled e) && negb (e_is_construction_attr e) then
    let* code := replay e chk in ret (acc ++ code)
  else ret acc.

Definition build_epilogue_ladder (chk : err_check) : C (list Instruction) :=
  let* refs := gets epilogue_stack in
  let* es := load_entries refs in
  mfold (ladder_rung chk) (rev es) [].

Definition build_inline_scope_ladder (chk : err_check) : C (list Instruction) :=
  let* scope := top_inline_scope in
  let* refs := gets (fun s => drop (is_boundary_depth scope) (epilogue_stack s)) in
  let* es := load_entries refs in
  let* code := mfold (ladder_rung chk) (rev es) [] in
  modify (fun s => set_epilogue_stack (take (is_boundary_depth scope) (epilogue_stack s)) s) ;;;
  ret code.
End epilogue.

(** ** What an entry releases at run time *)

Definition armed (m : mach) (e : Epilogue) : bool :=
  match e_flag e with
  | None => true
  | Some f => match m_vars m !! v_uid f with Some (VBool b) => b | _ => false end
  end.

(** The references given up when the entry is replayed. *)
Definition released (m : mach) (e : Epilogue) : list nat :=
  match e_type e, e_operand e with
  | Some t, Some x =>
      if armed m e then match m_vars m !! v_uid x with Some v => held t v | None => [] end else []
  | _, _ => []
  end.

Section semantics.
Context {cb : Callbacks}.
Context (resolve_resolved : forall t, resolved t -> resolves_to t (resolve_type t)).

(** The entry of a variable (not of a [defer]) whose type is monomorphized. *)
Definition rc_entry (e : Epilogue) : Prop :=
  e_is_err_only e = false /\
  exists t x, e_type e = Some t /\ e_operand e = Some x /\ resolved t /\ depth t < recursion_limit.

(** The machine holds a value of the variable's type, and a truth value in
    the entry's flag. *)
Definition entry_typed (m : mach) (e : Epilogue) : Prop :=
  (forall t x, e_type e = Some t -> e_operand e = Some x ->
     exists v, m_vars m !! v_uid x = Some v /\ has_type v t) /\
  (forall f, e_flag e = Some f -> exists b, m_vars m !! v_uid f = Some (VBool b)).

(** [gen] produces code that runs to its end and releases [ops m]. *)
Definition performs (P : mach -> Prop) (ops : mach -> list nat) (gen : C (list Instruction)) (s : CFGState) : Prop :=
  exists code s', gen s = (Ok code, s') /\ lw_ext s s' /\
    labels_in (lw_label_id (lw s)) (lw_label_id (lw s')) code /\
    forall m, P m -> exists m', exec code (Running, m) = (Running, m') /\
      after s m m' (map (pair OpDecref) (ops m)).

Definition vars_only {A} (f : mach -> A) : Prop := forall m m', m_vars m' = m_vars m -> f m' = f m.

Lemma armed_vars e : vars_only (fun m => armed m e).
Proof. intros m m' H. unfold armed. by rewrite H. Qed.

Lemma released_vars e : vars_only (fun m => released m e).
Proof. intros m m' H. unfold released, armed. by rewrite H. Qed.

Lemma entry_typed_vars m m' e : m_vars m' = m_vars m -> entry_typed m e -> entry_typed m' e.
Proof. intros H. unfold entry_typed. by rewrite H. Qed.

Lemma decref_entry_performs e s :
  rc_entry e -> e_flag e = None -> performs (fun m => entry_typed m e) (fun m => released m e) (decref_entry e) s.
Proof using resolve_resolved.
  intros (_ & t & x & Ht & Hx & Hres & Hd) Hf. unfold decref_entry. rewrite Ht, Hx.
  destruct (refcount_emits resolve_type bool_type OpDecref resolve_resolved recursion_limit t (OVar x) s)
    as (code & s' & E & X & L & R); [done..|].
  exists code, s'. split_and!; [done..|]. intros m [Hm _].
  destruct (Hm t x Ht Hx) as (v & Hv & Hty). destruct (R v m Hty Hv) as (m' & Er & A).
  exists m'. split; [done|]. unfold released, armed. by rewrite Ht, Hx, Hf, Hv.
Qed.

(** The flag's test jumps over the release. *)
Lemma replay_performs chk e s :
  rc_entry e -> performs (fun m => entry_typed m e) (fun m => released m e) (replay e chk) s.
Proof using resolve_resolved.
  intros Hrc. unfold replay. destruct (e_flag e) as [f|] eqn:Hf; [|by apply decref_entry_performs].
  destruct Hrc as (Herr & t & x & Ht & Hx & Hres & Hd). rewrite Herr. unfold replay_body, decref_entry.
  rewrite Ht, Hx. destruct (new_label_spec "defer_skip" s) as (s1 & E1 & X1 & T1 & L1).
  set (skip := mkLabel _ _) in E1.
  destruct (refcount_emits resolve_type bool_type OpDecref resolve_resolved recursion_limit t (OVar x) s1)
    as (code & s2 & E2 & X2 & L2 & R); [done..|].
  unfold performs. rewrite (bind_ok _ _ _ _ _ E1), bind_ret. unfold decref_instructions.
  rewrite (bind_ok _ _ _ _ _ E2). eexists _, s2. split; [done|]. split; [by etrans|].
  pose proof (lw_ext_label _ _ X2). simpl app. split.
  { apply labels_in_cons; [done|]. apply labels_in_app; [eapply labels_in_weaken; [done|lia..]|].
    apply labels_in_cons, labels_in_nil. intros l [= <-]. simpl. lia. }
  intros m [Hm Hfl]. destruct (Hfl f Hf) as [b Hb]. destruct (Hm t x Ht Hx) as (v & Hv & Hty).
  unfold released, armed. rewrite Ht, Hx, Hf, Hb, Hv.
  rewrite exec_cons. cbn [exec_instr step eval]. rewrite Hb. destruct b.
  - destruct (R v m Hty Hv) as (m' & Er & A). exists m'. rewrite exec_app, Er. split; [done|].
    eapply (after_trans s s1 _ _ _ [] _); [done|apply after_refl|done].
  - exists m. rewrite exec_skip_to; [split; [done|apply after_refl]|].
    intros Hin%L2. simpl in Hin. lia.
Qed.

(** A flag decides the release at run time: it happens on a path that left
    the flag set, and not on one that ran [disarm]. *)
Lemma flag_decides chk e flag s :
  rc_entry e -> e_flag e = Some flag ->
  exists rung s', replay e chk s = (Ok rung, s') /\
    forall m, entry_typed m (with_flag None e) ->
      (forall x, e_operand e = Some x -> v_uid x <> v_uid flag) ->
      (m_vars m !! v_uid flag = Some (VBool true) ->
         exists m', exec rung (Running, m) = (Running, m') /\
           m_log m' = m_log m ++ map (pair OpDecref) (released m (with_flag None e))) /\
      (exists m', exec (disarm flag :: rung) (Running, m) = (Running, m') /\ m_log m' = m_log m).
Proof using resolve_resolved.
  intros Hrc Hf. destruct (replay_performs chk e s Hrc) as (rung & s' & E & _ & _ & R).
  exists rung, s'. split; [done|]. intros m [Hm _] Hne. split.
  - intros Hflag. destruct (R m) as (m' & X & _ & Hlog & _).
    { split; [exact Hm|]. intros f Hf'. simplify_eq. by exists true. }
    exists m'. split; [done|]. rewrite Hlog. f_equal. unfold released, armed. simpl. by rewrite Hf, Hflag.
  - set (m0 := mkMach (m_temps m) (<[v_uid flag := VBool false]> (m_vars m)) (m_log m)).
    destruct (R m0) as (m' & X & _ & Hlog & _).
    { split.
      - intros t x Ht Hx. destruct (Hm t x Ht Hx) as (v & Hv & ?). exists v. simpl.
        rewrite lookup_insert_ne; [done|]. intros Heq. by eapply Hne.
      - intros f Hf'. simplify_eq. exists false. simpl. by rewrite lookup_insert_eq. }
    exists m'. rewrite exec_cons. cbn. fold m0. split; [done|]. rewrite Hlog.
    unfold released, armed. rewrite Hf. simpl. rewrite lookup_insert_eq.
    destruct (e_type e), (e_operand e); by rewrite app_nil_r.
Qed.

(** Concatenating the code of the entries that [keep] selects. *)
Lemma collect_performs (keep : Epilogue -> bool) (gen : Epilogue -> C (list Instruction))
    (f : list Instruction -> Epilogue -> C (list Instruction)) :
  (forall acc e s, f acc e s = if keep e then bind (gen e) (fun code => ret (acc ++ code)) s else (Ok acc, s)) ->
  forall es acc s,
  (forall e s, e ∈ es -> keep e = true ->
     performs (fun m => entry_typed m e) (fun m => released m e) (gen e) s) ->
  exists code s', mfold f es acc s = (Ok (acc ++ code), s') /\ lw_ext s s' /\
    labels_in (lw_label_id (lw s)) (lw_label_id (lw s')) code /\
    forall m, (forall e, e ∈ es -> keep e = true -> entry_typed m e) ->
      exists m', exec code (Running, m) = (Running, m') /\
        after s m m' (map (pair OpDecref) (concat (map (released m) (List.filter keep es)))).
Proof using Type.
  intros Hf. induction es as [|e es IH]; intros acc s Hgen.
  { exists [], s. rewrite app_nil_r. split_and!; [done..|apply labels_in_nil|].
    intros m _. exists m. split; [done|apply after_refl]. }
  cbn [mfold List.filter]. unfold bind at 1. rewrite Hf. destruct (keep e) eqn:Hk.
  2: { destruct (IH acc s) as (code & s' & E & X & L & R); [intros; apply Hgen; [by right|done]|].
       exists code, s'. split_and!; [done..|]. intros m Hm. apply R. intros; apply Hm; [by right|done]. }
  destruct (Hgen e s) as (c1 & s1 & E1 & X1 & L1 & R1); [left|done|].
  rewrite (bind_ok _ _ _ _ _ E1). cbn [ret].
  destruct (IH (acc ++ c1) s1) as (c2 & s2 & E2 & X2 & L2 & R2); [intros; apply Hgen; [by right|done]|].
  exists (c1 ++ c2), s2. unfold ret. rewrite E2, (assoc_L (++)).
  pose proof (lw_ext_label _ _ X1). pose proof (lw_ext_label _ _ X2).
  split_and!; [done|by etrans|apply labels_in_app; (eapply labels_in_weaken; [done|lia..])|].
  intros m Hm. destruct (R1 m) as (m1 & Er1 & A1); [apply Hm; [left|done]|].
  pose proof A1 as (Hv1 & _ & _).
  destruct (R2 m1) as (m2 & Er2 & A2).
  { intros e' He' Hk'. eapply entry_typed_vars; [done|]. apply Hm; [by right|done]. }
  exists m2. rewrite exec_app, Er1. split; [done|]. cbn [map concat]. rewrite map_app.
  eapply after_trans; [done..|].
  replace (map (released m) (List.filter keep es)) with (map (released m1) (List.filter keep es)); [done|].
  apply map_ext. intros e'. by apply released_vars.
Qed.

(** ** [return_] *)

Definition kept_by_return (op : option Operand) (e : Epilogue) : bool :=
  negb (e_cancelled e) && negb (entry_is e op).

Lemma return_entry_collects op chk acc e s :
  return_entry op chk acc e s =
    if kept_by_return op e then bind (replay e chk) (fun code => ret (acc ++ code)) s else (Ok acc, s).
Proof using Type. unfold return_entry, kept_by_return. destruct (e_cancelled e), (entry_is e op); done. Qed.

Lemma load_entries_ok refs es s : mapM (fun r => heap s !! r) refs = Some es -> load_entries refs s = (Ok es, s).
Proof using Type. unfold load_entries. by intros ->. Qed.

Lemma return_performs op chk s es :
  mapM (fun r => heap s !! r) (drop (boundary (last (inline_scope_stack s))) (epilogue_stack s)) = Some es ->
  (forall e, e ∈ es -> kept_by_return op e = true -> rc_entry e) ->
  exists code s', return_ op chk s = (Ok code, s') /\ 
    forall m, (forall e, e ∈ es -> kept_by_return op e = true -> entry_typed m e) ->
      exists m', exec code (Running, m) = (Running, m') /\
        after s m m' (map (pair OpDecref) (concat (map (released m) (List.filter (kept_by_return op) (rev es))))).
Proof using resolve_resolved.
  intros Hes Hrc. unfold return_. set (s0 := (untrack_temp op s).2).
  assert (E0 : untrack_temp op s = (Ok tt, s0)) by (by destruct op as [[]|]).
  assert (Hs0 : heap s0 = heap s /\ epilogue_stack s0 = epilogue_stack s /\
                inline_scope_stack s0 = inline_scope_stack s /\ lw s0 = lw s)
    by (by destruct op as [[]|]).
  destruct Hs0 as (Hh & Hst & Hsc & Hlw). rewrite (bind_ok _ _ _ _ _ E0).
  unfold inline_scope. rewrite !bind_gets, Hsc, Hst.
  rewrite (bind_ok _ _ s0 es s0) by (apply load_entries_ok; by rewrite Hh).
  destruct (collect_performs (kept_by_return op) (fun e => replay e chk) _ (return_entry_collects op chk)
    (rev es) [] s0) as (code & s1 & E & X & _ & R).
  { intros e s' He Hk. apply replay_performs, Hrc; [|done]. by apply elem_of_rev. }
  exists code, s1. split; [done|]. intros m Hm. destruct (R m) as (m' & Er & A).
  { intros e He. apply Hm. by apply elem_of_rev. }
  exists m'. split; [done|]. destruct A as (A1 & A2 & A3). split_and!; [done..|]. by rewrite <- Hlw.
Qed.

(** ** The ladder *)

Definition kept_by_ladder (e : Epilogue) : bool := negb (e_cancelled e) && negb (e_is_construction_attr e).

Lemma lw_ext_captured s s' : lw_ext s s' -> captured_labels s' = captured_labels s.
Proof using Type. by intros (l & -> & _). Qed.

(** Falling through the rungs of [es]; their labels are the captured names
    of the entries and fresh ones. *)
Lemma rungs_perform chk : forall es acc s,
  (forall e, e ∈ es -> kept_by_ladder e = true -> rc_entry e) ->
  exists code s', mfold (ladder_rung chk) es acc s = (Ok (acc ++ code), s') /\ lw_ext s s' /\
    (forall l, Label l ∈ code -> (exists e, e ∈ es /\ e_name e = l) \/ lw_label_id (lw s) <= l_id l) /\
    (forall e es', es = e :: es' -> e_name e ∈ captured_labels s ->
       exists rest, code = Label (e_name e) :: rest) /\
    forall m, (forall e, e ∈ es -> kept_by_ladder e = true -> entry_typed m e) ->
      exists m', exec code (Running, m) = (Running, m') /\
        after s m m' (map (pair OpDecref) (concat (map (released m) (List.filter kept_by_ladder es)))).
Proof using resolve_resolved.
  induction es as [|e es IH]; intros acc s Hrc.
  { exists [], s. rewrite app_nil_r. split_and!; [done..|by intros l ?%not_elem_of_nil|done|].
    intros m _. exists m. split; [done|apply after_refl]. }
  set (lbl := if bool_decide (e_name e ∈ captured_labels s) then [Label (e_name e)] else []).
  assert (Hrung : exists c1 s1, ladder_rung chk acc e s = (Ok (acc ++ lbl ++ c1), s1) /\ lw_ext s s1 /\
    labels_in (lw_label_id (lw s)) (lw_label_id (lw s1)) c1 /\
    forall m, (kept_by_ladder e = true -> entry_typed m e) ->
      exists m', exec c1 (Running, m) = (Running, m') /\
        after s m m' (map (pair OpDecref) (if kept_by_ladder e then released m e else []))).
  { unfold ladder_rung. rewrite bind_gets. fold (kept_by_ladder e).
    assert (Hacc : (if bool_decide (e_name e ∈ captured_labels s) then acc ++ [Label (e_name e)] else acc)
                   = acc ++ lbl) by (unfold lbl; case_bool_decide; by rewrite ?app_nil_r).
    rewrite Hacc. destruct (kept_by_ladder e) eqn:Hk.
    - destruct (replay_performs chk e s) as (c1 & s1 & E1 & X1 & L1 & R1); [apply Hrc; [left|done]|].
      rewrite (bind_ok _ _ _ _ _ E1). exists c1, s1. rewrite (assoc_L (++)). split_and!; [done..|].
      intros m Hm. by apply R1, Hm.
    - exists [], s. rewrite app_nil_r. split_and!; [done..|apply labels_in_nil|].
      intros m _. exists m. split; [done|apply after_refl]. }
  destruct Hrung as (c1 & s1 & E1 & X1 & L1 & R1).
  destruct (IH (acc ++ lbl ++ c1) s1) as (c2 & s2 & E2 & X2 & L2 & _ & R2); [intros; apply Hrc; [by right|done]|].
  exists (lbl ++ c1 ++ c2), s2. cbn [mfold]. rewrite (bind_ok _ _ _ _ _ E1), E2, <- !(assoc_L (++)).
  pose proof (lw_ext_label _ _ X1). split_and!; [done|by etrans|..].
  - intros l [Hl|[Hl|Hl]%elem_of_app]%elem_of_app.
    + left. exists e. split; [left|]. unfold lbl in Hl. case_bool_decide; [|by apply not_elem_of_nil in Hl].
      apply list_elem_of_singleton in Hl. congruence.
    + right. apply L1 in Hl. lia.
    + destruct (L2 l Hl) as [(e' & ? & ?)|?]; [left; exists e'; split; [by right|done]|right; lia].
  - intros e0 es0 [= <- <-] Hc. unfold lbl. rewrite bool_decide_true by done. by eexists.
  - intros m Hm.
    assert (Hlbl : exec lbl (Running, m) = (Running, m)) by (unfold lbl; by case_bool_decide).
    destruct (R1 m) as (m1 & Er1 & A1); [intros; apply Hm; [left|done]|]. pose proof A1 as (Hv1 & _ & _).
    destruct (R2 m1) as (m2 & Er2 & A2).
    { intros e' He' Hk'. eapply entry_typed_vars; [done|]. apply Hm; [by right|done]. }
    exists m2. rewrite !exec_app, Hlbl, Er1. split; [done|]. cbn [List.filter].
    replace (concat (map (released m) (if kept_by_ladder e then e :: List.filter kept_by_ladder es
                                       else List.filter kept_by_ladder es)))
      with ((if kept_by_ladder e then released m e else []) ++
            concat (map (released m1) (List.filter kept_by_ladder es))).
    + rewrite map_app. by eapply after_trans.
    + rewrite (map_ext (released m1) (released m)) by (intros; by apply released_vars).
      by destruct (kept_by_ladder e).
Qed.

(** Jumping to a captured entry's label runs its rung and those below. *)
Lemma ladder_from chk s es above e below :
  mapM (fun r => heap s !! r) (epilogue_stack s) = Some es ->
  rev es = above ++ e :: below ->
  NoDup (map e_name es) -> (forall e, e ∈ es -> l_id (e_name e) < lw_label_id (lw s)) ->
  (forall e, e ∈ es -> kept_by_ladder e = true -> rc_entry e) ->
  e_name e ∈ captured_labels s ->
  exists ladder s', build_epilogue_ladder chk s = (Ok ladder, s') /\
    forall m, (forall e', e' ∈ e :: below -> kept_by_ladder e' = true -> entry_typed m e') ->
      exists m', exec ladder (Skipping (e_name e), m) = (Running, m') /\
        after s m m' (map (pair OpDecref) (concat (map (released m) (List.filter kept_by_ladder (e :: below))))).
Proof using resolve_resolved.
  intros Hes Hrev Hnd Hold Hrc Hcap.
  assert (Hin : forall e', e' ∈ rev es -> e' ∈ es) by (intros; by apply elem_of_rev).
  unfold build_epilogue_ladder. rewrite bind_gets, (bind_ok _ _ s es s) by by apply load_entries_ok.
  rewrite Hrev, mfold_app.
  destruct (rungs_perform chk above [] s) as (c1 & s1 & E1 & X1 & L1 & _ & _).
  { intros e' He' Hk'. apply Hrc; [|done]. apply Hin. rewrite Hrev. by apply elem_of_app; left. }
  rewrite (bind_ok _ _ _ _ _ E1).
  destruct (rungs_perform chk (e :: below) ([] ++ c1) s1) as (c2 & s2 & E2 & X2 & L2 & Hhd & R2).
  { intros e' He' Hk'. apply Hrc; [|done]. apply Hin. rewrite Hrev. by apply elem_of_app; right. }
  destruct (Hhd e below eq_refl) as [rest ->]; [by rewrite (lw_ext_captured _ _ X1)|].
  exists (c1 ++ Label (e_name e) :: rest), s2. split; [done|]. intros m Hm.
  destruct (R2 m Hm) as (m' & Er & A). exists m'. split.
  - rewrite exec_skip_to; [exact Er|]. intros Hl. apply L1 in Hl as [(e' & He' & Hn)|Hl].
    + assert (Hnd' : NoDup (map e_name (rev es))).
      { rewrite map_rev. by apply NoDup_ListNoDup, List.NoDup_rev, NoDup_ListNoDup. }
      rewrite Hrev, map_app in Hnd'. apply NoDup_app in Hnd' as (_ & Hd & _).
      apply (Hd (e_name e')); [by apply list_elem_of_In, in_map, list_elem_of_In|]. rewrite Hn. left.
    + assert (l_id (e_name e) < lw_label_id (lw s)); [|lia].
      apply Hold, Hin. rewrite Hrev. apply elem_of_app. right. left.
  - destruct A as (A1 & A2 & A3). split_and!; [done..|]. intros i Hi. apply A3.
    pose proof (lw_ext_temp _ _ X1). lia.
Qed.

(** ** Which label is handed out *)

Lemma label_walk_top floor mark es : forall s l s',
  label_walk floor None mark es s = (Ok (Some l), s') ->
  exists above e below, es = above ++ e :: below /\ Forall (fun e => e_cancelled e = true) above /\
    e_cancelled e = false /\ l = e_name e /\
    s' = if mark then set_captured_labels ({[l]} ∪ captured_labels s) (set_any_shared_label_used true s) else s.
Proof using Type.
  induction es as [|e es IH]; intros s l s'; simpl; [done|].
  destruct (e_cancelled e) eqn:Hc.
  - intros E. destruct (IH s l s' E) as (above & e1 & below & -> & Ha & He & Hl & Hs).
    exists (e :: above), e1, below. split_and!; [done|by constructor|done..].
  - destruct (negb _ && _); [done|]. destruct mark; intros [= <- <-];
      exists [], e, es; (split_and!; [done|constructor|done..]).
Qed.

Lemma filter_cancelled op above e below :
  Forall (fun e => e_cancelled e = true) above ->
  List.filter (kept_by_return op) (above ++ e :: below) = List.filter (kept_by_return op) (e :: below).
Proof using Type.
  induction 1 as [|x above Hx _ IH]; [done|]. simpl. unfold kept_by_return at 1. by rewrite Hx.
Qed.

Lemma load_entries_inv refs s es s' :
  load_entries refs s = (Ok es, s') -> mapM (fun r => heap s !! r) refs = Some es /\ s' = s.
Proof using Type. unfold load_entries. case_match; [|done]. by intros [= -> ->]. Qed.

(** The label handed out is the topmost pending entry's, and is captured. *)
Lemma current_epilogue_label_top op s l s' :
  inline_scope_stack s = [] -> current_epilogue_label op true s = (Ok (Some l), s') ->
  exists es above e below, mapM (fun r => heap s !! r) (epilogue_stack s) = Some es /\
    rev es = above ++ e :: below /\ Forall (fun e => e_cancelled e = true) above /\
    e_cancelled e = false /\ l = e_name e /\ any_live_entry es op = false /\
    s' = set_captured_labels ({[l]} ∪ captured_labels s) (set_any_shared_label_used true s).
Proof using Type.
  intros Hsc E. unfold current_epilogue_label in E. rewrite bind_gets in E.
  apply bind_inv in E as (es & s1 & E1 & E). apply load_entries_inv in E1 as [Hes ->].
  destruct (any_live_entry es op) eqn:Hlive; [done|]. unfold inline_scope in E. rewrite !bind_gets, Hsc in E.
  cbn [last boundary] in E. destruct (doomed _ _ _); [done|].
  apply label_walk_top in E as (above & e & below & ? & ? & ? & ? & ?).
  by exists es, above, e, below.
Qed.

Lemma entry_is_not_live es op e :
  any_live_entry es op = false -> e ∈ es -> e_cancelled e = false -> entry_is e op = false.
Proof using Type.
  intros Hl He Hc. unfold any_live_entry in Hl. apply not_true_is_false. intros Hop.
  assert (existsb (fun e => negb (e_cancelled e) && entry_is e op) es = true) as Ht; [|congruence].
  apply existsb_exists. exists e. split; [by apply list_elem_of_In|]. by rewrite Hc, Hop.
Qed.

Lemma kept_same es op :
  any_live_entry es op = false -> (forall e, e ∈ es -> e_cancelled e = false -> e_is_construction_attr e = false) ->
  forall l, (forall e, e ∈ l -> e ∈ es) -> List.filter (kept_by_return op) l = List.filter kept_by_ladder l.
Proof using Type.
  intros Hl Hattr l Hsub. apply filter_ext_in. intros e He%list_elem_of_In.
  unfold kept_by_return, kept_by_ladder. destruct (e_cancelled e) eqn:Hc; [done|].
  by rewrite (entry_is_not_live es op e), (Hattr e) by auto.
Qed.
End semantics.

(** ** From the return to the ladder *)

(** Of a stack, top first, what lies at the first pending entry and below. *)
Fixpoint from_pending (es : list Epilogue) : list Epilogue :=
  match es with
  | [] => []
  | e :: es' => if e_cancelled e then from_pending es' else es
  end.

(** An entry at the return, and the same entry when the ladder is built: as
    it was, or guarded since. *)
Definition still_pending (e e' : Epilogue) : Prop :=
  e' = e \/ (e_flag e = None /\ exists flag, e' = with_flag (Some flag) e).

(** The path that jumps has not come by what cleared the flag. *)
Definition armed_since (m : mach) (e e' : Epilogue) : Prop :=
  e_flag e = None -> forall flag, e_flag e' = Some flag -> m_vars m !! v_uid flag = Some (VBool true).

Lemma from_pending_app gone e below :
  Forall (fun e => e_cancelled e = true) gone -> e_cancelled e = false ->
  from_pending (gone ++ e :: below) = e :: below.
Proof. intros Hg Hc. induction Hg as [|x gone Hx _ IH]; simpl; [by rewrite Hc|by rewrite Hx]. Qed.

Lemma still_pending_fields e e' :
  still_pending e e' -> e_name e' = e_name e /\ e_cancelled e' = e_cancelled e /\
    e_is_construction_attr e' = e_is_construction_attr e.
Proof. by intros [->|(_ & flag & ->)]. Qed.

Lemma still_pending_typed m e e' :
  still_pending e e' -> armed_since m e e' -> entry_typed m e -> entry_typed m e'.
Proof.
  intros [->|(Hf & flag & ->)] Harm [Hv Hflag]; [by split|]. split; [exact Hv|].
  intros g [= <-]. exists true. by apply Harm.
Qed.

Lemma still_pending_released m e e' :
  still_pending e e' -> armed_since m e e' -> released m e' = released m e.
Proof.
  intros [->|(Hf & flag & ->)] Harm; [done|]. unfold released, armed. simpl.
  by rewrite Hf, (Harm Hf flag eq_refl).
Qed.

Lemma still_pending_all m es es' :
  Forall2 still_pending es es' -> Forall2 (armed_since m) es es' ->
  (forall e, e ∈ es -> kept_by_ladder e = true -> entry_typed m e) ->
  (forall e', e' ∈ es' -> kept_by_ladder e' = true -> entry_typed m e') /\
  map (released m) (List.filter kept_by_ladder es') = map (released m) (List.filter kept_by_ladder es).
Proof.
  induction 1 as [|e e' es es' He _ IH]; intros Ha Hm.
  { split; [by intros e0 He0%not_elem_of_nil|done]. }
  apply Forall2_cons in Ha as [Ha Has].
  destruct IH as [IH1 IH2]; [done|intros; apply Hm; [by right|done]|].
  destruct (still_pending_fields e e' He) as (_ & Hc & Hk).
  assert (Hkept : kept_by_ladder e' = kept_by_ladder e) by (unfold kept_by_ladder; by rewrite Hc, Hk).
  split.
  - intros x [->|Hx]%elem_of_cons Hx'; [|by apply IH1].
    eapply still_pending_typed; [done..|]. apply Hm; [left|congruence].
  - simpl. rewrite Hkept. destruct (kept_by_ladder e); [|done]. simpl.
    by rewrite IH2, (still_pending_released m e e').
Qed.

(** ** Properties *)

(** C2: jumping to the shared label is equivalent to unwinding inline, for
    a return outside any splice while only variables' releases are pending:
    no [defer], no [errdefer], no attribute of an object under construction.
    The return is lowered in the state [s] and the ladder in any later state
    [f] whose stack still holds the entries pending at the return, each as it
    was or guarded since by a flag that is true on this path; what was pushed
    above them is free.  Then the ladder run from the label handed out and the
    code [return_] would have emitted in its place both finish, and release
    the same references in the same order: those of the entries pending at
    the return, most recent first. *)
Theorem jump_equals_inline {cb : Callbacks} chk op s l s1 es f fs above low :
  (forall t, resolved t -> resolves_to t (resolve_type t)) ->
  inline_scope_stack s = [] ->
  mapM (fun r => heap s !! r) (epilogue_stack s) = Some es ->
  (forall e, e ∈ es -> e_cancelled e = false -> rc_entry e /\ e_is_construction_attr e = false) ->
  current_epilogue_label op true s = (Ok (Some l), s1) ->
  mapM (fun r => heap f !! r) (epilogue_stack f) = Some fs ->
  NoDup (map e_name fs) -> (forall e, e ∈ fs -> l_id (e_name e) < lw_label_id (lw f)) ->
  (forall e, e ∈ fs -> kept_by_ladder e = true -> rc_entry e) ->
  rev fs = above ++ low -> Forall2 still_pending (from_pending (rev es)) low -> l ∈ captured_labels f ->
  exists ladder f2 inline s3,
    build_epilogue_ladder chk f = (Ok ladder, f2) /\ return_ op chk s = (Ok inline, s3) /\
    forall m, (forall e, e ∈ es -> e_cancelled e = false -> entry_typed m e) ->
      Forall2 (armed_since m) (from_pending (rev es)) low ->
      exists m2 m3, exec ladder (Skipping l, m) = (Running, m2) /\ exec inline (Running, m) = (Running, m3) /\
        m_log m2 = m_log m3 /\ m_vars m2 = m_vars m3 /\
        m_log m2 = m_log m ++ map (pair OpDecref)
          (concat (map (released m) (List.filter (fun e => negb (e_cancelled e)) (rev es)))).
Proof.
  intros Hres Hsc Hes Hrc E Hfs Hnd Hold Hrcf Hrevf Hlow Hcap.
  destruct (current_epilogue_label_top op s l s1 Hsc E)
    as (es' & gone & e & below & Hes' & Hrev & Hgone & Hc & -> & Hlive & _).
  simplify_eq. rewrite Hrev, from_pending_app in Hlow |- * by done.
  destruct low as [|e' below']; [by inversion Hlow|]. pose proof Hlow as Hall.
  apply Forall2_cons in Hlow as [He _]. destruct (still_pending_fields e e' He) as (Hname & _ & _).
  assert (Hsub : forall e0, e0 ∈ e :: below -> e0 ∈ es).
  { intros e0 He0. apply elem_of_rev. rewrite Hrev. by apply elem_of_app; right. }
  assert (Hlk : forall e0, kept_by_ladder e0 = true -> e_cancelled e0 = false).
  { intros e0 [Hk%negb_true_iff _]%andb_true_iff. done. }
  assert (Hrk : forall e0, kept_by_return op e0 = true -> e_cancelled e0 = false).
  { intros e0 [Hk%negb_true_iff _]%andb_true_iff. done. }
  assert (Hkr : List.filter (kept_by_return op) (rev es) = List.filter (fun e => negb (e_cancelled e)) (rev es)).
  { apply filter_ext_in. intros e0 He0%list_elem_of_In. unfold kept_by_return.
    destruct (e_cancelled e0) eqn:Hc0; [done|]. rewrite (entry_is_not_live es op e0); [done..| |done].
    by apply elem_of_rev. }
  destruct (ladder_from Hres chk f fs above e' below') as (ladder & f2 & El & Rl); [done..|congruence|].
  destruct (return_performs Hres op chk s es) as (inline & s3 & Ei & Ri).
  { by rewrite Hsc. }
  { intros e0 He0 ?. by apply Hrc; auto. }
  exists ladder, f2, inline, s3. split_and!; [done..|]. intros m Hm Harm.
  destruct (still_pending_all m _ _ Hall Harm) as [Htyped Hrel]; [intros; apply Hm; auto|].
  destruct (Rl m Htyped) as (m2 & X2 & Hv2 & Hl2 & _).
  destruct (Ri m) as (m3 & X3 & Hv3 & Hl3 & _); [intros; apply Hm; auto|].
  exists m2, m3. rewrite Hname in X2. rewrite Hrel, <- (kept_same es op Hlive) in Hl2
    by (try apply Hsub; intros; by apply Hrc).
  rewrite <- (filter_cancelled op gone e below), <- Hrev in Hl2 by done.
  rewrite <- Hrev, <- Hkr, Hv2, Hv3, Hl2, Hl3. done.
Qed.

(** ** Neutralizing an entry *)

Section neutralizing.
Context {cb : Callbacks}.

(** No jump into the entry is committed: a cancelled copy takes its place. *)
Lemma neutralize_static r s e :
  heap s !! r = Some e -> e_name e ∉ captured_labels s ->
  neutralize r s = (Ok (next_ref s, []),
    set_epilogue_stack (replace_first r (next_ref s) (epilogue_stack s))
      (set_next_ref (S (next_ref s)) (set_heap (<[next_ref s := with_cancelled true e]> (heap s)) s))).
Proof.
  intros He Hc. unfold neutralize, deref. unfold bind at 1. rewrite He, bind_gets.
  by rewrite bool_decide_false.
Qed.

(** Some jump is committed: a flag, true from the start of the function,
    is cleared here. *)
Lemma neutralize_flag r s e :
  heap s !! r = Some e -> e_name e ∈ captured_labels s -> e_flag e = None ->
  exists flag s', neutralize r s = (Ok (r, [disarm flag]), s') /\ v_uid flag = lw_uid (lw s) /\
    heap s' = <[r := with_flag (Some flag) e]> (heap s) /\ epilogue_stack s' = epilogue_stack s /\
    cancel_flags s' = cancel_flags s ++ [flag].
Proof.
  intros He Hc Hf. unfold neutralize, deref. unfold bind at 1. rewrite He, bind_gets.
  rewrite bool_decide_true by done. cbn [negb]. rewrite Hf. eexists _, _. split; [done|]. done.
Qed.
End neutralizing.

(** C3: neutralizing an entry that an earlier return already jumps into is
    path-sensitive.  The entry is guarded by a fresh flag, registered to start
    true: a path that reaches the ladder without passing here still releases
    what the variable holds, exactly once, and the path that passes here (and
    so runs the returned instructions) releases nothing for it. *)
Theorem neutralize_path_sensitive {cb : Callbacks} chk r s e :
  (forall t, resolved t -> resolves_to t (resolve_type t)) ->
  heap s !! r = Some e -> e_name e ∈ captured_labels s -> e_flag e = None -> rc_entry e ->
  exists flag code s1 e1, neutralize r s = (Ok (r, code), s1) /\
    heap s1 !! r = Some e1 /\ e_flag e1 = Some flag /\ v_uid flag = lw_uid (lw s) /\
    cancel_flags s1 = cancel_flags s ++ [flag] /\
    forall s2, exists rung s3, replay e1 chk s2 = (Ok rung, s3) /\
      forall m, entry_typed m e -> (forall x, e_operand e = Some x -> v_uid x <> v_uid flag) ->
        (m_vars m !! v_uid flag = Some (VBool true) ->
           exists m', exec rung (Running, m) = (Running, m') /\
             m_log m' = m_log m ++ map (pair OpDecref) (released m e)) /\
        (exists m', exec (code ++ rung) (Running, m) = (Running, m') /\ m_log m' = m_log m).
Proof.
  intros Hres He Hc Hf Hrc. destruct (neutralize_flag r s e He Hc Hf)
    as (flag & s1 & E & Huid & Hh & _ & Hcf).
  set (e1 := with_flag (Some flag) e). exists flag, [disarm flag], s1, e1.
  rewrite Hh, lookup_insert_eq. split_and!; [done..|]. intros s2.
  destruct (flag_decides Hres chk e1 flag s2) as (rung & s3 & Er & R); [exact Hrc|done|].
  exists rung, s3. split; [done|]. intros m Hm Hne.
  assert (He1 : with_flag None e1 = e) by (destruct e; simpl in *; by subst).
  destruct (R m) as [R1 R2]; [by rewrite He1|done|]. rewrite He1 in R1. done.
Qed.

(** A function of two owned parameters, about to return. *)
Definition sample_cb : Callbacks := mkCallbacks (fun _ => []) (fun t => t) (Scalar "bool" 1) 5.
Definition sample_a : Variable_ := mkVariable_ 100 "a" (RCClass "m.A") false false.
Definition sample_b : Variable_ := mkVariable_ 101 "b" (RCClass "m.B") false false.
Definition sample_state : CFGState :=
  (init (cb := sample_cb) [mkParameter_ sample_a true false; mkParameter_ sample_b true false]
     (empty_state (Some "m.f"))).2.
Definition sample_entries : list Epilogue :=
  default [] (mapM (fun r => heap sample_state !! r) (epilogue_stack sample_state)).
Definition sample_captured : CFGState :=
  (current_epilogue_label None true sample_state).2.

(** The rest of the function: [del b], then a third variable. *)
Definition sample_end : CFGState :=
  (bind (neutralize (cb := sample_cb) 1) (fun _ =>
     push (mkVariable_ 102 "c" (RCClass "m.C") false false) (RCClass "m.C") OWNED None false false)
     sample_captured).2.
Definition sample_end_entries : list Epilogue :=
  default [] (mapM (fun r => heap sample_end !! r) (epilogue_stack sample_end)).

Definition sample_entry (id : nat) (x : Variable_) (flag : option Variable_) : Epilogue :=
  mkEpilogue [] (mkLabel "epilogue" id) (Some x) (Some (v_type x)) flag false false false false.
Definition sample_flag : Variable_ := mkVariable_ 0 "__cancel_flag_0" (Scalar "bool" 1) false false.
Definition sample_c : Variable_ := mkVariable_ 102 "c" (RCClass "m.C") false false.

(** Only the top entry's label is captured.  [del a] therefore cancels the
    entry below it outright, and the ladder releases nothing for [a] on the
    path that jumped while [a] was owned, where the inline code does. *)
Example entry_below_captured_cancelled :
  let after := (deleted (cb := sample_cb) sample_a "m.f" sample_captured).2 in
  (build_epilogue_ladder (cb := sample_cb) None after).1 =
    Ok [Label (mkLabel "epilogue" 1); Decref (OVar sample_b)] /\
  (return_ (cb := sample_cb) None None sample_state).1 = Ok [Decref (OVar sample_b); Decref (OVar sample_a)].
Proof. by split; vm_compute. Qed.

Lemma jump_equals_inline_witness :
  exists ladder f2 inline s3,
    build_epilogue_ladder (cb := sample_cb) None sample_end = (Ok ladder, f2) /\
    return_ (cb := sample_cb) None None sample_state = (Ok inline, s3) /\
    forall m, (forall e, e ∈ sample_entries -> e_cancelled e = false -> entry_typed m e) ->
      Forall2 (armed_since m) (from_pending (rev sample_entries))
        [sample_entry 1 sample_b (Some sample_flag); sample_entry 0 sample_a None] ->
      exists m2 m3, exec ladder (Skipping (mkLabel "epilogue" 1), m) = (Running, m2) /\
        exec inline (Running, m) = (Running, m3) /\
        m_log m2 = m_log m3 /\ m_vars m2 = m_vars m3 /\
        m_log m2 = m_log m ++ map (pair OpDecref)
          (concat (map (released m) (List.filter (fun e => negb (e_cancelled e)) (rev sample_entries)))).
Proof.
  apply (jump_equals_inline (cb := sample_cb) None None sample_state (mkLabel "epilogue" 1)
           sample_captured sample_entries sample_end sample_end_entries [sample_entry 2 sample_c None]
           [sample_entry 1 sample_b (Some sample_flag); sample_entry 0 sample_a None]).
  - intros t _. constructor.
  - by vm_compute.
  - by vm_compute.
  - refine (proj1 (Forall_forall (fun e => e_cancelled e = false -> rc_entry (cb := sample_cb) e /\ e_is_construction_attr e = false) _) _).
    change sample_entries with [sample_entry 0 sample_a None; sample_entry 1 sample_b None].
    unfold rc_entry. repeat constructor; eexists _, _; (split_and!; [done|done|exact I|simpl; lia]).
  - by vm_compute.
  - by vm_compute.
  - apply (bool_decide_unpack _). by vm_compute.
  - refine (proj1 (Forall_forall (fun e => l_id (e_name e) < lw_label_id (lw sample_end)) _) _).
    vm_compute. repeat constructor.
  - refine (proj1 (Forall_forall (fun e => kept_by_ladder e = true -> rc_entry (cb := sample_cb) e) _) _).
    change sample_end_entries with [sample_entry 0 sample_a None; sample_entry 1 sample_b (Some sample_flag); sample_entry 2 sample_c None].
    unfold rc_entry. repeat constructor; eexists _, _; (split_and!; [done|done|exact I|simpl; lia]).
  - by vm_compute.
  - change (from_pending (rev sample_entries)) with [sample_entry 1 sample_b None; sample_entry 0 sample_a None].
    constructor; [right; split; [done|by eexists]|]. constructor; [by left|constructor].
  - apply (bool_decide_unpack _). by vm_compute.
Defined.
