(* ===== verification/CfgMerge.v ===== *)
(** * Joining control-flow paths ([cfg.py])

    Union narrowing, the reconciliation of the two branches of an [if]
    ([merge_if]), the loop back edge and the exits of a loop. *)

From S2P Require Import Prelude MpyTypes Ir CfgState UnionStorage CfgRefcount CfgOwnership CfgEpilogue.

(** ** Union narrowing *)

Definition narrow (name : string) (member : Variable_) : C unit :=
  modify (fun s => set_narrowed (dict_set name [member] (narrowed s)) s).

Definition narrow_many (name : string) (members : list Variable_) : C unit :=
  match members with
  | [] => raise (AssertionError "narrow_many: no members")
  | _ => modify (fun s => set_narrowed (dict_set name members (narrowed s)) s)
  end.

Definition narrowed_members (name : string) : C (option (list Variable_)) :=
  gets (fun s => dict_get name (narrowed s)).

(** [k.startswith( f'{name}::' )] *)
Definition chain_of (name k : string) : bool := String.prefix (name ++ "::") k.

Definition unnarrow (name : string) : C unit := modify (fun s =>
  set_narrowed (List.filter (fun kv => negb (chain_of name kv.1)) (dict_del name (narrowed s))) s).

Definition narrowed_member (name : string) : C (option Variable_) :=
  gets (fun s => match dict_get name (narrowed s) with Some [m] => Some m | _ => None end).

Definition narrowed_snapshot : C (dict (list Variable_)) := gets narrowed.

(** [combined = list( members ); for m in other: if not any( m is ... ): append] *)
Fixpoint union_members (members other : list Variable_) : list Variable_ :=
  match other with
  | [] => members
  | m :: other' => union_members (if mem_ident m members then members else members ++ [m]) other'
  end.

(** A name survives when narrowed on both sides, to either side's members. *)
Fixpoint merge_narrowed (a b : dict (list Variable_)) : dict (list Variable_) :=
  match a with
  | [] => []
  | (name, members) :: a' =>
      match dict_get name b with
      | None => merge_narrowed a' b
      | Some other => (name, union_members members other) :: merge_narrowed a' b
      end
  end.

Definition merge_narrowed_soft (true_end false_end : option (dict (list Variable_))) : C unit :=
  modify (set_narrowed (merge_narrowed (default [] true_end) (default [] false_end))).

Definition merge_live_soft (true_end false_end : gset string) : C unit :=
  modify (set_live (true_end ∩ false_end)).

(** ** The exits of a loop *)

Definition exits_narrowed (candidates : list (dict (list Variable_))) : dict (list Variable_) :=
  match candidates with
  | [] => []
  | c :: cs => fold_left merge_narrowed cs c
  end.

Definition exits_live (entry : gset string) (candidates : list (gset string)) : gset string :=
  match candidates with
  | [] => entry
  | c :: cs => fold_left (fun a b => a ∩ b) cs c
  end.

Definition merge_loop_exits (natural_exit_narrowed : option (dict (list Variable_)))
    (break_narrowed : list (dict (list Variable_)))
    (natural_exit_live : option (gset string)) (break_live : list (gset string)) : C unit :=
  modify (fun s => set_narrowed (exits_narrowed (break_narrowed ++ option_list natural_exit_narrowed)) s) ;;;
  modify (fun s => set_live (exits_live (live s) (break_live ++ option_list natural_exit_live)) s).

(** What the lowering captured at the end of one branch. *)
Record BranchEnd := mkBranchEnd {
  be_bindings : dict Binding;
  be_results : gset string;
  be_narrowed : option (dict (list Variable_));
  be_live : gset string;
  be_terminates : bool;
}.

(** The instructions for each branch, and the names to forget. *)
Record Merge := mkMerge {
  m_true : list Instruction;
  m_false : list Instruction;
  m_removed : list string;
}.

Definition add_to (on_true : bool) (code : list Instruction) (m : Merge) : Merge :=
  if on_true then mkMerge (m_true m ++ code) (m_false m) (m_removed m)
  else mkMerge (m_true m) (m_false m ++ code) (m_removed m).

Section merge.
Context {cb : Callbacks}.
(** The order in which Python iterates a set of names. *)
Context (set_order : list string -> list string).

Definition on_stack (r : nat) (s : CFGState) : bool := existsb (Nat.eqb r) (epilogue_stack s).

Definition entry_on_stack (b : Binding) (s : CFGState) : bool :=
  match b_entry b with Some r => on_stack r s | None => false end.

(** ** [if] *)

Definition reestablish (name : string) (binding : Binding) (already_live : bool) : C unit :=
  if bool_decide (b_state binding = OWNED) then
    if already_live then bind_name name binding
    else push (b_operand binding) (b_type binding) (b_state binding) (Some name) false false ;;; ret tt
  else bind_name name (mkBinding (b_operand binding) (b_type binding) (b_state binding) None).

(** A pre-if owned entry the branches released through replacements of
    their own, still pending on the restored stack. *)
Definition stale_entry (already_live : bool) (binding : Binding) (prior : option Binding)
    (s : CFGState) : option nat :=
  if already_live || bool_decide (b_state binding = OWNED) then None else
  match prior with
  | Some (mkBinding _ _ OWNED (Some r)) => if on_stack r s then Some r else None
  | _ => None
  end.

Definition neutralize_stale (stale : option nat) : C (list Instruction) :=
  match stale with
  | Some r => let* (_, instructions) := neutralize r in ret instructions
  | None => ret []
  end.

Definition survivor_already_live (prior : option Binding) (binding : Binding) (s : CFGState) : bool :=
  match prior with Some p => bool_decide (b_entry p = b_entry binding) | None => false end
  || entry_on_stack binding s.

Definition survivor_name (entry_bindings : dict Binding) (on_true : bool) (m : Merge)
    (nb : string * Binding) : C Merge :=
  let '(name, binding) := nb in
  let prior := dict_get name entry_bindings in
  let* already_live := gets (survivor_already_live prior binding) in
  let* stale := gets (stale_entry already_live binding prior) in
  let* instructions := neutralize_stale stale in
  reestablish name binding already_live ;;;
  ret (add_to on_true instructions m).

(** A name the surviving branch deleted: the restored state still has it. *)
Definition survivor_deleted (survivor : dict Binding) (on_true : bool) (m : Merge)
    (nb : string * Binding) : C Merge :=
  let '(name, prior) := nb in
  match b_entry prior with
  | None => ret m
  | Some r =>
      if dict_mem name survivor then ret m else
      let* current := binding_of name in
      match current with
      | Some (mkBinding _ _ _ (Some r')) =>
          if negb (Nat.eqb r' r) then ret m else
          let* (_, instructions) := neutralize r' in
          modify (fun s => set_bindings (dict_del name (bindings s)) s) ;;;
          ret (add_to on_true instructions m)
      | _ => ret m
      end
  end.

Definition merge_survivor (entry_bindings : dict Binding) (survivor : BranchEnd) (on_true : bool)
    (m : Merge) : C Merge :=
  let* m := mfold (survivor_name entry_bindings on_true) (be_bindings survivor) m in
  mfold (survivor_deleted (be_bindings survivor) on_true) entry_bindings m.

Definition settle (results : gset string) (nar : dict (list Variable_)) (l : gset string) : C unit :=
  modify (set_unchecked_results results) ;;; modify (set_narrowed nar) ;;; modify (set_live l).

Definition merge_terminating (entry_bindings : dict Binding) (true_end false_end : BranchEnd) : C Merge :=
  let empty := mkMerge [] [] [] in
  if be_terminates true_end && be_terminates false_end then
    settle ∅ [] ∅ ;;; ret empty
  else
    let on_true := be_terminates false_end in
    let survivor := if on_true then true_end else false_end in
    let* m := merge_survivor entry_bindings survivor on_true empty in
    settle (be_results survivor) (default [] (be_narrowed survivor)) (be_live survivor) ;;;
    ret m.

(** Both branches define the name, in different ownership states. *)
Definition merge_disagreement (ctx name : string) (tb fb : Binding) (m : Merge) : C Merge :=
  let true_owns := bool_decide (b_state tb = OWNED) in
  let '(owning, borrowed) := if true_owns then (tb, fb) else (fb, tb) in
  if negb (bool_decide (b_state owning = OWNED) && bool_decide (b_state borrowed = BORROWED)) then
    raise (IndeterminateAfterIf ctx name (b_state tb) (b_state fb))
  else
    let* flag := mint_cancel_flag in
    let* entry := push (b_operand owning) (b_type owning) (b_state owning) None false false in
    let* e := deref entry in
    store entry (with_flag (Some flag) e) ;;;
    ret (add_to (negb true_owns) [disarm flag] m).

Definition both_already_live (prior : option Binding) (tb fb : Binding) (s : CFGState) : bool :=
  match prior with
  | Some p => bool_decide (b_entry p = b_entry tb) && bool_decide (b_entry p = b_entry fb)
  | None => false
  end
  || (bool_decide (b_entry tb = b_entry fb) && entry_on_stack tb s).

Definition merge_agreement (entry_bindings : dict Binding) (name : string) (tb fb : Binding)
    (m : Merge) : C Merge :=
  let prior := dict_get name entry_bindings in
  let* already_live := gets (both_already_live prior tb fb) in
  let* stale := gets (stale_entry already_live tb prior) in
  let* instructions := neutralize_stale stale in
  reestablish name tb already_live ;;;
  ret (add_to false instructions (add_to true instructions m)).

(** Fresh on one branch: torn down at the end of that branch. *)
Definition merge_confined (name : string) (binding : Binding) (in_true : bool) (m : Merge) : C Merge :=
  let* dec := if bool_decide (b_state binding = OWNED)
              then decref_instructions (b_type binding) (OVar (b_operand binding)) else ret [] in
  let m' := add_to in_true dec m in
  ret (mkMerge (m_true m') (m_false m') (m_removed m' ++ [name])).

Definition merge_name (entry_bindings true_end false_end : dict Binding) (ctx : string)
    (m : Merge) (name : string) : C Merge :=
  match dict_get name true_end, dict_get name false_end with
  | Some tb, Some fb =>
      if negb (bool_decide (b_state tb = b_state fb)) then merge_disagreement ctx name tb fb m
      else merge_agreement entry_bindings name tb fb m
  | Some b, None =>
      if dict_mem name entry_bindings then raise (ExistsOnOneBranch ctx name)
      else merge_confined name b true m
  | None, Some b =>
      if dict_mem name entry_bindings then raise (ExistsOnOneBranch ctx name)
      else merge_confined name b false m
  | None, None => ret m
  end.

(** [set( a ) | set( b )], iterated *)
Definition names_of (a b : dict Binding) : list string :=
  set_order (elements (list_to_set (dict_keys a) ∪ list_to_set (dict_keys b) : gset string)).

Fixpoint merge_result_names (names : list string) (entry t f acc : gset string) (ctx : string)
    : result exn (gset string) :=
  match names with
  | [] => Ok acc
  | name :: names' =>
      if bool_decide (name ∈ t) && bool_decide (name ∈ f)
      then merge_result_names names' entry t f (acc ∪ {[name]}) ctx
      else if bool_decide (name ∈ entry) then Err (ResultInspectedOnOneBranch ctx name)
      else Err (ResultLeavesBranchUninspected ctx name)
  end.

Definition merge_results (entry_results true_end_results false_end_results : gset string)
    (ctx : string) : C unit :=
  let* merged := lift (merge_result_names (set_order (elements (true_end_results ∪ false_end_results)))
                         entry_results true_end_results false_end_results ∅ ctx) in
  modify (set_unchecked_results merged).

Definition merge_if (entry_bindings : dict Binding) (entry_results : gset string)
    (true_end false_end : BranchEnd) (ctx : string) : C Merge :=
  if be_terminates true_end || be_terminates false_end then
    merge_terminating entry_bindings true_end false_end
  else
    let* m := mfold (merge_name entry_bindings (be_bindings true_end) (be_bindings false_end) ctx)
                (names_of (be_bindings true_end) (be_bindings false_end)) (mkMerge [] [] []) in
    merge_results entry_results (be_results true_end) (be_results false_end) ctx ;;;
    merge_narrowed_soft (be_narrowed true_end) (be_narrowed false_end) ;;;
    merge_live_soft (be_live true_end) (be_live false_end) ;;;
    ret m.

(** ** Loops *)

Definition back_edge_name (entry_bindings back_edge : dict Binding) (ctx : string)
    (acc : list Instruction) (name : string) : C (list Instruction) :=
  match dict_get name entry_bindings, dict_get name back_edge with
  | Some eb, Some bb =>
      if negb (bool_decide (b_state eb = b_state bb))
      then raise (IndeterminateAcrossLoop ctx name (b_state eb) (b_state bb))
      else ret acc
  | Some _, None => raise (InconsistentAcrossLoop ctx name)
  | None, Some binding =>
      if bool_decide (b_state binding = OWNED) then
        let* dec := decref_instructions (b_type binding) (OVar (b_operand binding)) in
        ret (acc ++ dec)
      else ret acc
  | None, None => ret acc
  end.

(** [sorted( names )[0]] *)
Definition least_name (name : string) (names : list string) : string :=
  fold_left (fun a b => if String.ltb b a then b else a) names name.

Definition check_fresh_results (entry_results : option (gset string)) (ctx : string) : C unit := fun s =>
  match entry_results with
  | None => (Ok tt, s)
  | Some entry =>
      match elements (unchecked_results s ∖ entry) with
      | [] => (Ok tt, s)
      | name :: names => (Err (ResultFreshEachIteration ctx (least_name name names)), s)
      end
  end.

Definition loop_back_edge (entry_bindings : dict Binding) (ctx : string)
    (entry_results : option (gset string)) : C (list Instruction) :=
  let* back_edge := gets bindings in
  let* instructions := mfold (back_edge_name entry_bindings back_edge ctx)
                         (names_of entry_bindings back_edge) [] in
  check_fresh_results entry_results ctx ;;;
  ret instructions.

Definition promotable (back_edge : dict Binding) (nb : string * Binding) : bool :=
  match dict_get nb.1 back_edge with
  | Some back => bool_decide (b_state nb.2 = BORROWED) && bool_decide (b_state back = OWNED)
  | None => false
  end.

Definition find_promotable_loop_mismatches (entry_bindings : dict Binding) : C (gset string) :=
  gets (fun s => list_to_set (map fst (List.filter (promotable (bindings s)) entry_bindings))).

Definition promote_borrowed_for_loop (name : string) : C (list Instruction) :=
  let* binding := binding_of name in
  match binding with
  | None => raise (KeyError name)
  | Some b =>
      if negb (bool_decide (b_state b = BORROWED))
      then raise (AssertionError "promote_borrowed_for_loop: not BORROWED")
      else
        let* instructions := incref_instructions (b_type b) (OVar (b_operand b)) in
        push (b_operand b) (b_type b) OWNED (Some name) false true ;;;
        ret instructions
  end.

(** ** Exception binds *)

Definition declare_exception_bind (dest : Variable_) : C unit :=
  mark_live (v_stem dest) ;;;
  if has_rc_leaves (v_type dest) then
    push dest (v_type dest) OWNED None false false ;;; ret tt
  else ret tt.
End merge.

(** ** Narrowing and liveness at the exits of a loop *)

Lemma union_members_spec members other x :
  mem_ident x (union_members members other) = mem_ident x members || mem_ident x other.
Proof.
  revert members. induction other as [|m other IH]; intros members; simpl.
  { by rewrite orb_false_r. }
  rewrite IH. destruct (mem_ident m members) eqn:Hm.
  - destruct (is_same x m) eqn:Hx; simpl; [|done].
    apply is_same_true in Hx. apply mem_ident_true in Hm as (y & Hy & Heq).
    replace (mem_ident x members) with true; [done|]. symmetry. apply mem_ident_true. exists y. split; [done|congruence].
  - unfold mem_ident at 1. rewrite existsb_app. simpl. fold (mem_ident x members).
    by rewrite orb_false_r, <- orb_assoc.
Qed.

Lemma merge_narrowed_get name a b :
  dict_get name (merge_narrowed a b) =
    match dict_get name a, dict_get name b with
    | Some ms, Some other => Some (union_members ms other)
    | _, _ => None
    end.
Proof.
  induction a as [|[k ms] a IH]; simpl; [done|].
  destruct (dict_get k b) as [other|] eqn:Hk; simpl.
  - case_bool_decide; [subst; by rewrite Hk|done].
  - rewrite IH. case_bool_decide; [|done]. subst. rewrite Hk. by destruct (dict_get k a).
Qed.

(** What a list of paths agrees a name may hold. *)
Lemma exits_narrowed_fold name cs : forall c ms,
  dict_get name (fold_left merge_narrowed cs c) = Some ms <->
  exists ms0, dict_get name c = Some ms0 /\ Forall (fun p => is_Some (dict_get name p)) cs /\
    ms = fold_left union_members (omap (dict_get name) cs) ms0.
Proof.
  induction cs as [|p cs IH]; intros c ms; simpl.
  { split; [intros ->; eexists; split_and!; [done|constructor|done]|by intros (? & -> & _ & ->)]. }
  rewrite IH. setoid_rewrite merge_narrowed_get. setoid_rewrite Forall_cons.
  destruct (dict_get name c) as [ms0|], (dict_get name p) as [mp|]; split; try naive_solver;
    intros (? & ? & [[? ?] ?] & ?); simplify_eq.
Qed.

Lemma fold_union_members x l : forall ms,
  mem_ident x (fold_left union_members l ms) = mem_ident x ms || existsb (mem_ident x) l.
Proof.
  induction l as [|o l IH]; intros ms; simpl; [by rewrite orb_false_r|].
  by rewrite IH, union_members_spec, orb_assoc.
Qed.

Lemma exits_live_spec name entry cs :
  name ∈ exits_live entry cs <->
  match cs with [] => name ∈ entry | _ => forall c, c ∈ cs -> name ∈ c end.
Proof.
  destruct cs as [|c cs]; [done|]. simpl.
  assert (Hf : forall cs c, name ∈ fold_left (fun a b : gset string => a ∩ b) cs c <->
                 name ∈ c /\ forall p, p ∈ cs -> name ∈ p).
  { clear. induction cs as [|p cs IH]; intros c; simpl.
    - split; [intros ?; split; [done|by intros p ?%not_elem_of_nil]|by intros []].
    - rewrite IH, elem_of_intersection. setoid_rewrite elem_of_cons. naive_solver. }
  rewrite Hf. setoid_rewrite elem_of_cons. naive_solver.
Qed.

(** C8: what is known after a loop is what every way of leaving it knows.
    With [paths] the breaks and, when reachable, the natural exit: a name is
    definitely assigned after the loop iff it is on every path (with no path
    at all, the entry's own liveness stands); it stays narrowed iff it is on
    every path; and the members it may then hold are exactly those some path
    allows. *)
Theorem merge_loop_exits_sound natural break natural_live break_live s :
  let paths := break ++ option_list natural in
  let live_paths := break_live ++ option_list natural_live in
  exists s', merge_loop_exits natural break natural_live break_live s = (Ok tt, s') /\
    (forall name, name ∈ live s' <->
       match live_paths with [] => name ∈ live s | _ => forall p, p ∈ live_paths -> name ∈ p end) /\
    (forall name, is_Some (dict_get name (narrowed s')) <->
       paths <> [] /\ forall p, p ∈ paths -> is_Some (dict_get name p)) /\
    (forall name ms x, dict_get name (narrowed s') = Some ms ->
       mem_ident x ms = true <->
       exists p pms, p ∈ paths /\ dict_get name p = Some pms /\ mem_ident x pms = true).
Proof.
  intros paths live_paths. eexists. split; [done|]. cbn [live narrowed set_live set_narrowed].
  split; [intros name; apply exits_live_spec|].
  fold paths. destruct paths as [|c cs]; simpl.
  { split; [|done]. intros name. split; [by intros []|by intros []]. }
  split.
  - intros name. unfold is_Some at 1. setoid_rewrite exits_narrowed_fold.
    setoid_rewrite elem_of_cons. setoid_rewrite Forall_forall. split.
    + intros (ms & ms0 & Hc & Hcs & _). split; [done|]. intros p [->|Hp]; eauto.
    + intros [_ Hall]. destruct (Hall c) as [ms0 Hc]; [by left|].
      eexists _, ms0. split_and!; [done| |done]. eauto.
  - intros name ms x Hms. apply exits_narrowed_fold in Hms as (ms0 & Hc & Hcs & ->).
    rewrite fold_union_members, orb_true_iff, existsb_exists. setoid_rewrite elem_of_cons. split.
    + intros [Hx|(pms & Hp%list_elem_of_In & Hx)]; [exists c, ms0; by auto|].
      apply list_elem_of_omap in Hp as (p & Hp & Hpms). exists p, pms. auto.
    + intros (p & pms & [->|Hp] & Hpms & Hx); [left; congruence|right].
      exists pms. split; [|done]. apply list_elem_of_In, list_elem_of_omap. eauto.
Qed.

(** ** What [merge_if] accepts *)

(** The two branches leave a name in states that can be joined. *)
Definition reconcilable (entry t f : dict Binding) (name : string) : Prop :=
  match dict_get name t, dict_get name f with
  | Some tb, Some fb =>
      b_state tb = b_state fb \/ (b_state tb = OWNED /\ b_state fb = BORROWED) \/
      (b_state tb = BORROWED /\ b_state fb = OWNED)
  | Some _, None | None, Some _ => dict_get name entry = None
  | None, None => True
  end.

(** Defined at the end of exactly one branch. *)
Definition confined (t f : dict Binding) (name : string) : bool := xorb (dict_mem name t) (dict_mem name f).

Section accepts.
Context {cb : Callbacks}.

Lemma add_to_removed b code m : m_removed (add_to b code m) = m_removed m.
Proof using Type. by destruct b. Qed.

Lemma merge_disagreement_inv ctx name tb fb m s m' s' :
  b_state tb <> b_state fb -> merge_disagreement ctx name tb fb m s = (Ok m', s') ->
  ((b_state tb = OWNED /\ b_state fb = BORROWED) \/ (b_state tb = BORROWED /\ b_state fb = OWNED)) /\
  m_removed m' = m_removed m.
Proof using Type.
  intros Hne E. unfold merge_disagreement in E.
  assert (Hrm : forall on x t st code,
    (let* flag := mint_cancel_flag in
     let* entry := push x t st None false false in
     let* e := deref entry in
     store entry (with_flag (Some flag) e) ;;;
     ret (add_to on (code flag) m))%monad s = (Ok m', s') -> m_removed m' = m_removed m).
  { clear. intros on x t st code E.
    apply bind_inv in E as (flag & s1 & _ & E). apply bind_inv in E as (r & s2 & _ & E).
    apply bind_inv in E as (e & s3 & _ & E). apply bind_inv in E as (u & s4 & _ & E).
    apply ret_inv in E as [<- _]. apply add_to_removed. }
  destruct (bool_decide (b_state tb = OWNED)) eqn:Ho; cbn iota beta zeta in E;
    (destruct (negb _) eqn:Hc in E; [done|]);
    apply negb_false_iff, andb_true_iff in Hc as [H1%bool_decide_eq_true H2%bool_decide_eq_true];
    (split; [by auto|]); by eapply Hrm in E.
Qed.

Lemma merge_agreement_removed entry name tb fb m s m' s' :
  merge_agreement entry name tb fb m s = (Ok m', s') -> m_removed m' = m_removed m.
Proof using Type.
  intros E. unfold merge_agreement in E. rewrite !bind_gets in E.
  apply bind_inv in E as (i & s1 & _ & E). apply bind_inv in E as (u & s2 & _ & E).
  apply ret_inv in E as [<- _]. by rewrite !add_to_removed.
Qed.

Lemma merge_confined_removed name b on m s m' s' :
  merge_confined name b on m s = (Ok m', s') -> m_removed m' = m_removed m ++ [name].
Proof using Type.
  intros E. unfold merge_confined in E. apply bind_inv in E as (dec & s1 & _ & E).
  apply ret_inv in E as [<- _]. simpl. by rewrite add_to_removed.
Qed.

Lemma merge_name_inv entry t f ctx m name s m' s' :
  merge_name entry t f ctx m name s = (Ok m', s') ->
  reconcilable entry t f name /\
  m_removed m' = m_removed m ++ (if confined t f name then [name] else []).
Proof using Type.
  intros E. unfold merge_name in E. unfold reconcilable, confined, dict_mem.
  destruct (dict_get name t) as [tb|], (dict_get name f) as [fb|]; simpl.
  - rewrite app_nil_r. case_bool_decide as Heq; cbn [negb] in E.
    + split; [by left|]. by eapply merge_agreement_removed.
    + apply merge_disagreement_inv in E as [Hor Hrm]; [|done]. split; [by right|done].
  - destruct (dict_mem name entry) eqn:Hm; [done|]. split; [|by eapply merge_confined_removed].
    unfold dict_mem in Hm. by destruct (dict_get name entry).
  - destruct (dict_mem name entry) eqn:Hm; [done|]. split; [|by eapply merge_confined_removed].
    unfold dict_mem in Hm. by destruct (dict_get name entry).
  - injection E as <- _. by rewrite app_nil_r.
Qed.

Lemma merge_names_inv entry t f ctx names : forall m s m' s',
  mfold (merge_name entry t f ctx) names m s = (Ok m', s') ->
  Forall (reconcilable entry t f) names /\
  m_removed m' = m_removed m ++ List.filter (confined t f) names.
Proof using Type.
  induction names as [|name names IH]; intros m s m' s' E; simpl in *.
  { injection E as <- _. by rewrite app_nil_r. }
  apply bind_inv in E as (m1 & s1 & E1 & E). apply merge_name_inv in E1 as [H1 R1].
  apply IH in E as [H2 R2]. split; [by constructor|]. rewrite R2, R1, <- (assoc_L (++)).
  f_equal. by destruct (confined t f name).
Qed.

Lemma merge_result_names_inv names entry t f ctx : forall acc r,
  merge_result_names names entry t f acc ctx = Ok r ->
  Forall (fun n => n ∈ t /\ n ∈ f) names /\ r = acc ∪ list_to_set names.
Proof using Type.
  induction names as [|n names IH]; intros acc r E; simpl in *.
  { injection E as <-. split; [constructor|set_solver]. }
  destruct (bool_decide (n ∈ t)) eqn:Ht, (bool_decide (n ∈ f)) eqn:Hf; simpl in E;
    try (case_bool_decide; done).
  apply bool_decide_eq_true in Ht, Hf. apply IH in E as [H ->]. split; [by constructor|set_solver].
Qed.

Lemma names_of_elem set_order a b name :
  (forall l, set_order l ≡ₚ l) ->
  name ∈ names_of set_order a b <-> dict_mem name a = true \/ dict_mem name b = true.
Proof.
  intros Hord. unfold names_of. rewrite Hord, elem_of_elements, elem_of_union, !elem_of_list_to_set.
  by rewrite <- !dict_mem_keys.
Qed.
End accepts.

(** C9: an [if] both branches fall out of is accepted only when every name
    can be joined.  If [merge_if] succeeds: each name is left in the same state
    by both branches, or owned by one and borrowed by the other; a name on one
    branch only did not exist before the [if], and these names are exactly the
    ones forgotten; both branches leave the same Results unchecked; and a name
    is definitely assigned afterwards iff both branches assign it. *)
Theorem merge_if_accepts {cb : Callbacks} set_order entry results t f ctx s m s' :
  (forall l, set_order l ≡ₚ l) ->
  be_terminates t = false -> be_terminates f = false ->
  merge_if set_order entry results t f ctx s = (Ok m, s') ->
  (forall name, reconcilable entry (be_bindings t) (be_bindings f) name) /\
  (forall name, name ∈ m_removed m <-> confined (be_bindings t) (be_bindings f) name = true) /\
  be_results t = be_results f /\ unchecked_results s' = be_results t /\
  (forall name, name ∈ live s' <-> name ∈ be_live t /\ name ∈ be_live f).
Proof.
  intros Hord Ht Hf E. unfold merge_if in E. rewrite Ht, Hf in E. cbn [orb] in E.
  apply bind_inv in E as (m0 & s1 & E1 & E). apply bind_inv in E as ([] & s2 & E2 & E).
  injection E as <- <-. apply merge_names_inv in E1 as [Hall Hrm].
  unfold merge_results in E2. apply bind_inv in E2 as (r & s3 & E2 & E3). injection E2 as E2 <-.
  injection E3 as <-. apply merge_result_names_inv in E2 as [Hres ->].
  assert (Heq : be_results t ∪ be_results f = be_results t /\ be_results t = be_results f).
  { rewrite Forall_forall in Hres. setoid_rewrite Hord in Hres. setoid_rewrite elem_of_elements in Hres.
    split; apply leibniz_equiv; set_solver. }
  destruct Heq as [Hu Hres'].
  split_and!.
  - intros name. destruct (dict_mem name (be_bindings t)) eqn:Hmt, (dict_mem name (be_bindings f)) eqn:Hmf;
      try solve [rewrite Forall_forall in Hall; apply Hall, names_of_elem; auto].
    unfold reconcilable, dict_mem in *. by destruct (dict_get name (be_bindings t)), (dict_get name (be_bindings f)).
  - intros name. rewrite Hrm. simpl. rewrite list_elem_of_In, filter_In, <- list_elem_of_In, names_of_elem by done.
    unfold confined. destruct (dict_mem name (be_bindings t)), (dict_mem name (be_bindings f)); naive_solver.
  - done.
  - cbn. rewrite Hord, list_to_set_elements_L, Hu. set_solver.
  - intros name. cbn. apply elem_of_intersection.
Qed.

(** ** The loop back edge *)

(** The names a body introduced and still owns at its end. *)
Definition fresh_owned (entry back : dict Binding) (name : string) : option Binding :=
  match dict_get name entry, dict_get name back with
  | None, Some b => if bool_decide (b_state b = OWNED) then Some b else None
  | _, _ => None
  end.

Definition stable (entry back : dict Binding) (name : string) : Prop :=
  forall eb, dict_get name entry = Some eb -> exists bb, dict_get name back = Some bb /\ b_state bb = b_state eb.

Definition released_binding (m : mach) (b : Binding) : list nat :=
  match m_vars m !! v_uid (b_operand b) with Some v => held (b_type b) v | None => [] end.

Definition binding_typed (m : mach) (b : Binding) : Prop :=
  exists v, m_vars m !! v_uid (b_operand b) = Some v /\ has_type v (b_type b).

Section back_edge.
Context {cb : Callbacks}.
Context (resolve_resolved : forall t, resolved t -> resolves_to t (resolve_type t)).
Context (entry back : dict Binding) (ctx : string).
Context (Hres : forall name b, fresh_owned entry back name = Some b ->
  resolved (b_type b) /\ depth (b_type b) < recursion_limit).

Lemma back_edge_name_spec acc name s :
  stable entry back name ->
  exists code s', back_edge_name entry back ctx acc name s = (Ok (acc ++ code), s') /\ lw_ext s s' /\
    forall m, (forall b, fresh_owned entry back name = Some b -> binding_typed m b) ->
      exists m', exec code (Running, m) = (Running, m') /\
        after s m m' (map (pair OpDecref) (match fresh_owned entry back name with
                                           | Some b => released_binding m b | None => [] end)).
Proof using resolve_resolved Hres.
  intros Hst. unfold back_edge_name.
  assert (Hnil : forall s, exists code s', @ret CFGState exn _ acc s = (Ok (acc ++ code), s') /\ lw_ext s s' /\
    forall m, exists m', exec code (Running, m) = (Running, m') /\ after s m m' []).
  { intros s1. exists [], s1. rewrite app_nil_r. split_and!; [done..|]. intros m. exists m.
    split; [done|apply after_refl]. }
  specialize (Hres name). revert Hres. unfold fresh_owned.
  destruct (dict_get name entry) as [eb|] eqn:He.
  - destruct (Hst eb He) as (bb & -> & Hs). rewrite Hs, bool_decide_true by done. intros _.
    destruct (Hnil s) as (code & s' & ? & ? & R). exists code, s'. split_and!; [done..|]. intros m _. apply R.
  - destruct (dict_get name back) as [b|]; [case_bool_decide|]; intros Hres1;
      [|destruct (Hnil s) as (code & s' & ? & ? & R); exists code, s'; split_and!; [done..|]; intros m _; apply R..].
    destruct (Hres1 b eq_refl) as [Hr Hd].
    destruct (refcount_emits resolve_type bool_type OpDecref resolve_resolved recursion_limit
                (b_type b) (OVar (b_operand b)) s) as (code & s' & E & X & _ & R); [done..|].
    unfold decref_instructions. rewrite (bind_ok _ _ _ _ _ E). exists code, s'. split_and!; [done..|].
    intros m Hm. destruct (Hm b eq_refl) as (v & Hv & Hty). destruct (R v m Hty Hv) as (m' & Er & A).
    exists m'. split; [done|]. unfold released_binding. by rewrite Hv.
Qed.

Lemma back_edge_names_spec names : forall acc s,
  Forall (stable entry back) names ->
  exists code s', mfold (back_edge_name entry back ctx) names acc s = (Ok (acc ++ code), s') /\ lw_ext s s' /\
    forall m, (forall name b, name ∈ names -> fresh_owned entry back name = Some b -> binding_typed m b) ->
      exists m', exec code (Running, m) = (Running, m') /\
        after s m m' (map (pair OpDecref)
          (concat (map (released_binding m) (omap (fresh_owned entry back) names)))).
Proof using resolve_resolved Hres.
  induction names as [|name names IH]; intros acc s Hall.
  { exists [], s. rewrite app_nil_r. split_and!; [done..|]. intros m _. exists m. split; [done|apply after_refl]. }
  apply Forall_cons in Hall as [Hst Hall].
  destruct (back_edge_name_spec acc name s Hst) as (c1 & s1 & E1 & X1 & R1).
  destruct (IH (acc ++ c1) s1 Hall) as (c2 & s2 & E2 & X2 & R2).
  exists (c1 ++ c2), s2. cbn [mfold]. rewrite (bind_ok _ _ _ _ _ E1), E2, (assoc_L (++)).
  split_and!; [done|by etrans|]. intros m Hm.
  destruct (R1 m) as (m1 & Er1 & A1); [intros; eapply Hm; [left|done]|]. pose proof A1 as (Hv1 & _ & _).
  assert (Hrel : forall b, released_binding m1 b = released_binding m b)
    by (intros; unfold released_binding; by rewrite Hv1).
  destruct (R2 m1) as (m2 & Er2 & A2).
  { intros n b Hn Hb. unfold binding_typed. rewrite Hv1. eapply Hm; [by right|done]. }
  exists m2. rewrite exec_app, Er1. split; [done|].
  rewrite (map_ext _ _ Hrel) in A2. pose proof (after_trans _ _ _ _ _ _ _ X1 A1 A2) as A.
  rewrite <- map_app in A. simpl. by destruct (fresh_owned entry back name).
Qed.

Lemma back_edge_names_inv names : forall acc s r s',
  mfold (back_edge_name entry back ctx) names acc s = (Ok r, s') -> Forall (stable entry back) names.
Proof using Type.
  induction names as [|name names IH]; intros acc s r s' E; [constructor|]. simpl in E.
  apply bind_inv in E as (a & s1 & E1 & E). constructor; [|by eapply IH].
  intros eb He. unfold back_edge_name in E1. rewrite He in E1.
  destruct (dict_get name back) as [bb|]; [|done]. case_bool_decide; [|done]. by exists bb.
Qed.
End back_edge.

(** C10: the loop back edge is a fixed point.  [loop_back_edge] accepts a body
    exactly when every name bound on entry is bound at its end in the same
    ownership state and no Result produced in the body is left unchecked; it
    then changes nothing but the lowering's counters, and the code it returns
    releases, once per iteration, exactly the variables the body introduced
    and still owns. *)
Theorem loop_back_edge_fixed_point {cb : Callbacks} set_order entry ctx results s :
  (forall t, resolved t -> resolves_to t (resolve_type t)) -> (forall l, set_order l ≡ₚ l) ->
  (forall name b, fresh_owned entry (bindings s) name = Some b ->
     resolved (b_type b) /\ depth (b_type b) < recursion_limit) ->
  let r := loop_back_edge set_order entry ctx (Some results) s in
  (is_ok r.1 = true <->
     (forall name, stable entry (bindings s) name) /\ unchecked_results s ⊆ results) /\
  forall code s', r = (Ok code, s') ->
    lw_ext s s' /\
    forall m, (forall name b, fresh_owned entry (bindings s) name = Some b -> binding_typed m b) ->
      exists m', exec code (Running, m) = (Running, m') /\
        m_log m' = m_log m ++ map (pair OpDecref) (concat (map (released_binding m)
          (omap (fresh_owned entry (bindings s)) (names_of set_order entry (bindings s))))).
Proof.
  intros Hres Hord Hfresh r. set (names := names_of set_order entry (bindings s)).
  assert (Hall : Forall (stable entry (bindings s)) names <-> forall name, stable entry (bindings s) name).
  { rewrite Forall_forall. split; [|by auto]. intros Hst name eb He. apply (Hst name); [|done].
    apply names_of_elem; [done|]. left. by apply dict_mem_get; eexists. }
  assert (Hchk : forall s', unchecked_results s' = unchecked_results s ->
    check_fresh_results (Some results) ctx s' =
      match elements (unchecked_results s ∖ results) with
      | [] => (Ok tt, s')
      | n :: ns => (Err (ResultFreshEachIteration ctx (least_name n ns)), s')
      end) by (intros s' Hs'; unfold check_fresh_results; by rewrite Hs').
  assert (Hsub : elements (unchecked_results s ∖ results) = [] <-> unchecked_results s ⊆ results).
  { apply difference_nil. }
  assert (Hrun : Forall (stable entry (bindings s)) names ->
    exists code s', r = match elements (unchecked_results s ∖ results) with
                        | [] => (Ok code, s')
                        | n :: ns => (Err (ResultFreshEachIteration ctx (least_name n ns)), s')
                        end /\ lw_ext s s' /\
      forall m, (forall name b, fresh_owned entry (bindings s) name = Some b -> binding_typed m b) ->
        exists m', exec code (Running, m) = (Running, m') /\
          after s m m' (map (pair OpDecref) (concat (map (released_binding m)
            (omap (fresh_owned entry (bindings s)) names))))).
  { intros Hst. destruct (back_edge_names_spec Hres entry (bindings s) ctx Hfresh names [] s Hst)
      as (code & s' & E & X & R). exists code, s'. split; [|split; [done|]].
    - unfold r, loop_back_edge. rewrite bind_gets, (bind_ok _ _ _ _ _ E). unfold bind.
      rewrite Hchk by (by destruct X as (l & -> & _)). by destruct (elements _).
    - intros m Hm. apply R. eauto. }
  split.
  - rewrite <- Hall, <- Hsub. split.
    + intros Hok. assert (Hst : Forall (stable entry (bindings s)) names).
      { destruct r as [[code|e] s'] eqn:E; [|done]. unfold r, loop_back_edge in E. rewrite bind_gets in E.
        apply bind_inv in E as (c & s1 & E & _). by eapply back_edge_names_inv. }
      split; [done|]. destruct (Hrun Hst) as (code & s' & Er & _). rewrite Er in Hok.
      by destruct (elements _).
    + intros [Hst Hel]. destruct (Hrun Hst) as (code & s' & Er & _). by rewrite Er, Hel.
  - intros code s' E. assert (Hst : Forall (stable entry (bindings s)) names).
    { unfold r, loop_back_edge in E. rewrite bind_gets in E.
      apply bind_inv in E as (c & s1 & E & _). by eapply back_edge_names_inv. }
    destruct (Hrun Hst) as (code' & s1 & Er & X & R). rewrite E in Er.
    destruct (elements _); [|done]. injection Er as -> ->. split; [done|]. intros m Hm.
    destruct (R m Hm) as (m' & Ex & _ & Hlog & _). by exists m'.
Qed.

(** ** Owned on one branch, borrowed on the other *)

(** A name one branch owns and the other borrows is released exactly on
    the owning path.  [merge_if] pushes one entry, guarded by a fresh flag that
    starts true, and adds the clearing of the flag to the borrowing branch
    only; when the entry is replayed, a path through the owning branch
    releases what the variable holds, and the other path releases nothing. *)
Theorem merge_disagreement_path_sensitive {cb : Callbacks} ctx name tb fb m0 s :
  (forall t, resolved t -> resolves_to t (resolve_type t)) ->
  let owning := if bool_decide (b_state tb = OWNED) then tb else fb in
  let borrowed := if bool_decide (b_state tb = OWNED) then fb else tb in
  b_state owning = OWNED -> b_state borrowed = BORROWED ->
  resolved (b_type owning) -> depth (b_type owning) < recursion_limit ->
  exists flag r e s', merge_disagreement ctx name tb fb m0 s =
      (Ok (add_to (bool_decide (b_state tb = BORROWED)) [disarm flag] m0), s') /\
    epilogue_stack s' = epilogue_stack s ++ [r] /\ heap s' !! r = Some e /\
    cancel_flags s' = cancel_flags s ++ [flag] /\ v_uid flag = lw_uid (lw s) /\
    e_flag e = Some flag /\ e_cancelled e = false /\
    (exists b, dict_get (v_stem (b_operand owning)) (bindings s') = Some b /\ b_state b = OWNED /\ b_entry b = Some r) /\
    forall chk s2, exists rung s3, replay e chk s2 = (Ok rung, s3) /\
      forall m, binding_typed m owning -> v_uid (b_operand owning) <> v_uid flag ->
        (m_vars m !! v_uid flag = Some (VBool true) ->
           exists m', exec rung (Running, m) = (Running, m') /\
             m_log m' = m_log m ++ map (pair OpDecref) (released_binding m owning)) /\
        (exists m', exec (disarm flag :: rung) (Running, m) = (Running, m') /\ m_log m' = m_log m).
Proof.
  intros Hres owning borrowed Ho Hb Hr Hd.
  assert (Hside : bool_decide (b_state tb = BORROWED) = negb (bool_decide (b_state tb = OWNED))).
  { unfold borrowed, owning in *. case_bool_decide as H1; case_bool_decide as H2; try done; congruence. }
  unfold merge_disagreement. rewrite Hside.
  replace (if bool_decide (b_state tb = OWNED) then (tb, fb) else (fb, tb)) with (owning, borrowed)
    by (unfold owning, borrowed; by destruct (bool_decide (b_state tb = OWNED))).
  rewrite (bool_decide_true _ Ho), (bool_decide_true _ Hb). cbn [negb andb].
  set (flag := mkVariable_ (lw_uid (lw s)) ("__cancel_flag_" ++ pretty (length (cancel_flags s))) bool_type false false).
  set (e := mkEpilogue [] (mkLabel "epilogue" (lw_label_id (lw s))) (Some (b_operand owning))
              (Some (b_type owning)) (Some flag) false false false false).
  exists flag, (next_ref s), e. eexists. split.
  { erewrite bind_ok by reflexivity. erewrite bind_ok by reflexivity.
    erewrite bind_ok by (unfold deref; cbn [heap set_bindings set_epilogue_stack set_next_ref set_heap];
                         rewrite lookup_insert_eq; reflexivity).
    erewrite bind_ok by reflexivity. reflexivity. }
  cbn. split_and!; try done.
  - by rewrite lookup_insert_eq.
  - eexists. rewrite dict_get_set_eq. split; [done|]. by rewrite Ho.
  - intros chk s2. destruct (flag_decides Hres chk e flag s2) as (rung & s3 & Er & R); [|done|].
    { split; [done|]. by exists (b_type owning), (b_operand owning). }
    exists rung, s3. split; [done|]. intros m (v & Hv & Hty) Hne.
    destruct (R m) as [R1 R2].
    { split; [|done]. simpl. intros t x [= <-] [= <-]. by exists v. }
    { simpl. by intros x [= <-]. }
    split; [|done]. intros Hfl. destruct (R1 Hfl) as (m' & ? & Hlog). exists m'. split; [done|].
    rewrite Hlog. unfold released, released_binding, armed. simpl. by rewrite Hv.
Qed.
