(* ===== verification/CfgInvariant.v ===== *)
(** * The bookkeeping invariant of the ownership pass

    Names, epilogue entries and the stack stay consistent: an OWNED name's
    release is pending exactly once, a MOVED name's is cancelled (or decided
    at run time by a flag), and nothing else is pending.  [step] is one
    statement-level transition; [reachable] closes it over the prologue. *)

From S2P Require Import Prelude MpyTypes Ir CfgState UnionStorage CfgRefcount CfgOwnership CfgEpilogue CfgMerge.

(** ** Code generation touches nothing but the counters *)

Definition lw_only {A} (m : C A) : Prop := forall s, lw_ext s (m s).2.

Lemma lw_only_ret {A} (a : A) : lw_only (ret a).
Proof. intros s. apply lw_ext_refl. Qed.

Lemma lw_only_raise {A} e : lw_only (raise e : C A).
Proof. intros s. apply lw_ext_refl. Qed.

Lemma lw_only_lift {A} (r : result exn A) : lw_only (lift r).
Proof. intros s. apply lw_ext_refl. Qed.

Lemma lw_only_bind {A B} (m : C A) (k : A -> C B) :
  lw_only m -> (forall a, lw_only (k a)) -> lw_only (bind m k).
Proof.
  intros Hm Hk s. specialize (Hm s). unfold bind.
  destruct (m s) as [[a|e] s']; simpl in *; [|done]. etrans; [done|apply Hk].
Qed.

Lemma lw_only_mfold {A B} (f : A -> B -> C A) l :
  (forall a x, lw_only (f a x)) -> forall a, lw_only (mfold f l a).
Proof.
  intros Hf. induction l as [|x l IH]; intros a; simpl; [apply lw_only_ret|].
  by apply lw_only_bind.
Qed.

Lemma lw_only_new_temp t : lw_only (new_temp t).
Proof. intros s. destruct (new_temp_spec t s) as (s' & -> & ? & _). done. Qed.

Lemma lw_only_new_label p : lw_only (new_label p).
Proof. intros s. destruct (new_label_spec p s) as (s' & -> & ? & _). done. Qed.

#[export] Hint Resolve lw_only_ret lw_only_raise lw_only_lift lw_only_bind lw_only_mfold
  lw_only_new_temp lw_only_new_label : mpy.

Ltac lw_only_tac :=
  repeat first
    [ apply lw_only_ret | apply lw_only_raise | apply lw_only_lift
    | apply lw_only_new_temp | apply lw_only_new_label
    | apply lw_only_mfold; intros | apply lw_only_bind; [|intros]
    | case_match | done ].

Lemma lw_only_refcount {un : UnionNames} resolve_type bool_type fuel op : forall t operand,
  lw_only (refcount_instructions resolve_type bool_type fuel op t operand).
Proof.
  induction fuel as [|fuel IH]; intros t operand; cbn [refcount_instructions].
  { apply lw_only_raise. }
  case_bool_decide; [apply lw_only_ret|].
  destruct (resolve_type t); try apply lw_only_ret.
  case_match; [case_match; [apply lw_only_raise|]|];
    unfold extract_payload, tag_gated_refcount_instructions, tag_gated_member, tag_of.
  - lw_only_tac.
  - repeat first [apply IH | progress lw_only_tac | unfold extract_payload].
Qed.

Lemma lw_only_ok {A} (m : C A) s a s' : lw_only m -> m s = (Ok a, s') -> exists l, s' = set_lw l s.
Proof. intros Hm E. specialize (Hm s). rewrite E in Hm. destruct Hm as (l & Hl & _). simpl in Hl. eauto. Qed.

(** ** The invariant *)

Definition entry_live (h : gmap nat Epilogue) (r : nat) : Prop :=
  exists e, h !! r = Some e /\ e_cancelled e = false /\ e_flag e = None.

Definition binding_ok (h : gmap nat Epilogue) (retained : gset string) (k : string) (b : Binding) (r : nat) : Prop :=
  match b_state b with
  | OWNED => exists e, h !! r = Some e /\ e_cancelled e = false
  | MOVED => ~ entry_live h r \/ k ∈ retained
  | BORROWED => False
  end.

(** The entry releases the name's own variable, at its own type. *)
Definition names (h : gmap nat Epilogue) (b : Binding) (r : nat) : Prop :=
  exists e, h !! r = Some e /\ e_operand e = Some (b_operand b) /\ e_type e = Some (b_type b).

Record inv (h : gmap nat Epilogue) (n : nat) (stack : list nat) (bs : dict Binding)
    (retained : gset string) : Prop := {
  inv_fresh : forall r e, h !! r = Some e -> r < n;
  inv_stack : forall r, r ∈ stack -> is_Some (h !! r);
  inv_nodup : NoDup stack;
  inv_keys : NoDup (dict_keys bs);
  inv_entry : forall k b r, dict_get k bs = Some b -> b_entry b = Some r ->
    r ∈ stack /\ binding_ok h retained k b r;
  inv_names : forall k b r, dict_get k bs = Some b -> b_entry b = Some r -> names h b r;
  inv_inj : forall k k' b b' r, dict_get k bs = Some b -> dict_get k' bs = Some b' ->
    b_entry b = Some r -> b_entry b' = Some r -> k = k';
  inv_owner : forall r, r ∈ stack -> entry_live h r ->
    exists k b, dict_get k bs = Some b /\ b_entry b = Some r /\
      (b_state b = OWNED \/ k ∈ retained);
}.

Definition wf (s : CFGState) : Prop :=
  inv (heap s) (next_ref s) (epilogue_stack s) (bindings s) (possibly_retained s).

Lemma wf_set_lw l s : wf (set_lw l s) <-> wf s.
Proof. done. Qed.

(** Reading a name after one name changed. *)
Lemma dict_get_set k k' (b : Binding) bs :
  dict_get k (dict_set k' b bs) = if decide (k = k') then Some b else dict_get k bs.
Proof. case_decide; [subst; apply dict_get_set_eq|by apply dict_get_set_ne]. Qed.

Lemma dict_get_del k k' (bs : dict Binding) :
  dict_get k (dict_del k' bs) = if decide (k = k') then None else dict_get k bs.
Proof. case_decide; [subst; apply dict_get_del_eq|by apply dict_get_del_ne]. Qed.

(** Nothing pending hangs off the name. *)
Definition unentered (bs : dict Binding) (k : string) : Prop :=
  forall b, dict_get k bs = Some b -> b_entry b = None.

(** Only name [k]'s binding differs. *)
Definition agree_off (k : string) (bs bs' : dict Binding) : Prop :=
  NoDup (dict_keys bs') /\ forall k', k' <> k -> dict_get k' bs' = dict_get k' bs.

Lemma agree_off_set k b bs : NoDup (dict_keys bs) -> agree_off k bs (dict_set k b bs).
Proof. split; [by apply dict_keys_set_NoDup|]. intros. by apply dict_get_set_ne. Qed.

Lemma agree_off_del k bs : NoDup (dict_keys bs) -> agree_off k bs (dict_del k bs).
Proof. split; [by apply dict_keys_del_NoDup|]. intros. by apply dict_get_del_ne. Qed.

(** A name's binding is gone, or marked MOVED with entry [r]. *)
Definition spent (k : string) (b0 : Binding) (bs : dict Binding) (r : nat) : Prop :=
  forall b, dict_get k bs = Some b ->
    b_entry b = Some r /\ b_state b = MOVED /\ b_operand b = b_operand b0 /\ b_type b = b_type b0.

Lemma replace_first_elem r n stack x :
  NoDup stack -> r ∈ stack -> n ∉ stack ->
  x ∈ replace_first r n stack <-> x = n \/ (x ∈ stack /\ x <> r).
Proof.
  induction stack as [|y stack IH]; intros Hnd Hr Hn; [by apply not_elem_of_nil in Hr|].
  apply NoDup_cons in Hnd as [Hy Hnd]. apply not_elem_of_cons in Hn as [Hny Hn]. simpl.
  destruct (Nat.eqb_spec y r) as [->|Hne].
  - rewrite !elem_of_cons. split; [intros [?|Hx]; [by left|right]|intros [?|[[?|?] ?]]; tauto].
    split; [by right|]. by intros ->.
  - apply elem_of_cons in Hr as [?|Hr]; [by subst|]. rewrite !elem_of_cons, IH by done.
    split; [intros [->|[?|[? ?]]]|intros [?|[[?|?] ?]]]; subst; tauto.
Qed.

Lemma replace_first_NoDup r n stack :
  NoDup stack -> n ∉ stack -> NoDup (replace_first r n stack).
Proof.
  induction stack as [|y stack IH]; intros Hnd Hn; simpl; [done|].
  apply NoDup_cons in Hnd as [Hy Hnd]. apply not_elem_of_cons in Hn as [Hny Hn].
  case_match; apply NoDup_cons; split; auto.
  destruct (decide (r ∈ stack)) as [Hr|Hr].
  - rewrite replace_first_elem by done. by intros [?|[? _]].
  - assert (replace_first r n stack = stack) as ->; [|done]. clear IH Hnd Hn Hy.
    induction stack as [|z stack IH]; simpl; [done|]. apply not_elem_of_cons in Hr as [Hz Hr].
    rewrite (proj2 (Nat.eqb_neq z r)) by done. by rewrite IH.
Qed.

Lemma replace_first_length r n stack : length (replace_first r n stack) = length stack.
Proof. induction stack as [|y stack IH]; simpl; [done|]. case_match; simpl; congruence. Qed.

Section preservation.
Context (h : gmap nat Epilogue) (n : nat) (stack : list nat) (bs : dict Binding) (ret : gset string).
Context (Hinv : inv h n stack bs ret).

Lemma fresh_not_in_stack : n ∉ stack.
Proof using Hinv.
  intros Hn. destruct (inv_stack _ _ _ _ _ Hinv n Hn) as [e He].
  apply (inv_fresh _ _ _ _ _ Hinv) in He. lia.
Qed.

Lemma fresh_heap : h !! n = None.
Proof using Hinv.
  destruct (h !! n) as [e|] eqn:He; [|done]. apply (inv_fresh _ _ _ _ _ Hinv) in He. lia.
Qed.

Lemma entry_lt k b r : dict_get k bs = Some b -> b_entry b = Some r -> r < n.
Proof using Hinv.
  intros Hk Hr. destruct (inv_entry _ _ _ _ _ Hinv k b r Hk Hr) as [Hin _].
  destruct (inv_stack _ _ _ _ _ Hinv r Hin) as [e He]. by eapply inv_fresh.
Qed.

Lemma entry_live_insert_ne r r' e : r' <> r -> entry_live (<[r := e]> h) r' <-> entry_live h r'.
Proof using Type. intros Hne. unfold entry_live. by setoid_rewrite lookup_insert_ne; [|done]. Qed.

Lemma binding_ok_insert_ne k b r r' e :
  r' <> r -> binding_ok (<[r := e]> h) ret k b r' <-> binding_ok h ret k b r'.
Proof using Type.
  intros Hne. unfold binding_ok. destruct (b_state b); [|done|].
  - by setoid_rewrite lookup_insert_ne; [|done].
  - by rewrite entry_live_insert_ne.
Qed.

Lemma names_insert_ne b r r' e : r' <> r -> names (<[r := e]> h) b r' <-> names h b r'.
Proof using Type. intros Hne. unfold names. by setoid_rewrite lookup_insert_ne; [|done]. Qed.

Lemma inv_bind_none k b :
  unentered bs k -> b_entry b = None -> inv h n stack (dict_set k b bs) ret.
Proof using Hinv.
  intros Hk Hb. pose proof Hinv as []. split; try done.
  - by apply dict_keys_set_NoDup.
  - intros k' b' r. rewrite dict_get_set. case_decide; [by intros [= <-]; rewrite Hb|eauto].
  - intros k' b' r. rewrite dict_get_set. case_decide; [by intros [= <-]; rewrite Hb|eauto].
  - intros k1 k2 b1 b2 r. rewrite !dict_get_set.
    repeat case_decide; subst; [done| | |eauto]; intros; simplify_eq; congruence.
  - intros r Hr Hl. destruct (inv_owner0 r Hr Hl) as (k' & b' & Hk' & Hb' & Hs).
    exists k', b'. rewrite dict_get_set. case_decide; [|done]. subst k'.
    specialize (Hk _ Hk'). congruence.
Qed.

Lemma inv_push k b e :
  unentered bs k -> b_entry b = Some n -> b_state b = OWNED -> e_cancelled e = false ->
  e_operand e = Some (b_operand b) -> e_type e = Some (b_type b) ->
  inv (<[n := e]> h) (S n) (stack ++ [n]) (dict_set k b bs) ret.
Proof using Hinv.
  intros Hk Hb Hst Hc Hop Hty. pose proof Hinv as []. pose proof fresh_not_in_stack. split.
  - intros r e'. rewrite lookup_insert_Some. intros [[-> _]|[_ ?%inv_fresh0]]; lia.
  - intros r [Hr| ->%list_elem_of_singleton]%elem_of_app; rewrite lookup_insert_is_Some; [|by left].
    destruct (decide (n = r)); [by left|right; eauto].
  - apply NoDup_app. split_and!; [done| |apply NoDup_singleton].
    intros x Hx ->%list_elem_of_singleton. done.
  - by apply dict_keys_set_NoDup.
  - intros k' b' r. rewrite dict_get_set. case_decide; subst.
    + intros [= <-]. rewrite Hb. intros [= <-]. split; [(rewrite ?elem_of_app, ?list_elem_of_singleton in *; tauto)|].
      unfold binding_ok. rewrite Hst. exists e. by rewrite lookup_insert_eq.
    + intros Hk' Hr. pose proof (entry_lt _ _ _ Hk' Hr).
      destruct (inv_entry0 _ _ _ Hk' Hr). split; [(rewrite ?elem_of_app, ?list_elem_of_singleton in *; tauto)|]. rewrite binding_ok_insert_ne; [done|lia].
  - intros k' b' r. rewrite dict_get_set. case_decide; subst.
    + intros [= <-]. rewrite Hb. intros [= <-]. exists e. by rewrite lookup_insert_eq.
    + intros Hk' Hr. pose proof (entry_lt _ _ _ Hk' Hr). rewrite names_insert_ne by lia. eauto.
  - intros k1 k2 b1 b2 r. rewrite !dict_get_set. repeat case_decide; subst; [done| | |eauto].
    + intros [= <-] Hk2 Hr Hr2. pose proof (entry_lt _ _ _ Hk2 Hr2). simplify_eq. lia.
    + intros Hk1 [= <-] Hr1 Hr. pose proof (entry_lt _ _ _ Hk1 Hr1). simplify_eq. lia.
  - intros r Hr Hl. destruct (decide (r = n)) as [->|Hne].
    + exists k, b. rewrite dict_get_set, decide_True by done. auto.
    + rewrite entry_live_insert_ne in Hl by done.
      destruct (inv_owner0 r) as (k' & b' & Hk' & Hb' & Hs); [(rewrite ?elem_of_app, ?list_elem_of_singleton in *; tauto)|done|].
      exists k', b'. rewrite dict_get_set. case_decide; [|done]. subst k'.
      specialize (Hk _ Hk'). congruence.
Qed.

Lemma inv_push_defer e :
  is_flag_guarded e = true -> inv (<[n := e]> h) (S n) (stack ++ [n]) bs ret.
Proof using Hinv.
  intros Hf. pose proof Hinv as []. pose proof fresh_not_in_stack. split; [..|done| | | |].
  - intros r e'. rewrite lookup_insert_Some. intros [[-> _]|[_ ?%inv_fresh0]]; lia.
  - intros r [Hr| ->%list_elem_of_singleton]%elem_of_app; rewrite lookup_insert_is_Some; [|by left].
    destruct (decide (n = r)); [by left|right; eauto].
  - apply NoDup_app. split_and!; [done| |apply NoDup_singleton].
    intros x Hx ->%list_elem_of_singleton. done.
  - intros k' b' r Hk' Hr. pose proof (entry_lt _ _ _ Hk' Hr).
    destruct (inv_entry0 _ _ _ Hk' Hr). split; [(rewrite ?elem_of_app, ?list_elem_of_singleton in *; tauto)|]. rewrite binding_ok_insert_ne; [done|lia].
  - intros k' b' r Hk' Hr. pose proof (entry_lt _ _ _ Hk' Hr). rewrite names_insert_ne by lia. eauto.
  - eauto.
  - intros r Hr Hl. destruct (decide (r = n)) as [->|Hne].
    + destruct Hl as (e' & He' & _ & Hfl). rewrite lookup_insert_eq in He'. simplify_eq.
      unfold is_flag_guarded in Hf. by rewrite Hfl in Hf.
    + rewrite entry_live_insert_ne in Hl by done. apply inv_owner0; [(rewrite ?elem_of_app, ?list_elem_of_singleton in *; tauto)|done].
Qed.

(** A tracked name gets a value: its own entry is pending again. *)
Lemma inv_own k b b' r e :
  dict_get k bs = Some b -> b_entry b = Some r -> h !! r = Some e ->
  b_entry b' = Some r -> b_state b' = OWNED ->
  b_operand b' = b_operand b -> b_type b' = b_type b ->
  inv (<[r := with_cancelled false e]> h) n stack (dict_set k b' bs) ret.
Proof using Hinv.
  intros Hk Hr He Hr' Hst Hop Hty. pose proof Hinv as []. split; [| |done|by apply dict_keys_set_NoDup|..].
  - intros r' e'. rewrite lookup_insert_Some. intros [[<- _]|[_ ?]]; eauto.
  - intros r' Hin. rewrite lookup_insert_is_Some. destruct (decide (r = r')); [by left|right; eauto].
  - intros k' b1 r1. rewrite dict_get_set. case_decide; subst.
    + intros [= <-] Hr1. simplify_eq. split; [by eapply inv_entry0|].
      unfold binding_ok. rewrite Hst. eexists. by rewrite lookup_insert_eq.
    + intros Hk' Hr1. destruct (inv_entry0 _ _ _ Hk' Hr1) as [Hin Hok]. split; [done|].
      rewrite binding_ok_insert_ne; [done|]. intros ->. eauto.
  - intros k' b1 r1. rewrite dict_get_set. case_decide; subst.
    + intros [= <-] Hr1. simplify_eq. destruct (inv_names0 _ _ _ Hk Hr) as (e0 & He0 & Ho & Ht).
      simplify_eq. eexists. rewrite lookup_insert_eq. split; [done|]. simpl. by rewrite Hop, Hty.
    + intros Hk' Hr1. rewrite names_insert_ne by (intros ->; eauto). eauto.
  - intros k1 k2 b1 b2 r1. rewrite !dict_get_set. repeat case_decide; subst; eauto.
    + intros [= <-] Hk2 Hr1 Hr2. simplify_eq. eauto.
    + intros Hk1 [= <-] Hr1 Hr2. simplify_eq. eauto.
  - intros r1 Hr1 Hl. destruct (decide (r1 = r)) as [->|Hne].
    + exists k, b'. rewrite dict_get_set, decide_True by done. auto.
    + rewrite entry_live_insert_ne in Hl by done.
      destruct (inv_owner0 r1 Hr1 Hl) as (k' & b1 & Hk' & Hb1 & Hs).
      exists k', b1. rewrite dict_get_set. case_decide; [|done]. subst. congruence.
Qed.

(** A name's release is cancelled by putting a cancelled copy of its entry
    in the stack slot. *)
Lemma inv_replace k b r e bs' :
  dict_get k bs = Some b -> b_entry b = Some r -> h !! r = Some e -> agree_off k bs bs' -> spent k b bs' n ->
  inv (<[n := with_cancelled true e]> h) (S n) (replace_first r n stack) bs' ret.
Proof using Hinv.
  intros Hk Hr He [Hnd Hoff] Hsp. pose proof Hinv as []. pose proof fresh_not_in_stack as Hn.
  destruct (inv_entry0 _ _ _ Hk Hr) as [Hin _].
  pose proof (fun x => replace_first_elem r n stack x inv_nodup0 Hin Hn) as Hel.
  assert (Hdead : ~ entry_live (<[n := with_cancelled true e]> h) n).
  { intros (e' & He' & Hc & _). rewrite lookup_insert_eq in He'. by simplify_eq. }
  split; [| |by apply replace_first_NoDup|done|..].
  - intros r' e'. rewrite lookup_insert_Some. intros [[-> _]|[_ ?%inv_fresh0]]; lia.
  - intros r' [->|[Hr' _]]%Hel; rewrite lookup_insert_is_Some; [by left|].
    destruct (decide (n = r')); [by left|right; eauto].
  - intros k' b' r' Hk' Hr'. rewrite Hel. destruct (decide (k' = k)) as [->|Hne].
    + destruct (Hsp _ Hk') as (Hb' & Hst & _). simplify_eq. split; [by left|].
      unfold binding_ok. rewrite Hst. by left.
    + rewrite Hoff in Hk' by done. destruct (inv_entry0 _ _ _ Hk' Hr') as [Hin' Hok].
      pose proof (entry_lt _ _ _ Hk' Hr').
      split; [right; split; [done|]; intros ->; eauto|]. rewrite binding_ok_insert_ne; [done|lia].
  - intros k' b' r' Hk' Hr'. destruct (decide (k' = k)) as [->|Hne].
    + destruct (Hsp _ Hk') as (Hb' & _ & Hop & Hty). simplify_eq.
      destruct (inv_names0 _ _ _ Hk Hr) as (e0 & He0 & Ho & Ht). simplify_eq.
      eexists. rewrite lookup_insert_eq. split; [done|]. simpl. by rewrite Hop, Hty.
    + rewrite Hoff in Hk' by done. pose proof (entry_lt _ _ _ Hk' Hr').
      rewrite names_insert_ne by lia. eauto.
  - intros k1 k2 b1 b2 r1 H1 H2 Hr1 Hr2.
    destruct (decide (k1 = k)) as [->|N1], (decide (k2 = k)) as [->|N2]; [done| | |].
    + destruct (Hsp _ H1) as (Hb1 & _). rewrite Hoff in H2 by done.
      pose proof (entry_lt _ _ _ H2 Hr2). simplify_eq. lia.
    + destruct (Hsp _ H2) as (Hb2 & _). rewrite Hoff in H1 by done.
      pose proof (entry_lt _ _ _ H1 Hr1). simplify_eq. lia.
    + rewrite Hoff in H1, H2 by done. eauto.
  - intros r' Hr' Hl. apply Hel in Hr' as [->|[Hr' Hne]]; [done|].
    rewrite entry_live_insert_ne in Hl by (intros ->; done).
    destruct (inv_owner0 r' Hr' Hl) as (k' & b' & Hk' & Hb' & Hs).
    exists k', b'. rewrite Hoff; [done|]. intros ->. simplify_eq.
Qed.

(** A name's release is handed to a run-time flag. *)
Lemma inv_flag k b r e flag bs' :
  dict_get k bs = Some b -> b_entry b = Some r -> h !! r = Some e ->
  agree_off k bs bs' -> spent k b bs' r ->
  inv (<[r := with_flag (Some flag) e]> h) n stack bs' ret.
Proof using Hinv.
  intros Hk Hr He [Hnd Hoff] Hsp. pose proof Hinv as [].
  assert (Hdead : ~ entry_live (<[r := with_flag (Some flag) e]> h) r).
  { intros (e' & He' & _ & Hf). rewrite lookup_insert_eq in He'. by simplify_eq. }
  split; [| |done|done|..].
  - intros r' e'. rewrite lookup_insert_Some. intros [[<- _]|[_ ?]]; eauto.
  - intros r' Hin. rewrite lookup_insert_is_Some. destruct (decide (r = r')); [by left|right; eauto].
  - intros k' b' r' Hk' Hr'. destruct (decide (k' = k)) as [->|Hne].
    + destruct (Hsp _ Hk') as (Hb' & Hst & _). simplify_eq. split; [by eapply inv_entry0|].
      unfold binding_ok. rewrite Hst. by left.
    + rewrite Hoff in Hk' by done. destruct (inv_entry0 _ _ _ Hk' Hr') as [Hin' Hok].
      split; [done|]. rewrite binding_ok_insert_ne; [done|]. intros ->. eauto.
  - intros k' b' r' Hk' Hr'. destruct (decide (k' = k)) as [->|Hne].
    + destruct (Hsp _ Hk') as (Hb' & _ & Hop & Hty). simplify_eq.
      destruct (inv_names0 _ _ _ Hk Hr) as (e0 & He0 & Ho & Ht). simplify_eq.
      eexists. rewrite lookup_insert_eq. split; [done|]. simpl. by rewrite Hop, Hty.
    + rewrite Hoff in Hk' by done. rewrite names_insert_ne by (intros ->; eauto). eauto.
  - intros k1 k2 b1 b2 r1 H1 H2 Hr1 Hr2.
    destruct (decide (k1 = k)) as [->|N1], (decide (k2 = k)) as [->|N2]; [done| | |].
    + destruct (Hsp _ H1) as (Hb1 & _). rewrite Hoff in H2 by done. simplify_eq. eauto.
    + destruct (Hsp _ H2) as (Hb2 & _). rewrite Hoff in H1 by done. simplify_eq. eauto.
    + rewrite Hoff in H1, H2 by done. eauto.
  - intros r' Hr' Hl. destruct (decide (r' = r)) as [->|Hne]; [done|].
    rewrite entry_live_insert_ne in Hl by done.
    destruct (inv_owner0 r' Hr' Hl) as (k' & b' & Hk' & Hb' & Hs).
    exists k', b'. rewrite Hoff; [done|]. intros ->. simplify_eq.
Qed.

(** A name whose entry a flag decides already, or that keeps its release
    because a callee may have retained it. *)
Lemma inv_spend k b r bs' :
  dict_get k bs = Some b -> b_entry b = Some r -> agree_off k bs bs' -> spent k b bs' r ->
  (~ entry_live h r \/ (k ∈ ret /\ is_Some (dict_get k bs'))) -> inv h n stack bs' ret.
Proof using Hinv.
  intros Hk Hr [Hnd Hoff] Hsp Hwhy. pose proof Hinv as []. split; [done..| | | |].
  - intros k' b' r' Hk' Hr'. destruct (decide (k' = k)) as [->|Hne].
    + destruct (Hsp _ Hk') as (Hb' & Hst & _). simplify_eq. split; [by eapply inv_entry0|].
      unfold binding_ok. rewrite Hst. tauto.
    + rewrite Hoff in Hk' by done. eauto.
  - intros k' b' r' Hk' Hr'. destruct (decide (k' = k)) as [->|Hne].
    + destruct (Hsp _ Hk') as (Hb' & _ & Hop & Hty). simplify_eq.
      destruct (inv_names0 _ _ _ Hk Hr) as (e0 & He0 & Ho & Ht).
      exists e0. by rewrite Hop, Hty.
    + rewrite Hoff in Hk' by done. eauto.
  - intros k1 k2 b1 b2 r1 H1 H2 Hr1 Hr2.
    destruct (decide (k1 = k)) as [->|N1], (decide (k2 = k)) as [->|N2]; [done| | |].
    + destruct (Hsp _ H1) as (Hb1 & _). rewrite Hoff in H2 by done. simplify_eq. eauto.
    + destruct (Hsp _ H2) as (Hb2 & _). rewrite Hoff in H1 by done. simplify_eq. eauto.
    + rewrite Hoff in H1, H2 by done. eauto.
  - intros r' Hr' Hl. destruct (inv_owner0 r' Hr' Hl) as (k' & b' & Hk' & Hb' & Hs).
    destruct (decide (k' = k)) as [->|Hne]; [|exists k', b'; by rewrite Hoff].
    simplify_eq. destruct Hwhy as [?|[Hin [b1 Hb1]]]; [done|].
    exists k, b1. destruct (Hsp _ Hb1). auto.
Qed.

(** An untracked name goes away. *)
Lemma inv_drop k bs' : unentered bs k -> agree_off k bs bs' -> dict_get k bs' = None -> inv h n stack bs' ret.
Proof using Hinv.
  intros Hun [Hnd Hoff] Hk. pose proof Hinv as [].
  assert (Hsub : forall k' b, dict_get k' bs' = Some b -> dict_get k' bs = Some b).
  { intros k' b Hk'. rewrite <- Hoff; [done|]. intros ->. congruence. }
  split; [done..| | | |]; eauto.
  intros r Hr Hl. destruct (inv_owner0 r Hr Hl) as (k' & b' & Hk' & Hb' & Hs).
  exists k', b'. rewrite Hoff; [done|]. intros ->. specialize (Hun _ Hk'). congruence.
Qed.

(** An entry no name refers to (a [defer]) is cancelled. *)
Lemma inv_replace_unbound r e :
  (forall k b, dict_get k bs = Some b -> b_entry b <> Some r) -> r ∈ stack ->
  inv (<[n := with_cancelled true e]> h) (S n) (replace_first r n stack) bs ret.
Proof using Hinv.
  intros Hno Hin. pose proof Hinv as []. pose proof fresh_not_in_stack as Hn.
  pose proof (fun x => replace_first_elem r n stack x inv_nodup0 Hin Hn) as Hel.
  split; [| |by apply replace_first_NoDup|done| | |done|].
  - intros r' e'. rewrite lookup_insert_Some. intros [[-> _]|[_ ?%inv_fresh0]]; lia.
  - intros r' [->|[Hr' _]]%Hel; rewrite lookup_insert_is_Some; [by left|].
    destruct (decide (n = r')); [by left|right; eauto].
  - intros k' b' r' Hk' Hr'. rewrite Hel. destruct (inv_entry0 _ _ _ Hk' Hr') as [Hin' Hok].
    pose proof (entry_lt _ _ _ Hk' Hr').
    split; [right; split; [done|]; intros ->; by eapply Hno|]. rewrite binding_ok_insert_ne; [done|lia].
  - intros k' b' r' Hk' Hr'. pose proof (entry_lt _ _ _ Hk' Hr').
    rewrite names_insert_ne by lia. eauto.
  - intros r' Hr' Hl. apply Hel in Hr' as [->|[Hr' Hne]].
    + destruct Hl as (e' & He' & Hc & _). rewrite lookup_insert_eq in He'. by simplify_eq.
    + rewrite entry_live_insert_ne in Hl by (intros ->; done). eauto.
Qed.
End preservation.

(** ** Operations that leave the bookkeeping alone *)

Definition view (s : CFGState) := (heap s, next_ref s, epilogue_stack s, bindings s, possibly_retained s).

Lemma wf_view s s' : view s' = view s -> wf s -> wf s'.
Proof. unfold view, wf. intros [= -> -> -> -> ->]. done. Qed.

Definition view_only {A} (m : C A) : Prop := forall s, view (m s).2 = view s.

Lemma view_only_lw {A} (m : C A) : lw_only m -> view_only m.
Proof. intros Hm s. by destruct (Hm s) as (l & -> & _). Qed.

Lemma view_only_bind {A B} (m : C A) (k : A -> C B) :
  view_only m -> (forall a, view_only (k a)) -> view_only (bind m k).
Proof.
  intros Hm Hk s. specialize (Hm s). unfold bind.
  destruct (m s) as [[a|e] s']; simpl in *; [|done]. rewrite <- Hm. apply Hk.
Qed.

Lemma view_only_ok {A} (m : C A) s a s' : view_only m -> m s = (Ok a, s') -> view s' = view s.
Proof. intros Hm E. specialize (Hm s). by rewrite E in Hm. Qed.

Lemma view_only_gets {A} (f : CFGState -> A) : view_only (gets f).
Proof. done. Qed.

Lemma view_only_modify f : (forall s, view (f s) = view s) -> view_only (modify f).
Proof. done. Qed.

Section operations.
Context {cb : Callbacks}.

Lemma view_only_refcount op t operand :
  view_only (refcount_instructions resolve_type bool_type recursion_limit op t operand).
Proof. apply view_only_lw, lw_only_refcount. Qed.

Lemma view_only_pop_if_temp operand : view_only (pop_if_temp operand).
Proof. by destruct operand. Qed.

Lemma view_only_take_alias t src : view_only (take_alias t src).
Proof.
  unfold take_alias. apply view_only_bind; [by destruct src|]. intros [].
  - by apply view_only_bind; [apply view_only_pop_if_temp|].
  - apply view_only_bind; [apply view_only_refcount|done].
Qed.

Lemma view_only_assign_global dest : view_only (assign_global dest).
Proof.
  unfold assign_global. apply view_only_bind; [done|]. intros _.
  apply view_only_bind; [apply view_only_refcount|done].
Qed.

Lemma view_only_attr_replace t old new al : view_only (attr_replace t old new al).
Proof.
  unfold attr_replace. apply view_only_bind.
  - destruct al; [apply view_only_refcount|apply view_only_bind; [apply view_only_pop_if_temp|done]].
  - intros. apply view_only_bind; [apply view_only_refcount|done].
Qed.

Lemma view_only_field_value t operand al : view_only (field_value t operand al).
Proof.
  unfold field_value. destruct al; [apply view_only_refcount|].
  apply view_only_bind; [apply view_only_pop_if_temp|done].
Qed.

Lemma view_only_delete_temp temp : view_only (delete_temp temp).
Proof.
  unfold delete_temp. apply view_only_bind; [done|]. intros [t|]; (apply view_only_bind; [done|]);
    intros; [apply view_only_refcount|done].
Qed.

(** ** One lemma per operation that changes it *)

Lemma push_wf x t key ca sl s r s' :
  wf s -> unentered (bindings s) (default (v_stem x) key) ->
  push x t OWNED key ca sl s = (Ok r, s') -> wf s'.
Proof. intros Hwf Hun [= <- <-]. by apply inv_push. Qed.

Lemma bind_none_wf k b s s' :
  wf s -> unentered (bindings s) k -> b_entry b = None -> bind_name k b s = (Ok tt, s') -> wf s'.
Proof. intros Hwf Hun Hb [= <-]. by apply inv_bind_none. Qed.

Lemma own_wf k b b' r s s' :
  wf s -> dict_get k (bindings s) = Some b -> b_entry b = Some r ->
  b_entry b' = Some r -> b_state b' = OWNED ->
  b_operand b' = b_operand b -> b_type b' = b_type b ->
  (set_cancelled r false ;;; bind_name k b')%monad s = (Ok tt, s') -> wf s'.
Proof.
  intros Hwf Hk Hr Hr' Hst Hop Hty E. unfold set_cancelled, deref, bind in E.
  destruct (heap s !! r) as [e|] eqn:He; simplify_eq/=.
  injection E as <-. by eapply (inv_own (heap s)).
Qed.

Lemma unentered_none bs k : dict_get k bs = None -> unentered bs k.
Proof. intros Hk b. congruence. Qed.

Lemma unentered_some bs k b : dict_get k bs = Some b -> b_entry b = None -> unentered bs k.
Proof. intros Hk Hb b'. congruence. Qed.

(** Releasing what the name held, then owning the new value. *)
Lemma replace_wf (gen : C (list Instruction)) k b b' r (code0 code : list Instruction) s s' :
  wf s -> view_only gen -> dict_get k (bindings s) = Some b -> b_entry b = Some r ->
  b_entry b' = Some r -> b_state b' = OWNED ->
  b_operand b' = b_operand b -> b_type b' = b_type b ->
  (let* dec := gen in set_cancelled r false ;;; bind_name k b' ;;; ret (code0 ++ dec))%monad s
    = (Ok code, s') -> wf s'.
Proof.
  intros Hwf Hgen Hk Hr Hr' Hst Hop Hty E. apply bind_inv in E as (dec & s1 & E1 & E).
  pose proof (view_only_ok _ _ _ _ Hgen E1) as Hv.
  apply bind_inv in E as (u & s2 & E2 & E). apply bind_inv in E as ([] & s3 & E3 & E).
  injection E as _ <-. eapply (own_wf k b b' r s1); [by eapply wf_view| |done..|].
  - by injection Hv as _ _ _ -> _.
  - unfold bind. by rewrite E2.
Qed.

Lemma push_ret_wf {A} (a b : A) x t key ca sl s s' :
  wf s -> unentered (bindings s) (default (v_stem x) key) ->
  (push x t OWNED key ca sl ;;; ret a)%monad s = (Ok b, s') -> wf s'.
Proof.
  intros Hwf Hun E. apply bind_inv in E as (r & s1 & E1 & E). injection E as _ <-. by eapply push_wf.
Qed.

Lemma bind_none_ret_wf {A} (a c : A) k b s s' :
  wf s -> unentered (bindings s) k -> b_entry b = None ->
  (bind_name k b ;;; ret a)%monad s = (Ok c, s') -> wf s'.
Proof.
  intros Hwf Hun Hb E. apply bind_inv in E as ([] & s1 & E1 & E). injection E as _ <-. by eapply bind_none_wf.
Qed.

Lemma view_only_release (c : bool) op t operand :
  view_only (if c then refcount_instructions resolve_type bool_type recursion_limit op t operand else ret []).
Proof. destruct c; [apply view_only_refcount|done]. Qed.

(** A tracked name is always the same variable: the lowering resolves a name
    to one [Variable] until it is deleted. *)
Definition same_variable (k : string) (x : Variable_) (s : CFGState) : Prop :=
  forall b, dict_get k (bindings s) = Some b -> b_operand b = x /\ b_type b = v_type x.

Lemma assign_local_wf dest s code s' :
  wf s -> same_variable (v_stem dest) dest s -> assign_local dest s = (Ok code, s') -> wf s'.
Proof.
  intros Hwf Hsame E. unfold assign_local, binding_of in E. rewrite bind_gets in E.
  destruct (dict_get (v_stem dest) (bindings s)) as [[x t o [r|]]|] eqn:Hk.
  - destruct (Hsame _ Hk). simplify_eq/=.
    refine (replace_wf _ _ _ _ r [] code s s' Hwf _ Hk _ _ _ _ _ E); [apply view_only_release|done..].
  - eapply push_ret_wf; [done| |done]. by eapply unentered_some.
  - eapply push_ret_wf; [done| |done]. by apply unentered_none.
Qed.

Lemma assign_wf dest src al tr bo s code s' :
  wf s -> (bo = true -> unentered (bindings s) (v_stem dest)) ->
  same_variable (v_stem dest) dest s -> assign dest src al tr bo s = (Ok code, s') -> wf s'.
Proof.
  intros Hwf Hbo Hsame E. unfold assign, is_unchecked, mark_live in E.
  rewrite bind_modify, bind_gets in E. cbn beta in E. case_bool_decide; [done|].
  apply bind_inv in E as ([] & s1 & E1 & E). set (s0 := set_live _ s) in *.
  assert (Hv1 : view s1 = view s) by (destruct (tr && _); by injection E1 as <-).
  assert (Hwf1 : wf s1) by (by eapply wf_view).
  destruct bo.
  { refine (bind_none_ret_wf _ _ _ _ _ _ Hwf1 _ _ E); [|done]. injection Hv1 as _ _ _ -> _. auto. }
  destruct (negb _); [by injection E as _ <-|].
  apply bind_inv in E as (i1 & s2 & E2 & E). apply bind_inv in E as (i2 & s3 & E3 & E).
  injection E as _ <-. assert (Hv2 : view s2 = view s1).
  { eapply view_only_ok; [|done]. destruct al; [apply view_only_take_alias|].
    by apply view_only_bind; [apply view_only_pop_if_temp|]. }
  assert (Hwf2 : wf s2) by (by eapply wf_view).
  destruct (v_is_global dest).
  2: { eapply assign_local_wf; [done| |done]. intros b. rewrite Hv1 in Hv2.
       injection Hv2 as _ _ _ -> _. apply Hsame. }
  eapply wf_view; [|exact Hwf2]. eapply view_only_ok; [|done]. apply view_only_assign_global.
Qed.

Lemma attr_assign_wf attr src al s code s' :
  wf s -> same_variable (self_key attr) attr s -> attr_assign attr src al s = (Ok code, s') -> wf s'.
Proof.
  intros Hwf Hsame E. unfold attr_assign, binding_of in E. apply bind_inv in E as (inc & s1 & E1 & E).
  assert (Hv1 : view s1 = view s).
  { eapply view_only_ok; [|done]. destruct (has_rc_leaves _); [|done].
    destruct al; [apply view_only_refcount|]. by apply view_only_bind; [apply view_only_pop_if_temp|]. }
  assert (Hwf1 : wf s1) by (by eapply wf_view).
  assert (Hsame1 : same_variable (self_key attr) attr s1).
  { intros b. injection Hv1 as _ _ _ -> _. apply Hsame. }
  rewrite bind_gets in E. destruct (dict_get (self_key attr) (bindings s1)) as [[x t o [r|]]|] eqn:Hk.
  - destruct (Hsame1 _ Hk). simplify_eq/=.
    refine (replace_wf _ _ _ _ r inc code s1 s' Hwf1 _ Hk _ _ _ _ _ E); [apply view_only_release|done..].
  - destruct (has_rc_leaves _);
      [refine (push_ret_wf _ _ _ _ _ _ _ _ _ Hwf1 _ E)|refine (bind_none_ret_wf _ _ _ _ _ _ Hwf1 _ _ E); [|done]];
      by eapply unentered_some.
  - destruct (has_rc_leaves _);
      [refine (push_ret_wf _ _ _ _ _ _ _ _ _ Hwf1 _ E)|refine (bind_none_ret_wf _ _ _ _ _ _ Hwf1 _ _ E); [|done]];
      by apply unentered_none.
Qed.

(** What [neutralize] does to a bound name's entry. *)
Lemma neutralize_wf k b r s n i s1 bs' :
  wf s -> dict_get k (bindings s) = Some b -> b_entry b = Some r ->
  neutralize r s = (Ok (n, i), s1) ->
  agree_off k (bindings s) bs' -> spent k b bs' n -> wf (set_bindings bs' s1).
Proof.
  intros Hwf Hk Hr E Hoff Hsp. unfold neutralize, deref in E. unfold bind at 1 in E.
  destruct (heap s !! r) as [e|] eqn:He; [|done]. rewrite bind_gets in E.
  case_bool_decide; cbn [negb] in E.
  - destruct (e_flag e) as [flag|] eqn:Hf.
    + injection E as <- <- <-. refine (inv_spend _ _ _ _ _ Hwf k b r bs' Hk Hr Hoff Hsp _).
      left. intros (e' & He' & _ & Hf'). congruence.
    + apply bind_inv in E as (flag & s2 & E2 & E). unfold mint_cancel_flag, new_variable in E2.
      cbn in E2. injection E2 as <- <-. injection E as <- <- <-.
      by eapply (inv_flag _ _ _ _ _ Hwf k b r e).
  - injection E as <- <- <-. by eapply (inv_replace _ _ _ _ _ Hwf k b r e).
Qed.

Lemma neutralize_bindings r s n i s1 : neutralize r s = (Ok (n, i), s1) -> bindings s1 = bindings s.
Proof.
  intros E. unfold neutralize, deref in E. unfold bind at 1 in E.
  destruct (heap s !! r) as [e|] eqn:He; [|done]. rewrite bind_gets in E.
  case_bool_decide; cbn [negb] in E; [|by injection E as <- <- <-].
  destruct (e_flag e); [by injection E as <- <- <-|].
  apply bind_inv in E as (flag & s2 & E2 & E). injection E2 as <- <-. by injection E as <- <- <-.
Qed.

Lemma set_bindings_same s : set_bindings (bindings s) s = s.
Proof. by destruct s. Qed.

Lemma spend_wf {A} (a c : A) k b b' r s n i s1 s' :
  wf s -> dict_get k (bindings s) = Some b -> b_entry b = Some r ->
  neutralize r s = (Ok (n, i), s1) -> b_entry b' = Some n -> b_state b' = MOVED ->
  b_operand b' = b_operand b -> b_type b' = b_type b ->
  (bind_name k b' ;;; ret a)%monad s1 = (Ok c, s') -> wf s'.
Proof.
  intros Hwf Hk Hr E Hn Hst Hop Hty E'. injection E' as _ <-.
  rewrite (neutralize_bindings _ _ _ _ _ E).
  eapply neutralize_wf; [done..| |].
  - apply agree_off_set, Hwf.
  - intros b1. rewrite dict_get_set_eq. by intros [= <-].
Qed.

Lemma move_wf operand q p s code s' : wf s -> move operand q p s = (Ok code, s') -> wf s'.
Proof.
  intros Hwf E. destruct operand as [t|t c|v|f]; try (by injection E as _ <-).
  unfold move, binding_of in E. rewrite bind_gets in E.
  destruct (dict_get (v_stem v) (bindings s)) as [b|] eqn:Hk; [|by injection E as _ <-].
  destruct (negb _); [done|]. apply bind_inv in E as ([n i] & s1 & E1 & E).
  destruct (b_entry b) as [r|] eqn:Hr.
  - apply bind_inv in E1 as ([n' i'] & s2 & E1 & E2). injection E2 as <- <- <-.
    refine (spend_wf _ _ _ _ _ _ _ _ _ _ _ Hwf Hk Hr E1 _ _ _ _ E); done.
  - injection E1 as <- <- <-. refine (bind_none_ret_wf _ _ _ _ _ _ Hwf _ _ E); [|done].
    by eapply unentered_some.
Qed.

Lemma manually_decreffed_wf operand s code s' :
  wf s -> manually_decreffed operand s = (Ok code, s') -> wf s'.
Proof.
  intros Hwf E. destruct operand as [t|t c|v|f]; try (by injection E as _ <-).
  unfold manually_decreffed, binding_of in E. rewrite bind_gets in E.
  destruct (dict_get (v_stem v) (bindings s)) as [[x t [] [r|]]|] eqn:Hk; try (by injection E as _ <-).
  rewrite bind_gets in E. case_bool_decide as Hret.
  - injection E as _ <-. refine (inv_spend _ _ _ _ _ Hwf _ _ r
      (dict_set (v_stem v) (mkBinding x t MOVED (Some r)) (bindings s)) Hk eq_refl _ _ _).
    + apply agree_off_set, Hwf.
    + intros b1. rewrite dict_get_set_eq. by intros [= <-].
    + right. rewrite dict_get_set_eq. eauto.
  - apply bind_inv in E as ([n i] & s1 & E1 & E).
    refine (spend_wf _ _ _ _ _ _ _ _ _ _ _ Hwf Hk eq_refl E1 _ _ _ _ E); done.
Qed.

Lemma neutralize_frame r bs s :
  neutralize r (set_bindings bs s) =
    ((neutralize r s).1, set_bindings bs (neutralize r s).2).
Proof.
  unfold neutralize, deref, bind, gets. cbn [heap set_bindings captured_labels].
  destruct (heap s !! r) as [e|]; [|done].
  change (captured_labels (set_bindings bs s)) with (captured_labels s).
  destruct (bool_decide _); cbn [negb]; [|done].
  by destruct (e_flag e).
Qed.

Lemma deleted_wf x ctx s code s' : wf s -> deleted x ctx s = (Ok code, s') -> wf s'.
Proof.
  intros Hwf E. unfold deleted, is_unchecked, is_live, unmark_live, binding_of in E.
  rewrite bind_gets in E. case_bool_decide; [done|].
  rewrite bind_gets in E. case_bool_decide; [|done]. cbn [negb] in E.
  rewrite bind_modify, bind_gets, bind_modify in E. cbn [set_live bindings] in E.
  set (k := v_stem x) in *. set (bs' := dict_del k (bindings s)) in *.
  assert (Hoff : agree_off k (bindings s) bs') by apply agree_off_del, Hwf.
  assert (Hsp : forall b r, spent k b bs' r).
  { intros b0 r b. unfold bs'. by rewrite dict_get_del_eq. }
  destruct (dict_get k (bindings s)) as [[y t o [r|]]|] eqn:Hk.
  - apply bind_inv in E as (dec & s1 & E1 & E). apply bind_inv in E as ([n i] & s2 & E2 & E).
    injection E as _ <-.
    assert (Hlw : lw_only (if bool_decide (o = OWNED) then decref_instructions t (OVar x) else ret []))
      by (case_bool_decide; [apply lw_only_refcount|apply lw_only_ret]).
    destruct (lw_only_ok _ _ _ _ Hlw E1) as [l ->].
    change (set_lw l _) with (set_bindings bs' (set_lw l (set_live (live s ∖ {[k]}) s))) in E2.
    set (s3 := set_lw l (set_live (live s ∖ {[k]}) s)) in E2.
    rewrite neutralize_frame in E2. destruct (neutralize r s3) as [res s4] eqn:E3.
    injection E2 as -> <-. by eapply (neutralize_wf k _ r s3).
  - injection E as _ <-. apply (inv_drop _ _ _ _ _ Hwf k); [by eapply unentered_some|done|apply dict_get_del_eq].
  - injection E as _ <-. apply (inv_drop _ _ _ _ _ Hwf k); [by apply unentered_none|done|apply dict_get_del_eq].
Qed.

Lemma push_defer_wf code flag err s r s' :
  wf s -> push_defer code flag err s = (Ok r, s') -> wf s'.
Proof. intros Hwf [= <- <-]. by apply inv_push_defer. Qed.

Lemma disarm_defer_wf r s code s' :
  wf s -> r ∈ epilogue_stack s -> (forall e, heap s !! r = Some e -> is_flag_guarded e = true) ->
  (forall k b, dict_get k (bindings s) = Some b -> b_entry b <> Some r) ->
  disarm_defer r s = (Ok code, s') -> wf s'.
Proof.
  intros Hwf Hin Hflag Hno E. unfold disarm_defer in E. apply bind_inv in E as ([n i] & s1 & E & E1).
  injection E1 as _ <-. unfold neutralize, deref in E. unfold bind at 1 in E.
  destruct (heap s !! r) as [e|] eqn:He; [|done]. rewrite bind_gets in E.
  case_bool_decide; cbn [negb] in E.
  - specialize (Hflag e eq_refl). unfold is_flag_guarded in Hflag.
    destruct (e_flag e); [|done]. by injection E as <- <- <-.
  - injection E as <- <- <-. by eapply inv_replace_unbound.
Qed.

Lemma push_tt_wf x key ca sl s s' :
  wf s -> unentered (bindings s) (default (v_stem x) key) ->
  (push x (v_type x) OWNED key ca sl ;;; ret tt)%monad s = (Ok tt, s') -> wf s'.
Proof. apply push_ret_wf. Qed.

Lemma enter_parameter_wf p s s' :
  wf s -> unentered (bindings s) (v_stem (p_var p)) -> enter_parameter p s = (Ok tt, s') -> wf s'.
Proof.
  intros Hwf Hun E. unfold enter_parameter, mark_live in E. rewrite bind_modify in E.
  set (s0 := set_live _ s) in E. assert (Hwf0 : wf s0) by done.
  assert (Hun0 : unentered (bindings s0) (v_stem (p_var p))) by done. clearbody s0. clear Hwf Hun.
  destruct (p_is_move p).
  { destruct (has_rc_leaves _); [|by injection E as <-]. by apply push_tt_wf in E. }
  destruct (has_rc_leaves _); [|destruct (p_is_copy p); by injection E as <-].
  destruct (p_is_copy p); [|by apply bind_none_wf in E].
  apply bind_inv in E as (code & s1 & E1 & E). rewrite bind_modify in E.
  apply (view_only_ok _ _ _ _ (view_only_refcount _ _ _)) in E1.
  apply push_tt_wf in E; [done| |].
  - eapply wf_view; [|exact Hwf0]. exact E1.
  - injection E1 as _ _ _ Hb _. cbn [bindings set_prologue_instructions]. by rewrite Hb.
Qed.

Lemma enter_self_wf x mv s s' :
  wf s -> unentered (bindings s) (v_stem x) -> enter_self x mv s = (Ok tt, s') -> wf s'.
Proof.
  intros Hwf Hun E. unfold enter_self, mark_live in E. rewrite bind_modify in E.
  destruct (has_rc_leaves _); [|by injection E as <-]. cbn [negb] in E.
  destruct mv; [by eapply push_tt_wf in E|by eapply bind_none_wf in E].
Qed.

Lemma complete_base_attribute_wf attr s s' :
  wf s -> unentered (bindings s) (self_key attr) -> complete_base_attribute attr s = (Ok tt, s') -> wf s'.
Proof.
  intros Hwf Hun E. unfold complete_base_attribute in E. case_match; [done|].
  apply bind_inv in E as ([] & s1 & E1 & E). injection E as <-. change (wf s1).
  destruct (has_rc_leaves _); [by eapply push_tt_wf in E1|by eapply bind_none_wf in E1].
Qed.

Lemma declare_exception_bind_wf x s s' :
  wf s -> unentered (bindings s) (v_stem x) -> declare_exception_bind x s = (Ok tt, s') -> wf s'.
Proof.
  intros Hwf Hun E. unfold declare_exception_bind, mark_live in E. rewrite bind_modify in E.
  destruct (has_rc_leaves _); [by eapply push_tt_wf in E|by injection E as <-].
Qed.

Lemma promote_wf name s code s' :
  wf s -> promote_borrowed_for_loop name s = (Ok code, s') -> wf s'.
Proof.
  intros Hwf E. unfold promote_borrowed_for_loop, binding_of in E. rewrite bind_gets in E.
  destruct (dict_get name (bindings s)) as [b|] eqn:Hk; [|done]. case_bool_decide as Hst; [|done].
  cbn [negb] in E. apply bind_inv in E as (inc & s1 & E1 & E).
  apply (view_only_ok _ _ _ _ (view_only_refcount _ _ _)) in E1.
  eapply push_ret_wf in E; [done|by eapply wf_view|]. cbn [default].
  injection E1 as _ _ _ Hb _. rewrite Hb. eapply unentered_some; [done|].
  destruct (b_entry b) as [r|] eqn:Hr; [|done].
  destruct (inv_entry _ _ _ _ _ Hwf name b r Hk Hr) as [_ Hok]. unfold binding_ok in Hok. by rewrite Hst in Hok.
Qed.
End operations.

(** ** Statement-level transitions *)

Section steps.
Context {cb : Callbacks}.

Inductive step (s s' : CFGState) : Prop :=
(** Captures, narrowing, liveness, results, temps, loop and branch
    brackets: nothing the invariant speaks of. *)
| step_other : view s' = view s -> step s s'
| step_parameter p : unentered (bindings s) (v_stem (p_var p)) ->
    enter_parameter p s = (Ok tt, s') -> step s s'
| step_self x mv : unentered (bindings s) (v_stem x) -> enter_self x mv s = (Ok tt, s') -> step s s'
| step_base_attribute a : unentered (bindings s) (self_key a) ->
    complete_base_attribute a s = (Ok tt, s') -> step s s'
| step_assign dest src al tr bo code : (bo = true -> unentered (bindings s) (v_stem dest)) ->
    same_variable (v_stem dest) dest s -> assign dest src al tr bo s = (Ok code, s') -> step s s'
| step_attr_assign attr src al code : same_variable (self_key attr) attr s ->
    attr_assign attr src al s = (Ok code, s') -> step s s'
| step_move operand q p code : move operand q p s = (Ok code, s') -> step s s'
| step_del x ctx code : deleted x ctx s = (Ok code, s') -> step s s'
| step_decref operand code : manually_decreffed operand s = (Ok code, s') -> step s s'
| step_retained operand : mark_possibly_retained operand s = (Ok tt, s') -> step s s'
| step_defer body flag err r : push_defer body flag err s = (Ok r, s') -> step s s'
| step_disarm r code : r ∈ epilogue_stack s ->
    (forall e, heap s !! r = Some e -> is_flag_guarded e = true) ->
    (forall k b, dict_get k (bindings s) = Some b -> b_entry b <> Some r) ->
    disarm_defer r s = (Ok code, s') -> step s s'
| step_exception x : unentered (bindings s) (v_stem x) ->
    declare_exception_bind x s = (Ok tt, s') -> step s s'
| step_promote name code : promote_borrowed_for_loop name s = (Ok code, s') -> step s s'.

Lemma mark_possibly_retained_wf operand s s' :
  wf s -> mark_possibly_retained operand s = (Ok tt, s') -> wf s'.
Proof.
  intros Hwf E. destruct operand; try (by injection E as <-). injection E as <-.
  destruct Hwf. split; try done.
  - intros k b r Hk Hr. destruct (inv_entry0 k b r Hk Hr) as [? Hok]. split; [done|].
    unfold binding_ok in *. destruct (b_state b); try done. destruct Hok; [by left|right]. by apply elem_of_union_l.
  - intros r Hr Hl. destruct (inv_owner0 r Hr Hl) as (k & b & ? & ? & [?|?]); exists k, b;
      (split_and!; [done..|]); [by left|right; by apply elem_of_union_l].
Qed.

Lemma step_wf s s' : step s s' -> wf s -> wf s'.
Proof.
  destruct 1; intros Hwf;
    [ by eapply wf_view | by eapply enter_parameter_wf | by eapply enter_self_wf
    | by eapply complete_base_attribute_wf | by eapply assign_wf | by eapply attr_assign_wf
    | by eapply move_wf | by eapply deleted_wf | by eapply manually_decreffed_wf
    | by eapply mark_possibly_retained_wf | by eapply push_defer_wf | by eapply disarm_defer_wf
    | by eapply declare_exception_bind_wf | by eapply promote_wf ].
Qed.

Lemma empty_wf q : wf (empty_state q).
Proof.
  split; simpl; try done; try apply NoDup_nil_2; try (by intros ? ?%not_elem_of_nil).
Qed.

Lemma reachable_wf q s : rtc step (empty_state q) s -> wf s.
Proof.
  intros Hr. cut (wf (empty_state q)); [|apply empty_wf].
  induction Hr as [|s1 s2 s3 H12 _ IH]; [done|]. eauto using step_wf.
Qed.
End steps.

(** ** A branch and its sibling *)

(** A branch that releases a variable leaves its sibling a pristine view.
    Neutralizing an entry no committed jump reaches, inside a branch, and
    rolling back to the branch's entry snapshot gives back the snapshot's
    bindings, its stack, and every entry on it unchanged. *)
Theorem sibling_sees_pristine {cb : Callbacks} r s0 e snap :
  wf s0 -> snapshot s0 = (Ok snap, s0) -> heap s0 !! r = Some e -> e_name e ∉ captured_labels s0 ->
  (forall r', r' ∈ epilogue_stack s0 -> flagged_at (heap s0) r' = false) ->
  r ∈ epilogue_stack s0 ->
  exists n s1 s2, neutralize r s0 = (Ok (n, []), s1) /\ (r ∉ epilogue_stack s1) /\
    restore snap s1 = (Ok tt, s2) /\
    bindings s2 = bindings s0 /\ live s2 = live s0 /\ epilogue_stack s2 = epilogue_stack s0 /\
    forall r', r' ∈ epilogue_stack s0 -> heap s2 !! r' = heap s0 !! r'.
Proof.
  intros Hwf Hsnap He Hc Hunf Hr. rewrite (neutralize_static r s0 e) by done.
  set (n := next_ref s0). set (s1 := set_epilogue_stack _ _).
  pose proof (fresh_not_in_stack _ _ _ _ _ Hwf) as Hn.
  pose proof (fun x => replace_first_elem r n (epilogue_stack s0) x (inv_nodup _ _ _ _ _ Hwf) Hr Hn) as Hel.
  exists n, s1. eexists. split; [done|]. split; [intros [->|[_ ?]]%Hel; done|].
  assert (Hheap : forall r', r' <> n -> heap s1 !! r' = heap s0 !! r').
  { intros r' Hne. simpl. by rewrite lookup_insert_ne. }
  split; [apply (restore_run s0 snap s1 Hsnap)|].
  - simpl. by rewrite replace_first_length.
  - intros r' [->|[Hr' _]]%Hel; simpl; rewrite lookup_insert_is_Some; [by left|].
    destruct (decide (n = r')); [by left|right]. split; [done|]. by eapply inv_stack.
  - split_and!; [done|done| |].
    + cbn [epilogue_stack set_epilogue_stack]. unfold restored_stack.
      rewrite drop_ge by (simpl; rewrite replace_first_length; lia). rewrite app_nil_r.
      assert (Hz : forall l l', length l = length l' -> (forall c, c ∈ l' -> flagged_at (heap s1) c = false) ->
        zip_with (fun orig cur => if flagged_at (heap s1) cur then cur else orig) l l' = l).
      { induction l as [|x l IH]; intros [|y l'] Hlen Hfl; simplify_eq/=; [done|].
        rewrite Hfl by left. f_equal. apply IH; [lia|]. intros c Hc'. apply Hfl. by right. }
      apply Hz; [simpl; by rewrite replace_first_length|].
      intros c [->|[Hc' _]]%Hel; unfold flagged_at.
      * simpl. rewrite lookup_insert_eq. unfold is_flag_guarded. simpl.
        specialize (Hunf r Hr). unfold flagged_at, is_flag_guarded in Hunf. by rewrite He in Hunf.
      * rewrite Hheap by (intros ->; done). by apply Hunf.
    + intros r' Hr'. apply Hheap. intros ->. done.
Qed.

(** ** The sum of it: a return releases every owned variable once *)

Definition pending_refs (s : CFGState) : list nat :=
  List.filter (fun r => match heap s !! r with Some e => negb (e_cancelled e) | None => false end)
    (rev (epilogue_stack s)).

Lemma pending_refs_NoDup s : NoDup (epilogue_stack s) -> NoDup (pending_refs s).
Proof.
  intros Hnd. apply NoDup_ListNoDup, List.NoDup_filter, List.NoDup_rev. by apply NoDup_ListNoDup.
Qed.

Lemma elem_of_pending r s :
  r ∈ pending_refs s <-> r ∈ epilogue_stack s /\ exists e, heap s !! r = Some e /\ e_cancelled e = false.
Proof.
  unfold pending_refs. rewrite list_elem_of_In, filter_In, <- list_elem_of_In, elem_of_rev.
  apply and_iff_compat_l. destruct (heap s !! r) as [e|].
  - rewrite negb_true_iff. split; [eauto|]. by intros (e' & [= <-] & ?).
  - split; [done|]. by intros (e' & ? & _).
Qed.

(** Filtering the loaded entries is filtering the references. *)
Lemma released_by_ref s m refs es :
  mapM (fun r => heap s !! r) refs = Some es ->
  map (released m) (List.filter (kept_by_return None) (rev es)) =
  map (fun r => match heap s !! r with Some e => released m e | None => [] end)
    (List.filter (fun r => match heap s !! r with Some e => negb (e_cancelled e) | None => false end) (rev refs)).
Proof.
  rewrite mapM_Some. induction 1 as [|r e refs es Hr _ IH]; [done|]. simpl.
  rewrite !List.filter_app, !map_app, IH. f_equal. simpl. rewrite Hr. unfold kept_by_return at 1.
  replace (entry_is e None) with false by (by unfold entry_is; destruct (e_operand e)).
  rewrite andb_true_r. destruct (e_cancelled e); simpl; [done|]. by rewrite Hr.
Qed.

(** What an entry releases, by its flag. *)
Lemma released_unfold m e x t v :
  e_operand e = Some x -> e_type e = Some t -> m_vars m !! v_uid x = Some v ->
  released m e = match e_flag e with
                 | None => held t v
                 | Some flag => match m_vars m !! v_uid flag with Some (VBool true) => held t v | _ => [] end
                 end.
Proof.
  intros Hx Ht Hv. unfold released, armed. rewrite Hx, Ht, Hv. destruct (e_flag e) as [flag|]; [|done].
  by destruct (m_vars m !! v_uid flag) as [[| | [] | | |]|].
Qed.

(** C4: what a return releases.  In any state the straight-line transitions
    of a function reach ([step]: parameters, assignments, moves, deletions,
    explicit decrefs, promotions; no roll-back to a snapshot, no join of
    branches, no construction), outside splices and with no [defer] pending,
    the code of a bare return finishes and runs the releases of the entries
    of a duplicate-free list.  It has the entry of every OWNED name, of that
    name's own variable at its own type.  An entry that no cancel flag guards
    releases all its variable holds, and belongs to a name that is OWNED (or
    whose argument a callee may have retained); a guarded one releases while
    its flag is set. *)
Theorem return_releases_owned_once {cb : Callbacks} chk q s :
  (forall t, resolved t -> resolves_to t (resolve_type t)) ->
  rtc step (empty_state q) s -> inline_scope_stack s = [] ->
  (forall r e, r ∈ epilogue_stack s -> heap s !! r = Some e -> e_cancelled e = false -> rc_entry e) ->
  exists code s' refs, return_ None chk s = (Ok code, s') /\ NoDup refs /\
    (forall k b r, dict_get k (bindings s) = Some b -> b_state b = OWNED -> b_entry b = Some r ->
       r ∈ refs /\ exists e, heap s !! r = Some e /\ e_operand e = Some (b_operand b) /\ e_type e = Some (b_type b)) /\
    (forall r, r ∈ refs -> entry_live (heap s) r ->
       exists k b, dict_get k (bindings s) = Some b /\ b_entry b = Some r /\
         (b_state b = OWNED \/ k ∈ possibly_retained s)) /\
    forall m, (forall r e, r ∈ refs -> heap s !! r = Some e -> entry_typed m e) ->
      (exists m', exec code (Running, m) = (Running, m') /\
        m_log m' = m_log m ++ map (pair OpDecref)
          (concat (map (fun r => match heap s !! r with Some e => released m e | None => [] end) refs))) /\
      (forall r e x t, r ∈ refs -> heap s !! r = Some e -> e_operand e = Some x -> e_type e = Some t ->
         exists v, m_vars m !! v_uid x = Some v /\
           released m e = match e_flag e with
                          | None => held t v
                          | Some flag => match m_vars m !! v_uid flag with
                                         | Some (VBool true) => held t v
                                         | _ => []
                                         end
                          end).
Proof.
  intros Hres Hreach Hsc Hrc. pose proof (reachable_wf q s Hreach) as Hwf.
  destruct (mapM (fun r => heap s !! r) (epilogue_stack s)) as [es|] eqn:Hes.
  2: { apply mapM_None in Hes. apply Exists_exists in Hes as (r & Hr & Hnone).
       destruct (inv_stack _ _ _ _ _ Hwf r Hr) as [e He]. congruence. }
  assert (Hback : forall e, e ∈ es -> exists r, r ∈ epilogue_stack s /\ heap s !! r = Some e).
  { intros e He. apply mapM_Some in Hes. apply list_elem_of_lookup_1 in He as [i Hi].
    destruct (Forall2_lookup_r _ _ _ _ _ Hes Hi) as (r & Hr & Hre). exists r.
    split; [by eapply list_elem_of_lookup_2|done]. }
  assert (Hlive : forall e, kept_by_return None e = true -> e_cancelled e = false).
  { intros e [Hk%negb_true_iff _]%andb_true_iff. done. }
  destruct (return_performs Hres None chk s es) as (code & s' & E & R).
  { by rewrite Hsc. }
  { intros e He Hk%Hlive. destruct (Hback e He) as (r & ? & ?). eauto. }
  exists code, s', (pending_refs s). split_and!; [done|apply pending_refs_NoDup, Hwf|..].
  - intros k b r Hk Hst Hr. destruct (inv_entry _ _ _ _ _ Hwf k b r Hk Hr) as [Hin Hok].
    unfold binding_ok in Hok. rewrite Hst in Hok. split; [by apply elem_of_pending|]. by eapply inv_names.
  - intros r [Hin _]%elem_of_pending Hl. by apply (inv_owner _ _ _ _ _ Hwf).
  - intros m Hm. split.
    + destruct (R m) as (m' & X & _ & Hlog & _).
      { intros e He Hk%Hlive. destruct (Hback e He) as (r & ? & ?). eapply (Hm r); [|done].
        apply elem_of_pending. eauto. }
      exists m'. split; [done|]. by rewrite Hlog, (released_by_ref s m (epilogue_stack s) es).
    + intros r e x t Hr He Hx Ht. destruct (Hm r e Hr He) as [Hv Hf]. destruct (Hv t x Ht Hx) as (v & Hmv & _).
      exists v. split; [done|]. by apply (released_unfold m e x t v).
Qed.

