(* ===== verification/CfgReturn.v ===== *)
(** * Leaving a function: what is released in the end

    The [return] statement's own retain ([lowering_stmt.py]), the flags'
    initialization ([lowering_epilogue.py]), and the theorems that join the
    bookkeeping invariant to the execution of the emitted code. *)

From S2P Require Import Prelude MpyTypes Ir CfgState UnionStorage CfgRefcount CfgOwnership CfgEpilogue CfgMerge CfgInvariant.

Section lowering.
Context {cb : Callbacks}.

Definition emit (code : list Instruction) : C unit := modify (fun s =>
  set_lw (mkLowering (lw_temp_id (lw s)) (lw_label_id (lw s)) (lw_uid (lw s)) (lw_emitted (lw s) ++ code)) s).

Definition operand_type (op : Operand) : option Ty :=
  match op with
  | OTemp t => Some (temp_type t)
  | OConst t _ => Some t
  | OVar v => Some (v_type v)
  | OFunctionRef _ => None
  end.

(** [_incref_aliasing_return]; [aliasing] is [_is_aliasing_expr]'s answer. *)
Definition incref_aliasing_return (aliasing : bool) (value : option Operand) (force wrap_fresh : bool)
    : C (option Operand) :=
  match value with
  | None => ret None
  | Some op =>
      if negb aliasing then ret value else
      let* fresh := is_fresh_temp op in
      if fresh then ret value else
      let* live := has_live_entry value in
      if force || negb live then
        match operand_type op with
        | None => raise (AssertionError "value has no type")
        | Some t =>
            let* code := incref_instructions t op in
            emit code ;;;
            if wrap_fresh && is_rc t then
              let* tmp := new_temp t in
              emit [Assign (OTemp tmp) op] ;;;
              fresh_temp tmp t ;;;
              ret (Some (OTemp tmp))
            else ret value
        end
      else ret value
  end.

(** [snap.bindings[name] = binding]: the loop's snapshot is updated in place. *)
Definition update_snapshot (name : string) (b : Binding) (snap : Snapshot) : Snapshot :=
  mkSnapshot (dict_set name b (snap_bindings snap)) (snap_stack_depth snap) (snap_results snap)
    (snap_narrowed snap) (snap_live snap) (snap_entry_cancelled snap) (snap_entry_flag snap)
    (snap_entry_objects snap).

(** The promotions of [_lower_loop_body_with_ownership_retry], between its two attempts. *)
Definition promote_one (acc : list Instruction * Snapshot) (name : string) : C (list Instruction * Snapshot) :=
  let* code := promote_borrowed_for_loop name in
  let* binding := binding_of name in
  match binding with
  | Some b => ret (acc.1 ++ code, update_snapshot name b acc.2)
  | None => raise (KeyError name)
  end.

Definition promote_all (names : list string) (loop_snapshot : Snapshot) : C (list Instruction * Snapshot) :=
  mfold promote_one names ([], loop_snapshot).

(** Run before anything else in the function: [defer] flags start false,
    cancel flags true. *)
Definition flag_inits (defer_flags cancel : list Variable_) : list Instruction :=
  map (fun f => Assign (OVar f) (OConst (v_type f) (CBool false))) defer_flags
  ++ map (fun f => Assign (OVar f) (OConst (v_type f) (CBool true))) cancel.
End lowering.

(** A promoted loop variable stays owned past the loop.  Promoting a
    borrowed variable between the two attempts at a loop takes exactly one
    reference to what it holds, and the roll-back to the (updated) loop
    snapshot keeps both its OWNED binding and its pending release. *)
Theorem promotion_survives_restore {cb : Callbacks} name b snap s :
  (forall t, resolved t -> resolves_to t (resolve_type t)) ->
  wf s -> snapshot s = (Ok snap, s) -> dict_get name (bindings s) = Some b -> b_state b = BORROWED ->
  resolved (b_type b) -> depth (b_type b) < recursion_limit ->
  exists code snap' s1 s2 b' r e, promote_all [name] snap s = (Ok (code, snap'), s1) /\
    restore snap' s1 = (Ok tt, s2) /\
    dict_get name (bindings s2) = Some b' /\ b_state b' = OWNED /\ b_entry b' = Some r /\
    b_operand b' = b_operand b /\
    r ∈ epilogue_stack s2 /\ heap s2 !! r = Some e /\ e_cancelled e = false /\ e_operand e = Some (b_operand b) /\
    forall m, binding_typed m b -> exists m', exec code (Running, m) = (Running, m') /\
      m_log m' = m_log m ++ map (pair OpIncref) (released_binding m b).
Proof.
  intros Hres Hwf Hsnap Hk Hst Hr Hd.
  destruct (refcount_emits resolve_type bool_type OpIncref Hres recursion_limit (b_type b) (OVar (b_operand b)) s)
    as (code & s0 & E & X & _ & R); [done..|].
  pose proof (fresh_not_in_stack _ _ _ _ _ Hwf) as Hfresh.
  assert (Hs0 : exists l, s0 = set_lw l s) by (destruct X as (l & -> & _); eauto). destruct Hs0 as [l ->].
  set (r := next_ref s). set (b' := mkBinding (b_operand b) (b_type b) OWNED (Some r)).
  set (e := mkEpilogue [] (mkLabel "epilogue" (lw_label_id l)) (Some (b_operand b)) (Some (b_type b)) None
              false false false true).
  assert (Epush : exists s1, promote_borrowed_for_loop name s = (Ok code, s1) /\
    epilogue_stack s1 = epilogue_stack s ++ [r] /\ heap s1 = <[r := e]> (heap s) /\
    bindings s1 = dict_set name b' (bindings s)).
  { unfold promote_borrowed_for_loop, binding_of. rewrite bind_gets, Hk, (bool_decide_true _ Hst). cbn [negb].
    unfold incref_instructions. rewrite (bind_ok _ _ _ _ _ E). eexists. split; [reflexivity|]. done. }
  destruct Epush as (s1 & Ep & Hstk & Hheap & Hbs).
  set (snap' := update_snapshot name b' snap).
  exists code, snap', s1. eexists. exists b', r, e. split.
  { unfold promote_all. cbn [mfold]. erewrite bind_ok; [reflexivity|]. unfold promote_one, binding_of.
    rewrite (bind_ok _ _ _ _ _ Ep), bind_gets, Hbs, dict_get_set_eq. reflexivity. }
  split.
  { pose proof (snapshot_inv _ _ _ Hsnap) as (_ & es & Hes & Hsn).
    assert (Hsnap' : snapshot (set_bindings (dict_set name b' (bindings s)) s) =
                       (Ok snap', set_bindings (dict_set name b' (bindings s)) s)).
    { unfold snapshot. cbn [epilogue_stack heap set_bindings]. rewrite Hes. unfold snap'. by rewrite Hsn. }
    apply (restore_run _ _ s1 Hsnap').
    - cbn. rewrite Hstk, length_app. lia.
    - rewrite Hstk, Hheap. intros r' [Hr'|Hr']%elem_of_app; rewrite lookup_insert_is_Some.
      + destruct (decide (r = r')); [by left|right]. split; [done|]. by eapply inv_stack.
      + apply list_elem_of_singleton in Hr'. by left. }
  cbn. rewrite dict_get_set_eq, Hheap, lookup_insert_eq. split_and!; try done.
  - unfold restored_stack. cbn. apply elem_of_app. right. rewrite Hstk, drop_app_length.
    unfold survivors, survives. cbn. rewrite lookup_insert_eq. cbn.
    rewrite orb_true_r. left.
  - intros m (v & Hv & Hty). destruct (R v m Hty Hv) as (m' & Er & _ & Hlog & _). exists m'.
    split; [done|]. unfold released_binding. by rewrite Hv, Hlog.
Qed.

(** ** Scenarios *)

Section scenarios.
Existing Instance sample_cb.

Definition sample_entry_b : Epilogue :=
  mkEpilogue [] (mkLabel "epilogue" 1) (Some sample_b) (Some (RCClass "m.B")) None false false false false.

Lemma sample_captured_entry : heap sample_captured !! 1 = Some sample_entry_b.
Proof. vm_compute. reflexivity. Qed.

Lemma sample_captured_label : e_name sample_entry_b ∈ captured_labels sample_captured.
Proof. apply (bool_decide_unpack _). vm_compute. exact I. Qed.

(** [f( a: move[A], b: move[B] )], just entered; then [return] from a nested
    check has committed a jump to [b]'s rung. *)
Lemma neutralize_path_sensitive_witness :
  exists flag code s1 e1, neutralize 1 sample_captured = (Ok (1, code), s1) /\
    heap s1 !! 1 = Some e1 /\ e_flag e1 = Some flag /\ v_uid flag = lw_uid (lw sample_captured) /\
    cancel_flags s1 = cancel_flags sample_captured ++ [flag] /\
    forall s2, exists rung s3, replay e1 None s2 = (Ok rung, s3) /\
      forall m, entry_typed m sample_entry_b ->
        (forall x, e_operand sample_entry_b = Some x -> v_uid x <> v_uid flag) ->
        (m_vars m !! v_uid flag = Some (VBool true) ->
           exists m', exec rung (Running, m) = (Running, m') /\
             m_log m' = m_log m ++ map (pair OpDecref) (released m sample_entry_b)) /\
        (exists m', exec (code ++ rung) (Running, m) = (Running, m') /\ m_log m' = m_log m).
Proof.
  apply (neutralize_path_sensitive None 1 sample_captured).
  - intros t _. constructor.
  - exact sample_captured_entry.
  - exact sample_captured_label.
  - done.
  - split; [done|]. eexists _, _. split_and!; [done|done|exact I|simpl; lia].
Defined.

Lemma sample_reachable : rtc step (empty_state (Some "m.f")) sample_state.
Proof.
  eapply rtc_l; [|eapply rtc_l; [|apply rtc_refl]].
  - apply (step_parameter _ _ (mkParameter_ sample_a true false)); [by intros b|]. reflexivity.
  - apply (step_parameter _ _ (mkParameter_ sample_b true false)); [by intros b|]. reflexivity.
Qed.

Definition sample_snapshot : Snapshot :=
  mkSnapshot (bindings sample_state) 2 ∅ [] (live sample_state) [false; false] [None; None] [0; 1].

Lemma sample_snapshot_ok : snapshot sample_state = (Ok sample_snapshot, sample_state).
Proof. vm_compute. reflexivity. Qed.

Lemma sample_state_entry : heap sample_state !! 1 = Some sample_entry_b.
Proof. vm_compute. reflexivity. Qed.

Lemma sample_state_uncaptured : e_name sample_entry_b ∉ captured_labels sample_state.
Proof. apply (bool_decide_unpack _). vm_compute. exact I. Qed.

Lemma sample_state_stack : epilogue_stack sample_state = [0; 1].
Proof. vm_compute. reflexivity. Qed.

Lemma sample_state_unflagged r : r ∈ epilogue_stack sample_state -> flagged_at (heap sample_state) r = false.
Proof.
  rewrite sample_state_stack. revert r.
  refine (proj1 (Forall_forall (fun r' => flagged_at (heap sample_state) r' = false) _) _).
  vm_compute. repeat constructor.
Qed.

Lemma sibling_sees_pristine_witness :
  exists n s1 s2, neutralize 1 sample_state = (Ok (n, []), s1) /\ (1 ∉ epilogue_stack s1) /\
    restore sample_snapshot s1 = (Ok tt, s2) /\
    bindings s2 = bindings sample_state /\ live s2 = live sample_state /\
    epilogue_stack s2 = epilogue_stack sample_state /\
    forall r', r' ∈ epilogue_stack sample_state -> heap s2 !! r' = heap sample_state !! r'.
Proof.
  apply (sibling_sees_pristine 1 sample_state sample_entry_b sample_snapshot).
  - apply (reachable_wf (Some "m.f")), sample_reachable.
  - exact sample_snapshot_ok.
  - exact sample_state_entry.
  - exact sample_state_uncaptured.
  - exact sample_state_unflagged.
  - rewrite sample_state_stack. right. left.
Defined.

Lemma sample_state_rc r e :
  r ∈ epilogue_stack sample_state -> heap sample_state !! r = Some e -> e_cancelled e = false -> rc_entry e.
Proof.
  rewrite sample_state_stack. intros Hr He _. split.
  - revert r e Hr He.
    assert (Hall : Forall (fun r => match heap sample_state !! r with
                                    | Some e => e_is_err_only e = false | None => False end) [0; 1])
      by (vm_compute; repeat constructor).
    intros r e Hr He. rewrite Forall_forall in Hall. specialize (Hall r Hr). by rewrite He in Hall.
  - assert (Hall : Forall (fun r => match heap sample_state !! r with
      | Some e => exists t x, e_type e = Some t /\ e_operand e = Some x /\ resolved t /\ depth t = 0
      | None => False end) [0; 1]) by (vm_compute; repeat constructor; by eexists _, _).
    rewrite Forall_forall in Hall. specialize (Hall r Hr). rewrite He in Hall.
    destruct Hall as (t & x & ? & ? & ? & Hd). exists t, x. split_and!; [done..|]. rewrite Hd. simpl. lia.
Qed.

Lemma return_releases_owned_once_witness :
  exists code s' refs, return_ None None sample_state = (Ok code, s') /\ NoDup refs /\
    (forall k b r, dict_get k (bindings sample_state) = Some b -> b_state b = OWNED -> b_entry b = Some r ->
       r ∈ refs /\ exists e, heap sample_state !! r = Some e /\ e_operand e = Some (b_operand b) /\
                             e_type e = Some (b_type b)) /\
    (forall r, r ∈ refs -> entry_live (heap sample_state) r ->
       exists k b, dict_get k (bindings sample_state) = Some b /\ b_entry b = Some r /\
         (b_state b = OWNED \/ k ∈ possibly_retained sample_state)) /\
    forall m, (forall r e, r ∈ refs -> heap sample_state !! r = Some e -> entry_typed m e) ->
      (exists m', exec code (Running, m) = (Running, m') /\
        m_log m' = m_log m ++ map (pair OpDecref)
          (concat (map (fun r => match heap sample_state !! r with Some e => released m e | None => [] end) refs))) /\
      (forall r e x t, r ∈ refs -> heap sample_state !! r = Some e -> e_operand e = Some x -> e_type e = Some t ->
         exists v, m_vars m !! v_uid x = Some v /\
           released m e = match e_flag e with
                          | None => held t v
                          | Some flag => match m_vars m !! v_uid flag with
                                         | Some (VBool true) => held t v
                                         | _ => []
                                         end
                          end).
Proof.
  apply (return_releases_owned_once None (Some "m.f") sample_state).
  - intros t _. constructor.
  - apply sample_reachable.
  - done.
  - exact sample_state_rc.
Defined.

Definition param_x : Variable_ := mkVariable_ 102 "x" (RCClass "m.A") false false.

(** An [if] whose branches both rebind a scalar-only state: [a] is untouched,
    [t] exists on the true branch only. *)
Definition local_t : Variable_ := mkVariable_ 103 "t" (RCClass "m.A") false false.
Definition if_entry : dict Binding := [("a", mkBinding sample_a (RCClass "m.A") BORROWED None)].
Definition if_true : BranchEnd :=
  mkBranchEnd (if_entry ++ [("t", mkBinding local_t (RCClass "m.A") OWNED (Some 9))]) ∅ None {["a"; "t"]} false.
Definition if_false : BranchEnd := mkBranchEnd if_entry ∅ None {["a"]} false.
Definition if_merged := merge_if (fun names => names) if_entry ∅ if_true if_false "m.f" (empty_state None).
Definition if_merge : Merge := match if_merged.1 with Ok m => m | Err _ => mkMerge [] [] [] end.

Lemma if_merged_ok : if_merged = (Ok if_merge, if_merged.2).
Proof. vm_compute. reflexivity. Qed.

Lemma merge_if_accepts_witness :
  (forall name, reconcilable if_entry (be_bindings if_true) (be_bindings if_false) name) /\
  (forall name, name ∈ m_removed if_merge <-> confined (be_bindings if_true) (be_bindings if_false) name = true) /\
  be_results if_true = be_results if_false /\ unchecked_results if_merged.2 = be_results if_true /\
  (forall name, name ∈ live if_merged.2 <-> name ∈ be_live if_true /\ name ∈ be_live if_false).
Proof.
  apply (merge_if_accepts (fun names => names) if_entry ∅ if_true if_false "m.f" (empty_state None) if_merge
           if_merged.2).
  - done.
  - done.
  - done.
  - exact if_merged_ok.
Defined.

Lemma merge_disagreement_path_sensitive_witness :
  let tb := mkBinding param_x (RCClass "m.A") OWNED (Some 0) in
  let fb := mkBinding param_x (RCClass "m.A") BORROWED None in
  exists flag r e s', merge_disagreement "m.f" "x" tb fb (mkMerge [] [] []) (empty_state None) =
      (Ok (add_to false [disarm flag] (mkMerge [] [] [])), s') /\
    epilogue_stack s' = epilogue_stack (empty_state None) ++ [r] /\ heap s' !! r = Some e /\
    cancel_flags s' = cancel_flags (empty_state None) ++ [flag] /\ v_uid flag = lw_uid (lw (empty_state None)) /\
    e_flag e = Some flag /\ e_cancelled e = false /\
    (exists b, dict_get (v_stem (b_operand tb)) (bindings s') = Some b /\ b_state b = OWNED /\ b_entry b = Some r) /\
    forall chk s2, exists rung s3, replay e chk s2 = (Ok rung, s3) /\
      forall m, binding_typed m tb -> v_uid (b_operand tb) <> v_uid flag ->
        (m_vars m !! v_uid flag = Some (VBool true) ->
           exists m', exec rung (Running, m) = (Running, m') /\
             m_log m' = m_log m ++ map (pair OpDecref) (released_binding m tb)) /\
        (exists m', exec (disarm flag :: rung) (Running, m) = (Running, m') /\ m_log m' = m_log m).
Proof.
  intros tb fb. apply (merge_disagreement_path_sensitive "m.f" "x" tb fb (mkMerge [] [] []) (empty_state None)).
  - intros t _. constructor.
  - done.
  - done.
  - exact I.
  - simpl. lia.
Defined.

(** A loop that rebinds nothing outer and introduces [t]. *)
Definition loop_state : CFGState :=
  set_bindings (if_entry ++ [("t", mkBinding local_t (RCClass "m.A") OWNED (Some 9))]) (empty_state None).

Lemma loop_fresh name b :
  fresh_owned if_entry (bindings loop_state) name = Some b -> resolved (b_type b) /\ depth (b_type b) < recursion_limit.
Proof.
  unfold fresh_owned, loop_state. cbn [bindings set_bindings if_entry app dict_get].
  repeat case_bool_decide; try done; intros [= <-]; split; [exact I|simpl; lia].
Qed.

Lemma loop_back_edge_fixed_point_witness :
  let r := loop_back_edge (fun names => names) if_entry "m.f" (Some ∅) loop_state in
  (is_ok r.1 = true <->
     (forall name, stable if_entry (bindings loop_state) name) /\ unchecked_results loop_state ⊆ ∅) /\
  forall code s', r = (Ok code, s') ->
    lw_ext loop_state s' /\
    forall m, (forall name b, fresh_owned if_entry (bindings loop_state) name = Some b -> binding_typed m b) ->
      exists m', exec code (Running, m) = (Running, m') /\
        m_log m' = m_log m ++ map (pair OpDecref) (concat (map (released_binding m)
          (omap (fresh_owned if_entry (bindings loop_state)) (names_of (fun names => names) if_entry (bindings loop_state))))).
Proof.
  apply (loop_back_edge_fixed_point (fun names => names) if_entry "m.f" ∅ loop_state).
  - intros t _. constructor.
  - done.
  - exact loop_fresh.
Defined.

Definition borrow_state : CFGState := (init [mkParameter_ param_x false false] (empty_state (Some "m.f"))).2.
Definition borrow_snapshot : Snapshot :=
  mkSnapshot (bindings borrow_state) 0 ∅ [] (live borrow_state) [] [] [].

Lemma borrow_reachable : rtc step (empty_state (Some "m.f")) borrow_state.
Proof.
  eapply rtc_l; [|apply rtc_refl].
  apply (step_parameter _ _ (mkParameter_ param_x false false)); [by intros b|]. reflexivity.
Qed.

Lemma borrow_snapshot_ok : snapshot borrow_state = (Ok borrow_snapshot, borrow_state).
Proof. vm_compute. reflexivity. Qed.

Lemma promotion_survives_restore_witness :
  let b := mkBinding param_x (RCClass "m.A") BORROWED None in
  exists code snap' s1 s2 b' r e, promote_all ["x"] borrow_snapshot borrow_state = (Ok (code, snap'), s1) /\
    restore snap' s1 = (Ok tt, s2) /\
    dict_get "x" (bindings s2) = Some b' /\ b_state b' = OWNED /\ b_entry b' = Some r /\
    b_operand b' = b_operand b /\
    r ∈ epilogue_stack s2 /\ heap s2 !! r = Some e /\ e_cancelled e = false /\ e_operand e = Some (b_operand b) /\
    forall m, binding_typed m b -> exists m', exec code (Running, m) = (Running, m') /\
      m_log m' = m_log m ++ map (pair OpIncref) (released_binding m b).
Proof.
  intros b. apply (promotion_survives_restore "x" b borrow_snapshot borrow_state).
  - intros t _. constructor.
  - apply (reachable_wf (Some "m.f")), borrow_reachable.
  - exact borrow_snapshot_ok.
  - vm_compute. reflexivity.
  - done.
  - exact I.
  - simpl. lia.
Defined.

(** *** Two paths on which the pass loses count *)

(** [def f( x: A, c: bool ) -> A: if c: x = A( ... ); return x] *)
Definition new_a : Temp := mkTemp (RCClass "m.A") 900.

(** The [if] as the lowering drives it; the result is the code of the
    false branch and the code emitted between the [if] and the unwinding. *)
Definition conditional_default : C (list Instruction * list Instruction * list Instruction) :=
  init [mkParameter_ param_x false false] ;;;
  let* entry := snapshot in
  enter_branch (snap_stack_depth entry) ;;;
  fresh_temp new_a (RCClass "m.A") ;;;
  assign param_x (OTemp new_a) false true false ;;;
  let* b := gets bindings in
  let* l := gets live in
  exit_branch ;;;
  restore entry ;;;
  let* merged := merge_if (fun names => names) (snap_bindings entry) ∅
                   (mkBranchEnd b ∅ None l false)
                   (mkBranchEnd (snap_bindings entry) ∅ None (snap_live entry) false) "m.f" in
  let* before := gets (fun s => length (lw_emitted (lw s))) in
  incref_aliasing_return true (Some (OVar param_x)) false false ;;;
  let* retained := gets (fun s => drop before (lw_emitted (lw s))) in
  let* unwind := return_ (Some (OVar param_x)) None in
  ret (m_false merged, retained, unwind).

(** The "fill in a default" idiom returns a borrowed reference as if it
    were owned.  After the join the parameter has a live, flag-guarded entry,
    so the return neither retains it nor consults the flag: on the path that
    kept the caller's reference, the emitted code performs no retain at
    all and hands the borrowed reference to the caller as an owned one. *)
Theorem conditional_default_unretained :
  exists false_code s', conditional_default (empty_state (Some "m.f")) = (Ok (false_code, [], []), s') /\
    dict_get "x" (bindings s') <> None /\
    exists m', exec (flag_inits [] (cancel_flags s') ++ false_code)
                 (Running, mkMach ∅ {[v_uid param_x := VPtr 7]} []) = (Running, m') /\
      m_vars m' !! v_uid param_x = Some (VPtr 7) /\ m_log m' = [].
Proof. eexists _, _. split; [vm_compute; reflexivity|]. split; [done|]. eexists. by vm_compute. Qed.

(** [def f( x: move[A], c: bool ): if c: return; g( move( x )); x = A( ... )] *)
Definition moved_then_rebound : C (list Instruction * list Instruction * list Instruction) :=
  init [mkParameter_ param_x true false] ;;;
  current_epilogue_label None true ;;;
  let* moved := move (OVar param_x) "m.g" "y" in
  fresh_temp new_a (RCClass "m.A") ;;;
  let* assigned := assign param_x (OTemp new_a) false true false in
  let* ladder := build_epilogue_ladder None in
  ret (moved, assigned ++ [Assign (OVar param_x) (OTemp new_a)], ladder).

(** A variable rebound after a flagged move is never released.  The
    flag the move cleared is not set again by the assignment, so falling off
    the end leaves the new object (owned by an OWNED name) with no release. *)
Theorem moved_then_rebound_leaks :
  exists moved assigned ladder s' b, moved_then_rebound (empty_state (Some "m.f")) = (Ok (moved, assigned, ladder), s') /\
    dict_get "x" (bindings s') = Some b /\ b_state b = OWNED /\
    exists m', exec (flag_inits [] (cancel_flags s') ++ moved ++ assigned ++ ladder)
                 (Running, mkMach {[temp_id new_a := VPtr 8]} {[v_uid param_x := VPtr 7]} []) = (Running, m') /\
      m_vars m' !! v_uid param_x = Some (VPtr 8) /\ m_log m' = [].
Proof.
  eexists _, _, _, _, _. split; [vm_compute; reflexivity|]. split_and!; [done|done|].
  eexists. by vm_compute.
Qed.

(** [def f( x: A ): while True: x = g( x ); if c: break], second attempt:
    the lowering has promoted [x] and meets the [break]. *)
Definition promoted_then_break : C (list Instruction * list Instruction * list Instruction) :=
  init [mkParameter_ param_x false false] ;;;
  let* loop_snapshot := snapshot in
  let* (promo, snap) := promote_all ["x"] loop_snapshot in
  enter_loop (snap_stack_depth snap) ;;;
  let* brk := unwind_to snap in
  exit_loop ;;;
  restore snap ;;;
  let* unwind := return_ None None in
  ret (promo, brk, unwind).

(** Leaving a retried loop through [break] over-releases the promoted
    variable.  The promoted entry sits above the loop's snapshot depth, so
    the unwinding at the [break] releases it, and it is still pending at the
    end of the function: one reference is taken and two are given up. *)
Theorem promoted_then_break_over_releases :
  exists promo brk unwind s', promoted_then_break (empty_state (Some "m.f")) = (Ok (promo, brk, unwind), s') /\
    exists m', exec (promo ++ brk ++ unwind) (Running, mkMach ∅ {[v_uid param_x := VPtr 7]} []) = (Running, m') /\
      m_log m' = [(OpIncref, 7); (OpDecref, 7); (OpDecref, 7)].
Proof. eexists _, _, _, _. split; [vm_compute; reflexivity|]. eexists. by vm_compute. Qed.
End scenarios.
