(* ===== verification/ClassChain.v ===== *)
(** * Single inheritance and virtual tables ([InheritanceChainMixin])

    Classes are objects in a store: resolving one fills it in place, and the
    walks of [mpy_types.py] resolve what they pass.  A walk up [base] is given
    fuel; a chain of [n] classes needs [n] steps.  The vtable of a class is its
    [virtual_slots] with, for each slot, the nearest override
    ([emitter_c.py]). *)

From S2P Require Import Prelude.

Local Open Scope monad_scope.

(** ** Data *)

(** [fn_is_stub]: [is_stub_body( node.body )]; [fn_resolve]: its signature has
    not been resolved yet. *)
Record Fn := mkFn {
  fn_qualname : string;
  fn_stem : string;
  fn_is_virtual : bool;
  fn_is_stub : bool;
  fn_resolve : bool;
}.

(** An entry of [methods] or [names]. *)
Inductive Member :=
| MFunction (f : Fn)
| MOverload (stem : string)
| MVariable (stem : string).

Record Name := mkName { name_member : Member; name_broken : bool }.

Abbreviation ClassId := nat.

(** [base]: a class, or a generic base with its arguments. *)
Inductive BaseRef :=
| BaseClass (c : ClassId)
| BaseSpecialization (c : ClassId) (args : list string).

Record ClassNode := mkClass {
  cls_base : option BaseRef;
  cls_names : dict Name;
  cls_methods : list Member;
  cls_attributes : list string;
  cls_resolve : bool;  (* [resolve is not None] *)
}.

Abbreviation Classes := (ClassId -> ClassNode).

Inductive chain_error :=
| RedundantCompilationError
| ResolveFailed (msg : string)
| OutOfFuel.

(** [node.resolve()], of a class and of a function. *)
Class ResolveClass := {
  run_resolve_class : ClassId -> Classes -> result chain_error Classes;
  run_resolve_fn : Fn -> Classes -> result chain_error Classes;
}.

Abbreviation K A := (M Classes chain_error A).

Section walks.
Context `{ResolveClass}.

Definition next_chain_node (base : option BaseRef) : option ClassId :=
  match base with
  | Some (BaseSpecialization c _) => Some c
  | Some (BaseClass c) => Some c
  | None => None
  end.

Definition resolve_node (c : ClassId) : K unit := fun st =>
  if cls_resolve (st c) then
    match run_resolve_class c st with
    | Ok st' => (Ok tt, st')
    | Err e => (Err e, st)
    end
  else (Ok tt, st).

(** The next node, read after the node has been resolved. *)
Definition parent (c : ClassId) : K (option ClassId) :=
  let* st := get in ret (next_chain_node (cls_base (st c))).

Fixpoint resolve_chain (fuel : nat) (node : option ClassId) : K unit :=
  match node, fuel with
  | None, _ => ret tt
  | Some _, 0 => raise OutOfFuel
  | Some c, S fuel' =>
      resolve_node c ;;;
      let* next := parent c in
      resolve_chain fuel' next
  end.

Definition get_local (c : ClassId) (name : string) : K (option Name) :=
  let* st := get in ret (dict_get name (cls_names (st c))).

Definition get_local_or_raise (c : ClassId) (name : string) : K (option Name) :=
  let* found := get_local c name in
  match found with
  | Some n => if name_broken n then raise RedundantCompilationError else ret found
  | None => ret None
  end.

Fixpoint chain_lookup (fuel : nat) (node : option ClassId) (name : string) : K (option Name) :=
  match node, fuel with
  | None, _ => ret None
  | Some _, 0 => raise OutOfFuel
  | Some c, S fuel' =>
      resolve_node c ;;;
      let* found := get_local_or_raise c name in
      match found with
      | Some n => ret (Some n)
      | None => let* next := parent c in chain_lookup fuel' next name
      end
  end.

Fixpoint field_owner (fuel : nat) (node : option ClassId) (name : string) : K (option ClassId) :=
  match node, fuel with
  | None, _ => ret None
  | Some _, 0 => raise OutOfFuel
  | Some c, S fuel' =>
      resolve_node c ;;;
      let* found := get_local c name in
      match found with
      | Some _ => ret (Some c)
      | None => let* next := parent c in field_owner fuel' next name
      end
  end.

(** The class's own [@virtual] functions, in declaration order. *)
Definition virtual_fns (node : ClassNode) : list Fn :=
  omap (fun m => match m with
                 | MFunction f => if fn_is_virtual f then Some f else None
                 | _ => None
                 end) (cls_methods node).

Fixpoint inherited_names (fuel : nat) (node : option ClassId) (acc : gset string) : K (gset string) :=
  match node, fuel with
  | None, _ => ret acc
  | Some _, 0 => raise OutOfFuel
  | Some c, S fuel' =>
      resolve_node c ;;;
      let* st := get in
      let* next := parent c in
      inherited_names fuel' next (acc ∪ list_to_set (map fn_stem (virtual_fns (st c))))
  end.

Definition own_new_virtual_slots (fuel : nat) (c : ClassId) : K (list Fn) :=
  resolve_node c ;;;
  let* next := parent c in
  let* inherited := inherited_names fuel next ∅ in
  let* st := get in
  ret (List.filter (fun f => bool_decide (fn_stem f ∉ inherited)) (virtual_fns (st c))).

Fixpoint vtbl_owner (fuel : nat) (node : ClassId) : K ClassId :=
  match fuel with
  | 0 => raise OutOfFuel
  | S fuel' =>
      let* next := parent node in
      match next with
      | None => ret node
      | Some next_node =>
          let* slots := own_new_virtual_slots fuel node in
          match slots with
          | [] => vtbl_owner fuel' next_node
          | _ => ret node
          end
      end
  end.

(** [chain], from the node up. *)
Fixpoint chain_up (fuel : nat) (node : option ClassId) : K (list ClassId) :=
  match node, fuel with
  | None, _ => ret []
  | Some _, 0 => raise OutOfFuel
  | Some c, S fuel' =>
      let* next := parent c in
      let* rest := chain_up fuel' next in
      ret (c :: rest)
  end.

Definition virtual_slots (fuel : nat) (c : ClassId) : K (list Fn) :=
  let* owner := vtbl_owner fuel c in
  let* chain := chain_up fuel (Some owner) in
  mfold (fun slots node =>
      let* own := own_new_virtual_slots fuel node in ret (slots ++ own)) (rev chain) [].

Definition flattened_attributes (fuel : nat) (c : ClassId) : K (list string) :=
  let* chain := chain_up fuel (Some c) in
  let* st := get in
  ret (concat (map (fun node => cls_attributes (st node)) (rev chain))).

Definition resolve_fn (f : Fn) : K unit := fun st =>
  if fn_resolve f then
    match run_resolve_fn f st with
    | Ok st' => (Ok tt, st')
    | Err e => (Err e, st)
    end
  else (Ok tt, st).

(** One slot of [_interface_fulfilled_slot_impls]: its implementation, or
    [None] where the function returns [None]. *)
Definition slot_impl (fuel : nat) (c : ClassId) (slot : Fn) : K (option Fn) :=
  let* impl := chain_lookup fuel (Some c) (fn_stem slot) in
  match impl with
  | Some (mkName (MFunction f) _) =>
      resolve_fn f ;;;
      ret (if fn_is_stub f then None else Some f)
  | _ => ret None
  end.

Fixpoint slot_impls (fuel : nat) (c : ClassId) (slots : list Fn) (impls : list Fn) : K (option (list Fn)) :=
  match slots with
  | [] => ret (Some impls)
  | slot :: rest =>
      let* impl := slot_impl fuel c slot in
      match impl with
      | None => ret None
      | Some f => slot_impls fuel c rest (impls ++ [f])
      end
  end.

Definition interface_fulfilled_slot_impls (fuel : nat) (c : ClassId) : K (option (list Fn)) :=
  let* slots := virtual_slots fuel c in
  slot_impls fuel c slots [].

(** The rows of the static instance; [None]: no instance is built. *)
Definition emit_interface_vtable_instance (fuel : nat) (c : ClassId) : K (option (list (string * string))) :=
  let* impls := interface_fulfilled_slot_impls fuel c in
  match impls with
  | None => ret None
  | Some impls =>
      vtbl_owner fuel c ;;;
      let* slots := virtual_slots fuel c in
      ret (Some (zip_with (fun slot impl => (fn_stem slot, fn_qualname impl)) slots impls))
  end.

End walks.

(** ** Resolved chains *)

(** [l] is the chain of [c], from [c] to its root. *)
Inductive chain (st : Classes) : ClassId -> list ClassId -> Prop :=
| chain_root c : next_chain_node (cls_base (st c)) = None -> chain st c [c]
| chain_step c b l : next_chain_node (cls_base (st c)) = Some b -> chain st b l -> chain st c (c :: l).

Definition all_resolved (st : Classes) (l : list ClassId) : Prop :=
  Forall (fun c => cls_resolve (st c) = false) l.

(** The members a chain introduces, nearest class first. *)
Fixpoint virtual_stems (st : Classes) (l : list ClassId) : gset string :=
  match l with
  | [] => ∅
  | c :: l' => list_to_set (map fn_stem (virtual_fns (st c))) ∪ virtual_stems st l'
  end.

Definition new_slots (st : Classes) (c : ClassId) (above : list ClassId) : list Fn :=
  List.filter (fun f => bool_decide (fn_stem f ∉ virtual_stems st above)) (virtual_fns (st c)).

(** The slots of a chain, root first. *)
Fixpoint all_slots (st : Classes) (l : list ClassId) : list Fn :=
  match l with
  | [] => []
  | c :: l' => all_slots st l' ++ new_slots st c l'
  end.

Fixpoint nearest (st : Classes) (l : list ClassId) (name : string) : option (ClassId * Name) :=
  match l with
  | [] => None
  | c :: l' => match dict_get name (cls_names (st c)) with Some n => Some (c, n) | None => nearest st l' name end
  end.

Section resolved.
Context `{ResolveClass}.

Lemma resolve_node_done c st : cls_resolve (st c) = false -> resolve_node c st = (Ok tt, st).
Proof. intros Hr. unfold resolve_node. by rewrite Hr. Qed.

Lemma chain_next st c l : chain st c l ->
  exists l', l = c :: l' /\
    ((next_chain_node (cls_base (st c)) = None /\ l' = []) \/
     exists b, next_chain_node (cls_base (st c)) = Some b /\ chain st b l').
Proof. intros [c' Hn|c' b l' Hn Hc]; eauto 10. Qed.

Lemma inherited_names_spec st : forall l c fuel acc, chain st c l -> all_resolved st l -> length l <= fuel ->
  inherited_names fuel (Some c) acc st = (Ok (acc ∪ virtual_stems st l), st).
Proof.
  induction l as [|c0 l IH]; intros c fuel acc Hc Hr Hf.
  { destruct (chain_next _ _ _ Hc) as (l' & ? & _). done. }
  destruct (chain_next _ _ _ Hc) as (l' & [= -> <-] & Hn). apply Forall_cons in Hr as [Hr0 Hr].
  destruct fuel as [|fuel]; [simpl in Hf; lia|]. simpl.
  rewrite (bind_ok _ _ _ _ _ (resolve_node_done c st Hr0)), bind_get. unfold parent.
  rewrite bind_bind, bind_get, bind_ret.
  destruct Hn as [[-> ->]|(b & -> & Hb)].
  - destruct fuel; simpl; unfold ret; do 2 f_equal; set_solver.
  - rewrite (IH b fuel) by (done || (simpl in Hf; lia)). do 2 f_equal. set_solver.
Qed.

Lemma own_new_spec st c l fuel : chain st c (c :: l) -> all_resolved st (c :: l) -> length l <= fuel ->
  own_new_virtual_slots fuel c st = (Ok (new_slots st c l), st).
Proof.
  intros Hc Hr Hf. apply Forall_cons in Hr as [Hr0 Hr]. unfold own_new_virtual_slots.
  rewrite (bind_ok _ _ _ _ _ (resolve_node_done c st Hr0)). unfold parent.
  rewrite bind_bind, bind_get, bind_ret.
  destruct (chain_next _ _ _ Hc) as (l' & [= <-] & [[-> ->]|(b & -> & Hb)]).
  - unfold new_slots. simpl. by destruct fuel.
  - rewrite (bind_ok _ _ _ _ _ (inherited_names_spec st l b fuel ∅ Hb Hr Hf)), bind_get.
    unfold ret, new_slots. by rewrite (left_id_L ∅ (∪)).
Qed.

Lemma chain_up_spec st : forall l c fuel, chain st c l -> length l <= fuel ->
  chain_up fuel (Some c) st = (Ok l, st).
Proof.
  induction l as [|c0 l IH]; intros c fuel Hc Hf.
  { destruct (chain_next _ _ _ Hc) as (l' & ? & _). done. }
  destruct (chain_next _ _ _ Hc) as (l' & [= -> <-] & Hn).
  destruct fuel as [|fuel]; [simpl in Hf; lia|]. simpl. unfold parent.
  rewrite bind_bind, bind_get, bind_ret. destruct Hn as [[-> ->]|(b & -> & Hb)].
  - by destruct fuel.
  - by rewrite (bind_ok _ _ _ _ _ (IH b fuel Hb ltac:(simpl in Hf; lia))).
Qed.

(** The owner is found up the chain, and what is skipped introduces nothing. *)
Lemma vtbl_owner_spec st : forall l c fuel, chain st c l -> all_resolved st l -> length l <= fuel ->
  exists owner lo, vtbl_owner fuel c st = (Ok owner, st) /\ chain st owner lo /\
    lo `suffix_of` l /\ all_slots st lo = all_slots st l.
Proof.
  induction l as [|c0 l IH]; intros c fuel Hc Hr Hf.
  { destruct (chain_next _ _ _ Hc) as (l' & ? & _). done. }
  destruct (chain_next _ _ _ Hc) as (l' & [= -> <-] & Hn).
  destruct fuel as [|fuel]; [simpl in Hf; lia|]. cbn [vtbl_owner]. unfold parent.
  rewrite bind_bind, bind_get, bind_ret. destruct Hn as [[-> ->]|(b & -> & Hb)].
  { exists c, [c]. split_and!; [done|done|done|done]. }
  rewrite (bind_ok _ _ _ _ _ (own_new_spec st c l (S fuel) Hc Hr ltac:(simpl in Hf; lia))).
  destruct (new_slots st c l) as [|f fs] eqn:En.
  - apply Forall_cons in Hr as [_ Hr].
    destruct (IH b fuel Hb Hr ltac:(simpl in Hf; lia)) as (owner & lo & E0 & Ho & Hsuf & Hs).
    exists owner, lo. split_and!; [done|done|by apply suffix_cons_r|].
    simpl. by rewrite En, app_nil_r.
  - exists c, (c :: l). split_and!; done.
Qed.

(** Collecting the own slots of a chain, root first. *)
Lemma collect_slots st fuel : forall l c, chain st c l -> all_resolved st l -> length l <= fuel ->
  mfold (fun slots node => let* own := own_new_virtual_slots fuel node in ret (slots ++ own)) (rev l) [] st =
    (Ok (all_slots st l), st).
Proof.
  induction l as [|c0 l IH]; intros c Hc Hr Hf; [done|].
  destruct (chain_next _ _ _ Hc) as (l' & [= -> <-] & Hn). simpl rev. rewrite mfold_app.
  assert (E0 : mfold (fun slots node => let* own := own_new_virtual_slots fuel node in ret (slots ++ own))
    (rev l) [] st = (Ok (all_slots st l), st)).
  { destruct Hn as [[_ ->]|(b & _ & Hb)]; [done|]. apply Forall_cons in Hr as [_ Hr].
    apply (IH b Hb Hr). simpl in Hf. lia. }
  rewrite (bind_ok _ _ _ _ _ E0). simpl.
  rewrite bind_bind, (bind_ok _ _ _ _ _ (own_new_spec st c l fuel Hc Hr ltac:(simpl in Hf; lia))). done.
Qed.

Lemma virtual_slots_spec st c l fuel : chain st c l -> all_resolved st l -> length l <= fuel ->
  virtual_slots fuel c st = (Ok (all_slots st l), st).
Proof.
  intros Hc Hr Hf. unfold virtual_slots.
  destruct (vtbl_owner_spec st l c fuel Hc Hr Hf) as (owner & lo & E0 & Ho & [pre ->] & Hs).
  rewrite length_app in Hf. apply Forall_app in Hr as [_ Hr].
  rewrite (bind_ok _ _ _ _ _ E0), (bind_ok _ _ _ _ _ (chain_up_spec st lo owner fuel Ho ltac:(lia))).
  rewrite <- Hs. apply (collect_slots st fuel lo owner Ho Hr). lia.
Qed.

Lemma all_slots_prefix st pre l : exists extra, all_slots st (pre ++ l) = all_slots st l ++ extra.
Proof.
  induction pre as [|c pre [extra IH]]; simpl; [exists []; by rewrite app_nil_r|].
  exists (extra ++ new_slots st c (pre ++ l)). by rewrite IH, <- app_assoc.
Qed.

(** A chain's slots have the stems of its virtual methods. *)
Lemma all_slots_stems st l f : f ∈ all_slots st l -> fn_stem f ∈ virtual_stems st l.
Proof.
  induction l as [|c l IH]; simpl; [by intros ?%not_elem_of_nil|].
  rewrite elem_of_app. intros [Hf|Hf]; [apply elem_of_union_r; auto|].
  apply list_elem_of_In, filter_In in Hf as [Hf _]. apply elem_of_union_l, elem_of_list_to_set.
  apply list_elem_of_In in Hf. by apply list_elem_of_fmap_2.
Qed.

Lemma stems_have_slot st l n : n ∈ virtual_stems st l -> exists f, f ∈ all_slots st l /\ fn_stem f = n.
Proof.
  induction l as [|c l IH]; simpl; [by intros ?%elem_of_empty|]. intros Hn.
  destruct (decide (n ∈ virtual_stems st l)) as [Hl|Hl].
  { destruct (IH Hl) as (f & Hf & <-). exists f. split; [|done]. apply elem_of_app. by left. }
  apply elem_of_union in Hn as [Hn|?]; [|done]. apply elem_of_list_to_set, list_elem_of_fmap in Hn as (f & -> & Hf).
  exists f. split; [|done]. apply elem_of_app. right. apply list_elem_of_In, filter_In.
  split; [by apply list_elem_of_In|]. by apply bool_decide_eq_true.
Qed.

(** One declaration per name, as the names of a class body are. *)
Definition distinct_methods (st : Classes) (l : list ClassId) : Prop :=
  Forall (fun c => NoDup (map fn_stem (virtual_fns (st c)))) l.

Lemma NoDup_map_filter {A B} (g : A -> B) (p : A -> bool) l : NoDup (map g l) -> NoDup (map g (List.filter p l)).
Proof.
  induction l as [|x l IH]; simpl; [done|]. intros [Hx Hl]%NoDup_cons.
  destruct (p x); simpl; [|auto]. apply NoDup_cons. split; [|auto].
  intros (y & Hy & Hin)%list_elem_of_fmap. apply Hx. rewrite Hy. apply list_elem_of_fmap_2.
  apply list_elem_of_In, filter_In in Hin as [Hin _]. by apply list_elem_of_In.
Qed.

Lemma all_slots_NoDup st l : distinct_methods st l -> NoDup (map fn_stem (all_slots st l)).
Proof.
  induction 1 as [|c l Hc _ IH]; simpl; [constructor|]. rewrite map_app. apply NoDup_app. split_and!.
  - done.
  - intros n (f & -> & Hf)%list_elem_of_fmap (g & Hg & Hin)%list_elem_of_fmap.
    apply list_elem_of_In, filter_In in Hin as [_ Hnew]. apply bool_decide_eq_true in Hnew. apply Hnew.
    rewrite <- Hg. by apply all_slots_stems.
  - by apply NoDup_map_filter.
Qed.

(** The table of a class starts with the table of each of its ancestors,
    so a pointer to the derived table can be read through the ancestor's
    type; it has exactly one slot for each virtual name of the chain. *)
Theorem virtual_slots_layout st c b pre l fuel :
  chain st c (pre ++ l) -> chain st b l -> all_resolved st (pre ++ l) -> distinct_methods st (pre ++ l) ->
  length (pre ++ l) <= fuel ->
  exists base extra, virtual_slots fuel b st = (Ok base, st) /\
    virtual_slots fuel c st = (Ok (base ++ extra), st) /\
    NoDup (map fn_stem (base ++ extra)) /\
    forall n, n ∈ virtual_stems st (pre ++ l) <-> n ∈ map fn_stem (base ++ extra).
Proof.
  intros Hc Hb Hr Hd Hf. destruct (all_slots_prefix st pre l) as [extra He].
  exists (all_slots st l), extra. rewrite <- He. rewrite length_app in Hf.
  pose proof Hr as Hr'. apply Forall_app in Hr' as [_ Hr'].
  split_and!.
  - apply virtual_slots_spec; [done|done|lia].
  - apply virtual_slots_spec; [done|done|rewrite length_app; lia].
  - by apply all_slots_NoDup.
  - intros n. split.
    + intros (f & Hf' & <-)%stems_have_slot. by apply list_elem_of_fmap_2.
    + intros (f & -> & Hf')%list_elem_of_fmap. by apply all_slots_stems.
Qed.

(** ** Looking a member up *)

Definition unbroken (st : Classes) (l : list ClassId) (name : string) : Prop :=
  forall c n, c ∈ l -> dict_get name (cls_names (st c)) = Some n -> name_broken n = false.

Lemma lookup_spec st name : forall l c fuel, chain st c l -> all_resolved st l -> length l <= fuel ->
  unbroken st l name ->
  chain_lookup fuel (Some c) name st = (Ok (snd <$> nearest st l name), st) /\
  field_owner fuel (Some c) name st = (Ok (fst <$> nearest st l name), st).
Proof.
  induction l as [|c0 l IH]; intros c fuel Hc Hr Hf Hu.
  { destruct (chain_next _ _ _ Hc) as (l' & ? & _). done. }
  destruct (chain_next _ _ _ Hc) as (l' & [= -> <-] & Hn). apply Forall_cons in Hr as [Hr0 Hr].
  destruct fuel as [|fuel]; [simpl in Hf; lia|]. simpl.
  rewrite !(bind_ok _ _ _ _ _ (resolve_node_done c st Hr0)).
  unfold get_local_or_raise, get_local, parent. rewrite !bind_bind, !bind_get, !bind_ret.
  destruct (dict_get name (cls_names (st c))) as [n|] eqn:Ed.
  { rewrite (Hu c n ltac:(left) Ed). done. }
  rewrite !bind_ret, !bind_bind, !bind_get, !bind_ret.
  destruct Hn as [[-> ->]|(b & -> & Hb)]; [by destruct fuel|].
  apply IH; [done|done|simpl in Hf; lia|]. intros d n Hd. apply Hu. by right.
Qed.

(** [chain_lookup] returns the declaration of the nearest class of the
    chain that has the name, and [field_owner] that class. *)
Theorem lookup_is_nearest st c l name fuel : chain st c l -> all_resolved st l -> length l <= fuel ->
  unbroken st l name ->
  exists r, chain_lookup fuel (Some c) name st = (Ok (snd <$> r), st) /\
    field_owner fuel (Some c) name st = (Ok (fst <$> r), st) /\
    match r with
    | Some (owner, n) => exists near far, l = near ++ owner :: far /\
        dict_get name (cls_names (st owner)) = Some n /\
        Forall (fun d => dict_get name (cls_names (st d)) = None) near
    | None => Forall (fun d => dict_get name (cls_names (st d)) = None) l
    end.
Proof.
  intros Hc Hr Hf Hu. destruct (lookup_spec st name l c fuel Hc Hr Hf Hu) as [E1 E2].
  exists (nearest st l name). split_and!; [done|done|]. clear.
  induction l as [|d l IH]; simpl; [constructor|].
  destruct (dict_get name (cls_names (st d))) as [n|] eqn:Ed; [by exists [], l|].
  destruct (nearest st l name) as [[owner n]|].
  - destruct IH as (near & far & -> & Hn & Hall). exists (d :: near), far. split_and!; [done|done|by constructor].
  - by constructor.
Qed.

(** ** Virtual calls *)

(** What a slot's nearest declaration implements it with. *)
Definition implements (st : Classes) (l : list ClassId) (slot : Fn) : option Fn :=
  match nearest st l (fn_stem slot) with
  | Some (_, mkName (MFunction f) _) => if fn_is_stub f then None else Some f
  | _ => None
  end.

Definition functions_resolved (st : Classes) (l : list ClassId) : Prop :=
  forall name o f b, nearest st l name = Some (o, mkName (MFunction f) b) -> fn_resolve f = false.

Lemma slot_impl_spec st c l fuel slot : chain st c l -> all_resolved st l -> length l <= fuel ->
  (forall n, unbroken st l n) -> functions_resolved st l ->
  slot_impl fuel c slot st = (Ok (implements st l slot), st).
Proof.
  intros Hc Hr Hf Hu Hfn. unfold slot_impl, implements.
  rewrite (bind_ok _ _ _ _ _ (proj1 (lookup_spec st (fn_stem slot) l c fuel Hc Hr Hf (Hu _)))).
  destruct (nearest st l (fn_stem slot)) as [[o [[f|s|s] b]]|] eqn:En; simpl; try done.
  assert (E0 : resolve_fn f st = (Ok tt, st)) by (unfold resolve_fn; by rewrite (Hfn _ _ _ _ En)).
  by rewrite (bind_ok _ _ _ _ _ E0).
Qed.

Lemma slot_impls_spec st c l fuel slots : chain st c l -> all_resolved st l -> length l <= fuel ->
  (forall n, unbroken st l n) -> functions_resolved st l -> forall impls,
  slot_impls fuel c slots impls st = (Ok (app impls <$> mapM (implements st l) slots), st).
Proof.
  intros Hc Hr Hf Hu Hfn. induction slots as [|slot slots IH]; intros impls; cbn [slot_impls].
  { simpl. by rewrite app_nil_r. }
  rewrite (bind_ok _ _ _ _ _ (slot_impl_spec st c l fuel slot Hc Hr Hf Hu Hfn)). simpl.
  destruct (implements st l slot) as [f|]; simpl; [|done]. rewrite IH.
  destruct (mapM (implements st l) slots); simpl; [|done]. by rewrite <- app_assoc.
Qed.

Lemma fulfilled_spec st c l fuel : chain st c l -> all_resolved st l -> length l <= fuel ->
  (forall n, unbroken st l n) -> functions_resolved st l ->
  interface_fulfilled_slot_impls fuel c st = (Ok (mapM (implements st l) (all_slots st l)), st).
Proof.
  intros Hc Hr Hf Hu Hfn. unfold interface_fulfilled_slot_impls.
  rewrite (bind_ok _ _ _ _ _ (virtual_slots_spec st c l fuel Hc Hr Hf)).
  rewrite (slot_impls_spec st c l fuel _ Hc Hr Hf Hu Hfn). by destruct (mapM _ _).
Qed.

(** C27: a virtual call through a base type reaches the nearest override.  A
    class gets a table exactly when no slot of its chain is left to a stub,
    and the row a base class reads at an index names, in the table of any
    derived class, the declaration nearest to the derived class. *)
Theorem virtual_dispatch st c b pre l fuel base :
  chain st c (pre ++ l) -> chain st b l -> all_resolved st (pre ++ l) ->
  (forall n, unbroken st (pre ++ l) n) -> functions_resolved st (pre ++ l) -> length (pre ++ l) <= fuel ->
  virtual_slots fuel b st = (Ok base, st) ->
  exists table, emit_interface_vtable_instance fuel c st = (Ok table, st) /\
    match table with
    | Some rows => forall i slot, base !! i = Some slot -> exists owner impl broken,
        rows !! i = Some (fn_stem slot, fn_qualname impl) /\
        nearest st (pre ++ l) (fn_stem slot) = Some (owner, mkName (MFunction impl) broken) /\
        fn_is_stub impl = false
    | None => exists slots slot, virtual_slots fuel c st = (Ok slots, st) /\ slot ∈ slots /\
        forall owner impl broken, nearest st (pre ++ l) (fn_stem slot) = Some (owner, mkName (MFunction impl) broken) ->
          fn_is_stub impl = true
    end.
Proof.
  intros Hc Hb Hr Hu Hfn Hf E0. pose proof Hf as Hf'. rewrite length_app in Hf'.
  pose proof Hr as Hr'. apply Forall_app in Hr' as [_ Hr'].
  rewrite (virtual_slots_spec st b l fuel Hb Hr' ltac:(lia)) in E0. injection E0 as <-.
  destruct (all_slots_prefix st pre l) as [extra He].
  pose proof (virtual_slots_spec st c (pre ++ l) fuel Hc Hr Hf) as Ev.
  unfold emit_interface_vtable_instance.
  rewrite (bind_ok _ _ _ _ _ (fulfilled_spec st c (pre ++ l) fuel Hc Hr Hf Hu Hfn)).
  destruct (mapM _ _) as [impls|] eqn:Em.
  - destruct (vtbl_owner_spec st (pre ++ l) c fuel Hc Hr Hf) as (owner & lo & Eo & _).
    rewrite (bind_ok _ _ _ _ _ Eo), (bind_ok _ _ _ _ _ Ev). eexists. split; [reflexivity|]. simpl.
    intros i slot Hi. apply mapM_Some in Em. rewrite He in *.
    assert (Hi2 : (all_slots st l ++ extra) !! i = Some slot) by by apply lookup_app_l_Some.
    destruct (Forall2_lookup_l _ _ _ _ _ Em Hi2) as (impl & Hi3 & Himp). unfold implements in Himp.
    destruct (nearest st (pre ++ l) (fn_stem slot)) as [[o [[f|s|s] br]]|] eqn:En; try done.
    destruct (fn_is_stub f) eqn:Es; [done|]. injection Himp as <-. exists o, f, br. split_and!; [|done|done].
    rewrite lookup_zip_with, Hi2. simpl. by rewrite Hi3.
  - exists None. split; [reflexivity|]. apply mapM_None, Exists_exists in Em as (slot & Hin & Himp).
    exists (all_slots st (pre ++ l)), slot. split_and!; [done|done|]. intros o f br En.
    unfold implements in Himp. rewrite En in Himp. by destruct (fn_is_stub f).
Qed.

(** A derived class's fields start with its base's, in the base's order. *)
Theorem flattened_attributes_prefix st c b l fuel :
  chain st c (c :: l) -> chain st b l -> length (c :: l) <= fuel ->
  exists inherited, flattened_attributes fuel b st = (Ok inherited, st) /\
    flattened_attributes fuel c st = (Ok (inherited ++ cls_attributes (st c)), st).
Proof.
  intros Hc Hb Hf. simpl in Hf. unfold flattened_attributes.
  rewrite (bind_ok _ _ _ _ _ (chain_up_spec st l b fuel Hb ltac:(lia))).
  rewrite (bind_ok _ _ _ _ _ (chain_up_spec st (c :: l) c fuel Hc ltac:(simpl; lia))).
  eexists. split; [reflexivity|]. rewrite bind_get. unfold ret. do 2 f_equal.
  simpl. rewrite map_app, concat_app. simpl. by rewrite app_nil_r.
Qed.

End resolved.

(** ** Resolving a chain *)

(** What the walks rely on: resolving succeeds, clears [resolve], leaves the
    classes already resolved as they are, and never makes a class its own
    ancestor: a resolved class ranks above its base. *)
Definition base_ranks (rank : ClassId -> nat) (st : Classes) : Prop :=
  forall c b, cls_resolve (st c) = false -> next_chain_node (cls_base (st c)) = Some b -> rank b < rank c.

Class ResolveLaws `{ResolveClass} (rank : ClassId -> nat) := {
  resolve_total c st : cls_resolve (st c) = true -> exists st', run_resolve_class c st = Ok st';
  resolve_clears c st st' : run_resolve_class c st = Ok st' -> cls_resolve (st' c) = false;
  resolve_keeps c st st' d : cls_resolve (st c) = true -> run_resolve_class c st = Ok st' ->
    cls_resolve (st d) = false ->
    cls_resolve (st' d) = false /\ cls_base (st' d) = cls_base (st d);
  resolve_ranks c st st' : run_resolve_class c st = Ok st' -> base_ranks rank st -> base_ranks rank st';
}.

Section resolving.
Context `{ResolveLaws rank}.

Lemma resolve_node_ok c st : base_ranks rank st ->
  exists st', resolve_node c st = (Ok tt, st') /\ base_ranks rank st' /\ cls_resolve (st' c) = false /\
  forall d, cls_resolve (st d) = false -> cls_resolve (st' d) = false /\ cls_base (st' d) = cls_base (st d).
Proof.
  intros Hw. unfold resolve_node. destruct (cls_resolve (st c)) eqn:Er; [|by exists st].
  destruct (resolve_total c st Er) as [st' E1]. rewrite E1. exists st'. split_and!; [done| | |].
  - by apply (resolve_ranks c st).
  - by apply (resolve_clears c st).
  - intros d. by apply (resolve_keeps c st).
Qed.

Lemma resolve_chain_node : forall fuel c st, base_ranks rank st -> rank c < fuel ->
  exists st' l, resolve_chain fuel (Some c) st = (Ok tt, st') /\
    chain st' c l /\ all_resolved st' l /\ length l <= S (rank c) /\
    forall d, cls_resolve (st d) = false -> cls_resolve (st' d) = false /\ cls_base (st' d) = cls_base (st d).
Proof.
  induction fuel as [|fuel IH]; intros c st Hw Hf; [lia|]. cbn [resolve_chain].
  destruct (resolve_node_ok c st Hw) as (st1 & E1 & Hw1 & Hc & Hkeep).
  rewrite (bind_ok _ _ _ _ _ E1). unfold parent. rewrite bind_bind, bind_get, bind_ret.
  destruct (next_chain_node (cls_base (st1 c))) as [b|] eqn:En.
  - pose proof (Hw1 c b Hc En) as Hlt.
    destruct (IH b st1 Hw1 ltac:(lia)) as (st2 & l & E2 & Hl & Hall & Hlen & Hkeep2).
    destruct (Hkeep2 c Hc) as [Hres Hbase]. exists st2, (c :: l). split_and!; [done| | |simpl; lia|].
    + apply chain_step with b; [by rewrite Hbase|done].
    + by constructor.
    + intros d Hd. destruct (Hkeep d Hd) as [H1 H2]. destruct (Hkeep2 d H1) as [H3 H4]. split; [done|congruence].
  - exists st1, [c]. split_and!; [by destruct fuel|by apply chain_root|by repeat constructor|simpl; lia|done].
Qed.

(** Resolving a chain terminates and leaves the class with a finite chain
    of resolved ancestors, which is what the walks above need; the fuel they
    need is the class's rank. *)
Theorem resolve_chain_resolves fuel c st : base_ranks rank st -> rank c < fuel ->
  exists st' l, resolve_chain fuel (Some c) st = (Ok tt, st') /\
    chain st' c l /\ all_resolved st' l /\ length l <= fuel.
Proof.
  intros Hw Hf. destruct (resolve_chain_node fuel c st Hw Hf) as (st' & l & ? & ? & ? & ? & _).
  exists st', l. split_and!; [done|done|done|lia].
Qed.

End resolving.

(** ** A hierarchy: [IUnknown] with [release], [IShape] adding [area] and
    implementing nothing, [Circle] overriding both *)

Module sample.

Definition fn (cls stem : string) (stub : bool) : Fn := mkFn (cls +:+ "." +:+ stem) stem true stub false.
Definition named (f : Fn) : string * Name := (fn_stem f, mkName (MFunction f) false).
Definition cls (base : option BaseRef) (fields : list string) (fns : list Fn) : ClassNode :=
  mkClass base (map named fns) (map MFunction fns) fields false.

Definition unknown := cls None ["refs"] [fn "IUnknown" "release" false].
Definition shape := cls (Some (BaseClass 0)) [] [fn "IShape" "area" true].
Definition circle := cls (Some (BaseSpecialization 1 ["f64"])) ["radius"]
  [fn "Circle" "area" false; fn "Circle" "release" false].

Definition st : Classes := fun c => match c with 0 => unknown | 1 => shape | _ => circle end.

(** Before anything is resolved only the bases and the [resolve] closures are
    there; resolving a class fills in its members. *)
Definition unresolved : Classes := fun c => mkClass (cls_base (st c)) [] [] [] true.

#[export] Instance resolve_class : ResolveClass := {
  run_resolve_class c st' := Ok (fun d => if decide (d = c) then st c else st' d);
  run_resolve_fn _ st' := Ok st';
}.

#[export] Instance resolve_laws : ResolveLaws id.
Proof.
  assert (Hst : forall c, cls_resolve (st c) = false) by by intros [|[|c]].
  split; simpl.
  - eauto.
  - intros c st1 st' [= <-]. by case_decide.
  - intros c st1 st' d Hc [= <-] Hd. case_decide as Ed; [congruence|done].
  - intros c st1 st' [= <-] Hw d b. case_decide as Ed; [|apply Hw].
    intros _. destruct c as [|[|c]]; simpl; intros [= <-]; subst d; simpl; lia.
Qed.

Lemma shape_chain : chain st 1 [1; 0].
Proof. apply chain_step with 0; [done|]. by apply chain_root. Qed.

Lemma circle_chain : chain st 2 [2; 1; 0].
Proof. apply chain_step with 1; [done|]. apply shape_chain. Qed.

Lemma resolved : all_resolved st [2; 1; 0].
Proof. by repeat constructor. Qed.

Lemma names_unbroken n : unbroken st [2; 1; 0] n.
Proof.
  assert (Hall : forall c m, dict_get n (cls_names (st c)) = Some m -> name_broken m = false).
  { intros c m. unfold dict_get. destruct c as [|[|c]]; simpl; repeat case_decide; by intros [= <-]. }
  intros c m _. apply Hall.
Qed.

Lemma methods_resolved : functions_resolved st [2; 1; 0].
Proof.
  intros n o f b. simpl. unfold dict_get. simpl. repeat case_decide; by intros [= <- <-].
Qed.

End sample.

#[local] Existing Instances sample.resolve_class sample.resolve_laws.

Lemma virtual_slots_layout_witness :
  exists base extra, virtual_slots 3 1 sample.st = (Ok base, sample.st) /\
    virtual_slots 3 2 sample.st = (Ok (base ++ extra), sample.st) /\ base ++ extra <> [].
Proof.
  destruct (virtual_slots_layout sample.st 2 1 [2] [1; 0] 3 sample.circle_chain sample.shape_chain sample.resolved
    ltac:(repeat constructor; set_solver) ltac:(simpl; lia)) as (base & extra & E1 & E2 & _).
  exists base, extra. split_and!; [done|done|]. intros E0. rewrite E0 in E2. by vm_compute in E2.
Defined.

Lemma lookup_is_nearest_witness :
  chain_lookup 3 (Some 2) "refs" sample.st = (Ok None, sample.st) /\
  exists o, field_owner 3 (Some 2) "release" sample.st = (Ok o, sample.st).
Proof.
  destruct (lookup_is_nearest sample.st 2 [2; 1; 0] "release" 3 sample.circle_chain sample.resolved
    ltac:(simpl; lia) (sample.names_unbroken _)) as (r & E1 & E2 & _).
  split; [reflexivity|]. by exists (fst <$> r).
Defined.

Lemma virtual_dispatch_witness :
  exists table, emit_interface_vtable_instance 3 2 sample.st = (Ok table, sample.st) /\
    table = Some [("release", "Circle.release"); ("area", "Circle.area")].
Proof.
  destruct (virtual_dispatch sample.st 2 1 [2] [1; 0] 3 _ sample.circle_chain sample.shape_chain sample.resolved
    sample.names_unbroken sample.methods_resolved ltac:(simpl; lia) eq_refl) as (table & E0 & _).
  exists table. split; [done|]. by vm_compute in E0; injection E0 as <-.
Defined.

Lemma flattened_attributes_prefix_witness :
  exists inherited, flattened_attributes 3 1 sample.st = (Ok inherited, sample.st) /\
    flattened_attributes 3 2 sample.st = (Ok (inherited ++ ["radius"]), sample.st).
Proof.
  apply (flattened_attributes_prefix sample.st 2 1 [1; 0] 3 sample.circle_chain sample.shape_chain). simpl. lia.
Defined.

Lemma resolve_chain_resolves_witness :
  exists st' l, resolve_chain 3 (Some 2) sample.unresolved = (Ok tt, st') /\
    chain st' 2 l /\ all_resolved st' l /\ length l <= 3.
Proof.
  apply (resolve_chain_resolves 3 2 sample.unresolved); [by intros c b|simpl; lia].
Defined.
