(* ===== verification/OverloadResolution.v ===== *)
(** * Overload resolution ([overload_resolution.py])

    A call to an overloaded function is resolved by subtracting boxes: the
    argument types of the call are a box (one tuple of leaf types per call
    slot); each candidate claims the part it accepts and the rest is split
    into disjoint boxes for the candidates after it ([sweep]).  What no
    [@overload] member claims goes, leaf combination by leaf combination, to
    the plain implementations.  The result is a list of run-time tests
    ([ConditionalDispatch]) and a default.

    [Injected] holds what the callers inject: [same_type], [protocol_conforms]
    and the lazy [resolve] callback of a function; functions are objects in a
    store, since resolving one fills it in place. *)

From Stdlib Require Import Sorting.Sorted.
From S2P Require Import Prelude MpyTypes.

Local Open Scope monad_scope.

(** ** Data *)

Record Param := mkParam {
  p_stem : string;
  p_type : option Ty;
  p_default : bool;  (* [default is not None] *)
}.

Record Function := mkFunction {
  f_qualname : string;
  f_parameters : option (list Param);
  f_line : Z;
  f_is_overload : bool;
  f_broken : bool;
  f_bound_to : option nat;
  f_resolve : bool;  (* [resolve is not None] *)
}.

(** A function object is its identity; the store holds its fields. *)
Abbreviation FnId := nat.
Abbreviation Store := (FnId -> Function).

Inductive Slot := Pos (i : nat) | Key (name : string).

#[global] Instance Slot_eq_dec : EqDecision Slot.
Proof. solve_decision. Defined.
#[global] Instance Param_eq_dec : EqDecision Param.
Proof. solve_decision. Defined.

(** One tuple of possible types per call slot. *)
Abbreviation box := (list (list Ty)).

Record Candidate := mkCandidate {
  c_member : FnId;
  c_target : FnId;
  c_required : box;
  c_target_params : list Param;
  c_wildcard : list bool;
  c_types : list Ty;
}.

Record ConditionalDispatch := mkDispatch {
  conditions : list (Param * Ty);
  dispatch_function : FnId;
}.

(** [_RankedMatch]: the target is in [dispatch_function]. *)
Abbreviation RankedMatch := ConditionalDispatch.

Inductive error :=
| AssertionError
| IndexError
| StopIteration
| TooComplex
| MultiTypeCheck (slot : nat) (leaves : list Ty)
| Unresolved (parts : list (list Ty * list FnId))
| NoOverload.

Class Injected := {
  same_type : Ty -> Ty -> bool;
  protocol_conforms : option (Ty -> Ty -> bool);
  (* the [bound] field of a [TypeVar] *)
  typevar_bound : Ty -> option Ty;
  (* [fn.resolve()]: fills the function in place *)
  run_resolve : FnId -> Store -> result error Store;
}.

Definition _MAX_TRACKED_STATES : Z := 4096.

Fixpoint traverse {E A B} (f : A -> result E B) (l : list A) : result E (list B) :=
  match l with
  | [] => Ok []
  | x :: xs => let? y := f x in let? ys := traverse f xs in Ok (y :: ys)
  end.

Definition is_typevar (t : Ty) : bool := match t with TypeVar _ => true | _ => false end.

Section resolution.
Context `{Injected}.

Definition contains (types : list Ty) (t : Ty) : bool := existsb (same_type t) types.
Definition intersect (a b : list Ty) : list Ty := List.filter (contains b) a.
Definition subtract (a b : list Ty) : list Ty := List.filter (fun x => negb (contains b x)) a.

(** ** Which parameter each slot of the call feeds *)

Definition slot_index (params : list Param) (key : Slot) : option nat :=
  match key with
  | Pos i => if decide (i < length params) then Some i else None
  | Key name => fst <$> list_find (fun p => p_stem p = name) params
  end.

Definition translate_indices (params : list Param) (call_slots : list Slot) : option (list nat) :=
  indices ← mapM (slot_index params) call_slots;
  if forallb (fun '(i, p) => bool_decide (i ∈ indices) || p_default p) (imap pair params)
  then Some indices else None.

Definition params_of (f : Function) : list Param := default [] (f_parameters f).

Definition declared_type (p : Param) : result error Ty :=
  match p_type p with Some t => Ok t | None => Err AssertionError end.

Definition nth_param (params : list Param) (i : nat) : result error Param :=
  match params !! i with Some p => Ok p | None => Err IndexError end.

(** [arg_leaves] is the dictionary of the call's own slots. *)
Fixpoint covers_slots (params : list Param) (arg_leaves : Slot -> list Ty)
    (slots : list (Slot * nat)) : result error bool :=
  match slots with
  | [] => Ok true
  | (slot, idx) :: rest =>
      let? p := nth_param params idx in
      let? t := declared_type p in
      if forallb (contains (leaves t)) (arg_leaves slot)
      then covers_slots params arg_leaves rest else Ok false
  end.

Definition stub_covers_call (stub : Function) (call_slots : list Slot)
    (arg_leaves : Slot -> list Ty) : result error bool :=
  match translate_indices (params_of stub) call_slots with
  | None => Ok false
  | Some indices => covers_slots (params_of stub) arg_leaves (zip call_slots indices)
  end.

(** ** Candidates *)

Definition build_candidate (st : Store) (call_slots : list Slot) (targets : FnId -> FnId)
    (member : FnId) : result error (option Candidate) :=
  let params := params_of (st member) in
  match translate_indices params call_slots with
  | None => Ok None
  | Some indices =>
      let target := targets member in
      let target_params_list := params_of (st target) in
      let? own := traverse (nth_param params) indices in
      let? param_types := traverse declared_type own in
      Ok (Some (mkCandidate member target (map leaves param_types)
        (map (fun '(i, p) => match target_params_list !! i with Some q => q | None => p end)
           (zip indices own))
        (map is_typevar param_types) param_types))
  end.

Definition build_candidates (st : Store) (members : list FnId) (call_slots : list Slot)
    (targets : FnId -> FnId) : result error (list Candidate) :=
  let? cs := traverse (build_candidate st call_slots targets) members in
  Ok (omap id cs).

Definition candidates_tied (a b : Candidate) : bool :=
  bool_decide (c_wildcard a = c_wildcard b) &&
  forallb (fun '(w, (ra, rb)) =>
      w || (bool_decide (length ra = length rb) && forallb (contains rb) ra))
    (zip (c_wildcard a) (zip (c_required a) (c_required b))).

Definition any_wildcard (c : Candidate) : bool := existsb id (c_wildcard c).

(** The run of candidates tied with [c] at the front of the list, and the rest. *)
Fixpoint tied_run (c : Candidate) (l : list Candidate) : list Candidate * list Candidate :=
  match l with
  | [] => ([], [])
  | d :: l' =>
      if any_wildcard d && candidates_tied c d
      then let '(run, rest) := tied_run c l' in (d :: run, rest)
      else ([], l)
  end.

(** The [while] loop consumes a non-empty run each time round: the length of
    the list is enough fuel ([group_concat]). *)
Fixpoint group_from (fuel : nat) (candidates : list Candidate) : list (list Candidate) :=
  match fuel, candidates with
  | S fuel', c :: rest =>
      if any_wildcard c
      then let '(run, rest') := tied_run c rest in (c :: run) :: group_from fuel' rest'
      else [c] :: group_from fuel' rest
  | _, _ => []
  end.

Definition group_tied_wildcard_candidates (candidates : list Candidate) : list (list Candidate) :=
  group_from (length candidates) candidates.

(** ** One sweep of a box by a candidate *)

Definition is_nil {A} (l : list A) : bool := match l with [] => true | _ => false end.

(** [all( piece )]: no slot of the box is empty. *)
Definition inhabited_box (b : box) : bool := forallb (fun s => negb (is_nil s)) b.

Fixpoint sweep_from (prefix slots required : box) (wildcard : list bool)
    : box * list bool * list box :=
  match slots with
  | [] => ([], [], [])
  | s :: slots' =>
      if hd false wildcard
      then
        let '(matched, needs_check, misses) :=
          sweep_from (prefix ++ [s]) slots' (tl required) (tl wildcard) in
        (s :: matched, false :: needs_check, misses)
      else
        let inter := intersect s (hd [] required) in
        let remainder := subtract s (hd [] required) in
        let piece := prefix ++ remainder :: slots' in
        let '(matched, needs_check, misses) :=
          sweep_from (prefix ++ [inter]) slots' (tl required) (tl wildcard) in
        (inter :: matched, negb (is_nil remainder) :: needs_check,
         if negb (is_nil remainder) && inhabited_box piece then piece :: misses else misses)
  end.

Definition sweep (slots required : box) (wildcard : list bool) : box * list bool * list box :=
  sweep_from [] slots required wildcard.

(** ** The call *)

(** What the closures of [resolve_call] share: the state budget and the
    matches recorded so far. *)
Record Progress := mkProgress { budget : Z; matches : list RankedMatch }.

Abbreviation R A := (M Progress error A).

Definition spend (n : nat) : R unit :=
  modify (fun s => mkProgress (budget s - Z.of_nat n) (matches s)) ;;;
  let* s := get in
  if (budget s <? 0)%Z then raise TooComplex else ret tt.

Definition record (m : RankedMatch) : R unit :=
  modify (fun s => mkProgress (budget s) (matches s ++ [m])).

(** The run-time test of one slot, if it needs one. *)
Definition slot_condition (i : nat) (slot : list Ty) (need : bool) (p : Param)
    : result error (list (Param * Ty)) :=
  if need then
    match slot with
    | [leaf] => Ok [(p, leaf)]
    | [] => Err IndexError
    | _ => Err (MultiTypeCheck i slot)
    end
  else Ok [].

Fixpoint full_match_conditions (i : nat) (matched : box) (needs_check : list bool)
    (ps : list Param) : result error (list (Param * Ty)) :=
  match matched, needs_check, ps with
  | slot :: matched', need :: needs', p :: ps' =>
      let? here := slot_condition i slot need p in
      let? rest := full_match_conditions (S i) matched' needs' ps' in
      Ok (here ++ rest)
  | _, _, _ => Ok []
  end.

Definition record_full_match (c : Candidate) (matched : box) (needs_check : list bool) : R unit :=
  let* conds := lift (full_match_conditions 0 matched needs_check (c_target_params c)) in
  record (mkDispatch conds (c_target c)).

(** [conforms c]: the real argument types meet the bounds of the wildcard
    parameters of [c]. *)
Definition bound_base (t : Ty) : Ty := match t with Specialization base _ => base | _ => t end.

Definition conforms (pc : Ty -> Ty -> bool) (originals : list Ty) (c : Candidate) : bool :=
  forallb (fun '(w, (t, original)) =>
      negb w || negb (is_typevar t) ||
      match typevar_bound t with
      | None => true
      | Some bound => pc original (bound_base bound)
      end)
    (zip (c_wildcard c) (zip (c_types c) originals)).

Definition sweep_one (c : Candidate) (next_states : list box) (state : box) : R (list box) :=
  let '(matched, needs_check, misses) := sweep state (c_required c) (c_wildcard c) in
  spend (length misses) ;;;
  (if inhabited_box matched then record_full_match c matched needs_check else ret tt) ;;;
  ret (next_states ++ misses).

Definition sweep_candidate (states : list box) (c : Candidate) : R (list box) :=
  mfold (sweep_one c) states [].

Definition sweep_tied (pc : Ty -> Ty -> bool) (originals : list Ty) (rep : Candidate)
    (group : list Candidate) (next_states : list box) (state : box) : R (list box) :=
  let '(matched, needs_check, misses) := sweep state (c_required rep) (c_wildcard rep) in
  spend (length misses) ;;;
  if inhabited_box matched then
    match List.filter (conforms pc originals) group with
    | [] => ret (next_states ++ misses ++ [state])
    | c :: _ => record_full_match c matched needs_check ;;; ret (next_states ++ misses)
    end
  else ret (next_states ++ misses).

Definition sweep_group (originals : list Ty) (states : list box) (group : list Candidate)
    : R (list box) :=
  match group, protocol_conforms with
  | rep :: _ :: _, Some pc => mfold (sweep_tied pc originals rep group) states []
  | _, _ => mfold sweep_candidate group states
  end.

(** *** The plain implementations *)

Fixpoint product (b : box) : list (list Ty) :=
  match b with
  | [] => [[]]
  | s :: b' => x ← s; map (cons x) (product b')
  end.

Definition accepts (c : Candidate) (combo : list Ty) : bool :=
  forallb (fun '(t, (w, req)) => w || contains req t)
    (zip combo (zip (c_wildcard c) (c_required c))).

Definition found_plains (plains : list Candidate) (combo : list Ty) : list Candidate :=
  let found := List.filter (fun c => accepts c combo) plains in
  match List.filter (fun c => negb (any_wildcard c)) found with
  | [] => found
  | concrete => concrete
  end.

(** [unresolved] and [combo_targets] after the two nested loops. *)
Record Leftover := mkLeftover {
  unresolved : list (list Ty * list FnId);
  combo_targets : list (list Ty * FnId);
}.

Definition assign_combo (plains : list Candidate) (acc : Leftover) (combo : list Ty) : Leftover :=
  match found_plains plains combo with
  | [c] => mkLeftover (unresolved acc) (combo_targets acc ++ [(combo, c_target c)])
  | found => mkLeftover (unresolved acc ++ [(combo, map c_target found)]) (combo_targets acc)
  end.

Definition assign_state (plains : list Candidate) (acc : Leftover) (state : box) : R Leftover :=
  spend (length (product state)) ;;;
  ret (foldl (assign_combo plains) acc (product state)).

Fixpoint distinct (seen : list FnId) (l : list FnId) : list FnId :=
  match l with
  | [] => []
  | t :: l' => if decide (t ∈ seen) then distinct seen l' else t :: distinct (t :: seen) l'
  end.

(** The condition slot [i] contributes for a target that owns [own] of the
    leftover combinations. *)
Definition plain_condition (own others : list (list Ty)) (i : nat) (p : Param)
    : list (Param * Ty) :=
  match map (fun c => nth i c (CType "")) own with
  | [] => []
  | shared :: rest =>
      if existsb (fun leaf => negb (same_type leaf shared)) rest then []
      else if existsb (fun o => negb (same_type (nth i o (CType "")) shared)) others
      then [(p, shared)] else []
  end.

Definition plain_match (plains : list Candidate) (combos : list (list Ty * FnId)) (target : FnId)
    : R unit :=
  match List.find (fun c => bool_decide (c_target c = target)) plains with
  | None => raise StopIteration
  | Some c =>
      let own := map fst (List.filter (fun ct => bool_decide (ct.2 = target)) combos) in
      let others := map fst (List.filter (fun ct => negb (bool_decide (ct.2 = target))) combos) in
      record (mkDispatch (concat (imap (plain_condition own others) (c_target_params c))) target)
  end.

Definition record_plains (plains : list Candidate) (states : list box) : R unit :=
  let* split := mfold (assign_state plains) states (mkLeftover [] []) in
  match unresolved split with
  | [] => mfold (fun _ t => plain_match plains (combo_targets split) t)
            (distinct [] (map snd (combo_targets split))) tt
  | parts => raise (Unresolved parts)
  end.

(** *** The plan *)

Record Plan := mkPlan { branches : list ConditionalDispatch; plan_default : FnId }.

Definition plan_of (ms : list RankedMatch) : result error Plan :=
  match ms with
  | [] => Err NoOverload
  | [m] => Ok (mkPlan [] (dispatch_function m))
  | m :: _ =>
      let final := List.last ms m in
      Ok (mkPlan (List.removelast ms) (dispatch_function final))
  end.

(** Sorting by [(is_wildcard_member, line)]; Python's sort is stable. *)
Definition is_wildcard_member (f : Function) : bool :=
  existsb (fun p => match p_type p with Some t => is_typevar t | None => false end) (params_of f).

Definition key_le (a b : bool * Z) : bool :=
  match a.1, b.1 with
  | false, true => true
  | true, false => false
  | _, _ => (a.2 <=? b.2)%Z
  end.

Definition sort_key (f : Function) : bool * Z := (is_wildcard_member f, f_line f).

Fixpoint insert_by (st : Store) (x : FnId) (l : list FnId) : list FnId :=
  match l with
  | [] => [x]
  | y :: l' => if key_le (sort_key (st x)) (sort_key (st y)) then x :: l else y :: insert_by st x l'
  end.

Fixpoint sorted_by (st : Store) (l : list FnId) : list FnId :=
  match l with
  | [] => []
  | x :: l' => insert_by st x (sorted_by st l')
  end.

Fixpoint resolve_all (fns : list FnId) (st : Store) : result error Store :=
  match fns with
  | [] => Ok st
  | f :: fns' =>
      let? st' := if f_resolve (st f) then run_resolve f st else Ok st in
      resolve_all fns' st'
  end.

(** The slots of a call: positions, then keywords. *)
Definition call_slots_of (args : list Ty) (kwargs : dict Ty) : list Slot :=
  map Pos (seq 0 (length args)) ++ map Key (dict_keys kwargs).

Definition originals_of (args : list Ty) (kwargs : dict Ty) : list Ty := args ++ map snd kwargs.

(** The candidates of a call, in the order they are tried. *)
Definition overload_members (st : Store) (stubs implementations : list FnId) : list FnId :=
  sorted_by st (stubs ++ List.filter (fun f => f_is_overload (st f)) implementations).

Definition target_of (st : Store) (stubs : list FnId) (m : FnId) : result error FnId :=
  if decide (m ∈ stubs) then
    match f_bound_to (st m) with Some t => Ok t | None => Err AssertionError end
  else Ok m.

Definition resolve_candidates (st : Store) (stubs implementations : list FnId)
    (call_slots : list Slot) : result error (list Candidate * list Candidate) :=
  let members := overload_members st stubs implementations in
  let plains := List.filter (fun f => negb (f_is_overload (st f))) implementations in
  let? _ := traverse (target_of st stubs) members in
  let targets m := match target_of st stubs m with Ok t => t | Err _ => m end in
  let? overloads := build_candidates st members call_slots targets in
  let? plain_candidates := build_candidates st plains call_slots (fun p => p) in
  Ok (overloads, plain_candidates).

Definition resolve_with (overloads plains : list Candidate) (originals : list Ty) : R Plan :=
  let* states :=
    mfold (sweep_group originals) (group_tied_wildcard_candidates overloads) [map leaves originals] in
  record_plains plains states ;;;
  let* s := get in
  lift (plan_of (matches s)).

Definition resolve_call (st0 : Store) (stubs implementations : list FnId)
    (args : list Ty) (kwargs : dict Ty) : result error Plan :=
  let? st := resolve_all (stubs ++ implementations) st0 in
  let live := List.filter (fun f => negb (f_broken (st f))) in
  let? (overloads, plains) :=
    resolve_candidates st (live stubs) (live implementations) (call_slots_of args kwargs) in
  (resolve_with overloads plains (originals_of args kwargs) (mkProgress _MAX_TRACKED_STATES [])).1.

End resolution.

(** ** Boxes and their points *)

(** A combination of leaves, one per slot, inside a box. *)
Definition in_box (combo : list Ty) (b : box) : Prop := Forall2 (fun x s => x ∈ s) combo b.

(** Boxes that share no combination. *)
Definition disjoint_boxes (bs : list box) : Prop :=
  forall i j p q combo, bs !! i = Some p -> bs !! j = Some q ->
    in_box combo p -> in_box combo q -> i = j.

(** The candidate is stated over the slots of the call ([build_candidate_aligned]). *)
Definition aligned (n : nat) (c : Candidate) : Prop :=
  length (c_required c) = n /\ length (c_wildcard c) = n /\
  length (c_target_params c) = n /\ length (c_types c) = n.

Section box_facts.
Context `{Injected}.

Lemma elem_of_intersect x a b : x ∈ intersect a b <-> x ∈ a /\ contains b x = true.
Proof. unfold intersect. by rewrite !list_elem_of_In, filter_In. Qed.

Lemma elem_of_subtract x a b : x ∈ subtract a b <-> x ∈ a /\ contains b x = false.
Proof. unfold subtract. by rewrite !list_elem_of_In, filter_In, negb_true_iff. Qed.

Lemma is_nil_false {A} (l : list A) : is_nil l = false <-> l <> [].
Proof. by destruct l. Qed.

Lemma in_box_inhabited combo b : in_box combo b -> inhabited_box b = true.
Proof.
  induction 1 as [|x s combo b Hx _ IH]; [done|]. unfold inhabited_box in *. simpl. rewrite IH.
  destruct s; [by apply not_elem_of_nil in Hx|done].
Qed.

Lemma in_box_cons combo s b :
  in_box combo (s :: b) <-> exists x c, combo = x :: c /\ x ∈ s /\ in_box c b.
Proof.
  split.
  - inversion 1 as [|x ? c ? Hx Hc]; subst. eauto.
  - intros (x & c & -> & Hx & Hc). by constructor.
Qed.

Lemma in_box_app combo p q :
  in_box combo (p ++ q) <-> exists cp cq, combo = cp ++ cq /\ in_box cp p /\ in_box cq q.
Proof.
  split.
  - intros (cp & cq & Hp & Hq & ->)%Forall2_app_inv_r. eauto.
  - intros (cp & cq & -> & Hp & Hq). by apply Forall2_app.
Qed.

Lemma in_box_snoc combo p s q :
  in_box combo ((p ++ [s]) ++ q) <->
  exists cp x cq, combo = cp ++ x :: cq /\ in_box cp p /\ x ∈ s /\ in_box cq q.
Proof.
  rewrite <- app_assoc, in_box_app. simpl. setoid_rewrite in_box_cons. naive_solver.
Qed.

Lemma in_box_length combo b : in_box combo b -> length combo = length b.
Proof. apply Forall2_length. Qed.

Lemma elem_of_product combo b : combo ∈ product b <-> in_box combo b.
Proof.
  unfold in_box. revert combo. induction b as [|s b IH]; intros combo; simpl.
  - rewrite list_elem_of_singleton. split; [intros ->; constructor|by inversion 1].
  - rewrite list_elem_of_bind. split.
    + intros (x & (c & -> & Hc)%list_elem_of_fmap & Hx). constructor; [done|by apply IH].
    + inversion 1 as [|x ? c ? Hx Hc]; subst. exists x. split; [|done].
      apply (list_elem_of_fmap_2 (cons x)). by apply IH.
Qed.

(** ** The sweep splits a box *)

Definition accepts_slots (wildcard : list bool) (required : box) (combo : list Ty) : bool :=
  forallb (fun '(t, (w, req)) => w || contains req t) (zip combo (zip wildcard required)).

Abbreviation matched_of r := (r.1.1).
Abbreviation misses_of r := (r.2).

Lemma accepts_slots_cons w req wildcard required x combo :
  accepts_slots (w :: wildcard) (req :: required) (x :: combo) =
  (w || contains req x) && accepts_slots wildcard required combo.
Proof. done. Qed.

Lemma sweep_from_cons prefix s slots w req wildcard required :
  sweep_from prefix (s :: slots) (req :: required) (w :: wildcard) =
  (let inter := if w : bool then s else intersect s req in
   let remainder := if w then [] else subtract s req in
   let rest := sweep_from (prefix ++ [inter]) slots required wildcard in
   (inter :: matched_of rest, negb (is_nil remainder) :: rest.1.2,
    if negb (is_nil remainder) && inhabited_box (prefix ++ remainder :: slots)
    then (prefix ++ remainder :: slots) :: misses_of rest else misses_of rest)).
Proof. simpl. destruct w; by destruct (sweep_from _ _ _ _) as [[??]?]. Qed.

(** What the sweep matches is what the candidate accepts. *)
Lemma sweep_from_matched slots : forall prefix required wildcard combo,
  length required = length slots -> length wildcard = length slots ->
  in_box combo (matched_of (sweep_from prefix slots required wildcard)) <->
  in_box combo slots /\ accepts_slots wildcard required combo = true.
Proof.
  induction slots as [|s slots IH]; intros prefix [|req required] [|w wildcard] combo Hr Hw; try done.
  { split; [|by intros []]. intros Hc. split; [done|]. by inversion Hc. }
  injection Hr as Hr. injection Hw as Hw. rewrite sweep_from_cons. simpl.
  rewrite !in_box_cons. setoid_rewrite IH; [|done|done]. split.
  - intros (x & c & -> & Hx & Hc & Ha). rewrite accepts_slots_cons, Ha, andb_true_r.
    destruct w; [naive_solver|]. apply elem_of_intersect in Hx. naive_solver.
  - intros [(x & c & -> & Hx & Hc) Ha]. rewrite accepts_slots_cons, andb_true_iff in Ha.
    exists x, c. split_and!; [done| |done|by destruct Ha].
    destruct w; [done|]. apply elem_of_intersect. naive_solver.
Qed.

(** The piece cut off at one slot: what agrees with the prefix, misses here,
    and is anything after. *)
Lemma in_piece prefix s (w : bool) req slots full :
  in_box full (prefix ++ (if w then [] else subtract s req) :: slots) <->
  exists cp x combo, full = cp ++ x :: combo /\ in_box cp prefix /\ x ∈ s /\
    w || contains req x = false /\ in_box combo slots.
Proof.
  rewrite in_box_app. setoid_rewrite in_box_cons. split.
  - intros (cp & ? & -> & Hcp & x & combo & -> & Hx & Hc).
    destruct w; [by apply not_elem_of_nil in Hx|]. apply elem_of_subtract in Hx as [Hx Hn]. eauto 10.
  - intros (cp & x & combo & -> & Hcp & Hx & Hn & Hc). destruct w; [done|].
    exists cp, (x :: combo). split_and!; [done|done|]. exists x, combo.
    split_and!; [done|by apply elem_of_subtract|done].
Qed.

(** A piece that holds a combination is never dropped as empty. *)
Lemma piece_kept prefix (remainder : list Ty) slots full (ms : list box) :
  let piece := prefix ++ remainder :: slots in
  (exists q, q ∈ (if negb (is_nil remainder) && inhabited_box piece then piece :: ms else ms) /\
     in_box full q) <->
  in_box full piece \/ exists q, q ∈ ms /\ in_box full q.
Proof.
  simpl. split.
  - intros (q & Hq & Hf). destruct (negb _ && _); [|eauto].
    apply elem_of_cons in Hq as [->|?]; eauto.
  - intros [Hf|(q & Hq & Hf)].
    + rewrite (in_box_inhabited _ _ Hf), andb_true_r. eexists. split; [|exact Hf].
      apply in_box_app in Hf as (cp & ? & _ & _ & (x & c & _ & Hx & _)%in_box_cons).
      destruct remainder; [by apply not_elem_of_nil in Hx|left].
    + exists q. split; [|done]. destruct (negb _ && _); [by right|done].
Qed.

(** What the sweep leaves over is what the candidate does not accept. *)
Lemma sweep_from_misses slots : forall prefix required wildcard full,
  length required = length slots -> length wildcard = length slots ->
  (exists piece, piece ∈ misses_of (sweep_from prefix slots required wildcard) /\ in_box full piece) <->
  exists cp combo, full = cp ++ combo /\ in_box cp prefix /\ in_box combo slots /\
    accepts_slots wildcard required combo = false.
Proof.
  induction slots as [|s slots IH]; intros prefix [|req required] [|w wildcard] full Hr Hw; try done.
  { split; [by intros (? & ?%not_elem_of_nil & _)|].
    intros (cp & combo & _ & _ & Hc & Ha). by inversion Hc; subst. }
  injection Hr as Hr. injection Hw as Hw. rewrite sweep_from_cons. simpl.
  set (inter := if w then s else _). set (remainder := if w then [] else _).
  specialize (IH (prefix ++ [inter]) required wildcard full Hr Hw).
  set (rest := misses_of (sweep_from _ _ _ _)) in *.
  assert (Hinter : forall x, x ∈ inter <-> x ∈ s /\ w || contains req x = true).
  { intros x. subst inter. destruct w; [naive_solver|]. apply elem_of_intersect. }
  rewrite piece_kept.
  rewrite IH. unfold remainder. rewrite in_piece. split.
  - intros [(cp & x & combo & -> & Hcp & Hx & Hn & Hc)|(cpx & combo & -> & Hcpx & Hc & Ha)].
    + exists cp, (x :: combo). split_and!; [done|done|by constructor|].
      by rewrite accepts_slots_cons, Hn.
    + apply in_box_app in Hcpx as (cp & ? & -> & Hcp & (x & ? & -> & [Hx Hin]%Hinter & Hnil)%in_box_cons).
      inversion Hnil; subst. exists cp, (x :: combo). rewrite <- app_assoc.
      split_and!; [done|done|by constructor|]. by rewrite accepts_slots_cons, Hin.
  - intros (cp & ? & -> & Hcp & (x & combo & -> & Hx & Hc)%in_box_cons & Ha).
    rewrite accepts_slots_cons in Ha. destruct (w || contains req x) eqn:Hin; [right|left; eauto 10].
    exists (cp ++ [x]), combo. rewrite <- app_assoc. split_and!; [done| |done|done].
    apply in_box_app. exists cp, [x]. split_and!; [done|done|].
    apply in_box_cons. exists x, []. split_and!; [done|by apply Hinter|constructor].
Qed.

Lemma sweep_from_disjoint slots : forall prefix required wildcard,
  length required = length slots -> length wildcard = length slots ->
  disjoint_boxes (misses_of (sweep_from prefix slots required wildcard)).
Proof.
  induction slots as [|s slots IH]; intros prefix [|req required] [|w wildcard] Hr Hw; try done.
  injection Hr as Hr. injection Hw as Hw. rewrite sweep_from_cons. simpl.
  set (inter := if w then s else _).
  assert (Hcross : forall full q, q ∈ misses_of (sweep_from (prefix ++ [inter]) slots required wildcard) ->
    in_box full (prefix ++ (if w then [] else subtract s req) :: slots) -> ~ in_box full q).
  { intros full q Hq (cp & x & combo & -> & Hcp & Hx & Hn & Hc)%in_piece Hfq.
    destruct (proj1 (sweep_from_misses slots (prefix ++ [inter]) required wildcard _ Hr Hw)
      (ex_intro _ q (conj Hq Hfq))) as (cp' & c' & He & Hcp' & _).
    apply in_box_app in Hcp' as (c1 & ? & -> & Hc1 & (y & ? & -> & Hy & Hnil)%in_box_cons).
    inversion Hnil; subst. rewrite <- app_assoc in He.
    apply app_inj_1 in He as [-> [= -> ->]]; [|apply in_box_length in Hcp, Hc1; lia].
    subst inter. destruct w; [done|]. apply elem_of_intersect in Hy as [_ Hy]. simpl in Hn. congruence. }
  specialize (IH (prefix ++ [inter]) required wildcard Hr Hw).
  destruct (negb _ && _); [|done].
  intros [|i] [|j] p q combo Hp Hq Hcp Hcq; simpl in Hp, Hq; [done| | |f_equal; by eapply IH].
  - injection Hp as <-. destruct (Hcross combo q); [by eapply list_elem_of_lookup_2|done|done].
  - injection Hq as <-. destruct (Hcross combo p); [by eapply list_elem_of_lookup_2|done|done].
Qed.

(** One sweep splits a box exactly: the matched box holds the leaf
    combinations the candidate accepts, every other combination of the box is
    in one of the leftover pieces, and the pieces are pairwise disjoint. *)
Theorem sweep_partition slots required wildcard combo :
  length required = length slots -> length wildcard = length slots ->
  let '(matched, needs_check, misses) := sweep slots required wildcard in
  (in_box combo matched <->
     in_box combo slots /\ accepts_slots wildcard required combo = true) /\
  ((exists piece, piece ∈ misses /\ in_box combo piece) <->
     in_box combo slots /\ accepts_slots wildcard required combo = false) /\
  disjoint_boxes misses.
Proof.
  intros Hr Hw. unfold sweep.
  pose proof (sweep_from_matched slots [] required wildcard combo Hr Hw) as Hm.
  pose proof (sweep_from_misses slots [] required wildcard combo Hr Hw) as Hms.
  pose proof (sweep_from_disjoint slots [] required wildcard Hr Hw) as Hd.
  destruct (sweep_from [] slots required wildcard) as [[m n] ms]. simpl in *.
  split_and!; [done| |done]. rewrite Hms. split.
  - intros (cp & c & -> & Hcp & Hc & Ha). inversion Hcp; subst. done.
  - intros [Hc Ha]. exists [], combo. split_and!; [done|constructor|done|done].
Qed.

(** ** The sweep of the whole group *)

(** Some box of the list holds the combination. *)
Definition covered (states : list box) (combo : list Ty) : Prop :=
  exists b, b ∈ states /\ in_box combo b.

Definition sized (n : nat) (states : list box) : Prop := Forall (fun b => length b = n) states.

Lemma covered_app p q combo : covered (p ++ q) combo <-> covered p combo \/ covered q combo.
Proof. unfold covered. setoid_rewrite elem_of_app. naive_solver. Qed.

Lemma covered_nil combo : ~ covered [] combo.
Proof. by intros (b & ?%not_elem_of_nil & _). Qed.

Lemma covered_singleton b combo : covered [b] combo <-> in_box combo b.
Proof. unfold covered. setoid_rewrite list_elem_of_singleton. naive_solver. Qed.

Lemma accepts_slots_eq c combo : accepts c combo = accepts_slots (c_wildcard c) (c_required c) combo.
Proof. done. Qed.

Lemma sweep_from_sized slots : forall prefix required wildcard,
  length required = length slots -> length wildcard = length slots ->
  sized (length prefix + length slots) (misses_of (sweep_from prefix slots required wildcard)).
Proof.
  induction slots as [|s slots IH]; intros prefix [|req required] [|w wildcard] Hr Hw; try done.
  { by constructor. }
  injection Hr as Hr. injection Hw as Hw. rewrite sweep_from_cons. simpl.
  specialize (IH (prefix ++ [if w then s else intersect s req]) required wildcard Hr Hw).
  rewrite length_app in IH. simpl in IH. rewrite <- Nat.add_assoc in IH. simpl in IH.
  destruct (negb _ && _); [|done]. constructor; [|done].
  by rewrite length_app.
Qed.

(** One sweep, as the loops use it. *)
Lemma sweep_covers n c state : aligned n c -> length state = n ->
  let r := sweep state (c_required c) (c_wildcard c) in
  (forall combo, in_box combo (matched_of r) <-> in_box combo state /\ accepts c combo = true) /\
  (forall combo, covered (misses_of r) combo <-> in_box combo state /\ accepts c combo = false) /\
  sized n (misses_of r) /\ disjoint_boxes (misses_of r).
Proof.
  intros (Hr & Hw & _ & _) <-. simpl. unfold sweep. split_and!.
  - intros combo. by apply sweep_from_matched.
  - intros combo. unfold covered. rewrite sweep_from_misses by done. split.
    + intros (cp & cq & -> & Hcp & Hcq & Ha). inversion Hcp; subst. done.
    + intros [Hc Ha]. exists [], combo. split_and!; [done|constructor|done|done].
  - by apply (sweep_from_sized state []).
  - by apply sweep_from_disjoint.
Qed.

Lemma sweep_one_ok c next state s r s' :
  sweep_one c next state s = (Ok r, s') ->
  r = next ++ misses_of (sweep state (c_required c) (c_wildcard c)).
Proof.
  unfold sweep_one. destruct (sweep _ _ _) as [[m n] ms]. simpl. intros E0.
  inv_bind E0. inv_bind E0. by apply ret_inv in E0 as [<- _].
Qed.

Lemma sweep_tied_ok pc originals rep group next state s r s' :
  sweep_tied pc originals rep group next state s = (Ok r, s') ->
  let sw := sweep state (c_required rep) (c_wildcard rep) in
  r = next ++ misses_of sw ++
    (if inhabited_box (matched_of sw) && is_nil (List.filter (conforms pc originals) group)
     then [state] else []).
Proof.
  unfold sweep_tied. destruct (sweep _ _ _) as [[m n] ms]. simpl. intros E0.
  inv_bind E0. destruct (inhabited_box m); simpl in *.
  - destruct (List.filter _ _).
    + by apply ret_inv in E0 as [<- _].
    + inv_bind E0. rewrite app_nil_r. by apply ret_inv in E0 as [<- _].
  - rewrite app_nil_r. by apply ret_inv in E0 as [<- _].
Qed.

(** A loop over the states that replaces each by boxes covering the part of it
    that [claims] does not take. *)
Lemma mfold_covers (claims : list Ty -> bool) n f (states : list box) (s : Progress) r s' :
  (forall next state s r s', length state = n -> f next state s = (Ok r, s') ->
    exists out, r = next ++ out /\ sized n out /\
      forall combo, covered out combo <-> in_box combo state /\ claims combo = false) ->
  sized n states -> mfold (E:=error) f states [] s = (Ok r, s') ->
  sized n r /\ forall combo, covered r combo <-> covered states combo /\ claims combo = false.
Proof.
  intros Hf Hn E0. unfold sized in Hn.
  apply (mfold_invariant (fun done r _ => sized n r /\
    forall combo, covered r combo <-> covered done combo /\ claims combo = false)
    f states) with (2 := conj (Forall_nil_2 _) (fun combo =>
      conj (fun Hc => False_ind _ (covered_nil _ Hc)) (fun Hc => proj1 Hc))) in E0; [done|].
  intros done x a s1 a' s1' Hin [Hsz Hcov] E1.
  assert (length x = n) as Hx by (rewrite Forall_forall in Hn; by apply Hn).
  destruct (Hf _ _ _ _ _ Hx E1) as (out & -> & Hsz' & Hout). split; [by apply Forall_app|].
  intros combo. rewrite !covered_app, Hcov, Hout, covered_singleton. tauto.
Qed.

Lemma sweep_candidate_covers n c states s r s' : aligned n c -> sized n states ->
  sweep_candidate states c s = (Ok r, s') ->
  sized n r /\ forall combo, covered r combo <-> covered states combo /\ accepts c combo = false.
Proof.
  intros Hal Hsz E0. refine (mfold_covers (accepts c) n _ _ _ _ _ _ Hsz E0).
  intros next state s1 r1 s1' Hl ->%sweep_one_ok.
  destruct (sweep_covers n c state Hal Hl) as (_ & Hms & Hs & _). eauto.
Qed.

(** What a run of tied candidates takes. *)
Definition group_claims (originals : list Ty) (group : list Candidate) (combo : list Ty) : bool :=
  match group, protocol_conforms with
  | rep :: _ :: _, Some pc =>
      accepts rep combo && negb (is_nil (List.filter (conforms pc originals) group))
  | _, _ => existsb (fun c => accepts c combo) group
  end.

Lemma sweep_candidates_cover n group states s r s' : Forall (aligned n) group -> sized n states ->
  mfold sweep_candidate group states s = (Ok r, s') ->
  sized n r /\ forall combo, covered r combo <->
    covered states combo /\ existsb (fun c => accepts c combo) group = false.
Proof.
  intros Hal Hsz E0.
  apply (mfold_invariant (fun done r _ => sized n r /\ forall combo, covered r combo <->
    covered states combo /\ existsb (fun c => accepts c combo) done = false)
    sweep_candidate group) in E0; [done| |split; [done|naive_solver]].
  intros done x a s1 a' s1' Hin [Hsz1 Hcov] E1.
  assert (aligned n x) as Hx by (rewrite Forall_forall in Hal; by apply Hal).
  destruct (sweep_candidate_covers n x a s1 a' s1' Hx Hsz1 E1) as [Hsz2 Hcov2]. split; [done|].
  intros combo. rewrite Hcov2, Hcov, existsb_app, orb_false_iff. simpl. rewrite orb_false_r. tauto.
Qed.

Lemma sweep_group_covers n originals group states s r s' :
  Forall (aligned n) group -> sized n states ->
  sweep_group originals states group s = (Ok r, s') ->
  sized n r /\ forall combo, covered r combo <->
    covered states combo /\ group_claims originals group combo = false.
Proof.
  intros Hal Hsz E0. unfold sweep_group, group_claims in *.
  destruct group as [|rep [|c2 group]]; [by eapply sweep_candidates_cover..|].
  destruct protocol_conforms as [pc|]; [|by eapply sweep_candidates_cover].
  refine (mfold_covers (fun combo => accepts rep combo && _) n _ _ _ _ _ _ Hsz E0).
  clear E0 s r s'. intros next state s r s' Hl E1. apply sweep_tied_ok in E1. simpl in E1.
  destruct (sweep_covers n rep state (Forall_inv Hal) Hl) as (Hm & Hms & Hs & _).
  eexists. split; [exact E1|]. clear E1. split.
  { apply Forall_app. split; [done|]. destruct (_ && _); by repeat constructor. }
  intros combo. rewrite covered_app, Hms.
  destruct (is_nil _) eqn:Hnil; simpl.
  - rewrite !andb_false_r, andb_true_r. destruct (inhabited_box _) eqn:Hin.
    + rewrite covered_singleton. tauto.
    + split; [intros [?|?%covered_nil]; tauto|]. intros [Hc _]. left. split; [done|].
      destruct (accepts rep combo) eqn:Ha; [|done].
      rewrite (in_box_inhabited combo) in Hin; [done|]. by apply Hm.
  - rewrite !andb_true_r, andb_false_r. split; [intros [?|?%covered_nil]; tauto|tauto].
Qed.

Lemma sweep_groups_cover n originals groups states s r s' :
  Forall (Forall (aligned n)) groups -> sized n states ->
  mfold (sweep_group originals) groups states s = (Ok r, s') ->
  sized n r /\ forall combo, covered r combo <->
    covered states combo /\ existsb (fun g => group_claims originals g combo) groups = false.
Proof.
  intros Hal Hsz E0.
  apply (mfold_invariant (fun done r _ => sized n r /\ forall combo, covered r combo <->
    covered states combo /\ existsb (fun g => group_claims originals g combo) done = false)
    (sweep_group originals) groups) in E0; [done| |split; [done|naive_solver]].
  intros done x a s1 a' s1' Hin [Hsz1 Hcov] E1.
  assert (Forall (aligned n) x) as Hx by (rewrite Forall_forall in Hal; by apply Hal).
  destruct (sweep_group_covers n originals x a s1 a' s1' Hx Hsz1 E1) as [Hsz2 Hcov2]. split; [done|].
  intros combo. rewrite Hcov2, Hcov, existsb_app, orb_false_iff. simpl. rewrite orb_false_r. tauto.
Qed.

(** ** The candidates of a call *)

Lemma traverse_Forall2 {E A B} (f : A -> result E B) l l' :
  traverse f l = Ok l' -> Forall2 (fun x y => f x = Ok y) l l'.
Proof.
  revert l'. induction l as [|x l IH]; intros l' E0; simpl in E0; [injection E0 as <-; constructor|].
  destruct (f x) eqn:Ex; [|done]. simpl in E0.
  destruct (traverse f l); [|done]. simpl in E0. injection E0 as <-. constructor; auto.
Qed.

Lemma traverse_length {E A B} (f : A -> result E B) l l' : traverse f l = Ok l' -> length l' = length l.
Proof. intros E0%traverse_Forall2. symmetry. by eapply Forall2_length. Qed.

Lemma translate_indices_mapM params slots indices :
  translate_indices params slots = Some indices -> mapM (slot_index params) slots = Some indices.
Proof.
  unfold translate_indices. intros (l & E0 & E1)%bind_Some. destruct (forallb _ _); by simplify_eq.
Qed.

Lemma build_candidate_aligned st slots targets m c :
  build_candidate st slots targets m = Ok (Some c) -> aligned (length slots) c.
Proof.
  unfold build_candidate. destruct (translate_indices _ _) as [indices|] eqn:Ei; [|done].
  apply translate_indices_mapM, length_mapM in Ei.
  destruct (traverse (nth_param _) indices) as [own|] eqn:Eo; [|done]. simpl.
  destruct (traverse declared_type own) as [types|] eqn:Et; [|done]. simpl. intros [= <-].
  apply traverse_length in Eo, Et. unfold aligned. simpl.
  rewrite !length_map, length_zip. lia.
Qed.

Lemma build_candidates_member st ms slots targets cs c :
  build_candidates st ms slots targets = Ok cs -> c ∈ cs ->
  exists m, build_candidate st slots targets m = Ok (Some c).
Proof.
  unfold build_candidates. destruct (traverse _ _) as [os|] eqn:Eo; [|done]. intros [= <-].
  apply traverse_Forall2 in Eo. intros ([c'|] & Hc & [= ->])%list_elem_of_omap.
  apply list_elem_of_lookup in Hc as [i Hi].
  destruct (Forall2_lookup_r _ _ _ _ _ Eo Hi) as (m & _ & Hm). eauto.
Qed.

Lemma build_candidates_aligned st ms slots targets cs :
  build_candidates st ms slots targets = Ok cs -> Forall (aligned (length slots)) cs.
Proof.
  intros Eb. rewrite Forall_forall. intros c Hc.
  destruct (build_candidates_member _ _ _ _ _ _ Eb Hc) as [m Hm]. by eapply build_candidate_aligned.
Qed.

(** Grouping only brackets the candidates: none is lost, reordered or repeated. *)
Lemma tied_run_app c l : (tied_run c l).1 ++ (tied_run c l).2 = l.
Proof.
  induction l as [|d l IH]; simpl; [done|]. destruct (_ && _); [|done].
  destruct (tied_run c l) as [run rest]. simpl in *. by rewrite IH.
Qed.

Lemma group_from_concat fuel l : length l <= fuel -> concat (group_from fuel l) = l.
Proof.
  revert l. induction fuel as [|fuel IH]; intros [|c l] Hl; simpl in *; [done|lia|done|].
  destruct (any_wildcard c); simpl; [|by rewrite IH by lia].
  pose proof (tied_run_app c l) as Happ. destruct (tied_run c l) as [run rest]. simpl in *.
  rewrite IH; [by rewrite Happ|]. rewrite <- Happ, length_app in Hl. lia.
Qed.

Lemma group_concat l : concat (group_tied_wildcard_candidates l) = l.
Proof. by apply group_from_concat. Qed.

Lemma Forall_concat_inv {A} (P : A -> Prop) (ls : list (list A)) :
  Forall P (concat ls) -> Forall (Forall P) ls.
Proof. induction ls as [|l ls IH]; simpl; [constructor|]. intros [? ?]%Forall_app. constructor; auto. Qed.

(** A singleton group or no injected [protocol_conforms]: some member accepts. *)
Lemma group_claims_accepts originals group combo : protocol_conforms = None ->
  group_claims originals group combo = existsb (fun c => accepts c combo) group.
Proof. intros Hpc. unfold group_claims. rewrite Hpc. by destruct group as [|? []]. Qed.

Lemma existsb_concat {A} (f : A -> bool) (ls : list (list A)) :
  existsb (existsb f) ls = existsb f (concat ls).
Proof. induction ls as [|l ls IH]; simpl; [done|]. by rewrite IH, existsb_app. Qed.

(** ** What is left to the plain implementations *)

Lemma assign_combo_spec plains combos : forall acc,
  let out := foldl (assign_combo plains) acc combos in
  unresolved out = unresolved acc ++
    omap (fun combo => match found_plains plains combo with
                       | [_] => None | found => Some (combo, map c_target found) end) combos /\
  combo_targets out = combo_targets acc ++
    omap (fun combo => match found_plains plains combo with
                       | [c] => Some (combo, c_target c) | _ => None end) combos.
Proof.
  induction combos as [|combo combos IH]; intros acc; simpl; [by rewrite !app_nil_r|].
  destruct (IH (assign_combo plains acc combo)) as [-> ->]. unfold assign_combo.
  destruct (found_plains plains combo) as [|c [|d l]]; simpl; by rewrite <- ?app_assoc.
Qed.

Lemma assign_states_spec plains states : forall acc s out s',
  mfold (assign_state plains) states acc s = (Ok out, s') ->
  out = foldl (assign_combo plains) acc (concat (map product states)) /\ matches s' = matches s.
Proof.
  induction states as [|b states IH]; intros acc s out s' E0; simpl in E0.
  { apply ret_inv in E0 as [<- <-]. done. }
  inv_bind E0. apply IH in E0 as [-> ->].
  unfold assign_state in E1. inv_bind E1. apply ret_inv in E1 as [<- <-].
  simpl. rewrite foldl_app. split; [done|].
  unfold spend in E0. rewrite bind_modify in E0. unfold bind, get in E0. simpl in E0.
  destruct (_ <? 0)%Z; [done|]. by apply ret_inv in E0 as [_ <-].
Qed.

Lemma elem_of_products states combo : combo ∈ concat (map product states) <-> covered states combo.
Proof.
  rewrite list_elem_of_In, in_concat. unfold covered. split.
  - intros (? & (b & <- & Hb)%in_map_iff & Hc). exists b.
    by rewrite <- !list_elem_of_In, elem_of_product in *.
  - intros (b & Hb & Hc). exists (product b). rewrite in_map_iff.
    rewrite <- elem_of_product, list_elem_of_In in Hc. rewrite list_elem_of_In in Hb. eauto.
Qed.

(** Who serves a combination among the plain implementations. *)
Definition unique_plain (plains : list Candidate) (combo : list Ty) : option Candidate :=
  match found_plains plains combo with [c] => Some c | _ => None end.

Lemma unresolved_iff plains states combo found :
  (combo, found) ∈ unresolved (foldl (assign_combo plains) (mkLeftover [] []) (concat (map product states))) <->
  covered states combo /\ unique_plain plains combo = None /\
  found = map c_target (found_plains plains combo).
Proof.
  rewrite (proj1 (assign_combo_spec _ _ _)). simpl. rewrite list_elem_of_omap.
  setoid_rewrite elem_of_products. unfold unique_plain. split.
  - intros (x & Hx & E0). destruct (found_plains plains x) as [|c [|d l]] eqn:Ef; simplify_eq;
      by rewrite Ef.
  - intros (Hc & Hu & ->). exists combo. split; [done|].
    by destruct (found_plains plains combo) as [|c [|d l]].
Qed.

(** ** The order members are tried in *)

Lemma key_le_total a b : key_le a b = false -> key_le b a = true.
Proof.
  unfold key_le. destruct a as [[] x], b as [[] y]; simpl; try done; rewrite Z.leb_gt, Z.leb_le; lia.
Qed.

Lemma key_le_trans a b c : key_le a b = true -> key_le b c = true -> key_le a c = true.
Proof.
  unfold key_le. destruct a as [[] x], b as [[] y], c as [[] z]; simpl; try done; rewrite !Z.leb_le; lia.
Qed.

Lemma key_le_refl a : key_le a a = true.
Proof. unfold key_le. destruct a as [[] x]; simpl; apply Z.leb_refl. Qed.

Definition ordered (st : Store) : list FnId -> Prop :=
  StronglySorted (fun x y => key_le (sort_key (st x)) (sort_key (st y)) = true).

Lemma insert_by_perm st x l : insert_by st x l ≡ₚ x :: l.
Proof.
  induction l as [|y l IH]; simpl; [done|]. destruct (key_le _ _); [done|].
  rewrite IH. by constructor.
Qed.

Lemma insert_by_ordered st x l : ordered st l -> ordered st (insert_by st x l).
Proof.
  induction 1 as [|y l Hs IH Hy]; simpl; [by repeat constructor|].
  destruct (key_le (sort_key (st x)) (sort_key (st y))) eqn:E0.
  - constructor; [by constructor|]. constructor; [done|].
    eapply Forall_impl; [exact Hy|]. intros z. by apply key_le_trans.
  - constructor; [done|]. rewrite insert_by_perm. constructor; [by apply key_le_total|done].
Qed.

Lemma insert_by_stable st x l k :
  List.filter (fun f => bool_decide (sort_key (st f) = k)) (insert_by st x l) =
  List.filter (fun f => bool_decide (sort_key (st f) = k)) (x :: l).
Proof.
  induction l as [|y l IH]; simpl; [done|].
  destruct (key_le _ _) eqn:E0; [done|]. simpl. rewrite IH. simpl.
  case_bool_decide as Hx; case_bool_decide as Hy; try done.
  rewrite Hx, Hy, key_le_refl in E0. done.
Qed.

(** The members are tried in the order of their key: a permutation of the
    declared ones, members with a bare type parameter after all concrete ones,
    earlier lines first, ties in their original order. *)
Theorem overload_members_order st stubs implementations :
  let all := stubs ++ List.filter (fun f => f_is_overload (st f)) implementations in
  let members := overload_members st stubs implementations in
  members ≡ₚ all /\ ordered st members /\
  forall k, List.filter (fun f => bool_decide (sort_key (st f) = k)) members =
            List.filter (fun f => bool_decide (sort_key (st f) = k)) all.
Proof.
  simpl. unfold overload_members. generalize (stubs ++ List.filter (fun f => f_is_overload (st f)) implementations).
  intros l. induction l as [|x l (Hp & Ho & Hk)]; simpl; [split_and!; [done|constructor|done]|].
  split_and!.
  - by rewrite insert_by_perm, Hp.
  - by apply insert_by_ordered.
  - intros k. rewrite insert_by_stable. simpl. by rewrite Hk.
Qed.

(** ** A stub covers a call *)

Lemma covers_slots_spec params al : forall slots indices own types,
  length slots = length indices ->
  traverse (nth_param params) indices = Ok own -> traverse declared_type own = Ok types ->
  covers_slots params al (zip slots indices) =
    Ok (forallb (fun '(k, t) => forallb (contains (leaves t)) (al k)) (zip slots types)).
Proof.
  intros slots indices own types Hl Ho%traverse_Forall2. revert slots types Hl.
  induction Ho as [|i p indices own Hi _ IH]; intros [|k slots] types Hl Ht; try done; simpl in *.
  rewrite Hi. simpl. destruct (declared_type p) as [t|]; [|done]. simpl in *.
  destruct (traverse declared_type own) as [ts|]; [|done]. simpl in Ht. injection Ht as <-. simpl.
  destruct (forallb _ (al k)); [|done]. apply IH; [lia|done].
Qed.

Lemma box_accepted types : forall boxes,
  length boxes = length types -> existsb is_typevar types = false -> inhabited_box boxes = true ->
  (forall combo, in_box combo boxes ->
     accepts_slots (map is_typevar types) (map leaves types) combo = true) <->
  forallb (fun '(s, t) => forallb (contains (leaves t)) s) (zip boxes types) = true.
Proof.
  induction types as [|t types IH]; intros [|s boxes] Hl Hw Hin; try done.
  { simpl. split; [done|]. intros _ combo Hc. by inversion Hc; subst. }
  simpl in Hw. apply orb_false_iff in Hw as [Hwt Hw]. simpl map. rewrite Hwt.
  unfold inhabited_box in Hin. simpl in Hin. apply andb_true_iff in Hin as [Hs Hin].
  simpl. rewrite andb_true_iff, <- (IH boxes) by (done || (simpl in Hl; lia)). rewrite forallb_forall.
  setoid_rewrite <- list_elem_of_In. split.
  - intros Hall. split.
    + intros x Hx. assert (exists combo, in_box combo boxes) as [combo Hc].
      { clear -Hin. induction boxes as [|[|y l] boxes IH]; [exists []; constructor|done|].
        simpl in Hin. destruct (IH Hin) as [combo Hc]. exists (y :: combo).
        constructor; [left|done]. }
      specialize (Hall (x :: combo) ltac:(by constructor)). rewrite accepts_slots_cons in Hall.
      by apply andb_true_iff in Hall as [? _].
    + intros combo Hc. destruct s as [|x s]; [done|].
      specialize (Hall (x :: combo) ltac:(constructor; [left|done])). rewrite accepts_slots_cons in Hall.
      by apply andb_true_iff in Hall as [_ ?].
  - intros [Hx Hc] combo (x & c & -> & Hxs & Hcs)%in_box_cons.
    rewrite accepts_slots_cons, (Hx x Hxs), (Hc c Hcs). done.
Qed.

(** [stub_covers_call] answers [True] exactly when the stub, taken as a
    candidate of the call, accepts every leaf combination of its arguments. *)
Theorem stub_covers_call_accepts st call_slots targets stub c arg_leaves :
  build_candidate st call_slots targets stub = Ok (Some c) -> any_wildcard c = false ->
  inhabited_box (map arg_leaves call_slots) = true ->
  stub_covers_call (st stub) call_slots arg_leaves = Ok true <->
  forall combo, in_box combo (map arg_leaves call_slots) -> accepts c combo = true.
Proof.
  intros Hb Hw Hin. unfold build_candidate in Hb. unfold stub_covers_call.
  destruct (translate_indices _ _) as [indices|] eqn:Et; [|done].
  apply translate_indices_mapM, length_mapM in Et.
  destruct (traverse (nth_param _) _) as [own|] eqn:Eo; [|done]. simpl in Hb.
  destruct (traverse declared_type own) as [types|] eqn:Ety; [|done]. injection Hb as <-.
  rewrite (covers_slots_spec _ _ _ _ _ _ Et Eo Ety). unfold any_wildcard in Hw. simpl in Hw.
  apply traverse_length in Eo, Ety.
  assert (existsb is_typevar types = false) as Hw'.
  { rewrite <- Hw. clear. induction types as [|t types IH]; simpl; [done|]. by rewrite IH. }
  transitivity (forallb (fun '(s, t) => forallb (contains (leaves t)) s)
      (zip (map arg_leaves call_slots) types) = true).
  - assert (forall slots ts, forallb (fun '(k, t) => forallb (contains (leaves t)) (arg_leaves k)) (zip slots ts)
      = forallb (fun '(s, t) => forallb (contains (leaves t)) s) (zip (map arg_leaves slots) ts)) as ->.
    { intros slots. induction slots as [|k slots IH]; intros [|t ts]; simpl; [done..|]. by rewrite IH. }
    split; [by intros [= ->]|by intros ->].
  - symmetry. apply box_accepted; [rewrite length_map; lia|done|done].
Qed.

End box_facts.

(** ** A sample program *)

(** Types compared by identity, no protocols, everything resolved. *)
Definition plain_injected : Injected :=
  Build_Injected (fun a b => bool_decide (a = b)) None (fun _ => None) (fun _ st => Ok st).

Definition sample_class (name : string) : Ty := RCClass name.
Definition sample_union (ts : list Ty) : Ty := TaggedUnion "U" "U" [] (map (fun t => ("v", t)) ts).

Definition sample_fn (name : string) (params : list (string * Ty * bool)) (line : Z) (is_overload : bool)
    (bound_to : option FnId) : Function :=
  mkFunction name (Some (map (fun '(n, t, d) => mkParam n (Some t) d) params)) line is_overload false
    bound_to false.

(** Two classes, and a group with one specific and one broad member. *)
Definition tyA : Ty := sample_class "A".
Definition tyB : Ty := sample_class "B".
Definition tyC : Ty := sample_class "C".
Definition tyAB : Ty := sample_union [tyA; tyB].

Lemma sweep_partition_witness :
  let '(matched, needs_check, misses) :=
    @sweep plain_injected [[tyA; tyB]; [tyA; tyB]] [[tyA]; [tyA]] [false; false] in
  (exists piece, piece ∈ misses /\ in_box [tyB; tyA] piece) /\ disjoint_boxes misses.
Proof.
  destruct (@sweep_partition plain_injected [[tyA; tyB]; [tyA; tyB]] [[tyA]; [tyA]] [false; false]
    [tyB; tyA] eq_refl eq_refl) as (_ & Hmiss & Hd).
  split; [|exact Hd]. apply Hmiss. split; [repeat constructor|reflexivity].
Defined.

Definition sample_stub : Function := sample_fn "foo" [("v", tyA, false)] 1 true (Some 1).
Definition sample_impl : Function := sample_fn "foo" [("v", tyAB, false)] 2 false None.
Definition sample_store : Store := fun f => if decide (f = 0) then sample_stub else sample_impl.
Definition sample_candidate : Candidate :=
  mkCandidate 0 1 [[tyA]] [mkParam "v" (Some tyAB) false] [false] [tyA].

Lemma stub_covers_call_accepts_witness :
  @stub_covers_call plain_injected sample_stub [Pos 0] (fun _ => [tyA; tyB]) <> Ok true.
Proof.
  intros Hc. destruct (@stub_covers_call_accepts plain_injected sample_store [Pos 0] (fun _ => 1) 0
    sample_candidate (fun _ => [tyA; tyB]) eq_refl eq_refl eq_refl) as [Hall _].
  assert (@accepts plain_injected sample_candidate [tyB] = true) as Hb.
  { apply (Hall Hc [tyB]). repeat constructor. }
  discriminate Hb.
Defined.
