(* ===== verification/OverloadDispatch.v ===== *)
(** * What a resolved overloaded call does

    The meaning of the plan [overload_resolution.resolve_call] returns, as
    [lowering_calls._lower_conditional_dispatch] lowers it: the branches are
    tried in order, a branch's conditions are tag tests on the operands the
    call passes, and the default runs when no branch does.  The reference is
    the first [@overload] candidate that accepts the leaf combination, else
    the only plain implementation that does. *)

From S2P Require Import Prelude MpyTypes OverloadResolution.

Local Open Scope monad_scope.

(** ** The reference *)

Section reference.
Context `{Injected}.

(** The member of a group that takes a combination.  Where the caller checks
    protocols, members that differ only in the bounds of their type variables
    are tied: the first whose bounds the argument types of the call meet. *)
Definition first_taker (originals : list Ty) (combo : list Ty) (group : list Candidate) : option Candidate :=
  match group, protocol_conforms with
  | rep :: _ :: _, Some pc => if accepts rep combo then List.find (conforms pc originals) group else None
  | _, _ => List.find (fun c => accepts c combo) group
  end.

Fixpoint first_member (originals : list Ty) (combo : list Ty) (groups : list (list Candidate))
    : option Candidate :=
  match groups with
  | [] => None
  | g :: gs =>
      match first_taker originals combo g with
      | Some c => Some c
      | None => first_member originals combo gs
      end
  end.

(** Whom a combination of leaves belongs to. *)
Definition reference (originals : list Ty) (overloads plains : list Candidate) (combo : list Ty)
    : option FnId :=
  match first_member originals combo (group_tied_wildcard_candidates overloads) with
  | Some c => Some (c_target c)
  | None => c_target <$> unique_plain plains combo
  end.

(** ** The lowered plan *)

(** [_dispatch_operand_for_param]: the operand that feeds a parameter. *)
Definition dispatch_operand {A} (st : Store) (target : FnId) (param : Param)
    (args : list A) (kwargs : dict A) : option A :=
  match dict_get (p_stem param) kwargs with
  | Some v => Some v
  | None =>
      '(index, _) ← list_find (fun p => p = param) (params_of (st target));
      args !! index
  end.

(** [_lower_dispatch_tests]: all the tests of a branch, on the leaves the
    operands hold at run time; [None] when an operand cannot be located. *)
Definition branch_taken (st : Store) (args : list Ty) (kwargs : dict Ty)
    (b : ConditionalDispatch) : option bool :=
  tests ← mapM (fun '(param, leaf) =>
      v ← dispatch_operand st (dispatch_function b) param args kwargs;
      Some (same_type v leaf)) (conditions b);
  Some (forallb id tests).

(** [_lower_conditional_dispatch]: the function the lowered call reaches. *)
Definition run_plan (st : Store) (plan : Plan) (args : list Ty) (kwargs : dict Ty) : option FnId :=
  taken ← mapM (branch_taken st args kwargs) (branches plan);
  Some (match List.find snd (zip (branches plan) taken) with
        | Some (b, _) => dispatch_function b
        | None => plan_default plan
        end).

End reference.

(** ** Nothing is lost *)

Section coverage.
Context `{Injected}.

(** What the two halves of the resolution serve. *)
Definition served (overloads plains : list Candidate) (originals : list Ty) (combo : list Ty) : Prop :=
  existsb (fun g => group_claims originals g combo) (group_tied_wildcard_candidates overloads) = true \/
  is_Some (unique_plain plains combo).

Definition not_unresolved (e : error) : Prop := match e with Unresolved _ => False | _ => True end.

Lemma spend_error n s e s' : spend n s = (Err e, s') -> not_unresolved e.
Proof.
  unfold spend. rewrite bind_modify. unfold bind, get. destruct (_ <? 0)%Z; [|done]. by intros [= <- _].
Qed.

Lemma full_match_error ps : forall i matched needs e,
  full_match_conditions i matched needs ps = Err e -> not_unresolved e.
Proof.
  induction ps as [|p ps IH]; intros i [|slot matched] [|need needs] e E0; try done.
  simpl in E0. destruct (slot_condition i slot need p) as [|e1] eqn:E1; simpl in E0.
  - destruct (full_match_conditions (S i) matched needs ps) eqn:E2; [done|].
    injection E0 as <-. by eapply IH.
  - injection E0 as <-. unfold slot_condition in E1. destruct need; [|done].
    by destruct slot as [|? []]; simplify_eq.
Qed.

Lemma record_full_match_error c m n s e s' : record_full_match c m n s = (Err e, s') -> not_unresolved e.
Proof.
  unfold record_full_match. intros [E0|(? & ? & _ & E0)]%bind_err_inv; [|done].
  unfold lift in E0. injection E0 as E0 _. by eapply full_match_error.
Qed.

Lemma sweep_one_error c next b s e s' : sweep_one c next b s = (Err e, s') -> not_unresolved e.
Proof.
  unfold sweep_one. destruct (sweep _ _ _) as [[m n] ms].
  intros [E0|(? & ? & _ & [E0|(? & ? & _ & E0)]%bind_err_inv)]%bind_err_inv; [by eapply spend_error| |done].
  destruct (inhabited_box m); [by eapply record_full_match_error|done].
Qed.

Lemma sweep_tied_error pc os rep g next b s e s' :
  sweep_tied pc os rep g next b s = (Err e, s') -> not_unresolved e.
Proof.
  unfold sweep_tied. destruct (sweep _ _ _) as [[m n] ms].
  intros [E0|(? & ? & _ & E0)]%bind_err_inv; [by eapply spend_error|].
  destruct (inhabited_box m); [|done]. destruct (List.filter _ _); [done|].
  apply bind_err_inv in E0 as [E0|(? & ? & _ & E0)]; [by eapply record_full_match_error|done].
Qed.

Lemma sweep_group_error os states g s e s' : sweep_group os states g s = (Err e, s') -> not_unresolved e.
Proof.
  assert (Hg : forall g states s, mfold sweep_candidate g states s = (Err e, s') -> not_unresolved e).
  { intros g' states' s1. apply (mfold_error not_unresolved). intros a c s2 e2 s2'.
    apply (mfold_error not_unresolved). intros. by eapply sweep_one_error. }
  unfold sweep_group. destruct g as [|rep [|]]; [apply Hg..|].
  destruct protocol_conforms; [|apply Hg].
  apply (mfold_error not_unresolved). intros. by eapply sweep_tied_error.
Qed.

Lemma plain_match_error plains combos t s e s' : plain_match plains combos t s = (Err e, s') -> not_unresolved e.
Proof. unfold plain_match. destruct (List.find _ _); [done|]. by intros [= <- _]. Qed.

Lemma plan_of_error ms e : plan_of ms = Err e -> not_unresolved e.
Proof. unfold plan_of. destruct ms as [|? []]; [|done..]. by intros [= <-]. Qed.

Lemma assign_states_error plains states acc s e s' :
  mfold (assign_state plains) states acc s = (Err e, s') -> not_unresolved e.
Proof.
  apply (mfold_error not_unresolved). intros a b s1 e1 s1'. unfold assign_state.
  intros [E0|(? & ? & _ & E0)]%bind_err_inv; [by eapply spend_error|done].
Qed.

(** The states left after the overload members: exactly what no group claims. *)
Lemma remaining_states n overloads originals s states s' :
  Forall (aligned n) overloads -> length originals = n ->
  mfold (sweep_group originals) (group_tied_wildcard_candidates overloads) [map leaves originals] s
    = (Ok states, s') ->
  forall combo, covered states combo <-> in_box combo (map leaves originals) /\
    existsb (fun g => group_claims originals g combo) (group_tied_wildcard_candidates overloads) = false.
Proof.
  intros Hal Hl E0 combo. rewrite <- covered_singleton.
  refine (proj2 (sweep_groups_cover n _ _ _ _ _ _ _ _ E0) combo).
  - apply Forall_concat_inv. by rewrite group_concat.
  - constructor; [by rewrite length_map|done].
Qed.

Lemma resolve_with_ok n overloads plains originals s plan s' :
  Forall (aligned n) overloads -> length originals = n ->
  resolve_with overloads plains originals s = (Ok plan, s') ->
  forall combo, in_box combo (map leaves originals) -> served overloads plains originals combo.
Proof.
  intros Hal Hl E0 combo Hc. unfold resolve_with in E0. inv_bind E0. inv_bind E0.
  unfold record_plains in E2. inv_bind E2. apply assign_states_spec in E3 as [-> _].
  destruct (unresolved _) eqn:Eu; [|done].
  destruct (existsb (fun g => group_claims originals g combo) (group_tied_wildcard_candidates overloads)) eqn:Eg;
    [by left|right].
  destruct (unique_plain plains combo) eqn:Ep; [done|].
  assert ((combo, map c_target (found_plains plains combo)) ∈ @nil (list Ty * list FnId)) as []%not_elem_of_nil.
  rewrite <- Eu. apply unresolved_iff. split_and!; [|done|done].
  by eapply (proj2 (remaining_states _ _ _ _ _ _ Hal Hl E1 combo)).
Qed.

Lemma resolve_with_unresolved n overloads plains originals s parts s' :
  Forall (aligned n) overloads -> length originals = n ->
  resolve_with overloads plains originals s = (Err (Unresolved parts), s') ->
  forall combo found, (combo, found) ∈ parts <->
    in_box combo (map leaves originals) /\ ~ served overloads plains originals combo /\
    found = map c_target (found_plains plains combo).
Proof.
  intros Hal Hl E0 combo found. unfold resolve_with in E0.
  apply bind_err_inv in E0 as [E0|(states & s1 & E1 & E0)].
  { apply (mfold_error not_unresolved) in E0; [done|]. intros. by eapply sweep_group_error. }
  apply bind_err_inv in E0 as [E0|(? & s2 & _ & E0)].
  2:{ apply bind_err_inv in E0 as [E0|(? & ? & _ & E0)]; [done|].
      unfold lift in E0. injection E0 as E0 _. by apply plan_of_error in E0. }
  unfold record_plains in E0. apply bind_err_inv in E0 as [E0|(split_ & s3 & E2 & E0)].
  { by apply assign_states_error in E0. }
  apply assign_states_spec in E2 as [-> _].
  destruct (unresolved _) as [|part ps] eqn:Eu.
  { apply (mfold_error not_unresolved) in E0; [done|]. intros. by eapply plain_match_error. }
  injection E0 as <- _. rewrite <- Eu, unresolved_iff, (remaining_states _ _ _ _ _ _ Hal Hl E1).
  unfold served. rewrite <- not_true_iff_false, eq_None_not_Some. tauto.
Qed.

Lemma resolve_candidates_aligned st stubs impls slots overloads plains :
  resolve_candidates st stubs impls slots = Ok (overloads, plains) ->
  Forall (aligned (length slots)) overloads /\ Forall (aligned (length slots)) plains.
Proof.
  unfold resolve_candidates. destruct (traverse _ _); [|done]. simpl.
  destruct (build_candidates st (overload_members _ _ _) _ _) eqn:Eo; [|done]. simpl.
  destruct (build_candidates st (List.filter _ _) _ _) eqn:Ep; [|done]. simpl.
  intros [= <- <-]. split; by eapply build_candidates_aligned.
Qed.

Lemma slots_length args kwargs : length (originals_of args kwargs) = length (call_slots_of args kwargs).
Proof.
  unfold originals_of, call_slots_of, dict_keys. by rewrite !length_app, !length_map, length_seq.
Qed.

(** The functions a call chooses from, once resolved: broken ones dropped. *)
Definition live (st : Store) (fns : list FnId) : list FnId :=
  List.filter (fun f => negb (f_broken (st f))) fns.

(** C19: resolution loses no argument combination.  When it succeeds, every
    leaf combination is claimed by an [@overload] group or by exactly one
    plain implementation; when it reports unresolved combinations, it reports
    exactly those that are neither, with the plain implementations that tie. *)
Theorem resolve_call_complete st0 stubs impls args kwargs st overloads plains :
  resolve_all (stubs ++ impls) st0 = Ok st ->
  resolve_candidates st (live st stubs) (live st impls) (call_slots_of args kwargs)
    = Ok (overloads, plains) ->
  let originals := originals_of args kwargs in
  match resolve_call st0 stubs impls args kwargs with
  | Ok _ => forall combo, in_box combo (map leaves originals) -> served overloads plains originals combo
  | Err (Unresolved parts) => forall combo found, (combo, found) ∈ parts <->
      in_box combo (map leaves originals) /\ ~ served overloads plains originals combo /\
      found = map c_target (found_plains plains combo)
  | Err _ => True
  end.
Proof.
  intros Hst Hc. simpl. unfold resolve_call. rewrite Hst. simpl. unfold live in Hc. rewrite Hc. simpl.
  apply resolve_candidates_aligned in Hc as [Ho _].
  destruct (resolve_with _ _ _ _) as [[plan|e] s'] eqn:E0; simpl.
  - intros combo. by eapply resolve_with_ok, E0; [|apply slots_length].
  - destruct e; try done. intros combo found.
    by eapply resolve_with_unresolved, E0; [|apply slots_length].
Qed.

End coverage.

(** ** A call with one argument runs the right function *)

Section single_slot.
Context `{Injected}.
Hypothesis same_refl : forall t, same_type t t = true.
Hypothesis same_sym : forall t u, same_type t u = true -> same_type u t = true.
Hypothesis same_trans : forall t u v, same_type t u = true -> same_type u v = true -> same_type t v = true.

Lemma contains_same types t u : same_type t u = true -> contains types u = true -> contains types t = true.
Proof using same_trans.
  intros Htu. unfold contains. rewrite !existsb_exists. intros (x & Hx & Hux). eauto.
Qed.

(** A match taken by a value. *)
Definition taken (v : Ty) (m : RankedMatch) : bool :=
  forallb (fun '(_, leaf) => same_type v leaf) (conditions m).

Definition serve (ms : list RankedMatch) (v : Ty) : option FnId :=
  dispatch_function <$> List.find (taken v) ms.

Lemma serve_app ms ms' v :
  serve (ms ++ ms') v = match serve ms v with Some f => Some f | None => serve ms' v end.
Proof.
  unfold serve. induction ms as [|m ms IH]; simpl; [done|]. by destruct (taken v m).
Qed.

(** A candidate stated over one slot. *)
Definition one_slot (c : Candidate) : Prop :=
  exists w req p, c_wildcard c = [w] /\ c_required c = [req] /\ c_target_params c = [p].

Lemma aligned_one_slot c : aligned 1 c -> one_slot c.
Proof.
  intros (Hr & Hw & Hp & _). unfold one_slot.
  destruct (c_required c) as [|req []], (c_wildcard c) as [|w []], (c_target_params c) as [|p []];
    try done. eauto 10.
Qed.

(** Every test of a match is on the first parameter of its target. *)
Definition tests_first_param (m : RankedMatch) (c : Candidate) : Prop :=
  dispatch_function m = c_target c /\
  forall p leaf, (p, leaf) ∈ conditions m -> [p] = c_target_params c.

Lemma spend_ok n s u s' : spend n s = (Ok u, s') -> matches s' = matches s.
Proof.
  unfold spend. rewrite bind_modify. unfold bind, get. destruct (_ <? 0)%Z; [done|].
  by intros [_ <-]%ret_inv.
Qed.

Lemma single_condition slot need p : forall conds,
  full_match_conditions 0 [slot] [need] [p] = Ok conds ->
  (need = false /\ conds = []) \/ (need = true /\ exists leaf, slot = [leaf] /\ conds = [(p, leaf)]).
Proof.
  intros conds. simpl. destruct need; simpl; [|by intros [= <-]; left].
  destruct slot as [|leaf []]; try done. simpl. intros [= <-]. right. eauto.
Qed.

(** One sweep of a one-slot box: the values it takes are the values the
    candidate accepts. *)
Lemma sweep_one_slot c next rem s r s' : one_slot c ->
  sweep_one c next [rem] s = (Ok r, s') ->
  exists new, matches s' = matches s ++ new /\
    Forall (fun m => tests_first_param m c) new /\
    forall v, v ∈ rem -> serve new v = if accepts c [v] then Some (c_target c) else None.
Proof using same_refl same_sym same_trans.
  intros (w & req & p & Hw & Hr & Hp) E0. unfold sweep_one, sweep in E0.
  rewrite Hw, Hr, sweep_from_cons in E0. simpl in E0.
  set (inter := if w then rem else _) in *. set (remainder := if w then [] else _) in *.
  inv_bind E0. inv_bind E0. apply ret_inv in E0 as [_ <-]. apply spend_ok in E1.
  assert (Hinter : forall v, v ∈ rem -> accepts c [v] = true <-> v ∈ inter).
  { intros v Hv. unfold accepts. rewrite Hw, Hr. simpl. rewrite andb_true_r. subst inter.
    destruct w; simpl; [done|]. rewrite elem_of_intersect. tauto. }
  unfold inhabited_box in E2. simpl in E2. rewrite andb_true_r in E2.
  destruct inter as [|t inter'] eqn:Ei; simpl in E2.
  { apply ret_inv in E2 as [_ <-]. exists []. rewrite app_nil_r. split_and!; [done|constructor|].
    intros v Hv. destruct (accepts c [v]) eqn:Ha; [|done].
    by apply Hinter, not_elem_of_nil in Ha. }
  rewrite <- Ei in *. clear inter' Ei.
  unfold record_full_match in E2. rewrite Hp in E2. inv_bind E2. unfold lift in E0.
  injection E0 as E0 <-. injection E2 as _ <-. simpl. rewrite E1.
  eexists. split; [done|]. apply single_condition in E0. split.
  { constructor; [|done]. split; [done|]. simpl. rewrite Hp.
    destruct E0 as [[_ ->]|(_ & leaf & _ & ->)]; [by intros ?? ?%not_elem_of_nil|].
    by intros ?? [= -> ->]%list_elem_of_singleton. }
  intros v Hv. unfold serve. simpl. unfold taken. simpl.
  destruct E0 as [[Hneed ->]|(Hneed & leaf & Hone & ->)]; simpl.
  - assert (accepts c [v] = true) as ->; [|done]. apply Hinter; [done|].
    apply negb_false_iff in Hneed. subst inter remainder. destruct w; [done|].
    destruct (contains req v) eqn:Hc; [by apply elem_of_intersect|].
    assert (v ∈ subtract rem req) as Hin by (by apply elem_of_subtract).
    destruct (subtract rem req); [by apply not_elem_of_nil in Hin|done].
  - rewrite andb_true_r. destruct (accepts c [v]) eqn:Ha.
    + apply Hinter in Ha; [|done]. rewrite Hone in Ha. apply list_elem_of_singleton in Ha as ->.
      by rewrite same_refl.
    + destruct (same_type v leaf) eqn:Hs; [|done]. exfalso.
      assert (leaf ∈ inter) as Hleaf by (rewrite Hone; left).
      subst inter remainder. destruct w; [done|]. apply elem_of_intersect in Hleaf as [_ Hl].
      unfold accepts in Ha. rewrite Hw, Hr in Ha. simpl in Ha.
      by rewrite (contains_same _ _ _ Hs Hl) in Ha.
Qed.

(** At most one box is left of a one-slot call. *)
Definition at_most_one (states : list box) : Prop :=
  states = [] \/ exists rem, states = [[rem]].

Lemma sweep_candidate_one_slot c states s r s' : one_slot c -> at_most_one states ->
  sweep_candidate states c s = (Ok r, s') ->
  at_most_one r /\ exists new, matches s' = matches s ++ new /\
    Forall (fun m => tests_first_param m c) new /\
    forall v, covered states [v] -> serve new v = if accepts c [v] then Some (c_target c) else None.
Proof using same_refl same_sym same_trans.
  intros Hc [->|[rem ->]] E0; unfold sweep_candidate in E0; simpl in E0.
  { apply ret_inv in E0 as [<- <-]. split; [by left|]. exists []. rewrite app_nil_r.
    split_and!; [done|constructor|]. by intros v ?%covered_nil. }
  inv_bind E0. apply ret_inv in E0 as [<- <-]. split.
  - apply sweep_one_ok in E1 as ->. destruct Hc as (w & req & p & -> & -> & _). simpl.
    unfold sweep. rewrite sweep_from_cons. simpl. destruct (_ && _); [right; eauto|by left].
  - destruct (sweep_one_slot _ _ _ _ _ _ Hc E1) as (new & Hn & Ht & Hs).
    exists new. split_and!; [done|done|]. intros v Hv. apply Hs.
    apply covered_singleton, in_box_cons in Hv as (x & k & [= <- <-] & Hx & _). done.
Qed.

(** After some groups of members: each value of the argument is served by the
    first member that takes it, or still unclaimed. *)
Definition swept (originals s0 : list Ty) (groups : list (list Candidate)) (states : list box)
    (ms : list RankedMatch) : Prop :=
  at_most_one states /\
  (forall v, covered states [v] <-> v ∈ s0 /\ first_member originals [v] groups = None) /\
  Forall (fun m => exists c, c ∈ concat groups /\ tests_first_param m c) ms /\
  forall v, v ∈ s0 -> serve ms v = c_target <$> first_member originals [v] groups.

Lemma find_app {A} (f : A -> bool) l1 l2 :
  List.find f (l1 ++ l2) = match List.find f l1 with Some x => Some x | None => List.find f l2 end.
Proof. induction l1 as [|x l1 IH]; simpl; [done|]. by destruct (f x). Qed.

Lemma find_None_existsb {A} (f : A -> bool) l : List.find f l = None <-> existsb f l = false.
Proof.
  induction l as [|x l IH]; simpl; [done|]. by destruct (f x).
Qed.

Lemma find_filter {A} (f : A -> bool) l : List.find f l = head (List.filter f l).
Proof. induction l as [|x l IH]; simpl; [done|]. by destruct (f x). Qed.

Lemma first_member_app os combo gs gs' :
  first_member os combo (gs ++ gs') =
    match first_member os combo gs with Some c => Some c | None => first_member os combo gs' end.
Proof. induction gs as [|g gs IH]; simpl; [done|]. by destruct (first_taker os combo g). Qed.

(** Where no protocol is checked, the groups do not matter. *)
Lemma first_member_ungrouped os combo gs :
  protocol_conforms = None -> first_member os combo gs = List.find (fun c => accepts c combo) (concat gs).
Proof.
  intros Hpc. induction gs as [|g gs IH]; simpl; [done|]. rewrite find_app, IH. unfold first_taker.
  rewrite Hpc. by destruct g as [|? []].
Qed.

Lemma first_taker_claims os combo g :
  first_taker os combo g = None <-> group_claims os g combo = false.
Proof.
  unfold first_taker, group_claims.
  destruct g as [|rep [|c2 g]]; [apply find_None_existsb..|].
  destruct protocol_conforms as [pc|]; [|apply find_None_existsb].
  destruct (accepts rep combo); [|done]. rewrite find_filter.
  destruct (List.filter _ _); simpl; split; done.
Qed.

(** Members are served as the first of them that accepts. *)
Lemma sweep_members_serve group : forall states s r s',
  Forall (aligned 1) group -> at_most_one states -> sized 1 states ->
  mfold sweep_candidate group states s = (Ok r, s') ->
  at_most_one r /\ exists new, matches s' = matches s ++ new /\
    Forall (fun m => exists c, c ∈ group /\ tests_first_param m c) new /\
    forall v, covered states [v] -> serve new v = c_target <$> List.find (fun c => accepts c [v]) group.
Proof using same_refl same_sym same_trans.
  induction group as [|c group IH]; intros states s r s' Hal Hone Hsz E0.
  { apply ret_inv in E0 as [<- <-]. split; [done|]. exists []. rewrite app_nil_r. by split_and!. }
  apply bind_inv in E0 as (st1 & s1 & E1 & E2). apply Forall_cons in Hal as [Hc Hal].
  destruct (sweep_candidate_covers 1 c states s st1 s1 Hc Hsz E1) as [Hsz1 Hcov1].
  destruct (sweep_candidate_one_slot c states s st1 s1 (aligned_one_slot _ Hc) Hone E1)
    as (Hone1 & new1 & Hm1 & Hts1 & Hsrv1).
  destruct (IH st1 s1 r s' Hal Hone1 Hsz1 E2) as (Hr & new2 & Hm2 & Hts2 & Hsrv2).
  split; [done|]. exists (new1 ++ new2). split; [by rewrite Hm2, Hm1, (assoc_L (++))|]. split.
  - apply Forall_app. split; eapply Forall_impl; [exact Hts1| |exact Hts2|].
    + intros m Hm. exists c. split; [left|done].
    + intros m (c' & ? & ?). exists c'. split; [by right|done].
  - intros v Hv. rewrite serve_app, Hsrv1 by done. simpl. destruct (accepts c [v]) eqn:Ha; [done|].
    apply Hsrv2, Hcov1. done.
Qed.

Lemma group_wildcard fuel l rep c2 g :
  rep :: c2 :: g ∈ group_from fuel l -> any_wildcard rep = true.
Proof.
  revert l. induction fuel as [|fuel IH]; intros l Hin; [by apply not_elem_of_nil in Hin|].
  destruct l as [|c l]; simpl in Hin; [by apply not_elem_of_nil in Hin|].
  destruct (any_wildcard c) eqn:Hw.
  - destruct (tied_run c l) as [run rest]. apply elem_of_cons in Hin as [[= -> _]|Hin]; [done|eauto].
  - apply elem_of_cons in Hin as [[=]|Hin]. eauto.
Qed.

(** Tied members of a one-slot call take all that is left, untested. *)
Lemma sweep_tied_serve pc originals rep group next rem s r s' :
  Forall (aligned 1) (rep :: group) -> any_wildcard rep = true ->
  sweep_tied pc originals rep (rep :: group) next [rem] s = (Ok r, s') ->
  let conforming := List.filter (conforms pc originals) (rep :: group) in
  r = next ++ (if is_nil rem || negb (is_nil conforming) then [] else [[rem]]) /\
  exists new, matches s' = matches s ++ new /\
    Forall (fun m => exists c, c ∈ rep :: group /\ tests_first_param m c) new /\
    forall v, v ∈ rem -> serve new v = c_target <$> head conforming.
Proof using Type.
  intros Hal Hw E0. pose proof (aligned_one_slot _ (Forall_inv Hal)) as (w & req & p & Hwild & Hr & Hp).
  unfold any_wildcard in Hw. rewrite Hwild in Hw. simpl in Hw. rewrite orb_false_r in Hw. unfold id in Hw. subst w.
  unfold sweep_tied, sweep in E0. rewrite Hwild, Hr in E0.
  assert (Hcf : forall c, c ∈ List.filter (conforms pc originals) (rep :: group) -> c ∈ rep :: group).
  { intros c Hc%list_elem_of_In. apply list_elem_of_In. by apply filter_In in Hc as [? _]. }
  set (conforming := List.filter (conforms pc originals) (rep :: group)) in *. clearbody conforming.
  simpl in E0. inv_bind E0.
  apply spend_ok in E1. unfold inhabited_box in E0. simpl in E0. rewrite andb_true_r in E0.
  destruct rem as [|t rem]; simpl in E0.
  { apply ret_inv in E0 as [<- <-]. split; [done|]. exists []. rewrite app_nil_r.
    split_and!; [done|constructor|by intros v ?%not_elem_of_nil]. }
  destruct conforming as [|c cs]; simpl in E0 |- *.
  { apply ret_inv in E0 as [<- <-]. split; [done|]. exists []. rewrite app_nil_r. by split_and!. }
  inv_bind E0. apply ret_inv in E0 as [<- <-]. split; [done|].
  assert (Hc : c ∈ rep :: group) by (apply Hcf; left).
  unfold record_full_match in E2. inv_bind E2. unfold lift in E0. injection E0 as E0 <-. injection E2 as _ <-.
  simpl. rewrite E1. eexists. split; [done|].
  assert (exists q, c_target_params c = [q]) as [q Hq].
  { rewrite Forall_forall in Hal. by destruct (aligned_one_slot _ (Hal c Hc)) as (? & ? & q & _ & _ & ?); eauto. }
  rewrite Hq in E0. injection E0 as <-. split.
  - constructor; [|done]. exists c. split; [done|]. split; [done|]. by intros ?? ?%not_elem_of_nil.
  - done.
Qed.

Lemma sweep_group_serve originals s0 done g states s r s' :
  Forall (aligned 1) g -> (forall rep c2 g', g = rep :: c2 :: g' -> any_wildcard rep = true) ->
  sized 1 states -> swept originals s0 done states (matches s) ->
  sweep_group originals states g s = (Ok r, s') ->
  swept originals s0 (done ++ [g]) r (matches s').
Proof using same_refl same_sym same_trans.
  intros Hal Hw Hsz (Hone & Hcov & Hts & Hsrv) E0.
  destruct (sweep_group_covers 1 originals g states s r s' Hal Hsz E0) as [_ Hcovers].
  assert (Hnew : at_most_one r /\ exists new, matches s' = matches s ++ new /\
    Forall (fun m => exists c, c ∈ g /\ tests_first_param m c) new /\
    forall v, covered states [v] -> serve new v = c_target <$> first_taker originals [v] g).
  { unfold sweep_group, first_taker in *.
    destruct g as [|rep [|c2 g]]; [by eapply sweep_members_serve..|].
    destruct protocol_conforms as [pc|]; [|by eapply sweep_members_serve].
    destruct Hone as [->|[rem ->]].
    { apply ret_inv in E0 as [<- <-]. split; [by left|]. exists []. rewrite app_nil_r.
      split_and!; [done|constructor|by intros v ?%covered_nil]. }
    apply bind_inv in E0 as (r1 & s1 & E1 & [<- <-]%ret_inv).
    destruct (sweep_tied_serve _ _ _ _ _ _ _ _ _ Hal (Hw _ _ _ eq_refl) E1) as [-> (new & Hm & Ht & Hs)].
    split; [destruct (_ || _); [by left|right; eauto]|]. exists new. split_and!; [done..|].
    intros v Hv. apply covered_singleton, in_box_cons in Hv as (x & k & [= <- <-] & Hx & _).
    pose proof (aligned_one_slot _ (Forall_inv Hal)) as (w & req & p & Hwild & Hr & _).
    specialize (Hw _ _ _ eq_refl). unfold any_wildcard in Hw. rewrite Hwild in Hw. simpl in Hw.
    rewrite orb_false_r in Hw. unfold id in Hw. subst w.
    assert (accepts rep [v] = true) as -> by (unfold accepts; by rewrite Hwild, Hr).
    by rewrite Hs, find_filter. }
  destruct Hnew as (Hr & new & Hm & Hnts & Hnsrv). split; [done|]. split_and!.
  - intros v. rewrite Hcovers, Hcov, first_member_app, <- first_taker_claims. simpl.
    destruct (first_member originals [v] done), (first_taker originals [v] g); naive_solver.
  - rewrite Hm, concat_app. apply Forall_app. split; eapply Forall_impl; [exact Hts| |exact Hnts|].
    + intros m (c & Hc & ?). exists c. split; [|done]. apply elem_of_app. by left.
    + intros m (c & Hc & ?). exists c. split; [|done]. apply elem_of_app. right. simpl. by rewrite app_nil_r.
  - intros v Hv. rewrite Hm, serve_app, first_member_app, Hsrv by done.
    destruct (first_member originals [v] done) eqn:Ef; [done|]. simpl. rewrite Hnsrv by (by apply Hcov).
    by destruct (first_taker originals [v] g).
Qed.

Lemma sweep_groups_serve overloads originals s0 states s s' :
  Forall (aligned 1) overloads -> matches s = [] ->
  mfold (sweep_group originals) (group_tied_wildcard_candidates overloads) [[s0]] s = (Ok states, s') ->
  swept originals s0 (group_tied_wildcard_candidates overloads) states (matches s').
Proof using same_refl same_sym same_trans.
  intros Hal Hs E0. rewrite <- (group_concat overloads) in Hal. apply Forall_concat_inv in Hal.
  apply (mfold_invariant (fun done st s => sized 1 st /\ swept originals s0 done st (matches s))
    (sweep_group originals) _) in E0; [by destruct E0| |].
  - intros done g st s1 st' s1' Hin [Hsz Hsw] E1.
    assert (Forall (aligned 1) g) as Hg by (rewrite Forall_forall in Hal; by apply Hal).
    split; [by destruct (sweep_group_covers 1 originals g st s1 st' s1' Hg Hsz E1)|].
    eapply sweep_group_serve; [done| |done..]. intros rep c2 g' ->. by eapply group_wildcard.
  - split; [by repeat constructor|]. rewrite Hs. split_and!; [right; eauto| |done|done].
    intros v. rewrite covered_singleton, in_box_cons. split.
    + by intros (? & ? & [= <- <-] & Hv & _).
    + intros [Hv _]. exists v, []. split_and!; [done|done|constructor].
Qed.

(** The only plain implementation takes what is left, untested. *)
Lemma distinct_const (t : FnId) l : Forall (eq t) l -> forall seen,
  distinct seen l = if decide (l = []) then [] else if decide (t ∈ seen) then [] else [t].
Proof.
  induction 1 as [|x l <- _ IH]; intros seen; simpl; [done|].
  destruct (decide (t ∈ seen)) as [Hin|Hout].
  - rewrite IH. destruct (decide (l = [])); [done|]. by rewrite decide_True.
  - rewrite IH. destruct (decide (l = [])); [done|]. rewrite decide_True; [done|left].
Qed.

Lemma concat_imap_nil {A B} (f : nat -> A -> list B) l :
  (forall i x, f i x = []) -> concat (imap f l) = [].
Proof.
  revert f. induction l as [|x l IH]; intros f Hf; simpl; [done|]. rewrite Hf. simpl.
  apply IH. intros i y. apply Hf.
Qed.

Lemma plain_match_alone c combos s u s' :
  Forall (fun ct : list Ty * FnId => ct.2 = c_target c) combos ->
  plain_match [c] combos (c_target c) s = (Ok u, s') ->
  matches s' = matches s ++ [mkDispatch [] (c_target c)].
Proof.
  intros Hall. unfold plain_match. simpl. rewrite bool_decide_true by done. intros [= _ <-]. simpl.
  assert (List.filter (fun ct => negb (bool_decide (ct.2 = c_target c))) combos = []) as ->.
  { induction Hall as [|ct combos Hct _ IH]; simpl; [done|]. by rewrite bool_decide_true. }
  rewrite concat_imap_nil; [done|]. intros i p. unfold plain_condition. simpl.
  destruct (map _ _); [done|]. by destruct (existsb _ _).
Qed.

Lemma omap_all_Some {A B} (f : A -> option B) (g : A -> B) l :
  (forall x, x ∈ l -> f x = Some (g x)) -> omap f l = map g l.
Proof.
  induction l as [|x l IH]; simpl; intros Hf; [done|]. rewrite (Hf x) by left. f_equal.
  apply IH. intros y Hy. apply Hf. by right.
Qed.

Lemma found_plains_alone c combo : found_plains [c] combo = if accepts c combo then [c] else [].
Proof. unfold found_plains. simpl. destruct (accepts c combo); [|done]. simpl. by destruct (any_wildcard c). Qed.

Lemma record_plain_alone c states s u s' :
  record_plains [c] states s = (Ok u, s') ->
  (forall combo, covered states combo -> accepts c combo = true) /\
  exists new, matches s' = matches s ++ new /\ Forall (fun m => conditions m = []) new /\
    forall combo v, covered states combo -> serve new v = Some (c_target c).
Proof.
  unfold record_plains. intros E0. inv_bind E0. apply assign_states_spec in E1 as [-> Hm1].
  destruct (unresolved _) eqn:Eu; [|done].
  assert (Hacc : forall combo, covered states combo -> accepts c combo = true).
  { intros combo Hc. destruct (accepts c combo) eqn:Ha; [done|].
    assert ((combo, []) ∈ @nil (list Ty * list FnId)) as []%not_elem_of_nil.
    rewrite <- Eu. apply unresolved_iff. unfold unique_plain. by rewrite found_plains_alone, Ha. }
  split; [done|]. rewrite (proj2 (assign_combo_spec _ _ _)) in E0. simpl in E0.
  rewrite (omap_all_Some _ (fun combo => (combo, c_target c))) in E0.
  2:{ intros combo Hc%elem_of_products. by rewrite found_plains_alone, Hacc. }
  rewrite distinct_const with (t := c_target c) in E0.
  2:{ rewrite map_map, Forall_map. by apply Forall_forall. }
  destruct (decide _) as [Hnil|_].
  - simpl in E0. apply ret_inv in E0 as [_ <-]. exists []. rewrite app_nil_r, Hm1.
    split_and!; [done|constructor|]. intros combo v Hc%elem_of_products.
    apply map_eq_nil, map_eq_nil in Hnil. rewrite Hnil in Hc. by apply not_elem_of_nil in Hc.
  - rewrite decide_False in E0 by apply not_elem_of_nil. simpl in E0. inv_bind E0.
    apply ret_inv in E0 as [_ <-]. apply plain_match_alone in E1.
    + rewrite E1, Hm1. eexists. split; [done|]. split; [by repeat constructor|done].
    + rewrite Forall_map. by apply Forall_forall.
Qed.

Lemma record_no_plain states s u s' : record_plains [] states s = (Ok u, s') ->
  matches s' = matches s /\ forall combo, ~ covered states combo.
Proof.
  unfold record_plains. intros E0. inv_bind E0. apply assign_states_spec in E1 as [-> Hm1].
  destruct (unresolved _) eqn:Eu; [|done].
  assert (Hno : forall combo, ~ covered states combo).
  { intros combo Hc. assert ((combo, []) ∈ @nil (list Ty * list FnId)) as []%not_elem_of_nil.
    rewrite <- Eu. by apply unresolved_iff. }
  split; [|done]. rewrite (proj2 (assign_combo_spec _ _ _)) in E0. simpl in E0.
  destruct (concat (map product states)) as [|x l] eqn:Ec.
  - simpl in E0. by apply ret_inv in E0 as [_ <-].
  - destruct (Hno x). apply elem_of_products. rewrite Ec. left.
Qed.

(** The matches of a one-slot call serve every value as the reference does. *)
Lemma resolve_with_serves overloads plains t s plan s' :
  Forall (aligned 1) overloads -> length plains <= 1 -> matches s = [] ->
  resolve_with overloads plains [t] s = (Ok plan, s') ->
  exists ms, plan_of ms = Ok plan /\
    Forall (fun m => conditions m = [] \/ exists c, c ∈ overloads /\ tests_first_param m c) ms /\
    forall v, v ∈ leaves t -> serve ms v = reference [t] overloads plains [v] /\ is_Some (serve ms v).
Proof using same_refl same_sym same_trans.
  intros Hal Hpl Hs E0. unfold resolve_with in E0. inv_bind E0. inv_bind E0.
  destruct (sweep_groups_serve overloads [t] (leaves t) a s st Hal Hs E1) as (_ & Hcov & Hts & Hsrv).
  rewrite group_concat in Hts.
  unfold bind, get, lift in E0. injection E0 as E0 _. exists (matches st0). split; [done|].
  assert (Htests : Forall (fun m => conditions m = [] \/ exists c, c ∈ overloads /\ tests_first_param m c)
    (matches st)) by (eapply Forall_impl; [exact Hts|auto]).
  set (member v := first_member [t] [v] (group_tied_wildcard_candidates overloads)).
  assert (Hsplit : forall v, v ∈ leaves t ->
    (exists c, member v = Some c) \/ (member v = None /\ covered a [v])).
  { intros v Hv. destruct (member v) eqn:Ef; [eauto|right]. split; [done|]. by apply Hcov. }
  destruct plains as [|c [|]]; [| |simpl in Hpl; lia].
  - apply record_no_plain in E2 as [-> Hno]. split; [done|]. intros v Hv.
    unfold reference. rewrite Hsrv by done. fold (member v).
    destruct (Hsplit v Hv) as [[c ->]|[_ Hc]]; [eauto|by destruct (Hno _ Hc)].
  - apply record_plain_alone in E2 as (Hacc & new & -> & Hnew & Hserve). split.
    { apply Forall_app. split; [done|]. eapply Forall_impl; [exact Hnew|auto]. }
    intros v Hv. rewrite serve_app, Hsrv by done. unfold reference. fold (member v).
    destruct (Hsplit v Hv) as [[c' ->]|[-> Hc]]; [simpl; eauto|]. simpl.
    rewrite (Hserve _ v Hc). unfold unique_plain. by rewrite found_plains_alone, Hacc.
Qed.

Lemma plan_of_split ms plan : plan_of ms = Ok plan ->
  exists final, ms = branches plan ++ [final] /\ plan_default plan = dispatch_function final.
Proof.
  unfold plan_of. destruct ms as [|m [|m' ms]]; [done| |].
  - intros [= <-]. by exists m.
  - intros [= <-]. exists (List.last (m :: m' :: ms) m). split; [|done].
    by apply (@app_removelast_last _ (m :: m' :: ms) m).
Qed.

Lemma find_zip_map {A} (f : A -> bool) l :
  List.find snd (zip l (map f l)) = (fun x => (x, true)) <$> List.find f l.
Proof. induction l as [|x l IH]; simpl; [done|]. by destruct (f x). Qed.

(** The lowered plan reaches whom the matches serve. *)
Lemma run_plan_serves st ms plan v :
  plan_of ms = Ok plan -> is_Some (serve ms v) ->
  (forall m, m ∈ ms -> branch_taken st [v] [] m = Some (taken v m)) ->
  run_plan st plan [v] [] = serve ms v.
Proof.
  intros (final & -> & Hd)%plan_of_split Hsome Htaken. unfold run_plan.
  rewrite (mapM_Some_2 _ _ (map (taken v) (branches plan))).
  2:{ rewrite Forall2_fmap_r. apply Forall_Forall2_diag, Forall_forall. intros m Hm.
      apply Htaken, elem_of_app. by left. }
  simpl. rewrite find_zip_map, Hd. rewrite serve_app in *. unfold serve in *. simpl in *.
  destruct (List.find (taken v) (branches plan)); simpl; [done|].
  destruct (taken v final); [done|by destruct Hsome].
Qed.

(** A call's target is declared with the parameter its only argument feeds. *)
Lemma one_slot_param st targets m c p :
  build_candidate st [Pos 0] targets m = Ok (Some c) ->
  params_of (st (c_target c)) <> [] -> [p] = c_target_params c ->
  list_find (fun q => q = p) (params_of (st (c_target c))) = Some (0, p).
Proof.
  unfold build_candidate, translate_indices. simpl.
  destruct (decide _); simpl; [|done]. destruct (forallb _ _); [|done].
  destruct (traverse (nth_param _) [0]) as [own|] eqn:Eo; [|done]. simpl.
  destruct (traverse declared_type own) as [ts|]; [|done]. simpl. intros [= <-]. simpl.
  destruct (params_of (st (targets m))) as [|q qs]; [done|]. intros _.
  apply traverse_length in Eo. destruct own as [|o []]; simplify_eq/=. intros [= ->].
  by rewrite decide_True.
Qed.

Lemma branch_taken_spec st v m c : tests_first_param m c ->
  (forall p, [p] = c_target_params c ->
    list_find (fun q => q = p) (params_of (st (c_target c))) = Some (0, p)) ->
  branch_taken st [v] [] m = Some (taken v m).
Proof.
  intros [Hf Hp] Hfind. unfold branch_taken, taken.
  rewrite (mapM_Some_2 _ _ (map (fun '(_, leaf) => same_type v leaf) (conditions m))).
  - simpl. f_equal. induction (conditions m) as [|[p l] cs IH]; simpl; [done|].
    rewrite IH; [done|]. intros q k Hq. apply (Hp q k). by right.
  - rewrite Forall2_fmap_r. apply Forall_Forall2_diag, Forall_forall. intros [p leaf] Hin.
    unfold dispatch_operand. simpl. rewrite Hf, (Hfind p) by (by eapply Hp). done.
Qed.

(** C20: a call with one argument runs the right function, where the group
    has at most one plain implementation and the target of every member has a
    parameter: whatever leaf the argument holds, the lowered tests reach the
    first [@overload] member that accepts it (among tied generic members,
    where the caller checks protocols, the first whose bound the argument type
    meets), or else the plain implementation. *)
Theorem single_argument_dispatch st0 stubs impls t st overloads plains plan v :
  resolve_all (stubs ++ impls) st0 = Ok st ->
  resolve_candidates st (live st stubs) (live st impls) [Pos 0] = Ok (overloads, plains) ->
  length plains <= 1 ->
  (forall c, c ∈ overloads -> params_of (st (c_target c)) <> []) ->
  resolve_call st0 stubs impls [t] [] = Ok plan ->
  v ∈ leaves t ->
  run_plan st plan [v] [] = reference [t] overloads plains [v] /\
  is_Some (reference [t] overloads plains [v]) /\
  (protocol_conforms = None ->
     first_member [t] [v] (group_tied_wildcard_candidates overloads) =
       List.find (fun c => accepts c [v]) overloads).
Proof using same_refl same_sym same_trans.
  intros Hst Hc Hpl Hpar E0 Hv. unfold resolve_call, call_slots_of in E0. rewrite Hst in E0. simpl in E0.
  unfold live in Hc. rewrite Hc in E0. simpl in E0.
  pose proof (resolve_candidates_aligned _ _ _ _ _ _ Hc) as [Hal _].
  destruct (resolve_with _ _ _ _) as [r s'] eqn:E1. simpl in E0. subst r.
  destruct (resolve_with_serves _ _ t (mkProgress _ _) _ _ Hal Hpl eq_refl E1) as (ms & Hplan & Hts & Hserve).
  destruct (Hserve v Hv) as [Hs Hsome]. rewrite <- Hs.
  split; [|split; [done|intros Hpc; by rewrite first_member_ungrouped, group_concat]].
  apply run_plan_serves; [done|done|]. intros m Hm.
  rewrite Forall_forall in Hts. destruct (Hts m Hm) as [Hnil|(c & Hin & Htest)].
  { unfold branch_taken, taken. by rewrite Hnil. }
  apply branch_taken_spec with c; [done|]. intros p.
  unfold resolve_candidates in Hc. destruct (traverse _ _); [|done]. simpl in Hc.
  destruct (build_candidates st (overload_members _ _ _) _ _) as [cs|] eqn:Eb; [|done]. simpl in Hc.
  destruct (build_candidates st (List.filter _ _) _ _); [|done]. simpl in Hc. injection Hc as -> ->.
  destruct (build_candidates_member _ _ _ _ _ _ Eb Hin) as [k Hk].
  by apply (one_slot_param _ _ _ _ _ Hk), Hpar.
Qed.

End single_slot.

(** ** Samples *)

(** A stub for [A] and the implementation for [A|B] it is bound to. *)
Definition stub_plan : Plan :=
  mkPlan [mkDispatch [(mkParam "v" (Some tyAB) false, tyA)] 1] 1.

Lemma stub_plan_resolved : @resolve_call plain_injected sample_store [0] [1] [tyAB] [] = Ok stub_plan.
Proof. reflexivity. Qed.

Definition impl_candidate : Candidate :=
  mkCandidate 1 1 [[tyA; tyB]] [mkParam "v" (Some tyAB) false] [false] [tyAB].

Lemma resolve_call_complete_witness :
  @served plain_injected [sample_candidate] [impl_candidate] [tyAB] [tyB].
Proof.
  refine (@resolve_call_complete plain_injected sample_store [0] [1] [tyAB] [] sample_store
    [sample_candidate] [impl_candidate] eq_refl eq_refl [tyB] _).
  repeat constructor.
Defined.

Lemma identity_refl (t : Ty) : bool_decide (t = t) = true.
Proof. by apply bool_decide_eq_true. Qed.
Lemma identity_sym (t u : Ty) : bool_decide (t = u) = true -> bool_decide (u = t) = true.
Proof. rewrite !bool_decide_eq_true. congruence. Qed.
Lemma identity_trans (t u v : Ty) :
  bool_decide (t = u) = true -> bool_decide (u = v) = true -> bool_decide (t = v) = true.
Proof. rewrite !bool_decide_eq_true. congruence. Qed.

(** Two generic members, for the conformers of [P] and of [Q]; every class
    conforms to [Q] only. *)
Definition protocol_injected : Injected :=
  Build_Injected (fun a b => bool_decide (a = b)) (Some (fun _ b => bool_decide (b = Protocol "Q")))
    (fun t => match t with
              | TypeVar "T" => Some (Protocol "P")
              | TypeVar "U" => Some (Protocol "Q")
              | _ => None
              end) (fun _ st => Ok st).

Definition generic_store : Store := fun f =>
  sample_fn "foo" [("v", TypeVar (if decide (f = 0) then "T" else "U"), false)] (Z.of_nat f) true None.

Definition generic_candidate (f : FnId) (name : string) : Candidate :=
  mkCandidate f f [[TypeVar name]] [mkParam "v" (Some (TypeVar name)) false] [true] [TypeVar name].

Lemma single_argument_dispatch_witness :
  @run_plan plain_injected sample_store stub_plan [tyB] [] = Some 1 /\
  @run_plan protocol_injected generic_store (mkPlan [] 1) [tyA] [] = Some 1.
Proof.
  split.
  - refine (proj1 (@single_argument_dispatch plain_injected identity_refl identity_sym
      identity_trans sample_store [0] [1] tyAB sample_store [sample_candidate] [impl_candidate] stub_plan tyB
      eq_refl eq_refl _ _ stub_plan_resolved _)).
    + apply le_n.
    + intros c ->%list_elem_of_singleton. discriminate.
    + right. left.
  - refine (proj1 (@single_argument_dispatch protocol_injected identity_refl identity_sym
      identity_trans generic_store [] [0; 1] tyA generic_store
      [generic_candidate 0 "T"; generic_candidate 1 "U"] [] (mkPlan [] 1) tyA
      eq_refl eq_refl _ _ eq_refl _)).
    + apply Nat.le_0_l.
    + intros c. rewrite elem_of_cons, list_elem_of_singleton. intros [->| ->]; discriminate.
    + left.
Defined.

(** The worked example of the tests: [foo(A, A)], [foo(B, B)] and
    [foo(A|B, A|B)], in that order. *)
Definition diagonal_store : Store := fun f =>
  let sig t := [("v", t, false); ("w", t, false)] in
  match f with
  | 0 => sample_fn "foo_aa" (sig tyA) 1 true None
  | 1 => sample_fn "foo_bb" (sig tyB) 2 true None
  | _ => sample_fn "foo_abab" (sig tyAB) 3 true None
  end.

(** With two union arguments the tests can reach a member that does not
    accept them.  In [foo(A, A)], [foo(B, B)], [foo(A|B, A|B)] the test of the
    second member only checks the second argument, since the piece it was
    computed from had already narrowed the first; [(A, B)] runs [foo(B, B)]. *)
Theorem diagonal_dispatch_misroutes :
  exists plan overloads, @resolve_call plain_injected diagonal_store [] [0; 1; 2] [tyAB; tyAB] [] = Ok plan /\
    resolve_candidates diagonal_store [] [0; 1; 2] [Pos 0; Pos 1] = Ok (overloads, []) /\
    @reference plain_injected [tyAB; tyAB] overloads [] [tyA; tyB] = Some 2 /\
    @run_plan plain_injected diagonal_store plan [tyA; tyB] [] = Some 1 /\
    forall c, c ∈ overloads -> c_member c = 1 -> @accepts plain_injected c [tyA; tyB] = false.
Proof.
  do 2 eexists. split; [reflexivity|]. split; [reflexivity|]. split; [reflexivity|].
  split; [reflexivity|]. intros c Hc Hm.
  repeat (apply elem_of_cons in Hc as [->|Hc]; [by (discriminate Hm || reflexivity)|]).
  by apply not_elem_of_nil in Hc.
Qed.

(** Two plain implementations, one of them for a union. *)
Definition plains_store : Store := fun f =>
  match f with
  | 0 => sample_fn "foo_ab" [("v", tyAB, false)] 1 false None
  | _ => sample_fn "foo_c" [("v", tyC, false)] 2 false None
  end.

(** Between plain implementations, one that owns several leaves gets no
    test: called with [A|B|C], [foo(A|B)] runs unconditionally before
    [foo(C)] is considered, also on a [C]. *)
Theorem union_plain_takes_all :
  let t := sample_union [tyA; tyB; tyC] in
  exists plan plains, @resolve_call plain_injected plains_store [] [0; 1] [t] [] = Ok plan /\
    resolve_candidates plains_store [] [0; 1] [Pos 0] = Ok ([], plains) /\
    @reference plain_injected [t] [] plains [tyC] = Some 1 /\
    @run_plan plain_injected plains_store plan [tyC] [] = Some 0.
Proof. do 2 eexists. repeat split; reflexivity. Qed.
