(* ===== verification/OverloadBinding.v ===== *)
(** * The checks an overload group passes when it is declared

    [discovery._bind_overload_stub], [_check_overload_shadowing] and
    [_check_overload_ambiguity], with the two comparisons of signatures they
    use ([mpy_types._is_covered_by], [_overlaps]), and what they guarantee to
    [overload_resolution.resolve_call]. *)

From S2P Require Import Prelude MpyTypes OverloadResolution.

Local Open Scope monad_scope.

Inductive decl_error :=
| Resolution (e : error)
| NoBinding (stub : FnId)
| AmbiguousBinding (stub : FnId) (candidates : list FnId)
| Shadowed (fn earlier : FnId)
| AmbiguousPlains (fn other : FnId).

(** ** Comparing signatures

    Leaves are compared by identity. *)

Definition leaf_is_accepted (leaf : Ty) (declared : option Ty) : result decl_error bool :=
  match declared with
  | None => Err (Resolution AssertionError)
  | Some t => Ok (bool_decide (leaf ∈ leaves t))
  end.

Fixpoint all_accepted (ls : list Ty) (declared : option Ty) : result decl_error bool :=
  match ls with
  | [] => Ok true
  | leaf :: ls' =>
      let? ok := leaf_is_accepted leaf declared in
      if ok : bool then all_accepted ls' declared else Ok false
  end.

Fixpoint any_accepted (ls : list Ty) (declared : option Ty) : result decl_error bool :=
  match ls with
  | [] => Ok false
  | leaf :: ls' =>
      let? ok := leaf_is_accepted leaf declared in
      if ok : bool then Ok true else any_accepted ls' declared
  end.

(** The loop over parameter positions, stopped by the first [false]. *)
Fixpoint all_positions (test : list Ty -> option Ty -> result decl_error bool)
    (a b : list Param) : result decl_error bool :=
  match a, b with
  | p :: a', q :: b' =>
      match p_type p with
      | None => Err (Resolution AssertionError)
      | Some t =>
          let? ok := test (leaves t) (p_type q) in
          if ok : bool then all_positions test a' b' else Ok false
      end
  | _, _ => Ok true
  end.

Definition compare (test : list Ty -> option Ty -> result decl_error bool) (a b : Function)
    : result decl_error bool :=
  match f_parameters a, f_parameters b with
  | Some pa, Some pb => if decide (length pa = length pb) then all_positions test pa pb else Ok false
  | _, _ => Ok false
  end.

Definition is_covered_by (narrow wide : Function) : result decl_error bool :=
  compare all_accepted narrow wide.

Definition overlaps (a b : Function) : result decl_error bool := compare any_accepted a b.

(** ** The declaration checks *)

Abbreviation D A := (M Store decl_error A).

Section checks.
Context `{Injected}.

(** [if fn.resolve is not None: fn.resolve()] *)
Definition ensure_resolved (f : FnId) : D unit := fun st =>
  if f_resolve (st f) then
    match run_resolve f st with
    | Ok st' => (Ok tt, st')
    | Err e => (Err (Resolution e), st)
    end
  else (Ok tt, st).

Definition covers_stub (stub : FnId) (candidates : list FnId) (impl : FnId) : D (list FnId) :=
  let* st := get in
  if f_is_overload (st impl) then ret candidates else
  ensure_resolved impl ;;;
  let* st := get in
  let* ok := lift (is_covered_by (st stub) (st impl)) in
  ret (if ok : bool then candidates ++ [impl] else candidates).

Definition set_bound_to (stub impl : FnId) (st : Store) : Store := fun f =>
  if decide (f = stub) then
    mkFunction (f_qualname (st f)) (f_parameters (st f)) (f_line (st f)) (f_is_overload (st f))
      (f_broken (st f)) (Some impl) (f_resolve (st f))
  else st f.

Definition bind_overload_stub (stub : FnId) (implementations : list FnId) : D unit :=
  let* candidates := mfold (covers_stub stub) implementations [] in
  match candidates with
  | [impl] => modify (set_bound_to stub impl)
  | [] => raise (NoBinding stub)
  | _ => raise (AmbiguousBinding stub candidates)
  end.

(** Members sorted by line alone. *)
Fixpoint insert_line (st : Store) (x : FnId) (l : list FnId) : list FnId :=
  match l with
  | [] => [x]
  | y :: l' => if (f_line (st x) <=? f_line (st y))%Z then x :: l else y :: insert_line st x l'
  end.

Fixpoint by_line (st : Store) (l : list FnId) : list FnId :=
  match l with
  | [] => []
  | x :: l' => insert_line st x (by_line st l')
  end.

Definition check_shadowed_by (fn : FnId) (_ : unit) (earlier : FnId) : D unit :=
  let* st := get in
  if bool_decide (earlier = fn) || (f_line (st fn) <=? f_line (st earlier))%Z then ret tt else
  ensure_resolved earlier ;;;
  let* st := get in
  let* covered := lift (is_covered_by (st fn) (st earlier)) in
  if covered : bool then raise (Shadowed fn earlier) else ret tt.

Definition check_overload_shadowing (fn : FnId) (stubs implementations : list FnId) : D unit :=
  let* st := get in
  mfold (check_shadowed_by fn)
    (by_line st (stubs ++ List.filter (fun f => f_is_overload (st f)) implementations)) tt.

Definition check_ambiguous_with (fn : FnId) (_ : unit) (other : FnId) : D unit :=
  let* st := get in
  if bool_decide (other = fn) || f_is_overload (st other) then ret tt else
  ensure_resolved other ;;;
  let* st := get in
  let* clash := lift (overlaps (st fn) (st other)) in
  if clash : bool then raise (AmbiguousPlains fn other) else ret tt.

Definition check_overload_ambiguity (fn : FnId) (implementations : list FnId) : D unit :=
  mfold (check_ambiguous_with fn) implementations tt.

End checks.

(** ** What the comparisons decide *)

(** A call that passes every parameter, by position. *)
Definition all_positional (n : nat) : list Slot := map Pos (seq 0 n).

(** The leaves a declared signature accepts, combination by combination. *)
Definition signature_accepts (f : Function) (combo : list Ty) : Prop :=
  exists ps, f_parameters f = Some ps /\
    Forall2 (fun x p => exists t, p_type p = Some t /\ x ∈ leaves t) combo ps.

Lemma all_accepted_true ls declared : all_accepted ls declared = Ok true ->
  forall t, declared = Some t -> forall x, x ∈ ls -> x ∈ leaves t.
Proof.
  intros E0 t ->. induction ls as [|leaf ls IH]; simpl in E0; [by intros x ?%not_elem_of_nil|].
  case_bool_decide; [|done]. intros x [->|Hx]%elem_of_cons; [done|by apply IH].
Qed.

Lemma any_accepted_spec ls t b : any_accepted ls (Some t) = Ok b ->
  b = true <-> exists x, x ∈ ls /\ x ∈ leaves t.
Proof.
  induction ls as [|leaf ls IH]; simpl.
  - intros [= <-]. split; [done|by intros (x & ?%not_elem_of_nil & _)].
  - case_bool_decide as Hin.
    + intros [= <-]. split; [|done]. intros _. exists leaf. split; [left|done].
    + intros E0. rewrite (IH E0). setoid_rewrite elem_of_cons. naive_solver.
Qed.

Lemma compare_inv test a b : compare test a b = Ok true ->
  exists pa pb, f_parameters a = Some pa /\ f_parameters b = Some pb /\
    length pa = length pb /\ all_positions test pa pb = Ok true.
Proof.
  unfold compare. destruct (f_parameters a) as [pa|]; [|done].
  destruct (f_parameters b) as [pb|]; [|done]. case_decide; [|done]. eauto 10.
Qed.

(** Covered signatures accept nothing the covering one does not. *)
Lemma all_positions_covered combo pa : forall pb,
  length pa = length pb -> all_positions all_accepted pa pb = Ok true ->
  Forall2 (fun x p => exists t, p_type p = Some t /\ x ∈ leaves t) combo pa ->
  Forall2 (fun x p => exists t, p_type p = Some t /\ x ∈ leaves t) combo pb.
Proof.
  revert combo. induction pa as [|p pa IH]; intros combo [|q pb] Hl E0 Hc; try done.
  inversion Hc as [|x ? combo' ? (t & Ht & Hx) Hc']; subst. simpl in E0, Hl. rewrite Ht in E0.
  destruct (all_accepted (leaves t) (p_type q)) as [[]|] eqn:Ea; [|done..]. simpl in E0.
  constructor; [|apply IH; [lia|done|done]].
  destruct (p_type q) as [u|] eqn:Eq.
  - exists u. split; [done|]. by eapply all_accepted_true.
  - destruct (leaves t); [by apply not_elem_of_nil in Hx|done].
Qed.

Lemma is_covered_by_accepts narrow wide combo : is_covered_by narrow wide = Ok true ->
  signature_accepts narrow combo -> signature_accepts wide combo.
Proof.
  intros (pa & pb & Ha & Hb & Hl & E0)%compare_inv (ps & Hps & Hc).
  exists pb. split; [done|]. simplify_eq. by eapply all_positions_covered.
Qed.

Lemma all_positions_overlap combo pa : forall pb b,
  length pa = length pb -> all_positions any_accepted pa pb = Ok b ->
  Forall2 (fun x p => exists t, p_type p = Some t /\ x ∈ leaves t) combo pa ->
  Forall2 (fun x p => exists t, p_type p = Some t /\ x ∈ leaves t) combo pb ->
  b = true.
Proof.
  revert combo. induction pa as [|p pa IH]; intros combo [|q pb] b Hl E0 Hc Hd; try done; simpl in E0.
  { by injection E0 as <-. }
  inversion Hc as [|x ? combo' ? (t & Ht & Hx) Hc']; subst.
  inversion Hd as [|? ? ? ? (u & Hu & Hy) Hd']; subst. rewrite Ht, Hu in E0. simpl in Hl.
  destruct (any_accepted (leaves t) (Some u)) as [ok|] eqn:Ea; [|done]. simpl in E0.
  assert (ok = true) as -> by (apply (any_accepted_spec _ _ _ Ea); eauto).
  apply (IH combo' pb); [lia|done..].
Qed.

Lemma overlaps_false a b combo : overlaps a b = Ok false ->
  signature_accepts a combo -> ~ signature_accepts b combo.
Proof.
  unfold overlaps, compare. intros E0 (pa & Ha & Hc) (pb & Hb & Hd). rewrite Ha, Hb in E0.
  case_decide as Hl.
  - discriminate (all_positions_overlap combo pa pb false Hl E0 Hc Hd).
  - apply Hl. apply Forall2_length in Hc, Hd. lia.
Qed.

(** ** What the checks guarantee *)

Section guarantees.
Context `{Injected}.

(** [Function.resolve]: "None means already resolved; otherwise call it to
    populate parameters": a resolved function keeps its signature. *)
Hypothesis resolve_fills : forall g st st', run_resolve g st = Ok st' ->
  f_resolve (st' g) = false /\
  forall f, f_resolve (st f) = false ->
    f_resolve (st' f) = false /\ f_parameters (st' f) = f_parameters (st f).

Lemma ensure_resolved_ok f st u st' : ensure_resolved f st = (Ok u, st') ->
  f_resolve (st' f) = false /\
  forall g, f_resolve (st g) = false ->
    f_resolve (st' g) = false /\ f_parameters (st' g) = f_parameters (st g).
Proof using resolve_fills.
  unfold ensure_resolved. destruct (f_resolve (st f)) eqn:Er.
  - destruct (run_resolve f st) as [st1|] eqn:E1; [|done]. intros [= _ <-]. by apply resolve_fills.
  - intros [= _ <-]. auto.
Qed.

Lemma signature_accepts_params f g combo : f_parameters f = f_parameters g ->
  signature_accepts f combo <-> signature_accepts g combo.
Proof. unfold signature_accepts. by intros ->. Qed.

(** A candidate for the stub, in the store the loop has reached. *)
Definition covers (stub : FnId) (impls : list FnId) (st : Store) (impl : FnId) : Prop :=
  impl ∈ impls /\ f_resolve (st impl) = false /\
  forall combo, signature_accepts (st stub) combo -> signature_accepts (st impl) combo.

Lemma covers_stub_step stub impls cands impl st r st' :
  impl ∈ impls -> f_resolve (st stub) = false -> Forall (covers stub impls st) cands ->
  covers_stub stub cands impl st = (Ok r, st') ->
  f_resolve (st' stub) = false /\ Forall (covers stub impls st') r.
Proof using resolve_fills.
  intros Hin Hstub Hcands E0. unfold covers_stub in E0. unfold bind at 1, get at 1 in E0.
  destruct (f_is_overload (st impl)); [by apply ret_inv in E0 as [<- <-]|].
  inv_bind E0. apply ensure_resolved_ok in E1 as [Himpl Hkeep].
  inv_bind E0. apply ret_inv in E1 as [<- <-]. inv_bind E0. apply ret_inv in E0 as [<- <-].
  unfold lift in E1. injection E1 as E1 <-.
  destruct (Hkeep stub Hstub) as [Hstub' Hps]. split; [done|].
  assert (Forall (covers stub impls st0) cands) as Hc.
  { eapply Forall_impl; [exact Hcands|]. intros c (Hc & Hr & Ha).
    destruct (Hkeep c Hr) as [Hr' Hpc]. split_and!; [done|done|]. intros combo.
    rewrite (signature_accepts_params _ _ _ Hps), (signature_accepts_params _ _ _ Hpc). apply Ha. }
  destruct a0; [|done]. apply Forall_app. split; [done|]. constructor; [|done].
  split_and!; [done|done|]. intros combo. by apply is_covered_by_accepts.
Qed.

(** C21: a stub is bound to an implementation of its group that accepts every
    combination of types the stub declares. *)
Theorem bind_overload_stub_sound stub impls st st' :
  f_resolve (st stub) = false ->
  bind_overload_stub stub impls st = (Ok tt, st') ->
  exists impl, impl ∈ impls /\ f_bound_to (st' stub) = Some impl /\
    forall combo, signature_accepts (st' stub) combo -> signature_accepts (st' impl) combo.
Proof using resolve_fills.
  intros Hstub E0. unfold bind_overload_stub in E0. inv_bind E0.
  apply (mfold_invariant (fun _ cands st => f_resolve (st stub) = false /\ Forall (covers stub impls st) cands)
    (covers_stub stub)) in E1; [|intros done x cands s1 r s1' Hin [Hs Hc]; by apply covers_stub_step|by split].
  destruct E1 as [_ Hall]. destruct a as [|impl []]; [done| |done].
  injection E0 as <-. apply Forall_inv in Hall as (Hin & _ & Ha).
  exists impl. split; [done|].
  assert (Hps : forall f, f_parameters (set_bound_to stub impl st0 f) = f_parameters (st0 f)).
  { intros f. unfold set_bound_to. by case_decide; subst. }
  split; [unfold set_bound_to; by rewrite decide_True|]. intros combo.
  rewrite !(signature_accepts_params _ _ _ (Hps _)). apply Ha.
Qed.

End guarantees.

(** *** Candidates of a call that passes every parameter *)

Section positional.
Context `{Injected}.
Hypothesis same_type_is : forall t u, same_type t u = bool_decide (t = u).

Lemma contains_elem ls t : contains ls t = bool_decide (t ∈ ls).
Proof using same_type_is.
  unfold contains. apply eq_true_iff_eq. rewrite existsb_exists, bool_decide_eq_true.
  setoid_rewrite same_type_is. setoid_rewrite bool_decide_eq_true. rewrite list_elem_of_In.
  split; [by intros (x & Hx & ->)|eauto].
Qed.

Lemma slot_index_all params : mapM (slot_index params) (all_positional (length params)) = Some (seq 0 (length params)).
Proof.
  apply mapM_Some_2. unfold all_positional. rewrite Forall2_fmap_l.
  apply Forall_Forall2_diag, Forall_forall. intros i Hi%elem_of_seq. simpl. by rewrite decide_True by lia.
Qed.

Lemma nth_params_all params : traverse (nth_param params) (seq 0 (length params)) = Ok params.
Proof.
  cut (forall pre ps, params = pre ++ ps ->
    traverse (nth_param params) (seq (length pre) (length ps)) = Ok ps).
  { intros Hc. by apply (Hc [] params). }
  intros pre ps. revert pre. induction ps as [|p ps IH]; intros pre Heq; [done|].
  simpl. unfold nth_param at 1. rewrite Heq, lookup_app_r, Nat.sub_diag by lia. simpl. rewrite <- Heq.
  specialize (IH (pre ++ [p])). rewrite length_app, Nat.add_1_r in IH. rewrite IH; [done|].
  by rewrite <- app_assoc.
Qed.

(** With every parameter passed, a candidate without type parameters accepts
    what its signature declares. *)
Lemma candidate_accepts st targets m c combo :
  build_candidate st (all_positional (length (params_of (st m)))) targets m = Ok (Some c) ->
  any_wildcard c = false -> f_parameters (st m) <> None ->
  length combo = length (params_of (st m)) ->
  accepts c combo = true <-> signature_accepts (st m) combo.
Proof using same_type_is.
  intros Hb Hw Hnone Hl. unfold build_candidate in Hb.
  destruct (translate_indices _ _) as [indices|] eqn:Et; [|done].
  apply translate_indices_mapM in Et. rewrite slot_index_all in Et. injection Et as <-.
  rewrite nth_params_all in Hb. simpl in Hb.
  destruct (traverse declared_type _) as [types|] eqn:Ety; [|done]. simpl in Hb. injection Hb as <-.
  unfold any_wildcard, accepts, signature_accepts in *. simpl in *.
  apply traverse_Forall2 in Ety. unfold params_of in *.
  destruct (f_parameters (st m)) as [ps|]; [|done]. simpl in *. clear Hnone.
  transitivity (Forall2 (fun x p => exists t, p_type p = Some t /\ x ∈ leaves t) combo ps);
    [|split; [eauto|by intros (? & [= ->] & ?)]].
  revert combo Hl. induction Ety as [|p t ps types Hpt Hts IH]; intros [|x combo] Hl; try done.
  simpl in *. apply orb_false_iff in Hw as [Hw1 Hw2]. unfold id in Hw1. rewrite Hw1. simpl.
  rewrite andb_true_iff, contains_elem, bool_decide_eq_true, IH by (done || lia).
  rewrite Forall2_cons. unfold declared_type in Hpt. destruct (p_type p); [|done]. injection Hpt as ->.
  split; [intros [Hx Hr]; split; [eauto|done]|]. intros [(u & [= ->] & Hx) Hr]. done.
Qed.

(** For a call that passes every parameter by position, a member covered
    by an earlier one accepts nothing the earlier one does not, so the
    earlier one always takes its calls. *)
Theorem shadowed_is_dead st targets fn earlier cf ce combo :
  is_covered_by (st fn) (st earlier) = Ok true ->
  let slots := all_positional (length (params_of (st fn))) in
  build_candidate st slots targets fn = Ok (Some cf) -> any_wildcard cf = false ->
  build_candidate st slots targets earlier = Ok (Some ce) -> any_wildcard ce = false ->
  length combo = length (params_of (st fn)) ->
  accepts cf combo = true -> accepts ce combo = true.
Proof using same_type_is.
  intros Hcov slots Hf Hwf He Hwe Hl Ha.
  destruct (compare_inv _ _ _ Hcov) as (pa & pb & Hpa & Hpb & Hlen & _).
  assert (length (params_of (st earlier)) = length (params_of (st fn))) as Hps.
  { unfold params_of. by rewrite Hpa, Hpb. }
  subst slots. rewrite <- Hps in He.
  assert (f_parameters (st fn) <> None /\ f_parameters (st earlier) <> None) as [Hf0 He0]
    by (by rewrite Hpa, Hpb).
  apply (candidate_accepts _ _ _ _ combo He Hwe He0 ltac:(lia)).
  apply (is_covered_by_accepts _ _ _ Hcov).
  by apply (candidate_accepts _ _ _ _ combo Hf Hwf Hf0 Hl).
Qed.

Lemma build_candidates_cons st m ms slots targets cs :
  build_candidates st (m :: ms) slots targets = Ok cs ->
  exists o cs', build_candidate st slots targets m = Ok o /\
    build_candidates st ms slots targets = Ok cs' /\
    cs = match o with Some c => c :: cs' | None => cs' end.
Proof.
  unfold build_candidates. simpl. destruct (build_candidate _ _ _ m) as [o|]; [|done]. simpl.
  destruct (traverse _ ms) as [os|]; [|done]. simpl. intros [= <-]. exists o, (omap id os).
  by destruct o.
Qed.

(** The candidates that accept a combination come from members whose
    signatures do. *)
Lemma accepting_members st plains n cs combo : forall
  (Hall : Forall (fun f => length (params_of (st f)) = n /\ f_parameters (st f) <> None) plains)
  (Hw : Forall (fun c => any_wildcard c = false) cs),
  build_candidates st plains (all_positional n) (fun p => p) = Ok cs -> length combo = n ->
  exists members, sublist members plains /\
    Forall (fun f => signature_accepts (st f) combo) members /\
    length members = length (List.filter (fun c => accepts c combo) cs).
Proof using same_type_is.
  revert cs. induction plains as [|m plains IH]; intros cs Hall Hw Hb Hl.
  { injection Hb as <-. exists []. split_and!; [constructor|constructor|done]. }
  apply build_candidates_cons in Hb as (o & cs' & Hm & Hb & ->).
  apply Forall_cons in Hall as [[Hn Hnone] Hall].
  destruct o as [c|].
  - apply Forall_cons in Hw as [Hwc Hw].
    destruct (IH cs' Hall Hw Hb Hl) as (members & Hsub & Hacc & Hlen). simpl.
    rewrite <- Hn in Hm.
    pose proof (candidate_accepts _ _ _ _ combo Hm Hwc Hnone ltac:(lia)) as Hiff.
    destruct (accepts c combo).
    + exists (m :: members). split_and!; [by constructor|constructor; [by apply Hiff|done]|].
      simpl. by rewrite Hlen.
    + exists members. split_and!; [by constructor|done|done].
  - destruct (IH cs' Hall Hw Hb Hl) as (members & Hsub & Hacc & Hlen).
    exists members. split_and!; [by constructor|done|done].
Qed.

(** Members that passed the pairwise check. *)
Definition pairwise_disjoint (st : Store) (plains : list FnId) : Prop :=
  ForallOrdPairs (fun f g => overlaps (st f) (st g) = Ok false) plains.

Lemma found_plains_length cs combo :
  length (found_plains cs combo) <= length (List.filter (fun c => accepts c combo) cs).
Proof.
  unfold found_plains. set (found := List.filter (fun c => accepts c combo) cs).
  pose proof (List.filter_length_le (fun c => negb (any_wildcard c)) found) as Hle.
  by destruct (List.filter (fun c => negb (any_wildcard c)) found).
Qed.

(** Plain implementations that passed the pairwise overlap check never
    tie on a call that passes every parameter by position. *)
Theorem checked_plains_unambiguous st plains n cs combo :
  pairwise_disjoint st plains ->
  Forall (fun f => length (params_of (st f)) = n /\ f_parameters (st f) <> None) plains ->
  build_candidates st plains (all_positional n) (fun p => p) = Ok cs ->
  Forall (fun c => any_wildcard c = false) cs ->
  length combo = n ->
  length (found_plains cs combo) <= 1.
Proof using same_type_is.
  intros Hdis Hall Hb Hw Hl. etransitivity; [apply found_plains_length|].
  destruct (accepting_members _ _ _ _ _ Hall Hw Hb Hl) as (members & Hsub & Hacc & <-).
  destruct members as [|f [|g members]]; simpl; [lia|lia|exfalso].
  apply Forall_cons in Hacc as [Hf Hacc]. apply Forall_inv in Hacc as Hg.
  refine (overlaps_false _ _ _ _ Hf Hg). clear -Hdis Hsub.
  remember (f :: g :: members) as l eqn:El. revert f g members El.
  induction Hsub as [|x l1 l2 Hs IH|x l1 l2 Hs IH]; intros f g members El; [done| |].
  - injection El as -> ->. inversion Hdis as [|? ? Hx]; subst.
    rewrite Forall_forall in Hx. apply Hx. apply (sublist_subseteq _ _ Hs). left.
  - inversion Hdis; subst. by eapply IH.
Qed.

End positional.

(** ** Samples *)

(** Resolving only clears the callback, as it does for functions whose
    parameters were annotated from the start. *)
Definition clear_resolve (f : FnId) (st : Store) : Store := fun g =>
  if decide (g = f) then
    mkFunction (f_qualname (st g)) (f_parameters (st g)) (f_line (st g)) (f_is_overload (st g))
      (f_broken (st g)) (f_bound_to (st g)) false
  else st g.

Definition clearing_injected : Injected :=
  Build_Injected (fun a b => bool_decide (a = b)) None (fun _ => None) (fun f st => Ok (clear_resolve f st)).

Lemma clearing_fills g st st' : @run_resolve clearing_injected g st = Ok st' ->
  f_resolve (st' g) = false /\
  forall f, f_resolve (st f) = false -> f_resolve (st' f) = false /\ f_parameters (st' f) = f_parameters (st f).
Proof.
  intros [= <-]. unfold clear_resolve. split; [by rewrite decide_True|].
  intros f Hf. by case_decide; subst.
Qed.

Definition pending_impl : Function :=
  mkFunction "foo" (Some [mkParam "v" (Some tyAB) false]) 2 false false None true.
Definition pending_store : Store := fun f => if decide (f = 0) then sample_stub else pending_impl.

Lemma bind_overload_stub_sound_witness :
  exists st', @bind_overload_stub clearing_injected 0 [1] pending_store = (Ok tt, st') /\
    f_bound_to (st' 0) = Some 1.
Proof.
  eexists. split; [reflexivity|].
  destruct (@bind_overload_stub_sound clearing_injected clearing_fills 0 [1] pending_store _ eq_refl eq_refl)
    as (impl & Hin & Hb & _).
  apply list_elem_of_singleton in Hin. subst impl. exact Hb.
Defined.

(** Two [@overload] members that declare the same types. *)
Definition shadow_store : Store := fun f =>
  match f with
  | 0 => sample_fn "foo_wide" [("v", tyAB, false)] 1 true None
  | _ => sample_fn "foo_a" [("v", tyA, false)] 2 true None
  end.

Lemma shadowed_is_dead_witness :
  @accepts plain_injected (mkCandidate 0 0 [[tyA; tyB]] [mkParam "v" (Some tyAB) false] [false] [tyAB])
    [tyA] = true.
Proof.
  exact (@shadowed_is_dead plain_injected (fun _ _ => eq_refl) shadow_store (fun m => m) 1 0
    (mkCandidate 1 1 [[tyA]] [mkParam "v" (Some tyA) false] [false] [tyA]) _ [tyA]
    eq_refl eq_refl eq_refl eq_refl eq_refl eq_refl eq_refl).
Defined.

Definition apart_store : Store := fun f =>
  match f with
  | 0 => sample_fn "foo_a" [("v", tyA, false)] 1 false None
  | _ => sample_fn "foo_b" [("v", tyB, false)] 2 false None
  end.

Lemma checked_plains_unambiguous_witness :
  length (@found_plains plain_injected
    [mkCandidate 0 0 [[tyA]] [mkParam "v" (Some tyA) false] [false] [tyA];
     mkCandidate 1 1 [[tyB]] [mkParam "v" (Some tyB) false] [false] [tyB]] [tyB]) <= 1.
Proof.
  refine (@checked_plains_unambiguous plain_injected (fun _ _ => eq_refl) apart_store [0; 1] 1 _ [tyB]
    _ _ eq_refl _ eq_refl).
  - repeat constructor.
  - repeat constructor; discriminate.
  - repeat constructor.
Defined.

(** The later member differs by a default: one argument reaches only it. *)
Definition default_store : Store := fun f =>
  match f with
  | 0 => sample_fn "foo_both" [("v", tyA, false); ("w", tyB, false)] 1 true None
  | _ => sample_fn "foo_dflt" [("v", tyA, false); ("w", tyB, true)] 2 true None
  end.

(** The shadowing check ignores defaults: it rejects as unreachable a
    member that differs from an earlier one by a default value, although a
    call that leaves that argument out reaches only it. *)
Theorem shadow_check_rejects_reachable :
  (@check_overload_shadowing plain_injected 1 [] [0; 1] default_store).1 = Err (Shadowed 1 0) /\
  @resolve_call plain_injected default_store [] [0; 1] [tyA] [] = Ok (mkPlan [] 1).
Proof. split; reflexivity. Qed.
