(* ===== verification/RawList.v ===== *)
(** * The growable array under [list] ([lib/builtins/__list.py])

    [RawList] is a byte buffer, an element size, a length and a capacity; its
    operations copy and shift bytes with [memcpy] and [memmove].  The model
    keeps the bytes: an access outside the buffer is a [Fault] (undefined
    behaviour of the compiled program), arithmetic under [panic_arithmetic]
    that leaves the [usize] range is a [Panic].  The specification is a list of
    elements; [run_refines] shows the buffer implements it. *)

From Stdlib Require Import Init.Byte.
From S2P Require Import Prelude.

Local Open Scope monad_scope.

(** ** Memory and arithmetic *)

Inductive abort :=
| Panic (msg : string)
| OutOfMemory
| Fault.

(** [memcpy]/[memmove] from and to a buffer, at a byte offset. *)
Definition mem_read (off n : nat) (d : list byte) : option (list byte) :=
  if decide (off + n <= length d) then Some (take n (drop off d)) else None.

Definition mem_write (off : nat) (bytes d : list byte) : option (list byte) :=
  if decide (off + length bytes <= length d)
  then Some (take off d ++ bytes ++ drop (off + length bytes) d) else None.

(** The platform: the largest [usize], and the allocator of the C library
    ([None] when it has no memory). *)
Class Platform := {
  usize_max : Z;
  malloc : nat -> option (list byte);
}.

Class PlatformLaws `{Platform} : Prop := {
  malloc_length n d : malloc n = Some d -> length d = n;
}.

(** ** [RawList] *)

Record RawList := mkRawList {
  data : list byte;
  element_size : nat;
  len : nat;
  cap : nat;
}.

Abbreviation L A := (M RawList abort A).

Definition set_data d (r : RawList) := mkRawList d (element_size r) (len r) (cap r).
Definition set_len n (r : RawList) := mkRawList (data r) (element_size r) n (cap r).
Definition set_buffer d c (r : RawList) := mkRawList d (element_size r) (len r) c.

Inductive IndexError := mkIndexError.

Section rawlist.
Context `{Platform}.

(** A [usize] result under [panic_arithmetic]. *)
Definition checked (msg : string) (n : nat) : L nat :=
  if (Z.of_nat n <=? usize_max)%Z then ret n else raise (Panic msg).

Definition checked_sub (msg : string) (a b : nat) : L nat :=
  if b <=? a then ret (a - b) else raise (Panic msg).

Definition or_fault {A} (o : option A) : L A :=
  match o with Some a => ret a | None => raise Fault end.

(** [sys.alloc[u8]( n )] *)
Definition alloc (n : nat) : L (list byte) :=
  match malloc n with Some d => ret d | None => raise OutOfMemory end.

Definition init (es initial_capacity : nat) : L unit :=
  let* data_bytes := checked "RawList init: capacity overflow" (initial_capacity * es) in
  let* d := alloc data_bytes in
  modify (fun _ => mkRawList d es 0 initial_capacity).

(** The byte offset of a slot. *)
Definition slot_ptr (idx : nat) : L nat :=
  let* r := get in checked "RawList _slot_ptr: offset overflow" (idx * element_size r).

Definition ptr_at (idx : nat) : L (result IndexError nat) :=
  let* r := get in
  if len r <=? idx then ret (Err mkIndexError)
  else let* p := slot_ptr idx in ret (Ok p).

Definition grow : L unit :=
  let* r := get in
  let* new_cap := checked "impossibly large RawList size requested" (cap r * 2) in
  let* new_data_bytes := checked "impossibly large RawList size requested" (new_cap * element_size r) in
  let* new_data := alloc new_data_bytes in
  let* n := checked "impossibly large RawList size requested" (len r * element_size r) in
  let* old := or_fault (mem_read 0 n (data r)) in
  let* copied := or_fault (mem_write 0 old new_data) in
  modify (set_buffer copied new_cap).

Definition grow_if_full : L unit :=
  let* r := get in if cap r <=? len r then grow else ret tt.

(** [memcpy( _slot_ptr( idx ), val_ptr, element_size )] *)
Definition write_slot (idx : nat) (val : list byte) : L unit :=
  let* off := slot_ptr idx in
  let* r := get in
  let* bytes := or_fault (mem_read 0 (element_size r) val) in
  let* d := or_fault (mem_write off bytes (data r)) in
  modify (set_data d).

(** [memmove( _slot_ptr( dest ), _slot_ptr( src ), count * element_size )] *)
Definition shift_slots (msg : string) (dest src count : nat) : L unit :=
  let* r := get in
  let* shift_bytes := checked msg (count * element_size r) in
  let* to := slot_ptr dest in
  let* from := slot_ptr src in
  let* bytes := or_fault (mem_read from shift_bytes (data r)) in
  let* d := or_fault (mem_write to bytes (data r)) in
  modify (set_data d).

Definition append (val : list byte) : L unit :=
  grow_if_full ;;;
  let* r := get in
  write_slot (len r) val ;;;
  let* n := checked "RawList _append: overflow" (len r + 1) in
  modify (set_len n).

Definition insert_at (idx : nat) (val : list byte) : L unit :=
  let* r := get in
  let clamped_idx := if len r <? idx then len r else idx in
  grow_if_full ;;;
  let* shift_count := checked_sub "RawList _insert_at: shift overflow" (len r) clamped_idx in
  (if 0 <? shift_count then
     let* dest_idx := checked "RawList _insert_at: shift overflow" (clamped_idx + 1) in
     shift_slots "RawList _insert_at: shift overflow" dest_idx clamped_idx shift_count
   else ret tt) ;;;
  write_slot clamped_idx val ;;;
  let* n := checked "RawList _insert_at: overflow" (len r + 1) in
  modify (set_len n).

Definition remove_at (idx : nat) : L (result IndexError unit) :=
  let* r := get in
  if len r <=? idx then ret (Err mkIndexError)
  else
    let* tail_start := checked "RawList _remove_at: shift overflow" (idx + 1) in
    let* shift_count := checked_sub "RawList _remove_at: shift overflow" (len r) tail_start in
    (if 0 <? shift_count
     then shift_slots "RawList _remove_at: shift overflow" idx tail_start shift_count
     else ret tt) ;;;
    let* n := checked_sub "RawList _remove_at: underflow" (len r) 1 in
    modify (set_len n) ;;;
    ret (Ok tt).

Definition clear : L unit := modify (set_len 0).

(** *** [UnsafeList[T]], for elements that own nothing *)

Definition getitem (idx : nat) : L (result IndexError (list byte)) :=
  let* p := ptr_at idx in
  match p with
  | Err e => ret (Err e)
  | Ok off =>
      let* r := get in
      let* v := or_fault (mem_read off (element_size r) (data r)) in
      ret (Ok v)
  end.

Definition setitem (idx : nat) (val : list byte) : L (result IndexError unit) :=
  let* p := ptr_at idx in
  match p with
  | Err e => ret (Err e)
  | Ok off =>
      let* r := get in
      let* bytes := or_fault (mem_read 0 (element_size r) val) in
      let* d := or_fault (mem_write off bytes (data r)) in
      modify (set_data d) ;;;
      ret (Ok tt)
  end.

End rawlist.

(** ** The specification: a list of elements *)

Section list_spec.
Context {A : Type}.

Definition list_insert_at (idx : nat) (x : A) (l : list A) : list A := take idx l ++ x :: drop idx l.

Definition list_erase_at (idx : nat) (l : list A) : result IndexError (list A) :=
  if decide (idx < length l) then Ok (take idx l ++ drop (S idx) l) else Err mkIndexError.

Definition list_getitem (idx : nat) (l : list A) : result IndexError A :=
  match l !! idx with Some x => Ok x | None => Err mkIndexError end.

Definition list_setitem (idx : nat) (x : A) (l : list A) : result IndexError (list A) :=
  if decide (idx < length l) then Ok (<[idx:=x]> l) else Err mkIndexError.
End list_spec.

(** Operations, what they return, and both interpretations. *)
Inductive Op :=
| OpAppend (v : list byte)
| OpInsert (idx : nat) (v : list byte)
| OpRemove (idx : nat)
| OpGet (idx : nat)
| OpSet (idx : nat) (v : list byte)
| OpClear.

Inductive Out :=
| ODone
| OIndexError
| OValue (v : list byte).

Definition out_of {A} (f : A -> Out) (r : result IndexError A) : Out :=
  match r with Ok a => f a | Err _ => OIndexError end.

Definition run_op `{Platform} (o : Op) : L Out :=
  match o with
  | OpAppend v => append v ;;; ret ODone
  | OpInsert i v => insert_at i v ;;; ret ODone
  | OpRemove i => let* r := remove_at i in ret (out_of (fun _ => ODone) r)
  | OpGet i => let* r := getitem i in ret (out_of OValue r)
  | OpSet i v => let* r := setitem i v in ret (out_of (fun _ => ODone) r)
  | OpClear => clear ;;; ret ODone
  end.

Definition keep {A} (l : list A) (r : result IndexError (list A)) : Out * list A :=
  match r with Ok l' => (ODone, l') | Err _ => (OIndexError, l) end.

Definition spec_op (o : Op) (l : list (list byte)) : Out * list (list byte) :=
  match o with
  | OpAppend v => (ODone, l ++ [v])
  | OpInsert i v => (ODone, list_insert_at i v l)
  | OpRemove i => keep l (list_erase_at i l)
  | OpGet i => (out_of OValue (list_getitem i l), l)
  | OpSet i v => keep l (list_setitem i v l)
  | OpClear => (ODone, [])
  end.

Definition run_ops `{Platform} (ops : list Op) : L (list Out) :=
  mfold (fun outs o => let* out := run_op o in ret (outs ++ [out])) ops [].

Definition spec_ops (ops : list Op) (l : list (list byte)) : list Out * list (list byte) :=
  fold_left (fun acc o => let '(out, l') := spec_op o acc.2 in (acc.1 ++ [out], l')) ops ([], l).

(** Values have the element size. *)
Definition op_fits (es : nat) (o : Op) : Prop :=
  match o with OpAppend v | OpInsert _ v | OpSet _ v => length v = es | _ => True end.

(** ** The buffer holds the list *)

Definition uniform (es : nat) (l : list (list byte)) : Prop := Forall (fun e => length e = es) l.

Record holds `{Platform} (r : RawList) (l : list (list byte)) : Prop := {
  holds_uniform : uniform (element_size r) l;
  holds_len : length l = len r;
  holds_data : exists rest, data r = concat l ++ rest;
  holds_buffer : length (data r) = cap r * element_size r;
  holds_fits : len r <= cap r;
  holds_cap : 0 < cap r;
  holds_size : 0 < element_size r;
  holds_range : (Z.of_nat (cap r * element_size r) <= usize_max)%Z;
}.

(** The only ways an operation may stop. *)
Definition exhausted `{Platform} (es : nat) (e : abort) (r : RawList) : Prop :=
  match e with
  | OutOfMemory => malloc (cap r * 2 * es) = None
  | Panic _ => (usize_max < Z.of_nat (cap r * 2 * es))%Z
  | Fault => False
  end.

Lemma uniform_concat es l : uniform es l -> length (concat l) = length l * es.
Proof. induction 1 as [|e l He _ IH]; simpl; [done|]. by rewrite length_app, IH, He. Qed.

Lemma uniform_take es i l : uniform es l -> uniform es (take i l).
Proof. apply Forall_take. Qed.

Lemma uniform_drop es i l : uniform es l -> uniform es (drop i l).
Proof. apply Forall_drop. Qed.

(** The offset of slot [i] is the length of what is before it. *)
Lemma slot_offset es i l : uniform es l -> i <= length l -> i * es = length (concat (take i l)).
Proof. intros Hu Hi. rewrite (uniform_concat es) by by apply uniform_take. by rewrite length_take_le. Qed.

Lemma concat_split (i : nat) (l : list (list byte)) : concat l = concat (take i l) ++ concat (drop i l).
Proof. by rewrite <- concat_app, take_drop. Qed.

Lemma mem_write_app p b m r off :
  off = length p -> length m = length b -> mem_write off b (p ++ m ++ r) = Some (p ++ b ++ r).
Proof.
  intros -> Hl. unfold mem_write. rewrite decide_True by (rewrite !length_app; lia).
  rewrite take_app_length, <- Hl, <- drop_drop, drop_app_length, drop_app_length. done.
Qed.

Lemma mem_read_app p m r off n : off = length p -> n = length m -> mem_read off n (p ++ m ++ r) = Some m.
Proof.
  intros -> ->. unfold mem_read. rewrite decide_True by (rewrite !length_app; lia).
  by rewrite drop_app_length, take_app_length.
Qed.

Lemma mem_write_start b m r : length m = length b -> mem_write 0 b (m ++ r) = Some (b ++ r).
Proof. intros Hl. by apply (mem_write_app [] b m r). Qed.

Lemma mem_read_start m r n : n = length m -> mem_read 0 n (m ++ r) = Some m.
Proof. intros Hl. by apply (mem_read_app [] m r). Qed.

Lemma split_at {A} n (l : list A) : n <= length l -> exists a b, l = a ++ b /\ length a = n.
Proof. intros Hn. exists (take n l), (drop n l). rewrite take_drop, length_take_le by done. done. Qed.

Section refinement.
Context `{PlatformLaws}.

Lemma bind_or_fault {A B} (a : A) (k : A -> L B) (r : RawList) : bind (or_fault (Some a)) k r = k a r.
Proof. done. Qed.

Lemma checked_ok msg n (r : RawList) : (Z.of_nat n <= usize_max)%Z -> checked msg n r = (Ok n, r).
Proof. intros Hn. unfold checked. by rewrite (proj2 (Z.leb_le _ _) Hn). Qed.

Lemma checked_sub_ok msg a b (r : RawList) : b <= a -> checked_sub msg a b r = (Ok (a - b), r).
Proof. intros Hn. unfold checked_sub. by rewrite (proj2 (Nat.leb_le _ _) Hn). Qed.

Lemma slot_ptr_ok r idx : (Z.of_nat (idx * element_size r) <= usize_max)%Z ->
  slot_ptr idx r = (Ok (idx * element_size r), r).
Proof. intros Hi. unfold slot_ptr, bind, get. by apply checked_ok. Qed.

Lemma grow_spec r l : holds r l ->
  match grow r with
  | (Ok _, r') => holds r' l /\ element_size r' = element_size r /\ len r' = len r /\ cap r' = cap r * 2
  | (Err e, r') => exhausted (element_size r) e r' /\ cap r' = cap r
  end.
Proof.
  intros Hh. destruct Hh as [Hu Hl [rest Hd] Hb Hf Hc Hs Hr].
  unfold grow. unfold bind at 1, get.
  destruct (decide (Z.of_nat (cap r * 2 * element_size r) <= usize_max)%Z) as [Hfit|Hfit].
  2:{ unfold bind, checked. destruct (_ <=? _)%Z; [|split; [simpl; lia|done]].
      unfold ret at 1. simpl. rewrite (proj2 (Z.leb_gt _ _)) by lia. split; [simpl; lia|done]. }
  rewrite (bind_ok _ _ r (cap r * 2) r) by (apply checked_ok; nia).
  rewrite (bind_ok _ _ r _ r) by by apply checked_ok.
  unfold alloc. destruct (malloc (cap r * 2 * element_size r)) as [d|] eqn:Em; [|by split].
  apply malloc_length in Em. rewrite bind_ret.
  rewrite (bind_ok _ _ r (len r * element_size r) r) by (apply checked_ok; nia).
  rewrite <- Hl, <- (uniform_concat (element_size r) l Hu), Hd.
  rewrite mem_read_start, bind_or_fault by done.
  destruct (split_at (length (concat l)) d) as (p & q & -> & Hp).
  { rewrite Em, (uniform_concat _ _ Hu). nia. }
  rewrite mem_write_start, bind_or_fault by done. simpl.
  split_and!; [|done|done|done].
  rewrite length_app in Em. split; simpl; [done|done|by eexists|rewrite length_app; nia|nia|lia|done|done].
Qed.

(** After making room there is a slot past the end. *)
Lemma grow_if_full_spec r l : holds r l ->
  match grow_if_full r with
  | (Ok _, r') => holds r' l /\ element_size r' = element_size r /\ len r' = len r /\ len r' < cap r' /\
                  cap r' <= Nat.max (cap r) (2 * len r)
  | (Err e, r') => exhausted (element_size r) e r' /\ cap r' = cap r
  end.
Proof.
  intros Hh. unfold grow_if_full, bind, get. pose proof (holds_cap _ _ Hh).
  destruct (cap r <=? len r) eqn:E0.
  - pose proof (grow_spec r l Hh) as Hg. pose proof (holds_fits _ _ Hh).
    apply Nat.leb_le in E0.
    destruct (grow r) as [[u|e] r']; [|done]. destruct Hg as (Hh' & He & Hlen & Hcap).
    split_and!; [done|done|done|lia|lia].
  - apply Nat.leb_gt in E0. split_and!; [done|done|done|done|lia].
Qed.

(** Writing the slot after [a], whatever it held. *)
Lemma write_slot_spec r idx a m rest v : (Z.of_nat (idx * element_size r) <= usize_max)%Z ->
  data r = a ++ m ++ rest -> length a = idx * element_size r -> length m = element_size r ->
  length v = element_size r ->
  write_slot idx v r = (Ok tt, set_data (a ++ v ++ rest) r).
Proof.
  intros Hi Hd Ha Hm Hv. unfold write_slot.
  rewrite (bind_ok _ _ r _ r (slot_ptr_ok r idx Hi)). unfold bind at 1, get.
  replace (mem_read 0 (element_size r) v) with (Some v).
  2:{ rewrite <- (app_nil_r v) at 2. symmetry. by apply mem_read_start. }
  rewrite bind_or_fault, Hd, (mem_write_app a v m rest) by lia. done.
Qed.

(** Shifting the elements [b] found [from] slots in to [to] slots in. *)
Lemma shift_slots_spec r msg from to count a b rest a' m rest' :
  (Z.of_nat ((from + count) * element_size r) <= usize_max)%Z ->
  (Z.of_nat (to * element_size r) <= usize_max)%Z ->
  data r = a ++ b ++ rest -> length a = from * element_size r -> length b = count * element_size r ->
  data r = a' ++ m ++ rest' -> length a' = to * element_size r -> length m = length b ->
  shift_slots msg to from count r = (Ok tt, set_data (a' ++ b ++ rest') r).
Proof.
  intros Hf Ht Hd Ha Hb Hd' Ha' Hm. unfold shift_slots. unfold bind at 1, get.
  rewrite (bind_ok _ _ r (count * element_size r) r) by (apply checked_ok; nia).
  rewrite (bind_ok _ _ r _ r (slot_ptr_ok r to Ht)).
  rewrite (bind_ok _ _ r (from * element_size r) r) by (apply slot_ptr_ok; nia).
  rewrite Hd at 1. rewrite (mem_read_app a b rest), bind_or_fault by done.
  rewrite Hd', (mem_write_app a' b m rest') by done. done.
Qed.

Lemma append_spec r l v : holds r l -> length v = element_size r ->
  match append v r with
  | (Ok _, r') => holds r' (l ++ [v]) /\ element_size r' = element_size r /\
                  cap r' <= Nat.max (cap r) (2 * len r)
  | (Err e, r') => exhausted (element_size r) e r' /\ cap r' = cap r
  end.
Proof.
  intros Hh0 Hv. unfold append. pose proof (grow_if_full_spec r l Hh0) as Hg.
  unfold bind at 1. destruct (grow_if_full r) as [[u|e] r1]; [|done].
  destruct Hg as (Hh & He & _ & Hlt & Hle). rewrite <- He in *. clear Hh0.
  pose proof Hh as [Hu Hl [rest Hd] Hb Hf Hc Hs Hr]. unfold bind at 1, get.
  pose proof (uniform_concat _ _ Hu) as Hlc.
  destruct (split_at (element_size r1) rest) as (m & rest' & -> & Hm).
  { apply (f_equal length) in Hd. rewrite length_app in Hd. nia. }
  rewrite (bind_ok _ _ r1 _ _ (write_slot_spec r1 (len r1) (concat l) m rest' v ltac:(nia) Hd
    ltac:(nia) Hm Hv)).
  rewrite (bind_ok _ _ _ (len r1 + 1) (set_data (concat l ++ v ++ rest') r1))
    by (apply checked_ok; nia).
  simpl. split_and!; [|done|done]. split; simpl.
  - apply Forall_app. split; [done|by constructor].
  - rewrite length_app. simpl. lia.
  - exists rest'. rewrite concat_app. simpl. by rewrite app_nil_r, <- app_assoc.
  - rewrite Hd in Hb. rewrite !length_app in *. lia.
  - lia.
  - done.
  - done.
  - done.
Qed.

(** A full state after the bytes have been arranged. *)
Lemma holds_arranged r l l' rest n : holds r l ->
  uniform (element_size r) l' -> length l' = n -> n <= cap r ->
  length (concat l' ++ rest) = length (data r) ->
  holds (set_len n (set_data (concat l' ++ rest) r)) l'.
Proof.
  intros [Hu Hl Hd Hb Hf Hc Hs Hr] Hu' Hl' Hn Hlen.
  split; simpl; [done|done|by eexists|by rewrite Hlen|done|done|done|done].
Qed.

Lemma uniform_insert es idx v l : uniform es l -> length v = es -> uniform es (list_insert_at idx v l).
Proof.
  intros Hu Hv. unfold list_insert_at. apply Forall_app. split; [by apply uniform_take|].
  constructor; [done|by apply uniform_drop].
Qed.

(** Opening a gap at [c] and filling it. *)
Lemma open_gap r l c v : holds r l -> len r < cap r -> c <= len r -> length v = element_size r ->
  exists rest r2,
    (if 0 <? len r - c then
       let* dest_idx := checked "RawList _insert_at: shift overflow" (c + 1) in
       shift_slots "RawList _insert_at: shift overflow" dest_idx c (len r - c)
     else ret tt) r = (Ok tt, r2) /\
    write_slot c v r2 = (Ok tt, set_data (concat (list_insert_at c v l) ++ rest) r) /\
    length (concat (list_insert_at c v l) ++ rest) = length (data r).
Proof.
  intros Hh Hlt Hc Hv. pose proof Hh as [Hu Hl [rest0 Hd] Hb Hf Hcap Hs Hr].
  pose proof (uniform_concat _ _ Hu) as Hlc.
  destruct (split_at (element_size r) rest0) as (m & rest & -> & Hm).
  { apply (f_equal length) in Hd. rewrite length_app in Hd. nia. }
  set (a := concat (take c l)). set (b := concat (drop c l)).
  assert (Ha : length a = c * element_size r) by (symmetry; apply slot_offset; [done|lia]).
  assert (Hb' : length b = (len r - c) * element_size r).
  { subst b. rewrite (uniform_concat _ _ (uniform_drop _ c _ Hu)), length_drop, Hl. done. }
  assert (Hd2 : data r = a ++ b ++ m ++ rest) by (by rewrite Hd, (concat_split c l), <- app_assoc).
  assert (Hins : concat (list_insert_at c v l) ++ rest = a ++ v ++ b ++ rest).
  { unfold list_insert_at. rewrite concat_app. simpl. by rewrite <- !app_assoc. }
  exists rest. rewrite Hins. destruct (0 <? len r - c) eqn:E0.
  - apply Nat.ltb_lt in E0. destruct (split_at (element_size r) (b ++ m)) as (p & q & Hpq & Hp).
    { rewrite length_app. lia. }
    assert (Hq : length q = length b) by (apply (f_equal length) in Hpq; rewrite !length_app in Hpq; lia).
    assert (Hd3 : data r = (a ++ p) ++ q ++ rest).
    { rewrite Hd2, (app_assoc b m rest), Hpq, <- !app_assoc. done. }
    exists (set_data ((a ++ p) ++ b ++ rest) r). split_and!.
    + rewrite (bind_ok _ _ r (c + 1) r) by (apply checked_ok; nia).
      apply (shift_slots_spec r _ c (c + 1) (len r - c) a b (m ++ rest) (a ++ p) q rest);
        [nia|nia|done|done|done|done|rewrite length_app; lia|done].
    + rewrite (write_slot_spec _ c a p (b ++ rest) v); simpl; [done|nia|by rewrite <- app_assoc|done|done|done].
    + rewrite Hd2, !length_app. lia.
  - apply Nat.ltb_ge in E0. assert (b = []) as Hbn by (apply length_zero_iff_nil; nia).
    rewrite Hbn in *. exists r. split_and!; [done| |].
    + by rewrite (write_slot_spec r c a m rest v) by (done || nia).
    + rewrite Hd2, !length_app. simpl. lia.
Qed.

Lemma insert_at_spec r l idx v : holds r l -> length v = element_size r ->
  match insert_at idx v r with
  | (Ok _, r') => holds r' (list_insert_at idx v l) /\ element_size r' = element_size r /\
                  cap r' <= Nat.max (cap r) (2 * len r)
  | (Err e, r') => exhausted (element_size r) e r' /\ cap r' = cap r
  end.
Proof.
  intros Hh0 Hv. unfold insert_at. unfold bind at 1, get.
  pose proof (grow_if_full_spec r l Hh0) as Hg.
  unfold bind at 1. destruct (grow_if_full r) as [[u|e] r1]; [|done].
  destruct Hg as (Hh & He & Hlen & Hlt & Hle). rewrite <- He, <- Hlen in *. clear Hlen He Hh0.
  set (c := if len r1 <? idx then len r1 else idx).
  assert (Hc : c <= len r1).
  { subst c. destruct (len r1 <? idx) eqn:E0; [lia|]. apply Nat.ltb_ge in E0. lia. }
  rewrite (bind_ok _ _ r1 (len r1 - c) r1) by by apply checked_sub_ok.
  destruct (open_gap r1 l c v Hh Hlt Hc Hv) as (rest & r2 & E1 & E2 & E3).
  rewrite (bind_ok _ _ r1 tt r2 E1), (bind_ok _ _ r2 tt _ E2).
  pose proof (holds_range _ _ Hh). pose proof (holds_size _ _ Hh).
  rewrite (bind_ok _ _ _ (len r1 + 1) (set_data (concat (list_insert_at c v l) ++ rest) r1))
    by (apply checked_ok; nia).
  simpl. assert (list_insert_at c v l = list_insert_at idx v l) as Heq.
  { subst c. destruct (len r1 <? idx) eqn:E0; [|done]. apply Nat.ltb_lt in E0.
    pose proof (holds_len _ _ Hh). unfold list_insert_at.
    rewrite !take_ge, !drop_ge by lia. done. }
  rewrite <- Heq. split_and!; [|done|done]. apply holds_arranged with l; [done| | |lia|done].
  - apply uniform_insert; [by apply holds_uniform|done].
  - unfold list_insert_at. rewrite length_app. simpl. rewrite length_take, length_drop, (holds_len _ _ Hh). lia.
Qed.

Lemma uniform_lookup es l idx x : uniform es l -> l !! idx = Some x -> length x = es.
Proof. intros Hu Hx. eapply Forall_lookup_1 in Hu; [exact Hu|exact Hx]. Qed.

(** The bytes around element [idx]. *)
Lemma data_around r l idx x rest : holds r l -> data r = concat l ++ rest -> l !! idx = Some x ->
  data r = concat (take idx l) ++ x ++ concat (drop (S idx) l) ++ rest /\
  length (concat (take idx l)) = idx * element_size r /\ length x = element_size r.
Proof.
  intros Hh Hd Hx. pose proof (holds_uniform _ _ Hh) as Hu. split_and!.
  - rewrite Hd. rewrite <- (take_drop_middle l idx x Hx) at 1. rewrite concat_app. simpl.
    by rewrite <- !app_assoc.
  - symmetry. apply slot_offset; [done|]. apply lookup_lt_Some in Hx. lia.
  - by eapply uniform_lookup.
Qed.

(** Closing the gap over element [idx]. *)
Lemma close_gap r l idx x : holds r l -> l !! idx = Some x ->
  exists rest, let l' := take idx l ++ drop (S idx) l in
    (if 0 <? len r - (idx + 1)
     then shift_slots "RawList _remove_at: shift overflow" idx (idx + 1) (len r - (idx + 1))
     else ret tt) r = (Ok tt, set_data (concat l' ++ rest) r) /\
    length (concat l' ++ rest) = length (data r).
Proof.
  intros Hh Hx. pose proof Hh as [Hu Hl [rest Hd] Hb Hf Hcap Hs Hr].
  destruct (data_around r l idx x rest Hh Hd Hx) as (Hd2 & Ha & Hxl).
  apply lookup_lt_Some in Hx.
  set (a := concat (take idx l)) in *. set (b := concat (drop (S idx) l)) in *.
  assert (Hb' : length b = (len r - (idx + 1)) * element_size r).
  { subst b. rewrite (uniform_concat _ _ (uniform_drop _ (S idx) _ Hu)), length_drop, Hl. f_equal. lia. }
  assert (Hcat : concat (take idx l ++ drop (S idx) l) = a ++ b) by apply concat_app.
  destruct (0 <? len r - (idx + 1)) eqn:E1.
  - apply Nat.ltb_lt in E1.
    destruct (split_at (length b) (x ++ b)) as (m & q & Hmq & Hm); [rewrite length_app; lia|].
    assert (Hd3 : data r = a ++ m ++ q ++ rest).
    { rewrite Hd2, (app_assoc x b rest), Hmq, <- app_assoc. done. }
    exists (q ++ rest). simpl. rewrite Hcat, <- app_assoc. split.
    + apply (shift_slots_spec r _ (idx + 1) idx _ (a ++ x) b rest a m (q ++ rest));
        [nia|nia|by rewrite <- app_assoc|rewrite length_app; lia|done|done|done|done].
    + rewrite Hd3, !length_app. lia.
  - apply Nat.ltb_ge in E1. assert (b = []) as Hbn by (apply length_zero_iff_nil; nia).
    exists (x ++ rest). simpl. rewrite Hcat, Hbn, app_nil_r.
    rewrite Hbn in Hd2. simpl in Hd2. split; [|by rewrite Hd2].
    unfold ret, set_data. rewrite <- Hd2. by destruct r.
Qed.

Lemma remove_at_spec r l idx : holds r l ->
  exists r', element_size r' = element_size r /\ cap r' = cap r /\
    match list_erase_at idx l with
    | Ok l' => remove_at idx r = (Ok (Ok tt), r') /\ holds r' l'
    | Err e => remove_at idx r = (Ok (Err e), r') /\ holds r' l
    end.
Proof.
  intros Hh. pose proof (holds_len _ _ Hh) as Hl. pose proof (holds_fits _ _ Hh) as Hf.
  pose proof (holds_range _ _ Hh) as Hr. pose proof (holds_size _ _ Hh) as Hs.
  unfold remove_at, list_erase_at. rewrite bind_get, Hl.
  destruct (len r <=? idx) eqn:E0.
  { apply Nat.leb_le in E0. exists r. rewrite decide_False by lia. done. }
  apply Nat.leb_gt in E0. rewrite decide_True by done.
  destruct (lookup_lt_is_Some_2 l idx) as [x Hx]; [lia|].
  destruct (close_gap r l idx x Hh Hx) as (rest & E1 & E2).
  rewrite (bind_ok _ _ r (idx + 1) r) by (apply checked_ok; nia).
  rewrite (bind_ok _ _ r (len r - (idx + 1)) r) by (apply checked_sub_ok; lia).
  rewrite (bind_ok _ _ r _ _ E1).
  eexists. split; [|split; [|split; [rewrite (bind_ok _ _ _ (len r - 1) _ (checked_sub_ok _ (len r) 1 _ ltac:(lia))); reflexivity|]]].
  - done.
  - done.
  - apply holds_arranged with l; [done| | |lia|done].
    + apply Forall_app. pose proof (holds_uniform _ _ Hh).
      split; [by apply uniform_take|by apply uniform_drop].
    + rewrite length_app, length_take, length_drop. lia.
Qed.

Lemma ptr_at_spec r l idx : holds r l ->
  ptr_at idx r = (Ok (if decide (idx < length l) then Ok (idx * element_size r) else Err mkIndexError), r).
Proof.
  intros [Hu Hl Hd Hb Hf Hc Hs Hr]. unfold ptr_at. rewrite bind_get, Hl.
  destruct (len r <=? idx) eqn:E0.
  - apply Nat.leb_le in E0. by rewrite decide_False by lia.
  - apply Nat.leb_gt in E0. rewrite decide_True by done.
    by rewrite (bind_ok _ _ r _ r (slot_ptr_ok r idx ltac:(nia))).
Qed.

Lemma getitem_spec r l idx : holds r l -> getitem idx r = (Ok (list_getitem idx l), r).
Proof.
  intros Hh. unfold getitem, list_getitem. rewrite (bind_ok _ _ r _ r (ptr_at_spec r l idx Hh)).
  destruct (l !! idx) as [x|] eqn:Hx.
  - pose proof (lookup_lt_Some _ _ _ Hx). rewrite decide_True, bind_get by done.
    destruct (holds_data _ _ Hh) as [rest Hd].
    destruct (data_around r l idx x rest Hh Hd Hx) as (-> & Ha & Hxl).
    by rewrite mem_read_app, bind_or_fault.
  - apply lookup_ge_None_1 in Hx. by rewrite decide_False by lia.
Qed.

Lemma setitem_spec r l idx v : holds r l -> length v = element_size r ->
  exists r', element_size r' = element_size r /\ cap r' = cap r /\
    match list_setitem idx v l with
    | Ok l' => setitem idx v r = (Ok (Ok tt), r') /\ holds r' l'
    | Err e => setitem idx v r = (Ok (Err e), r') /\ holds r' l
    end.
Proof.
  intros Hh Hv. unfold setitem, list_setitem. rewrite (bind_ok _ _ r _ r (ptr_at_spec r l idx Hh)).
  destruct (decide (idx < length l)) as [Hlt|Hge]; [|by exists r].
  destruct (lookup_lt_is_Some_2 l idx Hlt) as [x Hx]. rewrite bind_get.
  destruct (holds_data _ _ Hh) as [rest Hd].
  destruct (data_around r l idx x rest Hh Hd Hx) as (Hd2 & Ha & Hxl).
  replace (mem_read 0 (element_size r) v) with (Some v).
  2:{ rewrite <- (app_nil_r v) at 2. symmetry. by apply mem_read_start. }
  rewrite bind_or_fault, Hd2, (mem_write_app _ v x), bind_or_fault by (done || lia).
  assert (concat (<[idx:=v]> l) = concat (take idx l) ++ v ++ concat (drop (S idx) l)) as Hcat.
  { rewrite insert_take_drop by done. by rewrite concat_app. }
  eexists. split; [|split; [|split; [reflexivity|]]]; [done|done|].
  replace (set_data _ r) with (set_len (len r) (set_data (concat (<[idx:=v]> l) ++ rest) r))
    by (by rewrite Hcat, <- !app_assoc).
  apply holds_arranged with l; [done| | |apply (holds_fits r l Hh)|].
  - apply Forall_insert; [apply (holds_uniform r l Hh)|done].
  - by rewrite length_insert, (holds_len _ _ Hh).
  - rewrite Hcat, Hd2, !length_app. lia.
Qed.

Lemma clear_spec r l : holds r l -> holds (set_len 0 r) [].
Proof.
  intros [Hu Hl [rest Hd] Hb Hf Hc Hs Hr].
  split; simpl; [constructor|done|by eexists|done|lia|done|done|done].
Qed.

Lemma run_op_spec r l o : holds r l -> op_fits (element_size r) o ->
  match run_op o r with
  | (Ok out, r') => out = (spec_op o l).1 /\ holds r' (spec_op o l).2 /\
                    element_size r' = element_size r /\ cap r' <= Nat.max (cap r) (2 * len r)
  | (Err e, r') => exhausted (element_size r) e r' /\ cap r' = cap r
  end.
Proof.
  intros Hh Hfit. destruct o as [v|i v|i|i|i v|]; simpl in *.
  - pose proof (append_spec r l v Hh Hfit) as Hs. unfold bind.
    destruct (append v r) as [[u|e] r']; [|done]. destruct Hs as (? & ? & ?). done.
  - pose proof (insert_at_spec r l i v Hh Hfit) as Hs. unfold bind.
    destruct (insert_at i v r) as [[u|e] r']; [|done]. destruct Hs as (? & ? & ?). done.
  - destruct (remove_at_spec r l i Hh) as (r' & He & Hc & Hs).
    destruct (list_erase_at i l); destruct Hs as [E0 Hh']; rewrite (bind_ok _ _ _ _ _ E0); simpl;
      (split_and!; [done|done|done|lia]).
  - rewrite (bind_ok _ _ _ _ _ (getitem_spec r l i Hh)). simpl. split_and!; [done|done|done|lia].
  - destruct (setitem_spec r l i v Hh Hfit) as (r' & He & Hc & Hs).
    destruct (list_setitem i v l); destruct Hs as [E0 Hh']; rewrite (bind_ok _ _ _ _ _ E0); simpl;
      (split_and!; [done|done|done|lia]).
  - split_and!; [done|apply (clear_spec r l Hh)|done|simpl; lia].
Qed.

Lemma spec_op_length o l : length (spec_op o l).2 <= length l + 1.
Proof.
  destruct o as [v|i v|i|i|i v|]; simpl.
  - rewrite length_app. simpl. lia.
  - unfold list_insert_at. rewrite length_app. simpl. rewrite length_take, length_drop. lia.
  - unfold list_erase_at. case_decide; simpl; [|lia]. rewrite length_app, length_take, length_drop. lia.
  - lia.
  - unfold list_setitem. case_decide; simpl; [rewrite length_insert|]; lia.
  - lia.
Qed.

(** A constructed array is empty. *)
Lemma init_spec es n r0 : 0 < es -> 0 < n ->
  match init es n r0 with
  | (Ok _, r) => holds r [] /\ element_size r = es /\ cap r = n
  | (Err OutOfMemory, _) => malloc (n * es) = None
  | (Err (Panic _), _) => (usize_max < Z.of_nat (n * es))%Z
  | (Err Fault, _) => False
  end.
Proof.
  intros Hes Hn. unfold init, bind, checked, alloc. destruct (_ <=? usize_max)%Z eqn:E0; simpl.
  - destruct (malloc (n * es)) as [d|] eqn:Em; simpl; [|done]. apply malloc_length in Em.
    split_and!; [|done|done]. apply Z.leb_le in E0.
    split; simpl; [constructor|done|by exists d|done|lia|done|done|done].
  - by apply Z.leb_gt in E0.
Qed.

Lemma run_ops_from es ops : Forall (op_fits es) ops -> forall l r outs, holds r l -> element_size r = es ->
  match mfold (fun outs o => let* out := run_op o in ret (outs ++ [out])) ops outs r with
  | (Ok outs', r') =>
      let spec := fold_left (fun acc o => let '(out, l') := spec_op o acc.2 in (acc.1 ++ [out], l')) ops (outs, l) in
      outs' = spec.1 /\ holds r' spec.2
  | (Err e, r') => exhausted es e r' /\ cap r' <= Nat.max (cap r) (2 * (len r + length ops))
  end.
Proof.
  induction 1 as [|o ops Hfit Hops IH]; intros l r outs Hh He; simpl; [done|].
  rewrite <- He in Hfit. pose proof (run_op_spec r l o Hh Hfit) as Hs. unfold bind at 1 2.
  pose proof (spec_op_length o l) as Hlen.
  destruct (run_op o r) as [[out|e] r']; simpl in *.
  2:{ rewrite He in Hs. destruct Hs as [? ->]. split; [done|lia]. }
  destruct Hs as (-> & Hh' & He' & Hc). destruct (spec_op o l) as [out l']. simpl in *.
  rewrite He in He'. specialize (IH l' r' (outs ++ [out]) Hh' He').
  rewrite (holds_len _ _ Hh'), (holds_len _ _ Hh) in Hlen.
  destruct (mfold _ ops _ r') as [[outs'|e] r2]; [done|]. destruct IH as [? ?]. split; [done|lia].
Qed.

(** C29: a [RawList] built with room for at least one element behaves as a list:
    any sequence of operations returns what the same operations return on a
    list, and ends in a buffer that holds the list.  It never touches memory
    outside the buffer; it stops early only when doubling the buffer is
    refused by the allocator or does not fit a [usize]. *)
Theorem run_refines es n ops r0 : 0 < es -> 0 < n -> Forall (op_fits es) ops ->
  match bind (init es n) (fun _ => run_ops ops) r0 with
  | (Ok outs, r) => outs = (spec_ops ops []).1 /\ holds r (spec_ops ops []).2
  | (Err OutOfMemory, r) => malloc (n * es) = None \/ malloc (cap r * 2 * es) = None
  | (Err (Panic _), r) => (usize_max < Z.of_nat (n * es))%Z \/ (usize_max < Z.of_nat (cap r * 2 * es))%Z
  | (Err Fault, _) => False
  end.
Proof.
  intros Hes Hn Hops. pose proof (init_spec es n r0 Hes Hn) as Hi. unfold bind at 1.
  destruct (init es n r0) as [[u|e] r]; [|destruct e; auto].
  destruct Hi as (Hh & He & _).
  pose proof (run_ops_from es ops Hops [] r [] Hh He) as Hr. unfold run_ops, spec_ops.
  destruct (mfold _ ops [] r) as [[outs|e] r']; [done|].
  destruct Hr as [Hr _]. destruct e; simpl in Hr; auto.
Qed.

(** With an allocator that does not fail and a [usize] that can express
    four times the elements ever needed, every sequence of operations
    completes. *)
Theorem run_completes es n ops r0 : 0 < es -> 0 < n -> Forall (op_fits es) ops ->
  (forall k, is_Some (malloc k)) ->
  (Z.of_nat (2 * (n + 2 * length ops) * es) <= usize_max)%Z ->
  exists outs r, bind (init es n) (fun _ => run_ops ops) r0 = (Ok outs, r).
Proof.
  intros Hes Hn Hops Hm Hbig. pose proof (init_spec es n r0 Hes Hn) as Hi. unfold bind at 1.
  destruct (init es n r0) as [[u|e] r].
  2:{ destruct e; [nia| |done]. destruct (Hm (n * es)) as [? Hsome]. congruence. }
  destruct Hi as (Hh & He & Hc).
  pose proof (run_ops_from es ops Hops [] r [] Hh He) as Hr. unfold run_ops.
  destruct (mfold _ ops [] r) as [[outs|e] r']; [eauto|]. exfalso.
  destruct Hr as [Hr Hcap]. pose proof (holds_len _ _ Hh) as Hl. simpl in Hl. rewrite <- Hl, Hc in Hcap.
  destruct e; simpl in Hr; [nia| |done]. destruct (Hm (cap r' * 2 * es)) as [? Hsome]. congruence.
Qed.

End refinement.

(** ** Samples *)

(** A 16-bit platform whose allocator hands out zeroed memory. *)
#[export] Instance sample_platform : Platform := {
  usize_max := 65535;
  malloc n := Some (replicate n x00);
}.

#[export] Instance sample_platform_laws : PlatformLaws.
Proof. split. intros n d [= <-]. apply length_replicate. Qed.

Definition no_list : RawList := mkRawList [] 1 0 0.
Definition sample_ops : list Op := [OpAppend [x01]; OpInsert 0 [x02]; OpAppend [x03]; OpRemove 1; OpGet 1; OpGet 7].

Lemma sample_ops_fit : Forall (op_fits 1) sample_ops.
Proof. by repeat constructor. Qed.

Definition sample_end : RawList := mkRawList [x02; x03; x03; x00] 1 2 4.

Lemma sample_run : bind (init 1 1) (fun _ => run_ops sample_ops) no_list =
  (Ok [ODone; ODone; ODone; ODone; OValue [x03]; OIndexError], sample_end).
Proof. vm_compute. reflexivity. Qed.

Lemma sample_spec : (spec_ops sample_ops []).2 = [[x02]; [x03]].
Proof. vm_compute. reflexivity. Qed.

Lemma run_refines_witness : holds sample_end [[x02]; [x03]].
Proof.
  pose proof (run_refines 1 1 sample_ops no_list Nat.lt_0_1 Nat.lt_0_1 sample_ops_fit) as Hr.
  rewrite sample_run, sample_spec in Hr. exact (proj2 Hr).
Defined.

Lemma run_completes_witness :
  exists outs r, bind (init 1 1) (fun _ => run_ops sample_ops) no_list = (Ok outs, r).
Proof.
  apply (run_completes 1 1 sample_ops no_list Nat.lt_0_1 Nat.lt_0_1 sample_ops_fit).
  - intros k. eexists. reflexivity.
  - discriminate.
Defined.

(** An array constructed with capacity 0 is written past its end by the
    first [append]: doubling 0 makes no room. *)
Theorem capacity_zero_append_faults `{PlatformLaws} es v r0 :
  0 < es -> length v = es -> (1 <= usize_max)%Z -> is_Some (malloc 0) ->
  (bind (init es 0) (fun _ => append v) r0).1 = Err Fault.
Proof.
  intros Hes Hv Hmax [d Hd]. pose proof (malloc_length _ _ Hd) as Hlen.
  apply length_zero_iff_nil in Hlen as ->.
  assert (Hc : forall msg r, checked msg 0 r = (Ok 0, r)) by (intros; apply checked_ok; lia).
  assert (Ha : forall r, alloc 0 r = (Ok [], r)) by (intros; unfold alloc; by rewrite Hd).
  assert (Hi : init es 0 r0 = (Ok tt, mkRawList [] es 0 0)).
  { unfold init. simpl. rewrite (bind_ok _ _ _ _ _ (Hc _ r0)), (bind_ok _ _ _ _ _ (Ha r0)). done. }
  rewrite (bind_ok _ _ _ _ _ Hi). unfold append.
  assert (Hg : grow_if_full (mkRawList [] es 0 0) = (Ok tt, mkRawList [] es 0 0)).
  { unfold grow_if_full, grow. rewrite bind_get. simpl. rewrite bind_get. simpl.
    rewrite (bind_ok _ _ _ _ _ (Hc _ _)). simpl. rewrite (bind_ok _ _ _ _ _ (Hc _ _)).
    rewrite (bind_ok _ _ _ _ _ (Ha _)), (bind_ok _ _ _ _ _ (Hc _ _)). done. }
  rewrite (bind_ok _ _ _ _ _ Hg), bind_get. simpl.
  assert (Hw : write_slot 0 v (mkRawList [] es 0 0) = (Err Fault, mkRawList [] es 0 0)).
  { unfold write_slot. rewrite (bind_ok _ _ _ 0 (mkRawList [] es 0 0)).
    2:{ unfold slot_ptr. rewrite bind_get. simpl. apply Hc. }
    rewrite bind_get. simpl. unfold mem_read. rewrite decide_True by lia. rewrite bind_or_fault.
    unfold mem_write. rewrite decide_False; [done|]. rewrite drop_0, take_ge by lia. simpl. lia. }
  by rewrite (bind_err _ _ _ _ _ Hw).
Qed.

Lemma capacity_zero_append_faults_witness :
  (bind (init 1 0) (fun _ => append [x01]) no_list).1 = Err Fault.
Proof.
  apply (capacity_zero_append_faults 1 [x01] no_list Nat.lt_0_1 eq_refl); [discriminate|].
  eexists. reflexivity.
Defined.
