(* ===== verification/Bisect.v ===== *)
(** * Binary search ([lib/bisect.py])

    The four functions share one loop shape; they differ in the comparison
    that sends the search right.  Each iteration halves [hi - lo], so the
    length of the array is enough fuel ([search_ok]). *)

From Stdlib Require Import Sorting.Sorted.
From S2P Require Import Prelude RawList.

(** [None] is out of fuel; an [abort] is a panic of the source. *)
Abbreviation B A := (option (result abort A)).

Section search.
Context `{Platform}.

(** [while lo < hi: mid = (lo + hi) // 2; ...] under [panic_arithmetic]; the
    element that decides is read with [__getitem__( mid ).unwrap( ... )]. *)
Fixpoint search {A} (right : A -> bool) (arr : list A) (fuel lo hi : nat) : B nat :=
  match fuel with
  | 0 => None
  | S fuel' =>
      if lo <? hi then
        if (usize_max <? Z.of_nat (lo + hi))%Z then Some (Err (Panic "bisect: overflow")) else
        let mid := (lo + hi) / 2 in
        match list_getitem mid arr with
        | Err _ => Some (Err (Panic "bisect: index in bounds by construction"))
        | Ok a =>
            if right a then
              if (usize_max <? Z.of_nat (mid + 1))%Z then Some (Err (Panic "bisect: overflow"))
              else search right arr fuel' (mid + 1) hi
            else search right arr fuel' lo mid
        end
      else Some (Ok lo)
  end.

Section keyed.
Context {T K : Type} (ltb : K -> K -> bool).

(** [if x < key( arr[mid] ): hi = mid else: lo = mid + 1] *)
Definition bisect_right_by_key (arr : list T) (x : K) (key : T -> K) : B nat :=
  search (fun a => negb (ltb x (key a))) arr (S (length arr)) 0 (length arr).

(** [if key( arr[mid] ) < x: lo = mid + 1 else: hi = mid] *)
Definition bisect_left_by_key (arr : list T) (x : K) (key : T -> K) : B nat :=
  search (fun a => ltb (key a) x) arr (S (length arr)) 0 (length arr).
End keyed.

Definition bisect_right {T} (ltb : T -> T -> bool) (arr : list T) (x : T) : B nat :=
  search (fun a => negb (ltb x a)) arr (S (length arr)) 0 (length arr).

Definition bisect_left {T} (ltb : T -> T -> bool) (arr : list T) (x : T) : B nat :=
  search (fun a => ltb a x) arr (S (length arr)) 0 (length arr).

(** ** The loop *)

(** The elements that send the search right come first. *)
Definition partitioned {A} (right : A -> bool) (arr : list A) : Prop :=
  forall i j a b, i <= j -> arr !! i = Some a -> arr !! j = Some b -> right b = true -> right a = true.

Definition splits {A} (right : A -> bool) (arr : list A) (p : nat) : Prop :=
  p <= length arr /\ forall i a, arr !! i = Some a -> (right a = true <-> i < p).

Lemma search_ok {A} (right : A -> bool) (arr : list A) :
  partitioned right arr -> (Z.of_nat (2 * length arr) <= usize_max)%Z ->
  forall fuel lo hi, hi - lo < fuel -> lo <= hi -> hi <= length arr ->
  (forall i a, arr !! i = Some a -> i < lo -> right a = true) ->
  (forall i a, arr !! i = Some a -> hi <= i -> right a = false) ->
  exists p, search right arr fuel lo hi = Some (Ok p) /\ splits right arr p.
Proof.
  intros Hpart Hbig. induction fuel as [|fuel IH]; intros lo hi Hf Hle Hhi Hlo Hup; [lia|]. cbn [search].
  destruct (lo <? hi) eqn:E0.
  2:{ apply Nat.ltb_ge in E0. exists lo. split; [done|]. split; [lia|]. intros i a Hi. split.
      - intros Hr. destruct (decide (i < lo)); [done|]. rewrite (Hup i a Hi) in Hr by lia. done.
      - by apply Hlo. }
  apply Nat.ltb_lt in E0. rewrite (proj2 (Z.ltb_ge _ _)) by lia.
  assert (Hmid : lo <= (lo + hi) / 2 < hi).
  { split; [apply Nat.div_le_lower_bound; lia|apply Nat.Div0.div_lt_upper_bound; lia]. }
  set (mid := (lo + hi) / 2) in *. unfold list_getitem.
  destruct (lookup_lt_is_Some_2 arr mid) as [a Ha]; [lia|]. rewrite Ha.
  destruct (right a) eqn:Er.
  - rewrite (proj2 (Z.ltb_ge _ _)) by lia. apply IH; [lia|lia|lia| |done].
    intros i b Hb Hi. apply (Hpart i mid b a); [lia|done|done|done].
  - apply IH; [lia|lia|lia|done|].
    intros i b Hb Hi. destruct (right b) eqn:Eb; [|done].
    rewrite (Hpart mid i a b) in Er; [done|lia|done|done|done].
Qed.

Lemma search_splits {A} (right : A -> bool) (arr : list A) :
  partitioned right arr -> (Z.of_nat (2 * length arr) <= usize_max)%Z ->
  exists p, search right arr (S (length arr)) 0 (length arr) = Some (Ok p) /\ splits right arr p.
Proof.
  intros Hp Hb. apply search_ok; [done|done|lia|lia|lia|lia|].
  intros i a Hi Hge. apply lookup_lt_Some in Hi. lia.
Qed.

(** ** Sorted arrays *)

Section sorted.
Context {T K : Type} (ltb : K -> K -> bool) (key : T -> K).

(** [<] is a strict weak order. *)
Hypothesis ltb_weak : forall a b c, ltb a c = true -> ltb a b = true \/ ltb b c = true.

Definition key_sorted (arr : list T) : Prop :=
  StronglySorted (fun a b => ltb (key b) (key a) = false) arr.

Lemma key_sorted_lookup arr i j a b : key_sorted arr -> i < j -> arr !! i = Some a -> arr !! j = Some b ->
  ltb (key b) (key a) = false.
Proof.
  intros Hs. revert i j. induction Hs as [|x arr Hs IH Hx]; intros [|i] [|j] Hij Ha Hb; try done; try lia.
  - injection Ha as <-. simpl in Hb. rewrite Forall_forall in Hx. apply Hx. by eapply list_elem_of_lookup_2.
  - eapply (IH i j); [lia|done|done].
Qed.

Lemma left_partitioned arr x : key_sorted arr -> partitioned (fun a => ltb (key a) x) arr.
Proof using ltb_weak.
  intros Hs i j a b Hij Ha Hb Hr. destruct (decide (i = j)) as [->|]; [congruence|].
  pose proof (key_sorted_lookup arr i j a b Hs ltac:(lia) Ha Hb) as Hab.
  destruct (ltb_weak (key b) (key a) x Hr); congruence.
Qed.

Lemma right_partitioned arr x : key_sorted arr -> partitioned (fun a => negb (ltb x (key a))) arr.
Proof using ltb_weak.
  intros Hs i j a b Hij Ha Hb. rewrite !negb_true_iff. intros Hr.
  destruct (decide (i = j)) as [->|]; [congruence|].
  pose proof (key_sorted_lookup arr i j a b Hs ltac:(lia) Ha Hb) as Hab.
  destruct (ltb x (key a)) eqn:E0; [|done]. destruct (ltb_weak x (key b) (key a) E0); congruence.
Qed.

Lemma bisect_left_splits arr x : key_sorted arr -> (Z.of_nat (2 * length arr) <= usize_max)%Z ->
  exists p, bisect_left_by_key ltb arr x key = Some (Ok p) /\ splits (fun a => ltb (key a) x) arr p.
Proof using ltb_weak. intros Hs Hb. apply search_splits; [by apply left_partitioned|done]. Qed.

(** On a sorted array of at most [usize_max / 2] elements both searches
    terminate without panicking; [bisect_left] returns the number of elements
    smaller than [x], [bisect_right] the number of elements not larger. *)
Theorem bisect_bounds arr x : key_sorted arr -> (Z.of_nat (2 * length arr) <= usize_max)%Z ->
  exists l r, bisect_left_by_key ltb arr x key = Some (Ok l) /\
    bisect_right_by_key ltb arr x key = Some (Ok r) /\
    (forall i a, arr !! i = Some a -> (ltb (key a) x = true <-> i < l)) /\
    (forall i a, arr !! i = Some a -> (ltb x (key a) = false <-> i < r)) /\
    l <= length arr /\ r <= length arr.
Proof using ltb_weak.
  intros Hs Hb. destruct (bisect_left_splits arr x Hs Hb) as (l & El & Hl & Hls).
  destruct (search_splits _ arr (right_partitioned arr x Hs) Hb) as (r & Er & Hr & Hrs).
  exists l, r. split_and!; [done|done|done| |done|done].
  intros i a Ha. rewrite <- (Hrs i a Ha), negb_true_iff. done.
Qed.
End sorted.

Lemma bisect_direct {T} (ltb : T -> T -> bool) arr x :
  bisect_left ltb arr x = bisect_left_by_key ltb arr x id /\
  bisect_right ltb arr x = bisect_right_by_key ltb arr x id.
Proof. done. Qed.
End search.

Lemma Zltb_weak a b c : (a <? c)%Z = true -> (a <? b)%Z = true \/ (b <? c)%Z = true.
Proof. rewrite !Z.ltb_lt. lia. Qed.

Lemma bisect_bounds_witness :
  exists l r, bisect_left_by_key Z.ltb [1; 3; 3; 7]%Z 3%Z id = Some (Ok l) /\
    bisect_right_by_key Z.ltb [1; 3; 3; 7]%Z 3%Z id = Some (Ok r) /\ l <= 4 /\ r <= 4.
Proof.
  destruct (bisect_bounds Z.ltb id Zltb_weak [1; 3; 3; 7]%Z 3%Z) as (l & r & El & Er & _ & _ & Hl & Hr).
  - repeat constructor.
  - discriminate.
  - exists l, r. repeat split; assumption.
Defined.
