(* ===== verification/RawDict.v ===== *)
(** * The type-erased core of [dict] ([lib/builtins/__RawDict.py])

    Entries are kept in insertion order; a second array holds, for each entry,
    its hash and its position, sorted by hash and searched with [bisect].  Keys
    and values are opaque pointers; the caller passes the hash and the
    comparison.  The entry array is a list here ([RawList.run_refines] shows
    what the buffer does).  [find_entry_idx_spec], [insert_new_spec] and
    [remove_entry_spec] relate the two arrays to a plain search of the entries,
    and show that they stay consistent. *)

From Stdlib Require Import Sorting.Sorted.
From S2P Require Import Prelude RawList Bisect.

Local Open Scope monad_scope.

Record RawEntry (P : Type) := mkRawEntry { hash : Z; key_ptr : P; value_ptr : P }.
Arguments mkRawEntry {P}. Arguments hash {P}. Arguments key_ptr {P}. Arguments value_ptr {P}.

Record RawIndex := mkRawIndex { idx_hash : Z; entry_idx : nat }.

Record RawDict (P : Type) := mkRawDict { entries : list (RawEntry P); indices : list RawIndex }.
Arguments mkRawDict {P}. Arguments entries {P}. Arguments indices {P}.

Inductive KeyError := mkKeyError.

Section rawdict.
Context `{Platform} {P : Type}.

Abbreviation DM A := (M (RawDict P) abort A).

Definition set_entries (es : list (RawEntry P)) (d : RawDict P) : RawDict P := mkRawDict es (indices d).
Definition set_indices (ixs : list RawIndex) (d : RawDict P) : RawDict P := mkRawDict (entries d) ixs.

(** [.unwrap( msg )] *)
Definition unwrap {E A} (msg : string) (r : result E A) : DM A :=
  match r with Ok a => ret a | Err _ => raise (Panic msg) end.

Definition empty_dict : RawDict P := mkRawDict [] [].

Definition dict_len (d : RawDict P) : nat := length (entries d).

(** Running out of fuel is impossible ([Bisect.search_ok]). *)
Definition lower_bound (target_hash : Z) : DM nat :=
  let* d := get in
  match bisect_left_by_key Z.ltb (indices d) target_hash idx_hash with
  | Some (Ok pos) => ret pos
  | Some (Err e) => raise e
  | None => raise Fault
  end.

(** The scan of equal hashes; [key_eq_fn] faults on a dangling pointer: [fuel] is [n - pos], so the loop condition
    [pos < n] is that some is left. *)
Fixpoint scan (target_hash : Z) (kp : P) (key_eq_fn : P -> P -> option bool) (fuel pos : nat)
    : DM (result KeyError (nat * RawIndex)) :=
  match fuel with
  | 0 => ret (Err mkKeyError)
  | S fuel' =>
      let* d := get in
      let* idx_node := unwrap "RawDict: index out of bounds" (list_getitem pos (indices d)) in
      if negb (idx_hash idx_node =? target_hash)%Z then ret (Err mkKeyError) else
      let* entry := unwrap "RawDict: entry out of bounds" (list_getitem (entry_idx idx_node) (entries d)) in
      let* equal := match key_eq_fn (key_ptr entry) kp with Some b => ret b | None => raise Fault end in
      if equal : bool then ret (Ok (pos, idx_node))
      else if (usize_max <? Z.of_nat (pos + 1))%Z then raise (Panic "RawDict: overflow")
      else scan target_hash kp key_eq_fn fuel' (pos + 1)
  end.

Definition find_indices_pos (target_hash : Z) (kp : P) (key_eq_fn : P -> P -> option bool)
    : DM (result KeyError nat) :=
  let* pos := lower_bound target_hash in
  let* d := get in
  let* r := scan target_hash kp key_eq_fn (length (indices d) - pos) pos in
  ret (match r with Ok (found, _) => Ok found | Err e => Err e end).

Definition find_entry_idx (target_hash : Z) (kp : P) (key_eq_fn : P -> P -> option bool)
    : DM (result KeyError nat) :=
  let* pos := lower_bound target_hash in
  let* d := get in
  let* r := scan target_hash kp key_eq_fn (length (indices d) - pos) pos in
  ret (match r with Ok (_, node) => Ok (entry_idx node) | Err e => Err e end).

Definition fixup_node (removed_entry_idx : nat) (_ : unit) (i : nat) : DM unit :=
  let* d := get in
  let* node := unwrap "RawDict: index out of bounds" (list_getitem i (indices d)) in
  if removed_entry_idx <? entry_idx node then
    let fixed := mkRawIndex (idx_hash node) (entry_idx node - 1) in
    let* ixs := unwrap "RawDict: index out of bounds" (list_setitem i fixed (indices d)) in
    modify (set_indices ixs)
  else ret tt.

Definition fixup_indices_after_removal (removed_entry_idx : nat) : DM unit :=
  let* d := get in
  mfold (fixup_node removed_entry_idx) (seq 0 (length (indices d))) tt.

Definition remove_entry (target_hash : Z) (kp : P) (key_eq_fn : P -> P -> option bool)
    : DM (result KeyError (RawEntry P)) :=
  let* found := find_indices_pos target_hash kp key_eq_fn in
  match found with
  | Err e => ret (Err e)
  | Ok indices_pos =>
      let* d := get in
      let* removed_index := unwrap "RawDict: index out of bounds" (list_getitem indices_pos (indices d)) in
      let* removed_entry := unwrap "RawDict: entry out of bounds"
        (list_getitem (entry_idx removed_index) (entries d)) in
      let* ixs := unwrap "RawDict remove_entry: indices erase index out of bounds"
        (list_erase_at indices_pos (indices d)) in
      modify (set_indices ixs) ;;;
      let* es := unwrap "RawDict remove_entry: entries erase index out of bounds"
        (list_erase_at (entry_idx removed_index) (entries d)) in
      modify (set_entries es) ;;;
      fixup_indices_after_removal (entry_idx removed_index) ;;;
      ret (Ok removed_entry)
  end.

Definition entry_at (i : nat) : DM (RawEntry P) :=
  let* d := get in unwrap "RawDict: entry out of bounds" (list_getitem i (entries d)).

Definition key_ptr_at (i : nat) : DM P := let* e := entry_at i in ret (key_ptr e).
Definition value_ptr_at (i : nat) : DM P := let* e := entry_at i in ret (value_ptr e).

Definition overwrite_value_at (i : nat) (vp : P) : DM P :=
  let* old_entry := entry_at i in
  let* d := get in
  let* es := unwrap "RawDict: entry out of bounds"
    (list_setitem i (mkRawEntry (hash old_entry) (key_ptr old_entry) vp) (entries d)) in
  modify (set_entries es) ;;;
  ret (value_ptr old_entry).

Definition insert_new (h : Z) (kp vp : P) : DM unit :=
  let* pos := lower_bound h in
  let* d := get in
  let idx := length (entries d) in
  modify (set_entries (entries d ++ [mkRawEntry h kp vp])) ;;;
  modify (fun d => set_indices (list_insert_at pos (mkRawIndex h idx) (indices d)) d).

End rawdict.

(** ** Consistency of the two arrays

    [key_of] gives the equivalence class of a key pointer under [==]; keys
    that compare equal have the same hash. *)

Section consistency.
Context `{Platform} {P K : Type} `{EqDecision K} (key_of : P -> K) (hash_of : K -> Z).

Definition entry_key (e : RawEntry P) : K := key_of (key_ptr e).
Definition keys (d : RawDict P) : list K := map entry_key (entries d).

(** The comparison passed in decides equality of the keys behind the pointers. *)
Definition decides (eqf : P -> P -> option bool) (kp : P) (d : RawDict P) : Prop :=
  forall e, e ∈ entries d -> eqf (key_ptr e) kp = Some (bool_decide (entry_key e = key_of kp)).

Record wf (d : RawDict P) : Prop := {
  wf_perm : map entry_idx (indices d) ≡ₚ seq 0 (length (entries d));
  wf_hash : forall n e, n ∈ indices d -> entries d !! entry_idx n = Some e -> idx_hash n = hash e;
  wf_entry : Forall (fun e => hash e = hash_of (entry_key e)) (entries d);
  wf_sorted : key_sorted Z.ltb idx_hash (indices d);
  wf_keys : NoDup (keys d);
}.

Definition fits (d : RawDict P) : Prop := (Z.of_nat (2 * dict_len d) <= usize_max)%Z.

(** The reference: a search of the entries in order. *)
Definition position (k : K) (es : list (RawEntry P)) : option nat :=
  fst <$> list_find (fun e => entry_key e = k) es.

Lemma position_Some k es i : position k es = Some i ->
  exists e, es !! i = Some e /\ entry_key e = k.
Proof.
  unfold position. intros ([j e] & (Hi & Hk & _)%list_find_Some & ->)%fmap_Some. eauto.
Qed.

Lemma position_unique k d i e : wf d -> entries d !! i = Some e -> entry_key e = k ->
  position k (entries d) = Some i.
Proof.
  intros Hwf Hi Hk. unfold position.
  destruct (list_find (fun e => entry_key e = k) (entries d)) as [[j e']|] eqn:Ef; simpl.
  - apply list_find_Some in Ef as (Hj & Hk' & _). f_equal.
    assert (keys d !! i = Some k /\ keys d !! j = Some k) as [Ki Kj].
    { unfold keys. rewrite !list_lookup_fmap, Hi, Hj. simpl. by rewrite Hk, Hk'. }
    by eapply NoDup_lookup, Ki; [apply wf_keys|].
  - apply list_find_None in Ef. rewrite Forall_forall in Ef.
    destruct (Ef e); [by eapply list_elem_of_lookup_2|done].
Qed.

Lemma position_None k es e : position k es = None -> e ∈ es -> entry_key e <> k.
Proof.
  unfold position. intros Ef%fmap_None%list_find_None He. rewrite Forall_forall in Ef. by apply Ef.
Qed.

Lemma wf_length d : wf d -> length (indices d) = length (entries d).
Proof.
  intros Hwf. pose proof (Permutation_length (wf_perm _ Hwf)) as Hl.
  by rewrite length_map, length_seq in Hl.
Qed.

(** Every index node names an entry, with the entry's hash. *)
Lemma node_entry d n : wf d -> n ∈ indices d ->
  exists e, entries d !! entry_idx n = Some e /\ idx_hash n = hash e /\ e ∈ entries d.
Proof.
  intros Hwf Hn.
  assert (entry_idx n ∈ seq 0 (length (entries d))) as Hin.
  { rewrite <- (wf_perm _ Hwf). by apply list_elem_of_fmap_2. }
  apply elem_of_seq in Hin. destruct (lookup_lt_is_Some_2 (entries d) (entry_idx n)) as [e He]; [lia|].
  exists e. split_and!; [done|by eapply wf_hash|by eapply list_elem_of_lookup_2].
Qed.

(** Every entry has its node. *)
Lemma entry_node d i e : wf d -> entries d !! i = Some e ->
  exists q n, indices d !! q = Some n /\ entry_idx n = i /\ idx_hash n = hash e.
Proof.
  intros Hwf Hi. assert (i ∈ map entry_idx (indices d)) as Hin.
  { rewrite (wf_perm _ Hwf). apply elem_of_seq. apply lookup_lt_Some in Hi. lia. }
  apply list_elem_of_fmap in Hin as (n & -> & Hn).
  destruct (list_elem_of_lookup_1 _ _ Hn) as [q Hq]. exists q, n. split_and!; [done|done|].
  by eapply wf_hash.
Qed.

Lemma entry_hash d i e : wf d -> entries d !! i = Some e -> hash e = hash_of (entry_key e).
Proof. intros Hwf Hi. by apply (Forall_lookup_1 _ _ _ _ (wf_entry _ Hwf) Hi). Qed.

(** ** Searching *)

Lemma lower_bound_spec d h : wf d -> fits d ->
  exists pos, lower_bound h d = (Ok pos, d) /\ pos <= length (indices d) /\
    forall i n, indices d !! i = Some n -> ((idx_hash n < h)%Z <-> i < pos).
Proof.
  intros Hwf Hf. unfold fits, dict_len in Hf. rewrite <- (wf_length _ Hwf) in Hf.
  destruct (bisect_left_splits Z.ltb idx_hash Zltb_weak (indices d) h (wf_sorted _ Hwf) Hf)
    as (pos & E0 & Hp & Hs).
  exists pos. unfold lower_bound. rewrite bind_get, E0. split_and!; [done|done|].
  intros i n Hn. rewrite <- (Hs i n Hn), Z.ltb_lt. done.
Qed.

Lemma scan_step h kp eqf fuel pos n e (d : RawDict P) : decides eqf kp d ->
  indices d !! pos = Some n -> entries d !! entry_idx n = Some e ->
  scan h kp eqf (S fuel) pos d =
    if negb (idx_hash n =? h)%Z then (Ok (Err mkKeyError), d)
    else if bool_decide (entry_key e = key_of kp) then (Ok (Ok (pos, n)), d)
    else if (usize_max <? Z.of_nat (pos + 1))%Z then (Err (Panic "RawDict: overflow"), d)
    else scan h kp eqf fuel (pos + 1) d.
Proof.
  intros Hdec Hn He. simpl. rewrite bind_get. unfold list_getitem at 1. rewrite Hn. simpl. rewrite bind_ret.
  destruct (negb _); [done|]. unfold list_getitem. rewrite He. simpl. rewrite bind_ret.
  rewrite Hdec by by eapply list_elem_of_lookup_2. rewrite bind_ret.
  case_bool_decide; [done|]. by destruct (_ <? _)%Z.
Qed.

(** From a position where all hashes are at least [h], the scan finds a match
    or there is none. *)
Lemma scan_spec eqf d kp : decides eqf kp d -> wf d -> fits d -> let h := hash_of (key_of kp) in
  forall fuel pos, fuel = length (indices d) - pos ->
  (forall i n, indices d !! i = Some n -> pos <= i -> (h <= idx_hash n)%Z) ->
  (exists q n e, scan h kp eqf fuel pos d = (Ok (Ok (q, n)), d) /\ indices d !! q = Some n /\
     entries d !! entry_idx n = Some e /\ entry_key e = key_of kp) \/
  (scan h kp eqf fuel pos d = (Ok (Err mkKeyError), d) /\
   forall i n e, indices d !! i = Some n -> pos <= i -> entries d !! entry_idx n = Some e ->
     entry_key e <> key_of kp).
Proof.
  intros Hdec Hwf Hf h. induction fuel as [|fuel IH]; intros pos Hfuel Hge.
  { right. split; [done|]. intros i n e Hi Hpos. apply lookup_lt_Some in Hi. lia. }
  destruct (lookup_lt_is_Some_2 (indices d) pos) as [n Hn]; [lia|].
  destruct (node_entry d n Hwf) as (e & He & Hh & _); [by eapply list_elem_of_lookup_2|].
  rewrite (scan_step h kp eqf fuel pos n e d Hdec Hn He).
  destruct (Z.eqb_spec (idx_hash n) h) as [Heq|Hne]; cbn [negb].
  - destruct (bool_decide_reflect (entry_key e = key_of kp)) as [Hk|Hk];
      [left; by exists pos, n, e|].
    unfold fits, dict_len in Hf. rewrite <- (wf_length _ Hwf) in Hf.
    apply lookup_lt_Some in Hn as Hlt.
    rewrite (proj2 (Z.ltb_ge _ _)) by lia.
    destruct (IH (pos + 1)) as [?|[E0 Hno]]; [lia|intros i m Hm ?; apply (Hge i m Hm); lia|by left|].
    right. split; [done|]. intros i m e' Hi Hpos He'.
    destruct (decide (i = pos)) as [->|]; [|eapply Hno; [done|lia|done]].
    rewrite Hn in Hi. injection Hi as <-. rewrite He in He'. injection He' as <-. done.
  - right. split; [done|]. intros i m e' Hi Hpos He' Hk.
    assert (idx_hash m = h) as Hm.
    { rewrite (wf_hash _ Hwf m e'), (entry_hash d _ _ Hwf He'), Hk;
        [done|by eapply list_elem_of_lookup_2|done]. }
    pose proof (Hge pos n Hn ltac:(lia)) as Hgt.
    destruct (decide (i = pos)) as [->|]; [congruence|].
    pose proof (key_sorted_lookup Z.ltb idx_hash (indices d) pos i n m (wf_sorted _ Hwf) ltac:(lia) Hn Hi) as Hs.
    apply Z.ltb_ge in Hs. lia.
Qed.

(** The search through the index agrees with a search of the entries. *)
Lemma scan_position eqf d kp : decides eqf kp d -> wf d -> fits d -> let h := hash_of (key_of kp) in
  forall pos, lower_bound h d = (Ok pos, d) ->
  match position (key_of kp) (entries d) with
  | Some i => exists q n, scan h kp eqf (length (indices d) - pos) pos d = (Ok (Ok (q, n)), d) /\
                indices d !! q = Some n /\ entry_idx n = i
  | None => scan h kp eqf (length (indices d) - pos) pos d = (Ok (Err mkKeyError), d)
  end.
Proof.
  intros Hdec Hwf Hf h pos Hpos. destruct (lower_bound_spec d h Hwf Hf) as (pos' & E0 & Hp & Hlt).
  rewrite E0 in Hpos. injection Hpos as ->.
  destruct (scan_spec eqf d kp Hdec Hwf Hf (length (indices d) - pos) pos eq_refl)
    as [(q & n & e & E1 & Hq & He & Hk)|[E1 Hno]].
  - intros i n Hn Hi. destruct (Z.lt_ge_cases (idx_hash n) h) as [Hl|]; [|done].
    apply (Hlt i n Hn) in Hl. lia.
  - rewrite (position_unique _ d _ _ Hwf He Hk). eauto.
  - destruct (position (key_of kp) (entries d)) as [i|] eqn:Ep; [|done]. exfalso.
    apply position_Some in Ep as (e & He & Hk).
    destruct (entry_node d i e Hwf He) as (q & n & Hq & <- & Hh).
    apply (Hno q n e Hq); [|done|done].
    destruct (decide (q < pos)) as [Hl|]; [|lia]. apply (Hlt q n Hq) in Hl.
    rewrite Hh, (entry_hash d _ _ Hwf He), Hk in Hl. subst h. lia.
Qed.

Lemma find_entry_idx_spec eqf d kp : decides eqf kp d -> wf d -> fits d ->
  find_entry_idx (hash_of (key_of kp)) kp eqf d =
    (Ok (match position (key_of kp) (entries d) with Some i => Ok i | None => Err mkKeyError end), d).
Proof.
  intros Hdec Hwf Hf. destruct (lower_bound_spec d (hash_of (key_of kp)) Hwf Hf) as (pos & E0 & _).
  unfold find_entry_idx. rewrite (bind_ok _ _ _ _ _ E0), bind_get.
  pose proof (scan_position eqf d kp Hdec Hwf Hf pos E0) as Hs.
  destruct (position (key_of kp) (entries d)) as [i|].
  - destruct Hs as (q & n & E1 & _ & <-). by rewrite (bind_ok _ _ _ _ _ E1).
  - by rewrite (bind_ok _ _ _ _ _ Hs).
Qed.

(** Looking a key up through the hash index finds the entry that a search
    of all entries finds, and [KeyError] when there is none, without panicking. *)
Theorem find_entry_idx_correct eqf d kp : decides eqf kp d -> wf d -> fits d ->
  find_entry_idx (hash_of (key_of kp)) kp eqf d =
    (Ok (match position (key_of kp) (entries d) with Some i => Ok i | None => Err mkKeyError end), d).
Proof. apply find_entry_idx_spec. Qed.

(** ** Sortedness under insertion and removal *)

Lemma StronglySorted_app_iff {A} (R : A -> A -> Prop) l1 l2 :
  StronglySorted R (l1 ++ l2) <->
  StronglySorted R l1 /\ StronglySorted R l2 /\ forall x y, x ∈ l1 -> y ∈ l2 -> R x y.
Proof.
  induction l1 as [|a l1 IH]; simpl.
  - split; [|by intros (_ & ? & _)]. intros Hs. split_and!; [constructor|done|by intros ?? ?%not_elem_of_nil].
  - split.
    + inversion 1 as [|? ? Hs Ha]; subst. apply IH in Hs as (H1 & H2 & H12).
      apply Forall_app in Ha as [Ha1 Ha2]. rewrite Forall_forall in Ha2.
      split_and!; [by constructor|done|]. intros x y [->|Hx]%elem_of_cons Hy; auto.
    + intros (H1 & H2 & H12). inversion H1 as [|? ? Hs Ha]; subst. constructor.
      * apply IH. split_and!; [done|done|]. intros x y Hx. apply H12. by right.
      * apply Forall_app. split; [done|]. apply Forall_forall. intros y. apply H12. left.
Qed.

Lemma key_sorted_insert (l : list RawIndex) pos n :
  key_sorted Z.ltb idx_hash l ->
  (forall i m, l !! i = Some m -> ((idx_hash m < idx_hash n)%Z <-> i < pos)) ->
  key_sorted Z.ltb idx_hash (list_insert_at pos n l).
Proof.
  unfold key_sorted, list_insert_at. intros Hs Hpos.
  rewrite <- (take_drop pos l) in Hs. apply StronglySorted_app_iff in Hs as (H1 & H2 & H12).
  apply StronglySorted_app_iff. split_and!; [done| |].
  - constructor; [done|]. apply Forall_forall. intros m [j Hj]%list_elem_of_lookup_1.
    rewrite lookup_drop in Hj. apply Z.ltb_ge.
    destruct (Z.lt_ge_cases (idx_hash m) (idx_hash n)) as [Hl|]; [|done].
    apply (Hpos _ _ Hj) in Hl. lia.
  - intros a b Ha [->|Hb]%elem_of_cons; [|by apply H12].
    apply list_elem_of_lookup_1 in Ha as [j Hj]. apply lookup_take_Some in Hj as [Hj Hlt].
    apply (Hpos _ _ Hj) in Hlt. apply Z.ltb_ge. lia.
Qed.

Lemma key_sorted_erase (l : list RawIndex) q :
  key_sorted Z.ltb idx_hash l -> key_sorted Z.ltb idx_hash (take q l ++ drop (S q) l).
Proof.
  unfold key_sorted. intros Hs. rewrite <- (take_drop q l) in Hs.
  apply StronglySorted_app_iff in Hs as (H1 & H2 & H12).
  assert (Hsub : forall x, x ∈ drop (S q) l -> x ∈ drop q l).
  { intros x [j Hj]%list_elem_of_lookup_1. rewrite lookup_drop in Hj.
    apply (list_elem_of_lookup_2 _ (S j)). rewrite lookup_drop. by rewrite <- Hj; f_equal; lia. }
  apply StronglySorted_app_iff. split_and!; [done| |by auto].
  destruct (drop q l) as [|x rest] eqn:Ed.
  - replace (drop (S q) l) with (@nil RawIndex); [constructor|].
    symmetry. apply drop_ge. apply (f_equal length) in Ed. rewrite length_drop in Ed. simpl in Ed. lia.
  - replace (drop (S q) l) with rest; [by inversion H2|].
    replace (S q) with (q + 1) by lia. rewrite <- drop_drop, Ed. done.
Qed.

Lemma key_sorted_map (f : RawIndex -> RawIndex) l : (forall n, idx_hash (f n) = idx_hash n) ->
  key_sorted Z.ltb idx_hash l -> key_sorted Z.ltb idx_hash (map f l).
Proof.
  intros Hf. induction 1 as [|n l Hs IH Hn]; simpl; constructor; [done|].
  rewrite Forall_map. eapply Forall_impl; [exact Hn|]. intros m. by rewrite !Hf.
Qed.

(** ** Insertion *)

Lemma insert_new_spec d kp vp : wf d -> fits d -> position (key_of kp) (entries d) = None ->
  let h := hash_of (key_of kp) in
  exists d', insert_new h kp vp d = (Ok tt, d') /\
    entries d' = entries d ++ [mkRawEntry h kp vp] /\ wf d'.
Proof.
  intros Hwf Hf Hno h. destruct (lower_bound_spec d h Hwf Hf) as (pos & E0 & Hp & Hpos).
  unfold insert_new. rewrite (bind_ok _ _ _ _ _ E0), bind_get, bind_modify.
  eexists. split; [reflexivity|]. simpl. split; [done|].
  set (node := mkRawIndex h (length (entries d))).
  assert (Hin : forall n, n ∈ list_insert_at pos node (indices d) <-> n = node \/ n ∈ indices d).
  { intros n. unfold list_insert_at. rewrite elem_of_app, elem_of_cons.
    rewrite <- (take_drop pos (indices d)) at 3. rewrite elem_of_app. tauto. }
  split; simpl.
  - unfold list_insert_at. rewrite map_app. simpl. rewrite <- Permutation_middle.
    rewrite <- map_app, take_drop, (wf_perm _ Hwf), length_app. simpl.
    rewrite Nat.add_1_r, seq_S. simpl. apply Permutation_cons_append.
  - intros n e Hn%Hin He. destruct Hn as [->|Hn].
    + simpl in He. rewrite lookup_app_r, Nat.sub_diag in He by done. simpl in He.
      injection He as <-. done.
    + destruct (node_entry d n Hwf Hn) as (e' & He' & Hh & _).
      rewrite (lookup_app_l_Some _ _ _ _ He') in He. by injection He as <-.
  - apply Forall_app. split; [apply (wf_entry _ Hwf)|by constructor].
  - apply key_sorted_insert; [apply (wf_sorted _ Hwf)|done].
  - unfold keys. simpl. rewrite map_app. simpl. apply NoDup_app. split_and!.
    + apply (wf_keys _ Hwf).
    + intros k (e & -> & He)%list_elem_of_fmap Heq%list_elem_of_singleton.
      by apply (position_None _ _ e Hno He).
    + apply NoDup_singleton.
Qed.

(** ** Removal *)

Definition fixed (removed : nat) (n : RawIndex) : RawIndex :=
  if removed <? entry_idx n then mkRawIndex (idx_hash n) (entry_idx n - 1) else n.

Lemma fixup_from i (es : list (RawEntry P)) todo : forall done,
  mfold (fixup_node i) (seq (length done) (length todo)) tt (mkRawDict es (done ++ todo)) =
    (Ok tt, mkRawDict es (done ++ map (fixed i) todo)).
Proof.
  induction todo as [|n todo IH]; intros done_; [done|]. simpl.
  assert (Hn : (done_ ++ n :: todo) !! length done_ = Some n) by by rewrite list_lookup_middle.
  assert (E0 : fixup_node i tt (length done_) (mkRawDict es (done_ ++ n :: todo)) =
    (Ok tt, mkRawDict es (done_ ++ fixed i n :: todo))).
  { unfold fixup_node. rewrite bind_get. simpl. unfold list_getitem. rewrite Hn. simpl. rewrite bind_ret.
    unfold fixed. destruct (i <? entry_idx n); [|done].
    unfold list_setitem. rewrite decide_True by (rewrite length_app; simpl; lia). simpl.
    rewrite bind_ret. unfold modify, set_indices. simpl.
    by rewrite insert_app_r_alt, Nat.sub_diag by done. }
  rewrite (bind_ok _ _ _ _ _ E0).
  specialize (IH (done_ ++ [fixed i n])). rewrite length_app, Nat.add_1_r, <- !app_assoc in IH. done.
Qed.

Lemma fixup_spec i (d : RawDict P) :
  fixup_indices_after_removal i d = (Ok tt, mkRawDict (entries d) (map (fixed i) (indices d))).
Proof.
  unfold fixup_indices_after_removal. rewrite bind_get. destruct d as [es ixs]. simpl.
  apply (fixup_from i es ixs []).
Qed.

Definition decremented (i j : nat) : nat := if i <? j then j - 1 else j.

Lemma map_decremented i l : Forall (fun j => j <= i) l -> map (decremented i) l = l.
Proof.
  induction 1 as [|j l Hj _ IH]; simpl; [done|]. rewrite IH. unfold decremented.
  by rewrite (proj2 (Nat.ltb_ge _ _)).
Qed.

Lemma map_decremented_seq i j n : i <= j -> map (decremented i) (seq (S j) n) = seq j n.
Proof.
  revert j. induction n as [|n IH]; intros j Hj; [done|]. simpl. rewrite IH by lia. f_equal.
  unfold decremented. rewrite (proj2 (Nat.ltb_lt _ _)); lia.
Qed.

Lemma perm_removed i n l : i < n -> i :: l ≡ₚ seq 0 n -> map (decremented i) l ≡ₚ seq 0 (n - 1).
Proof.
  intros Hi Hp. replace n with (i + S (n - S i)) in Hp by lia.
  rewrite seq_app in Hp. simpl in Hp.
  apply (Permutation_cons_app_inv (seq 0 i) (seq (S i) (n - S i))) in Hp.
  rewrite Hp, map_app, map_decremented_seq by lia.
  rewrite map_decremented; [|apply Forall_forall; intros j Hj%elem_of_seq; lia].
  replace (n - 1) with (i + (n - S i)) by lia. by rewrite seq_app.
Qed.

Lemma lookup_erased {A} (l : list A) i j : i <> j ->
  (take i l ++ drop (S i) l) !! decremented i j = l !! j.
Proof.
  intros Hij. rewrite <- delete_take_drop. unfold decremented. destruct (i <? j) eqn:E0.
  - apply Nat.ltb_lt in E0. rewrite list_lookup_delete_ge by lia. f_equal. lia.
  - apply Nat.ltb_ge in E0. rewrite list_lookup_delete_lt; [done|lia].
Qed.

(** Both arrays, after the entry at [i], whose node is at [q], is gone. *)
Lemma wf_removed d q n e : wf d -> indices d !! q = Some n -> entries d !! entry_idx n = Some e ->
  let i := entry_idx n in
  wf (mkRawDict (take i (entries d) ++ drop (S i) (entries d))
        (map (fixed i) (take q (indices d) ++ drop (S q) (indices d)))).
Proof.
  intros Hwf Hq He i. pose proof (lookup_lt_Some _ _ _ He) as Hlt.
  assert (Hperm : i :: map entry_idx (take q (indices d) ++ drop (S q) (indices d)) ≡ₚ seq 0 (length (entries d))).
  { rewrite <- (wf_perm _ Hwf). rewrite <- (take_drop_middle (indices d) q n Hq) at 3.
    rewrite !map_app. simpl. apply Permutation_middle. }
  assert (Hsub : forall m, m ∈ take q (indices d) ++ drop (S q) (indices d) -> m ∈ indices d).
  { intros m Hm. rewrite <- (take_drop_middle (indices d) q n Hq).
    apply elem_of_app in Hm as [Hm|Hm]; apply elem_of_app; [by left|right; by right]. }
  split; simpl.
  - rewrite map_map.
    replace (map (fun x => entry_idx (fixed i x)) (take q (indices d) ++ drop (S q) (indices d)))
      with (map (decremented i) (map entry_idx (take q (indices d) ++ drop (S q) (indices d)))).
    2:{ rewrite map_map. apply map_ext. intros m. unfold decremented, fixed. by destruct (i <? entry_idx m). }
    rewrite (perm_removed i (length (entries d)) _ Hlt Hperm), length_app, length_take, length_drop.
    by replace (i `min` length (entries d) + (length (entries d) - S i)) with (length (entries d) - 1) by lia.
  - intros m' e' (m & -> & Hm)%list_elem_of_fmap He'.
    assert (entry_idx m <> i) as Hne.
    { intros Heq. assert (NoDup (i :: map entry_idx (take q (indices d) ++ drop (S q) (indices d)))) as Hnd
        by (rewrite Hperm; apply NoDup_seq).
      apply NoDup_cons in Hnd as [Hnin _]. apply Hnin. rewrite <- Heq. by apply list_elem_of_fmap_2. }
    assert (entry_idx (fixed i m) = decremented i (entry_idx m)) as Hfix.
    { unfold fixed, decremented. by destruct (i <? entry_idx m). }
    rewrite Hfix, lookup_erased in He' by congruence.
    replace (idx_hash (fixed i m)) with (idx_hash m) by (unfold fixed; by destruct (i <? entry_idx m)).
    apply (wf_hash _ Hwf); [by apply Hsub|done].
  - pose proof (wf_entry _ Hwf) as Hall. apply Forall_app. split; [by apply Forall_take|by apply Forall_drop].
  - apply key_sorted_map; [|by apply key_sorted_erase, (wf_sorted _ Hwf)].
    intros m. unfold fixed. by destruct (i <? entry_idx m).
  - pose proof (wf_keys _ Hwf) as Hnd. unfold keys in *.
    rewrite <- (take_drop_middle (entries d) i e He) in Hnd. simpl in *.
    rewrite map_app in *. simpl in Hnd. rewrite <- Permutation_middle in Hnd.
    by apply NoDup_cons in Hnd as [_ Hnd].
Qed.

Lemma remove_entry_spec eqf d kp : decides eqf kp d -> wf d -> fits d ->
  match position (key_of kp) (entries d) with
  | Some i => exists e d', remove_entry (hash_of (key_of kp)) kp eqf d = (Ok (Ok e), d') /\
      entries d !! i = Some e /\ entries d' = take i (entries d) ++ drop (S i) (entries d) /\ wf d'
  | None => remove_entry (hash_of (key_of kp)) kp eqf d = (Ok (Err mkKeyError), d)
  end.
Proof.
  intros Hdec Hwf Hf. destruct (lower_bound_spec d (hash_of (key_of kp)) Hwf Hf) as (pos & E0 & _).
  pose proof (scan_position eqf d kp Hdec Hwf Hf pos E0) as Hs.
  unfold remove_entry, find_indices_pos.
  destruct (position (key_of kp) (entries d)) as [i|].
  2:{ rewrite bind_bind, (bind_ok _ _ _ _ _ E0), bind_bind, bind_get, bind_bind, (bind_ok _ _ _ _ _ Hs). done. }
  destruct Hs as (q & n & E1 & Hq & <-).
  destruct (node_entry d n Hwf) as (e & He & _ & _); [by eapply list_elem_of_lookup_2|].
  rewrite bind_bind, (bind_ok _ _ _ _ _ E0), bind_bind, bind_get, bind_bind, (bind_ok _ _ _ _ _ E1).
  rewrite bind_ret, bind_get. unfold list_getitem. rewrite Hq. simpl. rewrite bind_ret, He. simpl. rewrite bind_ret.
  unfold list_erase_at. rewrite decide_True by by eapply lookup_lt_Some. simpl. rewrite bind_ret, bind_modify.
  rewrite decide_True by by eapply lookup_lt_Some. simpl. rewrite bind_ret, bind_modify. simpl.
  rewrite (bind_ok _ _ _ _ _ (fixup_spec _ _)). simpl.
  eexists e, _. split; [reflexivity|]. simpl. split_and!; [done|done|]. by apply (wf_removed d q n e).
Qed.

(** ** Overwriting a value *)

Lemma overwrite_value_at_spec d i e vp : wf d -> entries d !! i = Some e ->
  let d' := mkRawDict (<[i:=mkRawEntry (hash e) (key_ptr e) vp]> (entries d)) (indices d) in
  overwrite_value_at i vp d = (Ok (value_ptr e), d') /\ wf d'.
Proof.
  intros Hwf He d'. split.
  - unfold overwrite_value_at, entry_at. rewrite bind_bind, bind_get. unfold list_getitem. rewrite He. simpl.
    rewrite bind_ret, bind_get. unfold list_setitem. rewrite decide_True by by eapply lookup_lt_Some.
    simpl. by rewrite bind_ret.
  - assert (Hkeys : keys d' = keys d).
    { unfold keys, d'. simpl. rewrite list_fmap_insert. apply list_insert_id.
      by rewrite list_lookup_fmap, He. }
    split; simpl.
    + rewrite length_insert. apply (wf_perm _ Hwf).
    + intros n e' Hn He'. destruct (decide (entry_idx n = i)) as [Heq|Hne].
      * rewrite Heq, list_lookup_insert_eq in He' by by eapply lookup_lt_Some.
        injection He' as <-. simpl. apply (wf_hash _ Hwf); [done|by rewrite Heq].
      * rewrite list_lookup_insert_ne in He' by done. by apply (wf_hash _ Hwf).
    + apply Forall_insert; [apply (wf_entry _ Hwf)|]. simpl. by apply (entry_hash d i e).
    + apply (wf_sorted _ Hwf).
    + rewrite Hkeys. apply (wf_keys _ Hwf).
Qed.

Lemma wf_empty : wf (mkRawDict [] []).
Proof. split; simpl; [done|by intros n e ?%not_elem_of_nil|constructor|constructor|constructor]. Qed.

End consistency.

(** ** A sample dictionary: keys 1 and 3 share a hash *)

Definition sample_raw : RawDict Z :=
  mkRawDict [mkRawEntry 1 3 30; mkRawEntry 0 2 20; mkRawEntry 1 1 10]%Z
    [mkRawIndex 0 1; mkRawIndex 1 0; mkRawIndex 1 2].

Lemma sample_raw_wf : wf id (fun k => k mod 2)%Z sample_raw.
Proof.
  split; simpl.
  - apply (Permutation_swap 0 1 [2]).
  - intros n e Hn. repeat (apply elem_of_cons in Hn as [->|Hn]; [by intros [= <-]|]).
    by apply not_elem_of_nil in Hn.
  - by repeat constructor.
  - by repeat constructor.
  - unfold keys. simpl. repeat constructor; set_solver.
Qed.

Lemma sample_raw_fits : fits sample_raw.
Proof. vm_compute. discriminate. Qed.

Lemma sample_raw_decides k : decides id (fun a b => Some (bool_decide (a = b))) k sample_raw.
Proof. by intros e _. Qed.

Lemma find_entry_idx_correct_witness :
  find_entry_idx 1 1%Z (fun a b => Some (bool_decide (a = b))) sample_raw = (Ok (Ok 2), sample_raw).
Proof.
  exact (find_entry_idx_correct id (fun k => k mod 2)%Z _ sample_raw 1%Z (sample_raw_decides 1%Z)
    sample_raw_wf sample_raw_fits).
Defined.
