(* ===== verification/UnsafeDict.v ===== *)
(** * Dictionaries ([UnsafeDict] in [lib/builtins/__init__.py])

    [UnsafeDict[K, V]] owns what [RawDict] only points to.  A key or value
    whose representation is a bare pointer ([compiler.is_rc]) is stored as its
    handle; any other is copied to a heap cell.  Either may hold reference
    counts (a union with a reference-counted leaf is copied and counted), so
    [incref] and [decref] run on both paths.  The model has the two heaps and a
    ledger of the references the operations have taken; a lookup of a freed
    cell, a second release, or a [decref] of a reference that was never taken is
    a [Fault].  The allocator does not run out here, an object's content does not
    change while it is a key, and the destruction of an object whose last
    reference is released is left to the object.

    [==] and [__hash__] are the key type's own.  A key that is not a bare pointer is
    hashed by the bytes of its storage, so [KeyLaws] (keys that compare equal
    have one hash, and a key equals itself) is a condition on the key type: it holds for
    integers, booleans, enums and strings, not for [f64] (0.0 and -0.0, NaN), a
    [cstruct] with padding, or a union with a counted leaf
    ([equal_keys_two_entries]).  The specification is a list of pairs in
    insertion order. *)

From stdpp Require Import gmultiset.
From S2P Require Import Prelude RawList Bisect RawDict.

Local Open Scope monad_scope.

(** What the compiler knows of the type of a stored value: [compiler.is_rc], and the
    objects a value holds a reference to ([compiler.incref] does nothing for a
    type without any). *)
Class StoredType (T : Type) := {
  is_rc : bool;
  refs_of : T -> gmultiset nat;
}.
Arguments is_rc T {_}.

(** The operations of a key type: [==], [__hash__], and the bytes of the storage of a
    key. *)
Class KeyOps (K : Type) := {
  key_eqb : K -> K -> bool;
  key_hash : K -> Z;
  key_bytes : K -> list Z;
}.

(** ** The byte hash *)

Definition _FNV_OFFSET_BASIS : Z := 14695981039346656037.
Definition _FNV_PRIME : Z := 1099511628211.

Definition _fnv1a_hash (data : list Z) : Z :=
  fold_left (fun h b => (Z.lxor h b * _FNV_PRIME) mod 2 ^ 64)%Z data _FNV_OFFSET_BASIS.

Section unsafe_dict.
Context `{Platform} {K V : Type} `{StoredType K, StoredType V, KeyOps K}.

(** A [Ptr[None]]: a heap cell, the address of a local holding a key, or the
    handle of a reference-counted key or value. *)
Inductive Ptr :=
| HeapPtr (loc : nat)
| AddrOf (key : K)
| KeyHandle (key : K)
| ValueHandle (value : V).

Record Dict := mkDict {
  raw : RawDict Ptr;
  kheap : gmap nat K;
  vheap : gmap nat V;
  refs : gmultiset nat;
}.

Abbreviation DD A := (M Dict abort A).

Definition set_raw r (s : Dict) : Dict := mkDict r (kheap s) (vheap s) (refs s).
Definition set_kheap h (s : Dict) : Dict := mkDict (raw s) h (vheap s) (refs s).
Definition set_vheap h (s : Dict) : Dict := mkDict (raw s) (kheap s) h (refs s).
Definition set_refs m (s : Dict) : Dict := mkDict (raw s) (kheap s) (vheap s) m.

(** A call into [RawDict]. *)
Definition on_raw {A} (m : M (RawDict Ptr) abort A) : DD A := fun s =>
  let '(r, d) := m (raw s) in (r, set_raw d s).

(** [compiler.incref] and [compiler.decref] of a value that holds [m]. *)
Definition incref (m : gmultiset nat) : DD unit := fun s => (Ok tt, set_refs (m ⊎ refs s) s).

Definition decref (m : gmultiset nat) : DD unit := fun s =>
  if decide (m ⊆ refs s) then (Ok tt, set_refs (refs s ∖ m) s) else (Err Fault, s).

(** [compiler.cast( K, p )], or [compiler.cast( Ptr[K], p )[0]]. *)
Definition deref_key (h : gmap nat K) (p : Ptr) : option K :=
  if is_rc K then match p with KeyHandle k => Some k | _ => None end
  else match p with HeapPtr l => h !! l | AddrOf k => Some k | _ => None end.

Definition deref_value (h : gmap nat V) (p : Ptr) : option V :=
  if is_rc V then match p with ValueHandle v => Some v | _ => None end
  else match p with HeapPtr l => h !! l | _ => None end.

Definition key_eq (h : gmap nat K) (a b : Ptr) : option bool :=
  ka ← deref_key h a; kb ← deref_key h b; Some (key_eqb ka kb).

Definition hash_key (key : K) : Z :=
  if is_rc K then key_hash key else _fnv1a_hash (key_bytes key).

(** The borrowed search key. *)
Definition borrow_key (key : K) : Ptr := if is_rc K then KeyHandle key else AddrOf key.

(** *** Ownership of one key or value *)

Definition store_key (key : K) : DD Ptr :=
  incref (refs_of key) ;;;
  if is_rc K then ret (KeyHandle key) else
  fun s => let l := fresh (dom (kheap s)) in (Ok (HeapPtr l), set_kheap (<[l:=key]> (kheap s)) s).

Definition store_value (value : V) : DD Ptr :=
  incref (refs_of value) ;;;
  if is_rc V then ret (ValueHandle value) else
  fun s => let l := fresh (dom (vheap s)) in (Ok (HeapPtr l), set_vheap (<[l:=value]> (vheap s)) s).

(** [sys.free] *)
Definition free_key (p : Ptr) : DD unit := fun s =>
  match p with
  | HeapPtr l => if decide (is_Some (kheap s !! l)) then (Ok tt, set_kheap (delete l (kheap s)) s) else (Err Fault, s)
  | _ => (Err Fault, s)
  end.

Definition free_value (p : Ptr) : DD unit := fun s =>
  match p with
  | HeapPtr l => if decide (is_Some (vheap s !! l)) then (Ok tt, set_vheap (delete l (vheap s)) s) else (Err Fault, s)
  | _ => (Err Fault, s)
  end.

Definition key_behind (p : Ptr) : DD K :=
  let* s := get in match deref_key (kheap s) p with Some k => ret k | None => raise Fault end.

Definition value_behind (p : Ptr) : DD V :=
  let* s := get in match deref_value (vheap s) p with Some v => ret v | None => raise Fault end.

Definition release_key (p : Ptr) : DD unit :=
  let* k := key_behind p in
  decref (refs_of k) ;;;
  if is_rc K then ret tt else free_key p.

Definition release_value (p : Ptr) : DD unit :=
  let* v := value_behind p in
  decref (refs_of v) ;;;
  if is_rc V then ret tt else free_value p.

Definition owned_key (p : Ptr) : DD K :=
  let* k := key_behind p in
  incref (refs_of k) ;;;
  ret k.

Definition owned_value (p : Ptr) : DD V :=
  let* v := value_behind p in
  incref (refs_of v) ;;;
  ret v.

(** *** The operations *)

Definition new_dict : Dict := mkDict empty_dict ∅ ∅ ∅.

Definition find_key (key : K) : DD (result KeyError nat) :=
  let* s := get in
  on_raw (find_entry_idx (hash_key key) (borrow_key key) (key_eq (kheap s))).

Definition getitem (key : K) : DD (result KeyError V) :=
  let* found := find_key key in
  match found with
  | Err e => ret (Err e)
  | Ok entry_idx =>
      let* p := on_raw (value_ptr_at entry_idx) in
      let* v := owned_value p in
      ret (Ok v)
  end.

Definition contains (key : K) : DD bool :=
  let* found := find_key key in ret (is_ok found).

Definition setitem (key : K) (value : V) : DD unit :=
  let* found := find_key key in
  match found with
  | Ok entry_idx =>
      let* new_value_ptr := store_value value in
      let* old_value_ptr := on_raw (overwrite_value_at entry_idx new_value_ptr) in
      release_value old_value_ptr
  | Err _ =>
      let* owned_key_ptr := store_key key in
      let* owned_value_ptr := store_value value in
      on_raw (insert_new (hash_key key) owned_key_ptr owned_value_ptr)
  end.

Definition delitem (key : K) : DD (result KeyError unit) :=
  let* s := get in
  let* removed := on_raw (remove_entry (hash_key key) (borrow_key key) (key_eq (kheap s))) in
  match removed with
  | Err e => ret (Err e)
  | Ok entry =>
      release_key (key_ptr entry) ;;;
      release_value (value_ptr entry) ;;;
      ret (Ok tt)
  end.

Definition key_at (index : nat) : DD (result IndexError K) :=
  let* s := get in
  if dict_len (raw s) <=? index then ret (Err mkIndexError) else
  let* p := on_raw (key_ptr_at index) in
  let* k := owned_key p in
  ret (Ok k).

Definition value_at (index : nat) : DD (result IndexError V) :=
  let* s := get in
  if dict_len (raw s) <=? index then ret (Err mkIndexError) else
  let* p := on_raw (value_ptr_at index) in
  let* v := owned_value p in
  ret (Ok v).

(** [__del__] *)
Definition del_entry (_ : unit) (i : nat) : DD unit :=
  let* kp := on_raw (key_ptr_at i) in
  release_key kp ;;;
  let* vp := on_raw (value_ptr_at i) in
  release_value vp.

Definition del : DD unit :=
  let* s := get in mfold del_entry (seq 0 (dict_len (raw s))) tt.

(** ** The specification

    A key that is present keeps its place and its own copy when its value is
    replaced. *)

Definition alist_index (k : K) (l : list (K * V)) : option nat :=
  fst <$> list_find (fun kv => key_eqb kv.1 k = true) l.

Definition alist_get (k : K) (l : list (K * V)) : option V :=
  i ← alist_index k l; snd <$> l !! i.

Definition alist_set (k : K) (v : V) (l : list (K * V)) : list (K * V) :=
  match alist_index k l with
  | Some i => alter (fun kv => (kv.1, v)) i l
  | None => l ++ [(k, v)]
  end.

Definition alist_del (k : K) (l : list (K * V)) : list (K * V) :=
  match alist_index k l with Some i => take i l ++ drop (S i) l | None => l end.

Inductive DictOp :=
| DGet (k : K)
| DContains (k : K)
| DSet (k : K) (v : V)
| DDel (k : K)
| DKeyAt (i : nat)
| DValueAt (i : nat).

Inductive DictOut :=
| OutNone
| OutBool (b : bool)
| OutKey (k : K)
| OutValue (v : V)
| OutKeyError
| OutIndexError.

Definition out {E A} (ok : A -> DictOut) (err : DictOut) (r : result E A) : DictOut :=
  match r with Ok a => ok a | Err _ => err end.

Definition run_dict_op (o : DictOp) : DD DictOut :=
  match o with
  | DGet k => let* r := getitem k in ret (out OutValue OutKeyError r)
  | DContains k => let* b := contains k in ret (OutBool b)
  | DSet k v => setitem k v ;;; ret OutNone
  | DDel k => let* r := delitem k in ret (out (fun _ => OutNone) OutKeyError r)
  | DKeyAt i => let* r := key_at i in ret (out OutKey OutIndexError r)
  | DValueAt i => let* r := value_at i in ret (out OutValue OutIndexError r)
  end.

Definition spec_dict_op (o : DictOp) (l : list (K * V)) : DictOut * list (K * V) :=
  match o with
  | DGet k => (match alist_get k l with Some v => OutValue v | None => OutKeyError end, l)
  | DContains k => (OutBool (bool_decide (is_Some (alist_index k l))), l)
  | DSet k v => (OutNone, alist_set k v l)
  | DDel k => (match alist_index k l with Some _ => OutNone | None => OutKeyError end, alist_del k l)
  | DKeyAt i => (match l !! i with Some kv => OutKey kv.1 | None => OutIndexError end, l)
  | DValueAt i => (match l !! i with Some kv => OutValue kv.2 | None => OutIndexError end, l)
  end.

Definition run_dict_ops (ops : list DictOp) : DD (list DictOut) :=
  mfold (fun outs o => let* r := run_dict_op o in ret (outs ++ [r])) ops [].

Definition spec_dict_step (acc : list DictOut * list (K * V)) (o : DictOp) : list DictOut * list (K * V) :=
  let '(r, l) := spec_dict_op o acc.2 in (acc.1 ++ [r], l).

Definition spec_dict_ops (ops : list DictOp) (l : list (K * V)) : list DictOut * list (K * V) :=
  fold_left spec_dict_step ops ([], l).

(** ** Representation

    The cells of an entry: its key's and its value's location (unused for a
    handle) and content. *)

Abbreviation cell := ((nat * K) * (nat * V))%type.

Definition key_cell_ptr (c : nat * K) : Ptr := if is_rc K then KeyHandle c.2 else HeapPtr c.1.
Definition value_cell_ptr (c : nat * V) : Ptr := if is_rc V then ValueHandle c.2 else HeapPtr c.1.

Definition entry_of (c : cell) : RawEntry Ptr :=
  mkRawEntry (hash_key c.1.2) (key_cell_ptr c.1) (value_cell_ptr c.2).

Definition pair_of (c : cell) : K * V := (c.1.2, c.2.2).

(** The heap cells that hold [cs]: none when they are handles. *)
Definition in_heap {T} (rc : bool) (cs : list (nat * T)) : list (nat * T) := if rc then [] else cs.

(** The references a list of pairs holds, and those an output has handed to the
    caller. *)
Definition pair_refs (kv : K * V) : gmultiset nat := refs_of kv.1 ⊎ refs_of kv.2.

Definition sum_refs {T} (f : T -> gmultiset nat) (l : list T) : gmultiset nat :=
  foldr (fun x m => f x ⊎ m) ∅ l.

Definition out_refs (o : DictOut) : gmultiset nat :=
  match o with OutKey k => refs_of k | OutValue v => refs_of v | _ => ∅ end.

(** What compares equal under [==] has the same content, and the hash is a
    function of the content. *)
Class KeyLaws (C : Type) `{EqDecision C} := {
  content : K -> C;
  content_hash : C -> Z;
  key_eqb_content : forall a b, key_eqb a b = bool_decide (content a = content b);
  hash_key_content : forall k, hash_key k = content_hash (content k);
}.

Section proofs.
Context `{KeyLaws C}.

(** [option C], as a dangling pointer has no key. *)
Definition hash_opt (k : option C) : Z := match k with Some c => content_hash c | None => 0%Z end.

Definition content_at (h : gmap nat K) (p : Ptr) : option C := content <$> deref_key h p.

Record represents (s : Dict) (cells : list cell) (handed : gmultiset nat) : Prop := {
  rep_entries : entries (raw s) = map entry_of cells;
  rep_kheap : map_to_list (kheap s) ≡ₚ in_heap (is_rc K) (map fst cells);
  rep_vheap : map_to_list (vheap s) ≡ₚ in_heap (is_rc V) (map snd cells);
  rep_refs : refs s = sum_refs pair_refs (map pair_of cells) ⊎ handed;
  rep_wf : wf (content_at (kheap s)) hash_opt (raw s);
}.

(** The dictionary holds the pairs [l], and owns nothing else: besides the
    references of the pairs only those [handed] out have been taken. *)
Definition is_dict (s : Dict) (l : list (K * V)) (handed : gmultiset nat) : Prop :=
  exists cells, represents s cells handed /\ l = map pair_of cells.

(** *** Heaps as lists of cells *)

Definition heap_store {T} (rc : bool) (l : nat) (x : T) (h : gmap nat T) : gmap nat T :=
  if rc then h else <[l:=x]> h.

Definition heap_free {T} (rc : bool) (l : nat) (h : gmap nat T) : gmap nat T :=
  if rc then h else delete l h.

Lemma in_heap_perm {T} rc (cs cs' : list (nat * T)) : cs ≡ₚ cs' -> in_heap rc cs ≡ₚ in_heap rc cs'.
Proof. by destruct rc. Qed.

Lemma in_heap_lookup {T} (h : gmap nat T) rc cs l x :
  map_to_list h ≡ₚ in_heap rc cs -> rc = false -> (l, x) ∈ cs -> h !! l = Some x.
Proof. intros Hp -> Hin. apply elem_of_map_to_list. by rewrite Hp. Qed.

Lemma in_heap_add {T} (h : gmap nat T) rc cs l x :
  map_to_list h ≡ₚ in_heap rc cs -> (rc = false -> h !! l = None) ->
  map_to_list (heap_store rc l x h) ≡ₚ in_heap rc (cs ++ [(l, x)]).
Proof.
  destruct rc; simpl; [done|]. intros Hp Hl. rewrite map_to_list_insert, Hp by auto.
  apply Permutation_cons_append.
Qed.

Lemma in_heap_remove {T} (h : gmap nat T) rc cs l x :
  map_to_list h ≡ₚ in_heap rc ((l, x) :: cs) -> map_to_list (heap_free rc l h) ≡ₚ in_heap rc cs.
Proof.
  destruct rc; simpl; [done|]. intros Hp. apply (Permutation_cons_inv (a:=(l, x))). rewrite <- Hp.
  apply map_to_list_delete. apply elem_of_map_to_list. rewrite Hp. left.
Qed.

Lemma fresh_none {T} (h : gmap nat T) : h !! fresh (dom h) = None.
Proof. apply not_elem_of_dom, is_fresh. Qed.

(** The cells around position [i]. *)
Lemma cells_around {T} (f : cell -> T) (cells : list cell) i c : cells !! i = Some c ->
  map f cells ≡ₚ f c :: map f (take i cells ++ drop (S i) cells).
Proof.
  intros Hc. rewrite <- (take_drop_middle cells i c Hc) at 1. rewrite !map_app. simpl.
  symmetry. apply Permutation_middle.
Qed.

Lemma cells_update {T} (f : cell -> T) (cells : list cell) i c : i < length cells ->
  map f (<[i:=c]> cells) ≡ₚ f c :: map f (take i cells ++ drop (S i) cells).
Proof.
  intros Hi. rewrite (cells_around f (<[i:=c]> cells) i c) by by rewrite list_lookup_insert_eq.
  by rewrite take_insert_ge, drop_insert_lt by lia.
Qed.

(** *** Sums of references *)

Lemma sum_refs_app {T} (f : T -> gmultiset nat) l1 l2 : sum_refs f (l1 ++ l2) = sum_refs f l1 ⊎ sum_refs f l2.
Proof. induction l1 as [|x l1 IH]; simpl; [multiset_solver|]. rewrite IH. multiset_solver. Qed.

Lemma sum_refs_perm {T} (f : T -> gmultiset nat) l1 l2 : l1 ≡ₚ l2 -> sum_refs f l1 = sum_refs f l2.
Proof. induction 1; simpl; [done|congruence|multiset_solver|congruence]. Qed.

Lemma sum_refs_around (cells : list cell) i c : cells !! i = Some c ->
  sum_refs pair_refs (map pair_of cells) =
    pair_refs (pair_of c) ⊎ sum_refs pair_refs (map pair_of (take i cells ++ drop (S i) cells)).
Proof. intros Hc. by rewrite (sum_refs_perm _ _ _ (cells_around pair_of cells i c Hc)). Qed.

(** *** What a cell's pointers lead to *)

Lemma rep_key_cell s cells m c : represents s cells m -> c ∈ cells ->
  deref_key (kheap s) (key_cell_ptr c.1) = Some c.1.2.
Proof.
  intros Hr Hc. unfold deref_key, key_cell_ptr. destruct (is_rc K) eqn:Erc; [done|].
  apply (in_heap_lookup _ _ _ _ _ (rep_kheap _ _ _ Hr) Erc).
  destruct c as [[lk k] cv]. by apply (list_elem_of_fmap_2 fst _ ((lk, k), cv)).
Qed.

Lemma rep_value_cell s cells m c : represents s cells m -> c ∈ cells ->
  deref_value (vheap s) (value_cell_ptr c.2) = Some c.2.2.
Proof.
  intros Hr Hc. unfold deref_value, value_cell_ptr. destruct (is_rc V) eqn:Erc; [done|].
  apply (in_heap_lookup _ _ _ _ _ (rep_vheap _ _ _ Hr) Erc).
  destruct c as [ck [lv v]]. by apply (list_elem_of_fmap_2 snd _ (ck, (lv, v))).
Qed.

Lemma deref_borrow h k : deref_key h (borrow_key k) = Some k.
Proof. unfold deref_key, borrow_key. by destruct (is_rc K). Qed.

Lemma content_borrow h k : content_at h (borrow_key k) = Some (content k).
Proof. unfold content_at. by rewrite deref_borrow. Qed.

Lemma hash_borrow h k : hash_key k = hash_opt (content_at h (borrow_key k)).
Proof. rewrite content_borrow. apply hash_key_content. Qed.

Lemma rep_decides s cells m k : represents s cells m ->
  decides (content_at (kheap s)) (key_eq (kheap s)) (borrow_key k) (raw s).
Proof.
  intros Hr e He. rewrite (rep_entries _ _ _ Hr) in He. apply list_elem_of_fmap in He as (c & -> & Hc).
  unfold key_eq, entry_key, content_at. simpl. rewrite deref_borrow, (rep_key_cell s cells m c Hr Hc). simpl.
  rewrite key_eqb_content. f_equal. apply bool_decide_ext. split; congruence.
Qed.

Lemma position_cells h cells k : (forall c, c ∈ cells -> deref_key h (key_cell_ptr c.1) = Some c.1.2) ->
  position (content_at h) (Some (content k)) (map entry_of cells) = alist_index k (map pair_of cells).
Proof.
  intros Hcells. unfold position, alist_index. induction cells as [|c cells IH]; [done|]. simpl.
  specialize (IH ltac:(intros c' Hc'; apply Hcells; by right)).
  assert (entry_key (content_at h) (entry_of c) = Some (content c.1.2)) as Hc.
  { unfold entry_key, content_at. simpl. by rewrite Hcells by left. }
  pose proof (key_eqb_content c.1.2 k) as Hq. destruct (bool_decide_reflect (content c.1.2 = content k)) as [Heq|Hne].
  - rewrite !decide_True by (done || congruence). done.
  - rewrite !decide_False by congruence.
    destruct (list_find _ (map entry_of cells)) as [[i e]|], (list_find _ (map pair_of cells)) as [[j p]|];
      simpl in *; congruence.
Qed.

Lemma rep_position s cells m k : represents s cells m ->
  position (content_at (kheap s)) (Some (content k)) (entries (raw s)) = alist_index k (map pair_of cells).
Proof.
  intros Hr. rewrite (rep_entries _ _ _ Hr). apply position_cells. intros c. by apply rep_key_cell with m.
Qed.

Definition roomy (s : Dict) : Prop := fits (raw s).

Lemma find_key_spec s cells m k : represents s cells m -> roomy s ->
  find_key k s = (Ok (match alist_index k (map pair_of cells) with
                      | Some i => Ok i | None => Err mkKeyError end), s).
Proof.
  intros Hr Hf. unfold find_key. rewrite bind_get. unfold on_raw. rewrite (hash_borrow (kheap s)).
  rewrite (find_entry_idx_spec (content_at (kheap s)) hash_opt (key_eq (kheap s)) (raw s) (borrow_key k)
    (rep_decides s cells m k Hr) (rep_wf _ _ _ Hr) Hf).
  rewrite content_borrow, (rep_position s cells m k Hr). by destruct s.
Qed.

Lemma on_raw_ok {A} (m : M (RawDict Ptr) abort A) s a d :
  m (raw s) = (Ok a, d) -> on_raw m s = (Ok a, set_raw d s).
Proof. intros E0. unfold on_raw. by rewrite E0. Qed.

Lemma set_raw_id s : set_raw (raw s) s = s.
Proof. by destruct s. Qed.

Lemma entry_at_spec s cells m i c : represents s cells m -> cells !! i = Some c ->
  entry_at i (raw s) = (Ok (entry_of c), raw s).
Proof.
  intros Hr Hc. unfold entry_at, list_getitem. rewrite bind_get, (rep_entries _ _ _ Hr), list_lookup_fmap, Hc.
  done.
Qed.

Lemma value_ptr_spec s cells m i c : represents s cells m -> cells !! i = Some c ->
  on_raw (value_ptr_at i) s = (Ok (value_cell_ptr c.2), s).
Proof.
  intros Hr Hc. rewrite <- (set_raw_id s) at 2. apply on_raw_ok. unfold value_ptr_at.
  by rewrite (bind_ok _ _ _ _ _ (entry_at_spec s cells m i c Hr Hc)).
Qed.

Lemma key_ptr_spec s cells m i c : represents s cells m -> cells !! i = Some c ->
  on_raw (key_ptr_at i) s = (Ok (key_cell_ptr c.1), s).
Proof.
  intros Hr Hc. rewrite <- (set_raw_id s) at 2. apply on_raw_ok. unfold key_ptr_at.
  by rewrite (bind_ok _ _ _ _ _ (entry_at_spec s cells m i c Hr Hc)).
Qed.

Lemma owned_value_spec s cells m c : represents s cells m -> c ∈ cells ->
  owned_value (value_cell_ptr c.2) s = (Ok c.2.2, set_refs (refs_of c.2.2 ⊎ refs s) s).
Proof.
  intros Hr Hc. unfold owned_value, value_behind. rewrite bind_bind, bind_get.
  by rewrite (rep_value_cell s cells m c Hr Hc).
Qed.

Lemma owned_key_spec s cells m c : represents s cells m -> c ∈ cells ->
  owned_key (key_cell_ptr c.1) s = (Ok c.1.2, set_refs (refs_of c.1.2 ⊎ refs s) s).
Proof.
  intros Hr Hc. unfold owned_key, key_behind. rewrite bind_bind, bind_get.
  by rewrite (rep_key_cell s cells m c Hr Hc).
Qed.

(** Handing out references. *)
Lemma rep_hand s cells m r : represents s cells m -> represents (set_refs (r ⊎ refs s) s) cells (r ⊎ m).
Proof. intros [He Hk Hv Hm Hw]. split; simpl; [done..| |done]. rewrite Hm. multiset_solver. Qed.

Lemma alist_index_lookup k cells i : alist_index k (map pair_of cells) = Some i ->
  exists c, cells !! i = Some c /\ content c.1.2 = content k.
Proof.
  unfold alist_index. intros ([j kv] & (Hj & Hk & _)%list_find_Some & ->)%fmap_Some. simpl.
  rewrite list_lookup_fmap in Hj. destruct (cells !! j) as [c|] eqn:Hc; [|done]. injection Hj as <-.
  exists c. split; [done|]. by rewrite key_eqb_content, bool_decide_eq_true in Hk.
Qed.

(** *** Consistency only depends on the keys behind the pointers *)

Lemma wf_transfer (h h' : gmap nat K) (d : RawDict Ptr) :
  (forall e, e ∈ entries d -> deref_key h' (key_ptr e) = deref_key h (key_ptr e)) ->
  wf (content_at h) hash_opt d -> wf (content_at h') hash_opt d.
Proof.
  intros He [Hp Hh Hent Hs Hk]. split; [done|done| |done|].
  - apply Forall_forall. intros e Hin. rewrite Forall_forall in Hent. unfold entry_key, content_at.
    rewrite He by done. by apply Hent.
  - unfold keys. replace (map (entry_key (content_at h')) (entries d)) with (map (entry_key (content_at h)) (entries d));
      [done|].
    apply map_ext_in. intros e Hin%list_elem_of_In. unfold entry_key, content_at. by rewrite He.
Qed.

(** *** Storing and releasing one key or value *)

Lemma store_key_spec k s : exists l,
  store_key k s = (Ok (key_cell_ptr (l, k)),
    set_kheap (heap_store (is_rc K) l k (kheap s)) (set_refs (refs_of k ⊎ refs s) s)) /\
  (is_rc K = false -> kheap s !! l = None).
Proof.
  exists (fresh (dom (kheap s))). split; [|intros _; apply fresh_none].
  unfold store_key, key_cell_ptr, heap_store, incref, bind. simpl. by destruct (is_rc K).
Qed.

Lemma store_value_spec v s : exists l,
  store_value v s = (Ok (value_cell_ptr (l, v)),
    set_vheap (heap_store (is_rc V) l v (vheap s)) (set_refs (refs_of v ⊎ refs s) s)) /\
  (is_rc V = false -> vheap s !! l = None).
Proof.
  exists (fresh (dom (vheap s))). split; [|intros _; apply fresh_none].
  unfold store_value, value_cell_ptr, heap_store, incref, bind. simpl. by destruct (is_rc V).
Qed.

Lemma free_key_spec s l : is_Some (kheap s !! l) ->
  free_key (HeapPtr l) s = (Ok tt, set_kheap (delete l (kheap s)) s).
Proof. intros Hl. unfold free_key. by rewrite decide_True. Qed.

Lemma free_value_spec s l : is_Some (vheap s !! l) ->
  free_value (HeapPtr l) s = (Ok tt, set_vheap (delete l (vheap s)) s).
Proof. intros Hl. unfold free_value. by rewrite decide_True. Qed.

Lemma decref_spec r s : r ⊆ refs s -> decref r s = (Ok tt, set_refs (refs s ∖ r) s).
Proof. intros Hr. unfold decref. by rewrite decide_True. Qed.

Lemma release_key_spec s c : deref_key (kheap s) (key_cell_ptr c) = Some c.2 -> refs_of c.2 ⊆ refs s ->
  release_key (key_cell_ptr c) s =
    (Ok tt, set_kheap (heap_free (is_rc K) c.1 (kheap s)) (set_refs (refs s ∖ refs_of c.2) s)).
Proof.
  intros Hc Hr. unfold release_key, key_behind. rewrite bind_bind, bind_get, Hc, bind_ret.
  rewrite (bind_ok _ _ _ _ _ (decref_spec _ s Hr)). unfold deref_key, key_cell_ptr, heap_free in *.
  destruct (is_rc K); [by destruct s|]. rewrite free_key_spec by eauto. done.
Qed.

Lemma release_value_spec s c : deref_value (vheap s) (value_cell_ptr c) = Some c.2 -> refs_of c.2 ⊆ refs s ->
  release_value (value_cell_ptr c) s =
    (Ok tt, set_vheap (heap_free (is_rc V) c.1 (vheap s)) (set_refs (refs s ∖ refs_of c.2) s)).
Proof.
  intros Hc Hr. unfold release_value, value_behind. rewrite bind_bind, bind_get, Hc, bind_ret.
  rewrite (bind_ok _ _ _ _ _ (decref_spec _ s Hr)). unfold deref_value, value_cell_ptr, heap_free in *.
  destruct (is_rc V); [by destruct s|]. rewrite free_value_spec by eauto. done.
Qed.

(** Storing another key or value leaves a cell's pointer as it is. *)
Lemma deref_key_store h c l k : (is_rc K = false -> h !! l = None) ->
  deref_key h (key_cell_ptr c) = Some c.2 -> deref_key (heap_store (is_rc K) l k h) (key_cell_ptr c) = Some c.2.
Proof.
  unfold deref_key, key_cell_ptr, heap_store. destruct (is_rc K); [done|]. intros Hl Hc.
  rewrite lookup_insert_ne; [done|]. intros ->. by rewrite Hl in Hc.
Qed.

Lemma deref_value_store h c l v : (is_rc V = false -> h !! l = None) ->
  deref_value h (value_cell_ptr c) = Some c.2 ->
  deref_value (heap_store (is_rc V) l v h) (value_cell_ptr c) = Some c.2.
Proof.
  unfold deref_value, value_cell_ptr, heap_store. destruct (is_rc V); [done|]. intros Hl Hc.
  rewrite lookup_insert_ne; [done|]. intros ->. by rewrite Hl in Hc.
Qed.

Lemma deref_key_stored h l k : deref_key (heap_store (is_rc K) l k h) (key_cell_ptr (l, k)) = Some k.
Proof. unfold deref_key, key_cell_ptr, heap_store. destruct (is_rc K); [done|]. apply lookup_insert_eq. Qed.

(** *** The mutating operations *)

Lemma setitem_new s cells m k v : represents s cells m -> roomy s ->
  alist_index k (map pair_of cells) = None ->
  exists s' lk lv, setitem k v s = (Ok tt, s') /\ represents s' (cells ++ [((lk, k), (lv, v))]) m.
Proof.
  intros Hr Hf Hno. unfold setitem.
  rewrite (bind_ok _ _ _ _ _ (find_key_spec s cells m k Hr Hf)), Hno.
  destruct (store_key_spec k s) as (lk & E1 & Hlk). rewrite (bind_ok _ _ _ _ _ E1). clear E1.
  edestruct (store_value_spec v) as (lv & E2 & Hlv). rewrite (bind_ok _ _ _ _ _ E2). clear E2. simpl in *.
  set (kh := heap_store (is_rc K) lk k (kheap s)) in *.
  assert (Hcells : forall c, c ∈ cells -> deref_key kh (key_cell_ptr c.1) = Some c.1.2).
  { intros c Hc. apply deref_key_store; [done|]. by apply rep_key_cell with cells m. }
  assert (Hwf : wf (content_at kh) hash_opt (raw s)).
  { apply wf_transfer with (kheap s); [|apply (rep_wf _ _ _ Hr)].
    intros e He. rewrite (rep_entries _ _ _ Hr) in He. apply list_elem_of_fmap in He as (c & -> & Hc).
    simpl. by rewrite Hcells, (rep_key_cell s cells m c Hr Hc). }
  assert (Hkey : content_at kh (key_cell_ptr (lk, k)) = Some (content k)).
  { unfold content_at, kh. by rewrite deref_key_stored. }
  destruct (insert_new_spec (content_at kh) hash_opt (raw s) (key_cell_ptr (lk, k)) (value_cell_ptr (lv, v)) Hwf Hf)
    as (d' & E3 & He & Hwf').
  { rewrite Hkey, (rep_entries _ _ _ Hr). by rewrite position_cells. }
  rewrite Hkey in E3, He. cbn [hash_opt] in E3, He. rewrite <- hash_key_content in E3, He.
  eexists _, lk, lv. split.
  { unfold on_raw. simpl. rewrite E3. reflexivity. }
  split; simpl.
  - by rewrite He, (rep_entries _ _ _ Hr), map_app.
  - rewrite map_app. apply in_heap_add; [apply (rep_kheap _ _ _ Hr)|done].
  - rewrite map_app. apply in_heap_add; [apply (rep_vheap _ _ _ Hr)|done].
  - rewrite (rep_refs _ _ _ Hr), map_app, sum_refs_app. unfold pair_refs at 3. simpl. multiset_solver.
  - done.
Qed.

Lemma setitem_present s cells m k v i : represents s cells m -> roomy s ->
  alist_index k (map pair_of cells) = Some i ->
  exists s' c lv, setitem k v s = (Ok tt, s') /\ cells !! i = Some c /\
    represents s' (<[i:=(c.1, (lv, v))]> cells) m.
Proof.
  intros Hr Hf Hi. unfold setitem.
  rewrite (bind_ok _ _ _ _ _ (find_key_spec s cells m k Hr Hf)), Hi.
  destruct (alist_index_lookup k cells i Hi) as ([ck [lold vold]] & Hc & _).
  destruct (store_value_spec v s) as (lv & E1 & Hlv). rewrite (bind_ok _ _ _ _ _ E1). clear E1.
  pose proof (lookup_lt_Some _ _ _ Hc) as Hlt.
  assert (He : entries (raw s) !! i = Some (entry_of (ck, (lold, vold)))).
  { rewrite (rep_entries _ _ _ Hr), list_lookup_fmap, Hc. done. }
  destruct (overwrite_value_at_spec (content_at (kheap s)) hash_opt (raw s) i _ (value_cell_ptr (lv, v))
    (rep_wf _ _ _ Hr) He) as [E2 Hwf]. simpl in E2, Hwf.
  pose proof (sum_refs_around cells i _ Hc) as Hsum. unfold pair_refs at 2 in Hsum. simpl in Hsum.
  assert (Hold : deref_value (vheap s) (value_cell_ptr (lold, vold)) = Some vold).
  { apply (rep_value_cell s cells m (ck, (lold, vold)) Hr). by eapply list_elem_of_lookup_2. }
  rewrite (bind_ok _ _ _ _ _ (on_raw_ok _ (set_vheap _ (set_refs _ s)) _ _ E2)). rewrite release_value_spec; simpl.
  2:{ apply (deref_value_store _ (lold, vold)); done. }
  2:{ rewrite (rep_refs _ _ _ Hr), Hsum. multiset_solver. }
  eexists _, (ck, (lold, vold)), lv. split; [reflexivity|]. split; [done|]. split; simpl.
  - rewrite (rep_entries _ _ _ Hr), list_fmap_insert. done.
  - rewrite (rep_kheap _ _ _ Hr). apply in_heap_perm. rewrite cells_update by done. simpl.
    by apply (cells_around fst cells i (ck, (lold, vold))).
  - apply in_heap_remove with vold. rewrite (in_heap_add _ _ _ _ _ (rep_vheap _ _ _ Hr) Hlv).
    apply in_heap_perm. rewrite (cells_around snd cells i _ Hc), cells_update by done. simpl.
    apply perm_skip. symmetry. apply Permutation_cons_append.
  - rewrite (rep_refs _ _ _ Hr), Hsum, (sum_refs_perm _ _ _ (cells_update pair_of cells i _ Hlt)).
    simpl. unfold pair_refs at 2. simpl. multiset_solver.
  - done.
Qed.

Lemma dict_setitem_spec s l m k v : is_dict s l m -> roomy s ->
  exists s', setitem k v s = (Ok tt, s') /\ is_dict s' (alist_set k v l) m.
Proof.
  intros (cells & Hr & ->) Hf. unfold alist_set.
  destruct (alist_index k (map pair_of cells)) as [i|] eqn:Ei.
  - destruct (setitem_present s cells m k v i Hr Hf Ei) as (s' & c & lv & E0 & Hc & Hr').
    exists s'. split; [done|]. eexists. split; [exact Hr'|]. rewrite list_fmap_insert.
    apply list_eq. intros j. destruct (decide (j = i)) as [->|Hne].
    + rewrite list_lookup_alter_eq, list_lookup_fmap, Hc. simpl.
      rewrite list_lookup_insert_eq; [done|]. rewrite length_map. by eapply lookup_lt_Some.
    + by rewrite list_lookup_alter_ne, list_lookup_insert_ne by done.
  - destruct (setitem_new s cells m k v Hr Hf Ei) as (s' & lk & lv & E0 & Hr').
    exists s'. split; [done|]. eexists. split; [exact Hr'|]. by rewrite map_app.
Qed.

(** The cells but the one at [i] after its key and value are released. *)
Lemma released_represents s cells m i c d' : represents s cells m -> cells !! i = Some c ->
  entries d' = map entry_of (take i cells ++ drop (S i) cells) -> wf (content_at (kheap s)) hash_opt d' ->
  represents (mkDict d' (heap_free (is_rc K) c.1.1 (kheap s)) (heap_free (is_rc V) c.2.1 (vheap s))
      ((refs s ∖ refs_of c.1.2) ∖ refs_of c.2.2))
    (take i cells ++ drop (S i) cells) m.
Proof.
  intros Hr Hc He Hwf. set (cells' := take i cells ++ drop (S i) cells) in *. destruct c as [[lk k] [lv v]].
  assert (Hk : map_to_list (heap_free (is_rc K) lk (kheap s)) ≡ₚ in_heap (is_rc K) (map fst cells')).
  { apply in_heap_remove with k. rewrite (rep_kheap _ _ _ Hr). apply in_heap_perm.
    by apply (cells_around fst cells i ((lk, k), (lv, v))). }
  split; simpl; [done|done| | |].
  - apply in_heap_remove with v. rewrite (rep_vheap _ _ _ Hr). apply in_heap_perm.
    by apply (cells_around snd cells i ((lk, k), (lv, v))).
  - rewrite (rep_refs _ _ _ Hr), (sum_refs_around cells i _ Hc). unfold pair_refs at 1. simpl. fold cells'. multiset_solver.
  - apply wf_transfer with (kheap s); [|done]. rewrite He. intros e (c & -> & Hcin)%list_elem_of_fmap. simpl.
    transitivity (Some c.1.2).
    + unfold deref_key, key_cell_ptr. destruct (is_rc K) eqn:Erc; [done|].
      apply (in_heap_lookup _ _ _ _ _ Hk eq_refl). destruct c as [[lk' k'] cv].
      by apply (list_elem_of_fmap_2 fst _ ((lk', k'), cv)).
    + symmetry. apply (rep_key_cell s cells m c Hr). rewrite <- (take_drop_middle cells i _ Hc).
      apply elem_of_app in Hcin as [?|?]; apply elem_of_app; [by left|right; by right].
Qed.

Lemma delitem_spec s l m k : is_dict s l m -> roomy s ->
  exists s', delitem k s = (Ok (match alist_index k l with
                                | Some _ => Ok tt | None => Err mkKeyError end), s') /\
    is_dict s' (alist_del k l) m.
Proof.
  intros (cells & Hr & ->) Hf. unfold delitem, alist_del. rewrite bind_get.
  pose proof (remove_entry_spec (content_at (kheap s)) hash_opt (key_eq (kheap s)) (raw s) (borrow_key k)
    (rep_decides s cells m k Hr) (rep_wf _ _ _ Hr) Hf) as Hrem.
  rewrite <- hash_borrow, content_borrow in Hrem. rewrite (rep_position s cells m k Hr) in Hrem.
  destruct (alist_index k (map pair_of cells)) as [i|] eqn:Ei.
  2:{ exists s. rewrite (bind_ok _ _ _ _ _ (on_raw_ok _ _ _ _ Hrem)), set_raw_id. split; [done|].
      by exists cells. }
  destruct Hrem as (e & d' & E1 & He & Hes & Hwf).
  destruct (alist_index_lookup k cells i Ei) as (c & Hc & _).
  rewrite (rep_entries _ _ _ Hr), list_lookup_fmap, Hc in He. injection He as <-.
  rewrite (rep_entries _ _ _ Hr) in Hes.
  rewrite (bind_ok _ _ _ _ _ (on_raw_ok _ _ _ _ E1)). cbn [key_ptr value_ptr entry_of].
  pose proof (list_elem_of_lookup_2 _ _ _ Hc) as Hin.
  pose proof (sum_refs_around cells i _ Hc) as Hsum. unfold pair_refs at 2 in Hsum. simpl in Hsum.
  rewrite (bind_ok _ _ _ _ _ (release_key_spec (set_raw d' s) c.1 (rep_key_cell s cells m c Hr Hin)
    ltac:(simpl; rewrite (rep_refs _ _ _ Hr), Hsum; multiset_solver))).
  set (s1 := set_kheap _ _).
  rewrite (bind_ok _ _ _ _ _ (release_value_spec s1 c.2 (rep_value_cell s cells m c Hr Hin)
    ltac:(simpl; rewrite (rep_refs _ _ _ Hr), Hsum; multiset_solver))).
  eexists. split; [reflexivity|]. exists (take i cells ++ drop (S i) cells). split.
  - apply (released_represents s cells m i c d' Hr Hc); [|done].
    rewrite Hes, firstn_map, skipn_map. symmetry. apply map_app.
  - by rewrite map_app, firstn_map, skipn_map.
Qed.

(** *** Reads *)

Lemma rep_length s cells m : represents s cells m -> dict_len (raw s) = length cells.
Proof. intros Hr. unfold dict_len. by rewrite (rep_entries _ _ _ Hr), length_map. Qed.

(** The state after a read that hands out the references of its result. *)
Definition handing {E A} (f : A -> gmultiset nat) (r : result E A) (s : Dict) : Dict :=
  match r with Ok a => set_refs (f a ⊎ refs s) s | Err _ => s end.

Lemma dict_getitem_spec s cells m k : represents s cells m -> roomy s ->
  let r := match alist_get k (map pair_of cells) with Some v => Ok v | None => Err mkKeyError end in
  getitem k s = (Ok r, handing refs_of r s).
Proof.
  intros Hr Hf. unfold getitem. rewrite (bind_ok _ _ _ _ _ (find_key_spec s cells m k Hr Hf)).
  unfold alist_get. destruct (alist_index k _) as [i|] eqn:Ei; [|done]. simpl.
  destruct (alist_index_lookup k cells i Ei) as (c & Hc & _).
  rewrite (bind_ok _ _ _ _ _ (value_ptr_spec s cells m i c Hr Hc)).
  rewrite (bind_ok _ _ _ _ _ (owned_value_spec s cells m c Hr ltac:(by eapply list_elem_of_lookup_2))).
  by rewrite list_lookup_fmap, Hc.
Qed.

Lemma at_spec {A} s cells m (f : cell -> A) (refs_a : A -> gmultiset nat) (get_ : nat -> DD A) i :
  represents s cells m ->
  (forall c, cells !! i = Some c -> get_ i s = (Ok (f c), set_refs (refs_a (f c) ⊎ refs s) s)) ->
  let r := match cells !! i with Some c => Ok (f c) | None => Err mkIndexError end in
  (if dict_len (raw s) <=? i then ret (Err mkIndexError) else let* a := get_ i in ret (Ok a)) s =
    (Ok r, handing refs_a r s).
Proof.
  intros Hr Hget. rewrite (rep_length _ _ _ Hr). destruct (length cells <=? i) eqn:E0.
  - apply Nat.leb_le in E0. by rewrite lookup_ge_None_2.
  - apply Nat.leb_gt in E0. destruct (lookup_lt_is_Some_2 cells i E0) as [c Hc].
    by rewrite (bind_ok _ _ _ _ _ (Hget c Hc)), Hc.
Qed.

Lemma key_at_spec s cells m i : represents s cells m ->
  let r := match cells !! i with Some c => Ok c.1.2 | None => Err mkIndexError end in
  key_at i s = (Ok r, handing refs_of r s).
Proof.
  intros Hr. unfold key_at. rewrite bind_get.
  pose proof (at_spec s cells m (fun c => c.1.2) refs_of (fun i => let* p := on_raw (key_ptr_at i) in owned_key p) i Hr)
    as Hat.
  simpl in *. rewrite <- Hat.
  - destruct (_ <=? i); [done|]. by rewrite bind_bind.
  - intros c Hc. rewrite (bind_ok _ _ _ _ _ (key_ptr_spec s cells m i c Hr Hc)).
    apply owned_key_spec with cells m; [done|by eapply list_elem_of_lookup_2].
Qed.

Lemma value_at_spec s cells m i : represents s cells m ->
  let r := match cells !! i with Some c => Ok c.2.2 | None => Err mkIndexError end in
  value_at i s = (Ok r, handing refs_of r s).
Proof.
  intros Hr. unfold value_at. rewrite bind_get.
  pose proof (at_spec s cells m (fun c => c.2.2) refs_of
    (fun i => let* p := on_raw (value_ptr_at i) in owned_value p) i Hr) as Hat.
  simpl in *. rewrite <- Hat.
  - destruct (_ <=? i); [done|]. by rewrite bind_bind.
  - intros c Hc. rewrite (bind_ok _ _ _ _ _ (value_ptr_spec s cells m i c Hr Hc)).
    apply owned_value_spec with cells m; [done|by eapply list_elem_of_lookup_2].
Qed.

(** *** Sequences of operations *)

Lemma is_dict_hand s l m r : is_dict s l m -> is_dict (set_refs (r ⊎ refs s) s) l (r ⊎ m).
Proof. intros (cells & Hr & ->). exists cells. split; [by apply rep_hand|done]. Qed.

Lemma is_dict_none s l m : is_dict s l m -> is_dict s l (∅ ⊎ m).
Proof. intros Hd. by replace (∅ ⊎ m) with m by multiset_solver. Qed.

Lemma run_dict_op_spec o s l m : is_dict s l m -> roomy s ->
  exists s', run_dict_op o s = (Ok (spec_dict_op o l).1, s') /\
    is_dict s' (spec_dict_op o l).2 (out_refs (spec_dict_op o l).1 ⊎ m).
Proof.
  intros Hd Hf. pose proof Hd as (cells & Hr & Hl). destruct o as [k|k|k v|k|i|i]; simpl.
  - rewrite (bind_ok _ _ _ _ _ (dict_getitem_spec s cells m k Hr Hf)), <- Hl.
    destruct (alist_get k l);
      (eexists; split; [reflexivity|simpl]); [by apply is_dict_hand|by apply is_dict_none].
  - exists s. unfold contains. rewrite bind_bind, (bind_ok _ _ _ _ _ (find_key_spec s cells m k Hr Hf)), <- Hl.
    split; [|by apply is_dict_none]. simpl. by destruct (alist_index k l).
  - destruct (dict_setitem_spec s l m k v Hd Hf) as (s' & E0 & Hd'). exists s'.
    rewrite (bind_ok _ _ _ _ _ E0). split; [done|by apply is_dict_none].
  - destruct (delitem_spec s l m k Hd Hf) as (s' & E0 & Hd'). exists s'.
    rewrite (bind_ok _ _ _ _ _ E0). destruct (alist_index k l); split; try done; by apply is_dict_none.
  - rewrite (bind_ok _ _ _ _ _ (key_at_spec s cells m i Hr)), Hl, list_lookup_fmap, <- Hl.
    destruct (cells !! i); (eexists; split; [reflexivity|simpl]); [by apply is_dict_hand|by apply is_dict_none].
  - rewrite (bind_ok _ _ _ _ _ (value_at_spec s cells m i Hr)), Hl, list_lookup_fmap, <- Hl.
    destruct (cells !! i); (eexists; split; [reflexivity|simpl]); [by apply is_dict_hand|by apply is_dict_none].
Qed.

Lemma spec_dict_op_length o l : length (spec_dict_op o l).2 <= length l + 1.
Proof.
  destruct o as [k|k|k v|k|i|i]; simpl; try lia.
  - unfold alist_set. destruct (alist_index k l); rewrite ?length_alter, ?length_app; simpl; lia.
  - unfold alist_del. destruct (alist_index k l); [|lia]. rewrite length_app, length_take, length_drop. lia.
Qed.

Lemma run_dict_ops_from ops : forall s l outs, is_dict s l (sum_refs out_refs outs) ->
  (Z.of_nat (2 * (length l + length ops)) <= usize_max)%Z ->
  let '(outs', l') := fold_left spec_dict_step ops (outs, l) in
  exists s', mfold (fun outs o => let* r := run_dict_op o in ret (outs ++ [r])) ops outs s = (Ok outs', s') /\
    is_dict s' l' (sum_refs out_refs outs').
Proof.
  induction ops as [|o ops IH]; intros s l outs Hd Hbig; simpl; [by exists s|]. simpl in Hbig.
  assert (Hf : roomy s).
  { destruct Hd as (cells & Hr & ->). unfold roomy, fits. rewrite (rep_length _ _ _ Hr).
    rewrite length_map in Hbig. lia. }
  destruct (run_dict_op_spec o s l _ Hd Hf) as (s1 & E0 & Hd1).
  pose proof (spec_dict_op_length o l) as Hlen.
  replace (spec_dict_step (outs, l) o) with (outs ++ [(spec_dict_op o l).1], (spec_dict_op o l).2)
    by (unfold spec_dict_step; simpl; by destruct (spec_dict_op o l)).
  rewrite bind_bind, (bind_ok _ _ _ _ _ E0), bind_ret.
  destruct (spec_dict_op o l) as [r l']. simpl in *. apply IH; [|lia].
  rewrite sum_refs_app. simpl.
  by replace (sum_refs out_refs outs ⊎ (out_refs r ⊎ ∅)) with (out_refs r ⊎ sum_refs out_refs outs)
    by multiset_solver.
Qed.

Lemma new_is_dict : is_dict new_dict [] ∅.
Proof.
  exists []. split; [|done]. split; simpl; [done|by destruct (is_rc K)|by destruct (is_rc V)|done|apply wf_empty].
Qed.

(** C28: for a key type whose [==] compares some content that also determines the
    hash ([KeyLaws]: not floats, padded structs or unions with a counted leaf), a
    dictionary behaves as a list of pairs in insertion order, whether keys and
    values are bare pointers or copied to the heap: any
    sequence of lookups, membership tests, assignments, deletions and
    positional reads, as long as the number of operations can be doubled in a
    [usize] and memory lasts, returns what it returns there (an assignment to
    a key that is present keeps the old key), without a panic, a dangling
    access, a double free or a release of a reference that is not held, and ends
    with exactly the cells of the pairs allocated and one reference
    taken for each that a pair holds or an output has handed out. *)
Theorem dict_refines ops : (Z.of_nat (2 * length ops) <= usize_max)%Z ->
  let '(outs, l) := spec_dict_ops ops [] in
  exists s, run_dict_ops ops new_dict = (Ok outs, s) /\ is_dict s l (sum_refs out_refs outs).
Proof. intros Hbig. apply (run_dict_ops_from ops new_dict [] []); [apply new_is_dict|done]. Qed.

(** *** Destruction *)

Lemma del_from todo : forall done s m,
  entries (raw s) = map entry_of (done ++ todo) ->
  map_to_list (kheap s) ≡ₚ in_heap (is_rc K) (map fst todo) ->
  map_to_list (vheap s) ≡ₚ in_heap (is_rc V) (map snd todo) ->
  refs s = sum_refs pair_refs (map pair_of todo) ⊎ m ->
  exists s', mfold del_entry (seq (length done) (length todo)) tt s = (Ok tt, s') /\
    kheap s' = ∅ /\ vheap s' = ∅ /\ refs s' = m.
Proof.
  induction todo as [|[[lk k] [lv v]] todo IH]; intros done_ s m He Hk Hv Hm; simpl.
  { exists s. split; [done|]. split_and!; [apply map_to_list_empty_iff|apply map_to_list_empty_iff|].
    - apply Permutation_nil_r. rewrite Hk. by destruct (is_rc K).
    - apply Permutation_nil_r. rewrite Hv. by destruct (is_rc V).
    - rewrite Hm. simpl. multiset_solver. }
  simpl in Hk, Hv, Hm. unfold pair_refs at 1 in Hm. simpl in Hm.
  assert (Hat : forall t, raw t = raw s -> entry_at (length done_) (raw t) = (Ok (entry_of ((lk, k), (lv, v))), raw t)).
  { intros t ->. unfold entry_at, list_getitem.
    rewrite bind_get, He, list_lookup_fmap, list_lookup_middle by done. done. }
  set (s1 := set_kheap (heap_free (is_rc K) lk (kheap s)) (set_refs (refs s ∖ refs_of k) s)).
  set (s2 := set_vheap (heap_free (is_rc V) lv (vheap s1)) (set_refs (refs s1 ∖ refs_of v) s1)).
  assert (E0 : del_entry tt (length done_) s = (Ok tt, s2)).
  { unfold del_entry, key_ptr_at, value_ptr_at.
    rewrite (bind_ok _ _ s (key_cell_ptr (lk, k)) s)
      by (unfold on_raw; rewrite (bind_ok _ _ _ _ _ (Hat s eq_refl)); unfold ret; by rewrite set_raw_id).
    rewrite (bind_ok _ _ s tt s1).
    2:{ apply (release_key_spec s (lk, k)); [|simpl; rewrite Hm; multiset_solver].
        unfold deref_key, key_cell_ptr. destruct (is_rc K) eqn:Erc; [done|].
        apply (in_heap_lookup _ _ _ _ _ Hk eq_refl). left. }
    rewrite (bind_ok _ _ s1 (value_cell_ptr (lv, v)) s1)
      by (unfold on_raw; rewrite (bind_ok _ _ _ _ _ (Hat s1 eq_refl)); unfold ret; by rewrite set_raw_id).
    apply (release_value_spec s1 (lv, v)); [|simpl; rewrite Hm; multiset_solver].
    unfold deref_value, value_cell_ptr. destruct (is_rc V) eqn:Erc; [done|].
    apply (in_heap_lookup _ _ _ _ _ Hv eq_refl). left. }
  rewrite (bind_ok _ _ _ _ _ E0).
  specialize (IH (done_ ++ [((lk, k), (lv, v))]) s2 m). rewrite length_app, Nat.add_1_r in IH.
  apply IH; simpl; [by rewrite <- app_assoc|by apply in_heap_remove with k|by apply in_heap_remove with v|].
  rewrite Hm. multiset_solver.
Qed.

(** Destroying a dictionary frees every cell and releases every reference it
    owns, each exactly once: what is left is what was handed out. *)
Theorem del_releases_all s l m : is_dict s l m ->
  exists s', del s = (Ok tt, s') /\ kheap s' = ∅ /\ vheap s' = ∅ /\ refs s' = m.
Proof.
  intros (cells & Hr & ->). unfold del. rewrite bind_get, (rep_length _ _ _ Hr).
  apply (del_from cells []);
    [apply (rep_entries _ _ _ Hr)|apply (rep_kheap _ _ _ Hr)|apply (rep_vheap _ _ _ Hr)|apply (rep_refs _ _ _ Hr)].
Qed.

End proofs.
End unsafe_dict.

(** ** Samples *)

(** Strings as keys (counted, so their handles are stored: an object with its
    bytes, compared by bytes), and a value that is copied though it holds a
    reference. *)
Record StrKey := mkStrKey { str_object : nat; str_bytes : list Z }.

Definition bytes_eqb (a b : list Z) : bool := bool_decide (a = b).

#[local] Instance str_stored : StoredType StrKey := {
  is_rc := true;
  refs_of k := {[+ str_object k +]};
}.

#[local] Instance str_key : KeyOps StrKey := {
  key_eqb a b := bytes_eqb (str_bytes a) (str_bytes b);
  key_hash k := _fnv1a_hash (str_bytes k);
  key_bytes _ := [];
}.

#[local] Instance boxed_stored : StoredType (option nat) := {
  is_rc := false;
  refs_of v := match v with Some o => {[+ o +]} | None => ∅ end;
}.

#[local] Instance str_laws : KeyLaws (list Z) := {
  content := str_bytes;
  content_hash := _fnv1a_hash;
  key_eqb_content a b := eq_refl;
  hash_key_content k := eq_refl;
}.

Definition sample_dict_ops : list (@DictOp StrKey (option nat)) :=
  [DSet (mkStrKey 1 [97]%Z) (Some 10); DSet (mkStrKey 2 [98]%Z) None; DSet (mkStrKey 3 [97]%Z) (Some 11);
   DGet (mkStrKey 4 [97]%Z); DDel (mkStrKey 5 [98]%Z); DContains (mkStrKey 6 [98]%Z); DKeyAt 0; DKeyAt 1].

Lemma sample_bound : (Z.of_nat (2 * length sample_dict_ops) <= usize_max)%Z.
Proof. vm_compute. discriminate. Qed.

Lemma sample_dict_spec : spec_dict_ops sample_dict_ops [] =
  ([OutNone; OutNone; OutNone; OutValue (Some 11); OutNone; OutBool false; OutKey (mkStrKey 1 [97]%Z); OutIndexError],
   [(mkStrKey 1 [97]%Z, Some 11)]).
Proof. vm_compute. reflexivity. Qed.

Lemma dict_refines_witness : exists s,
  run_dict_ops sample_dict_ops new_dict =
    (Ok [OutNone; OutNone; OutNone; OutValue (Some 11); OutNone; OutBool false; OutKey (mkStrKey 1 [97]%Z);
         OutIndexError], s) /\
  is_dict s [(mkStrKey 1 [97]%Z, Some 11)] (sum_refs out_refs [OutValue (Some 11); OutKey (mkStrKey 1 [97]%Z)]).
Proof.
  pose proof (dict_refines sample_dict_ops sample_bound) as Hr.
  rewrite sample_dict_spec in Hr. destruct Hr as (s & Hrun & Hd). exists s. split; [exact Hrun|].
  exact Hd.
Defined.

Lemma del_releases_all_witness :
  exists s', del (@new_dict StrKey (option nat)) = (Ok tt, s') /\ kheap s' = ∅ /\ vheap s' = ∅ /\ refs s' = ∅.
Proof. exact (del_releases_all new_dict [] ∅ new_is_dict). Defined.

(** [f64] keys 0.0 and -0.0, by their storage (little-endian): they compare equal, and make two entries,
    as [_hash_key] hashes the bytes. *)
Record FloatKey := mkFloatKey { float_bytes : list Z }.

Definition plus_zero : FloatKey := mkFloatKey [0; 0; 0; 0; 0; 0; 0; 0]%Z.
Definition minus_zero : FloatKey := mkFloatKey [0; 0; 0; 0; 0; 0; 0; 128]%Z.

Definition is_zero_key (k : FloatKey) : bool :=
  bytes_eqb (float_bytes k) (float_bytes plus_zero) || bytes_eqb (float_bytes k) (float_bytes minus_zero).

#[local] Instance float_stored : StoredType FloatKey := { is_rc := false; refs_of _ := ∅ }.

#[local] Instance float_key : KeyOps FloatKey := {
  key_eqb a b := bytes_eqb (float_bytes a) (float_bytes b) || (is_zero_key a && is_zero_key b);
  key_hash _ := 0%Z;
  key_bytes := float_bytes;
}.

Example equal_keys_two_entries : key_eqb plus_zero minus_zero = true /\
  fst (run_dict_ops [DSet plus_zero (Some 1); DSet minus_zero (Some 2); DGet plus_zero; DKeyAt 1] new_dict) =
    Ok [OutNone; OutNone; OutValue (Some 1); OutKey minus_zero].
Proof. vm_compute. split; reflexivity. Qed.
