(* ===== verification/CInt.v ===== *)
(** * Integers of the generated C

    The integer types the generated code uses, with C11's promotions, usual
    arithmetic conversions and undefined behaviour, for the expressions and
    statements [emitter_c.py] emits for integer arithmetic.  An evaluation that
    is undefined in C is [None].  Conversions to a signed type keep the low
    bits and [>>] of a negative value is arithmetic, as every C compiler the
    program targets does. *)

From S2P Require Import Prelude.

Local Open Scope Z_scope.

(** ** Types *)

Inductive Width := W8 | W16 | W32 | W64 | W128.

Definition bits (w : Width) : Z :=
  match w with W8 => 8 | W16 => 16 | W32 => 32 | W64 => 64 | W128 => 128 end.

Record CTy := mkCTy { signed : bool; width : Width }.

#[export] Instance Width_eq_dec : EqDecision Width.
Proof. solve_decision. Defined.
#[export] Instance CTy_eq_dec : EqDecision CTy.
Proof. solve_decision. Defined.

Definition modulus (t : CTy) : Z := 2 ^ bits (width t).
Definition tmin (t : CTy) : Z := if signed t then - 2 ^ (bits (width t) - 1) else 0.
Definition tmax (t : CTy) : Z := if signed t then 2 ^ (bits (width t) - 1) - 1 else 2 ^ bits (width t) - 1.

Definition in_range (t : CTy) (z : Z) : bool := (tmin t <=? z) && (z <=? tmax t).
Definition wrap (t : CTy) (z : Z) : Z := (z - tmin t) mod modulus t + tmin t.
Definition clamp (t : CTy) (z : Z) : Z := Z.max (tmin t) (Z.min (tmax t) z).

Definition int : CTy := mkCTy true W32.

Definition rank_le (a b : Width) : bool := bits a <=? bits b.

(** Integer promotion, and the common type of two operands. *)
Definition promote (t : CTy) : CTy := if bits (width t) <? 32 then int else t.

Definition common (t1 t2 : CTy) : CTy :=
  let a := promote t1 in
  let b := promote t2 in
  if bits (width a) =? bits (width b) then mkCTy (signed a && signed b) (width a)
  else if bits (width a) <? bits (width b) then b else a.

(** ** Expressions *)

(** The operands of an instruction, and the locals its code declares. *)
Inductive CVar := VL | VR | VTmp | VOverflow | VWide.

Inductive COp := CAdd | CSub | CMul | CDiv | CMod | CShl | CShr | CBitAnd | CBitOr | CBitXor.
Inductive CCmp := CEq | CNe | CLt | CGt | CGe.

Inductive CExpr :=
| EVar (v : CVar)
| EConst (t : CTy) (z : Z)
| ECast (t : CTy) (e : CExpr)
| EBin (op : COp) (e1 e2 : CExpr)
| ENot (e : CExpr)                (* [~e] *)
| ECmp (op : CCmp) (e1 e2 : CExpr)
| EAnd (e1 e2 : CExpr)
| EOr (e1 e2 : CExpr)
| ECond (c e1 e2 : CExpr).

Definition Env := CVar -> CTy * Z.

Definition set (v : CVar) (t : CTy) (z : Z) (env : Env) : Env := fun x =>
  match v, x with
  | VL, VL | VR, VR | VTmp, VTmp | VOverflow, VOverflow | VWide, VWide => (t, z)
  | _, _ => env x
  end.

Fixpoint typ (env : Env) (e : CExpr) : CTy :=
  match e with
  | EVar v => fst (env v)
  | EConst t _ => t
  | ECast t _ => t
  | EBin (CShl | CShr) e1 _ => promote (typ env e1)
  | EBin _ e1 e2 => common (typ env e1) (typ env e2)
  | ENot e => promote (typ env e)
  | ECmp _ _ _ | EAnd _ _ | EOr _ _ => int
  | ECond _ e1 e2 => common (typ env e1) (typ env e2)
  end.

(** Overflow of a signed operation is undefined. *)
Definition fits (t : CTy) (z : Z) : option Z :=
  if signed t then (if in_range t z then Some z else None) else Some (wrap t z).

Definition arith (op : COp) (t : CTy) (a b : Z) : option Z :=
  match op with
  | CAdd => fits t (a + b)
  | CSub => fits t (a - b)
  | CMul => fits t (a * b)
  | CDiv => if b =? 0 then None else fits t (Z.quot a b)
  | CMod => if b =? 0 then None else if in_range t (Z.quot a b) then Some (Z.rem a b) else None
  | CShl =>
      if (0 <=? b) && (b <? bits (width t)) then
        if signed t then
          if (0 <=? a) && in_range t (a * 2 ^ b) then Some (a * 2 ^ b) else None
        else Some (wrap t (a * 2 ^ b))
      else None
  | CShr => if (0 <=? b) && (b <? bits (width t)) then Some (Z.shiftr a b) else None
  | CBitAnd => Some (Z.land a b)
  | CBitOr => Some (Z.lor a b)
  | CBitXor => Some (Z.lxor a b)
  end.

Definition compare (op : CCmp) (a b : Z) : Z :=
  Z.b2z match op with
  | CEq => a =? b
  | CNe => negb (a =? b)
  | CLt => a <? b
  | CGt => b <? a
  | CGe => b <=? a
  end.

Fixpoint eval (env : Env) (e : CExpr) : option Z :=
  match e with
  | EVar v => Some (snd (env v))
  | EConst _ z => Some z
  | ECast t e => wrap t <$> eval env e
  | EBin op e1 e2 =>
      a ← eval env e1; b ← eval env e2;
      match op with
      | CShl | CShr => arith op (promote (typ env e1)) a b
      | _ => let t := common (typ env e1) (typ env e2) in arith op t (wrap t a) (wrap t b)
      end
  | ENot e => a ← eval env e; Some (wrap (promote (typ env e)) (- a - 1))
  | ECmp op e1 e2 =>
      let t := common (typ env e1) (typ env e2) in
      a ← eval env e1; b ← eval env e2; Some (compare op (wrap t a) (wrap t b))
  | EAnd e1 e2 =>
      a ← eval env e1; if a =? 0 then Some 0 else b ← eval env e2; Some (Z.b2z (negb (b =? 0)))
  | EOr e1 e2 =>
      a ← eval env e1; if a =? 0 then (b ← eval env e2; Some (Z.b2z (negb (b =? 0)))) else Some 1
  | ECond c e1 e2 =>
      let t := common (typ env e1) (typ env e2) in
      k ← eval env c; wrap t <$> (if k =? 0 then eval env e2 else eval env e1)
  end.

(** ** Statements *)

Inductive ArithKind := add | sub | mul.

Definition exact (k : ArithKind) (a b : Z) : Z :=
  match k with add => a + b | sub => a - b | mul => a * b end.

Inductive ArithError := OverflowError | ZeroDivisionError.

(** What an instruction's code leaves in its destination: a plain value, or a
    [Result]. *)
Inductive Outcome :=
| Plain (z : Z)
| OkValue (z : Z)
| ErrValue (e : ArithError).

Inductive CStmt :=
| SAssign (t : CTy) (e : CExpr)                                   (* dest = e; *)
| SOk (t : CTy) (e : CExpr)                                       (* dest.tag = 0; dest.ok = e; *)
| SErr (e : ArithError)                                           (* dest.tag = 1; ... *)
| SIf (c : CExpr) (s1 s2 : CStmt)
| SDeclare (v : CVar) (t : CTy) (e : CExpr) (s : CStmt)           (* t v = e; s *)
| SOverflow (k : ArithKind) (t : CTy) (l r : CExpr) (s : CStmt).  (* t __tmp; bool __overflow = __metalpy_k_overflow( l, r, &__tmp ); s *)

(** ** Overflow detection

    [__metalpy_add_overflow] and its siblings, for a destination of type [t]:
    the built-ins of GCC and clang; for MSVC the prologue defines one function
    per width and signedness.  Signed overflow, undefined in C, wraps as MSVC
    compiles it. *)

(** What GCC and clang document of [__builtin_add_overflow] and its siblings:
    the result is the exact one, wrapped, and the flag says whether it was
    exact. *)
Definition exact_builtin (k : ArithKind) (t : CTy) (a b : Z) : Z * bool :=
  (wrap t (exact k a b), negb (in_range t (exact k a b))).

Definition int64 : CTy := mkCTy true W64.
Definition uint64 : CTy := mkCTy false W64.

(** [a + b], [a - b], [a * b] and [-a] in [int64_t] or [uint64_t]. *)
Definition sadd_overflow64 (a b : Z) : Z * bool :=
  let r := wrap int64 (a + b) in
  (r, ((0 <? a) && (0 <? b) && (r <? 0)) || ((a <? 0) && (b <? 0) && (0 <? r))).

Definition uadd_overflow64 (a b : Z) : Z * bool :=
  let r := wrap uint64 (a + b) in (r, r <? a).

Definition ssub_overflow64 (a b : Z) : Z * bool :=
  let r := wrap int64 (a - b) in
  (r, ((0 <=? a) && (b <? 0) && (r <? 0)) || ((a <? 0) && (0 <=? b) && (0 <? r))).

Definition usub_overflow64 (a b : Z) : Z * bool := (wrap uint64 (a - b), a <? b).

Definition smul_overflow64 (a b : Z) : Z * bool :=
  let r := wrap int64 (a * b) in
  if (a =? 0) || (b =? 0) then (r, false)
  else
    let '(a, b) := if a <? 0 then (wrap int64 (- a), wrap int64 (- b)) else (a, b) in
    (r, Z.quot (tmax int64) (if b <? 0 then wrap int64 (- b) else b) <? a).

Definition umul_overflow64 (a b : Z) : Z * bool :=
  let r := wrap uint64 (a * b) in
  if a =? 0 then (r, false) else (r, negb (r / a =? b)).

(** The 8-, 16- and 32-bit functions compute in 64 bits. *)
Definition signed_overflow_narrow (k : ArithKind) (t : CTy) (a b : Z) : Z * bool :=
  let wide := wrap int64 (exact k a b) in
  (wrap t wide, (wide <? tmin t) || (tmax t <? wide)).

Definition unsigned_overflow_narrow (k : ArithKind) (t : CTy) (a b : Z) : Z * bool :=
  match k with
  | sub => (wrap t (a - b), a <? b)
  | _ => let wide := wrap uint64 (exact k a b) in (wrap t wide, tmax t <? wide)
  end.

(** The [_Generic] selection by the type of the destination. *)
Definition msvc_overflow (k : ArithKind) (t : CTy) (a b : Z) : Z * bool :=
  match width t, signed t, k with
  | (W64 | W128), true, add => sadd_overflow64 a b
  | (W64 | W128), true, sub => ssub_overflow64 a b
  | (W64 | W128), true, mul => smul_overflow64 a b
  | (W64 | W128), false, add => uadd_overflow64 a b
  | (W64 | W128), false, sub => usub_overflow64 a b
  | (W64 | W128), false, mul => umul_overflow64 a b
  | _, true, _ => signed_overflow_narrow k t a b
  | _, false, _ => unsigned_overflow_narrow k t a b
  end.

Inductive Compiler := GccClang | Msvc.

Class Toolchain := compiler : Compiler.

Definition overflow_builtin `{Toolchain} (k : ArithKind) (t : CTy) (a b : Z) : Z * bool :=
  match compiler with
  | GccClang => exact_builtin k t a b
  | Msvc => msvc_overflow k t a b
  end.

Section exec.
Context `{Toolchain}.

Fixpoint exec (env : Env) (s : CStmt) : option Outcome :=
  match s with
  | SAssign t e => Plain <$> (wrap t <$> eval env e)
  | SOk t e => OkValue <$> (wrap t <$> eval env e)
  | SErr e => Some (ErrValue e)
  | SIf c s1 s2 => k ← eval env c; if k =? 0 then exec env s2 else exec env s1
  | SDeclare v t e s => z ← eval env e; exec (set v t (wrap t z) env) s
  | SOverflow k t l r s =>
      a ← eval env l; b ← eval env r;
      let '(z, o) := overflow_builtin k t (wrap t a) (wrap t b) in
      exec (set VOverflow int (Z.b2z o) (set VTmp t z env)) s
  end.

End exec.

(** ** Facts *)

Lemma modulus_pos t : 0 < modulus t.
Proof. unfold modulus. destruct (width t); reflexivity. Qed.

Lemma range_modulus t : tmax t = tmin t + modulus t - 1.
Proof. unfold tmin, tmax, modulus. destruct (signed t), (width t); reflexivity. Qed.

Lemma in_range_spec t z : in_range t z = true <-> tmin t <= z <= tmax t.
Proof. unfold in_range. rewrite andb_true_iff, !Z.leb_le. done. Qed.

Lemma in_range_false t z : in_range t z = false <-> z < tmin t \/ tmax t < z.
Proof. unfold in_range. rewrite andb_false_iff, !Z.leb_gt. done. Qed.

Lemma wrap_range t z : in_range t (wrap t z) = true.
Proof.
  apply in_range_spec. rewrite range_modulus. unfold wrap.
  pose proof (Z.mod_pos_bound (z - tmin t) (modulus t) (modulus_pos t)). lia.
Qed.

Lemma wrap_id t z : in_range t z = true -> wrap t z = z.
Proof.
  rewrite in_range_spec, range_modulus. intros Hz. unfold wrap. rewrite Z.mod_small; lia.
Qed.

Lemma wrap_shift t z : exists k, wrap t z = z + k * modulus t.
Proof.
  exists (- ((z - tmin t) / modulus t)). unfold wrap.
  rewrite (Z.mod_eq (z - tmin t) (modulus t)) by (pose proof (modulus_pos t); lia). lia.
Qed.

(** Values a type's bits cannot tell apart. *)
Lemma wrap_congr t x y : (exists k, x = y + k * modulus t) -> wrap t x = wrap t y.
Proof.
  intros [k ->]. unfold wrap. f_equal.
  replace (y + k * modulus t - tmin t) with (y - tmin t + k * modulus t) by lia.
  apply Z.mod_add. pose proof (modulus_pos t). lia.
Qed.

Lemma wrap_unique t x z : in_range t x = true -> (exists k, x = z + k * modulus t) -> wrap t z = x.
Proof. intros Hx Hk. rewrite <- (wrap_id t x Hx). symmetry. by apply wrap_congr. Qed.

(** Two types of one width share their modulus. *)
Lemma wrap_wrap t u z : width t = width u -> wrap t (wrap u z) = wrap t z.
Proof.
  intros Hw. apply wrap_congr. destruct (wrap_shift u z) as [k ->]. exists k.
  unfold modulus. by rewrite Hw.
Qed.

Lemma wrap_exact t u k a b : width t = width u ->
  wrap t (exact k (wrap u a) (wrap u b)) = wrap t (exact k a b).
Proof.
  intros Hw. apply wrap_congr. unfold modulus. rewrite Hw. fold (modulus u).
  destruct (wrap_shift u a) as [i ->], (wrap_shift u b) as [j ->].
  destruct k; simpl; [exists (i + j)|exists (i - j)|exists (i * b + a * j + i * j * modulus u)]; lia.
Qed.

Lemma wrap_wrap_same t z : wrap t (wrap t z) = wrap t z.
Proof. by apply wrap_wrap. Qed.

(** The conversion to a larger type keeps the value. *)
Definition contains (c t : CTy) : bool := (tmin c <=? tmin t) && (tmax t <=? tmax c).

Lemma contains_range c t z : contains c t = true -> in_range t z = true -> in_range c z = true.
Proof. unfold contains. rewrite andb_true_iff, !Z.leb_le, !in_range_spec. lia. Qed.

Lemma wrap_contains c t z : contains c t = true -> in_range t z = true -> wrap c z = z.
Proof. intros Hc Hz. apply wrap_id. by apply (contains_range c t). Qed.

Lemma contains_refl t : contains t t = true.
Proof. unfold contains. by rewrite !Z.leb_refl. Qed.

Lemma promote_contains t : contains (promote t) t = true.
Proof. by destruct t as [[] []]. Qed.

Lemma common_same t : common t t = promote t.
Proof. by destruct t as [[] []]. Qed.

Lemma promote_promote t : promote (promote t) = promote t.
Proof. by destruct t as [[] []]. Qed.

(** A type at least as wide as [int] is not promoted. *)
Lemma promote_wide t : bits (width t) <? 32 = false -> promote t = t.
Proof. intros Hw. unfold promote. by rewrite Hw. Qed.

Lemma promote_narrow t : bits (width t) <? 32 = true -> promote t = int.
Proof. intros Hw. unfold promote. by rewrite Hw. Qed.

Lemma tmin_nonpos t : tmin t <= 0.
Proof. by destruct t as [[] []]. Qed.

Lemma tmax_pos t : 0 < tmax t.
Proof. by destruct t as [[] []]. Qed.

Lemma in_range_0 t : in_range t 0 = true.
Proof. by destruct t as [[] []]. Qed.

Lemma b2z_int x : in_range int (Z.b2z x) = true.
Proof. by destruct x. Qed.

Lemma clamp_range t z : in_range t (clamp t z) = true.
Proof.
  apply in_range_spec. unfold clamp. pose proof (tmin_nonpos t). pose proof (tmax_pos t). lia.
Qed.

Lemma clamp_id t z : in_range t z = true -> clamp t z = z.
Proof. rewrite in_range_spec. unfold clamp. lia. Qed.

Lemma clamp_high t z : tmax t < z -> clamp t z = tmax t.
Proof. unfold clamp. pose proof (tmin_nonpos t). pose proof (tmax_pos t). lia. Qed.

Lemma clamp_low t z : z < tmin t -> clamp t z = tmin t.
Proof. unfold clamp. pose proof (tmin_nonpos t). pose proof (tmax_pos t). lia. Qed.

(** ** Statements, one step at a time *)

Section exec_facts.
Context `{Toolchain}.

Lemma exec_assign env t e z : eval env e = Some z -> in_range t z = true -> exec env (SAssign t e) = Some (Plain z).
Proof. intros He Hz. simpl. rewrite He. simpl. by rewrite wrap_id. Qed.

Lemma exec_ok env t e z : eval env e = Some z -> in_range t z = true -> exec env (SOk t e) = Some (OkValue z).
Proof. intros He Hz. simpl. rewrite He. simpl. by rewrite wrap_id. Qed.

Lemma exec_if env c k s1 s2 : eval env c = Some k -> exec env (SIf c s1 s2) = exec env (if k =? 0 then s2 else s1).
Proof. intros Hc. simpl. rewrite Hc. simpl. by destruct (k =? 0). Qed.

(** A test that is a C truth value. *)
Lemma exec_test env c (x : bool) s1 s2 : eval env c = Some (Z.b2z x) ->
  exec env (SIf c s1 s2) = exec env (if x then s1 else s2).
Proof. intros Hc. rewrite (exec_if _ _ _ _ _ Hc). by destruct x. Qed.

Lemma exec_declare env v t e z s : eval env e = Some z -> in_range t z = true ->
  exec env (SDeclare v t e s) = exec (set v t z env) s.
Proof. intros He Hz. simpl. rewrite He. simpl. by rewrite wrap_id. Qed.

Lemma exec_overflow env k t l r a b s :
  overflow_builtin k t a b = exact_builtin k t a b ->
  eval env l = Some a -> eval env r = Some b -> in_range t a = true -> in_range t b = true ->
  exec env (SOverflow k t l r s) =
    exec (set VOverflow int (Z.b2z (negb (in_range t (exact k a b)))) (set VTmp t (wrap t (exact k a b)) env)) s.
Proof.
  intros Ho El Er Ha Hb. simpl. rewrite El, Er. simpl. rewrite !(wrap_id t) by done. by rewrite Ho.
Qed.

End exec_facts.

Create HintDb cint discriminated.
Create Rewrite HintDb cint.

#[export] Hint Resolve wrap_range contains_refl promote_contains clamp_range in_range_0 : cint.
#[export] Hint Rewrite wrap_wrap_same common_same promote_promote : cint.
