(* ===== verification/MsvcOverflow.v ===== *)
(** * Overflow detection under MSVC (the prologue of [emitter_c.py])

    How far the functions the prologue defines for MSVC (in [CInt]) agree with
    the built-ins of GCC and clang. *)

From S2P Require Import Prelude CInt.

Local Open Scope Z_scope.

(** The calls of which the functions detect the overflow: under MSVC not those
    of 128 bits, for which it has no type, and not the 64-bit signed ones of
    [msvc_signed64_exact]. *)
Definition detects `{Toolchain} (k : ArithKind) (t : CTy) (a b : Z) : Prop :=
  match compiler with
  | GccClang => True
  | Msvc =>
      width t <> W128 /\
      (signed t = true -> width t = W64 ->
       match k with
       | add => ~ (a = tmin int64 /\ b = tmin int64)
       | sub => True
       | mul => if a =? tmin int64 then b = 0 \/ b = 1 else a * b <> tmin int64
       end)
  end.

(** ** Correctness *)

(** The flag of a comparison with the bounds. *)
Lemma out_of_range t z : negb (in_range t z) = (z <? tmin t) || (tmax t <? z).
Proof. unfold in_range. by rewrite negb_andb, <- !Z.ltb_antisym. Qed.

Lemma unsigned_out_of_range t z : signed t = false -> 0 <= z -> negb (in_range t z) = (tmax t <? z).
Proof.
  intros Hs Hz. rewrite out_of_range. unfold tmin. rewrite Hs. destruct (Z.ltb_spec z 0); [lia|done].
Qed.

Definition narrow_type (t : CTy) : Prop := bits (width t) <= 32.

Lemma narrow_signed k t a b : narrow_type t -> signed t = true -> in_range t a = true -> in_range t b = true ->
  signed_overflow_narrow k t a b = exact_builtin k t a b.
Proof.
  intros Hn Hs Ha Hb. unfold signed_overflow_narrow, exact_builtin.
  rewrite (wrap_id int64); [by rewrite out_of_range|].
  apply in_range_spec in Ha, Hb. apply in_range_spec. unfold narrow_type, tmin, tmax in *. rewrite Hs in *.
  destruct (width t); simpl in *; try lia; destruct k; simpl; nia.
Qed.

Lemma narrow_unsigned k t a b : narrow_type t -> signed t = false -> in_range t a = true -> in_range t b = true ->
  unsigned_overflow_narrow k t a b = exact_builtin k t a b.
Proof.
  intros Hn Hs Ha Hb. unfold unsigned_overflow_narrow, exact_builtin.
  pose proof Ha as Ha'. pose proof Hb as Hb'. apply in_range_spec in Ha', Hb'.
  assert (Hw : k <> sub -> in_range uint64 (exact k a b) = true).
  { intros Hk. apply in_range_spec. unfold narrow_type, tmin, tmax in *. rewrite Hs in *.
    destruct (width t); simpl in *; try lia; destruct k; simpl; try done; nia. }
  assert (Hmin : tmin t = 0) by (unfold tmin; by rewrite Hs).
  destruct k; simpl exact in *.
  - rewrite (wrap_id uint64), unsigned_out_of_range by (auto || lia). done.
  - rewrite out_of_range, Hmin. do 2 f_equal. simpl.
    destruct (Z.ltb_spec a b), (Z.ltb_spec (a - b) 0), (Z.ltb_spec (tmax t) (a - b)); simpl; lia.
  - rewrite (wrap_id uint64), unsigned_out_of_range by (auto || nia). done.
Qed.

(** The wrapped result of a sum or difference is off by at most one modulus. *)
Lemma wrap_once t z : tmin t - modulus t <= z <= tmax t + modulus t ->
  wrap t z = if z <? tmin t then z + modulus t else if tmax t <? z then z - modulus t else z.
Proof.
  intros Hz. pose proof (modulus_pos t). pose proof (range_modulus t) as Hm.
  destruct (Z.ltb_spec z (tmin t)); [|destruct (Z.ltb_spec (tmax t) z)];
    (apply wrap_unique; [apply in_range_spec; lia|]); [by exists 1; lia|by exists (-1); lia|by exists 0; lia].
Qed.

Ltac bounds64 :=
  unfold tmin, tmax, modulus in *; simpl in *;
  change (2 ^ (64 - 1)) with 9223372036854775808 in *; change (2 ^ 64) with 18446744073709551616 in *; simpl in *.

(** The sums and differences of 64 bits, decided case by case. *)
Ltac decide_flags :=
  repeat match goal with
         | |- context [?x <? ?y] => destruct (Z.ltb_spec x y)
         | |- context [?x <=? ?y] => destruct (Z.leb_spec x y)
         | |- context [?x =? ?y] => destruct (Z.eqb_spec x y)
         end; simpl; try lia; try done.

Lemma wide_add_sub_unsigned k a b : k <> mul -> in_range uint64 a = true -> in_range uint64 b = true ->
  msvc_overflow k uint64 a b = exact_builtin k uint64 a b.
Proof.
  intros Hk Ha Hb. apply in_range_spec in Ha, Hb. unfold msvc_overflow, exact_builtin. rewrite out_of_range.
  destruct k; [| |done]; simpl width; cbv iota; unfold uadd_overflow64, usub_overflow64; simpl exact; f_equal.
  - rewrite wrap_once by (bounds64; lia). bounds64. decide_flags.
  - bounds64. decide_flags.
Qed.

Lemma wide_sub_signed a b : in_range int64 a = true -> in_range int64 b = true ->
  msvc_overflow sub int64 a b = exact_builtin sub int64 a b.
Proof.
  intros Ha Hb. apply in_range_spec in Ha, Hb. unfold exact_builtin. rewrite out_of_range.
  change (msvc_overflow sub int64 a b) with (ssub_overflow64 a b). unfold ssub_overflow64. simpl exact. f_equal.
  rewrite wrap_once by (bounds64; lia). bounds64. decide_flags.
Qed.

Lemma wide_mul_unsigned a b : in_range uint64 a = true -> in_range uint64 b = true ->
  msvc_overflow mul uint64 a b = exact_builtin mul uint64 a b.
Proof.
  intros Ha Hb. apply in_range_spec in Ha, Hb. unfold exact_builtin.
  rewrite unsigned_out_of_range by (done || bounds64; nia).
  change (msvc_overflow mul uint64 a b) with (umul_overflow64 a b). unfold umul_overflow64. simpl exact.
  destruct (Z.eqb_spec a 0) as [->|Ha0]; [done|]. f_equal.
  destruct (Z.ltb_spec (tmax uint64) (a * b)) as [Hlt|Hge].
  - destruct (wrap_shift uint64 (a * b)) as [k Ek]. pose proof (wrap_range uint64 (a * b)) as Hr.
    apply in_range_spec in Hr. apply negb_true_iff, Z.eqb_neq. intros Eq.
    pose proof (Z.mul_div_le (wrap uint64 (a * b)) a) as Hle. rewrite Eq in Hle. bounds64. nia.
  - rewrite wrap_id by (apply in_range_spec; bounds64; nia). rewrite Z.mul_comm, Z.div_mul by done.
    by rewrite Z.eqb_refl.
Qed.

(** The prologue's functions agree with the compilers' built-ins on every
    type but the signed 64-bit sum and product. *)
Theorem msvc_overflow_exact k t a b : width t <> W128 -> (signed t = true -> width t = W64 -> k = sub) ->
  in_range t a = true -> in_range t b = true -> msvc_overflow k t a b = exact_builtin k t a b.
Proof.
  intros Hw Hk Ha Hb. destruct t as [[] w]; simpl in *.
  - destruct w; try done; [apply narrow_signed|apply narrow_signed|apply narrow_signed|]; try done.
    rewrite (Hk eq_refl eq_refl). by apply wide_sub_signed.
  - destruct w; try done; [apply narrow_unsigned|apply narrow_unsigned|apply narrow_unsigned|]; try done.
    destruct k; [by apply wide_add_sub_unsigned|by apply wide_add_sub_unsigned|by apply wide_mul_unsigned].
Qed.

(** The 64-bit signed sum misses one overflow: [INT64_MIN + INT64_MIN]
    wraps to 0, which the test for a positive result does not see. *)
Lemma msvc_sadd64_exact a b : in_range int64 a = true -> in_range int64 b = true ->
  msvc_overflow add int64 a b = exact_builtin add int64 a b <-> ~ (a = tmin int64 /\ b = tmin int64).
Proof.
  intros Ha Hb. apply in_range_spec in Ha, Hb. unfold exact_builtin. rewrite out_of_range.
  change (msvc_overflow add int64 a b) with (sadd_overflow64 a b). unfold sadd_overflow64. simpl exact.
  rewrite wrap_once by (bounds64; lia). bounds64. split.
  - intros [= E0] [-> ->]. done.
  - intros Hn. f_equal. decide_flags.
Qed.

Lemma wrap_neg64 x : tmin int64 <= x <= tmax int64 ->
  wrap int64 (- x) = if x =? tmin int64 then x else - x.
Proof. intros Hx. rewrite wrap_once by (bounds64; lia). bounds64. decide_flags. Qed.

Lemma quot_compare c d : 0 < c -> (Z.quot (tmax int64) c <? d) = (tmax int64 <? d * c).
Proof.
  intros Hc. rewrite Z.quot_div_nonneg by (bounds64; lia).
  destruct (Z.ltb_spec (tmax int64) (d * c)) as [Hlt|Hge].
  - apply Z.ltb_lt, Z.div_lt_upper_bound; lia.
  - apply Z.ltb_ge, Z.div_le_lower_bound; lia.
Qed.

(** The magnitudes the product compares. *)
Lemma smul_flag a b : in_range int64 a = true -> in_range int64 b = true -> a <> 0 -> b <> 0 ->
  snd (smul_overflow64 a b) =
    if a =? tmin int64 then false
    else if b =? tmin int64 then true
    else tmax int64 <? Z.abs a * Z.abs b.
Proof.
  intros Ha Hb Ha0 Hb0. unfold smul_overflow64. apply Z.eqb_neq in Ha0 as Ea, Hb0 as Eb. rewrite Ea, Eb. simpl orb. cbv iota.
  apply in_range_spec in Ha, Hb.
  destruct (Z.eqb_spec a (tmin int64)) as [->|Hamin].
  - replace (tmin int64 <? 0) with true by done. cbv iota beta. rewrite (wrap_neg64 (tmin int64)), Z.eqb_refl by (bounds64; lia).
    simpl snd. apply Z.ltb_ge. rewrite wrap_neg64 by done.
    destruct (Z.eqb_spec b (tmin int64)) as [->|Hbmin].
    + by vm_compute.
    + destruct (Z.ltb_spec (- b) 0).
      * rewrite wrap_neg64 by (bounds64; lia). destruct (Z.eqb_spec (- b) (tmin int64)); [bounds64; lia|].
        rewrite Z.opp_involutive, Z.quot_div_nonneg by (bounds64; lia).
        pose proof (Z.div_pos (tmax int64) b). bounds64; lia.
      * rewrite Z.quot_div_nonneg by (bounds64; lia). pose proof (Z.div_pos (tmax int64) (- b)). bounds64; lia.
  - assert (Hmag : forall x y, 0 < x -> tmin int64 <= y <= tmax int64 -> y <> 0 ->
      (Z.quot (tmax int64) (if y <? 0 then wrap int64 (- y) else y) <? x) =
        if y =? tmin int64 then true else tmax int64 <? x * Z.abs y).
    { intros x y Hx Hy Hy0. destruct (Z.eqb_spec y (tmin int64)) as [->|Hymin].
      - replace (Z.quot _ _) with 0 by by vm_compute. by apply Z.ltb_lt.
      - destruct (Z.ltb_spec y 0).
        + rewrite wrap_neg64 by done. destruct (Z.eqb_spec y (tmin int64)); [done|]. rewrite quot_compare by lia. do 2 f_equal. lia.
        + rewrite quot_compare by lia. do 2 f_equal. lia. }
    destruct (Z.ltb_spec a 0).
    + simpl snd. rewrite (wrap_neg64 a) by done. apply Z.eqb_neq in Hamin. rewrite Hamin.
      destruct (Z.eqb_spec b (tmin int64)) as [->|Hbmin].
      * rewrite wrap_neg64, Z.eqb_refl by (bounds64; lia). rewrite Hmag, Z.eqb_refl by (done || bounds64; lia). done.
      * rewrite (wrap_neg64 b) by done. destruct (Z.eqb_spec b (tmin int64)) as [|_]; [done|].
        rewrite Hmag by (bounds64; lia). destruct (Z.eqb_spec (- b) (tmin int64)); [bounds64; lia|]. f_equal. lia.
    + simpl snd. rewrite Hmag by (done || lia). destruct (Z.eqb_spec b (tmin int64)); [done|]. f_equal. lia.
Qed.

(** The 64-bit signed product is right except in two cases: no overflow of
    [INT64_MIN] times anything is reported, and a product that is exactly
    [INT64_MIN] is reported although it fits. *)
Lemma msvc_smul64_exact a b : in_range int64 a = true -> in_range int64 b = true ->
  msvc_overflow mul int64 a b = exact_builtin mul int64 a b <->
    if a =? tmin int64 then b = 0 \/ b = 1 else a * b <> tmin int64.
Proof.
  intros Ha Hb. change (msvc_overflow mul int64 a b) with (smul_overflow64 a b).
  assert (Hfst : fst (smul_overflow64 a b) = wrap int64 (a * b)).
  { unfold smul_overflow64. destruct ((a =? 0) || (b =? 0)); [done|]. by destruct (a <? 0). }
  assert (Hiff : smul_overflow64 a b = exact_builtin mul int64 a b <->
    snd (smul_overflow64 a b) = negb (in_range int64 (a * b))).
  { unfold exact_builtin. simpl exact. destruct (smul_overflow64 a b) as [r o]. simpl in *. subst r.
    split; [by intros [= ->]|by intros ->]. }
  rewrite Hiff, out_of_range. clear Hiff Hfst.
  destruct (decide (a = 0)) as [->|Ha0]; [split; [done|by destruct b]|].
  destruct (decide (b = 0)) as [->|Hb0].
  { rewrite Z.mul_0_r. unfold smul_overflow64. rewrite Z.eqb_refl, orb_true_r.
    split; [intros _; destruct (a =? tmin int64); [by left|done]|by destruct (a =? tmin int64)]. }
  rewrite smul_flag by done. apply in_range_spec in Ha, Hb. destruct (Z.eqb_spec a (tmin int64)) as [->|Hmin].
  - bounds64. split.
    + intros Hf. right. decide_flags.
    + intros [->|Hb1]; [done|]. subst b. done.
  - destruct (Z.eqb_spec b (tmin int64)) as [->|Hbmin].
    + bounds64. split; [intros Hf; decide_flags|intros Hne; decide_flags].
    + bounds64. split.
      * intros Hf Heq. rewrite Heq in Hf. simpl in Hf. assert (Z.abs a * Z.abs b = 9223372036854775808) by lia.
        apply Z.ltb_ge in Hf. lia.
      * intros Hne. decide_flags.
Qed.

(** The 64-bit signed sum and product agree with the compilers' built-ins
    exactly outside these cases: [INT64_MIN + INT64_MIN], which wraps to 0 and
    passes as no overflow; [INT64_MIN] times anything but 0 and 1, whose overflow
    is not reported; and a product that is exactly [INT64_MIN], which fits and is
    reported. *)
Theorem msvc_signed64_exact a b : in_range int64 a = true -> in_range int64 b = true ->
  (msvc_overflow add int64 a b = exact_builtin add int64 a b <-> ~ (a = tmin int64 /\ b = tmin int64)) /\
  (msvc_overflow mul int64 a b = exact_builtin mul int64 a b <->
     if a =? tmin int64 then b = 0 \/ b = 1 else a * b <> tmin int64).
Proof. intros Ha Hb. split; [by apply msvc_sadd64_exact|by apply msvc_smul64_exact]. Qed.

(** Where the overflow is detected, the emitted call is the exact one. *)
Lemma detects_exact `{Toolchain} k t a b : detects k t a b -> in_range t a = true -> in_range t b = true ->
  overflow_builtin k t a b = exact_builtin k t a b.
Proof.
  unfold detects, overflow_builtin. destruct compiler; [done|]. intros [Hw Hk] Ha Hb.
  destruct (signed t && bool_decide (width t = W64)) eqn:E0.
  - apply andb_true_iff in E0 as [Hs Hw64%bool_decide_eq_true]. specialize (Hk Hs Hw64).
    destruct t as [sg w]. simpl in *. subst.
    destruct k; [by apply msvc_sadd64_exact|by apply wide_sub_signed|by apply msvc_smul64_exact].
  - apply msvc_overflow_exact; try done. intros Hs Hw64. rewrite Hs, bool_decide_true in E0; done.
Qed.

Lemma msvc_overflow_exact_witness : msvc_overflow mul (mkCTy true W32) 65536 65536 = (0, true).
Proof.
  rewrite (msvc_overflow_exact mul (mkCTy true W32) 65536 65536); [by vm_compute|done| |done|done].
  intros _ Hw. discriminate Hw.
Defined.

Lemma msvc_signed64_exact_witness :
  msvc_overflow add int64 (tmin int64) (tmin int64) = (0, false) /\
  msvc_overflow add int64 (tmin int64) (tmin int64) <> exact_builtin add int64 (tmin int64) (tmin int64) /\
  msvc_overflow mul int64 (tmin int64) 2 = (0, false) /\
  msvc_overflow mul int64 (2 ^ 62) (-2) <> exact_builtin mul int64 (2 ^ 62) (-2).
Proof.
  split_and!; [by vm_compute| |by vm_compute|].
  - destruct (msvc_signed64_exact (tmin int64) (tmin int64) eq_refl eq_refl) as [Hadd _].
    intros E0%Hadd. by apply E0.
  - destruct (msvc_signed64_exact (2 ^ 62) (-2) eq_refl eq_refl) as [_ Hmul].
    intros E0%Hmul. by vm_compute in E0.
Defined.
