(* ===== verification/Arithmetic.v ===== *)
(** * Integer arithmetic of the generated code ([emitter_c.py],
    [arithmetic_mode.py], [lowering_shared.py])

    An operator on machine integers is lowered to the opcode its arithmetic
    mode picks and the opcode to C statements; [emit_*] below are those
    statements, [exec] runs them.  The theorems compare what they compute with
    the mathematical result: wrapped, checked against the type's range, or
    clamped to it. *)

From S2P Require Import Prelude CInt MsvcOverflow.

Local Open Scope Z_scope.

(** ** Types *)

Inductive Stem := I8 | U8 | I16 | U16 | I32 | U32 | I64 | U64 | I128 | U128 | Isize | Usize.

#[export] Instance Stem_eq_dec : EqDecision Stem.
Proof. solve_decision. Defined.

(** What the C compiler decides: the size of a pointer, and whether
    [__metalpy_wideint] has 128 bits (GCC, clang) or 64 (MSVC). *)
Class Target := mkTarget { pointer_64 : bool; wideint_128 : bool }.

(** The type of an instruction's destination: an integer, or [Ptr]/[ConstPtr]. *)
Inductive DestTy := Int (s : Stem) | Pointer.

Section types.
Context `{Target}.

Definition intptr_width : Width := if pointer_64 then W64 else W32.
Definition wideint_width : Width := if wideint_128 then W128 else W64.

Definition uintptr_t : CTy := mkCTy false intptr_width.
Definition wideint : CTy := mkCTy true wideint_width.
Definition wideuint : CTy := mkCTy false wideint_width.

Definition scalar_c_type (s : Stem) : CTy :=
  match s with
  | I8 => mkCTy true W8 | U8 => mkCTy false W8
  | I16 => mkCTy true W16 | U16 => mkCTy false W16
  | I32 => mkCTy true W32 | U32 => mkCTy false W32
  | I64 => mkCTy true W64 | U64 => mkCTy false W64
  | I128 => wideint | U128 => wideuint
  | Isize => mkCTy true intptr_width | Usize => uintptr_t
  end.

(** An address is a [uintptr_t] here. *)
Definition c_type (d : DestTy) : CTy := match d with Int s => scalar_c_type s | Pointer => uintptr_t end.

Definition signed_to_unsigned (s : Stem) : option Stem :=
  match s with
  | I8 => Some U8 | I16 => Some U16 | I32 => Some U32 | I64 => Some U64 | I128 => Some U128 | Isize => Some Usize
  | _ => None
  end.

Definition is_unsigned_stem (s : Stem) : bool :=
  match s with U8 | U16 | U32 | U64 | U128 | Usize => true | _ => false end.

(** The [INT8_MIN] ... [UINTPTR_MAX] macros have the promoted type. *)
Definition saturate_limits (s : Stem) : option (CExpr * CExpr) :=
  match s with
  | I128 | U128 => None
  | _ =>
      let t := scalar_c_type s in
      Some (if is_unsigned_stem s then EConst int 0 else EConst (promote t) (tmin t), EConst (promote t) (tmax t))
  end.

(** [sizeof(__metalpy_wideint)*8 - 1] *)
Definition wideint_top_bit_shift : CExpr :=
  EBin CSub (EBin CMul (EConst uintptr_t (bits wideint_width / 8)) (EConst int 8)) (EConst int 1).

Definition wideint_min : CExpr := ECast wideint (EBin CShl (ECast wideuint (EConst int 1)) wideint_top_bit_shift).
Definition wideint_max : CExpr :=
  ECast wideint (EBin CSub (EBin CShl (ECast wideuint (EConst int 1)) wideint_top_bit_shift) (EConst int 1)).

Definition int_min_max_bit_pattern (s : Stem) : CExpr * CExpr :=
  match saturate_limits s, s with
  | Some lim, _ => lim
  | None, U128 => (ECast wideuint (EConst int 0), ENot (ECast wideuint (EConst int 0)))
  | None, _ => (wideint_min, wideint_max)
  end.

Definition signed_min_max (s : Stem) : option (CExpr * CExpr) :=
  match saturate_limits s, s with
  | Some lim, _ => Some lim
  | None, I128 => Some (wideint_min, wideint_max)
  | None, _ => None
  end.
End types.

(** ** Opcodes ([ir.py]) and how a mode picks one *)

Inductive BinOpcode :=
| AddWrap | AddCheck | AddSaturate
| SubWrap | SubCheck | SubSaturate
| MulWrap | MulCheck | MulSaturate
| ShlWrap | ShlCheck | ShlSaturate
| Div | Mod | DivWrap | DivSaturate | ModWrap | ModSaturate
| BitAnd | BitOr | BitXor | Shr.

Inductive UnOpcode :=
| Invert | NegWrap | NegCheck | NegSaturate | CastWrap | CastCheck | CastSaturate | ConvertCheck.

Inductive ArithmeticMode :=
| ArithmeticChecked
| ArithmeticWrap
| ArithmeticSaturate
| ArithmeticPanic (extra : string).

Inductive BinOperator := Add | Sub | Mult | LShift | FloorDiv | ModOp | BitAndOp | BitOrOp | BitXorOp | RShift.

Definition extra_of (m : ArithmeticMode) : option string :=
  match m with ArithmeticPanic e => Some e | _ => None end.

(** The base class's choice, the same in every mode. *)
Definition get_bitwise_opcode (op : BinOperator) : option BinOpcode :=
  match op with
  | BitAndOp => Some BitAnd
  | BitOrOp => Some BitOr
  | BitXorOp => Some BitXor
  | RShift => Some Shr
  | _ => None
  end.

Definition get_bin_op (m : ArithmeticMode) (op : BinOperator) : option BinOpcode * option string :=
  (match m, op with
   | (ArithmeticChecked | ArithmeticPanic _), Add => Some AddCheck
   | (ArithmeticChecked | ArithmeticPanic _), Sub => Some SubCheck
   | (ArithmeticChecked | ArithmeticPanic _), Mult => Some MulCheck
   | (ArithmeticChecked | ArithmeticPanic _), LShift => Some ShlCheck
   | (ArithmeticChecked | ArithmeticPanic _), FloorDiv => Some Div
   | (ArithmeticChecked | ArithmeticPanic _), ModOp => Some Mod
   | ArithmeticWrap, Add => Some AddWrap
   | ArithmeticWrap, Sub => Some SubWrap
   | ArithmeticWrap, Mult => Some MulWrap
   | ArithmeticWrap, LShift => Some ShlWrap
   | ArithmeticWrap, FloorDiv => Some DivWrap
   | ArithmeticWrap, ModOp => Some ModWrap
   | ArithmeticSaturate, Add => Some AddSaturate
   | ArithmeticSaturate, Sub => Some SubSaturate
   | ArithmeticSaturate, Mult => Some MulSaturate
   | ArithmeticSaturate, LShift => Some ShlSaturate
   | ArithmeticSaturate, FloorDiv => Some DivSaturate
   | ArithmeticSaturate, ModOp => Some ModSaturate
   | _, _ => get_bitwise_opcode op
   end, extra_of m).

(** The path operators take: the mode qualifies the dunder's name, the scalar
    types register a function under it, and its body is one intrinsic. *)
Inductive IntrinsicMode := Ichecked | Iwrapped | Isaturated.
Inductive BinKind := Kadd | Ksub | Kmul | Kfloordiv | Kmod | Kshl.
Inductive Intrinsic := CheckedBinop (k : BinKind) (m : IntrinsicMode) | Bitwise (op : BinOpcode).

Definition mode_dunder_prefix (m : ArithmeticMode) : option string :=
  match m with
  | ArithmeticWrap => Some "wrapped"%string
  | ArithmeticSaturate => Some "saturated"%string
  | _ => None
  end.

(** The name without its underscores. *)
Definition binop_dunder (op : BinOperator) : string :=
  match op with
  | Add => "add" | Sub => "sub" | Mult => "mul" | FloorDiv => "floordiv" | ModOp => "mod"
  | BitOrOp => "or" | BitAndOp => "and" | BitXorOp => "xor" | LShift => "lshift" | RShift => "rshift"
  end%string.

Definition mode_qualified_dunder_names (m : ArithmeticMode) (base : string) : list string :=
  let base_name := ("__" +:+ base +:+ "__")%string in
  match mode_dunder_prefix m with
  | None => [base_name]
  | Some prefix => [("__" +:+ prefix +:+ "_" +:+ base +:+ "__")%string; base_name]
  end.

(** What [i8], ..., [usize] register ([__scalar_dunders.py]). *)
Definition scalar_dunders : list (string * Intrinsic) :=
  [("__add__", CheckedBinop Kadd Ichecked); ("__wrapped_add__", CheckedBinop Kadd Iwrapped);
   ("__saturated_add__", CheckedBinop Kadd Isaturated);
   ("__sub__", CheckedBinop Ksub Ichecked); ("__wrapped_sub__", CheckedBinop Ksub Iwrapped);
   ("__saturated_sub__", CheckedBinop Ksub Isaturated);
   ("__mul__", CheckedBinop Kmul Ichecked); ("__wrapped_mul__", CheckedBinop Kmul Iwrapped);
   ("__saturated_mul__", CheckedBinop Kmul Isaturated);
   ("__floordiv__", CheckedBinop Kfloordiv Ichecked); ("__wrapped_floordiv__", CheckedBinop Kfloordiv Iwrapped);
   ("__saturated_floordiv__", CheckedBinop Kfloordiv Isaturated);
   ("__mod__", CheckedBinop Kmod Ichecked); ("__wrapped_mod__", CheckedBinop Kmod Iwrapped);
   ("__saturated_mod__", CheckedBinop Kmod Isaturated);
   ("__and__", Bitwise BitAnd); ("__or__", Bitwise BitOr); ("__xor__", Bitwise BitXor);
   ("__lshift__", CheckedBinop Kshl Ichecked); ("__wrapped_lshift__", CheckedBinop Kshl Iwrapped);
   ("__saturated_lshift__", CheckedBinop Kshl Isaturated);
   ("__rshift__", Bitwise Shr)]%string.

Definition checked_binop_opcodes (k : BinKind) (m : IntrinsicMode) : BinOpcode :=
  match k, m with
  | Kadd, Ichecked => AddCheck | Kadd, Iwrapped => AddWrap | Kadd, Isaturated => AddSaturate
  | Ksub, Ichecked => SubCheck | Ksub, Iwrapped => SubWrap | Ksub, Isaturated => SubSaturate
  | Kmul, Ichecked => MulCheck | Kmul, Iwrapped => MulWrap | Kmul, Isaturated => MulSaturate
  | Kfloordiv, Ichecked => Div | Kfloordiv, Iwrapped => DivWrap | Kfloordiv, Isaturated => DivSaturate
  | Kmod, Ichecked => Mod | Kmod, Iwrapped => ModWrap | Kmod, Isaturated => ModSaturate
  | Kshl, Ichecked => ShlCheck | Kshl, Iwrapped => ShlWrap | Kshl, Isaturated => ShlSaturate
  end.

Definition intrinsic_opcode (i : Intrinsic) : BinOpcode :=
  match i with CheckedBinop k m => checked_binop_opcodes k m | Bitwise op => op end.

(** The first candidate name that is registered. *)
Fixpoint find_dunder (names : list string) : option Intrinsic :=
  match names with
  | [] => None
  | n :: rest => match dict_get n scalar_dunders with Some i => Some i | None => find_dunder rest end
  end.

Definition lower_binop (m : ArithmeticMode) (op : BinOperator) : option BinOpcode :=
  intrinsic_opcode <$> find_dunder (mode_qualified_dunder_names m (binop_dunder op)).

Definition get_cast (m : ArithmeticMode) : UnOpcode * option string :=
  (match m with
   | ArithmeticChecked | ArithmeticPanic _ => CastCheck
   | ArithmeticWrap => CastWrap
   | ArithmeticSaturate => CastSaturate
   end, extra_of m).

(** [-x] and [~x]. *)
Inductive UnaryOperator := USub | InvertOp.

Definition get_unary_op (m : ArithmeticMode) (op : UnaryOperator) : option UnOpcode * option string :=
  (match op with
   | InvertOp => Some Invert
   | USub => Some match m with
                  | ArithmeticChecked | ArithmeticPanic _ => NegCheck
                  | ArithmeticWrap => NegWrap
                  | ArithmeticSaturate => NegSaturate
                  end
   end, extra_of m).

(** The mode an opcode name spells, and the operation. *)
Inductive OpMode := Wrap | Checked | Saturate.

Definition arith_binop_info (op : BinOpcode) : option (ArithKind * OpMode) :=
  match op with
  | AddWrap => Some (add, Wrap) | AddCheck => Some (add, Checked) | AddSaturate => Some (add, Saturate)
  | SubWrap => Some (sub, Wrap) | SubCheck => Some (sub, Checked) | SubSaturate => Some (sub, Saturate)
  | MulWrap => Some (mul, Wrap) | MulCheck => Some (mul, Checked) | MulSaturate => Some (mul, Saturate)
  | _ => None
  end.

Definition arith_symbol (k : ArithKind) : COp :=
  match k with add => CAdd | sub => CSub | mul => CMul end.

(** ** Emission ([emitter_c.py]) *)

Section emission.
Context `{Target}.

Definition emit_wrap_arith (op : COp) (dest_type : DestTy) : CStmt :=
  let l := EVar VL in
  let r := EVar VR in
  match dest_type with
  | Pointer => SAssign uintptr_t (ECast uintptr_t (EBin op (ECast uintptr_t l) (ECast uintptr_t r)))
  | Int s =>
      let t := scalar_c_type s in
      match signed_to_unsigned s with
      | Some u =>
          let ut := scalar_c_type u in
          SAssign t (ECast t (EBin op (ECast ut l) (ECast ut r)))
      | None => SAssign t (EBin op l r)
      end
  end.

(** [if ( __overflow ) { Err } else { Ok( __tmp ) }] *)
Definition set_checked (t : CTy) (overflow value : CExpr) : CStmt :=
  SIf overflow (SErr OverflowError) (SOk t value).

(** [None]: [NotImplementedError]. *)
Definition emit_check_arith (k : ArithKind) (ok_type : DestTy) : option CStmt :=
  let l := EVar VL in
  let r := EVar VR in
  match ok_type, k with
  | Pointer, mul => None
  | Pointer, _ =>
      Some (SOverflow k uintptr_t (ECast uintptr_t l) (ECast uintptr_t r)
              (set_checked uintptr_t (EVar VOverflow) (EVar VTmp)))
  | Int s, _ =>
      let t := scalar_c_type s in
      Some (SOverflow k t l r (set_checked t (EVar VOverflow) (EVar VTmp)))
  end.

Definition clamp_expr (k : ArithKind) (s : Stem) : CExpr :=
  let '(min_c, max_c) := int_min_max_bit_pattern s in
  let l := EVar VL in
  let r := EVar VR in
  if is_unsigned_stem s then match k with sub => min_c | _ => max_c end
  else match k with
       | mul => ECond (ECmp CEq (ECmp CGe l (EConst int 0)) (ECmp CGe r (EConst int 0))) max_c min_c
       | _ => ECond (ECmp CGe l (EConst int 0)) max_c min_c
       end.

Definition emit_saturate_arith (k : ArithKind) (dest_type : DestTy) : option CStmt :=
  match dest_type with
  | Pointer => None
  | Int s =>
      let t := scalar_c_type s in
      Some (SOverflow k t (EVar VL) (EVar VR)
              (SAssign t (ECond (EVar VOverflow) (clamp_expr k s) (EVar VTmp))))
  end.

Definition is_mod (op : BinOpcode) : bool := match op with Mod | ModWrap | ModSaturate => true | _ => false end.
Definition is_checked_division (op : BinOpcode) : bool := match op with Div | Mod => true | _ => false end.
Definition is_wrap_division (op : BinOpcode) : bool := match op with DivWrap | ModWrap => true | _ => false end.

Definition emit_int_division (op : BinOpcode) (s : Stem) : option CStmt :=
  let t := scalar_c_type s in
  let l := EVar VL in
  let r := EVar VR in
  let symbol := if is_mod op then CMod else CDiv in
  let divide := SOk t (EBin symbol l r) in
  let guarded (body : CStmt) := SIf (ECmp CEq r (EConst int 0)) (SErr ZeroDivisionError) body in
  match signed_to_unsigned s with
  | None => Some (guarded divide)
  | Some _ =>
      lim ← signed_min_max s;
      let '(min_expr, max_expr) := lim in
      let special :=
        if is_checked_division op then SErr OverflowError
        else SOk t (ECast t (if is_mod op then EConst int 0 else if is_wrap_division op then min_expr else max_expr)) in
      Some (guarded (SIf (EAnd (ECmp CEq l (ECast t min_expr)) (ECmp CEq r (EConst int (-1)))) special divide))
  end.

Definition shl_expr (s : Stem) : CExpr :=
  match signed_to_unsigned s with
  | Some u => ECast (scalar_c_type s) (EBin CShl (ECast (scalar_c_type u) (EVar VL)) (EVar VR))
  | None => EBin CShl (EVar VL) (EVar VR)
  end.

(** [( __tmp >> r ) != l] *)
Definition shl_overflow : CExpr := ECmp CNe (EBin CShr (EVar VTmp) (EVar VR)) (EVar VL).

Definition emit_shl (m : OpMode) (s : Stem) : CStmt :=
  let t := scalar_c_type s in
  match m with
  | Wrap => SAssign t (shl_expr s)
  | Checked =>
      SDeclare VTmp t (shl_expr s) (SDeclare VOverflow int shl_overflow
        (set_checked t (EVar VOverflow) (EVar VTmp)))
  | Saturate =>
      let '(_, max_c) := int_min_max_bit_pattern s in
      SDeclare VTmp t (shl_expr s) (SDeclare VOverflow int shl_overflow
        (SAssign t (ECond (EVar VOverflow) max_c (EVar VTmp))))
  end.

Definition emit_plain_bitwise (op : COp) (s : Stem) : CStmt :=
  SAssign (scalar_c_type s) (EBin op (EVar VL) (EVar VR)).

Definition emit_neg (m : OpMode) (s : Stem) : CStmt :=
  let t := scalar_c_type s in
  let zero := ECast t (EConst int 0) in
  match m with
  | Wrap =>
      match signed_to_unsigned s with
      | Some u =>
          let ut := scalar_c_type u in
          SAssign t (ECast t (EBin CSub (ECast ut (EConst int 0)) (ECast ut (EVar VL))))
      | None => SAssign t (EConst int 0)
      end
  | Saturate =>
      if is_unsigned_stem s then SAssign t (EConst int 0)
      else
        let '(_, max_c) := int_min_max_bit_pattern s in
        SOverflow sub t zero (EVar VL) (SAssign t (ECond (EVar VOverflow) max_c (EVar VTmp)))
  | Checked => SOverflow sub t zero (EVar VL) (set_checked t (EVar VOverflow) (EVar VTmp))
  end.

(** [__wide] and the comparison with the upper bound. *)
Definition wide_ctype (source : Stem) : CTy := if is_unsigned_stem source then wideuint else wideint.

Definition cast_upper_bound (source target : Stem) : CExpr :=
  let '(_, max_c) := int_min_max_bit_pattern target in
  if negb (is_unsigned_stem source) && bool_decide (target = U64 \/ target = Usize) then
    ECmp CGt (ECast wideuint (EVar VWide)) (ECast wideuint max_c)
  else ECmp CGt (EVar VWide) (ECast (wide_ctype source) max_c).

Definition cast_lower_bound (source target : Stem) : CExpr :=
  ECmp CLt (EVar VWide) (ECast (wide_ctype source) (fst (int_min_max_bit_pattern target))).

Definition cast_overflow (source target : Stem) : CExpr :=
  if is_unsigned_stem source then cast_upper_bound source target
  else EOr (cast_lower_bound source target) (cast_upper_bound source target).

(** The check that [_emit_cast] and [_emit_convert_check] both write. *)
Definition emit_range_check (source target : Stem) : CStmt :=
  let t := scalar_c_type target in
  let value := ECast t (EVar VL) in
  if bool_decide (target = U128) && negb (bool_decide (source = U128)) then
    if is_unsigned_stem source then SOk t value
    else SDeclare VOverflow int (ECmp CLt (EVar VL) (EConst int 0)) (set_checked t (EVar VOverflow) value)
  else
    SDeclare VWide (wide_ctype source) (ECast (wide_ctype source) (EVar VL))
      (SDeclare VOverflow int (cast_overflow source target) (set_checked t (EVar VOverflow) value)).

Definition emit_cast (m : OpMode) (source target : Stem) : CStmt :=
  let t := scalar_c_type target in
  let value := ECast t (EVar VL) in
  let '(min_c, max_c) := int_min_max_bit_pattern target in
  match m with
  | Wrap => SAssign t value
  | Checked => emit_range_check source target
  | Saturate =>
      if bool_decide (target = U128) && negb (bool_decide (source = U128)) then
        SAssign t (if is_unsigned_stem source then value
                   else ECond (ECmp CLt (EVar VL) (EConst int 0)) min_c value)
      else
        SDeclare VWide (wide_ctype source) (ECast (wide_ctype source) (EVar VL))
          (SAssign t (if is_unsigned_stem source then ECond (cast_upper_bound source target) max_c value
                      else ECond (cast_lower_bound source target) min_c
                             (ECond (cast_upper_bound source target) max_c value)))
  end.

Definition emit_convert_check (source target : Stem) : CStmt := emit_range_check source target.

Definition emit_invert (s : Stem) : CStmt := SAssign (scalar_c_type s) (ENot (EVar VL)).

(** The instruction dispatch of [_emit_instruction]; an operand has the
    destination's type. *)
Definition emit_binop (op : BinOpcode) (dest_type : DestTy) : option CStmt :=
  match arith_binop_info op with
  | Some (k, Wrap) => Some (emit_wrap_arith (arith_symbol k) dest_type)
  | Some (k, Saturate) => emit_saturate_arith k dest_type
  | Some (k, Checked) => emit_check_arith k dest_type
  | None =>
      match dest_type with
      | Pointer => None
      | Int s =>
          match op with
          | ShlWrap => Some (emit_shl Wrap s)
          | ShlCheck => Some (emit_shl Checked s)
          | ShlSaturate => Some (emit_shl Saturate s)
          | BitAnd => Some (emit_plain_bitwise CBitAnd s)
          | BitOr => Some (emit_plain_bitwise CBitOr s)
          | BitXor => Some (emit_plain_bitwise CBitXor s)
          | Shr => Some (emit_plain_bitwise CShr s)
          | _ => emit_int_division op s
          end
      end
  end.

Definition emit_unop (op : UnOpcode) (source target : Stem) : CStmt :=
  match op with
  | Invert => emit_invert target
  | NegWrap => emit_neg Wrap target
  | NegCheck => emit_neg Checked target
  | NegSaturate => emit_neg Saturate target
  | CastWrap => emit_cast Wrap source target
  | CastCheck => emit_cast Checked source target
  | CastSaturate => emit_cast Saturate source target
  | ConvertCheck => emit_convert_check source target
  end.
End emission.

(** ** What the operations mean *)

Definition meaning (m : OpMode) (t : CTy) (z : Z) : Outcome :=
  match m with
  | Wrap => Plain (wrap t z)
  | Checked => if in_range t z then OkValue z else ErrValue OverflowError
  | Saturate => Plain (clamp t z)
  end.

Definition unsigned_of (t : CTy) : CTy := mkCTy false (width t).
Arguments unsigned_of : simpl never.

Definition op_mode (m : ArithmeticMode) : OpMode :=
  match m with ArithmeticWrap => Wrap | ArithmeticSaturate => Saturate | _ => Checked end.

Definition operator_kind (op : BinOperator) : option ArithKind :=
  match op with Add => Some add | Sub => Some sub | Mult => Some mul | _ => None end.

(** The registered dunders and the modes' own tables pick the same opcode. *)
Lemma lower_binop_get_bin_op m op : lower_binop m op = fst (get_bin_op m op).
Proof. by destruct m, op. Qed.

Lemma lower_binop_info m op k opcode : operator_kind op = Some k -> lower_binop m op = Some opcode ->
  arith_binop_info opcode = Some (k, op_mode m).
Proof. rewrite lower_binop_get_bin_op. destruct m, op; try done; by intros [= <-] [= <-]. Qed.

(** [scalar.sizeof * 8] *)
Definition scalar_bits `{Target} (s : Stem) : Z := bits (width (scalar_c_type s)).

(** [T( x )] of a run-time integer ([_lower_scalar_cast]); [x.to_T()] is
    [ConvertCheck]. *)
Definition lower_scalar_cast `{Target} (m : ArithmeticMode) (source target : Stem) : UnOpcode :=
  if scalar_bits source <=? scalar_bits target then CastWrap else fst (get_cast m).

(** An instruction's operands, of one type. *)
Definition operands (t : CTy) (a b : Z) : Env := fun v =>
  match v with VL => (t, a) | VR => (t, b) | _ => (int, 0) end.

Section facts.
Context `{Target}.

(** The stems and targets are finitely many. *)
Ltac each_stem s := destruct H as [[] []], s.

Lemma limits_eval s env : let '(min_c, max_c) := int_min_max_bit_pattern s in
  eval env min_c = Some (tmin (scalar_c_type s)) /\ eval env max_c = Some (tmax (scalar_c_type s)).
Proof. each_stem s; by vm_compute. Qed.

Lemma limits_contain s env : let '(min_c, max_c) := int_min_max_bit_pattern s in
  let t := scalar_c_type s in
  contains (common (typ env max_c) (typ env min_c)) t = true /\
  contains (common (typ env min_c) t) t = true /\
  contains (common (typ env max_c) t) t = true /\
  contains (common (common (typ env max_c) (typ env min_c)) t) t = true /\
  contains (common (typ env min_c) (common (typ env max_c) t)) t = true.
Proof. each_stem s; by vm_compute. Qed.

Lemma signed_to_unsigned_spec s : match signed_to_unsigned s with
  | Some u => signed (scalar_c_type s) = true /\ scalar_c_type u = unsigned_of (scalar_c_type s) /\
      is_unsigned_stem s = false
  | None => signed (scalar_c_type s) = false /\ is_unsigned_stem s = true
  end.
Proof. each_stem s; by vm_compute. Qed.

Lemma stem_signed s : signed (scalar_c_type s) = negb (is_unsigned_stem s).
Proof. each_stem s; by vm_compute. Qed.

Lemma signed_min_max_spec s u : signed_to_unsigned s = Some u ->
  signed_min_max s = Some (int_min_max_bit_pattern s).
Proof. by destruct s. Qed.
End facts.

(** An expression of a conditional keeps a value its common type contains. *)
Lemma cond_eval env c e1 e2 t k z :
  contains (common (typ env e1) (typ env e2)) t = true -> in_range t z = true ->
  eval env c = Some k -> eval env (if k =? 0 then e2 else e1) = Some z ->
  eval env (ECond c e1 e2) = Some z.
Proof.
  intros Hc Hz Hk He. simpl. rewrite Hk. simpl. destruct (k =? 0); rewrite He; simpl;
    by rewrite (wrap_contains _ t z Hc Hz).
Qed.

Lemma cond_test env c (x : bool) e1 e2 t z :
  contains (common (typ env e1) (typ env e2)) t = true -> in_range t z = true ->
  eval env c = Some (Z.b2z x) -> eval env (if x then e1 else e2) = Some z ->
  eval env (ECond c e1 e2) = Some z.
Proof. intros Hc Hz Hk He. apply (cond_eval _ _ _ _ t (Z.b2z x)); try done. by destruct x. Qed.

(** A comparison whose operands fit the common type compares the values. *)
Lemma cmp_eval env op e1 e2 a b :
  eval env e1 = Some a -> eval env e2 = Some b ->
  in_range (common (typ env e1) (typ env e2)) a = true -> in_range (common (typ env e1) (typ env e2)) b = true ->
  eval env (ECmp op e1 e2) = Some (compare op a b).
Proof. intros E1 E2 Ha Hb. simpl. rewrite E1, E2. simpl. by rewrite !wrap_id. Qed.

(** ** Addition, subtraction, multiplication *)

(** The one case C leaves undefined: the product of two 16-bit operands is
    computed in [int], where it can overflow. *)
Definition product_undefined (m : OpMode) (k : ArithKind) (t : CTy) (a b : Z) : bool :=
  match m, k, width t with
  | Wrap, mul, W16 => tmax int <? wrap (unsigned_of t) a * wrap (unsigned_of t) b
  | _, _, _ => false
  end.

Arguments product_undefined : simpl never.

(** Two unsigned operands under the usual conversions. *)
Lemma unsigned_arith k t a b : let u := unsigned_of t in
  in_range u a = true -> in_range u b = true ->
  match arith (arith_symbol k) (promote u) (wrap (promote u) a) (wrap (promote u) b) with
  | None => product_undefined Wrap k u a b = true
  | Some z => product_undefined Wrap k u a b = false /\ wrap u z = wrap u (exact k a b)
  end.
Proof.
  intros u Ha Hb. rewrite !(wrap_contains (promote u) u) by auto with cint.
  assert (Eu : unsigned_of u = u) by done. assert (Su : signed u = false) by done.
  clearbody u. destruct (bits (width u) <? 32) eqn:Hw.
  - rewrite (promote_narrow u Hw).
    assert (Hz : match fits int (exact k a b) with
      | None => product_undefined Wrap k u a b = true
      | Some z => product_undefined Wrap k u a b = false /\ z = exact k a b end).
    { unfold fits. simpl signed. unfold product_undefined. rewrite Eu, !wrap_id by done.
      destruct (in_range int (exact k a b)) eqn:Ei.
      - split; [|done]. destruct k, (width u); try done.
        apply in_range_spec in Ei. simpl exact in Ei. apply Z.ltb_ge. lia.
      - apply in_range_spec in Ha, Hb. apply in_range_false in Ei.
        unfold tmin, tmax in *. rewrite Su in *.
        destruct (width u) eqn:Ew; try done; simpl in Ha, Hb, Ei; destruct k; simpl in Ei |- *; nia. }
    destruct k; simpl in *; destruct (fits int _); naive_solver.
  - rewrite (promote_wide u Hw).
    assert (Hp : product_undefined Wrap k u a b = false) by (unfold product_undefined; by destruct k, (width u)).
    rewrite Hp. by destruct k; simpl; unfold fits; rewrite Su, wrap_wrap_same.
Qed.

Section arith.
Context `{Target} `{Toolchain}.

Lemma product_undefined_unsigned m k t a b :
  product_undefined m k (unsigned_of t) (wrap (unsigned_of t) a) (wrap (unsigned_of t) b) = product_undefined m k t a b.
Proof. unfold product_undefined. change (unsigned_of (unsigned_of t)) with (unsigned_of t). by rewrite !wrap_wrap_same. Qed.

Lemma wrap_arith_exec k s a b : let t := scalar_c_type s in
  in_range t a = true -> in_range t b = true ->
  exec (operands t a b) (emit_wrap_arith (arith_symbol k) (Int s)) =
    if product_undefined Wrap k t a b then None else Some (Plain (wrap t (exact k a b))).
Proof.
  intros t Ha Hb. unfold emit_wrap_arith. pose proof (signed_to_unsigned_spec s) as Hu. fold t in Hu |- *.
  clearbody t. destruct (signed_to_unsigned s) as [u|].
  - destruct Hu as (Hs & Eu & _). rewrite Eu, <- product_undefined_unsigned.
    pose proof (unsigned_arith k t (wrap (unsigned_of t) a) (wrap (unsigned_of t) b) (wrap_range _ _) (wrap_range _ _)) as Hk.
    assert (Ew : forall z, wrap (unsigned_of t) z = wrap (unsigned_of t) (exact k (wrap (unsigned_of t) a) (wrap (unsigned_of t) b)) ->
      wrap t (wrap t z) = wrap t (exact k a b)).
    { intros z Hz. rewrite wrap_wrap_same, <- (wrap_wrap t (unsigned_of t) z), Hz, wrap_wrap by done.
      by apply wrap_exact. }
    revert Hk. generalize (product_undefined Wrap k (unsigned_of t) (wrap (unsigned_of t) a) (wrap (unsigned_of t) b)).
    intros p Hk. destruct k; simpl in *; rewrite common_same; destruct (fits _ _) as [z|]; simpl in *;
      (try by rewrite Hk); destruct Hk as [-> Hz]; by rewrite (Ew z Hz).
  - destruct Hu as [Hs _].
    assert (Et : t = unsigned_of t) by (destruct t; simpl in *; by subst).
    pose proof (unsigned_arith k t a b) as Hk. simpl in Hk. rewrite <- Et in Hk.
    specialize (Hk Ha Hb). clear Et. revert Hk. generalize (product_undefined Wrap k t a b).
    intros p Hk. destruct k; simpl in *; rewrite common_same; destruct (fits _ _) as [z|]; simpl in *;
      (try by rewrite Hk); destruct Hk as [-> Hz]; by rewrite Hz.
Qed.

(** The check of the flag and of the wrapped result. *)
Lemma set_checked_exec env t z : env VTmp = (t, wrap t z) ->
  env VOverflow = (int, Z.b2z (negb (in_range t z))) ->
  exec env (set_checked t (EVar VOverflow) (EVar VTmp)) = Some (meaning Checked t z).
Proof.
  intros Et Eo. unfold set_checked. rewrite (exec_if _ _ (Z.b2z (negb (in_range t z)))) by (simpl; by rewrite Eo).
  simpl. destruct (in_range t z) eqn:Er; simpl; [|done]. rewrite Et. simpl. by rewrite wrap_wrap_same, wrap_id.
Qed.

Lemma check_arith_exec k s a b code : let t := scalar_c_type s in
  detects k t a b -> in_range t a = true -> in_range t b = true -> emit_check_arith k (Int s) = Some code ->
  exec (operands t a b) code = Some (meaning Checked t (exact k a b)).
Proof.
  intros t Hd Ha Hb. assert (Hc : emit_check_arith k (Int s) =
    Some (SOverflow k t (EVar VL) (EVar VR) (set_checked t (EVar VOverflow) (EVar VTmp)))) by by destruct k.
  rewrite Hc. intros [= <-]. rewrite (exec_overflow _ k t _ _ a b) by (done || by apply detects_exact). by apply set_checked_exec.
Qed.

Lemma b2z_true x : negb (Z.b2z x =? 0) = x.
Proof. by destruct x. Qed.

Definition clamp_side (k : ArithKind) (a b : Z) : bool :=
  match k with mul => Bool.eqb (0 <=? a) (0 <=? b) | _ => 0 <=? a end.

(** The side of the range an overflow is on is decided by the signs. *)
Lemma overflow_side k t a b : in_range t a = true -> in_range t b = true -> in_range t (exact k a b) = false ->
  signed t = true -> if clamp_side k a b then tmax t < exact k a b else exact k a b < tmin t.
Proof.
  rewrite !in_range_spec, in_range_false. intros Ha Hb Hz Hs.
  pose proof (tmin_nonpos t). pose proof (tmax_pos t).
  destruct k; simpl in *.
  - destruct (Z.leb_spec 0 a); lia.
  - assert (tmin t + tmax t = -1) by (unfold tmin, tmax; rewrite Hs; lia).
    destruct (Z.leb_spec 0 a); lia.
  - destruct (Z.leb_spec 0 a), (Z.leb_spec 0 b); simpl; nia.
Qed.

Lemma unsigned_side k t a b : in_range t a = true -> in_range t b = true -> in_range t (exact k a b) = false ->
  signed t = false -> match k with sub => exact k a b < tmin t | _ => tmax t < exact k a b end.
Proof.
  rewrite !in_range_spec, in_range_false. intros Ha Hb Hz Hs.
  assert (tmin t = 0) by (unfold tmin; by rewrite Hs). destruct k; simpl in *; nia.
Qed.

Lemma tmin_range t : in_range t (tmin t) = true.
Proof. rewrite <- (clamp_low t (tmin t - 1)) by lia. apply clamp_range. Qed.

Lemma tmax_range t : in_range t (tmax t) = true.
Proof. rewrite <- (clamp_high t (tmax t + 1)) by lia. apply clamp_range. Qed.

Lemma sign_cmp_eval op env v t x : signed t = true -> env v = (t, x) -> in_range t x = true ->
  eval env (ECmp op (EVar v) (EConst int 0)) = Some (compare op x 0).
Proof.
  intros Hs Ev Hx. apply cmp_eval; [simpl; by rewrite Ev|done| |apply in_range_0].
  simpl. rewrite Ev. simpl. apply (contains_range _ t); [|done].
  clear -Hs. destruct t as [[] []]; by vm_compute.
Qed.

(** The test of the operands' signs. *)
Definition sign_test (k : ArithKind) : CExpr :=
  match k with
  | mul => ECmp CEq (ECmp CGe (EVar VL) (EConst int 0)) (ECmp CGe (EVar VR) (EConst int 0))
  | _ => ECmp CGe (EVar VL) (EConst int 0)
  end.

Lemma sign_test_eval k env t a b : signed t = true -> env VL = (t, a) -> env VR = (t, b) ->
  in_range t a = true -> in_range t b = true -> eval env (sign_test k) = Some (Z.b2z (clamp_side k a b)).
Proof.
  intros Hs El Er Ha Hb.
  pose proof (sign_cmp_eval CGe env VL t a Hs El Ha) as E1. pose proof (sign_cmp_eval CGe env VR t b Hs Er Hb) as E2.
  destruct k; [exact E1|exact E1|]. unfold sign_test.
  rewrite (cmp_eval _ _ _ _ _ _ E1 E2); by destruct a, b.
Qed.

(** The expression assigned on overflow is the end of the range it left. *)
Lemma clamp_expr_eval k s a b env : let t := scalar_c_type s in
  in_range t a = true -> in_range t b = true -> in_range t (exact k a b) = false ->
  env VL = (t, a) -> env VR = (t, b) -> eval env (clamp_expr k s) = Some (clamp t (exact k a b)).
Proof.
  intros t Ha Hb Hz El Er. unfold clamp_expr.
  pose proof (limits_eval s env) as Hl. pose proof (limits_contain s env) as Hc.
  pose proof (signed_to_unsigned_spec s) as Hu.
  destruct (int_min_max_bit_pattern s) as [min_c max_c]. fold t in Hl, Hc, Hu.
  destruct Hl as [Emin Emax], Hc as (Hc & _). destruct (is_unsigned_stem s) eqn:Us.
  - assert (Hs : signed t = false) by (unfold t; by rewrite stem_signed, Us).
    pose proof (unsigned_side k t a b Ha Hb Hz Hs) as Hside.
    destruct k; [rewrite clamp_high by done|rewrite clamp_low by done|rewrite clamp_high by done]; done.
  - assert (Hs : signed t = true) by (unfold t; by rewrite stem_signed, Us).
    pose proof (overflow_side k t a b Ha Hb Hz Hs) as Hside.
    pose proof (sign_test_eval k env t a b Hs El Er Ha Hb) as Ec.
    change (match k with
      | mul => ECond (ECmp CEq (ECmp CGe (EVar VL) (EConst int 0)) (ECmp CGe (EVar VR) (EConst int 0))) max_c min_c
      | _ => ECond (ECmp CGe (EVar VL) (EConst int 0)) max_c min_c end) with
      (match k with mul => ECond (sign_test mul) max_c min_c | sub => ECond (sign_test sub) max_c min_c
       | add => ECond (sign_test add) max_c min_c end).
    destruct (clamp_side k a b).
    + rewrite clamp_high by done. destruct k; by (eapply cond_eval; [exact Hc|apply tmax_range|exact Ec|]).
    + rewrite clamp_low by done. destruct k; by (eapply cond_eval; [exact Hc|apply tmin_range|exact Ec|]).
Qed.

Lemma clamp_expr_typ k s env t z : env VTmp = (scalar_c_type s, z) -> t = scalar_c_type s ->
  contains (common (typ env (clamp_expr k s)) (typ env (EVar VTmp))) t = true.
Proof.
  intros Et ->. simpl typ. rewrite Et. unfold clamp_expr. pose proof (limits_contain s env) as Hc.
  destruct (int_min_max_bit_pattern s) as [min_c max_c]. destruct Hc as (_ & Hc1 & Hc2 & Hc3 & _).
  by destruct (is_unsigned_stem s), k.
Qed.

Lemma saturate_arith_exec k s a b code : let t := scalar_c_type s in
  detects k t a b -> in_range t a = true -> in_range t b = true -> emit_saturate_arith k (Int s) = Some code ->
  exec (operands t a b) code = Some (meaning Saturate t (exact k a b)).
Proof.
  intros t Hd Ha Hb [= <-]. fold t. rewrite (exec_overflow _ k t _ _ a b) by (done || by apply detects_exact). set (env := set VOverflow _ _ _).
  assert (Ee : eval env (ECond (EVar VOverflow) (clamp_expr k s) (EVar VTmp)) = Some (clamp t (exact k a b))).
  { destruct (in_range t (exact k a b)) eqn:Er.
    - rewrite clamp_id by done. eapply cond_eval; [by eapply clamp_expr_typ|done|done|].
      simpl. by rewrite wrap_id.
    - eapply cond_eval; [by eapply clamp_expr_typ|apply clamp_range|done|]. by apply clamp_expr_eval. }
  apply (exec_assign _ _ _ _ Ee), clamp_range.
Qed.

(** C22: for every integer type and arithmetic mode, the code of [+], [-] and
    [*] computes the exact result, wrapped, checked against the type's range
    or clamped to it as the mode says, and is defined C, but for one case: the
    wrapping product of two 16-bit operands whose unsigned values multiply past
    [INT_MAX], which is undefined because C promotes them to [int].  On GCC and
    clang this is so for all operands; on MSVC the checked and the clamped code
    has to be of at most 64 bits and, for a 64-bit signed sum or product, the
    operands none of those whose overflow the prologue's own functions get
    wrong ([detects], [msvc_signed64_exact]). *)
Theorem arith_emitted_correct mode op k opcode s a b code :
  operator_kind op = Some k -> lower_binop mode op = Some opcode ->
  let t := scalar_c_type s in
  in_range t a = true -> in_range t b = true -> (op_mode mode <> Wrap -> detects k t a b) ->
  emit_binop opcode (Int s) = Some code ->
  exec (operands t a b) code =
    if product_undefined (op_mode mode) k t a b then None else Some (meaning (op_mode mode) t (exact k a b)).
Proof.
  intros Hk Hop t Ha Hb Hd. unfold emit_binop. rewrite (lower_binop_info _ _ _ _ Hk Hop). destruct (op_mode mode).
  - intros [= <-]. by apply wrap_arith_exec.
  - intros Hc. by apply check_arith_exec; [apply Hd|..].
  - intros Hc. by apply saturate_arith_exec; [apply Hd|..].
Qed.

End arith.

(** ** Division and remainder *)

Definition division_meaning (op : BinOpcode) (t : CTy) (a b : Z) : Outcome :=
  if b =? 0 then ErrValue ZeroDivisionError
  else
    let q := Z.quot a b in
    let result (z : Z) := OkValue (if is_mod op then Z.rem a b else z) in
    if in_range t q then result q
    else if is_checked_division op then ErrValue OverflowError
    else result (if is_wrap_division op then wrap t q else clamp t q).

Definition is_division (op : BinOpcode) : bool :=
  match op with Div | Mod | DivWrap | DivSaturate | ModWrap | ModSaturate => true | _ => false end.

(** The only quotient out of range is [MIN / -1]. *)
Lemma quot_range t a b : in_range t a = true -> in_range t b = true -> b <> 0 ->
  in_range t (Z.quot a b) = negb (signed t && (a =? tmin t) && (b =? -1)).
Proof.
  intros Ha Hb Hb0. destruct (signed t && (a =? tmin t) && (b =? -1)) eqn:Es.
  - apply andb_prop in Es as [Es ->%Z.eqb_eq]. apply andb_prop in Es as [Hs ->%Z.eqb_eq].
    change (-1) with (Z.opp 1). rewrite Z.quot_opp_r, Z.quot_1_r by lia. apply in_range_false. right.
    unfold tmin, tmax. rewrite Hs. lia.
  - simpl. apply in_range_spec in Ha, Hb. apply in_range_spec.
    pose proof (tmin_nonpos t). pose proof (tmax_pos t).
    assert (Hq : Z.abs (Z.quot a b) <= Z.abs a) by (rewrite <- Z.quot_abs by done; apply Z.quot_le_upper_bound; nia).
    destruct (signed t) eqn:Hs; simpl in Es.
    + assert (Hm : tmin t + tmax t = -1) by (unfold tmin, tmax; rewrite Hs; lia).
      destruct (Z.eqb_spec a (tmin t)) as [->|Hne]; [|lia]. simpl in Es. apply Z.eqb_neq in Es.
      destruct (decide (b = 1)) as [->|Hb1]; [rewrite Z.quot_1_r; lia|].
      assert (Z.abs (Z.quot (tmin t) b) * 2 <= Z.abs (tmin t)).
      { rewrite <- Z.quot_abs by done. pose proof (Z.mul_quot_le (Z.abs (tmin t)) (Z.abs b)). nia. }
      unfold tmin in *. rewrite Hs in *. lia.
    + assert (tmin t = 0) by (unfold tmin; by rewrite Hs).
      pose proof (Z.quot_pos a b). lia.
Qed.

Lemma rem_range t a b : in_range t a = true -> b <> 0 -> in_range t (Z.rem a b) = true.
Proof.
  rewrite !in_range_spec. intros Ha Hb. pose proof (tmin_nonpos t). pose proof (tmax_pos t).
  assert (Z.abs (Z.rem a b) <= Z.abs a).
  { rewrite <- Z.rem_abs by done. pose proof (Z.rem_le (Z.abs a) (Z.abs b)). lia. }
  destruct (Z.le_gt_cases 0 a).
  - pose proof (Z.rem_nonneg a b Hb). lia.
  - pose proof (Z.rem_nonpos a b Hb). lia.
Qed.

Lemma divide_eval op t a b : in_range t a = true -> in_range t b = true -> b <> 0 ->
  in_range t (Z.quot a b) = true ->
  let z := if is_mod op then Z.rem a b else Z.quot a b in
  eval (operands t a b) (EBin (if is_mod op then CMod else CDiv) (EVar VL) (EVar VR)) = Some z /\ in_range t z = true.
Proof.
  intros Ha Hb Hb0 Hq z. pose proof (promote_contains t) as Hp.
  assert (Hqp : in_range (promote t) (Z.quot a b) = true) by by apply (contains_range _ t).
  subst z. destruct (is_mod op); simpl; rewrite common_same, !(wrap_contains (promote t) t) by done; simpl;
    apply Z.eqb_neq in Hb0 as Eb; rewrite Eb.
  - rewrite Hqp. split; [done|]. by apply rem_range.
  - split; [|done]. unfold fits. rewrite Hqp. destruct (signed (promote t)); [done|]. by rewrite wrap_id.
Qed.

(** A test of the operands against two constants. *)
Lemma operand_eq_eval t a b v x e c : eval (operands t a b) e = Some c ->
  operands t a b v = (t, x) -> in_range t x = true -> in_range t c = true ->
  contains (common t (typ (operands t a b) e)) t = true ->
  eval (operands t a b) (ECmp CEq (EVar v) e) = Some (Z.b2z (x =? c)).
Proof.
  intros Ee Ev Hx Hc Ht. apply (cmp_eval _ CEq); [cbn [eval]; by rewrite Ev|done| |];
    cbn [typ]; rewrite Ev; by apply (contains_range _ t).
Qed.

Lemma operand_zero_eval t a b v x : operands t a b v = (t, x) -> in_range t x = true ->
  eval (operands t a b) (ECmp CEq (EVar v) (EConst int 0)) = Some (Z.b2z (x =? 0)).
Proof.
  intros Ev Hx. apply operand_eq_eval; [done|done|done|apply in_range_0|]. by destruct t as [[] []].
Qed.

Lemma operand_minus_one_eval t a b v x : signed t = true -> operands t a b v = (t, x) -> in_range t x = true ->
  eval (operands t a b) (ECmp CEq (EVar v) (EConst int (-1))) = Some (Z.b2z (x =? -1)).
Proof.
  intros Hs Ev Hx. apply operand_eq_eval; [done|done|done| |]; destruct t as [[] []]; try done.
Qed.

Section division.
Context `{Target} `{Toolchain}.

(** The test for [MIN / -1]. *)
Lemma division_special_eval s min_expr max_expr a b : let t := scalar_c_type s in
  int_min_max_bit_pattern s = (min_expr, max_expr) -> signed t = true ->
  in_range t a = true -> in_range t b = true ->
  eval (operands t a b) (EAnd (ECmp CEq (EVar VL) (ECast t min_expr)) (ECmp CEq (EVar VR) (EConst int (-1)))) =
    Some (Z.b2z ((a =? tmin t) && (b =? -1))).
Proof.
  intros t Hlim Hs Ha Hb. pose proof (limits_eval s (operands t a b)) as Hl. rewrite Hlim in Hl.
  destruct Hl as [Emin _]. fold t in Emin.
  assert (E1 : eval (operands t a b) (ECmp CEq (EVar VL) (ECast t min_expr)) = Some (Z.b2z (a =? tmin t))).
  { apply operand_eq_eval; [|done|done|apply tmin_range|].
    - cbn [eval]. rewrite Emin. simpl. by rewrite wrap_id by apply tmin_range.
    - cbn [typ]. rewrite common_same. apply promote_contains. }
  pose proof (operand_minus_one_eval t a b VR b Hs eq_refl Hb) as E2.
  cbn [eval] in E1, E2 |- *. rewrite E1, E2. by destruct (a =? tmin t), (b =? -1).
Qed.

Definition special_result (op : BinOpcode) (t : CTy) : Outcome :=
  if is_checked_division op then ErrValue OverflowError
  else OkValue (if is_mod op then 0 else if is_wrap_division op then tmin t else tmax t).

Lemma division_meaning_special op t a : signed t = true -> a = tmin t ->
  in_range t a = true -> division_meaning op t a (-1) = special_result op t.
Proof.
  intros Hs -> Ha. unfold division_meaning, special_result.
  rewrite quot_range, Hs, !Z.eqb_refl by (done || by destruct t as [[] []]). simpl.
  assert (Hm : tmin t + tmax t = -1) by (unfold tmin, tmax; rewrite Hs; lia).
  replace (tmin t ÷ -1) with (tmax t + 1) by (change (-1) with (Z.opp 1); rewrite Z.quot_opp_r, Z.quot_1_r; lia).
  rewrite clamp_high by lia.
  assert (Ew : wrap t (tmax t + 1) = tmin t).
  { apply wrap_unique; [apply tmin_range|]. exists (-1). rewrite range_modulus. lia. }
  rewrite Ew. replace (Z.rem (tmin t) (-1)) with 0 by (change (-1) with (Z.opp 1); by rewrite Z.rem_opp_r, Z.rem_1_r).
  by destruct (is_checked_division op), (is_mod op).
Qed.

Lemma exec_divide op t a b : in_range t a = true -> in_range t b = true -> b <> 0 ->
  in_range t (Z.quot a b) = true ->
  exec (operands t a b) (SOk t (EBin (if is_mod op then CMod else CDiv) (EVar VL) (EVar VR))) =
    Some (division_meaning op t a b).
Proof.
  intros Ha Hb Hb0 Hq. destruct (divide_eval op t a b Ha Hb Hb0 Hq) as [E1 E2].
  rewrite (exec_ok _ _ _ _ E1 E2). unfold division_meaning. apply Z.eqb_neq in Hb0. by rewrite Hb0, Hq.
Qed.

(** C23: the code of [//] and [%] never runs an undefined C division: a zero
    divisor is [ZeroDivisionError] in every mode, and [MIN / -1] is
    [OverflowError], [MIN] or [MAX] (its remainder [OverflowError] or 0) as the
    mode says; otherwise the result truncates towards zero. *)
Theorem division_emitted_correct op s a b code : is_division op = true ->
  let t := scalar_c_type s in
  in_range t a = true -> in_range t b = true -> emit_binop op (Int s) = Some code ->
  exec (operands t a b) code = Some (division_meaning op t a b).
Proof.
  intros Hop t Ha Hb Hc. assert (E0 : emit_int_division op s = Some code) by by destruct op. clear Hc.
  unfold emit_int_division in E0. pose proof (signed_to_unsigned_spec s) as Hu. fold t in E0, Hu.
  pose proof (operand_zero_eval t a b VR b eq_refl Hb) as Ez.
  destruct (Z.eqb_spec b 0) as [->|Hb0].
  { destruct (signed_to_unsigned s) as [u|] eqn:Es.
    - rewrite (signed_min_max_spec s u Es) in E0. destruct (int_min_max_bit_pattern s). injection E0 as <-.
      by rewrite (exec_test _ _ _ _ _ Ez).
    - injection E0 as <-. by rewrite (exec_test _ _ _ _ _ Ez). }
  destruct (signed_to_unsigned s) as [u|] eqn:Es.
  - destruct Hu as (Hs & _). rewrite (signed_min_max_spec s u Es) in E0.
    pose proof (limits_eval s (operands t a b)) as Hl.
    destruct (int_min_max_bit_pattern s) as [min_expr max_expr] eqn:Elim. injection E0 as <-.
    rewrite (exec_test _ _ _ _ _ Ez).
    rewrite (exec_test _ _ _ _ _ (division_special_eval s min_expr max_expr a b Elim Hs Ha Hb)).
    fold t. destruct ((a =? tmin t) && (b =? -1)) eqn:Esp.
    + apply andb_prop in Esp as [->%Z.eqb_eq ->%Z.eqb_eq].
      rewrite division_meaning_special by done. unfold special_result. destruct Hl as [E1 E2].
      destruct (is_checked_division op); [done|].
      destruct (is_mod op), (is_wrap_division op); fold t in E1, E2; apply exec_ok; cbn [eval];
        rewrite ?E1, ?E2; simpl; rewrite ?wrap_id; auto using in_range_0, tmin_range, tmax_range.
    + apply exec_divide; [done|done|done|]. rewrite quot_range, Hs by done. simpl. by rewrite Esp.
  - destruct Hu as [Hs _]. injection E0 as <-. rewrite (exec_test _ _ _ _ _ Ez).
    apply exec_divide; [done|done|done|]. by rewrite quot_range, Hs.
Qed.
End division.

(** ** Negation *)

Definition neg_meaning (m : OpMode) (s : Stem) (t : CTy) (a : Z) : Outcome :=
  match m with
  | Wrap => if is_unsigned_stem s then Plain 0 else meaning Wrap t (- a)
  | _ => meaning m t (- a)
  end.

Section negation.
Context `{Target} `{Toolchain}.

Lemma neg_wrap_exec t b a : signed t = true -> in_range t a = true ->
  let ut := unsigned_of t in
  exec (operands t a b) (SAssign t (ECast t (EBin CSub (ECast ut (EConst int 0)) (ECast ut (EVar VL))))) =
    Some (Plain (wrap t (- a))).
Proof.
  intros Hs Ha ut.
  pose proof (unsigned_arith sub t (wrap ut 0) (wrap ut a) (wrap_range _ _) (wrap_range _ _)) as Hk.
  fold ut in Hk. simpl in *. rewrite common_same. destruct (fits _ _) as [z|]; simpl in *; [|done].
  destruct Hk as [_ Hz]. rewrite wrap_wrap_same, <- (wrap_wrap t ut z), Hz, wrap_wrap by done.
  do 2 f_equal. exact (wrap_exact t ut sub 0 a eq_refl).
Qed.

Lemma unsigned_neg_meaning m t a : signed t = false -> in_range t a = true -> m <> Wrap ->
  meaning m t (- a) = match m with Saturate => Plain 0 | _ => if a =? 0 then OkValue 0 else ErrValue OverflowError end.
Proof.
  intros Hs Ha Hm. apply in_range_spec in Ha. pose proof (tmax_pos t).
  assert (Hmin : tmin t = 0) by (unfold tmin; by rewrite Hs). destruct m; [done| |]; simpl.
  - destruct (Z.eqb_spec a 0) as [->|Hne]; [by rewrite in_range_0|].
    by rewrite (proj2 (in_range_false t (- a))) by lia.
  - unfold clamp. f_equal. lia.
Qed.

(** [-x] computes the negation, wrapped, checked or clamped, except that
    the wrapping negation of an unsigned integer is 0 whatever the operand. *)
Theorem neg_emitted m s a b : let t := scalar_c_type s in in_range t a = true ->
  (m <> Wrap -> detects sub t 0 a) ->
  exec (operands t a b) (emit_neg m s) = Some (neg_meaning m s t a).
Proof.
  intros t Ha Hd. unfold emit_neg, neg_meaning. pose proof (signed_to_unsigned_spec s) as Hu. fold t in Hu |- *.
  assert (Ez : eval (operands t a b) (ECast t (EConst int 0)) = Some 0).
  { simpl. by rewrite wrap_id by apply in_range_0. }
  destruct m.
  - destruct (signed_to_unsigned s) as [u|].
    + destruct Hu as (Hs & Eu & ->). rewrite Eu. by apply neg_wrap_exec.
    + destruct Hu as [_ ->]. apply exec_assign; [done|apply in_range_0].
  - rewrite (exec_overflow _ sub t _ _ 0 a) by (done || apply in_range_0 || by apply detects_exact; [apply Hd|apply in_range_0|]). by apply set_checked_exec.
  - destruct (is_unsigned_stem s) eqn:Us.
    + assert (Hs : signed t = false) by (unfold t; by rewrite stem_signed, Us).
      rewrite (unsigned_neg_meaning Saturate) by done. apply exec_assign; [done|apply in_range_0].
    + assert (Hs : signed t = true) by (unfold t; by rewrite stem_signed, Us).
      pose proof (fun env => limits_eval s env) as Hl. pose proof (fun env => limits_contain s env) as Hc.
      destruct (int_min_max_bit_pattern s) as [min_c max_c]. fold t in Hl, Hc.
      rewrite (exec_overflow _ sub t _ _ 0 a) by (done || apply in_range_0 || by apply detects_exact; [apply Hd|apply in_range_0|]).
      assert (Hside : in_range t (- a) = false -> tmax t < - a).
      { intros Er%in_range_false. apply in_range_spec in Ha.
        assert (tmin t + tmax t = -1) by (unfold tmin, tmax; rewrite Hs; lia). lia. }
      change (exact sub 0 a) with (- a). generalize dependent (- a). intros z Hside.
      apply exec_assign; [|apply clamp_range]. set (env := set VOverflow _ _ _).
      destruct (Hl env) as [_ Emax]. destruct (Hc env) as (_ & _ & Hc2 & _).
      destruct (in_range t z) eqn:Er.
      * rewrite clamp_id by done. apply (cond_eval _ _ _ _ t 0); [exact Hc2|done|done|]. simpl. by rewrite wrap_id.
      * rewrite clamp_high by auto. by apply (cond_eval _ _ _ _ t 1); [exact Hc2|apply tmax_range| |].
Qed.
End negation.

(** ** Conversions *)

Section casts.
Context `{Target} `{Toolchain}.

(** Every value of the source fits the wide type it is compared in, and so do
    the bounds of the target. *)
Lemma wide_contains source : contains (wide_ctype source) (scalar_c_type source) = true.
Proof. destruct H as [[] []], source; by vm_compute. Qed.

Lemma wide_promote source : promote (wide_ctype source) = wide_ctype source.
Proof. destruct H as [[] []], source; by vm_compute. Qed.

Lemma wideuint_max target : in_range wideuint (tmax (scalar_c_type target)) = true.
Proof. destruct H as [[] []], target; by vm_compute. Qed.

Lemma wideint_bounds target : target <> U128 ->
  in_range wideint (tmin (scalar_c_type target)) = true /\
  (target <> U64 -> target <> Usize -> in_range wideint (tmax (scalar_c_type target)) = true).
Proof. destruct H as [[] []], target; done. Qed.

Lemma wideint_nonneg a : 0 <= a -> in_range wideint a = true -> in_range wideuint a = true.
Proof. rewrite !in_range_spec. destruct H as [[] []]; unfold tmin, tmax; simpl; lia. Qed.

Lemma unsigned_tmin s : is_unsigned_stem s = true -> tmin (scalar_c_type s) = 0.
Proof. destruct H as [[] []], s; done. Qed.

(** The environment of the comparisons. *)
Definition wide_env (env : Env) (source : Stem) (a : Z) : Prop :=
  env VWide = (wide_ctype source, a) /\ in_range (scalar_c_type source) a = true.

Lemma wide_cmp_eval env op source a e c : wide_env env source a -> eval env e = Some c ->
  typ env e = wide_ctype source -> in_range (wide_ctype source) c = true ->
  eval env (ECmp op (EVar VWide) e) = Some (compare op a c).
Proof.
  intros [Ew Ha] Ee Et Hc. apply cmp_eval; [cbn [eval]; by rewrite Ew|done| |]; cbn [typ]; rewrite Ew, Et;
    cbn [fst]; rewrite common_same, wide_promote; [|done].
  apply (contains_range _ (scalar_c_type source)); [apply wide_contains|done].
Qed.

Lemma cast_const_eval env t e z : eval env e = Some z -> in_range t z = true -> eval env (ECast t e) = Some z.
Proof. intros E1 Hz. simpl. rewrite E1. simpl. by rewrite wrap_id. Qed.

Lemma lower_bound_eval env source target a : is_unsigned_stem source = false -> target <> U128 ->
  wide_env env source a ->
  eval env (cast_lower_bound source target) = Some (Z.b2z (a <? tmin (scalar_c_type target))).
Proof.
  intros Us Ht Hw. unfold cast_lower_bound. pose proof (limits_eval target env) as Hl.
  destruct (int_min_max_bit_pattern target) as [min_c max_c]. destruct Hl as [Emin _].
  assert (Hb : in_range (wide_ctype source) (tmin (scalar_c_type target)) = true).
  { unfold wide_ctype. rewrite Us. by apply wideint_bounds. }
  apply (wide_cmp_eval env CLt source); [done| |done|done]. by apply cast_const_eval.
Qed.

(** A negative value compared as unsigned has already failed the lower bound. *)
Lemma upper_bound_eval env source target a : (target = U128 -> source = U128) -> wide_env env source a ->
  exists u, eval env (cast_upper_bound source target) = Some (Z.b2z u) /\
    (tmin (scalar_c_type target) <= a -> u = (tmax (scalar_c_type target) <? a)).
Proof.
  intros Ht Hw. unfold cast_upper_bound. pose proof (limits_eval target env) as Hl.
  destruct (int_min_max_bit_pattern target) as [min_c max_c]. destruct Hl as [_ Emax].
  pose proof (wideuint_max target) as Hmax.
  destruct (negb (is_unsigned_stem source) && bool_decide (target = U64 \/ target = Usize)) eqn:Eb.
  - apply andb_prop in Eb as [Us Htt%bool_decide_eq_true]. apply negb_true_iff in Us.
    exists (tmax (scalar_c_type target) <? wrap wideuint a). split.
    + apply (cmp_eval env CGt); [|by apply cast_const_eval| |].
      * destruct Hw as [Ew _]. cbn [eval]. by rewrite Ew.
      * cbn [typ]. rewrite common_same. apply (contains_range _ wideuint); auto with cint.
      * cbn [typ]. rewrite common_same. by apply (contains_range _ wideuint); auto with cint.
    + intros Hle. rewrite wrap_id; [done|]. destruct Hw as [_ Ha].
      assert (Hmin : tmin (scalar_c_type target) = 0) by by destruct Htt as [-> | ->].
      pose proof (wide_contains source) as Hwc. unfold wide_ctype in Hwc. rewrite Us in Hwc.
      apply wideint_nonneg; [lia|]. by apply (contains_range _ (scalar_c_type source)).
  - exists (tmax (scalar_c_type target) <? a). split; [|done].
    assert (Hb : in_range (wide_ctype source) (tmax (scalar_c_type target)) = true).
    { unfold wide_ctype. destruct (is_unsigned_stem source) eqn:Us; [done|]. simpl in Eb.
      apply bool_decide_eq_false in Eb. apply wideint_bounds; [|tauto|tauto].
      intros ->. specialize (Ht eq_refl) as ->. done. }
    apply (wide_cmp_eval env CGt source); [done| |done|done]. by apply cast_const_eval.
Qed.

(** The test of [_emit_cast] and [_emit_convert_check]. *)
Lemma cast_overflow_eval env source target a : (target = U128 -> source = U128) -> wide_env env source a ->
  eval env (cast_overflow source target) = Some (Z.b2z (negb (in_range (scalar_c_type target) a))).
Proof.
  intros Ht Hw. destruct (upper_bound_eval env source target a Ht Hw) as (u & Eu & Hu).
  unfold cast_overflow, in_range. destruct (is_unsigned_stem source) eqn:Us.
  - rewrite Eu. destruct Hw as [_ Ha]. apply in_range_spec in Ha. rewrite unsigned_tmin in Ha by done.
    pose proof (tmin_nonpos (scalar_c_type target)). rewrite Hu by lia. do 2 f_equal.
    destruct (Z.leb_spec (tmin (scalar_c_type target)) a); [|lia]. simpl. by rewrite Z.leb_antisym, negb_involutive.
  - assert (Hn : target <> U128) by (intros ->; by rewrite Ht in Us).
    pose proof (lower_bound_eval env source target a Us Hn Hw) as El.
    cbn [eval]. rewrite El. simpl. destruct (Z.ltb_spec a (tmin (scalar_c_type target))) as [Hlt|Hge]; simpl.
    + by rewrite (proj2 (Z.leb_gt _ _) Hlt).
    + rewrite Eu, (Hu Hge), (proj2 (Z.leb_le _ _) Hge). simpl. rewrite Z.leb_antisym.
      by destruct (tmax (scalar_c_type target) <? a).
Qed.

(** The converted value, once the test has passed. *)
Lemma set_checked_value env t a : env VL = (fst (env VL), a) ->
  env VOverflow = (int, Z.b2z (negb (in_range t a))) ->
  exec env (set_checked t (EVar VOverflow) (ECast t (EVar VL))) = Some (meaning Checked t a).
Proof.
  intros El Eo. unfold set_checked. rewrite (exec_test _ _ (negb (in_range t a))) by (simpl; by rewrite Eo).
  simpl. destruct (in_range t a) eqn:Er; [|done]. simpl. rewrite El. simpl. by rewrite !wrap_id by (rewrite ?wrap_id; done).
Qed.

Lemma range_check_exec source target a b : in_range (scalar_c_type source) a = true ->
  exec (operands (scalar_c_type source) a b) (emit_range_check source target) =
    Some (meaning Checked (scalar_c_type target) a).
Proof.
  intros Ha. unfold emit_range_check. set (t := scalar_c_type target).
  destruct (bool_decide (target = U128) && negb (bool_decide (source = U128))) eqn:Eb.
  - apply andb_prop in Eb as [->%bool_decide_eq_true _].
    assert (Hr : in_range t a = (0 <=? a)).
    { unfold t, in_range. rewrite (unsigned_tmin U128) by done.
      pose proof (contains_range _ _ _ (wide_contains source) Ha) as Hw. apply in_range_spec in Hw.
      assert (tmax (wide_ctype source) <= tmax wideuint) by (apply Z.leb_le; destruct H as [[] []], source; by vm_compute).
      destruct (Z.leb_spec 0 a); [|done]. simpl. apply Z.leb_le. unfold scalar_c_type. lia. }
    destruct (is_unsigned_stem source) eqn:Us.
    + apply in_range_spec in Ha as Ha'. rewrite unsigned_tmin in Ha' by done.
      assert (Hra : in_range t a = true) by (rewrite Hr; apply Z.leb_le; lia).
      simpl meaning. rewrite Hra. apply exec_ok; [|done]. simpl. by rewrite wrap_id.
    + assert (Hs : signed (scalar_c_type source) = true) by by rewrite stem_signed, Us.
      pose proof (sign_cmp_eval CLt (operands (scalar_c_type source) a b) VL _ a Hs eq_refl Ha) as Ec.
      rewrite (exec_declare _ _ _ _ _ _ Ec) by apply b2z_int.
      apply set_checked_value; [done|]. cbv beta iota delta [set compare]. rewrite Hr, Z.leb_antisym.
      by rewrite negb_involutive.
  - assert (Ht : target = U128 -> source = U128).
    { intros ->. by destruct (bool_decide_reflect (source = U128)). }
    rewrite (exec_declare _ _ _ _ a); [| |apply (contains_range _ (scalar_c_type source)); [apply wide_contains|done]].
    2: { simpl. by rewrite (wrap_contains _ _ _ (wide_contains source) Ha). }
    set (env := set VWide _ _ _). assert (Hw : wide_env env source a) by done.
    rewrite (exec_declare _ _ _ _ _ _ (cast_overflow_eval env source target a Ht Hw)) by apply b2z_int.
    by apply set_checked_value.
Qed.

Lemma saturate_cast_exec source target a b : in_range (scalar_c_type source) a = true ->
  exec (operands (scalar_c_type source) a b) (emit_cast Saturate source target) =
    Some (meaning Saturate (scalar_c_type target) a).
Proof.
  intros Ha. unfold emit_cast. set (t := scalar_c_type target).
  pose proof (fun env => limits_eval target env) as Hl. pose proof (fun env => limits_contain target env) as Hc.
  destruct (int_min_max_bit_pattern target) as [min_c max_c]. fold t in Hl, Hc.
  assert (Hv : forall env, snd (env VL) = a -> eval env (ECast t (EVar VL)) = Some (wrap t a)).
  { intros env El. simpl. by rewrite El. }
  destruct (bool_decide (target = U128) && negb (bool_decide (source = U128))) eqn:Eb.
  - apply andb_prop in Eb as [->%bool_decide_eq_true _].
    pose proof (unsigned_tmin U128 eq_refl) as Hmin. fold t in Hmin.
    assert (Hhi : a <= tmax t).
    { pose proof (contains_range _ _ _ (wide_contains source) Ha) as Hw. apply in_range_spec in Hw.
      assert (tmax (wide_ctype source) <= tmax wideuint)
        by (apply Z.leb_le; destruct H as [[] []], source; by vm_compute).
      unfold t, scalar_c_type. lia. }
    set (env := operands _ a b). destruct (Hl env) as [Emin _]. destruct (Hc env) as (_ & Hc1 & _).
    destruct (is_unsigned_stem source) eqn:Us.
    + apply in_range_spec in Ha as Ha'. rewrite unsigned_tmin in Ha' by done.
      assert (Hra : in_range t a = true) by (apply in_range_spec; lia).
      simpl meaning. rewrite clamp_id by done. apply exec_assign; [|done]. by rewrite Hv, wrap_id.
    + assert (Hs : signed (scalar_c_type source) = true) by by rewrite stem_signed, Us.
      pose proof (sign_cmp_eval CLt env VL _ a Hs eq_refl Ha) as Ec. unfold compare in Ec.
      apply exec_assign; [|apply clamp_range]. apply (cond_test _ _ (a <? 0) _ _ t); [done|apply clamp_range|done|].
      destruct (Z.ltb_spec a 0).
      * by rewrite clamp_low by lia.
      * rewrite (Hv env eq_refl), clamp_id by (apply in_range_spec; lia). by rewrite wrap_id by (apply in_range_spec; lia).
  - assert (Ht : target = U128 -> source = U128).
    { intros ->. by destruct (bool_decide_reflect (source = U128)). }
    rewrite (exec_declare _ _ _ _ a); [| |apply (contains_range _ (scalar_c_type source)); [apply wide_contains|done]].
    2: { simpl. by rewrite (wrap_contains _ _ _ (wide_contains source) Ha). }
    set (env := set VWide _ _ _). assert (Hw : wide_env env source a) by done.
    destruct (Hl env) as [Emin Emax]. destruct (Hc env) as (_ & _ & Hc2 & _ & Hc4).
    destruct (upper_bound_eval env source target a Ht Hw) as (u & Eu & Hu). fold t in Hu.
    assert (Ehi : tmin t <= a -> eval env (ECond (cast_upper_bound source target) max_c (ECast t (EVar VL))) = Some (clamp t a)).
    { intros Hlo. apply (cond_test _ _ u _ _ t); [done|apply clamp_range|done|]. rewrite (Hu Hlo).
      destruct (Z.ltb_spec (tmax t) a).
      - by rewrite clamp_high by lia.
      - rewrite Hv, clamp_id, wrap_id by (done || apply in_range_spec; lia). done. }
    apply exec_assign; [|apply clamp_range]. destruct (is_unsigned_stem source) eqn:Us.
    + apply Ehi. destruct Hw as [_ Hw]. apply in_range_spec in Hw. rewrite unsigned_tmin in Hw by done.
      pose proof (tmin_nonpos t). lia.
    + assert (Hn : target <> U128) by (intros ->; by rewrite Ht in Us).
      pose proof (lower_bound_eval env source target a Us Hn Hw) as El. fold t in El.
      apply (cond_test _ _ (a <? tmin t) _ _ t); [done|apply clamp_range|done|].
      destruct (Z.ltb_spec a (tmin t)).
      * by rewrite clamp_low by lia.
      * by apply Ehi.
Qed.

(** C24: a conversion between integer types, in every mode and on every
    target: [T( x )] keeps the low bits when it does not narrow and wraps,
    checks or clamps when it does, as the mode says; [x.to_T()] succeeds exactly
    on the values the target type has. *)
Theorem conversions_correct mode source target a b : let ts := scalar_c_type source in
  let t := scalar_c_type target in
  in_range ts a = true ->
  exec (operands ts a b) (emit_unop (lower_scalar_cast mode source target) source target) =
    Some (meaning (if scalar_bits source <=? scalar_bits target then Wrap else op_mode mode) t a) /\
  exec (operands ts a b) (emit_unop ConvertCheck source target) = Some (meaning Checked t a).
Proof.
  intros ts t Ha. split; [|by apply range_check_exec].
  assert (Hwrap : exec (operands ts a b) (emit_cast Wrap source target) = Some (meaning Wrap t a)).
  { unfold emit_cast. destruct (int_min_max_bit_pattern target). apply exec_assign; [done|apply wrap_range]. }
  assert (Hcheck : exec (operands ts a b) (emit_cast Checked source target) = Some (meaning Checked t a)).
  { unfold emit_cast. destruct (int_min_max_bit_pattern target). by apply range_check_exec. }
  unfold lower_scalar_cast. destruct (scalar_bits source <=? scalar_bits target); [done|].
  destruct mode; [done|done|by apply saturate_cast_exec|done].
Qed.

End casts.

(** ** Left shift *)

(** Where the emitted shift is defined: the count is below the width of the
    type it is computed in, which for 8 and 16 bits is [int], and the result
    of a shift in [int] fits it. *)
Definition shl_defined (t : CTy) (a b : Z) : bool :=
  let u := unsigned_of t in
  let p := promote u in
  (0 <=? b) && (b <? bits (width p)) && (negb (signed p) || in_range p (wrap u a * 2 ^ b)).

Definition shl_meaning (m : OpMode) (t : CTy) (a b : Z) : Outcome :=
  match m with
  | Saturate => Plain (if in_range t (a * 2 ^ b) then a * 2 ^ b else tmax t)
  | _ => meaning m t (a * 2 ^ b)
  end.

(** Shifting back recovers the operand exactly when nothing was lost. *)
Lemma shift_back t a b : 0 <= b -> in_range t a = true ->
  (Z.shiftr (wrap t (a * 2 ^ b)) b =? a) = in_range t (a * 2 ^ b).
Proof.
  intros Hb Ha. rewrite Z.shiftr_div_pow2 by done. pose proof (Z.pow_pos_nonneg 2 b) as Hp.
  destruct (in_range t (a * 2 ^ b)) eqn:Er.
  - rewrite wrap_id, Z.div_mul by (done || lia). apply Z.eqb_refl.
  - apply Z.eqb_neq. intros Ea. assert (in_range t (a * 2 ^ b) = true); [|congruence]. clear Er.
    set (n := bits (width t)). assert (Hn : 0 <= n) by (unfold n; destruct (width t); done).
    destruct (Z.le_gt_cases n b) as [Hnb|Hnb].
    + assert (E0 : wrap t (a * 2 ^ b) = 0).
      { apply wrap_unique; [apply in_range_0|]. exists (- (a * 2 ^ (b - n))). unfold modulus. fold n.
        replace (2 ^ b) with (2 ^ (b - n) * 2 ^ n) by (rewrite <- Z.pow_add_r by lia; f_equal; lia). lia. }
      rewrite E0, Z.div_0_l in Ea by lia. subst a. apply in_range_0.
    + destruct (wrap_shift t (a * 2 ^ b)) as [k Ek]. assert (Ek' : k * 2 ^ (n - b) = 0).
      { rewrite Ek in Ea. unfold modulus in Ea. fold n in Ea.
        replace (2 ^ n) with (2 ^ (n - b) * 2 ^ b) in Ea by (rewrite <- Z.pow_add_r by lia; f_equal; lia).
        rewrite Z.mul_assoc, <- Z.mul_add_distr_r, Z.div_mul in Ea by lia. lia. }
      assert (k = 0) as -> by (pose proof (Z.pow_pos_nonneg 2 (n - b)); nia).
      rewrite Z.mul_0_l, Z.add_0_r in Ek. rewrite <- Ek. apply wrap_range.
Qed.

Section shifts.
Context `{Target} `{Toolchain}.

(** The unsigned shift, converted back. *)
Lemma unsigned_shl t a b : let u := unsigned_of t in
  match arith CShl (promote u) (wrap u a) b with
  | None => shl_defined t a b = false
  | Some z => shl_defined t a b = true /\ wrap t z = wrap t (a * 2 ^ b)
  end.
Proof.
  intros u. unfold shl_defined. fold u. simpl arith.
  destruct ((0 <=? b) && (b <? bits (width (promote u)))) eqn:Eb; [|done].
  apply andb_prop in Eb as [Hb _]. apply Z.leb_le in Hb.
  pose proof (wrap_range u a) as Hu. apply in_range_spec in Hu. simpl in Hu.
  assert (Hcongr : wrap t (wrap u a * 2 ^ b) = wrap t (a * 2 ^ b)).
  { apply wrap_congr. destruct (wrap_shift u a) as [k ->]. exists (k * 2 ^ b). unfold modulus, u. simpl. lia. }
  destruct (bits (width u) <? 32) eqn:Ew.
  - rewrite (promote_narrow u Ew). simpl.
    destruct (Z.leb_spec 0 (wrap u a)); [|unfold tmin in Hu; simpl in Hu; lia]. simpl.
    by destruct (in_range int (wrap u a * 2 ^ b)).
  - rewrite (promote_wide u Ew). simpl. split; [done|].
    by rewrite (wrap_wrap t u) by done.
Qed.

Lemma shl_expr_eval s a b : let t := scalar_c_type s in in_range t a = true ->
  wrap t <$> eval (operands t a b) (shl_expr s) = if shl_defined t a b then Some (wrap t (a * 2 ^ b)) else None.
Proof.
  intros t Ha. pose proof (unsigned_shl t a b) as Hs. cbv zeta in Hs. pose proof (signed_to_unsigned_spec s) as Hu.
  unfold shl_expr. fold t in Hu |- *. destruct (signed_to_unsigned s) as [u|].
  - destruct Hu as (_ & Eu & _). rewrite Eu. cbn [eval typ operands snd]. cbn [mbind option_bind fmap option_fmap option_map].
    destruct (arith CShl _ _ _) as [z|]; simpl; [|by rewrite Hs]. destruct Hs as [-> Hz]. by rewrite wrap_wrap_same, Hz.
  - destruct Hu as [Hsg _]. assert (Et : unsigned_of t = t) by (destruct t; simpl in *; by subst).
    rewrite Et, (wrap_id t a Ha) in Hs. cbn [eval typ operands snd fst]. cbn [mbind option_bind].
    destruct (arith CShl _ _ _) as [z|]; simpl; [|by rewrite Hs]. destruct Hs as [-> Hz]. by rewrite Hz.
Qed.

Lemma shl_overflow_eval t a b env : shl_defined t a b = true -> in_range t a = true ->
  env VL = (t, a) -> env VR = (t, b) -> env VTmp = (t, wrap t (a * 2 ^ b)) ->
  eval env shl_overflow = Some (Z.b2z (negb (in_range t (a * 2 ^ b)))).
Proof.
  intros Hd Ha El Er Et. unfold shl_defined in Hd. apply andb_prop in Hd as [Hd _].
  assert (Hb : 0 <= b) by (apply andb_prop in Hd as [Hb _]; lia).
  rewrite <- shift_back by done.
  assert (Hw : width (promote (unsigned_of t)) = width (promote t)).
  { unfold promote, unsigned_of. simpl. by destruct (bits (width t) <? 32). }
  rewrite Hw in Hd. unfold shl_overflow.
  assert (E1 : eval env (EBin CShr (EVar VTmp) (EVar VR)) = Some (Z.shiftr (wrap t (a * 2 ^ b)) b)).
  { cbn [eval typ]. rewrite Er, Et. cbn [fst snd mbind option_bind arith]. by rewrite Hd. }
  assert (Ht : common (promote t) t = promote t) by by destruct t as [[] []].
  rewrite (cmp_eval env CNe _ _ _ a E1); [done|cbn [eval]; by rewrite El| |]; cbn [typ]; rewrite Et, El; cbn [fst];
    rewrite Ht; apply (contains_range _ t); auto with cint.
  pose proof (wrap_range t (a * 2 ^ b)) as Hr. apply in_range_spec in Hr. apply in_range_spec.
  rewrite Z.shiftr_div_pow2 by done. pose proof (Z.pow_pos_nonneg 2 b).
  pose proof (tmin_nonpos t). pose proof (tmax_pos t). set (w := wrap t (a * 2 ^ b)) in *. split.
  - apply Z.div_le_lower_bound; nia.
  - destruct (Z.le_gt_cases 0 w).
    + transitivity w; [apply Z.div_le_upper_bound; nia|lia].
    + assert (w / 2 ^ b <= 0) by (apply Z.div_le_upper_bound; lia). lia.
Qed.

(** Where the emitted shift is defined, it gives [x * 2^n] wrapped, checked
    or, when it does not fit, the type's maximum even for a negative [x];
    elsewhere (a count past the width, or a large one on 8 or 16 bits) the
    code is undefined in every mode: no count is checked. *)
Theorem shl_emitted m s a b : let t := scalar_c_type s in in_range t a = true ->
  exec (operands t a b) (emit_shl m s) = if shl_defined t a b then Some (shl_meaning m t a b) else None.
Proof.
  intros t Ha. pose proof (shl_expr_eval s a b Ha) as Es. fold t in Es. unfold emit_shl. fold t.
  pose proof (fun env => limits_eval s env) as Hl. pose proof (fun env => limits_contain s env) as Hc.
  destruct (int_min_max_bit_pattern s) as [min_c max_c]. fold t in Hl, Hc.
  destruct (eval (operands t a b) (shl_expr s)) as [z|] eqn:Ee; destruct (shl_defined t a b) eqn:Ed; try done.
  2: { destruct m; cbn [exec]; by rewrite Ee. }
  injection Es as Ez. destruct m.
  - cbn [exec]. rewrite Ee. simpl. by rewrite Ez.
  - cbn [exec]. rewrite Ee. cbn [mbind option_bind]. rewrite Ez.
    rewrite (shl_overflow_eval t a b) by done. cbn [mbind option_bind]. rewrite wrap_id by apply b2z_int.
    by apply set_checked_exec.
  - cbn [exec]. rewrite Ee. cbn [mbind option_bind]. rewrite Ez.
    rewrite (shl_overflow_eval t a b) by done. cbn [mbind option_bind]. rewrite wrap_id by apply b2z_int.
    set (env := set VOverflow _ _ _). destruct (Hl env) as [_ Emax]. destruct (Hc env) as (_ & _ & Hc2 & _).
    assert (Hr : in_range t (if in_range t (a * 2 ^ b) then a * 2 ^ b else tmax t) = true).
    { destruct (in_range t (a * 2 ^ b)) eqn:Er; [done|apply tmax_range]. }
    assert (Eo : eval env (EVar VOverflow) = Some (Z.b2z (negb (in_range t (a * 2 ^ b))))) by done.
    assert (Et : eval env (EVar VTmp) = Some (wrap t (a * 2 ^ b))) by done.
    assert (Ety : typ env (EVar VTmp) = t) by done. clearbody env.
    apply exec_assign; [|exact Hr]. apply (cond_test _ _ (negb (in_range t (a * 2 ^ b))) _ _ t); [by rewrite Ety|exact Hr|exact Eo|].
    destruct (in_range t (a * 2 ^ b)) eqn:Er; simpl negb; cbv iota; [|done]. by rewrite Et, wrap_id.
Qed.

End shifts.

(** ** On a 64-bit GCC or clang target *)

Module gcc.
#[export] Instance target : Target := mkTarget true true.
#[export] Instance toolchain : Toolchain := GccClang.
End gcc.

#[local] Existing Instances gcc.target gcc.toolchain.

Lemma arith_emitted_correct_witness :
  (exists code, emit_binop AddSaturate (Int I8) = Some code /\
    exec (operands (mkCTy true W8) (-100) (-100)) code = Some (Plain (-128))) /\
  (exists code, emit_binop MulWrap (Int U16) = Some code /\
    exec (operands (mkCTy false W16) 65535 65535) code = None) /\
  (exists code, emit_binop MulCheck (Int I64) = Some code /\
    exec (H := Msvc) (operands (mkCTy true W64) (2 ^ 62) 2) code = Some (ErrValue OverflowError)).
Proof.
  split_and!; (eexists; split; [reflexivity|]).
  - by apply (arith_emitted_correct (H0 := GccClang) ArithmeticSaturate Add add AddSaturate I8 (-100) (-100) _ eq_refl eq_refl eq_refl eq_refl (fun _ => I)).
  - by apply (arith_emitted_correct (H0 := GccClang) ArithmeticWrap Mult mul MulWrap U16 65535 65535 _ eq_refl eq_refl eq_refl eq_refl (fun _ => I)).
  - apply (arith_emitted_correct (H0 := Msvc) ArithmeticChecked Mult mul MulCheck I64 (2 ^ 62) 2 _ eq_refl eq_refl eq_refl eq_refl); [|reflexivity].
    intros _. split; [discriminate|]. intros _ _. discriminate.
Defined.

Lemma division_emitted_correct_witness : exists code, emit_binop DivSaturate (Int I32) = Some code /\
  exec (operands (mkCTy true W32) (-2147483648) (-1)) code = Some (OkValue 2147483647).
Proof.
  eexists. split; [reflexivity|].
  by apply (division_emitted_correct DivSaturate I32 (-2147483648) (-1) _ eq_refl eq_refl eq_refl).
Defined.

Lemma neg_emitted_witness : exec (operands (mkCTy false W32) 1 0) (emit_neg Wrap U32) = Some (Plain 0).
Proof. by apply (neg_emitted Wrap U32 1 0). Defined.

Lemma conversions_correct_witness :
  exec (operands (mkCTy true W32) (-1) 0) (emit_unop (lower_scalar_cast ArithmeticChecked I32 U32) I32 U32) =
    Some (Plain 4294967295) /\
  exec (operands (mkCTy true W32) (-1) 0) (emit_unop ConvertCheck I32 U32) = Some (ErrValue OverflowError).
Proof. by apply (conversions_correct ArithmeticChecked I32 U32 (-1) 0). Defined.

Lemma shl_emitted_witness :
  exec (operands (mkCTy true W8) (-100) 1) (emit_shl Saturate I8) = Some (Plain 127) /\
  exec (operands (mkCTy false W32) 1 32) (emit_shl Checked U32) = None.
Proof. split; [by apply (shl_emitted Saturate I8 (-100) 1)|by apply (shl_emitted Checked U32 1 32)]. Defined.
