(* ===== verification/Bits.v ===== *)
(** * Fixed-width integers and bit strings of the library code

    What the library modules under [lib/] share: the wrap-around of their
    integer types, the panics of [unwrap] and of [panic_arithmetic], early
    return of a [Result], and bit strings, least significant bit first, as
    [bitstream.py] orders them. *)

From Stdlib Require Import Zbitwise.
From S2P Require Import Prelude RawList.

Local Open Scope Z_scope.

(** ** Integer types under [wrap_arithmetic] *)

Definition u8 (z : Z) : Z := z mod 2 ^ 8.
Definition u16 (z : Z) : Z := z mod 2 ^ 16.
Definition u32 (z : Z) : Z := z mod 2 ^ 32.
Definition i32 (z : Z) : Z := (z + 2 ^ 31) mod 2 ^ 32 - 2 ^ 31.
Definition i64 (z : Z) : Z := (z + 2 ^ 63) mod 2 ^ 64 - 2 ^ 63.

Definition is_byte (b : Z) : Prop := 0 <= b < 256.

Lemma u8_small z : 0 <= z < 256 -> u8 z = z.
Proof. apply Z.mod_small. Qed.

Lemma u16_small z : 0 <= z < 2 ^ 16 -> u16 z = z.
Proof. apply Z.mod_small. Qed.

Lemma u32_small z : 0 <= z < 2 ^ 32 -> u32 z = z.
Proof. apply Z.mod_small. Qed.

Lemma i32_small z : - 2 ^ 31 <= z < 2 ^ 31 -> i32 z = z.
Proof. intros Hz. unfold i32. rewrite Z.mod_small; lia. Qed.

Lemma u8_byte z : is_byte (u8 z).
Proof. unfold is_byte, u8. apply Z.mod_pos_bound. done. Qed.

(** ** Panics and early returns *)

(** [r.unwrap( msg )] *)
Definition unwrap {E A} (msg : string) (r : result E A) : result abort A :=
  match r with Ok a => Ok a | Err _ => Err (Panic msg) end.

(** A value computed under [panic_arithmetic], which must lie in [lo, hi]. *)
Definition in_panic (lo hi : Z) (msg : string) (z : Z) : result abort Z :=
  if (lo <=? z) && (z <=? hi) then Ok z else Err (Panic msg).

Abbreviation panic_u8 := (in_panic 0 255).
Abbreviation panic_i8 := (in_panic (-128) 127).
Abbreviation panic_i32 := (in_panic (- 2 ^ 31) (2 ^ 31 - 1)).
Abbreviation panic_i64 := (in_panic (- 2 ^ 63) (2 ^ 63 - 1)).
Abbreviation panic_u16 := (in_panic 0 (2 ^ 16 - 1)).
Abbreviation panic_u32 := (in_panic 0 (2 ^ 32 - 1)).

(** A [usize] difference under [panic_arithmetic]. *)
Definition panic_sub (msg : string) (a b : nat) : result abort nat :=
  if (b <=? a)%nat then Ok (a - b)%nat else Err (Panic msg).

(** [usize( i )] of an [i32], under [panic_arithmetic]. *)
Definition usize_of_i32 (i : Z) : result abort nat :=
  if i <? 0 then Err (Panic "usize of a negative value") else Ok (Z.to_nat i).

(** [( ... ).or_return()]: an [Err] of the callee is the caller's result. *)
Definition or_return {S E A B} (m : M S abort (result E A)) (k : A -> M S abort (result E B)) :
    M S abort (result E B) :=
  bind m (fun r => match r with Ok a => k a | Err e => ret (Err e) end).

Definition or_return_pure {E A B} (m : result abort (result E A)) (k : A -> result abort (result E B)) :
    result abort (result E B) :=
  match m with
  | Ok (Ok a) => k a
  | Ok (Err e) => Ok (Err e)
  | Err p => Err p
  end.

Notation "'let!' x ':=' m 'in' k" := (or_return m (fun x => k))
  (at level 10, x pattern, m at level 100, k at level 200) : monad_scope.
Notation "'let?!' x ':=' m 'in' k" := (or_return_pure m (fun x => k))
  (at level 10, x pattern, m at level 100, k at level 200) : monad_scope.

Lemma in_panic_ok lo hi msg z : lo <= z <= hi -> in_panic lo hi msg z = Ok z.
Proof. intros Hz. unfold in_panic. by rewrite !(proj2 (Z.leb_le _ _)) by lia. Qed.

Lemma in_panic_inv lo hi msg z r : in_panic lo hi msg z = Ok r -> r = z /\ lo <= z <= hi.
Proof.
  unfold in_panic. destruct (_ && _) eqn:E; [|done]. intros [= ->].
  apply andb_prop in E as [?%Z.leb_le ?%Z.leb_le]. done.
Qed.

Lemma usize_of_i32_ok i : 0 <= i -> usize_of_i32 i = Ok (Z.to_nat i).
Proof. intros Hi. unfold usize_of_i32. by rewrite (proj2 (Z.ltb_ge _ _)) by lia. Qed.

Lemma panic_sub_ok msg a b : (b <= a)%nat -> panic_sub msg a b = Ok (a - b)%nat.
Proof. intros Hb. unfold panic_sub. by rewrite (proj2 (Nat.leb_le _ _) Hb). Qed.

Lemma lift_ok {S E A B} (a : A) (k : A -> M S E B) s : bind (lift (Ok a)) k s = k a s.
Proof. done. Qed.

Lemma or_return_ok {S E A B} (m : M S abort (result E A)) (k : A -> M S abort (result E B)) s a s' :
  m s = (Ok (Ok a), s') -> or_return m k s = k a s'.
Proof. unfold or_return, bind. by intros ->. Qed.

Lemma or_return_err {S E A B} (m : M S abort (result E A)) (k : A -> M S abort (result E B)) s e s' :
  m s = (Ok (Err e), s') -> or_return m k s = (Ok (Err e), s').
Proof. unfold or_return, bind. by intros ->. Qed.

Lemma getitem_ok {A} i (l : list A) x msg : l !! i = Some x -> unwrap msg (list_getitem i l) = Ok x.
Proof. intros Hl. unfold list_getitem. by rewrite Hl. Qed.

Lemma setitem_ok {A} i (l : list A) x msg :
  (i < length l)%nat -> unwrap msg (list_setitem i x l) = Ok (<[i:=x]> l).
Proof. intros Hl. unfold list_setitem. by rewrite decide_True. Qed.

(** [ptr[ i ]] *)
Definition read_ptr (data : list Z) (i : nat) : result abort Z :=
  match data !! i with Some b => Ok b | None => Err Fault end.

Lemma read_ptr_ok data i : (i < length data)%nat -> exists b, read_ptr data i = Ok b /\ data !! i = Some b.
Proof. intros Hi. unfold read_ptr. destruct (lookup_lt_is_Some_2 data i Hi) as [b ->]. by exists b. Qed.

(** ** Bit strings, least significant bit first *)

Fixpoint bits_of (n : nat) (v : Z) : list bool :=
  match n with O => [] | S n => Z.odd v :: bits_of n (Z.div2 v) end.

Fixpoint value_of (l : list bool) : Z :=
  match l with [] => 0 | b :: l => Z.b2z b + 2 * value_of l end.

(** The bits of a byte string. *)
Definition byte_bits (data : list Z) : list bool := concat (map (bits_of 8) data).

Lemma length_bits_of n v : length (bits_of n v) = n.
Proof. revert v. induction n as [|n IH]; intros v; simpl; [done|]. by rewrite IH. Qed.

Lemma odd_div2 v : v = Z.b2z (Z.odd v) + 2 * Z.div2 v.
Proof. rewrite (Z.div2_odd v) at 1. unfold Z.b2z. lia. Qed.

Lemma pow2_S n : 2 ^ Z.of_nat (S n) = 2 * 2 ^ Z.of_nat n.
Proof. rewrite Nat2Z.inj_succ, Z.pow_succ_r by lia. done. Qed.

Lemma value_bits_of n v : value_of (bits_of n v) = v mod 2 ^ Z.of_nat n.
Proof.
  revert v. induction n as [|n IH]; intros v; [by rewrite Z.mod_1_r|].
  rewrite pow2_S. cbn [bits_of value_of]. rewrite IH, Z.rem_mul_r by lia.
  rewrite Zmod_odd, Z.div2_div. unfold Z.b2z. done.
Qed.

Lemma value_of_bound l : 0 <= value_of l < 2 ^ Z.of_nat (length l).
Proof.
  induction l as [|b l IH]; [done|]. cbn [length]. rewrite pow2_S. simpl. destruct b; simpl; lia.
Qed.

Lemma div2_b2z b x : Z.div2 (Z.b2z b + 2 * x) = x.
Proof. rewrite Z.div2_div. destruct b; simpl Z.b2z; Z.to_euclidean_division_equations; lia. Qed.

Lemma odd_b2z b x : Z.odd (Z.b2z b + 2 * x) = b.
Proof. rewrite Z.odd_add, Z.odd_mul. by destruct b. Qed.

Lemma bits_of_value l : bits_of (length l) (value_of l) = l.
Proof.
  induction l as [|b l IH]; [done|]. cbn [length bits_of value_of]. f_equal.
  - apply odd_b2z.
  - by rewrite div2_b2z.
Qed.

Lemma bits_of_add n m v : bits_of (n + m) v = bits_of n v ++ bits_of m (v / 2 ^ Z.of_nat n).
Proof.
  revert v. induction n as [|n IH]; intros v; [by rewrite Z.div_1_r|].
  cbn [Nat.add bits_of app]. f_equal. rewrite IH, pow2_S, Z.div2_div, Z.div_div by lia. done.
Qed.

Lemma bits_of_mod n m v : (n <= m)%nat -> bits_of n (v mod 2 ^ Z.of_nat m) = bits_of n v.
Proof.
  revert m v. induction n as [|n IH]; intros m v Hm; [done|].
  destruct m as [|m]; [lia|]. cbn [bits_of]. rewrite pow2_S, Z.rem_mul_r by lia.
  assert (v mod 2 = Z.b2z (Z.odd v)) as -> by by rewrite Zmod_odd.
  f_equal.
  - apply odd_b2z.
  - rewrite <- (IH m (Z.div2 v)) by lia. by rewrite div2_b2z, Z.div2_div.
Qed.

Lemma value_of_app a b : value_of (a ++ b) = value_of a + 2 ^ Z.of_nat (length a) * value_of b.
Proof.
  induction a as [|x a IH]; [simpl; lia|]. cbn [app length]. rewrite pow2_S. cbn [value_of]. rewrite IH. lia.
Qed.

Lemma bits_of_app n a b : length a = n -> bits_of n (value_of (a ++ b)) = a.
Proof.
  intros <-. rewrite value_of_app, Z.mul_comm. rewrite <- (bits_of_mod _ (length a)) by done.
  rewrite Z_mod_plus_full, Z.mod_small by apply value_of_bound. apply bits_of_value.
Qed.

(** Pending bits below a shifted field. *)
Lemma lor_shiftl a b k : 0 <= k -> 0 <= a < 2 ^ k -> Z.lor a (Z.shiftl b k) = a + b * 2 ^ k.
Proof.
  intros Hk Ha. rewrite Z.shiftl_mul_pow2 by done. rewrite Z.add_comm.
  assert (Hl : Z.land (b * 2 ^ k) a = 0).
  { apply Z.bits_inj'. intros n Hn. rewrite Z.land_spec, Z.bits_0.
    destruct (Z.lt_ge_cases n k) as [Hlt|Hge].
    - by rewrite Z.mul_pow2_bits_low.
    - destruct (Z.eq_dec a 0) as [->|]; [by rewrite Z.bits_0, andb_false_r|].
      rewrite (Z.bits_above_log2 a n); [by rewrite andb_false_r|lia|].
      apply Z.log2_lt_pow2; [lia|]. eapply Z.lt_le_trans; [apply Ha|]. apply Z.pow_le_mono_r; lia. }
  rewrite Z.lor_comm, <- (Z.add_lor_land (b * 2 ^ k) a), Hl. lia.
Qed.

Lemma bits_of_plus n m a b :
  0 <= a < 2 ^ Z.of_nat n -> bits_of (n + m) (a + b * 2 ^ Z.of_nat n) = bits_of n a ++ bits_of m b.
Proof.
  intros Ha. rewrite bits_of_add. f_equal.
  - by rewrite <- (bits_of_mod n n), Z_mod_plus_full, Z.mod_small by done.
  - by rewrite Z.div_add, Z.div_small, Z.add_0_l by lia.
Qed.

Lemma land_mask v n : 0 <= n -> Z.land v (2 ^ n - 1) = v mod 2 ^ n.
Proof. intros Hn. rewrite <- Z.land_ones by done. by rewrite Z.ones_equiv, Z.sub_1_r. Qed.

Lemma byte_bits_app a b : byte_bits (a ++ b) = byte_bits a ++ byte_bits b.
Proof. unfold byte_bits. by rewrite map_app, concat_app. Qed.

Lemma byte_bits_cons x a : byte_bits (x :: a) = bits_of 8 x ++ byte_bits a.
Proof. done. Qed.

Lemma length_byte_bits a : length (byte_bits a) = (8 * length a)%nat.
Proof.
  induction a as [|x a IH]; [done|]. rewrite byte_bits_cons, length_app, length_bits_of, IH. simpl; lia.
Qed.
