(* ===== verification/Bitstream.v ===== *)
(** * Bit-level I/O ([lib/bitstream.py])

    [BitWriter] and [BitReader] with their pending bits and their byte buffers.
    [written] and [unread] are the bit strings they stand for: every operation
    is proved to append to the one, or to take from the front of the other. *)

From S2P Require Import Prelude RawList Bits.

Local Open Scope Z_scope.
Local Open Scope monad_scope.

(** ** Writing *)

Record BitWriter := mkWriter {
  w_buf : list Z;
  w_used : nat;
  w_bitbuf : Z;
  w_bitcount : Z;
}.

Definition set_w_buf buf (w : BitWriter) := mkWriter buf (w_used w) (w_bitbuf w) (w_bitcount w).
Definition set_w_bits bitbuf bitcount (w : BitWriter) := mkWriter (w_buf w) (w_used w) bitbuf bitcount.

Abbreviation W A := (M BitWriter abort A).

Definition new_writer : BitWriter := mkWriter (replicate 64 0) 0 0 0.

(** [bytearray.resize]: the bytes it uncovers are zero. *)
Definition resize (new_size : nat) (l : list Z) : list Z :=
  take new_size l ++ replicate (new_size - length l) 0.

(** [buf.get_ptr()[ i ] = b] *)
Definition write_ptr (i : nat) (b : Z) (buf : list Z) : result abort (list Z) :=
  if decide (i < length buf)%nat then Ok (<[i:=b]> buf) else Err Fault.

Definition push_byte (b : Z) : W unit :=
  let* w := get in
  (if decide (w_used w = length (w_buf w))
   then modify (set_w_buf (resize (length (w_buf w) * 2) (w_buf w))) else ret tt) ;;;
  let* w := get in
  let* buf := lift (write_ptr (w_used w) b (w_buf w)) in
  modify (fun w => mkWriter buf (S (w_used w)) (w_bitbuf w) (w_bitcount w)).

(** [while self.__bitcount >= 8] *)
Fixpoint flush_bytes (fuel : nat) : W unit :=
  match fuel with
  | O => ret tt
  | S fuel =>
      let* w := get in
      if 8 <=? w_bitcount w then
        push_byte (u8 (Z.land (w_bitbuf w) 0xFF)) ;;;
        modify (fun w => set_w_bits (Z.shiftr (w_bitbuf w) 8) (u32 (w_bitcount w - 8)) w) ;;;
        flush_bytes fuel
      else ret tt
  end.

Definition write_bits (value nbits : Z) : W unit :=
  let mask := u32 (u32 (Z.shiftl 1 nbits) - 1) in
  modify (fun w => set_w_bits (Z.lor (w_bitbuf w) (u32 (Z.shiftl (Z.land value mask) (w_bitcount w))))
                              (u32 (w_bitcount w + nbits)) w) ;;;
  let* w := get in
  flush_bytes (Z.to_nat (w_bitcount w)).

Definition align_writer : W unit :=
  let* w := get in
  if 0 <? w_bitcount w then
    push_byte (u8 (Z.land (w_bitbuf w) 0xFF)) ;;;
    modify (set_w_bits 0 0)
  else ret tt.

Definition write_aligned_bytes (bytes : list Z) : W unit :=
  mfold (fun _ b => push_byte b) bytes tt.

Definition byte_len (w : BitWriter) : nat := w_used w.

Definition finish : W (list Z) :=
  align_writer ;;;
  modify (fun w => set_w_buf (resize (w_used w) (w_buf w)) w) ;;;
  let* w := get in
  modify (set_w_buf []) ;;;
  ret (w_buf w).

(** ** Reading *)

Record BitReader := mkReader {
  r_data : list Z;
  r_pos : nat;
  r_bitbuf : Z;
  r_bitcount : Z;
}.

Inductive BitstreamError := mkBitstreamError (message : string).

Abbreviation R A := (M BitReader abort A).

Definition set_r_bits bitbuf bitcount (r : BitReader) := mkReader (r_data r) (r_pos r) bitbuf bitcount.

Definition new_reader (data : list Z) : BitReader := mkReader data 0 0 0.

(** [while self.__bitcount < nbits] *)
Fixpoint pull_bytes (fuel : nat) (nbits : Z) : R (result BitstreamError unit) :=
  match fuel with
  | O => raise Fault
  | S fuel =>
      let* r := get in
      if r_bitcount r <? nbits then
        if decide (r_pos r = length (r_data r)) then
          ret (Err (mkBitstreamError "read_bits: unexpected end of stream"))
        else
          match r_data r !! r_pos r with
          | None => raise Fault
          | Some b =>
              modify (fun r => mkReader (r_data r) (S (r_pos r))
                (Z.lor (r_bitbuf r) (u32 (Z.shiftl b (r_bitcount r)))) (u32 (r_bitcount r + 8))) ;;;
              pull_bytes fuel nbits
          end
      else ret (Ok tt)
  end.

Definition read_bits (nbits : Z) : R (result BitstreamError Z) :=
  let! _ := pull_bytes (S (Z.to_nat nbits)) nbits in
  let mask := u32 (u32 (Z.shiftl 1 nbits) - 1) in
  let* r := get in
  let value := Z.land (r_bitbuf r) mask in
  modify (fun r => set_r_bits (Z.shiftr (r_bitbuf r) nbits) (u32 (r_bitcount r - nbits)) r) ;;;
  ret (Ok value).

Definition align_reader : R unit := modify (set_r_bits 0 0).

Definition read_aligned_bytes (count : nat) : R (result BitstreamError (list Z)) :=
  let* r := get in
  if (length (r_data r) <? r_pos r + count)%nat then
    ret (Err (mkBitstreamError "read_aligned_bytes: unexpected end of stream"))
  else
    modify (fun r => mkReader (r_data r) (r_pos r + count) (r_bitbuf r) (r_bitcount r)) ;;;
    ret (Ok (take count (drop (r_pos r) (r_data r)))).

Definition bits_remaining (r : BitReader) : Z :=
  Z.of_nat (length (r_data r) - r_pos r) * 8 + r_bitcount r.

(** ** The bit strings they stand for *)

Definition written (w : BitWriter) : list bool :=
  byte_bits (take (w_used w) (w_buf w)) ++ bits_of (Z.to_nat (w_bitcount w)) (w_bitbuf w).

Record writer_ok (w : BitWriter) : Prop := {
  wok_used : (w_used w <= length (w_buf w))%nat;
  wok_buf : w_buf w <> [];
  wok_bytes : Forall is_byte (take (w_used w) (w_buf w));
  wok_bitbuf : 0 <= w_bitbuf w < 2 ^ w_bitcount w;
  wok_bitcount : 0 <= w_bitcount w;
}.

(** Between calls. *)
Definition writer_idle (w : BitWriter) : Prop := writer_ok w /\ w_bitcount w < 8.

Definition unread (r : BitReader) : list bool :=
  bits_of (Z.to_nat (r_bitcount r)) (r_bitbuf r) ++ byte_bits (drop (r_pos r) (r_data r)).

Record reader_ok (r : BitReader) : Prop := {
  rok_pos : (r_pos r <= length (r_data r))%nat;
  rok_bytes : Forall is_byte (r_data r);
  rok_bitbuf : 0 <= r_bitbuf r < 2 ^ r_bitcount r;
  rok_bitcount : 0 <= r_bitcount r;
}.

(** Between calls. *)
Definition reader_idle (r : BitReader) : Prop := reader_ok r /\ r_bitcount r < 16.

(** ** What writing does *)

Definition bytes_of (w : BitWriter) : list Z := take (w_used w) (w_buf w).

Lemma push_byte_spec w b : writer_ok w -> is_byte b -> exists w',
  push_byte b w = (Ok tt, w') /\ writer_ok w' /\ bytes_of w' = bytes_of w ++ [b] /\
  w_bitbuf w' = w_bitbuf w /\ w_bitcount w' = w_bitcount w.
Proof.
  intros [Hu Hb Hf Hbuf Hc] Hby. unfold push_byte. autorewrite with monad.
  assert (exists w1, (if decide (w_used w = length (w_buf w))
     then modify (E := abort) (set_w_buf (resize (length (w_buf w) * 2) (w_buf w))) else ret tt) w = (Ok tt, w1) /\
     (w_used w < length (w_buf w1))%nat /\ take (w_used w) (w_buf w1) = take (w_used w) (w_buf w) /\
     w1 = set_w_buf (w_buf w1) w) as (w1 & E1 & Hlt & Htk & Hw1).
  { destruct (decide _) as [He|He].
    - eexists. split; [done|]. simpl. unfold resize. rewrite take_ge by lia.
      assert (w_buf w <> [] -> 0 < length (w_buf w))%nat as Hpos by (destruct (w_buf w); simpl; [done|lia]).
      specialize (Hpos Hb). rewrite length_app, length_replicate. split_and!; [lia| |done].
      rewrite He, take_app_length. by rewrite take_ge.
    - exists w. split_and!; [done|lia|done|]. by destruct w. }
  rewrite (bind_ok _ _ _ _ _ E1). autorewrite with monad.
  assert (w_used w1 = w_used w) as Hus by by rewrite Hw1. rewrite Hus.
  unfold write_ptr. rewrite decide_True by done. rewrite lift_ok.
  eexists. split; [done|]. unfold bytes_of. simpl. rewrite Hus.
  assert (Htake : take (S (w_used w)) (<[w_used w:=b]> (w_buf w1)) = take (w_used w) (w_buf w) ++ [b]).
  { rewrite (take_S_r _ _ b) by by apply list_lookup_insert_eq. by rewrite take_insert_ge, Htk. }
  split_and!; [|done|by rewrite Hw1|by rewrite Hw1].
  constructor; simpl; rewrite ?length_insert, ?Hus; [lia| | |by rewrite Hw1|by rewrite Hw1].
  - destruct (w_buf w1); simpl in *; [lia|]. by destruct (w_used w).
  - rewrite Htake. apply Forall_app. auto.
Qed.

(** The pending bits after a byte has been split off. *)
Lemma land_byte b : u8 (Z.land b 0xFF) = b mod 2 ^ 8.
Proof. change 0xFF with (2 ^ 8 - 1). rewrite land_mask by done. unfold u8. by rewrite Zmod_mod. Qed.

Lemma byte_bits_mod x : bits_of 8 (x mod 2 ^ 8) = bits_of 8 x.
Proof. by apply (bits_of_mod 8 8). Qed.

Lemma pow2_split a b : 0 <= a -> 0 <= b -> 2 ^ (a + b) = 2 ^ a * 2 ^ b.
Proof. apply Z.pow_add_r; lia. Qed.

Lemma flush_spec fuel : forall w, writer_ok w -> w_bitcount w < 8 * Z.of_nat fuel + 8 -> w_bitcount w < 2 ^ 32 ->
  exists w', flush_bytes fuel w = (Ok tt, w') /\ writer_idle w' /\ written w' = written w.
Proof.
  induction fuel as [|fuel IH]; intros w Hw Hf H32; cbn [flush_bytes].
  { exists w. split_and!; [done| |done]. split; [done|lia]. }
  autorewrite with monad. destruct (Z.leb_spec 8 (w_bitcount w)) as [H8|H8].
  2: { exists w. split_and!; [done| |done]. split; [done|lia]. }
  destruct (push_byte_spec w (u8 (Z.land (w_bitbuf w) 0xFF)) Hw (u8_byte _)) as (w1 & E1 & Hok1 & Hb1 & Hbb & Hbc).
  rewrite (bind_ok _ _ _ _ _ E1). autorewrite with monad.
  destruct Hw as [Hu Hb Hby Hbuf Hc]. destruct Hok1 as [Hu1 Hb1' Hby1 Hbuf1 Hc1].
  assert (Hc8 : w_bitcount w = 8 + (w_bitcount w - 8)) by lia.
  set (w2 := set_w_bits _ _ w1).
  assert (Hw2 : writer_ok w2 /\ w_bitcount w2 = w_bitcount w - 8 /\ w_bitbuf w2 = w_bitbuf w / 2 ^ 8).
  { subst w2. simpl. rewrite Hbb, Hbc, u32_small by lia. rewrite Z.shiftr_div_pow2 by lia.
    split_and!; [|done|done]. constructor; simpl; rewrite ?Hbc, ?Hbb, ?u32_small, ?Z.shiftr_div_pow2 by lia; try done; [|lia].
    rewrite Hc8, pow2_split in Hbuf by lia. split; [apply Z.div_pos; lia|apply Z.div_lt_upper_bound; lia]. }
  destruct Hw2 as (Hok2 & Hc2 & Hbb2).
  destruct (IH w2 Hok2) as (w' & E' & Hi' & Hwr'); [lia|lia|].
  exists w'. split_and!; [done|done|]. rewrite Hwr'. unfold written. rewrite Hc2, Hbb2.
  change (take (w_used w2) (w_buf w2)) with (bytes_of w1). change (take (w_used w) (w_buf w)) with (bytes_of w).
  rewrite Hb1, byte_bits_app, land_byte, <- app_assoc. f_equal. unfold byte_bits at 1. cbn [map concat].
  rewrite app_nil_r, byte_bits_mod.
  replace (Z.to_nat (w_bitcount w)) with (8 + Z.to_nat (w_bitcount w - 8))%nat by lia.
  by rewrite bits_of_add.
Qed.

Lemma mask_value n : 0 <= n <= 16 -> u32 (u32 (Z.shiftl 1 n) - 1) = 2 ^ n - 1.
Proof.
  intros Hn. rewrite Z.shiftl_1_l.
  assert (1 <= 2 ^ n <= 2 ^ 16).
  { split; [change 1 with (2 ^ 0)|]; apply Z.pow_le_mono_r; lia. }
  rewrite (u32_small (2 ^ n)) by lia. apply u32_small. lia.
Qed.

Lemma write_bits_spec w value n : writer_idle w -> 0 <= n <= 16 -> exists w',
  write_bits value n w = (Ok tt, w') /\ writer_idle w' /\ written w' = written w ++ bits_of (Z.to_nat n) value.
Proof.
  intros [[Hu Hb Hby Hbuf Hc] H8] Hn. unfold write_bits. autorewrite with monad.
  rewrite mask_value, land_mask by lia.
  set (c := w_bitcount w) in *. set (v := value mod 2 ^ n).
  assert (Hv : 0 <= v < 2 ^ n) by (apply Z.mod_pos_bound; apply Z.pow_pos_nonneg; lia).
  assert (Hpn : 2 ^ n <= 2 ^ 16) by (apply Z.pow_le_mono_r; lia).
  assert (Hpc : 1 <= 2 ^ c <= 2 ^ 7).
  { split; [change 1 with (2 ^ 0)|]; apply Z.pow_le_mono_r; lia. }
  rewrite (u32_small (Z.shiftl v c)) by (rewrite Z.shiftl_mul_pow2 by lia; nia).
  rewrite lor_shiftl by lia. rewrite (u32_small (c + n)) by lia.
  set (w1 := set_w_bits _ _ w).
  assert (Hw1 : writer_ok w1).
  { constructor; simpl; [done|done|done| |lia]. rewrite pow2_split by lia. nia. }
  destruct (flush_spec (Z.to_nat (w_bitcount w1)) w1 Hw1) as (w' & E & Hi & Hwr); [simpl; lia|simpl; lia|].
  exists w'. split_and!; [done|done|]. rewrite Hwr. unfold written, w1. simpl.
  rewrite <- app_assoc. f_equal. rewrite Z2Nat.inj_add by lia.
  rewrite <- (Z2Nat.id c) at 2 by lia.
  rewrite bits_of_plus by (rewrite Z2Nat.id; lia). f_equal. unfold v.
  rewrite <- (Z2Nat.id n) at 2 by lia. by apply bits_of_mod.
Qed.

Lemma new_writer_idle : writer_idle new_writer.
Proof. split; [|done]. constructor; simpl; [lia|done|constructor|lia|lia]. Qed.

Lemma written_new : written new_writer = [].
Proof. done. Qed.

(** The bytes handed out: the bits written, padded with zeros. *)
Lemma bits_of_pad n m v : 0 <= v < 2 ^ Z.of_nat n -> bits_of (n + m) v = bits_of n v ++ replicate m false.
Proof.
  intros Hv. rewrite bits_of_add, Z.div_small by done. f_equal. clear. induction m as [|m IH]; [done|].
  cbn [bits_of replicate]. by rewrite <- IH.
Qed.

(** Dropping what [align_writer] flushed, or flushing nothing. *)
Lemma align_writer_spec w : writer_idle w -> exists w' pad,
  align_writer w = (Ok tt, w') /\ writer_ok w' /\ byte_bits (bytes_of w') = written w ++ replicate pad false /\ (pad < 8)%nat.
Proof.
  intros [Hw H8]. pose proof Hw as [Hu Hb Hby Hbuf Hc]. unfold align_writer. autorewrite with monad.
  destruct (Z.ltb_spec 0 (w_bitcount w)) as [Hp|Hp].
  - destruct (push_byte_spec w (u8 (Z.land (w_bitbuf w) 0xFF)) Hw (u8_byte _)) as (w1 & E1 & Hok1 & Hb1 & Hbb & Hbc).
    rewrite (bind_ok _ _ _ _ _ E1). eexists _, (8 - Z.to_nat (w_bitcount w))%nat.
    split_and!; [done|destruct Hok1; constructor; simpl; done || lia| |lia].
    change (bytes_of (set_w_bits 0 0 w1)) with (bytes_of w1). rewrite Hb1, byte_bits_app. unfold written.
    rewrite <- app_assoc. f_equal. unfold byte_bits. cbn [map concat]. rewrite app_nil_r, land_byte, byte_bits_mod.
    replace 8%nat with (Z.to_nat (w_bitcount w) + (8 - Z.to_nat (w_bitcount w)))%nat at 1 by lia.
    apply bits_of_pad. by rewrite Z2Nat.id.
  - exists w, 0%nat. split_and!; [done|done| |lia]. unfold written. replace (w_bitcount w) with 0 by lia.
    by rewrite !app_nil_r.
Qed.

Lemma finish_spec w : writer_idle w -> exists out w' pad,
  finish w = (Ok out, w') /\ Forall is_byte out /\ byte_bits out = written w ++ replicate pad false /\ (pad < 8)%nat.
Proof.
  intros Hw. destruct (align_writer_spec w Hw) as (w1 & pad & E1 & [Hu1 _ Hby1 _ _] & Hb1 & Hpad).
  unfold finish. rewrite (bind_ok _ _ _ _ _ E1). autorewrite with monad.
  exists (bytes_of w1). eexists. exists pad. split_and!; [|done|done|done].
  unfold ret, set_w_buf, resize. simpl.
  replace (w_used w1 - length (w_buf w1))%nat with 0%nat by lia. by rewrite app_nil_r.
Qed.

Lemma write_aligned_spec bytes : forall w, writer_idle w -> w_bitcount w = 0 -> Forall is_byte bytes -> exists w',
  write_aligned_bytes bytes w = (Ok tt, w') /\ writer_idle w' /\ w_bitcount w' = 0 /\
  written w' = written w ++ byte_bits bytes.
Proof.
  induction bytes as [|b bytes IH]; intros w Hw H0 Hby.
  - exists w. split_and!; [done|done|done|]. by rewrite app_nil_r.
  - apply Forall_cons in Hby as [Hb Hby]. destruct Hw as [Hw H8].
    destruct (push_byte_spec w b Hw Hb) as (w1 & E1 & Hok1 & Hb1 & Hbb & Hbc).
    unfold write_aligned_bytes. cbn [mfold]. rewrite (bind_ok _ _ _ _ _ E1).
    destruct (IH w1) as (w' & E' & Hi' & H0' & Hwr'); [split; [done|lia]|lia|done|].
    exists w'. split_and!; [done|done|done|]. rewrite Hwr', byte_bits_cons, app_assoc. f_equal.
    unfold written. rewrite Hbc, H0, !app_nil_r.
    change (take (w_used w1) (w_buf w1)) with (bytes_of w1). by rewrite Hb1, byte_bits_app.
Qed.

(** ** What reading does *)

Lemma length_unread r : reader_ok r ->
  length (unread r) = (Z.to_nat (r_bitcount r) + 8 * (length (r_data r) - r_pos r))%nat.
Proof. intros Hr. unfold unread. by rewrite length_app, length_bits_of, length_byte_bits, length_drop. Qed.

(** Pulling the next byte moves bits from the buffer to the pending ones. *)
Lemma pull_step r b : reader_ok r -> r_bitcount r < 24 -> r_data r !! r_pos r = Some b ->
  let r1 := mkReader (r_data r) (S (r_pos r)) (Z.lor (r_bitbuf r) (u32 (Z.shiftl b (r_bitcount r))))
              (u32 (r_bitcount r + 8)) in
  reader_ok r1 /\ unread r1 = unread r /\ r_bitcount r1 = r_bitcount r + 8.
Proof.
  intros [Hp Hby Hbuf Hc] H24 Hl r1.
  assert (Hb : is_byte b) by by eapply Forall_lookup_1.
  unfold is_byte in Hb. set (c := r_bitcount r) in *.
  assert (Hpc : 0 < 2 ^ c <= 2 ^ 23) by (split; [apply Z.pow_pos_nonneg; lia|apply Z.pow_le_mono_r; lia]).
  assert (Hbb : r_bitbuf r1 = r_bitbuf r + b * 2 ^ c).
  { simpl. rewrite (u32_small (Z.shiftl b c)) by (rewrite Z.shiftl_mul_pow2 by lia; nia). by apply lor_shiftl. }
  assert (Hbc : r_bitcount r1 = c + 8) by (simpl; apply u32_small; lia).
  split_and!; [constructor| |done].
  - simpl. apply lookup_lt_Some in Hl. lia.
  - done.
  - rewrite Hbb, Hbc, pow2_split by lia. change (2 ^ 8) with 256. nia.
  - lia.
  - unfold unread. rewrite Hbb, Hbc. change (r_pos r1) with (S (r_pos r)). change (r_data r1) with (r_data r).
    rewrite (drop_S _ b _ Hl), byte_bits_cons, app_assoc. f_equal.
    rewrite Z2Nat.inj_add by lia. rewrite <- (Z2Nat.id c) at 2 by lia.
    apply bits_of_plus. by rewrite Z2Nat.id.
Qed.

Lemma pull_bytes_S fuel n : pull_bytes (S fuel) n =
  (let* r := get in
   if r_bitcount r <? n then
     if decide (r_pos r = length (r_data r)) then
       ret (Err (mkBitstreamError "read_bits: unexpected end of stream"))
     else
       match r_data r !! r_pos r with
       | None => raise Fault
       | Some b =>
           modify (fun r => mkReader (r_data r) (S (r_pos r))
             (Z.lor (r_bitbuf r) (u32 (Z.shiftl b (r_bitcount r)))) (u32 (r_bitcount r + 8))) ;;;
           pull_bytes fuel n
       end
   else ret (Ok tt)).
Proof. done. Qed.

Lemma pull_spec fuel n : forall r, reader_ok r -> n - r_bitcount r <= 8 * Z.of_nat fuel -> 0 <= n <= 16 ->
  exists r', reader_ok r' /\ unread r' = unread r /\
    ((pull_bytes (S fuel) n r = (Ok (Ok tt), r') /\ n <= r_bitcount r' /\
        (r_bitcount r' = r_bitcount r \/ r_bitcount r' < n + 8)) \/
     ((exists e, pull_bytes (S fuel) n r = (Ok (Err e), r')) /\ (length (unread r) < Z.to_nat n)%nat /\ r_bitcount r' < n)).
Proof.
  induction fuel as [|fuel IH]; intros r Hr Hf Hn.
  all: rewrite pull_bytes_S.
  all: autorewrite with monad; destruct (Z.ltb_spec (r_bitcount r) n) as [Hlt|Hge].
  1: lia.
  1, 3: exists r; split_and!; [done|done|left; split_and!; [done|lia|by left]].
  destruct (decide _) as [He|He].
  - exists r. split_and!; [done|done|right]. split_and!; [by eexists| |lia].
    rewrite length_unread by done. destruct Hr. lia.
  - destruct (lookup_lt_is_Some_2 (r_data r) (r_pos r)) as [b Hb]; [destruct Hr; lia|]. rewrite Hb, bind_modify.
    destruct (pull_step r b Hr ltac:(lia) Hb) as (Hr1 & Hu1 & Hc1).
    destruct (IH _ Hr1) as (r' & Hr' & Hu' & Hres); [lia|done|].
    exists r'. split_and!; [done|by rewrite Hu'|]. rewrite Hu1, Hc1 in Hres.
    destruct Hres as [(E & H1 & H2)|(E & H1 & H2)]; [left|right]; split_and!; try done. right. lia.
Qed.

(** Taking [n] of the pending bits. *)
Lemma take_pending r n : reader_ok r -> 0 <= n <= 16 -> n <= r_bitcount r < 2 ^ 32 ->
  let r1 := set_r_bits (Z.shiftr (r_bitbuf r) n) (u32 (r_bitcount r - n)) r in
  reader_ok r1 /\ r_bitcount r1 = r_bitcount r - n /\
  unread r = bits_of (Z.to_nat n) (r_bitbuf r) ++ unread r1.
Proof.
  intros [Hp Hby Hbuf Hc] Hn Hc1 r1.
  assert (Hbc : r_bitcount r1 = r_bitcount r - n) by (simpl; apply u32_small; lia).
  assert (Hbb : r_bitbuf r1 = r_bitbuf r / 2 ^ n) by (simpl; by rewrite Z.shiftr_div_pow2 by lia).
  split_and!; [constructor| |].
  - done.
  - done.
  - rewrite Hbb, Hbc. replace (r_bitcount r) with (n + (r_bitcount r - n)) in Hbuf by lia.
    rewrite pow2_split in Hbuf by lia.
    assert (0 < 2 ^ n) by (apply Z.pow_pos_nonneg; lia).
    split; [apply Z.div_pos; lia|apply Z.div_lt_upper_bound; lia].
  - lia.
  - done.
  - unfold unread. rewrite Hbb, Hbc. change (r_pos r1) with (r_pos r). change (r_data r1) with (r_data r).
    rewrite app_assoc. f_equal.
    replace (Z.to_nat (r_bitcount r)) with (Z.to_nat n + Z.to_nat (r_bitcount r - n))%nat by lia.
    rewrite bits_of_add. by rewrite Z2Nat.id by lia.
Qed.

Lemma read_bits_spec r n : reader_idle r -> 0 <= n <= 16 -> exists r', reader_idle r' /\
  ((read_bits n r = (Ok (Ok (value_of (take (Z.to_nat n) (unread r)))), r') /\
      (Z.to_nat n <= length (unread r))%nat /\ unread r' = drop (Z.to_nat n) (unread r) /\
      (r_bitcount r < 8 -> r_bitcount r' < 8)) \/
   ((exists e, read_bits n r = (Ok (Err e), r')) /\ (length (unread r) < Z.to_nat n)%nat /\ unread r' = unread r)).
Proof.
  intros [Hr H16] Hn. destruct (pull_spec (Z.to_nat n) n r Hr) as (r1 & Hr1 & Hu1 & Hres); [destruct Hr; lia|done|].
  unfold read_bits. destruct Hres as [(E & H1 & H2)|((e & E) & H1 & H2)].
  2: { exists r1. split; [split; [done|lia]|]. right. split_and!; [|done|done].
       exists e. by apply or_return_err. }
  destruct (take_pending r1 n Hr1 Hn) as (Hr2 & Hc2 & Hu2); [lia|].
  eexists. split; [split; [exact Hr2|destruct Hr; lia]|]. left.
  assert (Hl : length (bits_of (Z.to_nat n) (r_bitbuf r1)) = Z.to_nat n) by apply length_bits_of.
  rewrite <- Hu1, Hu2. split_and!.
  - rewrite (or_return_ok _ _ _ _ _ E). autorewrite with monad.
    rewrite take_app_length' by done. rewrite value_bits_of, Z2Nat.id by lia.
    rewrite mask_value, land_mask by lia. done.
  - rewrite length_app. lia.
  - by rewrite drop_app_length' by done.
  - lia.
Qed.

Lemma new_reader_idle data : Forall is_byte data -> reader_idle (new_reader data).
Proof. intros Hd. split; [|done]. constructor; simpl; [lia|done|lia|lia]. Qed.

Lemma unread_new data : unread (new_reader data) = byte_bits data.
Proof. done. Qed.

(** A reader of a bit string that starts with a field reads the field. *)
Lemma read_field r n v rest : reader_idle r -> 0 <= n <= 16 ->
  unread r = bits_of (Z.to_nat n) v ++ rest ->
  exists r', read_bits n r = (Ok (Ok (v mod 2 ^ n)), r') /\ reader_idle r' /\ unread r' = rest.
Proof.
  intros Hr Hn Hu. destruct (read_bits_spec r n Hr Hn) as (r' & Hr' & Hres).
  destruct Hres as [(E & _ & Hu' & _)|(_ & Hlen & _)].
  - exists r'. rewrite E, Hu', Hu. split_and!; [|done|by rewrite drop_app_length' by by rewrite length_bits_of].
    rewrite take_app_length' by by rewrite length_bits_of. by rewrite value_bits_of, Z2Nat.id by lia.
  - rewrite Hu, length_app, length_bits_of in Hlen. lia.
Qed.

(** Aligning drops the bits left of the byte being read. *)
Lemma align_reader_spec r : reader_ok r -> r_bitcount r < 8 ->
  exists r', align_reader r = (Ok tt, r') /\ reader_ok r' /\ r_bitcount r' = 0 /\
    unread r' = drop (length (unread r) `mod` 8) (unread r).
Proof.
  intros Hr H8. pose proof (length_unread r Hr) as Hl. pose proof Hr as [Hp Hby Hbuf Hc].
  eexists. split; [done|]. split_and!; [constructor; simpl; done || lia|done|].
  rewrite Hl, Nat.mul_comm, Nat.Div0.mod_add, Nat.mod_small by lia. unfold unread. simpl.
  by rewrite drop_app_length' by by rewrite length_bits_of.
Qed.

Lemma read_aligned_spec r count : reader_ok r -> r_bitcount r = 0 -> exists r',
  if (8 * count <=? length (unread r))%nat
  then exists bytes, read_aligned_bytes count r = (Ok (Ok bytes), r') /\ length bytes = count /\
         unread r = byte_bits bytes ++ unread r'
  else exists e, read_aligned_bytes count r = (Ok (Err e), r') /\ unread r' = unread r.
Proof.
  intros Hr H0. rewrite length_unread by done. rewrite H0. destruct Hr as [Hp _ _ _]. unfold read_aligned_bytes.
  autorewrite with monad. destruct (Nat.ltb_spec (length (r_data r)) (r_pos r + count)) as [Hlt|Hge].
  - eexists. rewrite (proj2 (Nat.leb_gt _ _)) by (simpl; lia). by eexists.
  - eexists. rewrite (proj2 (Nat.leb_le _ _)) by (simpl; lia). eexists. split; [done|].
    rewrite length_take_le by (rewrite length_drop; lia). split; [done|].
    unfold unread. simpl. rewrite H0. simpl. rewrite <- byte_bits_app, <- drop_drop. by rewrite take_drop.
Qed.

Lemma bits_remaining_spec r : reader_ok r -> bits_remaining r = Z.of_nat (length (unread r)).
Proof. intros Hr. rewrite length_unread by done. destruct Hr. unfold bits_remaining. lia. Qed.

(** ** Round trip *)

Definition write_fields (fields : list (Z * Z)) : W unit :=
  mfold (fun _ f => write_bits f.1 f.2) fields tt.

Fixpoint read_fields (widths : list Z) : R (result BitstreamError (list Z)) :=
  match widths with
  | [] => ret (Ok [])
  | n :: widths => let! v := read_bits n in let! vs := read_fields widths in ret (Ok (v :: vs))
  end.

Definition field_bits (f : Z * Z) : list bool := bits_of (Z.to_nat f.2) f.1.
Definition field_ok (f : Z * Z) : Prop := 0 <= f.2 <= 16.

Lemma write_fields_spec fields : forall w, writer_idle w -> Forall field_ok fields -> exists w',
  write_fields fields w = (Ok tt, w') /\ writer_idle w' /\ written w' = written w ++ concat (map field_bits fields).
Proof.
  induction fields as [|f fields IH]; intros w Hw Hok.
  - exists w. by rewrite app_nil_r.
  - apply Forall_cons in Hok as [Hf Hok]. destruct (write_bits_spec w f.1 f.2 Hw Hf) as (w1 & E1 & Hw1 & Hwr1).
    destruct (IH w1 Hw1 Hok) as (w' & E' & Hw' & Hwr'). exists w'.
    unfold write_fields. cbn [mfold]. rewrite (bind_ok _ _ _ _ _ E1). split_and!; [done|done|].
    by rewrite Hwr', Hwr1, <- app_assoc.
Qed.

Lemma read_fields_spec fields : forall r rest, reader_idle r -> Forall field_ok fields ->
  unread r = concat (map field_bits fields) ++ rest -> exists r',
  read_fields (map snd fields) r = (Ok (Ok (map (fun f => f.1 mod 2 ^ f.2) fields)), r') /\
  reader_idle r' /\ unread r' = rest.
Proof.
  induction fields as [|f fields IH]; intros r rest Hr Hok Hu; [by exists r|].
  apply Forall_cons in Hok as [Hf Hok]. cbn [map concat] in Hu. rewrite <- app_assoc in Hu.
  destruct (read_field r f.2 f.1 _ Hr Hf Hu) as (r1 & E1 & Hr1 & Hu1).
  destruct (IH r1 rest Hr1 Hok Hu1) as (r' & E' & Hr' & Hu'). exists r'.
  cbn [map read_fields]. rewrite (or_return_ok _ _ _ _ _ E1), (or_return_ok _ _ _ _ _ E'). done.
Qed.

(** Fields of at most 16 bits written to a fresh [BitWriter] are read back
    in order, each reduced to its width, by a [BitReader] with the same widths
    from the bytes [finish] returns; neither side panics, and a read past the
    last byte is the error value, which leaves the unread bits as they were. *)
Theorem fields_roundtrip fields past : Forall field_ok fields -> 8 <= past <= 16 ->
  exists out w' r' e r'',
    (write_fields fields ;;; finish) new_writer = (Ok out, w') /\
    read_fields (map snd fields) (new_reader out) = (Ok (Ok (map (fun f => f.1 mod 2 ^ f.2) fields)), r') /\
    read_bits past r' = (Ok (Err e), r'') /\ unread r'' = unread r'.
Proof.
  intros Hok Hpast. destruct (write_fields_spec fields new_writer new_writer_idle Hok) as (w1 & E1 & Hw1 & Hwr1).
  destruct (finish_spec w1 Hw1) as (out & w' & pad & E' & Hby & Hbits & Hpad).
  destruct (read_fields_spec fields (new_reader out) (replicate pad false) (new_reader_idle out Hby) Hok)
    as (r' & Er & Hr' & Hu'); [by rewrite unread_new, Hbits, Hwr1, written_new|].
  destruct (read_bits_spec r' past Hr' ltac:(lia)) as (r'' & _ & [(_ & Hlen & _)|((e & E) & _ & Hu)]).
  - rewrite Hu', length_replicate in Hlen. lia.
  - exists out, w', r', e, r''. split_and!; [by rewrite (bind_ok _ _ _ _ _ E1)|done|done|done].
Qed.

Lemma fields_roundtrip_witness : exists out w' r' e r'',
    (write_fields [(5, 3); (300, 9); (65535, 16); (7, 0)] ;;; finish) new_writer = (Ok out, w') /\
    read_fields [3; 9; 16; 0] (new_reader out) = (Ok (Ok [5; 300; 65535; 0]), r') /\
    read_bits 8 r' = (Ok (Err e), r'') /\ unread r'' = unread r'.
Proof.
  apply (fields_roundtrip [(5, 3); (300, 9); (65535, 16); (7, 0)] 8); [|lia].
  repeat constructor; simpl; lia.
Defined.
