(* ===== verification/Huffman.v ===== *)
(** * Canonical Huffman codes ([lib/huffman.py])

    Code tables from code lengths (RFC 1951, 3.2.2), the encoder and the
    decoder, table by table and loop by loop.  [cnt], [first_of], [offset_of]
    and [code_of] are the reference definitions; [valid_lengths] is what the
    over-subscription check accepts. *)

From S2P Require Import Prelude RawList Bits Bitstream.

Local Open Scope Z_scope.
Local Open Scope monad_scope.

Inductive HuffmanError :=
| OversubscribedCode
| InvalidCodeLength
| UnexpectedEndOfStream
| NoSymbolMatched
| CodeTooLong.

Definition MAX_BITS : Z := 15.
Definition TABLE_SIZE : nat := 16.

Abbreviation H A := (result abort (result HuffmanError A)).

(** ** Code tables from code lengths *)

Fixpoint count_lengths (code_lengths count : list Z) : H (list Z) :=
  match code_lengths with
  | [] => Ok (Ok count)
  | len :: rest =>
      if MAX_BITS <? len then Ok (Err InvalidCodeLength)
      else if 0 <? len then
        let? prev := unwrap "idx <= MAX_BITS" (list_getitem (Z.to_nat len) count) in
        let? count := unwrap "idx <= MAX_BITS" (list_setitem (Z.to_nat len) (u16 (prev + 1)) count) in
        count_lengths rest count
      else count_lengths rest count
  end.

(** The loop over [bits], [n] iterations from [bits] on. *)
Fixpoint check_subscription (n bits : nat) (left_ : Z) (count : list Z) : H unit :=
  match n with
  | O => Ok (Ok tt)
  | S n =>
      let? c := unwrap "bits <= MAX_BITS" (list_getitem bits count) in
      let left_ := i32 (i32 (Z.shiftl left_ 1) - i32 c) in
      if left_ <? 0 then Ok (Err OversubscribedCode)
      else check_subscription n (S bits) left_ count
  end.

Definition count_per_length (code_lengths : list Z) : H (list Z) :=
  let?! count := count_lengths code_lengths (replicate TABLE_SIZE 0) in
  let?! _ := check_subscription (Z.to_nat MAX_BITS) 1 1 count in
  Ok (Ok count).

Fixpoint fill_first_codes (n bits : nat) (code : Z) (count first_code : list Z) : result abort (list Z) :=
  match n with
  | O => Ok first_code
  | S n =>
      let? prev_count := unwrap "bits-1 <= MAX_BITS" (list_getitem (bits - 1) count) in
      let code := u32 (Z.shiftl (u32 (code + prev_count)) 1) in
      let? first_code := unwrap "bits <= MAX_BITS" (list_setitem bits code first_code) in
      fill_first_codes n (S bits) code count first_code
  end.

Fixpoint assign_codes (code_lengths next_code codes : list Z) : result abort (list Z) :=
  match code_lengths with
  | [] => Ok codes
  | len :: rest =>
      if len =? 0 then assign_codes rest next_code (codes ++ [0])
      else
        let? c := unwrap "len_idx <= MAX_BITS" (list_getitem (Z.to_nat len) next_code) in
        let? next_code := unwrap "len_idx <= MAX_BITS" (list_setitem (Z.to_nat len) (u32 (c + 1)) next_code) in
        let? code := panic_u16 "bounded by n, cannot overflow" c in
        assign_codes rest next_code (codes ++ [code])
  end.

Definition canonical_codes_from_lengths (code_lengths : list Z) : H (list Z) :=
  let?! count := count_per_length code_lengths in
  let? first_code := fill_first_codes (Z.to_nat MAX_BITS) 1 0 count (replicate TABLE_SIZE 0) in
  let next_code := first_code in
  let? codes := assign_codes code_lengths next_code [] in
  Ok (Ok codes).

(** ** The encoder *)

Record HuffmanEncoder := mkEncoder { enc_codes : list Z; enc_lengths : list Z }.

Definition new_encoder (code_lengths : list Z) : H HuffmanEncoder :=
  let?! codes := canonical_codes_from_lengths code_lengths in
  Ok (Ok (mkEncoder codes code_lengths)).

Definition code_for (enc : HuffmanEncoder) (symbol : Z) : H (Z * Z) :=
  let? len := unwrap "symbol within alphabet" (list_getitem (Z.to_nat symbol) (enc_lengths enc)) in
  if len =? 0 then Ok (Err NoSymbolMatched)
  else
    let? code := unwrap "symbol within alphabet" (list_getitem (Z.to_nat symbol) (enc_codes enc)) in
    Ok (Ok (code, len)).

Fixpoint reverse_code (n : nat) (c reversed_code : Z) : Z :=
  match n with
  | O => reversed_code
  | S n => reverse_code n (Z.shiftr c 1) (Z.lor (u32 (Z.shiftl reversed_code 1)) (Z.land c 1))
  end.

Definition write_symbol (enc : HuffmanEncoder) (symbol : Z) : W (result HuffmanError unit) :=
  let! (code, len) := lift (code_for enc symbol) in
  write_bits (reverse_code (Z.to_nat len) code 0) len ;;;
  ret (Ok tt).

(** ** The decoder *)

Record HuffmanDecoder := mkDecoder { dec_count : list Z; dec_symbols : list Z }.

Fixpoint fill_offsets (n bits : nat) (count offs : list Z) : result abort (list Z) :=
  match n with
  | O => Ok offs
  | S n =>
      let? prev_offs := unwrap "bits <= MAX_BITS" (list_getitem bits offs) in
      let? prev_count := unwrap "bits <= MAX_BITS" (list_getitem bits count) in
      let? offs := unwrap "bits+1 <= MAX_BITS" (list_setitem (bits + 1) (u16 (prev_offs + prev_count)) offs) in
      fill_offsets n (S bits) count offs
  end.

Fixpoint sum_counts (n bits : nat) (count : list Z) (total_used : nat) : result abort nat :=
  match n with
  | O => Ok total_used
  | S n =>
      let? c := unwrap "b2 <= MAX_BITS" (list_getitem bits count) in
      sum_counts n (S bits) count (total_used + Z.to_nat c)
  end.

(** The counting sort, from symbol [sym] on. *)
Fixpoint place_symbols (code_lengths : list Z) (sym : nat) (offs symbols : list Z) : result abort (list Z) :=
  match code_lengths with
  | [] => Ok symbols
  | len :: rest =>
      if 0 <? len then
        let? slot := unwrap "len_idx <= MAX_BITS" (list_getitem (Z.to_nat len) offs) in
        let? s := panic_u16 "bounded by n, cannot overflow" (Z.of_nat sym) in
        let? symbols := unwrap "slot < total_used by construction" (list_setitem (Z.to_nat slot) s symbols) in
        let? offs := unwrap "len_idx <= MAX_BITS" (list_setitem (Z.to_nat len) (u16 (slot + 1)) offs) in
        place_symbols rest (S sym) offs symbols
      else place_symbols rest (S sym) offs symbols
  end.

Definition new_decoder (code_lengths : list Z) : H HuffmanDecoder :=
  let?! count := count_per_length code_lengths in
  let? offs := fill_offsets (Z.to_nat MAX_BITS - 1) 1 count (replicate TABLE_SIZE 0) in
  let? total_used := sum_counts (Z.to_nat MAX_BITS) 1 count 0 in
  let? symbols := place_symbols code_lengths 0 offs (replicate total_used 0) in
  Ok (Ok (mkDecoder count symbols)).

(** The loop of [decode], [n] iterations from [bits] on. *)
Fixpoint decode_from (dec : HuffmanDecoder) (n bits : nat) (code first index : Z) : R (result HuffmanError Z) :=
  match n with
  | O => ret (Err NoSymbolMatched)
  | S n =>
      let* b := read_bits 1 in
      match b with
      | Err _ => ret (Err UnexpectedEndOfStream)
      | Ok bit =>
          let code := Z.lor code bit in
          let* cnt := lift (unwrap "bits <= MAX_BITS" (list_getitem bits (dec_count dec))) in
          let* offset := lift (panic_u32 "code >= first always holds within a validated table" (code - first)) in
          if offset <? cnt then
            let idx := (Z.to_nat index + Z.to_nat offset)%nat in
            let* sym := lift (unwrap "idx within symbols bounds by construction" (list_getitem idx (dec_symbols dec))) in
            ret (Ok sym)
          else
            decode_from dec n (S bits) (u32 (Z.shiftl code 1)) (u32 (Z.shiftl (u32 (first + cnt)) 1)) (u32 (index + cnt))
      end
  end.

Definition decode (dec : HuffmanDecoder) : R (result HuffmanError Z) :=
  decode_from dec (Z.to_nat MAX_BITS) 1 0 0 0.

(** ** The reference definitions *)

(** The number of symbols of code length [l], for [l > 0]. *)
Fixpoint cnt (lens : list Z) (l : nat) : Z :=
  match lens with
  | [] => 0
  | x :: lens => Z.b2z ((0 <? x) && (x =? Z.of_nat l)) + cnt lens l
  end.

(** The first code of length [l], and how many shorter codes there are. *)
Fixpoint first_of (lens : list Z) (l : nat) : Z :=
  match l with O => 0 | S l => 2 * (first_of lens l + cnt lens l) end.

Fixpoint offset_of (lens : list Z) (l : nat) : Z :=
  match l with O => 0 | S l => offset_of lens l + cnt lens l end.

(** The code of symbol [s]. *)
Definition code_of (lens : list Z) (s : nat) (len : Z) : Z :=
  first_of lens (Z.to_nat len) + cnt (take s lens) (Z.to_nat len).

Definition length_ok (x : Z) : Prop := 0 <= x <= 15.

(** Codes of every length fit. *)
Record valid_lengths (lens : list Z) : Prop := {
  vl_alphabet : Z.of_nat (length lens) < 2 ^ 16;
  vl_lengths : Forall length_ok lens;
  vl_fits : forall l, (l <= 15)%nat -> first_of lens l + cnt lens l <= 2 ^ Z.of_nat l;
}.

(** ** Tables *)

(** A per-length table holding [f]. *)
Definition table (f : nat -> Z) : list Z := map f (seq 0 TABLE_SIZE).

Lemma table_lookup f l : (l <= 15)%nat -> table f !! l = Some (f l).
Proof.
  intros Hl. unfold table. rewrite list_lookup_fmap, lookup_seq_lt by (unfold TABLE_SIZE; lia). done.
Qed.

Lemma table_insert f l v : <[l:=v]> (table f) = table (fun k => if decide (k = l) then v else f k).
Proof.
  apply list_eq. intros i. unfold table. destruct (decide (i < 16)%nat) as [Hi|Hi].
  - destruct (decide (i = l)) as [->|Hne].
    + rewrite list_lookup_insert_eq by (by rewrite length_map, length_seq).
      rewrite list_lookup_fmap, lookup_seq_lt by done. simpl. by rewrite decide_True.
    + rewrite list_lookup_insert_ne, !list_lookup_fmap, !lookup_seq_lt by done. simpl. by rewrite decide_False.
  - rewrite !lookup_ge_None_2; [done| |]; rewrite ?length_insert, length_map, length_seq; unfold TABLE_SIZE; lia.
Qed.

Lemma table_ext f g : (forall l, (l <= 15)%nat -> f l = g l) -> table f = table g.
Proof. intros Hfg. apply map_ext_in. intros l [_ Hl]%in_seq. apply Hfg. unfold TABLE_SIZE in Hl. lia. Qed.

Lemma table_zero : replicate TABLE_SIZE 0 = table (fun _ => 0).
Proof. done. Qed.

Lemma table_get f l msg : (l <= 15)%nat -> unwrap msg (list_getitem l (table f)) = Ok (f l).
Proof. intros Hl. by apply getitem_ok, table_lookup. Qed.

Lemma table_set f l v msg : (l <= 15)%nat ->
  unwrap msg (list_setitem l v (table f)) = Ok (table (fun k => if decide (k = l) then v else f k)).
Proof. intros Hl. rewrite setitem_ok by (unfold table; rewrite length_map, length_seq; unfold TABLE_SIZE; lia). by rewrite table_insert. Qed.

(** ** Counting *)

Lemma cnt_app l1 l2 l : cnt (l1 ++ l2) l = cnt l1 l + cnt l2 l.
Proof. induction l1 as [|x l1 IH]; [done|]. cbn [app cnt]. rewrite IH. lia. Qed.

Lemma cnt_range lens l : 0 <= cnt lens l <= Z.of_nat (length lens).
Proof. induction lens as [|x lens IH]; cbn [cnt length]; [lia|]. destruct (_ && _); simpl Z.b2z; lia. Qed.

Lemma cnt_zero lens : cnt lens 0 = 0.
Proof.
  induction lens as [|x lens IH]; [done|]. cbn [cnt]. rewrite IH.
  destruct (Z.ltb_spec 0 x), (Z.eqb_spec x (Z.of_nat 0)); simpl; lia.
Qed.

Lemma cnt_hit x l : 0 < x -> x = Z.of_nat l -> Z.b2z ((0 <? x) && (x =? Z.of_nat l)) = 1.
Proof. intros Hx Hl. by rewrite (proj2 (Z.ltb_lt _ _) Hx), (proj2 (Z.eqb_eq _ _) Hl). Qed.

Lemma cnt_miss x l : ~ (0 < x /\ x = Z.of_nat l) -> Z.b2z ((0 <? x) && (x =? Z.of_nat l)) = 0.
Proof. intros Hn. destruct (Z.ltb_spec 0 x), (Z.eqb_spec x (Z.of_nat l)); simpl; lia. Qed.

Lemma cnt_singleton x l : cnt [x] l = Z.b2z ((0 <? x) && (x =? Z.of_nat l)).
Proof. cbn [cnt]. lia. Qed.

(** A symbol of length [l] is one more than those before it. *)
Lemma cnt_take_lt lens s x : lens !! s = Some x -> 0 < x -> cnt (take s lens) (Z.to_nat x) < cnt lens (Z.to_nat x).
Proof.
  intros Hs Hx. rewrite <- (take_drop_middle lens s x Hs) at 2.
  rewrite cnt_app. cbn [cnt]. rewrite cnt_hit by lia. pose proof (cnt_range (drop (S s) lens) (Z.to_nat x)). lia.
Qed.

Lemma cnt_take_S lens s x l : lens !! s = Some x ->
  cnt (take (S s) lens) l = cnt (take s lens) l + Z.b2z ((0 <? x) && (x =? Z.of_nat l)).
Proof. intros Hs. by rewrite (take_S_r _ _ x Hs), cnt_app, cnt_singleton. Qed.

Lemma cnt_take_le lens s l : cnt (take s lens) l <= cnt lens l.
Proof. rewrite <- (take_drop s lens) at 2. rewrite cnt_app. pose proof (cnt_range (drop s lens) l). lia. Qed.

Lemma cnt_take_mono lens s t l : (s <= t)%nat -> cnt (take s lens) l <= cnt (take t lens) l.
Proof. intros Hst. rewrite <- (Nat.min_l s t Hst), <- take_take. apply cnt_take_le. Qed.

Lemma first_of_nonneg lens l : 0 <= first_of lens l.
Proof. induction l as [|l IH]; [done|]. cbn [first_of]. pose proof (cnt_range lens l). lia. Qed.

(** Codes of length [m] start after every prefix used at length [l < m]. *)
Lemma first_of_skip lens l d : 2 ^ Z.of_nat (S d) * (first_of lens l + cnt lens l) <= first_of lens (l + S d).
Proof.
  induction d as [|d IH]; [rewrite Nat.add_1_r; cbn [first_of]; change (2 ^ Z.of_nat 1) with 2; lia|].
  rewrite (pow2_S (S d)), <- Z.mul_assoc. replace (l + S (S d))%nat with (S (l + S d)) by lia.
  pose proof (cnt_range lens (l + S d)). cbn [first_of]. lia.
Qed.

Lemma offset_of_S lens l : offset_of lens (S l) = offset_of lens l + cnt lens l.
Proof. done. Qed.

Lemma offset_of_mono lens l m : (l <= m)%nat -> 0 <= offset_of lens l <= offset_of lens m.
Proof.
  intros Hlm. assert (forall k, 0 <= offset_of lens k) as Hpos.
  { induction k as [|k IH]; cbn [offset_of]; [done|]. pose proof (cnt_range lens k). lia. }
  split; [done|]. induction Hlm as [|m Hlm IH]; [done|]. cbn [offset_of]. pose proof (cnt_range lens m). lia.
Qed.

Lemma offset_of_total lens l : offset_of lens l <= Z.of_nat (length lens).
Proof.
  assert (forall k x, offset_of [x] k <= Z.b2z (0 <? x) * Z.b2z (x <? Z.of_nat k)) as H1.
  { induction k as [|k IH]; intros x; cbn [offset_of]; [destruct (0 <? x), (x <? Z.of_nat 0); vm_compute; by intros|].
    specialize (IH x). rewrite cnt_singleton.
    destruct (Z.ltb_spec 0 x), (Z.ltb_spec x (Z.of_nat k)), (Z.ltb_spec x (Z.of_nat (S k))),
      (Z.eqb_spec x (Z.of_nat k)); simpl in *; lia. }
  assert (forall k l1 l2, offset_of (l1 ++ l2) k = offset_of l1 k + offset_of l2 k) as Happ.
  { induction k as [|k IH]; intros; cbn [offset_of]; [done|]. rewrite IH, cnt_app. lia. }
  induction lens as [|x lens IH]; [by induction l as [|l IHl]; cbn [offset_of cnt]; lia|].
  change (x :: lens) with ([x] ++ lens). rewrite Happ, length_app. specialize (H1 l x). simpl length.
  destruct (0 <? x), (x <? Z.of_nat l); simpl in H1; lia.
Qed.

(** ** The tables the code builds *)

Definition counts (lens : list Z) : list Z := table (cnt lens).

Lemma count_lengths_spec rest : forall done_,
  Forall is_byte rest -> Z.of_nat (length (done_ ++ rest)) < 2 ^ 16 ->
  count_lengths rest (counts done_) =
    if forallb (fun x => x <=? 15) rest then Ok (Ok (counts (done_ ++ rest))) else Ok (Err InvalidCodeLength).
Proof.
  induction rest as [|x rest IH]; intros done_ Hby Hlen; [simpl; by rewrite app_nil_r|].
  apply Forall_cons in Hby as [Hx Hby]. unfold is_byte in Hx. cbn [count_lengths forallb].
  rewrite cons_middle, app_assoc in Hlen |- *. change MAX_BITS with 15. rewrite Z.ltb_antisym.
  destruct (Z.leb_spec x 15) as [H15|H15]; cbn [negb andb]; [|done].
  destruct (Z.ltb_spec 0 x) as [H0|H0].
  - unfold counts at 1 2. rewrite table_get by lia. cbn [result_bind]. rewrite table_set by lia. cbn [result_bind].
    rewrite <- IH by done. f_equal. apply table_ext. intros l Hl. rewrite cnt_app, cnt_singleton.
    pose proof (cnt_range done_ (Z.to_nat x)). rewrite !length_app in Hlen. simpl length in Hlen.
    destruct (decide _) as [->|Hne].
    + rewrite cnt_hit by lia. apply u16_small. lia.
    + rewrite cnt_miss by lia. lia.
  - rewrite <- IH by done. f_equal. apply table_ext. intros l Hl. rewrite cnt_app, cnt_singleton, cnt_miss by lia. lia.
Qed.

(** The running [left]: the codes of each length that are still free. *)
Lemma check_subscription_spec lens n : forall bits left_,
  Z.of_nat (length lens) < 2 ^ 16 -> (bits + n = 16)%nat -> (1 <= bits)%nat -> 0 <= left_ ->
  left_ = 2 ^ Z.of_nat (bits - 1) - (first_of lens (bits - 1) + cnt lens (bits - 1)) ->
  check_subscription n bits left_ (counts lens) =
    if forallb (fun l => first_of lens l + cnt lens l <=? 2 ^ Z.of_nat l) (seq bits n)
    then Ok (Ok tt) else Ok (Err OversubscribedCode).
Proof.
  induction n as [|n IH]; intros bits left_ Hlen Hn Hb Hpos Hleft; [done|].
  cbn [check_subscription seq forallb]. unfold counts. rewrite table_get by lia. cbn [result_bind].
  destruct bits as [|b]; [lia|]. replace (S b - 1)%nat with b in Hleft by lia.
  assert (Hpow : 0 < 2 ^ Z.of_nat b <= 2 ^ 14).
  { split; [apply Z.pow_pos_nonneg; lia|apply Z.pow_le_mono_r; lia]. }
  pose proof (cnt_range lens (S b)). pose proof (cnt_range lens b). pose proof (first_of_nonneg lens b).
  rewrite Z.shiftl_mul_pow2, Z.pow_1_r by lia. rewrite (i32_small (left_ * 2)), (i32_small (cnt lens (S b))) by lia.
  rewrite i32_small by lia.
  assert (Hnew : left_ * 2 - cnt lens (S b) = 2 ^ Z.of_nat (S b) - (first_of lens (S b) + cnt lens (S b))).
  { rewrite pow2_S. cbn [first_of]. lia. }
  rewrite Hnew.
  destruct (Z.ltb_spec (2 ^ Z.of_nat (S b) - (first_of lens (S b) + cnt lens (S b))) 0) as [Hneg|Hge].
  - by rewrite (proj2 (Z.leb_gt _ _)) by lia.
  - rewrite (proj2 (Z.leb_le _ _)) by lia. cbn [andb]. apply IH; [done|lia|lia|lia|].
    by replace (S (S b) - 1)%nat with (S b) by lia.
Qed.

Definition lengths_fit (lens : list Z) : bool :=
  forallb (fun x => x <=? 15) lens && forallb (fun l => first_of lens l + cnt lens l <=? 2 ^ Z.of_nat l) (seq 1 15).

Lemma count_per_length_spec lens : Forall is_byte lens -> Z.of_nat (length lens) < 2 ^ 16 ->
  exists r, count_per_length lens = Ok r /\
    match r with Ok c => c = counts lens /\ valid_lengths lens | Err _ => ~ valid_lengths lens end.
Proof.
  intros Hby Hlen. unfold count_per_length. rewrite table_zero.
  change (table (fun _ => 0)) with (counts []). rewrite (count_lengths_spec lens []) by done. cbn [app].
  destruct (forallb _ lens) eqn:H15; cbn [or_return_pure].
  2: { eexists. split; [done|]. intros [_ Hok _]. apply not_true_iff_false in H15. destruct H15.
       apply forallb_forall. intros x Hx%list_elem_of_In. rewrite Forall_forall in Hok. apply Z.leb_le. by apply Hok in Hx as []. }
  rewrite (check_subscription_spec lens (Z.to_nat MAX_BITS) 1 1) by (simpl; rewrite ?cnt_zero; lia || done).
  change (Z.to_nat MAX_BITS) with 15%nat. destruct (forallb _ (seq 1 15)) eqn:Hfit; cbn [or_return_pure].
  2: { eexists. split; [done|]. intros [_ _ Hok]. apply not_true_iff_false in Hfit. destruct Hfit.
       apply forallb_forall. intros l [_ Hl]%in_seq. apply Z.leb_le, Hok. lia. }
  eexists. split; [done|]. split; [done|]. constructor; [done| |].
  - apply Forall_forall. intros x Hx. rewrite forallb_forall in H15. rewrite Forall_forall in Hby.
    pose proof (H15 x (proj1 (list_elem_of_In _ _) Hx)) as ?%Z.leb_le. destruct (Hby x Hx). split; done.
  - intros [|l] Hl; [simpl; rewrite cnt_zero; lia|]. rewrite forallb_forall in Hfit. apply Z.leb_le, Hfit, in_seq. lia.
Qed.

Lemma valid_bytes lens : valid_lengths lens -> Forall is_byte lens.
Proof. intros [_ Hl _]. eapply Forall_impl; [exact Hl|]. unfold length_ok, is_byte. simpl. intros. lia. Qed.

Lemma count_per_length_valid lens : valid_lengths lens -> count_per_length lens = Ok (Ok (counts lens)).
Proof.
  intros Hv. destruct (count_per_length_spec lens (valid_bytes _ Hv) (vl_alphabet _ Hv)) as ([c|e] & E & Hr); [|done].
  destruct Hr as [-> _]. done.
Qed.

Lemma first_of_bound lens l : valid_lengths lens -> (l <= 15)%nat -> 0 <= first_of lens l + cnt lens l <= 2 ^ 15.
Proof.
  intros [_ _ Hfit] Hl. specialize (Hfit l Hl). pose proof (first_of_nonneg lens l). pose proof (cnt_range lens l).
  assert (2 ^ Z.of_nat l <= 2 ^ 15) by (apply Z.pow_le_mono_r; lia). lia.
Qed.

Lemma fill_first_codes_spec lens n : forall bits, valid_lengths lens -> (bits + n = 16)%nat -> (1 <= bits)%nat ->
  fill_first_codes n bits (first_of lens (bits - 1)) (counts lens)
    (table (fun l => if decide (l < bits)%nat then first_of lens l else 0)) = Ok (table (first_of lens)).
Proof.
  induction n as [|n IH]; intros bits Hv Hn Hb; cbn [fill_first_codes].
  - f_equal. apply table_ext. intros l Hl. by rewrite decide_True by lia.
  - destruct bits as [|b]; [lia|]. replace (S b - 1)%nat with b by lia.
    unfold counts at 1. rewrite table_get by lia. cbn [result_bind].
    pose proof (first_of_bound lens b Hv ltac:(lia)). pose proof (first_of_nonneg lens b).
    rewrite (u32_small (first_of lens b + cnt lens b)) by lia.
    rewrite Z.shiftl_mul_pow2, Z.pow_1_r by lia. rewrite u32_small by lia.
    replace ((first_of lens b + cnt lens b) * 2) with (first_of lens (S b)) by (cbn [first_of]; lia).
    rewrite table_set by lia. cbn [result_bind]. rewrite <- (IH (S (S b)) Hv) by lia.
    replace (S (S b) - 1)%nat with (S b) by lia. f_equal. apply table_ext. intros l Hl.
    repeat destruct (decide _); subst; lia || done.
Qed.

Definition codes_of (lens : list Z) : list Z :=
  imap (fun s x => if x =? 0 then 0 else code_of lens s x) lens.

Lemma code_of_bound lens s x : valid_lengths lens -> lens !! s = Some x -> 0 < x -> 0 <= code_of lens s x < 2 ^ x.
Proof.
  intros Hv Hs Hx. unfold code_of. pose proof (cnt_take_lt lens s x Hs Hx). destruct Hv as [_ Hl Hfit].
  pose proof (Forall_lookup_1 _ _ _ _ Hl Hs) as [_ H15]. specialize (Hfit (Z.to_nat x)).
  rewrite Z2Nat.id in Hfit by lia. pose proof (first_of_nonneg lens (Z.to_nat x)).
  pose proof (cnt_range (take s lens) (Z.to_nat x)). lia.
Qed.

Lemma assign_codes_spec lens : valid_lengths lens -> forall rest s, rest = drop s lens -> (s <= length lens)%nat ->
  assign_codes rest (table (fun l => first_of lens l + cnt (take s lens) l)) (take s (codes_of lens)) =
    Ok (codes_of lens).
Proof.
  intros Hv. induction rest as [|x rest IH]; intros s Hs Hle; cbn [assign_codes].
  - f_equal. apply take_ge. unfold codes_of. rewrite length_imap.
    apply (f_equal length) in Hs. rewrite length_drop in Hs. simpl in Hs. lia.
  - assert (Hx : lens !! s = Some x) by by rewrite <- (Nat.add_0_r s), <- lookup_drop, <- Hs.
    assert (Hrest : rest = drop (S s) lens) by (apply drop_S in Hx; rewrite <- Hs in Hx; congruence).
    assert (Hcode : codes_of lens !! s = Some (if x =? 0 then 0 else code_of lens s x)).
    { unfold codes_of. by rewrite list_lookup_imap, Hx. }
    pose proof (Forall_lookup_1 _ _ _ _ (vl_lengths _ Hv) Hx) as [Hx0 H15]. pose proof (lookup_lt_Some _ _ _ Hx).
    rewrite <- (IH (S s)) by (done || lia). rewrite (take_S_r _ _ _ Hcode).
    destruct (Z.eqb_spec x 0) as [->|Hne].
    + f_equal. apply table_ext. intros l Hl. rewrite (cnt_take_S _ _ _ _ Hx), cnt_miss by lia. lia.
    + pose proof (code_of_bound lens s x Hv Hx ltac:(lia)) as Hc. unfold code_of in Hc |- *.
      assert (2 ^ x <= 2 ^ 15) by (apply Z.pow_le_mono_r; lia).
      rewrite table_get by lia. cbn [result_bind]. rewrite table_set by lia. cbn [result_bind].
      rewrite in_panic_ok by lia. cbn [result_bind]. rewrite u32_small by lia. f_equal. apply table_ext.
      intros l Hl. rewrite (cnt_take_S _ _ _ _ Hx). destruct (decide _) as [->|Hl'].
      * rewrite cnt_hit by lia. lia.
      * rewrite cnt_miss by lia. lia.
Qed.

Lemma canonical_codes_spec lens : valid_lengths lens -> canonical_codes_from_lengths lens = Ok (Ok (codes_of lens)).
Proof.
  intros Hv. unfold canonical_codes_from_lengths. rewrite count_per_length_valid by done. cbn [or_return_pure].
  rewrite table_zero. rewrite (table_ext _ (fun l => if decide (l < 1)%nat then first_of lens l else 0)).
  2: { intros l _. destruct (decide _); [|done]. by replace l with 0%nat by lia. }
  pose proof (fill_first_codes_spec lens (Z.to_nat MAX_BITS) 1 Hv eq_refl (le_n 1)) as E.
  cbn [Nat.sub first_of] in E. rewrite E. cbn [result_bind].
  rewrite (table_ext (first_of lens) (fun l => first_of lens l + cnt (take 0 lens) l)).
  2: { intros l _. rewrite take_0. simpl. lia. }
  change (@nil Z) with (take 0 (codes_of lens)). by rewrite (assign_codes_spec lens Hv lens 0) by (done || lia).
Qed.

(** ** The decoder's tables *)

(** The slot of symbol [s], of length [x], in the sorted symbol table. *)
Definition slot_of (lens : list Z) (s : nat) (x : Z) : Z :=
  offset_of lens (Z.to_nat x) + cnt (take s lens) (Z.to_nat x).

Record sorts (lens symbols : list Z) : Prop := {
  sorts_length : Z.of_nat (length symbols) = offset_of lens 16;
  sorts_range : Forall (fun y => 0 <= y < Z.of_nat (length lens)) symbols;
  sorts_slot : forall s x, lens !! s = Some x -> 0 < x -> symbols !! Z.to_nat (slot_of lens s x) = Some (Z.of_nat s);
}.

Record decodes (lens : list Z) (dec : HuffmanDecoder) : Prop := {
  decodes_valid : valid_lengths lens;
  decodes_count : dec_count dec = counts lens;
  decodes_symbols : sorts lens (dec_symbols dec);
}.

Lemma slot_of_range lens s x : lens !! s = Some x -> 0 < x <= 15 ->
  offset_of lens (Z.to_nat x) <= slot_of lens s x < offset_of lens (S (Z.to_nat x)) /\
  0 <= slot_of lens s x < offset_of lens 16.
Proof.
  intros Hs Hx. pose proof (cnt_take_lt lens s x Hs ltac:(lia)). pose proof (cnt_range (take s lens) (Z.to_nat x)).
  pose proof (offset_of_mono lens (S (Z.to_nat x)) 16 ltac:(lia)).
  pose proof (offset_of_mono lens (Z.to_nat x) 16 ltac:(lia)).
  pose proof (offset_of_S lens (Z.to_nat x)). unfold slot_of. lia.
Qed.

(** Two symbols have two slots. *)
Lemma slot_of_inj lens s t x y : lens !! s = Some x -> lens !! t = Some y -> 0 < x <= 15 -> 0 < y <= 15 ->
  (s < t)%nat -> slot_of lens s x <> slot_of lens t y.
Proof.
  intros Hs Ht Hx Hy Hst Heq. pose proof (slot_of_range lens s x Hs Hx) as [H1 _].
  pose proof (slot_of_range lens t y Ht Hy) as [H2 _].
  destruct (Z.lt_trichotomy x y) as [Hlt|[->|Hgt]].
  - pose proof (offset_of_mono lens (S (Z.to_nat x)) (Z.to_nat y) ltac:(lia)). lia.
  - unfold slot_of in Heq. pose proof (cnt_take_S lens s y (Z.to_nat y) Hs) as HS.
    rewrite cnt_hit in HS by lia. pose proof (cnt_take_mono lens (S s) t (Z.to_nat y) ltac:(lia)). lia.
  - pose proof (offset_of_mono lens (S (Z.to_nat y)) (Z.to_nat x) ltac:(lia)). lia.
Qed.

Lemma fill_offsets_spec lens n : forall bits, Z.of_nat (length lens) < 2 ^ 16 -> (bits + n = 15)%nat -> (1 <= bits)%nat ->
  fill_offsets n bits (counts lens) (table (fun l => if decide (l <= bits)%nat then offset_of lens l else 0)) =
    Ok (table (offset_of lens)).
Proof.
  induction n as [|n IH]; intros b Hlen Hn Hb; cbn [fill_offsets].
  - f_equal. apply table_ext. intros l Hl. by rewrite decide_True by lia.
  - rewrite table_get, decide_True by lia. cbn [result_bind]. unfold counts at 1. rewrite table_get by lia.
    cbn [result_bind]. rewrite table_set by lia. cbn [result_bind]. rewrite Nat.add_1_r.
    rewrite <- (IH (S b)) by (done || lia). f_equal. apply table_ext. intros l Hl.
    pose proof (offset_of_mono lens b (S b) ltac:(lia)). pose proof (offset_of_total lens (S b)).
    destruct (decide (l = S b)) as [->|Hne].
    + rewrite (decide_True (P := (S b <= S b)%nat)) by lia. cbn [offset_of] in *. apply u16_small. lia.
    + repeat destruct (decide _); lia || done.
Qed.

Lemma sum_counts_spec lens n : forall bits, (bits + n <= 16)%nat ->
  sum_counts n bits (counts lens) (Z.to_nat (offset_of lens bits)) = Ok (Z.to_nat (offset_of lens (bits + n))).
Proof.
  induction n as [|n IH]; intros b Hb; cbn [sum_counts]; [by rewrite Nat.add_0_r|].
  unfold counts at 1. rewrite table_get by lia. cbn [result_bind]. rewrite <- Nat.add_succ_comm.
  rewrite <- (IH (S b)) by lia. f_equal. cbn [offset_of]. pose proof (cnt_range lens b).
  pose proof (offset_of_mono lens b b ltac:(lia)). lia.
Qed.

Lemma place_symbols_spec lens : valid_lengths lens -> forall rest s symbols, rest = drop s lens ->
  Z.of_nat (length symbols) = offset_of lens 16 ->
  Forall (fun y => 0 <= y < Z.of_nat (length lens)) symbols ->
  (forall t x, (t < s)%nat -> lens !! t = Some x -> 0 < x -> symbols !! Z.to_nat (slot_of lens t x) = Some (Z.of_nat t)) ->
  exists symbols', place_symbols rest s (table (fun l => offset_of lens l + cnt (take s lens) l)) symbols = Ok symbols' /\
    sorts lens symbols'.
Proof.
  intros Hv. induction rest as [|x rest IH]; intros s symbols Hs Hlen Hrange Hslots; cbn [place_symbols].
  - exists symbols. split; [done|]. constructor; [done|done|]. intros t x Ht. apply Hslots; [|done].
    apply lookup_lt_Some in Ht. apply (f_equal length) in Hs. rewrite length_drop in Hs. simpl in Hs. lia.
  - assert (Hx : lens !! s = Some x) by by rewrite <- (Nat.add_0_r s), <- lookup_drop, <- Hs.
    assert (Hrest : rest = drop (S s) lens) by (apply drop_S in Hx; rewrite <- Hs in Hx; congruence).
    pose proof (Forall_lookup_1 _ _ _ _ (vl_lengths _ Hv) Hx) as [Hx0 H15].
    pose proof (lookup_lt_Some _ _ _ Hx) as Hlt. pose proof (vl_alphabet _ Hv) as H16.
    destruct (Z.ltb_spec 0 x) as [Hpos|Hz].
    + pose proof (slot_of_range lens s x Hx ltac:(lia)) as [_ Hsl]. pose proof (offset_of_total lens 16).
      rewrite table_get by lia. cbn [result_bind]. fold (slot_of lens s x).
      rewrite in_panic_ok by lia. cbn [result_bind]. rewrite setitem_ok by lia. cbn [result_bind].
      rewrite table_set by lia. cbn [result_bind].
      destruct (IH (S s) (<[Z.to_nat (slot_of lens s x):=Z.of_nat s]> symbols) Hrest) as (symbols' & E & Hs').
      * by rewrite length_insert.
      * apply Forall_insert; [done|lia].
      * intros t y Hts Hy Hy0. pose proof (Forall_lookup_1 _ _ _ _ (vl_lengths _ Hv) Hy) as [_ Hy15].
        destruct (decide (t = s)) as [->|Hne].
        -- rewrite Hy in Hx. injection Hx as ->. apply list_lookup_insert_eq. lia.
        -- pose proof (slot_of_range lens t y Hy ltac:(lia)) as [_ Hty].
           rewrite list_lookup_insert_ne; [apply Hslots; [lia|done|done]|].
           pose proof (slot_of_inj lens t s y x Hy Hx ltac:(lia) ltac:(lia) ltac:(lia)). lia.
      * exists symbols'. split; [|done]. rewrite <- E. f_equal. apply table_ext. intros l Hl.
        rewrite (cnt_take_S _ _ _ _ Hx). destruct (decide _) as [->|Hl'].
        -- rewrite cnt_hit by lia. rewrite u16_small by lia. unfold slot_of. lia.
        -- rewrite cnt_miss by lia. lia.
    + destruct (IH (S s) symbols Hrest Hlen Hrange) as (symbols' & E & Hs').
      * intros t y Hts Hy Hy0. destruct (decide (t = s)) as [->|Hne]; [congruence||(rewrite Hy in Hx; injection Hx; lia)|].
        apply Hslots; [lia|done|done].
      * exists symbols'. split; [|done]. rewrite <- E. f_equal. apply table_ext. intros l Hl.
        rewrite (cnt_take_S _ _ _ _ Hx), cnt_miss by lia. lia.
Qed.

Lemma new_decoder_spec lens : valid_lengths lens -> exists dec, new_decoder lens = Ok (Ok dec) /\ decodes lens dec.
Proof.
  intros Hv. pose proof (vl_alphabet _ Hv). unfold new_decoder. rewrite count_per_length_valid by done.
  cbn [or_return_pure]. rewrite table_zero.
  rewrite (table_ext _ (fun l => if decide (l <= 1)%nat then offset_of lens l else 0)).
  2: { intros [|[|l]] _; cbn [offset_of]; rewrite ?cnt_zero; repeat destruct (decide _); done || lia. }
  change (Z.to_nat MAX_BITS - 1)%nat with 14%nat. rewrite fill_offsets_spec by (done || lia). cbn [result_bind].
  pose proof (sum_counts_spec lens (Z.to_nat MAX_BITS) 1 ltac:(done)) as E1. cbn [offset_of] in E1.
  rewrite cnt_zero in E1. change (Z.to_nat (0 + 0)) with 0%nat in E1. rewrite E1. cbn [result_bind].
  pose proof (offset_of_mono lens 0 16 ltac:(lia)).
  destruct (place_symbols_spec lens Hv lens 0 (replicate (Z.to_nat (offset_of lens (1 + Z.to_nat MAX_BITS))) 0))
    as (symbols & E & Hs).
  - done.
  - rewrite length_replicate. change (1 + Z.to_nat MAX_BITS)%nat with 16%nat. lia.
  - destruct lens as [|x lens]; [constructor|apply Forall_replicate; simpl length; lia].
  - intros t x Ht. lia.
  - rewrite (table_ext (offset_of lens) (fun l => offset_of lens l + cnt (take 0 lens) l)).
    2: { intros l _. rewrite take_0. simpl. lia. }
    rewrite E. cbn [result_bind]. eexists. split; [done|]. by constructor.
Qed.

(** ** Encoding and decoding *)

(** The bits of a symbol's code, the most significant one first. *)
Definition codeword (lens : list Z) (s : nat) (x : Z) : list bool :=
  rev (bits_of (Z.to_nat x) (code_of lens s x)).

Lemma reverse_code_spec n : forall c l, (length l + n <= 32)%nat ->
  reverse_code n c (value_of l) = value_of (rev (bits_of n c) ++ l).
Proof.
  induction n as [|n IH]; intros c l Hl; [done|]. cbn [reverse_code bits_of rev].
  rewrite <- app_assoc. cbn [app]. rewrite <- IH by (cbn [length]; lia). cbn [value_of].
  rewrite Z.div2_spec. f_equal.
  assert (Z.land c 1 = Z.b2z (Z.odd c)) as -> by (change 1 with (Z.ones 1); by rewrite Z.land_ones, Z.pow_1_r, Zmod_odd).
  pose proof (value_of_bound l) as Hb.
  assert (2 ^ Z.of_nat (length l) <= 2 ^ 31) by (apply Z.pow_le_mono_r; lia).
  rewrite u32_small by (rewrite Z.shiftl_mul_pow2 by lia; lia).
  rewrite Z.lor_comm, lor_shiftl by (destruct (Z.odd c); simpl; lia). lia.
Qed.

Lemma new_encoder_spec lens : valid_lengths lens -> new_encoder lens = Ok (Ok (mkEncoder (codes_of lens) lens)).
Proof. intros Hv. unfold new_encoder. by rewrite canonical_codes_spec. Qed.

Lemma write_symbol_spec lens s x w : valid_lengths lens -> lens !! s = Some x -> 0 < x -> writer_idle w ->
  exists w', write_symbol (mkEncoder (codes_of lens) lens) (Z.of_nat s) w = (Ok (Ok tt), w') /\ writer_idle w' /\
    written w' = written w ++ codeword lens s x.
Proof.
  intros Hv Hs Hx Hw. pose proof (Forall_lookup_1 _ _ _ _ (vl_lengths _ Hv) Hs) as [_ H15].
  unfold write_symbol, code_for. cbn [enc_lengths enc_codes]. rewrite Nat2Z.id, (getitem_ok _ _ _ _ Hs).
  cbn [result_bind]. rewrite (proj2 (Z.eqb_neq x 0)) by lia.
  assert (Hc : codes_of lens !! s = Some (code_of lens s x)).
  { unfold codes_of. rewrite list_lookup_imap, Hs. simpl. by rewrite (proj2 (Z.eqb_neq x 0)) by lia. }
  rewrite (getitem_ok _ _ _ _ Hc). cbn [result_bind].
  rewrite (or_return_ok _ _ w (code_of lens s x, x) w) by done.
  change 0 with (value_of []). rewrite reverse_code_spec, app_nil_r by (simpl; lia).
  destruct (write_bits_spec w (value_of (codeword lens s x)) x Hw ltac:(lia)) as (w' & E & Hw' & Hwr).
  exists w'. fold (codeword lens s x). rewrite (bind_ok _ _ _ _ _ E). split_and!; [done|done|].
  rewrite Hwr. f_equal. rewrite <- (bits_of_value (codeword lens s x)) at 2. f_equal.
  unfold codeword. by rewrite length_rev, length_bits_of.
Qed.

Lemma bits_of_snoc n v : bits_of (S n) v = bits_of n v ++ [Z.odd (v / 2 ^ Z.of_nat n)].
Proof. rewrite <- Nat.add_1_r, bits_of_add. done. Qed.

Lemma lor_bit c (b : bool) : 0 <= c -> Z.lor (2 * c) (Z.b2z b) = 2 * c + Z.b2z b.
Proof.
  intros Hc. rewrite Z.lor_comm. replace (2 * c) with (Z.shiftl c 1) by (rewrite Z.shiftl_mul_pow2; lia).
  rewrite lor_shiftl by (destruct b; simpl; lia). rewrite Z.shiftl_mul_pow2; lia.
Qed.

(** One round of the decoder's loop, on a bit that is there. *)
Lemma decode_round lens dec n l c b r rest : decodes lens dec -> reader_idle r -> (1 <= l <= 15)%nat ->
  unread r = b :: rest -> 0 <= c < 2 ^ Z.of_nat (l - 1) -> first_of lens l <= 2 * c ->
  exists r', reader_idle r' /\ unread r' = rest /\
    (let code := 2 * c + Z.b2z b in
     if code - first_of lens l <? cnt lens l
     then exists y, dec_symbols dec !! Z.to_nat (offset_of lens l + (code - first_of lens l)) = Some y /\
            decode_from dec (S n) l (2 * c) (first_of lens l) (offset_of lens l) r = (Ok (Ok y), r')
     else decode_from dec (S n) l (2 * c) (first_of lens l) (offset_of lens l) r =
            decode_from dec n (S l) (2 * code) (first_of lens (S l)) (offset_of lens (S l)) r').
Proof.
  intros [Hv Hcnt Hsym] Hr Hl Hu Hc Hfirst.
  destruct (read_field r 1 (Z.b2z b) rest Hr ltac:(lia)) as (r' & E & Hr' & Hu'); [by destruct b|].
  exists r'. split_and!; [done|done|]. intros code. cbn [decode_from]. rewrite (bind_ok _ _ _ _ _ E).
  rewrite Z.pow_1_r, (Z.mod_small (Z.b2z b)) by (destruct b; simpl; lia). rewrite lor_bit by lia. fold code.
  rewrite Hcnt. unfold counts. rewrite table_get by lia. rewrite lift_ok.
  pose proof (first_of_bound lens l Hv ltac:(lia)) as Hfb. pose proof (first_of_nonneg lens l).
  pose proof (cnt_range lens l). pose proof (offset_of_total lens (S l)). pose proof (vl_alphabet _ Hv).
  pose proof (offset_of_mono lens l l ltac:(lia)). pose proof (offset_of_S lens l).
  assert (Hcode : 0 <= code < 2 ^ Z.of_nat l).
  { subst code. replace l with (S (l - 1))%nat by lia. rewrite pow2_S. destruct b; simpl; lia. }
  assert (2 ^ Z.of_nat l <= 2 ^ 15) by (apply Z.pow_le_mono_r; lia).
  rewrite in_panic_ok by (subst code; destruct b; simpl in *; lia). rewrite lift_ok.
  destruct (Z.ltb_spec (code - first_of lens l) (cnt lens l)) as [Hlt|Hge].
  - destruct (lookup_lt_is_Some_2 (dec_symbols dec) (Z.to_nat (offset_of lens l + (code - first_of lens l)))) as [y Hy].
    { apply Nat2Z.inj_lt. rewrite (sorts_length _ _ Hsym), Z2Nat.id by (subst code; destruct b; simpl in *; lia).
      pose proof (offset_of_mono lens (S l) 16 ltac:(lia)). lia. }
    exists y. split; [done|]. rewrite <- Z2Nat.inj_add by (subst code; destruct b; simpl in *; lia).
    by rewrite (getitem_ok _ _ _ _ Hy), lift_ok.
  - rewrite !Z.shiftl_mul_pow2, Z.pow_1_r by lia. rewrite (u32_small (first_of lens l + cnt lens l)) by lia.
    rewrite !u32_small by lia. f_equal; cbn [first_of]; lia.
Qed.

Lemma half_step c k : 0 <= c -> c / 2 ^ Z.of_nat k = 2 * (c / 2 ^ Z.of_nat (S k)) + Z.b2z (Z.odd (c / 2 ^ Z.of_nat k)).
Proof.
  intros Hc. assert (0 < 2 ^ Z.of_nat k) by (apply Z.pow_pos_nonneg; lia).
  assert (c / 2 ^ Z.of_nat (S k) = Z.div2 (c / 2 ^ Z.of_nat k)) as ->.
  { by rewrite pow2_S, (Z.mul_comm 2 (2 ^ _)), <- Z.div_div, Z.div2_div by lia. } pose proof (odd_div2 (c / 2 ^ Z.of_nat k)). lia.
Qed.

Lemma decode_from_codeword lens dec s x rest : decodes lens dec -> lens !! s = Some x -> 0 < x ->
  forall k n l r, (l + k = Z.to_nat x)%nat -> (l + S n = 16)%nat -> (1 <= l)%nat -> reader_idle r ->
  unread r = rev (bits_of (S k) (code_of lens s x)) ++ rest ->
  0 <= code_of lens s x / 2 ^ Z.of_nat (S k) < 2 ^ Z.of_nat (l - 1) ->
  first_of lens l <= 2 * (code_of lens s x / 2 ^ Z.of_nat (S k)) ->
  exists r', decode_from dec (S n) l (2 * (code_of lens s x / 2 ^ Z.of_nat (S k))) (first_of lens l) (offset_of lens l) r =
    (Ok (Ok (Z.of_nat s)), r') /\ reader_idle r' /\ unread r' = rest.
Proof.
  intros Hdec Hs Hx. pose proof (decodes_valid _ _ Hdec) as Hv.
  pose proof (code_of_bound lens s x Hv Hs Hx) as HC. pose proof (cnt_take_lt lens s x Hs Hx) as Hrank.
  pose proof (cnt_range (take s lens) (Z.to_nat x)) as Hrank0.
  induction k as [|k IH]; intros n l r Hlk Hln Hl Hr Hu Hc Hfirst;
    rewrite bits_of_snoc, rev_app_distr in Hu; cbn [rev app] in Hu;
    destruct (decode_round lens dec n l _ _ r _ Hdec Hr ltac:(lia) Hu Hc Hfirst) as (r1 & Hr1 & Hu1 & E);
    rewrite <- half_step in E by lia; cbv zeta in E.
  - exists r1. change (2 ^ Z.of_nat 0) with 1 in E. rewrite Z.div_1_r in E. replace l with (Z.to_nat x) in E |- * by lia.
    unfold code_of in E at 1. rewrite (proj2 (Z.ltb_lt _ _)) in E by lia. destruct E as (y & Hy & E).
    split_and!; [|done|done]. rewrite E. repeat f_equal.
    pose proof (sorts_slot _ _ (decodes_symbols _ _ Hdec) s x Hs Hx) as Hslot.
    unfold slot_of in Hslot. unfold code_of in Hy.
    replace (offset_of lens (Z.to_nat x) + _) with (offset_of lens (Z.to_nat x) + cnt (take s lens) (Z.to_nat x)) in Hy by lia.
    congruence.
  - assert (Hskip : first_of lens l + cnt lens l <= code_of lens s x / 2 ^ Z.of_nat (S k)).
    { apply Z.div_le_lower_bound; [apply Z.pow_pos_nonneg; lia|].
      pose proof (first_of_skip lens l k) as Hsk. replace (l + S k)%nat with (Z.to_nat x) in Hsk by lia.
      unfold code_of. lia. }
    rewrite (proj2 (Z.ltb_ge _ _)) in E by lia. rewrite E.
    destruct n as [|n]; [pose proof (Forall_lookup_1 _ _ _ _ (vl_lengths _ Hv) Hs) as []; lia|].
    apply IH; [lia|lia|lia|done|done| |cbn [first_of]; lia].
    split; [apply Z.div_pos; lia|]. apply Z.div_lt_upper_bound; [apply Z.pow_pos_nonneg; lia|].
    rewrite <- pow2_split by lia. replace (Z.of_nat (S k) + Z.of_nat (S l - 1)) with x by lia. lia.
Qed.

Lemma decode_codeword lens dec s x r rest : decodes lens dec -> lens !! s = Some x -> 0 < x ->
  reader_idle r -> unread r = codeword lens s x ++ rest ->
  exists r', decode dec r = (Ok (Ok (Z.of_nat s)), r') /\ reader_idle r' /\ unread r' = rest.
Proof.
  intros Hdec Hs Hx Hr Hu. pose proof (decodes_valid _ _ Hdec) as Hv.
  pose proof (code_of_bound lens s x Hv Hs Hx) as HC. unfold codeword in Hu.
  destruct (Z.to_nat x) as [|k] eqn:Hk; [lia|].
  assert (H0 : code_of lens s x / 2 ^ Z.of_nat (S k) = 0) by (apply Z.div_small; by replace (Z.of_nat (S k)) with x by lia).
  pose proof (decode_from_codeword lens dec s x rest Hdec Hs Hx k 14 1 r) as Hd. rewrite H0 in Hd.
  cbn [first_of offset_of] in Hd. rewrite cnt_zero in Hd. apply Hd; done || lia.
Qed.

(** Whatever the bits are, the decoder ends with a symbol of the alphabet or
    an error value, and a symbol used at least one bit. *)
Definition decode_result (lens : list Z) (r r' : BitReader) (res : result HuffmanError Z) : Prop :=
  reader_idle r' /\ (length (unread r') <= length (unread r))%nat /\
  match res with
  | Ok y => 0 <= y < Z.of_nat (length lens) /\ (length (unread r') < length (unread r))%nat
  | Err e => e = UnexpectedEndOfStream \/ e = NoSymbolMatched
  end.

Lemma decode_from_total lens dec : decodes lens dec ->
  forall n l c r, (l + n = 16)%nat -> (1 <= l)%nat -> reader_idle r ->
  0 <= c < 2 ^ Z.of_nat (l - 1) -> first_of lens l <= 2 * c ->
  exists res r', decode_from dec n l (2 * c) (first_of lens l) (offset_of lens l) r = (Ok res, r') /\ decode_result lens r r' res.
Proof.
  intros Hdec. induction n as [|n IH]; intros l c r Hln Hl Hr Hc Hfirst.
  { eexists _, r. split; [done|]. unfold decode_result. split_and!; [done|lia|by right]. }
  destruct (unread r) as [|b rest] eqn:Hu.
  - destruct (read_bits_spec r 1 Hr ltac:(lia)) as (r' & Hr' & [(_ & Hlen & _)|((e & E) & _ & Hu')]).
    { rewrite Hu in Hlen. simpl in Hlen. lia. }
    eexists _, r'. cbn [decode_from]. rewrite (bind_ok _ _ _ _ _ E). split; [done|]. unfold decode_result.
    split_and!; [done|rewrite Hu'; lia|by left].
  - destruct (decode_round lens dec n l c b r rest Hdec Hr ltac:(lia) Hu Hc Hfirst) as (r1 & Hr1 & Hu1 & E).
    cbv zeta in E. destruct (Z.ltb_spec (2 * c + Z.b2z b - first_of lens l) (cnt lens l)) as [Hlt|Hge].
    + destruct E as (y & Hy & E). eexists _, r1. split; [exact E|]. unfold decode_result. rewrite Hu, Hu1. cbn [length].
      pose proof (Forall_lookup_1 _ _ _ _ (sorts_range _ _ (decodes_symbols _ _ Hdec)) Hy).
      simpl in H. split_and!; done || lia.
    + assert (Hc' : 0 <= 2 * c + Z.b2z b < 2 ^ Z.of_nat (S l - 1)).
      { replace (S l - 1)%nat with (S (l - 1))%nat by lia. rewrite pow2_S. destruct b; simpl; lia. }
      destruct (IH (S l) (2 * c + Z.b2z b) r1) as (res & r' & E' & Hr' & Hle & Hres); [lia|lia|done|done|cbn [first_of]; lia|].
      exists res, r'. rewrite E. split; [done|]. unfold decode_result. rewrite Hu. rewrite Hu1 in Hle, Hres. cbn [length].
      split_and!; [done|lia|]. destruct res; [|done]. destruct Hres as [? Hlen]. split; [done|lia].
Qed.

Lemma decode_total lens dec r : decodes lens dec -> reader_idle r ->
  exists res r', decode dec r = (Ok res, r') /\ decode_result lens r r' res.
Proof.
  intros Hdec Hr. pose proof (decode_from_total lens dec Hdec 15 1 0 r) as Ht.
  cbn [first_of offset_of] in Ht. rewrite cnt_zero in Ht. apply Ht; done || lia.
Qed.

(** Building either table from bytes never panics, and fails alike: exactly
    when the lengths are not those of a code. *)
Lemma new_decoder_total lens : Forall is_byte lens -> Z.of_nat (length lens) < 2 ^ 16 ->
  exists res, new_decoder lens = Ok res /\
    match res with Ok dec => decodes lens dec | Err _ => ~ valid_lengths lens end.
Proof.
  intros Hby Hlen. destruct (count_per_length_spec lens Hby Hlen) as ([c|e] & E & Hres).
  - destruct Hres as [_ Hv]. destruct (new_decoder_spec lens Hv) as (dec & E' & Hdec). by exists (Ok dec).
  - exists (Err e). unfold new_decoder. rewrite E. done.
Qed.

(** ** Round trip *)

Fixpoint write_symbols (enc : HuffmanEncoder) (symbols : list nat) : W (result HuffmanError unit) :=
  match symbols with
  | [] => ret (Ok tt)
  | s :: symbols => let! _ := write_symbol enc (Z.of_nat s) in write_symbols enc symbols
  end.

Fixpoint decode_symbols (dec : HuffmanDecoder) (n : nat) : R (result HuffmanError (list Z)) :=
  match n with
  | O => ret (Ok [])
  | S n => let! s := decode dec in let! rest := decode_symbols dec n in ret (Ok (s :: rest))
  end.

(** A symbol the code has. *)
Definition has_code (lens : list Z) (s : nat) : Prop := exists x, lens !! s = Some x /\ 0 < x.

Lemma symbols_spec lens enc dec symbols : valid_lengths lens -> new_encoder lens = Ok (Ok enc) -> decodes lens dec ->
  Forall (has_code lens) symbols -> exists bits,
  (forall w, writer_idle w -> exists w', write_symbols enc symbols w = (Ok (Ok tt), w') /\ writer_idle w' /\
     written w' = written w ++ bits) /\
  (forall r rest, reader_idle r -> unread r = bits ++ rest -> exists r',
     decode_symbols dec (length symbols) r = (Ok (Ok (map Z.of_nat symbols)), r') /\ reader_idle r' /\ unread r' = rest).
Proof.
  intros Hv He Hdec Hok. rewrite new_encoder_spec in He by done. injection He as <-.
  induction Hok as [|s symbols (x & Hs & Hx) _ (bits & Hwr & Hrd)].
  - exists []. split; [intros w Hw; exists w; by rewrite app_nil_r|intros r rest Hr Hu; by exists r].
  - exists (codeword lens s x ++ bits). split.
    + intros w Hw. destruct (write_symbol_spec lens s x w Hv Hs Hx Hw) as (w1 & E1 & Hw1 & Hb1).
      destruct (Hwr w1 Hw1) as (w' & E & Hw' & Hb). exists w'. cbn [write_symbols].
      rewrite (or_return_ok _ _ _ _ _ E1). split_and!; [done|done|]. by rewrite Hb, Hb1, <- app_assoc.
    + intros r rest Hr Hu. rewrite <- app_assoc in Hu.
      destruct (decode_codeword lens dec s x r _ Hdec Hs Hx Hr Hu) as (r1 & E1 & Hr1 & Hu1).
      destruct (Hrd r1 rest Hr1 Hu1) as (r' & E & Hr' & Hu'). exists r'. cbn [length decode_symbols map].
      by rewrite (or_return_ok _ _ _ _ _ E1), (or_return_ok _ _ _ _ _ E).
Qed.

(** For code lengths the over-subscription check accepts, an encoder and a
    decoder built from them agree: every sequence of symbols that have codes is
    written without an error or a panic and is decoded, symbol for symbol, from
    the bytes the writer hands out. *)
Theorem code_roundtrip lens symbols : valid_lengths lens -> Forall (has_code lens) symbols ->
  exists enc dec w out w' r', new_encoder lens = Ok (Ok enc) /\ new_decoder lens = Ok (Ok dec) /\
    write_symbols enc symbols new_writer = (Ok (Ok tt), w) /\ finish w = (Ok out, w') /\
    decode_symbols dec (length symbols) (new_reader out) = (Ok (Ok (map Z.of_nat symbols)), r').
Proof.
  intros Hv Hok. destruct (new_decoder_spec lens Hv) as (dec & Edec & Hdec).
  destruct (symbols_spec lens _ dec symbols Hv (new_encoder_spec lens Hv) Hdec Hok) as (bits & Hwr & Hrd).
  destruct (Hwr new_writer new_writer_idle) as (w & Ew & Hw & Hb).
  destruct (finish_spec w Hw) as (out & w' & pad & Ef & Hby & Hout & _).
  destruct (Hrd (new_reader out) (replicate pad false) (new_reader_idle out Hby)) as (r' & Er & _).
  { by rewrite unread_new, Hout, Hb, written_new. }
  eexists _, dec, w, out, w', r'. split_and!; [by apply new_encoder_spec|done|done|done|done].
Qed.

(** Checking [valid_lengths] by computation. *)
Lemma lengths_fit_valid lens : Z.of_nat (length lens) < 2 ^ 16 -> forallb (fun x => (0 <=? x) && (x <=? 15)) lens = true ->
  forallb (fun l => first_of lens l + cnt lens l <=? 2 ^ Z.of_nat l) (seq 0 16) = true -> valid_lengths lens.
Proof.
  intros Hlen Hb Hf. constructor; [done| |].
  - apply Forall_forall. intros x Hx%list_elem_of_In. rewrite forallb_forall in Hb. specialize (Hb x Hx).
    apply andb_prop in Hb as [?%Z.leb_le ?%Z.leb_le]. done.
  - intros l Hl. rewrite forallb_forall in Hf. apply Z.leb_le, Hf, in_seq. lia.
Qed.

Lemma code_roundtrip_witness : exists enc dec w out w' r',
    new_encoder [2; 0; 1; 3; 3] = Ok (Ok enc) /\ new_decoder [2; 0; 1; 3; 3] = Ok (Ok dec) /\
    write_symbols enc [4; 2; 0; 3; 2]%nat new_writer = (Ok (Ok tt), w) /\ finish w = (Ok out, w') /\
    decode_symbols dec 5 (new_reader out) = (Ok (Ok [4; 2; 0; 3; 2]), r').
Proof.
  apply (code_roundtrip [2; 0; 1; 3; 3] [4; 2; 0; 3; 2]%nat).
  - by apply lengths_fit_valid; vm_compute.
  - repeat (constructor; [eexists; split; [reflexivity|lia]|]). constructor.
Defined.
