(* ===== verification/HuffmanTree.v ===== *)
(** * Code lengths from frequencies
    ([build_code_lengths_from_frequencies] of [lib/huffman.py])

    The encoder's side of a dynamic block: the tree is kept in parallel arrays
    (weights, children, active flags), merged two lightest nodes at a time, and
    walked with an explicit stack.  The specification is an inductive tree:
    [grown] says which trees the arrays hold. *)

From S2P Require Import Prelude RawList Bits Bitstream Huffman.

Local Open Scope Z_scope.
Local Open Scope monad_scope.

(** The symbols that occur. *)
Fixpoint used_symbols (sym : nat) (freqs : list Z) : result abort (list Z) :=
  match freqs with
  | [] => Ok []
  | f :: freqs =>
      if 0 <? f then
        let? s := panic_u16 "bounded by n, cannot overflow" (Z.of_nat sym) in
        let? used := used_symbols (S sym) freqs in
        Ok (s :: used)
      else used_symbols (S sym) freqs
  end.

Record Nodes := mkNodes {
  weight : list Z;
  left_child : list Z;
  right_child : list Z;
  active : list bool;
}.

Definition push_node (w l r : Z) (act : bool) (t : Nodes) : Nodes :=
  mkNodes (weight t ++ [w]) (left_child t ++ [l]) (right_child t ++ [r]) (active t ++ [act]).

Fixpoint push_leaves (used freqs : list Z) (t : Nodes) : result abort Nodes :=
  match used with
  | [] => Ok t
  | leaf_sym :: used =>
      let? leaf_freq := unwrap "leaf_sym < n" (list_getitem (Z.to_nat leaf_sym) freqs) in
      push_leaves used freqs (push_node leaf_freq (-1) (-1) true t)
  end.

(** The scan's variables: the two lightest active nodes so far. *)
Record Lightest := mkLightest { min_a : Z; min_b : Z; min_a_w : Z; min_b_w : Z }.

Fixpoint find_lightest (n scan : nat) (t : Nodes) (m : Lightest) : result abort Lightest :=
  match n with
  | O => Ok m
  | S n =>
      let? act := unwrap "scan < node_count" (list_getitem scan (active t)) in
      if (act : bool) then
        let? w := unwrap "scan < node_count" (list_getitem scan (weight t)) in
        let? i := panic_i32 "bounded by used_count, cannot overflow" (Z.of_nat scan) in
        if w <? min_a_w m then find_lightest n (S scan) t (mkLightest i (min_a m) w (min_a_w m))
        else if w <? min_b_w m then find_lightest n (S scan) t (mkLightest (min_a m) i (min_a_w m) w)
        else find_lightest n (S scan) t m
      else find_lightest n (S scan) t m
  end.

Definition no_lightest : Lightest := mkLightest (-1) (-1) 0xFFFFFFFF 0xFFFFFFFF.

Definition set_active a (t : Nodes) : Nodes := mkNodes (weight t) (left_child t) (right_child t) a.

Definition merge_lightest (node_count : nat) (t : Nodes) : result abort Nodes :=
  let? m := find_lightest node_count 0 t no_lightest in
  let? a := usize_of_i32 (min_a m) in
  let? act := unwrap "a valid index" (list_setitem a false (active t)) in
  let? b := usize_of_i32 (min_b m) in
  let? act := unwrap "b valid index" (list_setitem b false act) in
  let new_weight := u32 (min_a_w m + min_b_w m) in
  Ok (push_node new_weight (min_a m) (min_b m) true (set_active act t)).

Fixpoint merge_all (steps node_count : nat) (t : Nodes) : result abort Nodes :=
  match steps with
  | O => Ok t
  | S steps => let? t := merge_lightest node_count t in merge_all steps (S node_count) t
  end.

(** The walk: [node_stack] and [depth_stack], the last entry on top. *)
Fixpoint walk (fuel : nat) (node_stack depth_stack : list Z) (t : Nodes) (depth : list Z) (max_depth : Z) :
    result abort (list Z * Z) :=
  match fuel with
  | O => Err Fault
  | S fuel =>
      if (0 <? length node_stack)%nat then
        let? last := panic_sub "len > 0, just checked" (length node_stack) 1 in
        let? idx := unwrap "last valid" (list_getitem last node_stack) in
        let? d := unwrap "last valid" (list_getitem last depth_stack) in
        let? node_stack := unwrap "last valid" (list_erase_at last node_stack) in
        let? depth_stack := unwrap "last valid" (list_erase_at last depth_stack) in
        let? i := usize_of_i32 idx in
        let? lc := unwrap "idx valid" (list_getitem i (left_child t)) in
        let? rc := unwrap "idx valid" (list_getitem i (right_child t)) in
        if lc =? -1 then
          let? depth := unwrap "idx valid" (list_setitem i d depth) in
          walk fuel node_stack depth_stack t depth (if max_depth <? d then d else max_depth)
        else
          let child_depth := u8 (d + 1) in
          walk fuel (node_stack ++ [lc] ++ [rc]) (depth_stack ++ [child_depth] ++ [child_depth]) t depth max_depth
      else Ok (depth, max_depth)
  end.

Fixpoint store_lengths (used : list Z) (fi : nat) (depth lengths : list Z) : result abort (list Z) :=
  match used with
  | [] => Ok lengths
  | leaf_sym :: used =>
      let? leaf_depth := unwrap "fi < used_count, leaves are indices [0,used_count)" (list_getitem fi depth) in
      let? lengths := unwrap "leaf_sym2 < n" (list_setitem (Z.to_nat leaf_sym) leaf_depth lengths) in
      store_lengths used (S fi) depth lengths
  end.

Definition build_code_lengths_from_frequencies (freqs : list Z) (max_code_length : Z) : H (list Z) :=
  let? used := used_symbols 0 freqs in
  let lengths := replicate (length freqs) 0 in
  let used_count := length used in
  if (used_count =? 0)%nat then Ok (Ok lengths)
  else if (used_count =? 1)%nat then
    let? only_sym := unwrap "used_count == 1" (list_getitem 0 used) in
    let? lengths := unwrap "only_sym < n" (list_setitem (Z.to_nat only_sym) 1 lengths) in
    Ok (Ok lengths)
  else
    let? capacity := panic_sub "used_count >= 2, capacity fits comfortably within a usize" (2 * used_count) 1 in
    let? t := push_leaves used freqs (mkNodes [] [] [] []) in
    let? steps := panic_sub "bounded by used_count, cannot overflow" used_count 1 in
    let? t := merge_all steps used_count t in
    let node_count := (used_count + steps)%nat in
    let? root := panic_sub "node_count == capacity, both derived from used_count" node_count 1 in
    let? root := panic_i32 "root < capacity <= 2*used_count-1, well within i32 range" (Z.of_nat root) in
    let? (depth, max_depth) := walk (S capacity) [root] [0] t (replicate capacity 0) 0 in
    if max_code_length <? max_depth then Ok (Err CodeTooLong)
    else
      let? lengths := store_lengths used 0 depth lengths in
      Ok (Ok lengths).

(** ** Trees *)

Inductive tree :=
| Leaf (i : nat)
| Node (i : nat) (l r : tree).

Definition tree_index (t : tree) : nat := match t with Leaf i | Node i _ _ => i end.

Fixpoint tree_leaves (t : tree) : list nat :=
  match t with Leaf i => [i] | Node _ l r => tree_leaves r ++ tree_leaves l end.

Fixpoint tree_size (t : tree) : nat :=
  match t with Leaf _ => 1 | Node _ l r => S (tree_size l + tree_size r) end.

Fixpoint tree_height (t : tree) : nat :=
  match t with Leaf _ => 0 | Node _ l r => S (tree_height l `max` tree_height r) end.

(** The leaves with their depths, in the order the walk meets them. *)
Fixpoint leaf_depths (t : tree) (d : Z) : list (nat * Z) :=
  match t with
  | Leaf i => [(i, d)]
  | Node _ l r => leaf_depths r (d + 1) ++ leaf_depths l (d + 1)
  end.

(** The weight of a tree, from those of the leaves. *)
Fixpoint mass (ws : list Z) (t : tree) : Z :=
  match t with
  | Leaf i => default 0 (ws !! i)
  | Node _ l r => mass ws l + mass ws r
  end.

(** No child outweighs the sibling of its parent. *)
Definition children_below (ws : list Z) (m : Z) (t : tree) : Prop :=
  match t with Leaf _ => True | Node _ l r => mass ws l <= m /\ mass ws r <= m end.

Fixpoint fair (ws : list Z) (t : tree) : Prop :=
  match t with
  | Leaf i => 1 <= mass ws t
  | Node _ l r => fair ws l /\ fair ws r /\ children_below ws (mass ws r) l /\ children_below ws (mass ws l) r
  end.

(** The arrays hold a tree. *)
Fixpoint holds_tree (ns : Nodes) (t : tree) : Prop :=
  match t with
  | Leaf i => left_child ns !! i = Some (-1) /\ right_child ns !! i = Some (-1)
  | Node i l r => left_child ns !! i = Some (Z.of_nat (tree_index l)) /\ right_child ns !! i = Some (Z.of_nat (tree_index r)) /\
                  holds_tree ns l /\ holds_tree ns r
  end.

(** ** Heights: a tall tree is heavy *)

(** The least mass of a fair tree of each tree_height: 1, 2, 3, 5, ... *)
Fixpoint fib_pair (n : nat) : Z * Z :=
  match n with O => (1, 2) | S n => let '(a, b) := fib_pair n in (b, a + b) end.

Definition least_mass (n : nat) : Z := (fib_pair n).1.

Lemma least_mass_SS n : least_mass (S (S n)) = least_mass (S n) + least_mass n.
Proof. unfold least_mass. cbn [fib_pair]. destruct (fib_pair n) as [a b]. simpl. lia. Qed.

Lemma least_mass_step n : 1 <= least_mass n /\ least_mass n <= least_mass (S n).
Proof.
  induction n as [|n IH]; [by compute|]. rewrite least_mass_SS. lia.
Qed.

Lemma least_mass_mono n m : (n <= m)%nat -> least_mass n <= least_mass m.
Proof. induction 1 as [|m _ IH]; [done|]. pose proof (least_mass_step m). lia. Qed.

Lemma mass_pos ws t : fair ws t -> 1 <= mass ws t.
Proof. induction t as [i|i l IHl r IHr]; simpl; [done|]. intros (Hl & Hr & _). specialize (IHl Hl). specialize (IHr Hr). lia. Qed.

Lemma tall_heavy_child ws l r : fair ws l -> fair ws r -> children_below ws (mass ws r) l ->
  (forall t, t = l \/ (exists i l1 r1, l = Node i l1 r1 /\ (t = l1 \/ t = r1)) -> least_mass (tree_height t) <= mass ws t) ->
  1 <= mass ws r -> least_mass (S (tree_height l)) <= mass ws l + mass ws r.
Proof.
  intros Hl Hr Hb IH Hpos. pose proof (IH l (or_introl eq_refl)) as Hml.
  destruct l as [i|i l1 r1]; [cbn [tree_height] in *; change (least_mass 1) with 2; change (least_mass 0) with 1 in Hml; lia|].
  cbn [tree_height] in *. rewrite least_mass_SS. simpl in Hb.
  pose proof (IH l1 ltac:(eauto 10)). pose proof (IH r1 ltac:(eauto 10)).
  destruct (Nat.max_spec (tree_height l1) (tree_height r1)) as [[_ E]|[_ E]]; rewrite E in *; lia.
Qed.

Lemma tall_heavy ws t : fair ws t -> least_mass (tree_height t) <= mass ws t.
Proof.
  induction t as [t IH] using (induction_ltof1 _ tree_size). unfold ltof in IH.
  destruct t as [i|i l r]; [intros Hf; exact Hf|]. intros (Hl & Hr & Hlb & Hrb). cbn [tree_height mass].
  pose proof (mass_pos _ _ Hl). pose proof (mass_pos _ _ Hr).
  destruct (Nat.max_spec (tree_height l) (tree_height r)) as [[_ ->]|[_ ->]].
  - rewrite Z.add_comm. apply tall_heavy_child; try done.
    intros t [->|(j & l1 & r1 & -> & Ht)]; [apply IH; [simpl; lia|done]|].
    destruct Hr as (Hr1 & Hr2 & _). destruct Ht as [->| ->]; (apply IH; [simpl; lia|done]).
  - apply tall_heavy_child; try done.
    intros t [->|(j & l1 & r1 & -> & Ht)]; [apply IH; [simpl; lia|done]|].
    destruct Hl as (Hl1 & Hl2 & _). destruct Ht as [->| ->]; (apply IH; [simpl; lia|done]).
Qed.

(** Weights below [2 ^ 32] bound the tree_height, so depths fit a byte. *)
Lemma height_bound ws t : fair ws t -> mass ws t < 2 ^ 32 -> (tree_height t < 50)%nat.
Proof.
  intros Hf Hm. pose proof (tall_heavy ws t Hf) as Ht. destruct (Nat.lt_ge_cases (tree_height t) 50) as [|Hge]; [done|].
  pose proof (least_mass_mono 50 _ Hge) as Hmono. assert (2 ^ 32 <= least_mass 50) by by vm_compute. lia.
Qed.

(** ** Kraft sums *)

(** The code space, in codes of length [l], that a code of length [x] takes. *)
Definition share (l : nat) (x : Z) : Z :=
  if (0 <? x) && (x <=? Z.of_nat l) then 2 ^ (Z.of_nat l - x) else 0.

Definition kraft (l : nat) (xs : list Z) : Z := foldr (fun x acc => share l x + acc) 0 xs.

Lemma kraft_app l a b : kraft l (a ++ b) = kraft l a + kraft l b.
Proof. induction a as [|x a IH]; [done|]. cbn [app kraft foldr]. fold (kraft l (a ++ b)) (kraft l a). lia. Qed.

#[export] Instance kraft_Permutation l : Proper (Permutation ==> eq) (kraft l).
Proof.
  intros a b Hp. induction Hp as [|x a b _ IH|x y a|a b c _ IH1 _ IH2]; cbn [kraft foldr]; unfold kraft in *; lia.
Qed.

Lemma share_nonneg l x : 0 <= share l x.
Proof. unfold share. destruct (_ && _); [apply Z.pow_nonneg|]; lia. Qed.

(** What [_count_per_length] checks is Kraft's inequality. *)
Lemma first_of_kraft lens l : first_of lens l + cnt lens l = kraft l lens.
Proof.
  assert (Happ : forall k a b, first_of (a ++ b) k = first_of a k + first_of b k).
  { induction k as [|k IH]; intros a b; cbn [first_of]; [done|]. rewrite IH, cnt_app. lia. }
  assert (Hone : forall x k, first_of [x] k + cnt [x] k = share k x).
  { intros x. induction k as [|k IH]; cbn [first_of].
    - rewrite cnt_singleton. unfold share. destruct (Z.ltb_spec 0 x), (Z.eqb_spec x (Z.of_nat 0)), (Z.leb_spec x (Z.of_nat 0)); simpl; lia.
    - rewrite IH, cnt_singleton. unfold share.
      destruct (Z.ltb_spec 0 x), (Z.eqb_spec x (Z.of_nat (S k))), (Z.leb_spec x (Z.of_nat (S k))), (Z.leb_spec x (Z.of_nat k));
        cbn [andb Z.b2z]; try lia.
      + by replace (Z.of_nat (S k) - x) with 0 by lia.
      + replace (Z.of_nat (S k) - x) with (Z.succ (Z.of_nat k - x)) by lia. rewrite Z.pow_succ_r by lia. lia. }
  induction lens as [|x lens IH].
  - cbn [cnt kraft foldr]. induction l as [|l IHl]; cbn [first_of cnt]; lia.
  - change (x :: lens) with ([x] ++ lens). rewrite Happ, cnt_app, kraft_app, <- IH.
    specialize (Hone x l). cbn [kraft foldr]. lia.
Qed.

(** The leaves of a tree of depth [d] take no more than its own code. *)
Lemma kraft_tree l t : forall d, 0 <= d ->
  kraft l (map snd (leaf_depths t (d + 1))) <= if d + 1 <=? Z.of_nat l then 2 ^ (Z.of_nat l - (d + 1)) else 0.
Proof.
  induction t as [i|i lt IHl rt IHr]; intros d Hd; cbn [leaf_depths map].
  - cbn [kraft foldr]. unfold share. cbn [snd]. rewrite (proj2 (Z.ltb_lt _ _)) by lia. cbn [andb]. destruct (_ <=? _); lia.
  - rewrite map_app, kraft_app. specialize (IHl (d + 1) ltac:(lia)). specialize (IHr (d + 1) ltac:(lia)).
    destruct (Z.leb_spec (d + 1 + 1) (Z.of_nat l)) as [Hle|Hgt].
    + rewrite (proj2 (Z.leb_le _ _)) by lia.
      replace (Z.of_nat l - (d + 1)) with (Z.succ (Z.of_nat l - (d + 1 + 1))) by lia.
      rewrite Z.pow_succ_r by lia. lia.
    + destruct (_ <=? _); [|lia]. pose proof (Z.pow_nonneg 2 (Z.of_nat l - (d + 1)) ltac:(lia)). lia.
Qed.

(** ** The scan for the two lightest nodes *)

Definition is_active (ns : Nodes) (i : nat) : Prop := active ns !! i = Some true.

(** What the scan knows of the nodes below [scan]. *)
Inductive lightest_of (ns : Nodes) (scan : nat) : Lightest -> Prop :=
| none_yet :
    (forall i, (i < scan)%nat -> ~ is_active ns i) -> lightest_of ns scan no_lightest
| one_yet a wa :
    (a < scan)%nat -> is_active ns a -> weight ns !! a = Some wa -> wa < 0xFFFFFFFF ->
    (forall i, (i < scan)%nat -> is_active ns i -> i = a) ->
    lightest_of ns scan (mkLightest (Z.of_nat a) (-1) wa 0xFFFFFFFF)
| two_yet a b wa wb :
    (a < scan)%nat -> (b < scan)%nat -> a <> b -> is_active ns a -> is_active ns b ->
    weight ns !! a = Some wa -> weight ns !! b = Some wb -> wa <= wb < 0xFFFFFFFF ->
    (forall i w, (i < scan)%nat -> is_active ns i -> weight ns !! i = Some w -> i = a \/ i = b \/ wb <= w) ->
    lightest_of ns scan (mkLightest (Z.of_nat a) (Z.of_nat b) wa wb).

Lemma lightest_skip ns scan m : lightest_of ns scan m -> ~ is_active ns scan -> lightest_of ns (S scan) m.
Proof.
  assert (Hlt : forall i, (i < S scan)%nat -> ~ is_active ns scan -> is_active ns i -> (i < scan)%nat).
  { intros i Hi Hn Ha. destruct (decide (i = scan)) as [->|]; [done|lia]. }
  intros [Hno|a wa Ha Hact Hwa Hmax Hall|a b wa wb Ha Hb Hab Hacta Hactb Hwa Hwb Hle Hall] Hn; constructor; eauto with lia.
  intros i Hi Hai. apply (Hno i); eauto.
Qed.

Lemma lightest_step ns scan m w : lightest_of ns scan m -> is_active ns scan -> weight ns !! scan = Some w ->
  0 <= w < 0xFFFFFFFF ->
  lightest_of ns (S scan)
    (if w <? min_a_w m then mkLightest (Z.of_nat scan) (min_a m) w (min_a_w m)
     else if w <? min_b_w m then mkLightest (min_a m) (Z.of_nat scan) (min_a_w m) w else m).
Proof.
  assert (Hcase : forall i, (i < S scan)%nat -> i = scan \/ (i < scan)%nat) by lia.
  intros [Hno|a wa Ha Hact Hwa Hmax Hall|a b wa wb Ha Hb Hab Hacta Hactb Hwa Hwb Hle Hall] Hs Hw Hr;
    cbn [no_lightest min_a min_b min_a_w min_b_w].
  - rewrite (proj2 (Z.ltb_lt _ _)) by lia. constructor; [lia|done|done|lia|].
    intros i Hi Hai. destruct (Hcase i Hi) as [->|]; [done|]. by destruct (Hno i).
  - rewrite (proj2 (Z.ltb_lt w 0xFFFFFFFF)) by lia.
    destruct (Z.ltb_spec w wa); (constructor; [lia|lia|lia|done|done|done|done|lia|]);
      intros i wi Hi Hai Hwi; (destruct (Hcase i Hi) as [->|Hi']; [tauto|rewrite (Hall i) by done; tauto]).
  - destruct (Z.ltb_spec w wa); [|destruct (Z.ltb_spec w wb)];
      (constructor; [lia|lia|lia|done|done|done|done|lia|]);
      intros i wi Hi Hai Hwi; destruct (Hcase i Hi) as [->|Hi'];
      try (assert (wi = w) as -> by congruence); try tauto; try lia;
      destruct (Hall i wi Hi' Hai Hwi) as [->|[->|]]; try tauto; try lia;
      try (assert (wi = wa) by congruence); try (assert (wi = wb) by congruence); lia.
Qed.

Lemma find_lightest_spec ns n : forall scan m, lightest_of ns scan m ->
  length (active ns) = (scan + n)%nat -> Z.of_nat (scan + n) < 2 ^ 31 ->
  (forall i, is_active ns i -> exists w, weight ns !! i = Some w /\ 0 <= w < 0xFFFFFFFF) ->
  exists m', find_lightest n scan ns m = Ok m' /\ lightest_of ns (scan + n) m'.
Proof.
  induction n as [|n IH]; intros scan m Hm Hlen Hsz Hw; cbn [find_lightest].
  { exists m. by rewrite Nat.add_0_r. }
  destruct (lookup_lt_is_Some_2 (active ns) scan) as [act Hact]; [lia|]. rewrite (getitem_ok _ _ _ _ Hact).
  cbn [result_bind]. rewrite <- Nat.add_succ_comm in *. destruct act.
  - destruct (Hw scan Hact) as (w & Hwt & Hr). rewrite (getitem_ok _ _ _ _ Hwt). cbn [result_bind].
    rewrite in_panic_ok by lia. cbn [result_bind].
    pose proof (lightest_step ns scan m w Hm Hact Hwt Hr) as Hm'.
    destruct (w <? min_a_w m); [|destruct (w <? min_b_w m)]; by apply IH.
  - apply IH; try done. apply lightest_skip; [done|]. unfold is_active. congruence.
Qed.

(** ** The forest *)

Definition total (l : list Z) : Z := foldr Z.add 0 l.

Record grown (k n : nat) (ws : list Z) (ns : Nodes) (ts : list tree) : Prop := {
  grown_sizes : length (weight ns) = n /\ length (left_child ns) = n /\ length (right_child ns) = n /\ length (active ns) = n;
  grown_active : forall i, (i < n)%nat -> active ns !! i = Some (bool_decide (i ∈ map tree_index ts));
  grown_index : Forall (fun t => (tree_index t < n)%nat) ts;
  grown_distinct : NoDup (map tree_index ts);
  grown_holds : Forall (holds_tree ns) ts;
  grown_weights : Forall (fun t => weight ns !! tree_index t = Some (mass ws t)) ts;
  grown_fair : Forall (fair ws) ts;
  grown_leaves : concat (map tree_leaves ts) ≡ₚ seq 0 k;
  grown_total : total (map (mass ws) ts) = total ws;
  grown_bound : exists m, Forall (fun t => m <= mass ws t /\ children_below ws m t) ts;
}.

#[export] Instance total_Permutation : Proper (Permutation ==> eq) total.
Proof. intros a b Hp. induction Hp; unfold total in *; cbn [foldr]; lia. Qed.

Lemma total_pos l : Forall (fun x => 1 <= x) l -> 0 <= total l.
Proof. induction 1; unfold total in *; cbn [foldr]; lia. Qed.

Lemma total_elem l x : Forall (fun x => 1 <= x) l -> x ∈ l -> x <= total l.
Proof.
  intros Hl. induction Hl as [|y l Hy Hl IH]; intros Hx; [by apply not_elem_of_nil in Hx|].
  pose proof (total_pos l Hl). unfold total in *. cbn [foldr]. apply elem_of_cons in Hx as [->|Hx]; [lia|]. specialize (IH Hx). lia.
Qed.

(** The order of the trees does not matter. *)
Lemma grown_perm k n ws ns ts ts' : ts ≡ₚ ts' -> grown k n ws ns ts -> grown k n ws ns ts'.
Proof.
  intros Hp [? Hact ? ? ? ? ? ? ? [m Hm]]. constructor; rewrite <- ?Hp; try done; [|by exists m; rewrite <- Hp].
  intros i Hi. rewrite Hact by done. f_equal. apply bool_decide_ext. by rewrite Hp.
Qed.

Lemma grown_mass k n ws ns ts t : grown k n ws ns ts -> t ∈ ts -> 1 <= mass ws t <= total ws.
Proof.
  intros Hg Ht. pose proof (grown_fair _ _ _ _ _ Hg) as Hf.
  assert (Hall : Forall (fun x => 1 <= x) (map (mass ws) ts)).
  { apply Forall_map. eapply Forall_impl; [exact Hf|]. intros. by apply mass_pos. }
  rewrite <- (grown_total _ _ _ _ _ Hg). split.
  - apply mass_pos. rewrite Forall_forall in Hf. auto.
  - apply total_elem; [done|]. by apply list_elem_of_fmap_2.
Qed.

Lemma holds_tree_push ns w l r act a t : holds_tree ns t -> holds_tree (push_node w l r act (set_active a ns)) t.
Proof.
  induction t as [i|i lt IHl rt IHr]; cbn [holds_tree]; intros Ht; destruct_and!.
  - split; simpl; by apply lookup_app_l_Some.
  - split_and!; [simpl; by apply lookup_app_l_Some|simpl; by apply lookup_app_l_Some|auto|auto].
Qed.

Lemma grown_is_active k n ws ns ts i : grown k n ws ns ts -> is_active ns i <-> i ∈ map tree_index ts.
Proof.
  intros Hg. pose proof (grown_sizes _ _ _ _ _ Hg) as (_ & _ & _ & Hla). unfold is_active. split; intros Hi.
  - pose proof (lookup_lt_Some _ _ _ Hi) as Hlt. rewrite (grown_active _ _ _ _ _ Hg) in Hi by lia.
    injection Hi as Hi. by apply bool_decide_eq_true in Hi.
  - assert (Hlt : (i < n)%nat).
    { apply list_elem_of_fmap in Hi as (t & -> & Ht). pose proof (grown_index _ _ _ _ _ Hg) as Hx.
      rewrite Forall_forall in Hx. auto. }
    rewrite (grown_active _ _ _ _ _ Hg) by done. by rewrite bool_decide_true.
Qed.

Lemma children_below_mono ws m m' t : m <= m' -> children_below ws m t -> children_below ws m' t.
Proof. intros Hm. destruct t; simpl; lia. Qed.

(** Merging the two trees the scan found. *)
Lemma merge_grown k n ws ns ta tb ts wa wb : grown k n ws ns (ta :: tb :: ts) -> total ws < 0xFFFFFFFF ->
  wa = mass ws ta -> wb = mass ws tb -> wa <= wb -> Forall (fun t => wb <= mass ws t) ts ->
  grown k (S n) ws
    (push_node (u32 (wa + wb)) (Z.of_nat (tree_index ta)) (Z.of_nat (tree_index tb)) true
      (set_active (<[tree_index tb:=false]> (<[tree_index ta:=false]> (active ns))) ns))
    (Node n ta tb :: ts).
Proof.
  intros Hg Htot Hwa Hwb Hle Hrest. pose proof (grown_mass _ _ _ _ _ ta Hg ltac:(left)) as Hma.
  pose proof (grown_mass _ _ _ _ _ tb Hg ltac:(right; left)) as Hmb.
  destruct Hg as [(H1 & H2 & H3 & H4) Hact Hidx Hnd Hh Hwt Hf Hlv Hto [m Hm]].
  apply Forall_cons in Hidx as [Hia Hidx]. apply Forall_cons in Hidx as [Hib Hidx].
  apply Forall_cons in Hh as [Hha Hh]. apply Forall_cons in Hh as [Hhb Hh].
  apply Forall_cons in Hwt as [Hta Hwt]. apply Forall_cons in Hwt as [Htb Hwt].
  apply Forall_cons in Hf as [Hfa Hf]. apply Forall_cons in Hf as [Hfb Hf].
  apply Forall_cons in Hm as [[Hm1 Hm2] Hm]. apply Forall_cons in Hm as [[Hm3 Hm4] Hm].
  cbn [map] in Hnd. apply NoDup_cons in Hnd as [Hna Hnd]. apply NoDup_cons in Hnd as [Hnb Hnd].
  rewrite elem_of_cons in Hna.
  assert (Hsum : u32 (wa + wb) = wa + wb).
  { apply u32_small. pose proof (total_pos (map (mass ws) ts)) as Hp. unfold total in Hto at 1. cbn [map foldr] in Hto.
    fold (total (map (mass ws) ts)) in Hto. specialize (Hp ltac:(apply Forall_map; eapply Forall_impl; [exact Hf|intros; by apply mass_pos])). lia. }
  constructor.
  - simpl. rewrite !length_app, !length_insert. simpl. lia.
  - intros i Hi. simpl. destruct (decide (i = n)) as [->|Hne].
    + rewrite lookup_app_r by (rewrite !length_insert; lia). rewrite !length_insert, H4, Nat.sub_diag. simpl.
      by rewrite bool_decide_true by left.
    + rewrite lookup_app_l by (rewrite !length_insert; lia).
      destruct (decide (i = tree_index tb)) as [->|Hb].
      { rewrite list_lookup_insert_eq by (rewrite length_insert; lia). rewrite bool_decide_false; [done|]. by rewrite elem_of_cons; intros [?|?]. }
      rewrite list_lookup_insert_ne by done. destruct (decide (i = tree_index ta)) as [->|Ha].
      { rewrite list_lookup_insert_eq by lia. rewrite bool_decide_false; [done|]. rewrite elem_of_cons. tauto. }
      rewrite list_lookup_insert_ne by done. rewrite Hact by lia. f_equal. apply bool_decide_ext. cbn [map].
      rewrite !elem_of_cons. cbn [tree_index]. tauto.
  - constructor; [simpl; lia|]. eapply Forall_impl; [exact Hidx|]. simpl. lia.
  - cbn [map tree_index]. apply NoDup_cons. split; [|done]. intros Hin. apply list_elem_of_fmap in Hin as (t & Ht & Hin).
    rewrite Forall_forall in Hidx. specialize (Hidx t Hin). simpl in Hidx. lia.
  - constructor; [|eapply Forall_impl; [exact Hh|intros t; apply holds_tree_push]].
    cbn [holds_tree]. split_and!; [| |by apply holds_tree_push|by apply holds_tree_push];
      simpl; rewrite lookup_app_r by lia; [rewrite H2|rewrite H3]; by rewrite Nat.sub_diag.
  - constructor; simpl.
    + rewrite lookup_app_r by lia. rewrite H1, Nat.sub_diag. simpl. by rewrite Hsum, Hwa, Hwb.
    + eapply Forall_impl; [exact Hwt|]. intros t Ht. by apply lookup_app_l_Some.
  - constructor; [|done]. simpl. split_and!; [done|done| |]; eapply children_below_mono; [|exact Hm2| |exact Hm4]; done.
  - rewrite <- Hlv. cbn [map concat tree_leaves]. rewrite !app_assoc. f_equiv. apply Permutation_app_comm.
  - rewrite <- Hto. unfold total. cbn [map foldr mass]. lia.
  - exists wb. constructor; [simpl; lia|]. rewrite Forall_forall in Hrest, Hm |- *. intros t Ht.
    split; [by apply Hrest|]. apply (children_below_mono _ m); [lia|]. by apply Hm.
Qed.

Lemma merge_lightest_spec k n ws ns ts : grown k n ws ns ts -> (2 <= length ts)%nat -> total ws < 0xFFFFFFFF ->
  Z.of_nat n < 2 ^ 31 ->
  exists ns' ts', merge_lightest n ns = Ok ns' /\ grown k (S n) ws ns' ts' /\ length ts = S (length ts') /\
    n ∈ map tree_index ts'.
Proof.
  intros Hg H2 Htot Hn. pose proof (grown_sizes _ _ _ _ _ Hg) as (_ & _ & _ & Hla).
  pose proof (fun i => grown_is_active _ _ _ _ _ i Hg) as Hact. pose proof (grown_weights _ _ _ _ _ Hg) as Hwts.
  pose proof (grown_distinct _ _ _ _ _ Hg) as Hnd. rewrite Forall_forall in Hwts.
  destruct (find_lightest_spec ns n 0 no_lightest) as (m & Em & Hm); [constructor; lia|done|done| |].
  { intros i [t [-> Ht]]%Hact%list_elem_of_fmap. exists (mass ws t). split; [by apply Hwts|].
    pose proof (grown_mass _ _ _ _ _ t Hg Ht). lia. }
  cbn [Nat.add] in Hm. unfold merge_lightest. rewrite Em. cbn [result_bind].
  assert (Hbelow : forall t, t ∈ ts -> (tree_index t < n)%nat /\ is_active ns (tree_index t)).
  { intros t Ht. pose proof (grown_index _ _ _ _ _ Hg) as Hix. rewrite Forall_forall in Hix.
    split; [by apply Hix|]. by apply Hact, list_elem_of_fmap_2. }
  destruct ts as [|t1 [|t2 ts0]]; [simpl in H2; lia|simpl in H2; lia|].
  destruct (Hbelow t1 ltac:(left)) as [Hb1 Ha1]. destruct (Hbelow t2 ltac:(right; left)) as [Hb2 Ha2].
  destruct Hm as [Hno|a wa Ha Hacta Hwa Hmax Hall|a b wa wb Ha Hb Hab Hacta Hactb Hwa Hwb Hle Hall].
  - by destruct (Hno (tree_index t1)).
  - exfalso. pose proof (Hall _ Hb1 Ha1) as E1. pose proof (Hall _ Hb2 Ha2) as E2. cbn [map] in Hnd.
    apply NoDup_cons in Hnd as [Hn1 _]. apply Hn1. rewrite E1, <- E2. left.
  - set (ts := t1 :: t2 :: ts0) in *. apply Hact, list_elem_of_fmap in Hacta as (ta & -> & Hta).
    apply Hact, list_elem_of_fmap in Hactb as (tb & -> & Htb).
    apply elem_of_Permutation in Hta as (ts1 & Hp1).
    assert (Htb1 : tb ∈ ts1).
    { rewrite Hp1 in Htb. apply elem_of_cons in Htb as [->|]; [done|done]. }
    apply elem_of_Permutation in Htb1 as (ts2 & Hp2).
    assert (Hp : ts ≡ₚ ta :: tb :: ts2) by (rewrite Hp1; by constructor).
    pose proof (grown_perm _ _ _ _ _ _ Hp Hg) as Hg'.
    cbn [min_a min_b min_a_w min_b_w]. unfold usize_of_i32. rewrite !(proj2 (Z.ltb_ge _ _)) by lia.
    rewrite !Nat2Z.id. cbn [result_bind]. rewrite setitem_ok by lia. cbn [result_bind].
    rewrite setitem_ok by (rewrite length_insert; lia). cbn [result_bind].
    eexists _, (Node n ta tb :: ts2). split; [done|]. split; [|split; [by rewrite Hp|by left]].
    + assert (wa = mass ws ta) by (rewrite Hwts in Hwa by (rewrite Hp; left); congruence).
      assert (wb = mass ws tb) by (rewrite Hwts in Hwb by (rewrite Hp; right; left); congruence).
      apply merge_grown; [done|done|done|done|lia|]. apply Forall_forall. intros t Ht.
      assert (Hin : t ∈ ts) by (rewrite Hp; right; by right). destruct (Hbelow t Hin) as [Hbt Hat].
      destruct (Hall _ _ Hbt Hat (Hwts t Hin)) as [E|[E|E]]; [exfalso|exfalso|done];
        pose proof (grown_distinct _ _ _ _ _ Hg') as Hnd'; cbn [map] in Hnd';
        apply NoDup_cons in Hnd' as [Hn1 Hnd']; apply NoDup_cons in Hnd' as [Hn2 _].
      * apply Hn1. rewrite <- E. right. by apply list_elem_of_fmap_2.
      * apply Hn2. rewrite <- E. by apply list_elem_of_fmap_2.
Qed.

(** The node merged last is the root. *)
Lemma merge_all_spec k ws steps : forall n ns ts, grown k n ws ns ts -> length ts = S steps -> total ws < 0xFFFFFFFF ->
  Z.of_nat (n + steps) < 2 ^ 31 -> (n - 1)%nat ∈ map tree_index ts ->
  exists ns' t, merge_all steps n ns = Ok ns' /\ grown k (n + steps) ws ns' [t] /\ tree_index t = (n + steps - 1)%nat.
Proof.
  induction steps as [|steps IH]; intros n ns ts Hg Hl Htot Hn Hlast; cbn [merge_all].
  - destruct ts as [|t [|]]; [done| |done]. exists ns, t. rewrite Nat.add_0_r. split_and!; [done|done|].
    by apply list_elem_of_singleton in Hlast.
  - destruct (merge_lightest_spec k n ws ns ts Hg ltac:(lia) Htot ltac:(lia)) as (ns1 & ts1 & E & Hg1 & Hl1 & Hn1).
    rewrite E. cbn [result_bind]. rewrite <- Nat.add_succ_comm in *.
    apply (IH (S n) ns1 ts1); [done|lia|done|lia|]. by rewrite Nat.sub_succ, Nat.sub_0_r.
Qed.

(** ** The walk *)

Lemma getitem_last {A} (l : list A) x msg : unwrap msg (list_getitem (length (l ++ [x]) - 1) (l ++ [x])) = Ok x.
Proof.
  apply getitem_ok. rewrite length_app, Nat.add_sub. by rewrite lookup_app_r, Nat.sub_diag by lia.
Qed.

Lemma erase_last {A} (l : list A) x msg : unwrap msg (list_erase_at (length (l ++ [x]) - 1) (l ++ [x])) = Ok l.
Proof.
  unfold list_erase_at. rewrite decide_True by (rewrite length_app; simpl; lia). cbn [unwrap]. f_equal.
  rewrite length_app, Nat.add_sub. rewrite take_app_length, drop_ge by (rewrite length_app; simpl; lia). apply app_nil_r.
Qed.

Definition put (acc : list Z) (p : nat * Z) : list Z := <[p.1:=p.2]> acc.
Definition deepest (m : Z) (p : nat * Z) : Z := if m <? p.2 then p.2 else m.

(** A tree on the stack, at a depth no child of which wraps around. *)
Definition walkable (ns : Nodes) (n : nat) (e : tree * Z) : Prop :=
  holds_tree ns e.1 /\ 0 <= e.2 /\ e.2 + Z.of_nat (tree_height e.1) < 256 /\ Forall (fun i => (i < n)%nat) (tree_leaves e.1).

Definition stack_size (st : list (tree * Z)) : nat := foldr (fun e acc => tree_size e.1 + acc)%nat 0%nat st.
Definition stack_leaves (st : list (tree * Z)) : list (nat * Z) := concat (map (fun e => leaf_depths e.1 e.2) st).

Lemma walk_spec ns fuel : forall st depth mx, (stack_size st < fuel)%nat -> Forall (walkable ns (length depth)) st ->
  walk fuel (rev (map (fun e => Z.of_nat (tree_index e.1)) st)) (rev (map snd st)) ns depth mx =
    Ok (foldl put depth (stack_leaves st), foldl deepest mx (stack_leaves st)).
Proof.
  induction fuel as [|fuel IH]; intros st depth mx Hf Hok; [lia|].
  destruct st as [|[t d] st]; [done|]. cbn [walk map rev fst snd].
  rewrite (proj2 (Nat.ltb_lt _ _)) by (rewrite length_app; simpl; lia).
  rewrite panic_sub_ok by (rewrite length_app; simpl; lia). cbn [result_bind].
  rewrite getitem_last. cbn [result_bind].
  assert (Hls : length (rev (map (fun e : tree * Z => Z.of_nat (tree_index e.1)) st) ++ [Z.of_nat (tree_index t)]) =
    length (rev (map snd st) ++ [d])) by by rewrite !length_app, !length_rev, !length_map.
  rewrite Hls, getitem_last. cbn [result_bind]. rewrite <- Hls, erase_last. cbn [result_bind].
  rewrite Hls, erase_last. cbn [result_bind].
  apply Forall_cons in Hok as [(Hh & Hd & Hd2 & Hlv) Hok]. cbn [fst snd] in *.
  unfold usize_of_i32. rewrite (proj2 (Z.ltb_ge _ _)) by lia. rewrite Nat2Z.id. cbn [result_bind].
  cbn [stack_size foldr fst] in Hf. fold (stack_size st) in Hf.
  destruct t as [i|i l r]; cbn [holds_tree] in Hh; cbn [tree_index].
  - destruct Hh as [H1 H2]. rewrite (getitem_ok _ _ _ _ H1). cbn [result_bind]. rewrite (getitem_ok _ _ _ _ H2).
    cbn [result_bind]. change (-1 =? -1) with true. cbn [tree_leaves] in Hlv. rewrite Forall_singleton in Hlv.
    rewrite setitem_ok by done. cbn [result_bind]. cbv iota.
    rewrite IH; [done|cbn [tree_size] in Hf; lia|by rewrite length_insert].
  - destruct Hh as (H1 & H2 & Hhl & Hhr). rewrite (getitem_ok _ _ _ _ H1). cbn [result_bind].
    rewrite (getitem_ok _ _ _ _ H2). cbn [result_bind]. rewrite (proj2 (Z.eqb_neq _ _)) by lia.
    cbn [tree_size tree_height tree_leaves] in *. apply Forall_app in Hlv as [Hlr Hll].
    rewrite u8_small by lia.
    specialize (IH ((r, d + 1) :: (l, d + 1) :: st) depth mx). cbn [map rev fst snd] in IH.
    rewrite <- !app_assoc in IH. rewrite IH.
    + unfold stack_leaves. cbn [map concat fst snd leaf_depths]. by rewrite <- app_assoc.
    + cbn [stack_size foldr fst]. fold (stack_size st). lia.
    + repeat constructor; simpl; done || lia.
Qed.

Lemma length_puts l : forall acc, length (foldl put acc l) = length acc.
Proof. induction l as [|p l IH]; intros acc; [done|]. simpl. rewrite IH. apply length_insert. Qed.

Lemma puts_miss l i : forall acc, i ∉ map fst l -> foldl put acc l !! i = acc !! i.
Proof.
  induction l as [|p l IH]; intros acc Hi; [done|]. cbn [foldl map] in *. rewrite elem_of_cons in Hi.
  rewrite IH by tauto. unfold put. apply list_lookup_insert_ne. intros <-. tauto.
Qed.

Lemma puts_hit l i d : forall acc, NoDup (map fst l) -> (i, d) ∈ l -> (i < length acc)%nat ->
  foldl put acc l !! i = Some d.
Proof.
  induction l as [|p l IH]; intros acc Hnd Hin Hlt; [by apply not_elem_of_nil in Hin|].
  cbn [foldl map] in *. apply NoDup_cons in Hnd as [Hni Hnd]. apply elem_of_cons in Hin as [<-|Hin].
  - rewrite puts_miss by done. unfold put. simpl. by apply list_lookup_insert_eq.
  - apply IH; [done|done|]. unfold put. by rewrite length_insert.
Qed.

Lemma deepest_bound l : forall m, m <= foldl deepest m l /\ Forall (fun p => p.2 <= foldl deepest m l) l.
Proof.
  induction l as [|p l IH]; intros m; [by split|]. cbn [foldl]. destruct (IH (deepest m p)) as [H1 H2].
  unfold deepest in H1 at 1. destruct (Z.ltb_spec m p.2); (split; [lia|constructor; [lia|exact H2]]).
Qed.

Lemma fst_leaf_depths t : forall d, map fst (leaf_depths t d) = tree_leaves t.
Proof. induction t as [i|i l IHl r IHr]; intros d; [done|]. cbn [leaf_depths tree_leaves]. by rewrite map_app, IHl, IHr. Qed.

Lemma leaf_depths_pos t : forall d, Forall (fun p => d <= p.2) (leaf_depths t d).
Proof.
  induction t as [i|i l IHl r IHr]; intros d; cbn [leaf_depths]; [by constructor|].
  apply Forall_app. split; (eapply Forall_impl; [apply IHr || apply IHl|]; simpl; lia).
Qed.

(** ** The symbols that occur and their leaves *)

Fixpoint used_of (sym : nat) (freqs : list Z) : list nat :=
  match freqs with
  | [] => []
  | f :: freqs => if 0 <? f then sym :: used_of (S sym) freqs else used_of (S sym) freqs
  end.

Definition positives (freqs : list Z) : list Z := filter (fun f => 0 < f) freqs.

Lemma used_symbols_spec freqs : forall sym, Z.of_nat (sym + length freqs) <= 2 ^ 16 ->
  used_symbols sym freqs = Ok (map Z.of_nat (used_of sym freqs)).
Proof.
  induction freqs as [|f freqs IH]; intros sym Hs; [done|]. cbn [used_symbols used_of length] in *.
  destruct (0 <? f); [|apply IH; lia]. rewrite in_panic_ok by lia. cbn [result_bind]. rewrite IH by lia. done.
Qed.

Lemma used_of_spec freqs : forall sym s,
  s ∈ used_of sym freqs <-> (sym <= s)%nat /\ exists f, freqs !! (s - sym)%nat = Some f /\ 0 < f.
Proof.
  induction freqs as [|f freqs IH]; intros sym s; cbn [used_of].
  - split; [by intros ?%not_elem_of_nil|]. by intros (_ & f & ? & _).
  - assert (Htail : s ∈ used_of (S sym) freqs <-> (sym < s)%nat /\ exists g, (f :: freqs) !! (s - sym)%nat = Some g /\ 0 < g).
    { rewrite IH. split; intros (Hs & g & Hg & Hpos); (split; [lia|]); exists g; (split; [|done]);
        replace (s - sym)%nat with (S (s - S sym)) in * by lia; done. }
    destruct (Z.ltb_spec 0 f) as [Hf|Hf].
    + rewrite elem_of_cons, Htail. split.
      * intros [->|(Hs & Hg)]; [|split; [lia|done]]. rewrite Nat.sub_diag. split; [done|]. by exists f.
      * intros (Hs & Hg). destruct (decide (s = sym)) as [->|]; [by left|right]. split; [lia|done].
    + rewrite Htail. split; intros (Hs & g & Hg & Hpos); (split; [lia || (destruct (decide (s = sym)) as [->|]; [|lia])|by exists g]).
      rewrite Nat.sub_diag in Hg. injection Hg as <-. lia.
Qed.

Lemma used_of_NoDup freqs : forall sym, NoDup (used_of sym freqs).
Proof.
  induction freqs as [|f freqs IH]; intros sym; cbn [used_of]; [constructor|].
  destruct (0 <? f); [|apply IH]. apply NoDup_cons. split; [|apply IH]. intros [Hs _]%used_of_spec. lia.
Qed.

Lemma used_of_weights (freqs0 freqs : list Z) : forall sym, (forall i, freqs0 !! (sym + i)%nat = freqs !! i) ->
  Forall2 (fun s w => freqs0 !! s = Some w) (used_of sym freqs) (positives freqs).
Proof.
  induction freqs as [|f freqs IH]; intros sym Hl; cbn [used_of]; [constructor|].
  assert (Hl' : forall i, freqs0 !! (S sym + i)%nat = freqs !! i).
  { intros i. rewrite Nat.add_succ_comm. apply (Hl (S i)). }
  unfold positives in *. cbn [filter]. destruct (Z.ltb_spec 0 f) as [Hf|Hf].
  - rewrite filter_cons_True by done. constructor; [|by apply IH]. specialize (Hl 0%nat). by rewrite Nat.add_0_r in Hl.
  - rewrite filter_cons_False by lia. by apply IH.
Qed.

Lemma push_leaves_spec us ws (freqs : list Z) : Forall2 (fun s w => freqs !! s = Some w) us ws -> forall t,
  push_leaves (map Z.of_nat us) freqs t =
    Ok (mkNodes (weight t ++ ws) (left_child t ++ replicate (length us) (-1))
          (right_child t ++ replicate (length us) (-1)) (active t ++ replicate (length us) true)).
Proof.
  induction 1 as [|s w us ws Hs _ IH]; intros t; cbn [map push_leaves length replicate].
  - rewrite !app_nil_r. by destruct t.
  - rewrite Nat2Z.id, (getitem_ok _ _ _ _ Hs). cbn [result_bind]. rewrite IH. cbn [push_node weight left_child right_child active].
    by rewrite <- !app_assoc.
Qed.

Lemma total_positives freqs : Forall (fun f => 0 <= f) freqs -> total (positives freqs) = total freqs.
Proof.
  induction 1 as [|f freqs Hf _ IH]; [done|]. unfold positives in *. destruct (Z.ltb_spec 0 f).
  - rewrite filter_cons_True by done. unfold total in *. cbn [foldr]. lia.
  - rewrite filter_cons_False by lia. unfold total in *. cbn [foldr]. lia.
Qed.

(** Before the first merge every leaf is a tree. *)
Lemma grown_leaves_only ws : Forall (fun w => 1 <= w) ws ->
  grown (length ws) (length ws) ws
    (mkNodes ws (replicate (length ws) (-1)) (replicate (length ws) (-1)) (replicate (length ws) true))
    (map Leaf (seq 0 (length ws))).
Proof.
  intros Hws. set (k := length ws).
  assert (Hmap : map tree_index (map Leaf (seq 0 k)) = seq 0 k) by by rewrite map_map, map_id.
  assert (Hleaf : forall P : tree -> Prop, (forall i, (i < k)%nat -> P (Leaf i)) -> Forall P (map Leaf (seq 0 k))).
  { intros P HP. apply Forall_map, Forall_forall. intros i Hi%elem_of_seq. apply HP. lia. }
  assert (Hget : forall i, (i < k)%nat -> exists w, ws !! i = Some w /\ 1 <= w).
  { intros i Hi. destruct (lookup_lt_is_Some_2 ws i Hi) as [w Hw]. exists w. split; [done|]. by eapply Forall_lookup_1 in Hw. }
  constructor.
  - simpl. by rewrite !length_replicate.
  - intros i Hi. rewrite Hmap. simpl. rewrite lookup_replicate_2 by done. rewrite bool_decide_true; [done|].
    apply elem_of_seq. lia.
  - by apply Hleaf.
  - rewrite Hmap. apply NoDup_seq.
  - apply Hleaf. intros i Hi. split; by apply lookup_replicate_2.
  - apply Hleaf. intros i Hi. destruct (Hget i Hi) as (w & Hw & _). simpl. by rewrite Hw.
  - apply Hleaf. intros i Hi. destruct (Hget i Hi) as (w & Hw & ?). simpl. by rewrite Hw.
  - rewrite map_map. cbn [tree_leaves]. clear. induction (seq 0 k) as [|i l IH]; [done|]. simpl. by constructor.
  - rewrite map_map. f_equal. apply list_eq. intros i. rewrite list_lookup_fmap. cbn [mass].
    destruct (decide (i < k)%nat) as [Hi|Hi].
    + rewrite lookup_seq_lt by done. simpl. by destruct (Hget i Hi) as (w & -> & _).
    + rewrite !lookup_ge_None_2; [done|done || lia|rewrite length_seq; lia].
  - exists 1. apply Hleaf. intros i Hi. destruct (Hget i Hi) as (w & Hw & ?). simpl. by rewrite Hw.
Qed.

(** ** Storing the lengths *)

Lemma store_lengths_spec us (depth : list Z) : forall (ds : list Z) fi (lengths : list Z), length us = length ds ->
  (forall j d, ds !! j = Some d -> depth !! (fi + j)%nat = Some d) -> Forall (fun s => (s < length lengths)%nat) us ->
  store_lengths (map Z.of_nat us) fi depth lengths = Ok (foldl put lengths (zip us ds)).
Proof.
  induction us as [|s us IH]; intros [|d ds] fi lengths Hl Hd Hs; try done.
  apply Forall_cons in Hs as [Hs1 Hs]. cbn [map store_lengths zip foldl].
  pose proof (Hd 0%nat d eq_refl) as H0. rewrite Nat.add_0_r in H0. rewrite (getitem_ok _ _ _ _ H0). cbn [result_bind].
  rewrite Nat2Z.id, setitem_ok by done. cbn [result_bind]. apply IH; [by injection Hl| |].
  - intros j e He. rewrite Nat.add_succ_comm. by apply Hd.
  - unfold put. by rewrite length_insert.
Qed.

Lemma share_zero l : share l 0 = 0.
Proof. done. Qed.

Lemma kraft_put l acc p : (p.1 < length acc)%nat -> acc !! p.1 = Some 0 -> kraft l (put acc p) = share l p.2 + kraft l acc.
Proof.
  intros Hlt H0. unfold put. rewrite insert_take_drop by done. rewrite <- (take_drop_middle acc p.1 0 H0) at 3.
  rewrite !kraft_app. cbn [kraft foldr]. unfold kraft. rewrite share_zero. lia.
Qed.

Lemma kraft_puts l ps : forall acc, NoDup (map fst ps) ->
  Forall (fun p => acc !! p.1 = Some 0) ps -> kraft l (foldl put acc ps) = kraft l acc + kraft l (map snd ps).
Proof.
  induction ps as [|p ps IH]; intros acc Hnd Hps; [cbn [foldl map]; change (kraft l []) with 0; lia|].
  apply Forall_cons in Hps as [Hp Hps]. cbn [map] in Hnd. apply NoDup_cons in Hnd as [Hni Hnd]. cbn [foldl map].
  rewrite IH; [|done|].
  - rewrite kraft_put by (done || by apply lookup_lt_Some in Hp). cbn [kraft foldr]. unfold kraft. lia.
  - rewrite Forall_forall in Hps |- *. intros q Hq. unfold put. rewrite list_lookup_insert_ne; [by apply Hps|].
    intros E. apply Hni. rewrite E. by apply list_elem_of_fmap_2.
Qed.

Lemma kraft_zeros l n : kraft l (replicate n 0) = 0.
Proof. induction n as [|n IH]; [done|]. cbn [replicate kraft foldr]. fold (kraft l (replicate n 0)). rewrite IH. by rewrite share_zero. Qed.

(** ** The code lengths *)

(** [lens] is a code for the symbols of [freqs], none longer than [max]. *)
Record lengths_for (freqs lens : list Z) (max : Z) : Prop := {
  lf_length : length lens = length freqs;
  lf_valid : valid_lengths lens;
  lf_max : Forall (fun x => 0 <= x <= max) lens;
  lf_used : forall s f x, freqs !! s = Some f -> lens !! s = Some x -> 0 < f <-> 0 < x;
}.

Lemma fst_zip {A B} (l : list A) (k : list B) : length l = length k -> map fst (zip l k) = l.
Proof. revert k. induction l as [|x l IH]; intros [|y k] Hl; try done. simpl. f_equal. apply IH. by injection Hl. Qed.

Lemma snd_zip {A B} (l : list A) (k : list B) : length l = length k -> map snd (zip l k) = k.
Proof. revert k. induction l as [|x l IH]; intros [|y k] Hl; try done. simpl. f_equal. apply IH. by injection Hl. Qed.

Lemma used_lt freqs s : s ∈ used_of 0 freqs -> (s < length freqs)%nat.
Proof. intros (_ & f & Hf & _)%used_of_spec. rewrite Nat.sub_0_r in Hf. by apply lookup_lt_Some in Hf. Qed.

(** Lengths that satisfy Kraft's inequality, stored at the symbols that occur. *)
Lemma stored_lengths freqs ds max : Z.of_nat (length freqs) < 2 ^ 16 -> length (used_of 0 freqs) = length ds ->
  0 <= max <= 15 -> Forall (fun d => 0 < d <= max) ds -> (forall l, (l <= 15)%nat -> kraft l ds <= 2 ^ Z.of_nat l) ->
  lengths_for freqs (foldl put (replicate (length freqs) 0) (zip (used_of 0 freqs) ds)) max.
Proof.
  intros Hlen Hds Hmax Hpos Hk. set (ps := zip (used_of 0 freqs) ds). set (acc := replicate (length freqs) 0).
  assert (Hfst : map fst ps = used_of 0 freqs) by by apply fst_zip.
  assert (Hnd : NoDup (map fst ps)) by (rewrite Hfst; apply used_of_NoDup).
  assert (Hacc : forall s, (s < length freqs)%nat -> acc !! s = Some 0) by (intros s Hs; by apply lookup_replicate_2).
  assert (Hps : Forall (fun p => acc !! p.1 = Some 0) ps).
  { apply Forall_forall. intros p Hp. apply Hacc, used_lt. rewrite <- Hfst. by apply list_elem_of_fmap_2. }
  assert (Hget : forall s x, foldl put acc ps !! s = Some x -> (s ∈ used_of 0 freqs /\ 0 < x <= max) \/ (s ∉ used_of 0 freqs /\ x = 0)).
  { intros s x Hx. destruct (decide (s ∈ used_of 0 freqs)) as [Hin|Hni].
    - left. split; [done|]. pose proof Hin as Hin'. rewrite <- Hfst in Hin'. apply list_elem_of_fmap in Hin' as ([s' d] & E & Hp).
      simpl in E. subst s'. rewrite (puts_hit ps s d) in Hx; [|done|done|unfold acc; rewrite length_replicate; by apply used_lt].
      injection Hx as <-. rewrite Forall_forall in Hpos. apply Hpos. rewrite <- (snd_zip (used_of 0 freqs) ds Hds).
      by apply (list_elem_of_fmap_2 snd ps (s, d)).
    - right. split; [done|]. rewrite puts_miss in Hx by by rewrite Hfst. apply lookup_replicate in Hx as [-> _]. done. }
  assert (Hlens : length (foldl put acc ps) = length freqs) by (rewrite length_puts; apply length_replicate).
  assert (Hall : Forall (fun x => 0 <= x <= max) (foldl put acc ps)).
  { apply Forall_lookup_2. intros s x Hx. destruct (Hget s x Hx); lia. }
  constructor; [done| |done|].
  - constructor; [by rewrite Hlens|eapply Forall_impl; [exact Hall|]; unfold length_ok; simpl; lia|].
    intros l Hl. rewrite first_of_kraft, kraft_puts by done. unfold acc. rewrite kraft_zeros.
    unfold ps. rewrite snd_zip by done. by apply Hk.
  - intros s f x Hf Hx. destruct (Hget s x Hx) as [[Hin Hr]|[Hni ->]].
    + apply used_of_spec in Hin as (_ & g & Hg & Hg0). rewrite Nat.sub_0_r in Hg. simplify_eq. lia.
    + split; [|lia]. intros Hf0. destruct Hni. apply used_of_spec. split; [lia|]. exists f. by rewrite Nat.sub_0_r.
Qed.

(** The depths the walk leaves at the leaves. *)
Lemma depths_perm k (D : list Z) (L : list (nat * Z)) : map fst L ≡ₚ seq 0 k -> (forall i d, (i, d) ∈ L -> D !! i = Some d) ->
  (k <= length D)%nat -> take k D ≡ₚ map snd L.
Proof.
  intros Hp Hd Hk. assert (map snd L = map (fun i => default 0 (D !! i)) (map fst L)) as ->.
  { clear Hp. induction L as [|[i d] L IH]; [done|]. simpl. rewrite (Hd i d) by left. f_equal. apply IH.
    intros j e Hj. apply Hd. by right. }
  rewrite Hp. assert (take k D = map (fun i => default 0 (D !! i)) (seq 0 k)) as ->; [|done].
  apply list_eq. intros i. etrans; [|symmetry; apply (list_lookup_fmap (fun i => default 0 (D !! i)))].
  destruct (decide (i < k)%nat) as [Hi|Hi].
  - rewrite lookup_take_lt, lookup_seq_lt by done. simpl.
    by destruct (lookup_lt_is_Some_2 D i ltac:(lia)) as [d ->].
  - rewrite lookup_take_ge by lia. rewrite lookup_ge_None_2; [done|rewrite length_seq; lia].
Qed.

(** A tree over the [k] leaves, walked from its root. *)
Lemma walk_tree k ws ns t capacity : grown k (2 * k - 1) ws ns [t] -> (2 <= k)%nat -> capacity = (2 * k - 1)%nat ->
  total ws < 2 ^ 32 -> exists depth max_depth,
  walk (S capacity) [Z.of_nat (tree_index t)] [0] ns (replicate capacity 0) 0 = Ok (depth, max_depth) /\
  (k <= length depth)%nat /\ Forall (fun d => 0 < d <= max_depth) (take k depth) /\
  (forall l, kraft l (take k depth) <= 2 ^ Z.of_nat l).
Proof.
  intros Hg Hk Hcap Htot.
  assert (Hlv : tree_leaves t ≡ₚ seq 0 k) by (rewrite <- (grown_leaves _ _ _ _ _ Hg); simpl; by rewrite app_nil_r).
  assert (Hsize : forall u, S (tree_size u) = (2 * length (tree_leaves u))%nat).
  { induction u as [i|i l IHl r IHr]; [done|]. cbn [tree_size tree_leaves]. rewrite length_app. lia. }
  pose proof (Hsize t) as Hst. rewrite Hlv, length_seq in Hst.
  assert (Hfair : fair ws t) by by apply Forall_singleton, (grown_fair _ _ _ _ _ Hg).
  assert (Hh : (tree_height t < 50)%nat).
  { apply (height_bound ws); [done|]. pose proof (grown_total _ _ _ _ _ Hg) as Ht. unfold total in Ht at 1. simpl in Ht. lia. }
  assert (Hin : forall i, i ∈ tree_leaves t -> (i < k)%nat) by (intros i Hi; rewrite Hlv in Hi; apply elem_of_seq in Hi; lia).
  pose proof (walk_spec ns (S capacity) [(t, 0)] (replicate capacity 0) 0) as Hw.
  unfold stack_size, stack_leaves in Hw. cbn [foldr map fst snd rev app concat] in Hw. rewrite app_nil_r in Hw.
  eexists _, _. split; [apply Hw; [lia|]|].
  { constructor; [|done]. split_and!; simpl; [by apply Forall_singleton, (grown_holds _ _ _ _ _ Hg)|lia|lia|].
    rewrite length_replicate. apply Forall_forall. intros i Hi%Hin. lia. }
  set (L := leaf_depths t 0). set (D := foldl put (replicate capacity 0) L).
  assert (HlD : length D = capacity) by (unfold D; rewrite length_puts; apply length_replicate).
  assert (Hperm : take k D ≡ₚ map snd L).
  { apply depths_perm; [unfold L; by rewrite fst_leaf_depths| |lia]. intros i d Hd. apply puts_hit; [|done|].
    - unfold L. rewrite fst_leaf_depths, Hlv. apply NoDup_seq.
    - rewrite length_replicate. assert ((i < k)%nat); [|lia]. apply Hin. rewrite <- (fst_leaf_depths t 0).
      by apply (list_elem_of_fmap_2 fst L (i, d)). }
  destruct t as [i|i l r]; [apply Permutation_length in Hlv; rewrite length_seq in Hlv; simpl in Hlv; lia|].
  split_and!; [lia| |].
  - rewrite Hperm. apply Forall_map. destruct (deepest_bound L 0) as [_ Hdeep].
    assert (Hpos : Forall (fun p => 1 <= p.2) L).
    { unfold L. cbn [leaf_depths]. apply Forall_app. split; apply (leaf_depths_pos _ 1). }
    rewrite Forall_forall in Hdeep, Hpos |- *. intros p Hp. specialize (Hdeep p Hp). specialize (Hpos p Hp). simpl. lia.
  - intros m. rewrite Hperm. unfold L. cbn [leaf_depths]. rewrite map_app, kraft_app.
    pose proof (kraft_tree m l 0 ltac:(lia)) as Hl. pose proof (kraft_tree m r 0 ltac:(lia)) as Hr.
    change (0 + 1) with 1 in *. destruct (Z.leb_spec 1 (Z.of_nat m)).
    + replace (Z.of_nat m) with (Z.succ (Z.of_nat m - 1)) by lia. rewrite Z.pow_succ_r by lia. lia.
    + pose proof (Z.pow_nonneg 2 (Z.of_nat m) ltac:(lia)). lia.
Qed.

Definition frequencies (freqs : list Z) : Prop :=
  Forall (fun f => 0 <= f) freqs /\ Z.of_nat (length freqs) < 2 ^ 16 /\ total freqs < 0xFFFFFFFF.

Lemma kraft_singleton l : kraft l [1] <= 2 ^ Z.of_nat l.
Proof.
  unfold kraft. cbn [foldr]. unfold share. pose proof (Z.pow_nonneg 2 (Z.of_nat l) ltac:(lia)).
  destruct (_ && _) eqn:E; [|lia]. apply andb_prop in E as [_ E%Z.leb_le].
  assert (2 ^ (Z.of_nat l - 1) <= 2 ^ Z.of_nat l) by (apply Z.pow_le_mono_r; lia). lia.
Qed.

(** Two symbols or more: the forest is merged, walked and stored. *)
Lemma build_tree_spec freqs max k : frequencies freqs -> 0 <= max <= 15 -> k = length (used_of 0 freqs) -> (2 <= k)%nat ->
  exists r, build_code_lengths_from_frequencies freqs max = Ok r /\
    match r with Ok lens => lengths_for freqs lens max | Err e => e = CodeTooLong end.
Proof.
  intros (Hpos & Hlen & Htot) Hmax Hk Hk2.
  assert (Hk16 : Z.of_nat k < 2 ^ 16).
  { assert (k <= length freqs)%nat; [|lia]. rewrite Hk. rewrite <- (length_seq (length freqs) 0).
    apply submseteq_length, NoDup_submseteq; [apply used_of_NoDup|]. intros s Hs%used_lt. apply elem_of_seq. lia. }
  set (ws := positives freqs).
  assert (Hws : Forall2 (fun s w => freqs !! s = Some w) (used_of 0 freqs) ws) by by apply used_of_weights.
  assert (Hlw : length ws = k) by (rewrite Hk; symmetry; by eapply Forall2_length).
  assert (Hw1 : Forall (fun w => 1 <= w) ws).
  { apply Forall_forall. intros w [Hw _]%list_elem_of_filter. lia. }
  assert (Htw : total ws = total freqs) by by apply total_positives.
  pose proof (grown_leaves_only ws Hw1) as Hg0. rewrite Hlw in Hg0.
  assert (Hidx : map tree_index (map Leaf (seq 0 k)) = seq 0 k) by by rewrite map_map, map_id.
  destruct (merge_all_spec k ws (k - 1) k _ _ Hg0) as (ns & t & Em & Hg & Ht);
    [rewrite length_map, length_seq; lia|lia|lia|rewrite Hidx; apply elem_of_seq; lia|].
  replace (k + (k - 1))%nat with (2 * k - 1)%nat in Hg, Ht by lia.
  destruct (walk_tree k ws ns t (2 * k - 1) Hg Hk2 eq_refl) as (depth & md & Ew & Hkd & Hd & Hkr); [lia|].
  unfold build_code_lengths_from_frequencies. rewrite used_symbols_spec by lia. cbn [result_bind].
  rewrite length_map, <- Hk. rewrite (proj2 (Nat.eqb_neq k 0)), (proj2 (Nat.eqb_neq k 1)) by lia.
  rewrite !panic_sub_ok by lia. cbn [result_bind]. rewrite (push_leaves_spec _ ws) by done. cbn [result_bind weight left_child right_child active app].
  rewrite <- Hk, Em. cbn [result_bind]. rewrite panic_sub_ok by lia. cbn [result_bind].
  rewrite in_panic_ok by lia. cbn [result_bind].
  replace (k + (k - 1) - 1)%nat with (2 * k - 1 - 1)%nat by lia. rewrite <- Ht, Ew. cbn [result_bind].
  destruct (Z.ltb_spec max md) as [Hlong|Hfit]; [by eexists|].
  rewrite (store_lengths_spec _ depth (take k depth)); cbn [result_bind].
  - eexists. split; [done|]. apply stored_lengths; [done|rewrite length_take_le; lia|done| |by intros].
    eapply Forall_impl; [exact Hd|]. simpl. lia.
  - rewrite length_take_le; lia.
  - intros j d Hj. apply lookup_take_Some in Hj as [Hj _]. done.
  - apply Forall_forall. intros s Hs%used_lt. by rewrite length_replicate.
Qed.

Lemma build_code_lengths_spec freqs max : frequencies freqs -> 1 <= max <= 15 ->
  exists r, build_code_lengths_from_frequencies freqs max = Ok r /\
    match r with Ok lens => lengths_for freqs lens max | Err e => e = CodeTooLong end.
Proof.
  intros Hf Hmax. destruct (used_of 0 freqs) as [|s [|s' us]] eqn:Hus.
  3: { eapply build_tree_spec; [done|lia|done|]. rewrite Hus. simpl. lia. }
  all: destruct Hf as (Hpos & Hlen & Htot); unfold build_code_lengths_from_frequencies;
    rewrite used_symbols_spec by lia; cbn [result_bind]; rewrite Hus; cbn [map length Nat.eqb];
    eexists; (split; [|]).
  - done.
  - pose proof (stored_lengths freqs [] max Hlen) as Hst. rewrite Hus in Hst. apply Hst; [done|lia|done|].
    intros l _. change (kraft l []) with 0. apply Z.pow_nonneg. lia.
  - assert ((s < length freqs)%nat) by (apply used_lt; rewrite Hus; left).
    rewrite (getitem_ok _ _ (Z.of_nat s)) by done. cbn [result_bind].
    rewrite Nat2Z.id, setitem_ok by by rewrite length_replicate. done.
  - pose proof (stored_lengths freqs [1] max Hlen) as Hst. rewrite Hus in Hst. apply Hst; [done|lia| |].
    + constructor; [lia|done].
    + intros l _. apply kraft_singleton.
Qed.

(** C25: For frequencies whose sum fits 32 bits and a bound of at most 15,
    [build_code_lengths_from_frequencies] terminates without a panic. It returns
    [CodeTooLong], or code lengths for the same alphabet that are none above the
    bound, are positive exactly at the symbols that occur, and satisfy Kraft's
    inequality, so that the encoder and decoder tables accept them. *)
Theorem build_code_lengths_correct freqs max : frequencies freqs -> 1 <= max <= 15 ->
  exists r, build_code_lengths_from_frequencies freqs max = Ok r /\
    match r with Ok lens => lengths_for freqs lens max | Err e => e = CodeTooLong end.
Proof. apply build_code_lengths_spec. Qed.

Lemma build_code_lengths_correct_witness :
  exists r, build_code_lengths_from_frequencies [5; 0; 1; 1; 2] 15 = Ok r /\
    match r with Ok lens => lengths_for [5; 0; 1; 1; 2] lens 15 | Err e => e = CodeTooLong end.
Proof.
  apply (build_code_lengths_correct [5; 0; 1; 1; 2] 15); [|lia].
  split_and!; [repeat constructor; lia|simpl; lia|by compute].
Defined.

(** The tree of a small alphabet, and a frequency table too skewed for its bound. *)
Example build_example : build_code_lengths_from_frequencies [5; 0; 1; 1; 2] 15 = Ok (Ok [1; 0; 3; 3; 2]).
Proof. by vm_compute. Qed.

Example build_too_long : build_code_lengths_from_frequencies [1; 1; 2; 3; 5] 3 = Ok (Err CodeTooLong).
Proof. by vm_compute. Qed.
