(* ===== verification/Lz77.v ===== *)
(** * Match finding and replay ([lib/lz77.py])

    [find_matches] with its hash chains ([head] and [prev], lists of positions
    with -1 for none) and [copy_match].  The reference is [replay_tokens]: what the
    tokens stand for, byte by byte.  The compiled program reads the input
    through a raw pointer: a read outside it is a [Fault]. *)

From S2P Require Import Prelude RawList Bits.

Local Open Scope Z_scope.
Local Open Scope monad_scope.

Definition MIN_MATCH : nat := 3.
Definition MAX_MATCH : nat := 258.
Definition MAX_DISTANCE : Z := 32768.
Definition HASH_SIZE : Z := 32768.

Inductive LZ77Error := mkLZ77Error (message : string).

Record LZ77Match := mkMatch { m_length : Z; m_distance : Z }.

Inductive LZ77Token :=
| Literal (b : Z)
| Match (m : LZ77Match).

Definition hash3 (data : list Z) (pos : nat) : result abort nat :=
  let? b0 := read_ptr data pos in
  let h := b0 in
  let? b1 := read_ptr data (pos + 1) in
  let h := Z.lxor (u32 (Z.shiftl h 5)) b1 in
  let? b2 := read_ptr data (pos + 2) in
  let h := Z.lxor (u32 (Z.shiftl h 5)) b2 in
  Ok (Z.to_nat (Z.land h (HASH_SIZE - 1))).

(** [n] more bytes may match. *)
Fixpoint match_from (n : nat) (data : list Z) (a b len : nat) : result abort nat :=
  match n with
  | O => Ok len
  | S n =>
      let? x := read_ptr data (a + len) in
      let? y := read_ptr data (b + len) in
      if x =? y then match_from n data a b (len + 1) else Ok len
  end.

Definition match_length (data : list Z) (a b : nat) : result abort nat :=
  let? max_len := panic_sub "b <= n, cannot underflow" (length data) b in
  match_from (Nat.min max_len MAX_MATCH) data a b 0.

(** The hash chains. *)
Record Chains := mkChains { head : list Z; prev : list Z }.

(** [prev[ pos ] = head[ h ]; head[ h ] = pos] *)
Definition link (data : list Z) (pos : nat) (h : nat) (c : Chains) : result abort Chains :=
  let? old := unwrap "h < HASH_SIZE" (list_getitem h (head c)) in
  let? prev' := unwrap "pos < n" (list_setitem pos old (prev c)) in
  let? p := panic_i32 "bounded by n, cannot overflow" (Z.of_nat pos) in
  let? head' := unwrap "h < HASH_SIZE" (list_setitem h p (head c)) in
  Ok (mkChains head' prev').

(** The walk along a chain: the best length and distance. *)
Fixpoint chain_search (fuel : nat) (data : list Z) (c : Chains) (pos : nat) (max_chain : Z)
    (candidate : Z) (chain_len : Z) (best_len best_dist : nat) : result abort (nat * nat) :=
  match fuel with
  | O => Err Fault
  | S fuel =>
      if negb (candidate =? -1) && (chain_len <? max_chain) then
        let? cand_pos := usize_of_i32 candidate in
        let? dist := panic_sub "cand_pos <= pos, cand_pos is an earlier position" pos cand_pos in
        let next best_len best_dist :=
          let? candidate := unwrap "cand_pos < n" (list_getitem cand_pos (prev c)) in
          chain_search fuel data c pos max_chain candidate (chain_len + 1) best_len best_dist in
        if Z.of_nat dist <=? MAX_DISTANCE then
          let? match_len := match_length data cand_pos pos in
          if (best_len <? match_len)%nat then
            if (MAX_MATCH <=? match_len)%nat then Ok (match_len, dist) else next match_len dist
          else next best_len best_dist
        else next best_len best_dist
      else Ok (best_len, best_dist)
  end.

(** The positions from [j] on that a match covers, [k] at most. *)
Fixpoint link_covered (k : nat) (data : list Z) (j match_end : nat) (c : Chains) : result abort Chains :=
  match k with
  | O => Ok c
  | S k =>
      if ((j <? match_end) && (j + MIN_MATCH <=? length data))%nat then
        let? hj := hash3 data j in
        let? c := link data j hj c in
        link_covered k data (j + 1) match_end c
      else Ok c
  end.

Section find_matches.
Context `{Platform}.

(** The outer loop, one position or one match at a time. *)
Fixpoint scan_positions (fuel : nat) (data : list Z) (max_chain : Z) (pos : nat) (c : Chains) (tokens : list LZ77Token) :
    result abort (list LZ77Token) :=
  match fuel with
  | O => if (pos <? length data)%nat then Err Fault else Ok tokens
  | S fuel =>
      if (pos <? length data)%nat then
        if negb (pos + MIN_MATCH <=? length data)%nat then
          let? b := read_ptr data pos in
          scan_positions fuel data max_chain (pos + 1) c (tokens ++ [Literal b])
        else
          let? h := hash3 data pos in
          let? candidate := unwrap "h < HASH_SIZE" (list_getitem h (head c)) in
          let? (best_len, best_dist) := chain_search (S (S pos)) data c pos max_chain candidate 0 0 0 in
          let? c := link data pos h c in
          if (MIN_MATCH <=? best_len)%nat then
            let? len := panic_u16 "both bounded by RFC 1951 limits, fit in u16" (Z.of_nat best_len) in
            let? dist := panic_u16 "both bounded by RFC 1951 limits, fit in u16" (Z.of_nat best_dist) in
            let tok := Match (mkMatch len dist) in
            let match_end := (pos + best_len)%nat in
            let? c := link_covered best_len data (pos + 1) match_end c in
            scan_positions fuel data max_chain match_end c (tokens ++ [tok])
          else
            let? b := read_ptr data pos in
            scan_positions fuel data max_chain (pos + 1) c (tokens ++ [Literal b])
      else Ok tokens
  end.

Definition wrap_usize (z : Z) : Z := z mod (usize_max + 1).

Definition find_matches (data : list Z) (level : Z) : result abort (list LZ77Token) :=
  let n := length data in
  if (n <? MIN_MATCH)%nat then Ok (map Literal data)
  else
    let max_chain := wrap_usize (wrap_usize (wrap_usize level * 8) + 8) in
    scan_positions n data max_chain 0 (mkChains (replicate (Z.to_nat HASH_SIZE) (-1)) (replicate n (-1))) [].
End find_matches.

(** ** Replay *)

(** The loop of [copy_match], from byte [i] of [n] on. *)
Fixpoint copy_bytes (n start i : nat) (out : list Z) : result abort (list Z) :=
  match n with
  | O => Ok out
  | S n =>
      let? b := unwrap "src_idx always already-written" (list_getitem (start + i) out) in
      copy_bytes n start (i + 1) (out ++ [b])
  end.

Definition copy_match (out : list Z) (distance len : Z) : result abort (result LZ77Error (list Z)) :=
  let out_len := length out in
  if (distance =? 0) || (Z.of_nat out_len <? distance) then
    Ok (Err (mkLZ77Error "copy_match: distance out of range"))
  else
    let? start := panic_sub "distance <= out_len, just checked" out_len (Z.to_nat distance) in
    let? out := copy_bytes (Z.to_nat len) start 0 out in
    Ok (Ok out).

(** What a token stream stands for. *)
Fixpoint replay_tokens (tokens : list LZ77Token) (out : list Z) : result abort (result LZ77Error (list Z)) :=
  match tokens with
  | [] => Ok (Ok out)
  | Literal b :: tokens => replay_tokens tokens (out ++ [b])
  | Match m :: tokens => let?! out := copy_match out (m_distance m) (m_length m) in replay_tokens tokens out
  end.

Definition token_ok (t : LZ77Token) : Prop :=
  match t with
  | Literal b => is_byte b
  | Match m => 3 <= m_length m <= 258 /\ 1 <= m_distance m <= 32768
  end.

(** ** The chains *)

(** Every link goes to an earlier position; the heads are before [cur]. *)
Record chains_ok (n cur : nat) (c : Chains) : Prop := {
  chains_head : length (head c) = Z.to_nat HASH_SIZE;
  chains_prev : length (prev c) = n;
  chains_heads : forall h p, head c !! h = Some p -> -1 <= p < Z.of_nat cur;
  chains_links : forall k p, prev c !! k = Some p -> -1 <= p < Z.of_nat k;
}.

Lemma chains_ok_mono n cur cur' c : (cur <= cur')%nat -> chains_ok n cur c -> chains_ok n cur' c.
Proof. intros Hle [H1 H2 H3 H4]. constructor; try done. intros h p Hp. specialize (H3 h p Hp). lia. Qed.

Lemma hash3_ok data pos : (pos + MIN_MATCH <= length data)%nat ->
  exists h, hash3 data pos = Ok h /\ (h < Z.to_nat HASH_SIZE)%nat.
Proof.
  unfold MIN_MATCH. intros Hp. unfold hash3.
  destruct (read_ptr_ok data pos) as (b0 & -> & _); [lia|]. destruct (read_ptr_ok data (pos + 1)) as (b1 & -> & _); [lia|].
  destruct (read_ptr_ok data (pos + 2)) as (b2 & -> & _); [lia|]. cbn [result_bind]. eexists. split; [done|].
  unfold HASH_SIZE. change (32768 - 1) with (Z.ones 15). rewrite Z.land_ones by done.
  match goal with |- (Z.to_nat (?z mod _) < _)%nat => pose proof (Z.mod_pos_bound z (2 ^ 15) ltac:(done)) end. lia.
Qed.

Lemma link_ok data pos h cur c : chains_ok (length data) cur c -> (cur <= pos < length data)%nat ->
  (h < Z.to_nat HASH_SIZE)%nat -> Z.of_nat pos < 2 ^ 31 ->
  exists c', link data pos h c = Ok c' /\ chains_ok (length data) (pos + 1) c'.
Proof.
  intros [H1 H2 H3 H4] Hpos Hh Hsz. unfold link.
  destruct (lookup_lt_is_Some_2 (head c) h) as [old Hold]; [lia|]. rewrite (getitem_ok _ _ _ _ Hold). cbn [result_bind].
  rewrite setitem_ok by lia. cbn [result_bind]. rewrite in_panic_ok by lia. cbn [result_bind].
  rewrite setitem_ok by lia. cbn [result_bind]. eexists. split; [done|]. pose proof (H3 h old Hold).
  constructor; simpl.
  - by rewrite length_insert.
  - by rewrite length_insert.
  - intros g p [(<- & <- & _)|[Hne Hp]]%list_lookup_insert_Some; [lia|]. specialize (H3 g p Hp). lia.
  - intros k p [(<- & <- & _)|[Hne Hp]]%list_lookup_insert_Some; [lia|]. by apply (H4 k p).
Qed.

Lemma link_bound data pos h c c' : link data pos h c = Ok c' -> Z.of_nat pos < 2 ^ 31.
Proof.
  unfold link. destruct (list_getitem h (head c)); cbn [unwrap result_bind]; [|done].
  destruct (list_setitem pos _ _); cbn [unwrap result_bind]; [|done].
  destruct (in_panic _ _ _ (Z.of_nat pos)) eqn:E; [|done]. intros _. apply in_panic_inv in E as [_ ?]. lia.
Qed.

(** ** The matches *)

Definition same_bytes (data : list Z) (a b n : nat) : Prop :=
  forall i, (i < n)%nat -> data !! (a + i)%nat = data !! (b + i)%nat.

Lemma match_from_spec data a b n : forall len, (a <= b)%nat -> (b + len + n <= length data)%nat -> same_bytes data a b len ->
  exists r, match_from n data a b len = Ok r /\ (r <= len + n)%nat /\ same_bytes data a b r.
Proof.
  induction n as [|n IH]; intros len Hab Hlen Hs; cbn [match_from]; [exists len; split_and!; [done|lia|done]|].
  destruct (read_ptr_ok data (a + len)) as (x & -> & Hx); [lia|]. destruct (read_ptr_ok data (b + len)) as (y & -> & Hy); [lia|].
  cbn [result_bind]. destruct (Z.eqb_spec x y) as [->|]; [|exists len; split_and!; [done|lia|done]].
  destruct (IH (len + 1)%nat) as (r & E & Hr & Hs'); [done|lia| |exists r; split_and!; [done|lia|done]].
  intros i Hi. destruct (decide (i = len)) as [->|]; [by rewrite Hx, Hy|apply Hs; lia].
Qed.

Lemma match_length_spec data a b : (a <= b <= length data)%nat ->
  exists r, match_length data a b = Ok r /\ (r <= MAX_MATCH)%nat /\ (b + r <= length data)%nat /\ same_bytes data a b r.
Proof.
  intros Hab. unfold match_length. rewrite panic_sub_ok by lia. cbn [result_bind].
  destruct (match_from_spec data a b (Nat.min (length data - b) MAX_MATCH) 0) as (r & E & Hr & Hs); [lia|lia|intros i; lia|].
  exists r. split_and!; [done|lia|lia|done].
Qed.

(** What the search has found. *)
Definition found (data : list Z) (pos len dist : nat) : Prop :=
  len = 0%nat \/
  ((1 <= dist <= pos)%nat /\ Z.of_nat dist <= MAX_DISTANCE /\ (len <= MAX_MATCH)%nat /\ (pos + len <= length data)%nat /\
   same_bytes data (pos - dist) pos len).

Lemma chain_search_spec data c pos max_chain cur fuel : chains_ok (length data) cur c -> (pos < length data)%nat ->
  forall candidate chain_len best_len best_dist, -1 <= candidate < Z.of_nat pos -> candidate + 1 < Z.of_nat fuel ->
  found data pos best_len best_dist ->
  exists len dist, chain_search fuel data c pos max_chain candidate chain_len best_len best_dist = Ok (len, dist) /\
    found data pos len dist.
Proof.
  intros Hc Hpos. induction fuel as [|fuel IH]; intros candidate chain_len bl bd Hcand Hf Hbest; cbn [chain_search]; [lia|].
  destruct (negb _ && _) eqn:Hgo; [|by exists bl, bd].
  apply andb_prop in Hgo as [Hne%negb_true_iff%Z.eqb_neq _]. rewrite usize_of_i32_ok by lia. cbn [result_bind].
  rewrite panic_sub_ok by lia. cbn [result_bind]. cbv zeta.
  destruct (lookup_lt_is_Some_2 (prev c) (Z.to_nat candidate)) as [p Hp]; [rewrite (chains_prev _ _ _ Hc); lia|].
  pose proof (chains_links _ _ _ Hc _ _ Hp) as Hlink.
  assert (Hnext : forall bl bd, found data pos bl bd -> exists len dist,
    (let? candidate := unwrap "cand_pos < n" (list_getitem (Z.to_nat candidate) (prev c)) in
     chain_search fuel data c pos max_chain candidate (chain_len + 1) bl bd) = Ok (len, dist) /\ found data pos len dist).
  { intros bl' bd' Hb. rewrite (getitem_ok _ _ _ _ Hp). cbn [result_bind]. apply IH; [lia|lia|done]. }
  destruct (Z.leb_spec (Z.of_nat (pos - Z.to_nat candidate)) MAX_DISTANCE) as [Hd|Hd]; [|by apply Hnext].
  destruct (match_length_spec data (Z.to_nat candidate) pos) as (r & -> & Hr & Hrn & Hs); [lia|]. cbn [result_bind].
  assert (Hnew : found data pos r (pos - Z.to_nat candidate)).
  { right. split_and!; [lia|lia|done|done|done|]. by replace (pos - (pos - Z.to_nat candidate))%nat with (Z.to_nat candidate) by lia. }
  destruct (bl <? r)%nat; [|by apply Hnext]. destruct (MAX_MATCH <=? r)%nat; [by eexists _, _|by apply Hnext].
Qed.

(** ** The positions a match covers *)

Lemma link_covered_ok data k : forall j me c, chains_ok (length data) j c -> Z.of_nat (length data) <= 2 ^ 31 + 2 ->
  (j <= me)%nat -> exists c', link_covered k data j me c = Ok c' /\ chains_ok (length data) me c'.
Proof.
  induction k as [|k IH]; intros j me c Hc Hsz Hj; cbn [link_covered].
  { exists c. split; [done|]. by apply (chains_ok_mono _ j). }
  destruct (Nat.ltb_spec j me) as [Hlt|]; cbn [andb]; [|exists c; split; [done|by apply (chains_ok_mono _ j)]].
  destruct (Nat.leb_spec (j + MIN_MATCH) (length data)) as [Hle|]; [|exists c; split; [done|by apply (chains_ok_mono _ j)]].
  unfold MIN_MATCH in Hle. destruct (hash3_ok data j Hle) as (h & -> & Hh). cbn [result_bind].
  destruct (link_ok data j h j c Hc) as (c' & -> & Hc'); [lia|done|lia|]. cbn [result_bind]. apply IH; [done|done|lia].
Qed.

Lemma link_covered_bound data k : forall j me c c', link_covered k data j me c = Ok c' ->
  (j <= length data - MIN_MATCH < me)%nat -> (me <= j + k)%nat -> (MIN_MATCH <= length data)%nat ->
  Z.of_nat (length data - MIN_MATCH) < 2 ^ 31.
Proof.
  unfold MIN_MATCH. induction k as [|k IH]; intros j me c c' E Hj Hk Hn; [lia|]. cbn [link_covered] in E.
  rewrite (proj2 (Nat.ltb_lt _ _)) in E by lia. rewrite (proj2 (Nat.leb_le _ _)) in E by (unfold MIN_MATCH; lia). cbn [andb] in E.
  destruct (hash3 data j) as [h|]; [|done]. cbn [result_bind] in E. destruct (link data j h c) as [c1|] eqn:El; [|done].
  cbn [result_bind] in E. apply link_bound in El. destruct (decide (j = length data - 3)%nat) as [->|]; [done|].
  eapply IH; [exact E|lia|lia|done].
Qed.

(** ** Replay *)

Lemma copy_bytes_spec data start pos n : forall i, (start < pos)%nat -> (pos + i + n <= length data)%nat ->
  same_bytes data start pos (i + n) -> copy_bytes n start i (take (pos + i) data) = Ok (take (pos + i + n) data).
Proof.
  induction n as [|n IH]; intros i Hs Hlen Hsame; cbn [copy_bytes]; [by rewrite Nat.add_0_r|].
  destruct (lookup_lt_is_Some_2 data (pos + i)) as [b Hb]; [lia|].
  assert (Hsrc : take (pos + i) data !! (start + i)%nat = Some b).
  { rewrite lookup_take_lt by lia. by rewrite Hsame by lia. }
  rewrite (getitem_ok _ _ _ _ Hsrc). cbn [result_bind]. rewrite <- (take_S_r _ _ _ Hb).
  rewrite <- Nat.add_succ_r, <- (Nat.add_1_r i). rewrite IH by (done || lia || by rewrite <- Nat.add_assoc).
  f_equal. f_equal. lia.
Qed.

(** A match that was found copies the bytes it stands for. *)
Lemma copy_match_spec data pos len dist : found data pos len dist -> (0 < len)%nat ->
  copy_match (take pos data) (Z.of_nat dist) (Z.of_nat len) = Ok (Ok (take (pos + len) data)).
Proof.
  intros [->|(Hd & Hmax & Hl & Hn & Hs)] Hpos; [lia|]. unfold copy_match. rewrite length_take_le by lia.
  rewrite (proj2 (Z.eqb_neq _ _)), (proj2 (Z.ltb_ge _ _)) by lia. cbn [orb]. rewrite !Nat2Z.id.
  rewrite panic_sub_ok by lia. cbn [result_bind]. pose proof (copy_bytes_spec data (pos - dist) pos len 0) as Hc.
  rewrite Nat.add_0_r in Hc. by rewrite Hc by (done || lia).
Qed.

Lemma replay_app t1 t2 out : replay_tokens (t1 ++ t2) out = let?! o := replay_tokens t1 out in replay_tokens t2 o.
Proof.
  revert out. induction t1 as [|[b|m] t1 IH]; intros out; cbn [app replay_tokens]; [done|apply IH|].
  unfold or_return_pure. destruct (copy_match _ _ _) as [[o|e]|p]; [|done|done]. by rewrite IH.
Qed.

Section find_matches_correct.
Context `{Platform}.

(** The tokens so far stand for the first [pos] bytes. *)
Definition covers (data : list Z) (pos : nat) (tokens : list LZ77Token) : Prop :=
  (pos <= length data)%nat /\ Forall token_ok tokens /\ replay_tokens tokens [] = Ok (Ok (take pos data)).

Lemma covers_literal data pos tokens b : Forall is_byte data -> covers data pos tokens -> data !! pos = Some b ->
  covers data (pos + 1) (tokens ++ [Literal b]).
Proof.
  intros Hby (Hp & Hok & Hr) Hb. pose proof (lookup_lt_Some _ _ _ Hb). split_and!; [lia| |].
  - apply Forall_app. split; [done|]. constructor; [|done]. exact (Forall_lookup_1 _ _ _ _ Hby Hb).
  - rewrite replay_app, Hr. cbn [or_return_pure replay_tokens]. by rewrite Nat.add_1_r, (take_S_r _ _ _ Hb).
Qed.

Lemma covers_match data pos tokens len dist : covers data pos tokens -> found data pos len dist -> (MIN_MATCH <= len)%nat ->
  covers data (pos + len) (tokens ++ [Match (mkMatch (Z.of_nat len) (Z.of_nat dist))]).
Proof.
  unfold MIN_MATCH. intros (Hp & Hok & Hr) Hf Hl. pose proof Hf as [->|(Hd & Hmax & Hlm & Hn & _)]; [lia|].
  unfold MAX_MATCH, MAX_DISTANCE in *. split_and!; [done| |].
  - apply Forall_app. split; [done|]. constructor; [simpl; lia|done].
  - rewrite replay_app, Hr. cbn [or_return_pure replay_tokens m_distance m_length]. by rewrite copy_match_spec by (done || lia).
Qed.

Lemma scan_positions_spec data max_chain fuel : Forall is_byte data -> Z.of_nat (length data) <= 2 ^ 31 + 2 ->
  forall pos c tokens, chains_ok (length data) pos c -> (length data - pos <= fuel)%nat -> covers data pos tokens ->
  exists ts, scan_positions fuel data max_chain pos c tokens = Ok ts /\ covers data (length data) ts.
Proof.
  intros Hby Hsz. induction fuel as [|fuel IH]; intros pos c tokens Hc Hf Hcov; cbn [scan_positions].
  { destruct Hcov as [Hp ?]. replace pos with (length data) in * by lia. rewrite Nat.ltb_irrefl. by exists tokens. }
  destruct (Nat.ltb_spec pos (length data)) as [Hlt|Hge].
  2: { destruct Hcov as [Hp ?]. replace pos with (length data) in * by lia. by exists tokens. }
  destruct (read_ptr_ok data pos Hlt) as (b & Eb & Hb). pose proof (covers_literal data pos tokens b Hby Hcov Hb) as Hlit.
  assert (Hnext : forall c', chains_ok (length data) (pos + 1) c' -> exists ts,
    (let? b := read_ptr data pos in scan_positions fuel data max_chain (pos + 1) c' (tokens ++ [Literal b])) = Ok ts /\
    covers data (length data) ts).
  { intros c' Hc'. rewrite Eb. cbn [result_bind]. apply IH; [done|lia|done]. }
  destruct (Nat.leb_spec (pos + MIN_MATCH) (length data)) as [Ha|Ha]; cbn [negb];
    [|apply Hnext; apply (chains_ok_mono _ pos); [lia|done]].
  destruct (hash3_ok data pos Ha) as (h & -> & Hh). cbn [result_bind].
  destruct (lookup_lt_is_Some_2 (head c) h) as [cand Hcand]; [by rewrite (chains_head _ _ _ Hc)|].
  rewrite (getitem_ok _ _ _ _ Hcand). cbn [result_bind]. pose proof (chains_heads _ _ _ Hc _ _ Hcand) as Hcr.
  destruct (chain_search_spec data c pos max_chain pos (S (S pos)) Hc Hlt cand 0 0 0) as (len & dist & -> & Hfound);
    [done|lia|by left|]. cbn [result_bind].
  unfold MIN_MATCH in Ha. destruct (link_ok data pos h pos c Hc) as (c1 & -> & Hc1); [lia|done|lia|]. cbn [result_bind].
  destruct (Nat.leb_spec MIN_MATCH len) as [Hm|Hm]; [|by apply Hnext].
  pose proof Hfound as [->|(Hd & Hmax & Hlm & Hn & _)]; [by inversion Hm|]. unfold MAX_MATCH, MAX_DISTANCE, MIN_MATCH in *.
  rewrite !in_panic_ok by lia. cbn [result_bind].
  destruct (link_covered_ok data len (pos + 1) (pos + len) c1 Hc1 Hsz) as (c2 & -> & Hc2); [lia|]. cbn [result_bind].
  apply IH; [done|lia|]. by apply covers_match.
Qed.

Lemma replay_literals data : forall out, replay_tokens (map Literal data) out = Ok (Ok (out ++ data)).
Proof.
  induction data as [|b data IH]; intros out; cbn [map replay_tokens]; [by rewrite app_nil_r|]. by rewrite IH, <- app_assoc.
Qed.

Lemma initial_chains n : chains_ok n 0 (mkChains (replicate (Z.to_nat HASH_SIZE) (-1)) (replicate n (-1))).
Proof.
  constructor; [apply length_replicate|apply length_replicate| |]; cbn [head prev];
    intros k p [-> _]%lookup_replicate; lia.
Qed.

Lemma find_matches_covers data level : Forall is_byte data -> Z.of_nat (length data) <= 2 ^ 31 + 2 ->
  exists ts, find_matches data level = Ok ts /\ covers data (length data) ts.
Proof.
  intros Hby Hsz. unfold find_matches. destruct (length data <? MIN_MATCH)%nat.
  - eexists. split; [done|]. split_and!; [done| |by rewrite replay_literals, firstn_all].
    apply Forall_map. eapply Forall_impl; [exact Hby|]. done.
  - apply scan_positions_spec; [done|done|apply initial_chains|lia|]. split_and!; [lia|done|done].
Qed.

(** The last position hashed is stored in an [i32]. *)
Lemma scan_positions_bound data max_chain fuel : (MIN_MATCH <= length data)%nat -> forall pos c tokens ts,
  scan_positions fuel data max_chain pos c tokens = Ok ts -> (pos <= length data - MIN_MATCH)%nat ->
  Z.of_nat (length data - MIN_MATCH) < 2 ^ 31.
Proof.
  unfold MIN_MATCH. intros Hn. induction fuel as [|fuel IH]; intros pos c tokens ts E Hp; cbn [scan_positions] in E;
    rewrite (proj2 (Nat.ltb_lt _ _)) in E by lia; [done|].
  rewrite (proj2 (Nat.leb_le _ _)) in E by (unfold MIN_MATCH; lia). cbn [negb] in E.
  destruct (hash3 data pos) as [h|]; [|done]. cbn [result_bind] in E.
  destruct (unwrap _ (list_getitem h (head c))) as [cand|]; [|done]. cbn [result_bind] in E.
  destruct (chain_search _ _ _ _ _ _ _ _ _) as [[len dist]|]; [|done]. cbn [result_bind] in E.
  destruct (link data pos h c) as [c1|] eqn:El; [|done]. cbn [result_bind] in E. apply link_bound in El.
  destruct (decide (pos = length data - 3)%nat) as [->|Hne]; [done|].
  destruct (MIN_MATCH <=? len)%nat eqn:Hm.
  - destruct (in_panic _ _ _ (Z.of_nat len)); [|done]. cbn [result_bind] in E.
    destruct (in_panic _ _ _ (Z.of_nat dist)); [|done]. cbn [result_bind] in E.
    destruct (link_covered _ _ _ _ c1) as [c2|] eqn:Ec; [|done]. cbn [result_bind] in E.
    destruct (decide (pos + len <= length data - 3)%nat); [by eapply IH|].
    eapply link_covered_bound; [exact Ec|unfold MIN_MATCH; lia|lia|done].
  - destruct (read_ptr data pos); [|done]. cbn [result_bind] in E. eapply IH; [exact E|lia].
Qed.

(** C26: [find_matches] terminates on every byte string, reads and writes in
    bounds, and returns a result exactly when the input has at most 2^31 + 2
    bytes (above, storing a position in an [i32] panics); at every level its
    tokens obey RFC 1951's limits, and replaying them with [copy_match]
    reproduces the input. *)
Theorem find_matches_roundtrip data level : Forall is_byte data ->
  (is_ok (find_matches data level) = true <-> Z.of_nat (length data) <= 2 ^ 31 + 2) /\
  (forall tokens, find_matches data level = Ok tokens ->
     Forall token_ok tokens /\ replay_tokens tokens [] = Ok (Ok data)).
Proof.
  intros Hby.
  assert (Hbound : forall ts, find_matches data level = Ok ts -> Z.of_nat (length data) <= 2 ^ 31 + 2).
  { unfold find_matches, MIN_MATCH. intros ts. destruct (Nat.ltb_spec (length data) 3) as [Hlt|Hge]; [lia|].
    intros Hs%scan_positions_bound; [|done|lia]. unfold MIN_MATCH in Hs. lia. }
  split; [split|].
  - destruct (find_matches data level) eqn:E; [|done]. intros _. by eapply Hbound.
  - intros Hsz. destruct (find_matches_covers data level Hby Hsz) as (ts & -> & _). done.
  - intros tokens E. destruct (find_matches_covers data level Hby (Hbound _ E)) as (ts & E' & _ & Hok & Hr).
    rewrite E in E'. injection E' as <-. by rewrite firstn_all in Hr.
Qed.
End find_matches_correct.

(** A 64-bit platform. *)
#[local] Instance platform64 : Platform := {| usize_max := 2 ^ 64 - 1; malloc n := Some (replicate n Byte.x00) |}.

Lemma find_matches_roundtrip_witness :
  let data := [1; 2; 3; 1; 2; 3; 1; 2; 3; 4] in
  (is_ok (find_matches data 6) = true <-> Z.of_nat (length data) <= 2 ^ 31 + 2) /\
  (forall tokens, find_matches data 6 = Ok tokens -> Forall token_ok tokens /\ replay_tokens tokens [] = Ok (Ok data)).
Proof. intros data. apply (find_matches_roundtrip data 6). repeat constructor; lia. Defined.

Example find_matches_example : find_matches [1; 2; 3; 1; 2; 3; 1; 2; 3; 4] 6 =
  Ok [Literal 1; Literal 2; Literal 3; Match (mkMatch 6 3); Literal 4].
Proof. by vm_compute. Qed.
