(* ===== verification/Deflate.v ===== *)
(** * DEFLATE: compression ([lib/deflate.py])

    The block framing of RFC 1951: symbol tables, the frequency tally, the
    run-length coded header of a dynamic block, and [compress].  An error value
    of a callee becomes a [DeflateError] with the caller's message. *)

From S2P Require Import Prelude RawList Bits Bitstream Huffman HuffmanTree Lz77.

Local Open Scope Z_scope.
Local Open Scope monad_scope.

Inductive DeflateError := mkDeflateError (message : string).

Definition BTYPE_STORED : Z := 0.
Definition BTYPE_FIXED : Z := 1.
Definition BTYPE_DYNAMIC : Z := 2.

Abbreviation D A := (result abort (result DeflateError A)).

(** ** Converting errors *)

Definition with_context {E A} (context : string) (r : result E A) : result DeflateError A :=
  match r with Ok a => Ok a | Err _ => Err (mkDeflateError context) end.

Definition build_encoder (lengths : list Z) (context : string) : D HuffmanEncoder :=
  let? r := new_encoder lengths in Ok (with_context context r).

Definition build_decoder (lengths : list Z) (context : string) : D HuffmanDecoder :=
  let? r := new_decoder lengths in Ok (with_context context r).

Definition build_lengths (freqs : list Z) (max_len : Z) (context : string) : D (list Z) :=
  let? r := build_code_lengths_from_frequencies freqs max_len in Ok (with_context context r).

Definition write_symbol_in (enc : HuffmanEncoder) (symbol : Z) (context : string) : W (result DeflateError unit) :=
  let* r := write_symbol enc symbol in ret (with_context context r).

(** ** Constant tables *)

Definition CL_ORDER_DATA : list Z := [16; 17; 18; 0; 8; 7; 9; 6; 10; 5; 11; 4; 12; 3; 13; 2; 14; 1; 15].


(** [while i < len( data ): order.append( u8( data[ i ] ))] *)
Fixpoint build_cl_order (data : list Z) : result abort (list Z) :=
  match data with
  | [] => Ok []
  | x :: data =>
      let? v := panic_u8 "fixed 19-entry literal, cannot overflow" x in
      let? order := build_cl_order data in
      Ok (v :: order)
  end.

Definition CL_ORDER : list Z := match build_cl_order CL_ORDER_DATA with Ok l => l | Err _ => [] end.

Record U16U8Table := mkTable { base : list Z; extra : list Z }.

(** The loop that splits a literal of pairs. *)
Fixpoint build_table (msg : string) (data : list Z) : result abort U16U8Table :=
  match data with
  | [] => Ok (mkTable [] [])
  | [_] => Err (Panic "i+1 in range")
  | x :: y :: data =>
      let? b := panic_u16 msg x in
      let? e := panic_u8 msg y in
      let? t := build_table msg data in
      Ok (mkTable (b :: base t) (e :: extra t))
  end.

Definition length_data : list Z :=
  [3;0; 4;0; 5;0; 6;0; 7;0; 8;0; 9;0; 10;0; 11;1; 13;1; 15;1; 17;1; 19;2; 23;2; 27;2; 31;2;
   35;3; 43;3; 51;3; 59;3; 67;4; 83;4; 99;4; 115;4; 131;5; 163;5; 195;5; 227;5; 258;0].

Definition dist_data : list Z :=
  [1;0; 2;0; 3;0; 4;0; 5;1; 7;1; 9;2; 13;2; 17;3; 25;3; 33;4; 49;4; 65;5; 97;5; 129;6; 193;6; 257;7; 385;7;
   513;8; 769;8; 1025;9; 1537;9; 2049;10; 3073;10; 4097;11; 6145;11; 8193;12; 12289;12; 16385;13; 24577;13].

Definition table_or_empty (t : result abort U16U8Table) : U16U8Table :=
  match t with Ok t => t | Err _ => mkTable [] [] end.

Definition LENGTH_TABLE := table_or_empty (build_table "fixed 58-entry literal, cannot overflow" length_data).
Definition LENGTH_BASE := base LENGTH_TABLE.
Definition LENGTH_EXTRA := extra LENGTH_TABLE.
Definition DIST_TABLE := table_or_empty (build_table "fixed 60-entry literal, cannot overflow" dist_data).
Definition DIST_BASE := base DIST_TABLE.
Definition DIST_EXTRA := extra DIST_TABLE.

(** The scan for the last base not above [v]. *)
Fixpoint find_base (fuel idx : nat) (bases : list Z) (v : Z) : result abort nat :=
  match fuel with
  | O => Ok idx
  | S fuel =>
      if (idx + 1 <? length bases)%nat then
        let? next_base := unwrap "idx+1 in range" (list_getitem (idx + 1) bases) in
        if v <? next_base then Ok idx else find_base fuel (idx + 1) bases v
      else Ok idx
  end.

Definition length_to_symbol (len : Z) : result abort (Z * Z * Z) :=
  let? idx := find_base (length LENGTH_BASE) 0 LENGTH_BASE len in
  let? b := unwrap "idx in range" (list_getitem idx LENGTH_BASE) in
  let? extra_bits := unwrap "idx in range" (list_getitem idx LENGTH_EXTRA) in
  let extra_val := u32 (len - b) in
  let symbol := u16 (257 + u16 (Z.of_nat idx)) in
  Ok (symbol, extra_val, extra_bits).

Definition distance_to_symbol (distance : Z) : result abort (Z * Z * Z) :=
  let? idx := find_base (length DIST_BASE) 0 DIST_BASE distance in
  let? b := unwrap "idx in range" (list_getitem idx DIST_BASE) in
  let? extra_bits := unwrap "idx in range" (list_getitem idx DIST_EXTRA) in
  let extra_val := u32 (distance - b) in
  let symbol := u16 (Z.of_nat idx) in
  Ok (symbol, extra_val, extra_bits).

(** [_build_fixed_litlen_lengths] and [_build_fixed_dist_lengths] *)
Definition fixed_litlen_length (sym : nat) : Z :=
  if (sym <=? 143)%nat then 8
  else if (sym <=? 255)%nat then 9
  else if (sym <=? 279)%nat then 7
  else 8.

Definition FIXED_LITLEN_LENGTHS : list Z := map fixed_litlen_length (seq 0 288).
Definition FIXED_DIST_LENGTHS : list Z := replicate 32 5.

(** ** Frequencies *)

(** [l[ idx ] += 1], wrapping at 32 bits. *)
Definition bump (msg : string) (idx : nat) (l : list Z) : result abort (list Z) :=
  let? prev := unwrap msg (list_getitem idx l) in
  unwrap msg (list_setitem idx (u32 (prev + 1)) l).

Fixpoint tally_tokens (tokens : list LZ77Token) (litlen_freqs dist_freqs : list Z) : result abort (list Z * list Z) :=
  match tokens with
  | [] => Ok (litlen_freqs, dist_freqs)
  | Literal b :: tokens =>
      let? litlen_freqs := bump "idx < 286" (Z.to_nat b) litlen_freqs in
      tally_tokens tokens litlen_freqs dist_freqs
  | Match m :: tokens =>
      let? (lsym, _, _) := length_to_symbol (m_length m) in
      let? litlen_freqs := bump "lidx < 286" (Z.to_nat lsym) litlen_freqs in
      let? (dsym, _, _) := distance_to_symbol (m_distance m) in
      let? dist_freqs := bump "didx < 30" (Z.to_nat dsym) dist_freqs in
      tally_tokens tokens litlen_freqs dist_freqs
  end.

Definition tally_frequencies (tokens : list LZ77Token) (litlen_freqs dist_freqs : list Z) : result abort (list Z * list Z) :=
  let? (litlen_freqs, dist_freqs) := tally_tokens tokens litlen_freqs dist_freqs in
  let? litlen_freqs := bump "x" 256 litlen_freqs in
  let any_dist := existsb (fun f => 0 <? f) dist_freqs in
  let? dist_freqs := (if negb any_dist then unwrap "x" (list_setitem 0 1 dist_freqs) else Ok dist_freqs) in
  Ok (litlen_freqs, dist_freqs).

Record DynamicLengths := mkDynamicLengths { dl_litlen : list Z; dl_dist : list Z }.

Definition try_build_dynamic_lengths (litlen_freqs dist_freqs : list Z) : result abort (option DynamicLengths) :=
  let? litlen_lengths := build_code_lengths_from_frequencies litlen_freqs 15 in
  match litlen_lengths with
  | Err _ => Ok None
  | Ok litlen_lengths =>
      let? dist_lengths := build_code_lengths_from_frequencies dist_freqs 15 in
      match dist_lengths with
      | Err _ => Ok None
      | Ok dist_lengths => Ok (Some (mkDynamicLengths litlen_lengths dist_lengths))
      end
  end.

(** ** Tokens *)

Definition write_extra (value nbits : Z) : W unit :=
  if 0 <? nbits then write_bits value nbits else ret tt.

Fixpoint emit_tokens (litlen_enc dist_enc : HuffmanEncoder) (tokens : list LZ77Token) : W (result DeflateError unit) :=
  match tokens with
  | [] => write_symbol_in litlen_enc 256 "_emit_tokens: end-of-block symbol not in table"
  | Literal b :: tokens =>
      let! _ := write_symbol_in litlen_enc b "_emit_tokens: literal symbol not in table" in
      emit_tokens litlen_enc dist_enc tokens
  | Match m :: tokens =>
      let* (lsym, lval, lbits) := lift (length_to_symbol (m_length m)) in
      let! _ := write_symbol_in litlen_enc lsym "_emit_tokens: length symbol not in table" in
      write_extra lval lbits ;;;
      let* (dsym, dval, dbits) := lift (distance_to_symbol (m_distance m)) in
      let! _ := write_symbol_in dist_enc dsym "_emit_tokens: distance symbol not in table" in
      write_extra dval dbits ;;;
      emit_tokens litlen_enc dist_enc tokens
  end.

(** ** The header of a dynamic block *)

Record Rle := mkRle { rle_symbols : list Z; rle_extra : list Z; cl_freqs : list Z }.

(** Appending a symbol and its extra value, and counting it. *)
Definition rle_emit (sym extra_val : Z) (r : Rle) : result abort Rle :=
  let? freqs := bump "x" (Z.to_nat sym) (cl_freqs r) in
  Ok (mkRle (rle_symbols r ++ [sym]) (rle_extra r ++ [extra_val]) freqs).

(** How often [val] repeats from [i] on, [n] more times at most. *)
Fixpoint run_length (n : nat) (combined : list Z) (i run : nat) (val : Z) : result abort nat :=
  match n with
  | O => Ok run
  | S n =>
      if (i + run <? length combined)%nat then
        let? v := unwrap "i+run < n" (list_getitem (i + run) combined) in
        if (v =? val) && (run <? 138)%nat then run_length n combined i (run + 1) val else Ok run
      else Ok run
  end.

(** [while run >= least: take = min( run, most ); ...] with [sym] *)
Fixpoint rle_repeats (fuel : nat) (least most : nat) (sym : Z) (run : nat) (r : Rle) : result abort (nat * Rle) :=
  match fuel with
  | O => Ok (run, r)
  | S fuel =>
      if (least <=? run)%nat then
        let take_ := if (run <? most)%nat then run else most in
        let? r := rle_emit sym (u8 (Z.of_nat take_ - Z.of_nat least)) r in
        let? run := panic_sub "take <= run, cannot underflow" run take_ in
        rle_repeats fuel least most sym run r
      else Ok (run, r)
  end.

(** [while run > 0: ...] with [val] itself *)
Fixpoint rle_singles (run : nat) (val : Z) (r : Rle) : result abort Rle :=
  match run with
  | O => Ok r
  | S run => let? r := rle_emit val 0 r in rle_singles run val r
  end.

(** A run of [run] entries [val]. *)
Definition rle_run (val : Z) (run : nat) (r : Rle) : result abort Rle :=
  if val =? 0 then
    let? (run, r) := rle_repeats run 11 138 18 run r in
    let? (run, r) := rle_repeats run 3 10 17 run r in
    rle_singles run 0 r
  else
    let? r := rle_emit val 0 r in
    let? run := panic_sub "run >= 1, just consumed one" run 1 in
    let? (run, r) := rle_repeats run 3 6 16 run r in
    rle_singles run val r.

Fixpoint rle_encode (fuel : nat) (combined : list Z) (i : nat) (r : Rle) : result abort Rle :=
  match fuel with
  | O => if (i <? length combined)%nat then Err Fault else Ok r
  | S fuel =>
      if (i <? length combined)%nat then
        let? val := unwrap "i < n" (list_getitem i combined) in
        let? run := run_length (length combined) combined i 1 val in
        let? r := rle_run val run r in
        rle_encode fuel combined (i + run) r
      else Ok r
  end.

Fixpoint write_cl_lengths (order cl_lengths : list Z) : W unit :=
  match order with
  | [] => ret tt
  | sym_idx :: order =>
      let* cl_len := lift (unwrap "sym_idx < 19" (list_getitem (Z.to_nat sym_idx) cl_lengths)) in
      write_bits cl_len 3 ;;;
      write_cl_lengths order cl_lengths
  end.

(** The bits of the extra value a code-length symbol carries. *)
Definition cl_extra_bits (sym : Z) : Z :=
  if sym =? 16 then 2 else if sym =? 17 then 3 else if sym =? 18 then 7 else 0.

Fixpoint write_rle (cl_enc : HuffmanEncoder) (syms extras : list Z) : W (result DeflateError unit) :=
  match syms with
  | [] => ret (Ok tt)
  | rsym :: syms =>
      match extras with
      | [] => raise (Panic "ri in range")
      | rextra :: extras =>
          let! _ := write_symbol_in cl_enc rsym "_emit_dynamic_header: rle symbol not in cl table" in
          (if rsym =? 16 then write_bits rextra 2
           else if rsym =? 17 then write_bits rextra 3
           else if rsym =? 18 then write_bits rextra 7
           else ret tt) ;;;
          write_rle cl_enc syms extras
      end
  end.

Definition emit_dynamic_header (litlen_lengths dist_lengths : list Z) : W (result DeflateError unit) :=
  let combined := litlen_lengths ++ dist_lengths in
  let* r := lift (rle_encode (length combined) combined 0 (mkRle [] [] (replicate 19 0))) in
  let! cl_lengths := lift (build_lengths (cl_freqs r) 7 "_emit_dynamic_header: code-length alphabet table build failed") in
  let! cl_enc := lift (build_encoder cl_lengths "_emit_dynamic_header: code-length alphabet encoder build failed") in
  write_bits (286 - 257) 5 ;;;
  write_bits (30 - 1) 5 ;;;
  write_bits (19 - 4) 4 ;;;
  write_cl_lengths CL_ORDER cl_lengths ;;;
  write_rle cl_enc (rle_symbols r) (rle_extra r).

(** ** [compress] *)

(** The block after BFINAL, with dynamic code lengths or without. *)
Definition emit_block (dynamic_lengths : option DynamicLengths) (tokens : list LZ77Token) : W (result DeflateError unit) :=
  match dynamic_lengths with
  | Some d =>
      write_bits BTYPE_DYNAMIC 2 ;;;
      let! _ := emit_dynamic_header (dl_litlen d) (dl_dist d) in
      let! litlen_enc := lift (build_encoder (dl_litlen d) "compress: dynamic litlen encoder build failed") in
      let! dist_enc := lift (build_encoder (dl_dist d) "compress: dynamic dist encoder build failed") in
      emit_tokens litlen_enc dist_enc tokens
  | None =>
      write_bits BTYPE_FIXED 2 ;;;
      let! litlen_enc := lift (build_encoder FIXED_LITLEN_LENGTHS "compress: fixed litlen encoder build failed") in
      let! dist_enc := lift (build_encoder FIXED_DIST_LENGTHS "compress: fixed dist encoder build failed") in
      emit_tokens litlen_enc dist_enc tokens
  end.

Definition compress_tokens (tokens : list LZ77Token) : D (list Z) :=
  let? (litlen_freqs, dist_freqs) := tally_frequencies tokens (replicate 286 0) (replicate 30 0) in
  let? dynamic_lengths := try_build_dynamic_lengths litlen_freqs dist_freqs in
  fst ((write_bits 1 1 ;;;
        let! _ := emit_block dynamic_lengths tokens in
        let* out := finish in ret (Ok out)) new_writer).

Definition compress `{Platform} (data : list Z) (level : Z) : D (list Z) :=
  let? tokens := find_matches data level in
  compress_tokens tokens.
