(* ===== verification/Inflate.v ===== *)
(** * DEFLATE: decompression ([lib/deflate.py])

    The block loop, the three block types, and [decompress_exact] and
    [decompress_unbounded].  The state is the bit reader and the output list;
    [while True] loops take fuel, which the bits still unread bound. *)

From S2P Require Import Prelude RawList Bits Bitstream Huffman HuffmanTree Lz77 Deflate.

Local Open Scope Z_scope.
Local Open Scope monad_scope.

Record Inflate := mkInflate { reader : BitReader; out : list Z }.

Abbreviation I A := (M Inflate abort A).

Definition on_reader {A} (m : R A) : I A := fun s =>
  let '(r, reader') := m (reader s) in (r, mkInflate reader' (out s)).

Definition set_out (o : list Z) (s : Inflate) : Inflate := mkInflate (reader s) o.
Definition append_out (b : Z) : I unit := modify (fun s => set_out (out s ++ [b]) s).

Definition read_bits_in (nbits : Z) (context : string) : I (result DeflateError Z) :=
  let* r := on_reader (read_bits nbits) in ret (with_context context r).

Definition decode_symbol (dec : HuffmanDecoder) (context : string) : I (result DeflateError Z) :=
  let* r := on_reader (decode dec) in ret (with_context context r).

Definition do_copy_match (distance len : Z) (context : string) : I (result DeflateError unit) :=
  let* s := get in
  let* r := lift (copy_match (out s) distance len) in
  match r with
  | Ok o => modify (set_out o) ;;; ret (Ok tt)
  | Err _ => ret (Err (mkDeflateError context))
  end.

(** [base + extra bits], the extra bits read when there are any. *)
Definition read_extra (b nbits : Z) (context : string) : I (result DeflateError Z) :=
  if 0 <? nbits then
    let! ev := read_bits_in nbits context in ret (Ok (u32 (b + ev)))
  else ret (Ok b).

(** A stored block's data, [n] bytes. *)
Fixpoint inflate_bytes (n : nat) : I (result DeflateError unit) :=
  match n with
  | O => ret (Ok tt)
  | S n =>
      let! b := read_bits_in 8 "_inflate_stored: unexpected end of stream reading data" in
      let* b := lift (panic_u8 "bounded by count, cannot overflow" b) in
      append_out b ;;;
      inflate_bytes n
  end.

Definition inflate_stored : I (result DeflateError unit) :=
  on_reader align_reader ;;;
  let! len_val := read_bits_in 16 "_inflate_stored: unexpected end of stream reading LEN" in
  let! nlen_val := read_bits_in 16 "_inflate_stored: unexpected end of stream reading NLEN" in
  let complement := Z.land (u32 (Z.lnot len_val)) 0xFFFF in
  if negb (complement =? nlen_val) then
    ret (Err (mkDeflateError "_inflate_stored: LEN/NLEN complement mismatch"))
  else inflate_bytes (Z.to_nat len_val).

(** The length/distance pair after a length symbol. *)
Definition inflate_match (dist_dec : HuffmanDecoder) (sym : Z) : I (result DeflateError unit) :=
  let* lidx := lift (panic_sub "sym in 257..285, LENGTH_BASE sized 29" (Z.to_nat sym) 257) in
  if (length LENGTH_BASE <=? lidx)%nat then
    ret (Err (mkDeflateError "_inflate_huffman_block: length symbol out of range"))
  else
    let* lbase := lift (unwrap "lidx in range" (list_getitem lidx LENGTH_BASE)) in
    let* lextra_bits := lift (unwrap "lidx in range" (list_getitem lidx LENGTH_EXTRA)) in
    let! len := read_extra lbase lextra_bits "_inflate_huffman_block: unexpected end of stream reading length extra bits" in
    let! dsym := decode_symbol dist_dec "_inflate_huffman_block: failed to decode distance symbol" in
    let didx := Z.to_nat dsym in
    if (length DIST_BASE <=? didx)%nat then
      ret (Err (mkDeflateError "_inflate_huffman_block: distance symbol out of range"))
    else
      let* dbase := lift (unwrap "didx in range" (list_getitem didx DIST_BASE)) in
      let* dextra_bits := lift (unwrap "didx in range" (list_getitem didx DIST_EXTRA)) in
      let! distance := read_extra dbase dextra_bits "_inflate_huffman_block: unexpected end of stream reading distance extra bits" in
      do_copy_match distance len "_inflate_huffman_block: invalid match (bad distance)".

Fixpoint inflate_symbols (fuel : nat) (litlen_dec dist_dec : HuffmanDecoder) : I (result DeflateError unit) :=
  match fuel with
  | O => raise Fault
  | S fuel =>
      let! sym := decode_symbol litlen_dec "_inflate_huffman_block: failed to decode literal/length symbol" in
      if sym <? 256 then
        let* lit_byte := lift (panic_u8 "sym < 256, fits in u8" sym) in
        append_out lit_byte ;;;
        inflate_symbols fuel litlen_dec dist_dec
      else if sym =? 256 then ret (Ok tt)
      else
        let! _ := inflate_match dist_dec sym in
        inflate_symbols fuel litlen_dec dist_dec
  end.

Definition bits_left (s : Inflate) : nat := Z.to_nat (bits_remaining (reader s)).

Definition inflate_huffman_block (litlen_lengths dist_lengths : list Z) : I (result DeflateError unit) :=
  let! litlen_dec := lift (build_decoder litlen_lengths "_inflate_huffman_block: invalid literal/length table") in
  let! dist_dec := lift (build_decoder dist_lengths "_inflate_huffman_block: invalid distance table") in
  let* s := get in
  inflate_symbols (S (bits_left s)) litlen_dec dist_dec.

(** The code-length alphabet's lengths, in their order on the wire. *)
Fixpoint read_cl_lengths (hclen ci : nat) (cl_lengths : list Z) : I (result DeflateError (list Z)) :=
  match hclen with
  | O => ret (Ok cl_lengths)
  | S hclen =>
      let! v3 := read_bits_in 3 "_inflate_dynamic_block: unexpected end of stream reading a CL length" in
      let* sym_idx := lift (unwrap "ci < 19" (list_getitem ci CL_ORDER)) in
      let* v := lift (panic_u8 "bounded by hclen <= 19, cannot overflow" v3) in
      let* cl_lengths := lift (unwrap "sym_idx < 19" (list_setitem (Z.to_nat sym_idx) v cl_lengths)) in
      read_cl_lengths hclen (S ci) cl_lengths
  end.

(** One code-length symbol, appended to [combined]. *)
Definition read_code_length (csym : Z) (combined : list Z) : I (result DeflateError (list Z)) :=
  if csym <? 16 then
    let* v := lift (panic_u8 "bounded by total, cannot overflow" csym) in
    ret (Ok (combined ++ [v]))
  else if csym =? 16 then
    if (length combined =? 0)%nat then
      ret (Err (mkDeflateError "_inflate_dynamic_block: repeat-previous code with no previous length"))
    else
      let* last := lift (panic_sub "len(combined) > 0, just checked" (length combined) 1) in
      let* prev_len := lift (unwrap "x" (list_getitem last combined)) in
      let! extra16 := read_bits_in 2 "_inflate_dynamic_block: unexpected end of stream reading repeat-previous extra bits" in
      let repeat_count := u32 (extra16 + 3) in
      ret (Ok (combined ++ replicate (Z.to_nat repeat_count) prev_len))
  else if csym =? 17 then
    let! extra17 := read_bits_in 3 "_inflate_dynamic_block: unexpected end of stream reading repeat-zero(short) extra bits" in
    let zrun := u32 (extra17 + 3) in
    ret (Ok (combined ++ replicate (Z.to_nat zrun) 0))
  else if csym =? 18 then
    let! extra18 := read_bits_in 7 "_inflate_dynamic_block: unexpected end of stream reading repeat-zero(long) extra bits" in
    let zrun2 := u32 (extra18 + 11) in
    ret (Ok (combined ++ replicate (Z.to_nat zrun2) 0))
  else ret (Err (mkDeflateError "_inflate_dynamic_block: invalid code-length symbol")).

Fixpoint read_code_lengths (fuel total : nat) (cl_dec : HuffmanDecoder) (combined : list Z) :
    I (result DeflateError (list Z)) :=
  match fuel with
  | O => if (length combined <? total)%nat then raise Fault else ret (Ok combined)
  | S fuel =>
      if (length combined <? total)%nat then
        let! csym := decode_symbol cl_dec "_inflate_dynamic_block: failed to decode a code-length symbol" in
        let! combined := read_code_length csym combined in
        read_code_lengths fuel total cl_dec combined
      else ret (Ok combined)
  end.

Definition inflate_dynamic_block : I (result DeflateError unit) :=
  let! hlit_raw := read_bits_in 5 "_inflate_dynamic_block: unexpected end of stream reading HLIT" in
  let! hdist_raw := read_bits_in 5 "_inflate_dynamic_block: unexpected end of stream reading HDIST" in
  let! hclen_raw := read_bits_in 4 "_inflate_dynamic_block: unexpected end of stream reading HCLEN" in
  let hlit := (Z.to_nat hlit_raw + 257)%nat in
  let hdist := (Z.to_nat hdist_raw + 1)%nat in
  let hclen := (Z.to_nat hclen_raw + 4)%nat in
  let! cl_lengths := read_cl_lengths hclen 0 (replicate 19 0) in
  let! cl_dec := lift (build_decoder cl_lengths "_inflate_dynamic_block: invalid code-length alphabet table") in
  let total := (hlit + hdist)%nat in
  let! combined := read_code_lengths total total cl_dec [] in
  if negb (length combined =? total)%nat then
    ret (Err (mkDeflateError "_inflate_dynamic_block: combined length table overran HLIT+HDIST"))
  else
    let litlen_lengths := take hlit combined in
    let dist_lengths := drop hlit combined in
    inflate_huffman_block litlen_lengths dist_lengths.

(** One block after its header bits. *)
Definition inflate_block (btype : Z) : I (result DeflateError unit) :=
  if btype =? BTYPE_STORED then inflate_stored
  else if btype =? BTYPE_FIXED then inflate_huffman_block FIXED_LITLEN_LENGTHS FIXED_DIST_LENGTHS
  else if btype =? BTYPE_DYNAMIC then inflate_dynamic_block
  else ret (Err (mkDeflateError "_inflate_into: invalid BTYPE 3 (reserved)")).

Fixpoint inflate_blocks (fuel : nat) : I (result DeflateError unit) :=
  match fuel with
  | O => raise Fault
  | S fuel =>
      let! bfinal := read_bits_in 1 "_inflate_into: unexpected end of stream reading BFINAL" in
      let! btype := read_bits_in 2 "_inflate_into: unexpected end of stream reading BTYPE" in
      let! _ := inflate_block btype in
      if bfinal =? 1 then ret (Ok tt) else inflate_blocks fuel
  end.

Definition inflate_into : I (result DeflateError unit) :=
  let* s := get in inflate_blocks (S (bits_left s)).

Definition run_inflate (data : list Z) : D (list Z) :=
  fst ((let! _ := inflate_into in
        let* s := get in
        ret (Ok (out s))) (mkInflate (new_reader data) [])).

Definition decompress_exact (data : list Z) (uncompressed_size : nat) : D (list Z) :=
  let?! o := run_inflate data in
  if negb (length o =? uncompressed_size)%nat then
    Ok (Err (mkDeflateError "decompress_exact: decoded size does not match uncompressed_size"))
  else Ok (Ok o).

Definition decompress_unbounded (data : list Z) : D (list Z) := run_inflate data.
