(* ===== verification/InflateSafe.v ===== *)
(** * Decompression is safe on every input

    Whatever the bytes, [decompress_unbounded] and [decompress_exact] return a
    result: bytes, or an error value.  No [unwrap] fails, no checked arithmetic
    leaves its range, no read is out of bounds, and the loops end.  [safe] is
    the judgement the proof composes; [d] counts the bits a success uses. *)

From S2P Require Import Prelude RawList Bits Bitstream Huffman HuffmanTree Lz77 Deflate Inflate.

Local Open Scope Z_scope.
Local Open Scope monad_scope.

Definition inflate_ok (s : Inflate) : Prop := reader_idle (reader s) /\ Forall is_byte (out s).

Definition bits (s : Inflate) : nat := length (unread (reader s)).

Definition safe_at {A} (d : nat) (Q : A -> Prop) (m : I (result DeflateError A)) (s : Inflate) : Prop :=
  exists r s', m s = (Ok r, s') /\ inflate_ok s' /\ (bits s' <= bits s)%nat /\
    match r with Ok a => Q a /\ (bits s' + d <= bits s)%nat | Err _ => True end.

Definition safe {A} (d : nat) (Q : A -> Prop) (m : I (result DeflateError A)) : Prop :=
  forall s, inflate_ok s -> safe_at d Q m s.

(** ** Rules *)

Lemma safe_ret {A} (Q : A -> Prop) a : Q a -> safe 0 Q (ret (Ok a)).
Proof. intros Ha s Hs. exists (Ok a), s. split_and!; [done|done|lia|done|lia]. Qed.

Lemma safe_err {A} d (Q : A -> Prop) e : safe d Q (ret (Err e)).
Proof. intros s Hs. exists (Err e), s. split_and!; [done|done|lia|done]. Qed.

Lemma safe_at_bind {A B} d1 d2 (Q : A -> Prop) (Q' : B -> Prop) m k s :
  safe_at d1 Q m s ->
  (forall a s', Q a -> inflate_ok s' -> (bits s' + d1 <= bits s)%nat -> safe_at d2 Q' (k a) s') ->
  safe_at (d1 + d2) Q' (or_return m k) s.
Proof.
  intros ([a|e] & s1 & E & Hs1 & Hle & Hr) Hk.
  - destruct Hr as [Ha Hd]. destruct (Hk a s1 Ha Hs1 Hd) as (r & s' & E' & Hs' & Hle' & Hr').
    exists r, s'. rewrite (or_return_ok _ _ _ _ _ E). split_and!; [done|done|lia|].
    destruct r; [|done]. destruct Hr'. split; [done|lia].
  - exists (Err e), s1. by rewrite (or_return_err _ _ _ _ _ E).
Qed.

Lemma safe_bind {A B} d1 d2 (Q : A -> Prop) (Q' : B -> Prop) m k :
  safe d1 Q m -> (forall a, Q a -> safe d2 Q' (k a)) -> safe (d1 + d2) Q' (or_return m k).
Proof. intros Hm Hk s Hs. eapply safe_at_bind; [by apply Hm|]. intros a s' Ha Hs' _. by apply Hk. Qed.

Lemma safe_relax {A} d d' (Q : A -> Prop) m : safe d Q m -> (d' <= d)%nat -> safe d' Q m.
Proof.
  intros Hm Hd s Hs. destruct (Hm s Hs) as (r & s' & E & Hs' & Hle & Hr). exists r, s'.
  split_and!; [done|done|done|]. destruct r; [|done]. destruct Hr. split; [done|lia].
Qed.

Lemma safe_lift {A B} d (Q : B -> Prop) (r : result abort A) k a : r = Ok a -> safe d Q (k a) -> safe d Q (bind (lift r) k).
Proof. intros -> Hk. exact Hk. Qed.

(** The same, when the callee's error value is passed on. *)
Lemma safe_lift_return {A B} d (Q : B -> Prop) (P : A -> Prop) (r : D A) k :
  (exists v, r = Ok v /\ match v with Ok a => P a | Err _ => True end) ->
  (forall a, P a -> safe d Q (k a)) -> safe d Q (or_return (lift r) k).
Proof.
  intros ([a|e] & -> & Ha) Hk; [exact (Hk a Ha)|]. intros s Hs. exists (Err e), s. split_and!; [done|done|lia|done].
Qed.

(** ** The reader *)

Lemma safe_read_bits n context : 0 <= n <= 16 -> safe (Z.to_nat n) (fun v => 0 <= v < 2 ^ n) (read_bits_in n context).
Proof.
  intros Hn s [Hr Ho]. destruct (read_bits_spec (reader s) n Hr Hn) as (r' & Hr' & Hres).
  unfold safe_at, read_bits_in, on_reader, bits. unfold bind at 1.
  destruct Hres as [(E & Hlen & Hu & _)|((e & E) & Hlen & Hu)]; rewrite E.
  - eexists (Ok _), (mkInflate r' (out s)). cbn [with_context reader]. rewrite Hu, length_drop.
    split_and!; [done|split; done|lia| | |lia].
    + apply value_of_bound.
    + pose proof (value_of_bound (take (Z.to_nat n) (unread (reader s)))) as [_ Hb].
      rewrite length_take_le, Z2Nat.id in Hb by lia. done.
  - eexists (Err _), (mkInflate r' (out s)). cbn [with_context reader]. rewrite Hu. split_and!; [done|split; done|lia|done].
Qed.

Lemma safe_decode lens dec context : decodes lens dec ->
  safe 1 (fun y => 0 <= y < Z.of_nat (length lens)) (decode_symbol dec context).
Proof.
  intros Hdec s [Hr Ho]. destruct (decode_total lens dec (reader s) Hdec Hr) as (res & r' & E & Hr' & Hle & Hres).
  unfold safe_at, decode_symbol, on_reader, bits. unfold bind at 1. rewrite E.
  eexists (with_context context res), (mkInflate r' (out s)). cbn [reader]. split_and!; [done|split; done|done|].
  destruct res as [y|e]; [|done]. cbn [with_context]. destruct Hres. split; [done|lia].
Qed.

Lemma safe_build_decoder lens context : Forall is_byte lens -> Z.of_nat (length lens) < 2 ^ 16 ->
  exists v, build_decoder lens context = Ok v /\ match v with Ok dec => decodes lens dec | Err _ => True end.
Proof.
  intros Hby Hlen. destruct (new_decoder_total lens Hby Hlen) as (res & E & Hres). unfold build_decoder. rewrite E.
  eexists. split; [done|]. by destruct res.
Qed.

(** ** Output *)

Lemma safe_append {A} d (Q : A -> Prop) b k : is_byte b -> safe d Q k -> safe d Q (append_out b ;;; k).
Proof. intros Hb Hk s [Hr Ho]. apply (Hk (set_out (out s ++ [b]) s)). split; [done|]. apply Forall_app. split; [done|by constructor]. Qed.

Lemma copy_bytes_total n : forall start i o, (start + i < length o)%nat -> Forall is_byte o ->
  exists o', copy_bytes n start i o = Ok o' /\ Forall is_byte o'.
Proof.
  induction n as [|n IH]; intros start i o Hlt Ho; cbn [copy_bytes]; [by exists o|].
  destruct (lookup_lt_is_Some_2 o (start + i) Hlt) as [b Hb]. rewrite (getitem_ok _ _ _ _ Hb). cbn [result_bind].
  apply IH; [rewrite length_app; simpl; lia|]. apply Forall_app. split; [done|]. constructor; [by eapply Forall_lookup_1 in Hb|done].
Qed.

Lemma safe_copy distance len context : 0 <= distance -> safe 0 (fun _ => True) (do_copy_match distance len context).
Proof.
  intros Hd s [Hr Ho]. unfold safe_at, do_copy_match. rewrite bind_get. unfold copy_match.
  destruct (_ || _) eqn:Hrange; [by eexists (Err _), s; split_and!|].
  apply orb_false_iff in Hrange as [Hne%Z.eqb_neq Hle%Z.ltb_ge]. rewrite panic_sub_ok by lia. cbn [result_bind].
  destruct (copy_bytes_total (Z.to_nat len) (length (out s) - Z.to_nat distance) 0 (out s)) as (o' & E & Ho'); [lia|done|].
  rewrite E. cbn [result_bind]. rewrite lift_ok. eexists (Ok tt), (set_out o' s).
  split_and!; try done; unfold bits; simpl; lia.
Qed.

(** ** The tables *)

Definition between (lo hi : Z) (l : list Z) : bool := forallb (fun x => (lo <=? x) && (x <=? hi)) l.

Lemma between_lookup lo hi l i x : between lo hi l = true -> l !! i = Some x -> lo <= x <= hi.
Proof.
  intros Hb Hx. unfold between in Hb. rewrite forallb_forall in Hb. specialize (Hb x).
  rewrite <- list_elem_of_In, andb_true_iff, !Z.leb_le in Hb. apply Hb. by eapply list_elem_of_lookup_2.
Qed.

(** A row of a symbol table: its base and its number of extra bits. *)
Lemma table_row bases extras lo hi i : between lo hi bases = true -> between 0 13 extras = true ->
  length bases = length extras -> (i < length bases)%nat ->
  exists b e, bases !! i = Some b /\ extras !! i = Some e /\ lo <= b <= hi /\ 0 <= e <= 13.
Proof.
  intros Hb He Hl Hi. destruct (lookup_lt_is_Some_2 bases i Hi) as [b Hbi].
  destruct (lookup_lt_is_Some_2 extras i ltac:(lia)) as [e Hei]. exists b, e.
  pose proof (between_lookup _ _ _ _ _ Hb Hbi). pose proof (between_lookup _ _ _ _ _ He Hei). split_and!; done || lia.
Qed.

Lemma length_row i : (i < length LENGTH_BASE)%nat ->
  exists b e, LENGTH_BASE !! i = Some b /\ LENGTH_EXTRA !! i = Some e /\ 3 <= b <= 258 /\ 0 <= e <= 13.
Proof. by apply table_row. Qed.

Lemma dist_row i : (i < length DIST_BASE)%nat ->
  exists b e, DIST_BASE !! i = Some b /\ DIST_EXTRA !! i = Some e /\ 1 <= b <= 24577 /\ 0 <= e <= 13.
Proof. by apply table_row. Qed.

Lemma safe_read_extra b n context : 0 <= b -> 0 <= n <= 13 -> safe 0 (fun v => 0 <= v) (read_extra b n context).
Proof.
  intros Hb Hn. unfold read_extra. destruct (0 <? n); [|by apply safe_ret].
  apply (safe_relax (Z.to_nat n + 0)); [|lia]. eapply safe_bind; [apply safe_read_bits; lia|].
  intros v Hv. apply safe_ret. apply Z.mod_pos_bound. done.
Qed.

(** ** Blocks *)

Lemma safe_inflate_bytes n : safe 0 (fun _ => True) (inflate_bytes n).
Proof.
  induction n as [|n IH]; cbn [inflate_bytes]; [by apply safe_ret|].
  apply (safe_relax (Z.to_nat 8 + 0)); [|lia]. eapply safe_bind; [by apply safe_read_bits|]. intros b Hb.
  cbv beta in Hb. eapply safe_lift; [apply in_panic_ok; lia|]. by apply safe_append.
Qed.

Lemma safe_align {A} d (Q : A -> Prop) k : safe d Q k -> safe d Q (on_reader align_reader ;;; k).
Proof.
  intros Hk s [Hr Ho]. set (s1 := mkInflate (set_r_bits 0 0 (reader s)) (out s)).
  assert (Hs1 : inflate_ok s1 /\ (bits s1 <= bits s)%nat).
  { destruct Hr as [[Hp Hby Hbuf Hc] H16]. split; [split; [split; [constructor; simpl; done || lia|simpl; lia]|done]|].
    unfold bits, unread, s1. simpl. rewrite length_app. lia. }
  destruct Hs1 as [Hok Hle]. destruct (Hk s1 Hok) as (r & s' & E & Hs' & Hle' & Hr'). exists r, s'.
  split_and!; [done|done|lia|]. destruct r; [|done]. destruct Hr'. split; [done|lia].
Qed.

Lemma safe_inflate_stored : safe 0 (fun _ => True) inflate_stored.
Proof.
  unfold inflate_stored. apply safe_align.
  apply (safe_relax (Z.to_nat 16 + (Z.to_nat 16 + 0))); [|lia].
  eapply safe_bind; [by apply safe_read_bits|]. intros a Ha. eapply safe_bind; [by apply safe_read_bits|]. intros b Hb.
  cbv zeta. destruct (negb _); [apply safe_err|apply safe_inflate_bytes].
Qed.

Lemma safe_inflate_match dl dist_dec sym : decodes dl dist_dec -> 256 < sym ->
  safe 0 (fun _ => True) (inflate_match dist_dec sym).
Proof.
  intros Hdec Hsym. unfold inflate_match. eapply safe_lift; [apply panic_sub_ok; lia|].
  destruct (Nat.leb_spec (length LENGTH_BASE) (Z.to_nat sym - 257)) as [|Hl]; [apply safe_err|].
  destruct (length_row _ Hl) as (b & e & Hb & He & Hbr & Her).
  eapply safe_lift; [by apply getitem_ok|]. eapply safe_lift; [by apply getitem_ok|].
  change 0%nat with (0 + 0)%nat. eapply safe_bind; [apply safe_read_extra; lia|]. intros len Hlen.
  apply (safe_relax (1 + 0)); [|lia]. eapply safe_bind; [by apply (safe_decode dl)|]. intros dsym Hd. cbv zeta.
  destruct (Nat.leb_spec (length DIST_BASE) (Z.to_nat dsym)) as [|Hl']; [apply safe_err|].
  destruct (dist_row _ Hl') as (b' & e' & Hb' & He' & Hbr' & Her').
  eapply safe_lift; [by apply getitem_ok|]. eapply safe_lift; [by apply getitem_ok|].
  change 0%nat with (0 + 0)%nat. eapply safe_bind; [apply safe_read_extra; lia|]. intros distance Hdist. by apply safe_copy.
Qed.

(** Every symbol uses a bit, so the unread bits bound the loop. *)
Lemma safe_inflate_symbols ll dl litlen_dec dist_dec : decodes ll litlen_dec -> decodes dl dist_dec ->
  forall fuel s, inflate_ok s -> (bits s < fuel)%nat -> safe_at 0 (fun _ => True) (inflate_symbols fuel litlen_dec dist_dec) s.
Proof.
  intros Hll Hdl. induction fuel as [|fuel IH]; intros s Hs Hf; [lia|]. cbn [inflate_symbols].
  assert (Hgo : safe_at (1 + 0) (fun _ => True) (inflate_symbols (S fuel) litlen_dec dist_dec) s).
  { cbn [inflate_symbols]. eapply safe_at_bind; [by apply (safe_decode ll)|]. intros sym s1 Hsym Hs1 Hb1. cbv beta in Hsym.
    destruct (Z.ltb_spec sym 256) as [Hlit|Hlit].
    - rewrite in_panic_ok by lia. unfold safe_at. rewrite lift_ok.
      apply (IH (set_out (out s1 ++ [sym]) s1)); [|change (bits (set_out (out s1 ++ [sym]) s1)) with (bits s1); lia].
      split; [apply Hs1|]. apply Forall_app. split; [apply Hs1|]. constructor; [unfold is_byte; lia|done].
    - destruct (Z.eqb_spec sym 256); [by apply safe_ret|]. change 0%nat with (0 + 0)%nat.
      eapply safe_at_bind; [apply (safe_inflate_match dl); [done|lia|done]|]. intros [] s2 _ Hs2 Hb2. apply IH; [done|lia]. }
  destruct Hgo as (r & s' & E & Hs' & Hle & Hr). exists r, s'. split_and!; [done|done|done|]. destruct r; [|done]. split; [done|lia].
Qed.

Lemma bits_left_spec s : inflate_ok s -> bits_left s = bits s.
Proof. intros [[Hr _] _]. unfold bits_left, bits. rewrite bits_remaining_spec by done. lia. Qed.

Lemma safe_inflate_huffman_block ll dl : Forall is_byte ll -> Forall is_byte dl ->
  Z.of_nat (length ll) < 2 ^ 16 -> Z.of_nat (length dl) < 2 ^ 16 -> safe 0 (fun _ => True) (inflate_huffman_block ll dl).
Proof.
  intros Hll Hdl Hl1 Hl2. unfold inflate_huffman_block.
  eapply safe_lift_return; [by apply safe_build_decoder|]. intros litlen_dec H1.
  eapply safe_lift_return; [by apply safe_build_decoder|]. intros dist_dec H2 s Hs. unfold safe_at. rewrite bind_get.
  apply (safe_inflate_symbols ll dl); [done|done|done|]. rewrite bits_left_spec by done. lia.
Qed.

(** ** The header of a dynamic block *)

Lemma safe_read_cl_lengths hclen : forall ci cl, (hclen + ci <= 19)%nat -> length cl = 19%nat -> Forall is_byte cl ->
  safe 0 (fun cl' => length cl' = 19%nat /\ Forall is_byte cl') (read_cl_lengths hclen ci cl).
Proof.
  induction hclen as [|hclen IH]; intros ci cl Hci Hlen Hby; cbn [read_cl_lengths]; [by apply safe_ret|].
  apply (safe_relax (Z.to_nat 3 + 0)); [|lia]. eapply safe_bind; [by apply safe_read_bits|]. intros v Hv. cbv beta in Hv.
  assert (Horder : exists idx, CL_ORDER !! ci = Some idx /\ 0 <= idx <= 18).
  { destruct (lookup_lt_is_Some_2 CL_ORDER ci) as [idx Hidx]; [change (length CL_ORDER) with 19%nat; lia|].
    exists idx. split; [done|]. by apply (between_lookup 0 18 CL_ORDER ci). }
  destruct Horder as (idx & Hidx & Hr).
  eapply safe_lift; [by apply getitem_ok|]. eapply safe_lift; [apply in_panic_ok; lia|].
  eapply safe_lift; [apply setitem_ok; lia|]. apply IH; [lia|by rewrite length_insert|].
  apply Forall_insert; [done|unfold is_byte; lia].
Qed.

(** Every symbol that is decoded adds an entry at least. *)
Lemma safe_read_code_length csym combined : 0 <= csym -> Forall is_byte combined ->
  safe 0 (fun c => Forall is_byte c /\ (length combined < length c)%nat) (read_code_length csym combined).
Proof.
  intros Hc Hby. unfold read_code_length.
  assert (Hrep : forall k v, is_byte v -> Forall is_byte (combined ++ replicate k v)).
  { intros k v Hv. apply Forall_app. split; [done|]. by apply Forall_replicate. }
  assert (Hrun : forall n k v context, 0 <= n <= 7 -> 3 <= k <= 11 -> is_byte v ->
    safe 0 (fun c => Forall is_byte c /\ (length combined < length c)%nat)
      (let! e := read_bits_in n context in ret (Ok (combined ++ replicate (Z.to_nat (u32 (e + k))) v)))).
  { intros n k v context Hn Hk Hv. apply (safe_relax (Z.to_nat n + 0)); [|lia].
    eapply safe_bind; [apply safe_read_bits; lia|]. intros e He. cbv beta in He. apply safe_ret. split; [by apply Hrep|].
    assert (2 ^ n <= 2 ^ 7) by (apply Z.pow_le_mono_r; lia).
    rewrite length_app, length_replicate, u32_small by lia. lia. }
  assert (H0 : is_byte 0) by done.
  destruct (Z.ltb_spec csym 16).
  { eapply safe_lift; [apply in_panic_ok; lia|]. apply safe_ret. split; [|rewrite length_app; simpl; lia].
    apply Forall_app. split; [done|]. constructor; [unfold is_byte; lia|done]. }
  destruct (csym =? 16).
  { destruct (Nat.eqb_spec (length combined) 0) as [|Hne]; [apply safe_err|].
    destruct (lookup_lt_is_Some_2 combined (length combined - 1)) as [v Hv]; [lia|].
    eapply safe_lift; [apply panic_sub_ok; lia|]. eapply safe_lift; [by apply getitem_ok|].
    apply Hrun; [lia|lia|]. by eapply Forall_lookup_1 in Hv. }
  destruct (csym =? 17); [by apply Hrun|]. destruct (csym =? 18); [by apply Hrun|]. apply safe_err.
Qed.

Lemma safe_read_code_lengths cl cl_dec total : decodes cl cl_dec -> forall fuel combined,
  (total - length combined <= fuel)%nat -> Forall is_byte combined ->
  safe 0 (Forall is_byte) (read_code_lengths fuel total cl_dec combined).
Proof.
  intros Hdec. induction fuel as [|fuel IH]; intros combined Hf Hby; cbn [read_code_lengths].
  - rewrite (proj2 (Nat.ltb_ge _ _)) by lia. by apply safe_ret.
  - destruct (Nat.ltb_spec (length combined) total); [|by apply safe_ret].
    apply (safe_relax (1 + (0 + 0))); [|lia]. eapply safe_bind; [by apply (safe_decode cl)|]. intros csym Hc.
    eapply safe_bind; [apply safe_read_code_length; [apply Hc|done]|]. intros c [Hcb Hlt]. apply IH; [lia|done].
Qed.

Lemma safe_inflate_dynamic_block : safe 0 (fun _ => True) inflate_dynamic_block.
Proof.
  unfold inflate_dynamic_block. apply (safe_relax (Z.to_nat 5 + (Z.to_nat 5 + (Z.to_nat 4 + (0 + (0 + 0)))))); [|lia].
  eapply safe_bind; [by apply safe_read_bits|]. intros hlit Hlit. cbv beta in Hlit.
  eapply safe_bind; [by apply safe_read_bits|]. intros hdist Hdist. cbv beta in Hdist.
  eapply safe_bind; [by apply safe_read_bits|]. intros hclen Hclen. cbv beta in Hclen. cbv zeta.
  eapply safe_bind; [apply safe_read_cl_lengths; [lia|done|by apply Forall_replicate]|]. intros cl [Hl Hby].
  eapply safe_lift_return; [apply safe_build_decoder; [done|rewrite Hl; lia]|]. intros cl_dec Hdec.
  eapply safe_bind; [apply (safe_read_code_lengths cl); [done|simpl; lia|done]|]. intros combined Hc.
  destruct (Nat.eqb_spec (length combined) (Z.to_nat hlit + 257 + (Z.to_nat hdist + 1))) as [E|]; cbn [negb]; [|apply safe_err].
  apply safe_inflate_huffman_block; [by apply Forall_take|by apply Forall_drop|rewrite length_take; lia|rewrite length_drop; lia].
Qed.

Lemma safe_inflate_block btype : safe 0 (fun _ => True) (inflate_block btype).
Proof.
  unfold inflate_block. destruct (_ =? _); [apply safe_inflate_stored|]. destruct (_ =? _).
  - apply safe_inflate_huffman_block; [|apply Forall_replicate; done|by vm_compute|by vm_compute].
    eapply Forall_impl; [apply (proj2 (Forall_forall (fun x => 7 <= x <= 9) FIXED_LITLEN_LENGTHS))|unfold is_byte; simpl; lia].
    intros x Hx. apply list_elem_of_lookup in Hx as [i Hi]. by apply (between_lookup 7 9 FIXED_LITLEN_LENGTHS i).
  - destruct (_ =? _); [apply safe_inflate_dynamic_block|apply safe_err].
Qed.

Lemma safe_inflate_blocks fuel : forall s, inflate_ok s -> (bits s < fuel)%nat ->
  safe_at 0 (fun _ => True) (inflate_blocks fuel) s.
Proof.
  induction fuel as [|fuel IH]; intros s Hs Hf; [lia|].
  assert (Hgo : safe_at (Z.to_nat 1 + (Z.to_nat 2 + (0 + 0))) (fun _ => True) (inflate_blocks (S fuel)) s).
  { cbn [inflate_blocks]. eapply safe_at_bind; [by apply safe_read_bits|]. intros bfinal s1 _ Hs1 Hb1.
    eapply safe_at_bind; [by apply safe_read_bits|]. intros btype s2 _ Hs2 Hb2.
    eapply safe_at_bind; [by apply safe_inflate_block|]. intros [] s3 _ Hs3 Hb3.
    destruct (bfinal =? 1); [by apply safe_ret|]. apply IH; [done|lia]. }
  destruct Hgo as (r & s' & E & Hs' & Hle & Hr). exists r, s'. split_and!; [done|done|done|].
  destruct r; [|done]. split; [done|lia].
Qed.

Lemma run_inflate_total data : Forall is_byte data ->
  exists r, run_inflate data = Ok r /\ match r with Ok o => Forall is_byte o | Err _ => True end.
Proof.
  intros Hby. set (s := mkInflate (new_reader data) []).
  assert (Hs : inflate_ok s) by (split; [by apply new_reader_idle|constructor]).
  destruct (safe_inflate_blocks (S (bits_left s)) s Hs) as (r & s' & E & Hs' & _ & _); [rewrite bits_left_spec by done; lia|].
  unfold run_inflate. fold s. destruct r as [[]|e].
  - exists (Ok (out s')). rewrite (or_return_ok inflate_into _ s tt s') by exact E. split; [done|]. apply Hs'.
  - exists (Err e). rewrite (or_return_err inflate_into _ s e s') by exact E. done.
Qed.

(** C7: On every byte string, well formed or not, [decompress_unbounded] and
    [decompress_exact] end with a result: bytes, or a [DeflateError]. No
    [unwrap] panics, no checked arithmetic leaves its range, nothing is read or
    copied out of bounds, and every loop terminates. *)
Theorem decompress_total data size : Forall is_byte data ->
  (exists r, decompress_unbounded data = Ok r /\ match r with Ok o => Forall is_byte o | Err _ => True end) /\
  (exists r, decompress_exact data size = Ok r /\
     match r with Ok o => Forall is_byte o /\ length o = size /\ decompress_unbounded data = Ok (Ok o) | Err _ => True end).
Proof.
  intros Hby. destruct (run_inflate_total data Hby) as (r & E & Hr). split; [by exists r|].
  unfold decompress_exact, decompress_unbounded. rewrite E. destruct r as [o|e]; cbn [or_return_pure]; [|by eexists].
  destruct (Nat.eqb_spec (length o) size); by eexists.
Qed.

Lemma decompress_total_witness :
  (exists r, decompress_unbounded [255; 7; 0] = Ok r /\ match r with Ok o => Forall is_byte o | Err _ => True end) /\
  (exists r, decompress_exact [255; 7; 0] 4 = Ok r /\
     match r with Ok o => Forall is_byte o /\ length o = 4%nat /\ decompress_unbounded [255; 7; 0] = Ok (Ok o) | Err _ => True end).
Proof. apply (decompress_total [255; 7; 0] 4). repeat constructor; lia. Defined.
