(* ===== verification/DeflateTokens.v ===== *)
(** * DEFLATE round trip: symbols and tokens

    [emits m a bits]: the writer code [m] succeeds with [a] and writes [bits].
    [reads m a bits o o']: the reader code [m], before [bits], succeeds with [a],
    uses exactly those bits and takes the output from [o] to [o'].  A token
    stream is emitted and read with the same bits. *)

From S2P Require Import Prelude RawList Bits Bitstream Huffman HuffmanTree Lz77 Deflate Inflate InflateSafe.

Local Open Scope Z_scope.
Local Open Scope monad_scope.

Definition emits {A} (m : W A) (a : A) (bits : list bool) : Prop :=
  forall w, writer_idle w -> exists w', m w = (Ok a, w') /\ writer_idle w' /\ written w' = written w ++ bits.

Definition reads {A} (m : I (result DeflateError A)) (a : A) (bits : list bool) (o o' : list Z) : Prop :=
  forall s rest, reader_idle (reader s) -> unread (reader s) = bits ++ rest -> out s = o ->
  exists s', m s = (Ok (Ok a), s') /\ reader_idle (reader s') /\ unread (reader s') = rest /\ out s' = o'.

(** ** Rules *)

Lemma emits_ret {A} (a : A) : emits (ret a) a [].
Proof. intros w Hw. exists w. by rewrite app_nil_r. Qed.

Lemma emits_bind {A B} (m : W A) (k : A -> W B) a b bits1 bits2 :
  emits m a bits1 -> emits (k a) b bits2 -> emits (bind m k) b (bits1 ++ bits2).
Proof.
  intros Hm Hk w Hw. destruct (Hm w Hw) as (w1 & E1 & Hw1 & Hb1). destruct (Hk w1 Hw1) as (w' & E & Hw' & Hb).
  exists w'. rewrite (bind_ok _ _ _ _ _ E1), Hb, Hb1, <- app_assoc. done.
Qed.

Lemma emits_return {A B} (m : W (result DeflateError A)) (k : A -> W (result DeflateError B)) a b bits1 bits2 :
  emits m (Ok a) bits1 -> emits (k a) b bits2 -> emits (or_return m k) b (bits1 ++ bits2).
Proof. intros Hm Hk. by eapply emits_bind. Qed.

Lemma emits_lift {A B} (r : result abort A) (k : A -> W B) a b bits : r = Ok a -> emits (k a) b bits -> emits (bind (lift r) k) b bits.
Proof. intros -> Hk. exact Hk. Qed.

Lemma emits_bits v n : 0 <= n <= 16 -> emits (write_bits v n) tt (bits_of (Z.to_nat n) v).
Proof. intros Hn w Hw. by apply write_bits_spec. Qed.

Lemma emits_extra v n : 0 <= n <= 16 -> emits (write_extra v n) tt (bits_of (Z.to_nat n) v).
Proof.
  intros Hn. unfold write_extra. destruct (Z.ltb_spec 0 n); [by apply emits_bits|].
  replace n with 0 by lia. apply emits_ret.
Qed.

Lemma emits_symbol lens s x context : valid_lengths lens -> lens !! s = Some x -> 0 < x ->
  emits (write_symbol_in (mkEncoder (codes_of lens) lens) (Z.of_nat s) context) (Ok tt) (codeword lens s x).
Proof.
  intros Hv Hs Hx w Hw. destruct (write_symbol_spec lens s x w Hv Hs Hx Hw) as (w' & E & Hw' & Hb). exists w'.
  unfold write_symbol_in. by rewrite (bind_ok _ _ _ _ _ E).
Qed.

Lemma reads_ret {A} (a : A) o : reads (ret (Ok a)) a [] o o.
Proof. intros s rest Hr Hu Ho. by exists s. Qed.

Lemma reads_return {A B} (m : I (result DeflateError A)) (k : A -> I (result DeflateError B)) a b bits1 bits2 o1 o2 o3 :
  reads m a bits1 o1 o2 -> reads (k a) b bits2 o2 o3 -> reads (or_return m k) b (bits1 ++ bits2) o1 o3.
Proof.
  intros Hm Hk s rest Hr Hu Ho. rewrite <- app_assoc in Hu. destruct (Hm s _ Hr Hu Ho) as (s1 & E1 & Hr1 & Hu1 & Ho1).
  destruct (Hk s1 rest Hr1 Hu1 Ho1) as (s' & E & Hs'). exists s'. by rewrite (or_return_ok _ _ _ _ _ E1).
Qed.

Lemma reads_lift {A B} (r : result abort A) (k : A -> I (result DeflateError B)) a b bits o o' :
  r = Ok a -> reads (k a) b bits o o' -> reads (bind (lift r) k) b bits o o'.
Proof. intros -> Hk. exact Hk. Qed.

Lemma reads_lift_return {A B} (r : D A) (k : A -> I (result DeflateError B)) a b bits o o' :
  r = Ok (Ok a) -> reads (k a) b bits o o' -> reads (or_return (lift r) k) b bits o o'.
Proof. intros -> Hk. exact Hk. Qed.

Lemma reads_bits v n context o : 0 <= n <= 16 -> reads (read_bits_in n context) (v mod 2 ^ n) (bits_of (Z.to_nat n) v) o o.
Proof.
  intros Hn s rest Hr Hu Ho. destruct (read_field _ n v rest Hr Hn Hu) as (r' & E & Hr' & Hu').
  exists (mkInflate r' (out s)). unfold read_bits_in, on_reader. unfold bind at 1. rewrite E. done.
Qed.

Lemma reads_extra b v n context o : 0 <= n <= 13 -> 0 <= v < 2 ^ n -> 0 <= b < 2 ^ 16 ->
  reads (read_extra b n context) (b + v) (bits_of (Z.to_nat n) v) o o.
Proof.
  intros Hn Hv Hb. unfold read_extra. assert (2 ^ n <= 2 ^ 13) by (apply Z.pow_le_mono_r; lia).
  destruct (Z.ltb_spec 0 n).
  - rewrite <- (app_nil_r (bits_of _ v)). eapply reads_return; [apply reads_bits; lia|].
    rewrite Z.mod_small, u32_small by lia. apply reads_ret.
  - replace n with 0 in * by lia. replace v with 0 by lia. rewrite Z.add_0_r. apply reads_ret.
Qed.

Lemma reads_symbol lens dec s x context o : decodes lens dec -> lens !! s = Some x -> 0 < x ->
  reads (decode_symbol dec context) (Z.of_nat s) (codeword lens s x) o o.
Proof.
  intros Hdec Hs Hx st rest Hr Hu Ho.
  destruct (decode_codeword lens dec s x _ rest Hdec Hs Hx Hr Hu) as (r' & E & Hr' & Hu').
  exists (mkInflate r' (out st)). unfold decode_symbol, on_reader. unfold bind at 1. rewrite E. done.
Qed.

Lemma reads_append {A} b (k : I (result DeflateError A)) a bits o o' :
  reads k a bits (o ++ [b]) o' -> reads (append_out b ;;; k) a bits o o'.
Proof. intros Hk s rest Hr Hu <-. by apply (Hk (set_out (out s ++ [b]) s)). Qed.

Lemma reads_copy distance len context o o' : copy_match o distance len = Ok (Ok o') ->
  reads (do_copy_match distance len context) tt [] o o'.
Proof.
  intros E s rest Hr Hu <-. exists (set_out o' s). unfold do_copy_match. rewrite bind_get, E, lift_ok. done.
Qed.

Lemma length_codeword lens s x : length (codeword lens s x) = Z.to_nat x.
Proof. unfold codeword. by rewrite length_rev, length_bits_of. Qed.

(** ** Length and distance symbols *)

(** [sym], with [ev] in [eb] extra bits, denotes [v] in a table that starts at
    symbol [first]. *)
Definition denotes (bases extras : list Z) (first : nat) (v sym ev eb : Z) : Prop :=
  exists b, bases !! (Z.to_nat sym - first)%nat = Some b /\ extras !! (Z.to_nat sym - first)%nat = Some eb /\
    Z.of_nat first <= sym < Z.of_nat (first + length bases) /\ 0 <= ev < 2 ^ eb /\ 0 <= eb <= 13 /\ 0 <= b < 2 ^ 16 /\ b + ev = v.

Definition denotes_check (bases extras : list Z) (first : nat) (r : result abort (Z * Z * Z)) (v : Z) : bool :=
  match r with
  | Ok (sym, ev, eb) =>
      match bases !! (Z.to_nat sym - first)%nat, extras !! (Z.to_nat sym - first)%nat with
      | Some b, Some eb' =>
          (eb' =? eb) && (Z.of_nat first <=? sym) && (sym <? Z.of_nat (first + length bases)) && (0 <=? ev) && (ev <? 2 ^ eb) &&
          (0 <=? eb) && (eb <=? 13) && (0 <=? b) && (b <? 2 ^ 16) && (b + ev =? v)
      | _, _ => false
      end
  | Err _ => false
  end.

Lemma denotes_check_true bases extras first r v : denotes_check bases extras first r v = true ->
  exists sym ev eb, r = Ok (sym, ev, eb) /\ denotes bases extras first v sym ev eb.
Proof.
  unfold denotes_check. destruct r as [[[sym ev] eb]|]; [|done]. intros Hc. exists sym, ev, eb. split; [done|].
  destruct (bases !! _) as [b|] eqn:Hb; [|done]. destruct (extras !! _) as [eb'|] eqn:He; [|done].
  rewrite !andb_true_iff, !Z.leb_le, !Z.ltb_lt, !Z.eqb_eq in Hc. exists b. destruct_and!. subst eb'. split_and!; done || lia.
Qed.

Fixpoint zrange (n : nat) (z : Z) : list Z := match n with O => [] | S n => z :: zrange n (z + 1) end.

Lemma zrange_elem n : forall z v, z <= v < z + Z.of_nat n -> v ∈ zrange n z.
Proof.
  induction n as [|n IH]; intros z v Hv; [lia|]. cbn [zrange]. destruct (decide (v = z)) as [->|]; [left|right; apply IH; lia].
Qed.

Lemma length_to_symbol_spec v : 3 <= v <= 258 ->
  exists sym ev eb, length_to_symbol v = Ok (sym, ev, eb) /\ denotes LENGTH_BASE LENGTH_EXTRA 257 v sym ev eb.
Proof.
  intros Hv. apply denotes_check_true.
  assert (forallb (fun v => denotes_check LENGTH_BASE LENGTH_EXTRA 257 (length_to_symbol v) v) (zrange 256 3) = true) as Hall
    by by vm_compute.
  rewrite forallb_forall in Hall. apply Hall, list_elem_of_In, zrange_elem. lia.
Qed.

Lemma distance_to_symbol_spec v : 1 <= v <= 32768 ->
  exists sym ev eb, distance_to_symbol v = Ok (sym, ev, eb) /\ denotes DIST_BASE DIST_EXTRA 0 v sym ev eb.
Proof.
  intros Hv. apply denotes_check_true.
  assert (forallb (fun v => denotes_check DIST_BASE DIST_EXTRA 0 (distance_to_symbol v) v) (zrange (Z.to_nat 32768) 1) = true) as Hall
    by by vm_compute.
  rewrite forallb_forall in Hall. apply Hall, list_elem_of_In, zrange_elem. lia.
Qed.

(** ** Tokens *)

(** The tables have codes for a token's symbols. *)
Definition token_coded (has : nat -> Prop) (has_dist : nat -> Prop) (t : LZ77Token) : Prop :=
  match t with
  | Literal b => has (Z.to_nat b)
  | Match m =>
      (forall sym ev eb, length_to_symbol (m_length m) = Ok (sym, ev, eb) -> has (Z.to_nat sym)) /\
      (forall sym ev eb, distance_to_symbol (m_distance m) = Ok (sym, ev, eb) -> has_dist (Z.to_nat sym))
  end.

(** One match: both directions. *)
Lemma match_bits ll dl dec m o o' : valid_lengths ll -> valid_lengths dl -> decodes dl dec -> token_ok (Match m) ->
  token_coded (has_code ll) (has_code dl) (Match m) -> copy_match o (m_distance m) (m_length m) = Ok (Ok o') ->
  exists lsym lval lbits dsym dval dbits s x bits,
    length_to_symbol (m_length m) = Ok (lsym, lval, lbits) /\ distance_to_symbol (m_distance m) = Ok (dsym, dval, dbits) /\
    lsym = Z.of_nat s /\ 257 <= lsym /\ ll !! s = Some x /\ 0 < x /\
    (forall (k : W (result DeflateError unit)) a bits', emits k a bits' ->
       emits (write_extra lval lbits ;;;
              let! _ := write_symbol_in (mkEncoder (codes_of dl) dl) dsym "_emit_tokens: distance symbol not in table" in
              write_extra dval dbits ;;; k) a (bits ++ bits')) /\
    reads (inflate_match dec lsym) tt bits o o'.
Proof.
  intros Hll Hdl Hdec [Hml Hmd] [Hcl Hcd] Hcopy.
  destruct (length_to_symbol_spec _ Hml) as (lsym & lval & lbits & El & b & Hb & He & Hsym & Hlv & Hlb & Hbr & Hsum).
  destruct (distance_to_symbol_spec _ Hmd) as (dsym & dval & dbits & Ed & b' & Hb' & He' & Hsym' & Hdv & Hdb & Hbr' & Hsum').
  destruct (Hcl _ _ _ El) as (x & Hx & Hx0). destruct (Hcd _ _ _ Ed) as (y & Hy & Hy0). rewrite Nat.sub_0_r in *.
  eexists lsym, lval, lbits, dsym, dval, dbits, (Z.to_nat lsym), x,
    (bits_of (Z.to_nat lbits) lval ++ codeword dl (Z.to_nat dsym) y ++ bits_of (Z.to_nat dbits) dval).
  split_and!; [done|done|lia|lia|done|done| |].
  - intros k a bits' Hk. rewrite <- !app_assoc. eapply emits_bind; [apply emits_extra; lia|].
    eapply emits_return; [|eapply emits_bind; [apply emits_extra; lia|exact Hk]].
    rewrite <- (Z2Nat.id dsym) at 1 by lia. by apply emits_symbol.
  - unfold inflate_match. eapply reads_lift; [apply panic_sub_ok; lia|].
    pose proof (lookup_lt_Some _ _ _ Hb). rewrite (proj2 (Nat.leb_gt _ _)) by lia.
    eapply reads_lift; [by apply getitem_ok|]. eapply reads_lift; [by apply getitem_ok|].
    eapply reads_return; [by apply reads_extra|]. eapply reads_return; [by apply (reads_symbol dl)|]. cbv zeta.
    rewrite Nat2Z.id. pose proof (lookup_lt_Some _ _ _ Hb'). rewrite (proj2 (Nat.leb_gt _ _)) by lia.
    eapply reads_lift; [by apply getitem_ok|]. eapply reads_lift; [by apply getitem_ok|].
    rewrite <- (app_nil_r (bits_of _ dval)). eapply reads_return; [by apply reads_extra|]. apply reads_copy. congruence.
Qed.

(** A token stream, end of block included. *)
Lemma emit_tokens_spec ll dl litlen_dec dist_dec tokens : valid_lengths ll -> valid_lengths dl ->
  decodes ll litlen_dec -> decodes dl dist_dec -> has_code ll 256 ->
  Forall token_ok tokens -> Forall (token_coded (has_code ll) (has_code dl)) tokens ->
  forall o o', replay_tokens tokens o = Ok (Ok o') -> exists bits,
    emits (emit_tokens (mkEncoder (codes_of ll) ll) (mkEncoder (codes_of dl) dl) tokens) (Ok tt) bits /\
    (length tokens < length bits)%nat /\
    (forall fuel, (length tokens < fuel)%nat -> reads (inflate_symbols fuel litlen_dec dist_dec) tt bits o o').
Proof.
  intros Hll Hdl Hldec Hddec (xe & Hxe & Hxe0) Hok. induction Hok as [|t tokens Ht Hok IH]; intros Hcoded o o' Hr.
  - injection Hr as <-. exists (codeword ll 256 xe). split_and!.
    + cbn [emit_tokens]. change 256 with (Z.of_nat 256). by apply emits_symbol.
    + rewrite length_codeword. simpl. lia.
    + intros [|fuel] Hf; [simpl in Hf; lia|]. cbn [inflate_symbols]. rewrite <- (app_nil_r (codeword _ _ _)).
      eapply reads_return; [by apply (reads_symbol ll)|]. apply reads_ret.
  - apply Forall_cons in Hcoded as [Hc Hcoded]. destruct t as [b|m]; cbn [replay_tokens] in Hr.
    + destruct (IH Hcoded _ _ Hr) as (bits & Hem & Hlen & Hrd). destruct Hc as (x & Hx & Hx0).
      simpl in Ht. unfold is_byte in Ht. exists (codeword ll (Z.to_nat b) x ++ bits). split_and!.
      * cbn [emit_tokens]. eapply emits_return; [|exact Hem]. rewrite <- (Z2Nat.id b) at 1 by lia. by apply emits_symbol.
      * rewrite length_app, length_codeword. simpl. lia.
      * intros [|fuel] Hf; [lia|]. cbn [inflate_symbols]. eapply reads_return; [by apply (reads_symbol ll)|].
        rewrite Z2Nat.id by lia. rewrite (proj2 (Z.ltb_lt _ _)) by lia.
        eapply reads_lift; [apply in_panic_ok; lia|]. apply reads_append, Hrd. simpl in Hf. lia.
    + unfold or_return_pure in Hr. destruct (copy_match o _ _) as [[o1|]|] eqn:Hcopy; [|done|done].
      destruct (IH Hcoded _ _ Hr) as (bits & Hem & Hlen & Hrd).
      destruct (match_bits ll dl dist_dec m o o1 Hll Hdl Hddec Ht Hc Hcopy)
        as (lsym & lval & lbits & dsym & dval & dbits & s & x & mbits & El & Ed & -> & Hs257 & Hx & Hx0 & Hme & Hmr).
      exists (codeword ll s x ++ mbits ++ bits). split_and!.
      * cbn [emit_tokens]. eapply emits_lift; [exact El|]. eapply emits_return; [by apply emits_symbol|].
        pose proof (Hme _ _ _ Hem) as Hme'. intros w Hw. destruct (Hme' w Hw) as (w' & E & Hw').
        exists w'. split; [|done]. rewrite <- E. unfold bind, or_return. rewrite Ed. done.
      * rewrite !length_app, length_codeword. simpl. lia.
      * intros [|fuel] Hf; [lia|]. cbn [inflate_symbols]. eapply reads_return; [by apply (reads_symbol ll)|].
        rewrite (proj2 (Z.ltb_ge _ _)), (proj2 (Z.eqb_neq _ _)) by lia.
        eapply reads_return; [exact Hmr|]. apply Hrd. simpl in Hf. lia.
Qed.

(** A Huffman block with either kind of tables. *)
Lemma huffman_block_spec ll dl tokens o o' : valid_lengths ll -> valid_lengths dl -> has_code ll 256 ->
  Forall token_ok tokens -> Forall (token_coded (has_code ll) (has_code dl)) tokens -> replay_tokens tokens o = Ok (Ok o') ->
  exists bits,
    emits (emit_tokens (mkEncoder (codes_of ll) ll) (mkEncoder (codes_of dl) dl) tokens) (Ok tt) bits /\
    reads (inflate_huffman_block ll dl) tt bits o o'.
Proof.
  intros Hll Hdl He Hok Hcoded Hr. destruct (new_decoder_spec ll Hll) as (ld & El & Hld).
  destruct (new_decoder_spec dl Hdl) as (dd & Ed & Hdd).
  destruct (emit_tokens_spec ll dl ld dd tokens Hll Hdl Hld Hdd He Hok Hcoded o o' Hr) as (bits & Hem & Hlen & Hrd).
  exists bits. split; [done|]. unfold inflate_huffman_block, build_decoder.
  eapply reads_lift_return; [by rewrite El|]. eapply reads_lift_return; [by rewrite Ed|].
  intros s rest Hidle Hu Ho. rewrite bind_get. apply Hrd; [|done|done|done].
  unfold bits_left. rewrite bits_remaining_spec by apply Hidle. rewrite Hu, length_app. lia.
Qed.
