(* ===== verification/DeflateHeader.v ===== *)
(** * DEFLATE round trip: the header of a dynamic block

    The run-length coding of the code lengths, written by [rle_encode] and read
    by [read_code_lengths].  [expand] is what a list of code-length symbols with
    their extra values stands for. *)

From S2P Require Import Prelude RawList Bits Bitstream Huffman HuffmanTree Lz77 Deflate Inflate InflateSafe DeflateTokens.

Local Open Scope Z_scope.
Local Open Scope monad_scope.

(** ** Counters *)

Definition occurs (l : list Z) (i : nat) : Prop := exists f, l !! i = Some f /\ 0 < f.

(** [n] occurrences have been counted in a table of [k] symbols. *)
Record counted (k : nat) (n : Z) (l : list Z) : Prop := {
  counted_length : length l = k;
  counted_nonneg : Forall (fun f => 0 <= f) l;
  counted_total : total l = n;
}.

Lemma total_app a b : total (a ++ b) = total a + total b.
Proof. induction a as [|x a IH]; [done|]. unfold total in *. cbn [app foldr]. lia. Qed.

Lemma total_nonneg l : Forall (fun f => 0 <= f) l -> 0 <= total l.
Proof. induction 1; unfold total in *; cbn [foldr]; lia. Qed.

Lemma total_zeros k : total (replicate k 0) = 0.
Proof. induction k as [|k IH]; [done|]. unfold total in *. cbn [replicate foldr]. lia. Qed.

Lemma counted_zeros k : counted k 0 (replicate k 0).
Proof. constructor; [apply length_replicate|by apply Forall_replicate|apply total_zeros]. Qed.

Lemma bump_spec msg k n l idx : counted k n l -> (idx < k)%nat -> n < 2 ^ 32 - 1 ->
  exists l', bump msg idx l = Ok l' /\ counted k (n + 1) l' /\ occurs l' idx /\ (forall i, occurs l i -> occurs l' i).
Proof.
  intros [Hl Hf Ht] Hi Hn. destruct (lookup_lt_is_Some_2 l idx) as [f Hfi]; [lia|].
  pose proof (Forall_lookup_1 _ _ _ _ Hf Hfi) as Hf0. cbv beta in Hf0.
  assert (Hsplit : l = take idx l ++ f :: drop (S idx) l) by by rewrite take_drop_middle.
  pose proof (total_nonneg (take idx l) (Forall_take _ _ _ Hf)). pose proof (total_nonneg (drop (S idx) l) (Forall_drop _ _ _ Hf)).
  assert (Hsum : n = total (take idx l) + (f + total (drop (S idx) l))) by (rewrite <- Ht, Hsplit at 1; by rewrite total_app).
  unfold bump. rewrite (getitem_ok _ _ _ _ Hfi). cbn [result_bind]. rewrite setitem_ok, u32_small by lia.
  eexists. split; [done|]. split_and!.
  - constructor; [by rewrite length_insert|apply Forall_insert; [done|lia]|].
    rewrite insert_take_drop, total_app by lia. unfold total at 2. cbn [foldr]. fold (total (drop (S idx) l)). lia.
  - exists (f + 1). split; [apply list_lookup_insert_eq; lia|lia].
  - intros i (g & Hg & Hg0). destruct (decide (i = idx)) as [->|Hne].
    + exists (f + 1). split; [apply list_lookup_insert_eq; lia|lia].
    + exists g. by rewrite list_lookup_insert_ne.
Qed.

(** ** What code-length symbols stand for *)

Definition last_or_zero (l : list Z) : Z := default 0 (last l).

Definition expand1 (acc : list Z) (p : Z * Z) : list Z :=
  if p.1 <? 16 then acc ++ [p.1]
  else if p.1 =? 16 then acc ++ replicate (Z.to_nat (p.2 + 3)) (last_or_zero acc)
  else if p.1 =? 17 then acc ++ replicate (Z.to_nat (p.2 + 3)) 0
  else acc ++ replicate (Z.to_nat (p.2 + 11)) 0.

Definition expand (acc : list Z) (ps : list (Z * Z)) : list Z := foldl expand1 acc ps.

Definition pair_ok (acc : list Z) (p : Z * Z) : Prop :=
  0 <= p.1 <= 18 /\ (p.1 = 16 -> acc <> []) /\ 0 <= p.2 < 2 ^ cl_extra_bits p.1.

Fixpoint pairs_ok (acc : list Z) (ps : list (Z * Z)) : Prop :=
  match ps with [] => True | p :: ps => pair_ok acc p /\ pairs_ok (expand1 acc p) ps end.

Lemma cl_extra_bits_range sym : 0 <= cl_extra_bits sym <= 7.
Proof. unfold cl_extra_bits. repeat destruct (_ =? _); lia. Qed.

Lemma expand1_longer acc p : pair_ok acc p -> (length acc < length (expand1 acc p))%nat.
Proof.
  intros (H1 & H2 & H3). unfold expand1. repeat case_match; rewrite length_app, ?length_replicate; simpl; lia.
Qed.

Lemma expand_longer ps : forall acc, pairs_ok acc ps -> (length acc + length ps <= length (expand acc ps))%nat.
Proof.
  induction ps as [|p ps IH]; intros acc Hok; [simpl; lia|]. destruct Hok as [Hp Hok].
  pose proof (expand1_longer _ _ Hp). specialize (IH _ Hok). unfold expand in *. simpl in *. lia.
Qed.

Lemma pairs_ok_app ps1 ps2 : forall acc, pairs_ok acc (ps1 ++ ps2) <-> pairs_ok acc ps1 /\ pairs_ok (expand acc ps1) ps2.
Proof. induction ps1 as [|p ps1 IH]; intros acc; cbn [app pairs_ok]; [tauto|]. rewrite IH. simpl. tauto. Qed.

(** ** The encoder's state *)

Definition rle_pairs (r : Rle) : list (Z * Z) := zip (rle_symbols r) (rle_extra r).

(** The symbols so far stand for [done_], and are all counted. *)
Record rle_ok (done_ : list Z) (r : Rle) : Prop := {
  rle_same : length (rle_symbols r) = length (rle_extra r);
  rle_pairs_ok : pairs_ok [] (rle_pairs r);
  rle_expands : expand [] (rle_pairs r) = done_;
  rle_counted : counted 19 (Z.of_nat (length (rle_symbols r))) (cl_freqs r);
  rle_occurs : Forall (fun s => occurs (cl_freqs r) (Z.to_nat s)) (rle_symbols r);
}.

Lemma rle_start : rle_ok [] (mkRle [] [] (replicate 19 0)).
Proof. constructor; [done|done|done|apply counted_zeros|constructor]. Qed.

Lemma rle_emit_spec done_ r sym ev : rle_ok done_ r -> pair_ok done_ (sym, ev) -> Z.of_nat (length done_) < 2 ^ 31 ->
  exists r', rle_emit sym ev r = Ok r' /\ rle_ok (expand1 done_ (sym, ev)) r'.
Proof.
  intros [Hs Hp He Hc Ho] Hok Hlen. pose proof (expand_longer _ _ Hp) as Hlong. rewrite He in Hlong.
  unfold rle_pairs in Hlong. rewrite length_zip_with, Hs, Nat.min_id in Hlong. simpl in Hlong.
  unfold rle_emit. destruct (bump_spec "x" 19 _ _ (Z.to_nat sym) Hc) as (l' & E & Hc' & Hi & Hmono);
    [destruct Hok as [Hr _]; simpl in Hr; lia|lia|].
  rewrite E. cbn [result_bind]. eexists. split; [done|].
  assert (Hzip : zip (rle_symbols r ++ [sym]) (rle_extra r ++ [ev]) = rle_pairs r ++ [(sym, ev)]) by (unfold rle_pairs; by rewrite zip_with_app by done).
  constructor; unfold rle_pairs; cbn [rle_symbols rle_extra cl_freqs]; rewrite ?length_app, ?Hzip; simpl.
  - lia.
  - apply pairs_ok_app. rewrite He. done.
  - unfold expand in *. by rewrite foldl_app, He.
  - by replace (Z.of_nat (length (rle_symbols r) + 1)) with (Z.of_nat (length (rle_symbols r)) + 1) by lia.
  - apply Forall_app. split; [|by constructor]. eapply Forall_impl; [exact Ho|]. intros s. apply Hmono.
Qed.

(** What one of the three repeat symbols does after [acc]. *)
Definition repeats (least most : nat) (sym v : Z) (ready : list Z -> Prop) : Prop :=
  (3 <= least <= most)%nat /\ Z.of_nat (most - least) < 2 ^ 8 /\
  (forall acc k, ready acc -> ready (acc ++ replicate (S k) v)) /\
  (forall acc k, ready acc -> (k <= most - least)%nat ->
     pair_ok acc (sym, Z.of_nat k) /\ expand1 acc (sym, Z.of_nat k) = acc ++ replicate (k + least) v).

Lemma rle_repeats_spec least most sym v ready fuel : repeats least most sym v ready -> forall run acc r,
  ready acc -> rle_ok acc r -> Z.of_nat (length acc + run) < 2 ^ 31 ->
  exists run' r', rle_repeats fuel least most sym run r = Ok (run', r') /\ (run' <= run)%nat /\
    rle_ok (acc ++ replicate (run - run') v) r' /\ ready (acc ++ replicate (run - run') v).
Proof.
  intros (Hlm & Hbyte & Hready & Hpair). induction fuel as [|fuel IH]; intros run acc r Ha Hr Hlen; cbn [rle_repeats].
  { exists run, r. rewrite Nat.sub_diag, app_nil_r. done. }
  destruct (Nat.leb_spec least run) as [Hle|].
  2: { exists run, r. rewrite Nat.sub_diag, app_nil_r. done. }
  set (t := if (run <? most)%nat then run else most).
  assert (Ht : (least <= t <= most)%nat /\ (t <= run)%nat) by (subst t; destruct (Nat.ltb_spec run most); lia).
  destruct (Hpair acc (t - least)%nat Ha) as [Hok Hexp]; [lia|].
  rewrite u8_small by lia. replace (Z.of_nat t - Z.of_nat least) with (Z.of_nat (t - least)) by lia.
  destruct (rle_emit_spec acc r sym _ Hr Hok) as (r1 & E1 & Hr1); [lia|]. rewrite E1. cbn [result_bind].
  rewrite panic_sub_ok by lia. cbn [result_bind]. rewrite Hexp in Hr1.
  replace (t - least + least)%nat with t in Hr1 by lia.
  destruct (IH (run - t)%nat (acc ++ replicate t v) r1) as (run' & r' & E & Hle' & Hr' & Ha').
  - destruct t; [lia|]. by apply Hready.
  - done.
  - rewrite length_app, length_replicate. lia.
  - exists run', r'. rewrite <- app_assoc, <- replicate_add in Hr', Ha'.
    replace (t + (run - t - run'))%nat with (run - run')%nat in * by lia. split_and!; [done|lia|done|done].
Qed.

Lemma repeats_zero_long : repeats 11 138 18 0 (fun _ => True).
Proof.
  split_and!; [lia|lia|lia|done|]. intros acc k _ Hk. split; [split; [simpl; lia|split; [done|change (cl_extra_bits _) with 7; simpl; lia]]|].
  unfold expand1. simpl. f_equal. f_equal. lia.
Qed.

Lemma repeats_zero_short : repeats 3 10 17 0 (fun _ => True).
Proof.
  split_and!; [lia|lia|lia|done|]. intros acc k _ Hk. split; [split; [simpl; lia|split; [done|change (cl_extra_bits _) with 3; simpl; lia]]|].
  unfold expand1. simpl. f_equal. f_equal. lia.
Qed.

Lemma last_replicate_app acc k (v : Z) : last (acc ++ replicate (S k) v) = Some v.
Proof. rewrite replicate_S_end, app_assoc. apply last_snoc. Qed.

Lemma repeats_previous v : repeats 3 6 16 v (fun acc => last acc = Some v).
Proof.
  split_and!; [lia|lia|lia|intros acc k _; apply last_replicate_app|]. intros acc k Ha Hk.
  split; [split; [simpl; lia|split; [by intros _ ->|change (cl_extra_bits _) with 2; simpl; lia]]|].
  unfold expand1, last_or_zero. simpl. rewrite Ha. simpl. f_equal. f_equal. lia.
Qed.

Lemma rle_singles_spec run : forall val acc r, 0 <= val <= 15 -> rle_ok acc r -> Z.of_nat (length acc + run) < 2 ^ 31 ->
  exists r', rle_singles run val r = Ok r' /\ rle_ok (acc ++ replicate run val) r'.
Proof.
  induction run as [|run IH]; intros val acc r Hv Hr Hlen; cbn [rle_singles]; [exists r; by rewrite app_nil_r|].
  assert (Hexp : expand1 acc (val, 0) = acc ++ [val]) by (unfold expand1; simpl; by rewrite (proj2 (Z.ltb_lt _ _)) by lia).
  destruct (rle_emit_spec acc r val 0 Hr) as (r1 & E1 & Hr1); [|lia|].
  - split_and!; simpl; [lia|lia|lia|lia|]. apply Z.pow_pos_nonneg; [lia|apply cl_extra_bits_range].
  - rewrite E1. cbn [result_bind]. rewrite Hexp in Hr1.
    destruct (IH val _ r1 Hv Hr1) as (r' & E & Hr'); [rewrite length_app; simpl; lia|].
    exists r'. split; [done|]. by rewrite <- app_assoc in Hr'.
Qed.

Lemma rle_run_spec val run acc r : 0 <= val <= 15 -> (1 <= run)%nat -> rle_ok acc r -> Z.of_nat (length acc + run) < 2 ^ 31 ->
  exists r', rle_run val run r = Ok r' /\ rle_ok (acc ++ replicate run val) r'.
Proof.
  intros Hv Hrun Hr Hlen. unfold rle_run. destruct (Z.eqb_spec val 0) as [->|Hne].
  - destruct (rle_repeats_spec _ _ _ _ _ run repeats_zero_long run acc r Logic.I Hr Hlen) as (run1 & r1 & E1 & Hle1 & Hr1 & _).
    rewrite E1. cbn [result_bind].
    destruct (rle_repeats_spec _ _ _ _ _ run1 repeats_zero_short run1 _ r1 Logic.I Hr1) as (run2 & r2 & E2 & Hle2 & Hr2 & _);
      [rewrite length_app, length_replicate; lia|].
    rewrite E2. cbn [result_bind].
    destruct (rle_singles_spec run2 0 _ r2 ltac:(lia) Hr2) as (r' & E & Hr'); [rewrite !length_app, !length_replicate; lia|].
    exists r'. split; [done|]. rewrite <- !app_assoc, <- !replicate_add in Hr'.
    by replace (run - run1 + (run1 - run2 + run2))%nat with run in Hr' by lia.
  - destruct (rle_singles_spec 1 val acc r Hv Hr) as (r1 & E1 & Hr1); [lia|]. cbn [rle_singles] in E1.
    destruct (rle_emit val 0 r) as [r1'|] eqn:Ee; [|done]. injection E1 as ->. cbn [result_bind].
    rewrite panic_sub_ok by done. cbn [result_bind].
    destruct (rle_repeats_spec _ _ _ _ _ (run - 1) (repeats_previous val) (run - 1) _ r1 (last_replicate_app acc 0 val) Hr1)
      as (run2 & r2 & E2 & Hle2 & Hr2 & _); [rewrite length_app; simpl; lia|].
    rewrite E2. cbn [result_bind].
    destruct (rle_singles_spec run2 val _ r2 Hv Hr2) as (r' & E & Hr'); [rewrite !length_app, !length_replicate; lia|].
    exists r'. split; [done|]. rewrite <- !app_assoc, <- !replicate_add in Hr'.
    by replace (1 + (run - 1 - run2 + run2))%nat with run in Hr' by lia.
Qed.

Lemma run_length_spec combined i val n : forall run, (1 <= run)%nat -> (i + run <= length combined)%nat ->
  take run (drop i combined) = replicate run val -> exists run', run_length n combined i run val = Ok run' /\
  (1 <= run')%nat /\ (i + run' <= length combined)%nat /\ take run' (drop i combined) = replicate run' val.
Proof.
  induction n as [|n IH]; intros run H1 Hlen Heq; cbn [run_length]; [by exists run|].
  destruct (Nat.ltb_spec (i + run) (length combined)) as [Hlt|]; [|by exists run].
  destruct (lookup_lt_is_Some_2 combined (i + run) Hlt) as [v Hv]. rewrite (getitem_ok _ _ _ _ Hv). cbn [result_bind].
  destruct (Z.eqb_spec v val) as [->|]; cbn [andb]; [|by exists run].
  destruct (run <? 138)%nat; [|by exists run]. apply IH; [lia|lia|].
  rewrite Nat.add_1_r, (take_S_r _ _ val) by by rewrite lookup_drop. by rewrite Heq, <- replicate_S_end.
Qed.

(** The whole table is encoded. *)
Lemma rle_encode_spec combined fuel : Forall length_ok combined -> Z.of_nat (length combined) < 2 ^ 31 -> forall i r,
  (length combined - i <= fuel)%nat -> (i <= length combined)%nat -> rle_ok (take i combined) r ->
  exists r', rle_encode fuel combined i r = Ok r' /\ rle_ok combined r'.
Proof.
  intros Hok Hsz. induction fuel as [|fuel IH]; intros i r Hf Hi Hr; cbn [rle_encode].
  { rewrite (proj2 (Nat.ltb_ge _ _)) by lia. exists r. by rewrite take_ge in Hr by lia. }
  destruct (Nat.ltb_spec i (length combined)) as [Hlt|].
  2: { exists r. by rewrite take_ge in Hr by lia. }
  destruct (lookup_lt_is_Some_2 combined i Hlt) as [val Hval]. rewrite (getitem_ok _ _ _ _ Hval). cbn [result_bind].
  pose proof (Forall_lookup_1 _ _ _ _ Hok Hval) as Hv.
  destruct (run_length_spec combined i val (length combined) 1) as (run & E & H1 & Hrun & Heq); [lia|lia| |].
  { by rewrite (drop_S _ _ _ Hval). }
  rewrite E. cbn [result_bind].
  destruct (rle_run_spec val run (take i combined) r Hv H1 Hr) as (r1 & E1 & Hr1); [rewrite length_take; lia|].
  rewrite E1. cbn [result_bind]. apply IH; [lia|lia|]. rewrite <- Heq in Hr1. by rewrite take_take_drop in Hr1.
Qed.

(** ** Writing and reading the symbols *)

Lemma emits_rle_extra sym ev : 0 <= sym <= 18 -> emits
  (if sym =? 16 then write_bits ev 2 else if sym =? 17 then write_bits ev 3 else if sym =? 18 then write_bits ev 7 else ret tt)
  tt (bits_of (Z.to_nat (cl_extra_bits sym)) ev).
Proof.
  intros Hs. unfold cl_extra_bits. destruct (sym =? 16); [by apply emits_bits|]. destruct (sym =? 17); [by apply emits_bits|].
  destruct (sym =? 18); [by apply emits_bits|]. apply emits_ret.
Qed.

Lemma reads_run n k v ev (acc : list Z) context o : 0 <= n <= 7 -> 0 <= ev < 2 ^ n -> 3 <= k <= 11 ->
  reads (let! e := read_bits_in n context in ret (Ok (acc ++ replicate (Z.to_nat (u32 (e + k))) v)))
    (acc ++ replicate (Z.to_nat (ev + k)) v) (bits_of (Z.to_nat n) ev) o o.
Proof.
  intros Hn Hev Hk. assert (2 ^ n <= 2 ^ 7) by (apply Z.pow_le_mono_r; lia). rewrite <- (app_nil_r (bits_of _ ev)).
  eapply reads_return; [apply reads_bits; lia|]. rewrite Z.mod_small, u32_small by lia. apply reads_ret.
Qed.

Lemma reads_code_length acc p o : pair_ok acc p -> reads (read_code_length p.1 acc) (expand1 acc p)
  (bits_of (Z.to_nat (cl_extra_bits p.1)) p.2) o o.
Proof.
  destruct p as [sym ev]. intros (Hs & H16 & Hev). cbn [fst snd] in *. unfold read_code_length, expand1, cl_extra_bits in *.
  cbn [fst snd] in *. destruct (Z.ltb_spec sym 16) as [Hlt|Hge].
  - rewrite !(proj2 (Z.eqb_neq _ _)) by lia. eapply reads_lift; [apply in_panic_ok; lia|]. apply reads_ret.
  - destruct (Z.eqb_spec sym 16) as [E16|].
    { specialize (H16 E16). destruct (Nat.eqb_spec (length acc) 0) as [Hz|Hz]; [by destruct acc|].
      destruct (lookup_lt_is_Some_2 acc (length acc - 1)) as [v Hv]; [lia|].
      eapply reads_lift; [apply panic_sub_ok; lia|]. eapply reads_lift; [by apply getitem_ok|].
      assert (last_or_zero acc = v) as ->; [|by apply reads_run].
      unfold last_or_zero. rewrite last_lookup. replace (pred (length acc)) with (length acc - 1)%nat by lia. by rewrite Hv. }
    destruct (Z.eqb_spec sym 17); [by apply reads_run|]. destruct (Z.eqb_spec sym 18); [by apply reads_run|lia].
Qed.

Lemma rle_bits_spec cl dec ps : valid_lengths cl -> decodes cl dec ->
  Forall (fun p => has_code cl (Z.to_nat p.1)) ps -> forall acc, pairs_ok acc ps -> exists bits,
  emits (write_rle (mkEncoder (codes_of cl) cl) (map fst ps) (map snd ps)) (Ok tt) bits /\
  forall fuel total o, total = length (expand acc ps) -> (total - length acc <= fuel)%nat ->
    reads (read_code_lengths fuel total dec acc) (expand acc ps) bits o o.
Proof.
  intros Hv Hdec Hcodes. induction Hcodes as [|[sym ev] ps (x & Hx & Hx0) _ IH]; intros acc Hok.
  - exists []. split; [apply emits_ret|]. intros fuel total o -> _. simpl.
    destruct fuel; cbn [read_code_lengths]; rewrite Nat.ltb_irrefl; apply reads_ret.
  - destruct Hok as [Hp Hok]. destruct (IH _ Hok) as (bits & Hem & Hrd). pose proof Hp as (Hs & _ & _). cbn [fst snd] in *.
    exists (codeword cl (Z.to_nat sym) x ++ bits_of (Z.to_nat (cl_extra_bits sym)) ev ++ bits). split.
    + cbn [map write_rle fst snd]. eapply emits_return.
      * rewrite <- (Z2Nat.id sym) at 1 by lia. by apply emits_symbol.
      * eapply emits_bind; [by apply emits_rle_extra|done].
    + intros fuel total o -> Hf. pose proof (expand1_longer _ _ Hp) as Hl1. pose proof (expand_longer _ _ Hok) as Hl.
      change (expand acc ((sym, ev) :: ps)) with (expand (expand1 acc (sym, ev)) ps) in *.
      destruct fuel as [|fuel]; [lia|]. cbn [read_code_lengths]. rewrite (proj2 (Nat.ltb_lt _ _)) by lia.
      eapply reads_return; [by apply (reads_symbol cl)|]. rewrite Z2Nat.id by lia.
      eapply reads_return; [by apply (reads_code_length acc (sym, ev))|]. apply Hrd; [done|lia].
Qed.

(** ** The code-length alphabet's own lengths *)

Lemma cl_lengths_bits (cl order : list Z) : forall ci, order = drop ci CL_ORDER -> length cl = 19%nat -> Forall (fun x => 0 <= x <= 7) cl ->
  exists bits vals, Forall2 (fun s v => cl !! Z.to_nat s = Some v) order vals /\
    emits (write_cl_lengths order cl) tt bits /\
    forall acc o, length acc = 19%nat ->
      reads (read_cl_lengths (length order) ci acc) (foldl put acc (zip (map Z.to_nat order) vals)) bits o o.
Proof.
  induction order as [|s order IH]; intros ci Ho Hlen Hcl.
  { exists [], []. split_and!; [constructor|apply emits_ret|]. intros acc o _. apply reads_ret. }
  assert (Hs : CL_ORDER !! ci = Some s) by by rewrite <- (Nat.add_0_r ci), <- lookup_drop, <- Ho.
  assert (Hrest : order = drop (S ci) CL_ORDER) by (apply drop_S in Hs; rewrite <- Ho in Hs; congruence).
  assert (Hsr : 0 <= s <= 18) by by apply (between_lookup 0 18 CL_ORDER ci).
  destruct (lookup_lt_is_Some_2 cl (Z.to_nat s)) as [v Hv]; [lia|].
  pose proof (Forall_lookup_1 _ _ _ _ Hcl Hv) as Hvr. cbv beta in Hvr.
  destruct (IH (S ci) Hrest Hlen Hcl) as (bits & vals & Hvals & Hem & Hrd).
  exists (bits_of (Z.to_nat 3) v ++ bits), (v :: vals). split_and!; [by constructor| |].
  - cbn [write_cl_lengths]. eapply emits_lift; [by apply getitem_ok|]. eapply emits_bind; [by apply emits_bits|done].
  - intros acc o Hacc. cbn [length read_cl_lengths]. eapply reads_return; [by apply reads_bits|].
    rewrite Z.mod_small by lia. eapply reads_lift; [by apply getitem_ok|].
    eapply reads_lift; [apply in_panic_ok; lia|]. eapply reads_lift; [apply setitem_ok; lia|].
    cbn [map zip zip_with foldl]. apply Hrd. unfold put. by rewrite length_insert.
Qed.

(** The order on the wire names every symbol once. *)
Lemma cl_order_complete (cl vals : list Z) : length cl = 19%nat -> Forall2 (fun s v => cl !! Z.to_nat s = Some v) CL_ORDER vals ->
  foldl put (replicate 19 0) (zip (map Z.to_nat CL_ORDER) vals) = cl.
Proof.
  intros Hlen Hvals. pose proof (Forall2_length _ _ _ Hvals) as Hl. change (length CL_ORDER) with 19%nat in Hl.
  assert (Hfst : map fst (zip (map Z.to_nat CL_ORDER) vals) = map Z.to_nat CL_ORDER) by (apply fst_zip; by rewrite length_map).
  apply list_eq. intros i. destruct (decide (i < 19)%nat) as [Hi|Hi].
  - assert (Hin : exists j, CL_ORDER !! j = Some (Z.of_nat i)).
    { assert (Hall : forallb (fun i => existsb (fun s => s =? Z.of_nat i) CL_ORDER) (seq 0 19) = true) by done.
      rewrite forallb_forall in Hall. specialize (Hall i ltac:(apply in_seq; lia)).
      apply existsb_exists in Hall as (s & Hs & ->%Z.eqb_eq). by apply list_elem_of_In, list_elem_of_lookup in Hs. }
    destruct Hin as [j Hj]. destruct (lookup_lt_is_Some_2 vals j) as [v Hv]; [apply lookup_lt_Some in Hj; change (length CL_ORDER) with 19%nat in Hj; lia|].
    pose proof (Forall2_lookup_lr _ _ _ _ _ _ Hvals Hj Hv) as Hcl. cbv beta in Hcl. rewrite Nat2Z.id in Hcl. rewrite Hcl.
    apply puts_hit; [rewrite Hfst; by apply (bool_decide_eq_true_1 (NoDup (map Z.to_nat CL_ORDER))); vm_compute| |done].
    apply (list_elem_of_lookup_2 _ j). apply lookup_zip_with_Some. exists i, v. split_and!; [done| |done].
    rewrite list_lookup_fmap, Hj. simpl. by rewrite Nat2Z.id.
  - rewrite !lookup_ge_None_2; [done|lia|rewrite length_puts; simpl; lia].
Qed.
