(* ===== verification/DeflateCorrect.v ===== *)
(** * DEFLATE round trip

    What [compress] returns, [decompress_exact] and [decompress_unbounded] turn
    back into the input; the one way it can fail is the code-length alphabet of
    a dynamic header, and there is an input on which it does. *)

From S2P Require Import Prelude RawList Bits Bitstream Huffman HuffmanTree Lz77 Deflate Inflate InflateSafe DeflateTokens DeflateHeader.

Local Open Scope Z_scope.
Local Open Scope monad_scope.

Definition header_error : DeflateError :=
  mkDeflateError "_emit_dynamic_header: code-length alphabet table build failed".

Lemma emits_ext {A} (m m' : W A) a bits : (forall w, m w = m' w) -> emits m' a bits -> emits m a bits.
Proof. intros He Hm w Hw. rewrite He. by apply Hm. Qed.

Lemma emits_lift_return {A B} (r : D A) (k : A -> W (result DeflateError B)) a b bits :
  r = Ok (Ok a) -> emits (k a) b bits -> emits (or_return (lift r) k) b bits.
Proof. intros -> Hk. exact Hk. Qed.

(** ** The header *)

Lemma pair_symbols acc ps : pairs_ok acc ps -> Forall (fun p => 0 <= p.1 <= 18) ps.
Proof. revert acc. induction ps as [|p ps IH]; intros acc Hok; constructor; destruct Hok as [[Hp _] Hok]; [done|by eapply IH]. Qed.

(** After the header, the block goes on with the tables it describes. *)
Lemma dynamic_block_reads ll dl cl r bits_cl vals bits_rle dec bits o o' :
  length ll = 286%nat -> length dl = 30%nat -> length cl = 19%nat -> new_decoder cl = Ok (Ok dec) -> rle_ok (ll ++ dl) r ->
  Forall2 (fun s v => cl !! Z.to_nat s = Some v) CL_ORDER vals ->
  (forall acc o, length acc = 19%nat ->
     reads (read_cl_lengths (length CL_ORDER) 0 acc) (foldl put acc (zip (map Z.to_nat CL_ORDER) vals)) bits_cl o o) ->
  (forall fuel total o, total = length (expand [] (rle_pairs r)) -> (total - length (@nil Z) <= fuel)%nat ->
     reads (read_code_lengths fuel total dec []) (expand [] (rle_pairs r)) bits_rle o o) ->
  reads (inflate_huffman_block ll dl) tt bits o o' ->
  reads inflate_dynamic_block tt
    ((bits_of (Z.to_nat 5) 29 ++ bits_of (Z.to_nat 5) 29 ++ bits_of (Z.to_nat 4) 15 ++ bits_cl ++ bits_rle) ++ bits) o o'.
Proof.
  intros Hll Hdl Hcl Hdec Hr Hvals Hrcl Hrrle Hblock. rewrite <- !app_assoc. unfold inflate_dynamic_block.
  eapply reads_return; [by apply reads_bits|]. eapply reads_return; [by apply reads_bits|].
  eapply reads_return; [by apply reads_bits|]. cbv zeta.
  change (Z.to_nat (29 mod 2 ^ 5) + 257)%nat with 286%nat. change (Z.to_nat (29 mod 2 ^ 5) + 1)%nat with 30%nat.
  change (Z.to_nat (15 mod 2 ^ 4) + 4)%nat with (length CL_ORDER).
  eapply reads_return; [apply Hrcl; apply length_replicate|]. rewrite (cl_order_complete cl vals Hcl Hvals).
  eapply reads_lift_return; [unfold build_decoder; by rewrite Hdec|]. rewrite (rle_expands _ _ Hr) in Hrrle.
  eapply reads_return; [apply Hrrle; [rewrite length_app; lia|simpl; lia]|].
  rewrite length_app, Hll, Hdl. cbn [Nat.add Nat.eqb negb].
  by rewrite take_app_length', drop_app_length' by done.
Qed.

Lemma emit_dynamic_header_spec ll dl : length ll = 286%nat -> length dl = 30%nat -> Forall length_ok ll -> Forall length_ok dl ->
  (forall w, emit_dynamic_header ll dl w = (Ok (Err header_error), w)) \/
  (exists bits, emits (emit_dynamic_header ll dl) (Ok tt) bits /\
     forall bits' o o', reads (inflate_huffman_block ll dl) tt bits' o o' -> reads inflate_dynamic_block tt (bits ++ bits') o o').
Proof.
  intros Hll Hdl Hokl Hokd. set (combined := ll ++ dl).
  assert (Hlen : length combined = 316%nat) by (unfold combined; rewrite length_app; lia).
  destruct (rle_encode_spec combined (length combined)) with (i := 0%nat) (r := mkRle [] [] (replicate 19 0)) as (r & Er & Hr);
    [by apply Forall_app|rewrite Hlen; lia|lia|lia|apply rle_start|].
  pose proof (expand_longer _ _ (rle_pairs_ok _ _ Hr)) as Hlong. rewrite (rle_expands _ _ Hr), Hlen in Hlong.
  unfold rle_pairs in Hlong. rewrite length_zip_with, <- (rle_same _ _ Hr), Nat.min_id in Hlong. simpl in Hlong.
  pose proof (rle_counted _ _ Hr) as [Hcl Hcn Hct].
  destruct (build_code_lengths_spec (cl_freqs r) 7) as (res & Eb & Hres); [split_and!; [done|lia|lia]|lia|].
  assert (Hhead : forall w, emit_dynamic_header ll dl w =
    (let! cl_lengths := lift (Ok (with_context "_emit_dynamic_header: code-length alphabet table build failed" res)) in
     let! cl_enc := lift (build_encoder cl_lengths "_emit_dynamic_header: code-length alphabet encoder build failed") in
     write_bits (286 - 257) 5 ;;; write_bits (30 - 1) 5 ;;; write_bits (19 - 4) 4 ;;;
     write_cl_lengths CL_ORDER cl_lengths ;;; write_rle cl_enc (rle_symbols r) (rle_extra r)) w).
  { intros w. unfold emit_dynamic_header. fold combined. rewrite Er, lift_ok. unfold build_lengths. by rewrite Eb. }
  destruct res as [cl|e]; [right|left].
  2: { intros w. rewrite Hhead. done. }
  destruct Hres as [Hclen Hval Hmax Hused]. rewrite Hcl in Hclen.
  destruct (new_decoder_spec cl Hval) as (dec & Ed & Hdec).
  destruct (cl_lengths_bits cl CL_ORDER 0 eq_refl Hclen Hmax) as (bits_cl & vals & Hvals & Hemcl & Hrdcl).
  assert (Hfst : map fst (rle_pairs r) = rle_symbols r) by apply fst_zip, (rle_same _ _ Hr).
  assert (Hsnd : map snd (rle_pairs r) = rle_extra r) by apply snd_zip, (rle_same _ _ Hr).
  assert (Hcodes : Forall (fun p => has_code cl (Z.to_nat p.1)) (rle_pairs r)).
  { pose proof (rle_occurs _ _ Hr) as Ho. rewrite <- Hfst in Ho. rewrite Forall_map in Ho. eapply Forall_impl; [exact Ho|].
    intros [s e] (f & Hf & Hf0). cbn [fst] in *. destruct (lookup_lt_is_Some_2 cl (Z.to_nat s)) as [x Hx];
      [apply lookup_lt_Some in Hf; lia|]. exists x. split; [done|]. by apply (Hused _ _ _ Hf Hx). }
  destruct (rle_bits_spec cl dec (rle_pairs r) Hval Hdec Hcodes [] (rle_pairs_ok _ _ Hr)) as (bits_rle & Hemr & Hrdr).
  rewrite Hfst, Hsnd in Hemr.
  exists (bits_of (Z.to_nat 5) 29 ++ bits_of (Z.to_nat 5) 29 ++ bits_of (Z.to_nat 4) 15 ++ bits_cl ++ bits_rle). split.
  - eapply emits_ext; [exact Hhead|]. eapply emits_lift_return; [done|].
    eapply emits_lift_return; [unfold build_encoder; by rewrite new_encoder_spec|].
    repeat (eapply emits_bind; [by apply emits_bits || exact Hemcl|]). exact Hemr.
  - intros bits' o o'. by apply (dynamic_block_reads ll dl cl r bits_cl vals bits_rle dec).
Qed.

(** ** The frequencies *)

Definition grew (l l' : list Z) : Prop := forall i, occurs l i -> occurs l' i.

Lemma token_coded_mono (P P' Q Q' : nat -> Prop) t : (forall i, P i -> P' i) -> (forall i, Q i -> Q' i) ->
  token_coded P Q t -> token_coded P' Q' t.
Proof. destruct t as [b|m]; simpl; [auto|]. intros HP HQ [H1 H2]. split; intros; eauto. Qed.

Lemma length_litlen_bases : length LENGTH_BASE = 29%nat.
Proof. by vm_compute. Qed.

Lemma length_dist_bases : length DIST_BASE = 30%nat.
Proof. by vm_compute. Qed.

(** Every token's symbols are counted, none more often than there are tokens. *)
Lemma tally_tokens_spec tokens : Forall token_ok tokens -> forall lf df n m, counted 286 n lf -> counted 30 m df ->
  n + Z.of_nat (length tokens) < 2 ^ 32 - 1 -> m + Z.of_nat (length tokens) < 2 ^ 32 - 1 ->
  exists lf' df' n' m', tally_tokens tokens lf df = Ok (lf', df') /\ counted 286 n' lf' /\ counted 30 m' df' /\
    n' = n + Z.of_nat (length tokens) /\ m <= m' <= m + Z.of_nat (length tokens) /\ grew lf lf' /\ grew df df' /\
    Forall (token_coded (occurs lf') (occurs df')) tokens.
Proof.
  induction 1 as [|t tokens Ht _ IH]; intros lf df n m Hl Hd Hn Hm.
  { exists lf, df, n, m. split_and!; try done; try (simpl; lia); by intros i. }
  cbn [length] in Hn, Hm. destruct t as [b|mt]; cbn [tally_tokens].
  - simpl in Ht. unfold is_byte in Ht.
    destruct (bump_spec "idx < 286" 286 n lf (Z.to_nat b) Hl) as (lf1 & -> & Hl1 & Hocc & Hg1); [lia|lia|]. cbn [result_bind].
    destruct (IH lf1 df (n + 1) m Hl1 Hd) as (lf' & df' & n' & m' & E & Hl' & Hd' & Hn' & Hm' & Hgl & Hgd & Hco); [lia|lia|].
    exists lf', df', n', m'. unfold grew in *. split_and!; [done|done|done|cbn [length]; lia|lia|cbn [length]; lia|by eauto|by eauto|].
    constructor; [|done]. simpl. eauto.
  - destruct Ht as [Hml Hmd].
    destruct (length_to_symbol_spec _ Hml) as (ls & lv & lb & El & b & Hb & _ & Hls & _).
    destruct (distance_to_symbol_spec _ Hmd) as (ds & dv & db & Ed & b' & Hb' & _ & Hds & _).
    rewrite length_litlen_bases in Hls. rewrite length_dist_bases in Hds.
    rewrite El. cbn [result_bind].
    destruct (bump_spec "lidx < 286" 286 n lf (Z.to_nat ls) Hl) as (lf1 & -> & Hl1 & Hoccl & Hg1); [lia|lia|]. cbn [result_bind].
    rewrite Ed. cbn [result_bind].
    destruct (bump_spec "didx < 30" 30 m df (Z.to_nat ds) Hd) as (df1 & -> & Hd1 & Hoccd & Hg2); [lia|lia|]. cbn [result_bind].
    destruct (IH lf1 df1 (n + 1) (m + 1) Hl1 Hd1) as (lf' & df' & n' & m' & E & Hl' & Hd' & Hn' & Hm' & Hgl & Hgd & Hco); [lia|lia|].
    exists lf', df', n', m'. unfold grew in *. split_and!; [done|done|done|cbn [length]; lia|lia|cbn [length]; lia|by eauto|by eauto|].
    constructor; [|exact Hco]. cbn [token_coded].
    split; intros sym ev eb Es; [rewrite El in Es|rewrite Ed in Es]; injection Es as <- <- <-; auto.
Qed.

Lemma tally_frequencies_spec tokens : Forall token_ok tokens -> Z.of_nat (length tokens) < 2 ^ 32 - 2 ->
  exists lf df, tally_frequencies tokens (replicate 286 0) (replicate 30 0) = Ok (lf, df) /\
    length lf = 286%nat /\ length df = 30%nat /\ frequencies lf /\ frequencies df /\ occurs lf 256 /\
    Forall (token_coded (occurs lf) (occurs df)) tokens.
Proof.
  intros Hok Hlen.
  destruct (tally_tokens_spec tokens Hok _ _ 0 0 (counted_zeros 286) (counted_zeros 30))
    as (lf & df & n & m & E & Hl & Hd & Hn & Hm & _ & _ & Hco); [lia|lia|].
  unfold tally_frequencies. rewrite E. cbn [result_bind].
  destruct (bump_spec "x" 286 n lf 256 Hl) as (lf1 & -> & Hl1 & Hocc & Hg); [lia|lia|]. cbn [result_bind].
  assert (Hco1 : Forall (token_coded (occurs lf1) (occurs df)) tokens).
  { eapply Forall_impl; [exact Hco|]. intros t. by apply token_coded_mono. }
  destruct Hl1 as [Hl1 Hl2 Hl3]. destruct Hd as [Hd1 Hd2 Hd3].
  assert (Hfl : frequencies lf1) by (split_and!; [done|lia|lia]).
  destruct (existsb (fun f => 0 <? f) df) eqn:Hany; cbn [negb result_bind].
  - exists lf1, df. assert (Hfd : frequencies df) by (split_and!; [done|lia|lia]). done.
  - rewrite setitem_ok by lia. cbn [result_bind]. exists lf1, (<[0%nat:=1]> df).
    assert (Hzero : df = replicate 30 0).
    { symmetry. apply replicate_as_elem_of. split; [done|]. intros f Hf. rewrite Forall_forall in Hd2. specialize (Hd2 f Hf). cbv beta in Hd2.
      apply not_true_iff_false in Hany. destruct (Z.ltb_spec 0 f); [|lia]. destruct Hany. apply existsb_exists.
      exists f. split; [by apply list_elem_of_In|]. by apply Z.ltb_lt. }
    split_and!; [done|done|by rewrite length_insert|done| |done|].
    + rewrite Hzero. split_and!; [repeat (constructor; [done|]); constructor|done|done].
    + eapply Forall_impl; [exact Hco1|]. intros t. apply token_coded_mono; [done|].
      intros i (f & Hf & Hf0). rewrite Hzero in Hf. apply lookup_replicate in Hf as [-> _]. lia.
Qed.

(** ** One block *)

(** The fixed tables, by computation. *)
Lemma fixed_litlen_valid : valid_lengths FIXED_LITLEN_LENGTHS.
Proof. by apply lengths_fit_valid; vm_compute. Qed.

Lemma fixed_dist_valid : valid_lengths FIXED_DIST_LENGTHS.
Proof. by apply lengths_fit_valid; vm_compute. Qed.

Lemma fixed_litlen_code s : (s < 288)%nat -> has_code FIXED_LITLEN_LENGTHS s.
Proof.
  intros Hs. destruct (lookup_lt_is_Some_2 FIXED_LITLEN_LENGTHS s) as [x Hx]; [done|].
  exists x. split; [done|]. pose proof (between_lookup 7 9 FIXED_LITLEN_LENGTHS s x eq_refl Hx). lia.
Qed.

Lemma fixed_coded t : token_ok t -> token_coded (has_code FIXED_LITLEN_LENGTHS) (has_code FIXED_DIST_LENGTHS) t.
Proof.
  destruct t as [b|m]; simpl; unfold is_byte.
  - intros Hb. apply fixed_litlen_code. lia.
  - intros [Hl Hd]. destruct (length_to_symbol_spec _ Hl) as (ls & lv & lb & El & b & Hb & _ & Hls & _).
    destruct (distance_to_symbol_spec _ Hd) as (ds & dv & db & Ed & b' & Hb' & _ & Hds & _).
    rewrite length_litlen_bases in Hls. rewrite length_dist_bases in Hds.
    split; intros sym ev eb Es; [rewrite El in Es|rewrite Ed in Es]; injection Es as <- <- <-; [apply fixed_litlen_code; lia|].
    exists 5. split; [|done]. apply lookup_replicate_2. lia.
Qed.

(** The block [emit_block] writes is one [inflate_block] reads. *)
Definition block_bits (dl : option DynamicLengths) (tokens : list LZ77Token) (o' : list Z) : Prop :=
  exists bits, emits (emit_block dl tokens) (Ok tt) bits /\
    forall fuel, reads (let! btype := read_bits_in 2 "_inflate_into: unexpected end of stream reading BTYPE" in
                        let! _ := inflate_block btype in
                        if 1 =? 1 then ret (Ok tt) else inflate_blocks fuel) tt bits [] o'.

Lemma fixed_block tokens o' : Forall token_ok tokens -> replay_tokens tokens [] = Ok (Ok o') -> block_bits None tokens o'.
Proof.
  intros Hok Hr. destruct (huffman_block_spec FIXED_LITLEN_LENGTHS FIXED_DIST_LENGTHS tokens [] o' fixed_litlen_valid
    fixed_dist_valid (fixed_litlen_code 256 ltac:(lia)) Hok) as (bits & Hem & Hrd); [|done|].
  { eapply Forall_impl; [exact Hok|]. apply fixed_coded. }
  exists (bits_of (Z.to_nat 2) BTYPE_FIXED ++ bits). split.
  - cbn [emit_block]. eapply emits_bind; [by apply emits_bits|].
    eapply emits_lift_return; [unfold build_encoder; rewrite (new_encoder_spec _ fixed_litlen_valid); reflexivity|].
    eapply emits_lift_return; [unfold build_encoder; rewrite (new_encoder_spec _ fixed_dist_valid); reflexivity|]. exact Hem.
  - intros fuel. eapply reads_return; [by apply reads_bits|]. rewrite <- (app_nil_r bits).
    eapply reads_return; [exact Hrd|apply reads_ret].
Qed.

Lemma occurs_code freqs lens max s : lengths_for freqs lens max -> occurs freqs s -> has_code lens s.
Proof.
  intros [Hl _ _ Hu] (f & Hf & Hf0). destruct (lookup_lt_is_Some_2 lens s) as [x Hx];
    [apply lookup_lt_Some in Hf; lia|]. exists x. split; [done|]. by apply (Hu s f x).
Qed.

Lemma dynamic_block tokens o' lf df ll dl : Forall token_ok tokens -> replay_tokens tokens [] = Ok (Ok o') ->
  length lf = 286%nat -> length df = 30%nat -> occurs lf 256 -> Forall (token_coded (occurs lf) (occurs df)) tokens ->
  lengths_for lf ll 15 -> lengths_for df dl 15 ->
  (forall w, writer_idle w -> exists w', emit_block (Some (mkDynamicLengths ll dl)) tokens w = (Ok (Err header_error), w')) \/
  block_bits (Some (mkDynamicLengths ll dl)) tokens o'.
Proof.
  intros Hok Hr Hlf Hdf Hend Hco Hll Hdl.
  pose proof (lf_valid _ _ _ Hll) as Hvl. pose proof (lf_valid _ _ _ Hdl) as Hvd.
  destruct (huffman_block_spec ll dl tokens [] o' Hvl Hvd) as (bits & Hem & Hrd); [by eapply occurs_code|done| |done|].
  { eapply Forall_impl; [exact Hco|]. intros t. apply token_coded_mono; intros i; by eapply occurs_code. }
  destruct (emit_dynamic_header_spec ll dl) as [Hfail|(hbits & Hhe & Hhr)];
    [rewrite (lf_length _ _ _ Hll); lia|rewrite (lf_length _ _ _ Hdl); lia|apply (vl_lengths _ Hvl)|apply (vl_lengths _ Hvd)|left|right].
  - intros w Hw. destruct (write_bits_spec w BTYPE_DYNAMIC 2 Hw) as (w1 & E1 & Hw1 & _); [lia|]. exists w1.
    cbn [emit_block]. rewrite (bind_ok _ _ _ _ _ E1). by apply or_return_err.
  - exists (bits_of (Z.to_nat 2) BTYPE_DYNAMIC ++ hbits ++ bits). split.
    + cbn [emit_block dl_litlen dl_dist]. eapply emits_bind; [by apply emits_bits|]. eapply emits_return; [exact Hhe|].
      eapply emits_lift_return; [unfold build_encoder; rewrite (new_encoder_spec _ Hvl); reflexivity|].
      eapply emits_lift_return; [unfold build_encoder; rewrite (new_encoder_spec _ Hvd); reflexivity|]. exact Hem.
    + intros fuel. eapply reads_return; [by apply reads_bits|]. rewrite <- (app_nil_r (hbits ++ bits)).
      eapply reads_return; [by apply Hhr|apply reads_ret].
Qed.

(** ** [compress] *)

Lemma copy_bytes_length n : forall start i o o', copy_bytes n start i o = Ok o' -> (length o + n)%nat = length o'.
Proof.
  induction n as [|n IH]; intros start i o o' E; cbn [copy_bytes] in E; [injection E as <-; lia|].
  destruct (unwrap _ _) as [b|]; [|done]. apply IH in E. rewrite length_app in E. simpl in E. lia.
Qed.

(** Every token stands for a byte at least. *)
Lemma replay_length tokens : Forall token_ok tokens -> forall o o', replay_tokens tokens o = Ok (Ok o') ->
  (length o + length tokens <= length o')%nat.
Proof.
  induction 1 as [|[b|m] tokens Ht _ IH]; intros o o' E; cbn [replay_tokens] in E.
  - injection E as <-. simpl. lia.
  - apply IH in E. rewrite length_app in E. simpl in *. lia.
  - unfold or_return_pure in E. destruct (copy_match o _ _) as [[o1|]|] eqn:Ec; [|done|done]. apply IH in E.
    unfold copy_match in Ec. destruct (_ || _); [done|]. destruct (panic_sub _ _ _); [|done]. cbn [result_bind] in Ec.
    destruct (copy_bytes _ _ _ _) as [o2|] eqn:Eb; [|done]. cbn [result_bind] in Ec. injection Ec as ->.
    apply copy_bytes_length in Eb. simpl in *. lia.
Qed.

(** What a block reader does with the bytes of a block writer. *)
Lemma block_roundtrip dl tokens data : block_bits dl tokens data -> exists out,
  fst ((write_bits 1 1 ;;; let! _ := emit_block dl tokens in let* out := finish in ret (Ok out)) new_writer) = Ok (Ok out) /\
  Forall is_byte out /\ run_inflate out = Ok (Ok data).
Proof.
  intros (bits & Hem & Hrd).
  destruct (write_bits_spec new_writer 1 1 new_writer_idle) as (w1 & E1 & Hw1 & Hb1); [lia|].
  destruct (Hem w1 Hw1) as (w2 & E2 & Hw2 & Hb2). destruct (finish_spec w2 Hw2) as (out & w3 & pad & E3 & Hby & Hout & _).
  exists out. rewrite (bind_ok _ _ _ _ _ E1), (or_return_ok _ _ _ _ _ E2), (bind_ok _ _ _ _ _ E3). split_and!; [done|done|].
  set (s := mkInflate (new_reader out) []).
  assert (Hread : reads (inflate_blocks (S (bits_left s))) tt (bits_of (Z.to_nat 1) 1 ++ bits) [] data).
  { cbn [inflate_blocks]. eapply reads_return; [by apply reads_bits|]. apply Hrd. }
  destruct (Hread s (replicate pad false)) as (s' & E & _ & _ & Ho); [by apply new_reader_idle| |done|].
  { unfold s. cbn [reader]. by rewrite unread_new, Hout, Hb2, Hb1, written_new. }
  unfold run_inflate. fold s. rewrite (or_return_ok inflate_into _ s tt s') by exact E. by rewrite <- Ho.
Qed.

Lemma compress_tokens_spec tokens data : Forall token_ok tokens -> replay_tokens tokens [] = Ok (Ok data) ->
  Z.of_nat (length tokens) < 2 ^ 32 - 2 ->
  compress_tokens tokens = Ok (Err header_error) \/
  exists out, compress_tokens tokens = Ok (Ok out) /\ Forall is_byte out /\ run_inflate out = Ok (Ok data).
Proof.
  intros Hok Hr Hlen.
  destruct (tally_frequencies_spec tokens Hok Hlen) as (lf & df & Et & Hlf & Hdf & Hfl & Hfd & Hend & Hco).
  unfold compress_tokens, try_build_dynamic_lengths. rewrite Et. cbn [result_bind].
  destruct (build_code_lengths_spec lf 15 Hfl) as (rl & El & Hl); [lia|]. rewrite El. cbn [result_bind].
  destruct rl as [ll|]; cbn [result_bind]; [|right; by apply block_roundtrip, fixed_block].
  destruct (build_code_lengths_spec df 15 Hfd) as (rd & Ed & Hd); [lia|]. rewrite Ed. cbn [result_bind].
  destruct rd as [dl|]; cbn [result_bind]; [|right; by apply block_roundtrip, fixed_block].
  destruct (dynamic_block tokens data lf df ll dl Hok Hr Hlf Hdf Hend Hco Hl Hd) as [Hfail|Hbits].
  - left. destruct (write_bits_spec new_writer 1 1 new_writer_idle) as (w1 & E1 & Hw1 & _); [lia|].
    destruct (Hfail w1 Hw1) as (w' & E'). rewrite (bind_ok _ _ _ _ _ E1). by rewrite (or_return_err _ _ _ _ _ E').
  - right. by apply block_roundtrip.
Qed.

(** C6: For every byte string of at most 2^31 + 2 bytes and every level,
    [compress] ends without a panic. What it returns consists of bytes that
    [decompress_exact], given the input's size, and [decompress_unbounded] turn
    back into the input. Its only error value is the one of the code-length
    alphabet of a dynamic header. *)
Theorem compress_roundtrip `{Platform} data level : Forall is_byte data -> Z.of_nat (length data) <= 2 ^ 31 + 2 ->
  exists r, compress data level = Ok r /\
    match r with
    | Ok out => Forall is_byte out /\ decompress_exact out (length data) = Ok (Ok data) /\
                decompress_unbounded out = Ok (Ok data)
    | Err e => e = header_error
    end.
Proof.
  intros Hby Hsz. destruct (find_matches_covers data level Hby Hsz) as (tokens & Ef & _ & Hok & Hr).
  rewrite firstn_all in Hr. pose proof (replay_length tokens Hok _ _ Hr) as Hlen. simpl in Hlen.
  unfold compress. rewrite Ef. cbn [result_bind].
  destruct (compress_tokens_spec tokens data Hok Hr) as [Hfail|(out & Eo & Hob & Hin)]; [lia|by eexists|].
  exists (Ok out). split_and!; [done|done| |done]. unfold decompress_exact. rewrite Hin. cbn [or_return_pure].
  by rewrite Nat.eqb_refl.
Qed.

#[local] Existing Instance platform64.

Lemma compress_roundtrip_witness : exists r, compress [104; 101; 108; 108; 111; 104; 101; 108; 108; 111] 6 = Ok r /\
    match r with
    | Ok out => Forall is_byte out /\ decompress_exact out 10 = Ok (Ok [104; 101; 108; 108; 111; 104; 101; 108; 108; 111]) /\
                decompress_unbounded out = Ok (Ok [104; 101; 108; 108; 111; 104; 101; 108; 108; 111])
    | Err e => e = header_error
    end.
Proof.
  apply (compress_roundtrip [104; 101; 108; 108; 111; 104; 101; 108; 108; 111] 6); [repeat constructor; lia|simpl; lia].
Defined.

(** An input of 77 bytes whose code lengths need a code-length code deeper than
    7 bits. *)
Definition unlucky : list Z := [
   13; 25; 46; 46; 35; 64; 0; 3; 47; 1; 53; 57; 4; 60; 10; 34; 73; 85; 74; 10;
   0; 25; 5; 46; 82; 20; 43; 6; 68; 59; 41; 31; 2; 21; 0; 4; 119; 18; 10; 75;
   62; 33; 62; 17; 25; 38; 23; 4; 28; 77; 44; 11; 30; 42; 45; 28; 62; 37; 39; 10;
   19; 5; 14; 27; 52; 5; 10; 81; 49; 7; 26; 88; 8; 16; 28; 55; 24].

(** [compress] can fail on an ordinary input: these 77 bytes, at the default
    level, give the error value of the code-length alphabet's table, and no
    fixed block, although [compress] means to fall back to one whenever a
    Huffman table of the dynamic block cannot be built; a fixed block of the
    same tokens would have decompressed to the input. *)
Theorem compress_can_fail : Forall is_byte unlucky /\ length unlucky = 77%nat /\
  compress unlucky 6 = Ok (Err header_error) /\
  exists tokens, find_matches unlucky 6 = Ok tokens /\ block_bits None tokens unlucky.
Proof.
  assert (Hby : Forall is_byte unlucky) by by repeat constructor.
  destruct (find_matches_covers unlucky 6 Hby ltac:(simpl; lia)) as (tokens & Ef & _ & Hok & Hr).
  split_and!; [done|done|by vm_compute|]. exists tokens. split; [done|]. apply fixed_block; [done|].
  by rewrite firstn_all in Hr.
Qed.
