(* ===== verification/GlobalOrder.v ===== *)
(** * Initialization order of module globals ([emitter_c.py])

    A module global whose initializer is not a constant gets a C function, and
    [__metalpy_init] calls these functions one after the other.  The order is a
    topological sort of "the initializer of [b] reads [a]", where a read counts
    when it is in the initializer itself or in a function the initializer calls
    with [ir.Call], directly or not ([transitive_global_reads_by_function]).
    [needed_by] is what the initializer reads when it runs, which may be more.  [str_order] and
    [fn_order] are the orders in which Python iterates over its sets. *)

From Stdlib Require Import Sorting.Sorted.
From S2P Require Import Prelude.

Local Open Scope monad_scope.

(** ** What the instructions of an initializer mention *)

(** [Const.value]; a float is its bit pattern. *)
Inductive ConstVal :=
| KNone
| KBool (b : bool)
| KInt (z : Z)
| KFloat (bits : Z)
| KText (s : string).

(** [ir.Operand]; a function is its identity. *)
Inductive GOperand :=
| GTemp (id : nat)
| GConst (value : ConstVal)
| GVariable (qualname : string) (is_global : bool)
| GFunctionRef (fn : nat).

(** What a field of an instruction holds: operands, lists and dicts of them,
    anything else. *)
#[warnings="-register-all"]
Inductive Field :=
| FOperand (o : GOperand)
| FList (items : list Field)
| FDict (items : list (string * Field))
| FOther.

Inductive Instr :=
| IDeclareTemp (temp : nat)
| IDeleteTemp (temp : nat)
| IAssign (dest src : GOperand)
| IAllocate (dest : nat) (cls_is_rcclass : bool) (fields : list (string * GOperand))
| ICall (target : nat) (fields : list Field)
| IOther (fields : list Field).

(** [getattr( instr, field.name ) for field in dataclasses.fields( instr )] *)
Definition instr_fields (i : Instr) : list Field :=
  match i with
  | IDeclareTemp t | IDeleteTemp t => [FOperand (GTemp t)]
  | IAssign dest src => [FOperand dest; FOperand src]
  | IAllocate dest _ fields => [FOperand (GTemp dest); FOther; FDict (map (fun f => (f.1, FOperand f.2)) fields)]
  | ICall _ fields => FOther :: fields
  | IOther fields => fields
  end.

Fixpoint walk_field (value : Field) : gset string :=
  match value with
  | FOperand (GVariable qualname true) => {[qualname]}
  | FOperand _ | FOther => ∅
  | FList items => ⋃ (map walk_field items)
  | FDict items => ⋃ (map (fun item => walk_field item.2) items)
  end.

Definition referenced_global_qualnames (instructions : list Instr) : gset string :=
  ⋃ (map (fun instr => ⋃ (map walk_field (instr_fields instr))) instructions).

(** [id( instr.target )] of the calls. *)
Fixpoint call_targets (instructions : list Instr) : gset nat :=
  match instructions with
  | [] => ∅
  | ICall target _ :: rest => {[target]} ∪ call_targets rest
  | _ :: rest => call_targets rest
  end.

(** ** Which globals get a call at all *)

Definition is_trivial_global_init (instructions : list Instr) : bool :=
  match instructions with [IAssign _ (GConst _)] => true | _ => false end.

(** [op.value is None or op.value == 0]: [False] and both float zeros equal 0. *)
Definition is_zero_const (op : GOperand) : bool :=
  match op with
  | GConst KNone | GConst (KBool false) => true
  | GConst (KInt z) => (z =? 0)%Z
  | GConst (KFloat bits) => (bits =? 0)%Z || (bits =? 2 ^ 63)%Z
  | _ => false
  end.

Definition is_temp_decl (i : Instr) : bool :=
  match i with IDeclareTemp _ | IDeleteTemp _ => true | _ => false end.

Definition skippable (i : Instr) : bool :=
  match i with
  | IAllocate _ cls_is_rcclass fields => negb cls_is_rcclass && forallb (fun f => is_zero_const f.2) fields
  | IAssign _ (GConst _) | IAssign _ (GTemp _) => true
  | _ => false
  end.

Definition global_init_is_all_zero_value_type (instructions : list Instr) : bool :=
  match rev (List.filter (fun i => negb (is_temp_decl i)) instructions) with
  | [] => true
  | IAssign _ (GTemp _) :: rest => forallb skippable (rev rest)
  | _ => false
  end.

(** ** Reads of a function, transitively *)

Record LoweredFunction := mkLoweredFunction { lf_function : nat; lf_instructions : list Instr }.

Record LoweredGlobal := mkLoweredGlobal {
  g_qualname : string;
  g_location : option string * option Z;
  g_instructions : list Instr;
}.

(** [{ id( lf.function ): lf.instructions for lf in compiler.functions }] *)
Definition instructions_by_fn_id (functions : list LoweredFunction) : gmap nat (list Instr) :=
  foldl (fun d lf => <[lf_function lf := lf_instructions lf]> d) ∅ functions.

(** The keys of that dict, in insertion order. *)
Definition fn_ids (functions : list LoweredFunction) : list nat :=
  foldl (fun acc lf => if bool_decide (lf_function lf ∈ acc) then acc else acc ++ [lf_function lf]) [] functions.

Section order.
Context (str_order : list string -> list string) (fn_order : list nat -> list nat).

(** The reads of each function known so far, and whether the pass changed them. *)
Abbreviation Closure := (gmap nat (gset string)).

Definition absorb (fn_id : nat) (s : Closure * bool) (callee_id : nat) : Closure * bool :=
  let '(closure, changed) := s in
  match closure !! callee_id with
  | None => s
  | Some callee_reads =>
      if bool_decide (callee_reads = ∅) || bool_decide (callee_reads ⊆ closure !!! fn_id) then s
      else (<[fn_id := closure !!! fn_id ∪ callee_reads]> closure, true)
  end.

(** One round of the [while changed] loop. *)
Definition absorb_calls (calls : nat -> gset nat) (s : Closure * bool) (fn_id : nat) : Closure * bool :=
  foldl (absorb fn_id) s (fn_order (elements (calls fn_id))).

Definition absorb_pass (ids : list nat) (calls : nat -> gset nat) (closure : Closure) : Closure * bool :=
  foldl (absorb_calls calls) (closure, false) ids.

Fixpoint absorb_all (fuel : nat) (ids : list nat) (calls : nat -> gset nat) (closure : Closure) : option Closure :=
  match fuel with
  | O => None
  | S fuel =>
      let '(closure', changed) := absorb_pass ids calls closure in
      if changed : bool then absorb_all fuel ids calls closure' else Some closure'
  end.

(** A round that changes something adds a read to some function. *)
Definition absorb_fuel (ids : list nat) (direct : Closure) : nat :=
  S (length ids * size (⋃ (map (fun fn_id => direct !!! fn_id) ids) : gset string)).

Definition calls_of (instrs : gmap nat (list Instr)) (fn_id : nat) : gset nat :=
  match instrs !! fn_id with Some l => call_targets l | None => ∅ end.

Definition transitive_global_reads_by_function (functions : list LoweredFunction) : option Closure :=
  let by_id := instructions_by_fn_id functions in
  let ids := fn_ids functions in
  let closure := referenced_global_qualnames <$> by_id in
  absorb_all (absorb_fuel ids closure) ids (calls_of by_id) closure.

(** What an initializer reads, itself or through what it calls. *)
Fixpoint referenced_global_qualnames_transitive (instructions : list Instr) (fn_closure : Closure)
    (found : gset string) : gset string :=
  match instructions with
  | [] => found
  | ICall target _ :: rest =>
      referenced_global_qualnames_transitive rest fn_closure (found ∪ default ∅ (fn_closure !! target))
  | _ :: rest => referenced_global_qualnames_transitive rest fn_closure found
  end.

Definition global_reads (fn_closure : Closure) (g : LoweredGlobal) : gset string :=
  referenced_global_qualnames_transitive (g_instructions g) fn_closure (referenced_global_qualnames (g_instructions g)).

(** ** The sort *)

Inductive order_error :=
| KeyError (key : string)
| OutOfFuel
| CircularGlobals (names : list string) (location : option string * option Z).

Definition callable_globals (globals : list LoweredGlobal) : list LoweredGlobal :=
  List.filter (fun g => negb (is_trivial_global_init (g_instructions g)) &&
                        negb (global_init_is_all_zero_value_type (g_instructions g))) globals.

(** [{ g.variable.qualname: g for g in callable_globals }] *)
Definition index_globals (globals : list LoweredGlobal) : gmap string LoweredGlobal :=
  index_by g_qualname globals.

(** [edges[a]]: the globals to be called after [a]; [indegree[b]]: how many
    globals must still be called before [b]. *)
Record Graph := mkGraph { edges : gmap string (gset string); indegree : gmap string Z }.

Definition empty_graph (globals : list LoweredGlobal) : Graph :=
  mkGraph (foldl (fun d g => <[g_qualname g := ∅]> d) ∅ globals)
          (foldl (fun d g => <[g_qualname g := 0%Z]> d) ∅ globals).

Definition dict_at {V} (key : string) (d : gmap string V) : result order_error V :=
  match d !! key with Some v => Ok v | None => Err (KeyError key) end.

Definition add_dependency (by_qualname : gmap string LoweredGlobal) (g : string) (gr : Graph) (dep_qualname : string) :
    result order_error Graph :=
  if bool_decide (dep_qualname = g) || bool_decide (by_qualname !! dep_qualname = None) then Ok gr
  else
    let? after := dict_at dep_qualname (edges gr) in
    if bool_decide (g ∈ after) then Ok gr
    else
      let? n := dict_at g (indegree gr) in
      Ok (mkGraph (<[dep_qualname := after ∪ {[g]}]> (edges gr)) (<[g := (n + 1)%Z]> (indegree gr))).

Definition add_dependencies (by_qualname : gmap string LoweredGlobal) (reads : LoweredGlobal -> gset string)
    (gr : Graph) (g : LoweredGlobal) : result order_error Graph :=
  result_fold (add_dependency by_qualname (g_qualname g)) gr (str_order (elements (reads g))).

(** [indegree[dependent] -= 1], and what becomes ready. *)
Definition release (by_qualname : gmap string LoweredGlobal) (s : gmap string Z * list LoweredGlobal) (dependent : string) :
    result order_error (gmap string Z * list LoweredGlobal) :=
  let '(indegree, ready) := s in
  let? n := dict_at dependent indegree in
  let indegree := <[dependent := (n - 1)%Z]> indegree in
  if (n - 1 =? 0)%Z then
    let? g := dict_at dependent by_qualname in Ok (indegree, ready ++ [g])
  else Ok (indegree, ready).

Fixpoint take_ready (fuel : nat) (by_qualname : gmap string LoweredGlobal) (edges : gmap string (gset string))
    (indegree : gmap string Z) (ready ordered : list LoweredGlobal) : result order_error (list LoweredGlobal) :=
  match fuel with
  | O => Err OutOfFuel
  | S fuel =>
      match ready with
      | [] => Ok ordered
      | g :: ready =>
          let? after := dict_at (g_qualname g) edges in
          let? s := result_fold (release by_qualname) (indegree, ready) (str_order (elements after)) in
          take_ready fuel by_qualname edges s.1 s.2 (ordered ++ [g])
      end
  end.

(** [indegree[ g ] == 0] *)
Fixpoint initially_ready (indegree : gmap string Z) (globals : list LoweredGlobal) : result order_error (list LoweredGlobal) :=
  match globals with
  | [] => Ok []
  | g :: globals =>
      let? n := dict_at (g_qualname g) indegree in
      let? rest := initially_ready indegree globals in
      Ok (if (n =? 0)%Z then g :: rest else rest)
  end.

Fixpoint insert_string (x : string) (l : list string) : list string :=
  match l with
  | [] => [x]
  | y :: l' => if String.leb x y then x :: l else y :: insert_string x l'
  end.

(** [sorted( ... )] *)
Definition sorted_strings (l : list string) : list string := foldr insert_string [] l.

Definition sort_globals (globals : list LoweredGlobal) (reads : LoweredGlobal -> gset string) :
    result order_error (list LoweredGlobal) :=
  let by_qualname := index_globals globals in
  let? gr := result_fold (add_dependencies by_qualname reads) (empty_graph globals) globals in
  let? ready := initially_ready (indegree gr) globals in
  let? ordered := take_ready (S (length globals)) by_qualname (edges gr) (indegree gr) ready [] in
  if bool_decide (length ordered = length globals) then Ok ordered
  else
    let ordered_qualnames : gset string := list_to_set (map g_qualname ordered) in
    let stuck := List.filter (fun q => negb (bool_decide (q ∈ ordered_qualnames))) (map g_qualname globals) in
    match stuck with
    | [] => Err (KeyError "stuck[0]")
    | first :: _ =>
        let? unresolved := dict_at first by_qualname in
        Err (CircularGlobals (sorted_strings stuck) (g_location unresolved))
    end.

Definition topologically_sort_globals (functions : list LoweredFunction) (globals : list LoweredGlobal) :
    result order_error (list LoweredGlobal) :=
  match transitive_global_reads_by_function functions with
  | Some fn_closure => sort_globals (callable_globals globals) (global_reads fn_closure)
  | None => Err OutOfFuel
  end.
End order.

(** ** Reads of a function: the specification *)

Definition instrs_of (functions : list LoweredFunction) (fn : nat) : list Instr :=
  default [] (instructions_by_fn_id functions !! fn).

(** [f]'s body calls [g]. *)
Definition calls_fn (functions : list LoweredFunction) (f g : nat) : Prop :=
  g ∈ calls_of (instructions_by_fn_id functions) f.

(** Running [f] may read the global [q]: some function reached from [f] by calls
    mentions it. *)
Definition reads_global (functions : list LoweredFunction) (f : nat) (q : string) : Prop :=
  exists g, rtc (calls_fn functions) f g /\ q ∈ referenced_global_qualnames (instrs_of functions g).

Abbreviation Closure := (gmap nat (gset string)).

Section total.
Implicit Types (c : Closure) (ids : list nat).

Definition total_reads ids c : nat := sum_list_with (fun k => size (c !!! k)) ids.

Lemma total_reads_mono ids c c' : (forall k, c !!! k ⊆ c' !!! k) -> total_reads ids c <= total_reads ids c'.
Proof.
  intros Hsub. unfold total_reads. induction ids as [|k ids IH]; simpl; [done|].
  pose proof (subseteq_size _ _ (Hsub k)). lia.
Qed.

Lemma total_reads_lt ids c c' k : (forall k, c !!! k ⊆ c' !!! k) -> k ∈ ids -> c !!! k <> c' !!! k ->
  total_reads ids c < total_reads ids c'.
Proof.
  intros Hsub Hk Hne. induction ids as [|i ids IH]; [by apply not_elem_of_nil in Hk|].
  pose proof (total_reads_mono ids c c' Hsub) as Hm. unfold total_reads in *. simpl.
  pose proof (subseteq_size _ _ (Hsub i)). apply elem_of_cons in Hk as [->|Hk].
  - assert (size (c !!! i) < size (c' !!! i)); [|lia]. apply subset_size. split; [done|].
    intros Hr. apply Hne. by apply set_eq_subseteq.
  - specialize (IH Hk). lia.
Qed.

Lemma total_reads_bound ids c (U : gset string) : (forall k, c !!! k ⊆ U) -> total_reads ids c <= length ids * size U.
Proof.
  intros Hsub. unfold total_reads. induction ids as [|k ids IH]; simpl; [done|].
  pose proof (subseteq_size _ _ (Hsub k)). lia.
Qed.
End total.

(** What a step of the loop may do: nothing, or add to some function's reads and
    say so. *)
Definition grows (ids : list nat) (s s' : Closure * bool) : Prop :=
  (forall k, s.1 !!! k ⊆ s'.1 !!! k) /\
  (s' = s \/ s'.2 = true /\ total_reads ids s.1 < total_reads ids s'.1).

Lemma grows_refl ids s : grows ids s s.
Proof. split; [done|by left]. Qed.

Lemma grows_trans ids s1 s2 s3 : grows ids s1 s2 -> grows ids s2 s3 -> grows ids s1 s3.
Proof.
  intros (Hs & Hc) (Hs' & Hc'). split.
  - intros k. by transitivity (s2.1 !!! k).
  - destruct Hc as [->|[Ht Hl]]; [done|]. right. destruct Hc' as [->|[Ht' Hl']]; [done|]. split; [done|lia].
Qed.

Lemma grows_fold {A} ids (f : Closure * bool -> A -> Closure * bool) l :
  (forall s x, x ∈ l -> grows ids s (f s x)) -> forall s, grows ids s (foldl f s l).
Proof.
  intros Hf. induction l as [|x l IH]; intros s; simpl; [apply grows_refl|].
  eapply grows_trans; [apply Hf; left|]. apply IH. intros s' y Hy. apply Hf. by right.
Qed.

(** A fold that ends with the flag down did nothing. *)
Lemma grows_fold_still {A} ids (f : Closure * bool -> A -> Closure * bool) l :
  (forall s x, x ∈ l -> grows ids s (f s x)) ->
  forall c c', foldl f (c, false) l = (c', false) -> c' = c /\ forall x, x ∈ l -> f (c, false) x = (c, false).
Proof.
  intros Hf. induction l as [|x l IH]; intros c c' E; simpl in E.
  - injection E as <-. split; [done|]. by intros x ?%not_elem_of_nil.
  - assert (Hx : f (c, false) x = (c, false)).
    { pose proof (Hf (c, false) x ltac:(left)) as (_ & [He|[Ht _]]); [done|].
      destruct (f (c, false) x) as [c1 b1]. simpl in Ht. subst b1. exfalso.
      pose proof (grows_fold ids f l ltac:(intros; apply Hf; by right) (c1, true)) as (_ & [He|[He _]]);
        rewrite E in He; done. }
    rewrite Hx in E. destruct (IH ltac:(intros; apply Hf; by right) c c' E) as [-> Hrest].
    split; [done|]. intros y [->|Hy]%elem_of_cons; [done|by apply Hrest].
Qed.

Section transitive.
Context (fn_order : list nat -> list nat) (fn_order_perm : forall l, fn_order l ≡ₚ l).
Context (ids : list nat) (calls : nat -> gset nat).

Lemma absorb_lookup fn (c : Closure) r k : c !!! k ⊆ <[fn := c !!! fn ∪ r]> c !!! k.
Proof.
  destruct (decide (k = fn)) as [->|Hne]; [rewrite lookup_total_insert_eq; set_solver|].
  by rewrite lookup_total_insert_ne.
Qed.

Lemma absorb_grows fn s callee : fn ∈ ids -> grows ids s (absorb fn s callee).
Proof.
  intros Hfn. destruct s as [c b]. unfold absorb. destruct (c !! callee) as [r|]; [|apply grows_refl].
  destruct (bool_decide (r = ∅)); simpl; [apply grows_refl|].
  case_bool_decide as Hr; [apply grows_refl|]. split; [intros k; apply absorb_lookup|right; split; [done|]].
  apply (total_reads_lt ids c _ fn); [intros k; apply absorb_lookup|done|]. simpl. rewrite lookup_total_insert_eq.
  intros E. apply Hr. rewrite E. set_solver.
Qed.

(** A call that adds nothing is one whose reads are there already. *)
Lemma absorb_still fn c callee : absorb fn (c, false) callee = (c, false) -> c !!! callee ⊆ c !!! fn.
Proof.
  unfold absorb. rewrite (lookup_total_alt c callee). destruct (c !! callee) as [r|]; simpl; [|set_solver].
  destruct (bool_decide_reflect (r = ∅)) as [->|]; [set_solver|]. simpl.
  destruct (bool_decide_reflect (r ⊆ c !!! fn)); [done|]. intros [=].
Qed.

Lemma absorb_sound (R : nat -> string -> Prop) fn callee s : (forall q, R callee q -> R fn q) ->
  (forall k q, q ∈ s.1 !!! k -> R k q) -> forall k q, q ∈ (absorb fn s callee).1 !!! k -> R k q.
Proof.
  intros Hcall Hs. destruct s as [c b]. unfold absorb. destruct (c !! callee) as [r|] eqn:E; [|done].
  case_match; [done|]. intros k q. simpl. destruct (decide (k = fn)) as [->|Hne].
  - rewrite lookup_total_insert_eq. intros [?|Hq]%elem_of_union; [by apply Hs|]. apply Hcall, Hs.
    simpl. by rewrite (lookup_total_correct _ _ _ E).
  - rewrite lookup_total_insert_ne by done. apply Hs.
Qed.

Lemma foldl_keeps {A B} (P : B -> Prop) (f : B -> A -> B) l :
  (forall s x, x ∈ l -> P s -> P (f s x)) -> forall s, P s -> P (foldl f s l).
Proof.
  intros Hf. induction l as [|x l IH]; intros s Hs; simpl; [done|].
  apply IH; [intros s' y Hy; apply Hf; by right|]. apply Hf; [left|done].
Qed.

Lemma elem_of_calls fn x : x ∈ fn_order (elements (calls fn)) <-> x ∈ calls fn.
Proof. by rewrite fn_order_perm, elem_of_elements. Qed.

Lemma absorb_calls_grows s fn : fn ∈ ids -> grows ids s (absorb_calls fn_order calls s fn).
Proof. intros Hfn. apply grows_fold. intros s' x _. by apply absorb_grows. Qed.

Lemma absorb_pass_grows c : grows ids (c, false) (absorb_pass fn_order ids calls c).
Proof. apply grows_fold. intros s fn. apply absorb_calls_grows. Qed.

Lemma absorb_pass_still c c' : absorb_pass fn_order ids calls c = (c', false) ->
  c' = c /\ forall f g, f ∈ ids -> g ∈ calls f -> c !!! g ⊆ c !!! f.
Proof.
  intros E. apply (grows_fold_still ids) in E as [-> Hstill]; [|intros; by apply absorb_calls_grows].
  split; [done|]. intros f g Hf Hg. specialize (Hstill f Hf).
  apply (grows_fold_still ids) in Hstill as [_ Hstill]; [|intros; by apply absorb_grows].
  apply absorb_still, Hstill. by apply elem_of_calls.
Qed.

Lemma absorb_pass_sound (R : nat -> string -> Prop) c : (forall f g q, f ∈ ids -> g ∈ calls f -> R g q -> R f q) ->
  (forall k q, q ∈ c !!! k -> R k q) -> forall k q, q ∈ (absorb_pass fn_order ids calls c).1 !!! k -> R k q.
Proof.
  intros HR Hc. unfold absorb_pass, absorb_calls.
  apply (foldl_keeps (fun s : Closure * bool => forall k q, q ∈ s.1 !!! k -> R k q)); [|done].
  intros s f Hf Hs. apply (foldl_keeps (fun s : Closure * bool => forall k q, q ∈ s.1 !!! k -> R k q)); [|done].
  intros s' g Hg%elem_of_calls Hs'. apply absorb_sound; [|done]. intros q. by apply HR.
Qed.

Lemma absorb_all_spec (R : nat -> string -> Prop) (U : gset string) fuel :
  (forall f g q, f ∈ ids -> g ∈ calls f -> R g q -> R f q) -> (forall f q, R f q -> q ∈ U) ->
  forall c, (forall k q, q ∈ c !!! k -> R k q) -> (length ids * size U - total_reads ids c < fuel)%nat ->
  exists c' : Closure, absorb_all fn_order fuel ids calls c = Some c' /\ (forall k, c !!! k ⊆ c' !!! k) /\
    (forall k q, q ∈ c' !!! k -> R k q) /\ forall f g, f ∈ ids -> g ∈ calls f -> c' !!! g ⊆ c' !!! f.
Proof.
  intros HR HU. induction fuel as [|fuel IH]; intros c Hc Hf; [lia|]. cbn [absorb_all].
  pose proof (absorb_pass_grows c) as (Hsub & Hch). pose proof (absorb_pass_sound R c HR Hc) as Hs.
  destruct (absorb_pass fn_order ids calls c) as [c1 b] eqn:E. simpl in *. destruct b.
  - destruct Hch as [He|[_ Hlt]]; [done|].
    pose proof (total_reads_bound ids c1 U) as Hb.
    destruct (IH c1) as (c' & E' & Hsub' & Hs' & Hcl); [done| |].
    { assert (total_reads ids c1 <= length ids * size U); [apply Hb; intros k q Hq; eapply HU; by apply Hs|]. lia. }
    exists c'. split_and!; [done| |done|done]. intros k. transitivity (c1 !!! k); [apply Hsub|apply Hsub'].
  - apply absorb_pass_still in E as [-> Hcl]. exists c. by split_and!.
Qed.
End transitive.

(** ** The dicts of the functions *)

Lemma fn_ids_elem functions k : k ∈ fn_ids functions <-> is_Some (instructions_by_fn_id functions !! k).
Proof.
  unfold instructions_by_fn_id. rewrite foldl_insert_lookup.
  assert (Hg : forall l acc, k ∈ foldl (fun acc lf => if bool_decide (lf_function lf ∈ acc) then acc else acc ++ [lf_function lf]) acc l
    <-> k ∈ acc \/ k ∈ map lf_function l).
  { induction l as [|x l IH]; intros acc; simpl; [by rewrite elem_of_nil; tauto|]. rewrite IH.
    case_bool_decide; rewrite ?elem_of_app, ?elem_of_cons, ?elem_of_nil; naive_solver. }
  unfold fn_ids. rewrite Hg, elem_of_nil, lookup_empty. split; intros [H|H]; [done|by right|by destruct H|by right].
Qed.

Lemma calls_fn_known functions f g : calls_fn functions f g -> f ∈ fn_ids functions.
Proof. unfold calls_fn, calls_of. rewrite fn_ids_elem. destruct (instructions_by_fn_id functions !! f); [eauto|set_solver]. Qed.

Lemma direct_reads functions f : (referenced_global_qualnames <$> instructions_by_fn_id functions) !!! f =
  referenced_global_qualnames (instrs_of functions f).
Proof.
  unfold instrs_of. rewrite lookup_total_alt, lookup_fmap.
  by destruct (instructions_by_fn_id functions !! f).
Qed.

Lemma reads_global_call functions f g q : calls_fn functions f g -> reads_global functions g q -> reads_global functions f q.
Proof. intros Hc (h & Hr & Hq). exists h. split; [by eapply rtc_l|done]. Qed.

(** What the fixed point is: the reads of a function are exactly those of the
    functions it reaches. *)
Lemma transitive_reads_spec fn_order functions : (forall l, fn_order l ≡ₚ l) ->
  exists closure, transitive_global_reads_by_function fn_order functions = Some closure /\
    forall f q, q ∈ closure !!! f <-> reads_global functions f q.
Proof.
  intros Hperm. unfold transitive_global_reads_by_function. set (by_id := instructions_by_fn_id functions).
  set (direct := referenced_global_qualnames <$> by_id). set (ids := fn_ids functions).
  set (U := ⋃ (map (fun fn_id => direct !!! fn_id) ids) : gset string).
  destruct (absorb_all_spec fn_order Hperm ids (calls_of by_id) (reads_global functions) U (absorb_fuel ids direct))
    with (c := direct) as (c' & E & Hsub & Hs & Hcl).
  - intros f g q _ Hg. by apply reads_global_call.
  - intros f q (g & _ & Hq). apply elem_of_union_list. exists (direct !!! g).
    rewrite <- direct_reads in Hq. split; [|done]. apply (list_elem_of_fmap_2 (fun fn_id => direct !!! fn_id)).
    apply fn_ids_elem. rewrite lookup_total_alt, lookup_fmap in Hq. fold by_id in Hq |- *.
    destruct (by_id !! g); [eauto|set_solver].
  - intros k q Hq. exists k. split; [done|]. by rewrite <- direct_reads.
  - unfold absorb_fuel. fold U. lia.
  - exists c'. split; [done|]. intros f q. split; [apply Hs|]. intros (g & Hr & Hq). rewrite <- direct_reads in Hq.
    apply Hsub in Hq. clear -Hr Hq Hcl. induction Hr as [f|f h g Hc _ IH]; [done|].
    eapply Hcl; [by eapply calls_fn_known|exact Hc|by apply IH].
Qed.

(** What an initializer may read. *)
Definition initializer_reads (functions : list LoweredFunction) (g : LoweredGlobal) (q : string) : Prop :=
  q ∈ referenced_global_qualnames (g_instructions g) \/
  exists f, f ∈ call_targets (g_instructions g) /\ reads_global functions f q.

Lemma referenced_transitive_spec c instructions : forall found q,
  q ∈ referenced_global_qualnames_transitive instructions c found <->
  q ∈ found \/ exists f, f ∈ call_targets instructions /\ q ∈ c !!! f.
Proof.
  assert (Hc : forall f, default ∅ (c !! f) = c !!! f).
  { intros f. rewrite lookup_total_alt. by destruct (c !! f). }
  induction instructions as [|i l IH]; intros found q; simpl; [set_solver|].
  destruct i; simpl; rewrite IH; try done. rewrite elem_of_union, Hc. set_solver.
Qed.

Lemma global_reads_spec functions c g q : (forall f q, q ∈ c !!! f <-> reads_global functions f q) ->
  q ∈ global_reads c g <-> initializer_reads functions g q.
Proof. intros Hc. unfold global_reads, initializer_reads. rewrite referenced_transitive_spec. by setoid_rewrite Hc. Qed.

(** ** Finite relations without a source have a cycle *)

Lemma sorted_dup {A} `{EqDecision A} (R : relation A) l :
  StronglySorted R l -> ~ NoDup l -> exists x, x ∈ l /\ R x x.
Proof.
  induction 1 as [|x l Hs IH Hx]; intros Hd; [by destruct Hd; constructor|].
  destruct (decide (x ∈ l)) as [Hin|Hni].
  - exists x. split; [left|]. rewrite Forall_forall in Hx. by apply Hx.
  - destruct IH as (y & Hy & Hr); [|exists y; split; [by right|done]]. intros Hn. apply Hd. by constructor.
Qed.

Lemma no_source_cycle (R : relation string) (S : gset string) : S <> ∅ ->
  (forall b, b ∈ S -> exists a, a ∈ S /\ R a b) -> exists a, a ∈ S /\ tc R a a.
Proof.
  intros Hne Hpred.
  assert (Hl : forall n, exists l, length l = n /\ Forall (.∈ S) l /\ StronglySorted (tc R) l).
  { induction n as [|n (l & Hn & Hin & Hs)]; [exists []; split_and!; [done|constructor..]|].
    destruct l as [|h t].
    - apply set_choose_L in Hne as [x Hx]. exists [x]. split_and!; [simpl in *; lia|by repeat constructor|repeat constructor].
    - inversion Hin; subst. inversion Hs as [|? ? Hs' Hh]; subst. destruct (Hpred h) as (a & Ha & Hr); [done|].
      exists (a :: h :: t). split_and!; [done|by constructor|]. constructor; [done|].
      constructor; [by apply tc_once|]. eapply List.Forall_impl; [|exact Hh]. intros y Hy. simpl in Hy. by eapply tc_l. }
  destruct (Hl (Datatypes.S (size S))) as (l & Hn & Hin & Hs). destruct (sorted_dup _ l Hs) as (x & Hx & Hr).
  - intros Hd. assert (size (list_to_set l : gset string) <= size S)%nat; [|rewrite size_list_to_set in *; [lia|done]].
    apply subseteq_size. intros y Hy%elem_of_list_to_set. rewrite Forall_forall in Hin. by apply Hin.
  - exists x. split; [|done]. rewrite Forall_forall in Hin. by apply Hin.
Qed.

Lemma tc_mono {A} (R R' : relation A) a b : (forall x y, R x y -> R' x y) -> tc R a b -> tc R' a b.
Proof. intros Hs. induction 1 as [x y H|x y z H _ IH]; [by apply tc_once, Hs|eapply tc_l; [by apply Hs|done]]. Qed.

(** A list in which everything comes after what precedes it has no cycle. *)
Definition in_order {A} (name : A -> string) (before : string -> string -> Prop) (l : list A) : Prop :=
  forall l1 g l2, l = l1 ++ g :: l2 -> forall a, before a (name g) -> a ∈ map name l1.

Lemma in_order_acyclic {A} (name : A -> string) before l : in_order name before l -> NoDup (map name l) ->
  (forall a b, before a b -> b ∈ map name l) -> forall a, ~ tc before a a.
Proof.
  intros Ho Hnd Hin.
  assert (Hpos : forall a b, tc before a b -> forall i j : nat, map name l !! i = Some a -> map name l !! j = Some b -> (i < j)%nat).
  { assert (Hstep : forall a b i j, before a b -> map name l !! i = Some a -> map name l !! j = Some b -> (i < j)%nat).
    { intros a b i j Hb Hi Hj. apply list_lookup_fmap_Some in Hj as (g & -> & Hg).
      pose proof (Ho _ _ _ (eq_sym (take_drop_middle _ _ _ Hg)) a Hb) as (g' & Ea & Hk)%list_elem_of_fmap.
      apply list_elem_of_lookup in Hk as [k Hk]. pose proof (lookup_lt_Some _ _ _ Hk) as Hlt.
      rewrite length_take in Hlt. rewrite lookup_take_lt in Hk by lia.
      assert (i = k); [|lia]. eapply NoDup_lookup; [exact Hnd|exact Hi|]. rewrite Ea. by apply list_lookup_fmap_Some_2. }
    intros a b Hab. induction Hab as [a b Hb|a b c Hb Hbc IH]; intros i j Hi Hj; [by eapply Hstep|].
    destruct (proj1 (list_elem_of_lookup _ _) (Hin _ _ Hb)) as [k Hk].
    pose proof (Hstep _ _ _ _ Hb Hi Hk). specialize (IH _ _ Hk Hj). lia. }
  intros a Ha. assert (Hm : a ∈ map name l).
  { clear -Ha Hin. induction Ha as [x y Hb|x y z Hb _ IH]; [by eapply Hin|done]. }
  apply list_elem_of_lookup in Hm as [i Hi]. pose proof (Hpos _ _ Ha _ _ Hi Hi). lia.
Qed.

(** ** The dependency graph *)

Section sort.
Context (str_order : list string -> list string) (str_order_perm : forall l, str_order l ≡ₚ l).
Context (globals : list LoweredGlobal) (names_distinct : NoDup (map g_qualname globals)).
Context (reads : LoweredGlobal -> gset string).

(** [a] is called before [b] because [b]'s initializer reads it. *)
Definition reads_before (a b : string) : Prop :=
  a <> b /\ a ∈ map g_qualname globals /\ exists g, g ∈ globals /\ g_qualname g = b /\ a ∈ reads g.

Lemma index_known k : is_Some (index_globals globals !! k) <-> k ∈ map g_qualname globals.
Proof. apply index_by_known. Qed.

Lemma index_lookup k g : index_globals globals !! k = Some g <-> g ∈ globals /\ g_qualname g = k.
Proof. by apply index_by_lookup. Qed.

(** The graph holds the dependencies [pr]. *)
Definition holds (pr : string -> string -> Prop) (gr : Graph) : Prop :=
  (forall a, a ∈ map g_qualname globals -> exists after, edges gr !! a = Some after /\ forall b, b ∈ after <-> pr a b) /\
  (forall b, b ∈ map g_qualname globals -> exists before : gset string,
     indegree gr !! b = Some (Z.of_nat (size before)) /\ forall a, a ∈ before <-> pr a b).

Lemma holds_ext pr pr' gr : (forall a b, pr a b <-> pr' a b) -> holds pr gr -> holds pr' gr.
Proof. intros He [H1 H2]. unfold holds. setoid_rewrite <- He. done. Qed.

Lemma foldl_insert_const {V} (v : V) l : forall (m : gmap string V) k,
  (forall w, m !! k = Some w -> w = v) -> k ∈ map g_qualname l \/ is_Some (m !! k) ->
  foldl (fun d g => <[g_qualname g := v]> d) m l !! k = Some v.
Proof.
  induction l as [|g l IH]; intros m k Hm Hk; simpl in *.
  - destruct Hk as [Hk|[w Hw]]; [by apply not_elem_of_nil in Hk|]. rewrite Hw. by rewrite (Hm _ Hw).
  - apply IH.
    + intros w [[_ <-]|[_ Hw]]%lookup_insert_Some; [done|by apply Hm].
    + rewrite lookup_insert_is_Some. apply or_comm, or_assoc. rewrite elem_of_cons in Hk.
      destruct (decide (g_qualname g = k)); naive_solver.
Qed.

Lemma empty_graph_holds : holds (fun _ _ => False) (empty_graph globals).
Proof.
  split.
  - intros a Ha. exists ∅. split; [|set_solver]. apply foldl_insert_const; [by intros w; rewrite lookup_empty|by left].
  - intros b Hb. exists ∅. split; [|set_solver]. rewrite size_empty.
    apply foldl_insert_const; [by intros w; rewrite lookup_empty|by left].
Qed.

Lemma add_dependency_holds g pr gr dep : g ∈ map g_qualname globals -> holds pr gr ->
  exists gr', add_dependency (index_globals globals) g gr dep = Ok gr' /\
    holds (fun a b => pr a b \/ a = dep /\ b = g /\ a <> b /\ a ∈ map g_qualname globals) gr'.
Proof.
  intros Hg [Hedges Hin]. unfold add_dependency. rewrite <- bool_decide_or. case_bool_decide as Hskip.
  { exists gr. split; [done|]. eapply holds_ext; [|by split]. intros a b. split; [by left|].
    intros [|(-> & -> & Hne & Hk)]; [done|]. apply index_known in Hk as [x Hx]. destruct Hskip; [done|congruence]. }
  assert (Hne : dep <> g) by (intros ->; destruct Hskip; by left).
  assert (Hdep : dep ∈ map g_qualname globals).
  { apply index_known. destruct (index_globals globals !! dep) eqn:E; [eauto|]. destruct Hskip. by right. }
  destruct (Hedges dep Hdep) as (after & Ea & Hafter). unfold dict_at. rewrite Ea. cbn [result_bind].
  case_bool_decide as Hb.
  { exists gr. split; [done|]. eapply holds_ext; [|by split]. intros a b. split; [by left|].
    intros [|(-> & -> & _)]; [done|by apply Hafter]. }
  destruct (Hin g Hg) as (before & Eb & Hbefore). rewrite Eb. cbn [result_bind]. eexists. split; [done|]. split; simpl.
  - intros a Ha. destruct (decide (a = dep)) as [->|Ha'].
    + exists (after ∪ {[g]}). rewrite lookup_insert_eq. split; [done|]. intros b. rewrite elem_of_union, Hafter. set_solver.
    + rewrite lookup_insert_ne by done. destruct (Hedges a Ha) as (x & Ex & Hx). exists x. split; [done|].
      intros b. rewrite Hx. naive_solver.
  - intros b Hb'. destruct (decide (b = g)) as [->|Hb''].
    + exists (before ∪ {[dep]}). rewrite lookup_insert_eq. split.
      * rewrite size_union, size_singleton; [f_equal; lia|]. apply disjoint_singleton_r.
        intros Hd. apply Hb, Hafter, Hbefore, Hd.
      * intros a. rewrite elem_of_union, Hbefore. set_solver.
    + rewrite lookup_insert_ne by done. destruct (Hin b Hb') as (x & Ex & Hx). exists x. split; [done|].
      intros a. rewrite Hx. naive_solver.
Qed.

Lemma elem_of_order a X : a ∈ str_order (elements X) <-> a ∈ (X : gset string).
Proof. by rewrite str_order_perm, elem_of_elements. Qed.

Lemma build_graph_holds : exists gr,
  result_fold (add_dependencies str_order (index_globals globals) reads) (empty_graph globals) globals = Ok gr /\
  holds reads_before gr.
Proof.
  destruct (result_fold_ok (fun done gr => holds (fun a b =>
      a <> b /\ a ∈ map g_qualname globals /\ exists g, g ∈ done /\ g_qualname g = b /\ a ∈ reads g) gr)
    (add_dependencies str_order (index_globals globals) reads) globals) with (a := empty_graph globals) as (gr & E & H).
  - intros done g todo gr Hl Hgr. unfold add_dependencies. assert (Hg : g ∈ globals) by (rewrite Hl; set_solver).
    destruct (result_fold_ok (fun deps gr => holds (fun a b => (a <> b /\ a ∈ map g_qualname globals /\
        exists g', g' ∈ done /\ g_qualname g' = b /\ a ∈ reads g') \/ a ∈ deps /\ b = g_qualname g /\ a <> b /\ a ∈ map g_qualname globals) gr)
      (add_dependency (index_globals globals) (g_qualname g)) (str_order (elements (reads g)))) with (a := gr) as (gr' & E & H).
    + intros deps dep todo' gr1 _ H. eapply (add_dependency_holds (g_qualname g)) with (dep := dep) in H as (gr2 & E2 & H2);
        [|by apply list_elem_of_fmap_2]. exists gr2. split; [done|]. eapply holds_ext; [|exact H2].
      intros a b. rewrite elem_of_app, list_elem_of_singleton. naive_solver.
    + eapply holds_ext; [|exact Hgr]. intros a b. rewrite elem_of_nil. naive_solver.
    + exists gr'. split; [done|]. eapply holds_ext; [|exact H]. intros a b. cbv beta. rewrite elem_of_order.
      setoid_rewrite elem_of_app. setoid_rewrite list_elem_of_singleton. naive_solver.
  - eapply holds_ext; [|exact empty_graph_holds]. intros a b. setoid_rewrite elem_of_nil. naive_solver.
  - exists gr. by split.
Qed.

(** ** The queue *)

Lemma snoc_split {A} (l : list A) g l1 g' l2 : l ++ [g] = l1 ++ g' :: l2 ->
  (exists l2', l = l1 ++ g' :: l2') \/ l1 = l /\ g' = g.
Proof.
  destruct l2 as [|y l2 _] using rev_ind; intros E.
  - apply app_inj_tail in E as [-> ->]. by right.
  - left. exists l2. rewrite app_comm_cons, app_assoc in E. by apply app_inj_tail in E as [-> _].
Qed.


(** [ordered] has been called, [ready] waits for nothing that has not been. *)
Record queue_ok (indegree : gmap string Z) (ready ordered : list LoweredGlobal) : Prop := {
  queue_distinct : NoDup (map g_qualname (ordered ++ ready));
  queue_known : forall g, g ∈ ordered ++ ready -> g ∈ globals;
  queue_counts : forall b, b ∈ map g_qualname globals -> exists waiting : gset string,
    indegree !! b = Some (Z.of_nat (size waiting)) /\
    forall a, a ∈ waiting <-> reads_before a b /\ a ∉ map g_qualname ordered;
  queue_ready : forall g, g ∈ globals ->
    g ∈ ordered ++ ready <-> forall a, reads_before a (g_qualname g) -> a ∈ map g_qualname ordered;
}.

(** The same while the dependents of [x], the last of [ordered], are being told. *)
Record releasing (x : string) (ordered : list LoweredGlobal) (told : list string)
    (s : gmap string Z * list LoweredGlobal) : Prop := {
  releasing_distinct : NoDup (map g_qualname (ordered ++ s.2));
  releasing_known : forall g, g ∈ ordered ++ s.2 -> g ∈ globals;
  releasing_counts : forall b, b ∈ map g_qualname globals -> exists waiting : gset string,
    s.1 !! b = Some (Z.of_nat (size waiting)) /\
    forall a, a ∈ waiting <-> reads_before a b /\ (a ∉ map g_qualname ordered \/ a = x /\ b ∉ told);
  releasing_ready : forall g, g ∈ globals ->
    g ∈ ordered ++ s.2 <-> forall a, reads_before a (g_qualname g) ->
      a ∈ map g_qualname ordered /\ (a = x -> g_qualname g ∈ told);
}.

Lemma release_step x ordered told b s : x ∈ map g_qualname ordered -> reads_before x b -> b ∉ told ->
  releasing x ordered told s ->
  exists s', release (index_globals globals) s b = Ok s' /\ releasing x ordered (told ++ [b]) s'.
Proof.
  intros Hx Hb Hnt [Hd Hk Hc Hr]. destruct s as [ind ready]. simpl in *.
  assert (Hbn : b ∈ map g_qualname globals).
  { destruct Hb as (_ & _ & g & Hg & <- & _). by apply list_elem_of_fmap_2. }
  destruct (Hc b Hbn) as (waiting & Ew & Hw). unfold release, dict_at. rewrite Ew. cbn [result_bind].
  assert (Hxw : x ∈ waiting) by (apply Hw; split; [done|by right]).
  assert (Hsz : (Z.of_nat (size waiting) - 1)%Z = Z.of_nat (size (waiting ∖ {[x]}))).
  { rewrite size_difference, size_singleton by set_solver.
    assert (size waiting <> 0)%nat; [|lia]. intros E%size_empty_inv. set_solver. }
  rewrite Hsz. set (ind' := <[b := _]> ind).
  assert (Hc' : forall b', b' ∈ map g_qualname globals -> exists waiting : gset string,
    ind' !! b' = Some (Z.of_nat (size waiting)) /\
    forall a, a ∈ waiting <-> reads_before a b' /\ (a ∉ map g_qualname ordered \/ a = x /\ b' ∉ told ++ [b])).
  { intros b' Hb'. unfold ind'. destruct (decide (b' = b)) as [->|Hne].
    - exists (waiting ∖ {[x]}). rewrite lookup_insert_eq. split; [done|]. intros a.
      rewrite elem_of_difference, Hw, elem_of_singleton, elem_of_app, list_elem_of_singleton.
      destruct (decide (a = x)) as [->|]; naive_solver.
    - destruct (Hc b' Hb') as (w & E & Hw'). exists w. rewrite lookup_insert_ne by done. split; [done|].
      intros a. rewrite Hw', elem_of_app, list_elem_of_singleton. naive_solver. }
  assert (Hsame : forall g, g ∈ globals -> g_qualname g <> b ->
    (forall a, reads_before a (g_qualname g) -> a ∈ map g_qualname ordered /\ (a = x -> g_qualname g ∈ told)) <->
    (forall a, reads_before a (g_qualname g) -> a ∈ map g_qualname ordered /\ (a = x -> g_qualname g ∈ told ++ [b]))).
  { intros g _ Hne. setoid_rewrite elem_of_app. setoid_rewrite list_elem_of_singleton. naive_solver. }
  assert (Hdone : size (waiting ∖ {[x]}) = 0%nat <->
    forall a, reads_before a b -> a ∈ map g_qualname ordered /\ (a = x -> b ∈ told ++ [b])).
  { rewrite size_empty_iff, elem_of_equiv_empty. setoid_rewrite elem_of_difference. setoid_rewrite Hw.
    setoid_rewrite elem_of_singleton. setoid_rewrite elem_of_app. setoid_rewrite list_elem_of_singleton. split.
    - intros He a Ha. split; [|by right]. destruct (decide (a ∈ map g_qualname ordered)) as [|Hna]; [done|].
      destruct (He a). split; [split; [done|by left]|]. by intros ->.
    - intros Ha a [[Hr' [Hn|[Hn _]]] Hne]; [|done]. by apply Hn, Ha. }
  assert (Hnot : forall g, g ∈ ordered ++ ready -> g_qualname g <> b).
  { intros g Hg Hgb. pose proof (proj1 (Hr g (Hk g Hg)) Hg x) as Hgx. rewrite Hgb in Hgx. by apply Hnt, Hgx. }
  destruct (Z.eqb_spec (Z.of_nat (size (waiting ∖ {[x]}))) 0) as [Hz|Hz].
  - destruct (proj2 (index_known b) Hbn) as [gb Egb]. rewrite Egb. cbn [result_bind].
    apply index_lookup in Egb as [Hgb Ebq]. eexists. split; [done|]. split; simpl; [| |exact Hc'|].
    + rewrite app_assoc, map_app. apply NoDup_app. split_and!; [done| |apply NoDup_singleton].
      intros y (g & -> & Hg)%list_elem_of_fmap Hy%list_elem_of_singleton. apply (Hnot g Hg). congruence.
    + intros g. rewrite app_assoc, elem_of_app, list_elem_of_singleton. intros [Hg| ->]; [by apply Hk|done].
    + intros g Hg. rewrite app_assoc, elem_of_app, list_elem_of_singleton. destruct (decide (g_qualname g = b)) as [Eg|Hne].
      * assert (g = gb) as ->.
        { assert (Hi : index_globals globals !! b = Some g) by (by apply index_lookup).
          assert (Hi' : index_globals globals !! b = Some gb) by (by apply index_lookup). congruence. }
        split; [intros _|by right]. rewrite Ebq. apply Hdone. lia.
      * rewrite Hr, Hsame by done. split; [|by left]. intros [?|E]; [done|congruence].
  - eexists. split; [done|]. split; simpl; [done|done|exact Hc'|]. intros g Hg.
    destruct (decide (g_qualname g = b)) as [Eg|Hne]; [|by rewrite Hr, Hsame].
    split; [intros Hin; by apply Hnot in Hin|]. rewrite Eg. intros Ha%Hdone. lia.
Qed.

Lemma take_ready_ok gr fuel : holds reads_before gr -> forall ind ready ordered,
  queue_ok ind ready ordered -> in_order g_qualname reads_before ordered -> (length globals < length ordered + fuel)%nat ->
  exists ordered' ind', take_ready str_order fuel (index_globals globals) (edges gr) ind ready ordered = Ok ordered' /\
    queue_ok ind' [] ordered' /\ in_order g_qualname reads_before ordered'.
Proof.
  intros [Hedges _]. induction fuel as [|fuel IH]; intros ind ready ordered Hq Ho Hf.
  - exfalso. pose proof (queue_distinct _ _ _ Hq) as Hd. rewrite map_app in Hd. apply NoDup_app in Hd as (Hd & _).
    assert (length (map g_qualname ordered) <= length (map g_qualname globals))%nat as Hle.
    { apply submseteq_length, NoDup_submseteq; [done|]. intros y (g & -> & Hg)%list_elem_of_fmap.
      apply list_elem_of_fmap_2. apply (queue_known _ _ _ Hq). by apply elem_of_app; left. }
    rewrite !length_map in Hle. lia.
  - cbn [take_ready]. destruct ready as [|g ready]; [by exists ordered, ind|].
    assert (Hg : g ∈ globals) by (apply (queue_known _ _ _ Hq); set_solver).
    destruct (Hedges (g_qualname g)) as (after & Ea & Hafter); [by apply list_elem_of_fmap_2|].
    unfold dict_at. rewrite Ea. cbn [result_bind].
    assert (Hni : g_qualname g ∉ map g_qualname ordered).
    { pose proof (queue_distinct _ _ _ Hq) as Hd. rewrite map_app in Hd. apply NoDup_app in Hd as (_ & Hd & _).
      intros Hin. apply (Hd _ Hin). simpl. left. }
    assert (Hgo : forall a, reads_before a (g_qualname g) -> a ∈ map g_qualname ordered).
    { apply (queue_ready _ _ _ Hq); [done|set_solver]. }
    destruct (result_fold_ok (releasing (g_qualname g) (ordered ++ [g])) (release (index_globals globals))
      (str_order (elements after))) with (a := (ind, ready)) as ([ind' ready'] & E & Hrel).
    + intros told b todo s Hl Hs. apply release_step; [| | |done].
      * rewrite map_app. set_solver.
      * apply Hafter, elem_of_order. rewrite Hl. set_solver.
      * assert (Hd : NoDup (str_order (elements after))) by (rewrite str_order_perm; apply NoDup_elements).
        rewrite Hl in Hd. apply NoDup_app in Hd as (_ & Hd & _). intros Hb. apply (Hd _ Hb). left.
    + destruct Hq as [Hd Hk Hc Hr]. split; simpl; rewrite <- ?app_assoc; simpl; [done|done| |].
      * intros b Hb. destruct (Hc b Hb) as (w & Ew & Hw). exists w. split; [done|]. intros a. rewrite Hw, map_app. cbn [map].
        rewrite elem_of_app, list_elem_of_singleton, elem_of_nil. destruct (decide (a = g_qualname g)); naive_solver.
      * intros g' Hg'. rewrite Hr by done. setoid_rewrite map_app. cbn [map]. setoid_rewrite elem_of_app.
        setoid_rewrite list_elem_of_singleton. setoid_rewrite elem_of_nil. split; [|naive_solver].
        intros Ha a Hra. specialize (Ha a Hra). split; [by left|]. by intros ->.
    + rewrite E. cbn [result_bind fst snd]. apply IH.
      * destruct Hrel as [Hd Hk Hc Hr]. split; simpl in *; [done|done| |].
        -- intros b Hb. destruct (Hc b Hb) as (w & Ew & Hw). exists w. split; [done|]. intros a. rewrite Hw, elem_of_order, Hafter.
           naive_solver.
        -- intros g' Hg'. rewrite Hr by done. setoid_rewrite elem_of_order. setoid_rewrite Hafter. naive_solver.
      * intros l1 g' l2 El a Ha. apply snoc_split in El as [(l2' & ->)|[-> ->]].
        -- by eapply Ho.
        -- by apply Hgo.
      * rewrite length_app. simpl. lia.
Qed.

Lemma initially_ready_spec ind l : (forall g, g ∈ l -> is_Some (ind !! g_qualname g)) ->
  initially_ready ind l = Ok (List.filter (fun g => bool_decide (ind !! g_qualname g = Some 0%Z)) l).
Proof.
  induction l as [|g l IH]; intros Hl; simpl; [done|]. unfold dict_at. destruct (Hl g) as [n En]; [left|].
  rewrite En. cbn [result_bind]. rewrite IH by (intros; apply Hl; by right). cbn [result_bind].
  destruct (Z.eqb_spec n 0) as [->|Hn]; [by rewrite bool_decide_true|]. rewrite bool_decide_false; [done|congruence].
Qed.

Lemma initial_queue gr : holds reads_before gr ->
  exists ready, initially_ready (indegree gr) globals = Ok ready /\ queue_ok (indegree gr) ready [].
Proof.
  intros [_ Hin]. rewrite initially_ready_spec.
  2: { intros g Hg. destruct (Hin (g_qualname g)) as (w & -> & _); [by apply list_elem_of_fmap_2|done]. }
  eexists. split; [done|]. split; simpl.
  - clear -names_distinct. induction globals as [|g l IH]; simpl in *; [constructor|].
    apply NoDup_cons in names_distinct as [Hn Hd]. specialize (IH Hd). case_bool_decide; [|done]. simpl.
    constructor; [|done]. intros (g' & E & Hg'%list_elem_of_In%filter_In)%list_elem_of_fmap. apply Hn. rewrite E.
    apply list_elem_of_fmap_2, list_elem_of_In. by destruct Hg'.
  - intros g Hg%list_elem_of_In%filter_In. by apply list_elem_of_In, Hg.
  - intros b Hb. destruct (Hin b Hb) as (w & E & Hw). exists w. split; [done|]. intros a. rewrite Hw, elem_of_nil. naive_solver.
  - intros g Hg. rewrite list_elem_of_In, filter_In, <- list_elem_of_In, bool_decide_eq_true.
    destruct (Hin (g_qualname g)) as (w & E & Hw); [by apply list_elem_of_fmap_2|]. rewrite E. split.
    + intros [_ Hz] a Ha%Hw. assert (size w = 0%nat) as Hs%size_empty_iff by (injection Hz; lia). set_solver.
    + intros Ha. split; [done|]. do 2 f_equal. enough (size w = 0%nat) by lia. apply size_empty_iff, elem_of_equiv_empty.
      intros a Hin'%Hw. by apply Ha, not_elem_of_nil in Hin'.
Qed.

Lemma elem_of_sorted x l : x ∈ sorted_strings l <-> x ∈ l.
Proof.
  assert (Hi : forall y l, x ∈ insert_string y l <-> x = y \/ x ∈ l).
  { intros y l0. induction l0 as [|z l' IH]; cbn [insert_string]; [by rewrite elem_of_cons|].
    destruct (String.leb y z); rewrite !elem_of_cons; [done|]. rewrite IH. naive_solver. }
  induction l as [|y l IH]; [done|]. change (sorted_strings (y :: l)) with (insert_string y (sorted_strings l)).
  by rewrite Hi, IH, elem_of_cons.
Qed.

Lemma sort_globals_spec :
  (exists ordered, sort_globals str_order globals reads = Ok ordered /\ ordered ≡ₚ globals /\
     in_order g_qualname reads_before ordered) \/
  (exists names location, sort_globals str_order globals reads = Err (CircularGlobals names location) /\
     exists a, a ∈ names /\ tc reads_before a a).
Proof.
  destruct build_graph_holds as (gr & Eg & Hgr). destruct (initial_queue gr Hgr) as (ready & Er & Hq).
  destruct (take_ready_ok gr (S (length globals)) Hgr _ _ _ Hq) as (ordered & ind & Eo & [Hd Hk Hc Hr] & Ho).
  { intros l1 g l2 E. by destruct l1. }
  { simpl. lia. }
  unfold sort_globals. rewrite Eg. cbn [result_bind]. rewrite Er. cbn [result_bind]. rewrite Eo. cbn [result_bind].
  rewrite app_nil_r in *. assert (Hsub : ordered ⊆+ globals).
  { apply NoDup_submseteq; [|done]. by eapply NoDup_fmap_1. }
  case_bool_decide as Hlen.
  { left. exists ordered. split_and!; [done| |done]. by apply submseteq_length_Permutation; [|lia]. }
  right. set (stuck := List.filter _ _).
  assert (Hstuck : forall q, q ∈ stuck <-> q ∈ map g_qualname globals /\ q ∉ map g_qualname ordered).
  { intros q. unfold stuck. rewrite list_elem_of_In, filter_In, negb_true_iff, bool_decide_eq_false, elem_of_list_to_set.
    by rewrite <- list_elem_of_In. }
  assert (Hne : stuck <> []).
  { intros En. apply Hlen, Permutation_length, submseteq_length_Permutation; [done|].
    rewrite <- (length_map g_qualname globals), <- (length_map g_qualname ordered). apply submseteq_length.
    apply NoDup_submseteq; [done|]. intros q Hq'. destruct (decide (q ∈ map g_qualname ordered)) as [|Hn]; [done|].
    assert (q ∈ stuck) by (by apply Hstuck). rewrite En in H. by apply not_elem_of_nil in H. }
  destruct stuck as [|first rest] eqn:Es; [done|]. rewrite <- Es in *.
  destruct (proj2 (index_known first)) as [u Eu]; [apply Hstuck; rewrite Es; left|].
  unfold dict_at. rewrite Eu. cbn [result_bind]. do 2 eexists. split; [done|].
  destruct (no_source_cycle reads_before (list_to_set stuck)) as (a & Ha & Hcyc).
  - rewrite Es. simpl. set_solver.
  - intros b Hb%elem_of_list_to_set%Hstuck. destruct Hb as [Hb Hn].
    apply list_elem_of_fmap in Hb as (g & -> & Hg). destruct (Hc (g_qualname g)) as (waiting & _ & Hw); [by apply list_elem_of_fmap_2|].
    destruct (decide (waiting = ∅)) as [->|Hwne].
    + destruct Hn. apply list_elem_of_fmap_2, Hr; [done|]. intros a Ha.
      destruct (decide (a ∈ map g_qualname ordered)); [done|]. assert (a ∈ (∅ : gset string)) by (by apply Hw). set_solver.
    + apply set_choose_L in Hwne as [a [Hra Hna]%Hw]. exists a. split; [|done]. apply elem_of_list_to_set, Hstuck.
      split; [apply Hra|done].
  - exists a. split; [|done]. apply elem_of_sorted. by apply elem_of_list_to_set in Ha.
Qed.
End sort.

(** ** The initialization order *)

Lemma filter_names_NoDup (f : LoweredGlobal -> bool) l : NoDup (map g_qualname l) -> NoDup (map g_qualname (List.filter f l)).
Proof.
  induction l as [|g l IH]; simpl; [done|]. intros [Hn Hd]%NoDup_cons. destruct (f g); [|by apply IH].
  simpl. constructor; [|by apply IH]. intros (g' & E & Hg'%list_elem_of_In%filter_In)%list_elem_of_fmap.
  apply Hn. rewrite E. apply list_elem_of_fmap_2, list_elem_of_In. by destruct Hg'.
Qed.

(** [a]'s initializer must run before [b]'s: [b]'s reads [a]. *)
Definition must_precede (functions : list LoweredFunction) (todo : list LoweredGlobal) (a b : string) : Prop :=
  a <> b /\ a ∈ map g_qualname todo /\ exists g, g ∈ todo /\ g_qualname g = b /\ initializer_reads functions g a.

Lemma must_precede_iff functions closure todo a b : (forall f q, q ∈ closure !!! f <-> reads_global functions f q) ->
  reads_before todo (global_reads closure) a b <-> must_precede functions todo a b.
Proof. intros Hc. unfold reads_before, must_precede. by setoid_rewrite (global_reads_spec functions closure _ _ Hc). Qed.

(** ** What runs

    [entered i]: the functions that running [i] may enter.  For an [ir.Call] that is
    its target, or an override of it when it is virtual; for an
    [ir.CallIndirect] whatever the pointer holds; for an instruction that drops the last reference
    to an object, the destructor.  The sort sees the first only: [seen] says that
    there is nothing else. *)
Section running.
Context (entered : Instr -> gset nat) (functions : list LoweredFunction).

Definition enters (f g : nat) : Prop := exists i, i ∈ instrs_of functions f /\ g ∈ entered i.

(** The initializer of [g], when it runs, may mention the global [q]. *)
Definition run_reads (g : LoweredGlobal) (q : string) : Prop :=
  q ∈ referenced_global_qualnames (g_instructions g) \/
  exists i f f', i ∈ g_instructions g /\ f ∈ entered i /\ rtc enters f f' /\ q ∈ referenced_global_qualnames (instrs_of functions f').

(** [a] must be initialized when [b]'s initializer runs. *)
Definition needed_by (todo : list LoweredGlobal) (a b : string) : Prop :=
  a <> b /\ a ∈ map g_qualname todo /\ exists g, g ∈ todo /\ g_qualname g = b /\ run_reads g a.

Definition seen (todo : list LoweredGlobal) : Prop :=
  forall l i, (exists f, l = instrs_of functions f) \/ (exists g, g ∈ todo /\ l = g_instructions g) ->
    i ∈ l -> entered i ⊆ call_targets [i].

Lemma call_targets_in l i : i ∈ l -> call_targets [i] ⊆ call_targets l.
Proof.
  induction l as [|i' l IH]; [by intros ?%not_elem_of_nil|]. intros [->|Hi]%elem_of_cons; [destruct i'; simpl; set_solver|].
  specialize (IH Hi). destruct i'; simpl in *; set_solver.
Qed.

Lemma needed_by_must_precede todo a b : seen todo -> needed_by todo a b -> must_precede functions todo a b.
Proof.
  intros Hseen (Hne & Ha & g & Hg & Eb & Hr). split_and!; [done|done|]. exists g. split_and!; [done|done|].
  destruct Hr as [Hr|(i & f & f' & Hi & Hf & Hs & Hq)]; [by left|]. right. exists f. split.
  - apply (call_targets_in _ i Hi), (Hseen (g_instructions g) i); [right; by exists g|done|done].
  - exists f'. split; [|done]. clear -Hseen Hs. induction Hs as [|f f1 f2 (i & Hi & Hf) _ IH]; [done|].
    apply rtc_l with f1; [|done]. unfold calls_fn, calls_of.
    assert (Hin : f1 ∈ call_targets (instrs_of functions f)).
    { apply (call_targets_in _ i Hi), (Hseen (instrs_of functions f) i); [left; by exists f|done|done]. }
    unfold instrs_of in Hin. by destruct (instructions_by_fn_id functions !! f).
Qed.
End running.

(** C30: the sort of the globals that need an initializer call always ends. It
    either orders all of them, each after every global its initializer mentions,
    itself or in the functions it calls with [ir.Call], directly or not; then these mentions
    have no cycle. Or it reports a circular dependency, and one of the names it
    reports does depend on itself. Neither depends on the order in which Python
    iterates over its sets. When nothing is entered but the targets of calls
    ([seen]: no call through a pointer or of an override, no destructor), this
    covers all that the initializer may read when it runs; otherwise it does not
    ([pointer_call_missed]). *)
Theorem topologically_sort_globals_correct str_order fn_order entered functions globals :
  (forall l, str_order l ≡ₚ l) -> (forall l, fn_order l ≡ₚ l) -> NoDup (map g_qualname globals) ->
  let todo := callable_globals globals in
  let before := must_precede functions todo in
  ((exists ordered, topologically_sort_globals str_order fn_order functions globals = Ok ordered /\
     ordered ≡ₚ todo /\
     (forall l1 g l2, ordered = l1 ++ g :: l2 -> forall a, before a (g_qualname g) -> a ∈ map g_qualname l1) /\
     forall a, ~ tc before a a) \/
   (exists names location,
     topologically_sort_globals str_order fn_order functions globals = Err (CircularGlobals names location) /\
     exists a, a ∈ names /\ tc before a a)) /\
  (seen entered functions todo -> forall a b, needed_by entered functions todo a b -> before a b).
Proof.
  intros Hstr Hfn Hnd todo before. split; [|intros Hseen a b; by apply needed_by_must_precede].
  destruct (transitive_reads_spec fn_order functions Hfn) as (closure & E & Hc).
  unfold topologically_sort_globals. rewrite E.
  assert (Hd : NoDup (map g_qualname todo)) by (by apply filter_names_NoDup).
  assert (Hiff : forall a b, reads_before todo (global_reads closure) a b <-> before a b).
  { intros a b. by apply must_precede_iff. }
  destruct (sort_globals_spec str_order Hstr _ Hd (global_reads closure)) as [(o & Eo & Hp & Ho)|(names & loc & Ee & a & Ha & Hcyc)].
  - left. exists o. assert (Ho' : in_order g_qualname before o).
    { intros l1 g l2 El a Ha%Hiff. by eapply Ho. }
    split_and!; [done|done|exact Ho'|]. apply (in_order_acyclic g_qualname before o Ho').
    + by rewrite Hp.
    + intros a b (_ & _ & g & Hg & <- & _). apply list_elem_of_fmap_2. by rewrite Hp.
  - right. exists names, loc. split; [done|]. exists a. split; [done|]. eapply tc_mono; [|exact Hcyc].
    intros x y. apply Hiff.
Qed.

(** [b]'s initializer calls function 1, which calls function 2, which reads [a];
    [b] was scheduled first. *)
Module sample.
Definition functions : list LoweredFunction :=
  [mkLoweredFunction 1 [ICall 2 []; IOther [FOther]];
   mkLoweredFunction 2 [IAssign (GTemp 0) (GVariable "m.a" true); ICall 1 []]].
Definition global_a : LoweredGlobal := mkLoweredGlobal "m.a" (None, None) [ICall 3 []; IAssign (GVariable "m.a" true) (GTemp 1)].
Definition global_b : LoweredGlobal := mkLoweredGlobal "m.b" (None, None) [ICall 1 []; IAssign (GVariable "m.b" true) (GTemp 1)].
Definition constant : LoweredGlobal := mkLoweredGlobal "m.c" (None, None) [IAssign (GVariable "m.c" true) (GConst (KInt 3))].
Definition looping : LoweredGlobal :=
  mkLoweredGlobal "m.a" (None, None) [IAssign (GTemp 1) (GVariable "m.b" true); IAssign (GVariable "m.a" true) (GTemp 1)].
End sample.

Lemma sample_seen globals : seen (fun i => call_targets [i]) sample.functions globals.
Proof. by intros l i _ _. Qed.

Lemma topologically_sort_globals_correct_witness :
  let globals := [sample.global_b; sample.constant; sample.global_a] in
  topologically_sort_globals id id sample.functions globals = Ok [sample.global_a; sample.global_b] /\
  (forall a, ~ tc (must_precede sample.functions (callable_globals globals)) a a) /\
  (forall a, needed_by (fun i => call_targets [i]) sample.functions (callable_globals globals) a "m.b" -> a ∈ ["m.a"]).
Proof.
  intros globals.
  destruct (topologically_sort_globals_correct id id (fun i => call_targets [i]) sample.functions globals)
    as [[(o & E & _ & Ho & Hc)|(n & l & E & _)] Hrun].
  - intros l. done.
  - intros l. done.
  - by apply NoDup_ListNoDup; repeat constructor; set_solver.
  - assert (o = [sample.global_a; sample.global_b]) as -> by (vm_compute in E; by injection E).
    split_and!; [by vm_compute|done|]. intros a Ha.
    apply (Ho [sample.global_a] sample.global_b [] eq_refl), Hrun; [apply sample_seen|exact Ha].
  - vm_compute in E. discriminate E.
Defined.

(** The initializer of [b] calls function 2 through a pointer: it runs before
    that of [a], which it reads. *)
Definition pointer_call : Instr := IOther [FOperand (GTemp 5); FOperand (GTemp 6); FList []].

Definition pointer_b : LoweredGlobal :=
  mkLoweredGlobal "m.b" (None, None) [IAssign (GTemp 6) (GFunctionRef 2); pointer_call; IAssign (GVariable "m.b" true) (GTemp 5)].

Definition pointer_enters (i : Instr) : gset nat := match i with IOther _ => {[2%nat]} | _ => call_targets [i] end.

Example pointer_call_missed :
  topologically_sort_globals id id sample.functions [pointer_b; sample.global_a] = Ok [pointer_b; sample.global_a] /\
  needed_by pointer_enters sample.functions [pointer_b; sample.global_a] "m.a" "m.b".
Proof.
  split; [by vm_compute|]. split_and!; [done|set_solver|]. exists pointer_b. split_and!; [set_solver|done|]. right.
  exists pointer_call, 2, 2. split_and!; [set_solver|set_solver|done|].
  apply (bool_decide_eq_true_1 _). vm_compute. reflexivity.
Qed.

Example circular_globals :
  topologically_sort_globals id id sample.functions [sample.global_b; sample.looping] =
  Err (CircularGlobals ["m.a"; "m.b"] (None, None)).
Proof. by vm_compute. Qed.
