(* ===== verification/ValueTypes.v ===== *)
(** * Emission order of value types ([emitter_c.py], [_emit_value_type_bodies])

    C needs the body of a struct before another struct can embed it by value.
    The bodies of the [CStruct]s, [CUnion]s and [TaggedUnion]s are emitted in
    the order of a depth-first walk over the fields.  Types are matched by
    qualified name.  [embeds] says what the emitted bodies hold, which may be more than the walk sees
    ([embedded_missed]). *)

From S2P Require Import Prelude GlobalOrder.

Inductive value_kind := KStruct | KUnion | KTagged.

(** The type of a field: one with a name of its own, or a [FixedArrayType]. *)
Inductive FieldType :=
| NamedField (qualname : string)
| FixedArray (elem : FieldType) (count : nat).

(** [dep_type.qualname] *)
Fixpoint field_qualname (t : FieldType) : string :=
  match t with
  | NamedField q => q
  | FixedArray elem count => field_qualname elem +:+ "[" +:+ pretty count +:+ "]"
  end.

(** A [ClassLike]: [vc_generic] is [bool( type_params )]; [vc_attributes] the
    types of its fields, where they have one; [vc_inherited] those of the fields of the bases of an
    interface [CStruct], which its C struct repeats ([emit_cstruct]); [vc_data] that of
    [names['data']] where it is a [Variable]. *)
Record ValueClass := mkValueClass {
  vc_kind : value_kind;
  vc_qualname : string;
  vc_generic : bool;
  vc_inherited : list (option FieldType);
  vc_attributes : list (option FieldType);
  vc_data : option (option FieldType);
}.

(** A tagged union's C layout is its [data] field, not its members. *)
Definition dep_types (cls : ValueClass) : list (option FieldType) :=
  match vc_kind cls with
  | KTagged => match vc_data cls with Some t => [t] | None => [] end
  | _ => vc_attributes cls
  end.

(** [compiler.cstructs], [.cunions] and [.tagged_unions], the concrete ones. *)
Definition value_classes (cstructs cunions tagged_unions : list ValueClass) : list ValueClass :=
  let concrete := List.filter (fun c => negb (vc_generic c)) in
  concrete cstructs ++ concrete cunions ++ concrete tagged_unions.

Definition index_classes (classes : list ValueClass) : gmap string ValueClass :=
  index_by vc_qualname classes.

Record Walk := mkWalk { visited : gset string; ordered : list ValueClass }.

Section walk.
Context (by_qualname : gmap string ValueClass).

(** [for dep_type in dep_types: ... if dep is not None: visit( dep )] *)
Fixpoint visit_deps (visit : ValueClass -> Walk -> option Walk) (deps : list (option FieldType)) (w : Walk) : option Walk :=
  match deps with
  | [] => Some w
  | t :: deps =>
      match t ≫= (fun t => by_qualname !! field_qualname t) with
      | Some dep => visit dep w ≫= visit_deps visit deps
      | None => visit_deps visit deps w
      end
  end.

Fixpoint visit (fuel : nat) (cls : ValueClass) (w : Walk) : option Walk :=
  match fuel with
  | O => None
  | S fuel =>
      if bool_decide (vc_qualname cls ∈ visited w) then Some w
      else
        w ← visit_deps (visit fuel) (dep_types cls) (mkWalk (visited w ∪ {[vc_qualname cls]}) (ordered w));
        Some (mkWalk (visited w) (ordered w ++ [cls]))
  end.

Fixpoint visit_classes (fuel : nat) (classes : list ValueClass) (w : Walk) : option Walk :=
  match classes with
  | [] => Some w
  | cls :: classes => visit fuel cls w ≫= visit_classes fuel classes
  end.
End walk.

(** The order of the bodies; a walk nests at most as deep as there are classes. *)
Definition value_type_order (cstructs cunions tagged_unions : list ValueClass) : option (list ValueClass) :=
  let classes := value_classes cstructs cunions tagged_unions in
  ordered <$> visit_classes (index_classes classes) (S (length classes)) classes (mkWalk ∅ []).

(** ** What a body embeds

    The fields of the C struct or union: those the interface inherits, then its own. *)
Definition body_fields (cls : ValueClass) : list (option FieldType) :=
  match vc_kind cls with KStruct => vc_inherited cls ++ dep_types cls | _ => dep_types cls end.

(** The type whose values a field holds in place. *)
Fixpoint held_type (t : FieldType) : string :=
  match t with NamedField q => q | FixedArray elem _ => held_type elem end.

(** [a]'s body contains a value of type [b]. *)
Definition embeds (classes : list ValueClass) (a b : string) : Prop :=
  b ∈ map vc_qualname classes /\ exists c t, c ∈ classes /\ vc_qualname c = a /\ Some t ∈ body_fields c /\ held_type t = b.

(** No array of a value class, and none inherited by an interface; and no class
    is named like an array type. *)
Definition plain_fields (classes : list ValueClass) : Prop := forall c t, c ∈ classes -> Some t ∈ body_fields c ->
  (held_type t ∈ map vc_qualname classes \/ field_qualname t ∈ map vc_qualname classes) ->
  t = NamedField (held_type t) /\ Some t ∈ dep_types c.

(** ** Correctness *)

Section correct.
Context (classes : list ValueClass) (names_distinct : NoDup (map vc_qualname classes)).

(** The walk goes from [a] to [b]. *)
Definition leads (a b : string) : Prop :=
  b ∈ map vc_qualname classes /\ exists c t, c ∈ classes /\ vc_qualname c = a /\ Some t ∈ dep_types c /\ field_qualname t = b.

Lemma index_class q c : index_classes classes !! q = Some c <-> c ∈ classes /\ vc_qualname c = q.
Proof. by apply index_by_lookup. Qed.

(** The classes whose bodies are begun but not emitted. *)
Definition pending (w : Walk) (q : string) : Prop := q ∈ visited w /\ q ∉ map vc_qualname (ordered w).

(** Each body comes after those it leads, unless these embed it in turn. *)
Definition after_led (l : list ValueClass) : Prop :=
  forall l1 c l2, l = l1 ++ c :: l2 -> forall d, leads (vc_qualname c) d ->
    d ∈ map vc_qualname l1 \/ tc leads d (vc_qualname c).

Record walk_ok (w : Walk) : Prop := {
  walk_distinct : NoDup (map vc_qualname (ordered w));
  walk_known : forall c, c ∈ ordered w -> c ∈ classes;
  walk_visited : forall q, q ∈ visited w -> q ∈ map vc_qualname classes;
  walk_emitted : forall q, q ∈ map vc_qualname (ordered w) -> q ∈ visited w;
  walk_after : after_led (ordered w);
}.

(** What a walk from [w] to [w'] did. *)
Record walked (w w' : Walk) : Prop := {
  walked_ok : walk_ok w';
  walked_visited : visited w ⊆ visited w';
  walked_ordered : exists new, ordered w' = ordered w ++ new;
  walked_pending : forall q, pending w' q <-> pending w q;
}.

Lemma walked_refl w : walk_ok w -> walked w w.
Proof. intros Hw. split; [done|done| |done]. exists []. by rewrite app_nil_r. Qed.

Lemma walked_trans w1 w2 w3 : walked w1 w2 -> walked w2 w3 -> walked w1 w3.
Proof.
  intros [H1 V1 [n1 O1] P1] [H2 V2 [n2 O2] P2]. split; [done|set_solver| |by intros q; rewrite P2, P1].
  exists (n1 ++ n2). by rewrite O2, O1, app_assoc.
Qed.

(** How many classes are not begun yet. *)
Definition unvisited (w : Walk) : nat :=
  size (list_to_set (map vc_qualname classes) ∖ visited w : gset string).

Lemma unvisited_mono w w' : visited w ⊆ visited w' -> (unvisited w' <= unvisited w)%nat.
Proof. intros Hv. unfold unvisited. apply subseteq_size. set_solver. Qed.

Lemma unvisited_add w c : c ∈ classes -> vc_qualname c ∉ visited w ->
  (unvisited (mkWalk (visited w ∪ {[vc_qualname c]}) (ordered w)) < unvisited w)%nat.
Proof.
  intros Hc Hv. unfold unvisited. apply subset_size. split; simpl; [set_solver|]. intros Hs.
  assert (vc_qualname c ∈ list_to_set (map vc_qualname classes) ∖ visited w) as Hin%Hs; [|set_solver].
  apply elem_of_difference. split; [|done]. apply elem_of_list_to_set. by apply list_elem_of_fmap_2.
Qed.

(** Visiting one class, all pending classes being on the path to it. *)
Definition visits (f : ValueClass -> Walk -> option Walk) (n : nat) : Prop := forall c w,
  c ∈ classes -> walk_ok w -> (forall q, pending w q -> tc leads q (vc_qualname c)) -> (unvisited w < n)%nat ->
  exists w', f c w = Some w' /\ walked w w' /\ vc_qualname c ∈ visited w'.

Lemma visit_deps_ok f n p : visits f n -> forall deps w, (forall t, Some t ∈ deps -> field_qualname t ∈ map vc_qualname classes -> leads p (field_qualname t)) ->
  walk_ok w -> (forall q, pending w q -> q = p \/ tc leads q p) -> (unvisited w < n)%nat ->
  exists w', visit_deps (index_classes classes) f deps w = Some w' /\ walked w w' /\
    forall t, Some t ∈ deps -> field_qualname t ∈ map vc_qualname classes -> field_qualname t ∈ visited w'.
Proof.
  intros Hf. induction deps as [|o deps IH]; intros w Hdeps Hw Hp Hn; cbn [visit_deps].
  - exists w. split_and!; [done|by apply walked_refl|]. by intros d ?%not_elem_of_nil.
  - destruct (o ≫= _) as [c|] eqn:E.
    + destruct o as [q|]; [|done]. simpl in E. apply index_class in E as [Hc Eq].
      assert (He : leads p (vc_qualname c)) by (rewrite Eq; apply Hdeps; [left|rewrite <- Eq; by apply list_elem_of_fmap_2]).
      destruct (Hf c w) as (w1 & -> & Hw1 & Hv1); [done|done| |done|].
      { intros q' Hq. destruct (Hp q' Hq) as [->|Ht]; [by apply tc_once|by eapply tc_r]. }
      simpl. destruct (IH w1) as (w2 & E2 & Hw2 & Hd); [intros d Hd; apply Hdeps; by right|apply Hw1| | |].
      * intros q' Hq%(walked_pending _ _ Hw1). by apply Hp.
      * pose proof (unvisited_mono _ _ (walked_visited _ _ Hw1)). lia.
      * exists w2. split_and!; [done|by eapply walked_trans|]. intros d [[= ->]|Hd']%elem_of_cons Hk; [|by apply Hd].
        apply (walked_visited _ _ Hw2). by rewrite <- Eq.
    + destruct (IH w) as (w2 & E2 & Hw2 & Hd); [intros d Hd; apply Hdeps; by right|done|done|done|].
      exists w2. split_and!; [done|done|]. intros d [Eo|Hd']%elem_of_cons Hk; [|by apply Hd]. subst o. simpl in E.
      apply index_by_known in Hk as [c Hc]. unfold index_classes in E. congruence.
Qed.

Lemma begin_ok c w : c ∈ classes -> walk_ok w -> walk_ok (mkWalk (visited w ∪ {[vc_qualname c]}) (ordered w)).
Proof.
  intros Hc [Hd Hk Hv He Ha]. split; simpl; [done|done| |intros q Hq; apply elem_of_union; left; by apply He|done].
  intros q [Hq|Hq%elem_of_singleton]%elem_of_union; [by apply Hv|subst q; by apply list_elem_of_fmap_2].
Qed.

(** Emitting the body of [c] after its fields' types have been visited. *)
Lemma emit_ok c w w1 : c ∈ classes -> vc_qualname c ∉ visited w ->
  (forall q, pending w q -> tc leads q (vc_qualname c)) -> walk_ok w ->
  walked (mkWalk (visited w ∪ {[vc_qualname c]}) (ordered w)) w1 ->
  (forall t, Some t ∈ dep_types c -> field_qualname t ∈ map vc_qualname classes -> field_qualname t ∈ visited w1) ->
  walked w (mkWalk (visited w1) (ordered w1 ++ [c])).
Proof.
  intros Hc Hv Hp Hw [[Hd Hk Hvk He Ha] V1 [new O1] P1] Hdeps. simpl in *.
  assert (Hni : vc_qualname c ∉ map vc_qualname (ordered w)) by (intros Hin; by apply Hv, (walk_emitted _ Hw)).
  assert (Hpc : pending w1 (vc_qualname c)) by (apply P1; split; simpl; [set_solver|done]).
  assert (Hpend : forall q, pending w1 q <-> pending w q \/ q = vc_qualname c).
  { intros q. rewrite P1. unfold pending. simpl. rewrite elem_of_union, elem_of_singleton. naive_solver. }
  split; simpl; [split; simpl| |exists (new ++ [c]); by rewrite O1, app_assoc|].
  - rewrite map_app. apply NoDup_app. split_and!; [done| |apply NoDup_singleton].
    intros x Hx Hx'%list_elem_of_singleton. subst x. by apply Hpc.
  - intros x [Hx|Hx%list_elem_of_singleton]%elem_of_app; [by apply Hk|by subst x].
  - done.
  - intros q. rewrite map_app. intros [Hq|Hq%list_elem_of_singleton]%elem_of_app; [by apply He|subst q; apply Hpc].
  - intros l1 x l2 El d Hx. apply snoc_split in El as [(l2' & E)|[-> ->]]; [by eapply Ha|].
    destruct (decide (d ∈ map vc_qualname (ordered w1))) as [|Hn]; [by left|]. right.
    destruct Hx as (Hdk & c' & t & Hc' & Eq & Hdc & Et).
    assert (c' = c) as ->.
    { assert (H1 : index_classes classes !! vc_qualname c = Some c') by (by apply index_class).
      assert (H2 : index_classes classes !! vc_qualname c = Some c) by (by apply index_class). congruence. }
    assert (Hpd : pending w1 d) by (split; [subst d; by apply Hdeps|done]). apply Hpend in Hpd as [Hpd|Hpd]; [by apply Hp|].
    rewrite <- Hpd at 1. apply tc_once. split; [done|]. by exists c, t.
  - set_solver.
  - intros q. unfold pending at 1. simpl. rewrite map_app, not_elem_of_app.
    specialize (Hpend q). unfold pending at 1 in Hpend. cbn [map]. rewrite list_elem_of_singleton.
    destruct (decide (q = vc_qualname c)) as [->|Hne]; [|naive_solver].
    split; [naive_solver|]. intros [Hq _]. by destruct Hv.
Qed.

Lemma visit_ok fuel : visits (visit (index_classes classes) fuel) fuel.
Proof.
  induction fuel as [|fuel IH]; intros c w Hc Hw Hp Hn; [lia|]. cbn [visit].
  case_bool_decide as Hv; [exists w; split_and!; [done|by apply walked_refl|done]|].
  destruct (visit_deps_ok _ fuel (vc_qualname c) IH (dep_types c) (mkWalk (visited w ∪ {[vc_qualname c]}) (ordered w)))
    as (w1 & E & Hw1 & Hdeps).
  - intros t Ht Hk. split; [done|]. by exists c, t.
  - by apply begin_ok.
  - intros q [Hq Hnq]. simpl in *. apply elem_of_union in Hq as [Hq|Hq%elem_of_singleton]; [right; by apply Hp|by left].
  - pose proof (unvisited_add w c Hc Hv). lia.
  - rewrite E. simpl. eexists. split; [done|]. split; [by apply emit_ok|]. simpl. apply (walked_visited _ _ Hw1). simpl. set_solver.
Qed.

Lemma visit_classes_ok fuel l : (forall c, c ∈ l -> c ∈ classes) -> forall w, walk_ok w -> (forall q, ~ pending w q) ->
  (unvisited w < fuel)%nat ->
  exists w', visit_classes (index_classes classes) fuel l w = Some w' /\ walked w w' /\
    forall c, c ∈ l -> vc_qualname c ∈ visited w'.
Proof.
  induction l as [|c l IH]; intros Hl w Hw Hp Hn; cbn [visit_classes].
  - exists w. split_and!; [done|by apply walked_refl|]. by intros c ?%not_elem_of_nil.
  - destruct (visit_ok fuel c w) as (w1 & -> & Hw1 & Hv); [apply Hl; left|done|by intros q ?%Hp|done|]. simpl.
    destruct (IH ltac:(intros; apply Hl; by right) w1) as (w2 & -> & Hw2 & Hd); [apply Hw1| | |].
    + intros q Hq%(walked_pending _ _ Hw1). by eapply Hp.
    + pose proof (unvisited_mono _ _ (walked_visited _ _ Hw1)). lia.
    + exists w2. split_and!; [done|by eapply walked_trans|]. intros x [->|Hx]%elem_of_cons; [|by apply Hd].
      by apply (walked_visited _ _ Hw2).
Qed.
End correct.

(** Where fields are plain the walk goes where the bodies embed. *)
Lemma leads_embeds classes a b : plain_fields classes -> leads classes a b <-> embeds classes a b.
Proof.
  intros Hpl. assert (Hsub : forall c t, Some t ∈ dep_types c -> Some t ∈ body_fields c).
  { intros c t Ht. unfold body_fields. destruct (vc_kind c); [apply elem_of_app; by right|done..]. }
  split; intros (Hb & c & t & Hc & Ea & Ht & Et); (split; [done|]); exists c, t; split_and!; try done.
  - by apply Hsub.
  - destruct (Hpl c t Hc) as [Ep _]; [by apply Hsub|right; by rewrite Et|]. rewrite Ep in Et. done.
  - apply (Hpl c t Hc Ht). left. by rewrite Et.
  - destruct (Hpl c t Hc Ht) as [Ep _]; [left; by rewrite Et|]. by rewrite Ep.
Qed.

(** C31: the order of the value types' bodies is always found. It contains each
    concrete class exactly once, and, where every value class a body holds in
    place is the type of a field of its own ([plain_fields]: no arrays of value classes, and
    none inherited by an interface), each class after every class it embeds by
    value, except where the embedded class embeds it in turn (a layout C cannot
    have). *)
Theorem value_type_order_correct cstructs cunions tagged_unions :
  let classes := value_classes cstructs cunions tagged_unions in
  NoDup (map vc_qualname classes) ->
  exists l, value_type_order cstructs cunions tagged_unions = Some l /\ l ≡ₚ classes /\
    (plain_fields classes -> forall l1 c l2, l = l1 ++ c :: l2 -> forall d, embeds classes (vc_qualname c) d ->
      d ∈ map vc_qualname l1 \/ tc (embeds classes) d (vc_qualname c)).
Proof.
  intros classes Hnd. unfold value_type_order. fold classes.
  destruct (visit_classes_ok classes Hnd (S (length classes)) classes) with (w := mkWalk ∅ []) as (w & E & Hw & Hv).
  - done.
  - split; simpl; [constructor|by intros c ?%not_elem_of_nil|set_solver|by intros q ?%not_elem_of_nil|].
    intros l1 c l2 El. by destruct l1.
  - intros q [Hq _]. simpl in Hq. set_solver.
  - unfold unvisited. simpl. rewrite difference_empty_L, size_list_to_set, length_map by done. lia.
  - rewrite E. exists (ordered w). destruct Hw as [[Hd Hk _ _ Ha] _ _ Hp]. split_and!; [done| |].
    2:{ intros Hpl l1 c l2 El d Hcd%leads_embeds; [|done]. destruct (Ha l1 c l2 El d Hcd) as [|Ht]; [by left|right].
        eapply tc_mono; [|exact Ht]. intros x y. by apply leads_embeds. }
    apply submseteq_length_Permutation.
    + apply NoDup_submseteq; [by eapply NoDup_fmap_1|done].
    + rewrite <- (length_map vc_qualname classes), <- (length_map vc_qualname (ordered w)).
      apply submseteq_length, NoDup_submseteq; [done|]. intros q (c & -> & Hc)%list_elem_of_fmap.
      destruct (decide (vc_qualname c ∈ map vc_qualname (ordered w))) as [|Hn]; [done|].
      assert (Hpe : pending w (vc_qualname c)) by (split; [by apply Hv|done]). apply Hp in Hpe as [Hq _]. simpl in Hq. set_solver.
Qed.

Module sample.
Definition i32 : option FieldType := Some (NamedField "intrinsics.i32").
Definition result : ValueClass := mkValueClass KTagged "Result[i32,E]" false [] [None; None] (Some (Some (NamedField "Result[i32,E]$data"))).
Definition payload : ValueClass := mkValueClass KUnion "Result[i32,E]$data" false [] [i32; Some (NamedField "m.Point")] None.
Definition point : ValueClass := mkValueClass KStruct "m.Point" false [] [i32] None.
Definition line : ValueClass := mkValueClass KStruct "m.Line" false []
  [Some (NamedField "m.Point"); Some (NamedField "Result[i32,E]"); Some (FixedArray (NamedField "intrinsics.u8") 8)] None.
Definition path : ValueClass := mkValueClass KStruct "m.Path" false [] [Some (FixedArray (NamedField "m.Point") 3)] None.
Definition shape : ValueClass := mkValueClass KStruct "m.IShape" false [Some (NamedField "m.Point")] [] None.
End sample.

Lemma sample_plain : plain_fields (value_classes [sample.line; sample.point] [sample.payload] [sample.result]).
Proof.
  intros c t Hc Ht. cbn in Hc. repeat (apply elem_of_cons in Hc as [->|Hc]); [..|by apply not_elem_of_nil in Hc];
    cbn in Ht; repeat (apply elem_of_cons in Ht as [Ht|Ht]); try (by apply not_elem_of_nil in Ht); injection Ht as ->;
    intros Hn; (split; [reflexivity || (exfalso; cbn in Hn; set_solver)|cbn; set_solver]).
Qed.

Lemma value_type_order_correct_witness :
  value_type_order [sample.line; sample.point] [sample.payload] [sample.result] =
    Some [sample.point; sample.payload; sample.result; sample.line] /\
  forall d, embeds (value_classes [sample.line; sample.point] [sample.payload] [sample.result]) "m.Line" d ->
    d ∈ ["m.Point"; "Result[i32,E]$data"; "Result[i32,E]"] \/
    tc (embeds (value_classes [sample.line; sample.point] [sample.payload] [sample.result])) d "m.Line".
Proof.
  destruct (value_type_order_correct [sample.line; sample.point] [sample.payload] [sample.result]) as (l & E & _ & Ho).
  - apply NoDup_ListNoDup. repeat constructor; set_solver.
  - vm_compute in E. injection E as <-. split; [by vm_compute|].
    exact (Ho sample_plain [sample.point; sample.payload; sample.result] sample.line [] eq_refl).
Defined.

(** An array of points, and an interface whose base has a point: neither waits for it. *)
Example embedded_missed :
  value_type_order [sample.path; sample.shape; sample.point] [] [] = Some [sample.path; sample.shape; sample.point] /\
  embeds [sample.path; sample.shape; sample.point] "m.Path" "m.Point" /\
  embeds [sample.path; sample.shape; sample.point] "m.IShape" "m.Point".
Proof.
  split_and!; [by vm_compute|..]; (split; [set_solver|]).
  - exists sample.path, (FixedArray (NamedField "m.Point") 3). split_and!; [set_solver|done|cbn; set_solver|done].
  - exists sample.shape, (NamedField "m.Point"). split_and!; [set_solver|done|cbn; set_solver|done].
Qed.
