(* ===== verification/Mangling.v ===== *)
(** * Names of the generated C ([emitter_c.py])

    Qualified names of types, functions and globals become C identifiers by
    replacing punctuation ([mangle_qualname], [mangle_type]); a local keeps its
    own name ([c_local_name]).  Two different things must not get one name.
    [QualType] is the abstract syntax of the qualified names [discovery.py]
    builds for generic instances; [show] prints it. *)

From Stdlib Require Import Ascii.
From S2P Require Import Prelude.

Local Open Scope string_scope.
Local Open Scope list_scope.

(** ** Mangling *)

(** [s.replace( c, new )] for a single character. *)
Fixpoint replace (c : Ascii.ascii) (new s : string) : string :=
  match s with
  | EmptyString => EmptyString
  | String d s => if Ascii.eqb d c then new +:+ replace c new s else String d (replace c new s)
  end.

Definition mangle_qualname (qualname : string) : string :=
  replace "|"%char "$or$" (replace "]"%char "" (replace ","%char "$$" (replace "["%char "$$g$" (replace "."%char "$" qualname)))).

(** What [mangle_type] looks at: an anonymous union and its payload have no file
    and are rebuilt from their members' types. *)
#[warnings="-register-all"]
Inductive MType :=
| MNamed (qualname : string)
| MAnonymousUnion (attributes : list MType)
| MAnonymousPayload (attributes : list MType).

(** [sep.join( parts )] *)
Fixpoint join (sep : string) (parts : list string) : string :=
  match parts with
  | [] => ""
  | [p] => p
  | p :: parts => p +:+ sep +:+ join sep parts
  end.

Fixpoint mangle_type (t : MType) : string :=
  match t with
  | MAnonymousUnion attributes => "$" +:+ join "$$" ("__u" :: map mangle_type attributes)
  | MAnonymousPayload attributes => "$" +:+ join "$$" ("__u" :: map mangle_type attributes) +:+ "$data"
  | MNamed qualname => mangle_qualname qualname
  end.

(** ** Functions *)

Record MFunction := mkMFunction {
  mf_qualname : string;
  mf_stem : string;
  mf_file : option string;
  mf_line : option Z;
  mf_anonymous_cls : option MType;     (* [cls], if it is an anonymous union *)
}.

(** [group.implementations]: position of the first with the same file and line. *)
Fixpoint overload_symbol_index (i : nat) (fn : MFunction) (implementations : list MFunction) : option nat :=
  match implementations with
  | [] => None
  | candidate :: rest =>
      if bool_decide (mf_file candidate = mf_file fn) && bool_decide (mf_line candidate = mf_line fn) then Some i
      else overload_symbol_index (S i) fn rest
  end.

(** [None] is the assertion that [fn] is in its own group. *)
Definition mangle_function_qualname (fn : MFunction) (overload_group : option (list MFunction)) : option string :=
  match mf_anonymous_cls fn with
  | Some cls => Some (mangle_type cls +:+ "$" +:+ mangle_qualname (mf_stem fn))
  | None =>
      let base := mangle_qualname (mf_qualname fn) in
      match overload_group with
      | Some implementations =>
          if (1 <? length implementations)%nat then
            i ← overload_symbol_index 0 fn implementations; Some (base +:+ "$$overload" +:+ pretty i)
          else Some base
      | None => Some base
      end
  end.

(** ** Locals *)

Definition C_KEYWORDS : list string :=
  ["auto"; "break"; "case"; "char"; "const"; "continue"; "default"; "do";
   "double"; "else"; "enum"; "extern"; "float"; "for"; "goto"; "if";
   "int"; "long"; "register"; "return"; "short"; "signed"; "sizeof";
   "static"; "struct"; "switch"; "typedef"; "union"; "unsigned"; "void";
   "volatile"; "while"; "_Bool"; "_Complex"; "_Imaginary"; "inline";
   "restrict"; "_Alignas"; "_Alignof"; "_Atomic"; "_Generic"; "_Noreturn";
   "_Static_assert"; "_Thread_local"].

Record Local_ := mkLocal { l_stem : string; l_uid : nat; needs_uid_suffix : bool }.

Definition c_local_name (var : Local_) : string :=
  let base := if bool_decide (l_stem var ∈ C_KEYWORDS) then "_" +:+ l_stem var else l_stem var in
  if needs_uid_suffix var then base +:+ "$" +:+ pretty (l_uid var) else base.

Definition temp_name (temp_id : nat) : string := "$t" +:+ pretty temp_id.

(** ** Qualified names of generic instances *)

(** A dotted path applied to type arguments, [a.b[c.d,e.f]], or a union as an
    argument, a member [a.b] without arguments in front of the rest of it.  A
    union whose generic members are not all last is left out: see [mangle_qualname_collides]. *)
#[warnings="-register-all"]
Inductive QualType :=
| Nominal (path : list string) (args : list QualType)
| OrType (path : list string) (rest : QualType).

Fixpoint show (t : QualType) : string :=
  match t with
  | Nominal path [] => join "." path
  | Nominal path args => join "." path +:+ "[" +:+ join "," (map show args) +:+ "]"
  | OrType path rest => join "." path +:+ "|" +:+ show rest
  end.

Section QualType_ind.
Variable P : QualType -> Prop.
Hypothesis HNominal : forall path args, Forall P args -> P (Nominal path args).
Hypothesis HOr : forall path rest, P rest -> P (OrType path rest).
Fixpoint QualType_nested_ind (t : QualType) : P t :=
  match t with
  | Nominal path args => HNominal path args
      ((fix all (l : list QualType) : Forall P l :=
          match l with
          | [] => Forall_nil_2 _
          | x :: xs => Forall_cons_2 _ _ _ (QualType_nested_ind x) (all xs)
          end) args)
  | OrType path rest => HOr path rest (QualType_nested_ind rest)
  end.
End QualType_ind.

(** Letters, digits, underscores: in particular none of the characters that the
    mangling replaces or produces. *)
Fixpoint is_identifier_tail (s : string) : bool :=
  match s with
  | EmptyString => true
  | String c s => negb (bool_decide (c ∈ ["."; "["; "]"; ","; "|"; "$"]%char)) && is_identifier_tail s
  end.

(** [or] is a keyword of Python. *)
Definition is_identifier (s : string) : bool := negb (bool_decide (s = "" \/ s = "or")) && is_identifier_tail s.

(** A type whose paths are identifiers and each class of which has as many
    arguments as it has type parameters. *)
Fixpoint well_formed (arity : list string -> nat) (t : QualType) : bool :=
  match t with
  | Nominal path args =>
      negb (bool_decide (path = [])) && forallb is_identifier path &&
      bool_decide (length args = arity path) && forallb (well_formed arity) args
  | OrType path rest =>
      negb (bool_decide (path = [])) && forallb is_identifier path && bool_decide (arity path = 0) && well_formed arity rest
  end.

(** ** How mangling acts on printed types *)

Lemma replace_app c new s1 s2 : replace c new (s1 +:+ s2) = replace c new s1 +:+ replace c new s2.
Proof.
  induction s1 as [|d s1 IH]; [done|]. change (String d s1 +:+ s2) with (String d (s1 +:+ s2)). cbn [replace].
  rewrite IH. destruct (Ascii.eqb d c); [by rewrite append_assoc|done].
Qed.

Lemma mangle_app s1 s2 : mangle_qualname (s1 +:+ s2) = mangle_qualname s1 +:+ mangle_qualname s2.
Proof. unfold mangle_qualname. by rewrite !replace_app. Qed.

Lemma replace_identifier c new s : c ∈ ["."; "["; "]"; ","; "|"; "$"]%char -> is_identifier_tail s = true -> replace c new s = s.
Proof.
  intros Hc. induction s as [|d s IH]; simpl; [done|]. intros [Hd Hs]%andb_prop.
  apply negb_true_iff, bool_decide_eq_false in Hd.
  destruct (Ascii.eqb_spec d c) as [->|_]; [done|by rewrite IH].
Qed.

Lemma mangle_identifier s : is_identifier_tail s = true -> mangle_qualname s = s.
Proof.
  intros Hs. unfold mangle_qualname.
  rewrite !(replace_identifier _ _ s); first [done|by apply list_elem_of_In; simpl; tauto].
Qed.

(** Components, each preceded by a [$]. *)
Fixpoint joined (l : list string) : string :=
  match l with [] => "" | x :: l => "$" +:+ x +:+ joined l end.

Lemma joined_app l1 l2 : joined (l1 ++ l2) = joined l1 +:+ joined l2.
Proof. induction l1 as [|x l1 IH]; [done|]. cbn [joined app]. by rewrite IH, !append_assoc. Qed.

(** The components of a mangled type: an empty one stands for a comma, an empty
    one before ["g"] for an opening bracket, ["or"] for a bar; nothing stands for a closing bracket. *)
Fixpoint comps (t : QualType) : list string :=
  match t with
  | Nominal path [] => path
  | Nominal path (a :: args) => path ++ "" :: "g" :: comps a ++ concat (map (fun b => "" :: comps b) args)
  | OrType path rest => path ++ "or" :: comps rest
  end.

Lemma mangle_path path : path <> [] -> forallb is_identifier path = true ->
  "$" +:+ mangle_qualname (join "." path) = joined path.
Proof.
  induction path as [|x path IH]; intros Hne Hid; [done|]. apply andb_prop in Hid as [[_ Hx]%andb_prop Hid].
  destruct path as [|y path].
  - simpl. by rewrite mangle_identifier, append_empty.
  - change (join "." (x :: y :: path)) with (x +:+ "." +:+ join "." (y :: path)).
    rewrite !mangle_app, mangle_identifier by done. change (mangle_qualname ".") with "$". by rewrite IH.
Qed.

Lemma mangle_args args : Forall (fun t => "$" +:+ mangle_qualname (show t) = joined (comps t)) args ->
  forall s, (forall a, "$" +:+ mangle_qualname a = joined s ->
    "$" +:+ mangle_qualname (join "," (a :: map show args)) = joined (s ++ concat (map (fun b => "" :: comps b) args))).
Proof.
  induction 1 as [|b args Hb _ IH]; intros s a Ha; simpl map.
  - simpl. by rewrite app_nil_r.
  - change (join "," (a :: show b :: map show args)) with (a +:+ "," +:+ join "," (show b :: map show args)).
    rewrite !mangle_app, <- append_assoc, Ha, joined_app. f_equal. change (mangle_qualname ",") with "$$".
    specialize (IH (comps b) (show b) Hb). cbn [concat]. change ("$$" +:+ ?x) with ("$" +:+ ("$" +:+ x)). rewrite IH.
    by rewrite <- app_comm_cons.
Qed.

Lemma well_formed_inv arity path args : well_formed arity (Nominal path args) = true ->
  path <> [] /\ forallb is_identifier path = true /\ length args = arity path /\ Forall (fun t => well_formed arity t = true) args.
Proof.
  simpl. rewrite !andb_true_iff, negb_true_iff, bool_decide_eq_false, bool_decide_eq_true, Forall_forall.
  intros [[[Hp Hi] Hl] Ha]. split_and!; [done..|]. intros t Ht%list_elem_of_In. rewrite forallb_forall in Ha. by apply Ha.
Qed.

Lemma or_inv arity path rest : well_formed arity (OrType path rest) = true ->
  path <> [] /\ forallb is_identifier path = true /\ well_formed arity rest = true.
Proof.
  simpl. rewrite !andb_true_iff, negb_true_iff, bool_decide_eq_false. by intros [[[Hp Hi] _] Hr].
Qed.

Lemma mangle_show arity t : well_formed arity t = true -> "$" +:+ mangle_qualname (show t) = joined (comps t).
Proof.
  induction t as [path args IH|path rest IH] using QualType_nested_ind.
  2:{ intros (Hne & Hid & Hr)%or_inv. cbn [show comps]. rewrite !mangle_app, <- append_assoc, mangle_path, joined_app by done. f_equal.
      change (mangle_qualname "|") with "$or$". change ("$or$" +:+ ?x) with ("$or" +:+ ("$" +:+ x)). by rewrite (IH Hr). }
  intros (Hne & Hid & _ & Hargs)%well_formed_inv.
  destruct args as [|a args]; [by apply mangle_path|].
  change (show (Nominal path (a :: args))) with (join "." path +:+ "[" +:+ join "," (show a :: map show args) +:+ "]").
  cbn [comps]. rewrite !mangle_app, <- append_assoc, mangle_path, joined_app by done. f_equal.
  change (mangle_qualname "[") with "$$g$". change (mangle_qualname "]") with "". rewrite append_empty.
  apply Forall_cons in IH as [Ha IH], Hargs as [Hwa Hargs]. change ("$$g$" +:+ ?x) with ("$" +:+ ("$g" +:+ ("$" +:+ x))).
  rewrite (mangle_args args) with (s := comps a); [done| |by apply Ha].
  clear -IH Hargs. induction IH as [|b args Hb _ IH]; [constructor|]. apply Forall_cons in Hargs as [H1 H2].
  constructor; [by apply Hb|by apply IH].
Qed.

(** ** Reading a mangled name back *)

Definition dollar_or_end (s : string) : bool :=
  match s with EmptyString => true | String c _ => Ascii.eqb c "$"%char end.

Lemma identifier_split x : forall y s s', is_identifier_tail x = true -> is_identifier_tail y = true ->
  dollar_or_end s = true -> dollar_or_end s' = true -> x +:+ s = y +:+ s' -> x = y /\ s = s'.
Proof.
  assert (Hd : forall c z s, is_identifier_tail (String c z) = true -> dollar_or_end s = true -> s <> String c (z +:+ "") /\
    forall t, s <> String c t).
  { intros c z [|d s] Hc Hs; [done|]. cbn in Hc, Hs. apply andb_prop in Hc as [Hc _]. apply Ascii.eqb_eq in Hs. subst d.
    apply negb_true_iff, bool_decide_eq_false in Hc.
    assert (c <> "$"%char) by (intros ->; apply Hc, list_elem_of_In; simpl; tauto). split; intros; congruence. }
  induction x as [|c x IH]; intros [|d y] s s' Hx Hy Hs Hs' E.
  - done.
  - exfalso. by destruct (Hd _ _ _ Hy Hs) as [_ Hn]; eapply Hn.
  - exfalso. by destruct (Hd _ _ _ Hx Hs') as [_ Hn]; eapply Hn.
  - change (String c (x +:+ s) = String d (y +:+ s')) in E. injection E as -> E.
    cbn in Hx, Hy. apply andb_prop in Hx as [_ Hx], Hy as [_ Hy].
    destruct (IH y s s' Hx Hy Hs Hs' E) as [-> ->]. done.
Qed.

Lemma joined_dollar l : dollar_or_end (joined l) = true.
Proof. by destruct l. Qed.

Lemma joined_inj l : forall l', Forall (fun x => is_identifier_tail x = true) l ->
  Forall (fun x => is_identifier_tail x = true) l' -> joined l = joined l' -> l = l'.
Proof.
  induction l as [|x l IH]; intros [|y l'] Hl Hl' E; [done|discriminate E|discriminate E|].
  apply Forall_cons in Hl as [Hx Hl], Hl' as [Hy Hl']. cbn [joined] in E.
  change (String "$" (x +:+ joined l) = String "$" (y +:+ joined l')) in E. injection E as E.
  apply identifier_split in E as [-> E]; [|done|done|apply joined_dollar..]. f_equal. by apply IH.
Qed.

Lemma is_identifier_tail_of s : is_identifier s = true -> is_identifier_tail s = true.
Proof. by intros [_ ?]%andb_prop. Qed.

Lemma path_identifiers path : forallb is_identifier path = true -> Forall (fun x => is_identifier_tail x = true) path.
Proof.
  rewrite forallb_forall, Forall_forall. intros H x Hx%list_elem_of_In. by apply is_identifier_tail_of, H.
Qed.

(** The arguments after the first. *)
Definition comps_list (args : list QualType) : list string := concat (map (fun b => "" :: comps b) args).

Lemma comps_list_identifiers args : Forall (fun t => Forall (fun x => is_identifier_tail x = true) (comps t)) args ->
  Forall (fun x => is_identifier_tail x = true) (comps_list args).
Proof.
  induction 1 as [|b args Hb _ IH]; [constructor|]. unfold comps_list in *. cbn [map concat app].
  constructor; [done|]. by apply Forall_app.
Qed.

Lemma comps_identifiers arity t : well_formed arity t = true -> Forall (fun x => is_identifier_tail x = true) (comps t).
Proof.
  induction t as [path args IH|path rest IH] using QualType_nested_ind.
  2:{ intros (_ & Hid & Hr)%or_inv. cbn [comps]. apply Forall_app. split; [by apply path_identifiers|]. constructor; [done|by apply IH]. }
  intros (_ & Hid & _ & Hargs)%well_formed_inv.
  assert (Hall : Forall (fun t => Forall (fun x => is_identifier_tail x = true) (comps t)) args).
  { clear -IH Hargs. induction IH as [|b args Hb _ IH]; [constructor|]. apply Forall_cons in Hargs as [H1 H2].
    constructor; [by apply Hb|by apply IH]. }
  destruct args as [|a args]; cbn [comps]; [by apply path_identifiers|]. apply Forall_cons in Hall as [Ha Hall].
  apply Forall_app. split; [by apply path_identifiers|]. constructor; [done|]. constructor; [done|].
  apply Forall_app. split; [done|by apply comps_list_identifiers].
Qed.

(** What may follow a complete type. *)
Definition comma_or_end (r : list string) : Prop := match r with [] => True | x :: _ => x = "" end.

(** What may follow a path. *)
Definition path_end (r : list string) : Prop := match r with [] => True | x :: _ => x = "" \/ x = "or" end.

Lemma path_split p : forall p' r r', forallb is_identifier p = true -> forallb is_identifier p' = true ->
  path_end r -> path_end r' -> p ++ r = p' ++ r' -> p = p' /\ r = r'.
Proof.
  assert (Hid : forall x p, forallb is_identifier (x :: p) = true -> ~ (x = "" \/ x = "or")).
  { intros x q [[Hx _]%andb_prop _]%andb_prop. by apply negb_true_iff, bool_decide_eq_false in Hx. }
  induction p as [|x p IH]; intros [|y p'] r r' Hp Hp' Hr Hr' E; [done| | |].
  - simpl in E. subst r. simpl in Hr. by apply Hid in Hp'.
  - simpl in E. subst r'. simpl in Hr'. by apply Hid in Hp.
  - injection E as -> E. apply andb_prop in Hp as [_ Hp], Hp' as [_ Hp'].
    destruct (IH p' r r' Hp Hp' Hr Hr' E) as [-> ->]. done.
Qed.

Lemma comma_path_end r : comma_or_end r -> path_end r.
Proof. destruct r; [done|]. by left. Qed.

Section injective.
Context (arity : list string -> nat).

Definition readable (t : QualType) : Prop := forall t' r r', well_formed arity t = true -> well_formed arity t' = true ->
  comma_or_end r -> comma_or_end r' -> comps t ++ r = comps t' ++ r' -> t = t' /\ r = r'.

Lemma comps_list_end args r : comma_or_end r -> comma_or_end (comps_list args ++ r).
Proof. by destruct args. Qed.

Lemma comps_list_split args : Forall readable args -> forall args' r r', Forall (fun t => well_formed arity t = true) args ->
  Forall (fun t => well_formed arity t = true) args' -> comma_or_end r -> comma_or_end r' ->
  length args = length args' \/ r = [] /\ r' = [] ->
  comps_list args ++ r = comps_list args' ++ r' -> args = args' /\ r = r'.
Proof.
  induction 1 as [|a args Ha _ IH]; intros [|a' args'] r r' Hw Hw' Hr Hr' Hlen E.
  - done.
  - destruct Hlen as [Hl|[-> ->]]; done.
  - destruct Hlen as [Hl|[-> ->]]; done.
  - apply Forall_cons in Hw as [Hwa Hw], Hw' as [Hwa' Hw']. unfold comps_list in E. cbn [map concat] in E.
    rewrite <- !app_comm_cons, <- !app_assoc in E. injection E as E. fold (comps_list args) (comps_list args') in E.
    apply Ha in E as [-> E]; [|done|done|by apply comps_list_end..].
    apply IH in E as [-> ->]; [done|done|done|done|done|]. destruct Hlen as [[= Hl]|?]; [by left|by right].
Qed.

(** What stands behind the path of a type in front of [r]. *)
Definition behind (t : QualType) (r : list string) : list string :=
  match t with
  | Nominal _ [] => r
  | Nominal _ (a :: args) => "" :: "g" :: comps a ++ comps_list args ++ r
  | OrType _ rest => "or" :: comps rest ++ r
  end.

Definition path_of (t : QualType) : list string := match t with Nominal path _ | OrType path _ => path end.

Lemma comps_behind t r : comps t ++ r = path_of t ++ behind t r.
Proof. destruct t as [path [|a args]|path rest]; cbn [comps path_of behind]; rewrite <- ?app_assoc; simpl; by rewrite <- ?app_assoc. Qed.

Lemma behind_end t r : comma_or_end r -> path_end (behind t r).
Proof. destruct t as [path [|a args]|path rest]; [apply comma_path_end|by left|by right]. Qed.

Lemma path_of_identifiers t : well_formed arity t = true -> forallb is_identifier (path_of t) = true.
Proof. destruct t as [path args|path rest]; [by intros (_ & ? & _)%well_formed_inv|by intros (_ & ? & _)%or_inv]. Qed.

Lemma readable_all t : readable t.
Proof.
  induction t as [path args IH|path rest IH] using QualType_nested_ind; intros t' r r' Hw Hw' Hr Hr' E; rewrite !comps_behind in E;
    (apply path_split in E as [Ep Et]; [|by (apply path_of_identifiers || apply behind_end)..]).
  - destruct t' as [path' args'|path' rest']; cbn [path_of] in Ep; subst path'.
    2:{ destruct args; cbn [behind] in Et; [subst r; done|done]. }
    apply well_formed_inv in Hw as (_ & _ & Hl & Ha), Hw' as (_ & _ & Hl' & Ha'). rewrite <- Hl' in Hl.
    destruct args as [|a args], args' as [|a' args']; cbn [behind] in Et; [by subst|done|done|].
    injection Et as Et. apply Forall_cons in IH as [IHa IH], Ha as [Hwa Ha], Ha' as [Hwa' Ha'].
    apply IHa in Et as [-> Et]; [|done|done|by apply comps_list_end..].
    apply comps_list_split in Et as [-> ->]; [done|done|done|done|done|done|]. left. simpl in Hl. lia.
  - apply or_inv in Hw as (_ & _ & Hw). destruct t' as [path' args'|path' rest']; cbn [path_of] in Ep; subst path'.
    { destruct args'; cbn [behind] in Et; [subst r'; done|done]. }
    apply or_inv in Hw' as (_ & _ & Hw'). cbn [behind] in Et. injection Et as Et. by apply IH in Et as [-> ->].
Qed.
End injective.

(** ** Distinct types have distinct names *)

(** A type with a name of its own, or an anonymous union of such types. *)
Inductive CNamed := Single (t : QualType) | AnonymousUnion (members : list QualType).

Definition to_mtype (u : CNamed) : MType :=
  match u with
  | Single t => MNamed (show t)
  | AnonymousUnion members => MAnonymousUnion (map (fun t => MNamed (show t)) members)
  end.

Definition named_well_formed (arity : list string -> nat) (u : CNamed) : bool :=
  match u with Single t => well_formed arity t | AnonymousUnion members => forallb (well_formed arity) members end.

Lemma mangle_union arity members : forallb (well_formed arity) members = true ->
  mangle_type (to_mtype (AnonymousUnion members)) = joined ("__u" :: comps_list members).
Proof.
  intros Hw. unfold to_mtype. cbn [mangle_type]. rewrite map_map. cbn [mangle_type].
  assert (Hj : forall l s, Forall (fun t => well_formed arity t = true) l ->
    join "$$" (s :: map (fun t => mangle_qualname (show t)) l) = s +:+ joined (comps_list l)).
  { induction l as [|t l IH]; intros s Hl; [by rewrite append_empty|]. apply Forall_cons in Hl as [Ht Hl].
    cbn [map]. change (join "$$" (s :: mangle_qualname (show t) :: ?rest)) with
      (s +:+ "$$" +:+ join "$$" (mangle_qualname (show t) :: rest)). rewrite IH by done.
    change (comps_list (t :: l)) with (("" :: comps t) ++ comps_list l). rewrite joined_app.
    cbn [joined]. rewrite <- (mangle_show arity t Ht), !append_assoc. done. }
  rewrite Hj; [done|]. apply Forall_forall. intros t Ht%list_elem_of_In. rewrite forallb_forall in Hw. by apply Hw.
Qed.

Lemma show_head arity t : well_formed arity t = true -> exists c s, mangle_qualname (show t) = String c s /\ c <> "$"%char.
Proof.
  intros Hw. pose proof (mangle_show arity t Hw) as E. pose proof (comps_identifiers arity t Hw) as Hid.
  assert (Hp : path_of t <> [] /\ forallb is_identifier (path_of t) = true).
  { split; [|by eapply path_of_identifiers]. destruct t; [by apply well_formed_inv in Hw as (? & _)|by apply or_inv in Hw as (? & _)]. }
  destruct Hp as [Hne Hp]. pose proof (comps_behind t []) as El. rewrite app_nil_r in El. rewrite El in E.
  destruct (path_of t) as [|x path]; [done|]. cbn [app joined] in E.
  change (String "$" (mangle_qualname (show t)) = String "$" (x +:+ joined (path ++ behind t []))) in E.
  assert (mangle_qualname (show t) = x +:+ joined (path ++ behind t [])) as -> by congruence.
  apply andb_prop in Hp as [[Hx Hx']%andb_prop _]. destruct x as [|c x]; [done|].
  exists c, (x +:+ joined (path ++ behind t [])). split; [done|]. intros ->. done.
Qed.

(** C32: generic instances with a fixed number of arguments per class (no tuples or callables), whose
    arguments are such types or unions of them with at most the last member generic, and
    anonymous unions of them, have distinct C names when they are distinct,
    although the closing bracket is dropped and "[" and "," share a prefix. *)
Theorem mangle_type_injective arity u u' : named_well_formed arity u = true -> named_well_formed arity u' = true ->
  mangle_type (to_mtype u) = mangle_type (to_mtype u') -> u = u'.
Proof.
  assert (Hsu : forall t members, well_formed arity t = true -> forallb (well_formed arity) members = true ->
    mangle_type (to_mtype (Single t)) <> mangle_type (to_mtype (AnonymousUnion members))).
  { intros t members Ht Hm E. rewrite (mangle_union arity) in E by done.
    destruct (show_head arity t Ht) as (c & s & Es & Hc). cbn [to_mtype mangle_type] in E. rewrite Es in E.
    cbn [joined] in E. change ("$" +:+ ?x) with (String "$" x) in E. congruence. }
  destruct u as [t|ts], u' as [t'|ts']; simpl named_well_formed; intros Hw Hw' E.
  - f_equal. assert (Ej : joined (comps t) = joined (comps t')).
    { rewrite <- (mangle_show arity t Hw), <- (mangle_show arity t' Hw'). cbn [to_mtype mangle_type] in E. by rewrite E. }
    apply joined_inj in Ej; [|by eapply comps_identifiers..].
    apply (readable_all arity t t' [] []); [done..|]. by rewrite !app_nil_r.
  - exfalso. by eapply Hsu.
  - exfalso. by eapply (Hsu t' ts).
  - f_equal. rewrite !(mangle_union arity) in E by done.
    assert (Hall : forall l, forallb (well_formed arity) l = true -> Forall (fun t => well_formed arity t = true) l).
    { intros l. rewrite forallb_forall, Forall_forall. intros H t Ht%list_elem_of_In. by apply H. }
    apply joined_inj in E.
    + injection E as E. apply (comps_list_split arity ts) with (r := []) (r' := []);
        [apply Forall_forall; intros; apply readable_all|by apply Hall|by apply Hall|done|done|by right|].
      by rewrite !app_nil_r.
    + constructor; [done|]. apply comps_list_identifiers. eapply Forall_impl; [by apply Hall|]. intros t. apply comps_identifiers.
    + constructor; [done|]. apply comps_list_identifiers. eapply Forall_impl; [by apply Hall|]. intros t. apply comps_identifiers.
Qed.

Lemma mangle_type_injective_witness :
  let arity path := if bool_decide (path = ["builtins"; "Result"]) then 2%nat
                    else if bool_decide (path = ["builtins"; "list"]) then 1%nat else 0%nat in
  let str := Nominal ["builtins"; "str"] [] in
  let list_of t := Nominal ["builtins"; "list"] [t] in
  let result t := Nominal ["builtins"; "Result"] [t; str] in
  let optional := OrType ["builtins"; "str"] (Nominal ["intrinsics"; "NoneType"] []) in
  mangle_type (to_mtype (Single (result (list_of optional)))) =
    "builtins$Result$$g$builtins$list$$g$builtins$str$or$intrinsics$NoneType$$builtins$str" /\
  mangle_type (to_mtype (Single (result (list_of optional)))) <> mangle_type (to_mtype (Single (result optional))) /\
  mangle_type (to_mtype (AnonymousUnion [list_of str; str])) <> mangle_type (to_mtype (AnonymousUnion [list_of (list_of str)])).
Proof.
  intros arity str list_of result optional. split; [by vm_compute|].
  split; intros E; (apply (mangle_type_injective arity) in E; [discriminate E|by vm_compute|by vm_compute]).
Defined.

(** Distinct types with one name: a tuple has any number of elements, and a
    union as a type argument has no brackets of its own. *)
Theorem mangle_qualname_collides :
  mangle_qualname "tuple[tuple[m.A,m.B],m.C]" = mangle_qualname "tuple[tuple[m.A,m.B,m.C]]" /\
  mangle_qualname "tuple[tuple[m.A,m.B],m.C,m.D]" = mangle_qualname "tuple[tuple[m.A,m.B,m.C],m.D]" /\
  mangle_qualname "builtins.Result[builtins.list[builtins.str]|intrinsics.NoneType,m.E]" =
  mangle_qualname "builtins.Result[builtins.list[builtins.str|intrinsics.NoneType],m.E]".
Proof. by vm_compute. Qed.

(** ** Names of locals *)

Definition local_suffix (v : Local_) : option nat := if needs_uid_suffix v then Some (l_uid v) else None.

Definition suffix_text (n : option nat) : string := match n with Some n => "$" +:+ pretty n | None => "" end.

Definition base_name (stem : string) : string := if bool_decide (stem ∈ C_KEYWORDS) then "_" +:+ stem else stem.

Lemma c_local_name_split v : c_local_name v = base_name (l_stem v) +:+ suffix_text (local_suffix v).
Proof. unfold c_local_name, local_suffix, base_name. destruct (needs_uid_suffix v); [done|]. symmetry. apply append_empty. Qed.

Lemma base_name_identifier s : is_identifier s = true -> is_identifier_tail (base_name s) = true.
Proof.
  intros Hs%is_identifier_tail_of. unfold base_name. case_bool_decide; [|done].
  change ("_" +:+ s) with (String "_" s). cbn [is_identifier_tail]. by rewrite Hs.
Qed.

Lemma keyword_prefixed s : s ∈ C_KEYWORDS -> "_" +:+ s ∉ C_KEYWORDS.
Proof.
  assert (Hk : forallb (fun k => negb (bool_decide ("_" +:+ k ∈ C_KEYWORDS))) C_KEYWORDS = true) by by vm_compute.
  rewrite forallb_forall in Hk. intros Hs%list_elem_of_In%Hk. by apply negb_true_iff, bool_decide_eq_false in Hs.
Qed.

Lemma base_name_inj s s' : base_name s = base_name s' <->
  s = s' \/ (s ∈ C_KEYWORDS /\ s' = "_" +:+ s) \/ (s' ∈ C_KEYWORDS /\ s = "_" +:+ s').
Proof.
  unfold base_name. split.
  - case_bool_decide as H; case_bool_decide as H'; intros E; [left|right; left; by split|right; right; by split|by left].
    change (String "_" s = String "_" s') in E. by injection E.
  - intros [->|[[H ->]|[H ->]]]; [done| |]; pose proof (keyword_prefixed _ H);
      rewrite (bool_decide_true _ H), bool_decide_false; done.
Qed.

Lemma suffix_text_inj n n' : suffix_text n = suffix_text n' <-> n = n'.
Proof.
  split; [|by intros ->]. destruct n as [n|], n' as [n'|]; intros E; try done.
  change (String "$" (pretty n) = String "$" (pretty n')) in E. f_equal. apply (inj pretty). congruence.
Qed.

(** Two locals get the same C name exactly when they have the same uid
    suffix, or both none, and the same stem or stems [s] and [_s] for a C
    keyword [s]; and no local has the name of a temporary. *)
Theorem c_local_name_shared v v' n : is_identifier (l_stem v) = true -> is_identifier (l_stem v') = true ->
  (c_local_name v = c_local_name v' <->
   local_suffix v = local_suffix v' /\
   (l_stem v = l_stem v' \/ (l_stem v ∈ C_KEYWORDS /\ l_stem v' = "_" +:+ l_stem v) \/
    (l_stem v' ∈ C_KEYWORDS /\ l_stem v = "_" +:+ l_stem v'))) /\
  c_local_name v <> temp_name n.
Proof.
  intros Hv Hv'. rewrite !c_local_name_split. split.
  - rewrite <- base_name_inj, <- suffix_text_inj. split; [|by intros [-> ->]]. intros E.
    apply identifier_split in E as [-> ->]; [done|by apply base_name_identifier..|by destruct (local_suffix v)|by destruct (local_suffix v')].
  - intros E. pose proof (base_name_identifier _ Hv) as Hb. unfold temp_name in E.
    destruct (base_name (l_stem v)) as [|c s] eqn:Eb.
    + unfold base_name in Eb. case_bool_decide; [done|]. by rewrite Eb in Hv.
    + change (String c (s +:+ suffix_text (local_suffix v)) = String "$" ("t" +:+ pretty n)) in E. injection E as -> _. done.
Qed.

Lemma c_local_name_shared_witness :
  c_local_name (mkLocal "switch" 1 false) = c_local_name (mkLocal "_switch" 2 false) /\
  c_local_name (mkLocal "t5" 3 false) <> temp_name 5.
Proof.
  split.
  - apply (c_local_name_shared (mkLocal "switch" 1 false) (mkLocal "_switch" 2 false) 0); [done|done|].
    split; [done|]. right. left. split; [|done]. by apply list_elem_of_In; simpl; tauto.
  - by apply (c_local_name_shared (mkLocal "t5" 3 false) (mkLocal "t5" 3 false) 5).
Defined.
