(* ===== verification/Buffers.v ===== *)
(** * Raw buffers and loops of the library modules

    [Ptr[u8]] memory from [sys.alloc] as the library reads and writes it: a cell
    is empty until it is written.  Reading an empty cell, or one outside the
    allocation, is a [Fault] (undefined behaviour of the compiled program).
    [while_] is the [while] statement; [while_ok] is the rule the proofs use. *)

From S2P Require Import Prelude RawList Bits.

Local Open Scope Z_scope.
Local Open Scope monad_scope.

(** ** Buffers *)

Abbreviation Buffer := (list (option Z)).

(** [sys.alloc[u8]( n )]; memory is taken to suffice. *)
Definition alloc_u8 (n : nat) : Buffer := replicate n None.

Definition read_u8 (d : Buffer) (i : nat) : result abort Z :=
  match d !! i with Some (Some x) => Ok x | _ => Err Fault end.

Definition write_u8 (i : nat) (x : Z) (d : Buffer) : result abort Buffer :=
  if (i <? length d)%nat then Ok (<[i := Some x]> d) else Err Fault.

(** The buffer starts with [l]. *)
Definition starts (d : Buffer) (l : list Z) : Prop := exists rest, d = map Some l ++ rest.

Lemma starts_read d l i x : starts d l -> l !! i = Some x -> read_u8 d i = Ok x.
Proof.
  intros [rest ->] Hx. unfold read_u8. rewrite lookup_app_l by (rewrite length_map; eapply lookup_lt_Some; eassumption).
  by rewrite (list_lookup_fmap Some), Hx.
Qed.

Lemma starts_write d l i x : starts d l -> (i < length l)%nat ->
  exists d', write_u8 i x d = Ok d' /\ length d' = length d /\ starts d' (<[i := x]> l).
Proof.
  intros [rest ->] Hi. unfold write_u8. rewrite (proj2 (Nat.ltb_lt _ _)) by (rewrite length_app, length_map; lia).
  eexists. split; [done|]. split; [by rewrite length_insert|]. exists rest.
  rewrite insert_app_l by (by rewrite length_map). f_equal. symmetry. apply (list_fmap_insert Some).
Qed.

Lemma starts_push d l x : starts d l -> (length l < length d)%nat ->
  exists d', write_u8 (length l) x d = Ok d' /\ length d' = length d /\ starts d' (l ++ [x]).
Proof.
  intros [rest ->] Hl. unfold write_u8. rewrite (proj2 (Nat.ltb_lt _ _)) by done.
  eexists. split; [done|]. split; [by rewrite length_insert|]. rewrite length_app, length_map in Hl.
  destruct rest as [|o rest]; [simpl in Hl; lia|]. exists rest.
  replace (length l) with (length (map Some l) + 0)%nat by (rewrite length_map; lia).
  by rewrite insert_app_r, map_app, <- app_assoc.
Qed.

Lemma starts_take d l n : starts d l -> starts d (take n l).
Proof.
  intros [rest ->]. exists (map Some (drop n l) ++ rest). by rewrite app_assoc, <- map_app, take_drop.
Qed.

Lemma starts_prefix d l l' : starts d (l ++ l') -> starts d l.
Proof. intros H. apply (starts_take _ _ (length l)) in H. by rewrite take_app_length in H. Qed.

Lemma starts_nil d : starts d [].
Proof. by exists d. Qed.

Lemma starts_le d l : starts d l -> (length l <= length d)%nat.
Proof. intros [rest ->]. rewrite length_app, length_map. lia. Qed.

(** ** Loops *)

Fixpoint while_ {S} (fuel : nat) (cond : S -> bool) (body : S -> result abort S) (s : S) : result abort S :=
  if cond s then
    match fuel with
    | O => Err Fault
    | Datatypes.S fuel => let? s := body s in while_ fuel cond body s
    end
  else Ok s.

Lemma while_ok {S} (Inv : S -> Prop) (measure : S -> nat) cond (body : S -> result abort S) fuel :
  (forall s, Inv s -> cond s = true -> exists s', body s = Ok s' /\ Inv s' /\ (measure s' < measure s)%nat) ->
  forall s, Inv s -> (measure s <= fuel)%nat ->
  exists s', while_ fuel cond body s = Ok s' /\ Inv s' /\ cond s' = false.
Proof.
  intros Hb. induction fuel as [|fuel IH]; intros s Hs Hf; cbn [while_]; destruct (cond s) eqn:Hc; [| | |by exists s].
  - destruct (Hb s Hs Hc) as (s' & _ & _ & Hm). lia.
  - by exists s.
  - destruct (Hb s Hs Hc) as (s' & -> & Hs' & Hm). cbn [result_bind]. apply IH; [done|lia].
Qed.

(** [i = 0; while i < n: body; i += 1], where the body changes neither [i] nor [n]. *)
Definition for_upto {S} (n : nat) (body : S -> nat -> result abort S) (s : S) : result abort S :=
  result_fold body s (seq 0 n).

Lemma for_upto_ok {S} (Inv : nat -> S -> Prop) n (body : S -> nat -> result abort S) s :
  (forall i s, (i < n)%nat -> Inv i s -> exists s', body s i = Ok s' /\ Inv (i + 1)%nat s') ->
  Inv O s -> exists s', for_upto n body s = Ok s' /\ Inv n s'.
Proof.
  intros Hb H0. unfold for_upto.
  destruct (result_fold_ok (fun done s => Inv (length done) s) body (seq 0 n)) with (a := s) as (s' & E & H); [|done|].
  - intros done i todo a Hl Ha. assert (Hi : i = length done /\ (length done < n)%nat).
    { assert (Hn : length (seq 0 n) = (length done + Datatypes.S (length todo))%nat) by (rewrite Hl, length_app; done).
      rewrite length_seq in Hn. split; [|lia].
      assert (Hx : seq 0 n !! length done = Some i) by (rewrite Hl; by apply list_lookup_middle).
      apply lookup_seq in Hx as [-> _]. done. }
    destruct Hi as [-> Hi]. rewrite length_app. by apply Hb.
  - exists s'. by rewrite length_seq in H.
Qed.

(** [i = n; while i > 0: i -= 1; body] *)
Fixpoint for_down {S} (n : nat) (body : S -> nat -> result abort S) (s : S) : result abort S :=
  match n with
  | O => Ok s
  | Datatypes.S i => let? s := body s i in for_down i body s
  end.

Lemma for_down_ok {S} (Inv : nat -> S -> Prop) n (body : S -> nat -> result abort S) :
  (forall i s, (i < n)%nat -> Inv (i + 1)%nat s -> exists s', body s i = Ok s' /\ Inv i s') ->
  forall s, Inv n s -> exists s', for_down n body s = Ok s' /\ Inv O s'.
Proof.
  induction n as [|n IH]; intros Hb s Hs; cbn [for_down]; [by exists s|].
  destruct (Hb n s) as (s' & -> & Hs'); [lia|by replace (n + 1)%nat with (Datatypes.S n) by lia|]. cbn [result_bind].
  apply IH; [intros; apply Hb; [lia|done]|done].
Qed.

(** ** Copying *)

(** [i = 0; while i < n: dst[i] = src[i]; i += 1] *)
Definition copy_u8 (n : nat) (src dst : Buffer) : result abort Buffer :=
  for_upto n (fun dst i => let? x := read_u8 src i in write_u8 i x dst) dst.

Lemma copy_ok src l dst : starts src l -> (length l <= length dst)%nat ->
  exists d, copy_u8 (length l) src dst = Ok d /\ length d = length dst /\ starts d l.
Proof.
  intros Hs Hl. unfold copy_u8.
  destruct (for_upto_ok (fun i d => length d = length dst /\ starts d (take i l)) (length l)
    (fun d i => let? x := read_u8 src i in write_u8 i x d) dst) as (d & E & Hd & Hs').
  - intros i d Hi [Hd Hi']. destruct (lookup_lt_is_Some_2 l i Hi) as [x Hx].
    rewrite (starts_read _ _ _ _ Hs Hx). cbn [result_bind].
    assert (Ht : length (take i l) = i) by (rewrite length_take; lia).
    destruct (starts_push d _ x Hi') as (d' & E & Hd' & Hs'); [rewrite Ht; lia|].
    rewrite Ht in E. exists d'. split; [done|]. split; [congruence|].
    by rewrite Nat.add_1_r, (take_S_r _ _ x).
  - by split; [|apply starts_nil].
  - exists d. by rewrite firstn_all in Hs'.
Qed.
