(* ===== verification/IntDigits.v ===== *)
(** * Arbitrary-precision integers: digits ([lib/builtins/__int.py])

    [int] keeps the decimal digits of its magnitude, least significant first, in
    a raw buffer, with a digit count, the allocated size and a sign.  This file
    has the object and the operations on magnitudes; [val] is the number a list
    of digits stands for and [mag] relates an object to its digits.  Counts and
    indices are natural numbers, as allocated memory bounds them; the arithmetic
    on digits is checked at its own width. *)

From S2P Require Import Prelude RawList Bits Buffers.

Local Open Scope Z_scope.
Local Open Scope monad_scope.


(** ** The object *)

Inductive IntError := InvalidDigit | Overflow | Other.

Record Int := mkInt {
  digits : Buffer;
  num_digits : nat;
  num_allocated : nat;
  is_negative : bool;
}.

Definition set_negative (b : bool) (x : Int) := mkInt (digits x) (num_digits x) (num_allocated x) b.
Definition set_digits (d : Buffer) (x : Int) := mkInt d (num_digits x) (num_allocated x) (is_negative x).
Definition set_num_digits (n : nat) (x : Int) := mkInt (digits x) n (num_allocated x) (is_negative x).

(** ** Construction *)

(** The divisions of a [u32] by ten that leave something. *)
Definition digit_steps (v : Z) : nat := if v =? 0 then O else S (Z.to_nat (Z.log2 v)).

Definition digit_count (value : Z) : result abort nat :=
  if value =? 0 then Ok 1%nat
  else
    let? (_, count) := while_ (digit_steps value) (fun '(v, _) => 0 <? v)
                          (fun '(v, count) => Ok (v / 10, S count)) (value, O) in
    Ok count.

(** [int( value )] for an [i32]. *)
Definition int_of_i32 (value : Z) : result abort Int :=
  let negative := value <? 0 in
  let msg := "i64 is wide enough to negate any i32 value" in
  let? magnitude := if negative then let? m := panic_i64 msg (- value) in panic_u32 msg m else panic_u32 msg value in
  let? count := digit_count magnitude in
  let? (d, _) := for_upto count (fun '(d, m) i =>
    let? x := panic_u8 "writing at most 10 digits cannot overflow" (m mod 10) in
    let? d := write_u8 i x d in
    Ok (d, m / 10)) (alloc_u8 count, magnitude) in
  Ok (mkInt d count count negative).

Definition clone (self : Int) : result abort Int :=
  let capacity := if (0 <? num_allocated self)%nat then num_allocated self else 1%nat in
  let? new_digits := copy_u8 (num_digits self) (digits self) (alloc_u8 capacity) in
  Ok (mkInt new_digits (num_digits self) capacity (is_negative self)).

(** ** Magnitudes *)

Definition ensure_digits (digits_needed : nat) (self : Int) : result abort (result IntError Int) :=
  if (digits_needed <=? num_allocated self)%nat then Ok (Ok self)
  else
    let? new_digits := copy_u8 (num_digits self) (digits self) (alloc_u8 digits_needed) in
    Ok (Ok (mkInt new_digits (num_digits self) digits_needed (is_negative self))).

Fixpoint compare_digits (i : nat) (a b : Buffer) : result abort Z :=
  match i with
  | O => Ok 0
  | S i =>
      let? da := read_u8 a i in
      let? db := read_u8 b i in
      if db <? da then Ok 1 else if da <? db then Ok (-1) else compare_digits i a b
  end.

Definition compare_magnitude (a b : Int) : result abort Z :=
  if (num_digits b <? num_digits a)%nat then Ok 1
  else if (num_digits a <? num_digits b)%nat then Ok (-1)
  else compare_digits (num_digits a) (digits a) (digits b).

Definition longer (a b : Int) : nat := if (num_digits b <? num_digits a)%nat then num_digits a else num_digits b.

(** [self += |other|]: one iteration, then the whole. *)
Definition add_digit (other : Int) (s : Int * nat * Z) : result abort (Int * nat * Z) :=
  let msg := "per-digit sums stay far under u8's range" in
  let '(self, i, carry) := s in
  let? self :=
    if (i =? num_digits self)%nat then
      let? d := write_u8 i 0 (digits self) in Ok (set_num_digits (num_digits self + 1) (set_digits d self))
    else Ok self in
  let? other_digit := if (i <? num_digits other)%nat then read_u8 (digits other) i else Ok 0 in
  let? x := read_u8 (digits self) i in
  let? t := panic_u8 msg (x + other_digit) in
  let? total := panic_u8 msg (t + carry) in
  let? d := write_u8 i (total mod 10) (digits self) in
  Ok (set_digits d self, (i + 1)%nat, if 10 <=? total then 1 else 0).

Definition add_magnitude (other self : Int) : result abort (result IntError Int) :=
  let digits_needed := (longer self other + 1)%nat in
  let?! self := ensure_digits digits_needed self in
  let? (self, _, _) := while_ digits_needed (fun '(_, i, carry) => (i <? num_digits other)%nat || (0 <? carry))
                          (add_digit other) (self, O, 0) in
  Ok (Ok self).

(** [self = ||self| - |other||].  The greater of the two buffers is [self]'s own
    when [greater_is_self]; it is read as the loop overwrites it. *)
Definition subtract_digit (greater_is_self : bool) (smaller_num_digits : nat) (other : Int) (s : Int * Z) (i : nat) :
    result abort (Int * Z) :=
  let msg := "per-digit differences stay within i8" in
  let '(self, borrow) := s in
  let greater_digits := if greater_is_self then digits self else digits other in
  let smaller_digits := if greater_is_self then digits other else digits self in
  let? g := read_u8 greater_digits i in
  let? greater_digit := panic_i8 msg g in
  let? smaller_digit := if (i <? smaller_num_digits)%nat then let? x := read_u8 smaller_digits i in panic_i8 msg x else Ok 0 in
  let? t := panic_i8 msg (greater_digit - smaller_digit) in
  let? new_digit := panic_i8 msg (t - borrow) in
  let? (new_digit, borrow) :=
    if new_digit <? 0 then let? n := panic_i8 msg (new_digit + 10) in Ok (n, 1) else Ok (new_digit, 0) in
  let? x := panic_u8 msg new_digit in
  let? d := write_u8 i x (digits self) in
  let self := set_digits d self in
  Ok (if negb (new_digit =? 0) then set_num_digits (i + 1) self else self, borrow).

Definition subtract_magnitude (other self : Int) : result abort (result IntError Int) :=
  let?! self := ensure_digits (longer self other + 1) self in
  let? c := compare_magnitude self other in
  let greater_is_self := 0 <? c in
  let '(greater_num_digits, smaller_num_digits) :=
    if greater_is_self then (num_digits self, num_digits other) else (num_digits other, num_digits self) in
  let? (self, _) := for_upto greater_num_digits (subtract_digit greater_is_self smaller_num_digits other)
                       (set_num_digits 1 self, 0) in
  Ok (Ok self).

(** [while n > 1 and digits[n - 1] == 0: n -= 1] *)
Fixpoint trim (d : Buffer) (n : nat) : result abort nat :=
  match n with
  | S (S _ as m) => let? x := read_u8 d m in if x =? 0 then trim d m else Ok n
  | _ => Ok n
  end.

(** [self = self * 10 + digit] *)
Definition shift_and_add_digit (digit : Z) (self : Int) : result abort (result IntError Int) :=
  let?! self := ensure_digits (num_digits self + 1) self in
  let? d := for_down (num_digits self) (fun d i => let? x := read_u8 d i in write_u8 (i + 1) x d) (digits self) in
  let? d := write_u8 0 digit d in
  let? n := trim d (num_digits self + 1) in
  Ok (Ok (set_num_digits n (set_digits d self))).

Definition is_zero (self : Int) : result abort bool :=
  if (num_digits self =? 1)%nat then let? x := read_u8 (digits self) 0 in Ok (x =? 0) else Ok false.

(** ** Digits and their value *)

Definition digit (d : Z) : Prop := 0 <= d < 10.

Fixpoint val (l : list Z) : Z := match l with [] => 0 | d :: l => d + 10 * val l end.

Definition pow10 (n : nat) : Z := 10 ^ Z.of_nat n.

(** No leading zeros, and at least one digit. *)
Definition canonical (l : list Z) : Prop :=
  l <> [] /\ Forall digit l /\ (length l = 1%nat \/ pow10 (length l - 1) <= val l).

Lemma pow10_S n : pow10 (S n) = 10 * pow10 n.
Proof. unfold pow10. rewrite Nat2Z.inj_succ, Z.pow_succ_r by lia. done. Qed.

Lemma pow10_plus n m : pow10 (n + m) = pow10 n * pow10 m.
Proof. unfold pow10. rewrite Nat2Z.inj_add, Z.pow_add_r by lia. done. Qed.

Lemma pow10_pos n : 0 < pow10 n.
Proof. unfold pow10. apply Z.pow_pos_nonneg; lia. Qed.

Lemma pow10_mono n m : (n <= m)%nat -> pow10 n <= pow10 m.
Proof. intros Hn. apply Z.pow_le_mono_r; lia. Qed.

Lemma pow10_lt n m : pow10 n < pow10 m -> (n < m)%nat.
Proof. intros Hlt. apply Nat.lt_nge. intros Hge%pow10_mono. lia. Qed.

Lemma val_app a b : val (a ++ b) = val a + pow10 (length a) * val b.
Proof.
  induction a as [|x a IH]; cbn [app val length]; [unfold pow10; simpl; lia|]. rewrite pow10_S, IH. ring.
Qed.

Lemma val_bound l : Forall digit l -> 0 <= val l < pow10 (length l).
Proof.
  induction 1 as [|x l Hx Hl IH]; cbn [val length]; [done|]. rewrite pow10_S. unfold digit in Hx. lia.
Qed.

Lemma val_replicate n : val (replicate n 0) = 0.
Proof. induction n as [|n IH]; simpl; [done|]. lia. Qed.

Lemma val_take_S l i x : l !! i = Some x -> val (take (i + 1) l) = val (take i l) + pow10 i * x.
Proof.
  intros Hx. rewrite Nat.add_1_r, (take_S_r _ _ _ Hx), val_app, length_take_le; [simpl; lia|].
  apply lookup_lt_Some in Hx. lia.
Qed.

Lemma val_insert l i x y : l !! i = Some x -> val (<[i := y]> l) = val l + pow10 i * (y - x).
Proof.
  intros Hx. assert (Hi : (i < length l)%nat) by (by eapply lookup_lt_Some).
  rewrite insert_take_drop by done. rewrite <- (take_drop_middle l i x) at 3 by done.
  rewrite !val_app. cbn [val]. rewrite length_take_le by lia. lia.
Qed.

Lemma val_split l i x : l !! i = Some x -> val l = val (take i l) + pow10 i * (x + 10 * val (drop (S i) l)).
Proof.
  intros Hx. rewrite <- (take_drop_middle l i x) at 1 by done. rewrite val_app. cbn [val].
  rewrite length_take_le; [done|]. apply lookup_lt_Some in Hx. lia.
Qed.

Lemma Forall_at {A} (P : A -> Prop) l i x : Forall P l -> l !! i = Some x -> P x.
Proof. intros Hl Hx. by eapply Forall_lookup_1. Qed.

Lemma canonical_bounds l : canonical l ->
  0 <= val l /\ val l < pow10 (length l) /\ ((2 <= length l)%nat -> pow10 (length l - 1) <= val l).
Proof. intros (_ & Hd & Hl). destruct (val_bound l Hd). split_and!; [done|done|lia]. Qed.

Lemma canonical_length l : canonical l -> (0 < length l)%nat.
Proof. intros (Hn & _). destruct l; [done|simpl; lia]. Qed.

Lemma canonical_digits l : canonical l -> Forall digit l.
Proof. by intros (_ & Hd & _). Qed.

Lemma canonical_at l i x : l !! i = Some x -> canonical l -> digit x.
Proof. intros Hx Hc. eapply Forall_at; [by apply canonical_digits|done]. Qed.

(** More digits make a greater number. *)
Lemma canonical_length_lt a b : canonical a -> canonical b -> (length a < length b)%nat -> val a < val b.
Proof.
  intros Ha Hb Hl. destruct (canonical_bounds a Ha) as (_ & Ha1 & _), (canonical_bounds b Hb) as (_ & _ & Hb1).
  pose proof (canonical_length a Ha). specialize (Hb1 ltac:(lia)).
  pose proof (pow10_mono (length a) (length b - 1) ltac:(lia)). lia.
Qed.

Lemma canonical_single d : digit d -> canonical [d].
Proof. intros Hd. split_and!; [done|by constructor|by left]. Qed.

Lemma val_zero l : canonical l -> val l = 0 -> l = [0].
Proof.
  intros Hc Hv. destruct (canonical_bounds l Hc) as (_ & _ & Hl). destruct Hc as (Hn & Hd & _).
  destruct l as [|x [|y l]]; [done|f_equal; simpl in Hv; lia|].
  specialize (Hl ltac:(simpl; lia)). pose proof (pow10_pos (length (x :: y :: l) - 1)). lia.
Qed.

(** ** What an object stands for *)

Record mag (x : Int) (l : list Z) : Prop := {
  mag_starts : starts (digits x) l;
  mag_count : num_digits x = length l;
  mag_allocated : num_allocated x = length (digits x);
}.

Lemma mag_at x l i d : mag x l -> l !! i = Some d -> read_u8 (digits x) i = Ok d.
Proof. intros [Hs _ _]. by apply starts_read. Qed.

Lemma in_u8 msg z : 0 <= z <= 255 -> panic_u8 msg z = Ok z.
Proof. apply in_panic_ok. Qed.

Lemma in_i8 msg z : -128 <= z <= 127 -> panic_i8 msg z = Ok z.
Proof. apply in_panic_ok. Qed.

(** *** Comparison *)

Lemma compare_digits_spec a b la lb : starts a la -> starts b lb -> Forall digit la -> Forall digit lb ->
  length la = length lb -> forall i, (i <= length la)%nat -> drop i la = drop i lb ->
  compare_digits i a b = Ok (Z.sgn (val la - val lb)).
Proof.
  intros Ha Hb Hda Hdb Hl. induction i as [|i IH]; intros Hi Hdrop; cbn [compare_digits].
  - rewrite !drop_0 in Hdrop. rewrite Hdrop, Z.sub_diag. done.
  - destruct (lookup_lt_is_Some_2 la i ltac:(lia)) as [x Hx], (lookup_lt_is_Some_2 lb i ltac:(lia)) as [y Hy].
    rewrite (starts_read _ _ _ _ Ha Hx), (starts_read _ _ _ _ Hb Hy). cbn [result_bind].
    destruct (val_bound (take i la)) as [Ha0 Ha1]; [by apply Forall_take|].
    destruct (val_bound (take i lb)) as [Hb0 Hb1]; [by apply Forall_take|].
    rewrite length_take_le in Ha1, Hb1 by lia.
    pose proof (val_split _ _ _ Hx) as Ea. pose proof (val_split _ _ _ Hy) as Eb. rewrite Hdrop in Ea.
    destruct (Z.ltb_spec y x); [f_equal; symmetry; apply Z.sgn_pos; nia|].
    destruct (Z.ltb_spec x y); [f_equal; symmetry; apply Z.sgn_neg; nia|].
    assert (x = y) as -> by lia. apply IH; [lia|].
    rewrite <- (take_drop_middle la i y) at 1 by done. rewrite <- (take_drop_middle lb i y) at 1 by done.
    rewrite !drop_app_ge by (rewrite length_take; lia). rewrite !length_take_le, Nat.sub_diag by lia. simpl. by rewrite Hdrop.
Qed.

Lemma compare_magnitude_spec a b la lb : mag a la -> mag b lb -> canonical la -> canonical lb ->
  compare_magnitude a b = Ok (Z.sgn (val la - val lb)).
Proof.
  intros Ha Hb Hca Hcb. unfold compare_magnitude. rewrite (mag_count _ _ Ha), (mag_count _ _ Hb).
  destruct (Nat.ltb_spec (length lb) (length la)) as [Hlt|Hge].
  { pose proof (canonical_length_lt _ _ Hcb Hca Hlt). f_equal. symmetry. apply Z.sgn_pos. lia. }
  destruct (Nat.ltb_spec (length la) (length lb)) as [Hlt|Hge'].
  { pose proof (canonical_length_lt _ _ Hca Hcb Hlt). f_equal. symmetry. apply Z.sgn_neg. lia. }
  apply compare_digits_spec; [apply Ha|apply Hb|by apply canonical_digits|by apply canonical_digits|lia|lia|].
  rewrite !drop_ge by lia. done.
Qed.

(** *** Growth and copies *)

Lemma ensure_digits_spec n x l : mag x l -> exists x', ensure_digits n x = Ok (Ok x') /\ mag x' l /\
  (n <= length (digits x'))%nat /\ is_negative x' = is_negative x.
Proof.
  intros [Hs Hn Ha]. unfold ensure_digits. destruct (Nat.leb_spec n (num_allocated x)) as [Hle|Hgt].
  - exists x. split_and!; [done|by split|lia|done].
  - rewrite Hn. pose proof (starts_le _ _ Hs) as Hl.
    destruct (copy_ok (digits x) l (alloc_u8 n)) as (d & -> & Hd & Hs'); [done|unfold alloc_u8; rewrite length_replicate; lia|].
    unfold alloc_u8 in Hd. rewrite length_replicate in Hd. eexists. cbn [result_bind]. split; [done|].
    split_and!; [split; simpl; [done|done|by rewrite Hd]|simpl; lia|done].
Qed.

Lemma clone_spec x l : mag x l -> exists x', clone x = Ok x' /\ mag x' l /\ is_negative x' = is_negative x.
Proof.
  intros [Hs Hn Ha]. unfold clone. rewrite Hn. pose proof (starts_le _ _ Hs) as Hl.
  set (capacity := if (0 <? num_allocated x)%nat then num_allocated x else 1%nat).
  assert (Hc : (length l <= capacity)%nat) by (unfold capacity; destruct (Nat.ltb_spec 0 (num_allocated x)); lia).
  destruct (copy_ok (digits x) l (alloc_u8 capacity)) as (d & -> & Hd & Hs'); [done|unfold alloc_u8; rewrite length_replicate; lia|].
  unfold alloc_u8 in Hd. rewrite length_replicate in Hd. eexists. cbn [result_bind]. split; [done|].
  split; [split; simpl; [done|done|by rewrite Hd]|done].
Qed.

(** *** Addition *)

Lemma other_digit_ok other lb i : mag other lb -> Forall digit lb -> exists y, (if (i <? num_digits other)%nat then read_u8 (digits other) i else Ok 0) = Ok y /\
  digit y /\ val (take (i + 1) lb) = val (take i lb) + pow10 i * y.
Proof.
  intros Hother Hd. rewrite (mag_count _ _ Hother). destruct (Nat.ltb_spec i (length lb)) as [Hi|Hi].
  - destruct (lookup_lt_is_Some_2 lb i Hi) as [y Hy]. exists y. split_and!; [by eapply mag_at| |by apply val_take_S].
    eapply Forall_at; eassumption.
  - exists 0. split_and!; [done|split; lia|rewrite !take_ge by lia; lia].
Qed.

(** The digit at [i], appended first where the number ends. *)
Lemma extend_ok x i ds : mag x ds -> Forall digit ds -> (i <= length ds)%nat -> (i < length (digits x))%nat ->
  exists x' ds', (if (i =? num_digits x)%nat then
      let? d := write_u8 i 0 (digits x) in Ok (set_num_digits (num_digits x + 1) (set_digits d x))
    else Ok x) = Ok x' /\ mag x' ds' /\ Forall digit ds' /\ length ds' = Nat.max (length ds) (i + 1) /\
    val ds' = val ds /\ length (digits x') = length (digits x) /\ is_negative x' = is_negative x.
Proof.
  intros [Hs Hn Ha] Hd Hi Hl. rewrite Hn. destruct (Nat.eqb_spec i (length ds)) as [->|Hne].
  - destruct (starts_push _ _ 0 Hs Hl) as (d & -> & Hd' & Hs'). cbn [result_bind]. eexists _, (ds ++ [0]).
    split; [done|]. rewrite length_app, val_app. simpl.
    split_and!; [split; simpl; [done|by rewrite length_app|congruence]| |lia|lia|done|done].
    apply Forall_app. split; [done|]. constructor; [split; lia|done].
  - exists x, ds. split_and!; [done|by split|done|lia|done..].
Qed.

Section add.
Context (other : Int) (la lb : list Z) (cap : nat).
Context (Hother : mag other lb) (Hca : canonical la) (Hcb : canonical lb).
Context (Hcap : (Nat.max (length la) (length lb) + 1 <= cap)%nat).

Record adding (neg : bool) (s : Int * nat * Z) : Prop := {
  adding_digits : exists ds, mag s.1.1 ds /\ Forall digit ds /\ length ds = Nat.max (length la) s.1.2 /\
    val ds + s.2 * pow10 s.1.2 = val la + val (take s.1.2 lb);
  adding_carry : s.2 = 0 \/ s.2 = 1;
  adding_long : (s.1.2 <= length lb)%nat \/ pow10 (s.1.2 - 1) <= val la + val lb;
  adding_cap : cap = length (digits s.1.1);
  adding_sign : is_negative s.1.1 = neg;
}.

Lemma adding_index neg s : adding neg s -> (s.1.2 < length lb)%nat \/ 0 < s.2 ->
  (s.1.2 < Nat.max (length la) (length lb) + 1)%nat.
Proof.
  intros [(ds & _ & Hd & _ & Hv) Hcy _ _ _] Hc.
  destruct (Nat.lt_ge_cases s.1.2 (length lb)) as [|Hge]; [lia|]. destruct Hc as [|Hc]; [lia|].
  assert (s.2 = 1) as Es by lia. rewrite Es, take_ge in Hv by lia. destruct (val_bound ds Hd) as [Hd0 _].
  destruct (canonical_bounds la Hca) as (_ & Ha & _), (canonical_bounds lb Hcb) as (_ & Hb & _).
  pose proof (pow10_mono (length la) (Nat.max (length la) (length lb)) ltac:(lia)).
  pose proof (pow10_mono (length lb) (Nat.max (length la) (length lb)) ltac:(lia)).
  apply pow10_lt. rewrite Nat.add_1_r, pow10_S. pose proof (pow10_pos (length la `max` length lb)). lia.
Qed.

Lemma add_digit_spec neg s : adding neg s -> (s.1.2 < length lb)%nat \/ 0 < s.2 ->
  exists s', add_digit other s = Ok s' /\ adding neg s' /\ s'.1.2 = (s.1.2 + 1)%nat.
Proof.
  intros Hs Hc. pose proof (adding_index _ _ Hs Hc) as Hi. destruct Hs as [(ds & Hm & Hd & Hl & Hv) Hcy Hlong Hcp Hsg].
  destruct s as [[x i] carry]. cbn [fst snd] in *. unfold add_digit.
  destruct (extend_ok x i ds) as (x' & ds' & -> & Hm' & Hd' & Hl' & Hv' & Hcp' & Hsg'); [done|done|lia|lia|]. cbn [result_bind].
  destruct (other_digit_ok other lb i Hother (canonical_digits _ Hcb)) as (y & -> & Hy & Ey). cbn [result_bind].
  destruct (lookup_lt_is_Some_2 ds' i ltac:(lia)) as [z Hz]. pose proof (Forall_at _ _ _ _ Hd' Hz) as Hz'.
  rewrite (mag_at _ _ _ _ Hm' Hz). cbn [result_bind]. unfold digit in *.
  rewrite in_u8 by lia. cbn [result_bind]. rewrite in_u8 by lia. cbn [result_bind].
  destruct (starts_write _ _ i ((z + y + carry) mod 10) (mag_starts _ _ Hm')) as (d & -> & Hd'' & Hs'); [lia|]. cbn [result_bind].
  eexists. split; [done|]. split; [|done].
  set (carry' := if 10 <=? z + y + carry then 1 else 0).
  assert (Ec : z + y + carry = (z + y + carry) mod 10 + 10 * carry' /\ (carry' = 0 \/ carry' = 1)).
  { unfold carry'. destruct (Z.leb_spec 10 (z + y + carry)); split; try lia;
      Z.div_mod_to_equations; lia. }
  pose proof (Z.mod_pos_bound (z + y + carry) 10 ltac:(lia)) as Hmod. generalize dependent ((z + y + carry) mod 10). intros r Hs' Ec Hr.
  constructor; cbn [fst snd].
  - exists (<[i := r]> ds'). split_and!.
    + split; simpl; [done|by rewrite length_insert; apply Hm'|by rewrite Hd''; apply Hm'].
    + apply Forall_insert; [done|]. split; lia.
    + rewrite length_insert. lia.
    + rewrite (val_insert _ _ _ _ Hz), Ey, Hv'. rewrite (Nat.add_1_r i), pow10_S. nia.
  - lia.
  - destruct (Nat.lt_ge_cases i (length lb)) as [|Hge]; [left; lia|right]. destruct Hc as [|Hc]; [lia|].
    assert (carry = 1) as -> by lia. rewrite take_ge in Hv by lia. destruct (val_bound ds Hd) as [Hd0 _].
    replace (i + 1 - 1)%nat with i by lia. lia.
  - simpl. lia.
  - simpl. congruence.
Qed.
End add.

Lemma add_magnitude_spec x other la lb : mag x la -> mag other lb -> canonical la -> canonical lb ->
  exists x' ds, add_magnitude other x = Ok (Ok x') /\ mag x' ds /\ canonical ds /\ val ds = val la + val lb /\
    is_negative x' = is_negative x.
Proof.
  intros Ha Hb Hca Hcb. unfold add_magnitude. set (n := (longer x other + 1)%nat).
  assert (Hn : n = (Nat.max (length la) (length lb) + 1)%nat).
  { unfold n, longer. rewrite (mag_count _ _ Ha), (mag_count _ _ Hb). destruct (Nat.ltb_spec (length lb) (length la)); lia. }
  destruct (ensure_digits_spec n x la Ha) as (x1 & -> & H1 & Hcap & Hsg). cbn [or_return_pure].
  set (cap := length (digits x1)).
  destruct (while_ok (adding la lb cap (is_negative x)) (fun s => (n - s.1.2)%nat)
    (fun '(_, i, carry) => (i <? num_digits other)%nat || (0 <? carry)) (add_digit other) n) with (s := (x1, O, 0))
    as ([[x2 i] carry] & E & Hinv & Hend).
  - intros [[x2 i] carry] Hinv Hc. rewrite (mag_count _ _ Hb) in Hc. apply orb_prop in Hc.
    rewrite Nat.ltb_lt, Z.ltb_lt in Hc.
    destruct (add_digit_spec other la lb cap Hb Hca Hcb ltac:(lia) _ _ Hinv Hc) as (s' & -> & Hs' & Hi').
    pose proof (adding_index la lb cap Hca Hcb ltac:(lia) _ _ Hinv Hc) as Hi. cbn [fst snd] in *.
    exists s'. split_and!; [done|done|rewrite Hi'; lia].
  - constructor; cbn [fst snd]; [|by left|left; lia|done|done].
    exists la. split_and!; [done|by apply canonical_digits|lia|simpl; lia].
  - simpl. lia.
  - rewrite E. cbn [result_bind]. rewrite (mag_count _ _ Hb) in Hend. apply orb_false_elim in Hend as [Hi%Nat.ltb_ge Hc%Z.ltb_ge].
    destruct Hinv as [(ds & Hm & Hd & Hl & Hv) Hcy Hlong _ Hsg']. cbn [fst snd] in *.
    assert (carry = 0) as -> by lia. rewrite take_ge in Hv by done.
    exists x2, ds. split_and!; [done|done| |lia|done].
    pose proof (canonical_length la Hca). split_and!; [intros ->; simpl in *; lia|done|].
    destruct (Nat.eq_dec (length ds) 1) as [|Hne]; [by left|right].
    destruct (canonical_bounds la Hca) as (Ha0 & _ & Ha1), (canonical_bounds lb Hcb) as (Hb0 & _ & Hb1).
    destruct (Nat.le_gt_cases i (length la)) as [Hle|Hgt].
    { rewrite Hl in Hne |- *. replace (Nat.max (length la) i) with (length la) in * by lia. specialize (Ha1 ltac:(lia)). lia. }
    rewrite Hl in Hne |- *. replace (Nat.max (length la) i) with i in * by lia.
    destruct Hlong as [Hle|]; [|lia]. replace i with (length lb) in * by lia. specialize (Hb1 ltac:(lia)). lia.
Qed.

(** *** Subtraction *)

(** A write at [i] behind the [i] digits already written over [l]. *)
Lemma overwrite_ok d w l x : starts d (w ++ drop (length w) l) -> (length w < length d)%nat ->
  exists d', write_u8 (length w) x d = Ok d' /\ length d' = length d /\ starts d' ((w ++ [x]) ++ drop (length w + 1) l).
Proof.
  intros Hs Hl. destruct (Nat.lt_ge_cases (length w) (length l)) as [Hlt|Hge].
  - destruct (starts_write _ _ (length w) x Hs) as (d' & E & Hd & Hs').
    { rewrite length_app, length_drop. lia. }
    exists d'. split_and!; [done|done|]. destruct (lookup_lt_is_Some_2 l _ Hlt) as [y Hy].
    rewrite (drop_S _ _ _ Hy) in Hs'. replace (length w) with (length w + 0)%nat in Hs' at 1 by lia.
    rewrite insert_app_r in Hs'. cbn in Hs'. by rewrite Nat.add_1_r, <- app_assoc.
  - rewrite drop_ge, app_nil_r in Hs by done. rewrite drop_ge, app_nil_r by lia. by apply starts_push.
Qed.

Section subtract.
Context (other : Int) (la lb : list Z) (gs : bool) (cap : nat).
Context (Hother : mag other lb) (Hca : canonical la) (Hcb : canonical lb).
Context (Hcap : (length la <= cap)%nat /\ (length lb <= cap)%nat).

Definition greater : list Z := if gs then la else lb.
Definition smaller : list Z := if gs then lb else la.

Record subtracting (neg : bool) (i : nat) (s : Int * Z) : Prop := {
  sub_digits : exists w, length w = i /\ Forall digit w /\ starts (digits s.1) (w ++ drop i la) /\
    val (take i greater) - val (take i smaller) = val w - s.2 * pow10 i /\
    (i = O \/ (0 < num_digits s.1 <= i)%nat /\ canonical (take (num_digits s.1) w) /\ val (take (num_digits s.1) w) = val w);
  sub_borrow : s.2 = 0 \/ s.2 = 1;
  sub_cap : cap = length (digits s.1);
  sub_allocated : num_allocated s.1 = cap;
  sub_sign : is_negative s.1 = neg;
}.

Lemma greater_digit_ok i x w : length w = i -> starts (digits x) (w ++ drop i la) -> (i < length greater)%nat ->
  exists g, read_u8 (if gs then digits x else digits other) i = Ok g /\ digit g /\
    val (take (i + 1) greater) = val (take i greater) + pow10 i * g.
Proof.
  intros Hw Hs Hi. unfold greater in *. destruct gs.
  - destruct (lookup_lt_is_Some_2 la i Hi) as [g Hg]. exists g. split_and!; [| |by apply val_take_S].
    + eapply starts_read; [done|]. by rewrite lookup_app_r, Hw, Nat.sub_diag, lookup_drop, Nat.add_0_r by lia.
    + eapply canonical_at; eassumption.
  - destruct (lookup_lt_is_Some_2 lb i Hi) as [g Hg]. exists g. split_and!; [by eapply mag_at| |by apply val_take_S].
    eapply canonical_at; eassumption.
Qed.

Lemma smaller_digit_ok i x w msg : length w = i -> starts (digits x) (w ++ drop i la) ->
  exists y, (if (i <? length smaller)%nat then let? x := read_u8 (if gs then digits other else digits x) i in panic_i8 msg x else Ok 0)
    = Ok y /\ digit y /\ val (take (i + 1) smaller) = val (take i smaller) + pow10 i * y.
Proof.
  intros Hw Hs. destruct (Nat.ltb_spec i (length smaller)) as [Hi|Hi].
  - assert (H : exists y, read_u8 (if gs then digits other else digits x) i = Ok y /\ digit y /\
      val (take (i + 1) smaller) = val (take i smaller) + pow10 i * y).
    { unfold smaller in *. destruct gs.
      - destruct (lookup_lt_is_Some_2 lb i Hi) as [g Hg]. exists g. split_and!; [by eapply mag_at| |by apply val_take_S].
        eapply canonical_at; eassumption.
      - destruct (lookup_lt_is_Some_2 la i Hi) as [g Hg]. exists g. split_and!; [| |by apply val_take_S].
        + eapply starts_read; [done|]. by rewrite lookup_app_r, Hw, Nat.sub_diag, lookup_drop, Nat.add_0_r by lia.
        + eapply canonical_at; eassumption. }
    destruct H as (y & -> & Hy & E). exists y. cbn [result_bind]. unfold digit in Hy. split_and!; [apply in_i8; lia|done|done].
  - exists 0. split_and!; [done|split; lia|rewrite !take_ge by lia; lia].
Qed.

(** The new digit and borrow, and which digits of the result count. *)
Lemma subtract_count i n w r : length w = i -> Forall digit w -> digit r ->
  i = O \/ (0 < n <= i)%nat /\ canonical (take n w) /\ val (take n w) = val w ->
  let n' := if negb (r =? 0) then (i + 1)%nat else n in
  (i = O -> n = 1%nat) ->
  (0 < n' <= i + 1)%nat /\ canonical (take n' (w ++ [r])) /\ val (take n' (w ++ [r])) = val (w ++ [r]).
Proof.
  intros Hw Hd Hr Hn n' H1. destruct (Z.eqb_spec r 0) as [->|Hne]; cbn [negb] in n'; subst n'.
  - destruct Hn as [->|(Hn & Hc & Hv)].
    + rewrite H1 by done. destruct w; [|done]. split; [lia|]. split; [by apply canonical_single|done].
    + rewrite take_app_le, val_app by lia. split; [lia|]. split; [done|]. rewrite Hv. simpl. lia.
  - assert (Hl : length (w ++ [r]) = (i + 1)%nat) by (rewrite length_app; simpl; lia).
    rewrite take_ge by lia. split; [lia|]. split; [|done]. split_and!; [by destruct w| |].
    + apply Forall_app. split; [done|]. by constructor.
    + right. rewrite Hl, val_app, Hw. replace (i + 1 - 1)%nat with i by lia. destruct (val_bound w Hd) as [H0 _].
      simpl. pose proof (pow10_pos i). unfold digit in Hr. nia.
Qed.

Lemma subtract_digit_spec neg i s : (i < length greater)%nat -> (i = O -> num_digits s.1 = 1%nat) -> subtracting neg i s ->
  exists s', subtract_digit gs (length smaller) other s i = Ok s' /\ subtracting neg (i + 1) s'.
Proof.
  intros Hi H1 [(w & Hw & Hd & Hs & Hv & Hn) Hb Hcp Hal Hsg]. destruct s as [x borrow]. cbn [fst snd] in *.
  unfold subtract_digit. destruct (greater_digit_ok i x w Hw Hs Hi) as (g & -> & Hg & Eg). cbn [result_bind]. unfold digit in *.
  rewrite in_i8 by lia. cbn [result_bind].
  destruct (smaller_digit_ok i x w "per-digit differences stay within i8" Hw Hs) as (y & -> & Hy & Ey). cbn [result_bind].
  unfold digit in *. rewrite in_i8 by lia. cbn [result_bind]. rewrite in_i8 by lia. cbn [result_bind].
  set (m := g - y - borrow).
  set (borrow' := if m <? 0 then 1 else 0). set (r := m + 10 * borrow').
  assert (Hr : digit r /\ (borrow' = 0 \/ borrow' = 1)) by (unfold r, borrow', m, digit; destruct (Z.ltb_spec (g - y - borrow) 0); lia).
  assert (E : (if m <? 0 then let? n := panic_i8 "per-digit differences stay within i8" (m + 10) in Ok (n, 1) else Ok (m, 0)) = Ok (r, borrow')).
  { unfold r, borrow' in *. destruct (Z.ltb_spec m 0); [|by rewrite Z.mul_0_r, Z.add_0_r].
    rewrite in_i8 by (unfold digit in Hr; lia). done. }
  rewrite E. cbn [result_bind]. unfold digit in Hr. rewrite in_u8 by lia. cbn [result_bind].
  assert (Hic : (i < cap)%nat) by (unfold greater in Hi; destruct gs; lia).
  destruct (overwrite_ok (digits x) w la r) as (d & Ed & Hd' & Hs'); [by rewrite Hw|lia|].
  rewrite Hw in Ed, Hs'. rewrite Ed. cbn [result_bind]. eexists. split; [done|].
  destruct (subtract_count i (num_digits x) w r Hw Hd ltac:(unfold digit; lia) Hn H1) as (Hn1 & Hn2 & Hn3).
  constructor; cbn [fst snd].
  - exists (w ++ [r]). rewrite length_app. split_and!; [simpl; lia| | | |].
    + apply Forall_app. split; [done|]. constructor; [split; lia|constructor].
    + by destruct (r =? 0).
    + rewrite Eg, Ey, val_app, Hw, (Nat.add_1_r i), pow10_S. unfold r, m. cbn [val]. nia.
    + right. by destruct (r =? 0).
  - lia.
  - destruct (r =? 0); simpl; lia.
  - by destruct (r =? 0).
  - by destruct (r =? 0).
Qed.
End subtract.

Lemma subtract_magnitude_spec x other la lb : mag x la -> mag other lb -> canonical la -> canonical lb ->
  exists x' ds, subtract_magnitude other x = Ok (Ok x') /\ mag x' ds /\ canonical ds /\
    val ds = Z.abs (val la - val lb) /\ is_negative x' = is_negative x.
Proof.
  intros Ha Hb Hca Hcb. unfold subtract_magnitude.
  destruct (ensure_digits_spec (longer x other + 1) x la Ha) as (x1 & -> & H1 & Hcap & Hsg). cbn [or_return_pure].
  rewrite (compare_magnitude_spec x1 other la lb H1 Hb Hca Hcb). cbn [result_bind].
  set (gs := 0 <? Z.sgn (val la - val lb)). set (cap := length (digits x1)).
  assert (Hcap' : (length la <= cap)%nat /\ (length lb <= cap)%nat).
  { unfold longer in Hcap. rewrite (mag_count _ _ Ha), (mag_count _ _ Hb) in Hcap. fold cap in Hcap.
    destruct (Nat.ltb_spec (length lb) (length la)); lia. }
  assert (Hge : val (greater la lb gs) - val (smaller la lb gs) = Z.abs (val la - val lb)).
  { unfold greater, smaller, gs. destruct (Z.ltb_spec 0 (Z.sgn (val la - val lb))); lia. }
  replace (if gs then (num_digits x1, num_digits other) else (num_digits other, num_digits x1))
    with (length (greater la lb gs), length (smaller la lb gs))
    by (rewrite (mag_count _ _ H1), (mag_count _ _ Hb); unfold greater, smaller; by destruct gs).
  destruct (for_upto_ok (fun i s => subtracting la lb gs cap (is_negative x) i s /\ (i = O -> num_digits s.1 = 1%nat))
    (length (greater la lb gs)) (subtract_digit gs (length (smaller la lb gs)) other) (set_num_digits 1 x1, 0))
    as ([x2 borrow] & E & Hinv & _).
  - intros i s Hi [Hinv Hn]. destruct (subtract_digit_spec other la lb gs cap Hb Hca Hcb Hcap' _ i s Hi Hn Hinv) as (s' & E & Hs').
    exists s'. split_and!; [done|done|lia].
  - split; [|done]. constructor; cbn [fst snd]; [|by left|done|apply H1|done].
    exists []. rewrite drop_0. split_and!; [done|constructor|apply H1|simpl; lia|by left].
  - rewrite E. cbn [result_bind]. destruct Hinv as [(w & Hw & Hd & Hs & Hv & Hn) Hb' Hc2 Hal Hsg2]. cbn [fst snd] in *.
    rewrite firstn_all, (take_ge (smaller la lb gs)) in Hv.
    2: { unfold greater, smaller, gs. destruct (Z.ltb_spec 0 (Z.sgn (val la - val lb))); apply Nat.le_ngt; intros Hlt.
         - pose proof (canonical_length_lt _ _ Hca Hcb Hlt). lia.
         - pose proof (canonical_length_lt _ _ Hcb Hca Hlt). lia. }
    assert (Hg : (0 < length (greater la lb gs))%nat) by (unfold greater; destruct gs; by apply canonical_length).
    destruct (val_bound w Hd) as [_ Hw1]. rewrite Hw in Hw1.
    assert (borrow = 0) as -> by (destruct Hb' as [| ->]; [done|]; lia).
    destruct Hn as [|(Hn & Hc & Ev)]; [lia|]. exists x2, (take (num_digits x2) w). split_and!; [done| |done|lia|done].
    split; [|rewrite length_take; lia|by rewrite Hal]. by eapply starts_take, starts_prefix.
Qed.

(** *** Shifting *)

Lemma trim_spec d l : starts d l -> Forall digit l -> forall n, (0 < n <= length l)%nat ->
  exists n', trim d n = Ok n' /\ (0 < n' <= n)%nat /\ canonical (take n' l) /\ val (take n' l) = val (take n l).
Proof.
  intros Hs Hd. induction n as [|n IH]; [lia|]. intros Hn.
  destruct (lookup_lt_is_Some_2 l n ltac:(lia)) as [x Hx]. pose proof (Forall_at _ _ _ _ Hd Hx) as Hx'.
  assert (Et : take (S n) l = take n l ++ [x]) by (by apply take_S_r).
  destruct n as [|n].
  { exists 1%nat. rewrite Et. split_and!; [done|lia..|by apply canonical_single|done]. }
  change (trim d (S (S n))) with (let? x := read_u8 d (S n) in if x =? 0 then trim d (S n) else Ok (S (S n))).
  rewrite (starts_read _ _ _ _ Hs Hx). cbn [result_bind]. destruct (Z.eqb_spec x 0) as [->|Hne].
  - destruct (IH ltac:(lia)) as (n' & -> & Hn' & Hc & Hv). exists n'. split_and!; [done|lia..|done|].
    rewrite Hv, Et, val_app. simpl. lia.
  - exists (S (S n)). split_and!; [done|lia..| |done].
    assert (Hl : length (take (S (S n)) l) = S (S n)) by (rewrite length_take; lia).
    split_and!; [by rewrite Et; destruct (take (S n) l)|by apply Forall_take|right]. rewrite Hl, Et, val_app, length_take_le by lia.
    destruct (val_bound (take (S n) l)) as [H0 _]; [by apply Forall_take|].
    replace (S (S n) - 1)%nat with (S n) by lia. pose proof (pow10_pos (S n)). unfold digit in Hx'. simpl val at 2. nia.
Qed.

Lemma trim_mag x d l : starts d l -> Forall digit l -> l <> [] -> num_allocated x = length d ->
  exists n, trim d (length l) = Ok n /\ mag (set_num_digits n (set_digits d x)) (take n l) /\ canonical (take n l) /\
    val (take n l) = val l.
Proof.
  intros Hs Hd Hne Hal. destruct (trim_spec d l Hs Hd (length l)) as (n & E & Hn & Hc & Hv); [destruct l; [done|simpl; lia]|].
  exists n. split_and!; [done| |done|by rewrite Hv, firstn_all].
  split; simpl; [by apply starts_take|rewrite length_take; lia|done].
Qed.

Lemma shift_up_ok d l x : starts d l -> (length l < length d)%nat ->
  exists d1 d2, for_down (length l) (fun d i => let? x := read_u8 d i in write_u8 (i + 1) x d) d = Ok d1 /\
    write_u8 0 x d1 = Ok d2 /\ length d2 = length d /\ starts d2 (x :: l).
Proof.
  intros Hs Hl.
  destruct (for_down_ok (fun i d1 => length d1 = length d /\ exists y, starts d1 (take i l ++ y ++ drop i l) /\
      (length y = 1%nat \/ i = length l /\ y = [])) (length l)
    (fun d i => let? x := read_u8 d i in write_u8 (i + 1) x d)) with (s := d) as (d1 & E & Hd1 & y & Hs1 & Hy).
  - intros i d1 Hi (Hd1 & y & Hs1 & Hy). destruct (lookup_lt_is_Some_2 l i Hi) as [z Hz].
    rewrite Nat.add_1_r, (take_S_r _ _ _ Hz), <- app_assoc in Hs1. cbn [app] in Hs1.
    assert (Ht : length (take i l) = i) by (rewrite length_take; lia).
    rewrite (starts_read _ _ i z Hs1) by (by rewrite lookup_app_r, Ht, Nat.sub_diag by lia). cbn [result_bind].
    rewrite Nat.add_1_r in Hy. rewrite Nat.add_1_r.
    assert (H : exists d2, write_u8 (S i) z d1 = Ok d2 /\ length d2 = length d1 /\ starts d2 (take i l ++ [z] ++ z :: drop (S i) l)).
    { destruct Hy as [Hy|[Hi' ->]].
      - destruct y as [|y0 [|]]; try done. destruct (starts_write _ _ (S i) z Hs1) as (d2 & E2 & Hd2 & Hs2).
        { rewrite length_app, Ht. simpl. lia. }
        exists d2. split_and!; [done|done|]. replace (S i) with (length (take i l) + 1)%nat in Hs2 at 1 by (rewrite Ht; lia).
        by rewrite insert_app_r in Hs2.
      - rewrite drop_ge in Hs1 |- * by lia. destruct (starts_push _ _ z Hs1) as (d2 & E2 & Hd2 & Hs2).
        { rewrite length_app, Ht. simpl. lia. }
        rewrite length_app, Ht in E2. simpl in E2. rewrite Nat.add_1_r in E2. exists d2. split_and!; [done|done|].
        by rewrite <- app_assoc in Hs2. }
    destruct H as (d2 & E2 & Hd2 & Hs2). exists d2. split_and!; [done|lia|]. exists [z].
    split; [|by left]. by rewrite (drop_S _ _ _ Hz).
  - split; [done|]. exists []. split; [|by right]. by rewrite firstn_all, drop_all, app_nil_r.
  - rewrite drop_0 in Hs1. cbn [take app] in Hs1. exists d1.
    assert (H : exists d2, write_u8 0 x d1 = Ok d2 /\ length d2 = length d1 /\ starts d2 (x :: l)).
    { destruct Hy as [Hy|[Hi ->]].
      - destruct y as [|y0 [|]]; try done. by apply (starts_write _ _ 0 x) in Hs1; [|simpl; lia].
      - destruct l; [|done]. apply (starts_push _ [] x); [apply starts_nil|simpl in *; lia]. }
    destruct H as (d2 & E2 & Hd2 & Hs2). exists d2. split_and!; [done|done|lia|done].
Qed.

Lemma shift_and_add_digit_spec x l d : mag x l -> canonical l -> digit d ->
  exists x' l', shift_and_add_digit d x = Ok (Ok x') /\ mag x' l' /\ canonical l' /\ val l' = d + 10 * val l /\
    is_negative x' = is_negative x.
Proof.
  intros Hm Hc Hd. unfold shift_and_add_digit.
  destruct (ensure_digits_spec (num_digits x + 1) x l Hm) as (x1 & -> & H1 & Hcap & Hsg). cbn [or_return_pure].
  rewrite (mag_count _ _ Hm) in Hcap. rewrite (mag_count _ _ H1).
  destruct (shift_up_ok (digits x1) l d (mag_starts _ _ H1) ltac:(lia)) as (d1 & d2 & -> & Ed & Hd2 & Hs2). cbn [result_bind].
  rewrite Ed. cbn [result_bind]. replace (length l + 1)%nat with (length (d :: l)) by (simpl; lia).
  destruct (trim_mag x1 d2 (d :: l) Hs2) as (n & -> & Hm2 & Hc2 & Hv); [|done|by rewrite Hd2; apply H1|].
  { constructor; [done|by apply canonical_digits]. }
  cbn [result_bind]. eexists _, _. split; [done|]. by split_and!.
Qed.

Lemma is_zero_spec x l : mag x l -> canonical l -> is_zero x = Ok (val l =? 0).
Proof.
  intros Hm Hc. unfold is_zero. rewrite (mag_count _ _ Hm). destruct (Nat.eqb_spec (length l) 1) as [Hl|Hl].
  - destruct l as [|d [|]]; try done. rewrite (mag_at x [d] 0 d Hm) by done. cbn [result_bind val]. do 2 f_equal. lia.
  - destruct (canonical_bounds l Hc) as (_ & _ & H). pose proof (canonical_length l Hc). pose proof (pow10_pos (length l - 1)).
    f_equal. symmetry. apply Z.eqb_neq. specialize (H ltac:(lia)). lia.
Qed.

(** ** The number an object stands for *)

Definition denotes (x : Int) (z : Z) : Prop :=
  exists l, mag x l /\ canonical l /\ val l = Z.abs z /\ is_negative x = (z <? 0).

Lemma digit_count_spec value : 0 <= value -> exists n, digit_count value = Ok n /\ (0 < n)%nat /\ value < pow10 n /\
  (n = 1%nat \/ pow10 (n - 1) <= value).
Proof.
  intros Hv. unfold digit_count. destruct (Z.eqb_spec value 0) as [->|Hne]; [exists 1%nat; split_and!; [done|lia|done|by left]|].
  destruct (while_ok (fun '(v, n) => 0 <= v /\ pow10 n * v <= value < pow10 n * (v + 1) /\ (0 < v \/ (0 < n)%nat) /\
      (n = O \/ pow10 (n - 1) <= value)) (fun s => digit_steps s.1)
    (fun '(v, _) => 0 <? v) (fun '(v, count) => Ok (v / 10, S count)) (digit_steps value)) with (s := (value, O))
    as ([v n] & E & Hinv & Hc).
  - intros [v n] (Hv0 & Hb & _ & Hn) Hc%Z.ltb_lt. eexists. split; [done|]. cbn beta iota. rewrite pow10_S.
    pose proof (Z.div_mod v 10 ltac:(lia)). pose proof (Z.mod_pos_bound v 10 ltac:(lia)). pose proof (pow10_pos n).
    split; [split_and!; [apply Z.div_pos; lia|nia|nia|right; lia|right]|].
    + replace (S n - 1)%nat with n by lia. nia.
    + unfold digit_steps. cbn [fst]. rewrite (proj2 (Z.eqb_neq v 0)) by lia. destruct (Z.eqb_spec (v / 10) 0); [lia|].
      apply le_n_S. assert (Z.log2 (v / 10) < Z.log2 v); [|pose proof (Z.log2_nonneg (v / 10)); lia].
      apply Z.log2_lt_pow2; [lia|]. pose proof (Z.log2_spec v Hc) as [_ Hl]. rewrite Z.pow_succ_r in Hl by apply Z.log2_nonneg. lia.
  - split_and!; [lia|unfold pow10; simpl; lia|unfold pow10; simpl; lia|left; lia|by left].
  - done.
  - rewrite E. cbn [result_bind]. destruct Hinv as (Hv0 & Hb & Hn & Hn'). apply Z.ltb_ge in Hc. assert (v = 0) as -> by lia.
    exists n. split_and!; [done|lia|lia|]. destruct Hn' as [->|]; [lia|by right].
Qed.

Lemma int_of_i32_spec z : - 2 ^ 31 <= z < 2 ^ 31 -> exists x, int_of_i32 z = Ok x /\ denotes x z.
Proof.
  intros Hz. unfold int_of_i32. set (m := Z.abs z).
  assert (E : (if z <? 0 then let? m := panic_i64 "i64 is wide enough to negate any i32 value" (- z) in
      panic_u32 "i64 is wide enough to negate any i32 value" m
    else panic_u32 "i64 is wide enough to negate any i32 value" z) = Ok m).
  { unfold m. destruct (Z.ltb_spec z 0); [|rewrite in_panic_ok by lia; f_equal; lia].
    rewrite in_panic_ok by lia. cbn [result_bind]. rewrite in_panic_ok by lia. f_equal. lia. }
  rewrite E. cbn [result_bind]. destruct (digit_count_spec m) as (n & -> & Hn & Hm & Hn'); [unfold m; lia|]. cbn [result_bind].
  destruct (for_upto_ok (fun i '(d, v) => exists w, length w = i /\ starts d w /\ Forall digit w /\ 0 <= v /\
      val w + pow10 i * v = m /\ length d = n) n
    (fun '(d, m) i => let? x := panic_u8 "writing at most 10 digits cannot overflow" (m mod 10) in
      let? d := write_u8 i x d in Ok (d, m / 10)) (alloc_u8 n, m)) as ([d v] & E' & w & Hw & Hs & Hd & Hv & Hval & Hl).
  - intros i [d v] Hi (w & Hw & Hs & Hd & Hv & Hval & Hl). pose proof (Z.mod_pos_bound v 10 ltac:(lia)) as Hmod.
    rewrite in_u8 by lia. cbn [result_bind]. destruct (starts_push _ _ (v mod 10) Hs ltac:(lia)) as (d' & Ed & Hd' & Hs').
    rewrite Hw in Ed. rewrite Ed. cbn [result_bind]. eexists. split; [done|]. exists (w ++ [v mod 10]).
    rewrite length_app, val_app, (Nat.add_1_r i), pow10_S, Hw. simpl length. simpl val at 2.
    split_and!; [lia|done| |apply Z.div_pos; lia| |lia].
    + apply Forall_app. split; [done|]. by constructor.
    + rewrite (Z.div_mod v 10) in Hval by lia. lia.
  - exists []. split_and!; [done|apply starts_nil|constructor|unfold m; lia|unfold pow10; simpl; lia|apply length_replicate].
  - rewrite E'. cbn [result_bind]. eexists. split; [done|]. destruct (val_bound w Hd) as [Hw0 _].
    assert (v = 0) as -> by (pose proof (pow10_pos n); nia). exists w. split_and!; [split; simpl; [done|lia|lia]| |simpl; lia|done].
    split_and!; [intros ->; simpl in Hw; lia|done|]. rewrite Hw. destruct Hn' as [|Hn']; [by left|right]. lia.
Qed.
