(* ===== verification/IntArith.v ===== *)
(** * Arbitrary-precision integers: operators ([lib/builtins/__int.py])

    Comparison, addition, subtraction, negation, multiplication and truncating
    division, composed from the operations on magnitudes.  The operators clone
    [self] and mutate the clone, so each takes and returns whole objects.
    [denotes x z] says that [x] is the integer [z]; every operator is shown to
    compute the operation of [Z]. *)

From S2P Require Import Prelude RawList Bits Buffers IntDigits.

Local Open Scope Z_scope.
Local Open Scope monad_scope.

Abbreviation R E A := (result abort (result E A)).

(** ** Comparison *)

Definition int_compare (self other : Int) : result abort Z :=
  if is_negative self && negb (is_negative other) then Ok (-1)
  else if negb (is_negative self) && is_negative other then Ok 1
  else if is_negative self then compare_magnitude other self
  else compare_magnitude self other.

Definition compare_by (f : Z -> bool) (self other : Int) : result abort bool :=
  let? c := int_compare self other in Ok (f c).

Definition __eq__ := compare_by (fun c => c =? 0).
Definition __ne__ := compare_by (fun c => negb (c =? 0)).
Definition __lt__ := compare_by (fun c => c <? 0).
Definition __le__ := compare_by (fun c => c <=? 0).
Definition __gt__ := compare_by (fun c => 0 <? c).
Definition __ge__ := compare_by (fun c => 0 <=? c).

(** The overloads for an [i32] operand. *)
Definition __eq__i32 (self : Int) (other : Z) : result abort bool := let? o := int_of_i32 other in __eq__ self o.
Definition __ne__i32 (self : Int) (other : Z) : result abort bool := let? o := int_of_i32 other in __ne__ self o.

(** ** Sums *)

Definition nonzero_and (b : bool) (x : Int) : result abort bool :=
  if b then let? z := is_zero x in Ok (negb z) else Ok false.

Definition __add__ (self other : Int) : R IntError Int :=
  let? res := clone self in
  if eqb (is_negative res) (is_negative other) then
    let?! res := add_magnitude other res in Ok (Ok res)
  else
    let? c := compare_magnitude res other in
    let result_is_negative := if 0 <? c then is_negative res else is_negative other in
    let?! res := subtract_magnitude other res in
    let? neg := nonzero_and result_is_negative res in
    Ok (Ok (set_negative neg res)).

Definition __sub__ (self other : Int) : R IntError Int :=
  let? res := clone self in
  let? c := int_compare res other in
  let result_is_negative := c <? 0 in
  let?! res := if eqb (is_negative res) (is_negative other) then subtract_magnitude other res else add_magnitude other res in
  Ok (Ok (set_negative result_is_negative res)).

Definition __neg__ (self : Int) : R IntError Int :=
  let? res := clone self in
  let? neg := nonzero_and (negb (is_negative res)) res in
  Ok (Ok (set_negative neg res)).

(** ** Products *)

Definition mul_digit (i : nat) (self other : Int) (s : Buffer * nat * Z) : result abort (Buffer * nat * Z) :=
  let msg := "a single-digit product plus an existing digit plus a carry stays well within u16" in
  let '(d, j, carry) := s in
  let? other_digit := if (j <? num_digits other)%nat then read_u8 (digits other) j else Ok 0 in
  let idx := (i + j)%nat in
  let? x := read_u8 d idx in
  let? y := read_u8 (digits self) i in
  let? p := panic_u16 msg (y * other_digit) in
  let? t := panic_u16 msg (x + p) in
  let? total := panic_u16 msg (t + carry) in
  let? r := panic_u8 msg (total mod 10) in
  let? d := write_u8 idx r d in
  Ok (d, (j + 1)%nat, total / 10).

Definition mul_row (self other : Int) (d : Buffer) (i : nat) : result abort Buffer :=
  let? (d, _, _) := while_ (num_digits other + 1) (fun '(_, j, carry) => (j <? num_digits other)%nat || (0 <? carry))
                      (mul_digit i self other) (d, O, 0) in
  Ok d.

Definition __mul__ (self other : Int) : R IntError Int :=
  let? res := int_of_i32 0 in
  let capacity := (num_digits self + num_digits other + 1)%nat in
  let?! res := ensure_digits capacity res in
  let? d := for_upto capacity (fun d i => write_u8 i 0 d) (digits res) in
  let? d := for_upto (num_digits self) (mul_row self other) d in
  let? n := trim d capacity in
  let res := set_num_digits n (set_digits d res) in
  let? neg := nonzero_and (negb (eqb (is_negative self) (is_negative other))) res in
  Ok (Ok (set_negative neg res)).

(** ** Division *)

Inductive DivError := FromInt (e : IntError) | ZeroDivisionError.

(** [( ... ).or_return()] of an [IntError] in a function with the wider error. *)
Definition widen {A} (m : R IntError A) : R DivError A :=
  let? r := m in Ok (match r with Ok a => Ok a | Err e => Err (FromInt e) end).

Definition multiple_at (multiples : list Int) (i : nat) : result abort Int :=
  unwrap "divmod: multiples index in bounds by construction" (list_getitem i multiples).

(** [count] more multiples of [base], the next being the [k + 1]st. *)
Fixpoint add_multiples (count k : nat) (base : Int) (multiples : list Int) : R IntError (list Int) :=
  match count with
  | O => Ok (Ok multiples)
  | S count =>
      let? prev := multiple_at multiples (k - 1) in
      let? next_multiple := clone prev in
      let?! next_multiple := add_magnitude base next_multiple in
      add_multiples count (k + 1) base (multiples ++ [next_multiple])
  end.

(** The largest multiple that fits in the remainder, and what it leaves. *)
Fixpoint take_multiple (d : nat) (multiples : list Int) (remainder : Int) : R IntError (Int * nat) :=
  match d with
  | O => Ok (Ok (remainder, O))
  | S d' =>
      let? candidate := multiple_at multiples (d - 1) in
      let? c := compare_magnitude remainder candidate in
      if 0 <=? c then let?! remainder := subtract_magnitude candidate remainder in Ok (Ok (remainder, d))
      else take_multiple d' multiples remainder
  end.

(** The dividend's digits below [i], most significant first. *)
Fixpoint long_division (i : nat) (self : Int) (multiples : list Int) (quotient remainder : Int) : R IntError (Int * Int) :=
  match i with
  | O => Ok (Ok (quotient, remainder))
  | S i =>
      let? x := read_u8 (digits self) i in
      let?! remainder := shift_and_add_digit x remainder in
      let?! (remainder, d) := take_multiple 9 multiples remainder in
      let? new_digit := panic_u8 "walking down from an existing digit count" (Z.of_nat d) in
      let?! quotient := shift_and_add_digit new_digit quotient in
      long_division i self multiples quotient remainder
  end.

Definition divmod (self divisor : Int) : R DivError (Int * Int) :=
  let? z := is_zero divisor in
  if z : bool then Ok (Err ZeroDivisionError)
  else
    let? base := clone divisor in
    let base := set_negative false base in
    let?! multiples := widen (add_multiples 8 1 base [base]) in
    let? quotient := int_of_i32 0 in
    let? remainder := int_of_i32 0 in
    let?! (quotient, remainder) := widen (long_division (num_digits self) self multiples quotient remainder) in
    let? qneg := nonzero_and (negb (eqb (is_negative self) (is_negative divisor))) quotient in
    let? rneg := nonzero_and (is_negative self) remainder in
    Ok (Ok (set_negative qneg quotient, set_negative rneg remainder)).

Definition __floordiv__ (self other : Int) : R DivError Int := let?! (q, _) := divmod self other in Ok (Ok q).
Definition __mod__ (self other : Int) : R DivError Int := let?! (_, r) := divmod self other in Ok (Ok r).

Definition from_i32 (value : Z) : R IntError Int := let? x := int_of_i32 value in Ok (Ok x).

(** -17 // 5 and -17 % 5, and the absence of a negative zero. *)
Definition of_parts (neg : bool) (l : list Z) : Int := mkInt (map Some l) (length l) (length l) neg.

Example divmod_sample :
  (let?! (q, r) := divmod (of_parts true [7; 1]) (of_parts false [5]) in
   Ok (Ok (is_negative q, take (num_digits q) (digits q), is_negative r, take (num_digits r) (digits r)))) =
  Ok (Ok (true, [Some 3], true, [Some 2])).
Proof. reflexivity. Qed.

Example mul_sample :
  (let?! p := __mul__ (of_parts true [9; 9; 9]) (of_parts false [9; 9]) in
   Ok (Ok (is_negative p, take (num_digits p) (digits p)))) = Ok (Ok (true, [Some 1; Some 0; Some 9; Some 8; Some 9])).
Proof. reflexivity. Qed.

(** ** Correctness *)

Lemma denotes_canonical x z : denotes x z -> exists l, mag x l /\ canonical l /\ val l = Z.abs z /\ is_negative x = (z <? 0).
Proof. done. Qed.

(** A magnitude with the sign it should have. *)
Lemma denotes_intro x l z : mag x l -> canonical l -> val l = Z.abs z -> is_negative x = (z <? 0) -> denotes x z.
Proof. intros. by exists l. Qed.

Lemma mag_set_negative b x l : mag x l -> mag (set_negative b x) l.
Proof. intros [H1 H2 H3]. by split. Qed.

Lemma nonzero_and_spec b x l : mag x l -> canonical l -> nonzero_and b x = Ok (b && negb (val l =? 0)).
Proof. intros Hm Hc. unfold nonzero_and. destruct b; [|done]. by rewrite (is_zero_spec x l Hm Hc). Qed.

Lemma int_compare_spec x y a b : denotes x a -> denotes y b -> int_compare x y = Ok (Z.sgn (a - b)).
Proof.
  intros (l & Hm & Hc & Hv & Hs) (l' & Hm' & Hc' & Hv' & Hs'). unfold int_compare. rewrite Hs, Hs'.
  destruct (Z.ltb_spec a 0), (Z.ltb_spec b 0); cbn [negb andb].
  - rewrite (compare_magnitude_spec _ _ _ _ Hm' Hm Hc' Hc). do 2 f_equal. lia.
  - f_equal. symmetry. apply Z.sgn_neg. lia.
  - f_equal. symmetry. apply Z.sgn_pos. lia.
  - rewrite (compare_magnitude_spec _ _ _ _ Hm Hm' Hc Hc'). do 2 f_equal. lia.
Qed.

Lemma compare_by_spec f x y a b : denotes x a -> denotes y b -> compare_by f x y = Ok (f (Z.sgn (a - b))).
Proof. intros Hx Hy. unfold compare_by. by rewrite (int_compare_spec x y a b Hx Hy). Qed.

Lemma add_spec x y a b : denotes x a -> denotes y b -> exists r, __add__ x y = Ok (Ok r) /\ denotes r (a + b).
Proof.
  intros (l & Hm & Hc & Hv & Hs) (l' & Hm' & Hc' & Hv' & Hs'). unfold __add__.
  destruct (clone_spec x l Hm) as (r & -> & Hr & Hrs). cbn [result_bind]. rewrite Hrs.
  destruct (eqb (is_negative x) (is_negative y)) eqn:He.
  - apply eqb_prop in He. destruct (add_magnitude_spec r y l l' Hr Hm' Hc Hc') as (r' & l2 & -> & Hm2 & Hc2 & Hv2 & Hs2).
    cbn [or_return_pure]. exists r'. split; [done|]. rewrite Hs, Hs' in He. apply (denotes_intro _ l2); [done..| |].
    + rewrite Hv2, Hv, Hv'. destruct (Z.ltb_spec a 0), (Z.ltb_spec b 0); [lia|done|done|lia].
    + rewrite Hs2, Hrs, Hs. destruct (Z.ltb_spec a 0), (Z.ltb_spec b 0); try done; symmetry; [apply Z.ltb_lt|apply Z.ltb_ge]; lia.
  - apply eqb_false_iff in He. rewrite (compare_magnitude_spec r y l l' Hr Hm' Hc Hc'). cbn [result_bind].
    destruct (subtract_magnitude_spec r y l l' Hr Hm' Hc Hc') as (r' & l2 & -> & Hm2 & Hc2 & Hv2 & Hs2).
    cbn [or_return_pure]. rewrite (nonzero_and_spec _ r' l2 Hm2 Hc2). cbn [result_bind]. eexists. split; [done|].
    rewrite Hs, Hs' in He |- *. apply (denotes_intro _ l2); [by apply mag_set_negative|done| |].
    + rewrite Hv2, Hv, Hv'. destruct (Z.ltb_spec a 0), (Z.ltb_spec b 0); try done; lia.
    + cbn [is_negative set_negative]. rewrite Hv2, Hv, Hv'. destruct (Z.ltb_spec 0 (Z.sgn (Z.abs a - Z.abs b))),
        (Z.eqb_spec (Z.abs (Z.abs a - Z.abs b)) 0), (Z.ltb_spec a 0), (Z.ltb_spec b 0), (Z.ltb_spec (a + b) 0); cbn; try done; lia.
Qed.

Lemma sub_spec x y a b : denotes x a -> denotes y b -> exists r, __sub__ x y = Ok (Ok r) /\ denotes r (a - b).
Proof.
  intros (l & Hm & Hc & Hv & Hs) Hy. destruct (denotes_canonical _ _ Hy) as (l' & Hm' & Hc' & Hv' & Hs'). unfold __sub__.
  destruct (clone_spec x l Hm) as (r & -> & Hr & Hrs). cbn [result_bind].
  rewrite (int_compare_spec r y a b); [|apply (denotes_intro _ l); [done..|by rewrite Hrs]|done]. cbn [result_bind]. rewrite Hrs.
  assert (Hneg : (Z.sgn (a - b) <? 0) = (a - b <? 0)) by (destruct (Z.ltb_spec (Z.sgn (a - b)) 0), (Z.ltb_spec (a - b) 0); lia).
  rewrite Hneg, Hs, Hs'. destruct (eqb (a <? 0) (b <? 0)) eqn:He.
  - apply eqb_prop in He. destruct (subtract_magnitude_spec r y l l' Hr Hm' Hc Hc') as (r' & l2 & -> & Hm2 & Hc2 & Hv2 & Hs2).
    cbn [or_return_pure]. eexists. split; [done|]. apply (denotes_intro _ l2); [by apply mag_set_negative|done| |done].
    rewrite Hv2, Hv, Hv'. destruct (Z.ltb_spec a 0), (Z.ltb_spec b 0); try done; lia.
  - apply eqb_false_iff in He. destruct (add_magnitude_spec r y l l' Hr Hm' Hc Hc') as (r' & l2 & -> & Hm2 & Hc2 & Hv2 & Hs2).
    cbn [or_return_pure]. eexists. split; [done|]. apply (denotes_intro _ l2); [by apply mag_set_negative|done| |done].
    rewrite Hv2, Hv, Hv'. destruct (Z.ltb_spec a 0), (Z.ltb_spec b 0); try done; lia.
Qed.

Lemma neg_spec x a : denotes x a -> exists r, __neg__ x = Ok (Ok r) /\ denotes r (- a).
Proof.
  intros (l & Hm & Hc & Hv & Hs). unfold __neg__. destruct (clone_spec x l Hm) as (r & -> & Hr & Hrs). cbn [result_bind].
  rewrite (nonzero_and_spec _ r l Hr Hc). cbn [result_bind]. eexists. split; [done|].
  apply (denotes_intro _ l); [by apply mag_set_negative|done|lia|]. cbn [is_negative set_negative]. rewrite Hrs, Hs, Hv.
  destruct (Z.ltb_spec a 0), (Z.eqb_spec (Z.abs a) 0), (Z.ltb_spec (- a) 0); cbn; try done; lia.
Qed.

(** *** Products *)

Section row.
Context (self other : Int) (la lb : list Z) (i : nat) (x : Z) (r0 : list Z) (cap n : nat).
Context (Hself : mag self la) (Hother : mag other lb) (Hda : Forall digit la) (Hdb : Forall digit lb) (Hx : la !! i = Some x).
Context (Hr0 : val r0 = val (take i la) * val lb) (Hcap : cap = (length la + length lb + 1)%nat) (Hn : (cap <= n)%nat).

Definition multiplying (s : Buffer * nat * Z) : Prop :=
  let '(d, j, carry) := s in
  exists r, starts d r /\ length r = cap /\ length d = n /\ Forall digit r /\ 0 <= carry <= 9 /\
    val r + carry * pow10 (i + j) = val r0 + pow10 i * x * val (take j lb).

Lemma val_take_le l j : Forall digit l -> val (take j l) <= val l.
Proof.
  intros Hd. rewrite <- (take_drop j l) at 2. rewrite val_app. destruct (val_bound (drop j l)) as [H0 _]; [by apply Forall_drop|].
  pose proof (pow10_pos (length (take j l))). nia.
Qed.

Lemma multiplying_index s : multiplying s -> (s.1.2 < length lb)%nat \/ 0 < s.2 -> (s.1.2 < length lb + 1)%nat.
Proof.
  destruct s as [[d j] carry]. intros (r & _ & _ & _ & Hd & Hcy & Hv) Hc. cbn [fst snd] in *.
  destruct Hc as [|Hc]; [lia|]. enough ((i + j < i + 1 + length lb)%nat) by lia. apply pow10_lt.
  destruct (val_bound r Hd) as [Hr _], (val_bound lb Hdb) as [Hb0 Hb1].
  destruct (val_bound (take (i + 1) la)) as [Ha0 Ha1]; [by apply Forall_take|].
  assert (Hi : (i < length la)%nat) by (by eapply lookup_lt_Some). rewrite length_take_le in Ha1 by lia.
  pose proof (val_take_le lb j Hdb). pose proof (val_take_S _ _ _ Hx) as Et. pose proof (Forall_at _ _ _ _ Hda Hx) as Hx'. unfold digit in Hx'.
  pose proof (pow10_pos i).
  assert (val r0 + pow10 i * x * val (take j lb) <= val (take (i + 1) la) * val lb) by (rewrite Hr0, Et; nia).
  assert (val (take (i + 1) la) * val lb < pow10 (i + 1) * pow10 (length lb)) by nia.
  rewrite <- pow10_plus in *. pose proof (pow10_pos (i + j)). nia.
Qed.

Lemma mul_digit_spec s : multiplying s -> (s.1.2 < length lb)%nat \/ 0 < s.2 ->
  exists s', mul_digit i self other s = Ok s' /\ multiplying s' /\ s'.1.2 = (s.1.2 + 1)%nat.
Proof.
  intros Hs Hc. pose proof (multiplying_index s Hs Hc) as Hj. destruct s as [[d j] carry]. cbn [fst snd] in *.
  destruct Hs as (r & Hs & Hl & Hcp & Hd & Hcy & Hv). unfold mul_digit.
  assert (Hi : (i < length la)%nat) by (by eapply lookup_lt_Some).
  destruct (other_digit_ok other lb j Hother Hdb) as (y & -> & Hy & Ey). cbn [result_bind].
  destruct (lookup_lt_is_Some_2 r (i + j) ltac:(lia)) as [z Hz]. rewrite (starts_read _ _ _ _ Hs Hz). cbn [result_bind].
  rewrite (mag_at _ _ _ _ Hself Hx). cbn [result_bind].
  pose proof (Forall_at _ _ _ _ Hda Hx) as Hx'. pose proof (Forall_at _ _ _ _ Hd Hz) as Hz'. unfold digit in *.
  assert (0 <= x * y <= 81) by nia.
  do 3 (rewrite in_panic_ok by lia; cbn [result_bind]).
  set (t := z + x * y + carry). pose proof (Z.mod_pos_bound t 10 ltac:(lia)) as Hm. pose proof (Z.div_mod t 10 ltac:(lia)) as Ht.
  rewrite in_u8 by lia. cbn [result_bind].
  destruct (starts_write _ _ (i + j) (t mod 10) Hs) as (d' & -> & Hd' & Hs'); [lia|]. cbn [result_bind].
  eexists. split; [done|]. split; [|done]. exists (<[(i + j)%nat := t mod 10]> r).
  rewrite length_insert, (val_insert _ _ _ _ Hz), Ey, Nat.add_assoc, (Nat.add_1_r (i + j)), pow10_S.
  split_and!; [done|done|lia| |lia|lia|].
  - apply Forall_insert; [done|]. split; lia.
  - assert (E : t mod 10 = t - 10 * (t / 10)) by lia. rewrite E. unfold t. rewrite (pow10_plus i j) in *. nia.
Qed.
End row.

Lemma mul_row_spec self other la lb i d r : mag self la -> mag other lb -> Forall digit la -> Forall digit lb ->
  (i < length la)%nat -> starts d r -> length r = (length la + length lb + 1)%nat -> (length r <= length d)%nat -> Forall digit r ->
  val r = val (take i la) * val lb ->
  exists d' r', mul_row self other d i = Ok d' /\ starts d' r' /\ length r' = length r /\ length d' = length d /\ Forall digit r' /\
    val r' = val (take (i + 1) la) * val lb.
Proof.
  intros Ha Hb Hda Hdb Hi Hs Hl Hld Hd Hv. destruct (lookup_lt_is_Some_2 la i Hi) as [x Hx]. unfold mul_row.
  destruct (while_ok (multiplying lb i x r (length r) (length d)) (fun s => (length lb + 1 - s.1.2)%nat)
    (fun '(_, j, carry) => (j <? num_digits other)%nat || (0 <? carry)) (mul_digit i self other) (num_digits other + 1))
    with (s := (d, O, 0)) as ([[d' j] carry] & E & Hinv & Hend).
  - intros [[d1 j] carry] Hinv Hc. rewrite (mag_count _ _ Hb) in Hc. apply orb_prop in Hc. rewrite Nat.ltb_lt, Z.ltb_lt in Hc.
    pose proof (multiplying_index la lb i x r (length r) (length d) Hda Hdb Hx Hv Hl Hld (d1, j, carry) Hinv Hc) as Hj.
    destruct (mul_digit_spec self other la lb i x r (length r) (length d) Ha Hb Hda Hdb Hx Hv Hl Hld (d1, j, carry) Hinv Hc)
      as (s' & -> & Hs' & Hj'). cbn [fst snd] in *. exists s'. split_and!; [done|done|lia].
  - exists r. split_and!; [done|done|done|done|lia|lia|simpl; lia].
  - simpl. rewrite (mag_count _ _ Hb). lia.
  - rewrite E. cbn [result_bind]. rewrite (mag_count _ _ Hb) in Hend. apply orb_false_elim in Hend as [Hj%Nat.ltb_ge Hc%Z.ltb_ge].
    destruct Hinv as (r' & Hs' & Hl' & Hld' & Hd' & Hcy & Hv'). assert (carry = 0) as -> by lia. rewrite take_ge in Hv' by done.
    exists d', r'. split_and!; [done|done|done|done|done|]. rewrite (val_take_S _ _ _ Hx). lia.
Qed.

Lemma zero_fill_ok d n : (n <= length d)%nat ->
  exists d', for_upto n (fun d i => write_u8 i 0 d) d = Ok d' /\ length d' = length d /\ starts d' (replicate n 0).
Proof.
  intros Hn. destruct (for_upto_ok (fun i d' => length d' = length d /\ starts d' (replicate i 0)) n (fun d i => write_u8 i 0 d) d)
    as (d' & E & Hd & Hs).
  - intros i d1 Hi [Hd Hs]. destruct (starts_push _ _ 0 Hs) as (d2 & E & Hd2 & Hs2); [rewrite length_replicate; lia|].
    rewrite length_replicate in E. exists d2. split_and!; [done|lia|]. by rewrite Nat.add_1_r, replicate_S_end.
  - split; [done|apply starts_nil].
  - by exists d'.
Qed.

Lemma mul_rows_ok self other la lb d : mag self la -> mag other lb -> Forall digit la -> Forall digit lb ->
  starts d (replicate (length la + length lb + 1) 0) ->
  exists d' r, for_upto (length la) (mul_row self other) d = Ok d' /\ starts d' r /\
    length r = (length la + length lb + 1)%nat /\ length d' = length d /\ Forall digit r /\ val r = val la * val lb.
Proof.
  intros Ha Hb Hda Hdb Hs. pose proof (starts_le _ _ Hs) as Hld. rewrite length_replicate in Hld.
  destruct (for_upto_ok (fun i d' => exists r, starts d' r /\ length r = (length la + length lb + 1)%nat /\
      length d' = length d /\ Forall digit r /\ val r = val (take i la) * val lb) (length la) (mul_row self other) d)
    as (d' & E & r & Hs' & Hl & Hd' & Hd & Hv).
  - intros i d1 Hi (r & Hs1 & Hl & Hd1 & Hd & Hv).
    destruct (mul_row_spec self other la lb i d1 r Ha Hb Hda Hdb Hi Hs1 Hl ltac:(lia) Hd Hv) as (d2 & r2 & E & Hs2 & Hl2 & Hd2 & Hd2' & Hv2).
    exists d2. split; [done|]. exists r2. split_and!; [done|lia|lia|done|done].
  - exists (replicate (length la + length lb + 1) 0). split_and!; [done|apply length_replicate|done| |by rewrite val_replicate].
    apply Forall_replicate. split; lia.
  - exists d', r. rewrite firstn_all in Hv. by split_and!.
Qed.

Lemma mul_spec x y a b : denotes x a -> denotes y b -> exists r, __mul__ x y = Ok (Ok r) /\ denotes r (a * b).
Proof.
  intros (l & Hm & Hc & Hv & Hs) (l' & Hm' & Hc' & Hv' & Hs'). unfold __mul__.
  destruct (int_of_i32_spec 0 ltac:(lia)) as (z & -> & lz & Hmz & _). cbn [result_bind].
  rewrite (mag_count _ _ Hm), (mag_count _ _ Hm').
  destruct (ensure_digits_spec (length l + length l' + 1) z lz Hmz) as (z1 & -> & Hmz1 & Hcap & _). cbn [or_return_pure].
  destruct (zero_fill_ok (digits z1) _ Hcap) as (d & -> & Hd & Hsd). cbn [result_bind].
  destruct (mul_rows_ok x y l l' d Hm Hm' (canonical_digits _ Hc) (canonical_digits _ Hc') Hsd) as (d' & r & -> & Hsr & Hlr & Hd' & Hdr & Hvr).
  cbn [result_bind]. rewrite <- Hlr.
  destruct (trim_mag z1 d' r Hsr Hdr) as (n & -> & Hmn & Hcn & Hvn); [intros ->; simpl in Hlr; lia|rewrite Hd', Hd; apply Hmz1|].
  cbn [result_bind]. rewrite (nonzero_and_spec _ _ _ Hmn Hcn). cbn [result_bind]. eexists. split; [done|].
  apply (denotes_intro _ (take n r)); [by apply mag_set_negative|done|rewrite Hvn, Hvr, Hv, Hv', Z.abs_mul; done|].
  cbn [is_negative set_negative]. rewrite Hvn, Hvr, Hv, Hv', Hs, Hs'.
  destruct (Z.ltb_spec a 0), (Z.ltb_spec b 0), (Z.eqb_spec (Z.abs a * Z.abs b) 0), (Z.ltb_spec (a * b) 0); cbn; try done; nia.
Qed.

(** *** Division *)

(** [multiples[k]] is [k + 1] times the divisor. *)
Definition multiples_of (D : Z) (ms : list Int) : Prop :=
  forall k x, ms !! k = Some x -> exists l, mag x l /\ canonical l /\ val l = Z.of_nat (k + 1) * D.

Lemma multiple_at_ok ms D k : multiples_of D ms -> (k < length ms)%nat ->
  exists x l, multiple_at ms k = Ok x /\ mag x l /\ canonical l /\ val l = Z.of_nat (k + 1) * D.
Proof.
  intros Hms Hk. destruct (lookup_lt_is_Some_2 ms k Hk) as [x Hx]. destruct (Hms k x Hx) as (l & Hl). exists x, l.
  unfold multiple_at. by rewrite (getitem_ok _ _ _ _ Hx).
Qed.

Lemma add_multiples_spec D base lb : mag base lb -> canonical lb -> val lb = D ->
  forall count ms, multiples_of D ms -> ms <> [] ->
  exists ms', add_multiples count (length ms) base ms = Ok (Ok ms') /\ multiples_of D ms' /\ length ms' = (length ms + count)%nat.
Proof.
  intros Hb Hcb Hvb. induction count as [|count IH]; intros ms Hms Hne; cbn [add_multiples].
  - exists ms. split_and!; [done|done|lia].
  - assert (0 < length ms)%nat by (destruct ms; [done|simpl; lia]).
    destruct (multiple_at_ok ms D (length ms - 1) Hms ltac:(lia)) as (p & l & -> & Hp & Hcp & Hvp). cbn [result_bind].
    destruct (clone_spec p l Hp) as (q & -> & Hq & _). cbn [result_bind].
    destruct (add_magnitude_spec q base l lb Hq Hb Hcp Hcb) as (q' & l' & -> & Hq' & Hcq & Hvq & _). cbn [or_return_pure].
    destruct (IH (ms ++ [q'])) as (ms' & E & Hms' & Hl'); [|by destruct ms|].
    + intros k x [Hx|[Hk Hx]]%lookup_app_Some; [by apply Hms|]. apply list_lookup_singleton_Some in Hx as [Hk' ->].
      exists l'. split_and!; [done|done|]. replace (length ms - 1 + 1)%nat with k in Hvp by lia. rewrite Hvq, Hvp, Hvb, Nat2Z.inj_add. lia.
    + rewrite length_app in E, Hl'. cbn [length] in E, Hl'. exists ms'. split_and!; [done|done|lia].
Qed.

Lemma take_multiple_spec D ms : 0 < D -> multiples_of D ms -> length ms = 9%nat ->
  forall d x l, (d <= 9)%nat -> mag x l -> canonical l -> val l < Z.of_nat (d + 1) * D ->
  exists x' l' k, take_multiple d ms x = Ok (Ok (x', k)) /\ mag x' l' /\ canonical l' /\ (k <= d)%nat /\
    val l = Z.of_nat k * D + val l' /\ val l' < D.
Proof.
  intros HD Hms Hlen. induction d as [|d IH]; intros x l Hd Hm Hc Hv; cbn [take_multiple].
  - exists x, l, O. split_and!; [done|done|done|lia|lia|lia].
  - replace (S d - 1)%nat with d by lia. destruct (multiple_at_ok ms D d Hms ltac:(lia)) as (m & lm & -> & Hmm & Hcm & Hvm).
    cbn [result_bind]. rewrite (compare_magnitude_spec x m l lm Hm Hmm Hc Hcm). cbn [result_bind].
    destruct (Z.leb_spec 0 (Z.sgn (val l - val lm))) as [Hge|Hlt].
    + destruct (subtract_magnitude_spec x m l lm Hm Hmm Hc Hcm) as (x' & l' & -> & Hm' & Hc' & Hv' & _). cbn [or_return_pure].
      exists x', l', (S d). replace (S d) with (d + 1)%nat in * by lia. split_and!; [done|done|done|lia|lia|lia].
    + destruct (IH x l ltac:(lia) Hm Hc) as (x' & l' & k & -> & Hm' & Hc' & Hk & Hv' & Hlt'); [lia|].
      exists x', l', k. split_and!; [done|done|done|lia|done|done].
Qed.

(** The quotient and the remainder of the digits above [i]. *)
Lemma long_division_spec D ms self la : 0 < D -> multiples_of D ms -> length ms = 9%nat -> mag self la -> Forall digit la ->
  forall i q r lq lr, (i <= length la)%nat -> mag q lq -> canonical lq -> mag r lr -> canonical lr -> val lr < D ->
  exists q' r' lq' lr', long_division i self ms q r = Ok (Ok (q', r')) /\ mag q' lq' /\ canonical lq' /\ mag r' lr' /\ canonical lr' /\
    val lr' < D /\ val lq' * D + val lr' = (val lq * D + val lr) * pow10 i + val (take i la).
Proof.
  intros HD Hms Hlen Hm Hda. induction i as [|i IH]; intros q r lq lr Hi Hq Hcq Hr Hcr Hlt; cbn [long_division].
  - exists q, r, lq, lr. split_and!; [done..|]. unfold pow10. simpl. lia.
  - destruct (lookup_lt_is_Some_2 la i ltac:(lia)) as [x Hx]. pose proof (Forall_at _ _ _ _ Hda Hx) as Hx'.
    rewrite (mag_at _ _ _ _ Hm Hx). cbn [result_bind].
    destruct (shift_and_add_digit_spec r lr x Hr Hcr Hx') as (r1 & l1 & -> & Hr1 & Hc1 & Hv1 & _). cbn [or_return_pure].
    unfold digit in Hx'.
    destruct (take_multiple_spec D ms HD Hms Hlen 9 r1 l1 ltac:(lia) Hr1 Hc1) as (r2 & l2 & k & -> & Hr2 & Hc2 & Hk & Hv2 & Hlt2); [lia|].
    cbn [or_return_pure]. rewrite in_u8 by lia. cbn [result_bind].
    destruct (shift_and_add_digit_spec q lq (Z.of_nat k) Hq Hcq) as (q1 & lq1 & -> & Hq1 & Hcq1 & Hvq1 & _); [split; lia|]. cbn [or_return_pure].
    destruct (IH q1 r2 lq1 l2 ltac:(lia) Hq1 Hcq1 Hr2 Hc2 Hlt2) as (q' & r' & lq' & lr' & E & Hq' & Hcq' & Hr' & Hcr' & Hlt' & Ev).
    exists q', r', lq', lr'. split_and!; [done..|]. rewrite Ev, pow10_S, Hvq1, <- Nat.add_1_r, (val_take_S _ _ _ Hx). nia.
Qed.

Lemma divmod_zero x y a : denotes x a -> denotes y 0 -> divmod x y = Ok (Err ZeroDivisionError).
Proof.
  intros _ (l & Hm & Hc & Hv & _). unfold divmod. rewrite (is_zero_spec y l Hm Hc), Hv. done.
Qed.

Lemma truncated a b q r : b <> 0 -> 0 <= q -> 0 <= r -> r < Z.abs b -> q * Z.abs b + r = Z.abs a ->
  Z.quot a b = Z.sgn a * Z.sgn b * q /\ Z.rem a b = Z.sgn a * r.
Proof.
  intros Hb Hq Hr Hlt E. rewrite Z.quot_div, Z.rem_mod by done. split; do 2 f_equal || f_equal.
  - symmetry. apply (Z.div_unique _ _ _ r); lia.
  - symmetry. apply (Z.mod_unique _ _ q); lia.
Qed.

Lemma divmod_spec x y a b : denotes x a -> denotes y b -> b <> 0 ->
  exists q r, divmod x y = Ok (Ok (q, r)) /\ denotes q (Z.quot a b) /\ denotes r (Z.rem a b).
Proof.
  intros (l & Hm & Hc & Hv & Hs) (l' & Hm' & Hc' & Hv' & Hs') Hb. unfold divmod.
  rewrite (is_zero_spec y l' Hm' Hc'), Hv', (proj2 (Z.eqb_neq (Z.abs b) 0)) by lia. cbn [result_bind].
  destruct (clone_spec y l' Hm') as (base & -> & Hbase & _). cbn [result_bind].
  assert (Hbase' : mag (set_negative false base) l') by (by apply mag_set_negative).
  destruct (add_multiples_spec (Z.abs b) _ l' Hbase' Hc' Hv' 8 [set_negative false base]) as (ms & E & Hms & Hlen); [|done|].
  { intros k z [-> <-]%list_lookup_singleton_Some. exists l'. split_and!; [done|done|lia]. }
  cbn [length] in E, Hlen. unfold widen at 1. rewrite E. cbn [result_bind or_return_pure].
  destruct (int_of_i32_spec 0 ltac:(lia)) as (q0 & E0 & lq0 & Hq0 & Hcq0 & Hvq0 & _). rewrite E0. cbn [result_bind].
  rewrite (mag_count _ _ Hm).
  destruct (long_division_spec (Z.abs b) ms x l ltac:(lia) Hms Hlen Hm (canonical_digits _ Hc) (length l) q0 q0 lq0 lq0 ltac:(lia) Hq0 Hcq0 Hq0 Hcq0)
    as (q & r & lq & lr & E1 & Hq & Hcq & Hr & Hcr & Hlt & Ev); [simpl in Hvq0; lia|].
  unfold widen. rewrite E1. cbn [result_bind or_return_pure].
  rewrite (nonzero_and_spec _ q lq Hq Hcq), (nonzero_and_spec _ r lr Hr Hcr). cbn [result_bind].
  destruct (canonical_bounds lq Hcq) as [Hq1 _], (canonical_bounds lr Hcr) as [Hr1 _].
  rewrite firstn_all, Hvq0, Hv in Ev. simpl in Ev.
  destruct (truncated a b (val lq) (val lr)) as [Eq Er]; [lia..|]. eexists _, _. split; [done|].
  rewrite Eq, Er, Hs, Hs'. assert (Hq0' : a = 0 -> val lq = 0) by nia. assert (Hr0' : a = 0 -> val lr = 0) by nia. split.
  - apply (denotes_intro _ lq); [by apply mag_set_negative|done| |]; cbn [is_negative set_negative].
    + rewrite !Z.abs_mul. destruct (Z.sgn_spec a) as [[_ ->]|[[? ->]|[_ ->]]], (Z.sgn_spec b) as [[_ ->]|[[? ->]|[_ ->]]]; simpl; lia.
    + destruct (Z.ltb_spec a 0), (Z.ltb_spec b 0), (Z.eqb_spec (val lq) 0), (Z.ltb_spec (Z.sgn a * Z.sgn b * val lq) 0); cbn; try done;
        destruct (Z.sgn_spec a) as [[? E2]|[[? E2]|[? E2]]], (Z.sgn_spec b) as [[? E3]|[[? E3]|[? E3]]]; rewrite E2, E3 in *; lia.
  - apply (denotes_intro _ lr); [by apply mag_set_negative|done| |]; cbn [is_negative set_negative].
    + rewrite !Z.abs_mul. destruct (Z.sgn_spec a) as [[_ ->]|[[? ->]|[_ ->]]]; simpl; lia.
    + destruct (Z.ltb_spec a 0), (Z.eqb_spec (val lr) 0), (Z.ltb_spec (Z.sgn a * val lr) 0); cbn; try done;
        destruct (Z.sgn_spec a) as [[? E2]|[[? E2]|[? E2]]]; rewrite E2 in *; lia.
Qed.

(** C33: On objects that stand for [a] and [b], the operators [+], [-], [*] and
    unary [-] return an object that stands for the exact result, and the six
    comparisons and [compare] answer as the order of the integers: no digit
    operation leaves its type, no access is out of bounds, no loop runs on, and
    the result again has no leading zero and no negative zero. *)
Theorem int_operators_exact x y a b : denotes x a -> denotes y b ->
  (exists r, __add__ x y = Ok (Ok r) /\ denotes r (a + b)) /\
  (exists r, __sub__ x y = Ok (Ok r) /\ denotes r (a - b)) /\
  (exists r, __mul__ x y = Ok (Ok r) /\ denotes r (a * b)) /\
  (exists r, __neg__ x = Ok (Ok r) /\ denotes r (- a)) /\
  int_compare x y = Ok (Z.sgn (a - b)) /\
  __eq__ x y = Ok (bool_decide (a = b)) /\ __ne__ x y = Ok (bool_decide (a <> b)) /\
  __lt__ x y = Ok (bool_decide (a < b)) /\ __le__ x y = Ok (bool_decide (a <= b)) /\
  __gt__ x y = Ok (bool_decide (b < a)) /\ __ge__ x y = Ok (bool_decide (b <= a)).
Proof.
  intros Hx Hy. split; [by apply add_spec|]. split; [by apply sub_spec|]. split; [by apply mul_spec|].
  split; [by apply neg_spec|]. split; [by apply int_compare_spec|].
  unfold __eq__, __ne__, __lt__, __le__, __gt__, __ge__. rewrite !(compare_by_spec _ x y a b Hx Hy).
  split_and!; f_equal; symmetry.
  all: match goal with |- bool_decide ?P = ?r => destruct r eqn:E; [apply bool_decide_eq_true_2|apply bool_decide_eq_false_2] end; lia.
Qed.

Lemma sample_ints : denotes (of_parts true [7; 1]) (-17) /\ denotes (of_parts false [5]) 5.
Proof.
  split.
  - exists [7; 1]. split_and!; [split; [by exists []|done|done]| |done|done].
    split_and!; [done|repeat constructor; lia|right; by vm_compute].
  - exists [5]. split_and!; [split; [by exists []|done|done]| |done|done]. split_and!; [done|repeat constructor; lia|by left].
Qed.

Lemma int_operators_exact_witness : exists r, __add__ (of_parts true [7; 1]) (of_parts false [5]) = Ok (Ok r) /\ denotes r (-12).
Proof. exact (proj1 (int_operators_exact _ _ _ _ (proj1 sample_ints) (proj2 sample_ints))). Defined.

(** C34: Division by zero is the error value [ZeroDivisionError]; otherwise
    [divmod] ends with the quotient rounded towards zero and the remainder with
    the dividend's sign, and [//] and [%] are its two halves.  The nine multiples
    of the divisor are always enough for a digit. *)
Theorem divmod_exact x y a b : denotes x a -> denotes y b ->
  if decide (b = 0) then
    divmod x y = Ok (Err ZeroDivisionError) /\
    __floordiv__ x y = Ok (Err ZeroDivisionError) /\ __mod__ x y = Ok (Err ZeroDivisionError)
  else exists q r, divmod x y = Ok (Ok (q, r)) /\ __floordiv__ x y = Ok (Ok q) /\ __mod__ x y = Ok (Ok r) /\
    denotes q (Z.quot a b) /\ denotes r (Z.rem a b).
Proof.
  intros Hx Hy. unfold __floordiv__, __mod__. destruct (decide (b = 0)) as [->|Hb].
  - by rewrite (divmod_zero x y a Hx Hy).
  - destruct (divmod_spec x y a b Hx Hy Hb) as (q & r & -> & Hq & Hr). by exists q, r.
Qed.

Lemma divmod_exact_witness :
  exists q r, divmod (of_parts true [7; 1]) (of_parts false [5]) = Ok (Ok (q, r)) /\
    denotes q (-3) /\ denotes r (-2).
Proof.
  destruct sample_ints as [Ha Hb].
  destruct (divmod_exact _ _ _ _ Ha Hb) as (q & r & E & _ & _ & Hq & Hr). exists q, r. split; [exact E|]. split; [exact Hq|exact Hr].
Defined.
