(* ===== verification/Utf8.v ===== *)
(** * UTF-8 strings: construction and decoding ([lib/builtins/__str.py] and
    [_from_owned_cstr] of [lib/builtins/__init__.py])

    A [str] owns a zero-terminated UTF-8 buffer, the number of its code points
    and a sparse index: the byte offset of every 256th code point.  Every
    constructor goes through [from_owned_cstr], which validates the bytes.
    [utf8] is the encoding of a list of code points; [from_owned_cstr_exact]
    shows that the validator accepts just its values and fills in the rest. *)

From S2P Require Import Prelude RawList Bits Buffers.

Local Open Scope Z_scope.
Local Open Scope monad_scope.

(** ** The encoding *)

(** [decode_utf8_at]: the code point at [i] and how many bytes it takes. *)
Definition decode_utf8_at (data : list Z) (i : nat) : result abort (Z * nat) :=
  let? byte1 := read_ptr data i in
  if Z.land byte1 128 =? 0 then Ok (byte1, 1%nat)
  else if Z.land byte1 224 =? 192 then
    let? byte2 := read_ptr data (i + 1) in
    Ok (Z.lor (u32 (Z.shiftl (Z.land byte1 31) 6)) (Z.land byte2 63), 2%nat)
  else if Z.land byte1 240 =? 224 then
    let? byte2 := read_ptr data (i + 1) in
    let? byte3 := read_ptr data (i + 2) in
    Ok (Z.lor (Z.lor (u32 (Z.shiftl (Z.land byte1 15) 12)) (u32 (Z.shiftl (Z.land byte2 63) 6))) (Z.land byte3 63), 3%nat)
  else
    let? byte2 := read_ptr data (i + 1) in
    let? byte3 := read_ptr data (i + 2) in
    let? byte4 := read_ptr data (i + 3) in
    Ok (Z.lor (Z.lor (Z.lor (u32 (Z.shiftl (Z.land byte1 7) 18)) (u32 (Z.shiftl (Z.land byte2 63) 12)))
      (u32 (Z.shiftl (Z.land byte3 63) 6))) (Z.land byte4 63), 4%nat).

Definition utf8_encoded_len (cp : Z) : nat :=
  if cp <? 128 then 1 else if cp <? 2048 then 2 else if cp <? 65536 then 3 else 4.

(** What [encode_utf8_at] stores from [dest[i]] on. *)
Definition encode_utf8 (cp : Z) : list Z :=
  if cp <? 128 then [u8 cp]
  else if cp <? 2048 then
    [u8 (Z.lor 192 (Z.shiftr cp 6)); u8 (Z.lor 128 (Z.land cp 63))]
  else if cp <? 65536 then
    [u8 (Z.lor 224 (Z.shiftr cp 12)); u8 (Z.lor 128 (Z.land (Z.shiftr cp 6) 63)); u8 (Z.lor 128 (Z.land cp 63))]
  else
    [u8 (Z.lor 240 (Z.shiftr cp 18)); u8 (Z.lor 128 (Z.land (Z.shiftr cp 12) 63));
     u8 (Z.lor 128 (Z.land (Z.shiftr cp 6) 63)); u8 (Z.lor 128 (Z.land cp 63))].

(** ** [str] *)

Record CodecError := mkCodecError { encoding : string; message : string }.

Definition utf8_error (msg : string) : CodecError := mkCodecError "utf-8" msg.

Record Str := mkStr {
  s_data : list Z;
  byte_size : nat;
  char_count : nat;
  char_index : list (option nat);
}.

(** The length of the sequence at [i], or why there is none. *)
Definition utf8_sequence (ptr : list Z) (text_len i : nat) : result abort (result CodecError nat) :=
  let error msg := Ok (Err (utf8_error msg)) in
  let? byte1 := read_ptr ptr i in
  if Z.land byte1 128 =? 0 then Ok (Ok 1%nat)
  else if Z.land byte1 192 =? 128 then error "Unexpected continuation byte as leading byte"%string
  else if Z.land byte1 224 =? 192 then
    if (text_len <=? i + 1)%nat then error "Truncated 2-byte sequence"%string
    else if byte1 <? 194 then error "Overlong 2-byte encoding"%string
    else
      let? byte2 := read_ptr ptr (i + 1) in
      if negb (Z.land byte2 192 =? 128) then error "Invalid continuation byte in 2-byte sequence"%string
      else Ok (Ok 2%nat)
  else if Z.land byte1 240 =? 224 then
    if (text_len <=? i + 2)%nat then error "Truncated 3-byte sequence"%string
    else
      let? byte2 := read_ptr ptr (i + 1) in
      let? byte3 := read_ptr ptr (i + 2) in
      if (byte1 =? 224) && (byte2 <? 160) then error "Overlong 3-byte encoding"%string
      else if negb (Z.land byte2 192 =? 128) || negb (Z.land byte3 192 =? 128)
      then error "Invalid continuation byte in 3-byte sequence"%string
      else if (byte1 =? 237) && (160 <=? byte2) then error "UTF-16 surrogate half"%string
      else Ok (Ok 3%nat)
  else if Z.land byte1 248 =? 240 then
    if (text_len <=? i + 3)%nat then error "Truncated 4-byte sequence"%string
    else
      let? byte2 := read_ptr ptr (i + 1) in
      let? byte3 := read_ptr ptr (i + 2) in
      let? byte4 := read_ptr ptr (i + 3) in
      if (byte1 =? 240) && (byte2 <? 144) then error "Overlong 4-byte encoding"%string
      else if negb (Z.land byte2 192 =? 128) || negb (Z.land byte3 192 =? 128) || negb (Z.land byte4 192 =? 128)
      then error "Invalid continuation byte in 4-byte sequence"%string
      else if (byte1 =? 244) && (144 <=? byte2) then error "Code point exceeds maximum valid Unicode (U+10FFFF)"%string
      else if 244 <? byte1 then error "Code point exceeds maximum valid Unicode (sequence prefix > 0xF4)"%string
      else Ok (Ok 4%nat)
  else error "Invalid leading byte"%string.

Definition write_index (k i : nat) (index : list (option nat)) : result abort (list (option nat)) :=
  if (k <? length index)%nat then Ok (<[k := Some i]> index) else Err Fault.

(** The validation loop; every sequence has a byte, so [fuel] is the text length. *)
Fixpoint validate (fuel : nat) (ptr : list Z) (text_len i char_count : nat) (index : list (option nat)) :
    result abort (result CodecError (nat * list (option nat))) :=
  if (i <? text_len)%nat then
    match fuel with
    | O => Err Fault
    | S fuel =>
        let? index := if (Nat.land char_count 255 =? 0)%nat then write_index (Nat.shiftr char_count 8) i index else Ok index in
        let?! n := utf8_sequence ptr text_len i in
        validate fuel ptr text_len (i + n) (char_count + 1) index
    end
  else Ok (Ok (char_count, index)).

Definition from_owned_cstr (ptr : list Z) (byte_size_including_zero_terminator : nat) : result abort (result CodecError Str) :=
  match byte_size_including_zero_terminator with
  | O => Ok (Err (utf8_error "empty buffer"))
  | S text_len =>
      let? last := read_ptr ptr text_len in
      if negb (last =? 0) then Ok (Err (utf8_error "missing 0-terminator"))
      else
        let entries := (Nat.shiftr byte_size_including_zero_terminator 8 + 1)%nat in
        let?! (count, index) := validate text_len ptr text_len 0 0 (replicate entries None) in
        Ok (Ok (mkStr ptr byte_size_including_zero_terminator count index))
  end.

Definition byte_len (s : Str) : nat := byte_size s - 1.

Example validate_sample :
  from_owned_cstr [72; 195; 169; 240; 159; 152; 128; 0] 8 =
  Ok (Ok (mkStr [72; 195; 169; 240; 159; 152; 128; 0] 8 3 [Some O])).
Proof. reflexivity. Qed.

(** ** Specification *)

Definition scalar_value (cp : Z) : bool := ((0 <=? cp) && (cp <? 55296)) || ((57344 <=? cp) && (cp <? 1114112)).

(** The encoding form of RFC 3629. *)
Definition utf8_char (cp : Z) : list Z :=
  if cp <? 128 then [cp]
  else if cp <? 2048 then [192 + cp / 64; 128 + cp mod 64]
  else if cp <? 65536 then [224 + cp / 4096; 128 + cp / 64 mod 64; 128 + cp mod 64]
  else [240 + cp / 262144; 128 + cp / 4096 mod 64; 128 + cp / 64 mod 64; 128 + cp mod 64].

Definition utf8 (cps : list Z) : list Z := concat (map utf8_char cps).

Definition text (cps : list Z) : Prop := Forall (fun cp => scalar_value cp = true) cps.

(** *** Bytes *)

Lemma byte_forall (P : Z -> bool) : forallb (fun n => P (Z.of_nat n)) (seq 0 256) = true -> forall b, is_byte b -> P b = true.
Proof.
  intros Hf b Hb. unfold is_byte in Hb. rewrite forallb_forall in Hf. specialize (Hf (Z.to_nat b)).
  rewrite Z2Nat.id in Hf by lia. apply Hf, in_seq. lia.
Qed.

Lemma lead_ascii b : is_byte b -> (Z.land b 128 =? 0) = (b <? 128).
Proof. intros Hb. apply eqb_prop. revert b Hb. by apply byte_forall. Qed.

Lemma lead_continuation b : is_byte b -> (Z.land b 192 =? 128) = (128 <=? b) && (b <? 192).
Proof. intros Hb. apply eqb_prop. revert b Hb. by apply byte_forall. Qed.

Lemma lead_two b : is_byte b -> (Z.land b 224 =? 192) = (192 <=? b) && (b <? 224).
Proof. intros Hb. apply eqb_prop. revert b Hb. by apply byte_forall. Qed.

Lemma lead_three b : is_byte b -> (Z.land b 240 =? 224) = (224 <=? b) && (b <? 240).
Proof. intros Hb. apply eqb_prop. revert b Hb. by apply byte_forall. Qed.

Lemma lead_four b : is_byte b -> (Z.land b 248 =? 240) = (240 <=? b) && (b <? 248).
Proof. intros Hb. apply eqb_prop. revert b Hb. by apply byte_forall. Qed.

Lemma scalar_spec cp : scalar_value cp = true <-> 0 <= cp < 55296 \/ 57344 <= cp < 1114112.
Proof. unfold scalar_value. rewrite orb_true_iff, !andb_true_iff, !Z.leb_le, !Z.ltb_lt. lia. Qed.

(** The four shapes of an encoded character, by its leading byte. *)
Inductive sequence : Z -> list Z -> Prop :=
| seq1 a : 0 <= a < 128 -> sequence a [a]
| seq2 a b : 194 <= a < 224 -> 128 <= b < 192 -> sequence ((a - 192) * 64 + (b - 128)) [a; b]
| seq3 a b c : 224 <= a < 240 -> 128 <= b < 192 -> 128 <= c < 192 -> (a = 224 -> 160 <= b) -> (a = 237 -> b < 160) ->
    sequence ((a - 224) * 4096 + (b - 128) * 64 + (c - 128)) [a; b; c]
| seq4 a b c d : 240 <= a < 245 -> 128 <= b < 192 -> 128 <= c < 192 -> 128 <= d < 192 -> (a = 240 -> 144 <= b) -> (a = 244 -> b < 144) ->
    sequence ((a - 240) * 262144 + (b - 128) * 4096 + (c - 128) * 64 + (d - 128)) [a; b; c; d].

Ltac divmod := Z.to_euclidean_division_equations; lia.

Lemma sequence_char cp l : sequence cp l <-> scalar_value cp = true /\ l = utf8_char cp.
Proof.
  rewrite scalar_spec. unfold utf8_char. split.
  - intros [a|a b|a b c|a b c d]; split; try lia.
    + by rewrite (proj2 (Z.ltb_lt a 128)) by lia.
    + rewrite (proj2 (Z.ltb_ge _ 128)), (proj2 (Z.ltb_lt _ 2048)) by lia. f_equal; [|f_equal]; divmod.
    + rewrite (proj2 (Z.ltb_ge _ 128)), (proj2 (Z.ltb_ge _ 2048)), (proj2 (Z.ltb_lt _ 65536)) by lia.
      f_equal; [|f_equal; [|f_equal]]; divmod.
    + rewrite (proj2 (Z.ltb_ge _ 128)), (proj2 (Z.ltb_ge _ 2048)), (proj2 (Z.ltb_ge _ 65536)) by lia.
      f_equal; [|f_equal; [|f_equal; [|f_equal]]]; divmod.
  - intros [Hs ->]. destruct (Z.ltb_spec cp 128); [constructor; lia|]. destruct (Z.ltb_spec cp 2048).
    { replace cp with ((192 + cp / 64 - 192) * 64 + (128 + cp mod 64 - 128)) at 1 by divmod. constructor; divmod. }
    destruct (Z.ltb_spec cp 65536).
    { replace cp with ((224 + cp / 4096 - 224) * 4096 + (128 + cp / 64 mod 64 - 128) * 64 + (128 + cp mod 64 - 128)) at 1 by divmod.
      constructor; divmod. }
    replace cp with ((240 + cp / 262144 - 240) * 262144 + (128 + cp / 4096 mod 64 - 128) * 4096 +
      (128 + cp / 64 mod 64 - 128) * 64 + (128 + cp mod 64 - 128)) at 1 by divmod.
    constructor; divmod.
Qed.

(** *** The validator reads one sequence *)

Section at_offset.
Context (txt tl : list Z) (bytes : Forall is_byte txt).

Lemma read_text i k l x : drop i txt = l -> l !! k = Some x -> read_ptr (txt ++ tl) (i + k) = Ok x.
Proof.
  intros <- Hx. rewrite lookup_drop in Hx. unfold read_ptr. rewrite lookup_app_l by (by eapply lookup_lt_Some). by rewrite Hx.
Qed.

Lemma read_text_0 i l x : drop i txt = l -> l !! O = Some x -> read_ptr (txt ++ tl) i = Ok x.
Proof. intros Hd Hx. rewrite <- (Nat.add_0_r i). by eapply read_text. Qed.

Lemma drop_bytes i l : drop i txt = l -> Forall is_byte l.
Proof. intros <-. by apply Forall_drop. Qed.

Lemma drop_length i l : drop i txt = l -> (i < length txt)%nat -> length txt = (i + length l)%nat.
Proof. intros <- Hi. rewrite length_drop. lia. Qed.

Definition sequence_found (l : list Z) (r : result abort (result CodecError nat)) : Prop :=
  (exists cp s rest, sequence cp s /\ l = s ++ rest /\ r = Ok (Ok (length s))) \/
  ((exists e, r = Ok (Err (utf8_error e))) /\ forall cp s rest, sequence cp s -> l <> s ++ rest).

Ltac no_sequence := right; split; [by eexists|];
  let Hs := fresh in intros ? ? ? Hs; inversion Hs; subst; clear Hs; intros [=]; subst; simpl in *; try lia; try discriminate.

Lemma utf8_sequence_spec i l : drop i txt = l -> (i < length txt)%nat -> sequence_found l (utf8_sequence (txt ++ tl) (length txt) i).
Proof.
  intros Hd Hi. pose proof (drop_length _ _ Hd Hi) as Hl. pose proof (drop_bytes _ _ Hd) as Hb. rewrite Hl.
  destruct l as [|a l]; [simpl in Hl; lia|]. clear Hi.
  apply Forall_cons in Hb as [Ha Hb]. pose proof (read_text_0 _ _ a Hd eq_refl) as Ra.
  unfold utf8_sequence. rewrite Ra. cbn [result_bind].
  rewrite (lead_ascii a Ha), (lead_continuation a Ha), (lead_two a Ha), (lead_three a Ha), (lead_four a Ha). unfold is_byte in Ha.
  destruct (Z.ltb_spec a 128) as [H1|H1].
  { left. exists a, [a], l. split_and!; [constructor; lia|done|done]. }
  rewrite (proj2 (Z.leb_le 128 a)) by lia. cbn [andb].
  destruct (Z.ltb_spec a 192) as [H2|H2]; [no_sequence|]. rewrite (proj2 (Z.leb_le 192 a)) by lia. cbn [andb].
  destruct (Z.ltb_spec a 224) as [H3|H3].
  { destruct l as [|b l]; [rewrite (proj2 (Nat.leb_le _ _)) by (simpl; lia); no_sequence|].
    rewrite (proj2 (Nat.leb_gt _ _)) by (simpl; lia). destruct (Z.ltb_spec a 194) as [H4|H4]; [no_sequence|].
    apply Forall_cons in Hb as [Hb _]. rewrite (read_text _ 1 _ b Hd eq_refl). cbn [result_bind]. rewrite (lead_continuation b Hb).
    destruct (Z.leb_spec 128 b), (Z.ltb_spec b 192); cbn [andb negb]; [|no_sequence..].
    left. eexists _, [a; b], l. split_and!; [constructor; lia|done|done]. }
  rewrite (proj2 (Z.leb_le 224 a)) by lia. cbn [andb]. destruct (Z.ltb_spec a 240) as [H4|H4].
  { destruct l as [|b [|c l]]; [rewrite (proj2 (Nat.leb_le _ _)) by (simpl; lia); no_sequence..|].
    rewrite (proj2 (Nat.leb_gt _ _)) by (simpl; lia). apply Forall_cons in Hb as [Hb [Hc _]%Forall_cons].
    rewrite (read_text _ 1 _ b Hd eq_refl), (read_text _ 2 _ c Hd eq_refl). cbn [result_bind].
    rewrite (lead_continuation b Hb), (lead_continuation c Hc).
    destruct (Z.eqb_spec a 224), (Z.ltb_spec b 160); cbn [andb]; [no_sequence|..];
      (destruct (Z.leb_spec 128 b), (Z.ltb_spec b 192), (Z.leb_spec 128 c), (Z.ltb_spec c 192); cbn [andb negb orb]; [|no_sequence..]);
      (destruct (Z.eqb_spec a 237), (Z.leb_spec 160 b); cbn [andb]; [no_sequence|..]); try lia;
      left; eexists _, [a; b; c], l; (split_and!; [constructor; lia|done|done]). }
  rewrite (proj2 (Z.leb_le 240 a)) by lia. cbn [andb]. destruct (Z.ltb_spec a 248) as [H5|H5]; [|no_sequence].
  destruct l as [|b [|c [|d l]]]; [rewrite (proj2 (Nat.leb_le _ _)) by (simpl; lia); no_sequence..|].
  rewrite (proj2 (Nat.leb_gt _ _)) by (simpl; lia). apply Forall_cons in Hb as [Hb [Hc [Hdd _]%Forall_cons]%Forall_cons].
  rewrite (read_text _ 1 _ b Hd eq_refl), (read_text _ 2 _ c Hd eq_refl), (read_text _ 3 _ d Hd eq_refl). cbn [result_bind].
  rewrite (lead_continuation b Hb), (lead_continuation c Hc), (lead_continuation d Hdd).
  destruct ((a =? 240) && (b <? 144)) eqn:E1.
  { apply andb_prop in E1 as [E1%Z.eqb_eq E2%Z.ltb_lt]. no_sequence. }
  destruct (negb ((128 <=? b) && (b <? 192)) || negb ((128 <=? c) && (c <? 192)) || negb ((128 <=? d) && (d <? 192))) eqn:E2; [no_sequence|].
  destruct ((a =? 244) && (144 <=? b)) eqn:E3.
  { apply andb_prop in E3 as [E3%Z.eqb_eq E4%Z.leb_le]. no_sequence. }
  destruct (Z.ltb_spec 244 a) as [H6|H6]; [no_sequence|].
  left. eexists _, [a; b; c; d], l. split_and!; [constructor; lia|done|done].
Qed.
End at_offset.

Lemma sequence_unique cp s r cp' s' r' : sequence cp s -> sequence cp' s' -> s ++ r = s' ++ r' -> cp = cp' /\ s = s' /\ r = r'.
Proof. intros [] []; simpl; intros [=]; subst; try lia; done. Qed.

Lemma sequence_length cp s : sequence cp s -> (0 < length s <= 4)%nat.
Proof. intros []; simpl; lia. Qed.

Lemma sequence_bytes cp s : sequence cp s -> Forall is_byte s.
Proof. intros []; repeat constructor; lia. Qed.

Lemma utf8_cons cp cps : utf8 (cp :: cps) = utf8_char cp ++ utf8 cps.
Proof. done. Qed.

Lemma utf8_app a b : utf8 (a ++ b) = utf8 a ++ utf8 b.
Proof. unfold utf8. by rewrite map_app, concat_app. Qed.

Lemma utf8_singleton cp : utf8 [cp] = utf8_char cp.
Proof. apply app_nil_r. Qed.

Lemma char_sequence cp : scalar_value cp = true -> sequence cp (utf8_char cp).
Proof. intros Hs. by apply sequence_char. Qed.

Lemma utf8_bytes cps : text cps -> Forall is_byte (utf8 cps).
Proof.
  induction 1 as [|cp cps Hc _ IH]; [constructor|]. rewrite utf8_cons. apply Forall_app. split; [|done].
  eapply sequence_bytes. by apply char_sequence.
Qed.

Lemma utf8_length cps : text cps -> (length cps <= length (utf8 cps))%nat.
Proof.
  induction 1 as [|cp cps Hc _ IH]; [done|]. rewrite utf8_cons, length_app. simpl.
  pose proof (sequence_length _ _ (char_sequence cp Hc)). lia.
Qed.

Lemma utf8_inj cps cps' : text cps -> text cps' -> utf8 cps = utf8 cps' -> cps = cps'.
Proof.
  intros Ht. revert cps'. induction Ht as [|cp cps Hc Ht IH]; intros cps' Ht' E.
  - destruct Ht' as [|cp' cps' Hc' _]; [done|]. apply (f_equal length) in E. rewrite utf8_cons, length_app in E. simpl in E.
    pose proof (sequence_length _ _ (char_sequence cp' Hc')). lia.
  - destruct Ht' as [|cp' cps' Hc' Ht'].
    + apply (f_equal length) in E. rewrite utf8_cons, length_app in E. simpl in E.
      pose proof (sequence_length _ _ (char_sequence cp Hc)). lia.
    + rewrite !utf8_cons in E. destruct (sequence_unique _ _ _ _ _ _ (char_sequence _ Hc) (char_sequence _ Hc') E) as (-> & _ & E').
      f_equal. by apply IH.
Qed.

(** *** The index *)

(** The index knows the byte offset of every 256th code point. *)
Definition index_ok (cps : list Z) (index : list (option nat)) : Prop :=
  forall g, (256 * g < length cps)%nat -> index !! g = Some (Some (length (utf8 (take (256 * g) cps)))).

Lemma low_byte n : Nat.land n 255 = (n mod 256)%nat.
Proof. apply (Nat.land_ones n 8). Qed.

Lemma high_bits n : Nat.shiftr n 8 = (n / 256)%nat.
Proof. apply (Nat.shiftr_div_pow2 n 8). Qed.

Lemma index_step pre cp index : index_ok pre index -> (length pre / 256 < length index)%nat -> exists index',
  (if (Nat.land (length pre) 255 =? 0)%nat then write_index (Nat.shiftr (length pre) 8) (length (utf8 pre)) index else Ok index) = Ok index' /\
  length index' = length index /\ index_ok (pre ++ [cp]) index'.
Proof.
  intros Hi Hl. rewrite low_byte, high_bits.
  assert (Hold : forall g (index' : list (option nat)), (256 * g < length pre)%nat -> index' !! g = index !! g ->
    index' !! g = Some (Some (length (utf8 (take (256 * g) (pre ++ [cp])))))).
  { intros g index' Hg ->. rewrite (Hi g Hg), take_app_le by lia. done. }
  pose proof (Nat.div_mod (length pre) 256 ltac:(lia)) as Hdm. pose proof (Nat.mod_upper_bound (length pre) 256 ltac:(lia)) as Hm.
  destruct (Nat.eqb_spec (length pre mod 256) 0) as [Hz|Hnz].
  - unfold write_index. rewrite (proj2 (Nat.ltb_lt _ _) Hl). eexists. split; [done|]. split; [by rewrite length_insert|].
    intros g Hg. rewrite length_app in Hg. cbn [length] in Hg. destruct (decide (g = length pre / 256)%nat) as [->|Hne].
    + rewrite list_lookup_insert_eq by done. do 3 f_equal. rewrite take_app_le, take_ge by lia. done.
    + apply Hold; [lia|]. by rewrite list_lookup_insert_ne.
  - exists index. split_and!; [done|done|]. intros g Hg. rewrite length_app in Hg. cbn [length] in Hg. apply Hold; [|done].
    destruct (decide (256 * g = length pre)%nat); [|lia]. destruct Hnz. rewrite <- e, Nat.mul_comm. by apply Nat.Div0.mod_mul.
Qed.

(** *** The validator *)

Lemma validate_spec txt (index0 : list (option nat)) : Forall is_byte txt -> (length txt / 256 < length index0)%nat ->
  forall fuel pre rest index, txt = utf8 pre ++ rest -> text pre -> (length rest <= fuel)%nat -> index_ok pre index ->
  length index = length index0 ->
  let r := validate fuel (txt ++ [0]) (length txt) (length (utf8 pre)) (length pre) index in
  (exists cps index', text cps /\ rest = utf8 cps /\ r = Ok (Ok (length (pre ++ cps), index')) /\ index_ok (pre ++ cps) index') \/
  ((exists e, r = Ok (Err (utf8_error e))) /\ forall cps, text cps -> rest <> utf8 cps).
Proof.
  intros Hb Hlen. induction fuel as [|fuel IH]; intros pre rest index Htxt Htp Hf Hi Hl; cbn zeta.
  - destruct rest; [|simpl in Hf; lia]. rewrite app_nil_r in Htxt. left. exists [], index. cbn [validate].
    rewrite Htxt, Nat.ltb_irrefl, app_nil_r. split_and!; [constructor|done|done|done].
  - cbn [validate]. destruct rest as [|x rest'] eqn:Er.
    { rewrite app_nil_r in Htxt. left. exists [], index. rewrite Htxt, Nat.ltb_irrefl, app_nil_r. split_and!; [constructor|done|done|done]. }
    rewrite <- Er in *. assert (Hlt : (length (utf8 pre) < length txt)%nat) by (rewrite Htxt, length_app, Er; simpl; lia).
    rewrite (proj2 (Nat.ltb_lt _ _) Hlt). pose proof (utf8_length pre Htp) as Hpl.
    assert (Hdrop : drop (length (utf8 pre)) txt = rest) by (by rewrite Htxt, drop_app_length).
    destruct (utf8_sequence_spec txt [0] Hb _ _ Hdrop Hlt) as [(cp & s & rest2 & Hs & Hrest & Es)|[[e Ee] Hno]].
    + destruct (index_step pre cp index Hi) as (index' & -> & Hl' & Hi').
      { rewrite Hl. eapply Nat.le_lt_trans; [apply Nat.Div0.div_le_mono|exact Hlen]. lia. }
      cbn [result_bind]. rewrite Es. cbn [or_return_pure]. apply sequence_char in Hs as Hs'. destruct Hs' as [Hsc ->].
      assert (Htxt' : txt = utf8 (pre ++ [cp]) ++ rest2) by (by rewrite utf8_app, utf8_singleton, Htxt, Hrest, app_assoc).
      destruct (IH (pre ++ [cp]) rest2 index') as [(cps & idx & Hc & -> & E & Hix)|[[e E] Hno]];
        [done|apply Forall_app; split; [done|by constructor]| |done|congruence|..].
      * rewrite Hrest, length_app in Hf. pose proof (sequence_length _ _ Hs). lia.
      * left. exists (cp :: cps), idx. rewrite utf8_app, utf8_singleton, !length_app in E. simpl in E.
        rewrite <- app_assoc in Hix. split_and!; [by constructor|by rewrite Hrest|rewrite E; f_equal; f_equal; f_equal; rewrite length_app; simpl; lia|done].
      * right. rewrite utf8_app, utf8_singleton, !length_app in E. split; [by exists e|]. intros cps Hc Hr.
        destruct Hc as [|cp' cps Hc' Hc]; [by rewrite Er in Hr|]. rewrite utf8_cons, Hrest in Hr.
        destruct (sequence_unique _ _ _ _ _ _ Hs (char_sequence _ Hc') Hr) as (_ & _ & ->). by apply (Hno cps).
    + destruct (index_step pre 0 index Hi) as (index' & -> & _ & _).
      { rewrite Hl. eapply Nat.le_lt_trans; [apply Nat.Div0.div_le_mono|exact Hlen]. lia. }
      cbn [result_bind]. rewrite Ee. cbn [or_return_pure]. right. split; [by exists e|]. intros cps Hc Hr.
      destruct Hc as [|cp cps Hc Ht]; [by rewrite Er in Hr|]. apply (Hno cp (utf8_char cp) (utf8 cps)); [by apply char_sequence|done].
Qed.

Lemma validate_whole txt (index : list (option nat)) : Forall is_byte txt -> (length txt / 256 < length index)%nat ->
  let r := validate (length txt) (txt ++ [0]) (length txt) 0 0 index in
  (exists cps index', text cps /\ txt = utf8 cps /\ r = Ok (Ok (length cps, index')) /\ index_ok cps index') \/
  ((exists e, r = Ok (Err (utf8_error e))) /\ forall cps, text cps -> txt <> utf8 cps).
Proof.
  intros Hb Hl. apply (validate_spec txt index Hb Hl (length txt) [] txt index); [done|constructor|done| |done].
  intros g Hg. cbn [length] in Hg. lia.
Qed.

(** *** Strings *)

(** [s] is the string of the code points [cps]. *)
Record str_ok (s : Str) (cps : list Z) : Prop := {
  str_text : text cps;
  str_data : s_data s = utf8 cps ++ [0];
  str_size : byte_size s = S (length (utf8 cps));
  str_count : char_count s = length cps;
  str_indexed : index_ok cps (char_index s);
}.

Lemma from_owned_cstr_valid cps : text cps -> exists s,
  from_owned_cstr (utf8 cps ++ [0]) (S (length (utf8 cps))) = Ok (Ok s) /\ str_ok s cps.
Proof.
  intros Ht. unfold from_owned_cstr. unfold read_ptr at 1. rewrite lookup_app_r, Nat.sub_diag by lia. cbn [lookup list_lookup negb].
  cbn [result_bind]. set (index := replicate _ None).
  assert (Hl : (length (utf8 cps) / 256 < length index)%nat).
  { unfold index. rewrite length_replicate, high_bits. pose proof (Nat.Div0.div_le_mono (length (utf8 cps)) (S (length (utf8 cps))) 256 ltac:(lia)). lia. }
  destruct (validate_whole (utf8 cps) index (utf8_bytes _ Ht) Hl) as [(cps' & idx & Ht' & E & -> & Hi)|[_ Hno]]; [|by destruct (Hno cps Ht)].
  apply utf8_inj in E as <-; [|done|done]. cbn [or_return_pure]. eexists. split; [done|]. by split.
Qed.

Lemma from_owned_cstr_invalid txt : Forall is_byte txt -> (forall cps, text cps -> txt <> utf8 cps) ->
  exists e, from_owned_cstr (txt ++ [0]) (S (length txt)) = Ok (Err (utf8_error e)).
Proof.
  intros Hb Hno. unfold from_owned_cstr. unfold read_ptr at 1. rewrite lookup_app_r, Nat.sub_diag by lia. cbn [lookup list_lookup negb].
  cbn [result_bind]. set (index := replicate _ None).
  assert (Hl : (length txt / 256 < length index)%nat).
  { unfold index. rewrite length_replicate, high_bits. pose proof (Nat.Div0.div_le_mono (length txt) (S (length txt)) 256 ltac:(lia)). lia. }
  destruct (validate_whole txt index Hb Hl) as [(cps' & idx & Ht' & E & _)|[[e ->] _]]; [by destruct (Hno cps' Ht')|].
  by exists e.
Qed.

(** Whether bytes are the encoding of some text is decidable: the validator decides it. *)
Lemma utf8_dec txt : Forall is_byte txt -> (exists cps, text cps /\ txt = utf8 cps) \/ (forall cps, text cps -> txt <> utf8 cps).
Proof.
  intros Hb. set (index := replicate (S (length txt / 256)) (None : option nat)).
  destruct (validate_whole txt index Hb ltac:(unfold index; rewrite length_replicate; lia))
    as [(cps & idx & Ht & E & _)|[_ Hno]]; [left; by exists cps|by right].
Qed.

(** *** Decoding and encoding one character *)

Lemma land_low b n m : 0 <= n -> m = 2 ^ n - 1 -> Z.land b m = b mod 2 ^ n.
Proof. intros Hn ->. by apply land_mask. Qed.

Lemma lor_add A a k b : 0 <= k -> A = a * 2 ^ k -> 0 <= b < 2 ^ k -> Z.lor A b = A + b.
Proof. intros Hk -> Hb. rewrite <- Z.shiftl_mul_pow2, Z.lor_comm, lor_shiftl by done. rewrite Z.shiftl_mul_pow2 by done. lia. Qed.

Lemma continuation_bits b : 128 <= b < 192 -> Z.land b 63 = b - 128.
Proof. intros Hb. rewrite (land_low b 6) by lia. divmod. Qed.

Lemma decode_utf8_at_spec data i cp s rest : sequence cp s -> drop i data = s ++ rest -> decode_utf8_at data i = Ok (cp, length s).
Proof.
  intros Hs Hd. assert (Hr : forall k x, s !! k = Some x -> read_ptr data (i + k) = Ok x).
  { intros k x Hx. unfold read_ptr. rewrite <- lookup_drop, Hd. by rewrite (lookup_app_l_Some _ _ _ _ Hx). }
  assert (Hr0 : forall x, s !! O = Some x -> read_ptr data i = Ok x) by (intros x Hx; rewrite <- (Nat.add_0_r i); by apply Hr).
  pose proof (sequence_bytes _ _ Hs) as Hb. unfold decode_utf8_at.
  destruct Hs as [a|a b|a b c|a b c d]; rewrite (Hr0 a eq_refl); cbn [result_bind]; apply Forall_cons in Hb as [Ha _];
    rewrite (lead_ascii a Ha), ?(lead_two a Ha), ?(lead_three a Ha); clear Ha.
  - by rewrite (proj2 (Z.ltb_lt _ _)) by lia.
  - rewrite (proj2 (Z.ltb_ge a 128)), (proj2 (Z.leb_le 192 a)), (proj2 (Z.ltb_lt a 224)) by lia. cbn [andb].
    rewrite (Hr 1%nat b eq_refl). cbn [result_bind length]. do 2 f_equal.
    rewrite (continuation_bits b), (land_low a 5), Z.shiftl_mul_pow2, u32_small by divmod.
    rewrite (lor_add _ (a mod 2 ^ 5) 6); [divmod|lia|done|divmod].
  - rewrite (proj2 (Z.ltb_ge a 128)), (proj2 (Z.leb_le 192 a)), (proj2 (Z.ltb_ge a 224)), (proj2 (Z.leb_le 224 a)), (proj2 (Z.ltb_lt a 240)) by lia.
    cbn [andb]. rewrite (Hr 1%nat b eq_refl), (Hr 2%nat c eq_refl). cbn [result_bind length]. do 2 f_equal.
    rewrite (continuation_bits b), (continuation_bits c), (land_low a 4), !Z.shiftl_mul_pow2 by lia.
    rewrite !u32_small by divmod. rewrite (lor_add (a mod 2 ^ 4 * 2 ^ 12) (a mod 2 ^ 4) 12); [|lia|done|divmod].
    rewrite (lor_add _ (a mod 2 ^ 4 * 64 + (b - 128)) 6); [divmod|lia|lia|divmod].
  - rewrite (proj2 (Z.ltb_ge a 128)), (proj2 (Z.leb_le 192 a)), (proj2 (Z.ltb_ge a 224)), (proj2 (Z.leb_le 224 a)), (proj2 (Z.ltb_ge a 240)) by lia.
    cbn [andb]. rewrite (Hr 1%nat b eq_refl), (Hr 2%nat c eq_refl), (Hr 3%nat d eq_refl). cbn [result_bind length]. do 2 f_equal.
    rewrite (continuation_bits b), (continuation_bits c), (continuation_bits d), (land_low a 3), !Z.shiftl_mul_pow2 by lia.
    rewrite !u32_small by divmod. rewrite (lor_add (a mod 2 ^ 3 * 2 ^ 18) (a mod 2 ^ 3) 18); [|lia|done|divmod].
    rewrite (lor_add (_ + _) (a mod 2 ^ 3 * 64 + (b - 128)) 12); [|lia|lia|divmod].
    rewrite (lor_add (_ + _ + _) (a mod 2 ^ 3 * 4096 + (b - 128) * 64 + (c - 128)) 6); [divmod|lia|lia|divmod].
Qed.

Lemma encode_utf8_spec cp : scalar_value cp = true -> encode_utf8 cp = utf8_char cp.
Proof.
  intros Hs%scalar_spec. unfold encode_utf8, utf8_char.
  assert (Hc : forall x, 0 <= x -> u8 (Z.lor 128 (Z.land x 63)) = 128 + x mod 64).
  { intros x Hx. rewrite (land_low x 6) by lia. rewrite (lor_add 128 1 7) by divmod. rewrite u8_small; change (2 ^ 6) with 64; divmod. }
  rewrite !Z.shiftr_div_pow2 by lia. change (2 ^ 6) with 64. change (2 ^ 12) with 4096. change (2 ^ 18) with 262144.
  destruct (Z.ltb_spec cp 128); [by rewrite u8_small by lia|]. destruct (Z.ltb_spec cp 2048).
  { rewrite Hc, (lor_add 192 3 6), u8_small by divmod. done. }
  destruct (Z.ltb_spec cp 65536).
  { rewrite !Hc, (lor_add 224 14 4), u8_small by divmod. done. }
  rewrite !Hc, (lor_add 240 30 3), u8_small by divmod. done.
Qed.

Lemma utf8_encoded_len_spec cp : utf8_encoded_len cp = length (encode_utf8 cp).
Proof. unfold utf8_encoded_len, encode_utf8. by repeat destruct (_ <? _). Qed.

(** C38: building a string from a buffer accepts exactly the zero-terminated encodings of sequences of Unicode
    scalar values.  A buffer without the terminator is refused; a terminated one either is the encoding of a
    text, and then the string has its code points counted and indexed, or is refused with a codec error, and
    then no text encodes to it.  No byte is read outside the buffer.  Encoding a scalar value gives its UTF-8
    form, of the announced length, and decoding gives it back, wherever it stands in a text. *)
Theorem from_owned_cstr_exact txt last : Forall is_byte txt ->
  (last <> 0 -> from_owned_cstr (txt ++ [last]) (S (length txt)) = Ok (Err (utf8_error "missing 0-terminator"))) /\
  ((exists cps s, txt = utf8 cps /\ from_owned_cstr (txt ++ [0]) (S (length txt)) = Ok (Ok s) /\ str_ok s cps) \/
   (exists e, from_owned_cstr (txt ++ [0]) (S (length txt)) = Ok (Err (utf8_error e)) /\ forall cps, text cps -> txt <> utf8 cps)) /\
  (forall a cp b, text (a ++ cp :: b) ->
     encode_utf8 cp = utf8_char cp /\ utf8_encoded_len cp = length (utf8_char cp) /\
     decode_utf8_at (utf8 (a ++ cp :: b) ++ [0]) (length (utf8 a)) = Ok (cp, length (utf8_char cp))).
Proof.
  intros Hb. split_and!.
  - intros Hl%Z.eqb_neq. unfold from_owned_cstr, read_ptr. rewrite lookup_app_r, Nat.sub_diag by lia.
    cbn [lookup list_lookup result_bind]. by rewrite Hl.
  - destruct (utf8_dec txt Hb) as [(cps & Ht & ->)|Hno].
    + left. destruct (from_owned_cstr_valid cps Ht) as (s & E & Hs). by exists cps, s.
    + right. destruct (from_owned_cstr_invalid txt Hb Hno) as [e E]. by exists e.
  - intros a cp b Ht. apply Forall_app in Ht as [_ Ht]. apply Forall_cons in Ht as [Hc _].
    rewrite utf8_encoded_len_spec, encode_utf8_spec by done. split_and!; [done..|].
    eapply decode_utf8_at_spec with (rest := utf8 b ++ [0]); [by apply char_sequence|].
    by rewrite utf8_app, utf8_cons, <- !app_assoc, drop_app_length.
Qed.

Lemma from_owned_cstr_exact_witness : exists e,
  from_owned_cstr [237; 160; 128; 0] 4 = Ok (Err (utf8_error e)) /\ forall cps, text cps -> [237; 160; 128] <> utf8 cps.
Proof.
  destruct (from_owned_cstr_exact [237; 160; 128] 1 ltac:(repeat constructor; by unfold is_byte)) as (_ & [(cps & s & _ & E & _)|H] & _);
    [discriminate E|exact H].
Defined.
