(* ===== verification/StrOps.v ===== *)
(** * Operations on strings ([lib/builtins/__init__.py], class [str])

    Slicing, searching, splitting, joining and replacing, byte by byte as the
    code does them: results are built in buffers of a size computed beforehand
    and validated again.  The specifications are on code points: searching the
    bytes of a text finds what searching its code points finds, because no
    encoded character starts inside another. *)

From S2P Require Import Prelude RawList Bits Buffers Utf8.

Local Open Scope Z_scope.
Local Open Scope monad_scope.

(** ** Memory *)

(** The [n] bytes at an offset, as [memcpy] and [memcmp] read them. *)
Definition bytes_at (data : list Z) (off n : nat) : result abort (list Z) :=
  if (off + n <=? length data)%nat then Ok (take n (drop off data)) else Err Fault.

(** [sys.memcpy( dest + off, src, len )] *)
Definition store_bytes (off : nat) (src : list Z) (dest : Buffer) : result abort Buffer :=
  if (off + length src <=? length dest)%nat then Ok (take off dest ++ map Some src ++ drop (off + length src) dest) else Err Fault.

(** The bytes of a buffer that is handed on; every cell must have been written. *)
Fixpoint filled (d : Buffer) : result abort (list Z) :=
  match d with
  | [] => Ok []
  | Some x :: d => let? l := filled d in Ok (x :: l)
  | None :: _ => Err Fault
  end.

(** [str._from_owned_cstr( buf, size ).unwrap( msg )] *)
Definition owned_str (msg : string) (buf : Buffer) (size : nat) : result abort Str :=
  let? ptr := filled buf in
  let? r := from_owned_cstr ptr size in
  unwrap msg r.

(** ** Construction *)

Definition str_add (self other : Str) : result abort Str :=
  let self_len := (byte_size self - 1)%nat in
  let new_byte_size := (self_len + byte_size other)%nat in
  let? a := bytes_at (s_data self) 0 self_len in
  let? buf := store_bytes 0 a (alloc_u8 new_byte_size) in
  let? b := bytes_at (s_data other) 0 (byte_size other) in
  let? buf := store_bytes self_len b buf in
  owned_str "invalid UTF-8 in str.__add__" buf new_byte_size.

Definition byte_slice (self : Str) (start stop : nat) : result abort Str :=
  let msg := "bounded by self_len, cannot overflow"%string in
  let? piece_len := panic_sub msg stop start in
  let buf_size := (piece_len + 1)%nat in
  let? piece := bytes_at (s_data self) start piece_len in
  let? buf := store_bytes 0 piece (alloc_u8 buf_size) in
  let? buf := write_u8 piece_len 0 buf in
  owned_str "invalid UTF-8 in _byte_slice" buf buf_size.

(** The sizing pass and the copying pass of [concat] and [join]; [sep] goes
    between consecutive parts. *)
Definition append_part (src : list Z) (n : nat) (s : Buffer * nat) : result abort (Buffer * nat) :=
  let '(buf, offset) := s in
  let? bytes := bytes_at src 0 n in
  let? buf := store_bytes offset bytes buf in
  Ok (buf, (offset + n)%nat).

Definition concat_parts (parts : list Str) : result abort Str :=
  let new_size := foldl (fun n part => (n + (byte_size part - 1))%nat) 1%nat parts in
  let? (buf, offset) := result_fold (fun s part => append_part (s_data part) (byte_size part - 1) s) (alloc_u8 new_size, O) parts in
  let? buf := write_u8 offset 0 buf in
  owned_str "invalid UTF-8 in concat" buf new_size.

Definition empty_str : Str := mkStr [0] 1 0 [None].

Definition join_part (self : Str) (s : bool * (Buffer * nat)) (part : Str) : result abort (bool * (Buffer * nat)) :=
  let '(first, s) := s in
  let? s := if first : bool then Ok s else append_part (s_data self) (byte_len self) s in
  let? s := append_part (s_data part) (byte_len part) s in
  Ok (false, s).

(** The copying pass of [join], into a buffer of [new_size] bytes. *)
Definition join_copy (self : Str) (parts : list Str) (new_size : nat) : result abort Str :=
  let? (_, (buf, offset)) := result_fold (join_part self) (true, (alloc_u8 new_size, O)) parts in
  let? buf := write_u8 offset 0 buf in
  owned_str "invalid UTF-8 in join" buf new_size.

(** A [usize] computed under [panic_arithmetic]. *)
Definition checked_usize `{Platform} (msg : string) (n : nat) : result abort nat :=
  if Z.of_nat n <=? usize_max then Ok n else Err (Panic msg).

Definition str_join `{Platform} (self : Str) (parts : list Str) : result abort Str :=
  if (length parts =? 0)%nat then Ok empty_str
  else
    let msg := "irrational string length"%string in
    let? new_size := result_fold (fun n part => checked_usize msg (n + byte_len part)) 1%nat parts in
    let? separators := checked_usize msg (byte_len self * (length parts - 1)) in
    let? new_size := checked_usize msg (new_size + separators) in
    join_copy self parts new_size.

(** [str_join] of strings that lie in memory beside one another, as the
    library's own callers pass them: their sizes add up within a [usize], so
    the checks are left out ([str_join_text]). *)
Definition join_text (self : Str) (parts : list Str) : result abort Str :=
  if (length parts =? 0)%nat then Ok empty_str
  else
    let new_size := foldl (fun n part => (n + byte_len part)%nat) 1%nat parts in
    join_copy self parts (new_size + byte_len self * (length parts - 1))%nat.

(** ** Searching *)

(** [sys.memcmp( data + off, sub, n ) == 0] *)
Definition bytes_equal (data : list Z) (off : nat) (sub : list Z) (n : nat) : result abort bool :=
  let? a := bytes_at data off n in
  let? b := bytes_at sub 0 n in
  Ok (bool_decide (a = b)).

Fixpoint find_from (fuel : nat) (data sub : list Z) (sub_len last_start i : nat) : result abort Z :=
  if (i <=? last_start)%nat then
    match fuel with
    | O => Err Fault
    | S fuel =>
        let? eq := bytes_equal data i sub sub_len in
        if eq : bool then Ok (Z.of_nat i) else find_from fuel data sub sub_len last_start (i + 1)
    end
  else Ok (-1).

Definition str_find (self sub : Str) (start : nat) : result abort Z :=
  let self_len := byte_len self in
  let sub_len := byte_len sub in
  if (self_len <? start)%nat then Ok (-1)
  else if (sub_len =? 0)%nat then Ok (Z.of_nat start)
  else if (self_len - start <? sub_len)%nat then Ok (-1)
  else find_from (S self_len) (s_data self) (s_data sub) sub_len (self_len - sub_len) start.

Fixpoint rfind_from (data sub : list Z) (sub_len i : nat) : result abort Z :=
  let? eq := bytes_equal data i sub sub_len in
  if eq : bool then Ok (Z.of_nat i) else match i with O => Ok (-1) | S i => rfind_from data sub sub_len i end.

Definition str_rfind (self sub : Str) : result abort Z :=
  let self_len := byte_len self in
  let sub_len := byte_len sub in
  if (sub_len =? 0)%nat then Ok (Z.of_nat self_len)
  else if (self_len <? sub_len)%nat then Ok (-1)
  else rfind_from (s_data self) (s_data sub) sub_len (self_len - sub_len).

Definition found_index (offset : Z) : result IndexError nat := if offset =? -1 then Err mkIndexError else Ok (Z.to_nat offset).

Definition str_index (self sub : Str) : result abort (result IndexError nat) :=
  let? offset := str_find self sub 0 in Ok (found_index offset).

Definition str_rindex (self sub : Str) : result abort (result IndexError nat) :=
  let? offset := str_rfind self sub in Ok (found_index offset).

Definition startswith (self prefix : Str) (start : nat) : result abort bool :=
  if (byte_len self <? start)%nat then Ok false
  else if (byte_len prefix =? 0)%nat then Ok true
  else if (byte_len self - start <? byte_len prefix)%nat then Ok false
  else bytes_equal (s_data self) start (s_data prefix) (byte_len prefix).

Definition endswith (self suffix : Str) : result abort bool :=
  if (byte_len suffix =? 0)%nat then Ok true
  else if (byte_len self <? byte_len suffix)%nat then Ok false
  else bytes_equal (s_data self) (byte_len self - byte_len suffix) (s_data suffix) (byte_len suffix).

Definition removeprefix (self prefix : Str) : result abort Str :=
  let? b := startswith self prefix 0 in
  if b : bool then byte_slice self (byte_len prefix) (byte_len self) else Ok self.

Definition removesuffix (self suffix : Str) : result abort Str :=
  let? b := endswith self suffix in
  if b : bool then byte_slice self 0 (byte_len self - byte_len suffix) else Ok self.

(** [sub in self] *)
Definition str_contains (self sub : Str) : result abort bool := let? r := str_find self sub 0 in Ok (negb (r =? -1)).

(** ** Splitting and replacing *)

(** [while True: found = self.find( sep, start ); ...]; every round moves [start]
    past a separator, so [fuel] is the length of the string. *)
Fixpoint split_from (fuel : nat) (self sep : Str) (start : nat) (acc : list Str) : result abort (list Str) :=
  match fuel with
  | O => Err Fault
  | S fuel =>
      let? found := str_find self sep start in
      if found =? -1 then let? last := byte_slice self start (byte_len self) in Ok (acc ++ [last])
      else
        let match_start := Z.to_nat found in
        let? piece := byte_slice self start match_start in
        split_from fuel self sep (match_start + byte_len sep) (acc ++ [piece])
  end.

Definition split_fuel (self : Str) : nat := S (S (byte_len self)).

Definition str_split (self sep : Str) : result abort (list Str) :=
  if (byte_len sep =? 0)%nat then Err (Panic "str.split(...): separator must not be empty")
  else split_from (split_fuel self) self sep 0 [].

Definition str_rsplit (self sep : Str) : result abort (list Str) := str_split self sep.

Definition str_partition (self sep : Str) : result abort (Str * Str * Str) :=
  let? found := str_find self sep 0 in
  if found =? -1 then Ok (self, empty_str, empty_str)
  else
    let idx := Z.to_nat found in
    let? before := byte_slice self 0 idx in
    let? after := byte_slice self (idx + byte_len sep) (byte_len self) in
    Ok (before, sep, after).

Definition str_rpartition (self sep : Str) : result abort (Str * Str * Str) :=
  let? found := str_rfind self sep in
  if found =? -1 then Ok (empty_str, empty_str, self)
  else
    let idx := Z.to_nat found in
    let? before := byte_slice self 0 idx in
    let? after := byte_slice self (idx + byte_len sep) (byte_len self) in
    Ok (before, sep, after).

(** The counting pass of [replace]. *)
Fixpoint count_from (fuel : nat) (self old : Str) (start occurrences : nat) : result abort nat :=
  match fuel with
  | O => Err Fault
  | S fuel =>
      let? found := str_find self old start in
      if found =? -1 then Ok occurrences
      else count_from fuel self old (Z.to_nat found + byte_len old) (occurrences + 1)
  end.

(** Its filling pass. *)
Fixpoint replace_from (fuel : nat) (self old new : Str) (start : nat) (s : Buffer * nat) : result abort (Buffer * nat) :=
  match fuel with
  | O => Err Fault
  | S fuel =>
      let? found := str_find self old start in
      if found =? -1 then
        let? tail := bytes_at (s_data self) start (byte_len self - start) in
        append_part tail (byte_len self - start) s
      else
        let match_start := Z.to_nat found in
        let? piece := bytes_at (s_data self) start (match_start - start) in
        let? s := append_part piece (match_start - start) s in
        let? s := append_part (s_data new) (byte_len new) s in
        replace_from fuel self old new (match_start + byte_len old) s
  end.

Definition str_replace `{Platform} (self old new : Str) : result abort Str :=
  if (byte_len old =? 0)%nat then Err (Panic "str.replace(...): old must not be empty")
  else
    let? occurrences := count_from (split_fuel self) self old 0 0 in
    if (occurrences =? 0)%nat then Ok self
    else
      let msg := "irrational string length"%string in
      let? removed := checked_usize msg (occurrences * byte_len old) in
      let? added := checked_usize msg (occurrences * byte_len new) in
      let kept := (byte_len self - removed)%nat in
      let? grown := checked_usize msg (kept + added) in
      let? new_size := checked_usize msg (1 + grown) in
      let? (buf, out) := replace_from (split_fuel self) self old new 0 (alloc_u8 new_size, O) in
      let? buf := write_u8 out 0 buf in
      owned_str "invalid UTF-8 in replace" buf new_size.

(** ** Buffers and slices *)

Lemma starts_store d l src : starts d l -> (length l + length src <= length d)%nat ->
  exists d', store_bytes (length l) src d = Ok d' /\ length d' = length d /\ starts d' (l ++ src).
Proof.
  intros [rest ->] Hl. unfold store_bytes. rewrite (proj2 (Nat.leb_le _ _) Hl). eexists. split; [done|].
  rewrite length_app, length_map in Hl. split.
  - rewrite !length_app, !length_map, length_take, length_drop, length_app, length_map. lia.
  - exists (drop (length src) rest). rewrite map_app, <- app_assoc. f_equal.
    + by rewrite take_app_le, take_ge by (rewrite length_map; lia).
    + f_equal. rewrite drop_app_ge by (rewrite length_map; lia). f_equal. rewrite length_map. lia.
Qed.

Lemma filled_ok d l : starts d l -> length d = length l -> filled d = Ok l.
Proof.
  intros [rest ->] Hl. rewrite length_app, length_map in Hl. destruct rest; [|simpl in Hl; lia]. rewrite app_nil_r.
  clear Hl. induction l as [|x l IH]; simpl; [done|]. by rewrite IH.
Qed.

Lemma bytes_at_ok a b c off n : off = length a -> n = length b -> bytes_at (a ++ b ++ c) off n = Ok b.
Proof.
  intros -> ->. unfold bytes_at. rewrite (proj2 (Nat.leb_le _ _)) by (rewrite !length_app; lia).
  by rewrite drop_app_length, take_app_length.
Qed.

Lemma owned_ok msg buf cps : starts buf (utf8 cps ++ [0]) -> length buf = S (length (utf8 cps)) -> text cps ->
  exists s, owned_str msg buf (S (length (utf8 cps))) = Ok s /\ str_ok s cps.
Proof.
  intros Hs Hl Ht. unfold owned_str. rewrite (filled_ok _ _ Hs) by (rewrite length_app; simpl; lia). cbn [result_bind].
  destruct (from_owned_cstr_valid cps Ht) as (s & -> & Hok). by exists s.
Qed.

(** The terminator goes behind what the buffer holds. *)
Lemma terminated_ok msg buf cps n : starts buf (utf8 cps) -> n = length (utf8 cps) -> length buf = S n -> text cps ->
  exists buf' s, write_u8 n 0 buf = Ok buf' /\ owned_str msg buf' (S n) = Ok s /\ str_ok s cps.
Proof.
  intros Hs -> Hl Ht. destruct (starts_push _ _ 0 Hs) as (buf' & -> & Hl' & Hs'); [lia|].
  destruct (owned_ok msg buf' cps Hs') as (s & E & Hok); [lia|done|]. by exists buf', s.
Qed.

Lemma byte_len_ok s cps : str_ok s cps -> byte_len s = length (utf8 cps).
Proof. intros Hs. unfold byte_len. rewrite (str_size _ _ Hs). lia. Qed.

Lemma alloc_length n : length (alloc_u8 n) = n.
Proof. apply length_replicate. Qed.

Lemma append_part_ok src n s d cps cps' rest : starts d (utf8 cps) -> s = (d, length (utf8 cps)) -> src = utf8 cps' ++ rest ->
  n = length (utf8 cps') -> (length (utf8 cps) + length (utf8 cps') <= length d)%nat ->
  exists d', append_part src n s = Ok (d', length (utf8 (cps ++ cps'))) /\ length d' = length d /\ starts d' (utf8 (cps ++ cps')).
Proof.
  intros Hs -> -> -> Hl. unfold append_part. rewrite (bytes_at_ok [] (utf8 cps') rest) by done. cbn [result_bind].
  destruct (starts_store d _ (utf8 cps') Hs Hl) as (d' & -> & Hl' & Hs'). exists d'. rewrite utf8_app, length_app. by split_and!.
Qed.

(** Slicing between two character boundaries. *)
Lemma byte_slice_ok s a b c i j : str_ok s (a ++ b ++ c) -> i = length (utf8 a) -> j = length (utf8 (a ++ b)) ->
  exists s', byte_slice s i j = Ok s' /\ str_ok s' b.
Proof.
  intros Hs -> ->. unfold byte_slice. rewrite utf8_app, length_app, panic_sub_ok by lia. cbn [result_bind].
  replace (length (utf8 a) + length (utf8 b) - length (utf8 a))%nat with (length (utf8 b)) by lia.
  rewrite (str_data _ _ Hs), !utf8_app, <- !app_assoc, bytes_at_ok by done. cbn [result_bind].
  destruct (starts_store (alloc_u8 (length (utf8 b) + 1)) [] (utf8 b)) as (d & E & Hd & Hsd);
    [apply starts_nil|rewrite alloc_length; simpl; lia|]. cbn [length app] in E, Hsd. rewrite E. cbn [result_bind].
  rewrite alloc_length in Hd. pose proof (str_text _ _ Hs) as Ht. apply Forall_app in Ht as [_ [Ht _]%Forall_app].
  destruct (terminated_ok "invalid UTF-8 in _byte_slice" d b _ Hsd eq_refl) as (d' & s' & -> & Es & Hok); [lia|done|]. cbn [result_bind].
  rewrite Nat.add_1_r. by exists s'.
Qed.

Lemma str_add_ok s t a b : str_ok s a -> str_ok t b -> exists r, str_add s t = Ok r /\ str_ok r (a ++ b).
Proof.
  intros Hs Ht. unfold str_add. rewrite (str_size _ _ Hs), (str_size _ _ Ht), (str_data _ _ Hs), (str_data _ _ Ht).
  replace (S (length (utf8 a)) - 1)%nat with (length (utf8 a)) by lia.
  rewrite (bytes_at_ok [] (utf8 a) [0]) by done. cbn [result_bind].
  destruct (starts_store (alloc_u8 (length (utf8 a) + S (length (utf8 b)))) [] (utf8 a)) as (d & E & Hd & Hsd);
    [apply starts_nil|rewrite alloc_length; simpl; lia|]. cbn [length app] in E, Hsd. rewrite E. cbn [result_bind]. rewrite alloc_length in Hd.
  replace (bytes_at (utf8 b ++ [0]) 0 (S (length (utf8 b)))) with (Ok (E := abort) (utf8 b ++ [0]))
    by (symmetry; apply (bytes_at_ok [] (utf8 b ++ [0]) []) || (rewrite <- (app_nil_r (utf8 b ++ [0])) at 1;
         apply (bytes_at_ok [] (utf8 b ++ [0]) []); [done|rewrite length_app; simpl; lia])).
  cbn [result_bind]. destruct (starts_store d (utf8 a) (utf8 b ++ [0]) Hsd) as (d' & -> & Hd' & Hsd'); [rewrite length_app; simpl; lia|].
  cbn [result_bind]. rewrite app_assoc, <- utf8_app in Hsd'.
  replace (length (utf8 a) + S (length (utf8 b)))%nat with (S (length (utf8 (a ++ b)))) in * by (rewrite utf8_app, length_app; lia).
  apply owned_ok; [done|lia|]. apply Forall_app. split; [apply Hs|apply Ht].
Qed.

(** *** Joining *)

Fixpoint intercalate (sep : list Z) (parts : list (list Z)) : list Z :=
  match parts with
  | [] => []
  | [p] => p
  | p :: parts => p ++ sep ++ intercalate sep parts
  end.

Lemma intercalate_cons sep p ps : ps <> [] -> intercalate sep (p :: ps) = p ++ sep ++ intercalate sep ps.
Proof. by destruct ps. Qed.

Lemma intercalate_snoc sep ps p : ps <> [] -> intercalate sep (ps ++ [p]) = intercalate sep ps ++ sep ++ p.
Proof.
  induction ps as [|q [|r ps] IH]; intros Hne; [done|done|].
  change ((q :: r :: ps) ++ [p]) with (q :: ((r :: ps) ++ [p])). rewrite !intercalate_cons by done.
  rewrite IH by done. by rewrite <- !app_assoc.
Qed.

Lemma intercalate_text sep ps : text sep -> Forall text ps -> text (intercalate sep ps).
Proof.
  intros Hs. induction 1 as [|p ps Hp Hps IH]; [constructor|]. destruct ps as [|q ps]; [done|].
  rewrite intercalate_cons by done. by repeat (apply Forall_app; split).
Qed.

Definition join_size (sep : list Z) (ps : list (list Z)) : nat :=
  (sum_list_with (fun p => length (utf8 p)) ps + length (utf8 sep) * (length ps - 1))%nat.

Lemma join_size_spec sep ps : ps <> [] -> length (utf8 (intercalate sep ps)) = join_size sep ps.
Proof.
  unfold join_size. induction ps as [|p [|q ps] IH]; intros Hne; [done|simpl; lia|].
  rewrite intercalate_cons, !utf8_app, !length_app, IH by done.
  change (sum_list_with ?f (p :: q :: ps)) with (f p + sum_list_with f (q :: ps))%nat.
  simpl length. replace (S (S (length ps)) - 1)%nat with (S (length ps)) by lia. replace (S (length ps) - 1)%nat with (length ps) by lia. lia.
Qed.

Lemma foldl_size (f : Str -> nat) parts ps : Forall2 (fun s p => f s = length (utf8 p)) parts ps -> forall n,
  foldl (fun n part => (n + f part)%nat) n parts = (n + sum_list_with (fun p => length (utf8 p)) ps)%nat.
Proof. induction 1 as [|s p parts ps Hs _ IH]; intros n; simpl; [lia|]. rewrite IH, Hs. lia. Qed.

Lemma str_ok_sizes (f : Str -> nat) parts ps : (forall s p, str_ok s p -> f s = length (utf8 p)) ->
  Forall2 str_ok parts ps -> Forall2 (fun s p => f s = length (utf8 p)) parts ps.
Proof. intros Hf Hp. by eapply Forall2_impl. Qed.

Lemma texts parts ps : Forall2 str_ok parts ps -> Forall text ps.
Proof. induction 1 as [|s p ? ? Hs _ IH]; constructor; [apply Hs|done]. Qed.

Lemma intercalate_prefix t l l' : (length (utf8 (intercalate t l)) <= length (utf8 (intercalate t (l ++ l'))))%nat.
Proof.
  induction l as [|a [|b l] IH]; [simpl; lia| |].
  - destruct l' as [|q l']; [done|]. change ([a] ++ q :: l') with (a :: q :: l').
    rewrite (intercalate_cons t a (q :: l')), utf8_app, length_app by done. simpl. lia.
  - change ((a :: b :: l) ++ l') with (a :: ((b :: l) ++ l')). rewrite (intercalate_cons t a (b :: l)), (intercalate_cons t a ((b :: l) ++ l')), !utf8_app, !length_app by done. lia.
Qed.

(** A loop over strings that appends each one's code points with [sep] between. *)
Lemma join_loop sep t parts ps d : str_ok sep t -> Forall2 str_ok parts ps -> parts <> [] ->
  (length (utf8 (intercalate t ps)) <= length d)%nat ->
  exists d', result_fold (join_part sep) (true, (d, O)) parts = Ok (false, (d', length (utf8 (intercalate t ps)))) /\
    length d' = length d /\ starts d' (utf8 (intercalate t ps)).
Proof.
  intros Hsep Hps Hne Hd.
  destruct (result_fold_ok (fun done s => exists d', s = (match done with [] => true | _ => false end, (d', length (utf8 (intercalate t (take (length done) ps))))) /\
      length d' = length d /\ starts d' (utf8 (intercalate t (take (length done) ps)))) (join_part sep) parts)
    with (a := (true, (d, O))) as (s & E & d' & -> & Hd' & Hs).
  - intros done part todo s Hparts (d1 & -> & Hd1 & Hs1).
    assert (Hlen : length parts = length ps) by (by eapply Forall2_length).
    assert (Hl : (length done < length ps)%nat) by (rewrite <- Hlen, Hparts, length_app; simpl; lia).
    destruct (lookup_lt_is_Some_2 ps _ Hl) as [p Hp].
    assert (Hpart : parts !! length done = Some part) by (rewrite Hparts; by apply list_lookup_middle).
    pose proof (Forall2_lookup_lr _ _ _ _ _ _ Hps Hpart Hp) as Hok.
    assert (Hpre : (length (utf8 (intercalate t (take (length done) ps ++ [p]))) <= length d)%nat).
    { etrans; [apply (intercalate_prefix t _ (drop (S (length done)) ps))|]. rewrite <- app_assoc. cbn [app].
      by rewrite (take_drop_middle ps _ p Hp). }
    rewrite length_app. cbn [length]. rewrite Nat.add_1_r, (take_S_r _ _ _ Hp). unfold join_part.
    assert (Hfin : forall d2 pre, length d2 = length d -> starts d2 (utf8 pre) ->
      utf8 (pre ++ p) = utf8 (intercalate t (take (length done) ps ++ [p])) ->
      exists s', (let? s := append_part (s_data part) (byte_len part) (d2, length (utf8 pre)) in Ok (false, s)) = Ok s' /\
        exists d', s' = (match done ++ [part] with [] => true | _ => false end,
          (d', length (utf8 (intercalate t (take (length done) ps ++ [p]))))) /\
        length d' = length d /\ starts d' (utf8 (intercalate t (take (length done) ps ++ [p])))).
    { intros d2 pre Hd2 Hs2 Heq. rewrite <- Heq in Hpre |- *.
      destruct (append_part_ok (s_data part) (byte_len part) (d2, length (utf8 pre)) d2 pre p [0] Hs2 eq_refl (str_data _ _ Hok) (byte_len_ok _ _ Hok))
        as (d3 & -> & Hd3 & Hs3); [rewrite utf8_app, length_app in Hpre; lia|]. cbn [result_bind].
      eexists. split; [done|]. exists d3. split_and!; [by destruct done|lia|done]. }
    destruct done as [|q done']; cbn [result_bind].
    + apply (Hfin d1 []); [done|done|done].
    + set (k := length (q :: done')) in *.
      assert (Hne' : take k ps <> []) by (destruct ps; done).
      destruct (append_part_ok (s_data sep) (byte_len sep) (d1, length (utf8 (intercalate t (take k ps)))) d1 (intercalate t (take k ps)) t [0]
        Hs1 eq_refl (str_data _ _ Hsep) (byte_len_ok _ _ Hsep)) as (d2 & -> & Hd2 & Hs2).
      { rewrite intercalate_snoc, !utf8_app, !length_app in Hpre by done. lia. }
      cbn [result_bind]. apply (Hfin d2); [lia|done|]. by rewrite intercalate_snoc, <- app_assoc by done.
  - exists d. split_and!; [done|done|apply starts_nil].
  - assert (Hlen : length parts = length ps) by (by eapply Forall2_length).
    rewrite Hlen, firstn_all in Hs, E. exists d'. split_and!; [|done|done]. rewrite E. by destruct parts.
Qed.

Lemma empty_str_ok : str_ok empty_str [].
Proof. split; try done; [constructor|]. intros g Hg. simpl in Hg. lia. Qed.

Lemma join_text_ok sep t parts ps : str_ok sep t -> Forall2 str_ok parts ps ->
  exists s, join_text sep parts = Ok s /\ str_ok s (intercalate t ps).
Proof.
  intros Hsep Hps. assert (Hlen : length parts = length ps) by (by eapply Forall2_length). unfold join_text, join_copy.
  destruct (Nat.eqb_spec (length parts) 0) as [H0|Hne].
  { destruct Hps; [|done]. exists empty_str. split; [done|apply empty_str_ok]. }
  assert (Hne' : ps <> []) by (intros ->; simpl in *; lia).
  rewrite (foldl_size byte_len parts ps (str_ok_sizes byte_len _ _ byte_len_ok Hps)), (byte_len_ok _ _ Hsep), Hlen.
  pose proof (join_size_spec t ps Hne') as Hsize. unfold join_size in Hsize.
  replace (1 + sum_list_with (fun p => length (utf8 p)) ps + length (utf8 t) * (length ps - 1))%nat
    with (S (length (utf8 (intercalate t ps)))) by lia.
  destruct (join_loop sep t parts ps (alloc_u8 (S (length (utf8 (intercalate t ps))))) Hsep Hps) as (d & -> & Hd & Hs);
    [by destruct parts|rewrite alloc_length; lia|]. rewrite alloc_length in Hd. cbn [result_bind].
  destruct (terminated_ok "invalid UTF-8 in join" d (intercalate t ps) _ Hs eq_refl) as (d' & s & -> & Es & Hok); [done| |cbn [result_bind]; by exists s].
  apply intercalate_text; [apply Hsep|by eapply texts].
Qed.

(** The checks of [join]: they fail together, when the size of the result is
    no [usize]. *)
Lemma checked_sizes `{Platform} msg (f : Str -> nat) parts ps : Forall2 (fun s p => f s = length (utf8 p)) parts ps ->
  forall n, Z.of_nat n <= usize_max ->
  result_fold (fun n part => checked_usize msg (n + f part)) n parts =
    checked_usize msg (n + sum_list_with (fun p => length (utf8 p)) ps).
Proof.
  induction 1 as [|s p parts ps Hs _ IH]; intros n Hn; simpl.
  { unfold checked_usize. rewrite Nat.add_0_r. by rewrite (proj2 (Z.leb_le _ _)) by done. }
  unfold checked_usize at 1. rewrite Hs. destruct (Z.leb_spec (Z.of_nat (n + length (utf8 p))) usize_max) as [Hle|Hlt]; simpl.
  - rewrite IH by done. f_equal. lia.
  - unfold checked_usize. destruct (Z.leb_spec (Z.of_nat (n + (length (utf8 p) + sum_list_with (fun p => length (utf8 p)) ps))) usize_max); [lia|done].
Qed.

Lemma str_join_text `{Platform} sep t parts ps : str_ok sep t -> Forall2 str_ok parts ps -> ps <> [] -> 1 <= usize_max ->
  str_join sep parts =
    if Z.of_nat (S (length (utf8 (intercalate t ps)))) <=? usize_max then join_text sep parts
    else Err (Panic "irrational string length").
Proof.
  intros Hsep Hps Hne H1. assert (Hlen : length parts = length ps) by (by eapply Forall2_length).
  unfold str_join, join_text. destruct (Nat.eqb_spec (length parts) 0) as [H0|_].
  { destruct Hps; done. }
  pose proof (str_ok_sizes byte_len _ _ byte_len_ok Hps) as Hsizes.
  rewrite (checked_sizes _ byte_len parts ps Hsizes) by done. rewrite (foldl_size byte_len parts ps Hsizes).
  rewrite (byte_len_ok _ _ Hsep), Hlen, join_size_spec by done. unfold join_size.
  set (sum := sum_list_with _ ps). set (seps := (length (utf8 t) * (length ps - 1))%nat). unfold checked_usize.
  destruct (Z.leb_spec (Z.of_nat (1 + sum)) usize_max); simpl result_bind;
    [|destruct (Z.leb_spec (Z.of_nat (S (sum + seps))) usize_max); [lia|done]].
  destruct (Z.leb_spec (Z.of_nat seps) usize_max); simpl result_bind;
    [|destruct (Z.leb_spec (Z.of_nat (S (sum + seps))) usize_max); [lia|done]].
  change (S (sum + seps)) with (1 + sum + seps)%nat.
  by destruct (Z.leb_spec (Z.of_nat (1 + sum + seps)) usize_max).
Qed.

Lemma concat_take_le (ps : list (list Z)) k : (length (utf8 (concat (take k ps))) <= length (utf8 (concat ps)))%nat.
Proof. rewrite <- (take_drop k ps) at 2. rewrite concat_app, utf8_app, length_app. lia. Qed.

Lemma concat_size (ps : list (list Z)) : sum_list_with (fun p => length (utf8 p)) ps = length (utf8 (concat ps)).
Proof. induction ps as [|p ps IH]; simpl; [done|]. by rewrite IH, utf8_app, length_app. Qed.

Lemma concat_parts_ok parts ps : Forall2 str_ok parts ps -> exists s, concat_parts parts = Ok s /\ str_ok s (concat ps).
Proof.
  intros Hps. unfold concat_parts. assert (Hlen : length parts = length ps) by (by eapply Forall2_length).
  assert (Hsz : forall s p, str_ok s p -> (byte_size s - 1)%nat = length (utf8 p)) by (intros s p Hs; rewrite (str_size _ _ Hs); lia).
  rewrite (foldl_size (fun s => byte_size s - 1)%nat parts ps (str_ok_sizes _ _ _ Hsz Hps)), concat_size.
  change (1 + length (utf8 (concat ps)))%nat with (S (length (utf8 (concat ps)))). set (N := length (utf8 (concat ps))).
  destruct (result_fold_ok (fun done s => exists d, s = (d, length (utf8 (concat (take (length done) ps)))) /\ length d = S N /\
      starts d (utf8 (concat (take (length done) ps)))) (fun s part => append_part (s_data part) (byte_size part - 1) s) parts)
    with (a := (alloc_u8 (S N), O)) as (s & E & d & -> & Hd & Hs).
  - intros done part todo s Hparts (d & -> & Hd & Hs).
    assert (Hl : (length done < length ps)%nat) by (rewrite <- Hlen, Hparts, length_app; simpl; lia).
    destruct (lookup_lt_is_Some_2 ps _ Hl) as [p Hp].
    assert (Hpart : parts !! length done = Some part) by (rewrite Hparts; by apply list_lookup_middle).
    pose proof (Forall2_lookup_lr _ _ _ _ _ _ Hps Hpart Hp) as Hok.
    assert (Et : concat (take (length (done ++ [part])) ps) = concat (take (length done) ps) ++ p).
    { rewrite length_app. cbn [length]. rewrite Nat.add_1_r, (take_S_r _ _ _ Hp), concat_app. simpl. by rewrite app_nil_r. }
    pose proof (concat_take_le ps (length (done ++ [part]))) as Hle. rewrite Et in Hle |- *. rewrite utf8_app, length_app in Hle.
    destruct (append_part_ok (s_data part) (byte_size part - 1) (d, length (utf8 (concat (take (length done) ps)))) d _ p [0] Hs eq_refl
      (str_data _ _ Hok) (Hsz _ _ Hok)) as (d' & -> & Hd' & Hs'); [lia|]. eexists. split; [done|]. exists d'. split_and!; [done|lia|done].
  - exists (alloc_u8 (S N)). split_and!; [done|apply alloc_length|apply starts_nil].
  - rewrite E. cbn [result_bind]. rewrite Hlen, firstn_all in Hs |- *.
    destruct (terminated_ok "invalid UTF-8 in concat" d (concat ps) _ Hs eq_refl Hd) as (d' & s & -> & Es & Hok);
      [|cbn [result_bind]; by exists s].
    apply Forall_concat. by eapply texts.
Qed.

(** *** Searching *)

(** [sub] occurs in [l] at [i]. *)
Definition occurs (sub l : list Z) (i : nat) : Prop := exists a b, l = a ++ sub ++ b /\ length a = i.

Lemma bytes_equal_spec data off sub n tl : n = length sub -> (off + n <= length data)%nat ->
  exists b, bytes_equal data off (sub ++ tl) n = Ok b /\ (b = true <-> occurs sub data off).
Proof.
  intros -> Hl. unfold bytes_equal, bytes_at. rewrite (proj2 (Nat.leb_le _ _)) by done. cbn [result_bind].
  rewrite (proj2 (Nat.leb_le _ _)) by (rewrite length_app; lia). cbn [result_bind]. rewrite drop_0, take_app_length.
  eexists. split; [done|]. rewrite bool_decide_eq_true. split.
  - intros E. exists (take off data), (drop (length sub) (drop off data)). rewrite length_take. split; [|lia].
    rewrite <- E at 1. by rewrite !take_drop.
  - intros (a & b & -> & <-). by rewrite drop_app_length, take_app_length.
Qed.

Lemma occurs_prefix sub l x i : (i + length sub <= length l)%nat -> occurs sub (l ++ x) i <-> occurs sub l i.
Proof.
  intros Hl. split.
  - intros (a & b & E & <-). assert (Hb : take (length (a ++ sub)) l = a ++ sub).
    { apply (f_equal (take (length (a ++ sub)))) in E. rewrite app_assoc, take_app_length in E.
      by rewrite take_app_le in E by (rewrite length_app; lia). }
    exists a, (drop (length (a ++ sub)) l). split; [|done]. rewrite app_assoc. rewrite <- Hb at 1. by rewrite take_drop.
  - intros (a & b & -> & <-). exists a, (b ++ x). by rewrite <- !app_assoc.
Qed.

Definition first_at (P : nat -> Prop) (start : nat) (r : Z) : Prop :=
  (r = -1 /\ forall i, (start <= i)%nat -> ~ P i) \/
  (exists i, r = Z.of_nat i /\ (start <= i)%nat /\ P i /\ forall j, (start <= j < i)%nat -> ~ P j).

Lemma occurs_length sub l i : occurs sub l i -> (i + length sub <= length l)%nat.
Proof. intros (a & b & -> & <-). rewrite !length_app. lia. Qed.

Lemma find_from_spec data sub txt tl x : data = txt ++ x -> (length sub <= length txt)%nat -> forall fuel i,
  (length txt - length sub + 1 <= fuel + i)%nat ->
  exists r, find_from fuel data (sub ++ tl) (length sub) (length txt - length sub) i = Ok r /\ first_at (occurs sub txt) i r.
Proof.
  intros -> Hl. induction fuel as [|fuel IH]; intros i Hf; cbn [find_from].
  - rewrite (proj2 (Nat.leb_gt _ _)) by lia. exists (-1). split; [done|]. left. split; [done|]. intros j Hj Ho%occurs_length. lia.
  - destruct (Nat.leb_spec i (length txt - length sub)) as [Hi|Hi].
    2: { exists (-1). split; [done|]. left. split; [done|]. intros j Hj Ho%occurs_length. lia. }
    destruct (bytes_equal_spec (txt ++ x) i sub (length sub) tl) as (b & -> & Hb); [done|rewrite length_app; lia|]. cbn [result_bind].
    rewrite occurs_prefix in Hb by lia. destruct b.
    + exists (Z.of_nat i). split; [done|]. right. exists i. split_and!; [done|lia|by apply Hb|lia].
    + destruct (IH (i + 1)%nat ltac:(lia)) as (r & -> & Hr). exists r. split; [done|].
      assert (Hno : ~ occurs sub txt i) by (intros Ho; apply Hb in Ho; done).
      destruct Hr as [[-> Hr]|(k & -> & Hk & Hok & Hmin)].
      * left. split; [done|]. intros j Hj. destruct (decide (j = i)) as [->|]; [done|]. apply Hr. lia.
      * right. exists k. split_and!; [done|lia|done|]. intros j Hj. destruct (decide (j = i)) as [->|]; [done|]. apply Hmin. lia.
Qed.

(** What [find] answers, on bytes. *)
Lemma str_find_bytes s sub a b start : str_ok s a -> str_ok sub b ->
  exists r, str_find s sub start = Ok r /\
    ((length (utf8 a) < start)%nat /\ r = -1 \/ (start <= length (utf8 a))%nat /\ first_at (occurs (utf8 b) (utf8 a)) start r).
Proof.
  intros Hs Hsub. unfold str_find. rewrite (byte_len_ok _ _ Hs), (byte_len_ok _ _ Hsub), (str_data _ _ Hs), (str_data _ _ Hsub).
  destruct (Nat.ltb_spec (length (utf8 a)) start) as [Hlt|Hge]; [exists (-1); split; [done|by left]|].
  destruct (Nat.eqb_spec (length (utf8 b)) 0) as [H0|Hne].
  { exists (Z.of_nat start). split; [done|]. right. split; [done|]. right. exists start. split_and!; [done|lia| |lia].
    apply nil_length_inv in H0 as ->. exists (take start (utf8 a)), (drop start (utf8 a)). rewrite app_nil_l, take_drop, length_take. split; [done|lia]. }
  destruct (Nat.ltb_spec (length (utf8 a) - start) (length (utf8 b))) as [Hlt|Hge'].
  { exists (-1). split; [done|]. right. split; [done|]. left. split; [done|]. intros i Hi Ho%occurs_length. lia. }
  destruct (find_from_spec (utf8 a ++ [0]) (utf8 b) (utf8 a) [0] [0] eq_refl ltac:(lia) (S (length (utf8 a))) start ltac:(lia)) as (r & -> & Hr).
  exists r. split; [done|]. by right.
Qed.

(** *** No character starts inside another *)

Definition continuation (x : Z) : Prop := 128 <= x < 192.

Lemma sequence_lead cp s : sequence cp s -> exists x s', s = x :: s' /\ ~ continuation x /\ Forall continuation s'.
Proof. unfold continuation. intros []; eexists _, _; (split_and!; [done|lia|repeat constructor; lia]). Qed.

Lemma boundary cps a c : text cps -> utf8 cps = a ++ c -> (forall x, head c = Some x -> ~ continuation x) ->
  exists p q, cps = p ++ q /\ a = utf8 p /\ c = utf8 q.
Proof.
  intros Ht. revert a c. induction Ht as [|cp cps Hc Ht IH]; intros a c E Hx.
  - symmetry in E. apply app_eq_nil in E as [-> ->]. by exists [], [].
  - rewrite utf8_cons in E. destruct (sequence_lead _ _ (char_sequence _ Hc)) as (x & s' & Es & _ & Hs'). rewrite Es in E.
    destruct a as [|y a]; [exists [], (cp :: cps); split_and!; [done|done|by rewrite utf8_cons, Es]|].
    injection E as -> E. destruct (decide (length s' <= length a)%nat) as [Hl|Hl].
    + assert (Ea : a = s' ++ drop (length s') a).
      { rewrite <- (take_drop (length s') a) at 1. f_equal. apply (f_equal (take (length s'))) in E.
        rewrite take_app_length in E. by rewrite take_app_le in E by done. }
      rewrite Ea, <- app_assoc in E. apply app_inv_head in E. destruct (IH _ _ E Hx) as (p & q & -> & Ep & Eq).
      exists (cp :: p), q. split_and!; [done| |done]. by rewrite utf8_cons, Es, <- Ep, Ea at 1.
    + exfalso. destruct c as [|z c].
      { rewrite app_nil_r in E. apply (f_equal length) in E. rewrite length_app in E. lia. }
      apply (Hx z eq_refl). assert (Hz : s' !! length a = Some z).
      { rewrite <- (lookup_app_l s' (utf8 cps)) by lia. rewrite E. by apply list_lookup_middle. }
      by eapply (Forall_lookup_1 _ _ _ _ Hs').
Qed.

Lemma utf8_prefix q sub c : text q -> text sub -> utf8 q = utf8 sub ++ c -> exists r, q = sub ++ r /\ c = utf8 r.
Proof.
  intros Hq Hs. revert q Hq. induction Hs as [|cp sub Hc Hs IH]; intros q Hq E; [by exists q|].
  destruct Hq as [|cp' q Hc' Hq].
  { apply (f_equal length) in E. rewrite utf8_cons, !length_app in E. simpl in E. pose proof (sequence_length _ _ (char_sequence _ Hc)). lia. }
  rewrite !utf8_cons, <- app_assoc in E.
  destruct (sequence_unique _ _ _ _ _ _ (char_sequence _ Hc') (char_sequence _ Hc) E) as (-> & _ & E').
  destruct (IH q Hq E') as (r & -> & ->). by exists r.
Qed.

(** Occurrences in the bytes are occurrences in the code points. *)
Lemma occurs_text cps sub i : text cps -> text sub -> sub <> [] ->
  occurs (utf8 sub) (utf8 cps) i <-> exists a b, cps = a ++ sub ++ b /\ i = length (utf8 a).
Proof.
  intros Ht Hs Hne. split.
  - intros (a & b & E & <-). destruct Hs as [|cp sub Hc Hs]; [done|].
    destruct (boundary cps a (utf8 (cp :: sub) ++ b) Ht E) as (p & q & -> & -> & Eq).
    { rewrite utf8_cons. destruct (sequence_lead _ _ (char_sequence _ Hc)) as (x & s' & -> & Hx & _). by intros ? [= <-]. }
    apply Forall_app in Ht as [_ Hq]. destruct (utf8_prefix q (cp :: sub) b Hq) as (r & -> & _); [by constructor|done|]. by exists p, r.
  - intros (a & b & -> & ->). exists (utf8 a), (utf8 b). by rewrite !utf8_app.
Qed.

Lemma occurs_shift sub x y j : occurs sub y j -> occurs sub (x ++ y) (length x + j).
Proof. intros (a & b & -> & <-). exists (x ++ a), b. rewrite <- app_assoc, length_app. done. Qed.

Lemma occurs_unshift sub x y i : occurs sub (x ++ y) i -> (length x <= i)%nat -> occurs sub y (i - length x).
Proof.
  intros (a & b & E & <-) Hl. exists (drop (length x) a), b. rewrite length_drop. split; [|done].
  apply (f_equal (drop (length x))) in E. by rewrite drop_app_length, drop_app_le in E by done.
Qed.

Lemma utf8_length_app a b : length (utf8 (a ++ b)) = (length (utf8 a) + length (utf8 b))%nat.
Proof. by rewrite utf8_app, length_app. Qed.

(** What [find] answers, on code points, from a character boundary on. *)
Lemma str_find_text s sub p rest b : str_ok s (p ++ rest) -> str_ok sub b -> b <> [] ->
  exists r, str_find s sub (length (utf8 p)) = Ok r /\
    ((r = -1 /\ forall k, ~ occurs b rest k) \/
     exists u v, rest = u ++ b ++ v /\ r = Z.of_nat (length (utf8 (p ++ u))) /\ forall k, (k < length u)%nat -> ~ occurs b rest k).
Proof.
  intros Hs Hsub Hne. pose proof (str_text _ _ Hs) as Ht. pose proof Ht as Ht2. apply Forall_app in Ht2 as [Htp Htr].
  pose proof (str_text _ _ Hsub) as Hb.
  destruct (str_find_bytes s sub _ b (length (utf8 p)) Hs Hsub) as (r & -> & [[Hlt _]|[_ Hr]]).
  { rewrite utf8_length_app in Hlt. lia. }
  exists r. split; [done|]. rewrite utf8_app in Hr. destruct Hr as [[-> Hno]|(i & -> & Hi & Ho & Hmin)].
  - left. split; [done|]. intros k (u & v & -> & _). apply (Hno (length (utf8 p) + length (utf8 u))%nat); [lia|].
    apply occurs_shift, occurs_text; [done|done|done|]. by exists u, v.
  - right. apply occurs_unshift in Ho; [|done]. apply occurs_text in Ho as (u & v & -> & Eu); [|done|done|done].
    exists u, v. split_and!; [done|rewrite utf8_length_app; lia|]. intros k Hk (u' & v' & E & <-).
    assert (Hlu : (length (utf8 u') < length (utf8 u))%nat).
    { assert (Hpre : u = u' ++ drop (length u') u).
      { rewrite <- (take_drop (length u') u) at 1. f_equal. apply (f_equal (take (length u'))) in E.
        rewrite take_app_length in E. by rewrite take_app_le in E by lia. }
      rewrite Hpre, utf8_length_app. assert (Htd : text (drop (length u') u)) by (apply Forall_app in Htr as [Htu _]; by apply Forall_drop).
      pose proof (utf8_length _ Htd). rewrite length_drop in *. lia. }
    apply (Hmin (length (utf8 p) + length (utf8 u'))%nat); [lia|]. apply occurs_shift, occurs_text; [done|done|done|]. by exists u', v'.
Qed.

(** *** Splitting *)

(** The pieces of a text between the occurrences of [sep], each the leftmost
    behind the one before. *)
Inductive splits (sep : list Z) : list Z -> list (list Z) -> Prop :=
| splits_end l : (forall k, ~ occurs sep l k) -> splits sep l [l]
| splits_at a l ps : (forall k, (k < length a)%nat -> ~ occurs sep (a ++ sep ++ l) k) -> splits sep l ps ->
    splits sep (a ++ sep ++ l) (a :: ps).

Lemma splits_nonempty sep l ps : splits sep l ps -> ps <> [].
Proof. by intros []. Qed.

Lemma splits_intercalate sep l ps : splits sep l ps -> intercalate sep ps = l.
Proof. induction 1 as [|a l ps _ Hs IH]; [done|]. rewrite intercalate_cons, IH by (by eapply splits_nonempty). done. Qed.

Lemma splits_length sep l ps : splits sep l ps ->
  (length (utf8 l) = sum_list_with (fun p => length (utf8 p)) ps + (length ps - 1) * length (utf8 sep))%nat.
Proof.
  intros Hs. rewrite <- (splits_intercalate _ _ _ Hs), join_size_spec by (by eapply splits_nonempty). unfold join_size. lia.
Qed.

Lemma splits_text sep l ps : splits sep l ps -> text l -> Forall text ps.
Proof.
  induction 1 as [|a l ps _ _ IH]; intros Ht; [by constructor|]. apply Forall_app in Ht as [Ha [_ Hl]%Forall_app].
  constructor; [done|by apply IH].
Qed.

Lemma split_from_ok s sep b : str_ok sep b -> b <> [] -> forall fuel p rest acc, str_ok s (p ++ rest) ->
  (length (utf8 rest) < fuel)%nat ->
  exists ps parts, split_from fuel s sep (length (utf8 p)) acc = Ok (acc ++ parts) /\ splits b rest ps /\ Forall2 str_ok parts ps.
Proof.
  intros Hsep Hne. induction fuel as [|fuel IH]; intros p rest acc Hs Hf; [lia|]. cbn [split_from].
  destruct (str_find_text s sep p rest b Hs Hsep Hne) as (r & -> & [[-> Hno]|(u & v & -> & -> & Hmin)]); cbn [result_bind].
  - destruct (byte_slice_ok s p rest [] (length (utf8 p)) (byte_len s)) as (last & E & Hlast); [by rewrite app_nil_r|done|by apply byte_len_ok|].
    change (-1 =? -1) with true. cbv iota. rewrite E. exists [rest], [last]. split_and!; [done|by constructor|by constructor].
  - rewrite (proj2 (Z.eqb_neq _ _)) by lia. rewrite Nat2Z.id.
    destruct (byte_slice_ok s p u (b ++ v) (length (utf8 p)) (length (utf8 (p ++ u))) Hs) as (piece & -> & Hpiece); [done..|].
    cbn [result_bind]. rewrite (byte_len_ok _ _ Hsep), <- utf8_length_app, <- app_assoc.
    destruct (IH (p ++ u ++ b) v (acc ++ [piece])) as (ps & parts & -> & Hps & Hparts).
    + by rewrite <- !app_assoc.
    + rewrite !utf8_length_app in Hf. pose proof (utf8_length b (str_text _ _ Hsep)). destruct b; [done|simpl in *; lia].
    + exists (u :: ps), (piece :: parts). rewrite <- app_assoc. split_and!; [done|by constructor|by constructor].
Qed.

Lemma str_split_ok s sep a b : str_ok s a -> str_ok sep b -> b <> [] ->
  exists ps parts, str_split s sep = Ok parts /\ splits b a ps /\ Forall2 str_ok parts ps.
Proof.
  intros Hs Hsep Hne. unfold str_split, split_fuel. rewrite (byte_len_ok _ _ Hsep), (byte_len_ok _ _ Hs).
  pose proof (utf8_length b (str_text _ _ Hsep)). rewrite (proj2 (Nat.eqb_neq _ 0)) by (destruct b; [done|simpl in *; lia]).
  apply (split_from_ok s sep b Hsep Hne (S (S (length (utf8 a)))) [] a [] Hs). lia.
Qed.

Lemma str_partition_ok s sep a b : str_ok s a -> str_ok sep b -> b <> [] ->
  (exists x y u v, str_partition s sep = Ok (x, sep, y) /\ a = u ++ b ++ v /\ str_ok x u /\ str_ok y v /\
     forall k, (k < length u)%nat -> ~ occurs b a k) \/
  (str_partition s sep = Ok (s, empty_str, empty_str) /\ forall k, ~ occurs b a k).
Proof.
  intros Hs Hsep Hne. unfold str_partition.
  destruct (str_find_text s sep [] a b Hs Hsep Hne) as (r & E & [[-> Hno]|(u & v & -> & -> & Hmin)]); cbn [utf8 map concat length] in E; rewrite E; cbn [result_bind].
  - right. by split.
  - left. rewrite (proj2 (Z.eqb_neq _ _)) by lia. rewrite Nat2Z.id, (byte_len_ok _ _ Hsep), app_nil_l.
    destruct (byte_slice_ok s [] u (b ++ v) 0 (length (utf8 u)) Hs) as (x & -> & Hx); [done..|]. cbn [result_bind].
    rewrite <- utf8_length_app.
    destruct (byte_slice_ok s (u ++ b) v [] (length (utf8 (u ++ b))) (byte_len s)) as (y & -> & Hy);
      [by rewrite app_nil_r, <- app_assoc|done|rewrite (byte_len_ok _ _ Hs); by rewrite <- app_assoc|].
    cbn [result_bind]. exists x, y, u, v. by split_and!.
Qed.

(** *** Replacing *)

Lemma count_from_ok s old b : str_ok old b -> b <> [] -> forall fuel p rest n, str_ok s (p ++ rest) -> (length (utf8 rest) < fuel)%nat ->
  exists ps, count_from fuel s old (length (utf8 p)) n = Ok (n + (length ps - 1))%nat /\ splits b rest ps.
Proof.
  intros Hold Hne. induction fuel as [|fuel IH]; intros p rest n Hs Hf; [lia|]. cbn [count_from].
  destruct (str_find_text s old p rest b Hs Hold Hne) as (r & -> & [[-> Hno]|(u & v & -> & -> & Hmin)]); cbn [result_bind].
  - exists [rest]. split; [f_equal; simpl; lia|by constructor].
  - rewrite (proj2 (Z.eqb_neq _ _)) by lia. rewrite Nat2Z.id, (byte_len_ok _ _ Hold), <- utf8_length_app, <- app_assoc.
    destruct (IH (p ++ u ++ b) v (n + 1)%nat) as (ps & -> & Hps).
    + by rewrite <- !app_assoc.
    + rewrite !utf8_length_app in Hf. pose proof (utf8_length b (str_text _ _ Hold)). destruct b; [done|simpl in *; lia].
    + exists (u :: ps). split; [|by constructor]. pose proof (splits_nonempty _ _ _ Hps). destruct ps; [done|]. f_equal. simpl. lia.
Qed.

Lemma splits_unique sep l ps ps' : sep <> [] -> splits sep l ps -> splits sep l ps' -> ps = ps'.
Proof.
  intros Hne Hs. revert ps'. induction Hs as [l Hno|a l ps Hmin Hs IH]; intros ps' Hs'.
  - inversion Hs' as [? _|a l' ps2 _ _ E]; subst; [done|]. destruct (Hno (length a)). by exists a, l'.
  - inversion Hs' as [? Hno|a' l' ps2 Hmin' Hs2 E]; subst.
    + destruct (Hno (length a)). by exists a, l.
    + assert (length a = length a') as Hl.
      { destruct (Nat.lt_trichotomy (length a) (length a')) as [Hlt|[|Hlt]]; [|done|].
        - destruct (Hmin' (length a) Hlt). rewrite E. by exists a, l.
        - destruct (Hmin (length a') Hlt). rewrite <- E. by exists a', l'. }
      apply app_inj_1 in E as [-> E]; [|done]. apply app_inv_head in E as ->. f_equal. by apply IH.
Qed.

Lemma replace_from_ok s old new b c : str_ok old b -> str_ok new c -> b <> [] -> forall fuel p rest ps w d,
  str_ok s (p ++ rest) -> (length (utf8 rest) < fuel)%nat -> splits b rest ps -> starts d (utf8 w) ->
  (length (utf8 (w ++ intercalate c ps)) <= length d)%nat ->
  exists d', replace_from fuel s old new (length (utf8 p)) (d, length (utf8 w)) = Ok (d', length (utf8 (w ++ intercalate c ps))) /\
    length d' = length d /\ starts d' (utf8 (w ++ intercalate c ps)).
Proof.
  intros Hold Hnew Hne. induction fuel as [|fuel IH]; intros p rest ps w d Hs Hf Hsp Hd Hl; [lia|]. cbn [replace_from].
  destruct (str_find_text s old p rest b Hs Hold Hne) as (r & -> & Hr); cbn [result_bind].
  pose proof (str_data _ _ Hs) as Hdata. destruct Hr as [[-> Hno]|(u & v & -> & -> & Hmin)].
  - assert (ps = [rest]) as -> by (eapply splits_unique; [exact Hne|exact Hsp|by constructor]).
    change (-1 =? -1) with true. cbv iota. rewrite (byte_len_ok _ _ Hs), utf8_length_app, Hdata, utf8_app, <- app_assoc.
    replace (length (utf8 p) + length (utf8 rest) - length (utf8 p))%nat with (length (utf8 rest)) by lia.
    rewrite bytes_at_ok by done. cbn [result_bind intercalate] in *. rewrite utf8_length_app in Hl.
    apply (append_part_ok _ _ _ d w rest []); [done|done|by rewrite app_nil_r|done|lia].
  - rewrite (proj2 (Z.eqb_neq _ _)) by lia. rewrite Nat2Z.id.
    inversion Hsp as [? Hno|a l ps' Hmin' Hsp' E]; subst; [destruct (Hno (length u)); by exists u, v|].
    assert (a = u /\ l = v) as [-> ->].
    { assert (length a = length u) as Ha.
      { destruct (Nat.lt_trichotomy (length a) (length u)) as [Hlt|[|Hlt]]; [|done|].
        - destruct (Hmin (length a) Hlt). rewrite <- E. by exists a, l.
        - destruct (Hmin' (length u) Hlt). rewrite E. by exists u, v. }
      apply app_inj_1 in E as [-> E]; [|done]. by apply app_inv_head in E as ->. }
    rewrite (utf8_length_app p u), Hdata, !utf8_app, <- !app_assoc.
    replace (length (utf8 p) + length (utf8 u) - length (utf8 p))%nat with (length (utf8 u)) by lia.
    rewrite bytes_at_ok by done. cbn [result_bind].
    rewrite intercalate_cons in * by (by eapply splits_nonempty). rewrite !utf8_length_app in Hl.
    destruct (append_part_ok (utf8 u) (length (utf8 u)) (d, length (utf8 w)) d w u [] Hd eq_refl) as (d1 & -> & Hd1 & Hs1);
      [by rewrite app_nil_r|done|lia|]. cbn [result_bind].
    destruct (append_part_ok (s_data new) (byte_len new) (d1, length (utf8 (w ++ u))) d1 (w ++ u) c [0] Hs1 eq_refl (str_data _ _ Hnew)
      (byte_len_ok _ _ Hnew)) as (d2 & -> & Hd2 & Hs2); [rewrite utf8_length_app; lia|]. cbn [result_bind].
    rewrite (byte_len_ok _ _ Hold), <- !utf8_length_app. rewrite <- (app_assoc p u b), <- (app_assoc w u c) in *.
    destruct (IH (p ++ u ++ b) v ps' (w ++ u ++ c) d2) as (d3 & -> & Hd3 & Hs3); [by rewrite <- !app_assoc| |done|done| |].
    + rewrite !utf8_length_app in Hf. pose proof (utf8_length b (str_text _ _ Hold)). destruct b; [done|simpl in *; lia].
    + rewrite !utf8_length_app. lia.
    + exists d3. rewrite <- utf8_app. rewrite <- !app_assoc in *. split_and!; [done|lia|done].
Qed.

Lemma str_replace_ok `{Platform} s old new a b c : str_ok s a -> str_ok old b -> str_ok new c -> b <> [] ->
  Z.of_nat (S (length (utf8 a))) <= usize_max ->
  exists ps, splits b a ps /\
    if Z.of_nat (S (length (utf8 (intercalate c ps)))) <=? usize_max
    then exists r, str_replace s old new = Ok r /\ str_ok r (intercalate c ps)
    else str_replace s old new = Err (Panic "irrational string length").
Proof.
  intros Hs Hold Hnew Hne Hmax. unfold str_replace, split_fuel. rewrite (byte_len_ok _ _ Hold), (byte_len_ok _ _ Hs), (byte_len_ok _ _ Hnew).
  pose proof (utf8_length b (str_text _ _ Hold)) as Hb. rewrite (proj2 (Nat.eqb_neq _ 0)) by (destruct b; [done|simpl in *; lia]).
  destruct (count_from_ok s old b Hold Hne (S (S (length (utf8 a)))) [] a 0 Hs ltac:(lia)) as (ps & E & Hps).
  cbn [utf8 map concat length] in E. rewrite E. cbn [result_bind]. rewrite Nat.add_0_l. pose proof (splits_nonempty _ _ _ Hps) as Hnp.
  exists ps. split; [done|].
  destruct (Nat.eqb_spec (length ps - 1) 0) as [Hz|Hz].
  { pose proof (splits_intercalate _ _ _ Hps) as Ea. destruct ps as [|p [|]]; [done| |simpl in Hz; lia]. simpl in Ea. subst p.
    cbn [intercalate]. rewrite (proj2 (Z.leb_le _ _)) by done. by exists s. }
  pose proof (splits_length _ _ _ Hps) as Hlen. pose proof (join_size_spec c ps Hnp) as Hsize. unfold join_size in Hsize.
  set (old_size := ((length ps - 1) * length (utf8 b))%nat) in *. set (new_size := ((length ps - 1) * length (utf8 c))%nat) in *.
  assert (Hall : (1 + (length (utf8 a) - old_size + new_size))%nat = S (length (utf8 (intercalate c ps)))) by lia.
  rewrite <- Hall. unfold checked_usize. rewrite (proj2 (Z.leb_le (Z.of_nat old_size) _)) by lia. cbn [result_bind].
  destruct (Z.leb_spec (Z.of_nat (1 + (length (utf8 a) - old_size + new_size))) usize_max) as [Hle|Hlt].
  2: { destruct (Z.leb_spec (Z.of_nat new_size) usize_max); cbn [result_bind]; [|done].
       destruct (Z.leb_spec (Z.of_nat (length (utf8 a) - old_size + new_size)) usize_max); cbn [result_bind]; [|done].
       by rewrite (proj2 (Z.leb_gt _ _)) by done. }
  rewrite (proj2 (Z.leb_le (Z.of_nat new_size) _)) by lia. cbn [result_bind].
  rewrite (proj2 (Z.leb_le (Z.of_nat (length (utf8 a) - old_size + new_size)) _)) by lia. cbn [result_bind].
  rewrite (proj2 (Z.leb_le _ _)) by done. cbn [result_bind]. rewrite Hall.
  destruct (replace_from_ok s old new b c Hold Hnew Hne (S (S (length (utf8 a)))) [] a ps [] (alloc_u8 (S (length (utf8 (intercalate c ps))))))
    as (d & E2 & Hd & Hsd); [done|lia|done|apply starts_nil|rewrite alloc_length; simpl; lia|].
  rewrite app_nil_l in E2, Hsd. change (length (utf8 [])) with O in E2. rewrite E2. cbn [result_bind]. rewrite alloc_length in Hd.
  destruct (terminated_ok "invalid UTF-8 in replace" d (intercalate c ps) _ Hsd eq_refl Hd) as (d' & r & -> & Er & Hok).
  { apply intercalate_text; [apply Hnew|]. eapply splits_text; [exact Hps|apply Hs]. }
  cbn [result_bind]. by exists r.
Qed.

(** *** Searching from the end, and at the ends *)

Lemma rfind_from_spec txt x sub tl : (length sub <= length txt)%nat -> forall i, (i + length sub <= length txt)%nat ->
  exists r, rfind_from (txt ++ x) (sub ++ tl) (length sub) i = Ok r /\
    ((r = -1 /\ forall j, (j <= i)%nat -> ~ occurs sub txt j) \/
     exists k, r = Z.of_nat k /\ (k <= i)%nat /\ occurs sub txt k /\ forall j, (k < j <= i)%nat -> ~ occurs sub txt j).
Proof.
  intros Hl. induction i as [|i IH]; intros Hi; cbn [rfind_from].
  - destruct (bytes_equal_spec (txt ++ x) 0 sub (length sub) tl) as (b & -> & Hb); [done|rewrite length_app; lia|]. cbn [result_bind].
    rewrite occurs_prefix in Hb by lia. destruct b.
    + exists 0. split; [done|]. right. exists O. split_and!; [done|lia|by apply Hb|lia].
    + exists (-1). split; [done|]. left. split; [done|]. intros j Hj Ho. assert (j = O) as -> by lia. by apply Hb in Ho.
  - destruct (bytes_equal_spec (txt ++ x) (S i) sub (length sub) tl) as (b & -> & Hb); [done|rewrite length_app; lia|]. cbn [result_bind].
    rewrite occurs_prefix in Hb by lia. destruct b.
    + exists (Z.of_nat (S i)). split; [done|]. right. exists (S i). split_and!; [done|lia|by apply Hb|lia].
    + assert (Hno : ~ occurs sub txt (S i)) by (intros Ho; by apply Hb in Ho).
      destruct (IH ltac:(lia)) as (r & -> & [[-> Hr]|(k & -> & Hk & Hok & Hmax)]); eexists; (split; [done|]).
      * left. split; [done|]. intros j Hj. destruct (decide (j = S i)) as [->|]; [done|]. apply Hr. lia.
      * right. exists k. split_and!; [done|lia|done|]. intros j Hj. destruct (decide (j = S i)) as [->|]; [done|]. apply Hmax. lia.
Qed.

(** What [rfind] answers: the last occurrence. *)
Lemma str_rfind_text s sub a b : str_ok s a -> str_ok sub b -> b <> [] ->
  exists r, str_rfind s sub = Ok r /\
    ((r = -1 /\ forall k, ~ occurs b a k) \/
     exists u v, a = u ++ b ++ v /\ r = Z.of_nat (length (utf8 u)) /\ forall u' v', a = u' ++ b ++ v' -> (length (utf8 u') <= length (utf8 u))%nat).
Proof.
  intros Hs Hsub Hne. unfold str_rfind. rewrite (byte_len_ok _ _ Hs), (byte_len_ok _ _ Hsub), (str_data _ _ Hs), (str_data _ _ Hsub).
  pose proof (str_text _ _ Hs) as Ha. pose proof (str_text _ _ Hsub) as Hb.
  pose proof (utf8_length b Hb). rewrite (proj2 (Nat.eqb_neq _ 0)) by (destruct b; [done|simpl in *; lia]).
  destruct (Nat.ltb_spec (length (utf8 a)) (length (utf8 b))) as [Hlt|Hge].
  { exists (-1). split; [done|]. left. split; [done|]. intros k (u & v & -> & _). rewrite !utf8_length_app in Hlt. lia. }
  destruct (rfind_from_spec (utf8 a) [0] (utf8 b) [0] Hge (length (utf8 a) - length (utf8 b)) ltac:(lia))
    as (r & -> & [[-> Hno]|(k & -> & Hk & Ho & Hmax)]); eexists; (split; [done|]).
  - left. split; [done|]. intros k (u & v & -> & <-). rewrite !utf8_length_app in Hno.
    apply (Hno (length (utf8 u))); [lia|]. apply occurs_text; [done|done|done|]. by exists u, v.
  - right. apply occurs_text in Ho as (u & v & -> & ->); [|done|done|done]. exists u, v. split_and!; [done|done|].
    intros u' v' E. apply Nat.nlt_ge. intros Hlt. apply (Hmax (length (utf8 u'))).
    + rewrite E, !utf8_length_app. lia.
    + apply occurs_text; [done|done|done|]. by exists u', v'.
Qed.

Lemma startswith_ok s pre p rest b : str_ok s (p ++ rest) -> str_ok pre b ->
  startswith s pre (length (utf8 p)) = Ok (bool_decide (take (length b) rest = b)).
Proof.
  intros Hs Hpre. unfold startswith. rewrite (byte_len_ok _ _ Hs), (byte_len_ok _ _ Hpre), utf8_length_app, (str_data _ _ Hs), (str_data _ _ Hpre).
  pose proof (str_text _ _ Hs) as Ht. apply Forall_app in Ht as [Htp Htr]. pose proof (str_text _ _ Hpre) as Hb.
  rewrite (proj2 (Nat.ltb_ge _ _)) by lia. destruct (Nat.eqb_spec (length (utf8 b)) 0) as [H0|Hn0].
  { pose proof (utf8_length b Hb). destruct b; [|simpl in *; lia]. by rewrite bool_decide_eq_true_2. }
  assert (Hocc : occurs (utf8 b) (utf8 (p ++ rest)) (length (utf8 p)) <-> take (length b) rest = b).
  { split.
    - intros Ho. rewrite utf8_app in Ho. apply occurs_unshift in Ho; [|done]. rewrite Nat.sub_diag in Ho.
      destruct Ho as (u & v & E & Hu). destruct u; [|done]. destruct (utf8_prefix rest b v Htr Hb E) as (r & -> & _). by rewrite take_app_length.
    - intros E. rewrite <- (take_drop (length b) rest), E, utf8_app, utf8_app. by eexists _, _. }
  destruct (Nat.ltb_spec (length (utf8 p) + length (utf8 rest) - length (utf8 p)) (length (utf8 b))) as [Hlt|Hge].
  - rewrite bool_decide_eq_false_2; [done|]. intros E. apply Hocc, occurs_length in E. rewrite utf8_length_app in E. lia.
  - destruct (bytes_equal_spec (utf8 (p ++ rest) ++ [0]) (length (utf8 p)) (utf8 b) (length (utf8 b)) [0]) as (r & -> & Hr);
      [done|rewrite length_app, utf8_length_app; simpl; lia|].
    rewrite occurs_prefix, Hocc in Hr by (rewrite utf8_length_app; lia). f_equal. destruct r.
    + symmetry. apply bool_decide_eq_true_2. by apply Hr.
    + symmetry. apply bool_decide_eq_false_2. intros E. by apply Hr in E.
Qed.

Lemma removeprefix_ok s pre a b : str_ok s a -> str_ok pre b ->
  exists r, removeprefix s pre = Ok r /\ str_ok r (if bool_decide (take (length b) a = b) then drop (length b) a else a).
Proof.
  intros Hs Hpre. unfold removeprefix. rewrite (startswith_ok s pre [] a b Hs Hpre : startswith s pre 0 = _). cbn [result_bind].
  case_bool_decide as E; [|by exists s]. pose proof (take_drop (length b) a) as Ea. rewrite E in Ea.
  apply (byte_slice_ok s b _ []); [by rewrite app_nil_r, Ea|by apply byte_len_ok|by rewrite (byte_len_ok _ _ Hs), Ea].
Qed.

(** C39: On texts, [split] cuts exactly at the leftmost disjoint occurrences of
    a separator that is not empty, searched as code points although the code
    compares bytes; [join] with the same separator gives the text back;
    [replace] is [join] with the replacement.  An empty separator is a panic,
    and so is, in both [join] and [replace], a result whose size is no [usize];
    otherwise none of them panics or reads or writes outside a buffer, the
    sizes computed before the copying are exact, and all loops end. *)
Theorem split_join_replace `{Platform} s sep new a b c : str_ok s a -> str_ok sep b -> str_ok new c ->
  Z.of_nat (byte_size s) <= usize_max ->
  if decide (b = []) then
    str_split s sep = Err (Panic "str.split(...): separator must not be empty") /\
    str_replace s sep new = Err (Panic "str.replace(...): old must not be empty")
  else
    exists ps parts, str_split s sep = Ok parts /\ splits b a ps /\ Forall2 str_ok parts ps /\
      (exists s', str_join sep parts = Ok s' /\ str_ok s' a) /\
      if Z.of_nat (S (length (utf8 (intercalate c ps)))) <=? usize_max
      then exists r r', str_join new parts = Ok r /\ str_replace s sep new = Ok r' /\
             str_ok r (intercalate c ps) /\ str_ok r' (intercalate c ps)
      else str_join new parts = Err (Panic "irrational string length") /\
           str_replace s sep new = Err (Panic "irrational string length").
Proof.
  intros Hs Hsep Hnew Hmax. rewrite (str_size _ _ Hs) in Hmax. case_decide as Hne.
  { subst b. unfold str_split, str_replace. by rewrite (byte_len_ok _ _ Hsep). }
  destruct (str_split_ok s sep a b Hs Hsep Hne) as (ps & parts & E & Hps & Hparts).
  pose proof (splits_nonempty _ _ _ Hps) as Hnp. exists ps, parts. split_and!; [done..| |].
  - rewrite (str_join_text sep b parts ps), (splits_intercalate _ _ _ Hps), (proj2 (Z.leb_le _ _)) by (done || lia).
    destruct (join_text_ok sep b parts ps Hsep Hparts) as (s' & E' & Hok). exists s'.
    by rewrite (splits_intercalate _ _ _ Hps) in Hok.
  - rewrite (str_join_text new c parts ps) by (done || lia).
    destruct (str_replace_ok s sep new a b c Hs Hsep Hnew Hne Hmax) as (ps' & Hps' & Hr).
    rewrite (splits_unique _ _ _ _ Hne Hps' Hps) in Hr. destruct (_ <=? _); [|done].
    destruct (join_text_ok new c parts ps Hnew Hparts) as (r & Er & Hjoin). destruct Hr as (r' & Er' & Hr'). by exists r, r'.
Qed.

(** ["a,é,"] split at [","]. *)
Definition sample_text : list Z := [97; 44; 233; 44].

Lemma sample_str : exists s sep new : Str, from_owned_cstr (utf8 sample_text ++ [0]) 6 = Ok (Ok s) /\ from_owned_cstr [44; 0] 2 = Ok (Ok sep) /\
  from_owned_cstr [45; 45; 0] 3 = Ok (Ok new) /\ str_ok s sample_text /\ str_ok sep [44] /\ str_ok new [45; 45].
Proof.
  destruct (from_owned_cstr_valid sample_text) as (s & Es & Hs); [by repeat constructor|].
  destruct (from_owned_cstr_valid [44]) as (sep & Esep & Hsep); [by repeat constructor|].
  destruct (from_owned_cstr_valid [45; 45]) as (new & Enew & Hnew); [by repeat constructor|].
  exists s, sep, new. split_and!; [exact Es|exact Esep|exact Enew|exact Hs|exact Hsep|exact Hnew].
Defined.

Definition usize64 : Platform := {| usize_max := 2 ^ 64 - 1; malloc n := Some (replicate n Byte.x00) |}.

Lemma split_join_replace_witness : exists (s sep new : Str) (ps : list (list Z)) (parts : list Str), str_ok s sample_text /\ str_split s sep = Ok parts /\
  splits [44] sample_text ps /\ exists s', str_join (H := usize64) sep parts = Ok s' /\ str_ok s' sample_text.
Proof.
  destruct sample_str as (s & sep & new & _ & _ & _ & Hs & Hsep & Hnew).
  assert (Hmax : Z.of_nat (byte_size s) <= @usize_max usize64) by (rewrite (str_size _ _ Hs); done).
  destruct (@split_join_replace usize64 s sep new sample_text [44] [45; 45] Hs Hsep Hnew Hmax) as (ps & parts & E & Hps & _ & Hj & _).
  exists s, sep, new, ps, parts. split; [exact Hs|]. split; [exact E|]. split; [exact Hps|]. exact Hj.
Defined.

Example split_sample :
  (let? r := from_owned_cstr (utf8 sample_text ++ [0]) 6 in
   let? s := unwrap "" r in
   let? r := from_owned_cstr [44; 0] 2 in
   let? sep := unwrap "" r in
   let? parts := str_split s sep in Ok (map s_data parts)) = Ok [[97; 0]; [195; 169; 0]; [0]].
Proof. reflexivity. Qed.
