(* ===== verification/StrIndex.v ===== *)
(** * Indexing, slicing and comparing strings ([lib/builtins/__init__.py])

    [s[i]] counts code points and uses the sparse index; [s[a:b]] counts bytes;
    [chr] and [ord] go between a code point and its string; comparison is byte
    by byte.  [crt_memcmp] is C's [memcmp] on blocks of equal length. *)

From S2P Require Import Prelude RawList Bits Buffers Utf8 StrOps.

Local Open Scope Z_scope.
Local Open Scope monad_scope.

(** ** Indices *)

(** A negative plus a length cannot leave the range of [isize]. *)
Definition resolve_index (i : Z) (real_len : nat) : result IndexError nat :=
  let len_i := Z.of_nat real_len in
  let resolved := if i <? 0 then i + len_i else i in
  if (resolved <? 0) || (len_i <=? resolved) then Err mkIndexError else Ok (Z.to_nat resolved).

Definition clamp_slice_bound (bound len_i : Z) : Z :=
  if bound <? 0 then
    let resolved := bound + len_i in if resolved <? 0 then 0 else resolved
  else if len_i <? bound then len_i else bound.

Record slice := mkSlice { slice_start : Z; slice_stop : option Z }.

Definition resolve_slice_bounds (s : slice) (real_len : nat) : nat * nat :=
  let len_i := Z.of_nat real_len in
  let clamped_start_i := clamp_slice_bound (slice_start s) len_i in
  let clamped_stop_i := match slice_stop s with Some stop => clamp_slice_bound stop len_i | None => len_i end in
  let clamped_stop_i := if clamped_stop_i <? clamped_start_i then clamped_start_i else clamped_stop_i in
  (Z.to_nat clamped_start_i, Z.to_nat clamped_stop_i).

(** [self[idx]] for a [usize] *)
Definition str_getitem (self : Str) (idx : nat) : result abort (result IndexError Str) :=
  if (char_count self <=? idx)%nat then Ok (Err mkIndexError)
  else
    let group := Nat.shiftr idx 8 in
    let? i := match char_index self !! group with Some (Some i) => Ok i | _ => Err Fault end in
    let remaining := Nat.land idx 255 in
    let? i := for_upto remaining (fun i _ => let? (_, consumed) := decode_utf8_at (s_data self) i in Ok (i + consumed)%nat) i in
    let? (_, consumed) := decode_utf8_at (s_data self) i in
    let? s := byte_slice self i (i + consumed) in
    Ok (Ok s).

(** [self[idx]] for an [isize] *)
Definition str_getitem_isize (self : Str) (idx : Z) : result abort (result IndexError Str) :=
  match resolve_index idx (char_count self) with
  | Err e => Ok (Err e)
  | Ok resolved => str_getitem self resolved
  end.

(** [self[start:stop]] *)
Definition str_slice (self : Str) (s : slice) : result abort Str :=
  let '(start, stop) := resolve_slice_bounds s (byte_len self) in
  byte_slice self start stop.

(** The byte where code point number [max_count] starts. *)
Fixpoint truncate_at (fuel : nat) (self : Str) (max_count count i : nat) : result abort nat :=
  if (i <? byte_size self - 1)%nat then
    match fuel with
    | O => Err Fault
    | S fuel =>
        let? c := read_ptr (s_data self) i in
        if negb (Z.land c 192 =? 128) then
          if (count =? max_count)%nat then Ok i else truncate_at fuel self max_count (count + 1) (i + 1)
        else truncate_at fuel self max_count count (i + 1)
    end
  else Ok i.

Definition truncate_codepoints (self : Str) (max_count : nat) : result abort Str :=
  if (char_count self <=? max_count)%nat then Ok self
  else let? i := truncate_at (byte_size self) self max_count 0 0 in byte_slice self 0 i.

(** ** [chr] and [ord] *)

Definition chr (cp : Z) : result abort Str :=
  let encoded_len := utf8_encoded_len cp in
  let buf_size := (encoded_len + 1)%nat in
  let? buf := store_bytes 0 (encode_utf8 cp) (alloc_u8 buf_size) in
  let? buf := write_u8 encoded_len 0 buf in
  owned_str "chr(): not a valid Unicode code point" buf buf_size.

Definition ord (s : Str) : result abort Z :=
  if (byte_len s =? 0)%nat then Err (Panic "ord(): expected a string of length 1, got an empty string")
  else
    let? (cp, consumed) := decode_utf8_at (s_data s) 0 in
    if negb (consumed =? byte_len s)%nat then Err (Panic "ord(): expected a string of length 1, got a longer string")
    else Ok cp.

Fixpoint isascii_from (fuel : nat) (self : Str) (i : nat) : result abort bool :=
  if (i <? byte_len self)%nat then
    match fuel with
    | O => Err Fault
    | S fuel =>
        let? c := read_ptr (s_data self) i in
        if 128 <=? c then Ok false else isascii_from fuel self (i + 1)
    end
  else Ok true.

Definition isascii (self : Str) : result abort bool := isascii_from (byte_len self) self 0.

(** ** Comparison *)

Fixpoint lex (a b : list Z) : Z :=
  match a, b with
  | [], [] => 0
  | [], _ => -1
  | _, [] => 1
  | x :: a, y :: b => if x <? y then -1 else if y <? x then 1 else lex a b
  end.

Section compare.
Context (crt_memcmp : list Z -> list Z -> Z).

Definition str_cmp (self other : Str) : result abort Z :=
  let min_len := if (byte_size self <? byte_size other)%nat then byte_size self else byte_size other in
  let? a := bytes_at (s_data self) 0 min_len in
  let? b := bytes_at (s_data other) 0 min_len in
  let res := crt_memcmp a b in
  if negb (res =? 0) then Ok res
  else if (byte_size self <? byte_size other)%nat then Ok (-1)
  else if (byte_size other <? byte_size self)%nat then Ok 1
  else Ok 0.

Definition str_compares (f : Z -> bool) (self other : Str) : result abort bool := let? c := str_cmp self other in Ok (f c).

Definition str_eq := str_compares (fun c => c =? 0).
Definition str_ne := str_compares (fun c => negb (c =? 0)).
Definition str_lt := str_compares (fun c => c <? 0).
Definition str_le := str_compares (fun c => c <=? 0).
Definition str_gt := str_compares (fun c => 0 <? c).
Definition str_ge := str_compares (fun c => 0 <=? c).
End compare.

(** ** Indexing is by code point *)

Lemma text_app a b : text (a ++ b) <-> text a /\ text b.
Proof. apply Forall_app. Qed.

Lemma text_at cps k cp : text cps -> cps !! k = Some cp -> scalar_value cp = true.
Proof. intros Ht Hk. exact (Forall_lookup_1 _ _ _ _ Ht Hk). Qed.

(** The decoder at the start of code point [k]. *)
Lemma decode_at s cps k cp : str_ok s cps -> cps !! k = Some cp ->
  decode_utf8_at (s_data s) (length (utf8 (take k cps))) = Ok (cp, length (utf8_char cp)) /\
  length (utf8 (take (S k) cps)) = (length (utf8 (take k cps)) + length (utf8_char cp))%nat.
Proof.
  intros Hs Hk. pose proof (str_text _ _ Hs) as Ht. split.
  - apply (decode_utf8_at_spec _ _ cp _ (utf8 (drop (S k) cps) ++ [0])); [apply char_sequence; by eapply text_at|].
    rewrite (str_data _ _ Hs). rewrite <- (take_drop_middle cps k cp Hk) at 2. rewrite utf8_app, utf8_cons, <- !app_assoc. apply drop_app_length.
  - by rewrite (take_S_r _ _ _ Hk), utf8_length_app, utf8_singleton.
Qed.

Lemma str_getitem_ok s cps idx cp : str_ok s cps -> cps !! idx = Some cp ->
  exists s', str_getitem s idx = Ok (Ok s') /\ str_ok s' [cp].
Proof.
  intros Hs Hidx. unfold str_getitem. rewrite (str_count _ _ Hs). pose proof (lookup_lt_Some _ _ _ Hidx) as Hlt.
  rewrite (proj2 (Nat.leb_gt _ _) Hlt), high_bits, low_byte.
  pose proof (Nat.div_mod idx 256 ltac:(lia)) as Hdm. pose proof (Nat.mod_upper_bound idx 256 ltac:(lia)) as Hmod.
  set (g := (idx / 256)%nat) in *. set (r := (idx mod 256)%nat) in *.
  rewrite (str_indexed _ _ Hs g) by lia. cbn [result_bind].
  destruct (for_upto_ok (fun j i => i = length (utf8 (take (256 * g + j) cps))) r
    (fun i _ => let? (_, consumed) := decode_utf8_at (s_data s) i in Ok (i + consumed)%nat) (length (utf8 (take (256 * g) cps))))
    as (i & E & ->).
  - intros j i Hj ->. destruct (lookup_lt_is_Some_2 cps (256 * g + j) ltac:(lia)) as [c Hc].
    destruct (decode_at s cps _ c Hs Hc) as [-> Hl]. cbn [result_bind]. eexists. split; [done|].
    replace (256 * g + (j + 1))%nat with (S (256 * g + j)) by lia. lia.
  - by rewrite Nat.add_0_r.
  - rewrite E. cbn [result_bind]. rewrite <- Hdm. destruct (decode_at s cps idx cp Hs Hidx) as [-> Hl]. cbn [result_bind].
    destruct (byte_slice_ok s (take idx cps) [cp] (drop (S idx) cps) (length (utf8 (take idx cps)))
      (length (utf8 (take idx cps)) + length (utf8_char cp))) as (s' & -> & Hs'); [|done| |cbn [result_bind]; by exists s'].
    + cbn [app]. by rewrite (take_drop_middle cps idx cp Hidx).
    + by rewrite utf8_length_app, utf8_singleton.
Qed.

Lemma resolve_index_spec i n : resolve_index i n =
  if decide (0 <= i < Z.of_nat n) then Ok (Z.to_nat i)
  else if decide (- Z.of_nat n <= i < 0) then Ok (Z.to_nat (i + Z.of_nat n)) else Err mkIndexError.
Proof.
  unfold resolve_index. destruct (Z.ltb_spec i 0).
  - rewrite decide_False by lia. destruct (decide (- Z.of_nat n <= i < 0)).
    + rewrite (proj2 (Z.ltb_ge _ _)), (proj2 (Z.leb_gt _ _)) by lia. done.
    + rewrite (proj2 (Z.ltb_lt (i + Z.of_nat n) 0)) by lia. done.
  - destruct (decide (0 <= i < Z.of_nat n)).
    + rewrite (proj2 (Z.ltb_ge _ _)), (proj2 (Z.leb_gt _ _)) by lia. done.
    + rewrite decide_False, (proj2 (Z.leb_le (Z.of_nat n) i)), orb_true_r by lia. done.
Qed.

(** ** Slicing is by byte *)

Lemma byte_slice_cases s cps i j : str_ok s cps -> (i <= j <= length (utf8 cps))%nat ->
  let sub := take (j - i) (drop i (utf8 cps)) in
  (exists q s', text q /\ sub = utf8 q /\ byte_slice s i j = Ok s' /\ str_ok s' q) \/
  ((forall q, text q -> sub <> utf8 q) /\ byte_slice s i j = Err (Panic "invalid UTF-8 in _byte_slice")).
Proof.
  intros Hs Hij sub. assert (Hl : length sub = (j - i)%nat) by (unfold sub; rewrite length_take, length_drop; lia).
  assert (Hb : Forall is_byte sub) by (apply Forall_take, Forall_drop, utf8_bytes, Hs).
  unfold byte_slice. rewrite panic_sub_ok by lia. cbn [result_bind].
  assert (Hread : bytes_at (s_data s) i (j - i) = Ok sub).
  { unfold bytes_at. rewrite (str_data _ _ Hs), length_app, (proj2 (Nat.leb_le _ _)) by (simpl; lia).
    unfold sub. rewrite drop_app_le by lia. by rewrite take_app_le by (rewrite length_drop; lia). }
  rewrite Hread. cbn [result_bind].
  destruct (starts_store (alloc_u8 (j - i + 1)) [] sub) as (d & E & Hd & Hsd); [apply starts_nil|rewrite alloc_length; simpl; lia|].
  cbn [length app] in E, Hsd. rewrite E. cbn [result_bind]. rewrite alloc_length in Hd. rewrite <- Hl.
  destruct (utf8_dec sub Hb) as [(q & Hq & Eq)|Hno].
  - left. exists q. rewrite Eq in Hsd, Hl |- *.
    destruct (terminated_ok "invalid UTF-8 in _byte_slice" d q _ Hsd eq_refl) as (d' & s' & -> & Es & Hok); [lia|done|].
    cbn [result_bind]. rewrite Nat.add_1_r. by exists s'.
  - right. split; [done|]. destruct (starts_push _ _ 0 Hsd) as (d' & -> & Hd' & Hs'); [lia|]. cbn [result_bind]. unfold owned_str.
    rewrite (filled_ok _ _ Hs') by (rewrite length_app; simpl; lia). cbn [result_bind].
    destruct (from_owned_cstr_invalid sub Hb Hno) as (e & Ee). rewrite Nat.add_1_r, Ee. done.
Qed.

Lemma clamp_bounds b n : 0 <= n -> 0 <= clamp_slice_bound b n <= n.
Proof.
  intros Hn. unfold clamp_slice_bound. destruct (Z.ltb_spec b 0); [destruct (Z.ltb_spec (b + n) 0); lia|].
  destruct (Z.ltb_spec n b); lia.
Qed.

Lemma resolve_slice_bounds_ok s n : let '(a, b) := resolve_slice_bounds s n in (a <= b <= n)%nat.
Proof.
  unfold resolve_slice_bounds. pose proof (clamp_bounds (slice_start s) (Z.of_nat n) ltac:(lia)).
  assert (H2 : 0 <= match slice_stop s with Some stop => clamp_slice_bound stop (Z.of_nat n) | None => Z.of_nat n end <= Z.of_nat n).
  { destruct (slice_stop s) as [stop|]; [apply clamp_bounds; lia|lia]. }
  destruct (Z.ltb_spec (match slice_stop s with Some stop => clamp_slice_bound stop (Z.of_nat n) | None => Z.of_nat n end)
    (clamp_slice_bound (slice_start s) (Z.of_nat n))); lia.
Qed.

(** Between two offsets with bytes in between, a slice is a text only at character boundaries. *)
Lemma slice_boundary cps i j q : text cps -> (i < j <= length (utf8 cps))%nat -> text q ->
  take (j - i) (drop i (utf8 cps)) = utf8 q -> exists p r, cps = p ++ q ++ r /\ i = length (utf8 p) /\ j = length (utf8 (p ++ q)).
Proof.
  intros Ht Hij Hq E. assert (Hne : q <> []).
  { intros ->. apply (f_equal length) in E. rewrite length_take, length_drop in E. simpl in E. lia. }
  assert (Ho : occurs (utf8 q) (utf8 cps) i).
  { exists (take i (utf8 cps)), (drop (j - i) (drop i (utf8 cps))). rewrite <- E, !take_drop, length_take. split; [done|lia]. }
  apply occurs_text in Ho as (p & r & -> & ->); [|done|done|done]. exists p, r. split_and!; [done|done|].
  apply (f_equal length) in E. rewrite length_take, length_drop in E. rewrite !utf8_length_app in *. lia.
Qed.

(** ** Truncation *)

Lemma truncate_skip s w : Forall continuation w -> forall fuel max_count count i rest, drop i (s_data s) = w ++ rest ->
  (i + length w <= byte_size s - 1)%nat ->
  truncate_at (length w + fuel) s max_count count i = truncate_at fuel s max_count count (i + length w).
Proof.
  induction 1 as [|x w Hx Hw IH]; intros fuel max_count count i rest Hd Hl; [by rewrite Nat.add_0_r|].
  simpl length in Hl |- *. cbn [Nat.add]. cbn [truncate_at]. rewrite (proj2 (Nat.ltb_lt _ _)) by lia.
  unfold read_ptr. assert (E : s_data s !! i = Some x) by (rewrite <- (Nat.add_0_r i), <- lookup_drop, Hd; done).
  rewrite E. cbn [result_bind]. rewrite lead_continuation by (unfold continuation, is_byte in *; lia).
  unfold continuation in Hx. rewrite (proj2 (Z.leb_le _ _)), (proj2 (Z.ltb_lt _ _)) by lia. cbn [andb negb].
  rewrite (IH fuel max_count count (i + 1)%nat rest); [by rewrite <- Nat.add_assoc| |lia].
  rewrite <- drop_drop, Hd. done.
Qed.

Lemma truncate_at_ok s cps max_count : str_ok s cps -> (max_count < length cps)%nat -> forall post pre fuel, cps = pre ++ post ->
  (length pre <= max_count)%nat -> (length (utf8 post) <= fuel)%nat ->
  truncate_at fuel s max_count (length pre) (length (utf8 pre)) = Ok (length (utf8 (take max_count cps))).
Proof.
  intros Hs Hmax. induction post as [|cp post IH]; intros pre fuel -> Hpre Hf.
  { rewrite app_nil_r in Hmax. lia. }
  pose proof (str_text _ _ Hs) as Ht. apply Forall_app in Ht as [_ Ht]. apply Forall_cons in Ht as [Hc Ht].
  destruct (sequence_lead _ _ (char_sequence _ Hc)) as (x & w & Ew & Hx & Hw).
  assert (Hb : is_byte x) by (pose proof (sequence_bytes _ _ (char_sequence _ Hc)) as Hb; rewrite Ew in Hb; by apply Forall_cons in Hb as [Hb _]).
  rewrite utf8_cons, Ew, length_app in Hf. simpl in Hf. destruct fuel as [|fuel]; [lia|]. cbn [truncate_at].
  rewrite (str_size _ _ Hs), !utf8_length_app, utf8_cons, Ew. simpl length at 1 2 3.
  rewrite (proj2 (Nat.ltb_lt _ _)) by (rewrite length_app; simpl; lia).
  unfold read_ptr. rewrite (str_data _ _ Hs), utf8_app, <- app_assoc, lookup_app_r, Nat.sub_diag, utf8_cons, Ew by lia.
  cbn [lookup list_lookup app result_bind]. rewrite lead_continuation by done. unfold continuation in Hx.
  destruct (Z.leb_spec 128 x), (Z.ltb_spec x 192); try lia; cbn [andb negb].
  all: destruct (Nat.eqb_spec (length pre) max_count) as [<-|Hne]; [by rewrite take_app_length|].
  all: replace fuel with (length w + (fuel - length w))%nat by lia.
  all: rewrite (truncate_skip s w Hw _ _ _ _ (utf8 post ++ [0])); [| |].
  all: try (rewrite (str_size _ _ Hs), utf8_length_app, utf8_cons, Ew, length_app; simpl; lia).
  all: try (rewrite (str_data _ _ Hs), utf8_app, utf8_cons, Ew, <- !app_assoc, drop_app_ge by lia;
    replace (length (utf8 pre) + 1 - length (utf8 pre))%nat with 1%nat by lia; done).
  all: replace (length pre + 1)%nat with (length (pre ++ [cp])) by (rewrite length_app; done).
  all: replace (length (utf8 pre) + 1 + length w)%nat with (length (utf8 (pre ++ [cp])))
    by (rewrite utf8_length_app, utf8_singleton, Ew; simpl; lia).
  all: apply IH; [by rewrite <- app_assoc|rewrite length_app; simpl; lia|lia].
Qed.

Lemma truncate_codepoints_ok s cps max_count : str_ok s cps ->
  exists s', truncate_codepoints s max_count = Ok s' /\ str_ok s' (take max_count cps).
Proof.
  intros Hs. unfold truncate_codepoints. rewrite (str_count _ _ Hs). destruct (Nat.leb_spec (length cps) max_count).
  - exists s. by rewrite take_ge.
  - change (truncate_at (byte_size s) s max_count 0 0) with (truncate_at (byte_size s) s max_count (length (@nil Z)) (length (utf8 []))).
    rewrite (truncate_at_ok s cps max_count Hs ltac:(lia) cps [] (byte_size s)); [|done|simpl; lia|rewrite (str_size _ _ Hs); lia].
    cbn [result_bind]. apply (byte_slice_ok s [] (take max_count cps) (drop max_count cps)); [by rewrite app_nil_l, take_drop|done|done].
Qed.

(** ** [chr] *)

(** The code point whose encoding [chr] writes: bits above the 22nd are lost. *)
Definition chr_value (cp : Z) : Z := if cp <? 65536 then cp else cp mod 2 ^ 22.

Definition chr_accepts (cp : Z) : bool :=
  scalar_value (chr_value cp) && ((cp <? 65536) || (65536 <=? chr_value cp)).

Lemma chr_encoding cp : 65536 <= cp < 2 ^ 32 ->
  encode_utf8 cp = [240 + cp / 262144 mod 16; 128 + cp / 4096 mod 64; 128 + cp / 64 mod 64; 128 + cp mod 64].
Proof.
  intros Hcp. unfold encode_utf8. rewrite !(proj2 (Z.ltb_ge cp _)) by lia.
  assert (Hc : forall x, 0 <= x -> u8 (Z.lor 128 (Z.land x 63)) = 128 + x mod 64).
  { intros x Hx. rewrite (land_low x 6) by lia. rewrite (lor_add 128 1 7) by divmod. rewrite u8_small; change (2 ^ 6) with 64; divmod. }
  rewrite !Z.shiftr_div_pow2 by lia. change (2 ^ 6) with 64. change (2 ^ 12) with 4096. change (2 ^ 18) with 262144.
  rewrite !Hc by divmod. f_equal.
  unfold u8. rewrite <- Z.land_ones, Z.land_lor_distr_l, !Z.land_ones by lia. change (240 mod 2 ^ 8) with (15 * 2 ^ 4).
  set (y := (cp / 262144) mod 2 ^ 8). assert (Hy : 0 <= y < 256) by (unfold y; divmod).
  replace (cp / 262144 mod 16) with (y mod 16) by (unfold y; divmod). clearbody y. clear -Hy.
  apply Z.eqb_eq. revert y Hy. by apply byte_forall.
Qed.

Lemma encode_not_text cp : 0 <= cp < 2 ^ 32 -> chr_accepts cp = false -> forall q, text q -> encode_utf8 cp <> utf8 q.
Proof.
  intros Hcp Ha q Hq E.
  assert (Hshape : forall l, encode_utf8 cp = l -> l <> [] -> exists c s rest, sequence c s /\ l = s ++ rest).
  { intros l <- Hne. rewrite E in Hne |- *. destruct Hq as [|c q Hc Hq]; [done|]. exists c, (utf8_char c), (utf8 q).
    split; [by apply char_sequence|done]. }
  unfold chr_accepts, chr_value in Ha. apply andb_false_iff in Ha. destruct (Z.ltb_spec cp 65536) as [Hlt|Hge].
  - destruct Ha as [Ha|Ha]; [|done].
    assert (Hsur : 55296 <= cp < 57344).
    { apply not_true_iff_false in Ha. rewrite scalar_spec in Ha. lia. }
    assert (Ee : encode_utf8 cp = utf8_char cp).
    { unfold encode_utf8, utf8_char. rewrite !(proj2 (Z.ltb_ge cp _)), (proj2 (Z.ltb_lt cp 65536)) by lia.
      assert (Hc : forall x, 0 <= x -> u8 (Z.lor 128 (Z.land x 63)) = 128 + x mod 64).
      { intros x Hx. rewrite (land_low x 6) by lia. rewrite (lor_add 128 1 7) by divmod. rewrite u8_small; change (2 ^ 6) with 64; divmod. }
      rewrite !Z.shiftr_div_pow2 by lia. change (2 ^ 6) with 64. change (2 ^ 12) with 4096.
      rewrite !Hc by divmod. f_equal. rewrite (lor_add 224 14 4), u8_small by divmod. done. }
    unfold utf8_char in Ee. rewrite !(proj2 (Z.ltb_ge cp _)), (proj2 (Z.ltb_lt cp 65536)) in Ee by lia.
    destruct (Hshape _ Ee) as (c & s & rest & Hs & Es); [done|]. destruct Hs; injection Es; intros; subst; divmod.
  - assert (Hlow : cp mod 2 ^ 22 < 65536 \/ 1114112 <= cp mod 2 ^ 22).
    { destruct Ha as [Ha|Ha]; [|apply orb_false_iff in Ha as [_ Ha%Z.leb_gt]; lia].
      apply not_true_iff_false in Ha. rewrite scalar_spec in Ha. pose proof (Z.mod_pos_bound cp (2 ^ 22) ltac:(lia)). lia. }
    destruct (Hshape _ (chr_encoding cp ltac:(lia))) as (c & s & rest & Hs & Es); [done|].
    change (2 ^ 22) with 4194304 in Hlow. destruct Hs; injection Es; intros; subst; divmod.
Qed.

Lemma encode_accepted cp : 0 <= cp < 2 ^ 32 -> chr_accepts cp = true ->
  scalar_value (chr_value cp) = true /\ encode_utf8 cp = utf8_char (chr_value cp).
Proof.
  unfold chr_accepts, chr_value. intros Hcp [Hs Hor]%andb_prop. split; [done|]. destruct (Z.ltb_spec cp 65536) as [Hlt|Hge].
  - by apply encode_utf8_spec.
  - apply orb_prop in Hor as [|Hge'%Z.leb_le]; [done|]. rewrite chr_encoding by lia. unfold utf8_char.
    rewrite !(proj2 (Z.ltb_ge _ _)) by lia. change (2 ^ 22) with 4194304 in *.
    f_equal; [|f_equal; [|f_equal; [|f_equal]]]; divmod.
Qed.

Lemma chr_ok cp : 0 <= cp < 2 ^ 32 ->
  if chr_accepts cp then exists s, chr cp = Ok s /\ str_ok s [chr_value cp]
  else chr cp = Err (Panic "chr(): not a valid Unicode code point").
Proof.
  intros Hcp. unfold chr. rewrite utf8_encoded_len_spec.
  destruct (starts_store (alloc_u8 (length (encode_utf8 cp) + 1)) [] (encode_utf8 cp)) as (d & E & Hd & Hsd);
    [apply starts_nil|rewrite alloc_length; simpl; lia|]. cbn [length app] in E, Hsd. rewrite alloc_length in Hd.
  destruct (chr_accepts cp) eqn:Ha.
  - destruct (encode_accepted cp Hcp Ha) as [Hs Ee]. rewrite E. cbn [result_bind]. rewrite Ee, <- utf8_singleton in Hsd, Hd |- *.
    destruct (terminated_ok "chr(): not a valid Unicode code point" d [chr_value cp] _ Hsd eq_refl) as (d' & s & -> & Es & Hok);
      [lia|by constructor|]. cbn [result_bind]. rewrite Nat.add_1_r. by exists s.
  - rewrite E. cbn [result_bind]. destruct (starts_push _ _ 0 Hsd) as (d' & -> & Hd' & Hs'); [lia|]. cbn [result_bind]. unfold owned_str.
    rewrite (filled_ok _ _ Hs') by (rewrite length_app; simpl; lia). cbn [result_bind].
    assert (Hb : Forall is_byte (encode_utf8 cp)) by (unfold encode_utf8; repeat destruct (_ <? _); repeat constructor; apply u8_byte).
    destruct (from_owned_cstr_invalid _ Hb (encode_not_text cp Hcp Ha)) as (e & Ee). by rewrite Nat.add_1_r, Ee.
Qed.

Lemma ord_ok s cps : str_ok s cps -> match cps with
  | [] => ord s = Err (Panic "ord(): expected a string of length 1, got an empty string")
  | [cp] => ord s = Ok cp
  | _ => ord s = Err (Panic "ord(): expected a string of length 1, got a longer string")
  end.
Proof.
  intros Hs. unfold ord. rewrite (byte_len_ok _ _ Hs). destruct cps as [|cp cps]; [done|].
  destruct (decode_at s (cp :: cps) 0 cp Hs eq_refl) as [E _]. cbn [take utf8 map concat length] in E. 
  pose proof (str_text _ _ Hs) as Ht. apply Forall_cons in Ht as [Hc Ht]. pose proof (sequence_length _ _ (char_sequence _ Hc)) as Hl.
  rewrite utf8_cons, length_app. rewrite (proj2 (Nat.eqb_neq _ 0)) by lia. rewrite E. cbn [result_bind].
  destruct cps as [|c cps].
  - by rewrite Nat.add_0_r, Nat.eqb_refl.
  - apply Forall_cons in Ht as [Hc' _]. pose proof (sequence_length _ _ (char_sequence _ Hc')) as Hl'.
    rewrite utf8_cons, length_app. by rewrite (proj2 (Nat.eqb_neq _ _)) by lia.
Qed.

(** 0x410000 is no code point, but [chr] returns U+10000. *)
Example chr_alias : chr 4259840 = chr 65536.
Proof. reflexivity. Qed.

(** ** Comparison orders by code point *)

Lemma char_lex c s c' s' r r' : sequence c s -> sequence c' s' -> c < c' -> lex (s ++ r) (s' ++ r') = -1 /\ lex (s' ++ r') (s ++ r) = 1.
Proof.
  intros [a|a b|a b d|a b d e] [a'|a' b'|a' b' d'|a' b' d' e'] Hc; cbn [app lex]; try (exfalso; lia);
    repeat match goal with |- context [?x <? ?y] => destruct (Z.ltb_spec x y) end; split; done || lia.
Qed.

Lemma lex_refl_app s a b : lex (s ++ a) (s ++ b) = lex a b.
Proof. induction s as [|x s IH]; [done|]. cbn [app lex]. by rewrite !Z.ltb_irrefl. Qed.

Lemma lex_utf8 a b : text a -> text b -> lex (utf8 a) (utf8 b) = lex a b.
Proof.
  intros Ha. revert b. induction Ha as [|c a Hc Ha IH]; intros b Hb.
  - destruct Hb as [|c' b Hc' Hb]; [done|]. rewrite utf8_cons.
    destruct (sequence_lead _ _ (char_sequence _ Hc')) as (x & w & -> & _). done.
  - destruct Hb as [|c' b Hc' Hb].
    + rewrite utf8_cons. destruct (sequence_lead _ _ (char_sequence _ Hc)) as (x & w & -> & _). done.
    + rewrite !utf8_cons. cbn [lex]. destruct (Z.ltb_spec c c') as [Hlt|Hge].
      { by apply char_lex with (c := c) (c' := c'); [apply char_sequence..|]. }
      destruct (Z.ltb_spec c' c) as [Hlt|Hge'].
      { by apply char_lex with (c := c') (c' := c); [apply char_sequence..|]. }
      assert (c = c') as <- by lia. rewrite lex_refl_app. by apply IH.
Qed.

Lemma lex_zero_sym a b : lex a b = - lex b a.
Proof.
  revert b. induction a as [|x a IH]; intros [|y b]; cbn [lex]; try done.
  destruct (Z.ltb_spec x y), (Z.ltb_spec y x); try done; lia.
Qed.

Lemma lex_eq a b : lex a b = 0 <-> a = b.
Proof.
  split; [|intros ->; induction b as [|x b IH]; [done|]; cbn [lex]; by rewrite Z.ltb_irrefl].
  revert b. induction a as [|x a IH]; intros [|y b]; cbn [lex]; try done.
  destruct (Z.ltb_spec x y), (Z.ltb_spec y x); try done. intros E. f_equal; [lia|by apply IH].
Qed.

Lemma lex_sgn a b : Z.sgn (lex a b) = lex a b.
Proof. revert b. induction a as [|x a IH]; intros [|y b]; cbn [lex]; try done. by destruct (x <? y), (y <? x). Qed.

(** The comparison of zero-terminated blocks of the shorter size, then of the sizes. *)
Definition block_order (x y : list Z) : Z :=
  let m := S (Nat.min (length x) (length y)) in
  let l := lex (take m (x ++ [0])) (take m (y ++ [0])) in
  if l =? 0 then (if (length x <? length y)%nat then -1 else if (length y <? length x)%nat then 1 else 0) else l.

Lemma block_order_lex x y : Forall is_byte x -> Forall is_byte y -> block_order x y = lex x y.
Proof.
  intros Hx. revert y. induction Hx as [|a x Ha Hx IH]; intros y Hy; destruct Hy as [|b y Hb Hy].
  - done.
  - unfold block_order. simpl. unfold is_byte in Hb. destruct (Z.ltb_spec 0 b), (Z.ltb_spec b 0); simpl; done || lia.
  - unfold block_order. simpl. unfold is_byte in Ha. destruct (Z.ltb_spec a 0), (Z.ltb_spec 0 a); simpl; done || lia.
  - specialize (IH y Hy). unfold block_order in *. cbn [length app Nat.min]. cbn [take firstn]. cbn [lex].
    change (S (length x) <? S (length y))%nat with (length x <? length y)%nat.
    change (S (length y) <? S (length x))%nat with (length y <? length x)%nat.
    destruct (Z.ltb_spec a b); [done|]. destruct (Z.ltb_spec b a); [done|]. exact IH.
Qed.

Section comparison.
Context (crt_memcmp : list Z -> list Z -> Z).
Context (memcmp_law : forall a b, length a = length b -> Z.sgn (crt_memcmp a b) = lex a b).

Lemma str_cmp_ok s t a b : str_ok s a -> str_ok t b -> exists r, str_cmp crt_memcmp s t = Ok r /\ Z.sgn r = lex a b.
Proof using memcmp_law.
  intros Hs Ht. unfold str_cmp. rewrite (str_size _ _ Hs), (str_size _ _ Ht), (str_data _ _ Hs), (str_data _ _ Ht).
  rewrite <- (lex_utf8 a b (str_text _ _ Hs) (str_text _ _ Ht)).
  rewrite <- (block_order_lex _ _ (utf8_bytes _ (str_text _ _ Hs)) (utf8_bytes _ (str_text _ _ Ht))).
  set (x := utf8 a). set (y := utf8 b). set (m := if (S (length x) <? S (length y))%nat then S (length x) else S (length y)).
  assert (Em : m = S (Nat.min (length x) (length y))) by (unfold m; destruct (Nat.ltb_spec (S (length x)) (S (length y))); lia).
  unfold bytes_at. rewrite !drop_0, !length_app, !(proj2 (Nat.leb_le _ _)) by (simpl; lia). cbn [result_bind].
  assert (Hl : length (take m (x ++ [0])) = length (take m (y ++ [0]))) by (rewrite !length_take, !length_app; simpl; lia).
  pose proof (memcmp_law _ _ Hl) as Hsgn. unfold block_order. rewrite <- Em, <- Hsgn.
  change (S (length x) <? S (length y))%nat with (length x <? length y)%nat.
  change (S (length y) <? S (length x))%nat with (length y <? length x)%nat.
  set (c := crt_memcmp _ _). destruct (Z.eqb_spec c 0) as [->|Hne]; cbn [negb].
  - simpl. repeat destruct (_ <? _)%nat; eexists; (split; [done|done]).
  - exists c. split; [done|]. rewrite (proj2 (Z.eqb_neq (Z.sgn c) 0)) by lia. done.
Qed.

Lemma str_eq_ok s t a b : str_ok s a -> str_ok t b -> str_eq crt_memcmp s t = Ok (bool_decide (a = b)).
Proof using memcmp_law.
  intros Hs Ht. unfold str_eq, str_compares. destruct (str_cmp_ok s t a b Hs Ht) as (r & -> & Hr). cbn [result_bind]. f_equal.
  destruct (Z.eqb_spec r 0) as [->|Hne]; symmetry; [apply bool_decide_eq_true_2|apply bool_decide_eq_false_2]; rewrite <- lex_eq; simpl in *; lia.
Qed.

Lemma str_ne_ok s t a b : str_ok s a -> str_ok t b -> str_ne crt_memcmp s t = Ok (negb (bool_decide (a = b))).
Proof using memcmp_law.
  intros Hs Ht. pose proof (str_eq_ok s t a b Hs Ht) as E. unfold str_eq, str_ne, str_compares in *.
  destruct (str_cmp crt_memcmp s t) as [c|]; [|done]. cbn [result_bind] in *. by injection E as <-.
Qed.
End comparison.

(** ** What strings promise *)

(** C40: Indexing a text answers its code points: [s[i]] is the [i]th, negative
    [i] counts from the end, and exactly the indices outside give [IndexError];
    [len] is their number; truncation keeps the first ones; [ord] inverts the
    one-character strings; and whatever the C library's [memcmp] returns beyond
    its sign, comparison is the lexicographic order of the code points. *)
Theorem str_is_sequence crt_memcmp s t a b i n :
  (forall u v, length u = length v -> Z.sgn (crt_memcmp u v) = lex u v) -> str_ok s a -> str_ok t b ->
  char_count s = length a /\
  (let j := if i <? 0 then i + Z.of_nat (length a) else i in
   if decide (0 <= j < Z.of_nat (length a))
   then exists c r, a !! Z.to_nat j = Some c /\ str_getitem_isize s i = Ok (Ok r) /\ str_ok r [c] /\ ord r = Ok c
   else str_getitem_isize s i = Ok (Err mkIndexError)) /\
  (exists r, truncate_codepoints s n = Ok r /\ str_ok r (take n a)) /\
  str_eq crt_memcmp s t = Ok (bool_decide (a = b)) /\ str_lt crt_memcmp s t = Ok (lex a b =? -1).
Proof.
  intros Hm Hs Ht. split_and!.
  - apply Hs.
  - intros j. unfold str_getitem_isize. rewrite (str_count _ _ Hs), resolve_index_spec. unfold j.
    assert (Hget : forall k, (k < length a)%nat -> exists c r, a !! k = Some c /\ str_getitem s k = Ok (Ok r) /\ str_ok r [c] /\ ord r = Ok c).
    { intros k Hk. destruct (lookup_lt_is_Some_2 a k Hk) as [c Hc]. destruct (str_getitem_ok s a k c Hs Hc) as (r & E & Hr).
      exists c, r. split_and!; [done|done|done|]. apply (ord_ok r [c] Hr). }
    destruct (Z.ltb_spec i 0).
    + rewrite (decide_False (P := 0 <= i < _)) by lia. destruct (decide (- Z.of_nat (length a) <= i < 0)).
      * rewrite decide_True by lia. apply Hget. lia.
      * by rewrite decide_False by lia.
    + destruct (decide (0 <= i < Z.of_nat (length a))); [apply Hget; lia|]. by rewrite decide_False by lia.
  - by apply truncate_codepoints_ok.
  - by apply str_eq_ok.
  - unfold str_lt, str_compares. destruct (str_cmp_ok crt_memcmp Hm s t a b Hs Ht) as (r & -> & Hr). cbn [result_bind]. f_equal.
    rewrite <- Hr. destruct (Z.ltb_spec r 0), (Z.eqb_spec (Z.sgn r) (-1)); done || lia.
Qed.

Lemma str_is_sequence_witness : exists s sep : Str, str_ok s sample_text /\ str_ok sep [44] /\
  exists c r, str_getitem_isize s (-2) = Ok (Ok r) /\ str_ok r [c] /\ sample_text !! 2%nat = Some c.
Proof.
  destruct sample_str as (s & sep & new & _ & _ & _ & Hs & Hsep & _). exists s, sep. split; [exact Hs|]. split; [exact Hsep|].
  assert (Hm : forall u v, length u = length v -> Z.sgn (lex u v) = lex u v) by (intros; apply lex_sgn).
  destruct (str_is_sequence lex s sep sample_text [44] (-2) 1 Hm Hs Hsep) as (_ & Hget & _).
  cbn in Hget. destruct Hget as (c & r & Hc & E & Hr & _). exists c, r. split; [exact E|]. split; [exact Hr|exact Hc].
Defined.

(** [chr] of a 32-bit number returns the string of that code point for every
    Unicode scalar value, panics for surrogates and for numbers up to 2^22 past
    the last code point, and silently returns another character where the lowest
    22 bits are a code point above U+FFFF; [ord] inverts it on scalar values. *)
Theorem chr_exact cp : 0 <= cp < 2 ^ 32 ->
  (if chr_accepts cp then exists s, chr cp = Ok s /\ str_ok s [chr_value cp] /\ ord s = Ok (chr_value cp)
   else chr cp = Err (Panic "chr(): not a valid Unicode code point")) /\
  (scalar_value cp = true -> chr_accepts cp = true /\ chr_value cp = cp) /\
  (cp < 2 ^ 22 -> chr_accepts cp = scalar_value cp).
Proof.
  intros Hcp. split_and!.
  - pose proof (chr_ok cp Hcp) as H. destruct (chr_accepts cp); [|done]. destruct H as (s & E & Hs). exists s.
    split_and!; [done|done|]. apply (ord_ok s [chr_value cp] Hs).
  - intros Hs. unfold chr_accepts, chr_value. pose proof Hs as Hs'. rewrite scalar_spec in Hs'.
    destruct (Z.ltb_spec cp 65536); [by rewrite Hs|]. rewrite Z.mod_small, Hs, (proj2 (Z.leb_le _ _)) by lia. done.
  - intros Hlt. unfold chr_accepts, chr_value. destruct (Z.ltb_spec cp 65536) as [H|H]; [by rewrite andb_true_r|].
    rewrite Z.mod_small, (proj2 (Z.leb_le _ _)), andb_true_r by lia. done.
Qed.

Lemma chr_exact_witness : exists s, chr 128512 = Ok s /\ str_ok s [128512] /\ ord s = Ok 128512.
Proof. destruct (chr_exact 128512 ltac:(lia)) as [H _]. exact H. Defined.
