(* ===== verification/IntText.v ===== *)
(** * Integers as text and at fixed widths ([lib/builtins/__int.py])

    [from_str] and [__str__], the digits of an [int] in another base, and the
    checked and saturating conversions to the fixed-width types.  Conversions
    first compare the magnitude with a bound spelt in decimal, then accumulate
    the digits in the wide type under [panic_arithmetic]. *)

From Stdlib Require Import Ascii String.
From S2P Require Import Prelude RawList Bits Buffers IntDigits IntArith Utf8 StrOps StrIndex.

Local Open Scope Z_scope.
Local Open Scope monad_scope.

(** ** Parsing and printing *)

(** A string constant of ASCII characters. *)
Definition ascii_codes (s : string) : list Z := map (fun c => Z.of_nat (nat_of_ascii c)) (list_ascii_of_string s).

Definition constant (s : string) : Str :=
  let l := ascii_codes s in mkStr (l ++ [0]) (S (length l)) (length l) [Some O].

Definition ascii_minus : Z := 45.
Definition ascii_zero : Z := 48.
Definition ascii_nine : Z := 57.

(** [while pos < length - 1 and cstr[pos] == _ASCII_ZERO: pos += 1] *)
Fixpoint skip_zeros (fuel : nat) (cstr : list Z) (length pos : nat) : result abort nat :=
  if (pos <? length - 1)%nat then
    match fuel with
    | O => Err Fault
    | S fuel =>
        let? c := read_ptr cstr pos in
        if c =? ascii_zero then skip_zeros fuel cstr length (pos + 1) else Ok pos
    end
  else Ok pos.

(** The digits from the last character on, [n] of them still to read. *)
Fixpoint read_digits (n : nat) (cstr : list Z) (length i : nat) (digits : Buffer) : result abort (result IntError Buffer) :=
  match n with
  | O => Ok (Ok digits)
  | S n =>
      let? at_ := panic_sub "walking a string of known length" (length - 1) i in
      let? ch := read_ptr cstr at_ in
      if (ch <? ascii_zero) || (ascii_nine <? ch) then Ok (Err InvalidDigit)
      else
        let? d := panic_u8 "walking a string of known length" (ch - ascii_zero) in
        let? digits := write_u8 i d digits in
        read_digits n cstr length (i + 1) digits
  end.

(** What follows the sign. *)
Definition from_digits (negative : bool) (cstr : list Z) (length start : nat) : R IntError Int :=
  let? pos := skip_zeros length cstr length start in
  let? num_digits := panic_sub "a leading sign character is at most one byte within the string's own length" length pos in
  if (num_digits =? 0)%nat then Ok (Err InvalidDigit)
  else
    let?! digits := read_digits num_digits cstr length 0 (alloc_u8 num_digits) in
    let result := mkInt digits num_digits num_digits false in
    let? neg := nonzero_and negative result in
    Ok (Ok (set_negative neg result)).

Definition from_str (s : Str) : R IntError Int :=
  let cstr := s_data s in
  let length := byte_len s in
  if (length =? 0)%nat then Ok (Err InvalidDigit)
  else
    let? first := read_ptr cstr 0 in
    let negative := first =? ascii_minus in
    from_digits negative cstr length (if negative then 1 else 0).

Definition put_digit (self : Int) (s : Buffer * nat) (i : nat) : result abort (Buffer * nat) :=
  let '(buf, pos) := s in
  let? d := read_u8 (digits self) i in
  let? c := panic_u8 "pos stays within the buffer sized above" (d + ascii_zero) in
  let? buf := write_u8 pos c buf in
  Ok (buf, (pos + 1)%nat).

Definition __str__ (self : Int) : result abort Str :=
  let size := (num_digits self + 1 + (if is_negative self then 1 else 0))%nat in
  let? (buf, pos) :=
    if is_negative self then let? buf := write_u8 0 ascii_minus (alloc_u8 size) in Ok (buf, 1%nat)
    else Ok (alloc_u8 size, O) in
  let? (buf, pos) := for_down (num_digits self) (put_digit self) (buf, pos) in
  let? buf := write_u8 pos 0 buf in
  owned_str "int.__str__: internal buffer was not valid UTF-8" buf size.

(** The magnitude without the sign. *)
Definition decimal_digits (self : Int) : result abort Str :=
  let? text := __str__ self in
  if is_negative self then byte_slice text 1 (byte_len text) else Ok text.

(** ** Conversions to fixed widths *)

Inductive ConvError := OverflowError.

Definition i64_min_magnitude : Str := constant "9223372036854775808".
Definition i64_max_text : Str := constant "9223372036854775807".
Definition u64_max_text : Str := constant "18446744073709551615".
Definition i128_min_magnitude : Str := constant "170141183460469231731687303715884105728".
Definition i128_max_text : Str := constant "170141183460469231731687303715884105727".
Definition u128_max_text : Str := constant "340282366920938463463374607431768211455".

Definition magnitude_exceeds (limit_str : Str) (self : Int) : result abort bool :=
  let? r := from_str limit_str in
  let? limit := unwrap "internal magnitude literal is always well-formed" r in
  let? c := compare_magnitude self limit in
  Ok (0 <? c).

(** [value = value * 10 + T( self.__digits[i] )] down the digits, in a type of the range [lo, hi]. *)
Definition accumulate (lo hi : Z) (self : Int) : result abort Z :=
  let msg := "magnitude already bounded by the check above"%string in
  for_down (num_digits self) (fun value i =>
    let? d := read_u8 (digits self) i in
    let? t := in_panic lo hi msg (value * 10) in
    in_panic lo hi msg (t + d)) 0.

Definition to_signed (lo hi : Z) (min_magnitude max_text : Str) (self : Int) : R ConvError Z :=
  let limit_str := if is_negative self then min_magnitude else max_text in
  let? over := magnitude_exceeds limit_str self in
  if over : bool then Ok (Err OverflowError)
  else
    let? value := accumulate lo hi self in
    if is_negative self
    then let? v := in_panic lo hi "magnitude already bounded by the check above" (- value) in Ok (Ok v)
    else Ok (Ok value).

Definition to_unsigned (hi : Z) (max_text : Str) (self : Int) : R ConvError Z :=
  let? z := is_zero self in
  if is_negative self && negb z then Ok (Err OverflowError)
  else
    let? over := magnitude_exceeds max_text self in
    if over : bool then Ok (Err OverflowError)
    else let? value := accumulate 0 hi self in Ok (Ok value).

Definition to_i64 := to_signed (- 2 ^ 63) (2 ^ 63 - 1) i64_min_magnitude i64_max_text.
Definition to_u64 := to_unsigned (2 ^ 64 - 1) u64_max_text.
Definition to_i128 := to_signed (- 2 ^ 127) (2 ^ 127 - 1) i128_min_magnitude i128_max_text.
Definition to_u128 := to_unsigned (2 ^ 128 - 1) u128_max_text.

(** A type of [bits] bits narrower than 64, reached through [_to_i64]. *)
Definition wrap_to (signed : bool) (bits : Z) (z : Z) : Z :=
  if signed then (z + 2 ^ (bits - 1)) mod 2 ^ bits - 2 ^ (bits - 1) else z mod 2 ^ bits.

Definition type_min (signed : bool) (bits : Z) : Z := if signed then - 2 ^ (bits - 1) else 0.
Definition type_max (signed : bool) (bits : Z) : Z := if signed then 2 ^ (bits - 1) - 1 else 2 ^ bits - 1.

Definition to_narrow (signed : bool) (bits : Z) (self : Int) : R ConvError Z :=
  let?! wide := to_i64 self in
  if (wide <? type_min signed bits) || (type_max signed bits <? wide) then Ok (Err OverflowError)
  else Ok (Ok (wrap_to signed bits wide)).

Definition to_i8 := to_narrow true 8.
Definition to_i16 := to_narrow true 16.
Definition to_i32 := to_narrow true 32.
Definition to_u8 := to_narrow false 8.
Definition to_u16 := to_narrow false 16.
Definition to_u32 := to_narrow false 32.

Definition saturate_i64_range (min_val max_val : Z) (self : Int) : result abort Z :=
  let? wide := to_i64 self in
  match wide with
  | Err _ => Ok (if negb (is_negative self) then max_val else min_val)
  | Ok v => Ok (if v <? min_val then min_val else if max_val <? v then max_val else v)
  end.

Definition saturate_u64_range (max_val : Z) (self : Int) : result abort Z :=
  let? z := is_zero self in
  if is_negative self && negb z then Ok 0
  else
    let? wide := to_u64 self in
    match wide with
    | Err _ => Ok max_val
    | Ok v => Ok (if max_val <? v then max_val else v)
    end.

Definition saturate_narrow (signed : bool) (bits : Z) (self : Int) : result abort Z :=
  let? v := saturate_i64_range (type_min signed bits) (type_max signed bits) self in
  Ok (wrap_to signed bits v).

Definition saturated_i8 := saturate_narrow true 8.
Definition saturated_i16 := saturate_narrow true 16.
Definition saturated_i32 := saturate_narrow true 32.
Definition saturated_i64 := saturate_i64_range (- 2 ^ 63) (2 ^ 63 - 1).
Definition saturated_u8 := saturate_narrow false 8.
Definition saturated_u16 := saturate_narrow false 16.
Definition saturated_u32 := saturate_narrow false 32.
Definition saturated_u64 := saturate_u64_range (2 ^ 64 - 1).

Definition saturated_i128 (self : Int) : result abort Z :=
  let? below := if is_negative self then magnitude_exceeds i128_min_magnitude self else Ok false in
  if below : bool then Ok (- 2 ^ 127)
  else
    let? above := if is_negative self then Ok false else magnitude_exceeds i128_max_text self in
    if above : bool then Ok (2 ^ 127 - 1)
    else let? r := to_i128 self in unwrap "just range-checked above" r.

Definition saturated_u128 (self : Int) : result abort Z :=
  let? z := is_zero self in
  if is_negative self && negb z then Ok 0
  else
    let? above := magnitude_exceeds u128_max_text self in
    if above : bool then Ok (2 ^ 128 - 1)
    else let? r := to_u128 self in unwrap "just range-checked above" r.

(** [T( x )] in the checked modes *)
Definition __i8__ := to_i8.
Definition __i16__ := to_i16.
Definition __i32__ := to_i32.
Definition __i64__ := to_i64.
Definition __i128__ := to_i128.
Definition __u8__ := to_u8.
Definition __u16__ := to_u16.
Definition __u32__ := to_u32.
Definition __u64__ := to_u64.
Definition __u128__ := to_u128.

(** The sign a format specification of the given sign mode shows. *)
Definition sign_prefix (crt_memcmp : list Z -> list Z -> Z) (self : Int) (mode : Str) : result abort Str :=
  if is_negative self then Ok (constant "-")
  else
    let? plus := str_eq crt_memcmp mode (constant "+") in
    if plus : bool then Ok (constant "+")
    else let? space := str_eq crt_memcmp mode (constant " ") in Ok (constant (if space : bool then " " else "")).

(** ** Other bases *)

Definition hex_digits (uppercase : bool) : Str :=
  if uppercase then constant "0123456789ABCDEF" else constant "0123456789abcdef".

(** [while not magnitude.is_zero()]: the digits, least significant first. *)
Fixpoint radix_digits (fuel : nat) (radix : Int) (digit_chars : Str) (magnitude : Int) (acc : list Str) : result abort (list Str) :=
  let? z := is_zero magnitude in
  if z : bool then Ok acc
  else
    match fuel with
    | O => Err Fault
    | S fuel =>
        let? r := divmod magnitude radix in
        let? (quotient, remainder) := unwrap "_to_radix_digits: divmod failed" r in
        let? r := to_i32 remainder in
        let? digit_value := unwrap "_to_radix_digits: remainder out of i32 range" r in
        let? digit_index := usize_of_i32 digit_value in
        let? c := byte_slice digit_chars digit_index (digit_index + 1) in
        radix_digits fuel radix digit_chars quotient (acc ++ [c])
    end.

(** A decimal digit is less than four digits of any base. *)
Definition radix_fuel (self : Int) : nat := (4 * num_digits self)%nat.

Definition to_radix_digits (self : Int) (base : Z) (uppercase : bool) : result abort Str :=
  let? z := is_zero self in
  if z : bool then Ok (constant "0")
  else
    let? magnitude := clone self in
    let magnitude := set_negative false magnitude in
    let? radix := int_of_i32 base in
    let? digits := radix_digits (radix_fuel self) radix (hex_digits uppercase) magnitude [] in
    join_text empty_str (rev digits).

(** ** Grouping *)

(** [while end > 3]: the groups of three, from the right. *)
Fixpoint cut_groups (fuel : nat) (text : Str) (stop : nat) (groups : list Str) : result abort (nat * list Str) :=
  if (3 <? stop)%nat then
    match fuel with
    | O => Err Fault
    | S fuel =>
        let start := (stop - 3)%nat in
        let? g := byte_slice text start stop in
        cut_groups fuel text start (groups ++ [g])
    end
  else Ok (stop, groups).

Definition decimal_digits_with_grouping (self : Int) (sep : Str) : result abort Str :=
  let? text := decimal_digits self in
  let count := byte_len text in
  if (count <=? 3)%nat then Ok text
  else
    let? (stop, groups) := cut_groups count text count [] in
    let? g := byte_slice text 0 stop in
    join_text sep (rev (groups ++ [g])).

Definition ascii_of_str (s : Str) : string := string_of_list_ascii (map (fun c => ascii_of_nat (Z.to_nat c)) (take (byte_len s) (s_data s))).

Example parse_print :
  (let? r := from_str (constant "-00120") in let? x := unwrap "" r in let? s := __str__ x in Ok (ascii_of_str s)) = Ok "-120"%string.
Proof. vm_compute. reflexivity. Qed.

Example radix_sample :
  (let? r := from_str (constant "-48879") in let? x := unwrap "" r in let? s := to_radix_digits x 16 false in Ok (ascii_of_str s)) = Ok "beef"%string.
Proof. vm_compute. reflexivity. Qed.

Example grouping_sample :
  (let? r := from_str (constant "-1234567") in let? x := unwrap "" r in
   let? s := decimal_digits_with_grouping x (constant ",") in Ok (ascii_of_str s)) = Ok "1,234,567"%string.
Proof. vm_compute. reflexivity. Qed.


(** ** What a numeral means *)

Definition digit_char (c : Z) : bool := (ascii_zero <=? c) && (c <=? ascii_nine).

Definition numeral (l : list Z) : option Z :=
  match l with
  | [] => None
  | _ => if forallb digit_char l then Some (val (rev (map (fun c => c - ascii_zero) l))) else None
  end.

(** An optional minus sign and digits, leading zeros allowed. *)
Definition decimal (l : list Z) : option Z :=
  match l with
  | c :: l' => if c =? ascii_minus then option_map Z.opp (numeral l') else numeral l
  | [] => None
  end.

Definition ascii (l : list Z) : Prop := Forall (fun c => 0 <= c < 128) l.

Lemma utf8_ascii l : ascii l -> utf8 l = l.
Proof.
  induction 1 as [|c l Hc _ IH]; [done|]. rewrite utf8_cons, IH. unfold utf8_char. by rewrite (proj2 (Z.ltb_lt _ _)) by lia.
Qed.

Lemma text_ascii l : ascii l -> text l.
Proof. intros Hl. eapply Forall_impl; [exact Hl|]. intros c Hc. apply scalar_spec. cbv beta in Hc. lia. Qed.

Lemma forallb_digit l : forallb digit_char l = true <-> Forall (fun c => ascii_zero <= c <= ascii_nine) l.
Proof.
  rewrite forallb_forall, Forall_forall. unfold digit_char.
  split; intros H x Hx; specialize (H x); rewrite <- list_elem_of_In in *; specialize (H Hx); rewrite andb_true_iff, !Z.leb_le in *; lia.
Qed.

Lemma numeral_bad l x : x ∈ l -> 128 <= x -> numeral l = None.
Proof.
  intros Hx Hb. unfold numeral. destruct l as [|c l]; [done|]. destruct (forallb digit_char (c :: l)) eqn:E; [|done].
  apply forallb_digit in E. rewrite Forall_forall in E. specialize (E x Hx). unfold ascii_nine in E. lia.
Qed.

Lemma decimal_bad l x : x ∈ l -> 128 <= x -> decimal l = None.
Proof.
  intros Hx Hb. unfold decimal. destruct l as [|c l]; [done|]. destruct (Z.eqb_spec c ascii_minus) as [->|]; [|by eapply numeral_bad].
  apply elem_of_cons in Hx as [->|Hx]; [unfold ascii_minus in *; lia|]. by rewrite (numeral_bad l x).
Qed.

(** A text and its bytes read as the same number. *)
Lemma decimal_utf8 cps : text cps -> decimal (utf8 cps) = decimal cps.
Proof.
  intros Ht. destruct (decide (ascii cps)) as [Ha|Hn]; [by rewrite utf8_ascii|].
  assert (Hx : exists c, c ∈ cps /\ 128 <= c).
  { unfold ascii in Hn. apply not_Forall_Exists in Hn; [|solve_decision]. apply Exists_exists in Hn as (c & Hc & Hb).
    exists c. split; [done|]. pose proof (proj1 (Forall_forall _ _) Ht c Hc) as Hs. apply scalar_spec in Hs. assert (~ (0 <= c < 128)) by exact Hb. lia. }
  destruct Hx as (c & Hc & Hb). rewrite (decimal_bad cps c) by done.
  assert (Hs : scalar_value c = true) by (by apply (proj1 (Forall_forall _ _) Ht)).
  destruct (utf8_char c) as [|x r] eqn:E.
  { apply char_sequence, sequence_length in Hs. rewrite E in Hs. simpl in Hs. lia. }
  apply (decimal_bad _ x).
  - unfold utf8. rewrite list_elem_of_In, in_concat. exists (utf8_char c). rewrite <- !list_elem_of_In. split; [|rewrite E; left].
    apply list_elem_of_fmap. by exists c.
  - apply scalar_spec in Hs. unfold utf8_char in E. destruct (Z.ltb_spec c 128); [lia|].
    destruct (Z.ltb_spec c 2048); [|destruct (Z.ltb_spec c 65536)]; injection E as <- _; divmod.
Qed.

(** *** Constants *)

Lemma constant_ok s : ascii (ascii_codes s) -> (length (ascii_codes s) < 256)%nat -> str_ok (constant s) (ascii_codes s).
Proof.
  intros Ha Hl. unfold constant. set (l := ascii_codes s) in *.
  split; cbn [s_data byte_size char_count char_index]; rewrite ?utf8_ascii by done; try done; [by apply text_ascii|].
  intros g Hg. assert (g = O) as -> by lia. done.
Qed.

(** ** [from_str] *)

Lemma read_ptr_at l tl i x : l !! i = Some x -> read_ptr (l ++ tl) i = Ok x.
Proof. intros Hx. unfold read_ptr. by rewrite (lookup_app_l_Some _ _ _ _ Hx). Qed.

Lemma skip_zeros_ok b tl : forall fuel pos, (pos <= length b)%nat -> (length b - pos <= fuel)%nat ->
  exists k, skip_zeros fuel (b ++ tl) (length b) pos = Ok (pos + k)%nat /\ take k (drop pos b) = replicate k ascii_zero /\
    (k = O \/ (pos + k < length b)%nat) /\ ((pos + k < length b - 1)%nat -> b !! (pos + k)%nat <> Some ascii_zero).
Proof.
  assert (Hstop : forall pos, (length b - 1 <= pos)%nat -> exists k, Ok (E := abort) pos = Ok (pos + k)%nat /\ take k (drop pos b) = replicate k ascii_zero /\
    (k = O \/ (pos + k < length b)%nat) /\ ((pos + k < length b - 1)%nat -> b !! (pos + k)%nat <> Some ascii_zero)).
  { intros pos Hp. exists O. split_and!; [f_equal; lia|done|by left|lia]. }
  induction fuel as [|fuel IH]; intros pos Hp Hf; cbn [skip_zeros]; destruct (Nat.ltb_spec pos (length b - 1)) as [Hl|Hl];
    [lia|by apply Hstop| |by apply Hstop].
  destruct (lookup_lt_is_Some_2 b pos) as [c Hc]; [lia|]. rewrite (read_ptr_at b tl pos c Hc). cbn [result_bind].
  destruct (Z.eqb_spec c ascii_zero) as [->|Hne].
  - destruct (IH (pos + 1)%nat) as (k & -> & Ht & Hk & Hs); [lia|lia|]. exists (S k).
    replace (pos + S k)%nat with (pos + 1 + k)%nat by lia. split_and!; [done| |right; lia|done].
    rewrite (drop_S b _ pos Hc). cbn [take replicate]. f_equal. by rewrite <- Nat.add_1_r.
  - exists O. rewrite Nat.add_0_r. split_and!; [done|done|by left|]. intros _ E. congruence.
Qed.

(** The digits behind position [p], of which those behind [p + n] have been read. *)
Lemma read_digits_ok b tl p n : forall d, (p + n <= length b)%nat ->
  starts d (rev (map (fun c => c - ascii_zero) (drop (p + n) b))) -> length d = length (drop p b) ->
  match read_digits n (b ++ tl) (length b) (length (drop (p + n) b)) d with
  | Ok (Ok d') => forallb digit_char (take n (drop p b)) = true /\ starts d' (rev (map (fun c => c - ascii_zero) (drop p b))) /\ length d' = length d
  | Ok (Err e) => forallb digit_char (take n (drop p b)) = false /\ e = InvalidDigit
  | Err _ => False
  end.
Proof.
  induction n as [|n IH]; intros d Hp Hs Hd; cbn [read_digits].
  { rewrite Nat.add_0_r in Hs. by rewrite take_0. }
  rewrite length_drop, panic_sub_ok by lia. cbn [result_bind].
  replace (length b - 1 - (length b - (p + S n)))%nat with (p + n)%nat by lia.
  destruct (lookup_lt_is_Some_2 b (p + n)%nat) as [c Hc]; [lia|]. rewrite (read_ptr_at _ _ _ _ Hc). cbn [result_bind].
  rewrite (take_S_r _ n c) by (by rewrite lookup_drop). rewrite forallb_app. cbn [forallb]. rewrite andb_true_r.
  assert (Hdig : digit_char c = negb ((c <? ascii_zero) || (ascii_nine <? c))).
  { unfold digit_char. destruct (Z.leb_spec ascii_zero c), (Z.ltb_spec c ascii_zero), (Z.leb_spec c ascii_nine), (Z.ltb_spec ascii_nine c); try done; lia. }
  destruct ((c <? ascii_zero) || (ascii_nine <? c)) eqn:Hbad; [by rewrite Hdig, andb_false_r|]. rewrite Hdig. cbn [negb]. rewrite andb_true_r.
  apply orb_false_elim in Hbad as [H1%Z.ltb_ge H2%Z.ltb_ge]. unfold ascii_zero, ascii_nine in H1, H2.
  rewrite in_u8 by (unfold ascii_zero; lia). cbn [result_bind].
  destruct (starts_push d _ (c - ascii_zero) Hs) as (d' & E & Hd' & Hs').
  { rewrite length_rev, length_map, Hd, !length_drop. lia. }
  rewrite length_rev, length_map, length_drop in E. rewrite E. cbn [result_bind].
  replace (length b - (p + S n) + 1)%nat with (length (drop (p + n) b)) by (rewrite length_drop; lia).
  specialize (IH d'). rewrite Hd' in IH. apply IH; [lia| |done].
  rewrite (drop_S b c (p + n)) by done. cbn [map rev]. by rewrite <- Nat.add_succ_r.
Qed.

Lemma canonical_snoc l d : Forall digit l -> 0 < d < 10 -> canonical (l ++ [d]).
Proof.
  intros Hl Hd. split; [by destruct l|]. split; [apply Forall_app; split; [done|]; constructor; [unfold digit; lia|constructor]|]. right.
  rewrite length_app, val_app. cbn [length val]. rewrite Nat.add_sub. pose proof (val_bound l Hl). pose proof (pow10_pos (length l)). nia.
Qed.

(** The digits of a numeral without leading zeros. *)
Lemma numeral_canonical ds : ds <> [] -> forallb digit_char ds = true -> (1 < length ds -> head ds <> Some ascii_zero)%nat ->
  canonical (rev (map (fun c => c - ascii_zero) ds)).
Proof.
  intros Hne Hd%forallb_digit Hz. destruct ds as [|c ds]; [done|]. cbn [map rev]. apply Forall_cons in Hd as [Hc Hd].
  assert (Hds : Forall digit (rev (map (fun c => c - ascii_zero) ds))).
  { apply Forall_rev, Forall_map. eapply Forall_impl; [exact Hd|]. intros x Hx. unfold digit, ascii_zero, ascii_nine in *. cbv beta in *. lia. }
  destruct ds as [|c' ds]; [apply canonical_single; unfold digit, ascii_zero, ascii_nine in *; lia|].
  apply canonical_snoc; [done|]. assert (c <> ascii_zero) by (intros ->; apply Hz; [simpl; lia|done]). unfold ascii_zero, ascii_nine in *. lia.
Qed.

Lemma numeral_skip k ds b : b = replicate k ascii_zero ++ ds -> ds <> [] -> numeral b = numeral ds.
Proof.
  intros -> Hne. assert (Hn : forall l, l <> [] -> numeral l = if forallb digit_char l then Some (val (rev (map (fun c => c - ascii_zero) l))) else None).
  { by intros []. }
  rewrite !Hn by (try done; destruct k; done). rewrite forallb_app.
  assert (forallb digit_char (replicate k ascii_zero) = true) as ->.
  { apply forallb_digit, Forall_replicate. unfold ascii_zero, ascii_nine. lia. }
  cbn [andb]. destruct (forallb digit_char ds); [|done]. f_equal. rewrite map_app, rev_app_distr, val_app.
  assert (rev (map (fun c => c - ascii_zero) (replicate k ascii_zero)) = replicate k 0) as ->; [|rewrite val_replicate; lia].
  clear. induction k as [|k IH]; [done|]. cbn [replicate map rev]. rewrite IH. by rewrite <- replicate_S_end.
Qed.

Lemma from_digits_ok b tl start neg : (start <= length b)%nat ->
  match numeral (drop start b) with
  | Some v => exists x, from_digits neg (b ++ tl) (length b) start = Ok (Ok x) /\ denotes x (if neg : bool then - v else v)
  | None => from_digits neg (b ++ tl) (length b) start = Ok (Err InvalidDigit)
  end.
Proof.
  intros Hst. unfold from_digits. destruct (skip_zeros_ok b tl (length b) start Hst ltac:(lia)) as (k & -> & Ht & Hk & Hz). cbn [result_bind].
  assert (Hb : drop start b = replicate k ascii_zero ++ drop (start + k) b) by (by rewrite <- Ht, <- drop_drop, take_drop).
  rewrite panic_sub_ok by lia. cbn [result_bind]. set (n := (length b - (start + k))%nat).
  destruct (Nat.eqb_spec n 0) as [Hn|Hn].
  { assert (drop start b = []) as ->; [|done]. rewrite Hb, drop_ge by lia. destruct Hk as [->|]; [done|lia]. }
  set (ds := drop (start + k) b) in *. assert (Hne : ds <> []) by (intros E; apply (f_equal length) in E; unfold ds in E; rewrite length_drop in E; simpl in E; lia).
  rewrite (numeral_skip k ds _ Hb Hne).
  pose proof (read_digits_ok b tl (start + k) n (alloc_u8 n) ltac:(lia)) as Hr.
  assert (Hend : drop (start + k + n) b = []) by (apply drop_ge; lia). rewrite Hend in Hr. cbn [map rev length] in Hr.
  specialize (Hr (starts_nil _) ltac:(unfold alloc_u8; rewrite length_replicate, length_drop; done)). fold ds in Hr.
  rewrite take_ge in Hr by (unfold ds; rewrite length_drop; lia).
  destruct (read_digits n _ _ 0 _) as [[d|e]|]; [| |done].
  - destruct Hr as (Hd & Hs & Hl). unfold numeral. destruct ds as [|c ds'] eqn:Eds; [done|]. rewrite <- Eds in Hd, Hs |- *. rewrite Hd. cbn [or_return_pure].
    set (l := rev (map (fun c => c - ascii_zero) ds)) in *.
    assert (Hc : canonical l).
    { apply numeral_canonical; [by rewrite Eds|done|]. intros Hlt. unfold ds in Hlt |- *. rewrite length_drop in Hlt. rewrite head_lookup, lookup_drop, Nat.add_0_r. apply Hz. lia. }
    assert (Hln : n = length l) by (unfold l; rewrite length_rev, length_map; unfold ds; by rewrite length_drop).
    assert (Hm : mag (mkInt d n n false) l).
    { split; cbn; [done|done|]. rewrite Hl. unfold alloc_u8. by rewrite length_replicate. }
    rewrite (nonzero_and_spec neg _ l Hm Hc). cbn [result_bind]. eexists. split; [done|].
    destruct (canonical_bounds l Hc) as (Hv & _). apply (denotes_intro _ l); [by apply mag_set_negative|done|destruct neg; lia|].
    cbn [is_negative set_negative]. destruct neg, (Z.eqb_spec (val l) 0); cbn; symmetry; try apply Z.ltb_ge; try apply Z.ltb_lt; lia.
  - destruct Hr as [Hd ->]. unfold numeral. destruct ds as [|c ds'] eqn:Eds; [done|]. by rewrite Hd.
Qed.

Lemma from_str_ok s cps : str_ok s cps ->
  match decimal cps with
  | Some z => exists x, from_str s = Ok (Ok x) /\ denotes x z
  | None => from_str s = Ok (Err InvalidDigit)
  end.
Proof.
  intros Hs. rewrite <- (decimal_utf8 cps (str_text _ _ Hs)). unfold from_str. rewrite (byte_len_ok _ _ Hs), (str_data _ _ Hs).
  set (b := utf8 cps). destruct b as [|c b'] eqn:Eb; [done|]. rewrite <- Eb.
  assert (Hr : read_ptr (b ++ [0]) 0 = Ok c) by (by rewrite Eb). rewrite Hr. cbn [result_bind].
  rewrite (proj2 (Nat.eqb_neq _ _)) by (by rewrite Eb).
  assert (decimal b = if c =? ascii_minus then option_map Z.opp (numeral (drop 1 b)) else numeral (drop 0 b)) as -> by (by rewrite Eb).
  destruct (c =? ascii_minus); cbn [andb].
  - pose proof (from_digits_ok b [0] 1 true ltac:(rewrite Eb; simpl; lia)) as H. by destruct (numeral (drop 1 b)).
  - pose proof (from_digits_ok b [0] 0 false ltac:(lia)) as H. by destruct (numeral (drop 0 b)).
Qed.

(** ** [__str__] *)

(** The shortest numeral of [z]. *)
Definition printed (z : Z) (l cps : list Z) : Prop :=
  canonical l /\ val l = Z.abs z /\ cps = (if z <? 0 then [ascii_minus] else []) ++ map (Z.add ascii_zero) (rev l).

Lemma digits_ascii l : Forall digit l -> ascii (map (Z.add ascii_zero) (rev l)).
Proof.
  intros Hl. apply Forall_map, Forall_rev. eapply Forall_impl; [exact Hl|]. intros x Hx. unfold digit, ascii_zero in *. lia.
Qed.

Lemma printed_ascii z l cps : printed z l cps -> ascii cps.
Proof.
  intros (Hc & _ & ->). apply Forall_app. split; [|by apply digits_ascii, canonical_digits].
  destruct (z <? 0); repeat constructor; unfold ascii_minus; lia.
Qed.

Lemma numeral_digits l : canonical l -> numeral (map (Z.add ascii_zero) (rev l)) = Some (val l).
Proof.
  intros Hc. pose proof (canonical_length l Hc) as Hn. pose proof (canonical_digits l Hc) as Hd. unfold numeral.
  destruct (map (Z.add ascii_zero) (rev l)) as [|c r] eqn:E; [apply (f_equal length) in E; rewrite length_map, length_rev in E; simpl in E; lia|].
  rewrite <- E. assert (forallb digit_char (map (Z.add ascii_zero) (rev l)) = true) as ->.
  { apply forallb_digit, Forall_map, Forall_rev. eapply Forall_impl; [exact Hd|]. intros x Hx. unfold digit, ascii_zero, ascii_nine in *. lia. }
  do 2 f_equal. rewrite map_map, (map_ext _ (fun x => x)) by (intros; lia). by rewrite map_id, rev_involutive.
Qed.

Lemma printed_decimal z l cps : printed z l cps -> decimal cps = Some z.
Proof.
  intros (Hc & Hv & ->). pose proof (numeral_digits l Hc) as Hn. destruct (Z.ltb_spec z 0); cbn [app].
  - unfold decimal. rewrite Z.eqb_refl, Hn. cbn [option_map]. f_equal. lia.
  - unfold decimal. destruct (map (Z.add ascii_zero) (rev l)) as [|c r] eqn:E; [done|].
    assert (digit_char c = true) as Hd.
    { unfold numeral in Hn. destruct (forallb digit_char (c :: r)) eqn:Hf; [|done]. cbn [forallb] in Hf. by apply andb_prop in Hf as []. }
    rewrite (proj2 (Z.eqb_neq _ _)); [rewrite Hn; f_equal; lia|]. intros ->. done.
Qed.

Lemma put_digits_ok x l pre d : mag x l -> Forall digit l -> starts d pre -> (length pre + length l <= length d)%nat ->
  exists d', for_down (num_digits x) (put_digit x) (d, length pre) = Ok (d', length pre + length l)%nat /\
    starts d' (pre ++ map (Z.add ascii_zero) (rev l)) /\ length d' = length d.
Proof.
  intros Hm Hd Hs Hl. rewrite (mag_count _ _ Hm).
  destruct (for_down_ok (fun i s => exists d', s = (d', length pre + (length l - i))%nat /\ length d' = length d /\
    starts d' (pre ++ map (Z.add ascii_zero) (rev (drop i l)))) (length l) (put_digit x)) with (s := (d, length pre)) as (s & E & d' & -> & Hl' & Hs').
  - intros i s Hi (d1 & -> & Hd1 & Hs1). destruct (lookup_lt_is_Some_2 l i Hi) as [y Hy]. unfold put_digit.
    rewrite (mag_at _ _ _ _ Hm Hy). cbn [result_bind]. pose proof (Forall_at _ _ _ _ Hd Hy) as Hdy. unfold digit in Hdy.
    rewrite in_u8 by (unfold ascii_zero; lia). cbn [result_bind].
    destruct (starts_push d1 _ (y + ascii_zero) Hs1) as (d2 & E & Hd2 & Hs2).
    { rewrite length_app, length_map, length_rev, length_drop. lia. }
    rewrite length_app, length_map, length_rev, length_drop in E. rewrite E. cbn [result_bind]. eexists. split; [done|]. exists d2. split_and!; [f_equal; lia|lia|].
    rewrite (drop_S l y i Hy), Nat.add_1_r in *. cbn [rev]. rewrite map_app, app_assoc. cbn [map]. by rewrite Z.add_comm.
  - exists d. rewrite Nat.sub_diag, Nat.add_0_r, drop_ge by lia. cbn [map rev]. by rewrite app_nil_r.
  - exists d'. rewrite E, Nat.sub_0_r. by rewrite drop_0 in Hs'.
Qed.

Lemma str_of_int_ok x z : denotes x z -> exists s l cps, __str__ x = Ok s /\ str_ok s cps /\ printed z l cps.
Proof.
  intros (l & Hm & Hc & Hv & Hn). set (cps := (if z <? 0 then [ascii_minus] else []) ++ map (Z.add ascii_zero) (rev l)).
  assert (Hp : printed z l cps) by done. pose proof (printed_ascii _ _ _ Hp) as Ha.
  assert (Hlen : length cps = (num_digits x + (if is_negative x then 1 else 0))%nat).
  { unfold cps. rewrite length_app, length_map, length_rev, (mag_count _ _ Hm), Hn. destruct (z <? 0); simpl; lia. }
  unfold __str__. replace (num_digits x + 1 + (if is_negative x then 1 else 0))%nat with (S (length cps)) by lia.
  set (pre := if z <? 0 then [ascii_minus] else []).
  assert (Hpre : exists d, (if is_negative x then let? buf := write_u8 0 ascii_minus (alloc_u8 (S (length cps))) in Ok (buf, 1%nat)
      else Ok (alloc_u8 (S (length cps)), O)) = Ok (d, length pre) /\ starts d pre /\ length d = S (length cps)).
  { unfold pre. rewrite Hn. destruct (z <? 0).
    - destruct (starts_push (alloc_u8 (S (length cps))) [] ascii_minus) as (d & E & Hd & Hs); [apply starts_nil|rewrite alloc_length; simpl; lia|].
      cbn [length app] in E, Hs. rewrite E, alloc_length in *. by exists d.
    - eexists. split; [done|]. split; [apply starts_nil|apply alloc_length]. }
  destruct Hpre as (d & -> & Hs & Hd). cbn [result_bind].
  destruct (put_digits_ok x l pre d Hm (canonical_digits _ Hc) Hs) as (d' & -> & Hs' & Hd').
  { rewrite Hd. unfold cps. rewrite length_app, length_map, length_rev. fold pre. lia. }
  cbn [result_bind]. replace (length pre + length l)%nat with (length cps) by (unfold cps; by rewrite length_app, length_map, length_rev).
  destruct (terminated_ok "int.__str__: internal buffer was not valid UTF-8" d' cps (length cps)) as (d2 & s & -> & E & Hok);
    [by rewrite utf8_ascii|by rewrite utf8_ascii|lia|by apply text_ascii|]. cbn [result_bind]. by exists s, l, cps.
Qed.

Lemma numeral_inv ds v : numeral ds = Some v -> exists l, length l = length ds /\ Forall digit l /\ val l = v /\ ds <> [].
Proof.
  unfold numeral. intros Hn. assert (Hne : ds <> []) by (by intros ->).
  destruct (forallb digit_char ds) eqn:Hf; [|by destruct ds]. exists (rev (map (fun c => c - ascii_zero) ds)).
  apply forallb_digit in Hf. split_and!; [by rewrite length_rev, length_map| |destruct ds; congruence|done].
  apply Forall_rev, Forall_map. eapply Forall_impl; [exact Hf|]. intros x Hx. unfold digit, ascii_zero, ascii_nine in *. cbv beta in *. lia.
Qed.

Lemma numeral_length ds v l : numeral ds = Some v -> canonical l -> val l = v -> (length l <= length ds)%nat.
Proof.
  intros (l' & Hl & Hd & <- & Hne)%numeral_inv Hc Hv. apply val_bound in Hd as Hb. destruct (canonical_bounds l Hc) as (_ & _ & Hlow).
  pose proof (canonical_length l Hc). destruct (decide (length l = 1%nat)) as [->|].
  - destruct ds; [done|simpl; lia].
  - specialize (Hlow ltac:(lia)). assert (Hlt : pow10 (length l - 1) < pow10 (length l')) by lia. apply pow10_lt in Hlt. lia.
Qed.

Lemma printed_shortest z l cps cps' : printed z l cps -> decimal cps' = Some z -> (length cps <= length cps')%nat.
Proof.
  intros (Hc & Hv & ->) Hd. rewrite length_app, length_map, length_rev. destruct cps' as [|c ds]; [done|]. unfold decimal in Hd.
  assert (Hnn : forall l v, numeral l = Some v -> 0 <= v) by (intros k v (l' & _ & Hl' & <- & _)%numeral_inv; by apply val_bound).
  destruct (c =? ascii_minus).
  - destruct (numeral ds) as [v|] eqn:Hn; [|done]. injection Hd as <-. pose proof (Hnn _ _ Hn).
    pose proof (numeral_length ds v l Hn Hc ltac:(lia)). destruct (- v <? 0); simpl; lia.
  - pose proof (Hnn _ _ Hd). rewrite (proj2 (Z.ltb_ge _ _)) by lia. apply (numeral_length _ _ _ Hd Hc). lia.
Qed.

(** ** Conversions *)

Lemma constant_value s z : ascii (ascii_codes s) -> (length (ascii_codes s) < 256)%nat -> decimal (ascii_codes s) = Some z ->
  exists x, from_str (constant s) = Ok (Ok x) /\ denotes x z.
Proof. intros Ha Hl Hz. pose proof (from_str_ok _ _ (constant_ok s Ha Hl)) as H. by rewrite Hz in H. Qed.

Definition limit_of (s : Str) (k : Z) : Prop := 0 <= k /\ exists x, from_str s = Ok (Ok x) /\ denotes x k.

Ltac limit := split; [lia|apply constant_value; [repeat constructor; vm_compute; (done || split; congruence)|vm_compute; lia|vm_compute; reflexivity]].

Lemma i64_min_limit : limit_of i64_min_magnitude (2 ^ 63).
Proof. limit. Qed.
Lemma i64_max_limit : limit_of i64_max_text (2 ^ 63 - 1).
Proof. limit. Qed.
Lemma u64_max_limit : limit_of u64_max_text (2 ^ 64 - 1).
Proof. limit. Qed.
Lemma i128_min_limit : limit_of i128_min_magnitude (2 ^ 127).
Proof. limit. Qed.
Lemma i128_max_limit : limit_of i128_max_text (2 ^ 127 - 1).
Proof. limit. Qed.
Lemma u128_max_limit : limit_of u128_max_text (2 ^ 128 - 1).
Proof. limit. Qed.

Lemma magnitude_exceeds_ok s k x z : limit_of s k -> denotes x z -> magnitude_exceeds s x = Ok (k <? Z.abs z).
Proof.
  intros (Hk & y & E & (l' & Hm' & Hc' & Hv' & _)) (l & Hm & Hc & Hv & _). unfold magnitude_exceeds. rewrite E. cbn [result_bind unwrap].
  rewrite (compare_magnitude_spec _ _ _ _ Hm Hm' Hc Hc'). cbn [result_bind]. f_equal. rewrite Hv, Hv'.
  destruct (Z.ltb_spec 0 (Z.sgn (Z.abs z - Z.abs k))), (Z.ltb_spec k (Z.abs z)); try done; lia.
Qed.

Definition conv_msg : string := "magnitude already bounded by the check above".

(** The accumulation succeeds exactly when the magnitude, signless, is in the range. *)
Lemma accumulate_ok lo hi x l : mag x l -> Forall digit l -> lo <= 0 <= hi ->
  accumulate lo hi x = if val l <=? hi then Ok (val l) else Err (Panic conv_msg).
Proof.
  intros Hm Hd Hb. unfold accumulate. rewrite (mag_count _ _ Hm).
  assert (Hgo : forall n, (n <= length l)%nat -> val (drop n l) <= hi ->
    for_down n (fun value i => let? d := read_u8 (digits x) i in let? t := in_panic lo hi conv_msg (value * 10) in in_panic lo hi conv_msg (t + d)) (val (drop n l)) =
    if val l <=? hi then Ok (val l) else Err (Panic conv_msg)).
  { induction n as [|n IH]; intros Hn Hv; cbn [for_down]; [rewrite drop_0 in *; by rewrite (proj2 (Z.leb_le _ _)) by done|].
    destruct (lookup_lt_is_Some_2 l n) as [d Hdn]; [lia|]. rewrite (mag_at _ _ _ _ Hm Hdn). cbn [result_bind].
    pose proof (Forall_at _ _ _ _ Hd Hdn) as Hdd. unfold digit in Hdd.
    assert (Hsplit : val (drop n l) = d + 10 * val (drop (S n) l)) by by rewrite (drop_S l d n Hdn).
    assert (Hpos : 0 <= val (drop (S n) l)) by (apply val_bound; by apply Forall_drop).
    assert (Hle : val (drop n l) <= val l).
    { rewrite <- (take_drop n l) at 2. rewrite val_app. pose proof (val_bound (take n l) ltac:(by apply Forall_take)). pose proof (pow10_pos (length (take n l))).
      assert (0 <= val (drop n l)) by (apply val_bound; by apply Forall_drop). nia. }
    destruct (Z.leb_spec (val (drop n l)) hi) as [Hin|Hout].
    - rewrite in_panic_ok by lia. cbn [result_bind]. rewrite in_panic_ok by lia. cbn [result_bind].
      replace (val (drop (S n) l) * 10 + d) with (val (drop n l)) by lia. apply IH; [lia|done].
    - rewrite (proj2 (Z.leb_gt (val l) hi)) by lia. unfold in_panic at 1. destruct ((lo <=? _) && _) eqn:E; [|done]. cbn [result_bind].
      apply andb_prop in E as [_ E%Z.leb_le]. unfold in_panic. rewrite (proj2 (Z.leb_gt (_ + d) hi)) by lia. by rewrite andb_false_r. }
  rewrite <- (Hgo (length l)); [by rewrite drop_ge by lia|lia|rewrite drop_ge by lia; simpl; lia].
Qed.

Lemma to_signed_ok hi smin smax x z : limit_of smin (hi + 1) -> limit_of smax hi -> denotes x z ->
  to_signed (- (hi + 1)) hi smin smax x =
  if z =? - (hi + 1) then Err (Panic conv_msg) else Ok (if (- (hi + 1) <=? z) && (z <=? hi) then Ok z else Err OverflowError).
Proof.
  intros Hmin Hmax Hx. pose proof (proj1 Hmax) as Hhi. pose proof Hx as (l & Hm & Hc & Hv & Hn). unfold to_signed. rewrite Hn.
  rewrite (magnitude_exceeds_ok _ (if z <? 0 then hi + 1 else hi) x z) by (by try destruct (z <? 0)). cbn [result_bind].
  destruct (Z.ltb_spec (if z <? 0 then hi + 1 else hi) (Z.abs z)) as [Hover|Hin].
  - rewrite (proj2 (Z.eqb_neq _ _)) by (destruct (Z.ltb_spec z 0); lia). do 2 f_equal.
    assert ((- (hi + 1) <=? z) && (z <=? hi) = false) as ->; [|done].
    apply andb_false_iff. rewrite !Z.leb_gt. destruct (Z.ltb_spec z 0); lia.
  - rewrite (accumulate_ok _ _ x l Hm (canonical_digits _ Hc)), Hv by lia. destruct (Z.eqb_spec z (- (hi + 1))) as [->|Hz].
    { by rewrite (proj2 (Z.leb_gt _ _)) by lia. }
    rewrite (proj2 (Z.leb_le (Z.abs z) hi)) by (destruct (Z.ltb_spec z 0); lia). cbn [result_bind].
    rewrite !(proj2 (Z.leb_le _ _)) by (destruct (Z.ltb_spec z 0); lia). cbn [andb].
    destruct (Z.ltb_spec z 0); [rewrite in_panic_ok by lia; cbn [result_bind]|]; do 2 f_equal; lia.
Qed.

Lemma to_unsigned_ok hi smax x z : limit_of smax hi -> denotes x z ->
  to_unsigned hi smax x = Ok (if (0 <=? z) && (z <=? hi) then Ok z else Err OverflowError).
Proof.
  intros Hmax Hx. pose proof (proj1 Hmax) as Hhi. pose proof Hx as (l & Hm & Hc & Hv & Hn). unfold to_unsigned.
  rewrite (is_zero_spec x l Hm Hc), Hn, Hv. cbn [result_bind].
  destruct (Z.ltb_spec z 0); [rewrite (proj2 (Z.eqb_neq _ _)), (proj2 (Z.leb_gt 0 z)) by lia; done|]. cbn [andb].
  rewrite (magnitude_exceeds_ok _ hi x z) by done. cbn [result_bind]. rewrite (proj2 (Z.leb_le 0 z)) by lia. cbn [andb].
  destruct (Z.ltb_spec hi (Z.abs z)); [by rewrite (proj2 (Z.leb_gt _ _)) by lia|].
  rewrite (accumulate_ok _ _ x l Hm (canonical_digits _ Hc)), Hv by lia. rewrite !(proj2 (Z.leb_le _ _)) by lia. cbn [result_bind]. do 2 f_equal. lia.
Qed.

Lemma to_i64_ok x z : denotes x z -> to_i64 x =
  if z =? - 2 ^ 63 then Err (Panic conv_msg) else Ok (if (- 2 ^ 63 <=? z) && (z <=? 2 ^ 63 - 1) then Ok z else Err OverflowError).
Proof. apply (to_signed_ok (2 ^ 63 - 1)); [exact i64_min_limit|exact i64_max_limit]. Qed.

Lemma to_u64_ok x z : denotes x z -> to_u64 x = Ok (if (0 <=? z) && (z <=? 2 ^ 64 - 1) then Ok z else Err OverflowError).
Proof. apply to_unsigned_ok, u64_max_limit. Qed.

Lemma to_i128_ok x z : denotes x z -> to_i128 x =
  if z =? - 2 ^ 127 then Err (Panic conv_msg) else Ok (if (- 2 ^ 127 <=? z) && (z <=? 2 ^ 127 - 1) then Ok z else Err OverflowError).
Proof. apply (to_signed_ok (2 ^ 127 - 1)); [exact i128_min_limit|exact i128_max_limit]. Qed.

Lemma to_u128_ok x z : denotes x z -> to_u128 x = Ok (if (0 <=? z) && (z <=? 2 ^ 128 - 1) then Ok z else Err OverflowError).
Proof. apply to_unsigned_ok, u128_max_limit. Qed.

Definition in_type (signed : bool) (bits z : Z) : bool := (type_min signed bits <=? z) && (z <=? type_max signed bits).

Definition clamp_to (signed : bool) (bits z : Z) : Z :=
  if z <? type_min signed bits then type_min signed bits else if type_max signed bits <? z then type_max signed bits else z.

Lemma wrap_to_in signed bits z : 0 < bits -> in_type signed bits z = true -> wrap_to signed bits z = z.
Proof.
  intros Hb [Hlo%Z.leb_le Hhi%Z.leb_le]%andb_prop. unfold wrap_to, type_min, type_max in *.
  assert (H2 : 2 ^ bits = 2 * 2 ^ (bits - 1)) by (rewrite <- Z.pow_succ_r by lia; f_equal; lia).
  destruct signed; rewrite Z.mod_small; lia.
Qed.

(** A type whose range lies within that of [i64]. *)
Definition fits_i64 (signed : bool) (bits : Z) : Prop :=
  0 < bits /\ - 2 ^ 63 < type_min signed bits <= 0 /\ 0 <= type_max signed bits <= 2 ^ 63 - 1.

Lemma to_narrow_ok signed bits x z : fits_i64 signed bits -> denotes x z -> to_narrow signed bits x =
  if z =? - 2 ^ 63 then Err (Panic conv_msg) else Ok (if in_type signed bits z then Ok z else Err OverflowError).
Proof.
  intros (Hb & Hlo & Hhi) Hx. unfold to_narrow. rewrite (to_i64_ok x z Hx). destruct (Z.eqb_spec z (- 2 ^ 63)); [done|].
  destruct (in_type signed bits z) eqn:Hin.
  - pose proof Hin as [H1%Z.leb_le H2%Z.leb_le]%andb_prop. rewrite !(proj2 (Z.leb_le _ _)) by lia. cbn [andb or_return_pure].
    rewrite !(proj2 (Z.ltb_ge _ _)) by lia. cbn [orb]. by rewrite wrap_to_in.
  - unfold in_type in Hin. destruct ((- 2 ^ 63 <=? z) && _); cbn [or_return_pure]; [|done].
    rewrite Z.ltb_antisym, (Z.ltb_antisym z), <- negb_andb, Hin. done.
Qed.

Lemma saturate_i64_range_ok lo hi x z : - 2 ^ 63 <= lo <= 0 -> 0 <= hi <= 2 ^ 63 - 1 -> denotes x z -> saturate_i64_range lo hi x =
  if z =? - 2 ^ 63 then Err (Panic conv_msg) else Ok (if z <? lo then lo else if hi <? z then hi else z).
Proof.
  intros Hlo Hhi Hx. unfold saturate_i64_range. rewrite (to_i64_ok x z Hx). destruct (Z.eqb_spec z (- 2 ^ 63)); [done|]. cbn [result_bind].
  pose proof Hx as (l & _ & _ & _ & ->). destruct (Z.leb_spec (- 2 ^ 63) z), (Z.leb_spec z (2 ^ 63 - 1)); cbn [andb]; [done|..];
    f_equal; destruct (Z.ltb_spec z 0), (Z.ltb_spec z lo), (Z.ltb_spec hi z); cbn [negb]; try done; lia.
Qed.

Lemma clamp_in signed bits z : type_min signed bits <= type_max signed bits -> in_type signed bits (clamp_to signed bits z) = true.
Proof.
  intros Hb. unfold clamp_to, in_type. apply andb_true_intro. rewrite !Z.leb_le.
  destruct (Z.ltb_spec z (type_min signed bits)), (Z.ltb_spec (type_max signed bits) z); lia.
Qed.

Lemma saturate_narrow_ok signed bits x z : fits_i64 signed bits -> denotes x z -> saturate_narrow signed bits x =
  if z =? - 2 ^ 63 then Err (Panic conv_msg) else Ok (clamp_to signed bits z).
Proof.
  intros (Hb & Hlo & Hhi) Hx. unfold saturate_narrow. rewrite (saturate_i64_range_ok _ _ x z) by (done || lia).
  destruct (z =? - 2 ^ 63); [done|]. cbn [result_bind]. fold (clamp_to signed bits z). rewrite wrap_to_in; [done|done|]. apply clamp_in. lia.
Qed.

Lemma saturated_u64_ok x z : denotes x z -> saturated_u64 x = Ok (clamp_to false 64 z).
Proof.
  intros Hx. unfold saturated_u64, saturate_u64_range. pose proof Hx as (l & Hm & Hc & Hv & Hn).
  rewrite (is_zero_spec x l Hm Hc), Hn, Hv, (to_u64_ok x z Hx). cbn [result_bind].
  unfold clamp_to. change (type_min false 64) with 0. change (type_max false 64) with (2 ^ 64 - 1).
  destruct (Z.ltb_spec z 0), (Z.eqb_spec (Z.abs z) 0); cbn [negb andb]; try done; try lia;
    rewrite (proj2 (Z.leb_le 0 z)) by lia; cbn [andb]; destruct (Z.leb_spec z (2 ^ 64 - 1)); f_equal;
    destruct (Z.ltb_spec (2 ^ 64 - 1) z); try done; lia.
Qed.

Lemma saturated_i128_ok x z : denotes x z -> saturated_i128 x =
  if z =? - 2 ^ 127 then Err (Panic conv_msg) else Ok (clamp_to true 128 z).
Proof.
  intros Hx. unfold saturated_i128. rewrite (magnitude_exceeds_ok _ _ x z i128_min_limit Hx), (magnitude_exceeds_ok _ _ x z i128_max_limit Hx), (to_i128_ok x z Hx).
  pose proof Hx as (l & _ & _ & _ & ->). unfold clamp_to. change (type_min true 128) with (- 2 ^ 127). change (type_max true 128) with (2 ^ 127 - 1).
  destruct (Z.ltb_spec z 0); cbn [result_bind].
  - destruct (Z.ltb_spec (2 ^ 127) (Z.abs z)), (Z.eqb_spec z (- 2 ^ 127)), (Z.ltb_spec z (- 2 ^ 127)); try lia; cbn [result_bind]; try done.
    rewrite !(proj2 (Z.leb_le _ _)), (proj2 (Z.ltb_ge _ _)) by lia. done.
  - rewrite (proj2 (Z.eqb_neq _ _)), (proj2 (Z.ltb_ge z _)) by lia.
    destruct (Z.ltb_spec (2 ^ 127 - 1) (Z.abs z)), (Z.ltb_spec (2 ^ 127 - 1) z); try lia; cbn [result_bind]; try done.
    rewrite !(proj2 (Z.leb_le _ _)) by lia. done.
Qed.

Lemma saturated_u128_ok x z : denotes x z -> saturated_u128 x = Ok (clamp_to false 128 z).
Proof.
  intros Hx. unfold saturated_u128. rewrite (magnitude_exceeds_ok _ _ x z u128_max_limit Hx), (to_u128_ok x z Hx).
  pose proof Hx as (l & Hm & Hc & Hv & Hn). rewrite (is_zero_spec x l Hm Hc), Hn, Hv. cbn [result_bind].
  unfold clamp_to. change (type_min false 128) with 0. change (type_max false 128) with (2 ^ 128 - 1).
  destruct (Z.ltb_spec z 0), (Z.eqb_spec (Z.abs z) 0); cbn [negb andb]; try done; try lia;
    destruct (Z.ltb_spec (2 ^ 128 - 1) (Z.abs z)), (Z.ltb_spec (2 ^ 128 - 1) z); try lia; cbn [result_bind]; try done;
    rewrite !(proj2 (Z.leb_le _ _)) by lia; done.
Qed.

(** The conversions and their saturating counterparts, by type. *)
Definition conversions : list (bool * Z * (Int -> R ConvError Z) * (Int -> result abort Z)) :=
  [(true, 8, __i8__, saturated_i8); (true, 16, __i16__, saturated_i16); (true, 32, __i32__, saturated_i32);
   (true, 64, __i64__, saturated_i64); (true, 128, __i128__, saturated_i128);
   (false, 8, __u8__, saturated_u8); (false, 16, __u16__, saturated_u16); (false, 32, __u32__, saturated_u32);
   (false, 64, __u64__, saturated_u64); (false, 128, __u128__, saturated_u128)].

(** The one number on which a conversion to the type stops the program. *)
Definition panics_at (signed : bool) (bits z : Z) : bool :=
  if bits =? 128 then signed && (z =? - 2 ^ 127) else if signed || (bits <? 64) then z =? - 2 ^ 63 else false.

(** C36: Converting an integer to a fixed width gives its value when it is in the
    range of the type and [OverflowError] otherwise, and the saturating
    conversion gives the nearest number of the type; no arithmetic overflows on
    the way, except that [_to_i64] and [_to_i128] panic on exactly the least
    number of their own type, whose magnitude they accumulate before negating
    it: so do all conversions that go through them. *)
Theorem conversions_exact x z signed bits conv saturated : denotes x z -> (signed, bits, conv, saturated) ∈ conversions ->
  if panics_at signed bits z then conv x = Err (Panic conv_msg) /\ saturated x = Err (Panic conv_msg)
  else conv x = Ok (if in_type signed bits z then Ok z else Err OverflowError) /\ saturated x = Ok (clamp_to signed bits z).
Proof.
  intros Hx. unfold conversions. rewrite !elem_of_cons, elem_of_nil.
  intros [H|[H|[H|[H|[H|[H|[H|[H|[H|[H|[]]]]]]]]]]]; injection H as -> -> -> ->; unfold panics_at; cbn [Z.eqb Pos.eqb orb andb Z.ltb Z.compare Pos.compare Pos.compare_cont].
  1-3,6-8: (unfold saturated_i8, saturated_i16, saturated_i32, saturated_u8, saturated_u16, saturated_u32;
    rewrite (saturate_narrow_ok _ _ x z) by (done || unfold fits_i64; cbn; lia);
    unfold __i8__, __i16__, __i32__, __u8__, __u16__, __u32__, to_i8, to_i16, to_i32, to_u8, to_u16, to_u32;
    rewrite (to_narrow_ok _ _ x z) by (done || unfold fits_i64; cbn; lia); by destruct (z =? - 2 ^ 63)).
  - unfold __i64__, saturated_i64. rewrite (to_i64_ok x z Hx), (saturate_i64_range_ok _ _ x z) by (done || lia). by destruct (z =? - 2 ^ 63).
  - unfold __i128__. rewrite (to_i128_ok x z Hx), (saturated_i128_ok x z Hx). by destruct (z =? - 2 ^ 127).
  - unfold __u64__. by rewrite (to_u64_ok x z Hx), (saturated_u64_ok x z Hx).
  - unfold __u128__. by rewrite (to_u128_ok x z Hx), (saturated_u128_ok x z Hx).
Qed.

Lemma conversions_exact_witness : exists x, from_str (constant "-9223372036854775808") = Ok (Ok x) /\ denotes x (- 2 ^ 63) /\
  __i64__ x = Err (Panic conv_msg).
Proof.
  destruct (constant_value "-9223372036854775808" (- 2 ^ 63)) as (x & E & Hx);
    [repeat constructor; vm_compute; (done || split; congruence)|vm_compute; lia|vm_compute; reflexivity|].
  exists x. split; [exact E|]. split; [exact Hx|].
  apply (conversions_exact x (- 2 ^ 63) true 64 __i64__ saturated_i64 Hx). do 3 right. left.
Defined.

(** ** Other bases *)

Fixpoint in_base (base : Z) (ds : list Z) : Z := match ds with [] => 0 | d :: ds => d + base * in_base base ds end.

Lemma in_base_snoc base ds d : in_base base (ds ++ [d]) = in_base base ds + base ^ Z.of_nat (length ds) * d.
Proof.
  induction ds as [|d' ds IH]; cbn [in_base app length]; [rewrite Z.pow_0_r; lia|].
  rewrite IH, Nat2Z.inj_succ, Z.pow_succ_r by lia. lia.
Qed.

Definition hex_char (uppercase : bool) (d : Z) : Z := if d <? 10 then 48 + d else (if uppercase then 55 else 87) + d.

Lemma hex_digits_ok u : str_ok (hex_digits u) (map (hex_char u) (seqZ 0 16)).
Proof.
  destruct u; (replace (map _ _) with (ascii_codes (if true then "0123456789ABCDEF" else "")) by reflexivity) ||
    (replace (map _ _) with (ascii_codes "0123456789abcdef") by reflexivity); unfold hex_digits;
    apply constant_ok; (repeat constructor; vm_compute; (done || split; congruence)) || (vm_compute; lia).
Qed.

Lemma hex_char_ok u d : 0 <= d < 16 -> exists s, byte_slice (hex_digits u) (Z.to_nat d) (Z.to_nat d + 1) = Ok s /\ str_ok s [hex_char u d].
Proof.
  intros Hd. set (h := map (hex_char u) (seqZ 0 16)).
  assert (Ha : forall k, ascii (take k h)).
  { intros k. apply Forall_take, Forall_map, Forall_seqZ. intros x Hx. unfold hex_char. destruct (Z.ltb_spec x 10), u; lia. }
  assert (Hl : h !! Z.to_nat d = Some (hex_char u d)).
  { unfold h. rewrite list_lookup_fmap, lookup_seqZ_lt by lia. cbn. do 2 f_equal. lia. }
  pose proof (take_drop_middle h _ _ Hl) as E. change (hex_char u d :: ?r) with ([hex_char u d] ++ r) in E.
  assert (Hlen : length h = 16%nat) by (unfold h; by rewrite length_map, length_seqZ).
  apply (byte_slice_ok _ (take (Z.to_nat d) h) [hex_char u d] (drop (S (Z.to_nat d)) h)); [rewrite E; apply hex_digits_ok| |].
  - rewrite utf8_ascii, length_take by apply Ha. lia.
  - rewrite <- (take_S_r h _ _ Hl), utf8_ascii, length_take by apply Ha. lia.
Qed.

Lemma radix_digits_ok u base radix : 2 <= base <= 16 -> denotes radix base -> forall fuel m magnitude ds acc,
  denotes magnitude m -> 0 <= m < 2 ^ Z.of_nat fuel -> Forall (fun d => 0 <= d < base) ds -> (m = 0 -> last ds <> Some 0) ->
  Forall2 str_ok acc (map (fun d => [hex_char u d]) ds) ->
  exists strs ds', radix_digits fuel radix (hex_digits u) magnitude acc = Ok strs /\ Forall (fun d => 0 <= d < base) ds' /\ last ds' <> Some 0 /\
    Forall2 str_ok strs (map (fun d => [hex_char u d]) ds') /\ in_base base ds' = in_base base ds + base ^ Z.of_nat (length ds) * m.
Proof.
  intros Hbase Hradix. induction fuel as [|fuel IH]; intros m magnitude ds acc Hx Hm Hds Hlast Hacc.
  - assert (m = 0) as -> by (simpl in Hm; lia). pose proof Hx as (l & Hmag & Hc & Hv & _). cbn [radix_digits].
    rewrite (is_zero_spec _ l Hmag Hc), Hv. cbn [result_bind Z.abs Z.eqb]. exists acc, ds. split_and!; [done..|by apply Hlast|done|lia].
  - pose proof Hx as (l & Hmag & Hc & Hv & _). cbn [radix_digits]. rewrite (is_zero_spec _ l Hmag Hc), Hv. cbn [result_bind].
    destruct (Z.eqb_spec (Z.abs m) 0) as [Hz|Hnz].
    { assert (m = 0) as -> by lia. exists acc, ds. split_and!; [done..|by apply Hlast|done|lia]. }
    destruct (divmod_spec magnitude radix m base Hx Hradix ltac:(lia)) as (q & r & -> & Hq & Hr). cbn [result_bind unwrap].
    rewrite Z.quot_div_nonneg in Hq by lia. rewrite Z.rem_mod_nonneg in Hr by lia.
    pose proof (Z.mod_pos_bound m base ltac:(lia)) as Hmod. pose proof (Z.div_mod m base ltac:(lia)) as Hdiv.
    unfold to_i32. rewrite (to_narrow_ok true 32 r (m mod base)) by (done || unfold fits_i64; cbn; lia).
    rewrite (proj2 (Z.eqb_neq _ _)) by lia. cbn [result_bind].
    assert (in_type true 32 (m mod base) = true) as -> by (unfold in_type, type_min, type_max; rewrite !(proj2 (Z.leb_le _ _)) by lia; done).
    cbn [unwrap result_bind]. rewrite usize_of_i32_ok by lia. cbn [result_bind].
    destruct (hex_char_ok u (m mod base)) as (s & -> & Hs); [lia|]. cbn [result_bind].
    destruct (IH (m / base) q (ds ++ [m mod base]) (acc ++ [s])) as (strs & ds' & E & H1 & H2 & H3 & H4); [done| | | | |].
    + rewrite Nat2Z.inj_succ, Z.pow_succ_r in Hm by lia. split; [apply Z.div_pos; lia|]. apply Z.div_lt_upper_bound; nia.
    + apply Forall_app. split; [done|]. by constructor.
    + intros H0. rewrite last_snoc. intros [= E]. rewrite H0, E in Hdiv. lia.
    + rewrite map_app. apply Forall2_app; [done|]. by constructor.
    + exists strs, ds'. split_and!; [done..|]. rewrite H4, in_base_snoc, length_app, Nat2Z.inj_add, Z.pow_add_r by lia. cbn [length]. lia.
Qed.

(** The digits in a base from 2 to 16, without leading zeros. *)
Lemma to_radix_digits_ok x z base u : denotes x z -> 2 <= base <= 16 -> exists s ds, to_radix_digits x base u = Ok s /\
  str_ok s (map (hex_char u) (rev ds)) /\ Forall (fun d => 0 <= d < base) ds /\ in_base base ds = Z.abs z /\ (last ds = Some 0 -> z = 0).
Proof.
  intros Hx Hb. pose proof Hx as (l & Hm & Hc & Hv & Hn). unfold to_radix_digits. rewrite (is_zero_spec x l Hm Hc), Hv. cbn [result_bind].
  destruct (Z.eqb_spec (Z.abs z) 0) as [Hz|Hz].
  { exists (constant "0"), [0]. split_and!; [done| |repeat constructor; lia|simpl; lia|lia].
    apply (constant_ok "0"); [repeat constructor; vm_compute; (done || split; congruence)|vm_compute; lia]. }
  destruct (clone_spec x l Hm) as (m & -> & Hm' & _). cbn [result_bind].
  assert (Hmz : denotes (set_negative false m) (Z.abs z)).
  { apply (denotes_intro _ l); [by apply mag_set_negative|done|lia|]. symmetry. apply Z.ltb_ge. lia. }
  destruct (int_of_i32_spec base ltac:(lia)) as (radix & -> & Hr). cbn [result_bind].
  destruct (radix_digits_ok u base radix Hb Hr (radix_fuel x) (Z.abs z) _ [] [] Hmz) as (strs & ds & -> & Hd & Hlast & Hs & Hin);
    [|constructor|lia|constructor|].
  { unfold radix_fuel. rewrite (mag_count _ _ Hm), <- Hv. pose proof (val_bound l (canonical_digits _ Hc)) as [H0 H1]. split; [done|].
    eapply Z.lt_le_trans; [exact H1|]. unfold pow10. rewrite Nat2Z.inj_mul, Z.pow_mul_r by lia. apply Z.pow_le_mono_l. lia. }
  cbn [result_bind]. assert (Hrev : Forall2 str_ok (rev strs) (map (fun d => [hex_char u d]) (rev ds))).
  { rewrite map_rev, !rev_alt. by apply Forall2_reverse. }
  destruct (join_text_ok empty_str [] _ _ empty_str_ok Hrev) as (s & -> & Hok). exists s, ds. split_and!; [done| |done| |done].
  - replace (map (hex_char u) (rev ds)) with (intercalate [] (map (fun d => [hex_char u d]) (rev ds))); [done|].
    generalize (rev ds). induction l0 as [|d [|d' k] IH]; [done..|]. cbn [map] in IH |- *. by rewrite intercalate_cons, IH.
  - cbn [in_base length] in Hin. lia.
Qed.

(** ** Grouping *)

Lemma decimal_digits_ok x z : denotes x z -> exists s l, decimal_digits x = Ok s /\ canonical l /\ val l = Z.abs z /\
  str_ok s (map (Z.add ascii_zero) (rev l)).
Proof.
  intros Hx. destruct (str_of_int_ok x z Hx) as (s & l & cps & E & Hs & Hp). pose proof Hp as (Hc & Hv & ->). unfold decimal_digits. rewrite E. cbn [result_bind].
  pose proof Hx as (_ & _ & _ & _ & ->). destruct (z <? 0); [|by exists s, l].
  pose proof (digits_ascii l (canonical_digits _ Hc)) as Ha.
  destruct (byte_slice_ok s [ascii_minus] (map (Z.add ascii_zero) (rev l)) [] 1 (byte_len s)) as (s' & E' & Hs').
  - by rewrite app_nil_r.
  - done.
  - by rewrite (byte_len_ok _ _ Hs).
  - by exists s', l.
Qed.

Lemma ascii_slice s a b c : str_ok s (a ++ b ++ c) -> ascii (a ++ b) ->
  exists s', byte_slice s (length a) (length (a ++ b)) = Ok s' /\ str_ok s' b.
Proof.
  intros Hs Ha. assert (ascii a) by (by apply Forall_app in Ha as [? _]). apply (byte_slice_ok s a b c); [done| |]; by rewrite utf8_ascii.
Qed.

(** Cutting [a] into groups of three from the right, [p] characters or fewer being left at its front. *)
Lemma cut_groups_ok s : forall fuel a b groups, str_ok s (a ++ b) -> ascii a -> a <> [] -> (length a <= fuel)%nat ->
  exists p parts strs, cut_groups fuel s (length a) groups = Ok (length p, groups ++ strs) /\ a = p ++ concat (rev parts) /\
    (1 <= length p <= 3)%nat /\ Forall (fun g => length g = 3%nat) parts /\ Forall2 str_ok strs parts.
Proof.
  induction fuel as [|fuel IH]; intros a b groups Hs Ha Hne Hf; [by destruct a; [|simpl in Hf; lia]|]. cbn [cut_groups].
  assert (0 < length a)%nat by (destruct a; [done|simpl; lia]). destruct (Nat.ltb_spec 3 (length a)) as [Hlt|Hle].
  - set (n := (length a - 3)%nat). pose proof (take_drop n a) as E. assert (Hn : length (take n a) = n) by (rewrite length_take; lia).
    destruct (ascii_slice s (take n a) (drop n a) b) as (g & Eg & Hg); [by rewrite app_assoc, E|by rewrite E|].
    rewrite E, Hn in Eg. rewrite Eg. cbn [result_bind].
    destruct (IH (take n a) (drop n a ++ b) (groups ++ [g])) as (p & parts & strs & E1 & Ea & Hp & Hl & Hok);
      [by rewrite app_assoc, E|by apply Forall_take|intros E0; rewrite E0 in Hn; simpl in Hn; lia|lia|].
    rewrite Hn in E1. exists p, (drop n a :: parts), (g :: strs). rewrite E1, <- app_assoc. split_and!; [done| |lia|lia| |].
    + cbn [rev]. rewrite concat_app. cbn [concat]. by rewrite app_nil_r, app_assoc, <- Ea, E.
    + constructor; [rewrite length_drop; lia|done].
    + by constructor.
  - exists a, [], []. rewrite !app_nil_r. by split_and!.
Qed.

(** The separator stands before every third digit from the right, and nowhere else. *)
Lemma decimal_digits_with_grouping_ok x z sep t : denotes x z -> str_ok sep t -> exists s l p groups,
  decimal_digits_with_grouping x sep = Ok s /\ str_ok s (intercalate t (p :: groups)) /\
  canonical l /\ val l = Z.abs z /\ p ++ concat groups = map (Z.add ascii_zero) (rev l) /\
  (1 <= length p <= 3)%nat /\ Forall (fun g => length g = 3%nat) groups.
Proof.
  intros Hx Hsep. destruct (decimal_digits_ok x z Hx) as (s & l & E & Hc & Hv & Hs). set (ds := map (Z.add ascii_zero) (rev l)) in *.
  pose proof (digits_ascii l (canonical_digits _ Hc)) as Ha. fold ds in Ha. pose proof (canonical_length l Hc) as Hl.
  assert (Hlen : length ds = length l) by (unfold ds; by rewrite length_map, length_rev).
  unfold decimal_digits_with_grouping. rewrite E. cbn [result_bind]. rewrite (byte_len_ok _ _ Hs), utf8_ascii by done.
  destruct (Nat.leb_spec (length ds) 3).
  { exists s, l, ds, []. cbn [intercalate concat]. rewrite app_nil_r. by split_and!; try lia. }
  destruct (cut_groups_ok s (length ds) ds [] []) as (p & parts & strs & -> & Ed & Hp & H3 & Hok);
    [by rewrite app_nil_r|done|intros E0; apply (f_equal length) in E0; simpl in E0; lia|done|]. cbn [result_bind app].
  destruct (ascii_slice s [] p (concat (rev parts))) as (g & Eg & Hg); [by rewrite <- Ed|rewrite Ed in Ha; by apply Forall_app in Ha as [? _]|].
  cbn [length app] in Eg. rewrite Eg.
  cbn [result_bind]. rewrite rev_app_distr. cbn [rev app].
  destruct (join_text_ok sep t (g :: rev strs) (p :: rev parts) Hsep) as (r & -> & Hr).
  { constructor; [done|]. rewrite !rev_alt. by apply Forall2_reverse. }
  exists r, l, p, (rev parts). split_and!; [done..|lia|lia|by apply Forall_rev].
Qed.

(** C35: [from_str] accepts exactly an optional minus sign and one or more ASCII
    digits, leading zeros allowed, and answers their value, and refuses every
    other text with [InvalidDigit]; [__str__] gives the shortest numeral of a
    number, which [from_str] reads back.  In any base from 2 to 16 the digits
    printed have the magnitude as their value and no leading zero; grouping
    puts the separator before every third digit from the right.  All of these
    end, and none panics or touches memory outside its buffers. *)
Theorem int_text_exact x z s cps sep t base upper : denotes x z -> str_ok s cps -> str_ok sep t -> 2 <= base <= 16 ->
  match decimal cps with
  | Some v => exists y, from_str s = Ok (Ok y) /\ denotes y v
  | None => from_str s = Ok (Err InvalidDigit)
  end /\
  (exists r ds y, __str__ x = Ok r /\ str_ok r ds /\ decimal ds = Some z /\
    (forall ds', decimal ds' = Some z -> (length ds <= length ds')%nat) /\ from_str r = Ok (Ok y) /\ denotes y z) /\
  (exists r ds, to_radix_digits x base upper = Ok r /\ str_ok r (map (hex_char upper) (rev ds)) /\
    Forall (fun d => 0 <= d < base) ds /\ in_base base ds = Z.abs z /\ (last ds = Some 0 -> z = 0)) /\
  (exists r p groups, decimal_digits_with_grouping x sep = Ok r /\ str_ok r (intercalate t (p :: groups)) /\
    numeral (p ++ concat groups) = Some (Z.abs z) /\ (1 <= length p <= 3)%nat /\ Forall (fun g => length g = 3%nat) groups).
Proof.
  intros Hx Hs Hsep Hb. split; [by apply from_str_ok|]. split; [|split; [by apply to_radix_digits_ok|]].
  - destruct (str_of_int_ok x z Hx) as (r & l & ds & E & Hr & Hp). pose proof (printed_decimal _ _ _ Hp) as Hd.
    pose proof (from_str_ok r ds Hr) as Hf. rewrite Hd in Hf. destruct Hf as (y & Ey & Hy). exists r, ds, y. split_and!; try done.
    intros ds'. by apply (printed_shortest _ l).
  - destruct (decimal_digits_with_grouping_ok x z sep t Hx Hsep) as (r & l & p & gs & E & Hr & Hc & Hv & Ed & Hp & Hg).
    exists r, p, gs. rewrite Ed, numeral_digits, Hv by done. by split_and!; try lia.
Qed.

Lemma int_text_exact_witness : exists r ds, to_radix_digits (of_parts true [7; 1]) 2 false = Ok r /\
  str_ok r (map (hex_char false) (rev ds)) /\ Forall (fun d => 0 <= d < 2) ds /\ in_base 2 ds = 17 /\ (last ds = Some 0 -> -17 = 0).
Proof.
  exact (proj1 (proj2 (proj2 (int_text_exact _ _ _ _ _ _ 2 false (proj1 sample_ints) empty_str_ok empty_str_ok ltac:(lia))))).
Defined.
