(* ===== verification/StrPad.v ===== *)
(** * Padding and grouping of texts ([lib/builtins/__init__.py], class [str])

    [ljust], [rjust], [center] and [zfill], and the private methods the format
    specifications of numbers use: padding between a sign or prefix and the
    digits, and separators every three digits. *)

From S2P Require Import Prelude RawList Bits Buffers Utf8 StrOps StrIndex IntText.

Local Open Scope Z_scope.
Local Open Scope monad_scope.

(** ** Padding *)

(** [i = 0; while i < n: sys.memcpy( new_buf + offset, fillchar, fill_len ); offset += fill_len] *)
Definition fill_parts (fillchar : Str) (n : nat) (s : Buffer * nat) : result abort (Buffer * nat) :=
  for_upto n (fun s _ => append_part (s_data fillchar) (byte_len fillchar) s) s.

(** [left] times [fillchar], the text, [right] times [fillchar]. *)
Definition padded (msg : string) (self fillchar : Str) (left right : nat) : result abort Str :=
  let pad_bytes := ((left + right) * byte_len fillchar)%nat in
  let new_size := (byte_len self + pad_bytes + 1)%nat in
  let? s := fill_parts fillchar left (alloc_u8 new_size, O) in
  let? s := append_part (s_data self) (byte_len self) s in
  let? (new_buf, offset) := fill_parts fillchar right s in
  let? new_buf := write_u8 offset 0 new_buf in
  owned_str msg new_buf new_size.

Definition ljust (self : Str) (width : nat) (fillchar : Str) : result abort Str :=
  if negb (char_count fillchar =? 1)%nat then Err (Panic "str.ljust(...): fillchar must be exactly one character")
  else if (width <=? char_count self)%nat then Ok self
  else
    let? pad_count := panic_sub "bounded by width, cannot overflow" width (char_count self) in
    padded "invalid UTF-8 in ljust" self fillchar 0 pad_count.

Definition rjust (self : Str) (width : nat) (fillchar : Str) : result abort Str :=
  if negb (char_count fillchar =? 1)%nat then Err (Panic "str.rjust(...): fillchar must be exactly one character")
  else if (width <=? char_count self)%nat then Ok self
  else
    let? pad_count := panic_sub "bounded by width, cannot overflow" width (char_count self) in
    padded "invalid UTF-8 in rjust" self fillchar pad_count 0.

Definition center (self : Str) (width : nat) (fillchar : Str) : result abort Str :=
  if negb (char_count fillchar =? 1)%nat then Err (Panic "str.center(...): fillchar must be exactly one character")
  else if (width <=? char_count self)%nat then Ok self
  else
    let? pad_count := panic_sub "bounded by width, cannot overflow" width (char_count self) in
    let left_count := (pad_count / 2)%nat in
    let? right_count := panic_sub "bounded by pad_count, cannot overflow" pad_count left_count in
    padded "invalid UTF-8 in center" self fillchar left_count right_count.

Definition is_sign (c : Z) : bool := (c =? 43) || (c =? 45).

Definition zfill (self : Str) (width : nat) : result abort Str :=
  let self_len := byte_len self in
  let? has_sign := if (0 <? self_len)%nat then let? c := read_ptr (s_data self) 0 in Ok (is_sign c) else Ok false in
  if (width <=? char_count self)%nat then Ok self
  else
    let? pad_count := panic_sub "bounded by width, cannot overflow" width (char_count self) in
    let new_size := (self_len + pad_count + 1)%nat in
    let? sign := if has_sign : bool then bytes_at (s_data self) 0 1 else Ok [] in
    let? s := append_part sign (length sign) (alloc_u8 new_size, O) in
    let? s := for_upto pad_count (fun '(buf, offset) _ => let? buf := write_u8 offset 48 buf in Ok (buf, (offset + 1)%nat)) s in
    let body_start := length sign in
    let? body := bytes_at (s_data self) body_start (self_len - body_start) in
    let? (new_buf, offset) := append_part body (self_len - body_start) s in
    let? new_buf := write_u8 offset 0 new_buf in
    owned_str "invalid UTF-8 in zfill" new_buf new_size.

(** ** Numbers in a field *)

(** The width left behind a prefix, saturating at zero. *)
Definition pad_after_prefix (self prefix : Str) (width : nat) (fill : Str) : result abort Str :=
  let? inner := rjust self (width - char_count prefix) fill in
  str_add prefix inner.

(** The loop that cuts groups of three is the one of [int]. *)
Definition insert_thousands_sep (self sep : Str) : result abort Str :=
  let count := byte_len self in
  if (count <=? 3)%nat then Ok self
  else
    let? (stop, groups) := cut_groups count self count [] in
    let? last := byte_slice self 0 stop in
    join_text sep (rev (groups ++ [last])).

Definition grouped_width (total_count sep_len : nat) : nat :=
  if (0 <? total_count)%nat then (total_count + (total_count - 1) / 3 * sep_len)%nat else total_count.

(** [while True: ... if grouped_width >= inner_width: break; total_count += 1]; a
    width is at least its digits. *)
Fixpoint widen_count (fuel total_count sep_len inner_width : nat) : result abort nat :=
  if (inner_width <=? grouped_width total_count sep_len)%nat then Ok total_count
  else match fuel with O => Err Fault | S fuel => widen_count fuel (total_count + 1) sep_len inner_width end.

Definition pad_and_group_after_prefix (self prefix : Str) (width : nat) (fill sep : Str) : result abort Str :=
  let inner_width := (width - char_count prefix)%nat in
  let? total_count := widen_count inner_width (char_count self) (char_count sep) inner_width in
  let? padded := rjust self total_count fill in
  let? grouped := insert_thousands_sep padded sep in
  str_add prefix grouped.

(** What is before and after the first ['.']. *)
Definition split_at_dot (self : Str) : result abort (Str * Str) :=
  let? dot_found := str_find self (constant ".") 0 in
  let dot_index := if dot_found =? -1 then byte_len self else Z.to_nat dot_found in
  let? int_part := byte_slice self 0 dot_index in
  let? rest := byte_slice self dot_index (byte_len self) in
  Ok (int_part, rest).

Definition pad_and_group_before_dot (self prefix : Str) (width : nat) (fill sep : Str) : result abort Str :=
  let? (int_part, rest) := split_at_dot self in
  let? padded := pad_and_group_after_prefix int_part prefix (width - char_count rest) fill sep in
  str_add padded rest.

Definition pad_maybe_special (crt_memcmp : list Z -> list Z -> Z) (self prefix : Str) (width : nat) (fill sep : Str) :
    result abort Str :=
  let? nan := str_eq crt_memcmp self (constant "nan") in
  let? inf := str_eq crt_memcmp self (constant "inf") in
  if (nan : bool) || inf then pad_after_prefix self prefix width fill
  else pad_and_group_before_dot self prefix width fill sep.

(** ** What padding gives *)

Lemma fill_parts_ok fillchar c n d cps : str_ok fillchar c -> starts d (utf8 cps) ->
  (length (utf8 cps) + n * length (utf8 c) <= length d)%nat ->
  exists d', fill_parts fillchar n (d, length (utf8 cps)) = Ok (d', length (utf8 (cps ++ concat (replicate n c)))) /\
    length d' = length d /\ starts d' (utf8 (cps ++ concat (replicate n c))).
Proof.
  intros Hc Hs Hl. unfold fill_parts. rewrite (byte_len_ok _ _ Hc), (str_data _ _ Hc).
  assert (Hrep : forall i, concat (replicate (i + 1) c) = concat (replicate i c) ++ c).
  { intros i. rewrite replicate_add, concat_app. simpl. by rewrite app_nil_r. }
  assert (Hsize : forall i, length (utf8 (concat (replicate i c))) = (i * length (utf8 c))%nat).
  { induction i as [|i IH]; [done|]. simpl. by rewrite utf8_length_app, IH. }
  destruct (for_upto_ok (fun i s => exists d', s = (d', length (utf8 (cps ++ concat (replicate i c)))) /\ length d' = length d /\
    starts d' (utf8 (cps ++ concat (replicate i c)))) n
    (fun s _ => append_part (utf8 c ++ [0]) (length (utf8 c)) s) (d, length (utf8 cps))) as (s' & E & d' & -> & Hd & Hsd).
  - intros i s Hi (d' & -> & Hd & Hsd).
    destruct (append_part_ok (utf8 c ++ [0]) (length (utf8 c)) _ d' _ c [0] Hsd eq_refl eq_refl eq_refl) as (d2 & E & Hd2 & Hs2).
    { rewrite Hd, utf8_length_app, Hsize. nia. }
    eexists. split; [exact E|]. exists d2. rewrite Hrep, app_assoc. split_and!; [done|congruence|done].
  - exists d. by rewrite app_nil_r.
  - exists d'. by split_and!.
Qed.

Lemma text_concat_replicate n c : text c -> text (concat (replicate n c)).
Proof. intros Hc. induction n; simpl; [constructor|by apply Forall_app]. Qed.

Lemma padded_ok msg self fillchar a c left right : str_ok self a -> str_ok fillchar c ->
  exists r, padded msg self fillchar left right = Ok r /\
    str_ok r (concat (replicate left c) ++ a ++ concat (replicate right c)).
Proof.
  intros Ha Hc. unfold padded. rewrite (byte_len_ok _ _ Ha), (byte_len_ok _ _ Hc), (str_data _ _ Ha).
  assert (Hsize : forall i, length (utf8 (concat (replicate i c))) = (i * length (utf8 c))%nat).
  { induction i as [|i IH]; [done|]. simpl. by rewrite utf8_length_app, IH. }
  set (d0 := alloc_u8 _). assert (Hd0 : length d0 = (length (utf8 a) + (left + right) * length (utf8 c) + 1)%nat)
    by (unfold d0; rewrite alloc_length; lia).
  destruct (fill_parts_ok fillchar c left d0 [] Hc (starts_nil d0)) as (d1 & E1 & Hd1 & Hs1); [rewrite Hd0; simpl; nia|].
  change (length (utf8 [])) with O in E1. rewrite E1. cbn [result_bind]. cbn [app] in Hs1 |- *.
  destruct (append_part_ok (utf8 a ++ [0]) (length (utf8 a)) _ d1 _ a [0] Hs1 eq_refl eq_refl eq_refl) as (d2 & E2 & Hd2 & Hs2);
    [rewrite Hd1, Hd0, Hsize; nia|]. rewrite E2. cbn [result_bind].
  destruct (fill_parts_ok fillchar c right d2 _ Hc Hs2) as (d3 & E3 & Hd3 & Hs3);
    [rewrite Hd2, Hd1, Hd0, utf8_length_app, Hsize; nia|]. rewrite E3. cbn [result_bind]. rewrite <- app_assoc in Hs3 |- *.
  edestruct (terminated_ok msg d3 _ _ Hs3 eq_refl) as (d4 & r & -> & Er & Hr); [|
    repeat apply Forall_app_2; [by apply text_concat_replicate, Hc|apply Ha|by apply text_concat_replicate, Hc]|].
  { rewrite Hd3, Hd2, Hd1, Hd0, !utf8_length_app, !Hsize. lia. }
  cbn [result_bind]. exists r. split; [|done]. rewrite <- Er. f_equal. rewrite !utf8_length_app, !Hsize. lia.
Qed.

Lemma concat_replicate_one {A} n (x : A) : concat (replicate n [x]) = replicate n x.
Proof. induction n as [|n IH]; [done|]. simpl. by rewrite IH. Qed.

Lemma ljust_ok self fillchar a c width : str_ok self a -> str_ok fillchar [c] ->
  exists r, ljust self width fillchar = Ok r /\ str_ok r (a ++ replicate (width - length a) c).
Proof.
  intros Ha Hc. unfold ljust. rewrite (str_count _ _ Hc), (str_count _ _ Ha). cbn [length negb Nat.eqb].
  destruct (Nat.leb_spec width (length a)).
  - exists self. rewrite (proj2 (Nat.sub_0_le _ _)) by done. by rewrite app_nil_r.
  - rewrite panic_sub_ok by lia. cbn [result_bind].
    destruct (padded_ok "invalid UTF-8 in ljust" self fillchar a [c] 0 (width - length a) Ha Hc) as (r & E & Hr).
    exists r. split; [done|]. by rewrite !concat_replicate_one in Hr.
Qed.

Lemma rjust_ok self fillchar a c width : str_ok self a -> str_ok fillchar [c] ->
  exists r, rjust self width fillchar = Ok r /\ str_ok r (replicate (width - length a) c ++ a).
Proof.
  intros Ha Hc. unfold rjust. rewrite (str_count _ _ Hc), (str_count _ _ Ha). cbn [length negb Nat.eqb].
  destruct (Nat.leb_spec width (length a)).
  - exists self. by rewrite (proj2 (Nat.sub_0_le _ _)).
  - rewrite panic_sub_ok by lia. cbn [result_bind].
    destruct (padded_ok "invalid UTF-8 in rjust" self fillchar a [c] (width - length a) 0 Ha Hc) as (r & E & Hr).
    exists r. split; [done|]. rewrite !concat_replicate_one in Hr. simpl in Hr. by rewrite app_nil_r in Hr.
Qed.

(** The two halves of the padding, the larger one on the right. *)
Lemma center_ok self fillchar a c width : str_ok self a -> str_ok fillchar [c] ->
  exists r, center self width fillchar = Ok r /\
    str_ok r (let n := (width - length a)%nat in replicate (n / 2) c ++ a ++ replicate (n - n / 2) c).
Proof.
  intros Ha Hc. unfold center. rewrite (str_count _ _ Hc), (str_count _ _ Ha). cbn [length negb Nat.eqb].
  destruct (Nat.leb_spec width (length a)).
  - exists self. rewrite (proj2 (Nat.sub_0_le _ _)) by done. cbn. by rewrite app_nil_r.
  - rewrite panic_sub_ok by lia. cbn [result_bind]. cbn zeta. set (n := (width - length a)%nat).
    pose proof (Nat.Div0.div_le_upper_bound n 2 n ltac:(lia)). rewrite panic_sub_ok by done. cbn [result_bind].
    destruct (padded_ok "invalid UTF-8 in center" self fillchar a [c] (n / 2) (n - n / 2) Ha Hc) as (r & E & Hr).
    exists r. split; [done|]. by rewrite !concat_replicate_one in Hr.
Qed.

(** ** Grouped fields *)

Lemma insert_thousands_sep_ok self sep ds t : str_ok self ds -> ascii ds -> ds <> [] -> str_ok sep t ->
  exists r p groups, insert_thousands_sep self sep = Ok r /\ str_ok r (intercalate t (p :: groups)) /\
    p ++ concat groups = ds /\ (1 <= length p <= 3)%nat /\ Forall (fun g => length g = 3%nat) groups.
Proof.
  intros Hs Ha Hne Hsep. unfold insert_thousands_sep. rewrite (byte_len_ok _ _ Hs), utf8_ascii by done.
  assert (0 < length ds)%nat by (destruct ds; [done|simpl; lia]).
  destruct (Nat.leb_spec (length ds) 3) as [Hle|Hgt].
  { exists self, ds, []. cbn [intercalate concat]. rewrite app_nil_r. by split_and!; try lia. }
  destruct (cut_groups_ok self (length ds) ds [] []) as (p & parts & strs & -> & Ed & Hp & H3 & Hok);
    [by rewrite app_nil_r|done|done|done|]. cbn [result_bind app].
  destruct (ascii_slice self [] p (concat (rev parts))) as (g & Eg & Hg); [by rewrite <- Ed|rewrite Ed in Ha; by apply Forall_app in Ha as [? _]|].
  cbn [length app] in Eg. rewrite Eg. cbn [result_bind]. rewrite rev_app_distr. cbn [rev app].
  destruct (join_text_ok sep t (g :: rev strs) (p :: rev parts) Hsep) as (r & -> & Hr).
  { constructor; [done|]. rewrite !rev_alt. by apply Forall2_reverse. }
  exists r, p, (rev parts). split_and!; [done..|lia|lia|by apply Forall_rev].
Qed.

(** How wide the grouped digits are. *)
Lemma grouped_length t p groups : (1 <= length p <= 3)%nat -> Forall (fun g => length g = 3%nat) groups ->
  length (intercalate t (p :: groups)) = grouped_width (length (p ++ concat groups)) (length t).
Proof.
  intros Hp Hg. assert (Hlen : length (intercalate t (p :: groups)) = (length p + length (concat groups) + length groups * length t)%nat
      /\ length (concat groups) = (3 * length groups)%nat).
  { revert p Hp. induction Hg as [|g groups Hg3 _ IH]; intros p Hp; [cbn; rewrite ?app_nil_r; lia|].
    rewrite intercalate_cons, !length_app by done. destruct (IH g ltac:(lia)) as [-> E]. cbn [concat length].
    rewrite length_app, E. lia. }
  destruct Hlen as [-> E]. unfold grouped_width. rewrite length_app, E, (proj2 (Nat.ltb_lt _ _)) by lia. f_equal. f_equal.
  apply (Nat.div_unique _ 3 _ (length p - 1)); lia.
Qed.

(** The fewest digits that make the field wide enough. *)
Lemma widen_count_ok sep_len inner_width : forall fuel d, (inner_width <= d + fuel)%nat ->
  exists k, widen_count fuel d sep_len inner_width = Ok (d + k)%nat /\ (inner_width <= grouped_width (d + k) sep_len)%nat /\
    forall j, (j < k)%nat -> (grouped_width (d + j) sep_len < inner_width)%nat.
Proof.
  assert (Hw : forall n, (n <= grouped_width n sep_len)%nat) by (intros n; unfold grouped_width; destruct (0 <? n)%nat; lia).
  induction fuel as [|fuel IH]; intros d Hd; cbn [widen_count];
    (destruct (Nat.leb_spec inner_width (grouped_width d sep_len)) as [Hle|Hgt]; [exists O; rewrite Nat.add_0_r; split_and!; [done|done|lia]|]).
  - specialize (Hw d). lia.
  - destruct (IH (d + 1)%nat ltac:(lia)) as (k & -> & Hk & Hmin). exists (S k).
    replace (d + S k)%nat with (d + 1 + k)%nat by lia. split_and!; [done|done|]. intros [|j] Hj; [by rewrite Nat.add_0_r|].
    replace (d + S j)%nat with (d + 1 + j)%nat by lia. apply Hmin. lia.
Qed.

Lemma pad_after_prefix_ok self prefix fill a p c width : str_ok self a -> str_ok prefix p -> str_ok fill [c] ->
  exists r, pad_after_prefix self prefix width fill = Ok r /\ str_ok r (p ++ replicate (width - length p - length a) c ++ a).
Proof.
  intros Ha Hp Hc. unfold pad_after_prefix. rewrite (str_count _ _ Hp).
  destruct (rjust_ok self fill a c (width - length p) Ha Hc) as (i & -> & Hi). cbn [result_bind]. by apply str_add_ok.
Qed.

(** The field of a grouped number: behind the prefix as few fill characters as
    make the grouped text reach the width, and the separator before every third
    character from the right. *)
Theorem grouped_field self prefix fill sep ds p c t width :
  str_ok self ds -> ascii ds -> ds <> [] -> str_ok prefix p -> str_ok fill [c] -> 0 <= c < 128 -> str_ok sep t ->
  exists r k q groups, pad_and_group_after_prefix self prefix width fill sep = Ok r /\
    str_ok r (p ++ intercalate t (q :: groups)) /\ q ++ concat groups = replicate k c ++ ds /\
    (1 <= length q <= 3)%nat /\ Forall (fun g => length g = 3%nat) groups /\
    (width <= length p + length (intercalate t (q :: groups)))%nat /\
    forall j, (j < k)%nat -> (length p + grouped_width (length ds + j) (length t) < width)%nat.
Proof.
  intros Hs Ha Hne Hp Hc Hca Hsep. unfold pad_and_group_after_prefix.
  rewrite (str_count _ _ Hp), (str_count _ _ Hs), (str_count _ _ Hsep).
  destruct (widen_count_ok (length t) (width - length p) (width - length p) (length ds) ltac:(lia)) as (k & -> & Hk & Hmin).
  cbn [result_bind]. destruct (rjust_ok self fill ds c (length ds + k) Hs Hc) as (padded & -> & Hpad). cbn [result_bind].
  replace (length ds + k - length ds)%nat with k in Hpad by lia.
  destruct (insert_thousands_sep_ok padded sep _ t Hpad) as (g & q & groups & -> & Hg & E & Hq & H3);
    [apply Forall_app; split; [by apply Forall_replicate|done]|by destruct k, ds|done|]. cbn [result_bind].
  destruct (str_add_ok prefix g p _ Hp Hg) as (r & Er & Hr). exists r, k, q, groups.
  pose proof (grouped_length t q groups Hq H3) as Hl. rewrite E, length_app, length_replicate, Nat.add_comm in Hl.
  split_and!; [done|done|done|lia|lia|done|rewrite Hl; lia|]. intros j Hj. specialize (Hmin j Hj). lia.
Qed.

Example grouped_sample :
  (let? r := pad_and_group_after_prefix (constant "1234567") (constant "-") 15 (constant "0") (constant ",") in Ok (ascii_of_str r))
  = Ok "-00,001,234,567"%string.
Proof. vm_compute. reflexivity. Qed.
