(* ===== verification/FloatText.v ===== *)
(** * Texts of floating-point numbers ([lib/builtins/__float.py])

    [f64] values are printed by trying more and more digits with C's [printf]
    until C's [strtod] reads the number back, and rearranging the digits the way
    Python's [repr] does.  The numbers and the two C functions are the class
    [Float]; [FloatLaws] states what the C standard and IEEE 754 say of them.
    [f32] values are widened first, which loses nothing, and printed alike. *)

From S2P Require Import Prelude RawList Bits Buffers Utf8 StrOps StrIndex IntDigits IntText StrPad.

Local Open Scope Z_scope.
Local Open Scope monad_scope.

(** ** Numbers and the C library *)

(** [format_f64 precision type_char alt x] is what [snprintf( "%.*c", x )]
    prints, [None] a negative result. *)
Class Float (F : Type) := {
  is_nan : F -> bool;
  is_inf : F -> bool;
  f_lt : F -> F -> bool;
  f_eq : F -> F -> bool;
  f_neg : F -> F;
  f_mul : F -> F -> F;
  f_zero : F;
  f_hundred : F;
  format_f64 : Z -> Z -> bool -> F -> option (list Z);
  parse_f64 : list Z -> F;
}.

Definition MAX_INTEGER_DIGITS : nat := 320.
Definition TYPE_CHAR_F : Z := 102.
Definition TYPE_CHAR_G : Z := 103.
Definition TYPE_CHAR_E : Z := 101.
Definition DECIMAL_DIGIT_CHARS : Str := constant "0123456789".
Definition MAX_REPR_SIGNIFICANT_DIGITS : nat := 17.
Definition REPR_SEARCH_BUF_SIZE : nat := 32.

(** A C string in a buffer. *)
Fixpoint c_string (d : Buffer) : result abort (list Z) :=
  match d with
  | Some 0 :: _ => Ok []
  | Some x :: d => let? r := c_string d in Ok (x :: r)
  | _ => Err Fault
  end.

(** [str._from_owned_cstr( buf, size )], where [buf] may be longer. *)
Definition owned_prefix (msg : string) (buf : Buffer) (size : nat) : result abort Str :=
  if (size <=? length buf)%nat then owned_str msg (take size buf) size else Err Fault.

Section float_text.
Context {F : Type} `{Float F}.

(** [n = compiler.format_f64( buf, size, ... ); if n < 0: sys.panic( msg )]; the
    text is cut to the size of the buffer. *)
Definition format_into (msg : string) (buf : Buffer) (precision type_char : Z) (alt : bool) (value : F) :
    result abort (Buffer * nat) :=
  match format_f64 precision type_char alt value with
  | None => Err (Panic msg)
  | Some text =>
      let? buf := store_bytes 0 (take (length buf - 1) text ++ [0]) buf in
      Ok (buf, length text)
  end.

Definition magnitude (value : F) : F := if f_lt value f_zero then f_neg value else value.

(** ** Format specifications *)

Definition group_integer_part (digits sep : Str) : result abort Str :=
  let? (int_part, rest) := split_at_dot digits in
  let count := byte_len int_part in
  if (count <=? 3)%nat then Ok digits
  else
    let? (stop, groups) := cut_groups count int_part count [] in
    let? last := byte_slice int_part 0 stop in
    let? joined := join_text sep (rev (groups ++ [last])) in
    str_add joined rest.

Definition f64_sign_prefix (crt_memcmp : list Z -> list Z -> Z) (value : F) (mode : Str) : result abort Str :=
  if f_lt value f_zero then Ok (constant "-")
  else
    let? plus := str_eq crt_memcmp mode (constant "+") in
    if plus : bool then Ok (constant "+")
    else
      let? space := str_eq crt_memcmp mode (constant " ") in
      if space : bool then Ok (constant " ") else Ok (constant "").

Definition f64_fixed_digits_raw (value : F) (precision : nat) (type_char : Z) (alt : bool) : result abort Str :=
  if is_nan value then Ok (constant "nan")
  else if is_inf value then Ok (constant "inf")
  else
    let buf_size := (MAX_INTEGER_DIGITS + 1 + precision + 1)%nat in
    let? (buf, n) := format_into "f-string float formatting failed" (alloc_u8 buf_size) (i32 (Z.of_nat precision)) type_char alt
      (magnitude value) in
    owned_prefix "compiler.format_f64 produced invalid utf-8" buf (n + 1).

Definition f64_fixed_digits (value : F) (precision : nat) (type_char : Z) (alt : bool) (sep : Str) : result abort Str :=
  let? digits := f64_fixed_digits_raw value precision type_char alt in
  group_integer_part digits sep.

Definition f64_percent_digits_raw (value : F) (precision : nat) (alt : bool) : result abort Str :=
  f64_fixed_digits_raw (f_mul value f_hundred) precision TYPE_CHAR_F alt.

Definition f64_percent_digits (value : F) (precision : nat) (alt : bool) (sep : Str) : result abort Str :=
  let? digits := f64_percent_digits_raw value precision alt in
  let? grouped := group_integer_part digits sep in
  str_add grouped (constant "%").

Definition f64_none_type_digits_raw (crt_memcmp : list Z -> list Z -> Z) (value : F) (precision : nat) (alt : bool) :
    result abort Str :=
  let? raw := f64_fixed_digits_raw value precision TYPE_CHAR_G alt in
  let? nan := str_eq crt_memcmp raw (constant "nan") in
  let? inf := str_eq crt_memcmp raw (constant "inf") in
  if (nan : bool) || inf then Ok raw
  else
    let? dot := str_find raw (constant ".") 0 in
    if negb (dot =? -1) then Ok raw
    else
      let? exp := str_find raw (constant "e") 0 in
      if negb (exp =? -1) then Ok raw else str_add raw (constant ".0").

Definition f64_none_type_digits (crt_memcmp : list Z -> list Z -> Z) (value : F) (precision : nat) (alt : bool) (sep : Str) :
    result abort Str :=
  let? digits := f64_none_type_digits_raw crt_memcmp value precision alt in
  group_integer_part digits sep.

(** ** [repr] *)

Definition digit_slice (i : nat) : result abort Str := byte_slice DECIMAL_DIGIT_CHARS i (i + 1).

Definition f64_exponent_text (magnitude : Z) : result abort Str :=
  let hundreds := magnitude / 100 in
  let remainder := magnitude mod 100 in
  let? hundreds_i := usize_of_i32 hundreds in
  let? tens_i := usize_of_i32 (remainder / 10) in
  let? ones_i := usize_of_i32 (remainder mod 10) in
  let? one_digit := digit_slice ones_i in
  let? ten_digit := digit_slice tens_i in
  if 0 <? hundreds then
    let? hundred_digit := digit_slice hundreds_i in
    let? high := str_add hundred_digit ten_digit in
    str_add high one_digit
  else str_add ten_digit one_digit.

(** The exponent behind its sign, as [i32] under [wrap_arithmetic]. *)
Definition read_exponent (exp_text : Str) : result abort Z :=
  let? sign := read_ptr (s_data exp_text) 0 in
  let? exponent := result_fold (fun exponent i =>
    let? c := read_ptr (s_data exp_text) i in Ok (i32 (exponent * 10 + (c - 48)))) 0 (seq 1 (byte_len exp_text - 1)) in
  Ok (if sign =? 45 then i32 (- exponent) else exponent).

(** The digits before and after the point, joined. *)
Definition mantissa_digits (mantissa : Str) : result abort Str :=
  let? dot_found := str_find mantissa (constant ".") 0 in
  let dot_index := if dot_found =? -1 then byte_len mantissa else Z.to_nat dot_found in
  if (dot_index <? byte_len mantissa)%nat then
    let? a := byte_slice mantissa 0 dot_index in
    let? b := byte_slice mantissa (dot_index + 1) (byte_len mantissa) in
    str_add a b
  else Ok mantissa.

Definition repr_fixed (digits : Str) (exponent : Z) : result abort Str :=
  let digit_count := byte_len digits in
  if 0 <=? exponent then
    let int_digit_count := (Z.to_nat exponent + 1)%nat in
    if (digit_count <=? int_digit_count)%nat then
      let? padded := ljust digits int_digit_count (constant "0") in
      str_add padded (constant ".0")
    else
      let? int_part := byte_slice digits 0 int_digit_count in
      let? frac_part := byte_slice digits int_digit_count digit_count in
      let? int_dot := str_add int_part (constant ".") in
      str_add int_dot frac_part
  else
    let zero_count := (Z.to_nat (- exponent) - 1)%nat in
    let? leading_zeros := rjust (constant "") zero_count (constant "0") in
    let? front := str_add (constant "0.") leading_zeros in
    str_add front digits.

Definition repr_scientific (digits : Str) (exponent : Z) : result abort Str :=
  let digit_count := byte_len digits in
  let? mantissa_text :=
    if (1 <? digit_count)%nat then
      let? first := byte_slice digits 0 1 in
      let? rest := byte_slice digits 1 digit_count in
      let? first_dot := str_add first (constant ".") in
      str_add first_dot rest
    else Ok digits in
  let exp_sign := if exponent <? 0 then constant "-" else constant "+" in
  let exp_magnitude := if exponent <? 0 then i32 (- exponent) else exponent in
  let? exp_digits := f64_exponent_text exp_magnitude in
  let? t := str_add mantissa_text (constant "e") in
  let? t := str_add t exp_sign in
  str_add t exp_digits.

Definition f64_repr_from_scientific (sci_text : Str) : result abort Str :=
  let? e_found := str_find sci_text (constant "e") 0 in
  let e_index := if e_found =? -1 then byte_len sci_text else Z.to_nat e_found in
  let? mantissa := byte_slice sci_text 0 e_index in
  let? digits := mantissa_digits mantissa in
  let? exp_text := byte_slice sci_text (e_index + 1) (byte_len sci_text) in
  let? exponent := read_exponent exp_text in
  if (-4 <=? exponent) && (exponent <? 16) then repr_fixed digits exponent else repr_scientific digits exponent.

(** [while True: ...]: at most [MAX_REPR_SIGNIFICANT_DIGITS] rounds; [fuel] counts
    the precisions left. *)
Fixpoint repr_search (fuel : nat) (buf : Buffer) (precision : nat) (magnitude : F) : result abort (Buffer * nat) :=
  let? (buf, n) := format_into "f-string float repr formatting failed" buf (i32 (Z.of_nat precision)) TYPE_CHAR_E false magnitude in
  let? text := c_string buf in
  if f_eq (parse_f64 text) magnitude || (MAX_REPR_SIGNIFICANT_DIGITS - 1 <=? precision)%nat then Ok (buf, n)
  else match fuel with O => Err Fault | S fuel => repr_search fuel buf (precision + 1) magnitude end.

Definition f64_repr_digits_raw (value : F) : result abort Str :=
  if is_nan value then Ok (constant "nan")
  else if is_inf value then Ok (constant "inf")
  else if f_eq value f_zero then Ok (constant "0.0")
  else
    let? (buf, n) := repr_search MAX_REPR_SIGNIFICANT_DIGITS (alloc_u8 REPR_SEARCH_BUF_SIZE) 0 (magnitude value) in
    let? sci_text := owned_prefix "compiler.format_f64 produced invalid utf-8" buf (n + 1) in
    f64_repr_from_scientific sci_text.

Definition f64_repr_digits (value : F) (sep : Str) : result abort Str :=
  let? digits := f64_repr_digits_raw value in
  group_integer_part digits sep.

Definition f64_str (crt_memcmp : list Z -> list Z -> Z) (value : F) : result abort Str :=
  let? sign := f64_sign_prefix crt_memcmp value (constant "-") in
  let? digits := f64_repr_digits_raw value in
  str_add sign digits.

Definition f64_repr (crt_memcmp : list Z -> list Z -> Z) (value : F) : result abort Str := f64_str crt_memcmp value.
End float_text.

(** ** The texts of numbers *)

(** A text of digits, which may be empty, and its value. *)
Definition all_digits (l : list Z) : Prop := Forall (fun c => ascii_zero <= c <= ascii_nine) l.
Definition num (l : list Z) : Z := val (rev (map (fun c => c - ascii_zero) l)).

Inductive fraction_text : list Z -> list Z -> Prop :=
| no_fraction : fraction_text [] []
| some_fraction fp : all_digits fp -> fp <> [] -> fraction_text (46 :: fp) fp.

Inductive sign_text : list Z -> Z -> Prop :=
| no_sign : sign_text [] 1
| plus_sign : sign_text [43] 1
| minus_sign : sign_text [45] (-1).

Inductive exponent_text : list Z -> Z -> Prop :=
| no_exponent : exponent_text [] 0
| some_exponent mark sg s ds : mark = 101 \/ mark = 69 -> sign_text sg s -> all_digits ds -> ds <> [] ->
    exponent_text (mark :: sg ++ ds) (s * num ds).

(** [t] stands for [m * 10 ^ e]. *)
Inductive number_text : list Z -> Z -> Z -> Prop :=
| number_text_intro ip fr fp ex x : all_digits ip -> ip <> [] -> fraction_text fr fp -> exponent_text ex x ->
    number_text (ip ++ fr ++ ex) (num (ip ++ fp)) (x - Z.of_nat (length fp)).

Definition same_value (m1 e1 m2 e2 : Z) : Prop :=
  let e := Z.min e1 e2 in m1 * 10 ^ (e1 - e) = m2 * 10 ^ (e2 - e).

(** What [printf( "%.*e" )] prints: a digit that is not zero, the other digits
    behind a point, and the exponent with two digits or as many as it needs. *)
Definition point (fp : list Z) : list Z := match fp with [] => [] | _ => 46 :: fp end.

Record scientific (D : list Z) (sg ds : list Z) : Prop := {
  sci_digits : all_digits D;
  sci_first : exists d fp, D = d :: fp /\ d <> ascii_zero;
  sci_sign : sg = [43] \/ sg = [45];
  sci_exponent : all_digits ds;
  sci_length : (2 <= length ds <= 3)%nat;
}.

Definition scientific_text (D sg ds : list Z) : list Z := take 1 D ++ point (drop 1 D) ++ 101 :: sg ++ ds.
Definition scientific_exponent (sg ds : list Z) : Z := if decide (sg = [45]) then - num ds else num ds.

(** ** The laws *)

Definition finite {F} `{Float F} (x : F) : Prop := is_nan x = false /\ is_inf x = false.

Class FloatLaws (F : Type) `{Float F} := {
  zero_not_negative (x : F) : f_eq x f_zero = true -> f_lt x f_zero = false;
  sign_cases (x : F) : finite x -> f_eq x f_zero = false -> f_lt x f_zero = false -> f_lt f_zero x = true;
  neg_positive (x : F) : finite x -> f_lt x f_zero = true -> finite (f_neg x) /\ f_lt f_zero (f_neg x) = true;
  neg_eq (a x : F) : f_eq a (f_neg x) = true -> f_eq (f_neg a) x = true;
  (** [strtod] reads the value a text stands for, however it is written. *)
  parse_value t1 m1 e1 t2 m2 e2 : number_text t1 m1 e1 -> number_text t2 m2 e2 -> same_value m1 e1 m2 e2 ->
    parse_f64 t1 = parse_f64 t2;
  parse_negative t m e : number_text t m e -> parse_f64 (45 :: t) = f_neg (parse_f64 t);
  parse_zero (x : F) : f_eq x f_zero = true -> f_eq (parse_f64 [48; 46; 48]) x = true;
  (** [printf] writes the scientific form, and 17 digits determine a double. *)
  format_scientific (x : F) p : finite x -> f_lt f_zero x = true -> 0 <= p <= 16 ->
    exists D sg ds, format_f64 p TYPE_CHAR_E false x = Some (scientific_text D sg ds) /\
      scientific D sg ds /\ Z.of_nat (length D) = p + 1;
  seventeen_digits (x : F) t : finite x -> f_lt f_zero x = true -> format_f64 16 TYPE_CHAR_E false x = Some t ->
    f_eq (parse_f64 t) x = true;
}.

(** ** What Python prints *)

Definition exponent_digits (v : Z) : list Z :=
  if v <? 100 then [ascii_zero + v / 10; ascii_zero + v mod 10]
  else [ascii_zero + v / 100; ascii_zero + v mod 100 / 10; ascii_zero + v mod 10].

(** [repr] of the digits [D] with the point behind the first and the exponent [x]. *)
Definition python_repr (D : list Z) (x : Z) : list Z :=
  if (-4 <=? x) && (x <? 16) then
    if 0 <=? x then
      let n := (Z.to_nat x + 1)%nat in
      if (length D <=? n)%nat then D ++ replicate (n - length D) 48 ++ [46; 48] else take n D ++ 46 :: drop n D
    else [48; 46] ++ replicate (Z.to_nat (- x) - 1) 48 ++ D
  else take 1 D ++ point (drop 1 D) ++ [101; if x <? 0 then 45 else 43] ++ exponent_digits (Z.abs x).

(** *** Values *)

Lemma num_app a b : num (a ++ b) = num a * 10 ^ Z.of_nat (length b) + num b.
Proof. unfold num. rewrite map_app, rev_app_distr, val_app, length_rev, length_map. unfold pow10. lia. Qed.

Lemma num_zeros n : num (replicate n 48) = 0.
Proof.
  unfold num. assert (rev (map (fun c => c - ascii_zero) (replicate n 48)) = replicate n 0) as ->; [|apply val_replicate].
  induction n as [|n IH]; [done|]. cbn [replicate map rev]. rewrite IH. by rewrite <- replicate_S_end.
Qed.

Lemma num_bound l : all_digits l -> 0 <= num l < 10 ^ Z.of_nat (length l).
Proof.
  intros Hl. unfold num. pose proof (val_bound (rev (map (fun c => c - ascii_zero) l))) as H.
  rewrite length_rev, length_map in H. apply H, Forall_rev, Forall_map. eapply Forall_impl; [exact Hl|].
  intros x Hx. unfold digit, ascii_zero, ascii_nine in *. cbv beta in *. lia.
Qed.

Lemma all_digits_app a b : all_digits (a ++ b) <-> all_digits a /\ all_digits b.
Proof. apply Forall_app. Qed.

Lemma all_digits_zeros n : all_digits (replicate n 48).
Proof. apply Forall_replicate. unfold ascii_zero, ascii_nine. lia. Qed.

Lemma all_digits_ascii l : all_digits l -> ascii l.
Proof. intros Hl. eapply Forall_impl; [exact Hl|]. unfold ascii_zero, ascii_nine. cbv beta. lia. Qed.

Lemma same_value_shift m e k : 0 <= k -> same_value (m * 10 ^ k) (e - k) m e.
Proof. intros Hk. unfold same_value. rewrite Z.min_l by lia. replace (e - k - (e - k)) with 0 by lia. replace (e - (e - k)) with k by lia. lia. Qed.

Lemma same_value_refl m e : same_value m e m e.
Proof. done. Qed.

Lemma exponent_digits_ok v : 0 <= v < 1000 -> all_digits (exponent_digits v) /\ exponent_digits v <> [] /\ num (exponent_digits v) = v.
Proof.
  intros Hv. unfold exponent_digits, num, all_digits, ascii_zero, ascii_nine. destruct (Z.ltb_spec v 100).
  - split_and!; [repeat constructor; divmod|done|]. cbn [map rev app val]. divmod.
  - split_and!; [repeat constructor; divmod|done|]. cbn [map rev app val]. divmod.
Qed.

Lemma point_fraction fp : all_digits fp -> fraction_text (point fp) fp.
Proof. intros Hf. destruct fp; simpl; by constructor. Qed.

(** The scientific form that [printf] writes. *)
Lemma scientific_number D sg ds : scientific D sg ds ->
  number_text (scientific_text D sg ds) (num D) (scientific_exponent sg ds - (Z.of_nat (length D) - 1)).
Proof.
  intros [HD (d & fp & -> & Hd) Hsg Hds Hl]. apply (all_digits_app [d] fp) in HD as [H1 H2]. cbn [take drop].
  assert (Hx : exponent_text (101 :: sg ++ ds) (scientific_exponent sg ds)).
  { unfold scientific_exponent. assert (ds <> []) by (by intros ->; simpl in Hl; lia).
    destruct Hsg as [-> | ->]; cbn [decide]; [rewrite decide_False by done; replace (num ds) with (1 * num ds) by lia
      |rewrite decide_True by done; replace (- num ds) with ((-1) * num ds) by lia]; constructor; try done; try (by left); constructor. }
  pose proof (number_text_intro [d] (point fp) fp _ _ H1 ltac:(done) (point_fraction _ H2) Hx) as Hn.
  replace (scientific_exponent sg ds - (Z.of_nat (length (d :: fp)) - 1)) with (scientific_exponent sg ds - Z.of_nat (length fp)) by (simpl length; lia).
  exact Hn.
Qed.

Lemma scientific_exponent_bound D sg ds : scientific D sg ds -> - 1000 < scientific_exponent sg ds < 1000.
Proof.
  intros [_ _ _ Hds Hl]. pose proof (num_bound ds Hds). assert (10 ^ Z.of_nat (length ds) <= 10 ^ 3) by (apply Z.pow_le_mono_r; lia).
  unfold scientific_exponent. destruct (decide _); lia.
Qed.

(** [python_repr] keeps the value. *)
Lemma python_repr_value D x : all_digits D -> D <> [] -> - 1000 < x < 1000 ->
  exists m e, number_text (python_repr D x) m e /\ same_value m e (num D) (x - (Z.of_nat (length D) - 1)).
Proof.
  intros HD Hne Hx. assert (Hl : (1 <= length D)%nat) by (destruct D; [done|simpl; lia]). unfold python_repr.
  destruct ((-4 <=? x) && (x <? 16)) eqn:Hr; [destruct (Z.leb_spec 0 x) as [H0|H0]; [cbn zeta; destruct (Nat.leb_spec (length D) (Z.to_nat x + 1)) as [Hn|Hn]|]|].
  - set (k := (Z.to_nat x + 1 - length D)%nat). rewrite (app_assoc D).
    assert (Hz : all_digits (D ++ replicate k 48)) by (apply all_digits_app; split; [done|apply all_digits_zeros]).
    exists (num ((D ++ replicate k 48) ++ [48])), (0 - 1). split.
    + apply (number_text_intro _ [46; 48] [48] [] 0); [done|by destruct D| |constructor].
      apply (some_fraction [48]); [repeat constructor; unfold ascii_zero, ascii_nine; lia|done].
    + rewrite !num_app, num_zeros, length_replicate. change (num [48]) with 0. cbn [length].
      replace ((num D * 10 ^ Z.of_nat k + 0) * 10 ^ Z.of_nat 1 + 0) with (num D * 10 ^ (Z.of_nat k + 1)) by (rewrite Z.pow_add_r by lia; change (10 ^ Z.of_nat 1) with (10 ^ 1); ring).
      replace (0 - 1) with ((x - (Z.of_nat (length D) - 1)) - (Z.of_nat k + 1)) by lia. apply same_value_shift. lia.
  - rewrite <- (take_drop (Z.to_nat x + 1) D) in HD at 1. apply all_digits_app in HD as [Ha Hb].
    exists (num D), (0 - Z.of_nat (length (drop (Z.to_nat x + 1) D))). split.
    + rewrite <- (take_drop (Z.to_nat x + 1) D) at 3.
      replace (46 :: drop (Z.to_nat x + 1) D) with ((46 :: drop (Z.to_nat x + 1) D) ++ []) by apply app_nil_r.
      apply number_text_intro; [done| | |constructor].
      * intros E. apply (f_equal length) in E. rewrite length_take in E. simpl in E. lia.
      * constructor; [done|]. intros E. apply (f_equal length) in E. rewrite length_drop in E. simpl in E. lia.
    + rewrite length_drop. replace (0 - Z.of_nat (length D - (Z.to_nat x + 1))) with (x - (Z.of_nat (length D) - 1)) by lia. apply same_value_refl.
  - set (k := (Z.to_nat (- x) - 1)%nat). exists (num ([48] ++ replicate k 48 ++ D)), (0 - Z.of_nat (length (replicate k 48 ++ D))). split.
    + replace ([48; 46] ++ replicate k 48 ++ D) with ([48] ++ (46 :: replicate k 48 ++ D) ++ []) by (by rewrite app_nil_r).
      apply number_text_intro; [repeat constructor; unfold ascii_zero, ascii_nine; lia|done| |constructor].
      constructor; [apply all_digits_app; split; [apply all_digits_zeros|done]|by destruct k].
    + rewrite !num_app, num_zeros, length_app, length_replicate. change (num [48]) with 0.
      replace (0 - Z.of_nat (k + length D)) with (x - (Z.of_nat (length D) - 1)) by lia. rewrite Z.mul_0_l, !Z.add_0_l. apply same_value_refl.
  - destruct D as [|d fp]; [done|]. apply (all_digits_app [d] fp) in HD as [H1 H2]. cbn [take drop length].
    destruct (exponent_digits_ok (Z.abs x) ltac:(lia)) as (He & Hene & Hev).
    exists (num ([d] ++ fp)), (x - Z.of_nat (length fp)). split.
    + apply number_text_intro; [done|done|by apply point_fraction|]. cbn [app].
      destruct (Z.ltb_spec x 0).
      * replace x with ((-1) * num (exponent_digits (Z.abs x))) at 2 by lia.
        apply (some_exponent 101 [45]); [by left|constructor|done|done].
      * replace x with (1 * num (exponent_digits (Z.abs x))) at 2 by lia.
        apply (some_exponent 101 [43]); [by left|constructor|done|done].
    + replace (x - (Z.of_nat (S (length fp)) - 1)) with (x - Z.of_nat (length fp)) by lia. apply same_value_refl.
Qed.

(** *** The digits at the front of a text *)

Fixpoint span (l : list Z) : list Z * list Z :=
  match l with
  | c :: r => if digit_char c then let '(a, b) := span r in (c :: a, b) else ([], l)
  | [] => ([], [])
  end.

Lemma digit_char_spec c : digit_char c = true <-> ascii_zero <= c <= ascii_nine.
Proof. unfold digit_char. rewrite andb_true_iff, !Z.leb_le. lia. Qed.

Lemma span_app a b : all_digits a -> match b with c :: _ => ~ ascii_zero <= c <= ascii_nine | [] => True end -> span (a ++ b) = (a, b).
Proof.
  intros Ha Hb. induction Ha as [|c a Hc _ IH]; cbn [app span].
  - destruct b as [|c b]; [done|]. cbn [span]. destruct (digit_char c) eqn:E; [|done]. by apply digit_char_spec in E.
  - by rewrite (proj2 (digit_char_spec c) Hc), IH.
Qed.

(** *** The code computes [python_repr] *)

Lemma ascii_app a b : ascii (a ++ b) <-> ascii a /\ ascii b.
Proof. apply Forall_app. Qed.

Lemma occurs_one c l k : occurs [c] l k -> c ∈ l.
Proof. intros (a & b & -> & _). set_solver. Qed.

Lemma find_char s sub a c b : str_ok s (a ++ c :: b) -> str_ok sub [c] -> c ∉ a -> ascii a -> str_find s sub 0 = Ok (Z.of_nat (length a)).
Proof.
  intros Hs Hsub Hc Ha. destruct (str_find_text s sub [] _ [c] Hs Hsub ltac:(done)) as (r & E & Hr). change (length (utf8 [])) with O in E.
  rewrite E. destruct Hr as [[-> Hno]|(u & v & Eu & -> & Hmin)]; [exfalso; apply (Hno (length a)); by exists a, b|].
  cbn [app] in *. assert (length u = length a) as Hl.
  { apply Nat.le_antisymm.
    - apply Nat.nlt_ge. intros Hlt. apply (Hmin (length a) Hlt). by exists a, b.
    - apply Nat.nlt_ge. intros Hlt. apply Hc. rewrite <- (take_drop (length u) a) in Eu |- *. rewrite <- app_assoc in Eu.
      apply app_inj_1 in Eu as [_ Eu]; [|rewrite length_take; lia]. destruct (drop (length u) a) eqn:Ed.
      + apply (f_equal length) in Ed. rewrite length_drop in Ed. simpl in Ed. lia.
      + injection Eu as -> _. set_solver. }
  apply app_inj_1 in Eu as [<- _]; [|done]. by rewrite utf8_ascii.
Qed.

Lemma find_no_char s sub a c : str_ok s a -> str_ok sub [c] -> c ∉ a -> str_find s sub 0 = Ok (-1).
Proof.
  intros Hs Hsub Hc. destruct (str_find_text s sub [] _ [c] Hs Hsub ltac:(done)) as (r & E & Hr). change (length (utf8 [])) with O in E.
  rewrite E. destruct Hr as [[-> _]|(u & v & Eu & -> & _)]; [done|]. destruct Hc. rewrite Eu. set_solver.
Qed.

Lemma not_digit c l : all_digits l -> c < ascii_zero \/ ascii_nine < c -> c ∉ l.
Proof. intros Hl Hc Hin. apply (Forall_forall (fun c => ascii_zero <= c <= ascii_nine) l) in Hin; [lia|done]. Qed.

Lemma known_constant t cps : ascii_codes t = cps -> ascii cps -> (length cps < 256)%nat -> str_ok (constant t) cps.
Proof. intros <- Ha Hl. by apply constant_ok. Qed.

Ltac constant_str := apply known_constant; [reflexivity|repeat constructor; lia|simpl; lia].

Lemma dot_ok : str_ok (constant ".") [46].
Proof. constant_str. Qed.
Lemma mark_ok : str_ok (constant "e") [101].
Proof. constant_str. Qed.
Lemma zero_char_ok : str_ok (constant "0") [48].
Proof. constant_str. Qed.

Lemma digit_slice_ok i : 0 <= i < 10 -> exists s, digit_slice (Z.to_nat i) = Ok s /\ str_ok s [ascii_zero + i].
Proof.
  intros Hi. set (l := ascii_codes "0123456789"). assert (Hok : str_ok DECIMAL_DIGIT_CHARS l) by (apply known_constant; [done|repeat constructor; lia|simpl; lia]).
  assert (Hl : l !! Z.to_nat i = Some (ascii_zero + i)).
  { assert (Hn : (Z.to_nat i < 10)%nat) by lia. replace (ascii_zero + i) with (ascii_zero + Z.of_nat (Z.to_nat i)) by lia.
    revert Hn. generalize (Z.to_nat i). intros n Hn. do 10 (destruct n as [|n]; [done|]). lia. }
  assert (Hal : ascii l) by (repeat constructor; lia). rewrite <- (take_drop_middle l _ _ Hl) in Hok, Hal.
  assert (Hlt : length (take (Z.to_nat i) l) = Z.to_nat i) by (rewrite length_take; simpl; lia).
  destruct (ascii_slice DECIMAL_DIGIT_CHARS _ [ascii_zero + i] _ Hok) as (s & E & Hs).
  { rewrite (cons_middle (ascii_zero + i)), app_assoc in Hal. apply Forall_app in Hal as [Hal _]. exact Hal. }
  rewrite length_app, Hlt in E. exists s. by split.
Qed.

Lemma exponent_text_ok v : 0 <= v < 1000 -> exists s, f64_exponent_text v = Ok s /\ str_ok s (exponent_digits v).
Proof.
  intros Hv. unfold f64_exponent_text. rewrite !usize_of_i32_ok by divmod. cbn [result_bind].
  destruct (digit_slice_ok (v mod 100 mod 10)) as (s1 & -> & H1); [divmod|].
  destruct (digit_slice_ok (v mod 100 / 10)) as (s2 & -> & H2); [divmod|]. cbn [result_bind]. unfold exponent_digits.
  replace (v mod 10) with (v mod 100 mod 10) by divmod.
  destruct (Z.ltb_spec 0 (v / 100)), (Z.ltb_spec v 100); try divmod.
  - destruct (digit_slice_ok (v / 100)) as (s3 & -> & H3); [divmod|]. cbn [result_bind].
    destruct (str_add_ok s3 s2 _ _ H3 H2) as (s4 & -> & H4). cbn [result_bind]. by apply (str_add_ok s4 s1 _ _ H4 H1).
  - destruct (str_add_ok s2 s1 _ _ H2 H1) as (s4 & -> & H4). exists s4. split; [done|].
    replace (v / 10) with (v mod 100 / 10) by divmod. done.
Qed.

Lemma read_digits_value (l : list Z) a : all_digits l -> 0 <= a -> a * 10 ^ Z.of_nat (length l) + num l < 2 ^ 31 ->
  foldl (fun exponent c => i32 (exponent * 10 + (c - 48))) a l = a * 10 ^ Z.of_nat (length l) + num l.
Proof.
  intros Hl. revert a. induction Hl as [|c l Hc Hl IH]; intros a Ha Hb; [unfold num; simpl in *; lia|].
  cbn [foldl]. pose proof (num_bound l Hl) as Hn.
  assert (Hcons : num (c :: l) = (c - 48) * 10 ^ Z.of_nat (length l) + num l).
  { change (c :: l) with ([c] ++ l). rewrite num_app. unfold num at 1. cbn [map rev app val]. unfold ascii_zero. lia. }
  cbn [length] in *. rewrite Nat2Z.inj_succ, Z.pow_succ_r in * by lia. rewrite Hcons in *. unfold ascii_zero, ascii_nine in Hc.
  assert (1 <= 10 ^ Z.of_nat (length l)) by (apply Z.pow_le_mono_r with (b := 0); lia).
  rewrite i32_small by nia. rewrite IH by nia. nia.
Qed.

Lemma read_exponent_ok s sg ds : str_ok s (sg ++ ds) -> sg = [43] \/ sg = [45] -> all_digits ds -> (length ds <= 3)%nat ->
  read_exponent s = Ok (scientific_exponent sg ds).
Proof.
  intros Hs Hsg Hds Hl. assert (Hn : num ds < 1000).
  { pose proof (num_bound ds Hds). assert (10 ^ Z.of_nat (length ds) <= 10 ^ 3) by (apply Z.pow_le_mono_r; lia). lia. }
  pose proof (num_bound ds Hds) as [Hn0 _].
  assert (Hsg' : exists c, sg = [c] /\ (c = 43 \/ c = 45)) by (destruct Hsg as [-> | ->]; eauto). destruct Hsg' as (c & -> & Hc). clear Hsg.
  assert (Hasc : ascii ([c] ++ ds)) by (apply ascii_app; split; [repeat constructor; lia|by apply all_digits_ascii]).
  unfold read_exponent. rewrite (byte_len_ok _ _ Hs), (str_data _ _ Hs), utf8_ascii by done.
  change (read_ptr (([c] ++ ds) ++ [0]) 0) with (@Ok abort Z c). cbn [result_bind].
  replace (length ([c] ++ ds) - 1)%nat with (length ds) by (simpl; lia).
  assert (Hf : forall todo pre a, ds = pre ++ todo ->
    result_fold (fun exponent i => let? x := read_ptr (([c] ++ ds) ++ [0]) i in Ok (i32 (exponent * 10 + (x - 48)))) a (seq (1 + length pre) (length todo))
    = @Ok abort Z (foldl (fun exponent c => i32 (exponent * 10 + (c - 48))) a todo)).
  { induction todo as [|x todo IH]; intros pre a E; [done|]. cbn [length seq result_fold foldl].
    assert (Hr : read_ptr (([c] ++ ds) ++ [0]) (1 + length pre) = Ok x).
    { unfold read_ptr. rewrite E. cbn [app]. change ((1 + length pre)%nat) with (S (length pre)). cbn [lookup list_lookup].
      rewrite <- app_assoc. cbn [app]. by rewrite (list_lookup_middle pre _ x _ eq_refl). }
    rewrite Hr. cbn [result_bind]. rewrite <- IH with (pre := pre ++ [x]) by (by rewrite <- app_assoc).
    rewrite length_app. cbn [length]. by replace (1 + (length pre + 1))%nat with (S (1 + length pre)) by lia. }
  specialize (Hf ds [] 0 eq_refl). change (1 + @length Z [])%nat with 1%nat in Hf. rewrite Hf. cbn [result_bind]. rewrite read_digits_value by (try done; lia).
  unfold scientific_exponent. destruct Hc as [-> | ->].
  - rewrite decide_False by done. cbn [Z.eqb Pos.eqb]. f_equal; lia.
  - rewrite decide_True by done. cbn [Z.eqb Pos.eqb]. rewrite i32_small by lia. f_equal; lia.
Qed.

Lemma mantissa_digits_ok s d fp : str_ok s (d :: point fp) -> all_digits (d :: fp) -> exists r, mantissa_digits s = Ok r /\ str_ok r (d :: fp).
Proof.
  intros Hs Ha. apply (all_digits_app [d] fp) in Ha as [Hd Hfp]. unfold mantissa_digits. rewrite (byte_len_ok _ _ Hs).
  destruct fp as [|x fp]; cbn [point] in *.
  - rewrite (find_no_char s _ [d] 46 Hs dot_ok) by (apply not_digit; [done|by left]). cbn [result_bind Z.eqb].
    change (-1 =? -1) with true. cbn iota. rewrite Nat.ltb_irrefl. by exists s.
  - rewrite (find_char s _ [d] 46 (x :: fp) Hs dot_ok) by (try (apply not_digit; [done|by left]); by apply all_digits_ascii).
    cbn [result_bind length]. change (Z.of_nat 1 =? -1) with false. cbn iota. change (Z.to_nat (Z.of_nat 1)) with 1%nat.
    assert (Hasc : ascii (d :: 46 :: x :: fp)).
    { apply (ascii_app [d]). split; [by apply all_digits_ascii|]. constructor; [lia|by apply all_digits_ascii]. }
    rewrite utf8_ascii by done. rewrite (proj2 (Nat.ltb_lt _ _)) by (simpl; lia).
    destruct (ascii_slice s [] [d] (46 :: x :: fp) Hs) as (a & Ea & Hsa); [by apply all_digits_ascii|]. cbn [length app] in Ea. rewrite Ea.
    destruct (ascii_slice s [d; 46] (x :: fp) []) as (b & Eb & Hsb); [by rewrite app_nil_r|done|]. cbn [length app] in Eb. cbn [length].
    cbn [result_bind]. change (1 + 1)%nat with 2%nat. rewrite Eb. cbn [result_bind]. by apply (str_add_ok a b [d] (x :: fp)).
Qed.

Lemma repr_fixed_ok s D x : str_ok s D -> all_digits D -> D <> [] -> -4 <= x < 16 -> exists r, repr_fixed s x = Ok r /\ str_ok r (python_repr D x).
Proof.
  intros Hs HD Hne Hx. unfold repr_fixed, python_repr. rewrite (byte_len_ok _ _ Hs), utf8_ascii by by apply all_digits_ascii.
  rewrite (proj2 (Z.leb_le (-4) x)), (proj2 (Z.ltb_lt x 16)) by lia. cbn [andb].
  destruct (Z.leb_spec 0 x) as [H0|H0]; [cbn zeta; destruct (Nat.leb_spec (length D) (Z.to_nat x + 1)) as [Hn|Hn]|].
  - destruct (ljust_ok s _ D 48 (Z.to_nat x + 1) Hs zero_char_ok) as (p & -> & Hp). cbn [result_bind].
    destruct (str_add_ok p (constant ".0") _ [46; 48] Hp) as (r & -> & Hr); [constant_str|]. exists r. by rewrite <- app_assoc in Hr.
  - set (n := (Z.to_nat x + 1)%nat) in *. assert (Hlt : length (take n D) = n) by (rewrite length_take; lia).
    assert (E : D = take n D ++ drop n D) by (by rewrite take_drop).
    destruct (ascii_slice s [] (take n D) (drop n D)) as (a & Ea & Ha); [by rewrite <- E|apply all_digits_ascii, Forall_take, HD|].
    cbn [length app] in Ea. rewrite Hlt in Ea. rewrite Ea. cbn [result_bind].
    destruct (ascii_slice s (take n D) (drop n D) []) as (b & Eb & Hb); [by rewrite app_nil_r, <- E|rewrite <- E; by apply all_digits_ascii|].
    rewrite <- E, Hlt in Eb. rewrite Eb. cbn [result_bind].
    destruct (str_add_ok a _ _ _ Ha dot_ok) as (c & -> & Hc). cbn [result_bind].
    destruct (str_add_ok c b _ _ Hc Hb) as (r & -> & Hr). exists r. by rewrite <- app_assoc in Hr.
  - destruct (rjust_ok (constant "") (constant "0") [] 48 (Z.to_nat (- x) - 1)) as (z & -> & Hz); [constant_str|constant_str|]. cbn [result_bind].
    rewrite app_nil_r, Nat.sub_0_r in Hz.
    destruct (str_add_ok (constant "0.") z [48; 46] (replicate (Z.to_nat (- x) - 1) 48)) as (f & -> & Hf); [constant_str|done|]. cbn [result_bind].
    destruct (str_add_ok f s _ _ Hf Hs) as (r & -> & Hr). exists r. by rewrite <- app_assoc in Hr.
Qed.

Lemma repr_scientific_ok s D x : str_ok s D -> all_digits D -> D <> [] -> - 1000 < x < 1000 -> ~ -4 <= x < 16 ->
  exists r, repr_scientific s x = Ok r /\ str_ok r (python_repr D x).
Proof.
  intros Hs HD Hne Hb Hx. unfold repr_scientific, python_repr. rewrite (byte_len_ok _ _ Hs), utf8_ascii by by apply all_digits_ascii.
  assert ((-4 <=? x) && (x <? 16) = false) as -> by (destruct (Z.leb_spec (-4) x), (Z.ltb_spec x 16); simpl; lia).
  destruct D as [|d fp]; [done|]. cbn [take drop].
  assert (Hm : exists m, (if (1 <? length (d :: fp))%nat then
      let? first := byte_slice s 0 1 in let? rest := byte_slice s 1 (length (d :: fp)) in
      let? first_dot := str_add first (constant ".") in str_add first_dot rest else Ok s) = Ok m /\ str_ok m (d :: point fp)).
  { destruct fp as [|y fp]; [by exists s|]. cbn [length]. change (1 <? S (S (length fp)))%nat with true. cbn iota.
    apply (all_digits_app [d]) in HD as HD'. destruct HD' as [Hd Hfp].
    destruct (ascii_slice s [] [d] (y :: fp) Hs) as (a & Ea & Ha); [by apply all_digits_ascii|]. cbn [length app] in Ea. rewrite Ea. cbn [result_bind].
    destruct (ascii_slice s [d] (y :: fp) []) as (b & Eb & Hsb); [by rewrite app_nil_r|by apply all_digits_ascii|]. cbn [length app] in Eb. rewrite Eb. cbn [result_bind].
    destruct (str_add_ok a _ _ _ Ha dot_ok) as (c & -> & Hc). cbn [result_bind]. by apply (str_add_ok c b _ _ Hc Hsb). }
  destruct Hm as (m & -> & Hm). cbn [result_bind].
  assert (Hmag : (if x <? 0 then i32 (- x) else x) = Z.abs x).
  { destruct (Z.ltb_spec x 0); [rewrite i32_small by lia; lia|lia]. }
  rewrite Hmag. destruct (exponent_text_ok (Z.abs x) ltac:(lia)) as (e & -> & He). cbn [result_bind].
  destruct (str_add_ok m _ _ _ Hm mark_ok) as (t1 & -> & H1). cbn [result_bind].
  assert (Hsg : str_ok (if x <? 0 then constant "-" else constant "+") [if x <? 0 then 45 else 43]) by (destruct (x <? 0); constant_str).
  destruct (str_add_ok t1 _ _ _ H1 Hsg) as (t2 & -> & H2). cbn [result_bind].
  destruct (str_add_ok t2 e _ _ H2 He) as (r & -> & Hr). exists r. split; [done|]. cbn [app] in *. by rewrite <- !app_assoc in Hr.
Qed.

Lemma repr_from_scientific_ok s D sg ds : str_ok s (scientific_text D sg ds) -> scientific D sg ds ->
  exists r, f64_repr_from_scientific s = Ok r /\ str_ok r (python_repr D (scientific_exponent sg ds)).
Proof.
  intros Hs Hsci. pose proof (scientific_exponent_bound _ _ _ Hsci) as Hb. destruct Hsci as [HD (d & fp & -> & Hd0) Hsg Hds Hl].
  change (str_ok s ([d] ++ point fp ++ 101 :: sg ++ ds)) in Hs. unfold f64_repr_from_scientific.
  apply (all_digits_app [d] fp) in HD as HD'. destruct HD' as [H1 H2].
  assert (Hma : ascii ([d] ++ point fp)).
  { apply ascii_app. split; [by apply all_digits_ascii|]. destruct fp; [constructor|]. constructor; [lia|by apply all_digits_ascii]. }
  assert (Hno : 101 ∉ [d] ++ point fp).
  { rewrite not_elem_of_app. split; [apply not_digit; [done|by right]|]. destruct fp; [apply not_elem_of_nil|]. cbn [point].
    rewrite not_elem_of_cons. split; [done|]. apply not_digit; [done|by right]. }
  rewrite app_assoc in Hs. rewrite (find_char s _ _ 101 _ Hs mark_ok Hno Hma). cbn [result_bind].
  rewrite (proj2 (Z.eqb_neq (Z.of_nat _) (-1))) by lia. rewrite Nat2Z.id.
  destruct (ascii_slice s [] ([d] ++ point fp) (101 :: sg ++ ds)) as (m & Em & Hm); [done|done|]. cbn [length app] in Em.
  rewrite (Em : byte_slice s 0 (length ([d] ++ point fp)) = _). cbn [result_bind].
  destruct (mantissa_digits_ok m d fp Hm HD) as (digits & -> & Hdg). cbn [result_bind].
  assert (Hta : ascii ((([d] ++ point fp) ++ [101]) ++ sg ++ ds)).
  { rewrite !ascii_app. split_and!; [by apply ascii_app in Hma as [? _]|by apply ascii_app in Hma as [_ ?]|repeat constructor; lia| |by apply all_digits_ascii].
    destruct Hsg as [-> | ->]; repeat constructor; lia. }
  destruct (ascii_slice s (([d] ++ point fp) ++ [101]) (sg ++ ds) []) as (e & Ee & He); [by rewrite app_nil_r, <- app_assoc|done|].
  rewrite (byte_len_ok _ _ Hs), utf8_ascii by (by rewrite <- app_assoc in Hta).
  rewrite (length_app ([d] ++ point fp) [101]) in Ee. cbn [length] in Ee. rewrite <- (app_assoc _ [101]) in Ee. cbn [app] in Ee |- *.
  rewrite Ee. cbn [result_bind]. rewrite (read_exponent_ok e sg ds He Hsg Hds ltac:(lia)). cbn [result_bind].
  destruct (Z.leb_spec (-4) (scientific_exponent sg ds)), (Z.ltb_spec (scientific_exponent sg ds) 16); cbn [andb].
  - apply repr_fixed_ok; [done|done|done|lia].
  - apply repr_scientific_ok; [done|done|done|lia|lia].
  - apply repr_scientific_ok; [done|done|done|lia|lia].
  - lia.
Qed.

(** *** The search *)

Lemma c_string_ok d t : starts d (t ++ [0]) -> Forall (fun c => c <> 0) t -> c_string d = Ok t.
Proof.
  intros [rest ->]. rewrite map_app, <- app_assoc. induction 1 as [|c t Hc _ IH]; [done|]. destruct c; [done|..]; cbn [map app c_string] in *; by rewrite IH.
Qed.

Lemma scientific_chars D sg ds : scientific D sg ds -> ascii (scientific_text D sg ds) /\ Forall (fun c => c <> 0) (scientific_text D sg ds) /\
  (length (scientific_text D sg ds) <= length D + 6)%nat.
Proof.
  intros [HD (d & fp & -> & _) Hsg Hds Hl]. unfold scientific_text. change (take 1 (d :: fp)) with [d]. change (drop 1 (d :: fp)) with fp.
  apply (all_digits_app [d] fp) in HD as [H1 H2].
  assert (Hp : all_digits fp -> Forall (fun c => 0 < c < 128) (point fp)).
  { intros _. destruct fp; [constructor|]. constructor; [lia|]. eapply Forall_impl; [exact H2|]. unfold ascii_zero, ascii_nine. cbv beta. lia. }
  assert (Hall : Forall (fun c => 0 < c < 128) ([d] ++ point fp ++ 101 :: sg ++ ds)).
  { repeat apply Forall_app_2; [|by apply Hp|constructor; [lia|apply Forall_app_2]].
    - eapply Forall_impl; [exact H1|]. unfold ascii_zero, ascii_nine. cbv beta. lia.
    - destruct Hsg as [-> | ->]; repeat constructor; lia.
    - eapply Forall_impl; [exact Hds|]. unfold ascii_zero, ascii_nine. cbv beta. lia. }
  split_and!; [eapply Forall_impl; [exact Hall|]; cbv beta; lia|eapply Forall_impl; [exact Hall|]; cbv beta; lia|].
  rewrite !length_app. cbn [length]. rewrite length_app. assert (length (point fp) <= length fp + 1)%nat by (destruct fp; simpl; lia).
  destruct Hsg as [-> | ->]; simpl; lia.
Qed.

Section shortest.
Context {F : Type} `{laws : FloatLaws F}.

Lemma format_into_ok msg buf p c alt (x : F) t : format_f64 p c alt x = Some t -> (length t < length buf)%nat ->
  exists buf', format_into msg buf p c alt x = Ok (buf', length t) /\ length buf' = length buf /\ starts buf' (t ++ [0]).
Proof.
  intros E Hl. unfold format_into. rewrite E, take_ge by lia.
  destruct (starts_store buf [] (t ++ [0]) (starts_nil buf)) as (b & Eb & Hb & Hs); [rewrite length_app; simpl; lia|].
  cbn [length] in Eb. rewrite Eb. cbn [result_bind]. by exists b.
Qed.

(** [p] digits behind the first are enough for [x], and [t] shows them. *)
Definition reads_back (x : F) (p : nat) (t : list Z) : Prop :=
  format_f64 (Z.of_nat p) TYPE_CHAR_E false x = Some t /\ f_eq (parse_f64 t) x = true.

Definition too_short (x : F) (p : nat) : Prop :=
  forall t, format_f64 (Z.of_nat p) TYPE_CHAR_E false x = Some t -> f_eq (parse_f64 t) x = false.

Lemma repr_search_ok (x : F) : finite x -> f_lt f_zero x = true -> forall fuel p buf, length buf = REPR_SEARCH_BUF_SIZE ->
  (p <= 16)%nat -> (16 <= p + fuel)%nat -> (forall q, (q < p)%nat -> too_short x q) ->
  exists buf' q D sg ds, repr_search fuel buf p x = Ok (buf', length (scientific_text D sg ds)) /\
    length buf' = REPR_SEARCH_BUF_SIZE /\ starts buf' (scientific_text D sg ds ++ [0]) /\ scientific D sg ds /\
    length D = S q /\ (q <= 16)%nat /\ reads_back x q (scientific_text D sg ds) /\ forall k, (k < q)%nat -> too_short x k.
Proof.
  intros Hx Hpos. induction fuel as [|fuel IH]; intros p buf Hbuf Hp Hf Hshort; cbn [repr_search];
    (rewrite i32_small by lia; destruct (format_scientific x (Z.of_nat p) Hx Hpos ltac:(lia)) as (D & sg & ds & Hfmt & Hsci & HlD);
     destruct (scientific_chars _ _ _ Hsci) as (_ & Hnz & Hlt);
     destruct (format_into_ok "f-string float repr formatting failed" buf _ _ _ x _ Hfmt) as (b & -> & Hb & Hs);
       [rewrite Hbuf; unfold REPR_SEARCH_BUF_SIZE; lia|]; cbn [result_bind]; rewrite (c_string_ok _ _ Hs Hnz); cbn [result_bind];
     destruct (f_eq (parse_f64 (scientific_text D sg ds)) x) eqn:Heq; cbn [orb];
       [exists b, p, D, sg, ds; split_and!; [done|congruence|done|done|lia|done|done|done]|];
     destruct (Nat.leb_spec (MAX_REPR_SIGNIFICANT_DIGITS - 1) p) as [Hle|Hgt];
       [unfold MAX_REPR_SIGNIFICANT_DIGITS in Hle; replace (Z.of_nat p) with 16 in Hfmt by lia;
        by rewrite (seventeen_digits x _ Hx Hpos Hfmt) in Heq|]).
  - unfold MAX_REPR_SIGNIFICANT_DIGITS in Hgt. lia.
  - unfold MAX_REPR_SIGNIFICANT_DIGITS in Hgt. apply IH; [congruence|lia|lia|]. intros q Hq t Ht.
    destruct (decide (q = p)) as [->|]; [|by apply (Hshort q ltac:(lia))]. rewrite Hfmt in Ht. by injection Ht as <-.
Qed.

Lemma owned_prefix_ok msg d t : starts d (t ++ [0]) -> ascii t -> exists s, owned_prefix msg d (length t + 1) = Ok s /\ str_ok s t.
Proof.
  intros Hs Ha. unfold owned_prefix. pose proof (starts_le _ _ Hs) as Hl. rewrite length_app in Hl. cbn [length] in Hl.
  rewrite (proj2 (Nat.leb_le _ _)) by lia. destruct Hs as [rest ->].
  rewrite take_app_le, take_ge by (rewrite length_map, length_app; simpl; lia).
  destruct (owned_ok msg (map Some (t ++ [0])) t) as (s & E & Hs); [|rewrite length_map, length_app, utf8_ascii by done; simpl; lia|by apply text_ascii|].
  - exists []. by rewrite app_nil_r, utf8_ascii.
  - rewrite utf8_ascii in E by done. rewrite Nat.add_1_r. by exists s.
Qed.

Definition sign_of (x : F) : list Z := if f_lt x f_zero then [45] else [].

(** What is printed of a number that is not zero: of [printf]'s roundings to
    1, 2, 3, ... digits the first that reads back, laid out as Python's [repr]
    lays out digits.  Python takes the shortest of all digit strings that read
    back, which near a power of two need not be a rounding: 2 ** -44 has one of
    16 digits, 5.684341886080802e-14, and is printed with 17. *)
Inductive first_rounding (x : F) : list Z -> Prop :=
| first_rounding_intro q D sg ds : scientific D sg ds -> length D = S q -> (q <= 16)%nat ->
    reads_back (magnitude x) q (scientific_text D sg ds) -> (forall k, (k < q)%nat -> too_short (magnitude x) k) ->
    first_rounding x (sign_of x ++ python_repr D (scientific_exponent sg ds)).

Lemma magnitude_positive (x : F) : finite x -> f_eq x f_zero = false -> finite (magnitude x) /\ f_lt f_zero (magnitude x) = true.
Proof.
  intros Hx Hz. unfold magnitude. destruct (f_lt x f_zero) eqn:Hlt; [by apply neg_positive|]. split; [done|]. by apply sign_cases.
Qed.

Context (crt_memcmp : list Z -> list Z -> Z) (memcmp_law : forall a b, length a = length b -> Z.sgn (crt_memcmp a b) = lex a b).

Lemma sign_prefix_ok (x : F) : exists s, f64_sign_prefix crt_memcmp x (constant "-") = Ok s /\ str_ok s (sign_of x).
Proof using memcmp_law.
  unfold f64_sign_prefix, sign_of. destruct (f_lt x f_zero); [exists (constant "-"); split; [done|constant_str]|].
  rewrite (str_eq_ok _ memcmp_law _ _ [45] [43]) by constant_str. cbn [result_bind].
  rewrite (str_eq_ok _ memcmp_law _ _ [45] [32]) by constant_str. cbn [result_bind].
  exists (constant ""). split; [done|constant_str].
Qed.

Lemma repr_digits_ok (x : F) : finite x -> f_eq x f_zero = false -> exists s q D sg ds, f64_repr_digits_raw x = Ok s /\
  scientific D sg ds /\ length D = S q /\ (q <= 16)%nat /\ reads_back (magnitude x) q (scientific_text D sg ds) /\
  (forall k, (k < q)%nat -> too_short (magnitude x) k) /\ str_ok s (python_repr D (scientific_exponent sg ds)).
Proof.
  intros Hx Hz. destruct (magnitude_positive x Hx Hz) as [Hm Hpos]. unfold f64_repr_digits_raw. destruct Hx as [-> ->]. rewrite Hz.
  destruct (repr_search_ok (magnitude x) Hm Hpos MAX_REPR_SIGNIFICANT_DIGITS 0 (alloc_u8 REPR_SEARCH_BUF_SIZE))
    as (b & q & D & sg & ds & -> & Hb & Hs & Hsci & HD & Hq & Hread & Hmin);
    [apply alloc_length|lia|unfold MAX_REPR_SIGNIFICANT_DIGITS; lia|lia|]. cbn [result_bind].
  destruct (scientific_chars _ _ _ Hsci) as (Ha & _ & _).
  destruct (owned_prefix_ok "compiler.format_f64 produced invalid utf-8" b _ Hs Ha) as (t & -> & Ht). cbn [result_bind].
  destruct (repr_from_scientific_ok t D sg ds Ht Hsci) as (r & -> & Hr). by exists r, q, D, sg, ds.
Qed.

(** What is printed is read back. *)
Lemma shortest_reads_back (x : F) t : finite x -> f_eq x f_zero = false -> first_rounding x t -> f_eq (parse_f64 t) x = true.
Proof.
  intros Hx Hz [q D sg ds Hsci HD Hq [_ Hread] _]. pose proof (scientific_number _ _ _ Hsci) as Hn.
  destruct (python_repr_value D (scientific_exponent sg ds)) as (m & e & Hm & Hv);
    [apply Hsci|by destruct D|by eapply scientific_exponent_bound|].
  rewrite <- (parse_value _ _ _ _ _ _ Hm Hn Hv) in Hread. unfold sign_of, magnitude in *. destruct (f_lt x f_zero); [|done].
  cbn [app]. rewrite (parse_negative _ _ _ Hm). by apply neg_eq.
Qed.

Lemma f64_str_text (x : F) : finite x -> exists s t, f64_str crt_memcmp x = Ok s /\ str_ok s t /\
  f_eq (parse_f64 t) x = true /\ (if f_eq x f_zero then t = [48; 46; 48] else first_rounding x t).
Proof using laws memcmp_law.
  intros Hx. unfold f64_str. destruct (sign_prefix_ok x) as (sg & -> & Hsg). cbn [result_bind]. unfold sign_of in Hsg.
  destruct (f_eq x f_zero) eqn:Hz.
  - unfold f64_repr_digits_raw. pose proof Hx as [-> ->]. rewrite Hz. cbn [result_bind]. rewrite (zero_not_negative x Hz) in Hsg.
    destruct (str_add_ok sg (constant "0.0") [] [48; 46; 48] Hsg) as (r & E & Hr); [constant_str|].
    exists r, [48; 46; 48]. split_and!; [done|done|by apply parse_zero|done].
  - destruct (repr_digits_ok x Hx Hz) as (d & q & D & sg' & ds & -> & Hsci & HD & Hq & Hread & Hmin & Hd). cbn [result_bind].
    destruct (str_add_ok sg d _ _ Hsg Hd) as (r & -> & Hr).
    assert (Hs : first_rounding x (sign_of x ++ python_repr D (scientific_exponent sg' ds))) by (by eapply first_rounding_intro).
    eexists r, _. split_and!; [done|exact Hr|by apply shortest_reads_back|exact Hs].
Qed.

(** C37: [str] of a floating-point number.  The text of a finite number that is
    not zero has the digits of [printf]'s rounding to the least number of
    digits, from one to seventeen, that C's [strtod] reads back as the number,
    laid out as Python's [repr] lays out digits (not always the digits of
    [repr]: see [first_rounding]).  Rearranging them into positional or
    scientific notation keeps the value, so the whole text reads back as the
    number.  No slice, digit table or buffer is left. *)
Theorem f64_str_shortest (x : F) : finite x -> exists s t, f64_str crt_memcmp x = Ok s /\ str_ok s t /\
  f_eq (parse_f64 t) x = true /\ (if f_eq x f_zero then t = [48; 46; 48] else first_rounding x t).
Proof using laws memcmp_law.
  apply f64_str_text.
Qed.
End shortest.

(** ** A small number type

    Five numbers, [1.5] and its opposite among them, with a [printf] that rounds
    to even and a [strtod] that reads every decimal text: the laws can hold. *)
Inductive Small := SmallNan | SmallInf | SmallZero | SmallPos | SmallNeg.

Definition small_neg (x : Small) : Small := match x with SmallPos => SmallNeg | SmallNeg => SmallPos | _ => x end.

Definition small_lt (x y : Small) : bool :=
  match x, y with SmallNeg, (SmallZero | SmallPos) | SmallZero, SmallPos => true | _, _ => false end.

Definition small_eq (x y : Small) : bool :=
  match x, y with
  | SmallInf, SmallInf | SmallZero, SmallZero | SmallPos, SmallPos | SmallNeg, SmallNeg => true
  | _, _ => false
  end.

Definition small_digits (p : Z) : list Z := if p =? 0 then [50] else [49; 53] ++ replicate (Z.to_nat p - 1) 48.

Lemma match_sign {A} (c : Z) (f g h : A) : c <> 43 -> c <> 45 -> match c with 43 => f | 45 => g | _ => h end = h.
Proof. intros H1 H2. destruct c as [|p|p]; [done| |done]. do 6 (destruct p as [p|p|]; try done). Qed.

Lemma match_minus {A} (c : Z) (g h : A) : c <> 45 -> match c with 45 => g | _ => h end = h.
Proof. intros H1. destruct c as [|p|p]; [done| |done]. do 6 (destruct p as [p|p|]; try done). Qed.

Definition read_decimal (t : list Z) : Z * Z :=
  let '(ip, r) := span t in
  let '(fp, r) := match r with 46 :: r => span r | _ => ([], r) end in
  let x := match r with _ :: 43 :: ds => num ds | _ :: 45 :: ds => - num ds | _ :: ds => num ds | [] => 0 end in
  (num (ip ++ fp), x - Z.of_nat (length fp)).

#[local] Instance same_value_dec m1 e1 m2 e2 : Decision (same_value m1 e1 m2 e2).
Proof. unfold same_value. apply _. Defined.

Definition small_value (t : list Z) : Small :=
  let '(m, e) := read_decimal t in if decide (same_value m e 15 (-1)) then SmallPos else SmallZero.

Definition small_parse (t : list Z) : Small :=
  match t with 45 :: t => small_neg (small_value t) | _ => small_value t end.

#[local] Instance small_float : Float Small := {
  is_nan x := match x with SmallNan => true | _ => false end;
  is_inf x := match x with SmallInf => true | _ => false end;
  f_lt := small_lt;
  f_eq := small_eq;
  f_neg := small_neg;
  f_mul x _ := x;
  f_zero := SmallZero;
  f_hundred := SmallPos;
  format_f64 p _ _ x := match x with SmallPos => Some (scientific_text (small_digits p) [43] [48; 48]) | _ => None end;
  parse_f64 := small_parse;
}.

Lemma same_value_at e m1 e1 m2 e2 : e <= e1 -> e <= e2 -> same_value m1 e1 m2 e2 <-> m1 * 10 ^ (e1 - e) = m2 * 10 ^ (e2 - e).
Proof.
  intros H1 H2. unfold same_value. set (f := Z.min e1 e2). assert (0 < 10 ^ (f - e)) by (apply Z.pow_pos_nonneg; lia).
  replace (e1 - e) with ((e1 - f) + (f - e)) by lia. replace (e2 - e) with ((e2 - f) + (f - e)) by lia.
  rewrite !Z.pow_add_r by lia. nia.
Qed.

Lemma same_value_trans m1 e1 m2 e2 m3 e3 : same_value m1 e1 m2 e2 -> same_value m2 e2 m3 e3 -> same_value m1 e1 m3 e3.
Proof.
  set (e := Z.min e1 (Z.min e2 e3)). rewrite (same_value_at e m1 e1), (same_value_at e m2 e2), (same_value_at e m1 e1 m3) by lia. congruence.
Qed.

Lemma same_value_sym m1 e1 m2 e2 : same_value m1 e1 m2 e2 -> same_value m2 e2 m1 e1.
Proof. unfold same_value. rewrite (Z.min_comm e2 e1). congruence. Qed.

Lemma read_decimal_ok t m e : number_text t m e -> read_decimal t = (m, e).
Proof.
  intros [ip fr fp ex x Hip _ Hfr Hex]. unfold read_decimal.
  assert (Hend : match ex with c :: _ => ~ ascii_zero <= c <= ascii_nine | [] => True end).
  { destruct Hex as [|mark ? ? ? [-> | ->]]; [done|unfold ascii_zero, ascii_nine; lia..]. }
  assert (Hread : match ex with _ :: 43 :: ds => num ds | _ :: 45 :: ds => - num ds | _ :: ds => num ds | [] => 0 end = x).
  { destruct Hex as [|mark sg s ds _ Hsg Hds Hne]; [done|]. destruct Hsg; cbn [app]; [|lia..].
    rewrite Z.mul_1_l. destruct Hds as [|c ds Hc _]; [done|]. unfold ascii_zero, ascii_nine in Hc.
    apply match_sign; lia. }
  destruct Hfr as [|fp Hfp _].
  - rewrite app_nil_l, (span_app ip ex) by done. assert (E : match ex with 46 :: r => span r | _ => ([], ex) end = ([], ex)).
    { destruct Hex as [|mark ? ? ? [-> | ->]]; done. }
    rewrite E, Hread. done.
  - cbn [app]. rewrite (span_app ip (46 :: fp ++ ex)) by (try done; unfold ascii_zero, ascii_nine; lia).
    by rewrite (span_app fp ex), Hread.
Qed.

Lemma number_text_first t m e : number_text t m e -> exists c r, t = c :: r /\ ascii_zero <= c <= ascii_nine.
Proof. intros [ip fr fp ex x Hip Hne _ _]. destruct Hip as [|c ip Hc _]; [done|]. by exists c, (ip ++ fr ++ ex). Qed.

Lemma small_parse_value t m e : number_text t m e -> small_parse t = if decide (same_value m e 15 (-1)) then SmallPos else SmallZero.
Proof.
  intros Hn. destruct (number_text_first _ _ _ Hn) as (c & r & -> & Hc). unfold ascii_zero, ascii_nine in Hc.
  unfold small_parse. assert (E : match c :: r with 45 :: t => small_neg (small_value t) | _ => small_value (c :: r) end = small_value (c :: r)).
  { apply match_minus. lia. }
  rewrite E. unfold small_value. by rewrite (read_decimal_ok _ _ _ Hn).
Qed.

Lemma small_digits_ok p : 0 <= p <= 16 -> scientific (small_digits p) [43] [48; 48] /\ Z.of_nat (length (small_digits p)) = p + 1 /\
  (1 <= p -> num (small_digits p) = 15 * 10 ^ (p - 1)).
Proof.
  intros Hp. unfold small_digits. destruct (Z.eqb_spec p 0) as [->|Hne].
  - split_and!; [|done|lia]. split; [|exists 50, []|by left| |]; try done; repeat constructor; unfold ascii_zero, ascii_nine; lia.
  - split_and!.
    + split; [|by exists 49, (53 :: replicate (Z.to_nat p - 1) 48)|by left| |simpl; lia].
      * apply all_digits_app. split; [|apply all_digits_zeros]. repeat constructor; unfold ascii_zero, ascii_nine; lia.
      * repeat constructor; unfold ascii_zero, ascii_nine; lia.
    + rewrite length_app, length_replicate. simpl. lia.
    + intros _. rewrite num_app, num_zeros, length_replicate. change (num [49; 53]) with 15.
      replace (Z.of_nat (Z.to_nat p - 1)) with (p - 1) by lia. lia.
Qed.

#[local] Instance small_laws : FloatLaws Small.
Proof.
  split.
  - by intros [].
  - by intros [] [].
  - by intros [] [].
  - by intros [] [].
  - intros t1 m1 e1 t2 m2 e2 H1 H2 Hv. cbn [parse_f64 small_float]. rewrite (small_parse_value _ _ _ H1), (small_parse_value _ _ _ H2).
    destruct (decide (same_value m1 e1 15 (-1))) as [Ha|Ha], (decide (same_value m2 e2 15 (-1))) as [Hb|Hb]; try done.
    + destruct Hb. eapply same_value_trans; [by apply same_value_sym|done].
    + destruct Ha. by eapply same_value_trans.
  - intros t m e Hn. cbn [parse_f64 small_float f_neg]. rewrite (small_parse_value _ _ _ Hn). cbn [small_parse]. f_equal.
    unfold small_value. by rewrite (read_decimal_ok _ _ _ Hn).
  - by intros [].
  - intros [] p Hx Hpos Hp; try done. exists (small_digits p), [43], [48; 48]. destruct (small_digits_ok p Hp) as (? & ? & _). done.
  - intros [] t Hx Hpos E; try done. injection E as <-.
    destruct (small_digits_ok 16) as (Hsci & Hl & Hv); [lia|]. pose proof (scientific_number _ _ _ Hsci) as Hn.
    cbn [parse_f64 small_float]. rewrite (small_parse_value _ _ _ Hn), decide_True; [done|]. reflexivity.
Qed.

(** [-1.5] needs two digits: one digit rounds to [2]. *)
Lemma f64_str_shortest_witness : exists s t, f64_str lex SmallNeg = Ok s /\ str_ok s t /\ small_eq (small_parse t) SmallNeg = true /\ first_rounding SmallNeg t.
Proof.
  assert (Hm : forall u v, length u = length v -> Z.sgn (lex u v) = lex u v) by (intros; apply lex_sgn).
  destruct (f64_str_shortest lex Hm SmallNeg ltac:(split; reflexivity)) as (s & t & E & Hs & Hp & Ht). exists s, t.
  split; [exact E|]. split; [exact Hs|]. split; [exact Hp|exact Ht].
Defined.

Example f64_str_samples :
  ((let? s := f64_str lex SmallNeg in Ok (ascii_of_str s)) = Ok "-1.5"%string) /\
  ((let? s := f64_repr_from_scientific (constant "1.25e+16") in Ok (ascii_of_str s)) = Ok "1.25e+16"%string) /\
  ((let? s := f64_repr_from_scientific (constant "1.25e+03") in Ok (ascii_of_str s)) = Ok "1250.0"%string) /\
  ((let? s := f64_repr_from_scientific (constant "1.25e-04") in Ok (ascii_of_str s)) = Ok "0.000125"%string).
Proof. by vm_compute. Qed.
