(* ===== verification/Json.v ===== *)
(** * JSON: values, the parser and the printer ([lib/json.py])

    Arrays and objects are shared containers of a store, which the code mutates
    through every copy of the value.  An object is what [UnsafeDict] promises:
    entries in insertion order, the keys compared as texts.  The parser walks
    the bytes of a [str]; strings are measured first and then decoded into a
    buffer of that size.  [parse_value] recurses through arrays and objects: the
    functions of one level take the parser of the next as an argument. *)

From S2P Require Import Prelude RawList Bits Buffers Utf8 StrOps StrIndex IntDigits IntText FloatText.

Local Open Scope Z_scope.
Local Open Scope monad_scope.

Definition ASCII_TAB : Z := 9.
Definition ASCII_LF : Z := 10.
Definition ASCII_CR : Z := 13.
Definition ASCII_SPACE : Z := 32.
Definition ASCII_QUOTE : Z := 34.
Definition ASCII_PLUS : Z := 43.
Definition ASCII_COMMA : Z := 44.
Definition ASCII_MINUS : Z := 45.
Definition ASCII_DOT : Z := 46.
Definition ASCII_SLASH : Z := 47.
Definition ASCII_ZERO : Z := 48.
Definition ASCII_NINE : Z := 57.
Definition ASCII_COLON : Z := 58.
Definition ASCII_UPPER_A : Z := 65.
Definition ASCII_UPPER_E : Z := 69.
Definition ASCII_UPPER_F : Z := 70.
Definition ASCII_LBRACKET : Z := 91.
Definition ASCII_BACKSLASH : Z := 92.
Definition ASCII_RBRACKET : Z := 93.
Definition ASCII_LOWER_A : Z := 97.
Definition ASCII_LOWER_B : Z := 98.
Definition ASCII_LOWER_E : Z := 101.
Definition ASCII_LOWER_F : Z := 102.
Definition ASCII_LOWER_N : Z := 110.
Definition ASCII_LOWER_R : Z := 114.
Definition ASCII_LOWER_T : Z := 116.
Definition ASCII_LOWER_U : Z := 117.
Definition ASCII_LBRACE : Z := 123.
Definition ASCII_RBRACE : Z := 125.

Definition is_ascii_digit (c : Z) : bool := (ASCII_ZERO <=? c) && (c <=? ASCII_NINE).

(** ** Values *)

Inductive JSONError :=
| WrongType
| KeyNotFound
| IndexOutOfBounds
| Overflow
| NonFiniteFloat
| InvalidPath (offset : nat)
| PathTypeMismatch (offset : nat)
| UnexpectedEnd (offset : nat)
| UnexpectedChar (offset : nat)
| InvalidEscape (offset : nat)
| InvalidNumber (offset : nat)
| TrailingGarbage (offset : nat).

(** [from_cstr]: a copy of the bytes, validated. *)
Definition from_cstr (buf : list Z) (size : nat) : result abort (result CodecError Str) :=
  let? new_buf := bytes_at buf 0 size in
  let? last_index := panic_sub "invalid str length" size 1 in
  let? last := read_ptr new_buf last_index in
  if negb (last =? 0) then Ok (Err (utf8_error "missing null terminator")) else from_owned_cstr new_buf size.

Section json.
Context {F : Type} `{Float F} (crt_memcmp : list Z -> list Z -> Z).

Inductive JSONValue :=
| JNull
| JBool (b : bool)
| JInt (n : Int)
| JFloat (f : F)
| JString (s : Str)
| JArray (loc : nat)
| JObject (loc : nat).

Inductive Container :=
| CList (items : list JSONValue)
| CDict (entries : list (Str * JSONValue)).

Abbreviation Store := (list Container).
Abbreviation J A := (M Store abort (result JSONError A)).

(** *** Containers *)

Definition new_container (c : Container) : M Store abort nat := fun st => (Ok (length st), st ++ [c]).

Definition get_list (loc : nat) : M Store abort (list JSONValue) := fun st =>
  match st !! loc with Some (CList items) => (Ok items, st) | _ => (Err Fault, st) end.

Definition get_dict (loc : nat) : M Store abort (list (Str * JSONValue)) := fun st =>
  match st !! loc with Some (CDict entries) => (Ok entries, st) | _ => (Err Fault, st) end.

Definition set_container (loc : nat) (c : Container) : M Store abort unit := modify (fun st => <[loc := c]> st).

Definition same_key (a b : Str) : bool := bool_decide (s_data a = s_data b).

Fixpoint entry_get (key : Str) (entries : list (Str * JSONValue)) : option JSONValue :=
  match entries with
  | [] => None
  | (k, v) :: entries => if same_key k key then Some v else entry_get key entries
  end.

Fixpoint entry_set (key : Str) (value : JSONValue) (entries : list (Str * JSONValue)) : list (Str * JSONValue) :=
  match entries with
  | [] => [(key, value)]
  | (k, v) :: entries => if same_key k key then (k, value) :: entries else (k, v) :: entry_set key value entries
  end.

(** *** Construction and access *)

Definition json_array : M Store abort JSONValue := let* loc := new_container (CList []) in ret (JArray loc).
Definition json_object : M Store abort JSONValue := let* loc := new_container (CDict []) in ret (JObject loc).

Definition is_null (self : JSONValue) : bool := match self with JNull => true | _ => false end.
Definition as_bool (self : JSONValue) : result JSONError bool := match self with JBool b => Ok b | _ => Err WrongType end.
Definition as_int (self : JSONValue) : result JSONError Int := match self with JInt n => Ok n | _ => Err WrongType end.
Definition as_float (self : JSONValue) : result JSONError F := match self with JFloat f => Ok f | _ => Err WrongType end.
Definition as_str (self : JSONValue) : result JSONError Str := match self with JString s => Ok s | _ => Err WrongType end.
Definition as_array (self : JSONValue) : result JSONError nat := match self with JArray arr => Ok arr | _ => Err WrongType end.
Definition as_object (self : JSONValue) : result JSONError nat := match self with JObject obj => Ok obj | _ => Err WrongType end.

Definition array_len (self : JSONValue) : J nat :=
  let! arr := ret (as_array self) in
  let* items := get_list arr in
  ret (Ok (length items)).

Definition array_append (self value : JSONValue) : J unit :=
  let! arr := ret (as_array self) in
  let* items := get_list arr in
  set_container arr (CList (items ++ [value])) ;;; ret (Ok tt).

Definition array_get (self : JSONValue) (index : nat) : J JSONValue :=
  let! arr := ret (as_array self) in
  let* items := get_list arr in
  match list_getitem index items with Ok v => ret (Ok v) | Err _ => ret (Err IndexOutOfBounds) end.

Definition array_set (self : JSONValue) (index : nat) (value : JSONValue) : J unit :=
  let! arr := ret (as_array self) in
  let* items := get_list arr in
  match list_setitem index value items with
  | Ok items => set_container arr (CList items) ;;; ret (Ok tt)
  | Err _ => ret (Err IndexOutOfBounds)
  end.

Definition object_len (self : JSONValue) : J nat :=
  let! obj := ret (as_object self) in
  let* entries := get_dict obj in
  ret (Ok (length entries)).

Definition object_set (self : JSONValue) (key : Str) (value : JSONValue) : J unit :=
  let! obj := ret (as_object self) in
  let* entries := get_dict obj in
  set_container obj (CDict (entry_set key value entries)) ;;; ret (Ok tt).

Definition object_get (self : JSONValue) (key : Str) : J JSONValue :=
  let! obj := ret (as_object self) in
  let* entries := get_dict obj in
  match entry_get key entries with Some v => ret (Ok v) | None => ret (Err KeyNotFound) end.

(** A [Result] unwrapped. *)
Definition unwrapped {A} (msg : string) (m : J A) : M Store abort A := let* r := m in lift (unwrap msg r).

(** ** [loads] *)

Fixpoint skip_ws_from (fuel : nat) (data : list Z) (length i : nat) : result abort nat :=
  if (i <? length)%nat then
    match fuel with
    | O => Err Fault
    | S fuel =>
        let? ch := read_ptr data i in
        if negb (ch =? ASCII_SPACE) && negb (ch =? ASCII_TAB) && negb (ch =? ASCII_LF) && negb (ch =? ASCII_CR) then Ok i
        else skip_ws_from fuel data length (i + 1)
    end
  else Ok i.

Definition skip_ws (s : Str) (pos : nat) : result abort nat := skip_ws_from (byte_len s) (s_data s) (byte_len s) pos.

Definition parse_literal (s : Str) (pos : nat) (literal : Str) (value : JSONValue) : result abort (result JSONError (JSONValue * nat)) :=
  let stop := (pos + byte_len literal)%nat in
  if (byte_len s <? stop)%nat then Ok (Err (UnexpectedEnd pos))
  else
    let? piece := str_slice s (mkSlice (Z.of_nat pos) (Some (Z.of_nat stop))) in
    let? ne := str_ne crt_memcmp piece literal in
    if ne : bool then Ok (Err (UnexpectedChar pos)) else Ok (Ok (value, stop)).

(** [while p < length and _is_ascii_digit( data[p] ): p += 1] *)
Fixpoint skip_digits (fuel : nat) (data : list Z) (length p : nat) : result abort nat :=
  if (p <? length)%nat then
    match fuel with
    | O => Err Fault
    | S fuel =>
        let? c := read_ptr data p in
        if is_ascii_digit c then skip_digits fuel data length (p + 1) else Ok p
    end
  else Ok p.

(** [p < length and test( data[p] )] *)
Definition byte_is (test : Z -> bool) (data : list Z) (length p : nat) : result abort bool :=
  if (p <? length)%nat then let? c := read_ptr data p in Ok (test c) else Ok false.

(** The digits that must follow a point or an exponent mark. *)
Definition some_digits (data : list Z) (length start p : nat) : result abort (result JSONError nat) :=
  let? d := byte_is is_ascii_digit data length p in
  if d : bool then let? p := skip_digits length data length p in Ok (Ok p) else Ok (Err (InvalidNumber start)).

Definition integer_part (data : list Z) (length start p : nat) : result abort (result JSONError nat) :=
  let? d := byte_is is_ascii_digit data length p in
  if negb d then Ok (Err (InvalidNumber start))
  else
    let? zero := byte_is (fun c => c =? ASCII_ZERO) data length p in
    if zero : bool then
      let? d := byte_is is_ascii_digit data length (p + 1) in
      if d : bool then Ok (Err (InvalidNumber start)) else Ok (Ok (p + 1)%nat)
    else let? p := skip_digits length data length p in Ok (Ok p).

Definition parse_number (s : Str) (pos : nat) : result abort (result JSONError (JSONValue * nat)) :=
  let data := s_data s in
  let length := byte_len s in
  let? minus := byte_is (fun c => c =? ASCII_MINUS) data length pos in
  let?! p := integer_part data length pos (if minus : bool then (pos + 1)%nat else pos) in
  let? saw_dot := byte_is (fun c => c =? ASCII_DOT) data length p in
  let?! p := if saw_dot : bool then some_digits data length pos (p + 1) else Ok (Ok p) in
  let? saw_exp := byte_is (fun c => (c =? ASCII_LOWER_E) || (c =? ASCII_UPPER_E)) data length p in
  let?! p :=
    if saw_exp : bool then
      let? sign := byte_is (fun c => (c =? ASCII_PLUS) || (c =? ASCII_MINUS)) data length (p + 1) in
      some_digits data length pos (if sign : bool then (p + 2)%nat else (p + 1)%nat)
    else Ok (Ok p) in
  let? literal := str_slice s (mkSlice (Z.of_nat pos) (Some (Z.of_nat p))) in
  if (saw_dot : bool) || saw_exp then
    let? text := c_string (map Some (s_data literal)) in
    Ok (Ok (JFloat (parse_f64 text), p))
  else
    let? r := from_str literal in
    match r with Ok n => Ok (Ok (JInt n, p)) | Err _ => Ok (Err (InvalidNumber pos)) end.

(** *** Strings *)

Definition hex_digit (c : Z) : option Z :=
  if (ASCII_ZERO <=? c) && (c <=? ASCII_NINE) then Some (c - ASCII_ZERO)
  else if (ASCII_LOWER_A <=? c) && (c <=? ASCII_LOWER_F) then Some (c - ASCII_LOWER_A + 10)
  else if (ASCII_UPPER_A <=? c) && (c <=? ASCII_UPPER_F) then Some (c - ASCII_UPPER_A + 10)
  else None.

(** [n] digits from [i] on. *)
Fixpoint hex_digits_from (n : nat) (data : list Z) (pos i : nat) (value : Z) : result abort (result JSONError Z) :=
  match n with
  | O => Ok (Ok value)
  | S n =>
      let? c := read_ptr data i in
      match hex_digit c with
      | None => Ok (Err (InvalidEscape pos))
      | Some digit => hex_digits_from n data pos (i + 1) (Z.lor (u32 (Z.shiftl value 4)) digit)
      end
  end.

Definition decode_hex4 (data : list Z) (length pos : nat) : result abort (result JSONError (Z * nat)) :=
  let stop := (pos + 4)%nat in
  if (length <? stop)%nat then Ok (Err (UnexpectedEnd pos))
  else
    let?! value := hex_digits_from 4 data pos pos 0 in
    Ok (Ok (value, stop)).

Definition decode_u_escape (data : list Z) (length pos : nat) : result abort (result JSONError (Z * nat)) :=
  let?! (hi, next_pos) := decode_hex4 data length pos in
  if (hi <? 55296) || (57343 <? hi) then Ok (Ok (hi, next_pos))
  else if 56319 <? hi then Ok (Err (InvalidEscape pos))
  else
    let marker_pos := (next_pos + 1)%nat in
    let? marked :=
      if (length <=? marker_pos)%nat then Ok false
      else
        let? a := read_ptr data next_pos in
        if negb (a =? ASCII_BACKSLASH) then Ok false
        else let? b := read_ptr data marker_pos in Ok (b =? ASCII_LOWER_U) in
    if negb marked then Ok (Err (InvalidEscape next_pos))
    else
      let?! (lo, final_pos) := decode_hex4 data length (next_pos + 2) in
      if (lo <? 56320) || (57343 <? lo) then Ok (Err (InvalidEscape next_pos))
      else Ok (Ok (65536 + u32 (Z.shiftl (hi - 55296) 10) + (lo - 56320), final_pos)).

Definition is_short_escape (esc : Z) : bool :=
  (esc =? ASCII_QUOTE) || (esc =? ASCII_BACKSLASH) || (esc =? ASCII_SLASH) || (esc =? ASCII_LOWER_B) || (esc =? ASCII_LOWER_F) ||
  (esc =? ASCII_LOWER_N) || (esc =? ASCII_LOWER_R) || (esc =? ASCII_LOWER_T).

(** Every round takes a byte, so [fuel] is the length. *)
Fixpoint measure_from (fuel : nat) (data : list Z) (length i new_size : nat) : result abort (result JSONError (nat * nat)) :=
  if (i <? length)%nat then
    match fuel with
    | O => Err Fault
    | S fuel =>
        let? ch := read_ptr data i in
        if ch =? ASCII_QUOTE then Ok (Ok (new_size, (i + 1)%nat))
        else if ch <? ASCII_SPACE then Ok (Err (InvalidEscape i))
        else if ch =? ASCII_BACKSLASH then
          if (length <=? i + 1)%nat then Ok (Err (UnexpectedEnd (i + 1)))
          else
            let? esc := read_ptr data (i + 1) in
            if is_short_escape esc then measure_from fuel data length (i + 2) (new_size + 1)
            else if esc =? ASCII_LOWER_U then
              let?! (cp, next) := decode_u_escape data length (i + 2) in
              measure_from fuel data length next (new_size + utf8_encoded_len cp)
            else Ok (Err (InvalidEscape (i + 1)))
        else measure_from fuel data length (i + 1) (new_size + 1)
    end
  else Ok (Err (UnexpectedEnd i)).

Definition measure_string (data : list Z) (length start : nat) : result abort (result JSONError (nat * nat)) :=
  measure_from length data length (start + 1) 0.

Definition short_escape_byte (esc : Z) : result abort Z :=
  if esc =? ASCII_QUOTE then Ok ASCII_QUOTE
  else if esc =? ASCII_BACKSLASH then Ok ASCII_BACKSLASH
  else if esc =? ASCII_SLASH then Ok ASCII_SLASH
  else if esc =? ASCII_LOWER_B then Ok 8
  else if esc =? ASCII_LOWER_F then Ok 12
  else if esc =? ASCII_LOWER_N then Ok ASCII_LF
  else if esc =? ASCII_LOWER_R then Ok ASCII_CR
  else if esc =? ASCII_LOWER_T then Ok ASCII_TAB
  else Err (Panic "_short_escape_byte: unreachable - _measure_string already validated this escape byte").

Fixpoint fill_from (fuel : nat) (data : list Z) (length i out : nat) (buf : Buffer) : result abort Buffer :=
  if (i <? length)%nat then
    match fuel with
    | O => Err Fault
    | S fuel =>
        let? ch := read_ptr data i in
        if ch =? ASCII_QUOTE then Ok buf
        else if ch =? ASCII_BACKSLASH then
          let? esc := read_ptr data (i + 1) in
          if esc =? ASCII_LOWER_U then
            let? r := decode_u_escape data length (i + 2) in
            let? (cp, next) := unwrap "_fill_string: re-decoding an escape already validated by _measure_string cannot fail" r in
            let? buf := store_bytes out (encode_utf8 cp) buf in
            fill_from fuel data length next (out + utf8_encoded_len cp) buf
          else
            let? short := short_escape_byte esc in
            let? buf := write_u8 out short buf in
            fill_from fuel data length (i + 2) (out + 1) buf
        else
          let? buf := write_u8 out ch buf in
          fill_from fuel data length (i + 1) (out + 1) buf
    end
  else Ok buf.

Definition fill_string (data : list Z) (length start : nat) (buf : Buffer) : result abort Buffer :=
  fill_from length data length (start + 1) 0 buf.

Definition parse_string (s : Str) (pos : nat) : result abort (result JSONError (Str * nat)) :=
  let data := s_data s in
  let length := byte_len s in
  let?! (new_size, end_pos) := measure_string data length pos in
  let buf_size := (new_size + 1)%nat in
  let? buf := fill_string data length pos (alloc_u8 buf_size) in
  let? buf := write_u8 new_size 0 buf in
  let? ptr := filled buf in
  let? r := from_cstr ptr buf_size in
  let? built := unwrap "json._parse_string: internal buffer was not valid UTF-8" r in
  Ok (Ok (built, end_pos)).

(** *** Arrays and objects *)

Section containers.
Context (parse_value : nat -> J (JSONValue * nat)) (s : Str).

(** [while p < length: ...]; every round takes a comma or ends. *)
Fixpoint array_items (fuel : nat) (arr : JSONValue) (p : nat) : J (JSONValue * nat) :=
  let length := byte_len s in
  if (p <? length)%nat then
    match fuel with
    | O => raise Fault
    | S fuel =>
        let! (value, p) := parse_value p in
        unwrapped "_parse_array: array_append on a freshly constructed JSONValue.array() cannot fail" (array_append arr value) ;;;
        let* p := lift (skip_ws s p) in
        if (length <=? p)%nat then ret (Err (UnexpectedEnd p))
        else
          let* c := lift (read_ptr (s_data s) p) in
          if c =? ASCII_RBRACKET then ret (Ok (arr, (p + 1)%nat))
          else if negb (c =? ASCII_COMMA) then ret (Err (UnexpectedChar p))
          else array_items fuel arr (p + 1)
    end
  else ret (Err (UnexpectedEnd p)).

Definition parse_array (pos : nat) : J (JSONValue * nat) :=
  let* arr := json_array in
  let* p := lift (skip_ws s (pos + 1)) in
  if (byte_len s <=? p)%nat then ret (Err (UnexpectedEnd p))
  else
    let* c := lift (read_ptr (s_data s) p) in
    if c =? ASCII_RBRACKET then ret (Ok (arr, (p + 1)%nat)) else array_items (byte_len s) arr p.

Fixpoint object_entries (fuel : nat) (obj : JSONValue) (p : nat) : J (JSONValue * nat) :=
  let length := byte_len s in
  if (p <? length)%nat then
    match fuel with
    | O => raise Fault
    | S fuel =>
        let* p := lift (skip_ws s p) in
        if (length <=? p)%nat then ret (Err (UnexpectedEnd p))
        else
          let* c := lift (read_ptr (s_data s) p) in
          if negb (c =? ASCII_QUOTE) then ret (Err (UnexpectedChar p))
          else
            let! (key, p) := lift (parse_string s p) in
            let* p := lift (skip_ws s p) in
            let* colon := lift (byte_is (fun c => c =? ASCII_COLON) (s_data s) length p) in
            if negb colon then ret (Err (UnexpectedChar p))
            else
              let! (value, p) := parse_value (p + 1) in
              unwrapped "_parse_object: object_set on a freshly constructed JSONValue.object() cannot fail" (object_set obj key value) ;;;
              let* p := lift (skip_ws s p) in
              if (length <=? p)%nat then ret (Err (UnexpectedEnd p))
              else
                let* c := lift (read_ptr (s_data s) p) in
                if c =? ASCII_RBRACE then ret (Ok (obj, (p + 1)%nat))
                else if negb (c =? ASCII_COMMA) then ret (Err (UnexpectedChar p))
                else object_entries fuel obj (p + 1)
    end
  else ret (Err (UnexpectedEnd p)).

Definition parse_object (pos : nat) : J (JSONValue * nat) :=
  let* obj := json_object in
  let* p := lift (skip_ws s (pos + 1)) in
  if (byte_len s <=? p)%nat then ret (Err (UnexpectedEnd p))
  else
    let* c := lift (read_ptr (s_data s) p) in
    if c =? ASCII_RBRACE then ret (Ok (obj, (p + 1)%nat)) else object_entries (byte_len s) obj p.
End containers.

(** Every level takes a bracket or a brace, so [fuel] is one more than the length. *)
Fixpoint parse_value (fuel : nat) (s : Str) (pos : nat) : J (JSONValue * nat) :=
  match fuel with
  | O => raise Fault
  | S fuel =>
      let* p := lift (skip_ws s pos) in
      if (byte_len s <=? p)%nat then ret (Err (UnexpectedEnd p))
      else
        let* ch := lift (read_ptr (s_data s) p) in
        if ch =? ASCII_LBRACE then parse_object (parse_value fuel s) s p
        else if ch =? ASCII_LBRACKET then parse_array (parse_value fuel s) s p
        else if ch =? ASCII_QUOTE then
          let! (text, p) := lift (parse_string s p) in ret (Ok (JString text, p))
        else if (ch =? ASCII_MINUS) || is_ascii_digit ch then lift (parse_number s p)
        else if ch =? ASCII_LOWER_T then lift (parse_literal s p (constant "true") (JBool true))
        else if ch =? ASCII_LOWER_F then lift (parse_literal s p (constant "false") (JBool false))
        else if ch =? ASCII_LOWER_N then lift (parse_literal s p (constant "null") JNull)
        else ret (Err (UnexpectedChar p))
  end.

Definition loads (s : Str) : J JSONValue :=
  let! (value, p) := parse_value (S (byte_len s)) s 0 in
  let* pos := lift (skip_ws s p) in
  if negb (pos =? byte_len s)%nat then ret (Err (TrailingGarbage pos)) else ret (Ok value).
(** ** [dumps] *)

(** The escape letter of a character, 0 if it has none. *)
Definition short_json_escape_for (cp : Z) : Z :=
  if cp =? 34 then ASCII_QUOTE
  else if cp =? 92 then ASCII_BACKSLASH
  else if cp =? 10 then ASCII_LOWER_N
  else if cp =? 13 then ASCII_LOWER_R
  else if cp =? 9 then ASCII_LOWER_T
  else if cp =? 8 then ASCII_LOWER_B
  else if cp =? 12 then ASCII_LOWER_F
  else 0.

Definition hex_digit_char (nibble : Z) : result abort Z :=
  if nibble <? 10 then panic_u8 "a nibble 0-9 plus the ascii offset cannot overflow u8" (ASCII_ZERO + nibble)
  else panic_u8 "a nibble 10-15 plus the ascii offset cannot overflow u8" (ASCII_LOWER_A + (nibble - 10)).

Fixpoint measure_escaped_from (fuel : nat) (data : list Z) (length i total : nat) : result abort nat :=
  if (i <? length)%nat then
    match fuel with
    | O => Err Fault
    | S fuel =>
        let? (cp, consumed) := decode_utf8_at data i in
        let width :=
          if (cp =? 34) || (cp =? 92) || (cp =? 10) || (cp =? 13) || (cp =? 9) || (cp =? 8) || (cp =? 12) then 2%nat
          else if cp <? 32 then 6%nat
          else utf8_encoded_len cp in
        measure_escaped_from fuel data length (i + consumed) (total + width)
    end
  else Ok total.

Definition measure_escaped_len (data : list Z) (length : nat) : result abort nat := measure_escaped_from length data length 0 0.

Fixpoint fill_escaped_from (fuel : nat) (data : list Z) (length i out : nat) (buf : Buffer) : result abort (Buffer * nat) :=
  if (i <? length)%nat then
    match fuel with
    | O => Err Fault
    | S fuel =>
        let? (cp, consumed) := decode_utf8_at data i in
        let short := short_json_escape_for cp in
        let? (buf, out) :=
          if negb (short =? 0) then
            let? buf := write_u8 out ASCII_BACKSLASH buf in
            let? buf := write_u8 (out + 1) short buf in
            Ok (buf, (out + 2)%nat)
          else if cp <? 32 then
            let? buf := write_u8 out ASCII_BACKSLASH buf in
            let? buf := write_u8 (out + 1) ASCII_LOWER_U buf in
            let? buf := write_u8 (out + 2) ASCII_ZERO buf in
            let? buf := write_u8 (out + 3) ASCII_ZERO buf in
            let? hi := hex_digit_char (Z.shiftr (u8 cp) 4) in
            let? buf := write_u8 (out + 4) hi buf in
            let? lo := hex_digit_char (Z.land (u8 cp) 15) in
            let? buf := write_u8 (out + 5) lo buf in
            Ok (buf, (out + 6)%nat)
          else
            let? buf := store_bytes out (encode_utf8 cp) buf in
            Ok (buf, (out + utf8_encoded_len cp)%nat) in
        fill_escaped_from fuel data length (i + consumed) out buf
    end
  else Ok (buf, out).

Definition fill_escaped (data : list Z) (length : nat) (buf : Buffer) (out_start : nat) : result abort (Buffer * nat) :=
  fill_escaped_from length data length 0 out_start buf.

Definition json_escape_string (s : Str) : result abort Str :=
  let? new_size := measure_escaped_len (s_data s) (byte_len s) in
  let buf_size := (new_size + 3)%nat in
  let? buf := write_u8 0 ASCII_QUOTE (alloc_u8 buf_size) in
  let? (buf, out) := fill_escaped (s_data s) (byte_len s) buf 1 in
  let? buf := write_u8 out ASCII_QUOTE buf in
  let? buf := write_u8 (out + 1) 0 buf in
  let? ptr := filled buf in
  let? r := from_cstr ptr buf_size in
  unwrap "json._json_escape_string: internal buffer was not valid UTF-8" r.

Section dump_containers.
Context (dump_value : JSONValue -> J Str).

(** The pieces of the elements from number [i] on, [n] of them. *)
Fixpoint array_pieces (n : nat) (arr i : nat) (pieces : list Str) : J (list Str) :=
  match n with
  | O => ret (Ok pieces)
  | S n =>
      let* items := get_list arr in
      let* elem := lift (unwrap "dumps: index in bounds by construction" (list_getitem i items)) in
      let! piece := dump_value elem in
      array_pieces n arr (i + 1) (pieces ++ [piece])
  end.

Fixpoint object_pieces (n : nat) (obj i : nat) (pieces : list Str) : J (list Str) :=
  match n with
  | O => ret (Ok pieces)
  | S n =>
      let* entries := get_dict obj in
      let* (k, v) := lift (unwrap "dumps: index in bounds by construction" (list_getitem i entries)) in
      let* key := lift (json_escape_string k) in
      let* front := lift (str_add key (constant ":")) in
      let! text := dump_value v in
      let* entry := lift (str_add front text) in
      object_pieces n obj (i + 1) (pieces ++ [entry])
  end.

(** [str( left ) + str( ',' ).join( pieces ) + str( right )] *)
Definition bracketed (left right : string) (pieces : list Str) : result abort Str :=
  let? joined := join_text (constant ",") pieces in
  let? front := str_add (constant left) joined in
  str_add front (constant right).
End dump_containers.

(** [fuel] bounds the nesting: a container may contain itself. *)
Fixpoint dump_value (fuel : nat) (value : JSONValue) : J Str :=
  match fuel with
  | O => raise Fault
  | S fuel =>
      match value with
      | JNull => ret (Ok (constant "null"))
      | JBool b => ret (Ok (if b then constant "true" else constant "false"))
      | JInt n => let* s := lift (__str__ n) in ret (Ok s)
      | JFloat f =>
          if is_nan f || is_inf f then ret (Err NonFiniteFloat)
          else let* s := lift (f64_str crt_memcmp f) in ret (Ok s)
      | JString s => let* s := lift (json_escape_string s) in ret (Ok s)
      | JArray arr =>
          let* items := get_list arr in
          let! pieces := array_pieces (dump_value fuel) (length items) arr 0 [] in
          let* s := lift (bracketed "[" "]" pieces) in ret (Ok s)
      | JObject obj =>
          let* entries := get_dict obj in
          let! pieces := object_pieces (dump_value fuel) (length entries) obj 0 [] in
          let* s := lift (bracketed "{" "}" pieces) in ret (Ok s)
      end
  end.

Definition dumps (fuel : nat) (value : JSONValue) : J Str := dump_value fuel value.
End json.

(** A text in which [`] stands for a quotation mark. *)
Definition backquoted (s : string) : list Z := map (fun c => if c =? 96 then ASCII_QUOTE else c) (ascii_codes s).

Definition sample_source (s : string) : Str :=
  let cps := backquoted s in mkStr (cps ++ [0]) (length cps + 1) (length cps) [Some O].

#[local] Existing Instance small_float.

Definition reprinted (source : string) : option (list Z) :=
  let '(r, st) := loads (F := Small) lex (sample_source source) [] in
  match r with
  | Ok (Ok v) =>
      let '(r, _) := dumps lex 5 v st in
      match r with Ok (Ok s) => Some (take (byte_len s) (s_data s)) | _ => None end
  | _ => None
  end.

Definition refused (source : string) : option (result abort JSONError) :=
  match (loads (F := Small) lex (sample_source source) []).1 with
  | Ok (Ok _) => None
  | Ok (Err e) => Some (Ok e)
  | Err e => Some (Err e)
  end.
