(* ===== verification/JsonSpec.v ===== *)
(** * JSON: the grammar of RFC 8259 and a reference reader

    [json_text t j] says that the code points [t] spell the tree [j]: the
    productions of the RFC with the meaning of each.  An escape of a surrogate
    that stands in no pair is in the RFC's grammar, though its meaning is left open there (section
    8.2); [Surrogates] says whether the grammar has it.  [read_value] reads a list of
    code points; it is sound and complete for the grammar, and [JsonParse] shows
    that [loads] does what it does.  The later of two entries with one key counts,
    at the place of the first. *)

From S2P Require Import Prelude RawList Bits Utf8 IntDigits IntText FloatText.

Local Open Scope Z_scope.

(** Whether a surrogate may be escaped outside of a pair: [true] is RFC 8259. *)
Class Surrogates := unpaired_escapes : bool.

Section spec.
Context {F : Type} `{Float F} {unpaired : Surrogates}.

Inductive json :=
| TNull
| TBool (b : bool)
| TInt (z : Z)
| TFloat (f : F)
| TString (cps : list Z)
| TArray (items : list json)
| TObject (entries : list (list Z * json)).

(** An entry set in an object. *)
Fixpoint tree_set (k : list Z) (j : json) (entries : list (list Z * json)) : list (list Z * json) :=
  match entries with
  | [] => [(k, j)]
  | (k', j') :: entries => if bool_decide (k' = k) then (k', j) :: entries else (k', j') :: tree_set k j entries
  end.

Definition tree_object (entries : list (list Z * json)) : json :=
  TObject (foldl (fun acc '(k, j) => tree_set k j acc) [] entries).

(** ** The grammar *)

Definition is_ws (c : Z) : bool := (c =? 32) || (c =? 9) || (c =? 10) || (c =? 13).
Definition ws (l : list Z) : Prop := Forall (fun c => is_ws c = true) l.

Definition hex_value (c : Z) : option Z :=
  if (48 <=? c) && (c <=? 57) then Some (c - 48)
  else if (97 <=? c) && (c <=? 102) then Some (c - 87)
  else if (65 <=? c) && (c <=? 70) then Some (c - 55)
  else None.

Inductive hex4 : list Z -> Z -> Prop :=
| hex4_intro a b c d x y z w : hex_value a = Some x -> hex_value b = Some y -> hex_value c = Some z -> hex_value d = Some w ->
    hex4 [a; b; c; d] (4096 * x + 256 * y + 16 * z + w).

(** The characters that stand behind a backslash. *)
Definition short_escape (c : Z) : option Z :=
  if c =? 34 then Some 34 else if c =? 92 then Some 92 else if c =? 47 then Some 47 else if c =? 98 then Some 8
  else if c =? 102 then Some 12 else if c =? 110 then Some 10 else if c =? 114 then Some 13 else if c =? 116 then Some 9 else None.

Definition surrogate (v : Z) : bool := (55296 <=? v) && (v <=? 57343).

(** The escape of a low surrogate is next. *)
Definition low_follows (t : list Z) : Prop :=
  exists h lo t', t = 92 :: 117 :: h ++ t' /\ hex4 h lo /\ 56320 <= lo <= 57343.

Inductive string_chars : list Z -> list Z -> Prop :=
| chars_end : string_chars [] []
| chars_plain c t cps : 32 <= c -> c <> 34 -> c <> 92 -> string_chars t cps -> string_chars (c :: t) (c :: cps)
| chars_short c d t cps : short_escape c = Some d -> string_chars t cps -> string_chars (92 :: c :: t) (d :: cps)
| chars_unicode h v t cps : hex4 h v -> surrogate v = false -> string_chars t cps -> string_chars (92 :: 117 :: h ++ t) (v :: cps)
| chars_pair h1 hi h2 lo t cps : hex4 h1 hi -> 55296 <= hi <= 56319 -> hex4 h2 lo -> 56320 <= lo <= 57343 -> string_chars t cps ->
    string_chars (92 :: 117 :: h1 ++ 92 :: 117 :: h2 ++ t) (65536 + (hi - 55296) * 1024 + (lo - 56320) :: cps)
| chars_unpaired h v t cps : unpaired = true -> hex4 h v -> surrogate v = true -> ~ (v <= 56319 /\ low_follows t) -> string_chars t cps ->
    string_chars (92 :: 117 :: h ++ t) (v :: cps).

Inductive minus_text : list Z -> Z -> Prop :=
| unsigned_number : minus_text [] 1
| negative_number : minus_text [45] (-1).

Definition plain_integer (ip : list Z) : Prop := all_digits ip /\ ip <> [] /\ (ip = [48] \/ head ip <> Some 48).

Definition literal_text (s : string) : list Z := ascii_codes s.

Inductive value_text : list Z -> json -> Prop :=
| null_text : value_text (literal_text "null") TNull
| true_text : value_text (literal_text "true") (TBool true)
| false_text : value_text (literal_text "false") (TBool false)
| int_text sg s ip : minus_text sg s -> plain_integer ip -> value_text (sg ++ ip) (TInt (s * num ip))
| float_text sg s ip fr fp ex x : minus_text sg s -> plain_integer ip -> fraction_text fr fp -> exponent_text ex x -> fr ++ ex <> [] ->
    value_text (sg ++ ip ++ fr ++ ex) (TFloat (parse_f64 (sg ++ ip ++ fr ++ ex)))
| string_text t cps : string_chars t cps -> value_text (34 :: t ++ [34]) (TString cps)
| empty_array_text w : ws w -> value_text (91 :: w ++ [93]) (TArray [])
| array_text t items : items_text t items -> value_text (91 :: t ++ [93]) (TArray items)
| empty_object_text w : ws w -> value_text (123 :: w ++ [125]) (TObject [])
| object_text t entries : entries_text t entries -> value_text (123 :: t ++ [125]) (tree_object entries)
with items_text : list Z -> list json -> Prop :=
| last_item w1 t j w2 : ws w1 -> value_text t j -> ws w2 -> items_text (w1 ++ t ++ w2) [j]
| next_item w1 t j w2 t' items : ws w1 -> value_text t j -> ws w2 -> items_text t' items ->
    items_text (w1 ++ t ++ w2 ++ 44 :: t') (j :: items)
with entries_text : list Z -> list (list Z * json) -> Prop :=
| last_entry w1 k cps w2 w3 t j w4 : ws w1 -> string_chars k cps -> ws w2 -> ws w3 -> value_text t j -> ws w4 ->
    entries_text (w1 ++ 34 :: k ++ 34 :: w2 ++ 58 :: w3 ++ t ++ w4) [(cps, j)]
| next_entry w1 k cps w2 w3 t j w4 t' entries : ws w1 -> string_chars k cps -> ws w2 -> ws w3 -> value_text t j -> ws w4 ->
    entries_text t' entries ->
    entries_text (w1 ++ 34 :: k ++ 34 :: w2 ++ 58 :: w3 ++ t ++ w4 ++ 44 :: t') ((cps, j) :: entries).

Definition json_text (t : list Z) (j : json) : Prop := exists w1 t' w2, ws w1 /\ value_text t' j /\ ws w2 /\ t = w1 ++ t' ++ w2.

(** ** The reader *)

(** [Bad]: not a JSON text; [Crash]: the reader fails in a way of its own. *)
Inductive outcome (A : Type) := Got (a : A) | Bad | Crash.
Arguments Got {A} a.
Arguments Bad {A}.
Arguments Crash {A}.

Definition obind {A B} (r : outcome A) (k : A -> outcome B) : outcome B :=
  match r with Got a => k a | Bad => Bad | Crash => Crash end.

Fixpoint skip (l : list Z) : list Z :=
  match l with c :: r => if is_ws c then skip r else l | [] => [] end.

Definition read_hex4 (l : list Z) : option (Z * list Z) :=
  match l with
  | a :: b :: c :: d :: r =>
      match hex_value a, hex_value b, hex_value c, hex_value d with
      | Some x, Some y, Some z, Some w => Some (4096 * x + 256 * y + 16 * z + w, r)
      | _, _, _, _ => None
      end
  | _ => None
  end.

Definition read_low (l : list Z) : option (Z * list Z) :=
  match l with
  | a :: b :: r =>
      if (a =? 92) && (b =? 117) then
        match read_hex4 r with
        | Some (lo, r) => if (56320 <=? lo) && (lo <=? 57343) then Some (lo, r) else None
        | None => None
        end
      else None
  | _ => None
  end.

Definition read_unicode (l : list Z) : option (Z * list Z) :=
  match read_hex4 l with
  | None => None
  | Some (hi, r) =>
      if negb (surrogate hi) then Some (hi, r)
      else match (if 56319 <? hi then None else read_low r) with
           | Some (lo, r) => Some (65536 + (hi - 55296) * 1024 + (lo - 56320), r)
           | None => if unpaired then Some (hi, r) else None
           end
  end.

(** Up to and including the closing quotation mark. *)
Fixpoint read_chars (fuel : nat) (l : list Z) : option (list Z * list Z) :=
  match fuel, l with
  | S fuel, c :: r =>
      let prepend d x := option_map (fun '(cps, r) => (d :: cps, r)) x in
      if c =? 34 then Some ([], r)
      else if c <? 32 then None
      else if c =? 92 then
        match r with
        | [] => None
        | e :: r =>
            match short_escape e with
            | Some d => prepend d (read_chars fuel r)
            | None =>
                if e =? 117 then
                  match read_unicode r with
                  | Some (cp, r) => prepend cp (read_chars fuel r)
                  | None => None
                  end
                else None
            end
        end
      else prepend c (read_chars fuel r)
  | _, _ => None
  end.

(** Digits, at least one. *)
Definition read_digit_run (l : list Z) : option (list Z * list Z) :=
  match span l with ([], _) => None | x => Some x end.

Definition read_integer (l : list Z) : option (list Z * list Z) :=
  match l with
  | c :: r =>
      if c =? 48 then match r with d :: _ => if digit_char d then None else Some ([48], r) | [] => Some ([48], r) end
      else read_digit_run l
  | [] => None
  end.

Definition read_fraction (l : list Z) : option (list Z * list Z) :=
  match l with
  | c :: r => if c =? 46 then option_map (fun '(fp, r) => (46 :: fp, r)) (read_digit_run r) else Some ([], l)
  | [] => Some ([], [])
  end.

Definition read_exponent_part (l : list Z) : option (list Z * list Z) :=
  match l with
  | c :: r =>
      if (c =? 101) || (c =? 69) then
        let '(sg, r) := match r with d :: r' => if (d =? 43) || (d =? 45) then ([d], r') else ([], r) | [] => ([], r) end in
        option_map (fun '(ds, r) => (c :: sg ++ ds, r)) (read_digit_run r)
      else Some ([], l)
  | [] => Some ([], [])
  end.

Definition read_number (l : list Z) : option (json * list Z) :=
  let '(sg, s, r) := match l with c :: r => if c =? 45 then ([45], -1, r) else ([], 1, l) | [] => ([], 1, l) end in
  match read_integer r with
  | None => None
  | Some (ip, r) =>
      match read_fraction r with
      | None => None
      | Some (fr, r) =>
          match read_exponent_part r with
          | None => None
          | Some (ex, r) =>
              match fr ++ ex with
              | [] => Some (TInt (s * num ip), r)
              | _ => Some (TFloat (parse_f64 (sg ++ ip ++ fr ++ ex)), r)
              end
          end
      end
  end.

Definition to_outcome {A} (o : option A) : outcome A := match o with Some a => Got a | None => Bad end.

(** Whether [n] bytes end at a character. *)
Fixpoint cut_at (n : nat) (l : list Z) : bool :=
  match n, l with
  | O, _ => true
  | _, [] => false
  | _, c :: l => let w := length (utf8_char c) in if (w <=? n)%nat then cut_at (n - w) l else false
  end.

(** As many bytes as the name has are compared: they must end at a character. *)
Definition read_literal (name : list Z) (j : json) (l : list Z) : outcome (json * list Z) :=
  if (length (utf8 l) <? length name)%nat then Bad
  else if bool_decide (take (length name) l = name) then Got (j, drop (length name) l)
  else if cut_at (length name) l then Bad else Crash.

Section loops.
Context (N : nat).

Section level.
Context (read_value : list Z -> outcome (json * list Z)).

Fixpoint read_items (fuel : nat) (l : list Z) : outcome (list json * list Z) :=
  match fuel, l with
  | S fuel, _ :: _ =>
      obind (read_value l) (fun '(j, l) =>
      match skip l with
      | [] => Bad
      | c :: r =>
          if c =? 93 then Got ([j], r)
          else if c =? 44 then obind (read_items fuel r) (fun '(items, r) => Got (j :: items, r))
          else Bad
      end)
  | _, _ => Bad
  end.

Definition read_array (l : list Z) : outcome (json * list Z) :=
  match skip l with
  | [] => Bad
  | c :: r => if c =? 93 then Got (TArray [], r) else obind (read_items N (c :: r)) (fun '(items, r) => Got (TArray items, r))
  end.

Definition read_key (l : list Z) : option (list Z * list Z) :=
  match skip l with
  | c :: r =>
      if c =? 34 then
        match read_chars N r with
        | Some (cps, r) => match skip r with c :: r => if c =? 58 then Some (cps, r) else None | [] => None end
        | None => None
        end
      else None
  | [] => None
  end.

Fixpoint read_entries (fuel : nat) (l : list Z) : outcome (list (list Z * json) * list Z) :=
  match fuel, l with
  | S fuel, _ :: _ =>
      obind (to_outcome (read_key l)) (fun '(cps, l) =>
      obind (read_value l) (fun '(j, l) =>
      match skip l with
      | [] => Bad
      | c :: r =>
          if c =? 125 then Got ([(cps, j)], r)
          else if c =? 44 then obind (read_entries fuel r) (fun '(entries, r) => Got ((cps, j) :: entries, r))
          else Bad
      end))
  | _, _ => Bad
  end.

Definition read_object (l : list Z) : outcome (json * list Z) :=
  match skip l with
  | [] => Bad
  | c :: r => if c =? 125 then Got (TObject [], r) else obind (read_entries N (c :: r)) (fun '(entries, r) => Got (tree_object entries, r))
  end.
End level.

Fixpoint read_value (fuel : nat) (l : list Z) : outcome (json * list Z) :=
  match fuel with
  | O => Bad
  | S fuel =>
      match skip l with
      | [] => Bad
      | c :: r =>
          if c =? 123 then read_object (read_value fuel) r
          else if c =? 91 then read_array (read_value fuel) r
          else if c =? 34 then to_outcome (option_map (fun '(cps, r) => (TString cps, r)) (read_chars N r))
          else if (c =? 45) || digit_char c then to_outcome (read_number (c :: r))
          else if c =? 116 then read_literal (literal_text "true") (TBool true) (c :: r)
          else if c =? 102 then read_literal (literal_text "false") (TBool false) (c :: r)
          else if c =? 110 then read_literal (literal_text "null") TNull (c :: r)
          else Bad
      end
  end.
End loops.

Definition read_json (l : list Z) (N : nat) : outcome json :=
  obind (read_value N (S N) l) (fun '(j, r) => match skip r with [] => Got j | _ => Bad end).

(** ** The reader is sound *)

Lemma skip_spec l : exists w, l = w ++ skip l /\ ws w /\ match skip l with c :: _ => is_ws c = false | [] => True end.
Proof.
  induction l as [|c l (w & E & Hw & Hs)]; cbn [skip]; [exists []; by split_and!; [|constructor|]|].
  destruct (is_ws c) eqn:Hc; [|exists []; by split_and!; [|constructor|]].
  exists (c :: w). cbn [app]. split_and!; [by rewrite <- E|by constructor|done].
Qed.

Lemma skip_ws_app w r : ws w -> skip (w ++ r) = skip r.
Proof. induction 1 as [|c w Hc _ IH]; [done|]. cbn [app skip]. by rewrite Hc. Qed.

Lemma skip_front c r : is_ws c = false -> skip (c :: r) = c :: r.
Proof. cbn [skip]. by intros ->. Qed.

Lemma span_spec l : let '(a, b) := span l in l = a ++ b /\ all_digits a /\ match b with c :: _ => digit_char c = false | [] => True end.
Proof.
  induction l as [|c l IH]; cbn [span]; [by split_and!; [|constructor|]|]. destruct (digit_char c) eqn:Hc; [|by split_and!; [|constructor|]].
  destruct (span l) as [a b]. destruct IH as (-> & Ha & Hb). split_and!; [done|constructor; [by apply digit_char_spec|done]|done].
Qed.

Lemma span_digits a b : all_digits a -> match b with c :: _ => digit_char c = false | [] => True end -> span (a ++ b) = (a, b).
Proof.
  intros Ha Hb. apply span_app; [done|]. destruct b as [|c b]; [done|]. intros Hc%digit_char_spec. by rewrite Hb in Hc.
Qed.

Lemma read_hex4_sound l v r : read_hex4 l = Some (v, r) -> exists h, l = h ++ r /\ hex4 h v.
Proof.
  unfold read_hex4. intros E. repeat case_match; try done. injection E as <- <-. eexists [_; _; _; _]. split; [done|]. by constructor.
Qed.

Lemma read_hex4_complete h v r : hex4 h v -> read_hex4 (h ++ r) = Some (v, r).
Proof. intros [a b c d x y z w Ha Hb Hc Hd]. cbn [app read_hex4]. by rewrite Ha, Hb, Hc, Hd. Qed.

(** What may stand behind [\u], before [rest]. *)
Inductive unicode_text (rest : list Z) : list Z -> Z -> Prop :=
| single_unit h v : hex4 h v -> surrogate v = false -> unicode_text rest h v
| unit_pair h1 hi h2 lo : hex4 h1 hi -> 55296 <= hi <= 56319 -> hex4 h2 lo -> 56320 <= lo <= 57343 ->
    unicode_text rest (h1 ++ 92 :: 117 :: h2) (65536 + (hi - 55296) * 1024 + (lo - 56320))
| lone_unit h v : unpaired = true -> hex4 h v -> surrogate v = true -> ~ (v <= 56319 /\ low_follows rest) -> unicode_text rest h v.

Lemma low_follows_app t r : low_follows t -> low_follows (t ++ r).
Proof. intros (h & lo & t' & -> & Hh & Hlo). exists h, lo, (t' ++ r). cbn [app]. by rewrite <- app_assoc. Qed.

Lemma low_follows_quote t r : low_follows (t ++ 34 :: r) -> low_follows t.
Proof.
  intros (h & lo & t' & E & Hh & Hlo). cbn [app] in E.
  assert (Hq : forall n m, hex_value n = Some m -> n <> 34) by (by intros n m Hn ->).
  assert (exists a b c d, h = [a; b; c; d] /\ a <> 34 /\ b <> 34 /\ c <> 34 /\ d <> 34) as (a & b & c & d & -> & ? & ? & ? & ?).
  { destruct Hh as [a b c d]. exists a, b, c, d. split_and!; [reflexivity|eapply Hq; eassumption..]. }
  destruct t as [|c1 [|c2 [|c3 [|c4 [|c5 [|c6 t]]]]]]; cbn [app] in E;
    try (exfalso; injection E; intros; congruence).
  exists [a; b; c; d], lo, t. split; [|by split]. injection E; intros; by subst.
Qed.

Lemma chars_code u v t cps r : unicode_text (t ++ r) u v -> string_chars t cps -> string_chars (92 :: 117 :: u ++ t) (v :: cps).
Proof.
  intros [h v' Hh Hv|h1 hi h2 lo H1 Hhi H2 Hlo|h v' Hun Hh Hv Hl] Ht; [by constructor|rewrite <- app_assoc; by econstructor|].
  apply chars_unpaired; [done..| |done]. intros [H1 H2]. by apply Hl, conj, low_follows_app.
Qed.

Lemma surrogate_false v : surrogate v = false <-> v < 55296 \/ 57343 < v.
Proof. unfold surrogate. rewrite andb_false_iff, !Z.leb_gt. lia. Qed.

Lemma surrogate_true v : surrogate v = true <-> 55296 <= v <= 57343.
Proof. unfold surrogate. rewrite andb_true_iff, !Z.leb_le. lia. Qed.

Lemma read_low_sound l lo r : read_low l = Some (lo, r) -> exists h, l = 92 :: 117 :: h ++ r /\ hex4 h lo /\ 56320 <= lo <= 57343.
Proof.
  unfold read_low. destruct l as [|a [|b l]]; [done..|].
  destruct (Z.eqb_spec a 92) as [->|]; [|done]. destruct (Z.eqb_spec b 117) as [->|]; [|done]. cbn [andb].
  destruct (read_hex4 l) as [[lo' r']|] eqn:E; [|done]. apply read_hex4_sound in E as (h & -> & Hh).
  destruct (Z.leb_spec 56320 lo'), (Z.leb_spec lo' 57343); try done. intros [= <- <-]. exists h. by split_and!.
Qed.

Lemma read_low_complete h lo r : hex4 h lo -> 56320 <= lo <= 57343 -> read_low (92 :: 117 :: h ++ r) = Some (lo, r).
Proof.
  intros Hh Hlo. cbn [read_low Z.eqb Pos.eqb andb]. rewrite (read_hex4_complete _ _ _ Hh).
  by rewrite !(proj2 (Z.leb_le _ _)) by lia.
Qed.

Lemma read_low_none l : read_low l = None <-> ~ low_follows l.
Proof.
  split.
  - intros E (h & lo & t & -> & Hh & Hlo). by rewrite (read_low_complete h lo t Hh Hlo) in E.
  - intros Hl. destruct (read_low l) as [[lo r]|] eqn:E; [|done]. apply read_low_sound in E as (h & -> & Hh & Hlo).
    destruct Hl. by exists h, lo, r.
Qed.

Lemma read_unicode_sound l v r : read_unicode l = Some (v, r) -> exists u, l = u ++ r /\ unicode_text r u v.
Proof.
  unfold read_unicode. destruct (read_hex4 l) as [[hi r1]|] eqn:E1; [|done]. apply read_hex4_sound in E1 as (h1 & -> & H1).
  destruct (surrogate hi) eqn:Hs; cbn [negb]; [|intros [= -> ->]; exists h1; split; [done|by constructor]].
  destruct (if 56319 <? hi then None else read_low r1) as [[lo r2]|] eqn:E2.
  - destruct (Z.ltb_spec 56319 hi) as [|Hhi]; [done|]. apply read_low_sound in E2 as (h2 & -> & H2 & Hlo). intros [= <- <-].
    exists (h1 ++ 92 :: 117 :: h2). rewrite <- app_assoc. split; [done|]. apply unit_pair; [done| |done|done]. apply surrogate_true in Hs. lia.
  - destruct unpaired eqn:Hun; [|done]. intros [= <- <-]. exists h1. split; [done|]. apply lone_unit; [done..|].
    intros [Hle Hl]. rewrite (proj2 (Z.ltb_ge _ _) Hle) in E2. by apply read_low_none in E2.
Qed.

Lemma read_unicode_complete u v r : unicode_text r u v -> read_unicode (u ++ r) = Some (v, r).
Proof.
  unfold read_unicode. intros [h v' Hh Hv|h1 hi h2 lo H1 Hhi H2 Hlo|h v' Hun Hh Hv Hl].
  - by rewrite (read_hex4_complete _ _ _ Hh), Hv.
  - rewrite <- app_assoc, (read_hex4_complete _ _ _ H1), (proj2 (surrogate_true hi)) by lia.
    cbn [negb app]. rewrite (proj2 (Z.ltb_ge _ _)) by lia. by rewrite (read_low_complete _ _ _ H2 Hlo).
  - rewrite (read_hex4_complete _ _ _ Hh), Hv. cbn [negb]. destruct (Z.ltb_spec 56319 v') as [|Hle]; [by rewrite Hun|].
    by rewrite (proj2 (read_low_none r) (fun Hlow => Hl (conj Hle Hlow))), Hun.
Qed.

Lemma unicode_text_length rest u v : unicode_text rest u v -> (4 <= length u)%nat.
Proof. intros [? ? []|? ? ? ? []|? ? ? []]; simpl; lia. Qed.

Lemma read_chars_sound fuel : forall l cps r, read_chars fuel l = Some (cps, r) -> exists t, l = t ++ 34 :: r /\ string_chars t cps.
Proof.
  induction fuel as [|fuel IH]; intros l cps r E; [done|]. destruct l as [|c l]; [done|]. cbn [read_chars] in E.
  assert (Hrec : forall d x, option_map (fun '(cps, r) => (d :: cps, r)) (read_chars fuel x) = Some (cps, r) ->
    exists t cps', x = t ++ 34 :: r /\ string_chars t cps' /\ cps = d :: cps').
  { intros d x Ex. destruct (read_chars fuel x) as [[cps' r']|] eqn:Er; [|done]. injection Ex as <- <-. apply IH in Er as (t & -> & Ht). by exists t, cps'. }
  destruct (Z.eqb_spec c 34) as [->|Hq]; [injection E as <- <-; exists []; split; [done|constructor]|].
  destruct (Z.ltb_spec c 32) as [|H32]; [done|]. destruct (Z.eqb_spec c 92) as [->|Hb].
  - destruct l as [|e l]; [done|]. destruct (short_escape e) as [d|] eqn:He.
    + apply Hrec in E as (t & cps' & -> & Ht & ->). exists (92 :: e :: t). split; [done|by constructor].
    + destruct (Z.eqb_spec e 117) as [->|]; [|done]. destruct (read_unicode l) as [[cp r']|] eqn:Eu; [|done].
      apply read_unicode_sound in Eu as (u & -> & Hu). apply Hrec in E as (t & cps' & -> & Ht & ->).
      exists (92 :: 117 :: u ++ t). cbn [app]. rewrite <- app_assoc. split; [done|by eapply chars_code].
  - apply Hrec in E as (t & cps' & -> & Ht & ->). exists (c :: t). split; [done|by constructor].
Qed.

Lemma short_escape_not_u c d : short_escape c = Some d -> c <> 117.
Proof. by intros Hc ->. Qed.

Lemma read_chars_complete t cps r : string_chars t cps -> forall fuel, (length t < fuel)%nat -> read_chars fuel (t ++ 34 :: r) = Some (cps, r).
Proof.
  induction 1 as [|c t cps H32 Hq Hb _ IH|c d t cps Hc _ IH|h v t cps Hh Hv _ IH|h1 hi h2 lo t cps H1 Hhi H2 Hlo _ IH
    |h v t cps Hun Hh Hv Hlow _ IH]; intros fuel Hf;
    (destruct fuel as [|fuel]; [simpl in Hf; lia|]); cbn [app read_chars].
  - done.
  - rewrite (proj2 (Z.eqb_neq c 34)), (proj2 (Z.ltb_ge c 32)), (proj2 (Z.eqb_neq c 92)), IH by (simpl in Hf; done || lia). done.
  - cbn [Z.eqb Z.ltb Z.compare Pos.eqb Pos.compare Pos.compare_cont]. rewrite Hc, IH by (simpl in Hf; lia). done.
  - cbn [Z.eqb Z.ltb Z.compare Pos.eqb Pos.compare Pos.compare_cont]. cbn [short_escape Z.eqb Pos.eqb].
    rewrite <- app_assoc, (read_unicode_complete h v) by (by constructor). rewrite IH by (simpl in Hf; rewrite length_app in Hf; lia). done.
  - cbn [Z.eqb Z.ltb Z.compare Pos.eqb Pos.compare Pos.compare_cont]. cbn [short_escape Z.eqb Pos.eqb].
    replace ((h1 ++ 92 :: 117 :: h2 ++ t) ++ 34 :: r) with ((h1 ++ 92 :: 117 :: h2) ++ t ++ 34 :: r) by (rewrite <- !app_assoc; cbn [app]; by rewrite <- app_assoc).
    erewrite read_unicode_complete by (by apply unit_pair).
    rewrite IH; [done|]. cbn [length] in Hf. rewrite length_app in Hf. cbn [length] in Hf. rewrite length_app in Hf. lia.
  - cbn [Z.eqb Z.ltb Z.compare Pos.eqb Pos.compare Pos.compare_cont]. cbn [short_escape Z.eqb Pos.eqb].
    rewrite <- app_assoc, (read_unicode_complete h v); [rewrite IH by (simpl in Hf; rewrite length_app in Hf; lia); done|].
    apply lone_unit; [done..|]. intros [H1 H2%low_follows_quote]. by apply Hlow.
Qed.

Definition no_digit (r : list Z) : Prop := match r with c :: _ => digit_char c = false | [] => True end.

Lemma read_digits_sound l a r : read_digit_run l = Some (a, r) -> l = a ++ r /\ all_digits a /\ a <> [] /\ no_digit r.
Proof.
  unfold read_digit_run. pose proof (span_spec l) as Hs. destruct (span l) as [[|c a'] b]; [done|]. intros [= <- <-].
  destruct Hs as (-> & Ha & Hb). by split_and!.
Qed.

Lemma read_digits_complete a r : all_digits a -> a <> [] -> no_digit r -> read_digit_run (a ++ r) = Some (a, r).
Proof. intros Ha Hne Hr. unfold read_digit_run. rewrite (span_digits _ _ Ha Hr). by destruct a. Qed.

Lemma read_integer_sound l ip r : read_integer l = Some (ip, r) -> l = ip ++ r /\ plain_integer ip /\ no_digit r.
Proof.
  unfold read_integer. destruct l as [|c l]; [done|]. destruct (Z.eqb_spec c 48) as [->|Hc].
  - assert (Hz : plain_integer [48]) by (split_and!; [repeat constructor; unfold ascii_zero, ascii_nine; lia|done|by left]).
    destruct l as [|d l]; [by intros [= <- <-]|]. destruct (digit_char d) eqn:Hd; [done|]. by intros [= <- <-].
  - intros (E & Ha & Hne & Hr)%read_digits_sound. split_and!; [done|split_and!; [done|done|]|done]. right.
    destruct ip as [|x ip]; [done|]. injection E as -> _. simpl. congruence.
Qed.

Lemma read_integer_complete ip r : plain_integer ip -> no_digit r -> read_integer (ip ++ r) = Some (ip, r).
Proof.
  intros (Ha & Hne & Hz) Hr. destruct ip as [|c ip]; [done|]. unfold read_integer. cbn [app]. destruct (Z.eqb_spec c 48) as [->|Hc].
  - destruct Hz as [[= ->]|Hz]; [|done]. cbn [app]. destruct r as [|d r]; [done|]. by rewrite Hr.
  - exact (read_digits_complete (c :: ip) r Ha Hne Hr).
Qed.

Lemma read_fraction_sound l fr r : read_fraction l = Some (fr, r) -> exists fp, l = fr ++ r /\ fraction_text fr fp.
Proof.
  unfold read_fraction. destruct l as [|c l]; [intros [= <- <-]; exists []; by split; [|constructor]|].
  destruct (Z.eqb_spec c 46) as [->|Hc]; [|intros [= <- <-]; exists []; by split; [|constructor]].
  destruct (read_digit_run l) as [[fp r']|] eqn:E; [|done]. intros [= <- <-]. apply read_digits_sound in E as (-> & Ha & Hne & _).
  exists fp. split; [done|by constructor].
Qed.

Lemma read_fraction_complete fr fp r : fraction_text fr fp -> no_digit r -> head r <> Some 46 -> read_fraction (fr ++ r) = Some (fr, r).
Proof.
  intros [|fp' Ha Hne] Hr Hd; cbn [app]; unfold read_fraction.
  - destruct r as [|c r]; [done|]. destruct (Z.eqb_spec c 46) as [->|]; done.
  - by rewrite (read_digits_complete _ _ Ha Hne Hr).
Qed.

Lemma read_exponent_sound l ex r : read_exponent_part l = Some (ex, r) -> exists x, l = ex ++ r /\ exponent_text ex x.
Proof.
  unfold read_exponent_part. destruct l as [|c l]; [intros [= <- <-]; exists 0; by split; [|constructor]|].
  destruct ((c =? 101) || (c =? 69)) eqn:Hc; [|intros [= <- <-]; exists 0; by split; [|constructor]].
  assert (Hm : c = 101 \/ c = 69) by (apply orb_prop in Hc as [?%Z.eqb_eq|?%Z.eqb_eq]; auto).
  set (p := match l with d :: r' => if (d =? 43) || (d =? 45) then ([d], r') else ([], l) | [] => ([], l) end).
  assert (Hp : exists s, sign_text p.1 s /\ l = p.1 ++ p.2).
  { unfold p. destruct l as [|d l]; [exists 1; split; [constructor|done]|]. destruct (Z.eqb_spec d 43) as [->|]; [exists 1; split; [constructor|done]|].
    destruct (Z.eqb_spec d 45) as [->|]; [exists (-1); split; [constructor|done]|]. exists 1. split; [constructor|done]. }
  destruct p as [sg l']. destruct Hp as (s & Hsg & ->). cbn [fst snd] in *.
  destruct (read_digit_run l') as [[ds r']|] eqn:E; [|done]. intros [= <- <-]. apply read_digits_sound in E as (-> & Ha & Hne & _).
  exists (s * num ds). cbn [app]. rewrite <- app_assoc. split; [done|by constructor].
Qed.

Lemma read_exponent_complete ex x r : exponent_text ex x -> no_digit r -> (ex = [] -> head r <> Some 101 /\ head r <> Some 69) ->
  read_exponent_part (ex ++ r) = Some (ex, r).
Proof.
  intros [|mark sg s ds Hm Hsg Ha Hne] Hr Hd; unfold read_exponent_part; cbn [app].
  - destruct (Hd eq_refl) as [H1 H2]. destruct r as [|c r]; [done|]. destruct (Z.eqb_spec c 101) as [->|]; [done|].
    destruct (Z.eqb_spec c 69) as [->|]; done.
  - assert ((mark =? 101) || (mark =? 69) = true) as -> by (destruct Hm as [-> | ->]; done). rewrite <- app_assoc.
    pose proof (read_digits_complete _ _ Ha Hne Hr) as E. destruct Hsg; cbn [app].
    + destruct Ha as [|d ds Hdd Ha]; [done|]. cbn [app] in *. unfold ascii_zero, ascii_nine in Hdd.
      rewrite (proj2 (Z.eqb_neq d 43)), (proj2 (Z.eqb_neq d 45)) by lia. cbn [orb]. by rewrite E.
    + cbn [Z.eqb Pos.eqb orb]. by rewrite E.
    + cbn [Z.eqb Pos.eqb orb]. by rewrite E.
Qed.

(** *** Numbers *)

Lemma read_number_sound l j r : read_number l = Some (j, r) -> exists t, l = t ++ r /\ value_text t j.
Proof.
  unfold read_number. set (p := match l with c :: r => if c =? 45 then ([45], -1, r) else ([], 1, l) | [] => ([], 1, l) end).
  assert (Hp : minus_text p.1.1 p.1.2 /\ l = p.1.1 ++ p.2).
  { unfold p. destruct l as [|c l]; [split; [constructor|done]|]. destruct (Z.eqb_spec c 45) as [->|]; split; try constructor; done. }
  destruct p as [[sg s] l1]. destruct Hp as [Hsg ->]. cbn [fst snd] in *.
  destruct (read_integer l1) as [[ip r1]|] eqn:E1; [|done]. apply read_integer_sound in E1 as (-> & Hip & _).
  destruct (read_fraction r1) as [[fr r2]|] eqn:E2; [|done]. apply read_fraction_sound in E2 as (fp & -> & Hfr).
  destruct (read_exponent_part r2) as [[ex r3]|] eqn:E3; [|done]. apply read_exponent_sound in E3 as (x & -> & Hex).
  destruct (fr ++ ex) as [|c e] eqn:Efe; intros [= <- <-].
  - apply app_eq_nil in Efe as [-> ->]. exists (sg ++ ip). rewrite <- app_assoc. split; [done|by constructor].
  - rewrite <- Efe. exists (sg ++ ip ++ fr ++ ex). rewrite <- !app_assoc. split; [done|]. eapply float_text; [done|done|done|done|by rewrite Efe].
Qed.

(** What may stand behind a value. *)
Definition delimited (r : list Z) : Prop :=
  match r with c :: _ => is_ws c = true \/ c = 44 \/ c = 93 \/ c = 125 | [] => True end.

Lemma delimited_cases r : delimited r -> no_digit r /\ head r <> Some 46 /\ head r <> Some 101 /\ head r <> Some 69.
Proof.
  destruct r as [|c r]; [done|]. unfold delimited, is_ws, no_digit, digit_char, ascii_zero, ascii_nine. simpl.
  rewrite !orb_true_iff, !Z.eqb_eq. intros Hc. split; [|split_and!; intros [= ->]; lia].
  rewrite andb_false_iff, !Z.leb_gt. lia.
Qed.

Lemma fraction_front fr fp ex x r : fraction_text fr fp -> exponent_text ex x -> delimited r -> no_digit (fr ++ ex ++ r) /\ no_digit (ex ++ r) /\ head (ex ++ r) <> Some 46.
Proof.
  intros Hfr Hex (Hr & H46 & _)%delimited_cases.
  assert (He : no_digit (ex ++ r) /\ head (ex ++ r) <> Some 46) by (destruct Hex as [|mark ? ? ? [-> | ->]]; done).
  destruct He, Hfr; by split_and!.
Qed.

Lemma read_number_complete sg s ip fr fp ex x r : minus_text sg s -> plain_integer ip -> fraction_text fr fp -> exponent_text ex x -> delimited r ->
  read_number (sg ++ ip ++ fr ++ ex ++ r) =
  Some (match fr ++ ex with [] => TInt (s * num ip) | _ => TFloat (parse_f64 (sg ++ ip ++ fr ++ ex)) end, r).
Proof.
  intros Hsg Hip Hfr Hex Hr. destruct (fraction_front _ _ _ _ _ Hfr Hex Hr) as (H1 & H2 & H3). unfold read_number.
  assert (Hp : match sg ++ ip ++ fr ++ ex ++ r with c :: r0 => if c =? 45 then ([45], -1, r0) else ([], 1, sg ++ ip ++ fr ++ ex ++ r)
      | [] => ([], 1, sg ++ ip ++ fr ++ ex ++ r) end = (sg, s, ip ++ fr ++ ex ++ r)).
  { destruct Hsg; [|done]. destruct Hip as (Ha & Hne & _). destruct Ha as [|c ip Hc _]; [done|]. cbn [app]. unfold ascii_zero, ascii_nine in Hc.
    by rewrite (proj2 (Z.eqb_neq c 45)) by lia. }
  rewrite Hp, (read_integer_complete _ _ Hip H1), (read_fraction_complete _ _ _ Hfr H2 H3).
  rewrite (read_exponent_complete _ _ _ Hex); [by destruct (fr ++ ex)|apply (delimited_cases _ Hr)|].
  intros _. destruct (delimited_cases _ Hr) as (_ & _ & ? & ?). done.
Qed.

(** *** Values *)

Lemma read_literal_sound name j l j' r : read_literal name j l = Got (j', r) -> j' = j /\ l = name ++ r.
Proof.
  unfold read_literal. destruct (_ <? _)%nat; [done|]. case_bool_decide as E; [|by destruct (cut_at _ _)]. intros [= <- <-].
  split; [done|]. rewrite <- E at 1. by rewrite take_drop.
Qed.

Section sound.
Context (N : nat) (rv : list Z -> outcome (json * list Z)).
Context (rv_sound : forall l j r, rv l = Got (j, r) -> exists w t, l = w ++ t ++ r /\ ws w /\ value_text t j).

Lemma read_items_sound fuel : forall l items r, read_items rv fuel l = Got (items, r) -> exists t, l = t ++ 93 :: r /\ items_text t items.
Proof using rv_sound.
  induction fuel as [|fuel IH]; intros l items r E; [done|]. destruct l as [|c l]; [done|]. cbn [read_items] in E.
  destruct (rv (c :: l)) as [[j l1]| |] eqn:Ev; [|done..]. cbn [obind] in E. apply rv_sound in Ev as (w & t & -> & Hw & Ht).
  destruct (skip_spec l1) as (w2 & -> & Hw2 & _). destruct (skip l1) as [|d r1]; [done|].
  destruct (Z.eqb_spec d 93) as [->|]; [injection E as <- <-; exists (w ++ t ++ w2); rewrite <- !app_assoc; split; [done|by constructor]|].
  destruct (Z.eqb_spec d 44) as [->|]; [|done]. destruct (read_items rv fuel r1) as [[items' r2]| |] eqn:Er; [|done..]. cbn [obind] in E. injection E as <- <-.
  apply IH in Er as (t' & -> & Ht'). exists (w ++ t ++ w2 ++ 44 :: t'). rewrite <- !app_assoc. split; [done|by constructor].
Qed.

Lemma read_key_sound l cps r : read_key N l = Some (cps, r) -> exists w1 k w2, l = w1 ++ 34 :: k ++ 34 :: w2 ++ 58 :: r /\ ws w1 /\ string_chars k cps /\ ws w2.
Proof.
  unfold read_key. destruct (skip_spec l) as (w1 & E1 & Hw1 & _). destruct (skip l) as [|c r1]; [done|].
  destruct (Z.eqb_spec c 34) as [->|]; [|done]. destruct (read_chars N r1) as [[cps' r2]|] eqn:E2; [|done].
  apply read_chars_sound in E2 as (k & -> & Hk). destruct (skip_spec r2) as (w2 & E3 & Hw2 & _). destruct (skip r2) as [|d r3]; [done|].
  destruct (Z.eqb_spec d 58) as [->|]; [|done]. intros [= <- <-]. exists w1, k, w2. by rewrite E1, E3.
Qed.

Lemma read_entries_sound fuel : forall l entries r, read_entries N rv fuel l = Got (entries, r) ->
  exists t, l = t ++ 125 :: r /\ entries_text t entries.
Proof using rv_sound.
  induction fuel as [|fuel IH]; intros l entries r E; [done|]. destruct l as [|c l]; [done|]. cbn [read_entries] in E.
  destruct (read_key N (c :: l)) as [[cps l0]|] eqn:Ek; [|done]. cbn [to_outcome obind] in E.
  apply read_key_sound in Ek as (w1 & k & w2 & -> & Hw1 & Hk & Hw2).
  destruct (rv l0) as [[j l1]| |] eqn:Ev; [|done..]. cbn [obind] in E. apply rv_sound in Ev as (w & t & -> & Hw & Ht).
  destruct (skip_spec l1) as (w4 & -> & Hw4 & _). destruct (skip l1) as [|d r1]; [done|].
  destruct (Z.eqb_spec d 125) as [->|].
  { injection E as <- <-. exists (w1 ++ 34 :: k ++ 34 :: w2 ++ 58 :: w ++ t ++ w4).
    split; [by repeat (cbn [app]; rewrite <- ?app_assoc)|by constructor]. }
  destruct (Z.eqb_spec d 44) as [->|]; [|done]. destruct (read_entries N rv fuel r1) as [[entries' r2]| |] eqn:Er; [|done..]. cbn [obind] in E.
  injection E as <- <-. apply IH in Er as (t' & -> & Ht'). exists (w1 ++ 34 :: k ++ 34 :: w2 ++ 58 :: w ++ t ++ w4 ++ 44 :: t').
  split; [by repeat (cbn [app]; rewrite <- ?app_assoc)|by constructor].
Qed.

Lemma read_array_sound l j r : read_array N rv l = Got (j, r) -> value_text (91 :: take (length l - length r) l) j /\ l = take (length l - length r) l ++ r.
Proof using rv_sound.
  intros E. assert (Ht : exists t, l = t ++ r /\ value_text (91 :: t) j).
  { unfold read_array in E. destruct (skip_spec l) as (w & El & Hw & _). rewrite El. destruct (skip l) as [|c r1]; [done|].
    destruct (Z.eqb_spec c 93) as [->|]; [injection E as <- <-; exists (w ++ [93]); rewrite <- app_assoc; split; [done|by constructor]|].
    destruct (read_items rv N (c :: r1)) as [[items r2]| |] eqn:Er; [|done..]. injection E as <- <-.
    apply read_items_sound in Er as (t & -> & Ht). exists ((w ++ t) ++ [93]). rewrite <- !app_assoc. split; [done|]. rewrite app_assoc. constructor.
    destruct Ht as [w1 t j w2 H1 ? ?|w1 t j w2 t' items H1 ? ? ?]; rewrite app_assoc; constructor; try done; by apply Forall_app. }
  destruct Ht as (t & -> & Ht). rewrite length_app, Nat.add_sub, take_app_length. done.
Qed.

Lemma read_object_sound l j r : read_object N rv l = Got (j, r) -> value_text (123 :: take (length l - length r) l) j /\ l = take (length l - length r) l ++ r.
Proof using rv_sound.
  intros E. assert (Ht : exists t, l = t ++ r /\ value_text (123 :: t) j).
  { unfold read_object in E. destruct (skip_spec l) as (w & El & Hw & _). rewrite El. destruct (skip l) as [|c r1]; [done|].
    destruct (Z.eqb_spec c 125) as [->|]; [injection E as <- <-; exists (w ++ [125]); rewrite <- app_assoc; split; [done|by constructor]|].
    destruct (read_entries N rv N (c :: r1)) as [[entries r2]| |] eqn:Er; [|done..]. injection E as <- <-.
    apply read_entries_sound in Er as (t & -> & Ht). exists ((w ++ t) ++ [125]). rewrite <- !app_assoc. split; [done|]. rewrite app_assoc. constructor.
    destruct Ht as [w1 k cps w2 w3 t j w4 H1 ? ? ? ? ?|w1 k cps w2 w3 t j w4 t' items H1 ? ? ? ? ? ?]; rewrite app_assoc; constructor; try done; by apply Forall_app. }
  destruct Ht as (t & -> & Ht). rewrite length_app, Nat.add_sub, take_app_length. done.
Qed.
End sound.

Lemma read_value_sound N fuel : forall l j r, read_value N fuel l = Got (j, r) -> exists w t, l = w ++ t ++ r /\ ws w /\ value_text t j.
Proof.
  induction fuel as [|fuel IH]; intros l j r E; [done|]. cbn [read_value] in E.
  destruct (skip_spec l) as (w & -> & Hw & _). destruct (skip l) as [|c r1]; [done|]. exists w.
  assert (Hsuff : (exists t, c :: r1 = t ++ r /\ value_text t j) -> exists t, w ++ c :: r1 = w ++ t ++ r /\ ws w /\ value_text t j).
  { intros (t & -> & Ht). by exists t. }
  apply Hsuff. clear Hsuff. destruct (Z.eqb_spec c 123) as [->|].
  { apply read_object_sound in E as [Ht Er]; [|done]. eexists. split; [|exact Ht]. cbn [app]. by rewrite <- Er. }
  destruct (Z.eqb_spec c 91) as [->|].
  { apply read_array_sound in E as [Ht Er]; [|done]. eexists. split; [|exact Ht]. cbn [app]. by rewrite <- Er. }
  destruct (Z.eqb_spec c 34) as [->|].
  { destruct (read_chars N r1) as [[cps r2]|] eqn:Ec; [|done]. injection E as <- <-. apply read_chars_sound in Ec as (t & -> & Ht).
    exists (34 :: t ++ [34]). cbn [app]. rewrite <- app_assoc. split; [done|by constructor]. }
  destruct ((c =? 45) || digit_char c).
  { destruct (read_number (c :: r1)) as [[j' r2]|] eqn:En; [|done]. injection E as <- <-. by apply read_number_sound in En. }
  destruct (c =? 116); [apply read_literal_sound in E as [-> ->]; eexists; split; [done|constructor]|].
  destruct (c =? 102); [apply read_literal_sound in E as [-> ->]; eexists; split; [done|constructor]|].
  destruct (c =? 110); [apply read_literal_sound in E as [-> ->]; eexists; split; [done|constructor]|done].
Qed.

(** ** The reader is complete *)

Scheme value_text_mut := Minimality for value_text Sort Prop
  with items_text_mut := Minimality for items_text Sort Prop
  with entries_text_mut := Minimality for entries_text Sort Prop.

Lemma minus_front sg s ip r : minus_text sg s -> plain_integer ip -> exists c t, sg ++ ip ++ r = c :: t /\ (c = 45 \/ digit_char c = true).
Proof.
  intros [] (Ha & Hne & _); [|by eexists _, _; split; [|by left]]. destruct Ha as [|c ip Hc _]; [done|].
  exists c, (ip ++ r). split; [done|]. right. by apply digit_char_spec.
Qed.

(** A value starts with neither white space nor a closing bracket. *)
Lemma value_front t j : value_text t j -> exists c t', t = c :: t' /\ is_ws c = false /\ c <> 93 /\ c <> 125.
Proof.
  assert (Hnum : forall sg s ip r, minus_text sg s -> plain_integer ip -> exists c t', sg ++ ip ++ r = c :: t' /\ is_ws c = false /\ c <> 93 /\ c <> 125).
  { intros sg s ip r Hsg Hip. destruct (minus_front sg s ip r Hsg Hip) as (c & t0 & -> & Hc). exists c, t0.
    assert (c = 45 \/ 48 <= c <= 57) as Hc' by (destruct Hc as [->|Hc%digit_char_spec]; [by left|unfold ascii_zero, ascii_nine in Hc; lia]).
    unfold is_ws. rewrite !orb_false_iff, !Z.eqb_neq. split; [done|lia]. }
  destruct 1 as [| | |sg s ip Hsg Hip|sg s ip fr fp ex x Hsg Hip| | | | |]; try (by eexists _, _; split; [done|]).
  - rewrite <- (app_nil_r (_ ++ _)), <- app_assoc. by eapply Hnum.
  - by eapply Hnum.
Qed.

Lemma read_value_skip N fuel l : read_value N fuel (skip l) = read_value N fuel l.
Proof.
  destruct fuel as [|fuel]; [done|]. cbn [read_value]. assert (E : skip (skip l) = skip l); [|by rewrite E].
  destruct (skip_spec l) as (_ & _ & _ & Hs). destruct (skip l) as [|c r]; [done|]. by apply skip_front.
Qed.

Lemma read_literal_complete name j r : text name -> read_literal name j (name ++ r) = Got (j, r).
Proof.
  intros Ht. unfold read_literal. rewrite utf8_app, length_app, take_app_length, drop_app_length, bool_decide_eq_true_2 by done.
  pose proof (utf8_length name Ht). by rewrite (proj2 (Nat.ltb_ge _ _)) by lia.
Qed.

Lemma delimited_ws w r : ws w -> delimited r -> delimited (w ++ r).
Proof. intros [|c w' Hc _] Hr; [done|]. by left. Qed.

(** What the reader does with a value, the elements of an array and the entries of
    an object; [N] bounds the text read. *)
Definition reads_value (t : list Z) (j : json) : Prop := forall N fuel w r, ws w -> delimited r -> (length (w ++ t ++ r) <= N)%nat ->
  (length t < fuel)%nat -> read_value N fuel (w ++ t ++ r) = Got (j, r).

Definition reads_items (t : list Z) (items : list json) : Prop := forall N fuel k r, (length (t ++ 93%Z :: r) <= N)%nat ->
  (length t < k)%nat -> (length t < fuel)%nat -> read_items (read_value N fuel) k (t ++ 93 :: r) = Got (items, r).

Definition reads_entries (t : list Z) (entries : list (list Z * json)) : Prop := forall N fuel k r, (length (t ++ 125%Z :: r) <= N)%nat ->
  (length t < k)%nat -> (length t < fuel)%nat -> read_entries N (read_value N fuel) k (t ++ 125 :: r) = Got (entries, r).

Ltac lens := repeat (rewrite length_app in * || cbn [length] in * ); try lia.

Lemma read_items_nonempty rv k l : l <> [] -> read_items rv (S k) l =
  obind (rv l) (fun '(j, l) =>
      match skip l with
      | [] => Bad
      | c :: r =>
          if c =? 93 then Got ([j], r)
          else if c =? 44 then obind (read_items rv k r) (fun '(items, r) => Got (j :: items, r))
          else Bad
      end).
Proof. by destruct l. Qed.

Lemma reads_items_skip N fuel k l : skip l <> [] -> read_items (read_value N fuel) k (skip l) = read_items (read_value N fuel) k l.
Proof.
  intros Hne. destruct k as [|k]; [by destruct (skip l), l|]. rewrite !read_items_nonempty; [by rewrite read_value_skip| |done].
  by intros ->.
Qed.

Lemma items_front t items : items_text t items -> exists w c t', t = w ++ c :: t' /\ ws w /\ is_ws c = false /\ c <> 93.
Proof.
  intros [w1 t' j w2 H1 Ht _|w1 t' j w2 t2 items' H1 Ht _ _]; destruct (value_front _ _ Ht) as (c & r & -> & Hc & H93 & _); by eexists w1, c, _.
Qed.

Lemma entries_front t entries : entries_text t entries -> exists w t', t = w ++ 34 :: t' /\ ws w.
Proof. intros []; by eexists _, _. Qed.

Lemma value_step_item w1 t j w2 N fuel r : reads_value t j -> ws w1 -> ws w2 -> delimited r -> (length (w1 ++ t ++ w2 ++ r) <= N)%nat -> (length t < fuel)%nat ->
  read_value N fuel (w1 ++ t ++ w2 ++ r) = Got (j, w2 ++ r).
Proof. intros Hr H1 H2 Hd Hl Hf. apply Hr; [done|by apply delimited_ws|done|done]. Qed.

Lemma last_item_reads w1 t j w2 : ws w1 -> value_text t j -> reads_value t j -> ws w2 -> reads_items (w1 ++ t ++ w2) [j].
Proof.
  intros H1 Ht Hr H2 N fuel k r Hl Hk Hf. destruct k as [|k]; [lia|].
  assert (Hne : t <> []) by (by destruct (value_front _ _ Ht) as (c & t' & -> & _)).
  rewrite <- !app_assoc in *. rewrite read_items_nonempty by (by destruct w1, t).
  rewrite (value_step_item w1 t j w2 N fuel) by (done || (right; right; by left) || lens). cbn [obind].
  by rewrite (skip_ws_app w2).
Qed.

Lemma next_item_reads w1 t j w2 t' items : ws w1 -> value_text t j -> reads_value t j -> ws w2 -> items_text t' items -> reads_items t' items ->
  reads_items (w1 ++ t ++ w2 ++ 44 :: t') (j :: items).
Proof.
  intros H1 Ht Hr H2 _ Hrs N fuel k r Hl Hk Hf. destruct k as [|k]; [lia|].
  assert (Hne : t <> []) by (by destruct (value_front _ _ Ht) as (c & t2 & -> & _)).
  rewrite <- !app_assoc in *. cbn [app] in *. rewrite read_items_nonempty by (by destruct w1, t).
  rewrite (value_step_item w1 t j w2 N fuel) by (done || (right; by left) || lens). cbn [obind].
  rewrite (skip_ws_app w2) by done. cbn [skip is_ws Z.eqb Pos.eqb orb]. rewrite Hrs by lens. done.
Qed.

Lemma read_key_complete N w1 k cps w2 r : ws w1 -> string_chars k cps -> ws w2 -> (length k < N)%nat ->
  read_key N (w1 ++ 34 :: k ++ 34 :: w2 ++ 58 :: r) = Some (cps, r).
Proof.
  intros H1 Hk H2 Hl. unfold read_key. rewrite (skip_ws_app w1) by done. cbn [skip is_ws Z.eqb Pos.eqb orb].
  rewrite (read_chars_complete _ _ _ Hk) by lia. by rewrite (skip_ws_app w2).
Qed.

Lemma last_entry_reads w1 k cps w2 w3 t j w4 : ws w1 -> string_chars k cps -> ws w2 -> ws w3 -> value_text t j -> reads_value t j -> ws w4 ->
  reads_entries (w1 ++ 34 :: k ++ 34 :: w2 ++ 58 :: w3 ++ t ++ w4) [(cps, j)].
Proof.
  intros H1 Hk H2 H3 _ Hr H4 N fuel k' r Hl Hk' Hf. destruct k' as [|k']; [lia|].
  assert (E : (w1 ++ 34 :: k ++ 34 :: w2 ++ 58 :: w3 ++ t ++ w4) ++ 125 :: r = w1 ++ 34 :: k ++ 34 :: w2 ++ 58 :: w3 ++ t ++ w4 ++ 125 :: r)
    by (repeat (rewrite <- ?app_assoc; cbn [app]); done).
  rewrite E in *. destruct (w1 ++ 34 :: k ++ 34 :: w2 ++ 58 :: w3 ++ t ++ w4 ++ 125 :: r) as [|c l] eqn:El; [by destruct w1|].
  cbn [read_entries]. rewrite <- El in *. rewrite (read_key_complete N w1 k cps w2) by (done || lens). cbn [to_outcome obind].
  rewrite (value_step_item w3 t j w4 N fuel) by (done || (right; right; by right) || lens). cbn [obind].
  by rewrite (skip_ws_app w4).
Qed.

Lemma next_entry_reads w1 k cps w2 w3 t j w4 t' entries : ws w1 -> string_chars k cps -> ws w2 -> ws w3 -> value_text t j -> reads_value t j ->
  ws w4 -> entries_text t' entries -> reads_entries t' entries ->
  reads_entries (w1 ++ 34 :: k ++ 34 :: w2 ++ 58 :: w3 ++ t ++ w4 ++ 44 :: t') ((cps, j) :: entries).
Proof.
  intros H1 Hk H2 H3 _ Hr H4 _ Hrs N fuel k' r Hl Hk' Hf. destruct k' as [|k']; [lia|].
  assert (E : (w1 ++ 34 :: k ++ 34 :: w2 ++ 58 :: w3 ++ t ++ w4 ++ 44 :: t') ++ 125 :: r =
    w1 ++ 34 :: k ++ 34 :: w2 ++ 58 :: w3 ++ t ++ w4 ++ 44 :: t' ++ 125 :: r)
    by (repeat (rewrite <- ?app_assoc; cbn [app]); done).
  rewrite E in *. destruct (w1 ++ 34 :: k ++ 34 :: w2 ++ 58 :: w3 ++ t ++ w4 ++ 44 :: t' ++ 125 :: r) as [|c l] eqn:El; [by destruct w1|].
  cbn [read_entries]. rewrite <- El in *. rewrite (read_key_complete N w1 k cps w2) by (done || lens). cbn [to_outcome obind].
  rewrite (value_step_item w3 t j w4 N fuel) by (done || (right; by left) || lens). cbn [obind].
  rewrite (skip_ws_app w4) by done. cbn [skip is_ws Z.eqb Pos.eqb orb]. rewrite Hrs by lens. done.
Qed.

Lemma array_reads t items : items_text t items -> reads_items t items -> reads_value (91 :: t ++ [93]) (TArray items).
Proof.
  intros Ht Hr N fuel w r Hw _ Hl Hf. destruct fuel as [|fuel]; [lia|]. cbn [read_value].
  rewrite (skip_ws_app w) by done. cbn [app skip is_ws Z.eqb Pos.eqb orb]. rewrite <- app_assoc. cbn [app].
  unfold read_array. destruct (items_front _ _ Ht) as (w1 & c & t' & E & Hw1 & Hc & H93).
  assert (Es : skip (t ++ 93 :: r) = c :: t' ++ 93 :: r) by (rewrite E, <- app_assoc, skip_ws_app by done; by apply skip_front).
  rewrite Es, (proj2 (Z.eqb_neq c 93) H93), <- Es, reads_items_skip by (by rewrite Es). rewrite Hr by lens. done.
Qed.

Lemma object_reads t entries : entries_text t entries -> reads_entries t entries -> reads_value (123 :: t ++ [125]) (tree_object entries).
Proof.
  intros Ht Hr N fuel w r Hw _ Hl Hf. destruct fuel as [|fuel]; [lia|]. cbn [read_value].
  rewrite (skip_ws_app w) by done. cbn [app skip is_ws Z.eqb Pos.eqb orb]. rewrite <- app_assoc. cbn [app].
  unfold read_object. destruct (entries_front _ _ Ht) as (w1 & t' & E & Hw1).
  assert (Es : skip (t ++ 125 :: r) = 34 :: t' ++ 125 :: r) by (rewrite E, <- app_assoc, skip_ws_app by done; by apply skip_front).
  rewrite Es. cbn [Z.eqb Pos.eqb]. rewrite <- Es.
  assert (El : read_entries N (read_value N fuel) N (skip (t ++ 125 :: r)) = read_entries N (read_value N fuel) N (t ++ 125 :: r)).
  { destruct N as [|N']; [by destruct (skip (t ++ 125 :: r)), (t ++ 125 :: r)|]. rewrite Es. destruct (t ++ 125 :: r) as [|d l] eqn:Ed; [by destruct t|].
    cbn [read_entries]. unfold read_key. rewrite <- Es, Es, skip_front by done. done. }
  rewrite El, Hr by lens. done.
Qed.

Lemma literal_reads name j c l : name = c :: l -> text name -> is_ws c = false ->
  (forall N fuel r, read_value N (S fuel) (name ++ r) = read_literal name j (name ++ r)) -> reads_value name j.
Proof.
  intros E Ht Hc Hread N fuel w r Hw _ _ Hf. destruct fuel as [|fuel]; [lia|]. rewrite <- read_value_skip, skip_ws_app by done.
  rewrite read_value_skip, Hread. by apply read_literal_complete.
Qed.

Lemma number_reads sg s ip fr fp ex x : minus_text sg s -> plain_integer ip -> fraction_text fr fp -> exponent_text ex x ->
  reads_value (sg ++ ip ++ fr ++ ex) (match fr ++ ex with [] => TInt (s * num ip) | _ => TFloat (parse_f64 (sg ++ ip ++ fr ++ ex)) end).
Proof.
  intros Hsg Hip Hfr Hex N fuel w r Hw Hr _ Hf. destruct fuel as [|fuel]; [lia|]. rewrite <- read_value_skip, skip_ws_app by done.
  rewrite read_value_skip. pose proof (read_number_complete _ _ _ _ _ _ _ _ Hsg Hip Hfr Hex Hr) as E.
  replace ((sg ++ ip ++ fr ++ ex) ++ r) with (sg ++ ip ++ fr ++ ex ++ r) by (by rewrite <- !app_assoc).
  destruct (minus_front sg s ip (fr ++ ex ++ r) Hsg Hip) as (c & t & Et & Hc). rewrite Et in *.
  assert (Hc' : c = 45 \/ 48 <= c <= 57) by (destruct Hc as [->|Hc%digit_char_spec]; [by left|unfold ascii_zero, ascii_nine in Hc; lia]).
  cbn [read_value]. rewrite skip_front by (unfold is_ws; rewrite !orb_false_iff, !Z.eqb_neq; lia).
  rewrite (proj2 (Z.eqb_neq c 123)), (proj2 (Z.eqb_neq c 91)), (proj2 (Z.eqb_neq c 34)) by lia.
  assert ((c =? 45) || digit_char c = true) as -> by (destruct Hc as [->|Hc]; [done|rewrite Hc; apply orb_true_r]). by rewrite E.
Qed.

Lemma value_reads t j : value_text t j -> reads_value t j.
Proof.
  revert t j. apply (value_text_mut reads_value reads_items reads_entries).
  - eapply literal_reads; [done|repeat constructor|done|done].
  - eapply literal_reads; [done|repeat constructor|done|done].
  - eapply literal_reads; [done|repeat constructor|done|done].
  - intros sg s ip Hsg Hip. pose proof (number_reads sg s ip [] [] [] 0 Hsg Hip no_fraction no_exponent) as Hr.
    cbn [app] in Hr. by rewrite app_nil_r in Hr.
  - intros sg s ip fr fp ex x Hsg Hip Hfr Hex Hne. pose proof (number_reads sg s ip fr fp ex x Hsg Hip Hfr Hex) as Hr.
    by destruct (fr ++ ex).
  - intros t cps Ht N fuel w r Hw Hr Hl Hf. destruct fuel as [|fuel]; [lia|]. cbn [read_value].
    rewrite (skip_ws_app w) by done. cbn [app skip is_ws Z.eqb Pos.eqb orb]. rewrite <- app_assoc. cbn [app].
    rewrite (read_chars_complete _ _ r Ht) by lens. done.
  - intros w' Hw' N fuel w r Hw _ _ Hf. destruct fuel as [|fuel]; [lia|]. cbn [read_value].
    rewrite (skip_ws_app w) by done. cbn [app skip is_ws Z.eqb Pos.eqb orb]. unfold read_array.
    rewrite <- app_assoc, (skip_ws_app w') by done. done.
  - intros t items Ht Hr. by apply array_reads.
  - intros w' Hw' N fuel w r Hw _ _ Hf. destruct fuel as [|fuel]; [lia|]. cbn [read_value].
    rewrite (skip_ws_app w) by done. cbn [app skip is_ws Z.eqb Pos.eqb orb]. unfold read_object.
    rewrite <- app_assoc, (skip_ws_app w') by done. done.
  - intros t entries Ht Hr. by apply object_reads.
  - intros w1 t j w2 H1 Ht Hr H2. by apply last_item_reads.
  - intros w1 t j w2 t' items H1 Ht Hr H2 Ht' Hrs. by apply next_item_reads.
  - intros w1 k cps w2 w3 t j w4 H1 Hk H2 H3 Ht Hr H4. by apply last_entry_reads.
  - intros w1 k cps w2 w3 t j w4 t' entries H1 Hk H2 H3 Ht Hr H4 Hts Hrs. by apply next_entry_reads.
Qed.

(** The reader decides the grammar. *)
Lemma read_json_complete l j N : (length l <= N)%nat -> json_text l j -> read_json l N = Got j.
Proof.
  intros Hl (w1 & t & w2 & H1 & Ht & H2 & ->). unfold read_json. rewrite (value_reads t j Ht); [|done| |done|lens].
  - cbn [obind]. pose proof (skip_ws_app w2 [] H2) as E. rewrite app_nil_r in E. by rewrite E.
  - rewrite <- (app_nil_r w2). by apply delimited_ws.
Qed.

Lemma read_json_sound l j N : read_json l N = Got j -> json_text l j.
Proof.
  unfold read_json. destruct (read_value N (S N) l) as [[j' r]| |] eqn:E; [|done..]. cbn [obind].
  destruct (skip_spec r) as (w2 & Er & Hw2 & _). destruct (skip r) as [|c r']; [|done]. intros [= ->]. rewrite app_nil_r in Er. subst r.
  apply read_value_sound in E as (w & t & -> & Hw & Ht). by exists w, t, w2.
Qed.

(** ** How the reader crashes *)

Lemma cut_at_ascii n l : ascii l -> (n <= length l)%nat -> cut_at n l = true.
Proof.
  intros Hl. revert n. induction Hl as [|c l Hc _ IH]; intros n Hn; [by destruct n; [|simpl in Hn; lia]|].
  destruct n as [|n]; [done|]. cbn [cut_at]. unfold utf8_char. rewrite (proj2 (Z.ltb_lt c 128)) by lia. cbn [length Nat.leb Nat.sub].
  rewrite Nat.sub_0_r. apply IH. simpl in Hn. lia.
Qed.

Lemma literal_crash name j l : read_literal name j l = Crash -> ~ ascii l.
Proof.
  unfold read_literal. destruct (Nat.ltb_spec (length (utf8 l)) (length name)); [done|]. case_bool_decide; [done|].
  destruct (cut_at _ l) eqn:Hc; [done|]. intros _ Ha. rewrite cut_at_ascii in Hc; [done|done|]. by rewrite utf8_ascii in * by done.
Qed.

Lemma ascii_suffix a b : ascii (a ++ b) -> ascii b.
Proof. by intros [_ ?]%ascii_app. Qed.

Lemma ascii_skip l : ascii l -> ascii (skip l).
Proof. intros Ha. destruct (skip_spec l) as (w & E & _). rewrite E in Ha. by apply ascii_suffix in Ha. Qed.

Section crash.
Context (N : nat) (rv : list Z -> outcome (json * list Z)).
Context (rv_sound : forall l j r, rv l = Got (j, r) -> exists w t, l = w ++ t ++ r /\ ws w /\ value_text t j).
Context (rv_crash : forall l, rv l = Crash -> ~ ascii l).

Lemma rest_ascii l j r : rv l = Got (j, r) -> ascii l -> ascii (skip r).
Proof using rv_sound. intros (w & t & -> & _)%rv_sound Ha. rewrite app_assoc in Ha. by apply ascii_skip, (ascii_suffix (w ++ t)). Qed.

Lemma items_crash fuel : forall l, read_items rv fuel l = Crash -> ~ ascii l.
Proof using rv_sound rv_crash.
  induction fuel as [|fuel IH]; intros l E Ha; [done|]. destruct l as [|c l]; [done|]. cbn [read_items] in E.
  destruct (rv (c :: l)) as [[j l1]| |] eqn:Ev; [|done|by eapply rv_crash]. cbn [obind] in E. pose proof (rest_ascii _ _ _ Ev Ha) as Hs.
  destruct (skip l1) as [|d r1]; [done|]. destruct (d =? 93); [done|]. destruct (d =? 44); [|done].
  destruct (read_items rv fuel r1) as [[? ?]| |] eqn:Er; [done..|]. by apply (IH r1), (ascii_suffix [d]).
Qed.

Lemma entries_crash fuel : forall l, read_entries N rv fuel l = Crash -> ~ ascii l.
Proof using rv_sound rv_crash.
  induction fuel as [|fuel IH]; intros l E Ha; [done|]. destruct l as [|c l]; [done|]. cbn [read_entries] in E.
  destruct (read_key N (c :: l)) as [[cps l0]|] eqn:Ek; [|done]. cbn [to_outcome obind] in E.
  apply read_key_sound in Ek as (w1 & k & w2 & El & _). rewrite El in Ha.
  assert (H0 : ascii l0).
  { replace (w1 ++ 34 :: k ++ 34 :: w2 ++ 58 :: l0) with ((w1 ++ 34 :: k ++ 34 :: w2 ++ [58]) ++ l0) in Ha
      by (repeat (rewrite <- ?app_assoc; cbn [app]); done). by apply ascii_suffix in Ha. }
  destruct (rv l0) as [[j l1]| |] eqn:Ev; [|done|by eapply rv_crash]. cbn [obind] in E. pose proof (rest_ascii _ _ _ Ev H0) as Hs.
  destruct (skip l1) as [|d r1]; [done|]. destruct (d =? 125); [done|]. destruct (d =? 44); [|done].
  destruct (read_entries N rv fuel r1) as [[? ?]| |] eqn:Er; [done..|]. by apply (IH r1), (ascii_suffix [d]).
Qed.
End crash.

(** The reader fails in its own way only on texts outside of ASCII. *)
Lemma read_value_crash N fuel : forall l, read_value N fuel l = Crash -> ~ ascii l.
Proof.
  induction fuel as [|fuel IH]; intros l E Ha; [done|]. cbn [read_value] in E. apply ascii_skip in Ha.
  destruct (skip l) as [|c r] eqn:Es; [done|]. pose proof (ascii_suffix [c] r Ha) as Hr. apply ascii_skip in Hr.
  pose proof (read_value_sound N fuel) as Hsound. destruct (c =? 123).
  { unfold read_object in E. destruct (skip r) as [|d r1]; [done|]. destruct (d =? 125); [done|].
    destruct (read_entries N (read_value N fuel) N (d :: r1)) as [[? ?]| |] eqn:Er; [done..|]. by apply (entries_crash _ _ Hsound IH) in Er. }
  destruct (c =? 91).
  { unfold read_array in E. destruct (skip r) as [|d r1]; [done|]. destruct (d =? 93); [done|].
    destruct (read_items (read_value N fuel) N (d :: r1)) as [[? ?]| |] eqn:Er; [done..|]. by apply (items_crash _ Hsound IH) in Er. }
  destruct (c =? 34); [by destruct (read_chars N r) as [[? ?]|]|].
  destruct ((c =? 45) || digit_char c); [by destruct (read_number (c :: r))|].
  destruct (c =? 116); [by apply literal_crash in E|]. destruct (c =? 102); [by apply literal_crash in E|].
  destruct (c =? 110); [by apply literal_crash in E|done].
Qed.

Lemma read_json_crash l N : read_json l N = Crash -> ~ ascii l.
Proof.
  unfold read_json. destruct (read_value N (S N) l) as [[j r]| |] eqn:E; [|done|by intros _; eapply read_value_crash].
  cbn [obind]. by destruct (skip r).
Qed.
End spec.
Arguments Got {A} a.
Arguments Bad {A}.
Arguments Crash {A}.

(** The grammar of RFC 8259, and the part of it where surrogates are escaped in
    pairs only, so that every string is one of Unicode characters. *)
Definition rfc_8259 : Surrogates := true.
Definition paired_only : Surrogates := false.

Lemma paired_chars t cps : string_chars (unpaired:=paired_only) t cps -> string_chars (unpaired:=rfc_8259) t cps.
Proof. induction 1; [by econstructor..|done]. Qed.

Lemma paired_value {F} `{Float F} t (j : json) : value_text (unpaired:=paired_only) t j -> value_text (unpaired:=rfc_8259) t j.
Proof.
  revert t j. apply (value_text_mut (unpaired:=paired_only) (value_text (unpaired:=rfc_8259)) (items_text (unpaired:=rfc_8259))
    (entries_text (unpaired:=rfc_8259))); intros; econstructor; eauto using paired_chars.
Qed.

Lemma paired_rfc {F} `{Float F} t (j : json) : json_text (unpaired:=paired_only) t j -> json_text (unpaired:=rfc_8259) t j.
Proof. intros (w1 & t' & w2 & H1 & Ht & H2 & ->). exists w1, t', w2. split_and!; try done. by apply paired_value. Qed.
