(* ===== verification/JsonText.v ===== *)
(** * JSON: the parser on the bytes of a text

    [Json] walks the bytes of a [str], the reader of [JsonSpec] its code points.
    [pos rest] is the byte at which the rest [rest] of the text starts; every
    lemma says that a function of the parser at [pos rest] does what the reader
    does on [rest], and stops where the reader stops. *)

From S2P Require Import Prelude RawList Bits Buffers Utf8 StrOps StrIndex IntDigits IntText FloatText Json JsonSpec.

Local Open Scope Z_scope.
Local Open Scope monad_scope.

#[local] Existing Instance paired_only.

Section text.
Context {F : Type} `{Float F} (crt_memcmp : list Z -> list Z -> Z).
Context (memcmp_law : forall a b, length a = length b -> Z.sgn (crt_memcmp a b) = lex a b).
Context (s : Str) (cps : list Z) (Hs : str_ok s cps).

Abbreviation data := (s_data s).
Abbreviation len := (byte_len s).

Definition pos (rest : list Z) : nat := (len - length (utf8 rest))%nat.

(** What a function of the parser answers when the reader answers [o]. *)
Definition answers {A B} (m : result abort (result JSONError A)) (o : option B) (Q : A -> B -> Prop) : Prop :=
  match o with
  | Some b => exists a, m = Ok (Ok a) /\ Q a b
  | None => exists e, m = Ok (Err e)
  end.

(** ** Bytes *)

Lemma len_text : len = length (utf8 cps).
Proof using Hs. by apply byte_len_ok. Qed.

Lemma pos_nil : pos [] = len.
Proof. unfold pos. simpl. lia. Qed.

Lemma pos_cons c r : suffix (c :: r) cps -> suffix r cps /\ (pos r = pos (c :: r) + length (utf8_char c))%nat /\ (pos (c :: r) < len)%nat.
Proof using Hs.
  intros [p E]. split; [exists (p ++ [c]); by rewrite <- app_assoc|]. unfold pos. rewrite len_text, E, utf8_cons, !utf8_app, utf8_cons, !length_app.
  pose proof (str_text _ _ Hs) as Ht. rewrite E in Ht. apply Forall_app in Ht as [_ Ht]. apply Forall_cons in Ht as [Hc _].
  pose proof (sequence_length _ _ (char_sequence _ Hc)). lia.
Qed.

Lemma pos_app t r : suffix (t ++ r) cps -> suffix r cps /\ (pos r = pos (t ++ r) + length (utf8 t))%nat.
Proof using Hs.
  induction t as [|c t IH]; intros Hr; [split; [done|]; simpl; lia|]. cbn [app] in Hr. apply pos_cons in Hr as (Hr & E & _).
  destruct (IH Hr) as [? E']. split; [done|]. cbn [app]. rewrite utf8_cons, length_app. lia.
Qed.

(** The byte [b] that stands for the code point [c]. *)
Definition looks (b c : Z) : Prop := c < 128 /\ b = c \/ 128 <= c /\ 128 <= b.

Definition ascii_test (T : Z -> bool) : Prop := forall b c, looks b c -> T b = T c.

Lemma first_byte c r : suffix (c :: r) cps -> exists b, read_ptr data (pos (c :: r)) = Ok b /\ looks b c.
Proof using Hs.
  intros [p E]. unfold pos, read_ptr. rewrite (str_data _ _ Hs), len_text. rewrite E, utf8_app, length_app, Nat.add_sub, <- app_assoc, lookup_app_r by lia.
  rewrite Nat.sub_diag, utf8_cons. pose proof (str_text _ _ Hs) as Ht. rewrite E in Ht. apply Forall_app in Ht as [_ Ht]. apply Forall_cons in Ht as [Hc _].
  apply scalar_spec in Hc. unfold utf8_char. destruct (Z.ltb_spec c 128); [exists c; split; [done|by left]|].
  destruct (Z.ltb_spec c 2048); [eexists; split; [done|right; divmod]|]. destruct (Z.ltb_spec c 65536); eexists; (split; [done|right; divmod]).
Qed.

Lemma eqb_test k : k < 128 -> ascii_test (fun c => c =? k).
Proof. intros Hk b c [[_ ->]|[Hc Hb]]; [done|]. rewrite !(proj2 (Z.eqb_neq _ _)) by lia. done. Qed.

Lemma ltb_test k : k <= 128 -> ascii_test (fun c => c <? k).
Proof. intros Hk b c [[_ ->]|[Hc Hb]]; [done|]. rewrite !(proj2 (Z.ltb_ge _ _)) by lia. done. Qed.

Lemma leb_test k : k < 128 -> ascii_test (fun c => c <=? k).
Proof. intros Hk b c [[_ ->]|[Hc Hb]]; [done|]. rewrite !(proj2 (Z.leb_gt _ _)) by lia. done. Qed.

Lemma geb_test k : k <= 128 -> ascii_test (fun c => k <=? c).
Proof. intros Hk b c [[_ ->]|[Hc Hb]]; [done|]. rewrite !(proj2 (Z.leb_le _ _)) by lia. done. Qed.

Lemma digit_test : ascii_test is_ascii_digit.
Proof. intros b c Hl. unfold is_ascii_digit. f_equal; [by apply (geb_test ASCII_ZERO)|by apply (leb_test ASCII_NINE)]. Qed.

Lemma looks_eqb b c k : looks b c -> k < 128 -> (b =? k) = (c =? k).
Proof. intros Hl Hk. by apply (eqb_test k Hk). Qed.

Lemma ascii_char_length c : 0 <= c < 128 -> length (utf8_char c) = 1%nat.
Proof. intros Hc. unfold utf8_char. by rewrite (proj2 (Z.ltb_lt c 128)) by lia. Qed.

Lemma in_text c r : suffix (c :: r) cps -> 0 <= c.
Proof using Hs.
  intros [p E]. pose proof (str_text _ _ Hs) as Ht. rewrite E in Ht. apply Forall_app in Ht as [_ Ht]. apply Forall_cons in Ht as [Hc _].
  apply scalar_spec in Hc. lia.
Qed.

(** Past an ASCII character. *)
Lemma pos_ascii c r : suffix (c :: r) cps -> c < 128 -> pos r = (pos (c :: r) + 1)%nat.
Proof using Hs. intros Hr Hc. pose proof (in_text _ _ Hr). destruct (pos_cons _ _ Hr) as (_ & -> & _). by rewrite ascii_char_length. Qed.

Lemma byte_is_ok T rest : ascii_test T -> suffix rest cps -> byte_is T data len (pos rest) = Ok (match rest with c :: _ => T c | [] => false end).
Proof using Hs.
  intros HT Hr. unfold byte_is. destruct rest as [|c r]; [by rewrite pos_nil, Nat.ltb_irrefl|].
  destruct (pos_cons _ _ Hr) as (_ & _ & Hlt). rewrite (proj2 (Nat.ltb_lt _ _) Hlt). destruct (first_byte _ _ Hr) as (b & -> & Hb). cbn [result_bind].
  by rewrite (HT b c).
Qed.

Lemma utf8_rest_length c r : suffix (c :: r) cps -> (length (utf8 (c :: r)) = length (utf8_char c) + length (utf8 r))%nat /\ (1 <= length (utf8_char c))%nat.
Proof using Hs.
  intros [p E]. rewrite utf8_cons, length_app. split; [done|].
  pose proof (str_text _ _ Hs) as Ht. rewrite E in Ht. apply Forall_app in Ht as [_ Ht]. apply Forall_cons in Ht as [Hc _].
  pose proof (sequence_length _ _ (char_sequence _ Hc)). lia.
Qed.

Lemma rest_length rest : suffix rest cps -> (length (utf8 rest) <= len)%nat /\ (length rest <= len)%nat.
Proof using Hs.
  intros [p E]. rewrite len_text, E, utf8_app, length_app. pose proof (str_text _ _ Hs) as Ht. rewrite E in Ht. apply Forall_app in Ht as [_ Ht].
  pose proof (utf8_length rest Ht). lia.
Qed.

(** ** White space and digits *)

Lemma skip_ws_from_ok rest : forall fuel, suffix rest cps -> (length (utf8 rest) <= fuel)%nat -> skip_ws_from fuel data len (pos rest) = Ok (pos (skip rest)).
Proof using Hs.
  induction rest as [|c r IH]; intros fuel Hr Hf.
  - destruct fuel; cbn [skip_ws_from skip]; by rewrite pos_nil, Nat.ltb_irrefl.
  - destruct (pos_cons _ _ Hr) as (Hr' & _ & Hlt). destruct (utf8_rest_length _ _ Hr) as [E H1].
    destruct fuel as [|fuel]; [lia|]. cbn [skip_ws_from]. rewrite (proj2 (Nat.ltb_lt _ _) Hlt).
    destruct (first_byte _ _ Hr) as (b & -> & Hb). cbn [result_bind]. unfold ASCII_SPACE, ASCII_TAB, ASCII_LF, ASCII_CR.
    rewrite !(looks_eqb b c) by (done || lia). cbn [skip]. unfold is_ws.
    destruct ((c =? 32) || (c =? 9) || (c =? 10) || (c =? 13)) eqn:Hw.
    + assert (Hc : c < 128) by (rewrite !orb_true_iff, !Z.eqb_eq in Hw; lia). rewrite <- (pos_ascii _ _ Hr Hc).
      assert (negb (c =? 32) && negb (c =? 9) && negb (c =? 10) && negb (c =? 13) = false) as -> by (by rewrite <- !negb_orb, Hw).
      apply IH; [done|lia].
    + assert (negb (c =? 32) && negb (c =? 9) && negb (c =? 10) && negb (c =? 13) = true) as -> by (by rewrite <- !negb_orb, Hw). done.
Qed.

Lemma skip_ws_ok rest : suffix rest cps -> skip_ws s (pos rest) = Ok (pos (skip rest)) /\ suffix (skip rest) cps.
Proof using Hs.
  intros Hr. destruct (rest_length _ Hr). split; [by apply skip_ws_from_ok|].
  destruct (skip_spec rest) as (w & E & _). etrans; [|exact Hr]. by exists w.
Qed.

Lemma skip_digits_ok rest : forall fuel, suffix rest cps -> (length (utf8 rest) <= fuel)%nat -> skip_digits fuel data len (pos rest) = Ok (pos (span rest).2).
Proof using Hs.
  induction rest as [|c r IH]; intros fuel Hr Hf.
  - destruct fuel; cbn [skip_digits span snd]; by rewrite pos_nil, Nat.ltb_irrefl.
  - destruct (pos_cons _ _ Hr) as (Hr' & _ & Hlt). destruct (utf8_rest_length _ _ Hr) as [E H1].
    destruct fuel as [|fuel]; [lia|]. cbn [skip_digits]. rewrite (proj2 (Nat.ltb_lt _ _) Hlt).
    destruct (first_byte _ _ Hr) as (b & -> & Hb). cbn [result_bind]. rewrite (digit_test b c Hb). cbn [span].
    change (is_ascii_digit c) with (digit_char c). destruct (digit_char c) eqn:Hd; [|done].
    apply digit_char_spec in Hd as Hd'. unfold ascii_zero, ascii_nine in Hd'. rewrite <- (pos_ascii _ _ Hr ltac:(lia)), IH by (done || lia). by destruct (span r).
Qed.

Lemma span_suffix rest : suffix rest cps -> suffix (span rest).2 cps.
Proof. intros Hr. pose proof (span_spec rest) as Hp. destruct (span rest) as [a b]. destruct Hp as (-> & _). etrans; [by exists a|exact Hr]. Qed.

Lemma some_digits_ok start rest : suffix rest cps ->
  answers (some_digits data len start (pos rest)) (read_digit_run rest) (fun p '(_, r) => p = pos r /\ suffix r cps).
Proof using Hs.
  intros Hr. unfold some_digits. rewrite (byte_is_ok _ _ digit_test Hr). cbn [result_bind]. unfold read_digit_run. destruct (rest_length _ Hr) as [Hl _].
  pose proof (skip_digits_ok rest len Hr Hl) as E. pose proof (span_suffix _ Hr) as Hsuf. destruct rest as [|c r]; [by eexists|].
  change (is_ascii_digit c) with (digit_char c). cbn [span] in *. destruct (digit_char c); [|by eexists].
  rewrite E. cbn [result_bind]. destruct (span r) as [a b]. cbn [answers snd] in *. by eexists.
Qed.

(** *** Slices *)

Lemma slice_ok t r : suffix (t ++ r) cps -> exists p, str_slice s (mkSlice (Z.of_nat (pos (t ++ r))) (Some (Z.of_nat (pos r)))) = Ok p /\ str_ok p t.
Proof using Hs.
  intros Hr. destruct (pos_app _ _ Hr) as [_ Ep]. destruct Hr as [q E]. pose proof len_text as El.
  assert (Hq : pos (t ++ r) = length (utf8 q)) by (unfold pos; rewrite El, E, utf8_app, length_app; lia).
  unfold str_slice, resolve_slice_bounds, clamp_slice_bound. cbn [slice_start slice_stop].
  assert (Hb : (pos (t ++ r) <= len /\ pos r <= len)%nat) by (unfold pos; lia).
  rewrite !(proj2 (Z.ltb_ge (Z.of_nat _) 0)), !(proj2 (Z.ltb_ge (Z.of_nat len) _)) by lia. rewrite (proj2 (Z.ltb_ge (Z.of_nat (pos r)) _)) by lia.
  rewrite !Nat2Z.id. apply (byte_slice_ok s q t r); [by rewrite <- E|done|]. rewrite utf8_app, length_app. lia.
Qed.

(** ** Strings *)

Lemma hex_digit_value c : hex_digit c = hex_value c.
Proof.
  unfold hex_digit, hex_value, ASCII_ZERO, ASCII_NINE, ASCII_LOWER_A, ASCII_LOWER_F, ASCII_UPPER_A, ASCII_UPPER_F.
  destruct (_ && _); [done|]. destruct (_ && _); [f_equal; lia|]. destruct (_ && _); [f_equal; lia|done].
Qed.

Lemma hex_value_range c v : hex_value c = Some v -> 0 <= v < 16 /\ c < 128.
Proof.
  unfold hex_value. intros E. repeat (let Hb := fresh in destruct (_ && _) eqn:Hb in E; [apply andb_prop in Hb as [?%Z.leb_le ?%Z.leb_le]; injection E as <-; lia|]). done.
Qed.

Lemma hex_value_looks b c : looks b c -> hex_value b = hex_value c.
Proof.
  intros [[_ ->]|[Hc Hb]]; [done|]. assert (Hn : forall x, 128 <= x -> hex_value x = None); [|by rewrite !Hn].
  intros x Hx. unfold hex_value. by rewrite !(proj2 (Z.leb_gt x _)), !andb_false_r by lia.
Qed.

(** [n] digits, one after the other. *)
Fixpoint hex_run (n : nat) (value : Z) (l : list Z) : option (Z * list Z) :=
  match n, l with
  | O, _ => Some (value, l)
  | S n, c :: r => match hex_value c with Some d => hex_run n (16 * value + d) r | None => None end
  | S _, [] => None
  end.

Lemma hex_run_four l : hex_run 4 0 l = read_hex4 l.
Proof.
  unfold read_hex4. destruct l as [|a [|b [|c [|d r]]]]; cbn [hex_run]; repeat case_match; try done.
  f_equal. f_equal. lia.
Qed.

Lemma hex_digits_from_ok start n : forall rest value, suffix rest cps -> (n <= length (utf8 rest))%nat -> 0 <= value < 2 ^ 16 -> (n <= 4)%nat ->
  value < 16 ^ Z.of_nat (4 - n) ->
  answers (hex_digits_from n data start (pos rest) value) (hex_run n value rest)
    (fun v '(v', r) => v = v' /\ suffix r cps /\ pos r = (pos rest + n)%nat /\ 0 <= v' < 2 ^ 16).
Proof using Hs.
  induction n as [|n IH]; intros rest value Hr Hn Hv H4 Hb; cbn [hex_digits_from hex_run].
  - eexists. split; [done|]. split_and!; [done|done|lia|lia|lia].
  - destruct rest as [|c r]; [simpl in Hn; lia|]. destruct (first_byte _ _ Hr) as (b & -> & Hl). cbn [result_bind].
    rewrite hex_digit_value, (hex_value_looks _ _ Hl). destruct (hex_value c) as [d|] eqn:Hd; [|by eexists].
    apply hex_value_range in Hd as [Hd Hc]. rewrite <- (pos_ascii _ _ Hr Hc). destruct (pos_cons _ _ Hr) as (Hr' & _ & _).
    destruct (utf8_rest_length _ _ Hr) as [El _]. pose proof (in_text _ _ Hr). rewrite ascii_char_length in El by lia.
    replace (4 - n)%nat with (S (4 - S n)) in IH by lia. rewrite Nat2Z.inj_succ, Z.pow_succ_r in IH by lia.
    assert (16 ^ Z.of_nat (4 - S n) <= 16 ^ 3) by (apply Z.pow_le_mono_r; lia).
    assert (Elor : Z.lor (u32 (Z.shiftl value 4)) d = 16 * value + d).
    { rewrite Z.shiftl_mul_pow2, u32_small by lia. rewrite (lor_add _ value 4) by lia. lia. }
    rewrite Elor. specialize (IH r (16 * value + d) Hr' ltac:(lia) ltac:(lia) ltac:(lia) ltac:(lia)).
    destruct (hex_run n (16 * value + d) r) as [[v' r']|]; [|exact IH]. destruct IH as (v & E & -> & ? & Ep & ?). exists v'.
    split; [done|]. split_and!; [done|done|rewrite (pos_ascii _ _ Hr Hc) in Ep; lia|lia|lia].
Qed.

Lemma decode_hex4_ok rest : suffix rest cps ->
  answers (decode_hex4 data len (pos rest)) (read_hex4 rest) (fun '(v, p) '(v', r) => v = v' /\ p = pos r /\ suffix r cps /\ 0 <= v' < 2 ^ 16).
Proof using Hs.
  intros Hr. destruct (rest_length _ Hr) as [Hl _]. unfold decode_hex4. rewrite <- hex_run_four.
  assert (Elen : length (utf8 rest) = (len - pos rest)%nat) by (unfold pos; lia).
  destruct (Nat.ltb_spec len (pos rest + 4)) as [Hlt|Hge].
  - destruct (hex_run 4 0 rest) as [[v r]|] eqn:E; [|by eexists]. rewrite hex_run_four in E. apply read_hex4_sound in E as (h & -> & Hh).
    assert (4 <= length (utf8 (h ++ r)))%nat; [|lia].
    pose proof (utf8_length (h ++ r)) as Hle. rewrite length_app in Hle. destruct Hh. simpl in Hle. etrans; [|apply Hle]; [lia|].
    destruct Hr as [p E]. pose proof (str_text _ _ Hs) as Ht. rewrite E in Ht. by apply Forall_app in Ht as [_ Ht].
  - pose proof (hex_digits_from_ok (pos rest) 4 rest 0 Hr ltac:(lia) ltac:(lia) ltac:(lia) ltac:(simpl; lia)) as Hd.
    destruct (hex_run 4 0 rest) as [[v r]|]; [|destruct Hd as [e ->]; by exists e]. destruct Hd as (v' & -> & -> & ? & Ep & ?).
    eexists. split; [done|]. rewrite <- Ep. split_and!; done || lia.
Qed.

Lemma decode_u_escape_ok rest : suffix rest cps ->
  answers (decode_u_escape data len (pos rest)) (read_unicode rest)
    (fun '(v, p) '(v', r) => v = v' /\ p = pos r /\ suffix r cps /\ scalar_value v' = true).
Proof using Hs.
  intros Hr. unfold decode_u_escape, read_unicode, read_low, paired_only. pose proof (decode_hex4_ok rest Hr) as H1.
  destruct (read_hex4 rest) as [[hi r1]|]; [|destruct H1 as [e ->]; by exists e]. destruct H1 as ([v p] & -> & -> & -> & Hr1 & Hhi). cbn [or_return_pure].
  destruct ((hi <? 55296) || (57343 <? hi)) eqn:Hsur.
  { rewrite orb_true_iff, !Z.ltb_lt in Hsur. rewrite (proj2 (surrogate_false hi)) by done. cbn [negb].
    eexists. split; [done|]. split_and!; [done|done|done|apply scalar_spec; lia]. }
  apply orb_false_elim in Hsur as [?%Z.ltb_ge ?%Z.ltb_ge].
  assert (surrogate hi = true) as -> by (unfold surrogate; rewrite !(proj2 (Z.leb_le _ _)) by lia; done). cbn [negb].
  destruct (Z.ltb_spec 56319 hi); [by eexists|].
  assert (Hmark : (if (len <=? pos r1 + 1)%nat then Ok false
      else let? a := read_ptr data (pos r1) in
        if negb (a =? ASCII_BACKSLASH) then Ok false else let? b := read_ptr data (pos r1 + 1) in Ok (b =? ASCII_LOWER_U))
      = @Ok abort bool (match r1 with a :: b :: _ => (a =? 92) && (b =? 117) | _ => false end)).
  { destruct r1 as [|a r1]; [rewrite pos_nil, (proj2 (Nat.leb_le _ _)) by lia; done|].
    destruct (pos_cons _ _ Hr1) as (Hr2 & Ep & Hlt). destruct (first_byte _ _ Hr1) as (x & Ex & Hx). rewrite Ex. cbn [result_bind].
    rewrite (looks_eqb _ _ ASCII_BACKSLASH Hx) by (unfold ASCII_BACKSLASH; lia).
    destruct (Z.eqb_spec a 92) as [->|Hne].
    - assert (E1 : pos r1 = (pos (92%Z :: r1) + 1)%nat) by (by apply pos_ascii). cbn [Z.eqb negb ASCII_BACKSLASH Pos.eqb].
      destruct r1 as [|b r1]; [rewrite <- E1, pos_nil, (proj2 (Nat.leb_le _ _)) by lia; done|].
      destruct (pos_cons _ _ Hr2) as (_ & _ & Hlt2). rewrite <- E1, (proj2 (Nat.leb_gt _ _)) by lia.
      destruct (first_byte _ _ Hr2) as (y & -> & Hy). cbn [result_bind andb]. by rewrite (looks_eqb _ _ ASCII_LOWER_U Hy) by (unfold ASCII_LOWER_U; lia).
    - rewrite (proj2 (Z.eqb_neq a ASCII_BACKSLASH)) by done. cbn [negb]. destruct (len <=? _)%nat; by destruct r1. }
  rewrite Hmark. cbn [result_bind]. destruct r1 as [|a [|b r1]]; [by eexists..|]. destruct ((a =? 92) && (b =? 117)) eqn:Hab; cbn [negb]; [|by eexists].
  apply andb_prop in Hab as [->%Z.eqb_eq ->%Z.eqb_eq].
  destruct (pos_cons _ _ Hr1) as (Hr2 & _ & _). destruct (pos_cons _ _ Hr2) as (Hr3 & _ & _).
  replace (pos (92%Z :: 117%Z :: r1) + 2)%nat with (pos r1) by (rewrite (pos_ascii _ _ Hr2), (pos_ascii _ _ Hr1) by lia; lia).
  pose proof (decode_hex4_ok r1 Hr3) as Hd2. destruct (read_hex4 r1) as [[lo r2]|]; [|destruct Hd2 as [e ->]; by exists e].
  destruct Hd2 as ([v p] & -> & -> & -> & Hr4 & Hlo). cbn [or_return_pure].
  destruct ((lo <? 56320) || (57343 <? lo)) eqn:Hl.
  - assert ((56320 <=? lo) && (lo <=? 57343) = false) as -> by (rewrite orb_true_iff, !Z.ltb_lt in Hl; rewrite andb_false_iff, !Z.leb_gt; lia). by eexists.
  - apply orb_false_elim in Hl as [?%Z.ltb_ge ?%Z.ltb_ge]. rewrite !(proj2 (Z.leb_le _ _)) by lia. cbn [andb]. eexists. split; [done|].
    rewrite Z.shiftl_mul_pow2, u32_small by lia. split_and!; [done|done|done|apply scalar_spec; lia].
Qed.

(** *** The bytes of a character that is not ASCII *)

Lemma high_bytes c r : suffix (c :: r) cps -> 128 <= c -> Forall (fun b => 128 <= b) (utf8_char c) /\
  forall k b, utf8_char c !! k = Some b -> read_ptr data (pos (c :: r) + k) = Ok b.
Proof using Hs.
  intros [p E] Hc. pose proof (str_text _ _ Hs) as Ht. rewrite E in Ht. apply Forall_app in Ht as [_ Ht]. apply Forall_cons in Ht as [Hsc _]. split.
  - apply scalar_spec in Hsc. unfold utf8_char. destruct (Z.ltb_spec c 128); [lia|].
    destruct (Z.ltb_spec c 2048); [|destruct (Z.ltb_spec c 65536)]; repeat constructor; divmod.
  - intros k b Hk. unfold read_ptr, pos. rewrite (str_data _ _ Hs), len_text, E, utf8_app, length_app, Nat.add_sub, <- app_assoc, lookup_app_r by lia.
    replace (length (utf8 p) + k - length (utf8 p))%nat with k by lia. rewrite utf8_cons, <- app_assoc.
    rewrite lookup_app_l by (by eapply lookup_lt_Some). by rewrite Hk.
Qed.

Lemma measure_high c r fuel n : suffix (c :: r) cps -> 128 <= c ->
  measure_from (length (utf8_char c) + fuel) data len (pos (c :: r)) n = measure_from fuel data len (pos r) (n + length (utf8_char c)).
Proof using Hs.
  intros Hr Hc. destruct (high_bytes _ _ Hr Hc) as [Hb Hread]. destruct (pos_cons _ _ Hr) as (_ & Ep & _). rewrite Ep.
  assert (Hle : (pos (c :: r) + length (utf8_char c) <= len)%nat) by (rewrite <- Ep; unfold pos; lia). clear Ep.
  revert Hread Hle. generalize (pos (c :: r)) as i. revert n. induction Hb as [|b w Hb _ IH]; intros n i Hread Hle.
  - cbn [length Nat.add]. by rewrite !Nat.add_0_r.
  - cbn [length Nat.add]. cbn [measure_from]. cbn [length] in Hle. rewrite (proj2 (Nat.ltb_lt _ _)) by lia.
    pose proof (Hread O b eq_refl) as Hread0. rewrite Nat.add_0_r in Hread0. rewrite Hread0. cbn [result_bind].
    unfold ASCII_QUOTE, ASCII_SPACE, ASCII_BACKSLASH. rewrite (proj2 (Z.eqb_neq b 34)), (proj2 (Z.ltb_ge b 32)), (proj2 (Z.eqb_neq b 92)) by lia.
    rewrite IH; [f_equal; lia| |lia]. intros k x Hk. rewrite <- (Hread (S k) x Hk). f_equal. lia.
Qed.

Lemma short_escape_is esc : is_short_escape esc = match short_escape esc with Some _ => true | None => false end.
Proof.
  unfold is_short_escape, short_escape, ASCII_QUOTE, ASCII_BACKSLASH, ASCII_SLASH, ASCII_LOWER_B, ASCII_LOWER_F, ASCII_LOWER_N, ASCII_LOWER_R, ASCII_LOWER_T.
  by repeat (destruct (esc =? _); [by rewrite ?orb_true_r|]).
Qed.

Lemma short_escape_byte_ok esc d : short_escape esc = Some d -> short_escape_byte esc = Ok d.
Proof.
  unfold short_escape_byte, short_escape, ASCII_QUOTE, ASCII_BACKSLASH, ASCII_SLASH, ASCII_LOWER_B, ASCII_LOWER_F, ASCII_LOWER_N, ASCII_LOWER_R, ASCII_LOWER_T.
  repeat (destruct (esc =? _); [by intros [= <-]|]). done.
Qed.

Lemma short_escape_ascii c d : short_escape c = Some d -> c < 128 /\ 0 <= d < 128.
Proof.
  unfold short_escape. repeat match goal with |- context [c =? ?k] => destruct (Z.eqb_spec c k) as [->|]; [intros [= <-]; lia|] end. done.
Qed.

Lemma short_escape_looks b c : looks b c -> short_escape b = short_escape c.
Proof. intros Hl. unfold short_escape. by rewrite !(looks_eqb _ _ _ Hl) by lia. Qed.

Lemma encoded_len cp : scalar_value cp = true -> utf8_encoded_len cp = length (utf8_char cp).
Proof. intros Hc. by rewrite utf8_encoded_len_spec, encode_utf8_spec. Qed.

Lemma answers_map {A B C} m (o : option B) (f : B -> C) (Q : A -> B -> Prop) (Q' : A -> C -> Prop) :
  answers m o Q -> (forall a b, Q a b -> Q' a (f b)) -> answers m (option_map f o) Q'.
Proof. destruct o as [b|]; cbn [answers option_map]; [|done]. intros (a & -> & Ha) HQ. exists a. split; [done|by apply HQ]. Qed.

(** What measuring a string finds: the size of its encoding and its end. *)
Definition measured (n : nat) (x : nat * nat) (y : list Z * list Z) : Prop :=
  x.1 = (n + length (utf8 y.1))%nat /\ x.2 = pos y.2 /\ suffix y.2 cps /\ text y.1.

Lemma measured_cons n d x y : scalar_value d = true -> measured (n + length (utf8_char d)) x y -> measured n x (d :: y.1, y.2).
Proof.
  intros Hd (E1 & E2 & Hr & Ht). split_and!; [|done|done|by constructor]. cbn [fst]. rewrite utf8_cons, length_app. lia.
Qed.

Lemma in_text_scalar c r : suffix (c :: r) cps -> scalar_value c = true.
Proof using Hs.
  intros [p E]. pose proof (str_text _ _ Hs) as Ht. rewrite E in Ht. apply Forall_app in Ht as [_ Ht]. by apply Forall_cons in Ht as [Hc _].
Qed.

Lemma ascii_scalar c : 0 <= c < 128 -> scalar_value c = true.
Proof. intros Hc. apply scalar_spec. lia. Qed.

Lemma measure_ok fuelp : forall rest fuelc n, suffix rest cps -> (length (utf8 rest) <= fuelc)%nat -> (length rest <= fuelp)%nat ->
  answers (measure_from fuelc data len (pos rest) n) (read_chars fuelp rest) (measured n).
Proof using Hs.
  induction fuelp as [|fuelp IH]; intros rest fuelc n Hr Hc Hp.
  { destruct rest; [|simpl in Hp; lia]. cbn [read_chars]. destruct fuelc; cbn [measure_from]; rewrite pos_nil, Nat.ltb_irrefl; by eexists. }
  destruct rest as [|c r].
  { cbn [read_chars]. destruct fuelc; cbn [measure_from]; rewrite pos_nil, Nat.ltb_irrefl; by eexists. }
  assert (Hstep : forall d r' fuel m, suffix r' cps -> scalar_value d = true -> (length (utf8 r') <= fuel)%nat -> (length r' <= fuelp)%nat ->
    m = (n + length (utf8_char d))%nat ->
    answers (measure_from fuel data len (pos r') m) (option_map (fun '(cps, r) => (d :: cps, r)) (read_chars fuelp r')) (measured n)).
  { intros d r' fuel m Hr' Hd Hf Hl ->. eapply answers_map; [by apply IH|]. intros x [out r2]. by apply measured_cons. }
  destruct (pos_cons _ _ Hr) as (Hr' & _ & Hlt). destruct (utf8_rest_length _ _ Hr) as [El H1]. cbn [length] in Hp. cbn [read_chars].
  destruct (decide (128 <= c)) as [Hhi|Hlo].
  { replace fuelc with (length (utf8_char c) + (fuelc - length (utf8_char c)))%nat by lia. rewrite (measure_high _ _ _ _ Hr Hhi).
    rewrite (proj2 (Z.eqb_neq c 34)), (proj2 (Z.ltb_ge c 32)), (proj2 (Z.eqb_neq c 92)) by lia.
    apply Hstep; [done|by eapply in_text_scalar|lia|lia|done]. }
  pose proof (in_text _ _ Hr) as Hc0. pose proof (pos_ascii _ _ Hr ltac:(lia)) as Ep. rewrite ascii_char_length in El by lia.
  destruct fuelc as [|fuelc]; [lia|]. cbn [measure_from]. rewrite (proj2 (Nat.ltb_lt _ _) Hlt).
  destruct (first_byte _ _ Hr) as (b & -> & Hb). destruct Hb as [[_ ->]|[? _]]; [|lia]. cbn [result_bind].
  unfold ASCII_QUOTE, ASCII_SPACE, ASCII_BACKSLASH. destruct (Z.eqb_spec c 34) as [->|Hq].
  { eexists. split; [done|]. unfold measured. cbn [fst snd]. split_and!; [simpl; lia|by rewrite Ep|done|constructor]. }
  destruct (Z.ltb_spec c 32); [by eexists|]. rewrite <- Ep. destruct (Z.eqb_spec c 92) as [->|Hbs].
  2:{ apply Hstep; [done|by apply ascii_scalar; lia|lia|lia|by rewrite ascii_char_length by lia]. }
  destruct r as [|e r]; [rewrite pos_nil, Nat.leb_refl; by eexists|]. destruct (pos_cons _ _ Hr') as (Hr2 & _ & Hlt2).
  rewrite (proj2 (Nat.leb_gt _ _)) by lia. destruct (first_byte _ _ Hr') as (b & -> & Hb). cbn [result_bind].
  destruct (utf8_rest_length _ _ Hr') as [El2 H2]. cbn [length] in Hp. rewrite short_escape_is, (short_escape_looks _ _ Hb).
  assert (Ep2 : e < 128 -> (pos (92%Z :: e :: r) + 2)%nat = pos r) by (intros He; rewrite (pos_ascii e r Hr' He), Ep; lia).
  destruct (short_escape e) as [d|] eqn:He.
  { apply short_escape_ascii in He as [He Hd]. rewrite Ep2 by done. apply Hstep; [done|by apply ascii_scalar|lia|lia|by rewrite ascii_char_length]. }
  rewrite (looks_eqb _ _ ASCII_LOWER_U Hb) by done. unfold ASCII_LOWER_U. destruct (Z.eqb_spec e 117) as [->|]; [|by eexists].
  rewrite Ep2 by done. pose proof (decode_u_escape_ok r Hr2) as Hu. destruct (read_unicode r) as [[cp r3]|] eqn:Eu; [|destruct Hu as [x ->]; by exists x].
  destruct Hu as ([v p] & -> & -> & -> & Hr3 & Hcp). cbn [or_return_pure].
  apply read_unicode_sound in Eu as (u & -> & Hu). rewrite length_app in Hp. rewrite utf8_app, length_app in El2.
  apply Hstep; [done|done|lia|lia|by rewrite encoded_len].
Qed.

(** *** Filling the buffer *)

Lemma fill_high c r fuel w buf : suffix (c :: r) cps -> 128 <= c -> starts buf w -> (length w + length (utf8_char c) <= length buf)%nat ->
  exists buf', fill_from (length (utf8_char c) + fuel) data len (pos (c :: r)) (length w) buf =
    fill_from fuel data len (pos r) (length (w ++ utf8_char c)) buf' /\ length buf' = length buf /\ starts buf' (w ++ utf8_char c).
Proof using Hs.
  intros Hr Hc. destruct (high_bytes _ _ Hr Hc) as [Hb Hread]. destruct (pos_cons _ _ Hr) as (_ & Ep & _). rewrite Ep.
  assert (Hle : (pos (c :: r) + length (utf8_char c) <= len)%nat) by (rewrite <- Ep; unfold pos; lia). clear Ep.
  revert Hread Hle. generalize (pos (c :: r)) as i. revert w buf. induction Hb as [|b bs Hb _ IH]; intros w buf i Hread Hle Hw Hl.
  - exists buf. cbn [length Nat.add]. by rewrite Nat.add_0_r, app_nil_r.
  - cbn [length Nat.add]. cbn [fill_from]. cbn [length] in Hle, Hl. rewrite (proj2 (Nat.ltb_lt _ _)) by lia.
    pose proof (Hread O b eq_refl) as Hread0. rewrite Nat.add_0_r in Hread0. rewrite Hread0. cbn [result_bind].
    unfold ASCII_QUOTE, ASCII_BACKSLASH. rewrite (proj2 (Z.eqb_neq b 34)), (proj2 (Z.eqb_neq b 92)) by lia.
    destruct (starts_push buf w b Hw ltac:(lia)) as (buf1 & -> & Hl1 & Hw1). cbn [result_bind].
    destruct (IH (w ++ [b]) buf1 (i + 1)%nat) as (buf2 & E & Hl2 & Hw2); [|lia|done|rewrite length_app; simpl; lia|].
    + intros k x Hk. rewrite <- (Hread (S k) x Hk). f_equal. lia.
    + rewrite length_app in E. cbn [length] in E. rewrite E. rewrite <- app_assoc in *. exists buf2. cbn [app] in *.
      split_and!; [f_equal; lia|congruence|done].
Qed.

Lemma starts_store_char buf w cp : scalar_value cp = true -> starts buf w -> (length w + length (utf8_char cp) <= length buf)%nat ->
  exists buf', store_bytes (length w) (encode_utf8 cp) buf = Ok buf' /\ length buf' = length buf /\ starts buf' (w ++ utf8_char cp).
Proof. intros Hc Hw Hl. rewrite encode_utf8_spec by done. by apply starts_store. Qed.

Lemma fill_ok fuelp : forall rest fuelc out r w buf, suffix rest cps -> (length (utf8 rest) <= fuelc)%nat -> read_chars fuelp rest = Some (out, r) ->
  starts buf w -> (length w + length (utf8 out) <= length buf)%nat ->
  exists buf', fill_from fuelc data len (pos rest) (length w) buf = Ok buf' /\ length buf' = length buf /\ starts buf' (w ++ utf8 out).
Proof using Hs.
  induction fuelp as [|fuelp IH]; intros rest fuelc out r w buf Hr Hc E Hw Hl; [done|]. destruct rest as [|c rest]; [done|].
  destruct (pos_cons _ _ Hr) as (Hr' & _ & Hlt). destruct (utf8_rest_length _ _ Hr) as [El H1]. cbn [read_chars] in E.
  assert (Hstep : forall d r' fuel buf1, option_map (fun '(cps, r) => (d :: cps, r)) (read_chars fuelp r') = Some (out, r) -> suffix r' cps ->
    (length (utf8 r') <= fuel)%nat -> length buf1 = length buf -> starts buf1 (w ++ utf8_char d) ->
    exists buf', fill_from fuel data len (pos r') (length (w ++ utf8_char d)) buf1 = Ok buf' /\ length buf' = length buf /\ starts buf' (w ++ utf8 out)).
  { intros d r' fuel buf1 Em Hr2 Hf Hb Hs1. destruct (read_chars fuelp r') as [[out' r2]|] eqn:Er; [|done]. injection Em as <- <-.
    rewrite utf8_cons, length_app in Hl. destruct (IH r' fuel out' r2 _ buf1 Hr2 Hf Er Hs1) as (buf' & Ef & Hb' & Hs').
    - rewrite length_app. lia.
    - exists buf'. rewrite utf8_cons, app_assoc. split_and!; [done|congruence|done]. }
  assert (Hfits : forall d r' (x : Z), option_map (fun '(cps, r) => (d :: cps, r)) (read_chars fuelp r') = Some (out, r) ->
    (length w + length (utf8_char d) <= length buf)%nat).
  { intros d r' _ Em. destruct (read_chars fuelp r') as [[out' r2]|]; [|done]. injection Em as <- <-. rewrite utf8_cons, length_app in Hl. lia. }
  destruct (decide (128 <= c)) as [Hhi|Hlo].
  { rewrite (proj2 (Z.eqb_neq c 34)), (proj2 (Z.ltb_ge c 32)), (proj2 (Z.eqb_neq c 92)) in E by lia.
    replace fuelc with (length (utf8_char c) + (fuelc - length (utf8_char c)))%nat by lia.
    destruct (fill_high c rest (fuelc - length (utf8_char c)) w buf Hr Hhi Hw (Hfits _ _ 0 E)) as (buf1 & -> & Hb1 & Hs1).
    apply Hstep; [done|done|lia|done|done]. }
  pose proof (in_text _ _ Hr) as Hc0. pose proof (pos_ascii _ _ Hr ltac:(lia)) as Ep. rewrite ascii_char_length in El by lia.
  destruct fuelc as [|fuelc]; [lia|]. cbn [fill_from]. rewrite (proj2 (Nat.ltb_lt _ _) Hlt).
  destruct (first_byte _ _ Hr) as (b & -> & Hb). destruct Hb as [[_ ->]|[? _]]; [|lia]. cbn [result_bind].
  assert (Hpush : forall d, 0 <= d < 128 -> (length w + length (utf8_char d) <= length buf)%nat -> exists buf1, write_u8 (length w) d buf = Ok buf1 /\
    length buf1 = length buf /\ starts buf1 (w ++ utf8_char d) /\ (length w + 1)%nat = length (w ++ utf8_char d)).
  { intros d Hd Hfit. assert (Eu : utf8_char d = [d]) by (unfold utf8_char; by rewrite (proj2 (Z.ltb_lt d 128)) by lia). rewrite Eu in *.
    destruct (starts_push buf w d Hw) as (buf1 & -> & ? & ?); [simpl in Hfit; lia|]. exists buf1. rewrite length_app. by split_and!. }
  unfold ASCII_QUOTE, ASCII_BACKSLASH. destruct (Z.eqb_spec c 34) as [->|Hq].
  { injection E as <- <-. exists buf. by rewrite app_nil_r. }
  destruct (Z.ltb_spec c 32); [done|]. rewrite <- Ep. destruct (Z.eqb_spec c 92) as [->|Hbs].
  2:{ destruct (Hpush c ltac:(lia) (Hfits _ _ 0 E)) as (buf1 & -> & Hb1 & Hs1 & ->). cbn [result_bind]. apply Hstep; [done|done|lia|done|done]. }
  destruct rest as [|e rest]; [done|]. destruct (pos_cons _ _ Hr') as (Hr2 & _ & Hlt2).
  destruct (first_byte _ _ Hr') as (b & -> & Hb). cbn [result_bind]. destruct (utf8_rest_length _ _ Hr') as [El2 H2].
  assert (Ep2 : e < 128 -> (pos (92%Z :: e :: rest) + 2)%nat = pos rest) by (intros He; rewrite (pos_ascii e rest Hr' He), Ep; lia).
  rewrite (looks_eqb _ _ ASCII_LOWER_U Hb) by done. unfold ASCII_LOWER_U.
  destruct (short_escape e) as [d|] eqn:He.
  { rewrite (proj2 (Z.eqb_neq e 117)) by (by apply (short_escape_not_u _ d)). apply short_escape_ascii in He as Hd. destruct Hd as [He' Hd].
    destruct Hb as [[_ ->]|[? _]]; [|lia]. rewrite (short_escape_byte_ok _ _ He). cbn [result_bind].
    destruct (Hpush d Hd (Hfits _ _ 0 E)) as (buf1 & -> & Hb1 & Hs1 & ->). cbn [result_bind]. rewrite Ep2 by done. apply Hstep; [done|done|lia|done|done]. }
  destruct (Z.eqb_spec e 117) as [->|]; [|done]. rewrite Ep2 by done. pose proof (decode_u_escape_ok rest Hr2) as Hu.
  destruct (read_unicode rest) as [[cp r3]|] eqn:Eu; [|done]. destruct Hu as ([v p] & -> & -> & -> & Hr3 & Hcp). cbn [result_bind unwrap].
  destruct (starts_store_char buf w cp Hcp Hw (Hfits _ _ 0 E)) as (buf1 & -> & Hb1 & Hs1). cbn [result_bind].
  apply read_unicode_sound in Eu as (u & -> & Hu). rewrite utf8_app, length_app in El2.
  rewrite encoded_len, <- length_app by done. apply Hstep; [done|done|lia|done|done].
Qed.

Lemma from_cstr_ok t cps' : text cps' -> t = utf8 cps' ++ [0] -> exists s', from_cstr t (length t) = Ok (Ok s') /\ str_ok s' cps'.
Proof.
  intros Ht ->. unfold from_cstr. unfold bytes_at. rewrite drop_0, (proj2 (Nat.leb_le _ _)), take_ge by lia. cbn [result_bind].
  rewrite length_app. cbn [length]. rewrite panic_sub_ok by lia. cbn [result_bind]. rewrite Nat.add_sub.
  unfold read_ptr at 1. rewrite lookup_app_r, Nat.sub_diag by lia. cbn [lookup list_lookup result_bind Z.eqb negb].
  rewrite Nat.add_1_r. by apply from_owned_cstr_valid.
Qed.

(** A filled buffer is made a string. *)
Lemma built_ok msg buf out n : starts buf (utf8 out) -> n = length (utf8 out) -> length buf = (n + 1)%nat -> text out -> exists s',
  (let? buf := write_u8 n 0 buf in let? ptr := filled buf in let? r := from_cstr ptr (n + 1) in unwrap msg r) = Ok s' /\ str_ok s' out.
Proof.
  intros Hb -> Hl Ht. destruct (starts_push _ _ 0 Hb ltac:(lia)) as (buf' & -> & Hl' & Hb'). cbn [result_bind].
  rewrite (filled_ok _ _ Hb') by (rewrite length_app; simpl; lia). cbn [result_bind].
  destruct (from_cstr_ok (utf8 out ++ [0]) out Ht eq_refl) as (s' & E & Hok). rewrite length_app in E. cbn [length] in E. rewrite E. by exists s'.
Qed.

Lemma parse_string_ok q rest : suffix (q :: rest) cps -> q = 34 ->
  answers (parse_string s (pos (q :: rest))) (read_chars len rest) (fun '(t, p) '(out, r) => str_ok t out /\ p = pos r /\ suffix r cps).
Proof using Hs.
  intros Hr ->. destruct (pos_cons _ _ Hr) as (Hr' & _ & _). pose proof (pos_ascii _ _ Hr ltac:(lia)) as Ep. destruct (rest_length _ Hr') as [Hl1 Hl2].
  unfold parse_string, measure_string, fill_string. rewrite <- Ep. pose proof (measure_ok len rest len 0 Hr' Hl1 Hl2) as Hm.
  destruct (read_chars len rest) as [[out r]|] eqn:E; [|destruct Hm as [e ->]; by exists e].
  destruct Hm as ([n p] & Em & En & Ep2 & Hr2 & Ht). cbn [fst snd Nat.add] in *. subst n p. rewrite Em. cbn [or_return_pure].
  destruct (fill_ok len rest len out r [] (alloc_u8 (length (utf8 out) + 1)) Hr' Hl1 E (starts_nil _)) as (buf & Ef & Hb & Hst);
    [rewrite alloc_length; simpl; lia|]. cbn [length app] in Ef, Hst. rewrite Ef. cbn [result_bind].
  destruct (built_ok "json._parse_string: internal buffer was not valid UTF-8" buf out _ Hst eq_refl ltac:(by rewrite Hb, alloc_length) Ht) as (t & Eb & Hok).
  exists (t, pos r). split; [|done]. revert Eb. destruct (write_u8 _ 0 buf); [|done]. cbn [result_bind]. destruct (filled _); [|done]. cbn [result_bind].
  destruct (from_cstr _ _); [|done]. cbn [result_bind]. destruct (unwrap _ _); [|done]. by intros [= ->].
Qed.

(** ** Values and trees

    [holds base st v j]: in the store [st] the value [v] is the tree [j], in
    containers from number [base] on. *)

Inductive holds (base : nat) (st : list (@Container F)) : JSONValue -> json -> Prop :=
| holds_null : holds base st JNull TNull
| holds_bool b : holds base st (JBool b) (TBool b)
| holds_int n z : denotes n z -> holds base st (JInt n) (TInt z)
| holds_float f : holds base st (JFloat f) (TFloat f)
| holds_string t out : str_ok t out -> holds base st (JString t) (TString out)
| holds_array loc items l : (base <= loc)%nat -> st !! loc = Some (CList items) -> Forall2 (holds base st) items l ->
    holds base st (JArray loc) (TArray l)
| holds_object loc entries l : (base <= loc)%nat -> st !! loc = Some (CDict entries) ->
    Forall2 (fun kv kj => str_ok kv.1 kj.1 /\ holds base st kv.2 kj.2) entries l -> NoDup (map fst l) ->
    holds base st (JObject loc) (TObject l).

(** ** Numbers and names *)

Lemma integer_part_ok start rest : suffix rest cps ->
  answers (integer_part data len start (pos rest)) (read_integer rest) (fun p '(_, r) => p = pos r /\ suffix r cps).
Proof using Hs.
  intros Hr. unfold integer_part. rewrite !(byte_is_ok _ rest) by (done || apply digit_test || by apply eqb_test). cbn [result_bind].
  unfold read_integer. destruct rest as [|c r]; [by eexists|]. change (is_ascii_digit c) with (digit_char c). unfold ASCII_ZERO.
  destruct (rest_length _ Hr) as [Hl _]. destruct (Z.eqb_spec c 48) as [->|Hc].
  - cbn [digit_char ascii_zero ascii_nine Z.leb Z.compare Pos.compare Pos.compare_cont andb negb].
    destruct (pos_cons _ _ Hr) as (Hr' & _ & _). rewrite <- (pos_ascii _ _ Hr) by lia. rewrite (byte_is_ok _ r digit_test Hr'). cbn [result_bind].
    destruct r as [|d r]; [by eexists|]. change (is_ascii_digit d) with (digit_char d). destruct (digit_char d); [by eexists|]. by eexists.
  - pose proof (skip_digits_ok (c :: r) len Hr Hl) as E. pose proof (span_suffix _ Hr) as Hsuf. unfold read_digit_run.
    cbn [span] in *. destruct (digit_char c); cbn [negb]; [|by eexists]. rewrite E. cbn [result_bind].
    destruct (span r) as [a b]. cbn [answers snd] in *. by eexists.
Qed.

Lemma fraction_part_ok start rest : suffix rest cps ->
  (let? saw := byte_is (fun c => c =? ASCII_DOT) data len (pos rest) in Ok saw) = @Ok abort bool (match rest with c :: _ => c =? 46 | [] => false end) /\
  answers (if (match rest with c :: _ => c =? 46 | [] => false end : bool) then some_digits data len start (pos rest + 1) else Ok (Ok (pos rest)))
    (read_fraction rest) (fun p '(fr, r) => p = pos r /\ suffix r cps /\ (match rest with c :: _ => c =? 46 | [] => false end) = negb (bool_decide (fr = []))).
Proof using Hs.
  intros Hr. rewrite (byte_is_ok _ rest) by (done || by apply eqb_test). split; [by destruct rest|]. unfold read_fraction.
  destruct rest as [|c r]; [by eexists|]. destruct (Z.eqb_spec c 46) as [->|Hc]; [|by eexists].
  destruct (pos_cons _ _ Hr) as (Hr' & _ & _). rewrite <- (pos_ascii _ _ Hr) by lia. pose proof (some_digits_ok start r Hr') as Hd.
  destruct (read_digit_run r) as [[fp r']|]; [|done]. destruct Hd as (p & -> & -> & Hs'). by eexists.
Qed.

Definition exponent_mark (rest : list Z) : bool := match rest with c :: _ => (c =? 101) || (c =? 69) | [] => false end.

Lemma mark_test : ascii_test (fun c => (c =? ASCII_LOWER_E) || (c =? ASCII_UPPER_E)).
Proof. intros b c Hl. by rewrite !(looks_eqb _ _ _ Hl). Qed.

Lemma sign_test : ascii_test (fun c => (c =? ASCII_PLUS) || (c =? ASCII_MINUS)).
Proof. intros b c Hl. by rewrite !(looks_eqb _ _ _ Hl). Qed.

Lemma exponent_part_ok start rest : suffix rest cps ->
  answers (if exponent_mark rest then
      let? sign := byte_is (fun c => (c =? ASCII_PLUS) || (c =? ASCII_MINUS)) data len (pos rest + 1) in
      some_digits data len start (if sign : bool then (pos rest + 2)%nat else (pos rest + 1)%nat)
    else Ok (Ok (pos rest)))
    (read_exponent_part rest) (fun p '(ex, r) => p = pos r /\ suffix r cps /\ exponent_mark rest = negb (bool_decide (ex = []))).
Proof using Hs.
  intros Hr. unfold read_exponent_part, exponent_mark. destruct rest as [|c r]; [by eexists|].
  destruct ((c =? 101) || (c =? 69)) eqn:Hm; [|by eexists].
  assert (Hc : c < 128) by (rewrite orb_true_iff, !Z.eqb_eq in Hm; lia).
  destruct (pos_cons _ _ Hr) as (Hr' & _ & _). pose proof (pos_ascii _ _ Hr Hc) as Ep.
  replace (pos (c :: r) + 2)%nat with (pos (c :: r) + 1 + 1)%nat by lia. rewrite <- Ep, (byte_is_ok _ r sign_test Hr'). cbn [result_bind].
  assert (Hgo : forall sg r', suffix r' cps -> (if match r with d :: _ => (d =? ASCII_PLUS) || (d =? ASCII_MINUS) | [] => false end then (pos r + 1)%nat else pos r) = pos r' ->
    answers (some_digits data len start (if match r with d :: _ => (d =? ASCII_PLUS) || (d =? ASCII_MINUS) | [] => false end then (pos r + 1)%nat else pos r))
      (option_map (fun '(ds, r) => (c :: sg ++ ds, r)) (read_digit_run r')) (fun p '(ex, r) => p = pos r /\ suffix r cps /\ true = negb (bool_decide (ex = [])))).
  { intros sg r' Hr2 ->. eapply answers_map; [by apply some_digits_ok|]. by intros p [ds r2] [-> Hr3]. }
  destruct r as [|d r]; [by apply Hgo|]. unfold ASCII_PLUS, ASCII_MINUS in *. destruct ((d =? 43) || (d =? 45)) eqn:Hsg; [|by apply Hgo].
  destruct (pos_cons _ _ Hr') as (Hr2 & _ & _). apply Hgo; [done|]. symmetry. apply pos_ascii; [done|]. rewrite orb_true_iff, !Z.eqb_eq in Hsg. lia.
Qed.

Lemma number_nonzero sg s0 ip fr fp ex x : minus_text sg s0 -> all_digits ip -> fraction_text fr fp -> exponent_text ex x ->
  Forall (fun c => 0 < c < 128) (sg ++ ip ++ fr ++ ex).
Proof.
  intros Hsg Hip Hfr Hex. assert (Hd : forall l, all_digits l -> Forall (fun c => 0 < c < 128) l).
  { intros l Hl. eapply Forall_impl; [exact Hl|]. unfold ascii_zero, ascii_nine. cbv beta. lia. }
  repeat apply Forall_app_2; [destruct Hsg; repeat constructor; lia|by apply Hd| |].
  - destruct Hfr; [constructor|]. constructor; [lia|by apply Hd].
  - destruct Hex as [|mark sg' ? ? Hm Hsg']; [constructor|]. constructor; [lia|]. apply Forall_app_2; [destruct Hsg'; repeat constructor; lia|by apply Hd].
Qed.

Lemma literal_bytes t p : str_ok p t -> Forall (fun c => 0 < c < 128) t -> c_string (map Some (s_data p)) = Ok t.
Proof.
  intros Hp Ht. assert (Ha : ascii t) by (eapply Forall_impl; [exact Ht|]; cbv beta; lia). rewrite (str_data _ _ Hp), utf8_ascii by done.
  apply (c_string_ok _ t); [exists []; by rewrite app_nil_r|]. eapply Forall_impl; [exact Ht|]. cbv beta. lia.
Qed.

Lemma number_decimal sg s0 ip : minus_text sg s0 -> plain_integer ip -> decimal (sg ++ ip) = Some (s0 * num ip).
Proof.
  intros Hsg (Hd & Hne & _). assert (Hn : numeral ip = Some (num ip)).
  { unfold numeral, num. destruct ip; [done|]. by rewrite (proj2 (forallb_digit _) Hd). }
  destruct Hsg; cbn [app decimal].
  - destruct ip as [|c ip]; [done|]. apply Forall_cons in Hd as [Hc _]. unfold ascii_zero, ascii_nine in Hc.
    unfold decimal, ascii_minus. rewrite (proj2 (Z.eqb_neq c 45)) by lia. rewrite Hn. f_equal; lia.
  - unfold ascii_minus. cbn [Z.eqb Pos.eqb]. rewrite Hn. cbn [option_map]. f_equal; lia.
Qed.

Lemma parse_number_ok base st rest : suffix rest cps ->
  answers (parse_number s (pos rest)) (read_number rest) (fun '(v, p) '(j, r) => holds base st v j /\ p = pos r /\ suffix r cps).
Proof using Hs.
  intros Hr. unfold parse_number. rewrite (byte_is_ok _ rest) by (done || by apply eqb_test). cbn [result_bind]. unfold read_number, ASCII_MINUS.
  set (x := match rest with c :: r => if c =? 45 then ([45], -1, r) else ([], 1, rest) | [] => ([], 1, rest) end).
  assert (Hx : minus_text x.1.1 x.1.2 /\ rest = x.1.1 ++ x.2 /\ suffix x.2 cps /\
    (if match rest with c :: _ => c =? 45 | [] => false end then (pos rest + 1)%nat else pos rest) = pos x.2).
  { unfold x. destruct rest as [|c r]; [by split_and!; [constructor|..]|]. destruct (Z.eqb_spec c 45) as [->|]; [|by split_and!; [constructor|..]].
    destruct (pos_cons _ _ Hr) as (Hr' & _ & _). split_and!; [constructor|done|done|]. symmetry. by apply pos_ascii. }
  destruct x as [[sg s0] r0]. destruct Hx as (Hsg & Erest & Hr0 & ->). cbn [fst snd] in *.
  pose proof (integer_part_ok (pos rest) r0 Hr0) as H1. destruct (read_integer r0) as [[ip r1]|] eqn:E1; [|destruct H1 as [e ->]; by exists e].
  destruct H1 as (p & -> & -> & Hr1). cbn [or_return_pure]. apply read_integer_sound in E1 as (-> & Hip & _).
  destruct (fraction_part_ok (pos rest) r1 Hr1) as [Hdot H2]. destruct (byte_is _ data len (pos r1)) as [saw|]; [|done]. injection Hdot as ->. cbn [result_bind].
  destruct (read_fraction r1) as [[fr r2]|] eqn:E2; [|destruct H2 as [e ->]; by exists e].
  destruct H2 as (p & -> & -> & Hr2 & ->). cbn [or_return_pure]. apply read_fraction_sound in E2 as (fp & -> & Hfr).
  rewrite (byte_is_ok _ r2 mark_test Hr2). change (match r2 with c :: _ => _ | [] => false end) with (exponent_mark r2). cbn [result_bind].
  pose proof (exponent_part_ok (pos rest) r2 Hr2) as H3. unfold ASCII_MINUS in H3. destruct (read_exponent_part r2) as [[ex r3]|] eqn:E3; [|destruct H3 as [e ->]; by exists e].
  destruct H3 as (p & -> & -> & Hr3 & ->). cbn [or_return_pure]. apply read_exponent_sound in E3 as (y & -> & Hex).
  assert (Et : rest = (sg ++ ip ++ fr ++ ex) ++ r3) by (by rewrite Erest, <- !app_assoc).
  rewrite Et in Hr |- *. destruct (slice_ok (sg ++ ip ++ fr ++ ex) r3 Hr) as (lit & -> & Hlit). cbn [result_bind].
  assert (Hor : negb (bool_decide (fr = [])) || negb (bool_decide (ex = [])) = match fr ++ ex with [] => false | _ => true end).
  { destruct fr; [|done]. by destruct ex. }
  pose proof (number_nonzero sg s0 ip fr fp ex y Hsg (proj1 Hip) Hfr Hex) as Hnz.
  rewrite Hor. destruct (fr ++ ex) as [|c e] eqn:Efe.
  - apply app_eq_nil in Efe as [-> ->]. rewrite app_nil_r in Hlit. pose proof (from_str_ok lit _ Hlit) as Hi.
    rewrite (number_decimal _ _ _ Hsg Hip) in Hi. destruct Hi as (n & -> & Hn). cbn [result_bind answers]. eexists. split; [done|].
    split_and!; [by constructor|done|done].
  - rewrite (literal_bytes _ _ Hlit) by done. cbn [result_bind answers]. eexists. split; [done|].
    split_and!; [by constructor|done|done].
Qed.
(** *** Names *)

Lemma cut_at_true q r : text (q ++ r) -> cut_at (length (utf8 q)) (q ++ r) = true.
Proof.
  induction q as [|c q IH]; intros Ht; [by destruct r|]. cbn [app] in *. apply Forall_cons in Ht as [Hc Ht].
  pose proof (sequence_length _ _ (char_sequence _ Hc)). rewrite utf8_cons, length_app.
  destruct (length (utf8_char c)) as [|w] eqn:Ew; [lia|]. cbn [Nat.add cut_at]. rewrite Ew, (proj2 (Nat.leb_le _ _)) by lia.
  replace (S (w + length (utf8 q)) - S w)%nat with (length (utf8 q)) by lia. by apply IH.
Qed.

Lemma cut_at_spec n : forall l, text l -> cut_at n l = true -> exists q r, l = q ++ r /\ length (utf8 q) = n.
Proof.
  induction n as [n IH] using lt_wf_ind. intros l Ht Hc. destruct n as [|n]; [by exists [], l|]. destruct l as [|c l]; [done|].
  cbn [cut_at] in Hc. apply Forall_cons in Ht as [Hsc Ht]. pose proof (sequence_length _ _ (char_sequence _ Hsc)).
  destruct (Nat.leb_spec (length (utf8_char c)) (S n)); [|done]. apply IH in Hc as (q & r & -> & E); [|lia|done].
  exists (c :: q), r. split; [done|]. rewrite utf8_cons, length_app. lia.
Qed.

Lemma text_rest rest : suffix rest cps -> text rest.
Proof using Hs. intros [p E]. pose proof (str_text _ _ Hs) as Ht. rewrite E in Ht. by apply Forall_app in Ht as [_ Ht]. Qed.

Definition cut_panic : abort := Panic "invalid UTF-8 in _byte_slice".

(** The bytes of a name's length: a text if they end at a character. *)
Lemma cut_slice_ok rest n : suffix rest cps -> (n <= length (utf8 rest))%nat ->
  let piece := str_slice s (mkSlice (Z.of_nat (pos rest)) (Some (Z.of_nat (pos rest + n)))) in
  if cut_at n rest then exists q r p, rest = q ++ r /\ length (utf8 q) = n /\ piece = Ok p /\ str_ok p q else piece = Err cut_panic.
Proof using Hs.
  intros Hr Hn piece. pose proof (text_rest _ Hr) as Ht. destruct (cut_at n rest) eqn:Hc.
  - apply cut_at_spec in Hc as (q & r & -> & <-); [|done]. destruct (slice_ok q r Hr) as (p & E & Hp). exists q, r, p.
    split_and!; [done|done| |done]. unfold piece. by rewrite <- (proj2 (pos_app q r Hr)).
  - destruct (rest_length _ Hr) as [Hle _]. destruct Hr as [p E]. pose proof len_text as El.
    assert (Hpos : pos rest = length (utf8 p)) by (unfold pos; rewrite El, E, utf8_app, length_app; lia).
    assert (Hl : (length (utf8 p) + n <= len)%nat) by (rewrite El, E, utf8_app, length_app; lia).
    unfold piece, str_slice, resolve_slice_bounds, clamp_slice_bound. cbn [slice_start slice_stop]. rewrite Hpos.
    rewrite !(proj2 (Z.ltb_ge (Z.of_nat _) 0)), !(proj2 (Z.ltb_ge (Z.of_nat len) _)) by lia.
    rewrite (proj2 (Z.ltb_ge (Z.of_nat (length (utf8 p) + n)) _)) by lia. rewrite !Nat2Z.id.
    destruct (byte_slice_cases s cps (length (utf8 p)) (length (utf8 p) + n) Hs) as [(q & s' & Hq & Esub & _)|[_ ->]]; [lia| |done].
    exfalso. rewrite E, utf8_app, drop_app_length, Nat.add_comm, Nat.add_sub in Esub.
    destruct (utf8_prefix rest q (drop n (utf8 rest)) Ht Hq) as (r & -> & _); [by rewrite <- Esub, take_drop|].
    apply (f_equal length) in Esub. rewrite length_take in Esub. replace n with (length (utf8 q)) in Hc by lia. by rewrite cut_at_true in Hc.
Qed.

(** What a function of the parser answers to what the reader says. *)
Definition agrees {A B} (m : result abort (result JSONError A)) (o : outcome B) (Q : A -> B -> Prop) : Prop :=
  match o with
  | Got b => exists a, m = Ok (Ok a) /\ Q a b
  | Bad => exists e, m = Ok (Err e)
  | Crash => m = Err cut_panic
  end.

Lemma answers_agrees {A B} m (o : option B) (Q : A -> B -> Prop) : answers m o Q -> agrees m (to_outcome o) Q.
Proof. by destruct o. Qed.

Lemma parse_literal_ok base st rest name v j : suffix rest cps -> ascii (ascii_codes name) -> (length (ascii_codes name) < 256)%nat -> holds base st v j ->
  agrees (parse_literal crt_memcmp s (pos rest) (constant name) v) (read_literal (literal_text name) j rest)
    (fun '(v, p) '(j, r) => holds base st v j /\ p = pos r /\ suffix r cps).
Proof using Hs memcmp_law.
  intros Hr Ha Hl Hv. unfold parse_literal, read_literal, literal_text. pose proof (constant_ok name Ha Hl) as Hk. set (l := ascii_codes name) in *.
  rewrite (byte_len_ok _ _ Hk), utf8_ascii by done. destruct (rest_length _ Hr) as [Hle _].
  assert (Ep : (length (utf8 rest) + pos rest = len)%nat) by (unfold pos; lia).
  destruct (Nat.ltb_spec len (pos rest + length l)), (Nat.ltb_spec (length (utf8 rest)) (length l)); [by eexists|lia|lia|].
  pose proof (cut_slice_ok rest (length l) Hr ltac:(done)) as Hc. cbv zeta in Hc. destruct (cut_at (length l) rest) eqn:Ec.
  - destruct Hc as (q & r & p & -> & Elen & -> & Hp). cbn [result_bind]. rewrite (str_ne_ok _ memcmp_law _ _ _ _ Hp Hk). cbn [result_bind].
    case_bool_decide as Hql.
    + subst q. cbn [negb]. rewrite take_app_length, drop_app_length, bool_decide_eq_true_2 by done. eexists. split; [done|].
      destruct (pos_app _ _ Hr) as [Hr' Epos]. rewrite Epos. by rewrite Elen.
    + cbn [negb]. rewrite bool_decide_eq_false_2; [by eexists|]. intros Et. apply Hql. 
      assert (Hd : q ++ r = l ++ drop (length l) (q ++ r)) by (by rewrite <- Et at 1; rewrite take_drop).
      apply (f_equal utf8) in Hd. rewrite !utf8_app, (utf8_ascii l Ha) in Hd. apply app_inj_1 in Hd as [Hd _]; [|done].
      rewrite <- (utf8_ascii l Ha) in Hd. apply utf8_inj in Hd; [done| |by apply text_ascii].
      pose proof (text_rest _ Hr) as Ht. by apply Forall_app in Ht as [Ht _].
  - rewrite Hc. cbn [result_bind]. rewrite bool_decide_eq_false_2; [done|]. intros Et.
    rewrite <- (take_drop (length l) rest), Et in Ec. rewrite <- (utf8_ascii l Ha) in Ec at 1. rewrite cut_at_true in Ec; [done|].
    rewrite <- Et at 1. rewrite take_drop. by apply text_rest.
Qed.
End text.
