(* ===== verification/JsonParse.v ===== *)
(** * JSON: [loads] reads exactly the JSON texts

    The parser threads a store: every array and object is a new container of its
    own, filled while its text is read.  By the lemmas of [JsonText] the parser
    follows the reader of [JsonSpec] character by character. *)

From S2P Require Import Prelude RawList Bits Buffers Utf8 StrOps StrIndex IntDigits IntText FloatText Json JsonSpec JsonText.

Local Open Scope Z_scope.
Local Open Scope monad_scope.

#[local] Existing Instance paired_only.

(** A relation to the elements of which something is known. *)
Lemma Forall2_known {A B} (P : B -> Prop) (R Q : A -> B -> Prop) k l : Forall P l -> Forall2 R k l -> (forall x y, P y -> R x y -> Q x y) -> Forall2 Q k l.
Proof. intros Hl Hr HQ. induction Hr; constructor; apply Forall_cons in Hl as [? ?]; auto. Qed.

Section trees.
Context {F : Type}.

Lemma json_nested_ind (P : @json F -> Prop) : P TNull -> (forall b, P (TBool b)) -> (forall z, P (TInt z)) -> (forall f, P (TFloat f)) ->
  (forall out, P (TString out)) -> (forall l, Forall P l -> P (TArray l)) -> (forall l, Forall (fun kj => P kj.2) l -> P (TObject l)) -> forall j, P j.
Proof.
  intros H1 H2 H3 H4 H5 H6 H7. fix IH 1. intros [| | | | |l|l]; [done|done|done|done|done| |].
  - apply H6. induction l as [|j l IHl]; constructor; [apply IH|exact IHl].
  - apply H7. induction l as [|[k j] l IHl]; constructor; [apply IH|exact IHl].
Qed.

Lemma tree_set_keys k j (l : list (list Z * @json F)) x : In x (map fst (tree_set k j l)) <-> x = k \/ In x (map fst l).
Proof.
  induction l as [|[k' j'] l IH]; cbn [tree_set map fst In]; [by firstorder|]. case_bool_decide as Hk; cbn [map fst In].
  - subst. firstorder.
  - rewrite IH. firstorder.
Qed.

Lemma tree_set_nodup k j (l : list (list Z * @json F)) : NoDup (map fst l) -> NoDup (map fst (tree_set k j l)).
Proof.
  induction l as [|[k' j'] l IH]; cbn [tree_set map fst]; intros Hn; [repeat constructor; by intros ?%elem_of_nil|].
  apply NoDup_cons in Hn as [Hk Hn]. case_bool_decide as He; cbn [map fst]; constructor; try done; [|by apply IH].
  rewrite list_elem_of_In, tree_set_keys, <- list_elem_of_In. intros [->|?]; done.
Qed.
End trees.

Section store.
Context {F : Type} `{Float F}.

Abbreviation St := (list (@Container F)).

(** The containers of [st] from number [base] on are those of [st']. *)
Definition kept (base : nat) (st st' : St) : Prop := forall i c, (base <= i)%nat -> st !! i = Some c -> st' !! i = Some c.

Lemma holds_kept base base' st st' j : (base' <= base)%nat -> kept base st st' -> forall v, holds base st v j -> holds base' st' v j.
Proof.
  intros Hb Hk. induction j as [| | | | |l IH|l IH] using json_nested_ind; intros v Hv; inversion Hv; subst; try (by constructor).
  - eapply holds_array; [lia|by apply Hk|]. eapply Forall2_known; [exact IH|done|]. auto.
  - eapply holds_object; [lia|by apply Hk| |done]. eapply Forall2_known; [exact IH|done|].
    intros x y Hy [Hx Hxy]. auto.
Qed.

Lemma holds_grown base base' (st st' : St) v j : (base' <= base)%nat -> st `prefix_of` st' -> holds base st v j -> holds base' st' v j.
Proof. intros Hb Hp. apply holds_kept; [done|]. intros i c _ Hi. by eapply prefix_lookup_Some. Qed.

Lemma prefix_below (st st' : St) : (forall i, (i < length st)%nat -> st' !! i = st !! i) -> st `prefix_of` st'.
Proof.
  intros Hb. exists (drop (length st) st'). rewrite <- (take_drop (length st) st') at 1. f_equal. apply list_eq. intros i.
  destruct (decide (i < length st)%nat) as [Hi|Hi]; [by rewrite lookup_take_lt, Hb by done|].
  rewrite (lookup_ge_None_2 st) by lia. apply lookup_ge_None_2. rewrite length_take. lia.
Qed.

(** ** Entries *)

Definition entry_holds (base : nat) (st : St) (kv : Str * JSONValue) (kj : list Z * json) : Prop := str_ok kv.1 kj.1 /\ holds base st kv.2 kj.2.

Lemma same_key_ok a b x y : str_ok a x -> str_ok b y -> same_key a b = bool_decide (x = y).
Proof.
  intros Ha Hb. unfold same_key. apply bool_decide_ext. rewrite (str_data _ _ Ha), (str_data _ _ Hb). split; [|by intros ->].
  intros E%app_inj_2; [|done]. destruct E as [E _]. apply utf8_inj in E; [done|apply Ha|apply Hb].
Qed.

Lemma entry_set_ok base (st : St) key k v j entries l : str_ok key k -> holds base st v j -> Forall2 (entry_holds base st) entries l ->
  Forall2 (entry_holds base st) (entry_set key v entries) (tree_set k j l).
Proof.
  intros Hk Hv Hl. induction Hl as [|[key' v'] [k' j'] entries l [Hk' Hv'] Hl IH]; cbn [entry_set tree_set]; [by constructor; [split|constructor]|].
  cbn [fst snd] in *. rewrite (same_key_ok _ _ _ _ Hk' Hk). case_bool_decide; by constructor; [split|].
Qed.
End store.

(** What is computed without the store. *)
Section lifted.
Context {S A B : Type}.

Lemma bind_lift {E} (a : A) (k : A -> M S E B) st : bind (lift (Ok a)) k st = k a st.
Proof. done. Qed.

Lemma return_lift {X} (a : A) (k : A -> M S abort (result X B)) st : or_return (lift (Ok (Ok a))) k st = k a st.
Proof. done. Qed.

Lemma return_lift_err {X} (e : X) (k : A -> M S abort (result X B)) st : or_return (lift (Ok (Err e))) k st = (Ok (Err e), st).
Proof. done. Qed.

Lemma return_ok {X} (m : M S abort (result X A)) (a : A) (k : A -> M S abort (result X B)) st st' : m st = (Ok (Ok a), st') -> or_return m k st = k a st'.
Proof. unfold or_return, bind. by intros ->. Qed.

Lemma return_err {X} (m : M S abort (result X A)) (e : X) (k : A -> M S abort (result X B)) st st' : m st = (Ok (Err e), st') -> or_return m k st = (Ok (Err e), st').
Proof. unfold or_return, bind. by intros ->. Qed.
End lifted.

(** ** Containers *)

Section containers.
Context {F : Type} `{Float F} (crt_memcmp : list Z -> list Z -> Z).
Context (memcmp_law : forall a b, length a = length b -> Z.sgn (crt_memcmp a b) = lex a b).
Context (s : Str) (cps : list Z) (Hs : str_ok s cps).

Abbreviation St := (list (@Container F)).
Abbreviation data := (s_data s).
Abbreviation len := (byte_len s).
Abbreviation pos := (pos s).

(** What parsing from a store answers to what the reader says. *)
Definition parses {A B} (r : result abort (result JSONError A) * St) (o : outcome B) (Q : St -> A -> B -> Prop) : Prop :=
  match o with
  | Got b => exists a st', r = (Ok (Ok a), st') /\ Q st' a b
  | Bad => exists e, r.1 = Ok (Err e)
  | Crash => r.1 = Err cut_panic
  end.

(** A value parsed from the store [st]: in containers of its own. *)
Definition fresh_value (st st' : St) '((v, p) : @JSONValue F * nat) '((j, r) : @json F * list Z) : Prop :=
  st `prefix_of` st' /\ holds (length st) st' v j /\ p = pos r /\ suffix r cps.

(** At the next character that is not white space. *)
Lemma next_char rest : suffix rest cps -> skip_ws s (pos rest) = Ok (pos (skip rest)) /\
  match skip rest with
  | [] => (len <=? pos [])%nat = true
  | c :: r => (len <=? pos (c :: r))%nat = false /\ (exists b, read_ptr data (pos (c :: r)) = Ok b /\ looks b c) /\ suffix (c :: r) cps /\ suffix r cps
  end.
Proof using Hs.
  intros Hr. destruct (skip_ws_ok s cps Hs rest Hr) as [-> Hk]. split; [done|]. destruct (skip rest) as [|c r].
  - rewrite pos_nil. apply Nat.leb_refl.
  - destruct (pos_cons s cps Hs c r Hk) as (Hr' & _ & Hlt). split_and!; [by apply Nat.leb_gt|by eapply first_byte|done|done].
Qed.

Lemma shorter a c r : suffix (a ++ c :: r) cps -> (length (utf8 r) < length (utf8 (a ++ c :: r)))%nat.
Proof using Hs.
  intros Hr. assert (Hr' : suffix (c :: r) cps) by (etrans; [|exact Hr]; by exists a). rewrite utf8_app, length_app.
  destruct (utf8_rest_length s cps Hs _ _ Hr'). lia.
Qed.

Section level.
Context (pv : nat -> M St abort (result JSONError (@JSONValue F * nat))) (rv : list Z -> outcome (@json F * list Z)) (bound : nat).
Context (pv_ok : forall rest st, suffix rest cps -> (length (utf8 rest) < bound)%nat -> parses (pv (pos rest) st) (rv rest) (fresh_value st)).
Context (rv_sound : forall l j r, rv l = Got (j, r) -> exists w t, l = w ++ t ++ r /\ ws w /\ value_text t j).

Definition array_filled (loc : nat) (l : list (@json F)) (st st' : St) '((v, p) : @JSONValue F * nat) '((js, r) : list (@json F) * list Z) : Prop :=
  v = JArray loc /\ (forall i, (i < loc)%nat -> st' !! i = st !! i) /\
  (exists items, st' !! loc = Some (CList items) /\ Forall2 (holds (S loc) st') items (l ++ js)) /\ p = pos r /\ suffix r cps.

Lemma append_ok loc items l (st st1 : St) v j : st !! loc = Some (CList items) -> Forall2 (holds (S loc) st) items l -> st `prefix_of` st1 -> holds (length st) st1 v j ->
  exists st2, array_append (JArray loc) v st1 = (Ok (Ok tt), st2) /\ (forall i, (i < loc)%nat -> st2 !! i = st !! i) /\
  st2 !! loc = Some (CList (items ++ [v])) /\ Forall2 (holds (S loc) st2) (items ++ [v]) (l ++ [j]).
Proof.
  intros Hloc Hitems Hp Hv. pose proof (lookup_lt_Some _ _ _ Hloc) as Hlt. pose proof (prefix_lookup_Some _ _ _ _ Hloc Hp) as Hloc1.
  pose proof (lookup_lt_Some _ _ _ Hloc1) as Hlt1. exists (<[loc := CList (items ++ [v])]> st1).
  assert (Hk : kept (S loc) st1 (<[loc := CList (items ++ [v])]> st1)) by (intros i c Hi Hc; by rewrite list_lookup_insert_ne by lia).
  split_and!.
  - unfold array_append, or_return, bind, ret, as_array, get_list, set_container, modify. by rewrite Hloc1.
  - intros i Hi. rewrite list_lookup_insert_ne by lia. destruct (lookup_lt_is_Some_2 st i) as [c Hc]; [lia|]. rewrite Hc. by eapply prefix_lookup_Some.
  - by apply list_lookup_insert_eq.
  - apply Forall2_app; [|constructor; [|constructor]].
    + eapply Forall2_impl; [exact Hitems|]. intros x y Hxy. apply (holds_kept (S loc) _ st1); [lia|done|]. by apply (holds_grown (S loc) _ st).
    + apply (holds_kept (S loc) _ st1); [lia|done|]. by apply (holds_grown (length st) _ st1); [lia|..].
Qed.

Lemma rest_after rest j l1 c r : rv rest = Got (j, l1) -> skip l1 = c :: r -> suffix rest cps -> (length (utf8 r) < length (utf8 rest))%nat.
Proof using Hs rv_sound.
  intros (w & t & -> & _)%rv_sound Es Hr. destruct (skip_spec l1) as (w2 & E & _). rewrite Es in E.
  replace (w ++ t ++ l1) with ((w ++ t ++ w2) ++ c :: r) in * by (rewrite E, <- !app_assoc; done). by apply shorter.
Qed.

Lemma array_items_ok fuel : forall rest st loc items l, suffix rest cps -> (length (utf8 rest) < bound)%nat -> (length (utf8 rest) <= fuel)%nat ->
  st !! loc = Some (CList items) -> Forall2 (holds (S loc) st) items l ->
  parses (array_items pv s fuel (JArray loc) (pos rest) st) (read_items rv fuel rest) (array_filled loc l st).
Proof using Hs pv_ok rv_sound.
  induction fuel as [|fuel IH]; intros rest st loc items l Hr Hb Hf Hloc Hitems.
  { destruct rest as [|c r]; [|destruct (utf8_rest_length s cps Hs _ _ Hr); lia]. cbn [array_items]. rewrite pos_nil, Nat.ltb_irrefl. by eexists. }
  destruct rest as [|c r]; [cbn [array_items]; rewrite pos_nil, Nat.ltb_irrefl; by eexists|].
  destruct (pos_cons s cps Hs _ _ Hr) as (_ & _ & Hlt). cbn [array_items read_items]. rewrite (proj2 (Nat.ltb_lt _ _) Hlt).
  pose proof (pv_ok _ st Hr Hb) as Hpv. unfold or_return, bind at 1. destruct (rv (c :: r)) as [[j l1]| |] eqn:Ev; cbn [obind parses] in *.
  2:{ destruct Hpv as [e He]. destruct (pv _ st) as [? st1]. cbn [fst] in He. subst. by exists e. }
  2:{ by destruct (pv _ st) as [? st1]; cbn [fst] in Hpv; subst. }
  destruct Hpv as ([v p] & st1 & -> & Hp & Hv & -> & Hl1). cbn [unwrapped].
  destruct (append_ok loc items l st st1 v j Hloc Hitems Hp Hv) as (st2 & Ea & Hlow & Hloc2 & Hitems2).
  unfold unwrapped, bind at 1 2. rewrite Ea. cbn [lift Bits.unwrap]. destruct (next_char l1 Hl1) as [Esk Hn]. unfold bind at 1, lift. rewrite Esk.
  destruct (skip l1) as [|d r1] eqn:Es; [rewrite Hn; by eexists|]. destruct Hn as (-> & (b & Eb & Hlook) & Hr1 & Hr2). unfold bind at 1. rewrite Eb.
  unfold ASCII_RBRACKET, ASCII_COMMA. rewrite !(looks_eqb _ _ _ Hlook) by done. destruct (Z.eqb_spec d 93) as [->|].
  { cbn [parses]. eexists _, st2. split; [done|]. rewrite <- (pos_ascii s cps Hs _ _ Hr1) by lia. split_and!; try done. by eexists. }
  destruct (Z.eqb_spec d 44) as [->|]; cbn [negb]; [|by eexists]. rewrite <- (pos_ascii s cps Hs _ _ Hr1) by lia.
  pose proof (rest_after _ _ _ _ _ Ev Es Hr) as Hlen. specialize (IH r1 st2 loc _ _ Hr2 ltac:(lia) ltac:(lia) Hloc2 Hitems2).
  destruct (read_items rv fuel r1) as [[js r2]| |]; [|done..]. cbn [obind parses] in *. destruct IH as ([v' p'] & st3 & E3 & -> & Hlow3 & Hits & -> & Hr3).
  eexists _, st3. split; [exact E3|]. rewrite <- app_assoc in Hits. split_and!; [done|intros i Hi; by rewrite Hlow3, Hlow|done|done|done].
Qed.

(** A new container, filled, is a value of its own. *)
Lemma parse_array_ok c0 rest st : suffix (c0 :: rest) cps -> c0 = 91 -> (length (utf8 rest) < bound)%nat ->
  parses (parse_array pv s (pos (c0 :: rest)) st) (read_array len rv rest) (fresh_value st).
Proof using Hs pv_ok rv_sound.
  intros Hr0 -> Hb. destruct (pos_cons s cps Hs _ _ Hr0) as (Hr & _ & _). unfold parse_array, read_array, json_array, new_container.
  rewrite <- (pos_ascii s cps Hs _ _ Hr0) by lia. unfold bind at 1 2, ret at 1. destruct (next_char rest Hr) as [Esk Hn].
  unfold bind at 1, lift. rewrite Esk. destruct (skip_spec rest) as (w & Ew & _). destruct (skip rest) as [|c r] eqn:Es; [rewrite Hn; by eexists|].
  destruct Hn as (-> & (b & Eb & Hlook) & Hr1 & Hr2). unfold bind at 1. rewrite Eb. unfold ASCII_RBRACKET. rewrite (looks_eqb _ _ _ Hlook) by done.
  assert (Hloc : (st ++ [CList []]) !! length st = Some (@CList F [])) by (by rewrite lookup_app_r, Nat.sub_diag).
  destruct (Z.eqb_spec c 93) as [->|].
  { cbn [parses]. eexists _, _. split; [done|]. rewrite <- (pos_ascii s cps Hs _ _ Hr1) by lia. split_and!; [by eexists|by eapply holds_array|done|done]. }
  assert (Hle : (length (utf8 (c :: r)) <= length (utf8 rest))%nat) by (rewrite Ew, utf8_app, length_app; lia).
  pose proof (array_items_ok len (c :: r) (st ++ [CList []]) (length st) [] [] Hr1 ltac:(lia) (proj1 (rest_length s cps Hs _ Hr1)) Hloc (List.Forall2_nil _)) as Ha.
  destruct (read_items rv len (c :: r)) as [[js r2]| |]; [|done..]. cbn [obind parses] in *.
  destruct Ha as ([v p] & st' & -> & -> & Hlow & (items & Hi & Hits) & -> & Hr3). eexists _, st'. split; [done|]. split_and!; [|eapply holds_array; [done|done|]|done|done].
  - apply prefix_below. intros i Hi'. rewrite Hlow by done. by rewrite lookup_app_l.
  - eapply Forall2_impl; [exact Hits|]. intros x y. by apply holds_kept; [lia|intros ? ?].
Qed.

Definition object_filled (loc : nat) (l : list (list Z * json)) (st st' : St) '((v, p) : @JSONValue F * nat) '((kjs, r) : list (list Z * @json F) * list Z) : Prop :=
  v = JObject loc /\ (forall i, (i < loc)%nat -> st' !! i = st !! i) /\
  (exists entries, st' !! loc = Some (CDict entries) /\
    Forall2 (entry_holds (S loc) st') entries (foldl (fun acc '(k, j) => tree_set k j acc) l kjs)) /\ p = pos r /\ suffix r cps.

Lemma set_ok loc entries l (st st1 : St) key k v j : st !! loc = Some (CDict entries) -> Forall2 (entry_holds (S loc) st) entries l -> st `prefix_of` st1 ->
  str_ok key k -> holds (length st) st1 v j ->
  exists st2, object_set (JObject loc) key v st1 = (Ok (Ok tt), st2) /\ (forall i, (i < loc)%nat -> st2 !! i = st !! i) /\
  st2 !! loc = Some (CDict (entry_set key v entries)) /\ Forall2 (entry_holds (S loc) st2) (entry_set key v entries) (tree_set k j l).
Proof.
  intros Hloc Hentries Hp Hk Hv. pose proof (lookup_lt_Some _ _ _ Hloc) as Hlt. pose proof (prefix_lookup_Some _ _ _ _ Hloc Hp) as Hloc1.
  pose proof (lookup_lt_Some _ _ _ Hloc1) as Hlt1. exists (<[loc := CDict (entry_set key v entries)]> st1).
  assert (Hkept : kept (S loc) st1 (<[loc := CDict (entry_set key v entries)]> st1)) by (intros i c Hi Hc; by rewrite list_lookup_insert_ne by lia).
  split_and!.
  - unfold object_set, or_return, bind, ret, as_object, get_dict, set_container, modify. by rewrite Hloc1.
  - intros i Hi. rewrite list_lookup_insert_ne by lia. destruct (lookup_lt_is_Some_2 st i) as [c Hc]; [lia|]. rewrite Hc. by eapply prefix_lookup_Some.
  - by apply list_lookup_insert_eq.
  - apply entry_set_ok; [done| |].
    + apply (holds_kept (S loc) _ st1); [lia|done|]. by apply (holds_grown (length st) _ st1); [lia|..].
    + eapply Forall2_impl; [exact Hentries|]. intros x y [Hx Hy]. split; [done|].
      apply (holds_kept (S loc) _ st1); [lia|done|]. by apply (holds_grown (S loc) _ st).
Qed.

(** A key and its colon, in front of anything else. *)
Lemma key_ok {A} (k : Str -> nat -> M St abort (result JSONError A)) rest st : suffix rest cps ->
  let m := (let* p := lift (skip_ws s (pos rest)) in
    if (len <=? p)%nat then ret (Err (UnexpectedEnd p))
    else
      let* c := lift (read_ptr data p) in
      if negb (c =? ASCII_QUOTE) then ret (Err (UnexpectedChar p))
      else
        let! (key, p) := lift (parse_string s p) in
        let* p := lift (skip_ws s p) in
        let* colon := lift (byte_is (fun c => c =? ASCII_COLON) data len p) in
        if negb colon then ret (Err (UnexpectedChar p)) else k key (p + 1)%nat) in
  match read_key len rest with
  | Some (x, r) => exists key, str_ok key x /\ suffix r cps /\ (length (utf8 r) < length (utf8 rest))%nat /\ m st = k key (pos r) st
  | None => exists e, (m st).1 = Ok (Err e)
  end.
Proof using Hs.
  intros Hr m. unfold m, read_key. clear m. destruct (next_char rest Hr) as [-> Hn]. rewrite bind_lift.
  destruct (skip_spec rest) as (w & Ew & _). destruct (skip rest) as [|c r] eqn:Es; [rewrite Hn; by eexists|].
  destruct Hn as (-> & (b & -> & Hlook) & Hr1 & Hr2). rewrite bind_lift. unfold ASCII_QUOTE. rewrite (looks_eqb _ _ _ Hlook) by done.
  destruct (Z.eqb_spec c 34) as [->|]; cbn [negb]; [|by eexists].
  pose proof (parse_string_ok s cps Hs 34 r Hr1 eq_refl) as Hp. destruct (read_chars len r) as [[x r1]|] eqn:Ec; [|destruct Hp as [e ->]; by eexists].
  destruct Hp as ([key p] & -> & Hkey & -> & Hr3). rewrite return_lift. destruct (next_char r1 Hr3) as [-> Hn1]. rewrite bind_lift.
  pose proof (proj2 (skip_ws_ok s cps Hs r1 Hr3)) as Hsk.
  rewrite (byte_is_ok s cps Hs _ (skip r1)) by (done || by apply eqb_test). rewrite bind_lift. unfold ASCII_COLON.
  destruct (skip_spec r1) as (w1 & Ew1 & _). destruct (skip r1) as [|d r2] eqn:Es1; [by eexists|]. destruct (Z.eqb_spec d 58) as [->|]; cbn [negb]; [|by eexists].
  destruct Hn1 as (_ & _ & Hr4 & Hr5). exists key. split_and!; [done|done| |by rewrite <- (pos_ascii s cps Hs _ _ Hr4)].
  apply read_chars_sound in Ec as (t & -> & _).
  assert (Erest : rest = (w ++ 34 :: t ++ 34 :: w1) ++ 58 :: r2) by (rewrite Ew, Ew1; repeat (rewrite <- ?app_assoc; cbn [app]); done).
  rewrite Erest in Hr |- *. by apply shorter.
Qed.

(** A round of [object_entries] behind its key. *)
Definition entry_tail (again : nat -> M St abort (result JSONError (@JSONValue F * nat))) (obj : JSONValue) (key : Str) (p : nat) :
    M St abort (result JSONError (JSONValue * nat)) :=
  let! (value, p) := pv p in
  unwrapped "_parse_object: object_set on a freshly constructed JSONValue.object() cannot fail" (object_set obj key value) ;;;
  let* p := lift (skip_ws s p) in
  if (len <=? p)%nat then ret (Err (UnexpectedEnd p))
  else
    let* c := lift (read_ptr data p) in
    if c =? ASCII_RBRACE then ret (Ok (obj, (p + 1)%nat))
    else if negb (c =? ASCII_COMMA) then ret (Err (UnexpectedChar p))
    else again (p + 1)%nat.

Lemma object_entries_ok fuel : forall rest st loc entries l, suffix rest cps -> (length (utf8 rest) < bound)%nat -> (length (utf8 rest) <= fuel)%nat ->
  st !! loc = Some (CDict entries) -> Forall2 (entry_holds (S loc) st) entries l ->
  parses (object_entries pv s fuel (JObject loc) (pos rest) st) (read_entries len rv fuel rest) (object_filled loc l st).
Proof using Hs pv_ok rv_sound.
  induction fuel as [|fuel IH]; intros rest st loc entries l Hr Hb Hf Hloc Hentries.
  { destruct rest as [|c r]; [|destruct (utf8_rest_length s cps Hs _ _ Hr); lia]. cbn [object_entries]. rewrite pos_nil, Nat.ltb_irrefl. by eexists. }
  destruct rest as [|c r]; [cbn [object_entries]; rewrite pos_nil, Nat.ltb_irrefl; by eexists|].
  destruct (pos_cons s cps Hs _ _ Hr) as (_ & _ & Hlt). cbn [object_entries read_entries]. rewrite (proj2 (Nat.ltb_lt _ _) Hlt).
  pose proof (key_ok (entry_tail (object_entries pv s fuel (JObject loc)) (JObject loc)) (c :: r) st Hr) as Hkey. cbv zeta in Hkey.
  unfold entry_tail at 1 3 in Hkey. destruct (read_key len (c :: r)) as [[x r0]|]; [|exact Hkey].
  destruct Hkey as (key & Hkey & Hr0 & Hlen0 & ->). cbn [to_outcome obind]. unfold entry_tail.
  pose proof (pv_ok r0 st Hr0 ltac:(lia)) as Hpv. unfold or_return, bind at 1. destruct (rv r0) as [[j l1]| |] eqn:Ev; cbn [obind parses] in *.
  2:{ destruct Hpv as [e He]. destruct (pv _ st) as [? st1]. cbn [fst] in He. subst. by exists e. }
  2:{ by destruct (pv _ st) as [? st1]; cbn [fst] in Hpv; subst. }
  destruct Hpv as ([v p] & st1 & -> & Hp & Hv & -> & Hl1).
  destruct (set_ok loc entries l st st1 key x v j Hloc Hentries Hp Hkey Hv) as (st2 & Ea & Hlow & Hloc2 & Hentries2).
  unfold unwrapped, bind at 1 2. rewrite Ea. cbn [lift Bits.unwrap]. destruct (next_char l1 Hl1) as [-> Hn]. rewrite bind_lift.
  destruct (skip l1) as [|d r1] eqn:Es; [rewrite Hn; by eexists|]. destruct Hn as (-> & (b & -> & Hlook) & Hr1 & Hr2). rewrite bind_lift.
  unfold ASCII_RBRACE, ASCII_COMMA. rewrite !(looks_eqb _ _ _ Hlook) by done. destruct (Z.eqb_spec d 125) as [->|].
  { cbn [parses]. eexists _, st2. split; [done|]. rewrite <- (pos_ascii s cps Hs _ _ Hr1) by lia. split_and!; try done. by eexists. }
  destruct (Z.eqb_spec d 44) as [->|]; cbn [negb]; [|by eexists]. rewrite <- (pos_ascii s cps Hs _ _ Hr1) by lia.
  pose proof (rest_after _ _ _ _ _ Ev Es Hr0) as Hlen. specialize (IH r1 st2 loc _ _ Hr2 ltac:(lia) ltac:(lia) Hloc2 Hentries2).
  destruct (read_entries len rv fuel r1) as [[js r2]| |]; [|done..]. cbn [obind parses] in *. destruct IH as ([v' p'] & st3 & E3 & -> & Hlow3 & Hits & -> & Hr3).
  eexists _, st3. split; [exact E3|]. split_and!; [done|intros i Hi; by rewrite Hlow3, Hlow|done|done|done].
Qed.

Lemma folded_nodup kjs : forall l : list (list Z * @json F), NoDup (map fst l) -> NoDup (map fst (foldl (fun acc '(k, j) => tree_set k j acc) l kjs)).
Proof. induction kjs as [|[k j] kjs IH]; intros l Hl; [done|]. cbn [foldl]. by apply IH, tree_set_nodup. Qed.

Lemma parse_object_ok c0 rest st : suffix (c0 :: rest) cps -> c0 = 123 -> (length (utf8 rest) < bound)%nat ->
  parses (parse_object pv s (pos (c0 :: rest)) st) (read_object len rv rest) (fresh_value st).
Proof using Hs pv_ok rv_sound.
  intros Hr0 -> Hb. destruct (pos_cons s cps Hs _ _ Hr0) as (Hr & _ & _). unfold parse_object, read_object, json_object, new_container.
  rewrite <- (pos_ascii s cps Hs _ _ Hr0) by lia. unfold bind at 1 2, ret at 1. destruct (next_char rest Hr) as [-> Hn]. rewrite bind_lift.
  destruct (skip_spec rest) as (w & Ew & _). destruct (skip rest) as [|c r] eqn:Es; [rewrite Hn; by eexists|].
  destruct Hn as (-> & (b & -> & Hlook) & Hr1 & Hr2). rewrite bind_lift. unfold ASCII_RBRACE. rewrite (looks_eqb _ _ _ Hlook) by done.
  assert (Hloc : (st ++ [CDict []]) !! length st = Some (@CDict F [])) by (by rewrite lookup_app_r, Nat.sub_diag).
  destruct (Z.eqb_spec c 125) as [->|].
  { cbn [parses]. eexists _, _. split; [done|]. rewrite <- (pos_ascii s cps Hs _ _ Hr1) by lia.
    split_and!; [by eexists|by eapply holds_object; [..|constructor]|done|done]. }
  assert (Hle : (length (utf8 (c :: r)) <= length (utf8 rest))%nat) by (rewrite Ew, utf8_app, length_app; lia).
  pose proof (object_entries_ok len (c :: r) (st ++ [CDict []]) (length st) [] [] Hr1 ltac:(lia) (proj1 (rest_length s cps Hs _ Hr1)) Hloc (List.Forall2_nil _)) as Ha.
  destruct (read_entries len rv len (c :: r)) as [[js r2]| |]; [|done..]. cbn [obind parses] in *.
  destruct Ha as ([v p] & st' & -> & -> & Hlow & (entries & Hi & Hits) & -> & Hr3). eexists _, st'. split; [done|].
  split_and!; [|eapply holds_object; [done|done| |apply folded_nodup; constructor]|done|done].
  - apply prefix_below. intros i Hi'. rewrite Hlow by done. by rewrite lookup_app_l.
  - eapply Forall2_impl; [exact Hits|]. intros x y [Hx Hy]. split; [done|]. revert Hy. by apply holds_kept; [lia|intros ? ?].
Qed.
End level.

(** What needs no store. *)
Lemma lifted_agrees st r o : agrees r o (fun '(v, p) '(j, r) => holds (length st) st v j /\ p = pos r /\ suffix r cps) ->
  parses (lift r st) o (fresh_value st).
Proof.
  destruct o as [[j rest]| |]; cbn [agrees parses]; [|by intros [e ->]; exists e|by intros ->]. intros ([v p] & -> & Hv & -> & Hr).
  eexists _, st. by split.
Qed.

Lemma parse_value_ok fuel : forall rest st, suffix rest cps -> (length (utf8 rest) < fuel)%nat ->
  parses (parse_value crt_memcmp fuel s (pos rest) st) (read_value len fuel rest) (fresh_value st).
Proof using Hs memcmp_law.
  induction fuel as [|fuel IH]; intros rest st Hr Hf; [lia|]. cbn [parse_value read_value].
  destruct (next_char rest Hr) as [-> Hn]. rewrite bind_lift. destruct (skip_spec rest) as (w & Ew & _).
  destruct (skip rest) as [|c r]; [rewrite Hn; by eexists|]. destruct Hn as (-> & (b & -> & Hlook) & Hr1 & Hr2). rewrite bind_lift.
  unfold ASCII_LBRACE, ASCII_LBRACKET, ASCII_QUOTE, ASCII_MINUS, ASCII_LOWER_T, ASCII_LOWER_F, ASCII_LOWER_N.
  rewrite !(looks_eqb _ _ _ Hlook), (digit_test _ _ Hlook) by done. change (is_ascii_digit c) with (digit_char c).
  assert (Hle : (length (utf8 r) < fuel)%nat).
  { rewrite Ew in Hf. destruct (utf8_rest_length s cps Hs _ _ Hr1). rewrite utf8_app, length_app in Hf. lia. }
  destruct (Z.eqb_spec c 123) as [Hc|_]; [eapply parse_object_ok; [exact IH|apply read_value_sound|done..]|].
  destruct (Z.eqb_spec c 91) as [Hc|_]; [eapply parse_array_ok; [exact IH|apply read_value_sound|done..]|].
  destruct (Z.eqb_spec c 34) as [Hc|_].
  { pose proof (parse_string_ok s cps Hs _ _ Hr1 ltac:(done)) as Hp. destruct (read_chars len r) as [[x r1]|]; [|destruct Hp as [e ->]; by eexists].
    destruct Hp as ([key p] & -> & Hkey & -> & Hr3). rewrite return_lift. eexists _, st. split; [done|]. by split_and!; [|constructor|..]. }
  destruct ((c =? 45) || digit_char c); [by apply lifted_agrees, answers_agrees, parse_number_ok|].
  assert (Hlit : forall name v j, ascii (ascii_codes name) -> (length (ascii_codes name) < 256)%nat -> holds (length st) st v j ->
    parses (lift (parse_literal crt_memcmp s (pos (c :: r)) (constant name) v) st) (read_literal (literal_text name) j (c :: r)) (fresh_value st))
    by (intros; by apply lifted_agrees, parse_literal_ok).
  assert (Hn : forall name, name = "true"%string \/ name = "false"%string \/ name = "null"%string -> ascii (ascii_codes name) /\ (length (ascii_codes name) < 256)%nat).
  { intros name Hname. split; destruct Hname as [->|[->| ->]]; [repeat constructor; vm_compute; (done || split; congruence)..|vm_compute; lia|vm_compute; lia|vm_compute; lia]. }
  destruct (c =? 116); [apply Hlit; [apply Hn; auto|apply Hn; auto|constructor]|].
  destruct (c =? 102); [apply Hlit; [apply Hn; auto|apply Hn; auto|constructor]|].
  destruct (c =? 110); [apply Hlit; [apply Hn; auto|apply Hn; auto|constructor]|]. by eexists.
Qed.

Lemma loads_ok (st : St) : parses (loads crt_memcmp s st) (read_json cps len) (fun st' v j => st `prefix_of` st' /\ holds (length st) st' v j).
Proof using Hs memcmp_law.
  assert (Hpos : pos cps = O) by (unfold JsonText.pos; rewrite (len_text s cps Hs); lia).
  pose proof (parse_value_ok (S len) cps st ltac:(done)) as Hv. rewrite Hpos in Hv.
  specialize (Hv ltac:(pose proof (proj1 (rest_length s cps Hs cps ltac:(done))); lia)).
  unfold read_json, loads, or_return, bind at 1. destruct (read_value len (S len) cps) as [[j rest]| |]; cbn [obind parses] in *.
  - destruct Hv as ([v p] & st1 & -> & Hp & Hh & -> & Hr). destruct (next_char rest Hr) as [-> Hn]. rewrite bind_lift.
    destruct (skip rest) as [|c r].
    + rewrite pos_nil, Nat.eqb_refl. cbn [negb parses]. eexists _, st1. by split.
    + destruct Hn as (Hge & _). apply Nat.leb_gt in Hge. rewrite (proj2 (Nat.eqb_neq (pos (c :: r)) len)) by lia. by eexists.
  - destruct Hv as [e He]. destruct (parse_value _ _ _ _ _) as [r st1]. cbn [fst] in He. subst r. by eexists.
  - by destruct (parse_value _ _ _ _ _) as [r st1]; cbn [fst] in Hv; subst r.
Qed.

(** A text of the grammar is read. *)
Lemma loads_text (st : St) j : json_text cps j -> exists v st', loads crt_memcmp s st = (Ok (Ok v), st') /\ st `prefix_of` st' /\ holds (length st) st' v j.
Proof using Hs memcmp_law.
  intros Hj. pose proof (loads_ok st) as Hl. apply (read_json_complete cps j len) in Hj; [|by apply (rest_length s cps Hs)]. by rewrite Hj in Hl.
Qed.

(** C15: [loads] decides JSON.  Accepted are the texts of RFC 8259's grammar
    whose escapes of surrogates stand in pairs ([paired_only]; the RFC's section 8.2
    warns of the others, and its grammar has them).  Such a text gives a value that
    is its tree, in containers of its own, and the RFC's grammar gives it no other; on
    any other text, one with an unpaired escape included, [loads] returns an
    error, or panics on the slice it compares
    with [true], [false] or [null], which only a text outside of ASCII makes it
    do.  No read leaves the text, no buffer overflows, no unwrap fails. *)
Theorem loads_exact (st : St) : exists r st', loads crt_memcmp s st = (r, st') /\
  match r with
  | Ok (Ok v) => exists j, json_text (unpaired:=paired_only) cps j /\
      (forall j', json_text (unpaired:=rfc_8259) cps j' <-> j' = j) /\ st `prefix_of` st' /\ holds (length st) st' v j
  | Ok (Err _) => forall j : json, ~ json_text (unpaired:=paired_only) cps j
  | Err e => e = cut_panic /\ ~ ascii cps /\ forall j : json, ~ json_text (unpaired:=paired_only) cps j
  end.
Proof using Hs memcmp_law.
  assert (Hcomplete : forall u (j : json), json_text (unpaired:=u) cps j -> read_json (unpaired:=u) cps len = Got j)
    by (intros u j; apply read_json_complete; by apply (rest_length s cps Hs)).
  pose proof (loads_ok st) as Hl. destruct (loads crt_memcmp s st) as [r st'] eqn:E. exists r, st'. split; [done|].
  destruct (read_json cps len) as [j| |] eqn:Er; cbn [parses fst] in Hl.
  - destruct Hl as (v & st1 & [= -> ->] & Hp & Hh). apply read_json_sound in Er. exists j. split_and!; [done| |done|done].
    apply paired_rfc in Er. intros j'. split; [|by intros ->]. intros Hj. apply Hcomplete in Hj, Er. congruence.
  - destruct Hl as [e ->]. intros j Hj. apply Hcomplete in Hj. congruence.
  - subst r. split_and!; [done|by eapply read_json_crash|]. intros j Hj. apply Hcomplete in Hj. congruence.
Qed.
End containers.

Lemma sample_ok t : ascii (backquoted t) -> (length (backquoted t) < 256)%nat -> str_ok (sample_source t) (backquoted t).
Proof.
  intros Ha Hl. unfold sample_source. set (l := backquoted t) in *. rewrite Nat.add_1_r.
  split; cbn [s_data byte_size char_count char_index]; rewrite ?utf8_ascii by done; try done; [by apply text_ascii|].
  intros g Hg. assert (g = O) as -> by lia. done.
Qed.

Ltac sample_str := apply sample_ok; [repeat constructor; vm_compute; (done || split; congruence)|vm_compute; lia].

#[local] Existing Instance small_float.

Lemma loads_exact_witness : exists v st', loads (F := Small) lex (sample_source "[1, {`a`: true}]") [] = (Ok (Ok v), st') /\
  exists j, json_text (unpaired:=paired_only) (backquoted "[1, {`a`: true}]") j /\ holds 0 st' v j.
Proof.
  assert (Hm : forall u v, length u = length v -> Z.sgn (lex u v) = lex u v) by (intros; apply lex_sgn).
  assert (Hs : str_ok (sample_source "[1, {`a`: true}]") (backquoted "[1, {`a`: true}]")) by sample_str.
  destruct (loads_exact (F := Small) lex Hm _ _ Hs []) as (r & st' & E & Hr).
  assert (Hok : match (loads (F := Small) lex (sample_source "[1, {`a`: true}]") []).1 with Ok (Ok _) => true | _ => false end = true) by (vm_compute; reflexivity).
  rewrite E in Hok. destruct r as [[v|e]|e]; [|discriminate Hok..]. exists v, st'. split; [exact E|].
  destruct Hr as (j & Hj & _ & _ & Hh). exists j. split; [exact Hj|exact Hh].
Defined.

(** What is refused, and the panic. *)
Example loads_samples :
  reprinted " [1, -2.5e0 , {`k`: [null, true, false], `k`: `a\u00e9\ud83d\ude00\n`}] " <> None /\
  refused "[1,]" = Some (Ok (UnexpectedChar 3)) /\ refused "01" = Some (Ok (InvalidNumber 0)) /\ refused "tru" = Some (Ok (UnexpectedEnd 0)) /\
  refused "truE" = Some (Ok (UnexpectedChar 0)) /\ refused "1 2" = Some (Ok (TrailingGarbage 2)) /\ refused "`\ud800`" = Some (Ok (InvalidEscape 7)).
Proof. vm_compute. by split_and!. Qed.

(** The RFC's grammar has the last of them. *)
Example unpaired_in_rfc : json_text (unpaired:=rfc_8259) (backquoted "`\ud800`") (@TString Small [55296%Z]).
Proof. apply (read_json_sound _ _ 20). vm_compute. reflexivity. Qed.
