(* ===== verification/JsonDump.v ===== *)
(** * JSON: what [dumps] writes

    [dumps] of a value that is a tree writes a text of the grammar for that tree,
    each float as the shortest number that reads back as it; [loads] of the text
    is the tree again. *)

From S2P Require Import Prelude RawList Bits Buffers Utf8 StrOps StrIndex IntDigits IntText FloatText Json JsonSpec JsonText JsonParse.

Local Open Scope Z_scope.
Local Open Scope monad_scope.

#[local] Existing Instance paired_only.

(** ** Strings *)

(** The text of a character between quotation marks. *)
Definition escape_text (c : Z) : list Z :=
  if negb (short_json_escape_for c =? 0) then [92; short_json_escape_for c]
  else if c <? 32 then [92; 117; 48; 48; if Z.shiftr c 4 <? 10 then 48 + Z.shiftr c 4 else 97 + (Z.shiftr c 4 - 10); if Z.land c 15 <? 10 then 48 + Z.land c 15 else 97 + (Z.land c 15 - 10)]
  else [c].

Definition escaped (cps : list Z) : list Z := flat_map escape_text cps.

Lemma below_32 (P : Z -> Prop) : Forall P (map Z.of_nat (seq 0 32)) -> forall c, 0 <= c < 32 -> P c.
Proof.
  intros HP c Hc. rewrite Forall_forall in HP. apply HP. apply list_elem_of_In, in_map_iff. exists (Z.to_nat c). rewrite in_seq. lia.
Qed.

(** A control character has an escape of one letter or four hexadecimal digits. *)
Definition control_escape (c : Z) : Prop :=
  if negb (short_json_escape_for c =? 0) then short_escape (short_json_escape_for c) = Some c
  else exists a b x y, escape_text c = [92; 117; 48; 48; a; b] /\ hex_value a = Some x /\ hex_value b = Some y /\ 4096 * 0 + 256 * 0 + 16 * x + y = c.

Lemma control_escape_ok c : 0 <= c < 32 -> control_escape c.
Proof.
  revert c. apply below_32. repeat constructor; unfold control_escape; cbn; try reflexivity; by do 4 eexists.
Qed.

Lemma short_json_escape_ok c : short_json_escape_for c <> 0 -> short_escape (short_json_escape_for c) = Some c.
Proof.
  unfold short_json_escape_for. repeat match goal with |- context [c =? ?k] => destruct (Z.eqb_spec c k) as [->|]; [reflexivity|] end.
  by intros [].
Qed.

Lemma escape_chars c t cps : scalar_value c = true -> string_chars t cps -> string_chars (escape_text c ++ t) (c :: cps).
Proof.
  intros Hc Ht. unfold escape_text. destruct (Z.eqb_spec (short_json_escape_for c) 0) as [H0|Hne]; cbn [negb].
  - destruct (Z.ltb_spec c 32) as [Hlt|Hge].
    + apply scalar_spec in Hc. pose proof (control_escape_ok c ltac:(lia)) as He. unfold control_escape in He. rewrite H0 in He. cbn [Z.eqb negb] in He.
      destruct He as (a & b & x & y & E & Ha & Hb & Hv). unfold escape_text in E. rewrite H0 in E. cbn [Z.eqb negb] in E. rewrite (proj2 (Z.ltb_lt c 32)) in E by done.
      rewrite E. cbn [app]. apply (chars_unicode [48; 48; a; b] c); [|by apply surrogate_false; lia|done].
      rewrite <- Hv. by constructor.
    + cbn [app]. constructor; [done| | |done]; intros ->; done.
  - cbn [app]. apply (chars_short _ c); [by apply short_json_escape_ok|done].
Qed.

Lemma escaped_chars cps : text cps -> string_chars (escaped cps) cps.
Proof. induction 1 as [|c cps Hc _ IH]; [constructor|]. cbn [escaped flat_map]. by apply escape_chars. Qed.

Lemma escape_scalar c : scalar_value c = true -> text (escape_text c).
Proof.
  intros Hc. unfold escape_text. destruct (Z.eqb_spec (short_json_escape_for c) 0) as [H0|Hne]; cbn [negb].
  - destruct (Z.ltb_spec c 32) as [Hlt|Hge]; [|by repeat constructor]. apply scalar_spec in Hc. clear H0.
    revert c Hc Hlt. intros c Hc Hlt. assert (Hr : 0 <= c < 32) by lia. clear Hc Hlt. revert c Hr. apply below_32. repeat constructor.
  - apply short_json_escape_ok, short_escape_ascii in Hne as [H1 H2]. unfold short_json_escape_for in *.
    repeat match goal with |- context [c =? ?k] => destruct (c =? k); [by repeat constructor|] end. by repeat constructor.
Qed.

Lemma escaped_is_text cps : text cps -> text (escaped cps).
Proof. induction 1 as [|c cps Hc _ IH]; [constructor|]. cbn [escaped flat_map]. apply Forall_app_2; [by apply escape_scalar|done]. Qed.

Lemma escape_width c : scalar_value c = true ->
  (if (c =? 34) || (c =? 92) || (c =? 10) || (c =? 13) || (c =? 9) || (c =? 8) || (c =? 12) then 2%nat
   else if c <? 32 then 6%nat else utf8_encoded_len c) = length (utf8 (escape_text c)).
Proof.
  intros Hc. destruct (Z.ltb_spec c 32) as [Hlt|Hge].
  - apply scalar_spec in Hc. assert (Hr : 0 <= c < 32) by lia. clear Hc Hlt. revert c Hr. apply below_32. repeat constructor.
  - unfold escape_text, short_json_escape_for. repeat match goal with |- context [c =? ?k] => destruct (Z.eqb_spec c k) as [->|]; [reflexivity|] end.
    rewrite (proj2 (Z.ltb_ge c 32)) by done. cbn [orb Z.eqb negb]. by rewrite utf8_singleton, encoded_len.
Qed.

Lemma push_at d w n x : starts d w -> n = length w -> (n < length d)%nat -> exists d', write_u8 n x d = Ok d' /\ length d' = length d /\ starts d' (w ++ [x]).
Proof. intros Hd -> Hl. by apply starts_push. Qed.

(** One write after another. *)
Ltac push Hb :=
  lazymatch type of Hb with
  | starts ?d ?w =>
      lazymatch goal with
      | |- context [write_u8 ?n ?x d] =>
          let d' := fresh "buf" in let Hl := fresh "Hlen" in let Hb' := fresh "Hb" in
          destruct (push_at d w n x Hb) as (d' & -> & Hl & Hb'); [rewrite ?length_app; simpl; lia..|]; cbn [result_bind]; clear Hb; rename Hb' into Hb
      end
  end.

Lemma utf8_ascii_char c : 0 <= c < 128 -> utf8 [c] = [c].
Proof. intros Hc. apply utf8_ascii. by repeat constructor; lia. Qed.

Lemma control_text_ok c : 0 <= c < 32 -> short_json_escape_for c = 0 ->
  exists a b, hex_digit_char (Z.shiftr (u8 c) 4) = Ok a /\ hex_digit_char (Z.land (u8 c) 15) = Ok b /\ utf8 (escape_text c) = [92; 117; 48; 48; a; b].
Proof.
  intros Hc. revert Hc. revert c. apply (below_32 (fun c => short_json_escape_for c = 0 ->
    exists a b, hex_digit_char (Z.shiftr (u8 c) 4) = Ok a /\ hex_digit_char (Z.land (u8 c) 15) = Ok b /\ utf8 (escape_text c) = [92; 117; 48; 48; a; b])).
  repeat constructor; cbn [short_json_escape_for Z.of_nat]; intros E; try discriminate E; do 2 eexists; by split_and!.
Qed.

(** The escape of a character, written behind what there is. *)
Lemma fill_char c w buf : scalar_value c = true -> starts buf w -> (length w + length (utf8 (escape_text c)) <= length buf)%nat ->
  exists buf', (let short := short_json_escape_for c in let out := length w in
    if negb (short =? 0) then
      let? buf := write_u8 out ASCII_BACKSLASH buf in let? buf := write_u8 (out + 1) short buf in Ok (buf, (out + 2)%nat)
    else if c <? 32 then
      let? buf := write_u8 out ASCII_BACKSLASH buf in let? buf := write_u8 (out + 1) ASCII_LOWER_U buf in
      let? buf := write_u8 (out + 2) ASCII_ZERO buf in let? buf := write_u8 (out + 3) ASCII_ZERO buf in
      let? hi := hex_digit_char (Z.shiftr (u8 c) 4) in let? buf := write_u8 (out + 4) hi buf in
      let? lo := hex_digit_char (Z.land (u8 c) 15) in let? buf := write_u8 (out + 5) lo buf in Ok (buf, (out + 6)%nat)
    else let? buf := store_bytes out (encode_utf8 c) buf in Ok (buf, (out + utf8_encoded_len c)%nat))
    = Ok (buf', (length w + length (utf8 (escape_text c)))%nat) /\ length buf' = length buf /\ starts buf' (w ++ utf8 (escape_text c)).
Proof.
  intros Hc Hb Hl. cbv zeta. destruct (Z.eqb_spec (short_json_escape_for c) 0) as [H0|Hne]; cbn [negb].
  - destruct (Z.ltb_spec c 32) as [Hlt|Hge].
    + apply scalar_spec in Hc. destruct (control_text_ok c ltac:(lia) H0) as (a & b & Ea & Eb & Et). rewrite Et in *. rewrite Ea, Eb. cbn [length] in *.
      cbn [result_bind]. do 6 push Hb. eexists. split; [done|]. split; [lia|]. by rewrite <- !app_assoc in Hb.
    + assert (Et : escape_text c = [c]) by (unfold escape_text; by rewrite H0, (proj2 (Z.ltb_ge c 32))).
      rewrite Et, utf8_singleton, encoded_len in * by done. destruct (starts_store_char buf w c Hc Hb Hl) as (buf' & -> & ? & ?). by eexists.
  - assert (Et : escape_text c = [92; short_json_escape_for c]) by (unfold escape_text; by rewrite (proj2 (Z.eqb_neq _ 0))).
    pose proof (short_json_escape_ok c Hne) as Hs.
    assert (Eu : utf8 (escape_text c) = [92; short_json_escape_for c]).
    { assert (0 <= short_json_escape_for c < 128) by (unfold short_json_escape_for; repeat (destruct (c =? _); [done|]); lia).
      rewrite Et. apply utf8_ascii. constructor; [lia|]. constructor; [lia|constructor]. }
    rewrite Eu in *. cbn [length] in *. do 2 push Hb. eexists. split; [done|]. split; [lia|]. by rewrite <- !app_assoc in Hb.
Qed.

Section escape.
Context (s : Str) (cps : list Z) (Hs : str_ok s cps).

Lemma escape_step p c rest : cps = p ++ c :: rest -> scalar_value c = true /\ (length (utf8 p) < byte_len s)%nat /\
  decode_utf8_at (s_data s) (length (utf8 p)) = Ok (c, length (utf8_char c)) /\ length (utf8 (p ++ [c])) = (length (utf8 p) + length (utf8_char c))%nat.
Proof using Hs.
  intros E. assert (Hk : cps !! length p = Some c) by (rewrite E, lookup_app_r, Nat.sub_diag by lia; done).
  destruct (decode_at s cps (length p) c Hs Hk) as [Hd _]. rewrite E, take_app_length in Hd.
  assert (Hc : scalar_value c = true) by (eapply text_at; [apply Hs|exact Hk]).
  split_and!; [done| |done|by rewrite utf8_length_app, utf8_singleton].
  rewrite (byte_len_ok _ _ Hs), E, utf8_length_app, utf8_cons, length_app. pose proof (sequence_length _ _ (char_sequence _ Hc)). lia.
Qed.

Lemma measure_escaped_ok rest : forall p fuel total, cps = p ++ rest -> (length rest <= fuel)%nat ->
  measure_escaped_from fuel (s_data s) (byte_len s) (length (utf8 p)) total = Ok (total + length (utf8 (escaped rest)))%nat.
Proof using Hs.
  induction rest as [|c rest IH]; intros p fuel total E Hf.
  - rewrite app_nil_r in E. subst p. rewrite <- (byte_len_ok _ _ Hs). destruct fuel; cbn [measure_escaped_from]; rewrite Nat.ltb_irrefl; do 2 f_equal; simpl; lia.
  - destruct fuel as [|fuel]; [simpl in Hf; lia|]. cbn [measure_escaped_from].
    destruct (escape_step p c rest E) as (Hc & Hlt & Hd & Hn).
    rewrite (proj2 (Nat.ltb_lt _ _) Hlt), Hd. cbn [result_bind]. rewrite (escape_width c Hc), <- Hn.
    rewrite (IH (p ++ [c])) by (rewrite <- ?app_assoc; done || (simpl in Hf; lia)). cbn [escaped flat_map]. rewrite utf8_length_app.
    f_equal. unfold escaped. lia.
Qed.

Lemma fill_escaped_ok rest : forall p fuel w buf, cps = p ++ rest -> (length rest <= fuel)%nat -> starts buf w ->
  (length w + length (utf8 (escaped rest)) <= length buf)%nat ->
  exists buf', fill_escaped_from fuel (s_data s) (byte_len s) (length (utf8 p)) (length w) buf = Ok (buf', (length w + length (utf8 (escaped rest)))%nat) /\
    length buf' = length buf /\ starts buf' (w ++ utf8 (escaped rest)).
Proof using Hs.
  induction rest as [|c rest IH]; intros p fuel w buf E Hf Hb Hl.
  - rewrite app_nil_r in E. subst p. rewrite <- (byte_len_ok _ _ Hs). exists buf. rewrite app_nil_r, Nat.add_0_r.
    by destruct fuel; cbn [fill_escaped_from]; rewrite Nat.ltb_irrefl.
  - destruct fuel as [|fuel]; [simpl in Hf; lia|]. cbn [fill_escaped_from].
    destruct (escape_step p c rest E) as (Hc & Hlt & Hd & Hn). rewrite (proj2 (Nat.ltb_lt _ _) Hlt), Hd. cbn [result_bind].
    cbn [escaped flat_map] in Hl |- *. fold (escaped rest) in Hl |- *. rewrite utf8_length_app in Hl.
    destruct (fill_char c w buf Hc Hb ltac:(lia)) as (buf1 & E1 & Hl1 & Hb1). cbv zeta in E1. rewrite E1. cbn [result_bind].
    rewrite <- Hn, <- length_app. destruct (IH (p ++ [c]) fuel (w ++ utf8 (escape_text c)) buf1) as (buf' & -> & Hl2 & Hb2);
      [by rewrite <- app_assoc|simpl in Hf; lia|done|rewrite length_app; lia|].
    exists buf'. rewrite utf8_app, app_assoc, length_app. split_and!; [|lia|done]. do 2 f_equal. rewrite ?utf8_length_app, ?length_app. unfold escaped. lia.
Qed.

(** A text between quotation marks, escaped. *)
Lemma json_escape_string_ok : exists r, json_escape_string s = Ok r /\ str_ok r (34 :: escaped cps ++ [34]).
Proof using Hs.
  assert (Hlen : (length cps <= byte_len s)%nat) by (rewrite (byte_len_ok _ _ Hs); apply utf8_length, Hs).
  pose proof (measure_escaped_ok cps [] (byte_len s) 0 eq_refl Hlen) as Hm. change (length (utf8 [])) with O in Hm.
  unfold json_escape_string, measure_escaped_len, fill_escaped. rewrite Hm. cbn [result_bind Nat.add].
  set (n := length (utf8 (escaped cps))). pose proof (starts_nil (alloc_u8 (n + 3))) as Hb.
  assert (Hl : length (alloc_u8 (n + 3)) = (n + 3)%nat) by apply alloc_length. push Hb.
  destruct (fill_escaped_ok cps [] (byte_len s) ([] ++ [34]) buf eq_refl Hlen Hb) as (buf1 & E & Hl1 & Hb1); [simpl; fold n; lia|].
  change (length (utf8 [])) with O in E. change (length ([] ++ [34])) with 1%nat in E. rewrite E. cbn [result_bind]. fold n. fold n in Hb1.
  push Hb1. unfold ASCII_QUOTE in *.
  assert (Et : ([] ++ [34]) ++ utf8 (escaped cps) ++ [34] = utf8 (34 :: escaped cps ++ [34])) by (rewrite utf8_cons, utf8_app; done).
  rewrite <- app_assoc, Et in Hb1. assert (Ht : text (34 :: escaped cps ++ [34])).
  { constructor; [done|]. apply Forall_app_2; [by apply escaped_is_text, Hs|by repeat constructor]. }
  assert (En : (n + 2)%nat = length (utf8 (34 :: escaped cps ++ [34]))) by (rewrite <- Et, !length_app; simpl; fold n; lia).
  destruct (built_ok "json._json_escape_string: internal buffer was not valid UTF-8" buf0 _ (n + 2) Hb1 En) as (r & Er & Hr); [lia|done|].
  exists r. split; [|done]. replace (1 + n + 1)%nat with (n + 2)%nat by lia. replace (n + 2 + 1)%nat with (n + 3)%nat in Er by lia. exact Er.
Qed.
End escape.

(** ** Numbers *)

Lemma canonical_plain l : canonical l -> plain_integer (map (Z.add ascii_zero) (rev l)).
Proof.
  intros (Hne & Hd & Hl). destruct l as [|d l'] using rev_ind; [done|clear IHl']. rewrite rev_unit. cbn [map].
  apply Forall_app in Hd as [Hd' Hd]. apply Forall_cons in Hd as [Hd _]. split_and!; [|done|].
  - constructor; [unfold digit, ascii_zero, ascii_nine in *; lia|]. apply Forall_map, Forall_rev. eapply Forall_impl; [exact Hd'|].
    unfold digit, ascii_zero, ascii_nine. cbv beta. lia.
  - rewrite length_app in Hl. simpl length in Hl. destruct Hl as [Hl|Hl].
    + destruct l'; [|simpl in Hl; lia]. destruct (decide (d = 0)) as [->|]; [by left|right]. cbn [head]. unfold ascii_zero. intros [=]. lia.
    + right. cbn [head]. unfold ascii_zero. intros [=]. assert (d = 0) as -> by lia.
      rewrite val_app, Nat.add_sub in Hl. pose proof (val_bound l' Hd'). cbn [val] in Hl. lia.
Qed.

Lemma num_digits_text l : num (map (Z.add ascii_zero) (rev l)) = val l.
Proof. unfold num. rewrite map_map, (map_ext _ (fun x => x)) by (intros; lia). by rewrite map_id, rev_involutive. Qed.

Lemma printed_value {F} `{Float F} z l t : printed z l t -> value_text t (TInt z).
Proof.
  intros (Hc & Hv & ->). pose proof (canonical_plain l Hc) as Hp. pose proof (num_digits_text l) as Hn.
  destruct (Z.ltb_spec z 0).
  - replace z with (-1 * num (map (Z.add ascii_zero) (rev l))) by lia. apply int_text; [constructor|done].
  - replace z with (1 * num (map (Z.add ascii_zero) (rev l))) by lia. apply int_text; [constructor|done].
Qed.

Lemma plain_front d fp n : all_digits (d :: fp) -> d <> ascii_zero -> (0 < n)%nat -> plain_integer (take n (d :: fp)).
Proof.
  intros Hd Hne Hn. destruct n as [|n]; [lia|]. cbn [take]. apply Forall_cons in Hd as [Hd Hf]. split_and!; [|done|].
  - constructor; [done|by apply Forall_take].
  - right. cbn [head]. by intros [= ->].
Qed.

(** [repr] of a number that is not zero is a JSON number, and no integer. *)
Lemma python_repr_number D x : all_digits D -> (exists d fp, D = d :: fp /\ d <> ascii_zero) -> - 1000 < x < 1000 ->
  exists ip fr fp ex y, python_repr D x = ip ++ fr ++ ex /\ plain_integer ip /\ fraction_text fr fp /\ exponent_text ex y /\ fr ++ ex <> [].
Proof.
  intros HD (d & fp & -> & Hd) Hx. unfold python_repr.
  assert (Hdig : forall c, c = 48 -> ascii_zero <= c <= ascii_nine) by (intros c ->; unfold ascii_zero, ascii_nine; lia).
  destruct ((-4 <=? x) && (x <? 16)) eqn:Hr; [destruct (Z.leb_spec 0 x) as [H0|H0]; [cbn zeta; destruct (Nat.leb_spec (length (d :: fp)) (Z.to_nat x + 1)) as [Hn|Hn]|]|].
  - exists ((d :: fp) ++ replicate (Z.to_nat x + 1 - length (d :: fp)) 48), [46; 48], [48], [], 0. split_and!; [by rewrite <- app_assoc| | |constructor|done].
    + split_and!; [|done|by right; intros [= ->]]. apply all_digits_app. split; [done|apply all_digits_zeros].
    + apply (some_fraction [48]); [by constructor; [apply Hdig|]|done].
  - rewrite <- (take_drop (Z.to_nat x + 1) (d :: fp)) in HD. apply all_digits_app in HD as [Ha Hb].
    exists (take (Z.to_nat x + 1) (d :: fp)), (46 :: drop (Z.to_nat x + 1) (d :: fp)), (drop (Z.to_nat x + 1) (d :: fp)), [], 0.
    split_and!; [by rewrite app_nil_r| | |constructor|done].
    + apply plain_front; [|done|lia]. rewrite <- (take_drop (Z.to_nat x + 1) (d :: fp)). by apply all_digits_app.
    + constructor; [done|]. intros E. apply (f_equal length) in E. rewrite length_drop in E. simpl in E, Hn. lia.
  - set (k := (Z.to_nat (- x) - 1)%nat). exists [48], (46 :: replicate k 48 ++ d :: fp), (replicate k 48 ++ d :: fp), [], 0.
    split_and!; [by rewrite app_nil_r| | |constructor|done].
    + split_and!; [by constructor; [apply Hdig|]|done|by left].
    + constructor; [apply all_digits_app; split; [apply all_digits_zeros|done]|by destruct k].
  - destruct (exponent_digits_ok (Z.abs x) ltac:(lia)) as (He & Hene & Hev). exists [d], (point fp), fp.
    apply (all_digits_app [d] fp) in HD as [H1 H2]. cbn [take drop].
    assert (Hfr : fraction_text (point fp) fp) by (by apply point_fraction).
    destruct (Z.ltb_spec x 0).
    + exists (101 :: [45] ++ exponent_digits (Z.abs x)), (-1 * num (exponent_digits (Z.abs x))). split_and!; [done| |done| |by destruct fp].
      * split_and!; [done|done|right; by intros [= ->]].
      * constructor; [by left|constructor|done|done].
    + exists (101 :: [43] ++ exponent_digits (Z.abs x)), (1 * num (exponent_digits (Z.abs x))). split_and!; [done| |done| |by destruct fp].
      * split_and!; [done|done|right; by intros [= ->]].
      * constructor; [by left|constructor|done|done].
Qed.

Section floats.
Context {F : Type} `{Float F} {laws : FloatLaws F} (crt_memcmp : list Z -> list Z -> Z).
Context (memcmp_law : forall a b, length a = length b -> Z.sgn (crt_memcmp a b) = lex a b).

Lemma f64_str_value (x : F) : finite x -> exists s t, f64_str crt_memcmp x = Ok s /\ str_ok s t /\ value_text t (TFloat (parse_f64 t)) /\ f_eq (parse_f64 t) x = true.
Proof using laws memcmp_law.
  intros Hx. destruct (f64_str_text crt_memcmp memcmp_law x Hx) as (s & t & E & Hs & Hr & Ht). exists s, t. split_and!; [done|done| |done].
  destruct (f_eq x f_zero).
  - subst t. apply (float_text [] 1 [48] [46; 48] [48] [] 0); [constructor| | |constructor|done].
    + split_and!; [by constructor|done|by left].
    + apply (some_fraction [48]); [by constructor|done].
  - destruct Ht as [q D sg ds Hsci HD Hq _ _]. pose proof (scientific_exponent_bound _ _ _ Hsci) as Hb.
    destruct (python_repr_number D (scientific_exponent sg ds)) as (ip & fr & fp & ex & y & -> & Hip & Hfr & Hex & Hne); [apply Hsci|apply Hsci|done|].
    unfold sign_of. destruct (f_lt x f_zero).
    + by apply (float_text [45] (-1) ip fr fp ex y); [constructor|..].
    + by apply (float_text [] 1 ip fr fp ex y); [constructor|..].
Qed.
End floats.

(** ** Trees *)

Section trees.
Context {F : Type} `{Float F}.

(** Equal but for floats, which need only compare equal. *)
Inductive same_json : @json F -> @json F -> Prop :=
| same_null : same_json TNull TNull
| same_bool b : same_json (TBool b) (TBool b)
| same_int z : same_json (TInt z) (TInt z)
| same_float f g : f_eq g f = true -> same_json (TFloat f) (TFloat g)
| same_string out : same_json (TString out) (TString out)
| same_array l l' : Forall2 same_json l l' -> same_json (TArray l) (TArray l')
| same_object l l' : Forall2 (fun a b => a.1 = b.1 /\ same_json a.2 b.2) l l' -> same_json (TObject l) (TObject l').

Fixpoint finite_json (j : @json F) : bool :=
  match j with
  | TFloat f => negb (is_nan f || is_inf f)
  | TArray l => forallb finite_json l
  | TObject l => forallb (fun kj => finite_json kj.2) l
  | _ => true
  end.

Fixpoint depth (j : @json F) : nat :=
  match j with
  | TArray l => S (list_max (map depth l))
  | TObject l => S (list_max (map (fun kj => depth kj.2) l))
  | _ => O
  end.

Lemma depth_below {A} (f : A -> nat) l n : (list_max (map f l) < n)%nat -> Forall (fun x => (f x < n)%nat) l.
Proof. induction l as [|x l IH]; cbn [map list_max foldr]; intros Hl; constructor; [lia|]. apply IH. unfold list_max. lia. Qed.

Lemma tree_object_nodup (l : list (list Z * @json F)) : NoDup (map fst l) -> tree_object l = TObject l.
Proof.
  intros Hn. unfold tree_object. f_equal. assert (Hgo : forall a, NoDup (map fst (a ++ l)) -> foldl (fun acc '(k, j) => tree_set k j acc) a l = a ++ l).
  { clear Hn. induction l as [|[k j] l IH]; intros a Ha; cbn [foldl]; [by rewrite app_nil_r|].
    assert (Hset : tree_set k j a = a ++ [(k, j)]).
    { rewrite map_app in Ha. apply NoDup_app in Ha as (_ & Hd & _). clear IH. induction a as [|[k' j'] a IHa]; [done|]. cbn [tree_set app].
      rewrite bool_decide_eq_false_2; [f_equal; apply IHa; intros x Hx; apply Hd; by right|]. intros ->. apply (Hd k); by left. }
    rewrite Hset, IH, <- app_assoc by (by rewrite <- app_assoc). done. }
  by apply (Hgo []).
Qed.

Lemma joined_items ts (l : list (@json F)) : Forall2 value_text ts l -> ts <> [] -> items_text (intercalate [44] ts) l.
Proof.
  intros Hl. induction Hl as [|t j ts l Ht Hl IH]; intros Hne; [done|]. destruct Hl as [|t' j' ts l Ht' Hl].
  - cbn [intercalate]. rewrite <- (app_nil_r t). by apply (last_item [] t j []); [constructor| |constructor].
  - rewrite intercalate_cons by done. apply (next_item [] t j []); [constructor|done|constructor|by apply IH].
Qed.

(** The text of an entry. *)
Definition entry_text (k t : list Z) : list Z := (34 :: escaped k ++ [34]) ++ [58] ++ t.

Lemma joined_entries ts (l : list (list Z * @json F)) : Forall2 (fun u kj => text kj.1 /\ exists t, u = entry_text kj.1 t /\ value_text t kj.2) ts l -> ts <> [] ->
  entries_text (intercalate [44] ts) l.
Proof.
  intros Hl. induction Hl as [|u [k j] us l (Hk & t & -> & Ht) Hl IH]; intros Hne; [done|]. cbn [fst snd] in *. pose proof (escaped_chars k Hk) as Hc.
  destruct Hl as [|u' kj' us l Hu' Hl].
  - cbn [intercalate]. unfold entry_text. replace ((34 :: escaped k ++ [34]) ++ [58] ++ t) with ([] ++ 34 :: escaped k ++ 34 :: [] ++ 58 :: [] ++ t ++ [])
      by (rewrite app_nil_r; cbn [app]; by rewrite <- app_assoc). by apply last_entry; try constructor.
  - rewrite intercalate_cons by done. unfold entry_text.
    replace (((34 :: escaped k ++ [34]) ++ [58] ++ t) ++ [44] ++ intercalate [44] (u' :: us))
      with ([] ++ 34 :: escaped k ++ 34 :: [] ++ 58 :: [] ++ t ++ [] ++ 44 :: intercalate [44] (u' :: us))
      by (cbn [app]; rewrite <- !app_assoc; cbn [app]; by rewrite <- ?app_assoc). apply next_entry; try constructor; try done. by apply IH.
Qed.
End trees.

(** ** The printer *)

Section dump.
Context {F : Type} `{Float F} {laws : FloatLaws F} (crt_memcmp : list Z -> list Z -> Z).
Context (memcmp_law : forall a b, length a = length b -> Z.sgn (crt_memcmp a b) = lex a b).
Context (base : nat) (st : list (@Container F)).

Lemma get_list_ok arr l : st !! arr = Some (CList l) -> get_list arr st = (Ok l, st).
Proof. unfold get_list. by intros ->. Qed.

Lemma get_dict_ok obj l : st !! obj = Some (CDict l) -> get_dict obj st = (Ok l, st).
Proof. unfold get_dict. by intros ->. Qed.

Lemma getitem_middle {A} (front : list A) x rest : list_getitem (length front) (front ++ x :: rest) = Ok x.
Proof. unfold list_getitem. by rewrite lookup_app_r, Nat.sub_diag by lia. Qed.

(** What printing a value that is [j] answers; the store is left as it is. *)
Definition dumped (r : result abort (result JSONError Str) * list (@Container F)) (j : @json F) : Prop :=
  if finite_json j then exists s t j', r = (Ok (Ok s), st) /\ str_ok s t /\ value_text t j' /\ same_json j j'
  else r = (Ok (Err NonFiniteFloat), st).

Section level.
Context (dv : @JSONValue F -> M (list (@Container F)) abort (result JSONError Str)).

Lemma array_pieces_ok arr all l : forall front rest acc, st !! arr = Some (CList all) -> all = front ++ rest ->
  Forall2 (fun v j => dumped (dv v st) j) rest l ->
  if forallb finite_json l then
    exists strs ts l', array_pieces dv (length rest) arr (length front) acc st = (Ok (Ok (acc ++ strs)), st) /\ Forall2 str_ok strs ts /\
      Forall2 value_text ts l' /\ Forall2 same_json l l'
  else array_pieces dv (length rest) arr (length front) acc st = (Ok (Err NonFiniteFloat), st).
Proof.
  intros front rest acc Harr Eall Hl. revert front acc Eall. induction Hl as [|v j rest l Hv Hl IH]; intros front acc Eall; cbn [forallb length array_pieces].
  - exists [], [], []. by rewrite app_nil_r.
  - rewrite (bind_ok _ _ _ _ _ (get_list_ok _ _ Harr)), Eall, getitem_middle. cbn [unwrap]. rewrite bind_lift.
    unfold dumped in Hv. destruct (finite_json j); cbn [andb]; [|by rewrite (return_err _ _ _ _ _ Hv)].
    destruct Hv as (s & t & j' & Hv & Hs & Ht & Hj). rewrite (return_ok _ _ _ _ _ Hv).
    specialize (IH (front ++ [v]) (acc ++ [s])). rewrite length_app, <- app_assoc in IH. specialize (IH Eall). cbn [length] in IH.
    destruct (forallb finite_json l); [|done]. destruct IH as (strs & ts & l' & -> & H1 & H2 & H3).
    exists (s :: strs), (t :: ts), (j' :: l'). rewrite <- app_assoc. split_and!; [done|by constructor..].
Qed.

Lemma object_pieces_ok obj all l : forall front rest acc, st !! obj = Some (CDict all) -> all = front ++ rest ->
  Forall2 (fun kv kj => str_ok kv.1 kj.1 /\ dumped (dv kv.2 st) kj.2) rest l ->
  if forallb (fun kj => finite_json kj.2) l then
    exists strs ts l', object_pieces dv (length rest) obj (length front) acc st = (Ok (Ok (acc ++ strs)), st) /\ Forall2 str_ok strs ts /\
      Forall2 (fun u kj => text kj.1 /\ exists t, u = entry_text kj.1 t /\ value_text t kj.2) ts l' /\
      Forall2 (fun a b => a.1 = b.1 /\ same_json a.2 b.2) l l'
  else object_pieces dv (length rest) obj (length front) acc st = (Ok (Err NonFiniteFloat), st).
Proof.
  intros front rest acc Hobj Eall Hl. revert front acc Eall. induction Hl as [|[k v] [x j] rest l [Hk Hv] Hl IH]; intros front acc Eall; cbn [forallb length object_pieces].
  - exists [], [], []. by rewrite app_nil_r.
  - rewrite (bind_ok _ _ _ _ _ (get_dict_ok _ _ Hobj)), Eall, getitem_middle. cbn [unwrap fst snd] in *. rewrite bind_lift.
    destruct (json_escape_string_ok k x Hk) as (key & -> & Hkey). rewrite bind_lift.
    destruct (str_add_ok key (constant ":") _ [58] Hkey) as (fr & -> & Hfr); [constant_str|]. rewrite bind_lift.
    unfold dumped in Hv. destruct (finite_json j); cbn [andb]; [|by rewrite (return_err _ _ _ _ _ Hv)].
    destruct Hv as (s & t & j' & Hv & Hs & Ht & Hj). rewrite (return_ok _ _ _ _ _ Hv).
    destruct (str_add_ok fr s _ t Hfr Hs) as (e & -> & He). rewrite bind_lift. rewrite <- app_assoc in He.
    specialize (IH (front ++ [(k, v)]) (acc ++ [e])). rewrite length_app, <- app_assoc in IH. specialize (IH Eall). cbn [length] in IH.
    destruct (forallb _ l); [|done]. destruct IH as (strs & ts & l' & -> & H1 & H2 & H3).
    exists (e :: strs), (entry_text x t :: ts), ((x, j') :: l'). rewrite <- app_assoc. split_and!; [done|by constructor| |by constructor].
    constructor; [|done]. split; [apply Hk|by eexists].
Qed.
End level.

Lemma bracketed_ok left right a b strs ts : str_ok (constant left) [a] -> str_ok (constant right) [b] -> Forall2 str_ok strs ts ->
  exists r, bracketed left right strs = Ok r /\ str_ok r (a :: intercalate [44] ts ++ [b]).
Proof.
  intros Ha Hb Hs. unfold bracketed. destruct (join_text_ok (constant ",") [44] strs ts) as (r & -> & Hr); [constant_str|done|]. cbn [result_bind].
  destruct (str_add_ok _ r _ _ Ha Hr) as (r1 & -> & Hr1). cbn [result_bind].
  destruct (str_add_ok r1 _ _ _ Hr1 Hb) as (r2 & -> & Hr2). exists r2. split; [done|exact Hr2].
Qed.

Lemma dump_ok j : forall v fuel, holds base st v j -> (depth j < fuel)%nat -> dumped (dump_value crt_memcmp fuel v st) j.
Proof using laws memcmp_law.
  induction j as [|b|z|f|out|l IH|l IH] using json_nested_ind; intros v fuel Hv Hf; inversion Hv; subst; (destruct fuel as [|fuel]; [lia|]); cbn [dump_value].
  - exists (constant "null"), (literal_text "null"), TNull. split_and!; [done|constant_str|constructor|constructor].
  - exists (if b then constant "true" else constant "false"), (if b then literal_text "true" else literal_text "false"), (TBool b).
    split_and!; [done|destruct b; constant_str|destruct b; constructor|constructor].
  - match goal with Hn : denotes _ _ |- _ => destruct (str_of_int_ok _ _ Hn) as (s & l & t & -> & Hs & Hp) end.
    exists s, t, (TInt z). split_and!; [done|done|by eapply printed_value|constructor].
  - unfold dumped. cbn [finite_json]. destruct (is_nan f || is_inf f) eqn:Hx; cbn [negb]; [done|]. apply orb_false_elim in Hx.
    destruct (f64_str_value crt_memcmp memcmp_law f Hx) as (s & t & -> & Hs & Ht & He). exists s, t, (TFloat (parse_f64 t)).
    split_and!; [done|done|done|by constructor].
  - match goal with Ho : str_ok _ _ |- _ => destruct (json_escape_string_ok _ _ Ho) as (s & -> & Hs); pose proof (str_text _ _ Ho) end.
    exists s, (34 :: escaped out ++ [34]), (TString out). split_and!; [done|done|by apply string_text, escaped_chars|constructor].
  - match goal with Ha : st !! _ = Some (CList ?i), Hl : Forall2 _ ?i l |- _ => rename Ha into Harr; rename Hl into Hl' end.
    cbn [depth] in Hf. apply Nat.succ_lt_mono, depth_below in Hf. rewrite (bind_ok _ _ _ _ _ (get_list_ok _ _ Harr)).
    assert (Hp : Forall2 (fun v j => dumped (dump_value crt_memcmp fuel v st) j) items l).
    { eapply Forall2_known; [exact (proj2 (Forall_and _ _) (conj IH Hf))|exact Hl'|]. intros x y [Hy Hd] Hx. by apply Hy. }
    pose proof (array_pieces_ok (dump_value crt_memcmp fuel) _ _ l [] _ [] Harr eq_refl Hp) as Ha. cbn [length app] in Ha. unfold dumped. cbn [finite_json].
    destruct (forallb finite_json l); [|by rewrite (return_err _ _ _ _ _ Ha)]. destruct Ha as (strs & ts & l' & Ea & Hs & Ht & Hsame). rewrite (return_ok _ _ _ _ _ Ea).
    destruct (bracketed_ok "[" "]" 91 93 strs ts) as (r & -> & Hr); [constant_str|constant_str|done|]. rewrite bind_lift.
    exists r, (91 :: intercalate [44] ts ++ [93]), (TArray l'). split_and!; [done|done| |by constructor]. destruct ts as [|t ts].
    + inversion Ht; subst. apply (empty_array_text []). constructor.
    + by apply array_text, joined_items.
  - match goal with Ha : st !! _ = Some (CDict ?i), Hl : Forall2 _ ?i l |- _ => rename Ha into Hobj; rename Hl into Hl' end.
    cbn [depth] in Hf. apply Nat.succ_lt_mono, depth_below in Hf. rewrite (bind_ok _ _ _ _ _ (get_dict_ok _ _ Hobj)).
    assert (Hp : Forall2 (fun kv kj => str_ok kv.1 kj.1 /\ dumped (dump_value crt_memcmp fuel kv.2 st) kj.2) entries l).
    { eapply Forall2_known; [exact (proj2 (Forall_and _ _) (conj IH Hf))|exact Hl'|]. intros x y [Hy Hd] [Hk Hx]. split; [done|]. by apply Hy. }
    pose proof (object_pieces_ok (dump_value crt_memcmp fuel) _ _ l [] _ [] Hobj eq_refl Hp) as Ha. cbn [length app] in Ha. unfold dumped. cbn [finite_json].
    destruct (forallb _ l); [|by rewrite (return_err _ _ _ _ _ Ha)]. destruct Ha as (strs & ts & l' & Ea & Hs & Ht & Hsame). rewrite (return_ok _ _ _ _ _ Ea).
    destruct (bracketed_ok "{" "}" 123 125 strs ts) as (r & -> & Hr); [constant_str|constant_str|done|]. rewrite bind_lift.
    exists r, (123 :: intercalate [44] ts ++ [125]), (TObject l'). split_and!; [done|done| |by constructor].
    assert (Hkeys : map fst l' = map fst l) by (clear -Hsame; induction Hsame as [|a b ? ? [E _] _ IH]; [done|cbn [map]; by rewrite IH, E]).
    rewrite <- (tree_object_nodup l') by (by rewrite Hkeys). destruct ts as [|t ts].
    + inversion Ht; subst. apply (empty_object_text []). constructor.
    + by apply object_text, joined_entries.
Qed.

(** C16: [loads] of what [dumps] writes.  A value that is a tree without NaN or
    infinity, nested less than the fuel deep, is written as a JSON text of that
    tree, each float as a number that reads back as a float equal to it; [loads]
    accepts the text and builds the same tree in containers of its own.  A tree
    with a NaN or an infinity in it is refused with [NonFiniteFloat].  Printing
    changes no container. *)
Theorem dumps_loads v j fuel : holds base st v j -> (depth j < fuel)%nat ->
  if finite_json j then
    exists s t j' v' st', dumps crt_memcmp fuel v st = (Ok (Ok s), st) /\ str_ok s t /\ json_text (unpaired:=paired_only) t j' /\ same_json j j' /\
      loads crt_memcmp s st = (Ok (Ok v'), st') /\ st `prefix_of` st' /\ holds (length st) st' v' j'
  else dumps crt_memcmp fuel v st = (Ok (Err NonFiniteFloat), st).
Proof using laws memcmp_law.
  intros Hv Hf. pose proof (dump_ok j v fuel Hv Hf) as Hd. unfold dumped, dumps in *. destruct (finite_json j); [|exact Hd].
  destruct Hd as (s & t & j' & Ed & Hs & Ht & Hj).
  assert (Htext : json_text t j') by (exists [], t, []; rewrite app_nil_r; by split_and!; try constructor).
  destruct (loads_text crt_memcmp memcmp_law s t Hs st j' Htext) as (v' & st' & El & Hp & Hv'). by exists s, t, j', v', st'.
Qed.
End dump.

#[local] Existing Instance small_float.
#[local] Existing Instance small_laws.

(** An array of [-1.5] and of an object, which is in a container of its own. *)
Definition sample_store : list (@Container Small) :=
  [CList [JFloat SmallNeg; JObject 1]; CDict [(constant "k", JString (sample_source "a`b"))]].

Definition sample_tree : @json Small := TArray [TFloat SmallNeg; TObject [([107], TString [97; 34; 98])]].

Lemma sample_holds : holds 0 sample_store (JArray 0) sample_tree.
Proof.
  apply (holds_array _ _ _ [JFloat SmallNeg; JObject 1]); [lia|done|]. constructor; [constructor|]. constructor; [|constructor].
  apply (holds_object _ _ _ [(constant "k", JString (sample_source "a`b"))]); [lia|done| |].
  - constructor; [|constructor]. split; [constant_str|]. constructor. change [97; 34; 98] with (backquoted "a`b"). sample_str.
  - constructor; [by intros ?%elem_of_nil|constructor].
Qed.

Lemma dumps_loads_witness : exists s v' st' j', dumps lex 3 (JArray 0) sample_store = (Ok (Ok s), sample_store) /\
  loads lex s sample_store = (Ok (Ok v'), st') /\ same_json sample_tree j' /\ holds 2 st' v' j'.
Proof.
  assert (Hm : forall u v, length u = length v -> Z.sgn (lex u v) = lex u v) by (intros; apply lex_sgn).
  destruct (dumps_loads lex Hm 0 sample_store (JArray 0) sample_tree 3 sample_holds ltac:(vm_compute; lia))
    as (s & t & j' & v' & st' & Ed & _ & _ & Hj & El & _ & Hv').
  exists s, v', st', j'. split; [exact Ed|]. split; [exact El|]. split; [exact Hj|exact Hv'].
Defined.

(** The text, the number read back, a float that has none, and the panic of [loads]. *)
Example dumps_samples :
  (match (dumps lex 3 (JArray 0) sample_store).1 with Ok (Ok s) => Some (take (byte_len s) (s_data s)) | _ => None end)
    = Some (backquoted "[-1.5,{`k`:`a\`b`}]") /\
  (dumps lex 1 (JFloat SmallInf) []).1 = Ok (Err NonFiniteFloat) /\
  reprinted " [1 , `\u0001\/` , {} ] " = Some (backquoted "[1,`\u0001/`,{}]") /\
  (loads (F := Small) lex (mkStr [116; 114; 117; 195; 169; 0] 6 4 [Some O]) []).1 = Err cut_panic.
Proof. vm_compute. by split_and!. Qed.
