(* ===== verification/Generics.v ===== *)
(** * Generic types and their interning ([mpy_types.py], [discovery.py], [tuple_storage.py])

    Types are objects compared by identity.  Composite types are interned: the
    tables of [Discovery] hold one object per qualified name, so that two
    spellings of [list[i32]] are one object.  A specialization of a class also
    exists as the class monomorphization makes of it, and a tuple type also as
    its backing class; [norm] forgets the difference.  [qualname_inj] shows
    that the names the tables are keyed by determine the type, and the lemmas
    on [get_or_create_*] that the tables answer what was asked for. *)

From stdpp Require Import sorting.
From Stdlib Require Import Ascii String Sorted.
From S2P Require Import Prelude.

Local Open Scope string_scope.
Local Open Scope monad_scope.

(** ** Types

    Type variables, classes and functions are objects with an identity, here a
    number.  [GMono] is the class [monomorphize_class] returns for a
    specialization, [GBacking] the class behind a tuple.  The name of a
    generator type is stored, the others' are built from their parts. *)
Inductive GTy :=
| GVar (v : nat)
| GName (n : nat)
| GSpec (base : nat) (args : list GTy)
| GMono (base : nat) (args : list GTy)
| GCallable (arg_types : list GTy) (return_type : GTy)
| GClosure (arg_types : list GTy) (return_type : GTy)
| GGenerator (text : string) (elem : GTy) (send error : option GTy)
| GTuple (elems : list GTy)
| GBacking (elems : list GTy)
| GArray (elem : GTy) (count : nat)
| GUnion (members : list GTy).

Section nested.
Context (P : GTy -> Prop).
Context (Hvar : forall v, P (GVar v)) (Hname : forall n, P (GName n)).
Context (Hspec : forall b l, Forall P l -> P (GSpec b l)) (Hmono : forall b l, Forall P l -> P (GMono b l)).
Context (Hcallable : forall l r, Forall P l -> P r -> P (GCallable l r)) (Hclosure : forall l r, Forall P l -> P r -> P (GClosure l r)).
Context (Hgen : forall x e s r, P e -> (forall t, s = Some t -> P t) -> (forall t, r = Some t -> P t) -> P (GGenerator x e s r)).
Context (Htuple : forall l, Forall P l -> P (GTuple l)) (Hbacking : forall l, Forall P l -> P (GBacking l)).
Context (Harray : forall t n, P t -> P (GArray t n)) (Hunion : forall l, Forall P l -> P (GUnion l)).

Fixpoint GTy_nested_ind (t : GTy) : P t :=
  let fix all (l : list GTy) : Forall P l :=
    match l with
    | [] => Forall_nil_2 P
    | t :: l => Forall_cons_2 P t l (GTy_nested_ind t) (all l)
    end in
  match t with
  | GVar v => Hvar v
  | GName n => Hname n
  | GSpec b l => Hspec b l (all l)
  | GMono b l => Hmono b l (all l)
  | GCallable l r => Hcallable l r (all l) (GTy_nested_ind r)
  | GClosure l r => Hclosure l r (all l) (GTy_nested_ind r)
  | GGenerator x e s r => Hgen x e s r (GTy_nested_ind e)
      (fun t E => match s as s0 return s0 = Some t -> P t with Some t' => fun E => eq_ind t' P (GTy_nested_ind t') t (f_equal (default t') E) | None => fun E => ltac:(discriminate E) end E)
      (fun t E => match r as s0 return s0 = Some t -> P t with Some t' => fun E => eq_ind t' P (GTy_nested_ind t') t (f_equal (default t') E) | None => fun E => ltac:(discriminate E) end E)
  | GTuple l => Htuple l (all l)
  | GBacking l => Hbacking l (all l)
  | GArray t n => Harray t n (GTy_nested_ind t)
  | GUnion l => Hunion l (all l)
  end.
End nested.

(** Identity of objects is equality of terms. *)
Fixpoint list_eqb {A} (eqb : A -> A -> bool) (l l' : list A) : bool :=
  match l, l' with
  | [], [] => true
  | x :: l, y :: l' => eqb x y && list_eqb eqb l l'
  | _, _ => false
  end.

Definition option_eqb {A} (eqb : A -> A -> bool) (x y : option A) : bool :=
  match x, y with
  | Some x, Some y => eqb x y
  | None, None => true
  | _, _ => false
  end.

Fixpoint gty_eqb (t t' : GTy) : bool :=
  match t, t' with
  | GVar v, GVar v' => Nat.eqb v v'
  | GName n, GName n' => Nat.eqb n n'
  | GSpec b l, GSpec b' l' => Nat.eqb b b' && list_eqb gty_eqb l l'
  | GMono b l, GMono b' l' => Nat.eqb b b' && list_eqb gty_eqb l l'
  | GCallable l r, GCallable l' r' => list_eqb gty_eqb l l' && gty_eqb r r'
  | GClosure l r, GClosure l' r' => list_eqb gty_eqb l l' && gty_eqb r r'
  | GGenerator x e s r, GGenerator x' e' s' r' => String.eqb x x' && gty_eqb e e' && option_eqb gty_eqb s s' && option_eqb gty_eqb r r'
  | GTuple l, GTuple l' => list_eqb gty_eqb l l'
  | GBacking l, GBacking l' => list_eqb gty_eqb l l'
  | GArray t n, GArray t' n' => gty_eqb t t' && Nat.eqb n n'
  | GUnion l, GUnion l' => list_eqb gty_eqb l l'
  | _, _ => false
  end.

Lemma list_eqb_spec {A} (eqb : A -> A -> bool) l : Forall (fun x => forall y, eqb x y = true <-> x = y) l ->
  forall l', list_eqb eqb l l' = true <-> l = l'.
Proof.
  induction 1 as [|x l Hx _ IH]; intros [|y l']; cbn [list_eqb]; try done.
  rewrite andb_true_iff, Hx, IH. split; [by intros [-> ->]|by intros [= -> ->]].
Qed.

Lemma option_eqb_spec {A} (eqb : A -> A -> bool) x : (forall t, x = Some t -> forall y, eqb t y = true <-> t = y) ->
  forall y, option_eqb eqb x y = true <-> x = y.
Proof. intros H [y|]; destruct x as [x|]; cbn [option_eqb]; try done. rewrite (H x eq_refl). split; [by intros ->|by intros [= ->]]. Qed.

Lemma gty_eqb_spec t : forall t', gty_eqb t t' = true <-> t = t'.
Proof.
  induction t using GTy_nested_ind; intros []; cbn [gty_eqb]; try done;
    rewrite ?andb_true_iff, ?Nat.eqb_eq, ?String.eqb_eq, ?list_eqb_spec, ?option_eqb_spec by done;
    try (rewrite IHt by done); naive_solver.
Qed.

#[export] Instance gty_eq_dec : EqDecision GTy.
Proof.
  intros t t'. destruct (gty_eqb t t') eqn:E; [left; by apply gty_eqb_spec|right]. intros ->.
  assert (gty_eqb t' t' = true) by (by apply gty_eqb_spec). congruence.
Defined.

(** ** Names and tables *)

Record Names := mkNames { var_qualname : nat -> string; name_qualname : nat -> string }.

(** [backings] are the tuple types whose backing class has been made. *)
Record Discovery := mkDiscovery {
  specializations : gmap (nat * list (nat + string)) GTy;
  callables : gmap string GTy;
  closures : gmap string GTy;
  tuples : gmap string GTy;
  unions : gmap string GTy;
  backings : list (list GTy);
}.

Definition no_types : Discovery := mkDiscovery ∅ ∅ ∅ ∅ ∅ [].

Section interning.
Context (names : Names).

Fixpoint qualname (t : GTy) : string :=
  match t with
  | GVar v => var_qualname names v
  | GName n => name_qualname names n
  | GSpec b l | GMono b l => name_qualname names b +:+ "[" +:+ String.concat "," (map qualname l) +:+ "]"
  | GCallable l r => "Callable[[" +:+ String.concat "," (map qualname l) +:+ "]," +:+ qualname r +:+ "]"
  | GClosure l r => "Closure[[" +:+ String.concat "," (map qualname l) +:+ "]," +:+ qualname r +:+ "]"
  | GGenerator x _ _ _ => x
  | GTuple l | GBacking l => "tuple[" +:+ String.concat "," (map qualname l) +:+ "]"
  | GArray t n => qualname t +:+ "[" +:+ pretty n +:+ "]"
  | GUnion l => String.concat "|" (map qualname l)
  end.

(** [tuple( id( a ) if isinstance( a, TypeVar ) else a.qualname for a in args )] *)
Definition arg_key (t : GTy) : nat + string := match t with GVar v => inl v | _ => inr (qualname t) end.

Definition get_or_create_specialization (base : nat) (args : list GTy) (d : Discovery) : GTy * Discovery :=
  let cache_key := (base, map arg_key args) in
  match specializations d !! cache_key with
  | Some spec => (spec, d)
  | None =>
      let spec := GSpec base args in
      (spec, mkDiscovery (<[cache_key := spec]> (specializations d)) (callables d) (closures d) (tuples d) (unions d) (backings d))
  end.

Definition get_or_create_callable_type (arg_types : list GTy) (return_type : GTy) (d : Discovery) : GTy * Discovery :=
  let t := GCallable arg_types return_type in
  match callables d !! qualname t with
  | Some fn_type => (fn_type, d)
  | None => (t, mkDiscovery (specializations d) (<[qualname t := t]> (callables d)) (closures d) (tuples d) (unions d) (backings d))
  end.

Definition get_or_create_closure_type (arg_types : list GTy) (return_type : GTy) (d : Discovery) : GTy * Discovery :=
  let t := GClosure arg_types return_type in
  match closures d !! qualname t with
  | Some cls => (cls, d)
  | None => (t, mkDiscovery (specializations d) (callables d) (<[qualname t := t]> (closures d)) (tuples d) (unions d) (backings d))
  end.

Definition get_or_create_tuple_type (elem_types : list GTy) (d : Discovery) : GTy * Discovery :=
  let t := GTuple elem_types in
  match tuples d !! qualname t with
  | Some t => (t, d)
  | None => (t, mkDiscovery (specializations d) (callables d) (closures d) (<[qualname t := t]> (tuples d)) (unions d) (backings d))
  end.

Definition members_of (t : GTy) : list GTy := match t with GUnion l => l | _ => [t] end.

Definition flattened (operands : list GTy) : list GTy := List.concat (map members_of operands).

(** [deduped.setdefault( operand.qualname, operand )] *)
Definition deduped (l : list GTy) : dict GTy :=
  foldl (fun d t => if dict_mem (qualname t) d then d else dict_set (qualname t) t d) [] l.

Fixpoint insert_by_name (t : GTy) (l : list GTy) : list GTy :=
  match l with
  | [] => [t]
  | t' :: l' => if String.leb (qualname t) (qualname t') then t :: l else t' :: insert_by_name t l'
  end.

(** [sorted( deduped.values(), key = lambda t: t.qualname )] *)
Definition ordered_operands (operands : list GTy) : list GTy := foldr insert_by_name [] (map snd (deduped (flattened operands))).

Definition get_or_create_union (operands : list GTy) (d : Discovery) : GTy * Discovery :=
  let union := GUnion (ordered_operands operands) in
  match unions d !! qualname union with
  | Some union => (union, d)
  | None => (union, mkDiscovery (specializations d) (callables d) (closures d) (tuples d) (<[qualname union := union]> (unions d)) (backings d))
  end.

End interning.

(** Two type variables of one name, as the overloads of a generic function have
    them, are two specializations but one [Callable]: the second gets the first's. *)
Definition twins : Names := mkNames (fun _ => "mod.f.T") (fun _ => "intrinsics.bool").

Example twin_specializations :
  (let (a, d) := get_or_create_specialization twins 0 [GVar 1] no_types in
   let (b, d) := get_or_create_specialization twins 0 [GVar 2] d in (a, b)) = (GSpec 0 [GVar 1], GSpec 0 [GVar 2]).
Proof. reflexivity. Qed.

Example twin_callables :
  (let (a, d) := get_or_create_callable_type twins [GVar 1] (GName 0) no_types in
   let (b, d) := get_or_create_callable_type twins [GVar 2] (GName 0) d in (a, b)) =
  (GCallable [GVar 1] (GName 0), GCallable [GVar 1] (GName 0)).
Proof. reflexivity. Qed.

(** ** Names determine types *)

Definition delimiter (c : ascii) : bool := bool_decide (c ∈ [","; "["; "]"; "|"]%char).

Fixpoint plain (s : string) : bool :=
  match s with
  | "" => true
  | String c s => negb (delimiter c) && plain s
  end.

Definition starts_delimited (s : string) : bool := match s with "" => true | String c _ => delimiter c end.

(** The name of an object: not empty, no delimiter, and not a type constructor. *)
Definition object_name (s : string) : Prop := s <> "" /\ plain s = true /\ s ∉ ["Callable"; "Closure"; "tuple"].

Definition nonunion (t : GTy) : Prop := match t with GUnion _ => False | _ => True end.

(** The type variables of a type, each occurrence of them. *)
Fixpoint vars (t : GTy) : list nat :=
  match t with
  | GVar v => [v]
  | GName _ => []
  | GSpec _ l | GMono _ l | GTuple l | GBacking l | GUnion l => List.flat_map vars l
  | GCallable l r | GClosure l r => List.flat_map vars l ++ vars r
  | GGenerator _ e s r => vars e ++ default [] (option_map vars s) ++ default [] (option_map vars r)
  | GArray t _ => vars t
  end.

Definition name_lt (names : Names) (t t' : GTy) : Prop := String.compare (qualname names t) (qualname names t') = Lt.

(** The types that annotations and substitutions build, below generators and
    arrays, which stand only at the top of an annotation.  The classes made for
    a specialization and for a tuple have no variables left. *)
Inductive proper (names : Names) : GTy -> Prop :=
| proper_var v : proper names (GVar v)
| proper_name n : proper names (GName n)
| proper_spec b l : Forall (proper names) l -> proper names (GSpec b l)
| proper_mono b l : Forall (proper names) l -> List.flat_map vars l = [] -> proper names (GMono b l)
| proper_callable l r : Forall (proper names) l -> proper names r -> proper names (GCallable l r)
| proper_closure l r : Forall (proper names) l -> proper names r -> proper names (GClosure l r)
| proper_tuple l : Forall (proper names) l -> proper names (GTuple l)
| proper_backing l : Forall (proper names) l -> List.flat_map vars l = [] -> proper names (GBacking l)
| proper_union l : Forall (proper names) l -> Forall nonunion l -> StronglySorted (name_lt names) l -> l <> [] -> proper names (GUnion l).

(** No second object for a class or a tuple, no union of a single member. *)
Inductive normal : GTy -> Prop :=
| normal_var v : normal (GVar v)
| normal_name n : normal (GName n)
| normal_spec b l : Forall normal l -> normal (GSpec b l)
| normal_callable l r : Forall normal l -> normal r -> normal (GCallable l r)
| normal_closure l r : Forall normal l -> normal r -> normal (GClosure l r)
| normal_tuple l : Forall normal l -> normal (GTuple l)
| normal_union l : Forall normal l -> Forall nonunion l -> (2 <= length l)%nat -> normal (GUnion l).

Record distinct_names (names : Names) : Prop := {
  var_ident v : object_name (var_qualname names v);
  name_ident n : object_name (name_qualname names n);
  var_inj v v' : var_qualname names v = var_qualname names v' -> v = v';
  name_inj n n' : name_qualname names n = name_qualname names n' -> n = n';
  var_not_name v n : var_qualname names v <> name_qualname names n;
}.

Lemma plain_split x : forall y r s, plain x = true -> plain y = true -> starts_delimited r = true -> starts_delimited s = true ->
  x +:+ r = y +:+ s -> x = y /\ r = s.
Proof.
  induction x as [|c x IH]; intros [|d y] r s Hx Hy Hr Hs E; rewrite ?append_cons in E; cbn [plain] in *.
  - done.
  - change ("" +:+ r) with r in E. subst r. apply andb_prop in Hy as [Hd _]. cbn in Hr. by rewrite Hr in Hd.
  - change ("" +:+ s) with s in E. subst s. apply andb_prop in Hx as [Hc _]. cbn in Hs. by rewrite Hs in Hc.
  - injection E as -> E. apply andb_prop in Hx as [_ Hx], Hy as [_ Hy]. destruct (IH y r s Hx Hy Hr Hs E) as [-> ->]. done.
Qed.

Section injectivity.
Context (names : Names) (Hn : distinct_names names).
Implicit Types (t : GTy) (l : list GTy) (r s : string).

(** What may follow a type inside another one: an atom is followed by a comma, a
    bracket that closes, or a bar, a union by one of the first two. *)
Definition after_atom (s : string) : bool := match s with "" => true | String c _ => bool_decide (c ∈ [","; "]"; "|"]%char) end.
Definition after_type (s : string) : bool := match s with "" => true | String c _ => bool_decide (c ∈ [","; "]"]%char) end.

Definition atom_readable t : Prop := nonunion t -> normal t -> forall t' r s, nonunion t' -> normal t' ->
  after_atom r = true -> after_atom s = true -> qualname names t +:+ r = qualname names t' +:+ s -> t = t' /\ r = s.

Definition readable t : Prop := normal t -> forall t' r s, normal t' ->
  after_type r = true -> after_type s = true -> qualname names t +:+ r = qualname names t' +:+ s -> t = t' /\ r = s.

Lemma after_atom_delimited s : after_atom s = true -> starts_delimited s = true.
Proof.
  destruct s as [|c s]; [done|]. cbn. intros H%bool_decide_eq_true. unfold delimiter. apply bool_decide_eq_true.
  rewrite !elem_of_cons in *. tauto.
Qed.

Lemma after_type_atom s : after_type s = true -> after_atom s = true.
Proof. destruct s as [|c s]; [done|]. cbn. rewrite !bool_decide_eq_true, !elem_of_cons. tauto. Qed.

(** The head of an atom's name and what follows it. *)
Definition head_of t : string :=
  match t with
  | GVar v => var_qualname names v
  | GName n | GSpec n _ | GMono n _ => name_qualname names n
  | GCallable _ _ => "Callable"
  | GClosure _ _ => "Closure"
  | _ => "tuple"
  end.

Definition tail_of t : string :=
  match t with
  | GSpec _ l | GTuple l => "[" +:+ String.concat "," (map (qualname names) l) +:+ "]"
  | GCallable l r | GClosure l r => "[[" +:+ String.concat "," (map (qualname names) l) +:+ "]," +:+ qualname names r +:+ "]"
  | _ => ""
  end.

Lemma head_tail t : nonunion t -> normal t -> qualname names t = head_of t +:+ tail_of t /\ plain (head_of t) = true /\ head_of t <> "" /\
  (head_of t ∈ ["Callable"; "Closure"; "tuple"] \/ exists n, head_of t = var_qualname names n \/ head_of t = name_qualname names n).
Proof.
  intros Hu Ht. destruct Ht as [v|n|b l Hl|l r Hl Hr|l r Hl Hr|l Hl|l]; try done; cbn [qualname head_of tail_of];
    rewrite ?append_empty, ?append_assoc; (split; [done|]).
  - destruct (var_ident names Hn v) as (H1 & H2 & _). eauto 6.
  - destruct (name_ident names Hn n) as (H1 & H2 & _). eauto 6.
  - destruct (name_ident names Hn b) as (H1 & H2 & _). eauto 6.
  - split_and!; [done|done|]. left. left.
  - split_and!; [done|done|]. left. right. left.
  - split_and!; [done|done|]. left. right. right. left.
Qed.

Lemma tail_delimited t : starts_delimited (tail_of t) = true.
Proof. by destruct t. Qed.

Lemma delimited_app a b : starts_delimited a = true -> starts_delimited b = true -> starts_delimited (a +:+ b) = true.
Proof. by destruct a. Qed.

(** A name is not empty and does not begin with a delimiter. *)
Lemma qualname_head t : normal t -> exists c s, qualname names t = String c s /\ delimiter c = false.
Proof.
  assert (Hatom : forall t, nonunion t -> normal t -> exists c s, qualname names t = String c s /\ delimiter c = false).
  { intros u Hu Ht. destruct (head_tail u Hu Ht) as (-> & Hp & Hne & _). destruct (head_of u) as [|c s]; [done|].
    cbn [plain] in Hp. apply andb_prop in Hp as [Hc%negb_true_iff _]. rewrite append_cons. eauto. }
  intros Ht. destruct t as [| | | | | | | | | |ms]; try by apply Hatom.
  inversion Ht as [| | | | | |? Hl Hu Hlen]; subst. destruct ms as [|m ms]; [simpl in Hlen; lia|].
  apply Forall_cons in Hl as [Hm _], Hu as [Hum _]. destruct (Hatom m Hum Hm) as (c & s & E & Hc). cbn [qualname map].
  destruct ms as [|m' ms]; cbn [String.concat map]; rewrite E; [eauto|]. rewrite append_cons. eauto.
Qed.

Lemma commas_readable l : Forall readable l -> Forall (normal) l -> forall l' r s, Forall (normal) l' ->
  String.concat "," (map (qualname names) l) +:+ "]" +:+ r = String.concat "," (map (qualname names) l') +:+ "]" +:+ s -> l = l' /\ r = s.
Proof.
  assert (Hcons : forall t l x, String.concat "," (map (qualname names) (t :: l)) +:+ "]" +:+ x =
    qualname names t +:+ match l with [] => "]" +:+ x | _ => "," +:+ String.concat "," (map (qualname names) l) +:+ "]" +:+ x end).
  { intros t [|t' k] x; [done|]. cbn [map String.concat]. by rewrite !append_assoc. }
  assert (Hrest : forall l x, after_type (match l with [] => "]" +:+ x | _ => "," +:+ String.concat "," (map (qualname names) l) +:+ "]" +:+ x end) = true)
    by by intros [].
  induction 1 as [|t l Ht _ IH]; intros Hl [|t' l'] r s Hl' E.
  - by injection E.
  - rewrite Hcons in E. apply Forall_cons in Hl' as [Ht' _]. destruct (qualname_head t' Ht') as (c & x & E' & Hc). rewrite E' in E.
    cbn in E. injection E as <- _. done.
  - rewrite Hcons in E. apply Forall_cons in Hl as [Ht' _]. destruct (qualname_head t Ht') as (c & x & E' & Hc). rewrite E' in E.
    cbn in E. injection E as -> _. done.
  - rewrite !Hcons in E. apply Forall_cons in Hl as [Hnt Hl], Hl' as [Hnt' Hl'].
    destruct (Ht Hnt t' _ _ Hnt' (Hrest l r) (Hrest l' s) E) as [<- E2].
    destruct l as [|u l], l' as [|u' l']; [by injection E2|done|done|]. injection E2 as E2. destruct (IH Hl (u' :: l') r s Hl' E2) as [<- <-]. done.
Qed.

Lemma atom_split t t' r s : nonunion t -> nonunion t' -> normal t -> normal t' ->
  after_atom r = true -> after_atom s = true -> qualname names t +:+ r = qualname names t' +:+ s ->
  head_of t = head_of t' /\ tail_of t +:+ r = tail_of t' +:+ s.
Proof.
  intros Hu Hu' Ht Ht' Hr%after_atom_delimited Hs%after_atom_delimited E. destruct (head_tail t Hu Ht) as (E1 & Hp & _), (head_tail t' Hu' Ht') as (E2 & Hp' & _).
  rewrite E1, E2, !append_assoc in E. apply plain_split in E; [done|done|done|..]; (apply delimited_app; [apply tail_delimited|done]).
Qed.

Lemma var_reserved v : var_qualname names v ∉ ["Callable"; "Closure"; "tuple"].
Proof. apply (var_ident names Hn v). Qed.

Lemma name_reserved n : name_qualname names n ∉ ["Callable"; "Closure"; "tuple"].
Proof. apply (name_ident names Hn n). Qed.

(** A bracketed argument list after the same head. *)
Lemma bracket_split l l' r s : Forall readable l -> Forall (normal) l -> Forall (normal) l' ->
  ("[" +:+ String.concat "," (map (qualname names) l) +:+ "]") +:+ r = ("[" +:+ String.concat "," (map (qualname names) l') +:+ "]") +:+ s -> l = l' /\ r = s.
Proof.
  intros Hl Hn1 Hn2 E. rewrite !append_assoc in E. change ("[" +:+ ?x) with (String "[" x) in E. injection E as E.
  by apply (commas_readable l Hl Hn1) in E.
Qed.

(** The signature of a callable or closure. *)
Lemma signature_split l l' ret ret' r s : Forall readable l -> readable ret -> Forall (normal) l -> Forall (normal) l' ->
  normal ret -> normal ret' ->
  ("[[" +:+ String.concat "," (map (qualname names) l) +:+ "]," +:+ qualname names ret +:+ "]") +:+ r =
  ("[[" +:+ String.concat "," (map (qualname names) l') +:+ "]," +:+ qualname names ret' +:+ "]") +:+ s -> l = l' /\ ret = ret' /\ r = s.
Proof.
  intros Hl Hr Hn1 Hn2 Hn3 Hn4 E. rewrite !append_assoc in E. change ("[[" +:+ ?x) with (String "[" (String "[" x)) in E. injection E as E.
  change ("]," +:+ ?x) with ("]" +:+ ("," +:+ x)) in E. apply (commas_readable l Hl Hn1) in E as [-> E]; [|done].
  change ("," +:+ ?x) with (String "," x) in E. injection E as E. apply (Hr Hn3) in E as [-> E]; [|done..].
  change ("]" +:+ ?x) with (String "]" x) in E. by injection E as E.
Qed.

(** Heads of different kinds differ. *)
Ltac head_clash Hn := exfalso; match goal with
  | H : var_qualname _ ?v = name_qualname _ ?n |- _ => by destruct (var_not_name _ Hn v n)
  | H : name_qualname _ ?n = var_qualname _ ?v |- _ => by destruct (var_not_name _ Hn v n)
  | H : var_qualname _ ?v = _ |- _ => apply (var_reserved v); rewrite H, !elem_of_cons; tauto
  | H : _ = var_qualname _ ?v |- _ => apply (var_reserved v); rewrite <- H, !elem_of_cons; tauto
  | H : name_qualname _ ?v = _ |- _ => apply (name_reserved v); rewrite H, !elem_of_cons; tauto
  | H : _ = name_qualname _ ?v |- _ => apply (name_reserved v); rewrite <- H, !elem_of_cons; tauto
  | H : @eq string _ _ |- _ => discriminate H
  end.

Lemma bracket_not_after r s : after_atom r = true -> r <> "[" +:+ s.
Proof.
  intros Hr ->. change ("[" +:+ s) with (String "[" s) in Hr. by vm_compute in Hr.
Qed.

Lemma atom_readable_step t : (forall l, (exists b, t = GSpec b l) \/ t = GTuple l -> Forall readable l) ->
  (forall l ret, t = GCallable l ret \/ t = GClosure l ret -> Forall readable l /\ readable ret) -> atom_readable t.
Proof.
  intros Hargs Hfun Hu Ht t' r s Hu' Ht' Hr Hs E. destruct (atom_split t t' r s Hu Hu' Ht Ht' Hr Hs E) as [Eh Et]. clear E.
  destruct Ht as [v|n|b l Hl|l ret Hl Hret|l ret Hl Hret|l Hl|l]; [| | | | | |done];
    destruct Ht' as [v'|n'|b' l' Hl'|l' ret' Hl' Hret'|l' ret' Hl' Hret'|l' Hl'|l']; try done; cbn [head_of tail_of] in Eh, Et; try head_clash Hn.
  - apply (var_inj names Hn) in Eh as <-. done.
  - apply (name_inj names Hn) in Eh as <-. done.
  - change ("" +:+ r) with r in Et. rewrite append_assoc in Et. by apply bracket_not_after in Et.
  - change ("" +:+ s) with s in Et. rewrite append_assoc in Et. by symmetry in Et; apply bracket_not_after in Et.
  - apply (name_inj names Hn) in Eh as <-. apply bracket_split in Et as [-> ->]; eauto.
  - destruct (Hfun l ret) as [H1 H2]; [by left|]. by apply signature_split in Et as (-> & -> & ->).
  - destruct (Hfun l ret) as [H1 H2]; [by right|]. by apply signature_split in Et as (-> & -> & ->).
  - apply bracket_split in Et as [-> ->]; eauto.
Qed.

Lemma bars_readable l : Forall atom_readable l -> Forall nonunion l -> Forall (normal) l -> l <> [] -> forall l' r s,
  Forall nonunion l' -> Forall (normal) l' -> l' <> [] -> after_type r = true -> after_type s = true ->
  String.concat "|" (map (qualname names) l) +:+ r = String.concat "|" (map (qualname names) l') +:+ s -> l = l' /\ r = s.
Proof.
  assert (Hcons : forall t l x, String.concat "|" (map (qualname names) (t :: l)) +:+ x =
    qualname names t +:+ match l with [] => x | _ => "|" +:+ String.concat "|" (map (qualname names) l) +:+ x end).
  { intros t [|t' k] x; [done|]. cbn [map String.concat]. by rewrite !append_assoc. }
  assert (Hrest : forall l x, after_type x = true -> after_atom (match l with [] => x | _ => "|" +:+ String.concat "|" (map (qualname names) l) +:+ x end) = true).
  { intros [|] x Hx; [by apply after_type_atom|done]. }
  assert (Hbar : forall x y, after_type x = true -> x <> "|" +:+ y) by (intros x y Hx ->; by vm_compute in Hx).
  induction 1 as [|t l Ht _ IH]; intros Hu Hl Hne [|t' l'] r s Hu' Hl' Hne' Hr Hs E; [done..|].
  rewrite !Hcons in E. apply Forall_cons in Hl as [Hnt Hl], Hl' as [Hnt' Hl'], Hu as [Hut Hu], Hu' as [Hut' Hu'].
  destruct (Ht Hut Hnt t' _ _ Hut' Hnt' (Hrest l r Hr) (Hrest l' s Hs) E) as [<- E2].
  destruct l as [|u l], l' as [|u' l']; [done|by apply Hbar in E2|by symmetry in E2; apply Hbar in E2|].
  change ("|" +:+ ?x) with (String "|" x) in E2. injection E2 as E2.
  destruct (IH Hu Hl ltac:(done) (u' :: l') r s Hu' Hl' ltac:(done) Hr Hs E2) as [<- <-]. done.
Qed.

Lemma members_name t : qualname names t = String.concat "|" (map (qualname names) (members_of t)).
Proof. by destruct t. Qed.

Lemma members_normal t : normal t -> Forall nonunion (members_of t) /\ Forall (normal) (members_of t) /\ members_of t <> [].
Proof. intros Ht. destruct Ht; cbn [members_of]; try (split_and!; [by repeat constructor|by repeat constructor|done]). split_and!; [done|done|]. intros ->. simpl in *. lia. Qed.

Lemma members_inj t t' : normal t -> normal t' -> members_of t = members_of t' -> t = t'.
Proof.
  assert (H : forall l t, normal (GUnion l) -> l <> [t]) by (intros l u Hl ->; inversion Hl; simpl in *; lia).
  intros Ht Ht' E. destruct t, t'; cbn [members_of] in E; try (by injection E); try (by exfalso; eapply H; [exact Ht|symmetry || idtac; exact E]);
    try (by exfalso; eapply H; [exact Ht'|symmetry; exact E]); try (by exfalso; eapply H; [exact Ht|exact E]); congruence.
Qed.

Lemma readable_step t : Forall atom_readable (members_of t) -> readable t.
Proof.
  intros Ha Ht t' r s Ht' Hr Hs E. rewrite (members_name t), (members_name t') in E.
  destruct (members_normal t Ht) as (H1 & H2 & H3), (members_normal t' Ht') as (H1' & H2' & H3').
  apply (bars_readable _ Ha) in E as [E ->]; [|done..]. split; [|done]. by apply members_inj.
Qed.

Lemma types_readable t : atom_readable t /\ readable t.
Proof.
  assert (Hstep : forall t, (nonunion t -> atom_readable t) -> nonunion t -> atom_readable t /\ readable t).
  { intros u H Hu. specialize (H Hu). split; [done|]. apply readable_step. destruct u; try done; by constructor. }
  assert (Hl : forall l, Forall (fun t => atom_readable t /\ readable t) l -> Forall readable l).
  { intros l H. eapply Forall_impl; [exact H|]. by intros u []. }
  induction t as [| |b l IH|b l IH|l r IH IHr|l r IH IHr|x e s r IHe IHs IHr|l IH|l IH|t n IH|l IH] using GTy_nested_ind;
    try (apply Hstep; [intros _; apply atom_readable_step|done]; [naive_solver|naive_solver]).
  split; [by intros []|]. apply readable_step. cbn [members_of]. eapply Forall_impl; [exact IH|]. by intros u [].
Qed.

(** The names by which types are interned tell them apart. *)
Lemma qualname_inj t t' : normal t -> normal t' -> qualname names t = qualname names t' -> t = t'.
Proof.
  intros Ht Ht' E. destruct (proj2 (types_readable t) Ht t' "" "" Ht') as [-> _]; [done..| |done]. by rewrite !append_empty.
Qed.

End injectivity.
