(* ===== verification/TypeTables.v ===== *)
(** * The tables of interned types ([discovery.py])

    [norm] forgets which of two objects a type is, [proper] and [known] say what
    the compiler's types look like, and [answers] is the contract of the
    [_get_or_create_*] functions: the tables stay consistent, they grow, and
    the object returned is the type that was asked for. *)

From stdpp Require Import sorting.
From Stdlib Require Import Ascii String Sorted.
From S2P Require Import Prelude Generics.

Local Open Scope string_scope.

(** ** Types up to the choice of object *)

Definition collapse (l : list GTy) : GTy := match l with [t] => t | _ => GUnion l end.

(** A specialization for its class, a tuple for its backing class, and the
    member for a union of one. *)
Fixpoint norm (t : GTy) : GTy :=
  match t with
  | GVar _ | GName _ => t
  | GSpec b l | GMono b l => GSpec b (map norm l)
  | GCallable l r => GCallable (map norm l) (norm r)
  | GClosure l r => GClosure (map norm l) (norm r)
  | GGenerator x e s r => GGenerator x (norm e) (option_map norm s) (option_map norm r)
  | GTuple l | GBacking l => GTuple (map norm l)
  | GArray t n => GArray (norm t) n
  | GUnion l => collapse (map norm l)
  end.

Lemma map_forall {A B} (f g : A -> B) l : Forall (fun x => f x = g x) l -> map f l = map g l.
Proof. induction 1 as [|x l H _ IH]; [done|]. simpl. by rewrite H, IH. Qed.

Lemma map_norm {B} (f : GTy -> B) l : Forall (fun t => f (norm t) = f t) l -> map f (map norm l) = map f l.
Proof. rewrite map_map. apply map_forall. Qed.

Lemma flat_map_norm {B} (f : GTy -> list B) l : Forall (fun t => f (norm t) = f t) l -> List.flat_map f (map norm l) = List.flat_map f l.
Proof. induction 1 as [|x l H _ IH]; [done|]. simpl. by rewrite H, IH. Qed.

Section normalization.
Context (names : Names).
Implicit Types (t : GTy) (l : list GTy).

Lemma qualname_collapse l : qualname names (collapse l) = String.concat "|" (map (qualname names) l).
Proof. by destruct l as [|t [|t' l]]. Qed.

Lemma vars_collapse l : vars (collapse l) = List.flat_map vars l.
Proof. destruct l as [|t [|t' l]]; [done| |done]. simpl. by rewrite app_nil_r. Qed.

Lemma qualname_norm t : qualname names (norm t) = qualname names t.
Proof.
  induction t using GTy_nested_ind; cbn [norm]; rewrite ?qualname_collapse; cbn [qualname]; rewrite ?map_norm by done; congruence.
Qed.

Lemma vars_norm t : vars (norm t) = vars t.
Proof.
  induction t as [| | | | | |x e s r IHe IHs IHr| | | |] using GTy_nested_ind; cbn [norm]; rewrite ?vars_collapse; cbn [vars]; rewrite ?flat_map_norm by done; try congruence.
  rewrite IHe. destruct s as [s|], r as [r|]; cbn [option_map default]; rewrite ?(IHs _ eq_refl), ?(IHr _ eq_refl); done.
Qed.

Lemma norm_nonunion t : nonunion t -> nonunion (norm t).
Proof. by destruct t. Qed.

Lemma norm_normal t : proper names t -> normal (norm t).
Proof.
  assert (Hl : forall l, Forall (fun t => proper names t -> normal (norm t)) l -> Forall (proper names) l -> Forall normal (map norm l)).
  { intros l IH H. apply Forall_fmap. induction IH; [constructor|]. apply Forall_cons in H as [? ?]. constructor; auto. }
  induction t using GTy_nested_ind; intros Ht; inversion Ht; subst; cbn [norm]; try (by constructor; auto).
  match goal with Hp : Forall (proper names) ?l, Hn : Forall nonunion ?l |- _ => apply Hl in Hp; [|done]; assert (Hu : Forall nonunion (map norm l))
    by (apply Forall_fmap; eapply Forall_impl; [exact Hn|]; apply norm_nonunion) end.
  destruct l as [|t [|t' l]]; [done|by eapply (Forall_inv (P := normal))|]. constructor; [done|done|simpl; lia].
Qed.

Lemma normal_idem t : normal t -> norm t = t.
Proof.
  assert (Hl : forall l, Forall (fun t => normal t -> norm t = t) l -> Forall normal l -> map norm l = l).
  { intros l IH H. induction IH; [done|]. apply Forall_cons in H as [? ?]. simpl. f_equal; auto. }
  induction t using GTy_nested_ind; intros Ht; inversion Ht; subst; cbn [norm]; rewrite ?Hl by done; rewrite ?IHt by done; try done.
  destruct l as [|? [|? ?]]; simpl in *; [lia|lia|done].
Qed.

Lemma proper_inj t t' : distinct_names names -> proper names t -> proper names t' -> qualname names t = qualname names t' -> norm t = norm t'.
Proof. intros Hn Ht%norm_normal Ht'%norm_normal E. apply (qualname_inj names Hn); [done|done|]. by rewrite !qualname_norm. Qed.

Lemma arg_key_inj t t' : distinct_names names -> proper names t -> proper names t' -> arg_key names t = arg_key names t' -> norm t = norm t'.
Proof.
  intros Hn Ht Ht' E. assert (Eq : qualname names t = qualname names t' \/ exists v v', t = GVar v /\ t' = GVar v').
  { destruct t, t'; cbn [arg_key] in E; try discriminate E; try (left; by apply (inj inr) in E). injection E as ->. eauto. }
  destruct Eq as [Eq|(v & v' & -> & ->)]; [by apply (proper_inj _ _ Hn)|]. by injection E as ->.
Qed.

Lemma arg_key_norm t t' : distinct_names names -> proper names t -> proper names t' -> norm t = norm t' -> nonunion t -> nonunion t' -> arg_key names t = arg_key names t'.
Proof.
  intros Hn Ht Ht' E Hu Hu'. assert (Eq : qualname names t = qualname names t') by (rewrite <- (qualname_norm t), E; apply qualname_norm).
  destruct t, t'; try done; cbn [arg_key]; try (by rewrite Eq); cbn [norm] in E; congruence.
Qed.

End normalization.

(** ** Unions: the operands in the order of their names *)

Lemma string_compare_trans s1 : forall s2 s3, String.compare s1 s2 = Lt -> String.compare s2 s3 = Lt -> String.compare s1 s3 = Lt.
Proof.
  induction s1 as [|a s1 IH]; intros [|b s2] [|c s3]; cbn [String.compare]; try done. unfold Ascii.compare.
  destruct (N.compare_spec (N_of_ascii a) (N_of_ascii b)), (N.compare_spec (N_of_ascii b) (N_of_ascii c)), (N.compare_spec (N_of_ascii a) (N_of_ascii c));
    try done; try lia; apply IH.
Qed.

Lemma string_compare_refl s : String.compare s s = Eq.
Proof. pose proof (String.compare_antisym s s) as E. by destruct (String.compare s s). Qed.

Section unions.
Context (names : Names).
Implicit Types (t : GTy) (l : list GTy).

#[export] Instance name_lt_trans : Transitive (name_lt names).
Proof. intros t1 t2 t3. apply string_compare_trans. Qed.

Lemma insert_by_name_elem t l x : x ∈ insert_by_name names t l <-> x = t \/ x ∈ l.
Proof.
  induction l as [|t' l IH]; simpl; [rewrite list_elem_of_singleton, elem_of_nil; tauto|].
  destruct (String.leb _ _); rewrite !elem_of_cons; [tauto|]. rewrite IH. tauto.
Qed.

Lemma insert_by_name_sorted t l : (forall x, x ∈ l -> qualname names x <> qualname names t) ->
  StronglySorted (name_lt names) l -> StronglySorted (name_lt names) (insert_by_name names t l).
Proof.
  induction l as [|t' l IH]; intros Hne Hs; simpl; [by repeat constructor|]. inversion Hs as [|? ? Hs' Ht']; subst.
  assert (H : qualname names t' <> qualname names t) by (apply Hne; left). unfold String.leb.
  destruct (String.compare (qualname names t) (qualname names t')) eqn:E.
  - by apply String.compare_eq_iff in E.
  - constructor; [done|]. constructor; [done|]. eapply Forall_impl; [exact Ht'|]. intros x Hx. by etransitivity.
  - constructor; [apply IH; [|done]; intros x Hx; apply Hne; by right|]. apply Forall_forall. intros x Hx.
    apply insert_by_name_elem in Hx as [->|Hx]; [|by eapply Forall_forall in Ht'].
    unfold name_lt. rewrite String.compare_antisym, E. done.
Qed.

Lemma deduped_from l : forall d, NoDup (dict_keys d) -> Forall (fun '(k, v) => k = qualname names v) d ->
  let r := foldl (fun d t => if dict_mem (qualname names t) d then d else dict_set (qualname names t) t d) d l in
  NoDup (dict_keys r) /\ Forall (fun '(k, v) => k = qualname names v) r /\
  (forall x, x ∈ map snd r -> x ∈ map snd d \/ x ∈ l) /\ (forall k, k ∈ dict_keys r <-> k ∈ dict_keys d \/ k ∈ map (qualname names) l).
Proof.
  induction l as [|t l IH]; intros d Hnd Hd; cbn [foldl map].
  - split_and!; [done|done|tauto|]. intros k. rewrite elem_of_nil. tauto.
  - assert (Hset : dict_mem (qualname names t) d = false -> dict_set (qualname names t) t d = (d ++ [(qualname names t, t)])%list).
    { clear. unfold dict_mem. induction d as [|[k v] d IH]; intros H; simpl in *; [done|]. destruct (bool_decide _); [done|]. by rewrite IH. }
    destruct (dict_mem (qualname names t) d) eqn:Em.
    + destruct (IH d Hnd Hd) as (H1 & H2 & H3 & H4). split_and!; [done|done| |].
      * intros x Hx. rewrite elem_of_cons. apply H3 in Hx. tauto.
      * intros k. rewrite H4, elem_of_cons. apply dict_mem_keys in Em. naive_solver.
    + assert (Hnd' : NoDup (dict_keys (dict_set (qualname names t) t d))) by auto with mpy. rewrite (Hset eq_refl) in *.
      destruct (IH (d ++ [(qualname names t, t)])%list Hnd') as (H1 & H2 & H3 & H4); [by apply Forall_app; split; [|repeat constructor]|].
      split_and!; [done|done| |].
      * intros x Hx%H3. rewrite map_app, elem_of_app in Hx. cbn [map] in Hx. rewrite list_elem_of_singleton in Hx. rewrite elem_of_cons. cbn [snd] in Hx. tauto.
      * intros k. rewrite H4. unfold dict_keys. rewrite map_app, elem_of_app. cbn [map fst]. rewrite list_elem_of_singleton, elem_of_cons. tauto.
Qed.

Lemma sort_deduped (d : dict GTy) : NoDup (dict_keys d) -> Forall (fun '(k, v) => k = qualname names v) d ->
  StronglySorted (name_lt names) (foldr (insert_by_name names) [] (map snd d)) /\ (forall x, x ∈ foldr (insert_by_name names) [] (map snd d) <-> x ∈ map snd d).
Proof.
  induction d as [|[k t] d IH]; intros Hnd Hd; simpl; [split; [constructor|done]|].
  apply NoDup_cons in Hnd as [Hk Hnd]. apply Forall_cons in Hd as [-> Hd]. destruct (IH Hnd Hd) as [H1 H2]. split.
  - apply insert_by_name_sorted; [|done]. intros x Hx%H2 E. apply Hk. apply list_elem_of_fmap in Hx as ([k' x'] & -> & Hx). cbn in E.
    rewrite <- E. rewrite Forall_forall in Hd. specialize (Hd _ Hx). cbn in Hd. subst k'. apply list_elem_of_fmap. by exists (qualname names x', x').
  - intros x. rewrite insert_by_name_elem, H2, elem_of_cons. tauto.
Qed.

(** The members of a union: sorted, drawn from the operands, all of their names. *)
Lemma ordered_spec operands : StronglySorted (name_lt names) (ordered_operands names operands) /\
  (forall x, x ∈ ordered_operands names operands -> x ∈ flattened operands) /\
  (forall k, k ∈ map (qualname names) (ordered_operands names operands) <-> k ∈ map (qualname names) (flattened operands)).
Proof.
  unfold ordered_operands, deduped. destruct (deduped_from (flattened operands) []) as (H1 & H2 & H3 & H4); [constructor|constructor|].
  destruct (sort_deduped _ H1 H2) as [H5 H6]. split_and!; [done| |].
  - intros x Hx%H6. apply H3 in Hx as [[]%elem_of_nil|Hx]. done.
  - intros k. transitivity (k ∈ dict_keys (foldl (fun d t => if dict_mem (qualname names t) d then d else dict_set (qualname names t) t d) [] (flattened operands))).
    + rewrite list_elem_of_fmap. split.
      * intros (x & -> & Hx%H6). apply list_elem_of_fmap in Hx as ([k x'] & -> & Hx). rewrite Forall_forall in H2. specialize (H2 _ Hx). cbn in H2. subst k.
        apply list_elem_of_fmap. by exists (qualname names x', x').
      * intros Hk. apply list_elem_of_fmap in Hk as ([k' x] & -> & Hx). exists x. rewrite Forall_forall in H2. specialize (H2 _ Hx). cbn in H2. split; [done|].
        apply H6. apply list_elem_of_fmap. by exists (k', x).
    + rewrite H4. cbn. rewrite elem_of_nil. tauto.
Qed.

Definition string_lt (s s' : string) : Prop := String.compare s s' = Lt.

Lemma sorted_names l : StronglySorted (name_lt names) l -> StronglySorted string_lt (map (qualname names) l) /\ NoDup (map (qualname names) l).
Proof.
  induction 1 as [|t l Hs [IH1 IH2] Ht]; simpl; [split; constructor|].
  assert (H : Forall (string_lt (qualname names t)) (map (qualname names) l)) by (by apply Forall_fmap). split; constructor; try done.
  intros Hin. rewrite Forall_forall in H. specialize (H _ Hin). unfold string_lt in H. by rewrite string_compare_refl in H.
Qed.

(** Unions are canonical: the names of the operands settle the names of the members. *)
Lemma ordered_canonical l l' :
  (forall k, k ∈ map (qualname names) (flattened l) <-> k ∈ map (qualname names) (flattened l')) ->
  map (qualname names) (ordered_operands names l) = map (qualname names) (ordered_operands names l').
Proof.
  intros H. destruct (ordered_spec l) as (Hs & _ & Hk), (ordered_spec l') as (Hs' & _ & Hk').
  destruct (sorted_names _ Hs) as [H1 H2], (sorted_names _ Hs') as [H1' H2'].
  assert (AntiSymm (=) string_lt).
  { intros a b Ha Hb. unfold string_lt in *. rewrite String.compare_antisym, Hb in Ha. done. }
  apply (StronglySorted_unique string_lt); [done|done|]. apply NoDup_Permutation; [done|done|]. intros k. by rewrite Hk, Hk', H.
Qed.

End unions.

Section proper_lemmas.
Context (names : Names).
Implicit Types (t : GTy) (l : list GTy).

Lemma proper_members t : proper names t -> Forall (proper names) (members_of t) /\ Forall nonunion (members_of t) /\ members_of t <> [].
Proof. intros Ht. destruct Ht; cbn [members_of]; try done; split_and!; try done; apply Forall_singleton; try done; by constructor. Qed.

Lemma norm_members t : proper names t -> members_of (norm t) = map norm (members_of t).
Proof.
  intros Ht. destruct Ht; cbn [members_of norm map]; try done. destruct l as [|m [|m' l]]; try done.
  match goal with H : Forall nonunion _ |- _ => apply Forall_cons in H as [Hm%norm_nonunion _] end. cbn [map collapse]. by destruct (norm m).
Qed.

Lemma flattened_proper l : Forall (proper names) l -> Forall (proper names) (flattened l) /\ Forall nonunion (flattened l).
Proof.
  unfold flattened. induction 1 as [|t l Ht _ [IH1 IH2]]; cbn [map List.concat]; [done|]. destruct (proper_members t Ht) as (H1 & H2 & _).
  by rewrite !Forall_app.
Qed.

Lemma flattened_norm l : Forall (proper names) l -> flattened (map norm l) = map norm (flattened l).
Proof. unfold flattened. induction 1 as [|t l Ht _ IH]; [done|]. cbn [map List.concat]. by rewrite norm_members, map_app, IH. Qed.

Lemma flattened_nonempty l : Forall (proper names) l -> l <> [] -> flattened l <> [].
Proof.
  intros H Hne. destruct H as [|t l Ht _]; [done|]. unfold flattened. cbn [map List.concat]. destruct (proper_members t Ht) as (_ & _ & Hm). by destruct (members_of t).
Qed.

Lemma ordered_proper l : Forall (proper names) l -> Forall (proper names) (ordered_operands names l) /\ Forall nonunion (ordered_operands names l).
Proof.
  intros [H1 H2]%flattened_proper. destruct (ordered_spec names l) as (_ & H & _). rewrite !Forall_forall in *. auto.
Qed.

Lemma ordered_nonempty l : Forall (proper names) l -> l <> [] -> ordered_operands names l <> [].
Proof.
  intros Hl Hne E. destruct (ordered_spec names l) as (_ & _ & H). rewrite E in H. pose proof (flattened_nonempty l Hl Hne) as Hf.
  destruct (flattened l) as [|x fl]; [done|]. apply (not_elem_of_nil (qualname names x)), H. cbn [map]. left.
Qed.

(** Lists of types in normal form are told apart by their names. *)
Lemma names_inj l : distinct_names names -> Forall normal l -> forall l', Forall normal l' -> map (qualname names) l = map (qualname names) l' -> l = l'.
Proof.
  intros Hn. induction 1 as [|t l Ht _ IH]; intros [|t' l'] Hl' E; try done. apply Forall_cons in Hl' as [Ht' Hl'].
  cbn [map] in E. assert (E1 := f_equal (hd "") E). assert (E2 := f_equal (@tl string) E). cbn [hd tl] in E1, E2.
  f_equal; [by apply (qualname_inj names Hn)|by apply IH].
Qed.

Lemma ordered_norm l : distinct_names names -> Forall (proper names) l -> ordered_operands names (map norm l) = map norm (ordered_operands names l).
Proof.
  intros Hn Hl. assert (Hq : forall l, map (qualname names) (map norm l) = map (qualname names) l).
  { intros k. apply map_norm, Forall_true. intros t. apply qualname_norm. }
  assert (Hnn : forall l, Forall (proper names) l -> Forall normal (map norm l)).
  { intros k Hk. apply Forall_fmap. eapply Forall_impl; [exact Hk|]. apply norm_normal. }
  apply names_inj; [done| |apply Hnn, ordered_proper, Hl|].
  - destruct (ordered_spec names (map norm l)) as (_ & H & _). rewrite flattened_norm in H by done.
    apply Forall_forall. intros x Hx%H. pose proof (Hnn _ (proj1 (flattened_proper l Hl))) as Hf. by eapply Forall_forall in Hf.
  - rewrite Hq. apply ordered_canonical. intros k. by rewrite flattened_norm, Hq.
Qed.

End proper_lemmas.

(** The union of types in normal form. *)
Definition union_of (names : Names) (l : list GTy) : GTy := collapse (ordered_operands names l).

(** ** The tables of interned types *)

(** A type whose composite parts are the objects of the tables. *)
Inductive known (names : Names) (d : Discovery) : GTy -> Prop :=
| known_var v : known names d (GVar v)
| known_name n : known names d (GName n)
| known_spec b l : Forall (known names d) l -> specializations d !! (b, map (arg_key names) l) = Some (GSpec b l) -> known names d (GSpec b l)
| known_mono b l : known names d (GSpec b l) -> known names d (GMono b l)
| known_callable l r : Forall (known names d) l -> known names d r ->
    callables d !! qualname names (GCallable l r) = Some (GCallable l r) -> known names d (GCallable l r)
| known_closure l r : Forall (known names d) l -> known names d r ->
    closures d !! qualname names (GClosure l r) = Some (GClosure l r) -> known names d (GClosure l r)
| known_tuple l : Forall (known names d) l -> tuples d !! qualname names (GTuple l) = Some (GTuple l) -> known names d (GTuple l)
| known_backing l : known names d (GTuple l) -> l ∈ backings d -> known names d (GBacking l)
| known_union l : Forall (known names d) l -> unions d !! qualname names (GUnion l) = Some (GUnion l) -> known names d (GUnion l).

Section known_ind.
Context (names : Names) (d : Discovery) (P : GTy -> Prop).
Context (Hvar : forall v, P (GVar v)) (Hname : forall n, P (GName n)).
Context (Hspec : forall b l, Forall P l -> specializations d !! (b, map (arg_key names) l) = Some (GSpec b l) -> P (GSpec b l)) (Hmono : forall b l, P (GSpec b l) -> P (GMono b l)).
Context (Hcallable : forall l r, Forall P l -> P r -> callables d !! qualname names (GCallable l r) = Some (GCallable l r) -> P (GCallable l r)).
Context (Hclosure : forall l r, Forall P l -> P r -> closures d !! qualname names (GClosure l r) = Some (GClosure l r) -> P (GClosure l r)).
Context (Htuple : forall l, Forall P l -> tuples d !! qualname names (GTuple l) = Some (GTuple l) -> P (GTuple l)) (Hbacking : forall l, P (GTuple l) -> l ∈ backings d -> P (GBacking l)).
Context (Hunion : forall l, Forall P l -> unions d !! qualname names (GUnion l) = Some (GUnion l) -> P (GUnion l)).

Fixpoint known_nested_ind t (H : known names d t) : P t :=
  let all l (H : Forall (known names d) l) : Forall P l :=
    (fix all l (H : Forall (known names d) l) : Forall P l :=
      match H with List.Forall_nil _ => Forall_nil_2 P | @List.Forall_cons _ _ x l Hx Hl => Forall_cons_2 P x l (known_nested_ind x Hx) (all l Hl) end) l H in
  match H in known _ _ t return P t with
  | known_var _ _ v => Hvar v
  | known_name _ _ n => Hname n
  | known_spec _ _ b l Hl E => Hspec b l (all l Hl) E
  | known_mono _ _ b l H => Hmono b l (known_nested_ind _ H)
  | known_callable _ _ l r Hl Hr E => Hcallable l r (all l Hl) (known_nested_ind r Hr) E
  | known_closure _ _ l r Hl Hr E => Hclosure l r (all l Hl) (known_nested_ind r Hr) E
  | known_tuple _ _ l Hl E => Htuple l (all l Hl) E
  | known_backing _ _ l H E => Hbacking l (known_nested_ind _ H) E
  | known_union _ _ l Hl E => Hunion l (all l Hl) E
  end.
End known_ind.

Record extends (d d' : Discovery) : Prop := {
  extends_specializations : specializations d ⊆ specializations d';
  extends_callables : callables d ⊆ callables d';
  extends_closures : closures d ⊆ closures d';
  extends_tuples : tuples d ⊆ tuples d';
  extends_unions : unions d ⊆ unions d';
  extends_backings : backings d ⊆ backings d';
}.

#[export] Instance extends_preorder : PreOrder extends.
Proof. split; [by intros d; split|]. intros d1 d2 d3 [] []; split; by etransitivity. Qed.

Lemma known_extends names d d' t : extends d d' -> known names d t -> known names d' t.
Proof.
  intros [H1 H2 H3 H4 H5 H6]. induction 1 using known_nested_ind; constructor; try done; first [by eapply lookup_weaken|by apply H6].
Qed.

Record tables_ok (names : Names) (d : Discovery) : Prop := {
  specializations_ok k v : specializations d !! k = Some v -> proper names v /\ known names d v /\ exists b l, v = GSpec b l /\ k = (b, map (arg_key names) l);
  callables_ok k v : callables d !! k = Some v -> proper names v /\ known names d v /\ k = qualname names v /\ exists l r, v = GCallable l r;
  closures_ok k v : closures d !! k = Some v -> proper names v /\ known names d v /\ k = qualname names v /\ exists l r, v = GClosure l r;
  tuples_ok k v : tuples d !! k = Some v -> proper names v /\ known names d v /\ k = qualname names v /\ exists l, v = GTuple l;
  unions_ok k v : unions d !! k = Some v -> proper names v /\ known names d v /\ k = qualname names v /\ exists l, v = GUnion l;
}.

Lemma no_types_ok names : tables_ok names no_types.
Proof. by split; intros k v; cbn; rewrite lookup_empty. Qed.

(** What a table answers: the invariant is kept, and the type is the one asked for. *)
Definition answers (names : Names) (d : Discovery) (want : GTy) (answer : GTy * Discovery) : Prop :=
  tables_ok names answer.2 /\ extends d answer.2 /\ proper names answer.1 /\ known names answer.2 answer.1 /\ norm answer.1 = want.

Section tables.
Context (names : Names) (Hn : distinct_names names) (d : Discovery) (Hd : tables_ok names d).
Implicit Types (t r : GTy) (l args : list GTy).

Definition usable t : Prop := proper names t /\ known names d t.

Lemma usable_split l : Forall usable l <-> Forall (proper names) l /\ Forall (known names d) l.
Proof. apply Forall_and. Qed.

Lemma arg_keys_inj l : Forall (proper names) l -> forall l', Forall (proper names) l' -> map (arg_key names) l = map (arg_key names) l' -> map norm l = map norm l'.
Proof.
  induction 1 as [|t l Ht _ IH]; intros [|t' l'] Hl' E; try done. apply Forall_cons in Hl' as [Ht' Hl']. cbn [map] in E. injection E as E1 E2.
  cbn [map]. f_equal; [by apply (arg_key_inj names)|by apply IH].
Qed.

Lemma entry_extends d' (Q : GTy -> Prop) v : extends d d' -> proper names v /\ known names d v /\ Q v -> proper names v /\ known names d' v /\ Q v.
Proof. intros Hext (H1 & H2 & H3). split_and!; [done|by eapply known_extends|done]. Qed.

(** A table after a new entry: the old entries are unharmed. *)
Ltac keep_entries Hext := split; cbn [specializations callables closures tuples unions backings fst snd]; intros k v Hv;
  lazymatch type of Hv with
  | <[_ := _]> _ !! _ = _ => apply lookup_insert_Some in Hv as [[<- <-]|[_ Hv]]
  | _ => idtac
  end;
  try first
    [apply (entry_extends _ (fun v => exists b l, v = GSpec b l /\ _) _ Hext), (specializations_ok _ _ Hd _ _ Hv)
    |apply (entry_extends _ (fun v => _ = qualname names v /\ exists l r, v = GCallable l r) _ Hext), (callables_ok _ _ Hd _ _ Hv)
    |apply (entry_extends _ (fun v => _ = qualname names v /\ exists l r, v = GClosure l r) _ Hext), (closures_ok _ _ Hd _ _ Hv)
    |apply (entry_extends _ (fun v => _ = qualname names v /\ exists l, v = GTuple l) _ Hext), (tuples_ok _ _ Hd _ _ Hv)
    |apply (entry_extends _ (fun v => _ = qualname names v /\ exists l, v = GUnion l) _ Hext), (unions_ok _ _ Hd _ _ Hv)].

Ltac extend_table := split; cbn [specializations callables closures tuples unions backings]; first [done|by apply insert_subseteq].

Lemma get_or_create_specialization_ok b args : Forall usable args ->
  answers names d (GSpec b (map norm args)) (get_or_create_specialization names b args d) /\
  exists l, (get_or_create_specialization names b args d).1 = GSpec b l.
Proof.
  intros [Hp Hk]%usable_split. unfold get_or_create_specialization. destruct (specializations d !! _) as [spec|] eqn:E.
  - destruct (specializations_ok _ _ Hd _ _ E) as (H1 & H2 & b' & l & -> & [= <- E']). split; [|by exists l]. split_and!; try done.
    inversion H1; subst. cbn [norm fst]. f_equal. by apply arg_keys_inj.
  - split; [|by exists args]. match goal with |- answers _ _ _ (_, ?d') => assert (Hext : extends d d') by extend_table end.
    match type of Hext with extends _ ?d' => assert (Hnew : known names d' (GSpec b args)) end.
    { constructor; [eapply Forall_impl; [exact Hk|]; intros t; by apply known_extends|apply lookup_insert_eq]. }
    split_and!; [|done|by constructor|done|done]. keep_entries Hext. split_and!; [by constructor|done|eauto].
Qed.

Lemma get_or_create_callable_type_ok args r : Forall usable args -> usable r ->
  answers names d (GCallable (map norm args) (norm r)) (get_or_create_callable_type names args r d).
Proof.
  intros [Hp Hk]%usable_split [Hr Hr']. unfold get_or_create_callable_type. destruct (callables d !! _) as [t|] eqn:E.
  - destruct (callables_ok _ _ Hd _ _ E) as (H1 & H2 & H3 & _). split_and!; try done.
    change (norm t = norm (GCallable args r)). by apply (proper_inj names); [done|done|by constructor|].
  - match goal with |- answers _ _ _ (_, ?d') => assert (Hext : extends d d') by extend_table end.
    match type of Hext with extends _ ?d' => assert (Hnew : known names d' (GCallable args r)) end.
    { constructor; [eapply Forall_impl; [exact Hk|]; intros t; by apply known_extends|by eapply known_extends|apply lookup_insert_eq]. }
    split_and!; [|done|by constructor|done|done]. keep_entries Hext. split_and!; [by constructor|done|done|eauto].
Qed.

Lemma get_or_create_closure_type_ok args r : Forall usable args -> usable r ->
  answers names d (GClosure (map norm args) (norm r)) (get_or_create_closure_type names args r d).
Proof.
  intros [Hp Hk]%usable_split [Hr Hr']. unfold get_or_create_closure_type. destruct (closures d !! _) as [t|] eqn:E.
  - destruct (closures_ok _ _ Hd _ _ E) as (H1 & H2 & H3 & _). split_and!; try done.
    change (norm t = norm (GClosure args r)). by apply (proper_inj names); [done|done|by constructor|].
  - match goal with |- answers _ _ _ (_, ?d') => assert (Hext : extends d d') by extend_table end.
    match type of Hext with extends _ ?d' => assert (Hnew : known names d' (GClosure args r)) end.
    { constructor; [eapply Forall_impl; [exact Hk|]; intros t; by apply known_extends|by eapply known_extends|apply lookup_insert_eq]. }
    split_and!; [|done|by constructor|done|done]. keep_entries Hext. split_and!; [by constructor|done|done|eauto].
Qed.

Lemma get_or_create_tuple_type_ok args : Forall usable args ->
  answers names d (GTuple (map norm args)) (get_or_create_tuple_type names args d).
Proof.
  intros [Hp Hk]%usable_split. unfold get_or_create_tuple_type. destruct (tuples d !! _) as [t|] eqn:E.
  - destruct (tuples_ok _ _ Hd _ _ E) as (H1 & H2 & H3 & _). split_and!; try done.
    change (norm t = norm (GTuple args)). by apply (proper_inj names); [done|done|by constructor|].
  - match goal with |- answers _ _ _ (_, ?d') => assert (Hext : extends d d') by extend_table end.
    match type of Hext with extends _ ?d' => assert (Hnew : known names d' (GTuple args)) end.
    { constructor; [eapply Forall_impl; [exact Hk|]; intros t; by apply known_extends|apply lookup_insert_eq]. }
    split_and!; [|done|by constructor|done|done]. keep_entries Hext. split_and!; [by constructor|done|done|eauto].
Qed.

Lemma ordered_known args : Forall (known names d) args -> Forall (known names d) (ordered_operands names args).
Proof.
  intros H. assert (Hf : Forall (known names d) (flattened args)).
  { unfold flattened. induction H as [|t l Ht _ IH]; cbn [map List.concat]; [done|]. apply Forall_app. split; [|done].
    destruct Ht; cbn [members_of]; try done; apply Forall_singleton; by constructor. }
  destruct (ordered_spec names args) as (_ & Ho & _). rewrite Forall_forall in *. auto.
Qed.

Lemma get_or_create_union_ok args : Forall usable args -> args <> [] ->
  answers names d (union_of names (map norm args)) (get_or_create_union names args d).
Proof.
  intros [Hp Hk]%usable_split Hne. destruct (ordered_proper names args Hp) as [Hop Hou]. pose proof (ordered_nonempty names args Hp Hne) as Hone.
  assert (Hu : proper names (GUnion (ordered_operands names args))) by (constructor; [done|done|apply ordered_spec|done]).
  assert (Enorm : norm (GUnion (ordered_operands names args)) = union_of names (map norm args)) by (unfold union_of; by rewrite ordered_norm).
  unfold get_or_create_union. destruct (unions d !! _) as [t|] eqn:E.
  - destruct (unions_ok _ _ Hd _ _ E) as (H1 & H2 & H3 & _). split_and!; try done. rewrite <- Enorm. by apply (proper_inj names).
  - match goal with |- answers _ _ _ (_, ?d') => assert (Hext : extends d d') by extend_table end.
    match type of Hext with extends _ ?d' => assert (Hnew : known names d' (GUnion (ordered_operands names args))) end.
    { constructor; [eapply Forall_impl; [by apply ordered_known|]; intros t; by apply known_extends|apply lookup_insert_eq]. }
    split_and!; [|done|done|done|done]. keep_entries Hext. split_and!; [done|done|done|eauto].
Qed.

End tables.

Lemma usable_extends names d d' t : extends d d' -> usable names d t -> usable names d' t.
Proof. intros Hext [H1 H2]. split; [done|by eapply known_extends]. Qed.

Lemma arg_key_closed names l : List.flat_map vars l = [] -> map (arg_key names) l = map inr (map (qualname names) l).
Proof.
  induction l as [|t l IH]; intros H; [done|]. cbn [List.flat_map] in H. apply app_nil in H as [H1 H2]. cbn [map]. rewrite (IH H2). by destruct t.
Qed.

(** Among the known types, one object stands for each closed specialization. *)
Lemma known_spec_unique names d b l l' : known names d (GSpec b l) -> known names d (GSpec b l') -> vars (GSpec b l) = [] -> vars (GSpec b l') = [] ->
  map norm l = map norm l' -> l = l'.
Proof.
  intros Hk Hk' Hv Hv' E. inversion Hk as [| |? ? _ H| | | | | |]; inversion Hk' as [| |? ? _ H'| | | | | |]; subst.
  rewrite arg_key_closed in H, H' by done.
  assert (Eq : map (qualname names) l = map (qualname names) l').
  { rewrite <- (map_norm (qualname names) l), <- (map_norm (qualname names) l'), E; [done|apply Forall_true, qualname_norm..]. }
  rewrite Eq in H. congruence.
Qed.
