(* ===== verification/MonomorphizeCorrect.v ===== *)
(** * Monomorphization is parallel substitution, and ends

    The computations of [Monomorphize] that keep its invariant [good] are
    described by what they establish of the state they end in ([runs]): the
    types built are instances of the declared ones ([instance]), the classes
    made are instances of their declarations ([class_instance]).  [U] is a
    finite set of instantiations closed under what their members mention;
    every class made inside another is one more of them in [building]. *)

From stdpp Require Import sorting.
From Stdlib Require Import Ascii String Sorted.
From S2P Require Import Prelude Generics TypeTables Monomorphize.

Local Open Scope string_scope.
Local Open Scope monad_scope.

(** ** Computations that succeed *)

Definition runs {E A} (m : M Mono E A) (s : Mono) (Q : A -> Mono -> Prop) : Prop := exists a s', m s = (Ok a, s') /\ Q a s'.

Section runs.
Context {E A B : Type}.
Implicit Types (m : M Mono E A) (k : A -> M Mono E B) (s : Mono).

Lemma runs_bind m k s Q : runs m s (fun a s' => runs (k a) s' Q) -> runs (bind m k) s Q.
Proof. intros (a & s' & E1 & b & s'' & E2 & HQ). exists b, s''. by rewrite (bind_ok _ _ _ _ _ E1). Qed.

Lemma runs_ret (a : A) s (Q : A -> Mono -> Prop) : Q a s -> runs (@ret Mono E A a) s Q.
Proof. by exists a, s. Qed.

Lemma runs_get s (Q : Mono -> Mono -> Prop) : Q s s -> runs (@get Mono E) s Q.
Proof. by exists s, s. Qed.

Lemma runs_modify f s (Q : unit -> Mono -> Prop) : Q tt (f s) -> runs (@modify Mono E f) s Q.
Proof. by exists tt, (f s). Qed.

Lemma runs_mono m s (Q Q' : A -> Mono -> Prop) : runs m s Q -> (forall a s', Q a s' -> Q' a s') -> runs m s Q'.
Proof. intros (a & s' & E1 & HQ) H. exists a, s'. auto. Qed.

End runs.

Lemma runs_declared {A} (x : A) s (Q : A -> Mono -> Prop) : Q x s -> runs (declared (Some x)) s Q.
Proof. apply runs_ret. Qed.

Lemma runs_finally {A} (m : MM A) f s (Q : A -> Mono -> Prop) : runs m s (fun a s' => Q a (f s')) -> runs (finally m f) s Q.
Proof. intros (a & s' & E & HQ). exists a, (f s'). unfold finally. by rewrite E. Qed.


(** A loop whose body keeps [I] and establishes [R], a relation that later states keep. *)
Lemma runs_map_m {A B} (I : Mono -> Prop) (le : Mono -> Mono -> Prop) `{!PreOrder le} (R : Mono -> A -> B -> Prop) (f : A -> MM B) l :
  (forall s s' x y, le s s' -> R s x y -> R s' x y) ->
  Forall (fun x => forall s, I s -> runs (f x) s (fun y s' => I s' /\ le s s' /\ R s' x y)) l ->
  forall s, I s -> runs (map_m f l) s (fun ys s' => I s' /\ le s s' /\ Forall2 (R s') l ys).
Proof.
  intros HR. induction 1 as [|x l Hx _ IH]; intros s Hs; cbn [map_m]; [by apply runs_ret|].
  apply runs_bind. eapply runs_mono; [by apply Hx|]. intros y s1 (H1 & H2 & H3). apply runs_bind. eapply runs_mono; [by apply IH|].
  intros ys s2 (H4 & H5 & H6). apply runs_ret. split_and!; [done|by etransitivity|]. constructor; [by eapply HR|done].
Qed.

Lemma same_objects_eq l l' : same_objects l l' = true -> l = l'.
Proof. apply list_eqb_spec, Forall_true. intros t. apply gty_eqb_spec. Qed.

(** ** Correctness *)

Section correctness.
Context (prog : Program) (Hn : distinct_names (prog_names prog)).
Notation names := (prog_names prog).
Notation usable := (usable (prog_names prog)).
Notation bound := bound.

(** The instantiations that can be reached. *)
Context (U : list (nat * list GTy)).

(** [t'] is what substituting [σ] in [t] gives: an object of the tables without variables. *)
Definition instance (d : Discovery) (σ : nat -> GTy) (t t' : GTy) : Prop :=
  usable d t' /\ vars t' = [] /\ norm t' = subst prog σ t.

(** The same of the type of a field, parameter or result, which may also be a generator or an
    array: every part of it is substituted. *)
Definition annotation_instance (d : Discovery) (σ : nat -> GTy) (t t' : GTy) : Prop :=
  match t with
  | GGenerator _ e s r => exists x' e' s' r', t' = GGenerator x' e' s' r' /\
      instance d σ e e' /\ option_Forall2 (instance d σ) s s' /\ option_Forall2 (instance d σ) r r'
  | GArray e n => exists e', t' = GArray e' n /\ instance d σ e e'
  | _ => instance d σ t t'
  end.

(** The annotations the theorems speak of: in a generator that is sent something, or an
    array of a type variable, the code does not substitute everywhere
    ([send_type_dropped], [array_not_substituted]). *)
Definition annotation (d : Discovery) (t : GTy) : Prop :=
  match t with
  | GGenerator _ e s r => usable d e /\ s = None /\ (forall t, r = Some t -> usable d t)
  | GArray e _ => usable d e /\ vars e = []
  | _ => usable d t
  end.

Definition parameter_instance d σ (f f' : string * GTy) : Prop := f.1 = f'.1 /\ annotation_instance d σ f.2 f'.2.

(** The copy of the method [m] of the class [b], for the arguments [args]. *)
Definition function_instance (d : Discovery) (m : nat) (args : list GTy) (copy : FunctionCopy) : Prop :=
  exists fd b decl cls, function_decls prog !! m = Some fd /\ fn_cls fd = Some b /\ class_decls prog !! b = Some decl /\
    Forall2 (parameter_instance d (bound (class_params decl) args)) (fn_parameters fd) (copy_parameters copy) /\
    annotation_instance d (bound (class_params decl) args) (fn_return_type fd) (copy_return_type copy) /\
    copy_cls copy = Some cls /\ usable d cls /\ norm cls = GSpec b (map norm args).

Definition method_instance (d : Discovery) (args : list GTy) (f : string * nat) (f' : string * GTy) : Prop :=
  f.1 = f'.1 /\ exists l, f'.2 = GSpec f.2 l /\ usable d (GSpec f.2 l) /\ map norm l = map norm args.

Definition protocol_instance d σ (kind : ClassKind) (t t' : GTy) : Prop :=
  match kind, t with
  | KRCClass, GSpec p _ => instance d σ t t' /\ exists l, t' = GSpec p l
  | _, _ => t' = t
  end.

Definition base_instance d σ (kind : ClassKind) (t t' : GTy) : Prop :=
  match kind, t with
  | KRCClass, GSpec _ _ => instance d σ t t'
  | _, _ => t' = t
  end.

(** The copy of a class for the arguments [args]. *)
Record class_instance (d : Discovery) (decl : ClassDecl) (args : list GTy) (copy : ClassCopy) : Prop := {
  inst_attributes : Forall2 (parameter_instance d (bound (class_params decl) args)) (class_attributes decl) (copy_attributes copy);
  inst_methods : Forall2 (method_instance d args) (class_methods decl) (copy_methods copy);
  inst_protocols : Forall2 (protocol_instance d (bound (class_params decl) args) (class_kind decl)) (class_protocols decl) (copy_protocols copy);
  inst_base : option_Forall2 (base_instance d (bound (class_params decl) args) (class_kind decl)) (class_base decl) (copy_base copy);
  inst_payload : class_kind decl = KTaggedUnion -> Forall2 (parameter_instance d (bound (class_params decl) args))
    (map (fun '(stem, t) => ("v_" +:+ stem, t)) (class_attributes decl)) (copy_payload copy);
}.

Definition function_types (fd : FunctionDecl) : list GTy := map snd (fn_parameters fd) ++ [fn_return_type fd].

Definition field_types (decl : ClassDecl) : list GTy := map snd (class_attributes decl).

Definition super_types (decl : ClassDecl) : list GTy := class_protocols decl ++ option_list (class_base decl).

Definition class_types (decl : ClassDecl) : list GTy := field_types decl ++ super_types decl.

(** A class whose own types and whose methods' mention its type parameters only. *)
Record class_ok (b : nat) (decl : ClassDecl) : Prop := {
  class_generic : class_params decl <> [];
  class_closed : Forall (fun t => vars t ⊆ class_params decl) (class_types decl);
  class_method_decls : Forall (fun '(_, m) => exists fd, function_decls prog !! m = Some fd /\ fn_cls fd = Some b /\ fn_type_params fd = [] /\
    Forall (fun t => vars t ⊆ class_params decl) (function_types fd)) (class_methods decl);
}.

(** All the types a class mentions, its methods' included. *)
Definition mentioned (decl : ClassDecl) : list GTy :=
  class_types decl ++ List.flat_map (fun '(_, m) => match function_decls prog !! m with Some fd => function_types fd | None => [] end) (class_methods decl).

(** The instantiations of [U] are of well-formed classes, and the ones their
    members mention are in [U] too. *)
Definition closed_universe : Prop := forall b args, (b, args) ∈ U ->
  exists decl, class_decls prog !! b = Some decl /\ class_ok b decl /\ length (class_params decl) = length args /\
    Forall (fun t => instances prog (bound (class_params decl) args) t ⊆ U) (mentioned decl).

(** A specialization that may be made. *)
Definition reachable (d : Discovery) (spec : GTy) : Prop :=
  exists b args, spec = GSpec b args /\ usable d spec /\ vars spec = [] /\ (b, map norm args) ∈ U.

(** The invariant of the monomorphizer. *)
Record good (s : Mono) : Prop := {
  good_tables : tables_ok names (discovery s);
  good_fields b decl : class_decls prog !! b = Some decl -> Forall (annotation (discovery s)) (field_types decl);
  good_supers b decl : class_decls prog !! b = Some decl -> Forall (usable (discovery s)) (super_types decl);
  good_annotations m fd : function_decls prog !! m = Some fd -> Forall (annotation (discovery s)) (function_types fd);
  good_building : NoDup (building s) /\ Forall (reachable (discovery s)) (building s);
  good_classes : Forall (fun '(spec, copy) => exists b args decl, spec = GSpec b args /\ class_decls prog !! b = Some decl /\
    class_instance (discovery s) decl args copy /\ Forall (fun '(_, m) => is_Some (find_done m (done_functions s))) (copy_methods copy)) (done_classes s);
  good_functions : Forall (fun '(spec, copy) => exists m args, spec = GSpec m args /\ function_instance (discovery s) m args copy) (done_functions s);
}.

(** What the steps of the monomorphizer do to its state. *)
Record later (s s' : Mono) : Prop := {
  later_discovery : extends (discovery s) (discovery s');
  later_building : building s' = building s;
  later_classes spec : is_Some (find_done spec (done_classes s)) -> is_Some (find_done spec (done_classes s'));
  later_functions spec : is_Some (find_done spec (done_functions s)) -> is_Some (find_done spec (done_functions s'));
}.

#[export] Instance later_preorder : PreOrder later.
Proof. split; [by intros s; split|]. intros s1 s2 s3 [] []; split; [by etransitivity|congruence|auto|auto]. Qed.

Lemma instance_later d d' σ t t' : extends d d' -> instance d σ t t' -> instance d' σ t t'.
Proof. intros Hext (H1 & H2 & H3). split_and!; [by eapply usable_extends|done|done]. Qed.

Lemma annotation_instance_later d d' σ t t' : extends d d' -> annotation_instance d σ t t' -> annotation_instance d' σ t t'.
Proof.
  intros Hext H. destruct t; try (by eapply instance_later).
  - destruct H as (x' & e' & s' & r' & -> & H1 & H2 & H3). exists x', e', s', r'.
    split_and!; [done|by eapply instance_later|destruct H2|destruct H3]; constructor; by eapply instance_later.
  - destruct H as (e' & -> & H1). exists e'. split; [done|by eapply instance_later].
Qed.

Lemma annotation_later d d' t : extends d d' -> annotation d t -> annotation d' t.
Proof.
  intros Hext H. destruct t; try (by eapply usable_extends).
  - destruct H as (H1 & H2 & H3). split_and!; [by eapply usable_extends|done|]. intros u Hu. eapply usable_extends; eauto.
  - destruct H as [H1 H2]. split; [by eapply usable_extends|done].
Qed.

Lemma parameter_instance_later d d' σ f f' : extends d d' -> parameter_instance d σ f f' -> parameter_instance d' σ f f'.
Proof. intros Hext [H1 H2]. split; [done|by eapply annotation_instance_later]. Qed.

Lemma function_instance_later d d' m args copy : extends d d' -> function_instance d m args copy -> function_instance d' m args copy.
Proof.
  intros Hext (fd & b & decl & cls & H1 & H2 & H3 & H4 & H5 & H6 & H7 & H8). exists fd, b, decl, cls. split_and!; try done.
  - eapply Forall2_impl; [exact H4|]. intros f f'. by apply parameter_instance_later.
  - by eapply annotation_instance_later.
  - by eapply usable_extends.
Qed.

Lemma protocol_instance_later d d' σ k t t' : extends d d' -> protocol_instance d σ k t t' -> protocol_instance d' σ k t t'.
Proof. intros Hext H. destruct k; try done. destruct t; try done. destruct H as [H1 H2]. split; [by eapply instance_later|done]. Qed.

Lemma base_instance_later d d' σ k t t' : extends d d' -> base_instance d σ k t t' -> base_instance d' σ k t t'.
Proof. intros Hext H. destruct k; try done. destruct t; try done. by eapply instance_later. Qed.

Lemma method_instance_later d d' args f f' : extends d d' -> method_instance d args f f' -> method_instance d' args f f'.
Proof. intros Hext (H1 & l & H2 & H3 & H4). split; [done|]. exists l. split_and!; [done|by eapply usable_extends|done]. Qed.

Lemma class_instance_later d d' decl args copy : extends d d' -> class_instance d decl args copy -> class_instance d' decl args copy.
Proof.
  intros Hext [H1 H2 H3 H4 H5]. split.
  - eapply Forall2_impl; [exact H1|]. intros f f'. by apply parameter_instance_later.
  - eapply Forall2_impl; [exact H2|]. intros f f'. by apply method_instance_later.
  - eapply Forall2_impl; [exact H3|]. intros f f'. by apply protocol_instance_later.
  - destruct H4; constructor. by eapply base_instance_later.
  - intros Hk. eapply Forall2_impl; [by apply H5|]. intros f f'. by apply parameter_instance_later.
Qed.

Lemma reachable_later d d' spec : extends d d' -> reachable d spec -> reachable d' spec.
Proof. intros Hext (b & args & H1 & H2 & H3 & H4). exists b, args. split_and!; [done|by eapply usable_extends|done|done]. Qed.

(** New types in the tables harm nothing. *)
Lemma good_set_discovery s d : good s -> tables_ok names d -> extends (discovery s) d -> good (set_discovery d s).
Proof.
  intros [H1 H2 H2' H3 [H4 H4'] H5 H6] Hd Hext. split; cbn [discovery building done_classes done_functions set_discovery]; try done.
  - intros b decl Hb. eapply Forall_impl; [by apply (H2 b)|]. intros t. by apply annotation_later.
  - intros b decl Hb. eapply Forall_impl; [by apply (H2' b)|]. intros t. by apply usable_extends.
  - intros m fd Hm. eapply Forall_impl; [by apply (H3 m)|]. intros t. by apply annotation_later.
  - split; [done|]. eapply Forall_impl; [exact H4'|]. intros t. by apply reachable_later.
  - eapply Forall_impl; [exact H5|]. intros [spec copy] (b & args & decl & -> & H7 & H8 & H9). exists b, args, decl. split_and!; [done|done|by eapply class_instance_later|done].
  - eapply Forall_impl; [exact H6|]. intros [spec copy] (m & args & -> & H7). exists m, args. split; [done|by eapply function_instance_later].
Qed.

(** Interning a type. *)
Lemma intern_ok want f s : good s -> answers names (discovery s) want (f (discovery s)) ->
  runs (intern f) s (fun t s' => good s' /\ later s s' /\ usable (discovery s') t /\ norm t = want /\ t = (f (discovery s)).1).
Proof.
  intros Hs (H1 & H2 & H3 & H4 & H5). unfold intern, runs. destruct (f (discovery s)) as [t d] eqn:E. exists t, (set_discovery d s).
  split; [done|]. split_and!; [by apply good_set_discovery|by split|by split|done|done].
Qed.

Lemma good_add_scheduled u s : good s -> good (add_scheduled u s).
Proof. by intros []; split. Qed.

Lemma backing_extends l d : extends d (add_backing l d).
Proof. split; try done. intros k Hk. by right. Qed.

Lemma tables_add_backing l d : tables_ok names d -> tables_ok names (add_backing l d).
Proof.
  intros Hd. pose proof (backing_extends l d) as Hext. split; intros k v Hv.
  - destruct (specializations_ok _ _ Hd k v Hv) as (? & ? & ?). split_and!; [done|by eapply known_extends|done].
  - destruct (callables_ok _ _ Hd k v Hv) as (? & ? & ?). split_and!; [done|by eapply known_extends|tauto..].
  - destruct (closures_ok _ _ Hd k v Hv) as (? & ? & ?). split_and!; [done|by eapply known_extends|tauto..].
  - destruct (tuples_ok _ _ Hd k v Hv) as (? & ? & ?). split_and!; [done|by eapply known_extends|tauto..].
  - destruct (unions_ok _ _ Hd k v Hv) as (? & ? & ?). split_and!; [done|by eapply known_extends|tauto..].
Qed.

Lemma later_add_scheduled u s : later s (add_scheduled u s).
Proof. by split. Qed.

Lemma schedule_ok u s : good s -> runs (schedule u) s (fun _ s' => good s' /\ later s s').
Proof. intros Hs. apply runs_modify. split; [by apply good_add_scheduled|apply later_add_scheduled]. Qed.

Lemma spec_ok b args s : good s -> Forall (usable (discovery s)) args ->
  runs (intern (get_or_create_specialization names b args)) s
    (fun t s' => good s' /\ later s s' /\ usable (discovery s') t /\ norm t = GSpec b (map norm args) /\ exists l, t = GSpec b l).
Proof.
  intros Hs Ha. destruct (get_or_create_specialization_ok names Hn _ (good_tables _ Hs) b args Ha) as [H [l E]].
  eapply runs_mono; [by apply (intern_ok _ _ _ Hs H)|]. intros t s' (H1 & H2 & H3 & H4 & ->). split_and!; try done. by exists l.
Qed.

Lemma homogeneous_elem l t : homogeneous names l = Some t -> t ∈ l.
Proof. destruct l as [|t' l]; cbn [homogeneous]; [done|]. destruct (forallb _ _); [|done]. intros [= ->]. left. Qed.

Lemma tuple_protocols_ok l s : good s -> Forall (usable (discovery s)) l ->
  runs (tuple_protocols prog l) s (fun _ s' => good s' /\ later s s').
Proof.
  intros Hs Hl. unfold tuple_protocols.
  destruct (homogeneous names l) as [t|] eqn:Eh; [|by apply runs_ret]. destruct (sequence_protocol prog) as [sq|]; [|by apply runs_ret].
  destruct (iterable_protocol prog) as [it|]; [|by apply runs_ret].
  assert (Ht : usable (discovery s) t) by (eapply Forall_forall; [exact Hl|by apply homogeneous_elem]).
  apply runs_bind. eapply runs_mono; [by apply spec_ok, Forall_singleton|]. intros p s1 (H1 & H2 & _).
  apply runs_bind. eapply runs_mono; [apply spec_ok; [done|]|].
  { apply Forall_singleton. eapply usable_extends; [by apply later_discovery|done]. }
  intros p' s2 (H3 & H4 & _). apply runs_ret. split; [done|by etransitivity].
Qed.

(** The backing class of a closed tuple. *)
Lemma tuple_storage_get_ok l s : good s -> usable (discovery s) (GTuple l) -> List.flat_map vars l = [] ->
  runs (tuple_storage_get prog l) s (fun t s' => good s' /\ later s s' /\ usable (discovery s') t /\ t = GBacking l).
Proof.
  intros Hs [Hp Hk] Hv. assert (Hu : forall d, known names d (GTuple l) -> l ∈ backings d -> usable d (GBacking l)).
  { intros d Hk' Hb. inversion Hp. split; by constructor. }
  unfold tuple_storage_get. apply runs_bind, runs_get. destruct (existsb _ _) eqn:Eb.
  { apply runs_ret. split_and!; [done|done| |done]. apply Hu; [done|]. apply existsb_exists in Eb as (l' & Hin & ->%same_objects_eq). by apply list_elem_of_In. }
  pose proof (backing_extends l (discovery s)) as Hext. set (s1 := set_discovery (add_backing l (discovery s)) s).
  assert (Hg1 : good s1) by (apply good_set_discovery; [done|by apply tables_add_backing, good_tables|done]).
  assert (Hl1 : later s s1) by (by split).
  apply runs_bind, runs_modify, runs_bind. eapply runs_mono; [apply tuple_protocols_ok; [exact Hg1|]|].
  { inversion Hp; inversion Hk; subst. apply usable_split. split; [done|]. eapply Forall_impl; [eassumption|]. intros t. by apply known_extends. }
  intros _ s2 [H1 H2]. apply runs_bind. eapply runs_mono; [by apply schedule_ok|]. intros _ s3 [H3 H4]. apply runs_ret.
  assert (H5 : later s1 s3) by (by etransitivity). split_and!; [done|by etransitivity| |done].
  eapply usable_extends; [apply later_discovery, H5|]. apply Hu; [by eapply known_extends|]. left.
Qed.

(** Arguments to substitute for the type parameters. *)
Record arguments (d : Discovery) (params : list nat) (args : list GTy) : Prop := {
  arguments_length : length params = length args;
  arguments_usable : Forall (usable d) args;
  arguments_closed : List.flat_map vars args = [];
}.

Lemma arguments_later d d' params args : extends d d' -> arguments d params args -> arguments d' params args.
Proof. intros Hext [H1 H2 H3]. split; [done| |done]. eapply Forall_impl; [exact H2|]. intros t. by apply usable_extends. Qed.

Lemma bound_arg params args v a : zip_lookup params args v = Some a -> bound params args v = norm a.
Proof. unfold bound. intros E. by rewrite zip_lookup_norm, E. Qed.

Section members.
Context (mc : GTy -> MM GTy) (room : Mono -> Prop) (Hroom : forall s s', later s s' -> room s -> room s').

(** [mc] makes the classes it is asked for. *)
Context (Hmc : forall s b args, good s -> room s -> is_class prog b = true -> usable (discovery s) (GSpec b args) -> vars (GSpec b args) = [] ->
  (b, map norm args) ∈ U -> GSpec b args ∉ building s ->
  runs (mc (GSpec b args)) s (fun t s' => good s' /\ later s s' /\ t = GMono b args)).

(** The instance depends on the arguments up to the choice of object only. *)
Lemma norm_norm l : Forall (proper names) l -> map norm (map norm l) = map norm l.
Proof. intros Hl. rewrite map_map. apply map_forall. eapply Forall_impl; [exact Hl|]. intros t Ht. by apply normal_idem, (norm_normal names). Qed.

Lemma bound_norm params l : Forall (proper names) l -> bound params (map norm l) = bound params l.
Proof. intros Hl. unfold bound. by rewrite norm_norm. Qed.

Section substitution.
Context (params : list nat) (args : list GTy).
Notation σ := (bound params args).

Definition ready (s : Mono) : Prop := good s /\ room s /\ arguments (discovery s) params args.

Lemma ready_later s s' : ready s -> good s' -> later s s' -> ready s'.
Proof. intros (H1 & H2 & H3) Hg Hl. split_and!; [done|by eapply Hroom|]. eapply arguments_later; [by apply later_discovery|done]. Qed.

Definition substitutes (t : GTy) : Prop := forall s, ready s -> usable (discovery s) t -> vars t ⊆ params -> instances prog σ t ⊆ U ->
  runs (substitute_type_params prog mc params args t) s (fun t' s' => good s' /\ later s s' /\ instance (discovery s') σ t t').

(** A loop whose body keeps the invariant and establishes [R] of its state. *)
Lemma loop {A B} (R : Mono -> A -> B -> Prop) (f : A -> MM B) l s : (forall s s' x y, later s s' -> R s x y -> R s' x y) -> ready s ->
  (forall x s1, x ∈ l -> ready s1 -> later s s1 -> runs (f x) s1 (fun y s' => good s' /\ later s1 s' /\ R s' x y)) ->
  runs (map_m f l) s (fun l' s' => good s' /\ later s s' /\ Forall2 (R s') l l').
Proof.
  intros HR Hs Hf. apply (runs_mono _ _ (fun l' s' => (ready s' /\ later s s') /\ later s s' /\ Forall2 (R s') l l')).
  2:{ intros l' s' ((H & _) & H2 & H3). by destruct H. }
  apply (runs_map_m (fun s' => ready s' /\ later s s') later R); [done| |by split].
  apply Forall_forall. intros x Hx s1 (H1 & H2). eapply runs_mono; [by apply Hf|]. intros y s2 (H3 & H4 & H5).
  split_and!; [by eapply ready_later|by etransitivity|done|done].
Qed.

Lemma substitutes_all l s : Forall substitutes l -> ready s -> Forall (usable (discovery s)) l -> List.flat_map vars l ⊆ params ->
  List.flat_map (instances prog σ) l ⊆ U ->
  runs (map_m (substitute_type_params prog mc params args) l) s (fun l' s' => good s' /\ later s s' /\ Forall2 (instance (discovery s') σ) l l').
Proof.
  intros Hl Hs Hu Hv Hi. apply (loop (fun s => instance (discovery s) σ)); [intros ???? Hle; by apply instance_later, later_discovery|done|]. intros t s1 Ht H1 H2.
  rewrite Forall_forall in Hl, Hu. apply (Hl t Ht s1 H1); [by eapply usable_extends; [apply later_discovery|apply Hu]|..].
  - intros v Hvt. apply Hv, list_elem_of_In, in_flat_map. exists t. split; by apply list_elem_of_In.
  - intros k Hk. apply Hi, list_elem_of_In, in_flat_map. exists t. split; by apply list_elem_of_In.
Qed.

Lemma instances_all d l l' : Forall2 (instance d σ) l l' -> Forall (usable d) l' /\ List.flat_map vars l' = [] /\ map norm l' = map (subst prog σ) l.
Proof.
  induction 1 as [|t t' l l' (H1 & H2 & H3) _ (IH1 & IH2 & IH3)]; [done|]. cbn [List.flat_map map]. split_and!; [by constructor|by rewrite H2|by rewrite H3, IH3].
Qed.

Lemma substitutes_var v : substitutes (GVar v).
Proof.
  intros s (Hs & _ & [Ha1 Ha2 Ha3]) _ Hv _. cbn [substitute_type_params subst]. unfold instance. cbn [subst].
  destruct (zip_lookup_some params args v Ha1) as (a & E & Ha); [apply Hv; left|]. rewrite E, (bound_arg _ _ _ _ E).
  assert (Hu : usable (discovery s) a) by (by eapply Forall_forall in Ha2).
  assert (Hc : vars a = []) by (apply flat_map_nil in Ha3; by eapply Forall_forall in Ha3).
  destruct a as [| | | | | | |l| | |]; try (by apply runs_ret; split_and!).
  eapply runs_mono; [by apply tuple_storage_get_ok|]. intros t s' (H1 & H2 & H3 & ->). by split_and!.
Qed.

Lemma instance_closed d t : usable d t -> vars t = [] -> instance d σ t t.
Proof. intros Hu Hv. split_and!; [done|done|]. symmetry. apply subst_closed; [done|apply Hu|done]. Qed.

Lemma substitutes_unchanged t : (forall s, ready s -> substitute_type_params prog mc params args t s = (Ok t, s)) -> vars t = [] -> substitutes t.
Proof.
  intros E Hv s Hs Hu _ _. exists t, s. split; [by apply E|]. destruct Hs as (Hs & _). split_and!; [done|done|by apply instance_closed].
Qed.

(** A type rebuilt from instances of its parts is an instance; if the parts are
    the objects they were, so is the type. *)
Lemma substitutes_spec b l : Forall substitutes l -> substitutes (GSpec b l).
Proof.
  intros Hl s Hs [Hp Hk] Hv Hi. inversion Hp; inversion Hk; subst. cbn [vars] in Hv. cbn [instances] in Hi. cbn [substitute_type_params].
  assert (Hi1 : List.flat_map (instances prog σ) l ⊆ U) by (intros k Hin; apply Hi, elem_of_app; by right).
  apply runs_bind. eapply runs_mono; [by apply substitutes_all; [done|done|apply usable_split|..]|]. intros l' s1 (Hg1 & Hl1 & HF).
  destruct (instances_all _ _ _ HF) as (H1 & H2 & H3).
  destruct (same_objects l' l) eqn:Eo; [apply same_objects_eq in Eo as ->; apply runs_ret|].
  { split_and!; [done|done|]. split; [by eapply usable_extends; [apply later_discovery|]|]. split; [done|]. cbn [norm subst]. by rewrite H3. }
  apply runs_bind. eapply runs_mono; [by apply spec_ok|]. intros t2 s2 (Hg2 & Hl2 & Hu2 & En & (l2 & ->)). cbn [norm] in En. injection En as En.
  assert (Hc2 : vars (GSpec b l2) = []).
  { rewrite <- vars_norm. cbn [norm vars]. rewrite En. rewrite flat_map_norm; [done|]. apply Forall_true, vars_norm. }
  assert (Hins : forall d t, usable d t -> norm t = GSpec b (map norm l2) -> vars t = [] -> instance d σ (GSpec b l) t).
  { intros d t Ht Et Hvt. split; [done|]. split; [done|]. rewrite Et. cbn [subst]. by rewrite En, H3. }
  assert (Hl02 : later s s2) by (by etransitivity).
  apply runs_bind, runs_get. destruct (is_class prog b && is_concrete (GSpec b l2)) eqn:Ec; cbn [andb negb]; [|by apply runs_ret; auto].
  apply andb_prop in Ec as [Ec _]. destruct (existsb (gty_eqb (GSpec b l2)) (building s2)) eqn:Eb; [by apply runs_ret; auto|].
  apply runs_bind. eapply runs_mono; [by apply schedule_ok|]. intros _ s3 [Hg3 Hl3]. destruct Hs as (_ & Hr & _).
  eapply runs_mono.
  - apply Hmc; [done|by eapply Hroom; [etransitivity; [exact Hl02|exact Hl3]|]|done|by eapply usable_extends; [apply later_discovery|]|done|..].
    + rewrite En, H3. apply Hi, elem_of_app. left. rewrite Ec. left.
    + rewrite (later_building _ _ Hl3). intros Hin. assert (E : existsb (gty_eqb (GSpec b l2)) (building s2) = true); [|congruence].
      apply existsb_exists. exists (GSpec b l2). split; [by apply list_elem_of_In|by apply gty_eqb_spec].
  - intros t s4 (Hg4 & Hl4 & ->). assert (Hl04 : later s s4) by (etransitivity; [exact Hl02|by etransitivity]).
    split_and!; [done|done|]. assert (Hu4 : usable (discovery s4) (GSpec b l2)).
    { eapply usable_extends; [|exact Hu2]. apply later_discovery. by etransitivity. }
    apply Hins; [|done|done]. destruct Hu4 as [Hp4 Hk4]. inversion Hp4; subst. split; by constructor.
Qed.

Lemma signature_parts {A} (k : list GTy -> GTy -> MM A) l r s Q : Forall substitutes l -> substitutes r -> ready s -> Forall (usable (discovery s)) l -> usable (discovery s) r ->
  (List.flat_map vars l ++ vars r)%list ⊆ params -> (List.flat_map (instances prog σ) l ++ instances prog σ r)%list ⊆ U ->
  (forall l' r' s', good s' -> later s s' -> Forall (usable (discovery s')) l' -> usable (discovery s') r' ->
    (List.flat_map vars l' ++ vars r')%list = [] -> map norm l' = map (subst prog σ) l -> norm r' = subst prog σ r -> runs (k l' r') s' Q) ->
  runs (let* l' := map_m (substitute_type_params prog mc params args) l in let* r' := substitute_type_params prog mc params args r in k l' r') s Q.
Proof.
  intros Hl Hr Hs Hu Hur Hv Hi Hk. apply runs_bind. eapply runs_mono; [apply substitutes_all; [done|done|done|..]|].
  { intros v H. apply Hv, elem_of_app. by left. } { intros i H. apply Hi, elem_of_app. by left. }
  intros l' s1 (Hg1 & Hl1 & HF). apply runs_bind. eapply runs_mono; [apply Hr; [by eapply ready_later|by eapply usable_extends; [apply later_discovery|]|..]|].
  { intros v H. apply Hv, elem_of_app. by right. } { intros i H. apply Hi, elem_of_app. by right. }
  intros r' s2 (Hg2 & Hl2 & H1 & H2 & H3).
  assert (HF' : Forall2 (instance (discovery s2) σ) l l') by (eapply Forall2_impl; [exact HF|]; intros t t'; by apply instance_later, later_discovery).
  destruct (instances_all _ _ _ HF') as (H4 & H5 & H6). apply Hk; try done; [by etransitivity|]. by rewrite H5, H2.
Qed.

(** The branches that rebuild a type through one of the tables. *)
Lemma rebuilt (f : Discovery -> GTy * Discovery) t want s s' : good s' -> later s s' -> answers names (discovery s') want (f (discovery s')) ->
  vars want = [] -> want = subst prog σ t ->
  runs (intern f) s' (fun t' s'' => good s'' /\ later s s'' /\ instance (discovery s'') σ t t').
Proof.
  intros Hg Hl Ha Hv ->. eapply runs_mono; [by apply intern_ok|]. intros t' s'' (H1 & H2 & H3 & H4 & _).
  split_and!; [done|by etransitivity|]. split; [done|]. split; [|done]. by rewrite <- vars_norm, H4.
Qed.

Lemma kept t s s' : good s' -> later s s' -> usable (discovery s) t -> vars t = [] -> runs (ret t : MM GTy) s' (fun t' s'' => good s'' /\ later s s'' /\ instance (discovery s'') σ t t').
Proof. intros Hg Hl Hu Hv. apply runs_ret. split_and!; [done|done|]. apply instance_closed; [by eapply usable_extends; [apply later_discovery|]|done]. Qed.

Lemma substitutes_callable l r : Forall substitutes l -> substitutes r -> substitutes (GCallable l r).
Proof.
  intros Hl Hr s Hs [Hp Hk] Hv Hi. inversion Hp; inversion Hk; subst. cbn [substitute_type_params].
  apply signature_parts; try done; [by apply usable_split|]. intros l' r' s' Hg Hl' Hul Hur Hc E1 E2.
  destruct (same_objects l' l && gty_eqb r' r) eqn:Eo.
  - apply andb_prop in Eo as [->%same_objects_eq ->%gty_eqb_spec]. by apply kept.
  - eapply rebuilt; [done|done|by apply get_or_create_callable_type_ok; [|apply good_tables| |]|..].
    + cbn [vars]. by rewrite flat_map_norm, vars_norm by (apply Forall_true, vars_norm).
    + cbn [subst]. by rewrite E1, E2.
Qed.

Lemma substitutes_closure l r : Forall substitutes l -> substitutes r -> substitutes (GClosure l r).
Proof.
  intros Hl Hr s Hs [Hp Hk] Hv Hi. inversion Hp; inversion Hk; subst. cbn [substitute_type_params].
  apply signature_parts; try done; [by apply usable_split|]. intros l' r' s' Hg Hl' Hul Hur Hc E1 E2.
  destruct (same_objects l' l && gty_eqb r' r) eqn:Eo.
  - apply andb_prop in Eo as [->%same_objects_eq ->%gty_eqb_spec]. by apply kept.
  - eapply rebuilt; [done|done|by apply get_or_create_closure_type_ok; [|apply good_tables| |]|..].
    + cbn [vars]. by rewrite flat_map_norm, vars_norm by (apply Forall_true, vars_norm).
    + cbn [subst]. by rewrite E1, E2.
Qed.

Lemma substitutes_tuple l : Forall substitutes l -> substitutes (GTuple l).
Proof.
  intros Hl s Hs [Hp Hk] Hv Hi. inversion Hp; inversion Hk; subst. cbn [substitute_type_params].
  apply runs_bind. eapply runs_mono; [by apply substitutes_all; [done|done|apply usable_split|..]|]. intros l' s1 (Hg1 & Hl1 & HF).
  destruct (instances_all _ _ _ HF) as (Eu & Ev & En). destruct (same_objects l' l) eqn:Eo.
  - apply same_objects_eq in Eo as ->. by apply kept.
  - eapply rebuilt; [done|done|by apply get_or_create_tuple_type_ok; [|apply good_tables|]|..].
    + cbn [vars]. by rewrite flat_map_norm by (apply Forall_true, vars_norm).
    + cbn [subst]. by rewrite En.
Qed.

Lemma substitutes_union l : Forall substitutes l -> substitutes (GUnion l).
Proof.
  intros Hl s Hs [Hp Hk] Hv Hi. inversion Hp; inversion Hk; subst. cbn [substitute_type_params].
  apply runs_bind. eapply runs_mono; [by apply substitutes_all; [done|done|apply usable_split|..]|]. intros l' s1 (Hg1 & Hl1 & HF).
  destruct (instances_all _ _ _ HF) as (Eu & Ev & En). destruct (same_objects l' l) eqn:Eo.
  - apply same_objects_eq in Eo as ->. by apply kept.
  - assert (Hne : l' <> []) by (apply Forall2_length in HF; intros ->; by destruct l).
    eapply rebuilt; [done|done|by apply get_or_create_union_ok; [|apply good_tables| |]|..].
    + unfold union_of. rewrite vars_collapse, flat_map_nil. apply vars_ordered, Forall_fmap. apply flat_map_nil in Ev.
      eapply Forall_impl; [exact Ev|]. intros t Ht. cbn. by rewrite vars_norm.
    + cbn [subst]. by rewrite En.
Qed.

(** [substitute_type_params] is parallel substitution. *)
Lemma substitute_ok t : substitutes t.
Proof.
  induction t using GTy_nested_ind.
  - apply substitutes_var.
  - by apply substitutes_unchanged.
  - by apply substitutes_spec.
  - intros s Hs Hu Hv Hi. destruct Hu as [Hp Hk]. assert (vars (GMono b l) = []) by (by inversion Hp). by apply (substitutes_unchanged (GMono b l)).
  - by apply substitutes_callable.
  - by apply substitutes_closure.
  - intros s0 Hs [Hp _]. inversion Hp.
  - by apply substitutes_tuple.
  - intros s Hs Hu Hv Hi. destruct Hu as [Hp Hk]. assert (vars (GBacking l) = []) by (by inversion Hp). by apply (substitutes_unchanged (GBacking l)).
  - intros s0 Hs [Hp _]. inversion Hp.
  - by apply substitutes_union.
Qed.

Lemma substitute_annotation_ok t s : ready s -> annotation (discovery s) t -> vars t ⊆ params -> instances prog σ t ⊆ U ->
  runs (substitute_type_params prog mc params args t) s (fun t' s' => good s' /\ later s s' /\ annotation_instance (discovery s') σ t t').
Proof.
  intros Hs Ha Hv Hi. destruct t as [| | | | | |x e sd r| | |t n|]; try (by apply substitute_ok).
  - destruct Ha as (He & -> & Hr). cbn [substitute_type_params vars instances] in *. apply runs_bind. eapply runs_mono; [apply substitute_ok; [done|done|..]|].
    { intros v H. apply Hv, elem_of_app. by left. } { intros i H. apply Hi, elem_of_app. by left. }
    intros e' s1 (Hg1 & Hl1 & Hi1). destruct r as [r|].
    + apply runs_bind. eapply runs_mono; [apply substitute_ok; [by eapply ready_later|by eapply usable_extends; [apply later_discovery|auto]|..]|].
      { intros v H. apply Hv, elem_of_app. right. apply elem_of_app. by right. } { intros i H. apply Hi, elem_of_app. by right. }
      intros r' s2 (Hg2 & Hl2 & Hi2). assert (Hi1' : instance (discovery s2) σ e e') by (eapply instance_later; [by apply later_discovery|done]).
      destruct (_ && _) eqn:Eo; apply runs_ret; (split_and!; [done|by etransitivity|]).
      * apply andb_prop in Eo as [->%gty_eqb_spec ->%gty_eqb_spec]. exists x, e, None, (Some r). split_and!; [done|done|constructor|by constructor].
      * cbn [annotation_instance]. do 4 eexists. split_and!; [done|done|constructor|by constructor].
    + destruct (gty_eqb e' e) eqn:Eo; apply runs_ret; (split_and!; [done|done|]).
      * apply gty_eqb_spec in Eo as ->. exists x, e, None, None. split_and!; [done|done|constructor|constructor].
      * cbn [annotation_instance]. do 4 eexists. split_and!; [done|done|constructor|constructor].
  - destruct Hs as [Hs _], Ha as [Hu Hc]. apply runs_ret. split_and!; [done|done|]. exists t. split; [done|]. by apply instance_closed.
Qed.

(** What a list of types to substitute in must satisfy. *)
Definition substitutable (t : GTy) : Prop := vars t ⊆ params /\ instances prog σ t ⊆ U.

Lemma substitute_parameters_ok (l : list (string * GTy)) s : ready s -> (forall f, f ∈ l -> annotation (discovery s) f.2 /\ substitutable f.2) ->
  runs (map_m (substitute_field prog mc params args) l) s (fun l' s' => good s' /\ later s s' /\ Forall2 (parameter_instance (discovery s') σ) l l').
Proof.
  intros Hs Hl. apply (loop (fun s => parameter_instance (discovery s) σ)); [intros ???? Hle; by apply parameter_instance_later, later_discovery|done|].
  intros [stem t] s1 Hin H1 H2. destruct (Hl _ Hin) as (Ha & Hv & Hi). apply runs_bind.
  eapply runs_mono; [apply substitute_annotation_ok; [done|by eapply annotation_later; [apply later_discovery|]|done|done]|].
  intros t' s2 (H3 & H4 & H5). by apply runs_ret.
Qed.

Lemma good_add_function m l copy s : good s -> function_instance (discovery s) m l copy -> good (add_function (GSpec m l) copy s).
Proof.
  intros [H1 H2 H2' H3 H4 H5 H6] Hc. split; cbn [discovery building done_classes done_functions add_function]; try done.
  - eapply Forall_impl; [exact H5|]. intros [spec c] (b & l' & decl & -> & H7 & H8 & H9). exists b, l', decl. split_and!; try done.
    eapply Forall_impl; [exact H9|]. intros [stem t]. cbn [find_done]. by destruct (gty_eqb _ _).
  - constructor; [by exists m, l|done].
Qed.

Lemma later_add_function spec copy s : later s (add_function spec copy s).
Proof. split; try done. intros spec'. cbn [done_functions add_function find_done]. by destruct (gty_eqb _ _). Qed.

Lemma find_done_new {A} spec (x : A) l : is_Some (find_done spec ((spec, x) :: l)).
Proof. cbn [find_done]. by rewrite (proj2 (gty_eqb_spec spec spec) eq_refl). Qed.

(** A method of a generic class, monomorphized for the arguments of the class. *)
Lemma monomorphized_function_ok m fd b decl s : ready s -> function_decls prog !! m = Some fd -> fn_cls fd = Some b -> fn_type_params fd = [] ->
  class_decls prog !! b = Some decl -> class_params decl = params -> params <> [] -> Forall substitutable (function_types fd) ->
  runs (monomorphized_function prog mc m args) s (fun _ s' => good s' /\ later s s' /\ is_Some (find_done (GSpec m args) (done_functions s'))).
Proof.
  intros Hs Em Eb Ep Ed Epar Hne Hsub. unfold monomorphized_function. apply runs_bind, runs_get. pose proof Hs as (Hg & Hr & Ha).
  destruct (find_done (GSpec m args) (done_functions s)) as [copy|] eqn:Ef; [by apply runs_ret|].
  rewrite Em. apply runs_bind, runs_declared. rewrite Eb, Ep, Ed. apply runs_bind, runs_bind, runs_declared. rewrite Epar.
  destruct params as [|p ps] eqn:Eps; [done|]. rewrite <- Eps in *. apply runs_bind. eapply runs_mono; [by apply spec_ok; [|apply Ha]|].
  intros cls s1 (Hg1 & Hl1 & Hu1 & En1 & _). apply runs_ret. unfold build_monomorphized_function. apply runs_bind.
  assert (Hs1 : ready s1) by (by eapply ready_later).
  apply Forall_app in Hsub as [Hsubp [Hsubr _]%Forall_cons]. pose proof (good_annotations _ Hg1 m fd Em) as Hann.
  apply Forall_app in Hann as [Hannp [Hannr _]%Forall_cons]. apply runs_bind. eapply runs_mono; [apply substitute_parameters_ok; [done|]|].
  { intros f Hf. rewrite Forall_forall in Hsubp, Hannp. split; [apply Hannp|apply Hsubp]; by apply list_elem_of_fmap_2. }
  intros ps' s2 (Hg2 & Hl2 & HF). apply runs_bind. destruct Hsubr as [Hv Hi].
  eapply runs_mono; [apply substitute_annotation_ok; [by eapply ready_later|eapply annotation_later; [by apply later_discovery|done]|done|done]|].
  intros r s3 (Hg3 & Hl3 & Hr3). apply runs_ret, runs_bind, runs_modify, runs_ret.
  assert (Hl13 : later s s3) by (etransitivity; [exact Hl1|by etransitivity]).
  split_and!; [|etransitivity; [exact Hl13|apply later_add_function]|apply find_done_new].
  apply good_add_function; [done|]. exists fd, b, decl, cls. rewrite Epar. split_and!; try done.
  - eapply Forall2_impl; [exact HF|]. intros f f'. by apply parameter_instance_later, later_discovery.
  - eapply usable_extends; [|exact Hu1]. apply later_discovery. by etransitivity.
Qed.

Lemma schedule_by_value_ok (l : list (string * GTy)) s : ready s ->
  runs (map_m (fun attr => if by_value_dependency prog (snd attr) then schedule (UType (snd attr)) else ret tt) l) s (fun _ s' => good s' /\ later s s').
Proof.
  intros Hs. eapply runs_mono; [apply (loop (fun _ _ _ => True)); [done|done|]|].
  - intros f s1 _ (Hg1 & _) _. destruct (by_value_dependency prog f.2); [|by apply runs_ret].
    eapply runs_mono; [by apply schedule_ok|]. by intros ? s2 [].
  - by intros ? s2 (H1 & H2 & _).
Qed.

Lemma protocols_ok kind (l : list GTy) s : ready s -> (forall t, t ∈ l -> usable (discovery s) t /\ substitutable t) ->
  runs (substitute_protocols prog mc params args kind l) s (fun l' s' => good s' /\ later s s' /\ Forall2 (protocol_instance (discovery s') σ kind) l l').
Proof.
  intros Hs Hl. pose proof Hs as (Hg & _).
  assert (Hsame : kind <> KRCClass -> Forall2 (protocol_instance (discovery s) σ kind) l l).
  { intros Hk. clear -Hk. induction l; constructor; [by destruct kind|done]. }
  destruct kind; try (apply runs_ret; split_and!; [done|done|by apply Hsame]).
  apply (loop (fun s => protocol_instance (discovery s) σ KRCClass)); [intros ???? Hle; by apply protocol_instance_later, later_discovery|done|].
  intros t s1 Ht H1 H2. pose proof H1 as (Hg1 & _). destruct (Hl t Ht) as ([Hp Hk] & Hv & Hi). destruct t as [| |b l'| | | | | | | |]; try (by apply runs_ret).
  inversion Hp; inversion Hk; subst. cbn [vars instances] in *. apply runs_bind. eapply runs_mono; [apply substitutes_all; [apply Forall_true; intros ?; apply substitute_ok|done| |done|]|].
  { apply usable_split. split; [done|]. eapply Forall_impl; [eassumption|]. intros t. by apply known_extends, later_discovery. }
  { intros i Hin. apply Hi, elem_of_app. by right. }
  intros l2 s2 (Hg2 & Hl2 & HF). destruct (instances_all _ _ _ HF) as (Eu & Ev & En).
  eapply runs_mono; [by apply spec_ok|]. intros t s3 (Hg3 & Hl3 & Hu3 & Et & l3 & ->). split_and!; [done|by etransitivity|].
  cbn [protocol_instance]. split; [|by exists l3]. split; [done|]. split; [|by rewrite Et, En]. rewrite <- vars_norm, Et. cbn [vars]. by rewrite flat_map_norm by (apply Forall_true, vars_norm).
Qed.

Lemma base_ok kind (base : option GTy) s : ready s -> (forall t, base = Some t -> usable (discovery s) t /\ substitutable t) ->
  runs (substitute_base prog mc params args kind base) s (fun base' s' => good s' /\ later s s' /\ option_Forall2 (base_instance (discovery s') σ kind) base base').
Proof.
  intros Hs Hb. pose proof Hs as (Hg & _).
  assert (Hsame : (forall t, base = Some t -> base_instance (discovery s) σ kind t t) -> runs (ret base : MM (option GTy)) s
    (fun base' s' => good s' /\ later s s' /\ option_Forall2 (base_instance (discovery s') σ kind) base base')).
  { intros H. apply runs_ret. split_and!; [done|done|]. destruct base; constructor. by apply H. }
  destruct kind; try by apply Hsame. destruct base as [t|]; [|by apply Hsame]. destruct t; try (by apply Hsame; intros ? [= <-]).
  destruct (Hb _ eq_refl) as (Hu & Hv & Hi). apply runs_bind. eapply runs_mono; [by apply substitute_ok|].
  intros t s1 (H1 & H2 & H3). apply runs_ret. split_and!; [done|done|by constructor].
Qed.
End substitution.

Section class.
Context (b : nat) (decl : ClassDecl) (Hb : class_decls prog !! b = Some decl) (Hok : class_ok b decl).
Context (args : list GTy) (Hin : Forall (fun t => instances prog (bound (class_params decl) args) t ⊆ U) (mentioned decl)).
Notation params := (class_params decl).
Notation σ := (bound params args).

Lemma class_types_substitutable t : t ∈ class_types decl -> substitutable params args t.
Proof.
  intros Ht. split; [by eapply Forall_forall in Ht; [|apply (class_closed _ _ Hok)]|].
  rewrite Forall_forall in Hin. apply Hin, elem_of_app. by left.
Qed.

Lemma methods_ok s : ready params args s ->
  runs (map_m (fun '(stem, member) =>
    let* method_spec := intern (get_or_create_specialization names member args) in
    match method_spec with
    | GSpec fn fn_args => monomorphized_function prog mc fn fn_args ;;; ret (stem, method_spec)
    | _ => raise NoDeclaration
    end) (class_methods decl)) s
  (fun l' s' => good s' /\ later s s' /\ Forall2 (fun f f' => method_instance (discovery s') args f f' /\ is_Some (find_done f'.2 (done_functions s'))) (class_methods decl) l').
Proof.
  intros Hs. eapply (loop params args (fun s f f' => method_instance (discovery s) args f f' /\ is_Some (find_done f'.2 (done_functions s)))); [|done|].
  { intros s1 s2 f f' Hle [H1 H2]. split; [by eapply method_instance_later; [apply later_discovery|]|by apply (later_functions _ _ Hle)]. }
  intros [stem m] s1 Hm H1 H2. pose proof H1 as (Hg1 & Hr1 & Ha1). apply runs_bind. eapply runs_mono; [by apply spec_ok; [|apply Ha1]|].
  intros t s2 (Hg2 & Hl2 & Hu2 & En2 & l2 & ->). cbn [norm] in En2. injection En2 as En2. apply runs_bind.
  assert (Hargs : arguments (discovery s2) params l2).
  { destruct Ha1 as [Hlen _ Hc]. destruct Hu2 as [Hp2 Hk2]. inversion Hp2; inversion Hk2; subst. split.
    - rewrite Hlen. apply (f_equal length) in En2. by rewrite !length_map in En2.
    - by apply usable_split.
    - rewrite <- (flat_map_norm vars l2), En2, flat_map_norm; [done|apply Forall_true, vars_norm..]. }
  assert (Hm' := class_method_decls _ _ Hok). rewrite Forall_forall in Hm'. destruct (Hm' _ Hm) as (fd & Em & Eb & Ep & Hvars).
  assert (Esub : forall v, bound params l2 v = σ v) by (intros v; unfold bound; by rewrite En2).
  eapply runs_mono; [eapply (monomorphized_function_ok params l2 m fd b decl)|]; try done.
  - split_and!; [done| |done]. eapply Hroom; [|exact Hr1]. done.
  - apply (class_generic _ _ Hok).
  - rewrite Forall_forall in Hvars, Hin |- *. intros t Ht. split; [by apply Hvars|]. unfold bound in *. rewrite En2. apply Hin, elem_of_app. right.
    apply list_elem_of_In, in_flat_map. exists (stem, m). split; [by apply list_elem_of_In|]. rewrite Em. by apply list_elem_of_In.
  - intros copy s3 (Hg3 & Hl3 & Hd3). apply runs_ret. split_and!; [done|by etransitivity| |done].
    split; [done|]. exists l2. split_and!; [done|by eapply usable_extends; [apply later_discovery|]|done].
Qed.

Definition methods_done (s : Mono) (copy : ClassCopy) : Prop :=
  Forall (fun '(_, m) => is_Some (find_done m (done_functions s))) (copy_methods copy).

Lemma fields_ready s : good s -> forall t, t ∈ field_types decl -> annotation (discovery s) t /\ substitutable params args t.
Proof.
  intros Hg t Ht. split; [|apply class_types_substitutable, elem_of_app; by left].
  pose proof (good_fields _ Hg b decl Hb) as H. by eapply Forall_forall in H.
Qed.

Lemma supers_ready s : good s -> forall t, t ∈ super_types decl -> usable (discovery s) t /\ substitutable params args t.
Proof.
  intros Hg t Ht. split; [|apply class_types_substitutable, elem_of_app; by right].
  pose proof (good_supers _ Hg b decl Hb) as H. by eapply Forall_forall in H.
Qed.

Lemma attribute_type f : f ∈ class_attributes decl -> f.2 ∈ field_types decl.
Proof. intros Hf. by apply list_elem_of_fmap_2. Qed.

(** The members of a class, substituted. *)
Lemma class_body_ok spec s : ready params args s ->
  runs (class_body prog mc decl spec args) s (fun copy s' => good s' /\ later s s' /\ class_instance (discovery s') decl args copy /\ methods_done s' copy).
Proof.
  intros Hs. unfold class_body. apply runs_bind. eapply runs_mono; [apply (substitute_parameters_ok params args); [done|]|].
  { intros f Hf. apply fields_ready; [apply Hs|by apply attribute_type]. }
  intros attrs s1 (Hg1 & Hl1 & Hattrs). assert (Hs1 : ready params args s1) by (by eapply ready_later).
  apply runs_bind. eapply runs_mono; [by apply (schedule_by_value_ok params args)|]. intros ? s2 (Hg2 & Hl2).
  assert (Hs2 : ready params args s2) by (by eapply ready_later).
  apply runs_bind. eapply runs_mono; [by apply methods_ok|]. intros methods s3 (Hg3 & Hl3 & Hmeth).
  assert (Hs3 : ready params args s3) by (by eapply ready_later).
  apply runs_bind. eapply runs_mono; [apply (protocols_ok params args); [done|]|].
  { intros t Ht. apply supers_ready; [done|]. apply elem_of_app. by left. }
  intros protocols s4 (Hg4 & Hl4 & Hprot). assert (Hs4 : ready params args s4) by (by eapply ready_later).
  apply runs_bind. eapply runs_mono; [apply (base_ok params args); [done|]|].
  { intros t Ht. apply supers_ready; [done|]. apply elem_of_app. right. rewrite Ht. left. }
  intros base s5 (Hg5 & Hl5 & Hbase). assert (Hs5 : ready params args s5) by (by eapply ready_later).
  apply runs_bind. apply (runs_mono _ _ (fun fields s6 => good s6 /\ later s5 s6 /\ (class_kind decl = KTaggedUnion ->
    Forall2 (parameter_instance (discovery s6) σ) (map (fun '(stem, t) => ("v_" +:+ stem, t)) (class_attributes decl)) fields))).
  { destruct (class_kind decl); try by apply runs_ret. apply runs_bind. eapply runs_mono; [apply (substitute_parameters_ok params args); [done|]|].
    - intros f Hf. apply fields_ready; [done|]. apply list_elem_of_fmap in Hf as ([stem t] & -> & Hf). by apply (attribute_type (stem, t)).
    - intros fields s6 (H1 & H2 & H3). apply runs_bind. eapply runs_mono; [by apply schedule_ok|]. intros ? s7 [H4 H5]. apply runs_ret.
      split_and!; [done|by etransitivity|]. intros _. eapply Forall2_impl; [exact H3|]. intros f f'. by apply parameter_instance_later, later_discovery. }
  intros fields s6 (Hg6 & Hl6 & Hfields). apply runs_ret.
  assert (L5 : later s5 s6) by done. assert (L4 : later s4 s6) by (by etransitivity). assert (L3 : later s3 s6) by (by etransitivity).
  assert (L1 : later s1 s6) by (by etransitivity; [exact Hl2|etransitivity; [exact Hl3|]]).
  split_and!; [done|by etransitivity| |].
  - split; cbn [copy_attributes copy_methods copy_protocols copy_base copy_payload].
    + eapply Forall2_impl; [exact Hattrs|]. intros f f'. by apply parameter_instance_later, later_discovery.
    + eapply Forall2_impl; [exact Hmeth|]. intros f f' [H _]. eapply method_instance_later; [|exact H]. by apply later_discovery.
    + eapply Forall2_impl; [exact Hprot|]. intros t t'. by apply protocol_instance_later, later_discovery.
    + destruct Hbase as [t t' H|]; constructor. eapply base_instance_later; [|exact H]. by apply later_discovery.
    + done.
  - unfold methods_done. cbn [copy_methods]. clear -Hmeth L3. induction Hmeth as [|f [stem t] l l' [_ H] _ IH]; constructor; [|done].
    by apply (later_functions _ _ L3).
Qed.
End class.
End members.

Definition instantiation (spec : GTy) : nat * list GTy := match spec with GSpec b args => (b, map norm args) | _ => (0%nat, []) end.

Lemma instantiation_inj d t t' : reachable d t -> reachable d t' -> instantiation t = instantiation t' -> t = t'.
Proof.
  intros (b & args & -> & [_ H1] & H2 & _) (b' & args' & -> & [_ H1'] & H2' & _) E. cbn [instantiation] in E. injection E as <- E.
  f_equal. by eapply known_spec_unique.
Qed.

(** The classes being made are instantiations of [U], each of them once. *)
Lemma building_bound s spec : good s -> reachable (discovery s) spec -> spec ∉ building s -> (S (length (building s)) <= length U)%nat.
Proof.
  intros Hg Hr Hni. destruct (good_building _ Hg) as [Hnd Hb].
  assert (Hall : Forall (reachable (discovery s)) (spec :: building s)) by (by constructor). rewrite Forall_forall in Hall.
  assert (Hsub : map instantiation (spec :: building s) ⊆+ U).
  { apply NoDup_submseteq.
    - apply NoDup_fmap_2_strong; [|by constructor]. intros t t' Ht Ht' E. by apply (instantiation_inj (discovery s)); auto.
    - intros k Hk. apply list_elem_of_fmap in Hk as (t & -> & Ht). by destruct (Hall t Ht) as (b & args & -> & _ & _ & Hin). }
  apply submseteq_length in Hsub. by rewrite length_map in Hsub.
Qed.

Lemma good_set_building l s : good s -> NoDup l -> Forall (reachable (discovery s)) l -> good (set_building l s).
Proof. intros [H1 H2 H2' H3 _ H5 H6] Hnd Hl. by split. Qed.

Lemma good_add_class b args decl copy s : good s -> class_decls prog !! b = Some decl -> class_instance (discovery s) decl args copy -> methods_done s copy ->
  good (add_class (GSpec b args) copy s).
Proof.
  intros [H1 H2 H2' H3 H4 H5 H6] Hb Hi Hm. split; try done. cbn [done_classes discovery add_class]. constructor; [|done]. by exists b, args, decl.
Qed.

Lemma discard_head spec l : spec ∉ l -> discard spec (spec :: l) = l.
Proof.
  intros Hni. unfold discard. rewrite filter_cons_False by (rewrite (proj2 (gty_eqb_spec spec spec) eq_refl); done).
  induction l as [|t l IH]; [done|]. apply not_elem_of_cons in Hni as [Hne Hni].
  assert (E : gty_eqb spec t = false) by (apply not_true_is_false; by intros E%gty_eqb_spec). rewrite filter_cons_True by done. by rewrite IH.
Qed.

Lemma reachable_arguments s b args decl : closed_universe -> reachable (discovery s) (GSpec b args) -> class_decls prog !! b = Some decl ->
  arguments (discovery s) (class_params decl) args.
Proof.
  intros HU (b' & args' & [= <- <-] & [Hp Hk] & Hv & Hin) Hb. destruct (HU _ _ Hin) as (decl' & Hb' & _ & Hlen & _). simplify_eq.
  inversion Hp; inversion Hk; subst. split; [by rewrite Hlen, length_map|by apply usable_split|done].
Qed.

(** [monomorphize_class] ends: each class it makes inside another is one more
    instantiation in [building]. *)
Lemma monomorphize_class_ok n : closed_universe -> forall s b args, good s -> (length U <= n + length (building s))%nat ->
  reachable (discovery s) (GSpec b args) -> GSpec b args ∉ building s ->
  runs (monomorphize_class prog n (GSpec b args)) s (fun t s' => good s' /\ later s s' /\ t = GMono b args /\ is_Some (find_done (GSpec b args) (done_classes s'))).
Proof.
  intros HU. induction n as [|n IH]; intros s b args Hg Hlen Hr Hni; cbn [monomorphize_class]; apply runs_bind, runs_get;
    (destruct (find_done _ _) as [copy|] eqn:Ef; [by apply runs_ret|]).
  - pose proof (building_bound s _ Hg Hr Hni). lia.
  - apply runs_bind, runs_modify. destruct Hr as (b' & args' & [= <- <-] & Hu & Hv & Hin). destruct (HU _ _ Hin) as (decl & Hb & Hok & Harg & Hmen).
    set (s0 := set_building (GSpec b args :: building s) s).
    assert (Hr : reachable (discovery s) (GSpec b args)) by (by exists b, args).
    assert (Hg0 : good s0) by (apply good_set_building; [done|constructor; [done|apply (good_building _ Hg)]|constructor; [done|apply (good_building _ Hg)]]).
    apply runs_bind, runs_finally, runs_bind. rewrite Hb. apply runs_declared.
    assert (Hbound : bound (class_params decl) (map norm args) = bound (class_params decl) args).
    { apply (bound_norm). destruct Hu as [Hp _]. by inversion Hp. }
    eapply runs_mono; [apply (class_body_ok (monomorphize_class prog n) (fun s => (length U <= n + length (building s))%nat)) with (b := b)|].
    + intros s1 s2 Hl. by rewrite (later_building _ _ Hl).
    + intros s1 b1 args1 Hg1 Hroom _ Hu1 Hv1 Hin1 Hni1. eapply runs_mono; [apply IH; [done|done|by exists b1, args1|done]|]. by intros ? ? (? & ? & ? & _).
    + done.
    + done.
    + by rewrite <- Hbound.
    + split_and!; [done|subst s0; cbn [building set_building length]; lia|]. by eapply (reachable_arguments s b).
    + intros copy s1 (Hg1 & Hl1 & Hinst & Hmeth). apply runs_bind, runs_modify, runs_ret.
      assert (Eb : discard (GSpec b args) (building s1) = building s) by (rewrite (later_building _ _ Hl1); by apply discard_head). rewrite Eb.
      split_and!; [|split; cbn [discovery building done_classes done_functions add_class set_building]|done|].
      * apply good_add_class with (decl := decl); [|done|done|done]. apply good_set_building; [done|apply (good_building _ Hg)|].
        eapply Forall_impl; [apply (good_building _ Hg)|]. intros t. apply reachable_later, Hl1.
      * apply (later_discovery _ _ Hl1).
      * done.
      * intros spec Hs. apply (later_classes _ _ Hl1) in Hs. cbn [find_done]. by destruct (gty_eqb _ _).
      * intros spec. apply (later_functions _ _ Hl1).
      * cbn [done_classes add_class]. apply find_done_new.
Qed.
End correctness.

Lemma find_done_in {A} spec (x : A) l : find_done spec l = Some x -> (spec, x) ∈ l.
Proof.
  induction l as [|[spec' y] l IH]; cbn [find_done]; [done|]. destruct (gty_eqb spec spec') eqn:E; [|by right; apply IH].
  apply gty_eqb_spec in E as ->. intros [= ->]. left.
Qed.

(** A monomorphizer that has made nothing yet. *)
Definition fresh_mono (d : Discovery) : Mono := mkMono d [] [] [] [].

Lemma good_fresh prog U d : tables_ok (prog_names prog) d ->
  (forall b decl, class_decls prog !! b = Some decl -> Forall (annotation prog d) (field_types decl) /\ Forall (usable (prog_names prog) d) (super_types decl)) ->
  (forall m fd, function_decls prog !! m = Some fd -> Forall (annotation prog d) (function_types fd)) ->
  good prog U (fresh_mono d).
Proof.
  intros H1 H2 H3. split; try done; [intros b decl Hb; by apply (H2 b decl)..|]. by split; constructor.
Qed.

(** C17: Monomorphizing a class terminates and is parallel substitution.  For a
    specialization with closed arguments, from any state that keeps the
    invariant, [monomorphize_class] returns the class of that specialization
    as soon as the instantiations it can reach are finitely many ([U], whose
    size is fuel enough, recursive classes included); the copy it records has
    the declared fields, methods, protocols, base and payload with the type
    parameters replaced by the arguments, no type variable is left in them,
    every composite type in them but a generator or array itself is the one object of the tables, and every
    method has been monomorphized in its turn.  This is for programs whose type variables and
    names have distinct qualified names, and whose classes use no array of a type
    variable and no generator that is sent something ([annotation]): those the code
    does not substitute ([array_not_substituted], [send_type_dropped]). *)
Theorem monomorphize_class_exact prog U s b args : distinct_names (prog_names prog) -> closed_universe prog U -> good prog U s -> building s = [] ->
  reachable prog U (discovery s) (GSpec b args) ->
  exists s' decl copy, monomorphize_class prog (length U) (GSpec b args) s = (Ok (GMono b args), s') /\ good prog U s' /\
    class_decls prog !! b = Some decl /\ (GSpec b args, copy) ∈ done_classes s' /\
    class_instance prog (discovery s') decl args copy /\ methods_done s' copy /\ building s' = [].
Proof.
  intros Hn HU Hg Hb Hr. destruct (monomorphize_class_ok prog Hn U (length U) HU s b args Hg) as (t & s' & E & Hg' & Hl & -> & [copy Hf]); [lia|done| |].
  { rewrite Hb. apply not_elem_of_nil. }
  apply find_done_in in Hf. pose proof (good_classes _ _ _ Hg') as Hc. rewrite Forall_forall in Hc.
  destruct (Hc _ Hf) as (b' & args' & decl & [= <- <-] & Hd & Hi & Hm). exists s', decl, copy. split_and!; try done. by rewrite (later_building _ _ Hl).
Qed.

(** ** A recursive generic class: [class Node[T]: value: T; next: Node[T]|None] *)

Fixpoint letters (c : ascii) (n : nat) : string := String c (match n with O => "" | S n => letters c n end).

Definition letter_names : Names := mkNames (letters "T") (letters "C").

Lemma letters_plain c n : delimiter c = false -> plain (letters c n) = true.
Proof. intros Hc. induction n as [|n IH]; cbn [letters plain]; by rewrite Hc. Qed.

Lemma letters_inj c n n' : letters c n = letters c n' -> n = n'.
Proof.
  revert n'. induction n as [|n IH]; intros [|n']; cbn [letters]; intros E; try done; injection E as E; [by destruct n'|by destruct n|]. f_equal. by apply IH.
Qed.

Lemma letter_names_distinct : distinct_names letter_names.
Proof.
  split; cbn [var_qualname name_qualname letter_names].
  - intros v. split; [by destruct v|]. split; [by apply letters_plain|]. rewrite !not_elem_of_cons. destruct v; split_and!; try done; apply not_elem_of_nil.
  - intros v. split; [by destruct v|]. split; [by apply letters_plain|]. rewrite !not_elem_of_cons. destruct v as [|[|v]]; split_and!; try done; apply not_elem_of_nil.
  - apply letters_inj.
  - apply letters_inj.
  - intros v n. by destruct v, n.
Qed.

Definition node_t : GTy := GSpec 0 [GVar 0].
Definition node_or_none : GTy := GUnion [GName 1; node_t].

Definition node_decl : ClassDecl := mkClassDecl KRCClass [0%nat] [("value", GVar 0); ("next", node_or_none)] [("rest", 2%nat)] [] None.
Definition rest_decl : FunctionDecl := mkFunctionDecl (Some 0%nat) [] [("count", GName 3)] node_or_none.

Definition node_program : Program := mkProgram letter_names {[0%nat := node_decl]} {[2%nat := rest_decl]} None None.

(** The tables once [Node[T]], [Node[T]|None] and [Node[i32]] have been written. *)
Definition node_tables1 : Discovery := (get_or_create_specialization letter_names 0 [GVar 0] no_types).2.
Definition node_tables2 : Discovery := (get_or_create_union letter_names [node_t; GName 1] node_tables1).2.
Definition node_tables : Discovery := (get_or_create_specialization letter_names 0 [GName 3] node_tables2).2.

Example node_classes :
  let r := monomorphize_class node_program 1 (GSpec 0 [GName 3]) (fresh_mono node_tables) in
  r.1 = Ok (GMono 0 [GName 3]) /\
  map (fun c => copy_attributes c.2) (done_classes r.2) =
    [[("value", GName 3); ("next", GUnion [GName 1; GSpec 0 [GName 3]])]] /\
  map (fun c => copy_return_type c.2) (done_functions r.2) = [GUnion [GName 1; GSpec 0 [GName 3]]].
Proof. by vm_compute. Qed.

(** A tuple, closure or generator is concrete to [_is_concrete] whatever is in
    it: with one of two parameters still open, as in the hint for an argument
    of a call being inferred, the class of an open type is made and recorded. *)
Definition pair_program : Program :=
  mkProgram letter_names {[6%nat := mkClassDecl KRCClass [0%nat; 1%nat] [("fst", GVar 0); ("snd", GVar 1)] [] [] None]} ∅ None None.

Example open_class_made :
  let r := substitute_type_params pair_program (monomorphize_class pair_program 1) [2%nat; 3%nat] [GName 3; GVar 3]
    (GSpec 6 [GVar 2; GTuple [GVar 3]]) (fresh_mono no_types) in
  r.1 = Ok (GMono 6 [GName 3; GTuple [GVar 3]]) /\
  map (fun c => copy_attributes c.2) (done_classes r.2) = [[("fst", GName 3); ("snd", GBacking [GVar 3])]].
Proof. by vm_compute. Qed.

(** What a generator is sent is dropped when its element type is substituted. *)
Example send_type_dropped :
  (substitute_type_params pair_program (monomorphize_class pair_program 1) [0%nat] [GName 3]
    (GGenerator "Generator[T,T,CC]" (GVar 0) (Some (GVar 0)) (Some (GName 1))) (fresh_mono no_types)).1 =
  Ok (GGenerator "Generator[CCCC,CC]" (GName 3) None (Some (GName 1))).
Proof. by vm_compute. Qed.

(** An array type is left as it is, its element a type variable or not. *)
Example array_not_substituted :
  (substitute_type_params pair_program (monomorphize_class pair_program 1) [0%nat] [GName 3] (GArray (GVar 0) 4)
    (fresh_mono no_types)).1 = Ok (GArray (GVar 0) 4).
Proof. by vm_compute. Qed.

(** [class Nest[T]: inner: Nest[Nest[T]]|None] has no finite set of
    instantiations: every depth is one short. *)
Definition nest_program : Program :=
  mkProgram letter_names {[0%nat := mkClassDecl KRCClass [0%nat] [("inner", GUnion [GName 1; GSpec 0 [GSpec 0 [GVar 0]]])] [] [] None]} ∅ None None.

Example nest_never_ends :
  (monomorphize_class nest_program 5 (GSpec 0 [GName 3]) (fresh_mono no_types)).1 = Err OutOfFuel.
Proof. by vm_compute. Qed.

Lemma usable_var names d v : usable names d (GVar v).
Proof. split; constructor. Qed.

Lemma usable_name names d n : usable names d (GName n).
Proof. split; constructor. Qed.

Lemma node_tables_ok : tables_ok letter_names node_tables /\ usable letter_names node_tables node_or_none /\ usable letter_names node_tables (GSpec 0 [GName 3]).
Proof.
  pose proof letter_names_distinct as Hn.
  destruct (get_or_create_specialization_ok _ Hn no_types (no_types_ok _) 0 [GVar 0]) as [(H1 & H2 & H3 & H4 & _) _]; [apply Forall_singleton, usable_var|].
  destruct (get_or_create_union_ok _ Hn node_tables1 H1 [node_t; GName 1]) as (H5 & H6 & H7 & H8 & _); [|done|].
  { constructor; [by split|]. apply Forall_singleton, usable_name. }
  destruct (get_or_create_specialization_ok _ Hn node_tables2 H5 0 [GName 3]) as [(H9 & H10 & H11 & H12 & _) _]; [apply Forall_singleton, usable_name|].
  split_and!; [exact H9| |by split]. eapply usable_extends; [exact H10|by split].
Qed.

Definition node_universe : list (nat * list GTy) := [(0%nat, [GName 3])].

Lemma node_good : good node_program node_universe (fresh_mono node_tables).
Proof.
  destruct node_tables_ok as (H1 & H2 & H3). apply good_fresh; [done|..].
  - intros b decl Hb. cbn [class_decls node_program] in Hb. apply lookup_singleton_Some in Hb as [<- <-].
    split; [|constructor]. constructor; [apply usable_var|]. by apply Forall_singleton.
  - intros m fd Hm. cbn [function_decls node_program] in Hm. apply lookup_singleton_Some in Hm as [<- <-]. constructor; [apply usable_name|]. by apply Forall_singleton.
Qed.

Lemma node_closed : closed_universe node_program node_universe.
Proof.
  intros b args Hin. apply list_elem_of_singleton in Hin as [= -> ->]. exists node_decl. split_and!; [done| |done|].
  - split; [done|..].
    + cbn. rewrite !Forall_cons. split_and!; [set_solver|set_solver|done].
    + apply Forall_singleton. exists rest_decl. split_and!; [done|done|done|]. cbn. rewrite !Forall_cons. split_and!; [set_solver|set_solver|done].
  - unfold node_universe. cbn. rewrite !Forall_cons. split_and!; try set_solver. rewrite lookup_singleton_eq. cbn. rewrite !Forall_cons. split_and!; [set_solver|set_solver|done].
Qed.

Lemma node_reachable : reachable node_program node_universe node_tables (GSpec 0 [GName 3]).
Proof. exists 0%nat, [GName 3]. split_and!; [done|apply node_tables_ok|done|]. left. Qed.

Lemma monomorphize_class_exact_witness : exists s' decl copy,
  monomorphize_class node_program 1 (GSpec 0 [GName 3]) (fresh_mono node_tables) = (Ok (GMono 0 [GName 3]), s') /\ good node_program node_universe s' /\
    class_decls node_program !! 0%nat = Some decl /\ (GSpec 0 [GName 3], copy) ∈ done_classes s' /\
    class_instance node_program (discovery s') decl [GName 3] copy /\ methods_done s' copy /\ building s' = [].
Proof.
  apply (monomorphize_class_exact node_program node_universe (fresh_mono node_tables) 0 [GName 3]);
    [exact letter_names_distinct|exact node_closed|exact node_good|reflexivity|exact node_reachable].
Defined.
