(* ===== verification/Inference.v ===== *)
(** * Inference of type arguments ([lowering.py], [type_resolver.py])

    A bare call of a generic function or class finds its type arguments by
    unifying the declared parameter types with the arguments' types.
    [unify_type_param] is that walk: it binds a type parameter where it meets
    one, reports a parameter inferred as two types that are not the same
    ([same_type] sees through the two objects a class or tuple type may be),
    and from a parameter with a parametrized protocol bound ([S: Iterable[T]])
    goes on to the protocol the argument's class declares.  The theorem says
    that it finds the substitution that makes the declared type the argument's
    whenever there is one, so that no conflict is reported for a call that has
    a typing. *)

From Stdlib Require Import Ascii String Sorted.
From S2P Require Import Prelude Generics TypeTables Monomorphize MonomorphizeCorrect.

Local Open Scope string_scope.
Local Open Scope monad_scope.

(** ** The same type as another object *)

(** [_as_specialization]: [origin_of] recovers the specialization a class was made for. *)
Definition as_specialization (t : GTy) : option (nat * list GTy) :=
  match t with
  | GSpec b l | GMono b l => Some (b, l)
  | _ => None
  end.

(** [a.backing if isinstance( a, TupleType ) else a] *)
Definition backing_of (d : Discovery) (t : GTy) : option GTy :=
  match t with
  | GTuple l => if existsb (same_objects l) (backings d) then Some (GBacking l) else None
  | _ => Some t
  end.

Definition same_type (d : Discovery) (a b : GTy) : bool :=
  gty_eqb a b ||
  match as_specialization a, as_specialization b with
  | Some (n, l), Some (n', l') => Nat.eqb n n' && same_objects l l'
  | _, _ => false
  end ||
  match backing_of d a, backing_of d b with
  | Some a, Some b => gty_eqb a b
  | _, _ => false
  end.

(** ** Unification *)

(** Type parameter, what it was bound to, what it should be bound to now. *)
Inductive infer_error := IMono (e : mono_error) | IConflict (v : nat) (existing actual : GTy).

Abbreviation MI := (M Mono infer_error).

Abbreviation Bindings := (gmap nat GTy).

Definition lift_mono {A} (m : MM A) : MI A :=
  fun s => match m s with
           | (Ok a, s') => (Ok a, s')
           | (Err e, s') => (Err (IMono e), s')
           end.

(** [for d, a in zip( declared, actual ): self._unify_type_param( ..., d, a, bindings, ... )] *)
Section unify_zip.
Context (unify : GTy -> GTy -> Bindings -> MI Bindings).

Fixpoint unify_zip (declared actual : list GTy) (bindings : Bindings) : MI Bindings :=
  match declared, actual with
  | d :: declared, a :: actual => let* bindings := unify d a bindings in unify_zip declared actual bindings
  | _, _ => ret bindings
  end.
End unify_zip.

(** The first entry for the protocol [p]. *)
Fixpoint find_entry (p : nat) (protocols : list GTy) : option (list GTy) :=
  match protocols with
  | [] => None
  | GSpec base l :: protocols => if Nat.eqb base p then Some l else find_entry p protocols
  | _ :: protocols => find_entry p protocols
  end.

Section inference.
Context (prog : Program) (monomorphize_class : GTy -> MM GTy).

(** The bounds of type variables, and what the [__next__] of a class returns, if
    that is a specialization of two arguments ([_find_iterator_next_method]). *)
Context (bounds : gmap nat GTy) (next_args : GTy -> Mono -> option (GTy * GTy)).

Definition is_tagged_union (t : GTy) : bool :=
  match t with
  | GUnion _ => true
  | GName b | GMono b _ => match class_decls prog !! b with Some decl => match class_kind decl with KTaggedUnion => true | _ => false end | None => false end
  | _ => false
  end.

Definition rc_protocols (b : nat) : list GTy :=
  match class_decls prog !! b with
  | Some decl => match class_kind decl with KRCClass => class_protocols decl | _ => [] end
  | None => []
  end.

(** The arguments with which the class of [actual] conforms to the protocol [p]. *)
Definition conformance (p : nat) (actual : GTy) : MM (option (list GTy)) :=
  let* s := get in
  match actual with
  | GSpec b l =>
      match class_decls prog !! b, find_entry p (rc_protocols b) with
      | Some decl, Some entry_args =>
          let* entry_args := map_m (substitute_type_params prog monomorphize_class (class_params decl) l) entry_args in ret (Some entry_args)
      | _, _ => ret None
      end
  | GMono b l =>
      match class_decls prog !! b, find_done (GSpec b l) (done_classes s) with
      | Some decl, Some copy => ret (match class_kind decl with KRCClass => find_entry p (copy_protocols copy) | _ => None end)
      | _, _ => ret None
      end
  | GName b => ret (find_entry p (rc_protocols b))
  | GTuple l | GBacking l =>
      if existsb (same_objects l) (backings (discovery s)) then
        let* protocols := tuple_protocols prog l in ret (find_entry p protocols)
      else ret None
  | _ => ret None
  end.

Section unify.
Context (type_params : list nat) (unify_bound : GTy -> GTy -> Bindings -> MI Bindings).

(** A type parameter met with [actual]. *)
Definition bind_type_param (v : nat) (actual : GTy) (bindings : Bindings) : MI Bindings :=
  let* s := get in
  match bindings !! v with
  | Some existing => if same_type (discovery s) existing actual then ret tt else raise (IConflict v existing actual)
  | None => ret tt
  end ;;;
  let bindings := <[v := actual]> bindings in
  match bounds !! v with
  | Some (GSpec p bound_args) =>
      let* entry_args := lift_mono (conformance p actual) in
      match entry_args with
      | Some entry_args => unify_zip unify_bound bound_args entry_args bindings
      | None => ret bindings
      end
  | _ => ret bindings
  end.

Fixpoint unify_step (declared actual : GTy) (bindings : Bindings) : MI Bindings :=
  match declared with
  | GVar v => if existsb (Nat.eqb v) type_params then bind_type_param v actual bindings else ret bindings
  | GSpec b args =>
      match as_specialization actual with
      | Some (b', actual_args) => if Nat.eqb b b' then unify_zip unify_step args actual_args bindings else ret bindings
      | None => ret bindings
      end
  | GCallable arg_types return_type =>
      match actual with
      | GCallable actual_args actual_return => let* bindings := unify_zip unify_step arg_types actual_args bindings in unify_step return_type actual_return bindings
      | _ => ret bindings
      end
  | GClosure arg_types return_type =>
      match actual with
      | GClosure actual_args actual_return => let* bindings := unify_zip unify_step arg_types actual_args bindings in unify_step return_type actual_return bindings
      | _ => ret bindings
      end
  | GUnion leaves =>
      if is_tagged_union actual then ret bindings
      else
        (fix first_leaf (leaves : list GTy) : MI Bindings :=
           match leaves with
           | [] => ret bindings
           | leaf :: leaves =>
               let applies :=
                 match leaf with
                 | GVar v => existsb (Nat.eqb v) type_params
                 | GSpec b _ => match as_specialization actual with Some (b', _) => Nat.eqb b b' | None => false end
                 | GCallable _ _ => match actual with GCallable _ _ => true | _ => false end
                 | _ => false
                 end in
               if applies then unify_step leaf actual bindings else first_leaf leaves
           end) leaves
  | GGenerator _ elem _ error =>
      let* s := get in
      match next_args actual s with
      | Some (elem', error') =>
          let* bindings := unify_step elem elem' bindings in
          match error with
          | Some error => unify_step error error' bindings
          | None => ret bindings
          end
      | None => ret bindings
      end
  | GTuple elems =>
      match actual with
      | GTuple actual_elems | GBacking actual_elems =>
          if Nat.eqb (length elems) (length actual_elems) then unify_zip unify_step elems actual_elems bindings else ret bindings
      | _ => ret bindings
      end
  | _ => ret bindings
  end.
End unify.

(** [fuel] bounds the depth to which bounds lead to other type parameters. *)
Fixpoint unify_type_param (fuel : nat) (type_params : list nat) : GTy -> GTy -> Bindings -> MI Bindings :=
  unify_step type_params
    (match fuel with
     | O => fun _ _ _ => raise (IMono OutOfFuel)
     | S fuel => unify_type_param fuel type_params
     end).

(** The type parameters a call's arguments determine, [None] if one is missing. *)
Definition infer_type_args (fuel : nat) (type_params : list nat) (parameters arguments : list GTy) : MI (option (list GTy)) :=
  let* bindings := unify_zip (unify_type_param fuel type_params) parameters arguments ∅ in
  ret (mapM (fun v => bindings !! v) type_params).

(** [_type_mentions_param] *)
Fixpoint type_mentions_param (v : nat) (t : GTy) : bool :=
  match t with
  | GVar v' => Nat.eqb v v'
  | GSpec _ l | GTuple l | GUnion l => existsb (type_mentions_param v) l
  | GCallable l r | GClosure l r => existsb (type_mentions_param v) l || type_mentions_param v r
  | GGenerator _ e s r => type_mentions_param v e || match r with Some r => type_mentions_param v r | None => false end || match s with Some s => type_mentions_param v s | None => false end
  | _ => false
  end.

End inference.

(** ** The two objects of a type *)

Definition one_member (t : GTy) : Prop := exists m, t = GUnion [m].

Lemma union_of_one l t : Forall nonunion l -> l <> [] -> norm (GUnion l) = norm t -> nonunion t -> one_member (GUnion l).
Proof.
  intros Hu Hne E Ht. destruct l as [|m [|m' l]]; [done|by exists m|]. cbn [norm map collapse] in E. apply norm_nonunion in Ht. by rewrite <- E in Ht.
Qed.

Section same_type.
Context (names : Names) (d : Discovery).

Lemma same_object_refl a : gty_eqb a a = true.
Proof. by apply gty_eqb_spec. Qed.

Lemma same_objects_refl l : same_objects l l = true.
Proof. apply list_eqb_spec; [|done]. apply Forall_true, gty_eqb_spec. Qed.

Lemma same_norm_qualname a b : norm a = norm b -> qualname names a = qualname names b.
Proof. intros E. by rewrite <- (qualname_norm names a), E, qualname_norm. Qed.

Lemma known_tuple_unique l l' : known names d (GTuple l) -> known names d (GTuple l') -> norm (GTuple l) = norm (GTuple l') -> l = l'.
Proof.
  intros H H' E%same_norm_qualname. inversion H as [| | | | | |? _ Hk| |]; inversion H' as [| | | | | |? _ Hk'| |]; subst. rewrite E in Hk. congruence.
Qed.

Lemma backed l : known names d (GBacking l) -> known names d (GTuple l) /\ existsb (same_objects l) (backings d) = true.
Proof.
  intros H. inversion H as [| | | | | | |? Hk Hin|]; subst. split; [done|]. apply existsb_exists. exists l. split; [by apply list_elem_of_In|apply same_objects_refl].
Qed.

(** [_same_type] sees through the choice of object, but for a union of one member. *)
Lemma same_type_complete a b : usable names d a -> usable names d b -> vars a = [] -> vars b = [] -> norm a = norm b ->
  same_type d a b = true \/ one_member a \/ one_member b.
Proof.
  intros [Hpa Hka] [Hpb Hkb] Hva Hvb E. pose proof (same_norm_qualname a b E) as Eq.
  assert (Hsame : a = b -> same_type d a b = true) by (intros ->; unfold same_type; by rewrite same_object_refl).
  assert (Hspec : forall n l l', norm (GSpec n l) = norm (GSpec n l') -> known names d (GSpec n l) -> known names d (GSpec n l') ->
    vars (GSpec n l) = [] -> vars (GSpec n l') = [] -> l = l').
  { intros n l l' En H1 H2 Hv1 Hv2. injection En as En. by eapply known_spec_unique. }
  assert (Hspecs : forall n l l', as_specialization a = Some (n, l) -> as_specialization b = Some (n, l') -> l = l' -> same_type d a b = true).
  { intros n l l' Ha Hb <-. unfold same_type. rewrite Ha, Hb, Nat.eqb_refl, same_objects_refl. by rewrite orb_true_r. }
  assert (Hback : forall t, backing_of d a = Some t -> backing_of d b = Some t -> same_type d a b = true).
  { intros t Ha Hb. unfold same_type. rewrite Ha, Hb, same_object_refl. by rewrite !orb_true_r. }
  destruct a as [v|n|n l|n l|l r|l r|x e s r|l|l|t n|l]; destruct b as [v'|n'|n' l'|n' l'|l' r'|l' r'|x' e' s' r'|l'|l'|t' n'|l'];
    try discriminate E; try discriminate Hva; try (by inversion Hpa); try (by inversion Hpb);
    try (right; left; inversion Hpa; subst; by eapply union_of_one);
    try (right; right; inversion Hpb; subst; symmetry in E; by eapply union_of_one); left;
    try (apply Hsame; cbn [norm] in E; congruence);
    try (assert (n = n') as <- by (by injection E); apply (Hspecs n l l'); [done|done|]; apply (Hspec n); try done; try (by inversion Hka); by inversion Hkb).
  - apply Hsame. inversion Hka as [| | | |? ? _ _ Ha| | | |]; inversion Hkb as [| | | |? ? _ _ Hb| | | |]; subst. rewrite Eq in Ha. congruence.
  - apply Hsame. inversion Hka as [| | | | |? ? _ _ Ha| | |]; inversion Hkb as [| | | | |? ? _ _ Hb| | |]; subst. rewrite Eq in Ha. congruence.
  - apply Hsame. f_equal. by apply known_tuple_unique.
  - destruct (backed l' Hkb) as [Hk Hb]. assert (l = l') as <- by (by apply known_tuple_unique). apply (Hback (GBacking l)); [|done]. cbn [backing_of]. by rewrite Hb.
  - destruct (backed l Hka) as [Hk Hb]. assert (l = l') as <- by (by apply known_tuple_unique). apply (Hback (GBacking l)); [done|]. cbn [backing_of]. by rewrite Hb.
  - destruct (backed l Hka) as [Hk _], (backed l' Hkb) as [Hk' _]. apply Hsame. f_equal. by apply known_tuple_unique.
  - apply Hsame. inversion Hka as [| | | | | | | |? _ Ha]; inversion Hkb as [| | | | | | | |? _ Hb]; subst. rewrite Eq in Ha. congruence.
Qed.

(** What it takes for the same is the same. *)
Lemma same_type_sound a b : same_type d a b = true -> norm a = norm b.
Proof.
  unfold same_type. intros H. apply orb_true_iff in H as [H|H]; [apply orb_true_iff in H as [H|H]|].
  - by apply gty_eqb_spec in H as ->.
  - destruct (as_specialization a) as [[n l]|] eqn:Ea; [|done]. destruct (as_specialization b) as [[n' l']|] eqn:Eb; [|done].
    apply andb_prop in H as [->%Nat.eqb_eq ->%same_objects_eq]. destruct a; try done; destruct b; try done; by simplify_eq/=.
  - destruct (backing_of d a) as [a'|] eqn:Ea; [|done]. destruct (backing_of d b) as [b'|] eqn:Eb; [|done]. apply gty_eqb_spec in H as ->.
    destruct a; try done; destruct b; try done; cbn [backing_of] in *; repeat (destruct (existsb _ _); [|done]); by simplify_eq/=.
Qed.
End same_type.

(** ** What a class declares of a protocol *)

(** The arguments of [p] in the protocols of a type in normal form. *)
Definition conforms_with (prog : Program) (p : nat) (t : GTy) : option (list GTy) :=
  match t with
  | GSpec b l =>
      match class_decls prog !! b with
      | Some decl => option_map (map (subst prog (bound (class_params decl) l))) (find_entry p (rc_protocols prog b))
      | None => None
      end
  | GName b => option_map (map norm) (find_entry p (rc_protocols prog b))
  | GTuple l =>
      match homogeneous (prog_names prog) l, sequence_protocol prog, iterable_protocol prog with
      | Some elem, Some sequence, Some iterable => if Nat.eqb sequence p || Nat.eqb iterable p then Some [elem] else None
      | _, _, _ => None
      end
  | _ => None
  end.

Lemma find_entry_in p l entry_args : find_entry p l = Some entry_args -> GSpec p entry_args ∈ l.
Proof.
  induction l as [|t l IH]; cbn [find_entry]; [done|]. destruct t as [| |b l'| | | | | | | |]; try (intros H; right; by apply IH).
  destruct (Nat.eqb_spec b p) as [->|]; [intros [= ->]; left|intros H; right; by apply IH].
Qed.

Section conformance.
Context (prog : Program) (Hn : distinct_names (prog_names prog)) (U : list (nat * list GTy)).
Notation names := (prog_names prog).
Notation usable := (usable (prog_names prog)).
Context (mc : GTy -> MM GTy) (room : Mono -> Prop) (Hroom : forall s s', later s s' -> room s -> room s').
Context (Hmc : forall s b args, good prog U s -> room s -> is_class prog b = true -> usable (discovery s) (GSpec b args) -> vars (GSpec b args) = [] ->
  (b, map norm args) ∈ U -> GSpec b args ∉ building s ->
  runs (mc (GSpec b args)) s (fun t s' => good prog U s' /\ later s s' /\ t = GMono b args)).

(** The arguments of an entry found: objects of the tables, without variables. *)
Definition entry_ok (s : Mono) (want : option (list GTy)) (entry_args : option (list GTy)) : Prop :=
  match entry_args with
  | Some l => Forall (usable (discovery s)) l /\ List.flat_map vars l = [] /\ want = Some (map norm l)
  | None => True
  end.

Lemma homogeneous_norm l : homogeneous names (map norm l) = option_map norm (homogeneous names l).
Proof.
  destruct l as [|t l]; [done|]. cbn [homogeneous map].
  assert (E : forall k, forallb (fun t' => String.eqb (qualname names t') (qualname names (norm t))) (map norm k) =
    forallb (fun t' => String.eqb (qualname names t') (qualname names t)) k).
  { induction k as [|t' k IH]; [done|]. cbn [forallb map]. by rewrite IH, !qualname_norm. }
  change (norm t :: map norm l) with (map norm (t :: l)). rewrite E. by destruct (forallb _ _).
Qed.

Lemma tuple_conformance p l s : good prog U s -> Forall (usable (discovery s)) l -> List.flat_map vars l = [] ->
  runs (let* protocols := tuple_protocols prog l in ret (find_entry p protocols)) s
    (fun r s' => good prog U s' /\ later s s' /\ entry_ok s' (conforms_with prog p (GTuple (map norm l))) r).
Proof.
  intros Hs Hl Hv. unfold tuple_protocols. cbn [conforms_with]. rewrite homogeneous_norm.
  destruct (homogeneous names l) as [t|] eqn:Eh; [|by apply runs_bind, runs_ret, runs_ret].
  destruct (sequence_protocol prog) as [sq|]; [|by apply runs_bind, runs_ret, runs_ret]. destruct (iterable_protocol prog) as [it|]; [|by apply runs_bind, runs_ret, runs_ret].
  pose proof (homogeneous_elem prog l t Eh) as Hin. assert (Ht : usable (discovery s) t) by (by eapply Forall_forall in Hl).
  assert (Hvt : vars t = []) by (apply flat_map_nil in Hv; by eapply Forall_forall in Hv).
  apply runs_bind, runs_bind. eapply runs_mono; [by apply spec_ok, Forall_singleton|]. intros a s1 (Hg1 & Hl1 & Hu1 & E1 & l1 & ->).
  apply runs_bind. eapply runs_mono; [apply spec_ok; [done|done|]|].
  { apply Forall_singleton. eapply usable_extends; [by apply later_discovery|done]. }
  intros b s2 (Hg2 & Hl2 & Hu2 & E2 & l2 & ->). apply runs_ret, runs_ret. split_and!; [done|by etransitivity|].
  assert (Hu1' : usable (discovery s2) (GSpec sq l1)) by (eapply usable_extends; [by apply later_discovery|done]).
  cbn [option_map find_entry]. cbn [norm map] in E1, E2. injection E1 as E1. injection E2 as E2.
  assert (Hok : forall q k, usable (discovery s2) (GSpec q k) -> map norm k = [norm t] -> entry_ok s2 (Some [norm t]) (Some k)).
  { intros q k [Hp Hk] E. inversion Hp; inversion Hk; subst. split_and!; [by apply usable_split| |by rewrite E].
    rewrite <- (flat_map_norm vars k), E by (apply Forall_true, vars_norm). cbn. by rewrite vars_norm, Hvt. }
  destruct (Nat.eqb sq p); cbn [orb]; [by eapply Hok|]. destruct (Nat.eqb it p); [by eapply Hok|done].
Qed.

(** The protocols of a class copy are those of the declaration, substituted. *)
Lemma copied_entry d σ kind p l l' : kind = KRCClass -> Forall2 (protocol_instance prog d σ kind) l l' ->
  match find_entry p l with
  | Some entry_args => exists k, find_entry p l' = Some k /\ instance prog d σ (GSpec p entry_args) (GSpec p k)
  | None => find_entry p l' = None
  end.
Proof.
  intros ->. induction 1 as [|t t' l l' Ht _ IH]; [done|].
  destruct t as [| |b k| | | | | | | |]; cbn [protocol_instance] in Ht; try (subst t'; exact IH).
  destruct Ht as [Hi [k' ->]]. cbn [find_entry]. destruct (Nat.eqb_spec b p) as [->|]; [|exact IH]. by exists k'.
Qed.

(** Where the argument's class is one of the instantiations of [U], and a class
    that is not generic has protocols without variables. *)
Definition conformance_applies (p : nat) (t : GTy) : Prop :=
  match t with
  | GSpec b l => is_class prog b = true -> (b, l) ∈ U
  | GName b => forall entry_args, find_entry p (rc_protocols prog b) = Some entry_args -> List.flat_map vars entry_args = []
  | _ => True
  end.

Lemma rc_protocols_in b t : t ∈ rc_protocols prog b -> exists decl, class_decls prog !! b = Some decl /\ class_kind decl = KRCClass /\ t ∈ class_protocols decl.
Proof.
  unfold rc_protocols. destruct (class_decls prog !! b) as [decl|]; [|by intros ?%elem_of_nil]. destruct (class_kind decl) eqn:Ek; [|by intros ?%elem_of_nil..]. eauto.
Qed.

Lemma entry_usable s b p k : good prog U s -> find_entry p (rc_protocols prog b) = Some k -> usable (discovery s) (GSpec p k).
Proof.
  intros Hg He. apply find_entry_in, rc_protocols_in in He as (decl & Hb & _ & Hin). pose proof (good_supers _ _ _ Hg b decl Hb) as Ht.
  eapply Forall_forall in Ht; [exact Ht|]. unfold super_types. rewrite !elem_of_app. tauto.
Qed.

Lemma spec_conformance p b l decl k s : closed_universe prog U -> good prog U s -> room s -> usable (discovery s) (GSpec b l) -> vars (GSpec b l) = [] ->
  (b, map norm l) ∈ U -> class_decls prog !! b = Some decl -> find_entry p (rc_protocols prog b) = Some k ->
  runs (map_m (substitute_type_params prog mc (class_params decl) l) k) s
    (fun k' s' => good prog U s' /\ later s s' /\ entry_ok s' (Some (map (subst prog (bound (class_params decl) (map norm l))) k)) (Some k')).
Proof.
  intros HU Hg Hr Hu Hv Hin Eb Ee.
  assert (Harg : arguments prog (discovery s) (class_params decl) l) by (eapply (reachable_arguments prog U s b); [done|by exists b, l|done]).
  destruct (HU _ _ Hin) as (decl' & Eb' & Hok & _ & Hmen). simplify_eq.
  assert (Hct : GSpec p k ∈ class_types decl).
  { pose proof (find_entry_in _ _ _ Ee) as Hp. apply rc_protocols_in in Hp as (decl' & Eb2 & _ & Hp). simplify_eq. unfold class_types, super_types. rewrite !elem_of_app. tauto. }
  assert (Hb : bound (class_params decl) (map norm l) = bound (class_params decl) l) by (apply (bound_norm prog); destruct Hu as [Hp _]; by inversion Hp).
  destruct (entry_usable s b p k Hg Ee) as [Hp Hk]. inversion Hp; inversion Hk; subst. eapply runs_mono.
  - apply (substitutes_all prog U mc room Hroom (class_params decl) l); [|by split_and!|by apply usable_split|..].
    + apply Forall_true. intros t. by apply (substitute_ok prog Hn U mc room).
    + pose proof (class_closed _ _ _ Hok) as Hc. by eapply Forall_forall in Hc; [|exact Hct].
    + rewrite Hb in Hmen. intros i Hi. rewrite Forall_forall in Hmen. apply (Hmen (GSpec p k)); [by apply elem_of_app; left|]. cbn [instances]. apply elem_of_app. by right.
  - intros l2 s2 (Hg2 & Hl2 & HF). destruct (instances_all prog (class_params decl) l _ _ _ HF) as (E1 & E2 & E3).
    split_and!; [done|done|]. split_and!; [done|done|]. by rewrite Hb, E3.
Qed.

Lemma mono_conformance p b l decl copy s : good prog U s -> usable (discovery s) (GMono b l) -> class_decls prog !! b = Some decl ->
  find_done (GSpec b l) (done_classes s) = Some copy -> class_kind decl = KRCClass ->
  entry_ok s (option_map (map (subst prog (bound (class_params decl) (map norm l)))) (find_entry p (class_protocols decl))) (find_entry p (copy_protocols copy)).
Proof.
  intros Hg Hu Eb Ef Ek. pose proof (good_classes _ _ _ Hg) as Hc. apply find_done_in in Ef. rewrite Forall_forall in Hc.
  destruct (Hc _ Ef) as (b' & l' & decl' & [= <- <-] & Eb' & Hi & _). simplify_eq.
  pose proof (copied_entry _ _ _ p _ _ Ek (inst_protocols _ _ _ _ _ Hi)) as He.
  rewrite (bound_norm prog) by (destruct Hu as [Hp _]; by inversion Hp).
  destruct (find_entry p (class_protocols decl)) as [k|]; [|by rewrite He]. destruct He as (k' & -> & [Hp Hk] & Hv & E).
  inversion Hp; inversion Hk; subst. cbn [norm subst] in E. injection E as E. split_and!; [by apply usable_split|done|]. cbn [option_map]. by rewrite E.
Qed.

Lemma conformance_ok p t s : closed_universe prog U -> good prog U s -> room s -> usable (discovery s) t -> vars t = [] -> conformance_applies p (norm t) ->
  runs (conformance prog mc p t) s (fun r s' => good prog U s' /\ later s s' /\ entry_ok s' (conforms_with prog p (norm t)) r).
Proof.
  intros HU Hg Hr Hu Hv Happ. unfold conformance. apply runs_bind, runs_get.
  destruct t as [| b|b l|b l| | | |l|l| |]; try (by apply runs_ret); cbn [norm conforms_with conformance_applies] in *.
  - destruct (find_entry p (rc_protocols prog b)) as [k|] eqn:Ee; apply runs_ret; [|done]. split_and!; [done|done|].
    destruct (entry_usable s b p k Hg Ee) as [Hp Hk]. inversion Hp; inversion Hk; subst. split_and!; [by apply usable_split|by apply Happ|done].
  - destruct (class_decls prog !! b) as [decl|] eqn:Eb; [|by apply runs_ret]. destruct (find_entry p (rc_protocols prog b)) as [k|] eqn:Ee; [|by apply runs_ret].
    assert (Hin : (b, map norm l) ∈ U) by (apply Happ; unfold is_class; by rewrite Eb).
    apply runs_bind. eapply runs_mono; [by eapply (spec_conformance p b l)|]. intros k' s' (H1 & H2 & H3). by apply runs_ret.
  - destruct (class_decls prog !! b) as [decl|] eqn:Eb; [|by apply runs_ret]. destruct (find_done _ _) as [copy|] eqn:Ef; apply runs_ret; [|done].
    split_and!; [done|done|]. unfold rc_protocols. rewrite Eb. destruct (class_kind decl) eqn:Ek; try done. by apply (mono_conformance p b).
  - destruct (existsb _ _); [|by apply runs_ret]. destruct Hu as [Hp Hk]. inversion Hp; inversion Hk; subst. apply tuple_conformance; [done|by apply usable_split|done].
  - destruct (existsb _ _); [|by apply runs_ret]. destruct Hu as [Hp Hk]. inversion Hp as [| | | | | | |? Hpl|]; inversion Hk as [| | | | | | |? Hkt|]; subst. inversion Hkt; subst.
    apply tuple_conformance; [done|by apply usable_split|done].
Qed.
End conformance.

(** ** Unification finds the substitution *)

(** Success, or a conflict between a union of one member and its member: two
    objects for one type that [_same_type] keeps apart. *)
Definition infers {A} (m : MI A) (s : Mono) (Q : A -> Mono -> Prop) : Prop :=
  runs m s Q \/ exists v e a s', m s = (Err (IConflict v e a), s') /\ norm e = norm a /\ (one_member e \/ one_member a).

Lemma infers_bind {A B} (m : MI A) (k : A -> MI B) s Q : infers m s (fun a s' => infers (k a) s' Q) -> infers (bind m k) s Q.
Proof.
  intros [(a & s' & E & [H|(v & e & b & s'' & E' & H)])|(v & e & b & s' & E & H)].
  - left. apply runs_bind. by exists a, s'.
  - right. exists v, e, b, s''. by rewrite (bind_ok _ _ _ _ _ E).
  - right. exists v, e, b, s'. by rewrite (bind_err _ _ _ _ _ E).
Qed.

Lemma infers_mono {A} (m : MI A) s (Q Q' : A -> Mono -> Prop) : infers m s Q -> (forall a s', Q a s' -> Q' a s') -> infers m s Q'.
Proof. intros [H|H] HQ; [left; by eapply runs_mono|by right]. Qed.

Lemma infers_ret {A} (a : A) s (Q : A -> Mono -> Prop) : Q a s -> infers (ret a) s Q.
Proof. intros H. left. by apply runs_ret. Qed.

Lemma infers_get s (Q : Mono -> Mono -> Prop) : Q s s -> infers get s Q.
Proof. intros H. left. by apply runs_get. Qed.

Lemma infers_lift {A} (m : MM A) s Q : runs m s Q -> infers (lift_mono m) s Q.
Proof. intros (a & s' & E & H). left. exists a, s'. unfold lift_mono. by rewrite E. Qed.

(** The type parameters that an argument of a type settles: those that do not
    stand in a union only. *)
Fixpoint determined (t : GTy) : list nat :=
  match t with
  | GVar v => [v]
  | GSpec _ l | GTuple l => List.flat_map determined l
  | GCallable l r | GClosure l r => List.flat_map determined l ++ determined r
  | _ => []
  end.

(** No union of one member anywhere. *)
Fixpoint plural (t : GTy) : bool :=
  match t with
  | GVar _ | GName _ => true
  | GSpec _ l | GMono _ l | GTuple l | GBacking l => forallb plural l
  | GCallable l r | GClosure l r => forallb plural l && plural r
  | GGenerator _ e _ r => plural e && match r with Some r => plural r | None => true end
  | GArray t _ => plural t
  | GUnion l => negb (Nat.eqb (length l) 1) && forallb plural l
  end.

(** The type parameters that a given argument settles. *)
Definition settled (declared actual : GTy) : list nat := if plural actual then determined declared else [].

(** Substituting types in normal form gives types in normal form. *)
Lemma subst_proper prog σ t : distinct_names (prog_names prog) -> (forall v, exists u, proper (prog_names prog) u /\ norm u = σ v) -> proper (prog_names prog) t ->
  exists u, proper (prog_names prog) u /\ norm u = subst prog σ t.
Proof.
  intros Hn Hσ. assert (Hl : forall l, Forall (fun t => proper (prog_names prog) t -> exists u, proper (prog_names prog) u /\ norm u = subst prog σ t) l ->
    Forall (proper (prog_names prog)) l -> exists k, Forall (proper (prog_names prog)) k /\ map norm k = map (subst prog σ) l).
  { intros l IH Hp. induction IH as [|t' l Ht _ IH]; [by exists []|]. apply Forall_cons in Hp as [Hp1 Hp2].
    destruct (Ht Hp1) as (u & Hu & E), (IH Hp2) as (k & Hk & Ek). exists (u :: k). split; [by constructor|]. cbn [map]. by rewrite E, Ek. }
  induction t as [v|n|b l IH|b l IH|l r IH IHr|l r IH IHr|x e s r _ _ _|l IH|l IH|t n _|l IH] using GTy_nested_ind; intros Hp; inversion Hp; subst; cbn [subst];
    try (destruct (Hl l IH) as (k & Hk & Ek); [done|]; assert (Hne : l <> [] -> k <> []) by (by intros Hne ->; destruct l); rewrite <- Ek);
    try (destruct IHr as (u & Hu & <-); [done|]).
  - apply Hσ.
  - exists (GName n). by split; [constructor|].
  - exists (GSpec b k). by split; [constructor|].
  - exists (GSpec b k). by split; [constructor|].
  - exists (GCallable k u). by split; [constructor|].
  - exists (GClosure k u). by split; [constructor|].
  - exists (GTuple k). by split; [constructor|].
  - exists (GTuple k). by split; [constructor|].
  - destruct (ordered_proper (prog_names prog) k Hk) as [H1' H2']. exists (GUnion (ordered_operands (prog_names prog) k)). split.
    + constructor; [done|done|apply ordered_spec|apply ordered_nonempty; [done|by apply Hne]].
    + unfold union_of. by rewrite ordered_norm.
Qed.

(** The leaves of a union that is one type are that type. *)
Lemma union_single names l m : distinct_names names -> nonunion m -> union_of names l = m -> (forall t, t ∈ l -> exists u, proper names u /\ norm u = t) ->
  forall t, t ∈ l -> t = m.
Proof.
  intros Hn Hm E Hl t Ht. destruct (Hl t Ht) as (u & Hu & <-).
  assert (Ho : ordered_operands names l = [m]).
  { unfold union_of in E. destruct (ordered_operands names l) as [|a [|b k]]; cbn [collapse] in E; subst; done. }
  assert (Hname : forall x, x ∈ members_of (norm u) -> qualname names x = qualname names m).
  { intros x Hx. destruct (ordered_spec names l) as (_ & _ & Hk). rewrite Ho in Hk. cbn [map] in Hk. setoid_rewrite list_elem_of_singleton in Hk.
    apply Hk, list_elem_of_fmap. exists x. split; [done|]. unfold flattened. apply list_elem_of_In, in_concat. exists (members_of (norm u)). split; [|by apply list_elem_of_In].
    apply in_map. by apply list_elem_of_In. }
  assert (Hmn : normal m).
  { destruct (ordered_spec names l) as (_ & Hin & _). rewrite Ho in Hin. specialize (Hin m ltac:(left)). unfold flattened in Hin.
    apply list_elem_of_In, in_concat in Hin as (ms & Hms & Hx). apply in_map_iff in Hms as (t' & <- & Ht'). apply list_elem_of_In in Ht'.
    destruct (Hl t' Ht') as (u' & Hu' & <-). destruct (members_normal (norm u') (norm_normal names u' Hu')) as (_ & H & _). eapply Forall_forall in H; [exact H|by apply list_elem_of_In]. }
  assert (Hnu : normal (norm u)) by (by apply (norm_normal names)).
  destruct (norm u) as [| | | | | | | | | |ms] eqn:Eu; try (apply (qualname_inj names Hn); [done|done|]; apply Hname; cbn [members_of]; left).
  exfalso. destruct u as [| | | | | | | | | |us]; try done. inversion Hu as [| | | | | | | |? Hp Hun Hs Hne]; subst. cbn [norm] in Eu.
  destruct (sorted_names names us Hs) as [_ Hnd]. destruct us as [|x [|y us]]; [done| |].
  - cbn [map collapse] in Eu. apply Forall_cons in Hun as [Hx%norm_nonunion _]. by rewrite Eu in Hx.
  - cbn [map collapse] in Eu. injection Eu as <-. cbn [map] in Hnd. apply NoDup_cons in Hnd as [Hnd _]. apply Hnd.
    rewrite <- (qualname_norm names x), <- (qualname_norm names y). rewrite (Hname (norm x)), (Hname (norm y)) by (cbn [members_of]; rewrite !elem_of_cons; tauto). left.
Qed.

Section unification.
Context (prog : Program) (Hn : distinct_names (prog_names prog)) (U : list (nat * list GTy)) (HU : closed_universe prog U).
Notation names := (prog_names prog).
Notation usable := (usable (prog_names prog)).
Context (mc : GTy -> MM GTy) (room : Mono -> Prop) (Hroom : forall s s', later s s' -> room s -> room s').
Context (Hmc : forall s b args, good prog U s -> room s -> is_class prog b = true -> usable (discovery s) (GSpec b args) -> vars (GSpec b args) = [] ->
  (b, map norm args) ∈ U -> GSpec b args ∉ building s ->
  runs (mc (GSpec b args)) s (fun t s' => good prog U s' /\ later s s' /\ t = GMono b args)).
Context (bounds : gmap nat GTy) (next_args : GTy -> Mono -> option (GTy * GTy)) (type_params : list nat).
Context (σ : nat -> GTy) (rank : nat -> nat).
Implicit Types (B : Bindings) (s : Mono) (actual declared : GTy).

(** A typing of the type variables that respects the bounds of the parameters:
    where the class bound to one declares the protocol of its bound, it does so
    with the arguments of the bound, which mention parameters of lower rank. *)
Record typing : Prop := {
  typing_proper v : exists u, proper names u /\ norm u = σ v;
  typing_bounds v p bound_args : v ∈ type_params -> bounds !! v = Some (GSpec p bound_args) ->
    Forall (proper names) bound_args /\ (forall w, w ∈ List.flat_map vars bound_args -> w ∈ type_params -> (rank w < rank v)%nat) /\
    conformance_applies prog U p (σ v) /\ (forall entry_args, conforms_with prog p (σ v) = Some entry_args -> entry_args = map (subst prog σ) bound_args);
}.
Context (Hσ : typing).

(** The bindings agree with the typing. *)
Definition inferred s B : Prop := forall v a, B !! v = Some a -> usable (discovery s) a /\ vars a = [] /\ norm a = σ v.

(** An argument whose type is the declared one under the typing. *)
Definition argument_fits s declared actual : Prop := usable (discovery s) actual /\ vars actual = [] /\ norm actual = subst prog σ declared.

Definition extended s B (found : list nat) B' s' : Prop :=
  good prog U s' /\ later s s' /\ inferred s' B' /\ (forall v, is_Some (B !! v) -> is_Some (B' !! v)) /\
  (forall v, v ∈ found -> v ∈ type_params -> is_Some (B' !! v)).

Definition start s B : Prop := good prog U s /\ room s /\ inferred s B.

Lemma argument_fits_later s s' declared actual : later s s' -> argument_fits s declared actual -> argument_fits s' declared actual.
Proof. intros Hl (H1 & H2). split; [by eapply usable_extends; [apply later_discovery|]|done]. Qed.

Lemma inferred_later s s' B : later s s' -> inferred s B -> inferred s' B.
Proof. intros Hl H v a E. destruct (H v a E) as (H1 & H2). split; [by eapply usable_extends; [apply later_discovery|]|done]. Qed.

Lemma extended_start s B found B' s' : start s B -> extended s B found B' s' -> start s' B'.
Proof. intros (_ & Hr & _) (H1 & H2 & H3 & _). split_and!; [done|by eapply Hroom|done]. Qed.

Lemma extended_refl s B : start s B -> extended s B [] B s.
Proof. intros (H1 & _ & H2). split_and!; try done. by intros v ?%elem_of_nil. Qed.

Lemma extended_trans s B l1 B1 s1 l2 B2 s2 : extended s B l1 B1 s1 -> extended s1 B1 l2 B2 s2 -> extended s B (l1 ++ l2)%list B2 s2.
Proof.
  intros (_ & L1 & _ & K1 & F1) (G2 & L2 & I2 & K2 & F2). split_and!; [done|by etransitivity|done|auto|].
  intros v [Hv|Hv]%elem_of_app Ht; auto.
Qed.

(** A way to unify, good for the declared type [declared]. *)
Definition unifies (unify : GTy -> GTy -> Bindings -> MI Bindings) declared : Prop := forall s actual B, start s B -> argument_fits s declared actual ->
  infers (unify declared actual B) s (extended s B (settled declared actual)).

Lemma extended_weaken s B found found' B' s' : found' ⊆ found -> extended s B found B' s' -> extended s B found' B' s'.
Proof. intros Hs (H1 & H2 & H3 & H4 & H5). split_and!; try done. intros v Hv. by apply H5, Hs. Qed.

Lemma unify_zip_ok unify l : Forall (unifies unify) l -> forall k s B, start s B -> Forall2 (argument_fits s) l k ->
  infers (unify_zip unify l k B) s (extended s B (if forallb plural k then List.flat_map determined l else [])).
Proof.
  induction 1 as [|t l Ht _ IH]; intros k s B Hs HF; inversion HF as [|? a ? k' Ha HF']; subst; cbn [unify_zip]; [by apply infers_ret, extended_refl|].
  apply infers_bind. eapply infers_mono; [by apply Ht|]. intros B1 s1 H1. cbn [List.flat_map forallb].
  eapply infers_mono; [apply IH; [by eapply extended_start|]|intros B2 s2 H2].
  - destruct H1 as (_ & Hl & _). eapply Forall2_impl; [exact HF'|]. intros t' a'. by apply argument_fits_later.
  - eapply extended_weaken; [|by eapply extended_trans]. unfold settled. destruct (plural a), (forallb plural k'); cbn [andb]; done || set_solver.
Qed.

Lemma fits_all s l k : Forall (usable (discovery s)) k -> List.flat_map vars k = [] -> map norm k = map (subst prog σ) l -> Forall2 (argument_fits s) l k.
Proof.
  revert l. induction k as [|a k IH]; intros [|t l] Hu Hv E; try done. cbn [map] in E. injection E as E1 E2.
  apply Forall_cons in Hu as [Hu1 Hu2]. cbn [List.flat_map] in Hv. apply app_nil in Hv as [Hv1 Hv2]. constructor; [by split_and!|by apply IH].
Qed.

Section step.
Context (unify_bound : GTy -> GTy -> Bindings -> MI Bindings) (limit : nat).
Context (Hbound : forall v declared, (rank v < limit)%nat -> proper names declared -> (forall w, w ∈ vars declared -> w ∈ type_params -> (rank w < rank v)%nat) ->
  unifies unify_bound declared).

Lemma inferred_insert s B v a : inferred s B -> usable (discovery s) a -> vars a = [] -> norm a = σ v -> inferred s (<[v := a]> B).
Proof. intros H H1 H2 H3 w b [[<- <-]|[_ E]]%lookup_insert_Some; [done|by apply H]. Qed.

(** A type parameter met. *)
Lemma bind_type_param_ok v actual s B : start s B -> argument_fits s (GVar v) actual -> v ∈ type_params -> (rank v < limit)%nat ->
  infers (bind_type_param prog mc bounds unify_bound v actual B) s (extended s B [v]).
Proof.
  intros Hs Hf Hv Hr. destruct Hf as (Hu & Hc & E). cbn [subst] in E. pose proof Hs as (Hg & Hroom' & HB). unfold bind_type_param.
  apply infers_bind, infers_get, infers_bind.
  assert (Hcheck : infers (match B !! v with
    | Some existing => if same_type (discovery s) existing actual then ret tt else raise (IConflict v existing actual)
    | None => ret tt
    end) s (fun _ s' => s' = s)).
  { destruct (B !! v) as [e|] eqn:Ee; [|by apply infers_ret]. destruct (HB v e Ee) as (H1 & H2 & H3).
    destruct (same_type (discovery s) e actual) eqn:Es; [by apply infers_ret|]. right. exists v, e, actual, s. split; [done|]. split; [congruence|].
    destruct (same_type_complete names (discovery s) e actual) as [?|?]; try done; congruence. }
  eapply infers_mono; [exact Hcheck|]. intros _ s' ->. set (B1 := <[v := actual]> B).
  assert (H1 : extended s B [v] B1 s).
  { split_and!; [done|done|by apply inferred_insert|..]; intros w.
    - intros Hw. subst B1. destruct (decide (v = w)) as [<-|]; [rewrite lookup_insert_eq; eauto|by rewrite lookup_insert_ne].
    - intros ->%list_elem_of_singleton _. subst B1. rewrite lookup_insert_eq. eauto. }
  destruct (bounds !! v) as [[| |p bound_args| | | | | | | |]|] eqn:Eb; try by apply infers_ret.
  destruct (typing_bounds Hσ v p bound_args Hv Eb) as (Hp & Hrank & Happ & Hconf). rewrite <- E in Happ, Hconf.
  apply infers_bind, infers_lift. eapply runs_mono; [by apply (conformance_ok prog Hn U mc room)|].
  intros entry s1 (Hg1 & Hl1 & He). destruct entry as [k|]; [|apply infers_ret; split_and!; [done|done|by eapply inferred_later, H1|apply H1..]].
  destruct He as (Hk1 & Hk2 & Hk3). apply Hconf in Hk3.
  eapply infers_mono; [apply (unify_zip_ok unify_bound bound_args)|].
  - apply Forall_forall. intros t Ht. apply (Hbound v); [done|by eapply Forall_forall in Hp|]. intros w Hw. apply Hrank, list_elem_of_In, in_flat_map.
    exists t. split; by apply list_elem_of_In.
  - split_and!; [done|by eapply Hroom|by eapply inferred_later, H1].
  - by apply fits_all.
  - intros B2 s2 (G2 & L2 & I2 & K2 & _). destruct H1 as (_ & _ & _ & K1 & F1). split_and!; [done|by etransitivity|done|auto|auto].
Qed.

Lemma unifies_nothing unify declared : (forall s actual B, start s B -> argument_fits s declared actual -> unify declared actual B s = (Ok B, s)) ->
  (forall s actual, argument_fits s declared actual -> settled declared actual = []) -> unifies unify declared.
Proof. intros H E s actual B Hs Hf. left. exists B, s. rewrite H, (E s) by done. split; [done|by apply extended_refl]. Qed.

Notation step := (unify_step prog mc bounds next_args type_params unify_bound).

Lemma zip_fits l k s B : Forall (unifies step) l -> start s B -> Forall (usable (discovery s)) k -> List.flat_map vars k = [] -> map norm k = map (subst prog σ) l ->
  infers (unify_zip step l k B) s (extended s B (if forallb plural k then List.flat_map determined l else [])).
Proof. intros Hl Hs Hu Hv E. apply unify_zip_ok; [done|done|by apply fits_all]. Qed.

(** A union that is a type which is no union has one member. *)
Lemma singular s us t : usable (discovery s) (GUnion us) -> norm (GUnion us) = t -> nonunion t -> plural (GUnion us) = false.
Proof.
  intros [Hp _] E Ht. inversion Hp; subst. destruct us as [|m [|m' us]]; [done|done|]. cbn [norm map collapse] in Ht. done.
Qed.

Lemma step_spec b l : Forall (unifies step) l -> unifies step (GSpec b l).
Proof.
  intros Hl s actual B Hs (Hu & Hv & E). cbn [unify_step subst] in *. unfold settled. cbn [determined].
  destruct actual as [| |b' k|b' k| | | | | | |us]; try discriminate E.
  - cbn [norm] in E. injection E as -> E. cbn [as_specialization plural]. rewrite Nat.eqb_refl. destruct Hu as [Hp Hk]. inversion Hp; inversion Hk; subst. apply zip_fits; try done. by apply usable_split.
  - cbn [norm] in E. injection E as -> E. cbn [as_specialization plural]. rewrite Nat.eqb_refl. destruct Hu as [Hp Hk].
    inversion Hp; inversion Hk as [| | |? ? Hks| | | | |]; subst; inversion Hks; subst. apply zip_fits; try done. by apply usable_split.
  - rewrite (singular s us _ Hu E) by done. by apply infers_ret, extended_refl.
Qed.

Lemma step_tuple l : Forall (unifies step) l -> unifies step (GTuple l).
Proof.
  intros Hl s actual B Hs (Hu & Hv & E). cbn [unify_step subst] in *. unfold settled. cbn [determined].
  destruct actual as [| | | | | | |k|k| |us]; try discriminate E.
  - cbn [norm] in E. injection E as E. cbn [plural]. assert (Hlen : length l = length k) by (apply (f_equal length) in E; by rewrite !length_map in E). rewrite Hlen, Nat.eqb_refl.
    destruct Hu as [Hp Hk]. inversion Hp; inversion Hk; subst. apply zip_fits; try done. by apply usable_split.
  - cbn [norm] in E. injection E as E. cbn [plural]. assert (Hlen : length l = length k) by (apply (f_equal length) in E; by rewrite !length_map in E). rewrite Hlen, Nat.eqb_refl.
    destruct Hu as [Hp Hk]. inversion Hp; inversion Hk as [| | | | | | |? Hks|]; subst; inversion Hks; subst. apply zip_fits; try done. by apply usable_split.
  - rewrite (singular s us _ Hu E) by done. by apply infers_ret, extended_refl.
Qed.

(** A signature: the arguments, then what is returned. *)
Lemma signature_fits l r k t s B : Forall (unifies step) l -> unifies step r -> start s B -> Forall (usable (discovery s)) k -> usable (discovery s) t ->
  (List.flat_map vars k ++ vars t)%list = [] -> map norm k = map (subst prog σ) l -> norm t = subst prog σ r ->
  infers (let* B := unify_zip step l k B in step r t B) s (extended s B (if forallb plural k && plural t then List.flat_map determined l ++ determined r else [])%list).
Proof.
  intros Hl Hr Hs Hk Ht Hv E1 E2. apply app_nil in Hv as [Hv1 Hv2]. apply infers_bind. eapply infers_mono; [by apply zip_fits|]. intros B1 s1 H1.
  pose proof H1 as (_ & L1 & _). eapply infers_mono; [apply Hr; [by eapply extended_start|by eapply argument_fits_later; [|split_and!]]|]. intros B2 s2 H2.
  eapply extended_weaken; [|by eapply extended_trans]. unfold settled. destruct (forallb plural k), (plural t); cbn [andb]; done || set_solver.
Qed.

Lemma step_callable l r : Forall (unifies step) l -> unifies step r -> unifies step (GCallable l r).
Proof.
  intros Hl Hr s actual B Hs (Hu & Hv & E). cbn [unify_step subst] in *. unfold settled. cbn [determined].
  destruct actual as [| | | |k t| | | | | |us]; try discriminate E.
  - cbn [norm] in E. injection E as E1 E2. destruct Hu as [Hp Hk]. inversion Hp; inversion Hk; subst. apply signature_fits; try done. by apply usable_split.
  - rewrite (singular s us _ Hu E) by done. by apply infers_ret, extended_refl.
Qed.

Lemma step_closure l r : Forall (unifies step) l -> unifies step r -> unifies step (GClosure l r).
Proof.
  intros Hl Hr s actual B Hs (Hu & Hv & E). cbn [unify_step subst] in *. unfold settled. cbn [determined].
  destruct actual as [| | | | |k t| | | | |us]; try discriminate E.
  - cbn [norm] in E. injection E as E1 E2. destruct Hu as [Hp Hk]. inversion Hp; inversion Hk; subst. apply signature_fits; try done. by apply usable_split.
  - rewrite (singular s us _ Hu E) by done. by apply infers_ret, extended_refl.
Qed.

Lemma step_var v : (rank v < limit)%nat \/ v ∉ type_params -> unifies step (GVar v).
Proof.
  intros Hr s actual B Hs Hf. cbn [unify_step]. unfold settled. cbn [determined]. destruct (existsb (Nat.eqb v) type_params) eqn:Ev.
  - apply existsb_exists in Ev as (w & Hw & <-%Nat.eqb_eq). apply list_elem_of_In in Hw. destruct Hr as [Hr|]; [|done].
    eapply infers_mono; [by apply bind_type_param_ok|]. intros B1 s1. apply extended_weaken. destruct (plural actual); set_solver.
  - apply infers_ret. destruct (extended_refl s B Hs) as (H1 & H2 & H3 & H4 & _). split_and!; try done. intros w Hw Hin.
    assert (w = v) as -> by (destruct (plural actual); set_solver). assert (E : existsb (Nat.eqb v) type_params = true); [|congruence].
    apply existsb_exists. exists v. split; [by apply list_elem_of_In|apply Nat.eqb_refl].
Qed.

Lemma step_union l : Forall (proper names) l -> Forall (unifies step) l -> unifies step (GUnion l).
Proof.
  intros Hp Hl s actual B Hs Hf. pose proof Hf as (Hu & Hv & E). cbn [unify_step]. unfold settled. cbn [determined].
  assert (Hsome : forall B s', extended s B [] B s' -> extended s B (if plural actual then [] else []) B s') by (intros B' s'; by destruct (plural actual)).
  destruct (is_tagged_union prog actual) eqn:Et; [by apply infers_ret, Hsome, extended_refl|].
  assert (Ha : nonunion (norm actual)) by (apply norm_nonunion; by destruct actual). cbn [subst] in E.
  assert (Hleaf : forall t, t ∈ l -> norm actual = subst prog σ t).
  { intros t Ht. symmetry. apply (union_single names (map (subst prog σ) l)); [done|done|done| |by apply list_elem_of_fmap_2].
    intros u Hin. apply list_elem_of_fmap in Hin as (t' & -> & Ht'). apply (subst_proper prog); [done|apply (typing_proper Hσ)|by eapply Forall_forall in Hp]. }
  clear E Ha. assert (Hsub : forall t, t ∈ l -> unifies step t /\ argument_fits s t actual) by (intros t Ht; split; [by eapply Forall_forall in Hl|split_and!; auto]).
  clear -Hsub Hsome Hs. induction l as [|t l IH]; [by apply infers_ret, Hsome, extended_refl|]. destruct (match t with GVar _ => _ | _ => _ end).
  - destruct (Hsub t ltac:(left)) as [H1 H2]. eapply infers_mono; [by apply H1|]. intros B1 s1. apply extended_weaken. destruct (plural actual); set_solver.
  - apply IH. intros u Hu. apply Hsub. by right.
Qed.

Lemma step_ok declared : proper names declared -> (forall w, w ∈ vars declared -> w ∈ type_params -> (rank w < limit)%nat) -> unifies step declared.
Proof.
  assert (Hall : forall l, Forall (fun t => proper names t -> (forall w, w ∈ vars t -> w ∈ type_params -> (rank w < limit)%nat) -> unifies step t) l ->
    Forall (proper names) l -> (forall w, w ∈ List.flat_map vars l -> w ∈ type_params -> (rank w < limit)%nat) -> Forall (unifies step) l).
  { intros l IH Hp Hr. rewrite Forall_forall in *. intros t Ht. apply IH; [done|by apply Hp|]. intros w Hw. apply Hr, list_elem_of_In, in_flat_map.
    exists t. split; by apply list_elem_of_In. }
  assert (Hnone : forall t, (forall actual B s, step t actual B s = (Ok B, s)) -> determined t = [] -> unifies step t).
  { intros t H Ed. apply unifies_nothing; [intros; apply H|]. intros s a _. unfold settled. rewrite Ed. by destruct (plural a). }
  induction declared using GTy_nested_ind; intros Hp Hr; inversion Hp; subst; cbn [vars] in Hr; try by apply Hnone.
  - apply step_var. destruct (decide (v ∈ type_params)) as [Hin|Hin]; [left; apply Hr; [left|done]|by right].
  - apply step_spec. by apply Hall.
  - apply step_callable; [apply Hall; try done|apply IHdeclared; try done]; intros w Hw; apply Hr, elem_of_app; tauto.
  - apply step_closure; [apply Hall; try done|apply IHdeclared; try done]; intros w Hw; apply Hr, elem_of_app; tauto.
  - apply step_tuple. by apply Hall.
  - apply step_union; [done|]. by apply Hall.
Qed.
End step.

Lemma unify_ok n declared : proper names declared -> (forall w, w ∈ vars declared -> w ∈ type_params -> (rank w < n)%nat) ->
  unifies (unify_type_param prog mc bounds next_args n type_params) declared.
Proof.
  revert declared. induction n as [|n IH]; intros declared Hp Hr; cbn [unify_type_param].
  - apply (step_ok _ 0%nat); [intros; lia|done|done].
  - apply (step_ok _ (S n)); [|done|done]. intros v d Hv Hd Hrank. apply IH; [done|]. intros w Hw Ht. specialize (Hrank w Hw Ht). lia.
Qed.
End unification.

(** Substitutions that agree on the variables of a type. *)
Lemma subst_agree prog σ σ' t : proper (prog_names prog) t -> (forall v, v ∈ vars t -> σ v = σ' v) -> subst prog σ t = subst prog σ' t.
Proof.
  assert (Hl : forall l, Forall (fun t => proper (prog_names prog) t -> (forall v, v ∈ vars t -> σ v = σ' v) -> subst prog σ t = subst prog σ' t) l ->
    Forall (proper (prog_names prog)) l -> (forall v, v ∈ List.flat_map vars l -> σ v = σ' v) -> map (subst prog σ) l = map (subst prog σ') l).
  { intros l IH Hp Hv. apply map_forall. rewrite Forall_forall in *. intros u Hu. apply IH; [done|by apply Hp|]. intros v Hin. apply Hv, list_elem_of_In, in_flat_map.
    exists u. split; by apply list_elem_of_In. }
  induction t using GTy_nested_ind; intros Hp Hv; inversion Hp; subst; cbn [subst vars] in *;
    try (rewrite (Hl l) by (done || (intros v Hin; apply Hv; rewrite ?elem_of_app; tauto))); try (rewrite IHt by (done || (intros v Hin; apply Hv; rewrite ?elem_of_app; tauto))); try done.
  apply Hv. left.
Qed.

Lemma zip_lookup_map σ params v : v ∈ params -> zip_lookup params (map σ params) v = Some (σ v).
Proof.
  induction params as [|p ps IH]; [by intros ?%elem_of_nil|]. cbn [map zip_lookup]. destruct (Nat.eqb_spec v p) as [->|]; [done|].
  intros [?|Hv]%elem_of_cons; [done|by apply IH].
Qed.

(** C18: A generic call's type arguments are inferred, and are the right ones,
    where the declared parameter types are the arguments' types under some
    assignment [σ] of closed types to the type parameters that respects the
    parametrized protocol bounds (an argument that is only one leaf of a union
    parameter is no such case: [none_binds]).  Then what unification finds is
    [σ], whichever objects stand for the types, so substituting it in the
    declared types gives back the arguments' types.  It finds nothing only
    when a type parameter occurs in unions alone or an argument has a union of
    one member in it, and its one conflict is such a union met beside its
    member. *)
Theorem infer_type_args_exact prog U bounds next_args type_params σ rank fuel parameters arguments s :
  distinct_names (prog_names prog) -> closed_universe prog U -> good prog U s -> typing prog U bounds type_params σ rank ->
  Forall (proper (prog_names prog)) parameters -> List.flat_map vars parameters ⊆ type_params ->
  (forall w, w ∈ type_params -> (rank w < fuel)%nat) -> Forall2 (argument_fits prog σ s) parameters arguments ->
  infers (infer_type_args prog (monomorphize_class prog (length U)) bounds next_args fuel type_params parameters arguments) s
    (fun found s' => good prog U s' /\ later s s' /\
      (forall l, found = Some l -> map norm l = map σ type_params /\ Forall (usable (prog_names prog) (discovery s')) l /\ List.flat_map vars l = [] /\
        map (subst prog (bound type_params l)) parameters = map norm arguments) /\
      (forallb plural arguments = true -> type_params ⊆ List.flat_map determined parameters -> is_Some found)).
Proof.
  intros Hn HU Hg Hσ Hp Hv Hr HF.
  assert (Hmc : forall s b args, good prog U s -> True -> is_class prog b = true -> usable (prog_names prog) (discovery s) (GSpec b args) -> vars (GSpec b args) = [] ->
    (b, map norm args) ∈ U -> GSpec b args ∉ building s ->
    runs (monomorphize_class prog (length U) (GSpec b args)) s (fun t s' => good prog U s' /\ later s s' /\ t = GMono b args)).
  { intros s1 b args Hg1 _ _ Hu1 Hv1 Hin1 Hni1. eapply runs_mono; [apply (monomorphize_class_ok prog Hn U); [done|done|lia|by exists b, args|done]|].
    by intros t' s' (H1 & H2 & H3 & _). }
  unfold infer_type_args. apply infers_bind. eapply infers_mono.
  - eapply (unify_zip_ok prog Hn U HU _ (fun _ => True) ltac:(done) Hmc bounds type_params σ rank Hσ); [|split_and!; [done|done|]|exact HF].
    + apply Forall_forall. intros t Ht. apply (unify_ok prog Hn U HU _ (fun _ => True) ltac:(done) Hmc bounds next_args type_params σ rank Hσ); [by eapply Forall_forall in Hp|auto].
    + intros v a E. by rewrite lookup_empty in E.
  - intros B s' (Hg' & Hl & HB & _ & Hfound). apply infers_ret. split_and!; [done|done|..].
    + intros l Hl'. apply mapM_Some in Hl'.
      assert (Enorm : map norm l = map σ type_params) by (clear -Hl' HB; induction Hl' as [|v a k k' E _ IH]; [done|]; cbn [map]; destruct (HB v a E) as (_ & _ & ->); by rewrite IH).
      assert (Hall : Forall (fun a => usable (prog_names prog) (discovery s') a /\ vars a = []) l) by (clear -Hl' HB; induction Hl' as [|v a k k' E _ IH]; [done|]; constructor; [by destruct (HB v a E) as (? & ? & _)|done]).
      apply Forall_and in Hall as [H1 H2%flat_map_nil]. split_and!; [done|done|done|].
      clear -HF Hp Hv Enorm. induction HF as [|t a k k' (_ & _ & E) _ IH]; [done|]. apply Forall_cons in Hp as [Hp1 Hp2]. cbn [map List.flat_map] in *.
      rewrite IH; [|done|intros v Hin; apply Hv, elem_of_app; by right]. rewrite E. f_equal. apply subst_agree; [done|]. intros v Hin. unfold bound. rewrite Enorm, zip_lookup_map; [done|].
      apply Hv, elem_of_app. by left.
    + intros Hpl Hdet. rewrite Hpl in Hfound. apply mapM_is_Some, Forall_forall. intros v Hin. apply Hfound; [by apply Hdet|done].
Qed.

(** ** [def fold[T, S: Iterable[T]](seq: S, step: Callable[[T],T])] called with a [Seq[i32]] *)

(** [class Seq[T](Iterable[T]): first: T] *)
Definition seq_decl : ClassDecl := mkClassDecl KRCClass [0%nat] [("first", GVar 0)] [] [GSpec 5 [GVar 0]] None.
Definition seq_program : Program := mkProgram letter_names {[4%nat := seq_decl]} ∅ None (Some 5%nat).
Definition seq_universe : list (nat * list GTy) := [(4%nat, [GName 3])].

Definition seq_tables1 : Discovery := (get_or_create_specialization letter_names 5 [GVar 0] no_types).2.
Definition seq_tables2 : Discovery := (get_or_create_specialization letter_names 4 [GName 3] seq_tables1).2.
Definition seq_tables : Discovery := (get_or_create_callable_type letter_names [GName 3] (GName 3) seq_tables2).2.

Definition fold_bounds : gmap nat GTy := {[2%nat := GSpec 5 [GVar 1]]}.
Definition fold_parameters : list GTy := [GVar 2; GCallable [GVar 1] (GVar 1)].
Definition fold_arguments : list GTy := [GSpec 4 [GName 3]; GCallable [GName 3] (GName 3)].
Definition fold_typing (v : nat) : GTy := if Nat.eqb v 2 then GSpec 4 [GName 3] else GName 3.
Definition no_next (_ : GTy) (_ : Mono) : option (GTy * GTy) := None.

Example fold_inferred :
  (infer_type_args seq_program (monomorphize_class seq_program 1) fold_bounds no_next 2 [1%nat; 2%nat] fold_parameters fold_arguments (fresh_mono seq_tables)).1 =
  Ok (Some [GName 3; GSpec 4 [GName 3]]).
Proof. by vm_compute. Qed.

(** The bound alone settles [T]. *)
Example first_inferred :
  (infer_type_args seq_program (monomorphize_class seq_program 1) fold_bounds no_next 2 [1%nat; 2%nat] [GVar 2] [GSpec 4 [GName 3]] (fresh_mono seq_tables)).1 =
  Ok (Some [GName 3; GSpec 4 [GName 3]]).
Proof. by vm_compute. Qed.

(** [T|None] instantiated at [None] is a union of one member, not [None]: the
    two are a conflict. *)
Example one_member_conflict :
  (infer_type_args seq_program (monomorphize_class seq_program 1) ∅ no_next 0 [1%nat] [GVar 1; GVar 1] [GUnion [GName 1]; GName 1] (fresh_mono no_types)).1 =
  Err (IConflict 1 (GUnion [GName 1]) (GName 1)).
Proof. by vm_compute. Qed.

(** An argument that is one leaf of a union goes to the first leaf it may have:
    passing [None] for [T|None] binds [T]. *)
Example none_binds :
  (infer_type_args seq_program (monomorphize_class seq_program 1) ∅ no_next 0 [1%nat] [GUnion [GName 1; GVar 1]; GVar 1] [GName 1; GName 3] (fresh_mono no_types)).1 =
  Err (IConflict 1 (GName 1) (GName 3)).
Proof. by vm_compute. Qed.

(** A parameter that [_type_mentions_param] finds in a leaf that is a tuple, a
    closure or a generator is never bound from an argument there. *)
Example mentioned_not_bound :
  type_mentions_param 1 (GUnion [GName 1; GTuple [GVar 1]]) = true /\
  (infer_type_args seq_program (monomorphize_class seq_program 1) ∅ no_next 0 [1%nat] [GUnion [GName 1; GTuple [GVar 1]]] [GTuple [GName 3]] (fresh_mono no_types)).1 = Ok None.
Proof. by vm_compute. Qed.

Lemma seq_tables_ok : tables_ok letter_names seq_tables /\ usable letter_names seq_tables (GSpec 5 [GVar 0]) /\ Forall (usable letter_names seq_tables) fold_arguments.
Proof.
  pose proof letter_names_distinct as Hn.
  destruct (get_or_create_specialization_ok _ Hn no_types (no_types_ok _) 5 [GVar 0]) as [(H1 & H2 & H3 & H4 & _) _]; [apply Forall_singleton, usable_var|].
  destruct (get_or_create_specialization_ok _ Hn seq_tables1 H1 4 [GName 3]) as [(H5 & H6 & H7 & H8 & _) _]; [apply Forall_singleton, usable_name|].
  destruct (get_or_create_callable_type_ok _ Hn seq_tables2 H5 [GName 3] (GName 3)) as (H9 & H10 & H11 & H12 & _); [apply Forall_singleton, usable_name|apply usable_name|].
  split_and!; [exact H9|..].
  - eapply usable_extends; [exact H10|]. eapply usable_extends; [exact H6|by split].
  - constructor; [eapply usable_extends; [exact H10|by split]|]. apply Forall_singleton. by split.
Qed.

Lemma seq_good : good seq_program seq_universe (fresh_mono seq_tables).
Proof.
  destruct seq_tables_ok as (H1 & H2 & _). apply good_fresh; [done|..].
  - intros b decl Hb. cbn [class_decls seq_program] in Hb. apply lookup_singleton_Some in Hb as [<- <-].
    split; [|]; apply Forall_singleton; [apply usable_var|done].
  - intros m fd Hm. cbn [function_decls seq_program] in Hm. by rewrite lookup_empty in Hm.
Qed.

Lemma seq_closed : closed_universe seq_program seq_universe.
Proof.
  intros b args Hin. apply list_elem_of_singleton in Hin as [= -> ->]. exists seq_decl. split_and!; [done| |done|].
  - split; [done| |constructor]. cbn. rewrite !Forall_cons. split_and!; [set_solver|set_solver|done].
  - unfold seq_universe. cbn. rewrite !Forall_cons. split_and!; [set_solver|set_solver|done].
Qed.

Definition fold_rank (v : nat) : nat := if Nat.eqb v 2 then 1%nat else 0%nat.

Lemma fold_typed : typing seq_program seq_universe fold_bounds [1%nat; 2%nat] fold_typing fold_rank.
Proof.
  split.
  - intros v. exists (fold_typing v). unfold fold_typing. destruct (Nat.eqb v 2); (split; [|done]); repeat constructor.
  - intros v p bound_args _ E. unfold fold_bounds in E. apply lookup_singleton_Some in E as [<- [= <- <-]]. split_and!.
    + repeat constructor.
    + cbn. intros w ->%list_elem_of_singleton _. cbn. lia.
    + intros _. left.
    + cbn. intros entry_args E. by injection E as <-.
Qed.

Lemma infer_type_args_exact_witness :
  infers (infer_type_args seq_program (monomorphize_class seq_program (length seq_universe)) fold_bounds no_next 2 [1%nat; 2%nat] fold_parameters fold_arguments) (fresh_mono seq_tables)
    (fun found s' => good seq_program seq_universe s' /\ later (fresh_mono seq_tables) s' /\
      (forall l, found = Some l -> map norm l = map fold_typing [1%nat; 2%nat] /\ Forall (usable (prog_names seq_program) (discovery s')) l /\ List.flat_map vars l = [] /\
        map (subst seq_program (bound [1%nat; 2%nat] l)) fold_parameters = map norm fold_arguments) /\
      (forallb plural fold_arguments = true -> [1%nat; 2%nat] ⊆ List.flat_map determined fold_parameters -> is_Some found)).
Proof.
  apply (infer_type_args_exact seq_program seq_universe fold_bounds no_next [1%nat; 2%nat] fold_typing fold_rank 2 fold_parameters fold_arguments (fresh_mono seq_tables)).
  - exact letter_names_distinct.
  - exact seq_closed.
  - exact seq_good.
  - exact fold_typed.
  - repeat constructor.
  - cbn. set_solver.
  - intros w _. unfold fold_rank. destruct (Nat.eqb w 2); lia.
  - destruct seq_tables_ok as (_ & _ & H). unfold fold_arguments in H. apply Forall_cons in H as [Hu1 [Hu2 _]%Forall_cons]. constructor; [|constructor; [|constructor]].
    + split; [exact Hu1|]. split; reflexivity.
    + split; [exact Hu2|]. split; reflexivity.
Defined.
