(* ===== verification/WorkQueue.v ===== *)
(** * The work queue and the pool worker

    [Queue[T]] of [lib/queue.py] and [_PoolWorker] of [lib/threading.py], run
    by any number of threads under an arbitrary scheduler.  A thread's step is
    one atomic action of the code: acquiring the lock, the body of a
    [with self.__lock] with its release, one [post], one [wait] that returns,
    one job.  The operating system's semaphore is the class [Counting], the
    documented behaviour of [sem_post]/[sem_wait] and of
    [ReleaseSemaphore]/[WaitForSingleObject]; the lock is the thread that holds
    it.

    The last section shows that no wakeup is lost: whatever the interleaving,
    the threads stop after a bounded number of steps, and then the worker has
    run exactly the jobs accepted before the shutdown sentinel, in order. *)

From stdpp Require Import relations.
From S2P Require Import Prelude.

(** ** The semaphore *)

(** A counting semaphore: [sem_wait] is [None] while it would block, and
    [sem_post] leaves a positive count, which need not grow (a post past the
    system's maximum fails and the code ignores that). *)
Class Counting (Sem : Type) := {
  sem_init : Sem;
  sem_post : Sem -> Sem;
  sem_wait : Sem -> option Sem;
  sem_value : Sem -> nat;
  sem_init_value : sem_value sem_init = 0;
  sem_post_pos s : 0 < sem_value (sem_post s);
  sem_post_le s : sem_value (sem_post s) <= S (sem_value s);
  sem_wait_none s : sem_wait s = None <-> sem_value s = 0;
  sem_wait_some s s' : sem_wait s = Some s' -> sem_value s = S (sem_value s')
}.

(** The semaphore the Windows constructor asks for: at most 2147483647. *)
#[export] Program Instance capped_semaphore : Counting N := {|
  sem_init := 0%N;
  sem_post c := N.min (c + 1) 2147483647;
  sem_wait c := if (c =? 0)%N then None else Some (c - 1)%N;
  sem_value := N.to_nat
|}.
Next Obligation. done. Qed.
Next Obligation. intros c. simpl. lia. Qed.
Next Obligation. intros c. simpl. lia. Qed.
Next Obligation. intros c. simpl. destruct (N.eqb_spec c 0); split; intros; try done; lia. Qed.
Next Obligation. intros c c'. simpl. destruct (N.eqb_spec c 0); intros; simplify_eq; lia. Qed.

(** ** Queue[T] *)

Inductive QueueFullError := QueueFull.

Section queue.
Context {Sem : Type} `{Counting Sem} {T : Type}.

Record Queue := mkQueue {
  q_items : list T;
  q_max_depth : option Z;
  q_sem : Sem
}.

(** [Queue.__init__] *)
Definition queue_init (max_depth : option Z) : Queue := mkQueue [] max_depth sem_init.

Definition at_limit (q : Queue) : bool :=
  match q_max_depth q with
  | Some limit => (limit <=? Z.of_nat (length (q_items q)))%Z
  | None => false
  end.

(** The part of [Queue.put] under the lock. *)
Definition put_locked (item : T) (q : Queue) : result QueueFullError Queue :=
  if at_limit q then Err QueueFull
  else Ok (mkQueue (q_items q ++ [item]) (q_max_depth q) (q_sem q)).

(** The rest of [Queue.put]: [self.__sem.post()]. *)
Definition put_post (q : Queue) : Queue :=
  mkQueue (q_items q) (q_max_depth q) (sem_post (q_sem q)).

(** The part of an iteration of [Queue.drain] under the lock: the items taken,
    or [None] when there are none. *)
Definition drain_locked (q : Queue) : option (list T * Queue) :=
  match q_items q with
  | [] => None
  | taken => Some (taken, mkQueue [] (q_max_depth q) (q_sem q))
  end.

(** [self.__sem.wait()], once it returns. *)
Definition drain_wait (q : Queue) : option Queue :=
  match sem_wait (q_sem q) with
  | Some c => Some (mkQueue (q_items q) (q_max_depth q) c)
  | None => None
  end.

End queue.
Arguments Queue Sem T : clear implicits.

(** ** Threads that use a pool worker *)

Section worker.
Context {Sem : Type} `{Counting Sem} {J : Type}.

(** A call on the [_PoolWorker]. *)
Inductive Call :=
| Submit (job : J)
| RequestShutdown
| RunForever.

(** Where a thread is.  The items of the queue are [_PoolJob|None]. *)
Inductive Pc :=
| Idle
| AtPut (item : option J)
| PutLocked (item : option J)
| Posting (item : option J)
| AtDrain
| DrainLocked
| Waiting
| Running (batch : list (option J)).

(** [th_ran] are the jobs the thread has run and [th_returns] what its puts
    returned, with the item put: [true] is [Result.Ok]. *)
Record Thread := mkThread {
  th_pc : Pc;
  th_todo : list Call;
  th_ran : list J;
  th_returns : list (option J * bool)
}.

(** [s_appended] and [s_delivered] log every append to the queue, with the
    thread, and every batch taken from it. *)
Record System := mkSystem {
  s_queue : Queue Sem (option J);
  s_lock : option nat;
  s_threads : list Thread;
  s_appended : list (nat * option J);
  s_delivered : list (option J)
}.

Definition enter (c : Call) : Pc :=
  match c with
  | Submit job => AtPut (Some job)
  | RequestShutdown => AtPut None
  | RunForever => AtDrain
  end.

Definition goto (pc : Pc) (th : Thread) : Thread :=
  mkThread pc (th_todo th) (th_ran th) (th_returns th).

Definition put_returned (item : option J) (ok : bool) (th : Thread) : Thread :=
  mkThread Idle (th_todo th) (th_ran th) (th_returns th ++ [(item, ok)]).

(** [Result.Err]: [submit] returns it, [request_shutdown] tries again. *)
Definition put_rejected (item : option J) (th : Thread) : Thread :=
  match item with
  | Some _ => put_returned item false th
  | None => goto (AtPut None) th
  end.

(** The loop of [run_forever] over a batch. *)
Definition run_item (batch : list (option J)) (th : Thread) : Thread :=
  match batch with
  | [] => goto AtDrain th
  | None :: _ => goto Idle th
  | Some work :: rest =>
      mkThread (Running rest) (th_todo th) (th_ran th ++ [work]) (th_returns th)
  end.

(** What a thread's step does: the shared state it leaves, the thread after,
    and what it appended to and took from the queue. *)
Record Effect := mkEffect {
  e_queue : Queue Sem (option J);
  e_lock : option nat;
  e_thread : Thread;
  e_appended : list (option J);
  e_delivered : list (option J)
}.

(** [lock.acquire()]: blocks while the lock is held. *)
Definition acquire (i : nat) (q : Queue Sem (option J)) (lock : option nat) (th : Thread) :
    option Effect :=
  match lock with
  | None => Some (mkEffect q (Some i) th [] [])
  | Some _ => None
  end.

(** One step of thread [i], when it has one. *)
Definition thread_step (i : nat) (q : Queue Sem (option J)) (lock : option nat) (th : Thread) :
    option Effect :=
  match th_pc th with
  | Idle =>
      match th_todo th with
      | [] => None
      | c :: rest =>
          Some (mkEffect q lock (mkThread (enter c) rest (th_ran th) (th_returns th)) [] [])
      end
  | AtPut item => acquire i q lock (goto (PutLocked item) th)
  | PutLocked item =>
      match put_locked item q with
      | Ok q' => Some (mkEffect q' None (goto (Posting item) th) [item] [])
      | Err QueueFull => Some (mkEffect q None (put_rejected item th) [] [])
      end
  | Posting item => Some (mkEffect (put_post q) lock (put_returned item true th) [] [])
  | AtDrain => acquire i q lock (goto DrainLocked th)
  | DrainLocked =>
      match drain_locked q with
      | Some (taken, q') => Some (mkEffect q' None (goto (Running taken) th) [] taken)
      | None => Some (mkEffect q None (goto Waiting th) [] [])
      end
  | Waiting =>
      match drain_wait q with
      | Some q' => Some (mkEffect q' lock (goto AtDrain th) [] [])
      | None => None
      end
  | Running batch => Some (mkEffect q lock (run_item batch th) [] [])
  end.

Definition apply_effect (i : nat) (e : Effect) (s : System) : System :=
  mkSystem (e_queue e) (e_lock e) (<[i := e_thread e]> (s_threads s))
    (s_appended s ++ map (pair i) (e_appended e)) (s_delivered s ++ e_delivered e).

Definition step_thread (i : nat) (s : System) : option System :=
  match s_threads s !! i with
  | Some th =>
      match thread_step i (s_queue s) (s_lock s) th with
      | Some e => Some (apply_effect i e s)
      | None => None
      end
  | None => None
  end.

(** The scheduler picks any thread that can move. *)
Definition step (s s' : System) : Prop := exists i, step_thread i s = Some s'.

Definition new_thread (calls : list Call) : Thread := mkThread Idle calls [] [].

(** The worker's thread and its clients', before any of them has run. *)
Definition start (max_depth : option Z) (programs : list (list Call)) : System :=
  mkSystem (queue_init max_depth) None (map new_thread programs) [] [].

(** A schedule, for evaluation: picks of threads that cannot move are skipped. *)
Fixpoint run_schedule (sched : list nat) (s : System) : System :=
  match sched with
  | [] => s
  | i :: rest => run_schedule rest (default s (step_thread i s))
  end.

End worker.
Arguments Call J : clear implicits.
Arguments Pc J : clear implicits.
Arguments Thread J : clear implicits.
Arguments System Sem J : clear implicits.
Arguments Effect Sem J : clear implicits.

(** ** What holds in every reachable state *)

Ltac step_cases He :=
  unfold thread_step, acquire, put_locked, drain_locked, drain_wait in He;
  repeat case_match; simplify_eq/=; try done.

Section reachable.
Context {Sem : Type} `{Counting Sem} {J : Type}.
Implicit Types (s : System Sem J) (th : Thread J) (e : Effect Sem J) (q : Queue Sem (option J)).

Lemma step_inv s s' :
  step s s' ->
  exists i th e, s_threads s !! i = Some th /\
    thread_step i (s_queue s) (s_lock s) th = Some e /\ s' = apply_effect i e s.
Proof. intros [i Hs]. unfold step_thread in Hs. repeat case_match; simplify_eq. eauto 10. Qed.

Lemma effect_lookup i th e s j th' :
  s_threads s !! i = Some th ->
  s_threads (apply_effect i e s) !! j = Some th' ->
  (j = i /\ th' = e_thread e) \/ (j <> i /\ s_threads s !! j = Some th').
Proof.
  intros Hi Hj. simpl in Hj. apply list_lookup_insert_Some in Hj.
  naive_solver.
Qed.

Lemma effect_lookup_eq i th e s :
  s_threads s !! i = Some th -> s_threads (apply_effect i e s) !! i = Some (e_thread e).
Proof. intros Hi. apply list_lookup_insert_eq. by eapply lookup_lt_Some. Qed.

Lemma effect_lookup_ne i j e s :
  i <> j -> s_threads (apply_effect i e s) !! j = s_threads s !! j.
Proof. intros Hij. by apply list_lookup_insert_ne. Qed.

Lemma effect_depth i q lock th e :
  thread_step i q lock th = Some e -> q_max_depth (e_queue e) = q_max_depth q.
Proof. intros He. step_cases He. Qed.

(** *** The lock *)

Definition in_lock (pc : Pc J) : bool :=
  match pc with PutLocked _ | DrainLocked => true | _ => false end.

Definition lock_inv s : Prop :=
  forall i, s_lock s = Some i <-> exists th, s_threads s !! i = Some th /\ in_lock (th_pc th) = true.

Lemma effect_lock i q lock th e :
  (lock = Some i <-> in_lock (th_pc th) = true) ->
  thread_step i q lock th = Some e ->
  (e_lock e = lock \/ (lock = None /\ e_lock e = Some i) \/ (lock = Some i /\ e_lock e = None)) /\
  (e_lock e = Some i <-> in_lock (th_pc (e_thread e)) = true).
Proof.
  intros Hl He. destruct th as [pc todo ran rets]; simpl in *.
  unfold thread_step, acquire in He; simpl in He.
  unfold put_rejected, put_returned, run_item, goto, enter in *.
  repeat case_match; simplify_eq/=; intuition congruence.
Qed.

Lemma lock_inv_step s s' : lock_inv s -> step s s' -> lock_inv s'.
Proof.
  intros Hs (i & th & e & Hi & He & ->)%step_inv.
  assert (Hth : s_lock s = Some i <-> in_lock (th_pc th) = true).
  { rewrite (Hs i). split; [|by eauto]. by intros (th' & [= <-]%(eq_trans (eq_sym Hi)) & ?). }
  destruct (effect_lock _ _ _ _ _ Hth He) as [Hl Hl']. intros j. simpl. split.
  - intros Hj. destruct (decide (j = i)) as [->|Hne].
    { exists (e_thread e). split; [by eapply effect_lookup_eq|]. by apply Hl'. }
    destruct (proj1 (Hs j)) as (th' & Hth' & Hin).
    { destruct Hl as [Hl|[[Hl1 Hl2]|[Hl1 Hl2]]]; congruence. }
    exists th'. split; [|done]. by rewrite list_lookup_insert_ne by done.
  - intros (th' & Hth' & Hin).
    destruct (effect_lookup i th e s j th' Hi Hth') as [[-> ->]|[Hne Hj]]; [by apply Hl'|].
    assert (s_lock s = Some j) by (apply Hs; eauto).
    destruct Hl as [Hl|[[Hl1 Hl2]|[Hl1 Hl2]]]; congruence.
Qed.

(** *** The items, in order *)

Definition fifo_inv s : Prop := map snd (s_appended s) = s_delivered s ++ q_items (s_queue s).

Lemma effect_fifo i q lock th e :
  thread_step i q lock th = Some e ->
  q_items q ++ e_appended e = e_delivered e ++ q_items (e_queue e).
Proof. intros He. step_cases He; by rewrite ?app_nil_r. Qed.

Lemma fifo_inv_step s s' : fifo_inv s -> step s s' -> fifo_inv s'.
Proof.
  unfold fifo_inv. intros Hs (i & th & e & Hi & He & ->)%step_inv; simpl.
  rewrite map_app, map_map, map_id, Hs, <- !app_assoc. f_equal. by eapply effect_fifo.
Qed.

Definition within_depth q : Prop :=
  match q_max_depth q with
  | Some limit => (Z.of_nat (length (q_items q)) <= Z.max 0 limit)%Z
  | None => True
  end.

Lemma effect_within_depth i q lock th e :
  within_depth q -> thread_step i q lock th = Some e -> within_depth (e_queue e).
Proof.
  unfold within_depth. intros Hq He. rewrite (effect_depth _ _ _ _ _ He).
  destruct (q_max_depth q) as [limit|] eqn:Hd; [|done].
  unfold thread_step, acquire, put_locked, drain_locked, drain_wait, at_limit in He.
  rewrite Hd in He.
  repeat case_match; simplify_eq/=; rewrite ?length_app; simpl;
    try match goal with Hq : q_items q = [] |- _ => rewrite Hq end; simpl; lia.
Qed.

(** *** No wakeup is lost *)

Definition awake (pc : Pc J) : bool :=
  match pc with Posting _ | AtDrain | DrainLocked => true | _ => false end.

(** While items are pending there is a count to consume, a put that will
    post, or a drain that will look again. *)
Definition wake_inv s : Prop :=
  q_items (s_queue s) <> [] ->
  0 < sem_value (q_sem (s_queue s)) \/
  exists i th, s_threads s !! i = Some th /\ awake (th_pc th) = true.

Lemma effect_wake i q lock th e :
  thread_step i q lock th = Some e -> q_items (e_queue e) <> [] ->
  awake (th_pc (e_thread e)) = true \/
  0 < sem_value (q_sem (e_queue e)) \/
  (awake (th_pc th) = false /\ q_items (e_queue e) = q_items q /\ q_sem (e_queue e) = q_sem q).
Proof.
  intros He Hne. destruct th as [pc todo ran rets]; simpl in *.
  step_cases He; auto.
  right; left. apply sem_post_pos.
Qed.

Lemma wake_inv_step s s' : wake_inv s -> step s s' -> wake_inv s'.
Proof.
  intros Hs (i & th & e & Hi & He & ->)%step_inv Hne; simpl in *.
  destruct (effect_wake _ _ _ _ _ He Hne) as [Ha|[Hp|(Ha & Hit & Hsm)]].
  - right. exists i, (e_thread e). split; [by eapply effect_lookup_eq|done].
  - by left.
  - rewrite Hit in Hne. rewrite Hsm.
    destruct (Hs Hne) as [Hp|(j & th' & Hj & Ha')]; [by left|right].
    exists j, th'. split; [|done]. rewrite list_lookup_insert_ne; [done|].
    intros ->. congruence.
Qed.

End reachable.

(** ** Termination *)

Section termination.
Context {Sem : Type} `{Counting Sem} {J : Type}.
Implicit Types (s : System Sem J) (th : Thread J) (e : Effect Sem J) (q : Queue Sem (option J)).

(** The steps a call, the rest of the current call, the items pending and the
    semaphore's count can still cost. *)
Definition call_cost (c : Call J) : nat :=
  match c with Submit _ | RequestShutdown => 11 | RunForever => 3 end.

Definition pc_cost (pc : Pc J) : nat :=
  match pc with
  | Idle => 0
  | AtPut _ => 10
  | PutLocked _ => 9
  | Posting _ => 4
  | AtDrain => 2
  | DrainLocked => 1
  | Waiting => 0
  | Running batch => 3 + length batch
  end.

Definition thread_cost (th : Thread J) : nat :=
  pc_cost (th_pc th) + sum_list_with call_cost (th_todo th).

Definition queue_cost q : nat := 4 * length (q_items q) + 3 * sem_value (q_sem q).

Definition cost s : nat := queue_cost (s_queue s) + sum_list_with thread_cost (s_threads s).

(** A put that cannot be rejected for ever: the queue is unbounded, or the
    thread never asks for a shutdown, whose put is tried until it succeeds. *)
Definition never_retries q th : Prop :=
  q_max_depth q = None \/
  (RequestShutdown ∉ th_todo th /\
   match th_pc th with AtPut None | PutLocked None | Posting None => False | _ => True end).

Lemma effect_never_retries i q lock th e :
  thread_step i q lock th = Some e -> never_retries q th -> never_retries (e_queue e) (e_thread e).
Proof.
  intros He. unfold never_retries. rewrite (effect_depth _ _ _ _ _ He).
  intros [Hd|[Htd Hpc]]; [by left|]. right.
  destruct th as [pc todo ran rets]; simpl in *.
  unfold thread_step, acquire, put_locked, drain_locked, drain_wait, put_rejected, run_item, enter in He.
  destruct pc as [|[]|[]|[]| | | |[|[]]]; simpl in *; try done.
  all: repeat case_match; simplify_eq/=; try done.
  all: rewrite not_elem_of_cons in Htd; by destruct Htd.
Qed.

Lemma effect_cost i q lock th e :
  thread_step i q lock th = Some e -> never_retries q th ->
  queue_cost (e_queue e) + thread_cost (e_thread e) < queue_cost q + thread_cost th.
Proof.
  intros He Hn. unfold never_retries in Hn.
  destruct th as [pc todo ran rets]. unfold queue_cost, thread_cost; simpl in *.
  unfold thread_step, acquire, put_locked, drain_locked, drain_wait, at_limit in He; simpl in He.
  unfold put_rejected, run_item, enter in He.
  repeat case_match; simplify_eq/=; rewrite ?length_app; simpl; try lia.
  all: try match goal with Hq : q_items _ = _ |- _ => rewrite Hq end; simpl; try lia.
  all: try match goal with Hw : sem_wait _ = Some _ |- _ => apply sem_wait_some in Hw end; try lia.
  all: first
    [ pose proof (sem_post_le (q_sem q)); lia
    | by destruct Hn as [|[_ []]] ].
Qed.

Lemma sum_list_with_insert {A} (f : A -> nat) (l : list A) i x y :
  l !! i = Some x -> sum_list_with f (<[i := y]> l) + f x = sum_list_with f l + f y.
Proof.
  revert i. induction l as [|z l IH]; intros [|i] Hi; simplify_eq/=; [lia|].
  specialize (IH _ Hi). lia.
Qed.

Definition no_retry s : Prop :=
  forall i th, s_threads s !! i = Some th -> never_retries (s_queue s) th.

Lemma no_retry_step s s' : no_retry s -> step s s' -> no_retry s'.
Proof.
  intros Hs (i & th & e & Hi & He & ->)%step_inv j th' Hj.
  destruct (effect_lookup i th e s j th' Hi Hj) as [[-> ->]|[Hne Hj']].
  - by eapply effect_never_retries, Hs.
  - specialize (Hs _ _ Hj'). unfold never_retries in *; simpl.
    by rewrite (effect_depth _ _ _ _ _ He).
Qed.

Lemma cost_step s s' : no_retry s -> step s s' -> cost s' < cost s.
Proof.
  intros Hs (i & th & e & Hi & He & ->)%step_inv. unfold cost; simpl.
  pose proof (effect_cost _ _ _ _ _ He (Hs _ _ Hi)).
  pose proof (sum_list_with_insert thread_cost _ _ _ (e_thread e) Hi). lia.
Qed.

Lemma cost_steps n s s' : no_retry s -> nsteps step n s s' -> n + cost s' <= cost s.
Proof.
  intros Hs Hn. induction Hn as [s|n s s1 s2 Hstep Hn IH]; [done|].
  pose proof (cost_step _ _ Hs Hstep). specialize (IH (no_retry_step _ _ Hs Hstep)). lia.
Qed.

End termination.

(** ** One worker and its clients *)

Section serving.
Context {Sem : Type} `{Counting Sem} {J : Type}.
Implicit Types (s : System Sem J) (th : Thread J) (e : Effect Sem J) (q : Queue Sem (option J)).

(** The jobs in front of the first shutdown sentinel. *)
Fixpoint before_stop (items : list (option J)) : list J :=
  match items with
  | Some work :: rest => work :: before_stop rest
  | _ => []
  end.

Lemma before_stop_all l : before_stop (map Some l) = l.
Proof. induction l as [|x l IH]; simpl; congruence. Qed.

Lemma before_stop_at l rest : before_stop (map Some l ++ None :: rest) = l.
Proof. induction l as [|x l IH]; simpl; congruence. Qed.

(** What thread [i] appended. *)
Definition appended_by (i : nat) (log : list (nat * option J)) : list (option J) :=
  map snd (List.filter (fun p => fst p =? i) log).

Lemma appended_by_app i l1 l2 : appended_by i (l1 ++ l2) = appended_by i l1 ++ appended_by i l2.
Proof. unfold appended_by. by rewrite List.filter_app, map_app. Qed.

Lemma appended_by_own i l : appended_by i (map (pair i) l) = l.
Proof.
  unfold appended_by. induction l as [|x l IH]; [done|]. simpl.
  rewrite Nat.eqb_refl. simpl. by rewrite IH.
Qed.

Lemma appended_by_other i j l : i <> j -> appended_by i (map (pair j) l) = [].
Proof.
  intros Hij. unfold appended_by. induction l as [|x l IH]; [done|]. simpl.
  destruct (Nat.eqb_spec j i); [congruence|done].
Qed.

(** *** A client *)

(** The items whose put returned [Result.Ok]. *)
Definition accepted (th : Thread J) : list (option J) :=
  map fst (List.filter snd (th_returns th)).

Definition posting (pc : Pc J) : list (option J) :=
  match pc with Posting item => [item] | _ => [] end.

Definition pc_puts (pc : Pc J) : list (option J) :=
  match pc with AtPut item | PutLocked item | Posting item => [item] | _ => [] end.

Definition call_puts (c : Call J) : list (option J) :=
  match c with Submit job => [Some job] | RequestShutdown => [None] | RunForever => [] end.

(** Every put of a thread: those that returned, the current one, those left. *)
Definition thread_puts (th : Thread J) : list (option J) :=
  map fst (th_returns th) ++ pc_puts (th_pc th) ++ flat_map call_puts (th_todo th).

Definition is_client (th : Thread J) : Prop :=
  RunForever ∉ th_todo th /\
  match th_pc th with
  | Idle | AtPut _ | PutLocked _ | Posting _ => True
  | _ => False
  end.

Record client_inv (depth : option Z) (puts log : list (option J)) (th : Thread J) : Prop := {
  client_calls : is_client th;
  client_puts : thread_puts th = puts;
  client_log : accepted th ++ posting (th_pc th) = log;
  client_ok : depth = None -> Forall (fun r => snd r = true) (th_returns th)
}.

Lemma effect_puts i q lock th e :
  thread_step i q lock th = Some e -> thread_puts (e_thread e) = thread_puts th.
Proof.
  intros He. destruct th as [pc todo ran rets]. unfold thread_puts.
  unfold thread_step, acquire, put_locked, drain_locked, drain_wait, put_rejected, run_item, enter in He.
  simpl in *. repeat case_match; simplify_eq/=; rewrite ?map_app, <- ?app_assoc; done.
Qed.

Lemma effect_accepted i q lock th e :
  thread_step i q lock th = Some e ->
  accepted (e_thread e) ++ posting (th_pc (e_thread e)) =
  (accepted th ++ posting (th_pc th)) ++ e_appended e.
Proof.
  intros He. destruct th as [pc todo ran rets]. unfold accepted.
  unfold thread_step, acquire, put_locked, drain_locked, drain_wait, put_rejected, run_item, enter in He.
  simpl in *. repeat case_match; simplify_eq/=;
    by rewrite ?List.filter_app, ?map_app; simpl; rewrite ?app_nil_r.
Qed.

Lemma effect_client depth puts log i q lock th e :
  q_max_depth q = depth -> client_inv depth puts log th -> thread_step i q lock th = Some e ->
  client_inv depth puts (log ++ e_appended e) (e_thread e) /\ e_delivered e = [].
Proof.
  intros Hd [[Htd Hpc] Hputs Hlog Hok] He. split.
  - split.
    + clear Hputs Hlog Hok. destruct th as [pc todo ran rets]. unfold is_client; simpl in *.
      unfold thread_step, acquire, put_locked, put_rejected, enter in He; simpl in He.
      destruct pc as [|[]|[]|[]| | | |]; try done; repeat case_match; simplify_eq/=; try done.
      all: rewrite not_elem_of_cons in Htd; by destruct Htd.
    + by rewrite (effect_puts _ _ _ _ _ He).
    + by rewrite (effect_accepted _ _ _ _ _ He), Hlog.
    + intros Hn. specialize (Hok Hn). clear Hputs Hlog Htd Hpc.
      destruct th as [pc todo ran rets]; simpl in *.
      unfold thread_step, acquire, put_locked, at_limit, drain_locked, drain_wait, run_item in He.
      rewrite Hd, Hn in He. simpl in He.
      repeat case_match; simplify_eq/=; try done. apply Forall_app. by repeat constructor.
  - destruct th as [pc todo ran rets]; simpl in *.
    unfold thread_step, acquire, put_locked in He; simpl in He.
    destruct pc; try done; repeat case_match; by simplify_eq/=.
Qed.

(** *** The worker *)

(** What the worker's thread has run against what it took from the queue. *)
Definition worker_inv (th : Thread J) (delivered : list (option J)) : Prop :=
  match th_pc th with
  | Idle =>
      (th_todo th = [RunForever] /\ delivered = [] /\ th_ran th = []) \/
      (th_todo th = [] /\ exists rest, delivered = map Some (th_ran th) ++ None :: rest)
  | AtDrain | DrainLocked | Waiting => th_todo th = [] /\ delivered = map Some (th_ran th)
  | Running batch => th_todo th = [] /\ delivered = map Some (th_ran th) ++ batch
  | _ => False
  end.

Lemma effect_worker i q lock th e delivered :
  worker_inv th delivered -> thread_step i q lock th = Some e ->
  worker_inv (e_thread e) (delivered ++ e_delivered e) /\ e_appended e = [].
Proof.
  intros Hw He. destruct th as [pc todo ran rets]. unfold worker_inv in *; simpl in *.
  unfold thread_step, acquire, drain_locked, drain_wait, run_item in He; simpl in He.
  destruct pc as [| | | | | | |[|[work|] batch]]; try done;
    repeat case_match; simplify_eq/=; rewrite ?app_nil_r in *.
  all: destruct_or?; destruct_and?; simplify_eq/=; eauto 10.
  by rewrite map_app, <- app_assoc.
Qed.

(** *** Both *)

Record inv (depth : option Z) (clients : list (list (option J))) s : Prop := {
  inv_depth : q_max_depth (s_queue s) = depth;
  inv_lock : lock_inv s;
  inv_fifo : fifo_inv s;
  inv_wake : wake_inv s;
  inv_threads : length (s_threads s) = S (length clients);
  inv_worker : exists th, s_threads s !! 0 = Some th /\ worker_inv th (s_delivered s);
  inv_clients i puts : clients !! i = Some puts ->
    exists th, s_threads s !! S i = Some th /\
      client_inv depth puts (appended_by (S i) (s_appended s)) th
}.

Lemma inv_step depth clients s s' : inv depth clients s -> step s s' -> inv depth clients s'.
Proof.
  intros Hs Hstep. pose proof Hstep as (i & th & e & Hi & He & ->)%step_inv.
  split.
  - rewrite <- (inv_depth _ _ _ Hs). by eapply effect_depth.
  - by eapply lock_inv_step, Hstep; apply Hs.
  - by eapply fifo_inv_step, Hstep; apply Hs.
  - by eapply wake_inv_step, Hstep; apply Hs.
  - simpl. rewrite length_insert. apply Hs.
  - destruct (inv_worker _ _ _ Hs) as (w & Hw & Hinv). destruct i as [|k].
    + simplify_eq. exists (e_thread e). split; [by eapply effect_lookup_eq|].
      by eapply effect_worker.
    + exists w. split; [by rewrite effect_lookup_ne|]. simpl.
      destruct (lookup_lt_is_Some_2 clients k) as [c Hc].
      { apply lookup_lt_Some in Hi. rewrite (inv_threads _ _ _ Hs) in Hi. lia. }
      destruct (inv_clients _ _ _ Hs _ _ Hc) as (th' & Hth' & Hcl). simplify_eq.
      destruct (effect_client _ _ _ _ _ _ _ _ (inv_depth _ _ _ Hs) Hcl He) as [_ ->].
      by rewrite app_nil_r.
  - intros k c Hc. destruct (inv_clients _ _ _ Hs _ _ Hc) as (th' & Hth' & Hcl).
    simpl s_appended. rewrite appended_by_app. destruct (decide (i = S k)) as [->|Hne].
    + simplify_eq. exists (e_thread e). split; [by eapply effect_lookup_eq|].
      rewrite appended_by_own. by apply (effect_client _ _ _ _ _ _ _ _ (inv_depth _ _ _ Hs) Hcl He).
    + exists th'. split; [by rewrite effect_lookup_ne|].
      by rewrite appended_by_other, app_nil_r by congruence.
Qed.

(** The call of a put. *)
Definition call_of (item : option J) : Call J :=
  match item with Some job => Submit job | None => RequestShutdown end.

Definition programs (clients : list (list (option J))) : list (list (Call J)) :=
  [RunForever] :: map (map call_of) clients.

Lemma calls_no_run puts : RunForever ∉ map call_of puts.
Proof. induction puts as [|[] puts IH]; simpl; rewrite ?not_elem_of_cons; [apply not_elem_of_nil|done|done]. Qed.

Lemma calls_puts puts : flat_map call_puts (map call_of puts) = puts.
Proof. induction puts as [|[] puts IH]; simpl; congruence. Qed.

Lemma inv_start depth clients : inv depth clients (start (Sem := Sem) depth (programs clients)).
Proof.
  split; simpl; try done.
  - intros i; simpl. split; [done|]. intros (th & Hth & Hl).
    change (map new_thread (programs clients) !! i = Some th) in Hth.
    apply list_lookup_fmap_Some in Hth as (p & -> & _). done.
  - intros Hq. by destruct Hq.
  - by rewrite !length_map.
  - eexists. split; [done|]. by left.
  - intros i puts Hc. exists (new_thread (map call_of puts)). split.
    + simpl. rewrite map_map.
      etransitivity; [exact (list_lookup_fmap (fun x => new_thread (map call_of x)) clients i)|].
      by rewrite Hc.
    + split; [|unfold thread_puts; simpl; apply calls_puts|done|by constructor].
      split; [apply calls_no_run|done].
Qed.

Lemma inv_reachable depth clients s s' : inv depth clients s -> rtc step s s' -> inv depth clients s'.
Proof. intros Hs Hr. induction Hr as [s|s s1 s2 Hstep _ IH]; [done|]. by eapply IH, inv_step. Qed.

(** *** States where no thread can move *)

Definition stuck s : Prop := forall s', ~ step s s'.

Lemma stuck_step s i th : stuck s -> s_threads s !! i = Some th ->
  thread_step i (s_queue s) (s_lock s) th = None.
Proof.
  intros Hs Hi. destruct (thread_step _ _ _ _) as [e|] eqn:He; [|done].
  destruct (Hs (apply_effect i e s)). exists i. unfold step_thread. by rewrite Hi, He.
Qed.

Lemma in_lock_moves i q lock th : in_lock (th_pc th) = true -> thread_step i q lock th <> None.
Proof.
  destruct th as [pc todo ran rets]; simpl. unfold thread_step; simpl.
  intros Hl. destruct pc; try done; repeat case_match; done.
Qed.

Lemma stuck_unlocked s : lock_inv s -> stuck s -> s_lock s = None.
Proof.
  intros Hl Hs. destruct (s_lock s) as [k|] eqn:Hk; [|done].
  destruct (proj1 (Hl k) Hk) as (th & Hth & Hin).
  by destruct (in_lock_moves k (s_queue s) (s_lock s) th Hin); apply stuck_step.
Qed.

Lemma stuck_thread s i th :
  lock_inv s -> stuck s -> s_threads s !! i = Some th ->
  (th_pc th = Idle /\ th_todo th = []) \/
  (th_pc th = Waiting /\ sem_value (q_sem (s_queue s)) = 0).
Proof.
  intros Hl Hs Hi. pose proof (stuck_step _ _ _ Hs Hi) as Hn.
  rewrite (stuck_unlocked _ Hl Hs) in Hn. destruct th as [pc todo ran rets]; simpl in *.
  unfold thread_step, acquire, drain_wait in Hn; simpl in Hn.
  destruct pc; repeat case_match; simplify_eq/=; auto.
  right. split; [done|]. by apply sem_wait_none.
Qed.

(** A stopped worker that is still waiting has left nothing behind. *)
Lemma stuck_waiting s i th :
  lock_inv s -> wake_inv s -> stuck s -> s_threads s !! i = Some th -> th_pc th = Waiting ->
  q_items (s_queue s) = [].
Proof.
  intros Hl Hw Hs Hi Hpc. destruct (q_items (s_queue s)) as [|x l] eqn:Hq; [done|].
  destruct (stuck_thread _ _ _ Hl Hs Hi) as [[Hc _]|[_ Hz]]; [congruence|].
  destruct Hw as [Hp|(k & th' & Hk & Ha)]; [by rewrite Hq|lia|].
  destruct (stuck_thread _ _ _ Hl Hs Hk) as [[Hc _]|[Hc _]]; by rewrite Hc in Ha.
Qed.

(** *** What a stopped system looks like *)

Lemma stuck_worker s depth clients w :
  inv depth clients s -> stuck s -> s_threads s !! 0 = Some w ->
  th_ran w = before_stop (map snd (s_appended s)) /\
  (th_pc w = Idle /\ None ∈ map snd (s_appended s) \/
   th_pc w = Waiting /\ None ∉ map snd (s_appended s) /\ s_delivered s = map snd (s_appended s)).
Proof.
  intros Hinv Hs Hw. destruct (inv_worker _ _ _ Hinv) as (w' & Hw' & Hok). simplify_eq.
  pose proof (inv_fifo _ _ _ Hinv) as Hf. unfold fifo_inv in Hf. rewrite Hf.
  pose proof (stuck_waiting s 0 w (inv_lock _ _ _ Hinv) (inv_wake _ _ _ Hinv) Hs Hw) as Hempty.
  destruct (stuck_thread _ _ _ (inv_lock _ _ _ Hinv) Hs Hw) as [[Hpc Htd]|[Hpc _]];
    unfold worker_inv in Hok; rewrite Hpc in Hok.
  - destruct Hok as [[Hbad _]|[_ [rest ->]]]; [congruence|].
    rewrite <- app_assoc. simpl. rewrite before_stop_at. split; [done|]. left. split; [done|].
    rewrite elem_of_app, elem_of_cons. auto.
  - destruct Hok as [_ ->]. rewrite (Hempty Hpc), app_nil_r, before_stop_all.
    split; [done|]. right. split_and!; [done| |done].
    intros (x & Hx & _)%list_elem_of_fmap. done.
Qed.

Lemma stuck_client s depth clients i puts :
  inv depth clients s -> stuck s -> clients !! i = Some puts ->
  exists th, s_threads s !! S i = Some th /\
    th_pc th = Idle /\ th_todo th = [] /\ map fst (th_returns th) = puts /\
    appended_by (S i) (s_appended s) = accepted th /\
    (depth = None -> accepted th = puts).
Proof.
  intros Hinv Hs Hc. destruct (inv_clients _ _ _ Hinv _ _ Hc) as (th & Hth & [Hcl Hputs Hlog Hok]).
  exists th. split; [done|]. destruct Hcl as [_ Hpc'].
  destruct (stuck_thread _ _ _ (inv_lock _ _ _ Hinv) Hs Hth) as [[Hpc Htd]|[Hpc _]];
    [|by rewrite Hpc in Hpc'].
  rewrite Hpc in Hlog. simpl in Hlog. rewrite app_nil_r in Hlog.
  unfold thread_puts in Hputs. rewrite Hpc, Htd in Hputs. simpl in Hputs. rewrite app_nil_r in Hputs.
  split_and!; try done. intros Hd. rewrite <- Hputs. unfold accepted. f_equal.
  apply forallb_filter_id, forallb_forall. intros r Hr.
  by apply (proj1 (Forall_forall _ _) (Hok Hd) r), list_elem_of_In.
Qed.

Lemma start_no_retry depth clients :
  (depth = None \/ forall puts, puts ∈ clients -> None ∉ puts) ->
  no_retry (start (Sem := Sem) depth (programs clients)).
Proof.
  intros Hd i th Hth. destruct Hd as [->|Hd]; [by left|]. right.
  change ((new_thread <$> programs clients) !! i = Some th) in Hth.
  apply list_lookup_fmap_Some in Hth as (p & -> & Hp). split; [|done]. simpl.
  destruct i as [|i]; simplify_eq/=; [by rewrite list_elem_of_singleton|].
  apply list_lookup_fmap_Some in Hp as (puts & -> & Hp).
  intros (x & Hx & Hin)%list_elem_of_fmap. destruct x; [done|].
  by eapply (Hd puts); [eapply list_elem_of_lookup_2|].
Qed.

Lemma start_cost depth clients :
  cost (start (Sem := Sem) depth (programs clients)) = 3 + 11 * length (concat clients).
Proof.
  assert (Hnew : forall ps : list (list (Call J)),
    sum_list_with thread_cost (map new_thread ps) = sum_list_with (sum_list_with call_cost) ps).
  { intros ps. induction ps as [|p ps IH]; [done|]. simpl. by rewrite IH. }
  assert (Hc : forall puts, sum_list_with call_cost (map call_of puts) = 11 * length puts).
  { intros puts. induction puts as [|[] puts IH]; simpl in *; lia. }
  unfold cost, queue_cost. cbn [start s_queue s_threads queue_init q_items q_sem].
  rewrite Hnew, sem_init_value. simpl. do 3 f_equal.
  induction clients as [|puts clients IH]; [done|].
  simpl. rewrite Hc, IH, length_app. lia.
Qed.

End serving.

(** *** Queues that cannot take the sentinel *)

Section full.
Context {Sem : Type} `{Counting Sem} {J : Type}.
Implicit Types (s : System Sem J) (th : Thread J) (q : Queue Sem (option J)).

Lemma within_depth_reachable s s' :
  within_depth (s_queue s) -> rtc step s s' -> within_depth (s_queue s').
Proof.
  intros Hs Hr. induction Hr as [s|s s1 s2 (i & th & e & Hi & He & ->)%step_inv _ IH]; [done|].
  by eapply IH, effect_within_depth.
Qed.

(** No put of the thread has been, or is about to be, accepted. *)
Definition none_accepted th : Prop :=
  accepted th = [] /\ match th_pc th with Posting _ => False | _ => True end.

Lemma effect_none_accepted i q lock th e :
  q_max_depth q = Some 0%Z -> none_accepted th -> thread_step i q lock th = Some e ->
  none_accepted (e_thread e).
Proof.
  intros Hd [Hacc Hpc] He.
  assert (Hlim : at_limit q = true) by (unfold at_limit; rewrite Hd; apply Z.leb_le; lia).
  pose proof (effect_accepted _ _ _ _ _ He) as Heq. rewrite Hacc in Heq. split.
  - assert (e_appended e = []) as Ha.
    { unfold thread_step, acquire, put_locked in He. rewrite Hlim in He.
      repeat case_match; by simplify_eq. }
    rewrite Ha, app_nil_r in Heq. by destruct (th_pc th), (accepted (e_thread e)).
  - unfold thread_step, acquire, put_locked, put_rejected, run_item, enter in He. rewrite Hlim in He.
    destruct (th_pc th); repeat case_match; by simplify_eq/=.
Qed.

(** With [max_depth = 0] every put is rejected, so that [request_shutdown],
    which tries again until its put is accepted, never returns. *)
Lemma depth_zero_never_accepts progs s i th :
  rtc step (start (Sem := Sem) (J := J) (Some 0%Z) progs) s ->
  s_threads s !! i = Some th -> accepted th = [].
Proof.
  intros Hr. enough (Hall : q_max_depth (s_queue s) = Some 0%Z /\
    forall j th', s_threads s !! j = Some th' -> none_accepted th').
  { intros Hi. by apply (proj2 Hall) in Hi as [? _]. }
  remember (start (Some 0%Z) progs) as s0 eqn:Hs0.
  assert (Hstart : q_max_depth (s_queue s0) = Some 0%Z /\
    forall j th', s_threads s0 !! j = Some th' -> none_accepted th').
  { subst s0. split; [done|]. intros j th' Hj.
    change ((new_thread <$> progs) !! j = Some th') in Hj.
    by apply list_lookup_fmap_Some in Hj as (p & -> & _). }
  clear Hs0. induction Hr as [s|s s1 s2 (k & t & e & Hk & He & ->)%step_inv _ IH]; [done|].
  apply IH. destruct Hstart as [Hd Ht]. split; [by rewrite <- Hd; eapply effect_depth|].
  intros j th' Hj. destruct (effect_lookup _ _ _ _ _ _ Hk Hj) as [[-> ->]|[_ Hj']]; [|by eapply Ht].
  eapply effect_none_accepted; [exact Hd|by eapply Ht|exact He].
Qed.

End full.

(** C5: A pool worker loses nothing, whatever the scheduler.  Take any number
    of clients that submit jobs and ask for a shutdown, with a queue that is
    unbounded, or bounded when no client asks for a shutdown.  Every execution
    is finite, within 11 steps per put.  When no thread can move any more every
    put has returned; each client's accepted items are in the queue's history
    in the order of its calls, all of them when the queue is unbounded; and the
    worker has run exactly the jobs accepted before the first shutdown
    sentinel, in that order: it has returned if there was a sentinel, and is
    otherwise waiting with everything accepted delivered. *)
Theorem pool_worker_serves {Sem J} `{Counting Sem} depth (clients : list (list (option J))) :
  (depth = None \/ forall puts, puts ∈ clients -> None ∉ puts) ->
  let s0 : System Sem J := start depth (programs clients) in
  (forall n s, nsteps step n s0 s -> n <= 3 + 11 * length (concat clients)) /\
  forall s, rtc step s0 s -> (forall s', ~ step s s') ->
    let history := map snd (s_appended s) in
    (exists w, s_threads s !! 0 = Some w /\ th_ran w = before_stop history /\
       (th_pc w = Idle /\ None ∈ history \/
        th_pc w = Waiting /\ None ∉ history /\ s_delivered s = history)) /\
    forall i puts, clients !! i = Some puts ->
      exists th, s_threads s !! S i = Some th /\
        th_pc th = Idle /\ th_todo th = [] /\ map fst (th_returns th) = puts /\
        appended_by (S i) (s_appended s) = accepted th /\
        (depth = None -> accepted th = puts).
Proof.
  intros Hd s0. split.
  - intros n s Hn. pose proof (cost_steps _ _ _ (start_no_retry _ _ Hd) Hn) as Hle.
    rewrite start_cost in Hle. lia.
  - intros s Hr Hs history. pose proof (inv_reachable _ _ _ _ (inv_start _ _) Hr) as Hinv. split.
    + destruct (inv_worker _ _ _ Hinv) as (w & Hw & _). exists w.
      split; [done|]. by eapply stuck_worker.
    + intros i puts Hc. by eapply stuck_client.
Qed.

Lemma run_schedule_reachable {Sem J} `{Counting Sem} sched (s : System Sem J) :
  rtc step s (run_schedule sched s).
Proof.
  revert s. induction sched as [|i sched IH]; intros s; [done|]. simpl.
  destruct (step_thread i s) as [s'|] eqn:Hs; simpl; [|apply IH].
  eapply rtc_l; [by exists i|apply IH].
Qed.

Lemma pool_worker_serves_witness :
  let clients := [[Some 1; Some 2; None]; [Some 3]] in
  let s := run_schedule [1;1;1;1;2;2;0;2;0;0;2;0;1;1;1;1;0;0;0;0;0;0;1;1;1;1;0;0;0;0;0;0]
             (start (Sem := N) None (programs clients)) in
  exists w, s_threads s !! 0 = Some w /\ th_ran w = before_stop (map snd (s_appended s)) /\
    th_pc w = Idle /\ th_ran w = [1; 3; 2].
Proof.
  intros clients s.
  destruct (proj2 (pool_worker_serves (Sem := N) None clients (or_introl eq_refl)) s
              (run_schedule_reachable _ _)) as [(w & Hw & Hran & _) _].
  - intros s' [i Hi]. destruct i as [|[|[|i]]]; vm_compute in Hi; congruence.
  - exists w. split; [exact Hw|]. split; [exact Hran|].
    clear Hran. vm_compute in Hw. injection Hw as <-. split; reflexivity.
Defined.
