(* ===== verification/RegexProgram.v ===== *)
(** * Regular expressions: compiled programs ([lib/re.py])

    A pattern is compiled to a list of operations, run by the machine of
    [RegexMatcher].  This file holds the operations, character classes, and the
    functions that put fragments together.  Every grammar rule builds a fragment
    of its own, with [SPLIT] and [JUMP] targets counted from the fragment's
    start; appending it to another one clones its operations with the targets
    moved.  [LOOKAHEAD false]/[LOOKAHEAD true] are the code's [LOOKAHEAD_POS] and
    [LOOKAHEAD_NEG], and so for [LOOKBEHIND].  Targets, class indices and slots
    are positions in lists. *)

From S2P Require Import Prelude RawList Bits Utf8.

Local Open Scope Z_scope.

Inductive Op :=
| CHAR (ch : Z)
| ANY
| IN (class_idx : nat)
| BOL
| EOL
| SPLIT (target_a target_b : nat)
| JUMP (target_a : nat)
| SAVE (slot : nat)
| MATCH
| WORDB
| NWORDB
| LOOKAHEAD (negate : bool) (sub : list Op)
| LOOKBEHIND (negate : bool) (width : nat) (sub : list Op)
| BACKREF (slot : nat).

(** ** Flags *)

Definition IGNORECASE : Z := 1.
Definition MULTILINE : Z := 2.
Definition DOTALL : Z := 4.

Definition has_flag (flags f : Z) : bool := negb (Z.land flags f =? 0).

(** ** Character classes *)

(** The lists [lo] and [hi], which grow together, are one list of pairs. *)
Record CharClass := mkCharClass { ranges : list (Z * Z); class_negate : bool }.

Definition add_range (lo hi : Z) (cc : CharClass) : CharClass :=
  mkCharClass (ranges cc ++ [(lo, hi)]) (class_negate cc).

Definition class_contains (cc : CharClass) (cp : Z) : bool :=
  let found := existsb (fun '(lo, hi) => (lo <=? cp) && (cp <=? hi)) (ranges cc) in
  if class_negate cc then negb found else found.

Definition case_flip_ascii (cp : Z) : Z :=
  if (97 <=? cp) && (cp <=? 122) then cp - 32
  else if (65 <=? cp) && (cp <=? 90) then cp + 32
  else cp.

Definition contains_ci (cc : CharClass) (cp : Z) : bool :=
  if class_contains cc cp then true
  else
    let flipped := case_flip_ascii cp in
    if negb (flipped =? cp) then class_contains cc flipped else false.

Definition digit_class (negate : bool) : CharClass := mkCharClass [(48, 57)] negate.

Definition word_class (negate : bool) : CharClass :=
  mkCharClass [(48, 57); (65, 90); (97, 122); (95, 95)] negate.

Definition space_class (negate : bool) : CharClass := mkCharClass [(32, 32); (9, 13)] negate.

Definition is_word_byte_cp (cp : Z) : bool :=
  if (48 <=? cp) && (cp <=? 57) then true
  else if (65 <=? cp) && (cp <=? 90) then true
  else if (97 <=? cp) && (cp <=? 122) then true
  else cp =? 95.

(** ** Fragments *)

Definition clone_op_at_offset (offset : nat) (op : Op) : Op :=
  match op with
  | SPLIT a b => SPLIT (a + offset) (b + offset)
  | JUMP a => JUMP (a + offset)
  | op => op
  end.

(** [_append_fragment( dest, frag )] *)
Definition append_fragment (dest frag : list Op) : list Op :=
  dest ++ map (clone_op_at_offset (length dest)) frag.

Definition single_op_fragment (op : Op) : list Op := [op].

(** The assignments to [target_a] and [target_b] of an operation of [out]. *)
Definition patch (i : nat) (op : Op) (out : list Op) : list Op := <[i := op]> out.

Definition quantify_star (atom : list Op) : list Op :=
  let out := append_fragment [] (single_op_fragment (SPLIT 0 0)) in
  let out := append_fragment out atom in
  let out := append_fragment out (single_op_fragment (JUMP 0)) in
  let jump_idx := (1 + length atom)%nat in
  let out := patch 0 (SPLIT 1 (length out)) out in
  patch jump_idx (JUMP 0) out.

Definition quantify_plus (atom : list Op) : list Op :=
  let out := append_fragment [] atom in
  append_fragment out (quantify_star atom).

Definition quantify_optional (atom : list Op) : list Op :=
  let out := append_fragment [] (single_op_fragment (SPLIT 0 0)) in
  let out := append_fragment out atom in
  patch 0 (SPLIT 1 (length out)) out.

(** [count] times [_append_fragment( out, frag )] *)
Definition append_times (count : nat) (frag out : list Op) : list Op :=
  Nat.iter count (fun out => append_fragment out frag) out.

Definition quantify_range (atom : list Op) (m n : nat) (unbounded : bool) : list Op :=
  let out := append_times m atom [] in
  if unbounded then append_fragment out (quantify_star atom)
  else append_times (n - m) (quantify_optional atom) out.

Definition quantify_star_lazy (atom : list Op) : list Op :=
  let out := append_fragment [] (single_op_fragment (SPLIT 0 0)) in
  let out := append_fragment out atom in
  let out := append_fragment out (single_op_fragment (JUMP 0)) in
  let jump_idx := (1 + length atom)%nat in
  let out := patch 0 (SPLIT (length out) 1) out in
  patch jump_idx (JUMP 0) out.

Definition quantify_plus_lazy (atom : list Op) : list Op :=
  let out := append_fragment [] atom in
  append_fragment out (quantify_star_lazy atom).

Definition quantify_optional_lazy (atom : list Op) : list Op :=
  let out := append_fragment [] (single_op_fragment (SPLIT 0 0)) in
  let out := append_fragment out atom in
  patch 0 (SPLIT (length out) 1) out.

Definition quantify_range_lazy (atom : list Op) (m n : nat) (unbounded : bool) : list Op :=
  let out := append_times m atom [] in
  if unbounded then append_fragment out (quantify_star_lazy atom)
  else append_times (n - m) (quantify_optional_lazy atom) out.

(** [_alt2( a, b )]: [SPLIT L1,L2 / L1: a / JUMP L3 / L2: b / L3:] *)
Definition alt2 (a b : list Op) : list Op :=
  let out := append_fragment [] (single_op_fragment (SPLIT 0 0)) in
  let out := append_fragment out a in
  let jump_idx := length out in
  let out := append_fragment out (single_op_fragment (JUMP 0)) in
  let b_start := length out in
  let out := append_fragment out b in
  let out := patch 0 (SPLIT 1 b_start) out in
  patch jump_idx (JUMP (length out)) out.

(** [_build_alternation( branches )], for the branches [first :: rest]: the
    chain is folded from the right. *)
Fixpoint build_alternation (first : list Op) (rest : list (list Op)) : list Op :=
  match rest with
  | [] => first
  | b :: rest => alt2 first (build_alternation b rest)
  end.

(** ** Fixed widths, for look-behind *)

(** [common_width], unset as long as [first] is. *)
Fixpoint class_width_from (common_width : option nat) (rs : list (Z * Z)) : option nat :=
  match rs with
  | [] => common_width
  | (lo, hi) :: rs =>
      let w_lo := utf8_encoded_len lo in
      let w_hi := utf8_encoded_len hi in
      if negb (w_lo =? w_hi)%nat then None
      else
        match common_width with
        | None => class_width_from (Some w_lo) rs
        | Some w => if negb (w_lo =? w)%nat then None else class_width_from (Some w) rs
        end
  end.

Definition class_fixed_byte_width (cls : CharClass) : option nat :=
  if class_negate cls then None else class_width_from None (ranges cls).

Fixpoint fragment_fixed_byte_width (frag : list Op) (classes : list CharClass) (total : nat) :
    result abort (option nat) :=
  match frag with
  | [] => Ok (Some total)
  | CHAR ch :: frag => fragment_fixed_byte_width frag classes (total + utf8_encoded_len ch)
  | IN class_idx :: frag =>
      match unwrap "re: fixed width scan class" (list_getitem class_idx classes) with
      | Err e => Err e
      | Ok cls =>
          match class_fixed_byte_width cls with
          | None => Ok None
          | Some w => fragment_fixed_byte_width frag classes (total + w)
          end
      end
  | SAVE _ :: frag | BOL :: frag | EOL :: frag | WORDB :: frag | NWORDB :: frag =>
      fragment_fixed_byte_width frag classes total
  | _ => Ok None
  end.
