(* ===== verification/RegexMatcher.v ===== *)
(** * Regular expressions: the matcher ([lib/re.py])

    [Matcher._run_from]: a machine with an explicit stack of choice points.  A
    [Frame] holds a position of the program, one of the text, and the capture
    slots ([slot_values], [slot_set], [last_group] and [last_group_set], grouped
    as [Captures]).  [self.steps] is threaded through the runs; [max_steps]
    bounds it, and the fuel of [run_from] is one more than what it allows.  The
    text is [text_len] bytes of [data], followed by a zero in [str]. *)

From S2P Require Import Prelude RawList Bits Utf8 RegexProgram.

Local Open Scope Z_scope.
Local Open Scope monad_scope.

Inductive MatchError := NoMatch | StepLimitExceeded.

Record Captures := mkCaptures {
  slot_values : list nat;
  slot_set : list bool;
  last_group : nat;
  last_group_set : bool
}.

Record Frame := mkFrame { frame_pc : nat; frame_sp : nat; frame_slots : Captures }.

Definition usize (z : Z) : Z := z mod 2 ^ 64.

Section matcher.
Variables (classes : list CharClass) (data : list Z) (text_len : nat) (byte_mode : bool)
  (max_steps : Z) (flags : Z).

Definition codepoint_at (pos : nat) : result abort Z :=
  if byte_mode then read_ptr data pos
  else let? (cp, _) := decode_utf8_at data pos in Ok cp.

Definition codepoint_width_at (pos : nat) : result abort nat :=
  if byte_mode then Ok 1%nat
  else let? (_, width) := decode_utf8_at data pos in Ok width.

Definition is_word_boundary (sp : nat) : result abort bool :=
  let? before :=
    if (0 <? sp)%nat then
      let? prev_pos := panic_sub "re: _is_word_boundary: sp > 0 checked above" sp 1 in
      let? prev_byte := read_ptr data prev_pos in
      Ok (is_word_byte_cp prev_byte)
    else Ok false in
  let? after :=
    if (sp <? text_len)%nat then let? cp := codepoint_at sp in Ok (is_word_byte_cp cp)
    else Ok false in
  Ok (negb (Bool.eqb before after)).

(** The loop of [_backref_matches_at] over the [g_len] bytes of the group. *)
Fixpoint bytes_agree (g_len a b : nat) : result abort bool :=
  match g_len with
  | O => Ok true
  | S g_len =>
      let? x := read_ptr data a in
      let? y := read_ptr data b in
      if negb (x =? y) then Ok false else bytes_agree g_len (a + 1) (b + 1)
  end.

Definition backref_matches_at (sp g_start g_len : nat) : result abort bool :=
  let end_pos := (sp + g_len)%nat in
  if (text_len <? end_pos)%nat then Ok false else bytes_agree g_len g_start sp.

(** One code point forward when [ok]. *)
Definition advance (sp : nat) (ok : bool) : result abort (option nat) :=
  if ok then let? width := codepoint_width_at sp in Ok (Some (sp + width)%nat) else Ok None.

Definition zero_width (sp : nat) (matched : bool) : option nat := if matched then Some sp else None.

(** [slot_set[ i ]] and [slot_values[ i ]] *)
Definition get_slot {A} (msg : string) (i : nat) (l : list A) : result abort A :=
  unwrap msg (list_getitem i l).

(** The operations that test the text at [sp]: the position after, if matched. *)
Definition test_op (op : Op) (sp : nat) (c : Captures) : result abort (option nat) :=
  match op with
  | CHAR ch =>
      let ignorecase := has_flag flags IGNORECASE in
      if (sp <? text_len)%nat then
        let? cp_here := codepoint_at sp in
        advance sp ((cp_here =? ch) || (ignorecase && (case_flip_ascii cp_here =? ch)))
      else Ok None
  | ANY =>
      let dotall := has_flag flags DOTALL in
      if (sp <? text_len)%nat then
        if dotall then advance sp true
        else let? cp := codepoint_at sp in advance sp (negb (cp =? 10))
      else Ok None
  | IN class_idx =>
      if (sp <? text_len)%nat then
        let? cc := unwrap "re: run_at class_idx" (list_getitem class_idx classes) in
        let? cp_in := codepoint_at sp in
        let in_ok := class_contains cc cp_in in
        advance sp (if negb in_ok && has_flag flags IGNORECASE then contains_ci cc cp_in else in_ok)
      else Ok None
  | BOL =>
      if (sp =? 0)%nat then Ok (Some sp)
      else if has_flag flags MULTILINE && (0 <? sp)%nat then
        let? prev_pos := panic_sub "re: run_at BOL: sp > 0 checked above" sp 1 in
        let? b := read_ptr data prev_pos in
        Ok (zero_width sp (b =? 10))
      else Ok None
  | EOL =>
      if (sp =? text_len)%nat then Ok (Some sp)
      else if has_flag flags MULTILINE && (sp <? text_len)%nat then
        let? b := read_ptr data sp in
        Ok (zero_width sp (b =? 10))
      else Ok None
  | WORDB => let? w := is_word_boundary sp in Ok (zero_width sp w)
  | NWORDB => let? w := is_word_boundary sp in Ok (zero_width sp (negb w))
  | BACKREF group_idx =>
      let lo_slot := (group_idx * 2)%nat in
      let hi_slot := (group_idx * 2 + 1)%nat in
      let? set := get_slot "re: run_at backref slot_set" lo_slot (slot_set c) in
      if negb set then Ok None
      else
        let? g_start := get_slot "re: run_at backref slot" lo_slot (slot_values c) in
        let? g_end := get_slot "re: run_at backref slot" hi_slot (slot_values c) in
        let? g_len := panic_sub "re: run_at backref: end < start (invariant)" g_end g_start in
        let? same := backref_matches_at sp g_start g_len in
        Ok (if same : bool then Some (sp + g_len)%nat else None)
  | _ => Ok None
  end.

(** The [SAVE] operation. *)
Definition save_slot (slot sp : nat) (c : Captures) : result abort Captures :=
  let? values := unwrap "re: run_at save slot" (list_setitem slot sp (slot_values c)) in
  let? set := unwrap "re: run_at save slot" (list_setitem slot true (slot_set c)) in
  let is_end_slot := (slot mod 2 =? 1)%nat in
  Ok (if is_end_slot && (3 <=? slot)%nat then mkCaptures values set (slot / 2) true
      else mkCaptures values set (last_group c) (last_group_set c)).

(** What the outcome of an assertion's sub-program makes of the assertion:
    the captures to go on with, [None] when it does not hold. *)
Definition assertion (negate : bool) (c : Captures) (sub_outcome : option Frame) : option Captures :=
  match sub_outcome with
  | Some sub_frame => if negate then None else Some (frame_slots sub_frame)
  | None => if negate then Some c else None
  end.

(** [stack.pop()]; [resume] is the machine at the popped frame. *)
Definition backtrack {B} (stack : list Frame) (none : B) (resume : Frame -> list Frame -> B) : B :=
  match stack with
  | [] => none
  | back :: stack => resume back stack
  end.

Fixpoint run_from (fuel : nat) (ops : list Op) (pc sp : nat) (c : Captures) (stack : list Frame)
    (steps : Z) : result abort (result MatchError Frame * Z) :=
  match fuel with
  | O => Err Fault
  | S fuel =>
      let steps := usize (steps + 1) in
      if max_steps <? steps then Ok (Err StepLimitExceeded, steps)
      else
        let? op := unwrap "re: run_at pc out of range" (list_getitem pc ops) in
        let resume matched steps :=
          match matched with
          | Some (sp, c) => run_from fuel ops (pc + 1) sp c stack steps
          | None =>
              backtrack stack (Ok (Err NoMatch, steps)) (fun back stack =>
                run_from fuel ops (frame_pc back) (frame_sp back) (frame_slots back) stack steps)
          end in
        let look negate sub start :=
          let? (sub_outcome, steps) := run_from fuel sub 0 start c [] steps in
          match sub_outcome with
          | Err StepLimitExceeded => Ok (Err StepLimitExceeded, steps)
          | Err NoMatch => resume (option_map (pair sp) (assertion negate c None)) steps
          | Ok f => resume (option_map (pair sp) (assertion negate c (Some f))) steps
          end in
        match op with
        | SPLIT a b => run_from fuel ops a sp c (mkFrame b sp c :: stack) steps
        | JUMP a => run_from fuel ops a sp c stack steps
        | SAVE slot => let? c := save_slot slot sp c in run_from fuel ops (pc + 1) sp c stack steps
        | MATCH => Ok (Ok (mkFrame pc sp c), steps)
        | LOOKAHEAD negate sub => look negate sub sp
        | LOOKBEHIND negate width sub =>
            if (sp <? width)%nat then resume (if negate then Some (sp, c) else None) steps
            else look negate sub (sp - width)%nat
        | op =>
            let? matched := test_op op sp c in
            resume (option_map (fun sp => (sp, c)) matched) steps
        end
  end.

Definition no_captures (n_slots : nat) : Captures :=
  mkCaptures (replicate n_slots O) (replicate n_slots false) 0 false.

Definition steps_fuel (steps : Z) : nat := S (Z.to_nat (max_steps - steps)).

Definition run_at (ops : list Op) (start_pos n_slots : nat) (steps : Z) :
    result abort (result MatchError Frame * Z) :=
  run_from (steps_fuel steps) ops 0 start_pos (no_captures n_slots) [] steps.

End matcher.
