(* ===== verification/RegexSpec.v ===== *)
(** * Regular expressions: syntax and meaning

    The syntax trees that the one-pass parser of [lib/re.py] compiles without
    building them, the program it makes of each ([comp], with the functions of
    [RegexProgram]), and what a tree means, independently of any machine.

    A tree relates the states (position and captures) before and after it, and
    the choices made on the way: [false] is the alternative tried first.  The
    engine's rule is that the match whose choices come first wins: [least].
    A star here, as in the program, may go round without moving. *)

From S2P Require Import Prelude RawList Bits Utf8 RegexProgram RegexMatcher.

Definition State : Type := nat * Captures.

(** States before and after, and the choices in between. *)
Definition rel : Type := State -> list bool -> State -> Prop.

(** ** The order of choices *)

Inductive before : list bool -> list bool -> Prop :=
| before_here c c' : before (false :: c) (true :: c')
| before_next b c c' : before c c' -> before (b :: c) (b :: c').

Definition least (R : rel) (x : State) (c : list bool) (y : State) : Prop :=
  R x c y /\ forall c' y', R x c' y' -> (c' = c /\ y' = y) \/ before c c'.

Lemma before_app_l c c1 c2 : before c1 c2 -> before (c ++ c1) (c ++ c2).
Proof. intros H. induction c; simpl; [done|by constructor]. Qed.

Lemma before_app_r c1 c2 d1 d2 : before c1 c2 -> before (c1 ++ d1) (c2 ++ d2).
Proof. induction 1; simpl; by constructor. Qed.

Lemma before_asym c c' : before c c' -> before c' c -> False.
Proof. induction 1; intros H'; inversion H'; auto. Qed.

Lemma before_irrefl c : ~ before c c.
Proof. intros H. by eapply before_asym. Qed.

Lemma least_unique R x c y c' y' : least R x c y -> least R x c' y' -> c = c' /\ y = y'.
Proof.
  intros [H1 H2] [H1' H2']. destruct (H2 _ _ H1') as [[-> ->]|Hb]; [done|].
  destruct (H2' _ _ H1) as [[-> ->]|Hb']; [done|]. by destruct (before_asym _ _ Hb Hb').
Qed.

(** ** Relations of the constructs *)

Definition eps_rel : rel := fun x c y => c = [] /\ y = x.

Definition seq_rel (R1 R2 : rel) : rel := fun x c z =>
  exists c1 y c2, c = c1 ++ c2 /\ R1 x c1 y /\ R2 y c2 z.

Definition alt_rel (R1 R2 : rel) : rel := fun x c y =>
  exists c', (c = false :: c' /\ R1 x c' y) \/ (c = true :: c' /\ R2 x c' y).

(** A greedy repetition tries to go on first, a lazy one to leave. *)
Inductive star_rel (greedy : bool) (R : rel) : rel :=
| star_stop x : star_rel greedy R x [greedy] x
| star_more x c1 y c2 z :
    R x c1 y -> star_rel greedy R y c2 z -> star_rel greedy R x (negb greedy :: c1 ++ c2) z.

Definition opt_rel (greedy : bool) (R : rel) : rel := fun x c y =>
  (c = [greedy] /\ y = x) \/ exists c', c = negb greedy :: c' /\ R x c' y.

(** [P], then [n] times [R]. *)
Definition then_times (n : nat) (R P : rel) : rel := Nat.iter n (fun P => seq_rel P R) P.

Definition save_rel (slot : nat) : rel := fun x c y =>
  c = [] /\ exists s, save_slot slot x.1 x.2 = Ok s /\ y = (x.1, s).

(** The assertion that [R] matches, or not, at [start]: it moves nowhere, and
    a positive one keeps the captures of the first match. *)
Definition look_rel (negate : bool) (R : rel) (start : nat) : rel := fun x c y =>
  c = [] /\
  if negate then (forall c' z, ~ R (start, x.2) c' z) /\ y = x
  else exists c' z, least R (start, x.2) c' z /\ y = (x.1, z.2).

Definition behind_rel (negate : bool) (width : nat) (R : rel) : rel := fun x c y =>
  if x.1 <? width then c = [] /\ negate = true /\ y = x
  else look_rel negate R (x.1 - width) x c y.

(** ** Syntax *)

Inductive Quant :=
| QStar
| QPlus
| QOptional
| QRange (m n : nat)
| QAtLeast (m : nat).

(** [RTest] holds an operation that tests the text at the position. *)
Inductive Re :=
| REmpty
| RTest (op : Op)
| RCat (r1 r2 : Re)
| RAlt (r1 r2 : Re)
| RQuant (q : Quant) (greedy : bool) (r : Re)
| RGroup (number : nat) (r : Re)
| RLookahead (negate : bool) (r : Re)
| RLookbehind (negate : bool) (width : nat) (r : Re).

Definition comp_quant (q : Quant) (greedy : bool) (atom : list Op) : list Op :=
  match q with
  | QStar => if greedy then quantify_star atom else quantify_star_lazy atom
  | QPlus => if greedy then quantify_plus atom else quantify_plus_lazy atom
  | QOptional => if greedy then quantify_optional atom else quantify_optional_lazy atom
  | QRange m n => if greedy then quantify_range atom m n false else quantify_range_lazy atom m n false
  | QAtLeast m => if greedy then quantify_range atom m 0 true else quantify_range_lazy atom m 0 true
  end.

(** The body of an assertion, ready to run. *)
Definition sub_program (inner : list Op) : list Op :=
  append_fragment (append_fragment [] inner) (single_op_fragment MATCH).

Fixpoint comp (r : Re) : list Op :=
  match r with
  | REmpty => []
  | RTest op => single_op_fragment op
  | RCat r1 r2 => append_fragment (comp r1) (comp r2)
  | RAlt r1 r2 => alt2 (comp r1) (comp r2)
  | RQuant q greedy r => comp_quant q greedy (comp r)
  | RGroup n r =>
      append_fragment
        (append_fragment (append_fragment [] (single_op_fragment (SAVE (2 * n)))) (comp r))
        (single_op_fragment (SAVE (2 * n + 1)))
  | RLookahead negate r => single_op_fragment (LOOKAHEAD negate (sub_program (comp r)))
  | RLookbehind negate width r => single_op_fragment (LOOKBEHIND negate width (sub_program (comp r)))
  end.

(** ** Meaning *)

Definition quant_rel (q : Quant) (greedy : bool) (R : rel) : rel :=
  match q with
  | QStar => star_rel greedy R
  | QPlus => seq_rel R (star_rel greedy R)
  | QOptional => opt_rel greedy R
  | QRange m n => then_times (n - m) (opt_rel greedy R) (then_times m R eps_rel)
  | QAtLeast m => seq_rel (then_times m R eps_rel) (star_rel greedy R)
  end.

Definition is_test (op : Op) : bool :=
  match op with
  | CHAR _ | ANY | IN _ | BOL | EOL | WORDB | NWORDB | BACKREF _ => true
  | _ => false
  end.

Section sem.
Variables (classes : list CharClass) (data : list Z) (text_len : nat) (byte_mode : bool) (flags : Z).

Definition test_rel (op : Op) : rel := fun x c y =>
  c = [] /\
  exists sp, test_op classes data text_len byte_mode flags op x.1 x.2 = Ok (Some sp) /\ y = (sp, x.2).

Fixpoint sem (r : Re) : rel :=
  match r with
  | REmpty => eps_rel
  | RTest op => test_rel op
  | RCat r1 r2 => seq_rel (sem r1) (sem r2)
  | RAlt r1 r2 => alt_rel (sem r1) (sem r2)
  | RQuant q greedy r => quant_rel q greedy (sem r)
  | RGroup n r => seq_rel (seq_rel (save_rel (2 * n)) (sem r)) (save_rel (2 * n + 1))
  | RLookahead negate r => fun x => look_rel negate (sem r) x.1 x
  | RLookbehind negate width r => behind_rel negate width (sem r)
  end.

End sem.

(** ** Trees that are well formed *)

(** In trees the parser makes, a group is not inside one of its number, a
    class index is one of the [n_classes], and a back reference names a group
    of the pattern.  [closed_refs] adds that no back reference is inside the
    group it names, which the parser does not check. *)
Fixpoint wf (n_classes n_slots : nat) (open : list nat) (r : Re) : Prop :=
  match r with
  | REmpty => True
  | RTest op =>
      is_test op = true /\
      match op with
      | IN i => i < n_classes
      | BACKREF g => 0 < g /\ 2 * g + 1 < n_slots
      | _ => True
      end
  | RCat r1 r2 | RAlt r1 r2 => wf n_classes n_slots open r1 /\ wf n_classes n_slots open r2
  | RGroup g r => g ∉ open /\ 2 * g + 1 < n_slots /\ wf n_classes n_slots (g :: open) r
  | RQuant _ _ r | RLookahead _ r | RLookbehind _ _ r => wf n_classes n_slots open r
  end.

Fixpoint closed_refs (open : list nat) (r : Re) : bool :=
  match r with
  | REmpty => true
  | RTest op => match op with BACKREF g => negb (existsb (Nat.eqb g) open) | _ => true end
  | RCat r1 r2 | RAlt r1 r2 => closed_refs open r1 && closed_refs open r2
  | RGroup g r => closed_refs (g :: open) r
  | RQuant _ _ r | RLookahead _ r | RLookbehind _ _ r => closed_refs open r
  end.

(** Has an assertion about what comes before. *)
Fixpoint looks_behind (r : Re) : bool :=
  match r with
  | REmpty | RTest _ => false
  | RCat r1 r2 | RAlt r1 r2 => looks_behind r1 || looks_behind r2
  | RQuant _ _ r | RGroup _ r | RLookahead _ r => looks_behind r
  | RLookbehind _ _ r => true
  end.

(** May match without moving. *)
Fixpoint can_be_empty (r : Re) : bool :=
  match r with
  | RTest (CHAR _) | RTest ANY | RTest (IN _) => false
  | REmpty | RTest _ | RLookahead _ _ | RLookbehind _ _ _ => true
  | RCat r1 r2 => can_be_empty r1 && can_be_empty r2
  | RAlt r1 r2 => can_be_empty r1 || can_be_empty r2
  | RGroup _ r => can_be_empty r
  | RQuant q _ r =>
      match q with
      | QStar | QOptional => true
      | QPlus => can_be_empty r
      | QRange m _ | QAtLeast m => (m =? 0) || can_be_empty r
      end
  end.

(** No unbounded repetition of something that may be empty. *)
Fixpoint progressing (r : Re) : bool :=
  match r with
  | REmpty | RTest _ => true
  | RCat r1 r2 | RAlt r1 r2 => progressing r1 && progressing r2
  | RGroup _ r | RLookahead _ r | RLookbehind _ _ r => progressing r
  | RQuant q _ r =>
      progressing r &&
      match q with
      | QStar | QPlus | QAtLeast _ => negb (can_be_empty r)
      | QOptional | QRange _ _ => true
      end
  end.
