(* ===== verification/RegexExplore.v ===== *)
(** * Regular expressions: what a program explores, and fragments

    [explore] is the outcome of a program from a position, with no stack and no
    budget: at a [SPLIT] the second target counts when the first one failed.
    [implements] says that a fragment, wherever it sits in a program, does what
    a relation says: the continuation is entered in the order of the choices,
    and fails when it fails for every match.  Each way of building a fragment
    has its lemma; together they give [comp_implements]. *)

From S2P Require Import Prelude RawList Bits Utf8 RegexProgram RegexMatcher RegexSpec.

(** ** Outcomes *)

Inductive answer := Found (f : Frame) | Failed | Crashed.

Section explore.
Variables (classes : list CharClass) (data : list Z) (text_len : nat) (byte_mode : bool) (flags : Z).

Notation test := (test_op classes data text_len byte_mode flags).

(** The outcome at [pc], with the height of its derivation.  [local] is what an
    operation that does not choose does: [None] is a crash, [Some None] that it
    does not match. *)
Inductive explore : nat -> list Op -> nat -> State -> answer -> Prop :=
| ex_end n ops pc x : ops !! pc = None -> explore n ops pc x Crashed
| ex_match n ops pc x : ops !! pc = Some MATCH -> explore n ops pc x (Found (mkFrame pc x.1 x.2))
| ex_jump n ops pc x a ans :
    ops !! pc = Some (JUMP a) -> explore n ops a x ans -> explore (S n) ops pc x ans
| ex_first n ops pc x a b ans :
    ops !! pc = Some (SPLIT a b) -> explore n ops a x ans -> ans <> Failed ->
    explore (S n) ops pc x ans
| ex_next n ops pc x a b ans :
    ops !! pc = Some (SPLIT a b) -> explore n ops a x Failed -> explore n ops b x ans ->
    explore (S n) ops pc x ans
| ex_local n ops pc x op y ans :
    ops !! pc = Some op -> local op x (Some (Some y)) -> explore n ops (pc + 1) y ans ->
    explore (S n) ops pc x ans
| ex_local_fail n ops pc x op :
    ops !! pc = Some op -> local op x (Some None) -> explore n ops pc x Failed
| ex_local_crash n ops pc x op :
    ops !! pc = Some op -> local op x None -> explore n ops pc x Crashed
with local : Op -> State -> option (option State) -> Prop :=
| local_test op x r :
    is_test op = true -> test op x.1 x.2 = Ok r ->
    local op x (Some (option_map (fun sp => (sp, x.2)) r))
| local_test_crash op x e : is_test op = true -> test op x.1 x.2 = Err e -> local op x None
| local_save slot x s : save_slot slot x.1 x.2 = Ok s -> local (SAVE slot) x (Some (Some (x.1, s)))
| local_save_crash slot x e : save_slot slot x.1 x.2 = Err e -> local (SAVE slot) x None
| local_ahead neg sub x n f :
    explore n sub 0 x (Found f) ->
    local (LOOKAHEAD neg sub) x (Some (option_map (pair x.1) (assertion neg x.2 (Some f))))
| local_ahead_none neg sub x n :
    explore n sub 0 x Failed ->
    local (LOOKAHEAD neg sub) x (Some (option_map (pair x.1) (assertion neg x.2 None)))
| local_ahead_crash neg sub x n : explore n sub 0 x Crashed -> local (LOOKAHEAD neg sub) x None
| local_short neg w sub x :
    x.1 < w -> local (LOOKBEHIND neg w sub) x (Some (if neg : bool then Some x else None))
| local_behind neg w sub x n f :
    w <= x.1 -> explore n sub 0 (x.1 - w, x.2) (Found f) ->
    local (LOOKBEHIND neg w sub) x (Some (option_map (pair x.1) (assertion neg x.2 (Some f))))
| local_behind_none neg w sub x n :
    w <= x.1 -> explore n sub 0 (x.1 - w, x.2) Failed ->
    local (LOOKBEHIND neg w sub) x (Some (option_map (pair x.1) (assertion neg x.2 None)))
| local_behind_crash neg w sub x n :
    w <= x.1 -> explore n sub 0 (x.1 - w, x.2) Crashed -> local (LOOKBEHIND neg w sub) x None.

Definition is_local (op : Op) : bool :=
  match op with SPLIT _ _ | JUMP _ | MATCH => false | _ => true end.

Lemma local_is_local op x o : local op x o -> is_local op = true.
Proof. destruct 1; try done; by destruct op. Qed.

(** *** Inversions *)

Lemma explore_local_inv n ops pc x ans op :
  explore n ops pc x ans -> ops !! pc = Some op -> is_local op = true ->
  (exists y m, local op x (Some (Some y)) /\ n = S m /\ explore m ops (pc + 1) y ans) \/
  (ans = Failed /\ local op x (Some None)) \/ (ans = Crashed /\ local op x None).
Proof. intros He Hop Hl. inversion He; simplify_eq; eauto 10. Qed.

Lemma explore_jump_inv n ops pc x ans a :
  explore n ops pc x ans -> ops !! pc = Some (JUMP a) ->
  exists m, n = S m /\ explore m ops a x ans.
Proof.
  intros He Hop. inversion He; simplify_eq; eauto.
  all: match goal with H : local _ _ _ |- _ => by apply local_is_local in H end.
Qed.

Lemma explore_split_inv n ops pc x ans a b :
  explore n ops pc x ans -> ops !! pc = Some (SPLIT a b) ->
  exists m, n = S m /\
    ((explore m ops a x ans /\ ans <> Failed) \/ (explore m ops a x Failed /\ explore m ops b x ans)).
Proof.
  intros He Hop. inversion He; simplify_eq; eauto 10.
  all: match goal with H : local _ _ _ |- _ => by apply local_is_local in H end.
Qed.

Lemma explore_match_inv n ops pc x ans :
  explore n ops pc x ans -> ops !! pc = Some MATCH -> ans = Found (mkFrame pc x.1 x.2).
Proof.
  intros He Hop. inversion He; simplify_eq; eauto 10.
  all: match goal with H : local _ _ _ |- _ => by apply local_is_local in H end.
Qed.

(** ** Fragments *)

(** The fragment [f] sits at [k] in the program [C]. *)
Definition code_at (C : list Op) (k : nat) (f : list Op) : Prop :=
  forall i op, f !! i = Some op -> C !! (k + i) = Some (clone_op_at_offset k op).

Lemma clone_clone j k op : clone_op_at_offset k (clone_op_at_offset j op) = clone_op_at_offset (k + j) op.
Proof. destruct op; simpl; f_equal; lia. Qed.

Lemma clone_0 op : clone_op_at_offset 0 op = op.
Proof. destruct op; simpl; f_equal; lia. Qed.

Lemma code_at_whole f : code_at f 0 f.
Proof. intros i op Hi. by rewrite clone_0. Qed.

Lemma code_at_append C k f g :
  code_at C k (append_fragment f g) <-> code_at C k f /\ code_at C (k + length f) g.
Proof.
  unfold code_at, append_fragment. split.
  - intros H. split; intros i op Hi.
    + apply H. by apply lookup_app_l_Some.
    + rewrite <- (clone_clone (length f) k), <- Nat.add_assoc. apply H.
      rewrite lookup_app_r by lia. replace (length f + i - length f) with i by lia.
      by rewrite list_lookup_fmap, Hi.
  - intros [H1 H2] i op Hi. destruct (decide (i < length f)) as [Hlt|Hge].
    + rewrite lookup_app_l in Hi by done. by apply H1.
    + rewrite lookup_app_r in Hi by lia.
      rewrite list_lookup_fmap in Hi. destruct (g !! (i - length f)) as [op'|] eqn:Hg; [|done].
      simplify_eq/=. rewrite clone_clone. rewrite <- (H2 _ _ Hg). f_equal. lia.
Qed.

(** What [f] does when it is entered in the state [x]. *)
Record follows (f : list Op) (R : rel) : Prop := {
  fo_found C k n x fr :
    code_at C k f -> explore n C k x (Found fr) ->
    exists c y m, m <= n /\ R x c y /\ explore m C (k + length f) y (Found fr) /\
      forall c' y', R x c' y' ->
        (c' = c /\ y' = y) \/ before c c' \/
        (before c' c /\ exists m', explore m' C (k + length f) y' Failed);
  fo_failed C k n x :
    code_at C k f -> explore n C k x Failed ->
    forall c y, R x c y -> exists m, explore m C (k + length f) y Failed
}.

(** From states in [pre], [f] crashes only by what follows it, which it enters
    in states of [post]. *)
Record safe (pre : State -> Prop) (f : list Op) (R : rel) (post : State -> Prop) : Prop := {
  sa_crashed C k n x :
    code_at C k f -> pre x -> explore n C k x Crashed ->
    exists c y m, m <= n /\ R x c y /\ explore m C (k + length f) y Crashed;
  sa_post x c y : pre x -> R x c y -> post y
}.

Lemma follows_empty : follows [] eps_rel.
Proof.
  split.
  - intros C k n x fr _ He. rewrite Nat.add_0_r. exists [], x, n. split_and!; [done|done|done|].
    intros c' y' [-> ->]. by left.
  - intros C k n x _ He c y [-> ->]. rewrite Nat.add_0_r. eauto.
Qed.

Lemma safe_empty pre : safe pre [] eps_rel pre.
Proof.
  split; [|by intros x c y Hx [-> ->]].
  intros C k n x _ _ He. rewrite Nat.add_0_r. exists [], x, n. done.
Qed.

Lemma length_append_fragment f g : length (append_fragment f g) = length f + length g.
Proof. unfold append_fragment. by rewrite length_app, length_map. Qed.

Lemma follows_append f g R1 R2 :
  follows f R1 -> follows g R2 -> follows (append_fragment f g) (seq_rel R1 R2).
Proof.
  intros Hf Hg. split.
  - intros C k n x fr [Hcf Hcg]%code_at_append He. rewrite length_append_fragment, Nat.add_assoc.
    destruct (fo_found _ _ Hf _ _ _ _ _ Hcf He) as (c1 & y & m1 & Hm1 & HR1 & He1 & Hl1).
    destruct (fo_found _ _ Hg _ _ _ _ _ Hcg He1) as (c2 & z & m2 & Hm2 & HR2 & He2 & Hl2).
    exists (c1 ++ c2), z, m2. split_and!; [lia|by exists c1, y, c2|done|].
    intros c' z' (c1' & y' & c2' & -> & HR1' & HR2').
    destruct (Hl1 _ _ HR1') as [[-> ->]|[Hb|[Hb [m' Hm']]]].
    + destruct (Hl2 _ _ HR2') as [[-> ->]|[Hb|[Hb Hm']]]; [by left| |].
      * right; left. by apply before_app_l.
      * right; right. split; [by apply before_app_l|done].
    + right; left. by apply before_app_r.
    + right; right. split; [by apply before_app_r|]. by eapply (fo_failed _ _ Hg).
  - intros C k n x [Hcf Hcg]%code_at_append He c z (c1 & y & c2 & -> & HR1 & HR2).
    rewrite length_append_fragment, Nat.add_assoc.
    destruct (fo_failed _ _ Hf _ _ _ _ Hcf He _ _ HR1) as [m He1]. by eapply (fo_failed _ _ Hg).
Qed.

Lemma safe_seq pre mid post f g R1 R2 :
  safe pre f R1 mid -> safe mid g R2 post -> safe pre (append_fragment f g) (seq_rel R1 R2) post.
Proof.
  intros Hf Hg. split.
  - intros C k n x [Hcf Hcg]%code_at_append Hx He. rewrite length_append_fragment, Nat.add_assoc.
    destruct (sa_crashed _ _ _ _ Hf _ _ _ _ Hcf Hx He) as (c1 & y & m1 & Hm1 & HR1 & He1).
    destruct (sa_crashed _ _ _ _ Hg _ _ _ _ Hcg (sa_post _ _ _ _ Hf _ _ _ Hx HR1) He1)
      as (c2 & z & m2 & Hm2 & HR2 & He2).
    exists (c1 ++ c2), z, m2. split_and!; [lia|by exists c1, y, c2|done].
  - intros x c z Hx (c1 & y & c2 & -> & HR1 & HR2).
    by eapply (sa_post _ _ _ _ Hg), HR2; eapply (sa_post _ _ _ _ Hf).
Qed.

Lemma safe_weaken pre pre' post post' f R :
  safe pre f R post -> (forall x, pre' x -> pre x) -> (forall x, post x -> post' x) -> safe pre' f R post'.
Proof.
  intros Hf Hpre Hpost. split.
  - intros C k n x Hc Hx. by eapply (sa_crashed _ _ _ _ Hf), Hpre.
  - intros x c y Hx HR. by eapply Hpost, (sa_post _ _ _ _ Hf), HR; apply Hpre.
Qed.

(** *** Choices *)

(** A [SPLIT] that enters a fragment at [e] or leaves for [l]. *)
Definition choice (greedy : bool) (e l : nat) : Op := if greedy then SPLIT e l else SPLIT l e.

Lemma choice_found greedy e l n C pc x fr :
  C !! pc = Some (choice greedy e l) -> explore n C pc x (Found fr) ->
  exists m, n = S m /\
    ((explore m C e x (Found fr) /\ (greedy = true \/ explore m C l x Failed)) \/
     (explore m C l x (Found fr) /\ (greedy = false \/ explore m C e x Failed))).
Proof.
  intros Hop He. destruct greedy; simpl in Hop;
    destruct (explore_split_inv _ _ _ _ _ _ _ He Hop) as (m & -> & [[? ?]|[? ?]]); eauto 10.
Qed.

Lemma choice_failed greedy e l n C pc x :
  C !! pc = Some (choice greedy e l) -> explore n C pc x Failed ->
  exists m, n = S m /\ explore m C e x Failed /\ explore m C l x Failed.
Proof.
  intros Hop He. destruct greedy; simpl in Hop;
    destruct (explore_split_inv _ _ _ _ _ _ _ He Hop) as (m & -> & [[? ?]|[? ?]]); eauto 10; done.
Qed.

Lemma choice_crashed greedy e l n C pc x :
  C !! pc = Some (choice greedy e l) -> explore n C pc x Crashed ->
  exists m, n = S m /\ (explore m C e x Crashed \/ explore m C l x Crashed).
Proof.
  intros Hop He. destruct greedy; simpl in Hop;
    destruct (explore_split_inv _ _ _ _ _ _ _ He Hop) as (m & -> & [[? ?]|[? ?]]); eauto 10.
Qed.

Lemma jump_explore n C pc x ans a :
  C !! pc = Some (JUMP a) -> explore n C pc x ans -> exists m, n = S m /\ explore m C a x ans.
Proof. intros Hop He. by eapply explore_jump_inv. Qed.

(** The optional fragment. *)
Definition optional_code (greedy : bool) (atom : list Op) : list Op :=
  choice greedy 1 (S (length atom)) :: map (clone_op_at_offset 1) atom.

Lemma clone_choice k greedy e l : clone_op_at_offset k (choice greedy e l) = choice greedy (e + k) (l + k).
Proof. by destruct greedy. Qed.

Lemma optional_code_at C k greedy atom :
  code_at C k (optional_code greedy atom) ->
  C !! k = Some (choice greedy (k + 1) (k + length (optional_code greedy atom))) /\ code_at C (k + 1) atom.
Proof.
  intros H. split.
  - specialize (H 0 _ eq_refl). rewrite Nat.add_0_r, clone_choice in H.
    rewrite H. simpl. rewrite length_map. do 2 f_equal; lia.
  - intros i op Hi. specialize (H (S i) (clone_op_at_offset 1 op)).
    rewrite clone_clone in H. rewrite <- H; [f_equal; lia|].
    simpl. by rewrite list_lookup_fmap, Hi.
Qed.

Lemma length_optional k greedy atom : k + 1 + length atom = k + length (optional_code greedy atom).
Proof. simpl. rewrite length_map. lia. Qed.

Lemma follows_optional greedy f R :
  follows f R -> follows (optional_code greedy f) (opt_rel greedy R).
Proof.
  intros Hf. pose proof (fun k => length_optional k greedy f) as Hl. split.
  - intros C k n x fr [Hop Hcf]%optional_code_at He.
    destruct (choice_found _ _ _ _ _ _ _ _ Hop He) as (m & -> & [[He1 Hor]|[He1 Hor]]).
    + destruct (fo_found _ _ Hf _ _ _ _ _ Hcf He1) as (c & y & m1 & Hm1 & HR & He2 & Hlst).
      rewrite Hl in *. exists (negb greedy :: c), y, m1. split_and!; [lia|right; eauto|done|].
      intros c' y' [[-> ->]|(c1' & -> & HR')].
      * destruct Hor as [->|Hfl]; [right; left; constructor|].
        destruct greedy; [right; left; constructor|]. right; right. split; [constructor|eauto].
      * destruct (Hlst _ _ HR') as [[-> ->]|[Hb|[Hb Hm]]]; [by left|right; left|right; right; split];
          try by constructor. done.
    + exists [greedy], x, m. split_and!; [lia|by left|done|].
      intros c' y' [[-> ->]|(c1' & -> & HR')]; [by left|]. right.
      destruct Hor as [->|Hfl]; [left; constructor|].
      destruct greedy; [|left; constructor]. right. split; [constructor|].
      destruct (fo_failed _ _ Hf _ _ _ _ Hcf Hfl _ _ HR') as [m' Hm']. rewrite Hl in Hm'. eauto.
  - intros C k n x [Hop Hcf]%optional_code_at He c y HR.
    destruct (choice_failed _ _ _ _ _ _ _ Hop He) as (m & -> & He1 & He2).
    destruct HR as [[-> ->]|(c1 & -> & HR)]; [eauto|].
    destruct (fo_failed _ _ Hf _ _ _ _ Hcf He1 _ _ HR) as [m' Hm']. rewrite Hl in Hm'. eauto.
Qed.

Lemma safe_optional greedy G f R :
  safe G f R G -> safe G (optional_code greedy f) (opt_rel greedy R) G.
Proof.
  intros Hf. split.
  - intros C k n x [Hop Hcf]%optional_code_at Hx He.
    destruct (choice_crashed _ _ _ _ _ _ _ Hop He) as (m & -> & [He1|He1]).
    + destruct (sa_crashed _ _ _ _ Hf _ _ _ _ Hcf Hx He1) as (c & y & m1 & Hm1 & HR & He2).
      rewrite (length_optional k greedy) in He2. exists (negb greedy :: c), y, m1. split_and!; [lia|right; eauto|done].
    + exists [greedy], x, m. split_and!; [lia|by left|done].
  - intros x c y Hx [[-> ->]|(c1 & -> & HR)]; [done|by eapply (sa_post _ _ _ _ Hf)].
Qed.

(** The repeated fragment. *)
Definition star_code (greedy : bool) (atom : list Op) : list Op :=
  choice greedy 1 (S (S (length atom))) :: map (clone_op_at_offset 1) atom ++ [JUMP 0].

Lemma star_code_at C k greedy atom :
  code_at C k (star_code greedy atom) ->
  C !! k = Some (choice greedy (k + 1) (k + length (star_code greedy atom))) /\
  code_at C (k + 1) atom /\ C !! (k + 1 + length atom) = Some (JUMP k).
Proof.
  intros H. split_and!.
  - specialize (H 0 _ eq_refl). rewrite Nat.add_0_r, clone_choice in H.
    rewrite H. simpl. rewrite length_app, length_map. simpl. do 2 f_equal; lia.
  - intros i op Hi. specialize (H (S i) (clone_op_at_offset 1 op)).
    rewrite clone_clone in H. rewrite <- H; [f_equal; lia|].
    simpl. apply lookup_app_l_Some. by rewrite list_lookup_fmap, Hi.
  - specialize (H (S (length atom)) (JUMP 0)). simpl in H.
    rewrite lookup_app_r, length_map, Nat.sub_diag in H by (by rewrite length_map).
    rewrite <- (H eq_refl). f_equal. lia.
Qed.

Section star.
Variables (greedy : bool) (f : list Op) (R : rel).
Hypothesis Hf : follows f R.
Variables (C : list Op) (k : nat).
Hypothesis Hc : code_at C k (star_code greedy f).
Let l := k + length (star_code greedy f).

Let Hop : C !! k = Some (choice greedy (k + 1) l).
Proof. apply star_code_at, Hc. Qed.
Let Hcf : code_at C (k + 1) f.
Proof. apply (star_code_at _ _ _ _ Hc). Qed.
Let Hjump : C !! (k + 1 + length f) = Some (JUMP k).
Proof. apply (star_code_at _ _ _ _ Hc). Qed.

Lemma star_failed x c y :
  star_rel greedy R x c y -> forall n, explore n C k x Failed -> exists m, explore m C l y Failed.
Proof.
  induction 1 as [x|x c1 y c2 z HR _ IH]; intros n He.
  - destruct (choice_failed _ _ _ _ _ _ _ Hop He) as (m & -> & _ & He'). eauto.
  - destruct (choice_failed _ _ _ _ _ _ _ Hop He) as (m & -> & He' & _).
    destruct (fo_failed _ _ Hf _ _ _ _ Hcf He' _ _ HR) as [m' Hm'].
    destruct (jump_explore _ _ _ _ _ _ Hjump Hm') as (m'' & -> & Hm''). by eapply IH.
Qed.

Lemma star_found n : forall x fr, explore n C k x (Found fr) ->
  exists c y m, m <= n /\ star_rel greedy R x c y /\ explore m C l y (Found fr) /\
    forall c' y', star_rel greedy R x c' y' ->
      (c' = c /\ y' = y) \/ before c c' \/ (before c' c /\ exists m', explore m' C l y' Failed).
Proof.
  pose proof star_failed as Hsf.
  induction (lt_wf n) as [n _ IH]. intros x fr He.
  destruct (choice_found _ _ _ _ _ _ _ _ Hop He) as (m & -> & [[He1 Hor]|[He1 Hor]]).
  - destruct (fo_found _ _ Hf _ _ _ _ _ Hcf He1) as (c1 & y & m1 & Hm1 & HR & He2 & Hlst).
    destruct (jump_explore _ _ _ _ _ _ Hjump He2) as (m2 & -> & He3).
    destruct (IH m2 ltac:(lia) _ _ He3) as (c2 & z & m3 & Hm3 & HS & He4 & Hlst2).
    exists (negb greedy :: c1 ++ c2), z, m3. split_and!; [lia|by econstructor|done|].
    intros c' z' HS'. inversion HS' as [x0|x0 c1' y' c2' z0 HR' HS2']; simplify_eq.
    + right. destruct Hor as [->|Hfl]; [left; constructor|].
      destruct greedy; [left; constructor|right; split; [constructor|eauto]].
    + destruct (Hlst _ _ HR') as [[-> ->]|[Hb|[Hb [m' Hm']]]].
      * destruct (Hlst2 _ _ HS2') as [[-> ->]|[Hb|[Hb Hm']]]; [by left|right; left|right; right; split; [|done]];
          constructor; by apply before_app_l.
      * right; left. constructor. by apply before_app_r.
      * right; right. split; [constructor; by apply before_app_r|].
        destruct (jump_explore _ _ _ _ _ _ Hjump Hm') as (m'' & -> & Hm''). by eapply Hsf.
  - exists [greedy], x, m. split_and!; [lia|constructor|done|].
    intros c' z' HS'. inversion HS' as [x0|x0 c1' y' c2' z0 HR' HS2']; simplify_eq; [by left|]. right.
    destruct Hor as [->|Hfl]; [left; constructor|].
    destruct greedy; [|left; constructor]. right. split; [constructor|].
    destruct (fo_failed _ _ Hf _ _ _ _ Hcf Hfl _ _ HR') as [m' Hm'].
    destruct (jump_explore _ _ _ _ _ _ Hjump Hm') as (m'' & -> & Hm''). by eapply Hsf.
Qed.

Lemma star_crashed G n : safe G f R G -> forall x, G x -> explore n C k x Crashed ->
  exists c y m, m <= n /\ star_rel greedy R x c y /\ explore m C l y Crashed.
Proof.
  intros Hs. induction (lt_wf n) as [n _ IH]. intros x Hx He.
  destruct (choice_crashed _ _ _ _ _ _ _ Hop He) as (m & -> & [He1|He1]).
  - destruct (sa_crashed _ _ _ _ Hs _ _ _ _ Hcf Hx He1) as (c1 & y & m1 & Hm1 & HR & He2).
    destruct (jump_explore _ _ _ _ _ _ Hjump He2) as (m2 & -> & He3).
    pose proof (sa_post _ _ _ _ Hs _ _ _ Hx HR) as Hy.
    destruct (IH m2 ltac:(lia) _ Hy He3) as (c2 & z & m3 & Hm3 & HS & He4).
    exists (negb greedy :: c1 ++ c2), z, m3. split_and!; [lia|by econstructor|done].
  - exists [greedy], x, m. split_and!; [lia|constructor|done].
Qed.

End star.

Lemma follows_star greedy f R : follows f R -> follows (star_code greedy f) (star_rel greedy R).
Proof.
  intros Hf. split.
  - intros C k n x fr Hc. by eapply star_found.
  - intros C k n x Hc He c y HS. by eapply star_failed.
Qed.

Lemma safe_star greedy G f R :
  safe G f R G -> safe G (star_code greedy f) (star_rel greedy R) G.
Proof.
  intros Hf. split.
  - intros C k n x Hc. by eapply star_crashed.
  - intros x c y Hx HS. induction HS as [|x c1 y c2 z HR _ IH]; [done|].
    by apply IH, (sa_post _ _ _ _ Hf _ _ _ Hx HR).
Qed.

End explore.
