(* ===== verification/RegexCompile.v ===== *)
(** * Regular expressions: the program of a syntax tree does what the tree means

    The remaining ways of building fragments ([alt2], the quantifiers, single
    operations, groups and assertions), and the two theorems on [comp]:
    [comp_follows], that the program follows the meaning of its tree, and
    [comp_safe], that it does not crash where [good] holds. *)

From S2P Require Import Prelude RawList Bits Utf8 RegexProgram RegexMatcher RegexSpec RegexExplore.

(** ** The fragments as lists *)

Lemma append_fragment_nil f : append_fragment [] f = f.
Proof.
  unfold append_fragment. simpl. rewrite <- (map_id f) at 2. apply map_ext, clone_0.
Qed.

Lemma patch_middle (l r : list Op) op op' : patch (length l) op' (l ++ op :: r) = l ++ op' :: r.
Proof. unfold patch. by rewrite insert_app_r_alt, Nat.sub_diag by lia. Qed.

Lemma patch_last (l : list Op) n op op' : n = length l -> patch n op' (l ++ [op]) = l ++ [op'].
Proof. intros ->. apply patch_middle. Qed.

Lemma star_pieces f op j1 :
  patch (1 + length f) (JUMP 0) (patch 0 op
    (append_fragment (append_fragment (append_fragment [] [SPLIT 0 0]) f) [j1])) =
  op :: map (clone_op_at_offset 1) f ++ [JUMP 0].
Proof.
  rewrite append_fragment_nil. unfold append_fragment.
  etransitivity; [|apply (patch_last (op :: map (clone_op_at_offset 1) f) (1 + length f))].
  { reflexivity. }
  simpl. by rewrite length_map.
Qed.

Lemma quantify_star_code (greedy : bool) f :
  (if greedy then quantify_star f else quantify_star_lazy f) = star_code greedy f.
Proof.
  unfold star_code, choice. unfold quantify_star, quantify_star_lazy, single_op_fragment.
  rewrite !length_append_fragment. simpl length.
  destruct greedy; rewrite star_pieces; do 2 f_equal; lia.
Qed.

Lemma quantify_plus_code (greedy : bool) f :
  (if greedy then quantify_plus f else quantify_plus_lazy f) = append_fragment f (star_code greedy f).
Proof.
  rewrite <- quantify_star_code. unfold quantify_plus, quantify_plus_lazy.
  by destruct greedy; rewrite append_fragment_nil.
Qed.

Lemma quantify_optional_code (greedy : bool) f :
  (if greedy then quantify_optional f else quantify_optional_lazy f) = optional_code greedy f.
Proof.
  unfold optional_code, choice. unfold quantify_optional, quantify_optional_lazy, single_op_fragment.
  rewrite append_fragment_nil, length_append_fragment. simpl length.
  unfold append_fragment, patch. by destruct greedy.
Qed.

Lemma quantify_range_code (greedy : bool) f m n (unbounded : bool) :
  (if greedy then quantify_range f m n unbounded else quantify_range_lazy f m n unbounded) =
  if unbounded then append_fragment (append_times m f []) (star_code greedy f)
  else append_times (n - m) (optional_code greedy f) (append_times m f []).
Proof.
  rewrite <- quantify_star_code, <- quantify_optional_code.
  unfold quantify_range, quantify_range_lazy. by destruct greedy, unbounded.
Qed.

Lemma alt2_code a b :
  alt2 a b = SPLIT 1 (2 + length a) :: map (clone_op_at_offset 1) a ++
    JUMP (2 + length a + length b) :: map (clone_op_at_offset (2 + length a)) b.
Proof.
  set (l := SPLIT 1 (2 + length a) :: map (clone_op_at_offset 1) a).
  assert (Hl : length l = S (length a)) by (simpl; by rewrite length_map).
  assert (Hb : length (append_fragment (append_fragment [SPLIT 0 0] a) [JUMP 0]) = 2 + length a).
  { rewrite !length_append_fragment. simpl. lia. }
  assert (Hout : exists j, patch 0 (SPLIT 1 (2 + length a))
    (append_fragment (append_fragment (append_fragment [SPLIT 0 0] a) [JUMP 0]) b) =
    l ++ j :: map (clone_op_at_offset (2 + length a)) b).
  { eexists. unfold append_fragment at 1. rewrite Hb.
    unfold l, append_fragment. simpl. by rewrite <- app_assoc. }
  destruct Hout as [j Hout]. unfold alt2, single_op_fragment. rewrite append_fragment_nil.
  rewrite Hb, Hout. replace (length (append_fragment [SPLIT 0 0] a)) with (length l)
    by (rewrite Hl, length_append_fragment; done).
  rewrite patch_middle. unfold l. simpl. do 4 f_equal.
  rewrite length_app. simpl. rewrite !length_map. lia.
Qed.

Section compile.
Variables (classes : list CharClass) (data : list Z) (text_len : nat) (byte_mode : bool) (flags : Z).

Notation explore := (explore classes data text_len byte_mode flags).
Notation local := (local classes data text_len byte_mode flags).
Notation follows := (follows classes data text_len byte_mode flags).
Notation safe := (safe classes data text_len byte_mode flags).
Notation test := (test_op classes data text_len byte_mode flags).
Notation test_rel := (test_rel classes data text_len byte_mode flags).
Notation sem := (sem classes data text_len byte_mode flags).

(** ** Alternation *)

Lemma alt2_code_at C k a b :
  code_at C k (alt2 a b) ->
  C !! k = Some (SPLIT (k + 1) (k + (2 + length a))) /\ code_at C (k + 1) a /\
  C !! (k + 1 + length a) = Some (JUMP (k + length (alt2 a b))) /\ code_at C (k + (2 + length a)) b /\
  k + (2 + length a) + length b = k + length (alt2 a b).
Proof.
  rewrite alt2_code. intros H. split_and!.
  - specialize (H 0 _ eq_refl). rewrite Nat.add_0_r in H. rewrite H. simpl. do 2 f_equal; lia.
  - intros i op Hi. specialize (H (S i) (clone_op_at_offset 1 op)).
    rewrite clone_clone in H. rewrite <- H; [f_equal; lia|].
    simpl. apply lookup_app_l_Some. by rewrite list_lookup_fmap, Hi.
  - specialize (H (S (length a)) (JUMP (2 + length a + length b))). simpl in H.
    rewrite lookup_app_r, length_map, Nat.sub_diag in H by (by rewrite length_map).
    replace (k + 1 + length a) with (k + S (length a)) by lia.
    rewrite (H eq_refl). simpl. do 2 f_equal. rewrite length_app. simpl. rewrite !length_map. lia.
  - intros i op Hi. specialize (H (S (length a) + S i) (clone_op_at_offset (2 + length a) op)).
    rewrite clone_clone in H. rewrite <- H; [f_equal; lia|]. simpl.
    rewrite lookup_app_r, length_map by (rewrite length_map; lia).
    replace (length a + S i - length a) with (S i) by lia. simpl. by rewrite list_lookup_fmap, Hi.
  - simpl. rewrite length_app. simpl. rewrite !length_map. lia.
Qed.

Lemma follows_alt a b R1 R2 : follows a R1 -> follows b R2 -> follows (alt2 a b) (alt_rel R1 R2).
Proof.
  intros Ha Hb. split.
  - intros C k n x fr (Hs & Hca & Hj & Hcb & Hlen)%alt2_code_at He. rewrite <- Hlen in *.
    destruct (explore_split_inv _ _ _ _ _ _ _ _ _ _ _ _ He Hs) as (m & -> & [[He1 _]|[He1 He2]]).
    + destruct (fo_found _ _ _ _ _ _ _ Ha _ _ _ _ _ Hca He1) as (c & y & m1 & Hm1 & HR & He2 & Hlst).
      destruct (jump_explore _ _ _ _ _ _ _ _ _ _ _ Hj He2) as (m2 & -> & He3).
      exists (false :: c), y, m2. split_and!; [lia|by exists c; left|done|].
      intros c' y' (c1 & [[-> HR']|[-> HR']]); [|right; left; constructor].
      destruct (Hlst _ _ HR') as [[-> ->]|[Hbf|[Hbf [m' Hm']]]];
        [by left|right; left; by constructor|right; right; split; [by constructor|]].
      destruct (jump_explore _ _ _ _ _ _ _ _ _ _ _ Hj Hm') as (m'' & -> & Hm''). eauto.
    + destruct (fo_found _ _ _ _ _ _ _ Hb _ _ _ _ _ Hcb He2) as (c & y & m1 & Hm1 & HR & He3 & Hlst).
      exists (true :: c), y, m1. split_and!; [lia|by exists c; right|done|].
      intros c' y' (c1 & [[-> HR']|[-> HR']]).
      * right; right. split; [constructor|].
        destruct (fo_failed _ _ _ _ _ _ _ Ha _ _ _ _ Hca He1 _ _ HR') as [m' Hm'].
        destruct (jump_explore _ _ _ _ _ _ _ _ _ _ _ Hj Hm') as (m'' & -> & Hm''). eauto.
      * destruct (Hlst _ _ HR') as [[-> ->]|[Hbf|[Hbf Hm']]];
          [by left|right; left; by constructor|right; right; split; [by constructor|done]].
  - intros C k n x (Hs & Hca & Hj & Hcb & Hlen)%alt2_code_at He c y (c1 & HR). rewrite <- Hlen in *.
    destruct (explore_split_inv _ _ _ _ _ _ _ _ _ _ _ _ He Hs) as (m & -> & [[He1 Hne]|[He1 He2]]); [done|].
    destruct HR as [[-> HR]|[-> HR]]; [|by eapply (fo_failed _ _ _ _ _ _ _ Hb)].
    destruct (fo_failed _ _ _ _ _ _ _ Ha _ _ _ _ Hca He1 _ _ HR) as [m' Hm'].
    destruct (jump_explore _ _ _ _ _ _ _ _ _ _ _ Hj Hm') as (m'' & -> & Hm''). eauto.
Qed.

Lemma safe_alt G G' a b R1 R2 :
  safe G a R1 G' -> safe G b R2 G' -> safe G (alt2 a b) (alt_rel R1 R2) G'.
Proof.
  intros Ha Hb. split.
  - intros C k n x (Hs & Hca & Hj & Hcb & Hlen)%alt2_code_at Hx He. rewrite <- Hlen in *.
    destruct (explore_split_inv _ _ _ _ _ _ _ _ _ _ _ _ He Hs) as (m & -> & [[He1 _]|[_ He1]]).
    + destruct (sa_crashed _ _ _ _ _ _ _ _ _ Ha _ _ _ _ Hca Hx He1) as (c & y & m1 & Hm1 & HR & He2).
      destruct (jump_explore _ _ _ _ _ _ _ _ _ _ _ Hj He2) as (m2 & -> & He3).
      exists (false :: c), y, m2. split_and!; [lia|by exists c; left|done].
    + destruct (sa_crashed _ _ _ _ _ _ _ _ _ Hb _ _ _ _ Hcb Hx He1) as (c & y & m1 & Hm1 & HR & He2).
      exists (true :: c), y, m1. split_and!; [lia|by exists c; right|done].
  - intros x c y Hx (c1 & [[-> HR]|[-> HR]]).
    + by eapply (sa_post _ _ _ _ _ _ _ _ _ Ha).
    + by eapply (sa_post _ _ _ _ _ _ _ _ _ Hb).
Qed.

(** ** Quantifiers *)

Lemma follows_times n f out R P :
  follows f R -> follows out P -> follows (append_times n f out) (then_times n R P).
Proof. intros Hf Ho. induction n as [|n IH]; [done|]. by apply follows_append. Qed.

Lemma safe_times n G f out R P :
  safe G f R G -> safe G out P G -> safe G (append_times n f out) (then_times n R P) G.
Proof. intros Hf Ho. induction n as [|n IH]; [done|]. by eapply safe_seq. Qed.

Lemma comp_quant_code q greedy f :
  comp_quant q greedy f =
  match q with
  | QStar => star_code greedy f
  | QPlus => append_fragment f (star_code greedy f)
  | QOptional => optional_code greedy f
  | QRange m n => append_times (n - m) (optional_code greedy f) (append_times m f [])
  | QAtLeast m => append_fragment (append_times m f []) (star_code greedy f)
  end.
Proof.
  destruct q; simpl.
  - apply quantify_star_code.
  - apply quantify_plus_code.
  - apply quantify_optional_code.
  - apply (quantify_range_code greedy f m n false).
  - apply (quantify_range_code greedy f m 0 true).
Qed.

Lemma follows_quant q greedy f R : follows f R -> follows (comp_quant q greedy f) (quant_rel q greedy R).
Proof.
  intros Hf. rewrite comp_quant_code.
  destruct q; cbn [quant_rel].
  - by apply follows_star.
  - by apply follows_append, follows_star.
  - by apply follows_optional.
  - apply follows_times; [by apply follows_optional|]. apply follows_times; [done|apply follows_empty].
  - apply follows_append; [|by apply follows_star]. apply follows_times; [done|apply follows_empty].
Qed.

Lemma safe_quant q greedy G f R :
  safe G f R G -> safe G (comp_quant q greedy f) (quant_rel q greedy R) G.
Proof.
  intros Hf. rewrite comp_quant_code.
  destruct q; cbn [quant_rel].
  - by apply safe_star.
  - eapply safe_seq; [done|by apply safe_star].
  - by apply safe_optional.
  - apply safe_times; [by apply safe_optional|]. apply safe_times; [done|apply safe_empty].
  - eapply safe_seq; [|by apply safe_star]. apply safe_times; [done|apply safe_empty].
Qed.

(** ** Single operations *)

Lemma follows_local op R :
  is_local op = true ->
  (forall x y, local op x (Some (Some y)) -> R x [] y /\ forall c' y', R x c' y' -> c' = [] /\ y' = y) ->
  (forall x, local op x (Some None) -> forall c y, ~ R x c y) ->
  follows (single_op_fragment op) R.
Proof.
  intros Hl Hn Hf. assert (Hop : forall C k, code_at C k [op] -> C !! k = Some op).
  { intros C k H. specialize (H 0 op eq_refl). rewrite Nat.add_0_r in H. rewrite H. by destruct op. }
  split; unfold single_op_fragment; simpl length.
  - intros C k n x fr Hc He. apply Hop in Hc.
    destruct (explore_local_inv _ _ _ _ _ _ _ _ _ _ _ He Hc Hl) as [(y & m & Hy & -> & Hm)|[[? _]|[? _]]]; [|done|done].
    destruct (Hn _ _ Hy) as [HR Hu]. exists [], y, m. split_and!; [lia|done|done|].
    intros c' y' HR'. left. by apply Hu.
  - intros C k n x Hc He c y HR. apply Hop in Hc.
    destruct (explore_local_inv _ _ _ _ _ _ _ _ _ _ _ He Hc Hl) as [(z & m & Hz & -> & Hm)|[[_ H]|[? _]]]; [| |done].
    + destruct (Hn _ _ Hz) as [_ Hu]. destruct (Hu _ _ HR) as [-> ->]. eauto.
    + by destruct (Hf _ H _ _ HR).
Qed.

Lemma safe_local (G G' : State -> Prop) op R :
  is_local op = true ->
  (forall x, G x -> ~ local op x None) ->
  (forall x y, local op x (Some (Some y)) -> R x [] y) ->
  (forall x c y, G x -> R x c y -> G' y) ->
  safe G (single_op_fragment op) R G'.
Proof.
  intros Hl Hc Hn Hk. split; [|done]. unfold single_op_fragment; simpl length.
  intros C k n x Hat Hx He. assert (Hop : C !! k = Some op).
  { specialize (Hat 0 op eq_refl). rewrite Nat.add_0_r in Hat. rewrite Hat. by destruct op. }
  destruct (explore_local_inv _ _ _ _ _ _ _ _ _ _ _ He Hop Hl) as [(y & m & Hy & -> & Hm)|[[? _]|[_ H]]]; [|done|].
  - exists [], y, m. split_and!; [lia|by apply Hn|done].
  - by destruct (Hc _ Hx).
Qed.

Lemma test_is_local op : is_test op = true -> is_local op = true.
Proof. by destruct op. Qed.

Lemma local_test_inv op x o :
  is_test op = true -> local op x o ->
  (exists r, test op x.1 x.2 = Ok r /\ o = Some (option_map (fun sp => (sp, x.2)) r)) \/
  (exists e, test op x.1 x.2 = Err e /\ o = None).
Proof. intros Ht Hl. destruct Hl; simpl in Ht; try done; eauto. Qed.

Lemma test_local op x y : is_test op = true -> local op x (Some (Some y)) -> test_rel op x [] y.
Proof.
  intros Ht Hl. destruct (local_test_inv _ _ _ Ht Hl) as [([sp|] & Hr & E)|(e & _ & E)]; simplify_eq/=.
  split; [done|]. eauto.
Qed.

Lemma follows_test op : is_test op = true -> follows (single_op_fragment op) (test_rel op).
Proof.
  intros Ht. apply follows_local; [by apply test_is_local| |].
  - intros x y Hl. split; [by apply test_local|]. intros c' y' [-> (sp' & Hr' & ->)].
    destruct (test_local _ _ _ Ht Hl) as [_ (sp & Hr & ->)].
    rewrite Hr in Hr'. by injection Hr' as ->.
  - intros x Hl c y [_ (sp & Hr & _)].
    destruct (local_test_inv _ _ _ Ht Hl) as [([sp'|] & Hr' & E)|(e & _ & E)]; simplify_eq/=; congruence.
Qed.

Lemma local_save_inv slot x o : local (SAVE slot) x o ->
  (exists s, save_slot slot x.1 x.2 = Ok s /\ o = Some (Some (x.1, s))) \/
  (exists e, save_slot slot x.1 x.2 = Err e /\ o = None).
Proof. intros Hl. inversion Hl; simplify_eq; eauto. Qed.

Lemma follows_save slot : follows (single_op_fragment (SAVE slot)) (save_rel slot).
Proof.
  apply follows_local; [done| |].
  - intros x y Hl. destruct (local_save_inv _ _ _ Hl) as [(s & Hs & E)|(e & _ & E)]; simplify_eq.
    split; [split; [done|eauto]|]. intros c' y' [-> (s' & Hs' & ->)].
    rewrite Hs in Hs'. by injection Hs' as ->.
  - intros x Hl. destruct (local_save_inv _ _ _ Hl) as [(s & Hs & E)|(e & _ & E)]; simplify_eq.
Qed.

(** ** Assertions *)

Lemma sub_program_code f :
  code_at (sub_program f) 0 f /\ sub_program f !! length f = Some MATCH.
Proof.
  unfold sub_program. rewrite append_fragment_nil.
  destruct (proj1 (code_at_append _ 0 f [MATCH]) (code_at_whole _)) as [H1 H2].
  split; [done|]. specialize (H2 0 MATCH eq_refl). by rewrite Nat.add_0_r in H2.
Qed.

Lemma sub_found f R n x fr :
  follows f R -> explore n (sub_program f) 0 x (Found fr) ->
  exists c y, least R x c y /\ frame_sp fr = y.1 /\ frame_slots fr = y.2.
Proof.
  intros Hf He. destruct (sub_program_code f) as [Hc Hm].
  destruct (fo_found _ _ _ _ _ _ _ Hf _ _ _ _ _ Hc He) as (c & y & m & _ & HR & He' & Hl).
  simpl in He'. pose proof (explore_match_inv _ _ _ _ _ _ _ _ _ _ He' Hm) as [= ->].
  exists c, y. split_and!; [|done|done]. split; [done|]. intros c' y' HR'.
  destruct (Hl _ _ HR') as [?|[?|[_ [m' Hm']]]]; [by left|by right|].
  by pose proof (explore_match_inv _ _ _ _ _ _ _ _ _ _ Hm' Hm).
Qed.

Lemma sub_failed f R n x :
  follows f R -> explore n (sub_program f) 0 x Failed -> forall c y, ~ R x c y.
Proof.
  intros Hf He c y HR. destruct (sub_program_code f) as [Hc Hm].
  destruct (fo_failed _ _ _ _ _ _ _ Hf _ _ _ _ Hc He _ _ HR) as [m Hm'].
  by pose proof (explore_match_inv _ _ _ _ _ _ _ _ _ _ Hm' Hm).
Qed.

Lemma sub_crashed G G' f R n x :
  safe G f R G' -> G x -> ~ explore n (sub_program f) 0 x Crashed.
Proof.
  intros Hf Hx He. destruct (sub_program_code f) as [Hc Hm].
  destruct (sa_crashed _ _ _ _ _ _ _ _ _ Hf _ _ _ _ Hc Hx He) as (c & y & m & _ & _ & Hm').
  by pose proof (explore_match_inv _ _ _ _ _ _ _ _ _ _ Hm' Hm).
Qed.

(** What an assertion does once its sub-program has the outcome [ans]. *)
Definition look_outcome (negate : bool) (x : State) (ans : answer) : option (option State) :=
  match ans with
  | Found f => Some (option_map (pair x.1) (assertion negate x.2 (Some f)))
  | Failed => Some (option_map (pair x.1) (assertion negate x.2 None))
  | Crashed => None
  end.

Lemma local_ahead_inv neg sub x o :
  local (LOOKAHEAD neg sub) x o ->
  exists n ans, explore n sub 0 (x.1, x.2) ans /\ o = look_outcome neg x ans.
Proof.
  rewrite <- surjective_pairing. intros Hl.
  inversion Hl; simplify_eq; [..|by exists n, Crashed]; [by exists n, (Found f)|by exists n, Failed].
Qed.

Lemma local_behind_inv neg w sub x o :
  local (LOOKBEHIND neg w sub) x o ->
  (x.1 < w /\ o = Some (if neg : bool then Some x else None)) \/
  (w <= x.1 /\ exists n ans, explore n sub 0 (x.1 - w, x.2) ans /\ o = look_outcome neg x ans).
Proof.
  intros Hl. inversion Hl; simplify_eq; [by left|right; split; [done|]..].
  - by exists n, (Found f).
  - by exists n, Failed.
  - by exists n, Crashed.
Qed.

Section look.
Variables (neg : bool) (f : list Op) (R : rel) (Hf : follows f R).
Variables (x : State) (start n : nat) (ans : answer).
Hypothesis He : explore n (sub_program f) 0 (start, x.2) ans.

Lemma look_next y :
  look_outcome neg x ans = Some (Some y) ->
  look_rel neg R start x [] y /\ forall c' y', look_rel neg R start x c' y' -> c' = [] /\ y' = y.
Proof.
  destruct ans as [fr| |]; simpl; [| |done].
  - destruct neg; [done|]. intros [= <-].
    destruct (sub_found _ _ _ _ _ Hf He) as (c & z & Hl & _ & ->). split.
    + split; [done|]. eauto.
    + intros c' y' [-> (c1 & z' & Hl' & ->)]. by destruct (least_unique _ _ _ _ _ _ Hl Hl') as [_ ->].
  - destruct neg; [|done]. intros [= <-]. rewrite <- surjective_pairing. split.
    + split; [done|]. split; [|done]. by eapply sub_failed.
    + by intros c' y' [-> [_ ->]].
Qed.

Lemma look_none : look_outcome neg x ans = Some None -> forall c y, ~ look_rel neg R start x c y.
Proof.
  destruct ans as [fr| |]; simpl; [| |done].
  - destruct neg; [|done]. intros _ c y [_ [Hno _]].
    destruct (sub_found _ _ _ _ _ Hf He) as (c1 & z & [HR _] & _). by eapply Hno.
  - destruct neg; [done|]. intros _ c y [_ (c1 & z & [HR _] & _)]. by eapply sub_failed.
Qed.
End look.

Lemma follows_lookahead neg f R :
  follows f R ->
  follows (single_op_fragment (LOOKAHEAD neg (sub_program f))) (fun x => look_rel neg R x.1 x).
Proof.
  intros Hf. apply follows_local; [done| |].
  - intros x y (n & ans & He & Ho)%local_ahead_inv. by eapply look_next.
  - intros x (n & ans & He & Ho)%local_ahead_inv. by eapply look_none.
Qed.

Lemma follows_lookbehind neg w f R :
  follows f R ->
  follows (single_op_fragment (LOOKBEHIND neg w (sub_program f))) (behind_rel neg w R).
Proof.
  intros Hf. apply follows_local; [done| |].
  - intros x y [[Hw Ho]|[Hw (n & ans & He & Ho)]]%local_behind_inv; unfold behind_rel.
    + destruct neg; [|done]. injection Ho as ->. rewrite (proj2 (Nat.ltb_lt _ _) Hw). naive_solver.
    + rewrite (proj2 (Nat.ltb_ge _ _) Hw). by eapply look_next.
  - intros x [[Hw Ho]|[Hw (n & ans & He & Ho)]]%local_behind_inv c y; unfold behind_rel.
    + destruct neg; [done|]. rewrite (proj2 (Nat.ltb_lt _ _) Hw). by intros (_ & ? & _).
    + rewrite (proj2 (Nat.ltb_ge _ _) Hw). by eapply look_none.
Qed.

(** ** Trees *)

Lemma comp_follows n_classes n_slots r : forall open, wf n_classes n_slots open r -> follows (comp r) (sem r).
Proof.
  induction r as [|op|r1 IH1 r2 IH2|r1 IH1 r2 IH2|q g r IH|n r IH|neg r IH|neg w r IH];
    intros open Hwf; simpl in Hwf |- *.
  - apply follows_empty.
  - destruct Hwf as [Ht _]. by apply follows_test.
  - destruct Hwf. apply follows_append; eauto.
  - destruct Hwf. apply follows_alt; eauto.
  - apply follows_quant; eauto.
  - destruct Hwf as (_ & _ & Hwf). rewrite append_fragment_nil.
    apply follows_append; [apply follows_append|]; eauto using follows_save.
  - apply follows_lookahead; eauto.
  - apply follows_lookbehind; eauto.
Qed.

End compile.
