(* ===== verification/RegexSafe.v ===== *)
(** * Regular expressions: what keeps the matcher from crashing

    [at_boundary]: the positions where a code point starts, or the end.  [good]
    is kept_char by every operation: the slots have their sizes, and a group that has
    been entered, and is not being matched, has its start before its end, both
    boundaries.  [comp_safe]: the program of a well-formed tree, whose back
    references name no group they are inside of, never reads outside of the
    text nor panics.  Looking behind steps over bytes, not code points, and is
    safe where every byte is one. *)

From S2P Require Import Prelude RawList Bits Utf8 StrOps RegexProgram RegexMatcher RegexSpec RegexExplore RegexCompile.

Section safety.
Variables (classes : list CharClass) (data : list Z) (text_len : nat) (byte_mode : bool) (flags : Z)
  (n_slots : nat).

Notation explore := (explore classes data text_len byte_mode flags).
Notation local := (local classes data text_len byte_mode flags).
Notation safe := (safe classes data text_len byte_mode flags).
Notation follows := (follows classes data text_len byte_mode flags).
Notation test := (test_op classes data text_len byte_mode flags).
Notation sem := (sem classes data text_len byte_mode flags).

(** The text searched: the bytes of a [bytes], or a [str] of the code points
    [cps] with its terminator. *)
Inductive subject : Prop :=
| subject_bytes : byte_mode = true -> text_len <= length data -> subject
| subject_str cps :
    byte_mode = false -> text cps -> data = utf8 cps ++ [0%Z] -> text_len = length (utf8 cps) -> subject.

(** Every byte is a code point. *)
Definition single_bytes : Prop := byte_mode = true \/ Forall (fun b => (0 <= b < 128)%Z) (take text_len data).

Definition at_boundary (sp : nat) : Prop :=
  sp <= text_len /\
  (byte_mode = false -> exists p q,
     text (p ++ q) /\ data = utf8 (p ++ q) ++ [0%Z] /\ text_len = length (utf8 (p ++ q)) /\ sp = length (utf8 p)).

Hypothesis Hsubject : subject.

Lemma boundary_le sp : at_boundary sp -> sp <= text_len.
Proof. by intros [? _]. Qed.

Lemma text_len_data : text_len <= length data.
Proof.
  destruct Hsubject as [_ Hl|cps _ _ -> ->]; [done|]. rewrite length_app. lia.
Qed.

Lemma read_below i : i < text_len -> exists b, read_ptr data i = Ok b.
Proof.
  intros Hi. pose proof text_len_data. destruct (read_ptr_ok data i) as (b & Hb & _); [lia|eauto].
Qed.

(** *** Decoding *)

Lemma codepoint_ok sp :
  at_boundary sp -> sp < text_len ->
  exists cp w, codepoint_at data byte_mode sp = Ok cp /\ codepoint_width_at data byte_mode sp = Ok w /\
    0 < w /\ at_boundary (sp + w).
Proof.
  intros [Hle Hb] Hlt. unfold codepoint_at, codepoint_width_at. destruct byte_mode eqn:Hm.
  - destruct (read_below sp Hlt) as [b Hb']. exists b, 1. split_and!; [done|done|lia|].
    split; [lia|intros; congruence].
  - destruct (Hb eq_refl) as (p & q & Ht & Hd & Hl & ->).
    destruct q as [|cp q]; [rewrite app_nil_r in Hl; lia|].
    assert (Hcp : scalar_value cp = true) by (apply Forall_app in Ht as [_ Ht]; by apply Forall_cons in Ht as [? _]).
    pose proof (char_sequence _ Hcp) as Hs.
    rewrite (decode_utf8_at_spec data _ cp (utf8_char cp) (utf8 q ++ [0%Z])); [|done|].
    2:{ rewrite Hd, utf8_app, utf8_cons, <- !app_assoc. by rewrite drop_app_length. }
    exists cp, (length (utf8_char cp)). simpl. split_and!; [done|done|apply (sequence_length _ _ Hs)|].
    split.
    + rewrite Hl, utf8_app, utf8_cons, !length_app. lia.
    + intros _. exists (p ++ [cp]), q. rewrite <- !app_assoc. simpl. split_and!; [done|done|done|].
      by rewrite utf8_app, length_app, utf8_singleton.
Qed.

Lemma advance_ok sp ok :
  at_boundary sp -> sp < text_len ->
  exists r, advance data byte_mode sp ok = Ok r /\ forall sp', r = Some sp' -> at_boundary sp' /\ sp <= sp'.
Proof.
  intros Hb Hlt. destruct (codepoint_ok _ Hb Hlt) as (cp & w & _ & Hw & _ & Hb'). unfold advance.
  destruct ok; [|by exists None]. rewrite Hw. simpl. eexists. split; [done|].
  intros sp' [= <-]. split; [done|lia].
Qed.

Lemma zero_width_ok sp b sp' : at_boundary sp -> zero_width sp b = Some sp' -> at_boundary sp' /\ sp <= sp'.
Proof. unfold zero_width. destruct b; [|done]. by intros Hb [= <-]. Qed.

Lemma read_before sp msg :
  at_boundary sp -> (0 <? sp) = true ->
  exists b, (forall B (k : Z -> result abort B),
    result_bind (panic_sub msg sp 1) (fun p => result_bind (read_ptr data p) k) = k b).
Proof.
  intros Hb Hs%Nat.ltb_lt. pose proof (boundary_le _ Hb).
  destruct (read_below (sp - 1)) as [b Hr]; [lia|]. exists b. intros B k.
  rewrite panic_sub_ok by lia. simpl. by rewrite Hr.
Qed.

Lemma is_word_boundary_ok sp : at_boundary sp -> exists w, is_word_boundary data text_len byte_mode sp = Ok w.
Proof.
  intros Hb. unfold is_word_boundary.
  assert (Ha : exists a, (if sp <? text_len
    then result_bind (codepoint_at data byte_mode sp) (fun cp => Ok (is_word_byte_cp cp)) else Ok false) = @Ok abort bool a).
  { destruct (Nat.ltb_spec sp text_len) as [Hlt|]; [|by exists false].
    destruct (codepoint_ok _ Hb Hlt) as (cp & w & Hcp & _). rewrite Hcp. by eexists. }
  destruct Ha as [a Ha]. destruct (0 <? sp) eqn:Hs.
  - destruct (read_before sp "re: _is_word_boundary: sp > 0 checked above" Hb Hs) as [b Hr].
    rewrite Hr. cbn [result_bind]. rewrite Ha. by eexists.
  - cbn [result_bind]. rewrite Ha. by eexists.
Qed.

(** *** Back references *)

Lemma same_bytes_ok n : forall a b, a + n <= text_len -> b + n <= text_len ->
  exists r, bytes_agree data n a b = Ok r /\ (r = true -> take n (drop a data) = take n (drop b data)).
Proof.
  induction n as [|n IH]; intros a b Ha Hb; simpl; [by exists true|].
  pose proof text_len_data.
  destruct (read_ptr_ok data a) as (x & Hx & Hax); [lia|].
  destruct (read_ptr_ok data b) as (y & Hy & Hby); [lia|].
  rewrite Hx, Hy. simpl. destruct (Z.eqb_spec x y) as [->|]; simpl; [|by exists false].
  destruct (IH (a + 1) (b + 1)) as (r & Hr & Heq); [lia|lia|]. exists r. split; [done|]. intros Ht.
  rewrite (drop_S _ _ _ Hax), (drop_S _ _ _ Hby). simpl. f_equal.
  replace (S a) with (a + 1) by lia. replace (S b) with (b + 1) by lia. by apply Heq.
Qed.

(** What lies between two boundaries is text. *)
Lemma text_between lo hi :
  byte_mode = false -> at_boundary lo -> at_boundary hi -> lo <= hi ->
  exists p m q, text (p ++ m ++ q) /\ data = utf8 (p ++ m ++ q) ++ [0%Z] /\
    text_len = length (utf8 (p ++ m ++ q)) /\ lo = length (utf8 p) /\ hi = length (utf8 p) + length (utf8 m).
Proof.
  intros Hm [_ Hlo] [_ Hhi] Hle.
  destruct (Hlo Hm) as (p1 & q1 & Ht1 & Hd1 & Hl1 & ->).
  destruct (Hhi Hm) as (p2 & q2 & Ht2 & Hd2 & Hl2 & ->).
  assert (E12 : p1 ++ q1 = p2 ++ q2).
  { apply utf8_inj; [done|done|]. rewrite Hd1 in Hd2. by apply app_inv_tail in Hd2. }
  assert (exists m, p2 = p1 ++ m /\ q1 = m ++ q2) as (m & -> & ->).
  { apply app_eq_inv in E12 as [(k & E & E')|(k & E & E')]; [|by exists k].
    subst. rewrite utf8_app, length_app in Hle.
    destruct k as [|cp k].
    - exists []. by rewrite !app_nil_r.
    - exfalso. rewrite <- app_assoc in Ht1. apply Forall_app in Ht1 as [_ Ht1]. simpl in Ht1.
      apply Forall_cons in Ht1 as [Hcp _].
      rewrite utf8_cons, length_app in Hle. pose proof (sequence_length _ _ (char_sequence _ Hcp)). lia. }
  exists p1, m, q2. split_and!; try done. by rewrite utf8_app, length_app.
Qed.

Lemma between_bytes p m q : data = utf8 (p ++ m ++ q) ++ [0%Z] ->
  take (length (utf8 m)) (drop (length (utf8 p)) data) = utf8 m.
Proof. intros Hd. rewrite Hd, !utf8_app, <- !app_assoc, drop_app_length. by rewrite take_app_length. Qed.

(** The next boundary is one code point further. *)
Lemma boundary_next sp w b :
  at_boundary sp -> sp < text_len -> codepoint_width_at data byte_mode sp = Ok w ->
  at_boundary b -> sp < b -> sp + w <= b.
Proof.
  intros Hsp Hlt Hw Hb Hsb. pose proof (text_between sp b) as Hbetween. unfold codepoint_width_at in Hw.
  destruct byte_mode; [injection Hw as <-; lia|].
  destruct Hbetween as (p & m & q & Ht & Hd & _ & -> & ->); [done|done|done|lia|].
  destruct m as [|cp m]; [simpl in Hsb; lia|].
  assert (Hcp : scalar_value cp = true).
  { apply Forall_app in Ht as [_ Ht]. simpl in Ht. by apply Forall_cons in Ht as [? _]. }
  rewrite (decode_utf8_at_spec data _ cp (utf8_char cp) (utf8 (m ++ q) ++ [0%Z])) in Hw.
  - injection Hw as <-. rewrite utf8_cons, length_app. lia.
  - by apply char_sequence.
  - rewrite Hd, utf8_app, <- app_assoc, drop_app_length. simpl. by rewrite utf8_cons, <- app_assoc.
Qed.

Lemma same_bytes_boundary lo hi sp :
  at_boundary lo -> at_boundary hi -> lo <= hi -> at_boundary sp -> sp + (hi - lo) <= text_len ->
  take (hi - lo) (drop lo data) = take (hi - lo) (drop sp data) -> at_boundary (sp + (hi - lo)).
Proof.
  intros Hlo Hhi Hle [_ Hsp] Hlen Heq. split; [done|]. intros Hm.
  destruct (text_between _ _ Hm Hlo Hhi Hle) as (p1 & m & q1 & Ht1 & Hd1 & Hl1 & -> & ->).
  destruct (Hsp Hm) as (p3 & q3 & Ht3 & Hd3 & Hl3 & ->).
  replace (length (utf8 p1) + length (utf8 m) - length (utf8 p1)) with (length (utf8 m)) in * by lia.
  rewrite (between_bytes _ _ _ Hd1) in Heq. rewrite Hd3, (utf8_app p3), <- app_assoc, drop_app_length in Heq.
  rewrite take_app_le in Heq by (rewrite Hl3, utf8_app, length_app in Hlen; lia).
  assert (Hq3 : utf8 q3 = utf8 m ++ drop (length (utf8 m)) (utf8 q3)).
  { rewrite Heq at 1. by rewrite take_drop. }
  apply Forall_app in Ht3 as Ht3'. destruct Ht3' as [Htp3 Htq3].
  assert (Htm : text m).
  { apply Forall_app in Ht1 as [_ Ht1]. by apply Forall_app in Ht1 as [? _]. }
  destruct (utf8_prefix q3 m _ Htq3 Htm Hq3) as (r & -> & _).
  exists (p3 ++ m), r. rewrite <- !app_assoc. split_and!; [done|done|done|].
  by rewrite utf8_app, length_app.
Qed.

(** ** The invariant *)

(** [open] are the groups that are being matched. *)
Record good (open : list nat) (x : State) : Prop := {
  good_pos : at_boundary x.1;
  good_values : length (slot_values x.2) = n_slots;
  good_set : length (slot_set x.2) = n_slots;
  good_slots g : slot_set x.2 !! (2 * g) = Some true ->
    exists lo, slot_values x.2 !! (2 * g) = Some lo /\ at_boundary lo /\
      (g ∉ open -> exists hi, slot_values x.2 !! (2 * g + 1) = Some hi /\ at_boundary hi /\ lo <= hi)
}.

Lemma get_slot_ok {A} msg i (l : list A) :
  i < length l -> exists v, get_slot msg i l = Ok v /\ l !! i = Some v.
Proof.
  intros Hi. destruct (lookup_lt_is_Some_2 l i Hi) as [v Hv]. exists v. split; [|done].
  by apply getitem_ok.
Qed.

Lemma backref_ok open g x :
  good open x -> g ∉ open -> 2 * g + 1 < n_slots ->
  exists r, test (BACKREF g) x.1 x.2 = Ok r /\ forall sp', r = Some sp' -> at_boundary sp' /\ x.1 <= sp'.
Proof.
  intros Hx Hg Hn. unfold test_op. rewrite !(Nat.mul_comm g 2).
  destruct (get_slot_ok "re: run_at backref slot_set" (2 * g) (slot_set x.2)) as (set & Hs & Hset);
    [rewrite (good_set _ _ Hx); lia|].
  rewrite Hs. cbn [result_bind]. destruct set; cbn [negb]; [|by exists None].
  destruct (good_slots _ _ Hx _ Hset) as (lo & Hlo & Hblo & Hhi).
  destruct (Hhi Hg) as (hi & Hh & Hbhi & Hle).
  unfold get_slot. rewrite (getitem_ok _ _ _ _ Hlo), (getitem_ok _ _ _ _ Hh). cbn [result_bind].
  rewrite panic_sub_ok by done. cbn [result_bind]. unfold backref_matches_at.
  destruct (Nat.ltb_spec text_len (x.1 + (hi - lo))) as [|Hfit]; [by exists None|].
  pose proof (boundary_le _ Hbhi).
  destruct (same_bytes_ok (hi - lo) lo x.1) as (r & Hr & Heq); [lia|lia|]. rewrite Hr. cbn [result_bind].
  eexists. split; [done|]. intros sp'. destruct r; [|done]. intros [= <-]. split; [|lia].
  apply same_bytes_boundary; auto. apply (good_pos _ _ Hx).
Qed.

Lemma test_ok open op x :
  good open x -> is_test op = true ->
  (forall i, op = IN i -> i < length classes) ->
  (forall g, op = BACKREF g -> g ∉ open /\ 2 * g + 1 < n_slots) ->
  exists r, test op x.1 x.2 = Ok r /\ forall sp', r = Some sp' -> at_boundary sp' /\ x.1 <= sp'.
Proof.
  intros Hx Ht Hin Hbr. pose proof (good_pos _ _ Hx) as Hb.
  destruct op; try discriminate; unfold test_op.
  - destruct (Nat.ltb_spec x.1 text_len) as [Hlt|]; [|by exists None].
    destruct (codepoint_ok _ Hb Hlt) as (cp & w & -> & _). cbn [result_bind]. by apply advance_ok.
  - destruct (Nat.ltb_spec x.1 text_len) as [Hlt|]; [|by exists None].
    destruct (has_flag _ _); [by apply advance_ok|].
    destruct (codepoint_ok _ Hb Hlt) as (cp & w & -> & _). cbn [result_bind]. by apply advance_ok.
  - destruct (Nat.ltb_spec x.1 text_len) as [Hlt|]; [|by exists None].
    destruct (lookup_lt_is_Some_2 classes class_idx (Hin _ eq_refl)) as [cc Hcc].
    rewrite (getitem_ok _ _ _ _ Hcc). cbn [result_bind].
    destruct (codepoint_ok _ Hb Hlt) as (cp & w & -> & _). cbn [result_bind]. by apply advance_ok.
  - destruct (Nat.eqb_spec x.1 0) as [Hz|Hz]; [exists (Some x.1); split; [done|]; by intros ? [= <-]|].
    destruct (has_flag _ _); cbn [andb]; [|by exists None].
    destruct (0 <? x.1) eqn:Hs; [|by exists None].
    destruct (read_before x.1 "re: run_at BOL: sp > 0 checked above" Hb Hs) as [b Hr]. rewrite Hr.
    eexists. split; [done|]. intros sp'. by apply zero_width_ok.
  - destruct (Nat.eqb_spec x.1 text_len) as [Hz|Hz]; [exists (Some x.1); split; [done|]; by intros ? [= <-]|].
    destruct (has_flag _ _); cbn [andb]; [|by exists None].
    destruct (Nat.ltb_spec x.1 text_len) as [Hlt|]; [|by exists None].
    destruct (read_below _ Hlt) as [b ->]. cbn [result_bind].
    eexists. split; [done|]. intros sp'. by apply zero_width_ok.
  - destruct (is_word_boundary_ok _ Hb) as [w ->]. cbn [result_bind].
    eexists. split; [done|]. intros sp'. by apply zero_width_ok.
  - destruct (is_word_boundary_ok _ Hb) as [w ->]. cbn [result_bind].
    eexists. split; [done|]. intros sp'. by apply zero_width_ok.
  - destruct (Hbr _ eq_refl) as [Hg Hn]. by apply (backref_ok open).
Qed.

(** [x] was reached from [x0] inside of the groups [open]. *)
Definition reached (open : list nat) (x0 x : State) : Prop :=
  good open x /\ x0.1 <= x.1 /\
  forall g, g ∈ open -> slot_set x.2 !! (2 * g) = slot_set x0.2 !! (2 * g) /\
    slot_values x.2 !! (2 * g) = slot_values x0.2 !! (2 * g).

(** From any state, [f] goes only where it may be reached from. *)
Definition keeps (open : list nat) (f : list Op) (R : rel) : Prop :=
  forall x0, safe (reached open x0) f R (reached open x0).

Lemma reached_refl open x : good open x -> reached open x x.
Proof. done. Qed.

Lemma reached_trans open x y z : reached open x y -> reached open y z -> reached open x z.
Proof.
  intros (_ & Hxy & Hs1) (Hz & Hyz & Hs2). split_and!; [done|lia|]. intros g Hg.
  destruct (Hs1 g Hg), (Hs2 g Hg). split; congruence.
Qed.

(** [keeps] for states related to where they come from in another way. *)
Lemma keeps_safe open f R (P : State -> Prop) :
  keeps open f R -> (forall x, P x -> good open x) -> (forall x y, P x -> reached open x y -> P y) ->
  safe P f R P.
Proof.
  intros Hf Hg Hp. split.
  - intros C k n x Hc Hx. eapply (sa_crashed _ _ _ _ _ _ _ _ _ (Hf x)); [done|].
    by apply reached_refl, Hg.
  - intros x c y Hx HR. eapply Hp; [done|].
    eapply (sa_post _ _ _ _ _ _ _ _ _ (Hf x)), HR. by apply reached_refl, Hg.
Qed.

Lemma keeps_test open op :
  is_test op = true ->
  (forall i, op = IN i -> i < length classes) ->
  (forall g, op = BACKREF g -> g ∉ open /\ 2 * g + 1 < n_slots) ->
  keeps open (single_op_fragment op) (test_rel classes data text_len byte_mode flags op).
Proof.
  intros Ht Hin Hbr x0. apply safe_local.
  - by apply test_is_local.
  - intros x (Hx & _) Hl. destruct (test_ok _ _ _ Hx Ht Hin Hbr) as (r & Hr & _).
    destruct (local_test_inv _ _ _ _ _ _ _ _ Ht Hl) as [(r' & _ & ?)|(e & He & _)]; [done|]. by rewrite Hr in He.
  - intros x y. by apply test_local.
  - intros x c y (Hx & Hle & Hs) [_ (sp & Hr & ->)].
    destruct (test_ok _ _ _ Hx Ht Hin Hbr) as (r & Hr' & Hk). rewrite Hr in Hr'. injection Hr' as <-.
    destruct (Hk _ eq_refl) as [Hb Hle']. destruct Hx as [_ Hv Hset Hsl].
    split_and!; [by split|simpl; lia|done].
Qed.

(** *** Groups *)

Lemma save_slot_ok slot sp c :
  slot < length (slot_values c) -> slot < length (slot_set c) ->
  exists s, save_slot slot sp c = Ok s /\
    slot_values s = <[slot := sp]> (slot_values c) /\ slot_set s = <[slot := true]> (slot_set c).
Proof.
  intros Hv Hs. unfold save_slot. rewrite setitem_ok by done. cbn [result_bind].
  rewrite setitem_ok by done. cbn [result_bind]. eexists. split; [done|]. by destruct (_ && _).
Qed.

Lemma good_save_start open g x s :
  good open x -> 2 * g + 1 < n_slots -> save_slot (2 * g) x.1 x.2 = Ok s ->
  good (g :: open) (x.1, s) /\ slot_values s !! (2 * g) = Some x.1 /\
  (forall g', g' <> g -> slot_set s !! (2 * g') = slot_set x.2 !! (2 * g') /\
     slot_values s !! (2 * g') = slot_values x.2 !! (2 * g')).
Proof.
  intros [Hb Hv Hset Hsl] Hg Hs.
  destruct (save_slot_ok (2 * g) x.1 x.2) as (s' & Hs' & Hsv & Hss); [lia|lia|].
  rewrite Hs in Hs'. injection Hs' as <-.
  assert (Hlo : slot_values s !! (2 * g) = Some x.1).
  { rewrite Hsv. apply list_lookup_insert_eq. lia. }
  split_and!; [|done|].
  - split; cbn [fst snd]; [done|by rewrite Hsv, length_insert|by rewrite Hss, length_insert|].
    intros g'. destruct (decide (g' = g)) as [->|Hne].
    + intros _. exists x.1. split_and!; [done|done|]. intros Hno. destruct Hno. by left.
    + rewrite Hss, list_lookup_insert_ne by lia. intros Hset'.
      destruct (Hsl _ Hset') as (lo & Hlo' & Hblo & Hhi). exists lo.
      rewrite Hsv, !list_lookup_insert_ne by lia. split_and!; [done|done|].
      intros Hno. apply Hhi. rewrite elem_of_cons in Hno. tauto.
  - intros g' Hne. rewrite Hss, Hsv. by rewrite !list_lookup_insert_ne by lia.
Qed.

Lemma good_save_end open g x s lo :
  good (g :: open) x -> 2 * g + 1 < n_slots ->
  slot_values x.2 !! (2 * g) = Some lo -> lo <= x.1 -> at_boundary lo ->
  save_slot (2 * g + 1) x.1 x.2 = Ok s ->
  good open (x.1, s) /\ slot_set s !! (2 * g) = slot_set x.2 !! (2 * g) /\
  (forall g', slot_set s !! (2 * g') = slot_set x.2 !! (2 * g') /\
     slot_values s !! (2 * g') = slot_values x.2 !! (2 * g')).
Proof.
  intros [Hb Hv Hset Hsl] Hg Hlo Hle Hblo Hs.
  destruct (save_slot_ok (2 * g + 1) x.1 x.2) as (s' & Hs' & Hsv & Hss); [lia|lia|].
  rewrite Hs in Hs'. injection Hs' as <-.
  assert (Heven : forall g', slot_set s !! (2 * g') = slot_set x.2 !! (2 * g') /\
     slot_values s !! (2 * g') = slot_values x.2 !! (2 * g')).
  { intros g'. rewrite Hss, Hsv. by rewrite !list_lookup_insert_ne by lia. }
  split_and!; [|apply Heven|done].
  split; cbn [fst snd]; [done|by rewrite Hsv, length_insert|by rewrite Hss, length_insert|].
  intros g' Hset'. destruct (Heven g') as [E1 E2]. rewrite E1 in Hset'. rewrite E2.
  destruct (decide (g' = g)) as [->|Hne].
  - exists lo. split_and!; [done|done|]. intros _. exists x.1. split_and!; [|done|done].
    rewrite Hsv. apply list_lookup_insert_eq. lia.
  - destruct (Hsl _ Hset') as (lo' & Hlo' & Hblo' & Hhi). exists lo'. split_and!; [done|done|].
    intros Hno. rewrite Hsv, list_lookup_insert_ne by lia. apply Hhi. rewrite elem_of_cons. tauto.
Qed.

Lemma keeps_group open g f R :
  g ∉ open -> 2 * g + 1 < n_slots -> keeps (g :: open) f R ->
  keeps open (append_fragment (append_fragment (single_op_fragment (SAVE (2 * g))) f)
      (single_op_fragment (SAVE (2 * g + 1))))
    (seq_rel (seq_rel (save_rel (2 * g)) R) (save_rel (2 * g + 1))).
Proof.
  intros Hg Hn Hf x0.
  set (P := fun y => good (g :: open) y /\ x0.1 <= y.1 /\
    (forall g', g' ∈ open -> slot_set y.2 !! (2 * g') = slot_set x0.2 !! (2 * g') /\
       slot_values y.2 !! (2 * g') = slot_values x0.2 !! (2 * g')) /\
    exists lo, slot_values y.2 !! (2 * g) = Some lo /\ lo <= y.1 /\ at_boundary lo).
  assert (Hno : forall slot x, slot < n_slots -> length (slot_values x.2) = n_slots ->
    length (slot_set x.2) = n_slots -> ~ local (SAVE slot) x None).
  { intros slot x Hlt Hv Hs Hl. destruct (save_slot_ok slot x.1 x.2) as (s & Hsv & _); [lia|lia|].
    destruct (local_save_inv _ _ _ _ _ _ _ _ Hl) as [(s' & _ & ?)|(e & He & _)]; [done|]. by rewrite Hsv in He. }
  assert (Hsave : forall slot x y, local (SAVE slot) x (Some (Some y)) -> save_rel slot x [] y).
  { intros slot x y Hl. destruct (local_save_inv _ _ _ _ _ _ _ _ Hl) as [(s' & Hs & [= ->])|(e & He & ?)]; [|done].
    split; [done|]. eauto. }
  eapply safe_seq; [eapply safe_seq|].
  - apply (safe_local _ _ _ _ _ (reached open x0) P); [done| |apply Hsave|].
    + intros x (Hx & _). apply Hno; [lia|apply Hx|apply Hx].
    + intros x c y (Hx & Hle & Hs) [_ (s & Hsv & ->)].
      destruct (good_save_start _ _ _ _ Hx Hn Hsv) as (Hy & Hlo & Hrest). split_and!; cbn [fst snd]; [done|done| |].
      * intros g' Hg'. assert (g' <> g) as Hne by (intros ->; done).
        destruct (Hrest _ Hne), (Hs _ Hg'). split; congruence.
      * exists x.1. split_and!; [done|done|]. apply Hx.
  - apply (keeps_safe (g :: open)); [done|by intros x [Hx _]|].
    intros x y (Hx & Hle & Hs & lo & Hlo & Hle' & Hblo) (Hy & Hxy & Hs'). split_and!; [done|lia| |].
    + intros g' Hg'. destruct (Hs _ Hg'), (Hs' g') as [? ?]; [by right|]. split; congruence.
    + exists lo. split_and!; [|lia|done]. destruct (Hs' g) as [_ ->]; [by left|done].
  - apply safe_local; [done| |apply Hsave|].
    + intros x (Hx & _). apply Hno; [lia|apply Hx|apply Hx].
    + intros x c y (Hx & Hle & Hs & lo & Hlo & Hle' & Hblo) [_ (s & Hsv & ->)].
      destruct (good_save_end _ _ _ _ _ Hx Hn Hlo Hle' Hblo Hsv) as (Hy & _ & Hev).
      split_and!; cbn [fst snd]; [done|done|]. intros g' Hg'. destruct (Hev g'), (Hs _ Hg'). split; congruence.
Qed.

(** *** Assertions *)

Lemma good_move open x z : good open x -> good open z -> good open (x.1, z.2).
Proof. intros [Hb _ _ _] [_ Hv Hs Hsl]. by split. Qed.

Lemma look_keeps open x0 x neg R start y :
  (forall c z, R (start, x.2) c z -> reached open (start, x.2) z) ->
  reached open x0 x -> look_rel neg R start x [] y -> reached open x0 y.
Proof.
  intros HR (Hx & Hle & Hs) [_ Hl]. destruct neg; [by destruct Hl as [_ ->]|].
  destruct Hl as (c & z & [Hz _] & ->). destruct (HR _ _ Hz) as (Hgz & _ & Hsz). cbn [fst snd] in Hsz.
  split_and!; [by apply good_move|done|]. intros g Hg. destruct (Hs _ Hg), (Hsz _ Hg). cbn [fst snd]. split; congruence.
Qed.

Lemma look_crash neg x ans : look_outcome neg x ans = None -> ans = Crashed.
Proof. by destruct ans. Qed.

Lemma keeps_lookahead open neg f R :
  follows f R -> keeps open f R ->
  keeps open (single_op_fragment (LOOKAHEAD neg (sub_program f))) (fun x => look_rel neg R x.1 x).
Proof.
  intros Hfo Hf x0. apply safe_local; [done| | |].
  - intros x (Hx & _) (n & ans & He & Ho)%local_ahead_inv. symmetry in Ho. apply look_crash in Ho as ->.
    rewrite <- surjective_pairing in He.
    by eapply (sub_crashed _ _ _ _ _ _ _ _ _ _ _ (Hf x)), He.
  - intros x y (n & ans & He & Ho)%local_ahead_inv. by eapply (look_next _ _ _ _ _ _ _ _ Hfo).
  - intros x c y Hx HR. pose proof HR as [-> _]. eapply look_keeps; [|done|done].
    intros c z Hz. rewrite <- surjective_pairing in *.
    by eapply (sa_post _ _ _ _ _ _ _ _ _ (Hf x)), Hz; destruct Hx.
Qed.

Lemma boundary_back sp w : single_bytes -> at_boundary sp -> at_boundary (sp - w).
Proof.
  intros Hsb [Hle Hb]. split; [lia|]. intros Hm. destruct Hsb as [Hsb|Hsb]; [congruence|].
  destruct (Hb Hm) as (p & q & Ht & Hd & Hl & ->).
  assert (Hascii : forall l, Forall (fun b => (0 <= b < 128)%Z) (utf8 l) -> text l -> utf8 l = l).
  { intros l. induction l as [|cp l IH]; [done|]. rewrite utf8_cons. intros [Hc Hr]%Forall_app Htl.
    apply Forall_cons in Htl as [Hcp Htl]. rewrite IH by done. unfold utf8_char in *.
    destruct (cp <? 128)%Z eqn:E; [done|]. exfalso. apply Z.ltb_ge in E.
    apply scalar_spec in Hcp.
    destruct (cp <? 2048)%Z; [|destruct (cp <? 65536)%Z]; apply Forall_cons in Hc as [Hc _];
      pose proof (Z.div_pos cp 64 ltac:(lia) ltac:(lia)); pose proof (Z.div_pos cp 4096 ltac:(lia) ltac:(lia));
      pose proof (Z.div_pos cp 262144 ltac:(lia) ltac:(lia)); lia. }
  rewrite Hd, Hl, take_app_length in Hsb.
  pose proof Hsb as Hsb'. rewrite utf8_app in Hsb'. apply Forall_app in Hsb' as [Hsp Hsq].
  pose proof Ht as [Htp Htq]%Forall_app.
  assert (Hu : utf8 p = p) by (by apply Hascii). rewrite Hu.
  exists (take (length p - w) p), (drop (length p - w) p ++ q).
  rewrite app_assoc, take_drop. split_and!; [done|done|done|].
  rewrite Hascii; [rewrite length_take; lia| |by apply Forall_take].
  rewrite <- (take_drop (length p - w) p), utf8_app in Hsp. by apply Forall_app in Hsp as [? _].
Qed.

Lemma good_back open x w : single_bytes -> good open x -> good open (x.1 - w, x.2).
Proof. intros Hsb [Hb Hv Hs Hsl]. split; simpl; [by apply boundary_back|done|done|done]. Qed.

Lemma keeps_lookbehind open neg w f R :
  single_bytes -> follows f R -> keeps open f R ->
  keeps open (single_op_fragment (LOOKBEHIND neg w (sub_program f))) (behind_rel neg w R).
Proof.
  intros Hsb Hfo Hf x0. apply safe_local; [done| | |].
  - intros x (Hx & _) [[_ ?]|[Hw (n & ans & He & Ho)]]%local_behind_inv; [done|].
    symmetry in Ho. apply look_crash in Ho as ->.
    eapply (sub_crashed _ _ _ _ _ _ _ _ _ _ _ (Hf (x.1 - w, x.2))), He. by apply reached_refl, good_back.
  - intros x y [[Hw Ho]|[Hw (n & ans & He & Ho)]]%local_behind_inv; unfold behind_rel.
    + destruct neg; [|done]. injection Ho as ->. by rewrite (proj2 (Nat.ltb_lt _ _) Hw).
    + rewrite (proj2 (Nat.ltb_ge _ _) Hw). by eapply (look_next _ _ _ _ _ _ _ _ Hfo).
  - intros x c y Hx. unfold behind_rel. destruct (_ <? _); [by intros (-> & _ & ->)|].
    intros HR. pose proof HR as [-> _]. eapply look_keeps; [|done|done]. intros c z Hz.
    eapply (sa_post _ _ _ _ _ _ _ _ _ (Hf (x.1 - w, x.2))), Hz. destruct Hx. by apply reached_refl, good_back.
Qed.

(** ** Trees *)

Lemma keeps_append open f g R1 R2 :
  keeps open f R1 -> keeps open g R2 -> keeps open (append_fragment f g) (seq_rel R1 R2).
Proof. intros Hf Hg x0. eapply safe_seq; [apply Hf|apply Hg]. Qed.

Lemma comp_safe r : forall open,
  wf (length classes) n_slots open r -> closed_refs open r = true ->
  (looks_behind r = true -> single_bytes) -> keeps open (comp r) (sem r).
Proof.
  induction r as [|op|r1 IH1 r2 IH2|r1 IH1 r2 IH2|q g r IH|n r IH|neg r IH|neg w r IH];
    intros open Hwf Hcl Hlb; simpl in Hwf, Hcl, Hlb |- *.
  - intros x0. apply safe_empty.
  - destruct Hwf as [Ht Hop]. apply keeps_test; [done|by intros i ->|]. intros g ->.
    destruct Hop as [_ Hn]. split; [|done]. intros Hg. apply negb_true_iff in Hcl.
    rewrite <- not_true_iff_false in Hcl. apply Hcl, existsb_exists. exists g.
    split; [by apply list_elem_of_In|apply Nat.eqb_refl].
  - apply andb_prop in Hcl as [? ?]. destruct Hwf.
    apply keeps_append; [apply IH1|apply IH2]; try done; intros E; apply Hlb; rewrite E; [done|apply orb_true_r].
  - apply andb_prop in Hcl as [? ?]. destruct Hwf. intros x0.
    apply safe_alt; [apply IH1|apply IH2]; try done; intros E; apply Hlb; rewrite E; [done|apply orb_true_r].
  - intros x0. apply safe_quant, IH; done.
  - destruct Hwf as (Hn & Hs & Hwf). rewrite append_fragment_nil. apply keeps_group; [done|done|]. by apply IH.
  - apply keeps_lookahead; [by eapply comp_follows|]. by apply IH.
  - apply keeps_lookbehind; [by apply Hlb|by eapply comp_follows|]. apply IH; [done|done|]. intros _. by apply Hlb.
Qed.

End safety.
