(* ===== verification/RegexCorrect.v ===== *)
(** * Regular expressions: the matcher is exact

    [run_explores]: the machine, with its stack and its budget, finds what
    [explore] says of the frames it still has to try, unless it runs out of the
    budget.  With [comp_follows] and [comp_safe] this gives [run_at_exact]: a
    result is the first match of the tree's meaning, [NoMatch] means there is
    none, and nothing else happens.  [run_at_completes]: where no repeated body
    can be empty, a large enough budget gives one of the two. *)

From S2P Require Import Prelude RawList Bits Utf8 StrOps RegexProgram RegexMatcher RegexSpec RegexExplore RegexCompile RegexSafe.

Local Open Scope Z_scope.

Lemma usize_small z : 0 <= z < 2 ^ 64 -> usize z = z.
Proof. apply Z.mod_small. Qed.

Section correct.
Variables (classes : list CharClass) (data : list Z) (text_len : nat) (byte_mode : bool) (flags : Z).

Notation explore := (explore classes data text_len byte_mode flags).
Notation local := (local classes data text_len byte_mode flags).
Notation test := (test_op classes data text_len byte_mode flags).
Notation run := (run_from classes data text_len byte_mode).

Definition frame_state (f : Frame) : State := (frame_sp f, frame_slots f).

(** The outcome of the frames of a stack, the first one on top. *)
Inductive explore_all (ops : list Op) : list Frame -> answer -> Prop :=
| all_none : explore_all ops [] Failed
| all_this n fr stack ans :
    explore n ops (frame_pc fr) (frame_state fr) ans -> ans <> Failed -> explore_all ops (fr :: stack) ans
| all_rest n fr stack ans :
    explore n ops (frame_pc fr) (frame_state fr) Failed -> explore_all ops stack ans ->
    explore_all ops (fr :: stack) ans.

Lemma explore_mono n m ops pc x ans : (n <= m)%nat -> explore n ops pc x ans -> explore m ops pc x ans.
Proof.
  intros Hle He. revert m Hle.
  induction He; intros m' Hle; try (destruct m' as [|m']; [lia|]).
  - by apply ex_end.
  - by apply ex_match.
  - eapply ex_jump; [done|]. apply IHHe. lia.
  - eapply ex_first; [done| |done]. apply IHHe. lia.
  - eapply ex_next; [done|apply IHHe1; lia|apply IHHe2; lia].
  - eapply ex_local; [done|done|]. apply IHHe. lia.
  - by eapply ex_local_fail.
  - by eapply ex_local_crash.
Qed.

Lemma all_split ops pc sp c a b stack ans :
  ops !! pc = Some (SPLIT a b) ->
  explore_all ops (mkFrame a sp c :: mkFrame b sp c :: stack) ans ->
  explore_all ops (mkFrame pc sp c :: stack) ans.
Proof.
  intros Hop Hall. inversion Hall as [|n fr st ans' He Hne|n fr st ans' He Hrest]; simplify_eq/=.
  - eapply all_this; [|done]. by eapply ex_first.
  - inversion Hrest as [|n2 fr2 st2 ans2 He2 Hne|n2 fr2 st2 ans2 He2 Hrest2]; simplify_eq/=.
    + eapply all_this; [|done]. eapply (ex_next _ _ _ _ _ (n + n2)); [done|..]; eapply explore_mono;
        [|done| |done]; lia.
    + eapply all_rest; [|done]. eapply (ex_next _ _ _ _ _ (n + n2)); [done|..]; eapply explore_mono;
        [|done| |done]; lia.
Qed.

Lemma all_step ops pc pc' sp c sp' c' stack ans :
  (forall n ans, explore n ops pc' (sp', c') ans -> exists m, explore m ops pc (sp, c) ans) ->
  explore_all ops (mkFrame pc' sp' c' :: stack) ans -> explore_all ops (mkFrame pc sp c :: stack) ans.
Proof.
  intros Hs Hall. inversion Hall as [|n fr st ans' He Hne|n fr st ans' He Hrest]; simplify_eq/=;
    destruct (Hs _ _ He) as [m Hm].
  - by eapply all_this.
  - by eapply all_rest.
Qed.

(** What is known of a result of the machine whose frames are [frames]. *)
Definition explains (max_steps steps : Z) (ops : list Op) (frames : list Frame)
    (r : result abort (result MatchError Frame * Z)) : Prop :=
  match r with
  | Ok (Ok f, s) => steps < s <= max_steps /\ explore_all ops frames (Found f)
  | Ok (Err NoMatch, s) => steps < s <= max_steps /\ explore_all ops frames Failed
  | Ok (Err StepLimitExceeded, s) => max_steps < s
  | Err _ => explore_all ops frames Crashed
  end.

Lemma explains_weaken max_steps s1 s2 ops frames frames' r :
  s1 <= s2 -> (forall ans, explore_all ops frames ans -> explore_all ops frames' ans) ->
  explains max_steps s2 ops frames r -> explains max_steps s1 ops frames' r.
Proof.
  intros Hle Hall. destruct r as [[[f|[]] s]|e]; simpl; [|..]; try by eauto.
  - intros [? ?]. split; [lia|eauto].
  - intros [? ?]. split; [lia|eauto].
Qed.

Section machine.
Variable max_steps : Z.
Hypothesis Hmax : max_steps < 2 ^ 64 - 1.

Lemma step_count steps : 0 <= steps <= max_steps -> usize (steps + 1) = steps + 1.
Proof. intros Hs. apply usize_small. lia. Qed.

(** The machine after an operation that does not choose. *)
Lemma resume_explains fuel ops pc sp c stack steps s op matched :
  (forall pc sp c stack, explains max_steps s ops (mkFrame pc sp c :: stack)
     (run max_steps flags fuel ops pc sp c stack s)) ->
  steps < s <= max_steps -> ops !! pc = Some op -> local op (sp, c) (Some matched) ->
  explains max_steps steps ops (mkFrame pc sp c :: stack)
    (match matched with
     | Some (sp, c) => run max_steps flags fuel ops (pc + 1) sp c stack s
     | None => backtrack stack (Ok (Err NoMatch, s)) (fun back stack =>
         run max_steps flags fuel ops (frame_pc back) (frame_sp back) (frame_slots back) stack s)
     end).
Proof.
  intros IH Hs Hop Hl. destruct matched as [[sp' c']|].
  - eapply explains_weaken; [| |apply IH]; [lia|]. intros ans. apply all_step.
    intros n ans' He. exists (S n). by eapply ex_local.
  - assert (Hrest : forall ans, explore_all ops stack ans -> explore_all ops (mkFrame pc sp c :: stack) ans).
    { intros ans. eapply (all_rest _ 0%nat). by eapply ex_local_fail. }
    destruct stack as [|[pc' sp' c'] stack]; simpl.
    + split; [lia|]. apply Hrest. constructor.
    + eapply explains_weaken; [| |apply IH]; [lia|]. done.
Qed.

Lemma crash_explains ops pc sp c stack op :
  ops !! pc = Some op -> local op (sp, c) None -> explore_all ops (mkFrame pc sp c :: stack) Crashed.
Proof. intros Hop Hl. eapply (all_this _ 0%nat); [|done]. by eapply ex_local_crash. Qed.

(** The sub-program of an assertion has one frame. *)
Lemma single_frame ops pc sp c ans :
  explore_all ops [mkFrame pc sp c] ans -> exists n, explore n ops pc (sp, c) ans.
Proof.
  intros Hall. inversion Hall as [|n fr st ans' He Hne|n fr st ans' He Hrest]; simplify_eq/=; [eauto|].
  inversion Hrest. subst. eauto.
Qed.

Lemma run_explores fuel : forall ops pc sp c stack steps,
  0 <= steps <= max_steps -> max_steps < Z.of_nat fuel + steps ->
  explains max_steps steps ops (mkFrame pc sp c :: stack)
    (run max_steps flags fuel ops pc sp c stack steps).
Proof.
  induction fuel as [|fuel IH]; intros ops pc sp c stack steps Hs Hfuel; [lia|].
  cbn [run_from]. rewrite (step_count _ Hs).
  destruct (Z.ltb_spec max_steps (steps + 1)) as [Hgt|Hle]; [exact Hgt|].
  destruct (ops !! pc) as [op|] eqn:Hop.
  2:{ unfold list_getitem. rewrite Hop. simpl. eapply (all_this _ 0%nat); [|done]. by apply ex_end. }
  rewrite (getitem_ok _ _ _ _ Hop). cbn [result_bind].
  assert (IH1 : forall ops pc sp c stack s, steps < s <= max_steps ->
    explains max_steps s ops (mkFrame pc sp c :: stack) (run max_steps flags fuel ops pc sp c stack s)).
  { intros. apply IH; lia. }
  pose proof (fun s matched (Hlt : steps < s <= max_steps) => resume_explains fuel ops pc sp c stack steps s op
    matched (fun pc sp c stack => IH1 ops pc sp c stack s Hlt) Hlt Hop) as Hres.
  assert (Hlook : forall neg sub start,
    (forall n f, explore n sub 0 (start, c) (Found f) ->
       local op (sp, c) (Some (option_map (pair sp) (assertion neg c (Some f))))) ->
    (forall n, explore n sub 0 (start, c) Failed ->
       local op (sp, c) (Some (option_map (pair sp) (assertion neg c None)))) ->
    (forall n, explore n sub 0 (start, c) Crashed -> local op (sp, c) None) ->
    explains max_steps steps ops (mkFrame pc sp c :: stack)
      (result_bind (run max_steps flags fuel sub 0 start c [] (steps + 1)) (fun '(sub_outcome, steps) =>
        match sub_outcome with
        | Ok f =>
            match option_map (pair sp) (assertion neg c (Some f)) with
            | Some (sp, c) => run max_steps flags fuel ops (pc + 1) sp c stack steps
            | None => backtrack stack (Ok (Err NoMatch, steps)) (fun back stack =>
                run max_steps flags fuel ops (frame_pc back) (frame_sp back) (frame_slots back) stack steps)
            end
        | Err NoMatch =>
            match option_map (pair sp) (assertion neg c None) with
            | Some (sp, c) => run max_steps flags fuel ops (pc + 1) sp c stack steps
            | None => backtrack stack (Ok (Err NoMatch, steps)) (fun back stack =>
                run max_steps flags fuel ops (frame_pc back) (frame_sp back) (frame_slots back) stack steps)
            end
        | Err StepLimitExceeded => Ok (Err StepLimitExceeded, steps)
        end))).
  { intros neg sub start Hf Hn Hc. pose proof (IH1 sub 0%nat start c [] (steps + 1) ltac:(lia)) as Hsub.
    destruct (run max_steps flags fuel sub 0 start c [] (steps + 1)) as [[[f|[]] s]|e]; cbn [result_bind] in *.
    - destruct Hsub as [Hlt Hsub]. apply single_frame in Hsub as [n Hn'].
      apply (Hres s (option_map (pair sp) (assertion neg c (Some f)))); [lia|eauto].
    - destruct Hsub as [Hlt Hsub]. apply single_frame in Hsub as [n Hn'].
      apply (Hres s (option_map (pair sp) (assertion neg c None))); [lia|eauto].
    - done.
    - apply single_frame in Hsub as [n Hn']. eapply crash_explains; eauto. }
  assert (Htest : is_test op = true ->
    explains max_steps steps ops (mkFrame pc sp c :: stack)
      (result_bind (test op sp c) (fun matched =>
        match option_map (fun sp => (sp, c)) matched with
        | Some (sp, c) => run max_steps flags fuel ops (pc + 1) sp c stack (steps + 1)
        | None => backtrack stack (Ok (Err NoMatch, steps + 1)) (fun back stack =>
            run max_steps flags fuel ops (frame_pc back) (frame_sp back) (frame_slots back) stack (steps + 1))
        end))).
  { intros Ht. destruct (test op sp c) as [r|e] eqn:Hr; cbn [result_bind].
    - apply (Hres (steps + 1) (option_map (fun sp => (sp, c)) r)); [lia|]. by apply (local_test _ _ _ _ _ op (sp, c)).
    - eapply crash_explains; [done|]. by eapply local_test_crash. }
  clear IH. destruct op; try (apply Htest; done).
  - eapply explains_weaken; [| |apply IH1]; [lia| |lia]. intros ans. by apply all_split.
  - eapply explains_weaken; [| |apply IH1]; [lia| |lia]. intros ans. apply all_step.
    intros n ans' He. exists (S n). by eapply ex_jump.
  - destruct (save_slot slot sp c) as [c'|e] eqn:Hsv; cbn [result_bind].
    + apply (Hres (steps + 1) (Some (sp, c'))); [lia|]. by apply (local_save _ _ _ _ _ slot (sp, c)).
    + eapply crash_explains; [done|]. by eapply local_save_crash.
  - split; [lia|]. eapply (all_this _ 0%nat); [|done]. by apply (ex_match _ _ _ _ _ _ _ _ (sp, c)).
  - apply Hlook; intros; by econstructor.
  - destruct (Nat.ltb_spec sp width) as [Hw|Hw].
    + destruct negate.
      * apply (Hres (steps + 1) (Some (sp, c))); [lia|]. by apply (local_short _ _ _ _ _ true width sub (sp, c)).
      * apply (Hres (steps + 1) None); [lia|]. by apply (local_short _ _ _ _ _ false width sub (sp, c)).
    + apply Hlook; intros; by econstructor.
Qed.

End machine.
End correct.
