(* ===== verification/RegexHalts.v ===== *)
(** * Regular expressions: exploration ends

    [comp_halts]: where no unbounded repetition has a body that may be empty,
    every state has an outcome.  The other repetitions go round for ever once
    their body matches the empty string, and the matcher gives up on its
    budget. *)

From S2P Require Import Prelude RawList Bits Utf8 StrOps RegexProgram RegexMatcher RegexSpec RegexExplore RegexCompile RegexSafe RegexCorrect.

Section halts.
Variables (classes : list CharClass) (data : list Z) (text_len : nat) (byte_mode : bool) (flags : Z)
  (n_slots : nat).
Hypothesis Hsubject : subject data text_len byte_mode.

Notation explore := (explore classes data text_len byte_mode flags).
Notation local := (local classes data text_len byte_mode flags).
Notation safe := (safe classes data text_len byte_mode flags).
Notation test := (test_op classes data text_len byte_mode flags).
Notation sem := (sem classes data text_len byte_mode flags).
Notation good := (good data text_len byte_mode n_slots).
Notation reached := (reached data text_len byte_mode n_slots).
Notation keeps := (keeps classes data text_len byte_mode flags n_slots).

Definition ends (C : list Op) (pc : nat) (x : State) : Prop := exists n ans, explore n C pc x ans.

(** [f] ends from the states of [G] where what follows it does. *)
Definition halts (G : State -> Prop) (f : list Op) (R : rel) : Prop :=
  forall C k x, code_at C k f -> G x ->
    (forall c y, R x c y -> ends C (k + length f) y) -> ends C k x.

Lemma ends_split C pc x a b :
  C !! pc = Some (SPLIT a b) -> ends C a x -> ends C b x -> ends C pc x.
Proof.
  intros Hop (n & ans & Ha) (m & ans' & Hb). destruct ans.
  - exists (S n). eexists. by eapply ex_first.
  - exists (S (n + m)), ans'.
    eapply ex_next; [done|..]; eapply explore_mono; [|exact Ha| |exact Hb]; lia.
  - exists (S n). eexists. by eapply ex_first.
Qed.

Lemma ends_choice C pc x greedy e l :
  C !! pc = Some (choice greedy e l) -> ends C e x -> ends C l x -> ends C pc x.
Proof. destruct greedy; intros Hop He Hl; by eapply ends_split. Qed.

Lemma ends_jump C pc x a : C !! pc = Some (JUMP a) -> ends C a x -> ends C pc x.
Proof. intros Hop (n & ans & He). exists (S n), ans. by eapply ex_jump. Qed.

Lemma halts_empty G : halts G [] eps_rel.
Proof. intros C k x _ _ H. specialize (H [] x). rewrite Nat.add_0_r in H. by apply H. Qed.

Lemma halts_append G G' f g R1 R2 :
  safe G f R1 G' -> halts G f R1 -> halts G' g R2 -> halts G (append_fragment f g) (seq_rel R1 R2).
Proof.
  intros Hs Hf Hg C k x [Hcf Hcg]%code_at_append Hx H.
  apply Hf; [done|done|]. intros c1 y HR1. apply Hg; [done|by eapply (sa_post _ _ _ _ _ _ _ _ _ Hs)|].
  intros c2 z HR2. rewrite length_append_fragment, Nat.add_assoc in H.
  apply (H (c1 ++ c2)). by exists c1, y, c2.
Qed.

Lemma halts_alt G a b R1 R2 : halts G a R1 -> halts G b R2 -> halts G (alt2 a b) (alt_rel R1 R2).
Proof.
  intros Ha Hb C k x (Hs & Hca & Hj & Hcb & Hlen)%alt2_code_at Hx H. rewrite <- Hlen in *.
  eapply ends_split; [done| |].
  - apply Ha; [done|done|]. intros c y HR. eapply ends_jump; [done|]. apply (H (false :: c)). exists c. by left.
  - apply Hb; [done|done|]. intros c y HR. apply (H (true :: c)). exists c. by right.
Qed.

Lemma halts_optional G greedy f R :
  halts G f R -> halts G (optional_code greedy f) (opt_rel greedy R).
Proof.
  intros Hf C k x [Hop Hcf]%optional_code_at Hx H. eapply ends_choice; [done| |].
  - apply Hf; [done|done|]. intros c y HR. rewrite (length_optional k greedy).
    apply (H (negb greedy :: c)). right. eauto.
  - apply (H [greedy]). by left.
Qed.

(** Each round moves, and no position is past the end. *)
Lemma halts_star G greedy f R :
  safe G f R G -> halts G f R ->
  (forall x, G x -> x.1 <= text_len) -> (forall x c y, G x -> R x c y -> x.1 < y.1) ->
  halts G (star_code greedy f) (star_rel greedy R).
Proof.
  intros Hs Hf Hle Hlt C k x Hc. destruct (star_code_at _ _ _ _ Hc) as (Hop & Hcf & Hj).
  remember (text_len - x.1) as d eqn:Hd. revert x Hd.
  induction (lt_wf d) as [d _ IH]. intros x -> Hx H.
  eapply ends_choice; [done| |apply (H [greedy]); constructor].
  apply Hf; [done|done|]. intros c y HR. pose proof (sa_post _ _ _ _ _ _ _ _ _ Hs _ _ _ Hx HR) as Hy.
  eapply ends_jump; [done|]. eapply (IH (text_len - y.1)); [|done|done|].
  - pose proof (Hlt _ _ _ Hx HR). pose proof (Hle _ Hy). lia.
  - intros c2 z HS. apply (H (negb greedy :: c ++ c2)). by econstructor.
Qed.

Lemma halts_times n G f out R P :
  safe G f R G -> halts G f R -> safe G out P G -> halts G out P ->
  halts G (append_times n f out) (then_times n R P).
Proof.
  intros Hs Hf Hso Ho. induction n as [|n IH]; [done|].
  eapply halts_append; [by apply safe_times|done|done].
Qed.

Lemma halts_local G op R :
  is_local op = true ->
  (forall x, G x -> exists o, local op x o) ->
  (forall x y, local op x (Some (Some y)) -> R x [] y) ->
  halts G (single_op_fragment op) R.
Proof.
  intros Hl Ho Hn C k x Hc Hx H. assert (Hop : C !! k = Some op).
  { specialize (Hc 0 op eq_refl). rewrite Nat.add_0_r in Hc. rewrite Hc. by destruct op. }
  destruct (Ho _ Hx) as [[[y|]|] Hlo].
  - destruct (H _ _ (Hn _ _ Hlo)) as (n & ans & He). exists (S n), ans. by eapply ex_local.
  - exists 0, Failed. by eapply ex_local_fail.
  - exists 0, Crashed. by eapply ex_local_crash.
Qed.

Lemma halts_test G op :
  is_test op = true -> halts G (single_op_fragment op) (test_rel classes data text_len byte_mode flags op).
Proof.
  intros Ht. apply halts_local; [by apply test_is_local| |by intros x y; apply test_local].
  intros x _. destruct (test op x.1 x.2) as [r|e] eqn:Hr; eexists.
  - by apply local_test.
  - by eapply local_test_crash.
Qed.

Lemma save_local slot x y : local (SAVE slot) x (Some (Some y)) -> save_rel slot x [] y.
Proof.
  intros Hl. destruct (local_save_inv _ _ _ _ _ _ _ _ Hl) as [(s' & Hs & [= ->])|(e & He & ?)]; [|done].
  split; [done|]. eauto.
Qed.

Lemma halts_save G slot : halts G (single_op_fragment (SAVE slot)) (save_rel slot).
Proof.
  apply halts_local; [done| |by intros x y; apply save_local].
  intros x _. destruct (save_slot slot x.1 x.2) as [s|e] eqn:Hs; eexists.
  - by apply local_save.
  - by eapply local_save_crash.
Qed.

Lemma sub_ends G f R x : halts G f R -> G x -> ends (sub_program f) 0 x.
Proof.
  intros Hf Hx. destruct (sub_program_code f) as [Hc Hm]. apply Hf; [done|done|].
  intros c y _. exists 0. eexists. by apply ex_match.
Qed.

Lemma halts_lookahead G neg f R :
  follows classes data text_len byte_mode flags f R -> halts G f R ->
  halts G (single_op_fragment (LOOKAHEAD neg (sub_program f))) (fun x => look_rel neg R x.1 x).
Proof.
  intros Hfo Hf. apply halts_local; [done| |].
  - intros x Hx. destruct (sub_ends _ _ _ _ Hf Hx) as (n & ans & He).
    destruct ans; eexists; by econstructor.
  - intros x y (n & ans & He & Ho)%local_ahead_inv. by eapply (look_next _ _ _ _ _ _ _ _ Hfo).
Qed.

Lemma halts_lookbehind G neg w f R :
  follows classes data text_len byte_mode flags f R -> halts G f R ->
  (forall x, G x -> G (x.1 - w, x.2)) ->
  halts G (single_op_fragment (LOOKBEHIND neg w (sub_program f))) (behind_rel neg w R).
Proof.
  intros Hfo Hf Hback. apply halts_local; [done| |].
  - intros x Hx. destruct (decide (x.1 < w)) as [Hw|Hw]; [eexists; by apply local_short|].
    destruct (sub_ends _ _ _ _ Hf (Hback _ Hx)) as (n & ans & He).
    destruct ans; eexists; econstructor; try done; lia.
  - intros x y [[Hw Ho]|[Hw (n & ans & He & Ho)]]%local_behind_inv; unfold behind_rel.
    + destruct neg; [|done]. injection Ho as ->. by rewrite (proj2 (Nat.ltb_lt _ _) Hw).
    + rewrite (proj2 (Nat.ltb_ge _ _) Hw). by eapply (look_next _ _ _ _ _ _ _ _ Hfo).
Qed.

(** ** Trees that move *)

Lemma keeps_le open f R x c y : keeps open f R -> good open x -> R x c y -> good open y /\ x.1 <= y.1.
Proof.
  intros Hf Hx HR. destruct (sa_post _ _ _ _ _ _ _ _ _ (Hf x) _ _ _ (reached_refl _ _ _ _ _ _ Hx) HR) as (? & ? & _).
  done.
Qed.

(** Whether a relation moves every good state. *)
Definition moves (open : list nat) (R : rel) : Prop := forall x c y, good open x -> R x c y -> x.1 < y.1.

Lemma moves_test open op :
  match op with CHAR _ | ANY | IN _ => true | _ => false end = true ->
  moves open (test_rel classes data text_len byte_mode flags op).
Proof.
  intros Hop x c y Hx [_ (sp & Hr & ->)]. simpl.
  assert (Hadv : forall ok sp, x.1 < text_len -> advance data byte_mode x.1 ok = Ok (Some sp) -> x.1 < sp).
  { intros ok sp' Hlt Ha.
    destruct (codepoint_ok _ _ _ Hsubject _ (good_pos _ _ _ _ _ _ Hx) Hlt) as (cp & w & _ & Hw & Hpos & _).
    unfold advance in Ha. destruct ok; [|done]. rewrite Hw in Ha. injection Ha as <-. lia. }
  destruct op; try done; unfold test_op in Hr; destruct (Nat.ltb_spec x.1 text_len) as [Hlt|]; try done.
  - destruct (codepoint_at _ _ _); [|done]. eapply Hadv; [done|exact Hr].
  - destruct (has_flag _ _); [by eapply Hadv|].
    destruct (codepoint_at _ _ _); [|done]. eapply Hadv; [done|exact Hr].
  - destruct (unwrap _ _); [|done]. simpl in Hr.
    destruct (codepoint_at _ _ _); [|done]. eapply Hadv; [done|exact Hr].
Qed.

Lemma good_safe open f R : keeps open f R -> safe (good open) f R (good open).
Proof.
  intros Hf. eapply (keeps_safe _ _ _ _ _ _ open); [done|done|]. by intros x y _ [Hy _].
Qed.

Lemma safe_save_start open g :
  2 * g + 1 < n_slots ->
  safe (good open) (single_op_fragment (SAVE (2 * g))) (save_rel (2 * g)) (good (g :: open)).
Proof.
  intros Hn. apply safe_local; [done| |by intros x y; apply save_local|].
  - intros x Hx Hl. destruct (save_slot_ok (2 * g) x.1 x.2) as (s & Hs & _);
      [rewrite (good_values _ _ _ _ _ _ Hx); lia|rewrite (good_set _ _ _ _ _ _ Hx); lia|].
    destruct (local_save_inv _ _ _ _ _ _ _ _ Hl) as [(s' & _ & ?)|(e & He & _)]; [done|]. by rewrite Hs in He.
  - intros x c y Hx [_ (s & Hs & ->)]. by apply (good_save_start _ _ _ _ _ _ _ _ Hx Hn Hs).
Qed.

Lemma moves_seq_l open f2 R1 R2 :
  moves open R1 -> (forall x c y, good open x -> R1 x c y -> good open y) -> keeps open f2 R2 ->
  moves open (seq_rel R1 R2).
Proof.
  intros Hm Hg Hk x c z Hx (c1 & y & c2 & -> & HR1 & HR2).
  pose proof (Hm _ _ _ Hx HR1). destruct (keeps_le _ _ _ _ _ _ Hk (Hg _ _ _ Hx HR1) HR2). lia.
Qed.

Lemma moves_seq_r open f1 R1 R2 : keeps open f1 R1 -> moves open R2 -> moves open (seq_rel R1 R2).
Proof.
  intros Hk Hm x c z Hx (c1 & y & c2 & -> & HR1 & HR2).
  destruct (keeps_le _ _ _ _ _ _ Hk Hx HR1) as [Hy ?]. pose proof (Hm _ _ _ Hy HR2). lia.
Qed.

Lemma keeps_times open n f out R P :
  keeps open f R -> keeps open out P -> keeps open (append_times n f out) (then_times n R P).
Proof. intros Hf Ho x0. by apply safe_times. Qed.

Lemma keeps_eps open : keeps open [] eps_rel.
Proof. intros x0. apply safe_empty. Qed.

Lemma moves_times_base open n f out R P :
  keeps open f R -> keeps open out P -> moves open P -> moves open (then_times n R P).
Proof.
  intros Hf Ho Hm. induction n as [|n IH]; [done|]. eapply (moves_seq_l open f); [done| |done].
  intros x c y Hx HR. by apply (keeps_le open (append_times n f out) _ _ _ _ (keeps_times _ _ _ _ _ _ Hf Ho) Hx HR).
Qed.

Lemma moves_times open n f R : n <> 0 -> keeps open f R -> moves open R -> moves open (then_times n R eps_rel).
Proof.
  intros Hn Hf Hm. destruct n as [|n]; [done|].
  eapply (moves_seq_r open (append_times n f [])); [|done]. apply keeps_times; [done|apply keeps_eps].
Qed.

Lemma moves_quant open q greedy r :
  keeps open (comp r) (sem r) -> (can_be_empty r = false -> moves open (sem r)) ->
  can_be_empty (RQuant q greedy r) = false -> moves open (quant_rel q greedy (sem r)).
Proof.
  intros Hk Hm Hc. assert (Hstar : keeps open (star_code greedy (comp r)) (star_rel greedy (sem r)))
    by (intros x0; by apply safe_star).
  assert (Hopt : keeps open (optional_code greedy (comp r)) (opt_rel greedy (sem r)))
    by (intros x0; by apply safe_optional).
  assert (Hn : forall n, keeps open (append_times n (comp r) []) (then_times n (sem r) eps_rel))
    by (intros n; apply keeps_times; [done|apply keeps_eps]).
  destruct q; simpl in Hc |- *; try done.
  - eapply moves_seq_l; [by apply Hm| |exact Hstar]. intros x c y Hx HR. by apply (keeps_le _ _ _ _ _ _ Hk Hx HR).
  - apply orb_false_iff in Hc as [Hz%Nat.eqb_neq Hc].
    eapply moves_times_base; [done|apply (Hn m)|]. eapply moves_times; eauto.
  - apply orb_false_iff in Hc as [Hz%Nat.eqb_neq Hc].
    eapply moves_seq_l; [eapply moves_times; eauto| |exact Hstar].
    intros x c y Hx HR. by apply (keeps_le _ _ _ _ _ _ (Hn m) Hx HR).
Qed.

Lemma sem_moves r : forall open,
  wf (length classes) n_slots open r -> closed_refs open r = true ->
  (looks_behind r = true -> single_bytes data text_len byte_mode) ->
  can_be_empty r = false -> moves open (sem r).
Proof.
  induction r as [|op|r1 IH1 r2 IH2|r1 IH1 r2 IH2|q g r IH|n r IH|neg r IH|neg w r IH];
    intros open Hwf Hcl Hlb Hc; try discriminate Hc.
  - apply moves_test. by destruct op.
  - simpl in Hwf, Hcl, Hlb, Hc. apply andb_prop in Hcl as [Hc1 Hc2]. destruct Hwf as [Hw1 Hw2].
    assert (Hk1 : keeps open (comp r1) (sem r1)) by (apply comp_safe; try done; intros E; apply Hlb; by rewrite E).
    assert (Hk2 : keeps open (comp r2) (sem r2))
      by (apply comp_safe; try done; intros E; apply Hlb; rewrite E; apply orb_true_r).
    apply andb_false_iff in Hc as [Hc|Hc].
    + eapply moves_seq_l; [apply IH1; try done; intros E; apply Hlb; by rewrite E| |exact Hk2].
      intros x c y Hx HR. by apply (keeps_le _ _ _ _ _ _ Hk1 Hx HR).
    + eapply moves_seq_r; [exact Hk1|]. apply IH2; try done. intros E; apply Hlb; rewrite E; apply orb_true_r.
  - simpl in Hwf, Hcl, Hlb, Hc. apply andb_prop in Hcl as [Hc1 Hc2]. destruct Hwf as [Hw1 Hw2].
    apply orb_false_iff in Hc as [Hn1 Hn2]. intros x c y Hx (c' & [[-> HR]|[-> HR]]).
    + eapply (IH1 open), HR; try done. intros E; apply Hlb; by rewrite E.
    + eapply (IH2 open), HR; try done. intros E; apply Hlb; rewrite E; apply orb_true_r.
  - apply moves_quant; [by apply comp_safe| |done]. intros Hr. by apply IH.
  - simpl in Hwf, Hcl, Hlb, Hc. destruct Hwf as (Hno & Hn & Hwf).
    intros x c z Hx (c1 & y & c2 & -> & (d1 & x1 & d2 & -> & [_ (s & Hs & ->)] & HR) & [_ (s' & Hs' & ->)]).
    destruct (good_save_start _ _ _ _ _ _ _ _ Hx Hn Hs) as (Hg & _).
    pose proof (IH (n :: open) Hwf Hcl Hlb Hc _ _ _ Hg HR). done.
Qed.

Lemma comp_halts r : forall open,
  wf (length classes) n_slots open r -> closed_refs open r = true ->
  (looks_behind r = true -> single_bytes data text_len byte_mode) ->
  progressing r = true -> halts (good open) (comp r) (sem r).
Proof.
  induction r as [|op|r1 IH1 r2 IH2|r1 IH1 r2 IH2|q g r IH|n r IH|neg r IH|neg w r IH];
    intros open Hwf Hcl Hlb Hp; simpl in Hwf, Hcl, Hlb, Hp |- *.
  - apply halts_empty.
  - apply halts_test, Hwf.
  - apply andb_prop in Hcl as [? ?]. apply andb_prop in Hp as [? ?]. destruct Hwf.
    eapply halts_append; [apply good_safe, comp_safe|apply IH1|apply IH2]; try done;
      intros E; apply Hlb; rewrite E; by rewrite ?orb_true_r.
  - apply andb_prop in Hcl as [? ?]. apply andb_prop in Hp as [? ?]. destruct Hwf.
    apply halts_alt; [apply IH1|apply IH2]; try done; intros E; apply Hlb; rewrite E; by rewrite ?orb_true_r.
  - apply andb_prop in Hp as [Hp Hq]. rewrite comp_quant_code.
    assert (Hk : keeps open (comp r) (sem r)) by (by apply comp_safe).
    assert (Hh : halts (good open) (comp r) (sem r)) by (by apply IH).
    assert (Hs : safe (good open) (comp r) (sem r) (good open)) by (by apply good_safe).
    assert (Hst : can_be_empty r = false -> halts (good open) (star_code g (comp r)) (star_rel g (sem r))).
    { intros Hc. apply halts_star; [done|done|intros x Hx; apply (boundary_le data text_len byte_mode), Hx|]. by apply sem_moves. }
    assert (Ho : halts (good open) (optional_code g (comp r)) (opt_rel g (sem r))) by (by apply halts_optional).
    assert (Hso : safe (good open) (optional_code g (comp r)) (opt_rel g (sem r)) (good open)) by (by apply safe_optional).
    assert (Ht : forall m, halts (good open) (append_times m (comp r) []) (then_times m (sem r) eps_rel)).
    { intros m. apply halts_times; [done|done|apply safe_empty|apply halts_empty]. }
    assert (Hts : forall m, safe (good open) (append_times m (comp r) []) (then_times m (sem r) eps_rel) (good open)).
    { intros m. apply safe_times; [done|apply safe_empty]. }
    destruct q; simpl; try apply negb_true_iff in Hq.
    + by apply Hst.
    + eapply halts_append; [done|done|by apply Hst].
    + done.
    + apply halts_times; done.
    + eapply halts_append; [apply Hts|done|by apply Hst].
  - destruct Hwf as (Hno & Hn & Hwf). rewrite append_fragment_nil.
    pose proof (safe_save_start open n Hn) as Hss.
    eapply (halts_append _ (fun _ => True)); [|eapply halts_append; [exact Hss|apply halts_save|by apply IH]|apply halts_save].
    eapply safe_seq; [exact Hss|]. eapply safe_weaken; [apply (good_safe (n :: open)), comp_safe; done|done|done].
  - apply halts_lookahead; [by eapply comp_follows|]. by apply IH.
  - apply halts_lookbehind; [by eapply comp_follows|apply IH; try done; by intros _; apply Hlb|].
    intros x Hx. apply good_back; [by apply Hlb|done].
Qed.
End halts.
