(* ===== verification/RegexExact.v ===== *)
(** * Regular expressions: what a run at a position returns

    The two theorems on [run_at] for the program of a tree: [run_at_exact],
    whatever the budget, and [run_at_completes], for budgets that suffice. *)

From S2P Require Import Prelude RawList Bits Utf8 StrOps RegexProgram RegexMatcher RegexSpec RegexExplore RegexCompile RegexSafe RegexCorrect RegexHalts.

Local Open Scope Z_scope.

Scheme explore_rec := Minimality for explore Sort Prop
  with local_rec := Minimality for local Sort Prop.
Combined Scheme explore_local_ind from explore_rec, local_rec.

Section exact.
Variables (classes : list CharClass) (data : list Z) (text_len : nat) (byte_mode : bool) (flags : Z).

Notation explore := (explore classes data text_len byte_mode flags).
Notation local := (local classes data text_len byte_mode flags).
Notation test := (test_op classes data text_len byte_mode flags).
Notation run := (run_from classes data text_len byte_mode).

(** ** An outcome is found with a large enough budget *)

(** The machine may take [N] steps from [steps]. *)
Definition affordable (N : nat) (max_steps steps : Z) (fuel : nat) : Prop :=
  0 <= steps /\ steps + Z.of_nat N <= max_steps < 2 ^ 64 - 1 /\ max_steps < Z.of_nat fuel + steps.

(** The machine goes on as its stack says. *)
Definition pops (max_steps : Z) (ops : list Op) (fuel : nat) (stack : list Frame) (s : Z) :=
  backtrack stack (Ok (Err NoMatch, s)) (fun back stack =>
    run max_steps flags fuel ops (frame_pc back) (frame_sp back) (frame_slots back) stack s).

Definition answers (N : nat) (ops : list Op) (pc : nat) (x : State) (ans : answer) : Prop :=
  forall max_steps fuel stack steps, affordable N max_steps steps fuel ->
    exists s, steps < s <= steps + Z.of_nat N /\
      let r := run max_steps flags fuel ops pc x.1 x.2 stack steps in
      match ans with
      | Found f => r = Ok (Ok f, s)
      | Crashed => exists e, r = Err e
      | Failed => exists fuel', max_steps < Z.of_nat fuel' + s /\ r = pops max_steps ops fuel' stack s
      end.

Definition local_answers (N : nat) (op : Op) (x : State) (o : option (option State)) : Prop :=
  forall max_steps fuel ops pc stack steps, affordable N max_steps steps fuel -> ops !! pc = Some op ->
    exists s, steps < s <= steps + Z.of_nat N /\
      let r := run max_steps flags fuel ops pc x.1 x.2 stack steps in
      match o with
      | None => exists e, r = Err e
      | Some matched => exists fuel', max_steps < Z.of_nat fuel' + s /\
          r = match matched with
              | Some y => run max_steps flags fuel' ops (pc + 1) y.1 y.2 stack s
              | None => pops max_steps ops fuel' stack s
              end
      end.

(** The first lines of the machine's loop. *)
Lemma run_unfold N max_steps fuel ops pc sp c stack steps op :
  affordable (S N) max_steps steps fuel -> ops !! pc = Some op ->
  exists fuel0, affordable N max_steps (steps + 1) fuel0 /\
    run max_steps flags fuel ops pc sp c stack steps =
    let resume matched s :=
      match matched with
      | Some (sp, c) => run max_steps flags fuel0 ops (pc + 1) sp c stack s
      | None => pops max_steps ops fuel0 stack s
      end in
    let look negate sub start :=
      result_bind (run max_steps flags fuel0 sub 0 start c [] (steps + 1)) (fun '(sub_outcome, s) =>
        match sub_outcome with
        | Err StepLimitExceeded => Ok (Err StepLimitExceeded, s)
        | Err NoMatch => resume (option_map (pair sp) (assertion negate c None)) s
        | Ok f => resume (option_map (pair sp) (assertion negate c (Some f))) s
        end) in
    match op with
    | SPLIT a b => run max_steps flags fuel0 ops a sp c (mkFrame b sp c :: stack) (steps + 1)
    | JUMP a => run max_steps flags fuel0 ops a sp c stack (steps + 1)
    | SAVE slot => result_bind (save_slot slot sp c) (fun c =>
        run max_steps flags fuel0 ops (pc + 1) sp c stack (steps + 1))
    | MATCH => Ok (Ok (mkFrame pc sp c), steps + 1)
    | LOOKAHEAD negate sub => look negate sub sp
    | LOOKBEHIND negate width sub =>
        if (sp <? width)%nat then resume (if negate then Some (sp, c) else None) (steps + 1)
        else look negate sub (sp - width)%nat
    | op => result_bind (test op sp c) (fun matched =>
        resume (option_map (fun sp => (sp, c)) matched) (steps + 1))
    end.
Proof.
  intros (Hs & [HN Hm] & Hf) Hop. destruct fuel as [|fuel]; [lia|]. exists fuel.
  split; [split_and!; lia|]. cbn [run_from]. rewrite usize_small by lia.
  rewrite (proj2 (Z.ltb_ge _ _)) by lia.
  rewrite (getitem_ok _ _ _ _ Hop). cbn [result_bind]. reflexivity.
Qed.

Lemma affordable_weaken N N' max_steps steps fuel :
  (N <= N')%nat -> affordable N' max_steps steps fuel -> affordable N max_steps steps fuel.
Proof. intros Hle (? & [? ?] & ?). split_and!; lia. Qed.

(** The budget left after a part that stopped at [s]. *)
Lemma affordable_rest N N' max_steps steps s fuel fuel' :
  affordable (N + N') max_steps steps fuel -> steps < s <= steps + Z.of_nat N ->
  max_steps < Z.of_nat fuel' + s -> affordable N' max_steps s fuel'.
Proof. intros (? & [? ?] & ?) ? ?. split_and!; lia. Qed.

Lemma answers_mono N N' ops pc x ans : (N <= N')%nat -> answers N ops pc x ans -> answers N' ops pc x ans.
Proof.
  intros Hle H max_steps fuel stack steps Haff.
  destruct (H max_steps fuel stack steps (affordable_weaken _ _ _ _ _ Hle Haff)) as (s & Hs & Hr).
  exists s. split; [lia|exact Hr].
Qed.

(** The answer of [y] at [pc'] is that of [x] at [pc] when the machine goes from
    one to the other within [N] steps. *)
Lemma answers_after N N' ops pc pc' x y ans :
  (forall max_steps fuel stack steps, affordable (N + N') max_steps steps fuel ->
    exists s fuel', steps < s <= steps + Z.of_nat N /\ max_steps < Z.of_nat fuel' + s /\
      run max_steps flags fuel ops pc x.1 x.2 stack steps =
      run max_steps flags fuel' ops pc' y.1 y.2 stack s) ->
  answers N' ops pc' y ans -> answers (N + N') ops pc x ans.
Proof.
  intros Hgo Hy max_steps fuel stack steps Haff.
  destruct (Hgo _ _ stack _ Haff) as (s & fuel' & Hs & Hf & ->).
  destruct (Hy max_steps fuel' stack s (affordable_rest _ _ _ _ _ _ _ Haff Hs Hf)) as (s' & Hs' & Hr).
  exists s'. split; [lia|exact Hr].
Qed.

Lemma answers_split N N' ops pc x a b ans :
  ops !! pc = Some (SPLIT a b) -> answers N ops a x Failed -> answers N' ops b x ans ->
  answers (S (N + N')) ops pc x ans.
Proof.
  intros Hop Ha Hb max_steps fuel stack steps Haff.
  destruct (run_unfold _ _ _ _ _ x.1 x.2 stack _ _ Haff Hop) as (fuel0 & Haff0 & ->). simpl.
  destruct (Ha max_steps fuel0 (mkFrame b x.1 x.2 :: stack) (steps + 1)) as (s & Hs & fuel' & Hf & ->).
  { eapply affordable_weaken, Haff0. lia. }
  destruct (Hb max_steps fuel' stack s) as (s' & Hs' & Hr).
  { eapply affordable_rest; [exact Haff0|exact Hs|exact Hf]. }
  exists s'. split; [lia|]. exact Hr.
Qed.

Lemma answers_first N ops pc x a b ans :
  ops !! pc = Some (SPLIT a b) -> answers N ops a x ans -> ans <> Failed -> answers (S N) ops pc x ans.
Proof.
  intros Hop Ha Hne max_steps fuel stack steps Haff.
  destruct (run_unfold _ _ _ _ _ x.1 x.2 stack _ _ Haff Hop) as (fuel0 & Haff0 & ->). simpl.
  destruct (Ha max_steps fuel0 (mkFrame b x.1 x.2 :: stack) (steps + 1) Haff0) as (s & Hs & Hr).
  exists s. split; [lia|]. destruct ans; [exact Hr|done|exact Hr].
Qed.

Lemma local_test_answers op x :
  is_test op = true ->
  local_answers 1 op x (match test op x.1 x.2 with
                        | Ok r => Some (option_map (fun sp => (sp, x.2)) r) | Err _ => None end).
Proof.
  intros Ht max_steps fuel ops pc stack steps Haff Hop.
  destruct (run_unfold _ _ _ _ _ x.1 x.2 stack _ _ Haff Hop) as (fuel0 & (_ & _ & Hf) & Heq).
  exists (steps + 1). split; [lia|]. cbv zeta. rewrite Heq. cbv zeta.
  destruct (test op x.1 x.2) as [r|e] eqn:Hr.
  - exists fuel0. split; [exact Hf|].
    destruct op; try discriminate Ht; cbn [result_bind]; by destruct r.
  - exists e. destruct op; try discriminate Ht; done.
Qed.

(** The machine at an assertion, in the form of [look_answers]. *)
Definition look_unfolds (N : nat) (op : Op) (neg : bool) (sub : list Op) (start : nat) (x : State) : Prop :=
  forall max_steps fuel ops pc stack steps, affordable (S N) max_steps steps fuel -> ops !! pc = Some op ->
    exists fuel0, affordable N max_steps (steps + 1) fuel0 /\
      run max_steps flags fuel ops pc x.1 x.2 stack steps =
      result_bind (run max_steps flags fuel0 sub 0 start x.2 [] (steps + 1)) (fun '(sub_outcome, s) =>
        let resume matched s :=
          match matched with
          | Some (sp, c) => run max_steps flags fuel0 ops (pc + 1) sp c stack s
          | None => pops max_steps ops fuel0 stack s
          end in
        match sub_outcome with
        | Err StepLimitExceeded => Ok (Err StepLimitExceeded, s)
        | Err NoMatch => resume (option_map (pair x.1) (assertion neg x.2 None)) s
        | Ok f => resume (option_map (pair x.1) (assertion neg x.2 (Some f))) s
        end).

Lemma look_answers N op neg sub start x ans :
  look_unfolds N op neg sub start x ->
  answers N sub 0 (start, x.2) ans -> local_answers (S N) op x (look_outcome neg x ans).
Proof.
  intros Hrun Hsub max_steps fuel ops pc stack steps Haff Hop.
  destruct (Hrun _ _ _ _ stack _ Haff Hop) as (fuel0 & Haff0 & Heq). cbv zeta. rewrite Heq.
  destruct (Hsub max_steps fuel0 [] (steps + 1) Haff0) as (s & Hs & Hr). simpl in Hr.
  exists s. split; [lia|]. destruct Haff0 as (_ & _ & Hf).
  destruct ans as [f| |]; simpl.
  - rewrite Hr. cbn [result_bind]. exists fuel0. split; [lia|]. by destruct neg.
  - destruct Hr as (fuel' & _ & Hr). rewrite Hr. cbn [result_bind pops backtrack]. exists fuel0. split; [lia|].
    by destruct neg.
  - destruct Hr as [e Hr]. rewrite Hr. by exists e.
Qed.

Lemma ahead_unfolds N neg sub x : look_unfolds N (LOOKAHEAD neg sub) neg sub x.1 x.
Proof.
  intros max_steps fuel ops pc stack steps Haff Hop.
  destruct (run_unfold _ _ _ _ _ x.1 x.2 stack _ _ Haff Hop) as (fuel0 & Haff0 & Heq). eauto.
Qed.

Lemma behind_unfolds N neg w sub x :
  (w <= x.1)%nat -> look_unfolds N (LOOKBEHIND neg w sub) neg sub (x.1 - w)%nat x.
Proof.
  intros Hw max_steps fuel ops pc stack steps Haff Hop.
  destruct (run_unfold _ _ _ _ _ x.1 x.2 stack _ _ Haff Hop) as (fuel0 & Haff0 & Heq).
  exists fuel0. split; [done|]. rewrite Heq. cbv zeta. by rewrite (proj2 (Nat.ltb_ge _ _) Hw).
Qed.

Lemma local_after N N' ops pc x y ans op :
  ops !! pc = Some op -> local_answers N op x (Some (Some y)) -> answers N' ops (pc + 1) y ans ->
  answers (N + N') ops pc x ans.
Proof.
  intros Hop Hl. apply answers_after. intros max_steps fuel stack steps Haff.
  destruct (Hl max_steps fuel ops pc stack steps) as (s & Hs & fuel' & Hf & Hr); [|done|].
  { eapply affordable_weaken, Haff. lia. }
  by exists s, fuel'.
Qed.

Lemma explore_answers :
  (forall n ops pc x ans, explore n ops pc x ans -> exists N, answers N ops pc x ans) /\
  (forall op x o, local op x o -> exists N, local_answers N op x o).
Proof.
  apply explore_local_ind.
  - intros _ ops pc x Hop. exists 1%nat. intros max_steps fuel stack steps (Hs & [HN Hm] & Hf).
    destruct fuel as [|fuel]; [lia|]. exists (steps + 1). split; [lia|]. cbn [run_from].
    rewrite usize_small by lia. rewrite (proj2 (Z.ltb_ge _ _)) by lia.
    unfold list_getitem. rewrite Hop. by eexists.
  - intros _ ops pc x Hop. exists 1%nat. intros max_steps fuel stack steps Haff.
    destruct (run_unfold _ _ _ _ _ x.1 x.2 stack _ _ Haff Hop) as (fuel0 & _ & ->).
    exists (steps + 1). split; [lia|done].
  - intros _ ops pc x a ans Hop _ [N HN]. exists (1 + N)%nat. revert HN. apply answers_after.
    intros max_steps fuel stack steps Haff.
    destruct (run_unfold _ _ _ _ _ x.1 x.2 stack _ _ Haff Hop) as (fuel0 & (_ & _ & Hf) & ->).
    exists (steps + 1), fuel0. split_and!; [lia|lia|lia|done].
  - intros _ ops pc x a b ans Hop _ [N HN] Hne. exists (S N). by eapply answers_first.
  - intros _ ops pc x a b ans Hop _ [N HN] _ [N' HN']. exists (S (N + N')). by eapply answers_split.
  - intros _ ops pc x op y ans Hop _ [N HN] _ [N' HN']. exists (N + N')%nat. by eapply local_after.
  - intros _ ops pc x op Hop _ [N HN]. exists N. intros max_steps fuel stack steps Haff.
    by apply HN.
  - intros _ ops pc x op Hop _ [N HN]. exists N. intros max_steps fuel stack steps Haff.
    by apply HN.
  - intros op x r Ht Hr. exists 1%nat. pose proof (local_test_answers op x Ht) as H. by rewrite Hr in H.
  - intros op x e Ht Hr. exists 1%nat. pose proof (local_test_answers op x Ht) as H. by rewrite Hr in H.
  - intros slot x s Hs. exists 1%nat. intros max_steps fuel ops pc stack steps Haff Hop.
    destruct (run_unfold _ _ _ _ _ x.1 x.2 stack _ _ Haff Hop) as (fuel0 & (_ & _ & Hf) & ->).
    exists (steps + 1). split; [lia|]. exists fuel0. split; [done|]. cbv zeta. by rewrite Hs.
  - intros slot x e Hs. exists 1%nat. intros max_steps fuel ops pc stack steps Haff Hop.
    destruct (run_unfold _ _ _ _ _ x.1 x.2 stack _ _ Haff Hop) as (fuel0 & (_ & _ & Hf) & ->).
    exists (steps + 1). split; [lia|]. exists e. cbv zeta. by rewrite Hs.
  - intros neg sub x n f _ [N HN]. exists (S N).
    apply (look_answers N _ neg sub x.1 x (Found f)); [apply ahead_unfolds|by rewrite <- surjective_pairing].
  - intros neg sub x n _ [N HN]. exists (S N).
    apply (look_answers N _ neg sub x.1 x Failed); [apply ahead_unfolds|by rewrite <- surjective_pairing].
  - intros neg sub x n _ [N HN]. exists (S N).
    apply (look_answers N _ neg sub x.1 x Crashed); [apply ahead_unfolds|by rewrite <- surjective_pairing].
  - intros neg w sub x Hw. exists 1%nat. intros max_steps fuel ops pc stack steps Haff Hop.
    destruct (run_unfold _ _ _ _ _ x.1 x.2 stack _ _ Haff Hop) as (fuel0 & (_ & _ & Hf) & ->).
    exists (steps + 1). split; [lia|]. exists fuel0. split; [done|].
    cbv zeta. rewrite (proj2 (Nat.ltb_lt _ _) Hw). by destruct neg.
  - intros neg w sub x n f Hw _ [N HN]. exists (S N).
    apply (look_answers N _ neg sub (x.1 - w)%nat x (Found f)); [by apply behind_unfolds|done].
  - intros neg w sub x n Hw _ [N HN]. exists (S N).
    apply (look_answers N _ neg sub (x.1 - w)%nat x Failed); [by apply behind_unfolds|done].
  - intros neg w sub x n Hw _ [N HN]. exists (S N).
    apply (look_answers N _ neg sub (x.1 - w)%nat x Crashed); [by apply behind_unfolds|done].
Qed.

(** ** A run from a position *)

(** What [Pattern._compile_from_parser] makes of the body. *)
Definition program (body : list Op) : list Op :=
  let prog := append_fragment [] (single_op_fragment (SAVE 0)) in
  let prog := append_fragment prog body in
  append_fragment prog [SAVE 1; MATCH].

(** The pattern as a group of number 0. *)
Definition whole (r : Re) : Re := RGroup 0 r.

Lemma program_code r : program (comp r) = sub_program (comp (whole r)).
Proof.
  unfold program, sub_program, whole. simpl. rewrite !append_fragment_nil.
  unfold append_fragment, single_op_fragment. simpl. by rewrite <- app_assoc.
Qed.

Variable n_slots : nat.
Variable r : Re.

(** The pattern and the text are such that nothing can crash. *)
Record fit : Prop := {
  fit_subject : subject data text_len byte_mode;
  fit_wf : wf (length classes) n_slots [] (whole r);
  fit_closed : closed_refs [] (whole r) = true;
  fit_behind : looks_behind r = true -> single_bytes data text_len byte_mode
}.

Notation at_start start := ((start, no_captures n_slots) : State).
Notation meaning := (sem classes data text_len byte_mode flags (whole r)).

Lemma start_good start : at_boundary data text_len byte_mode start -> good data text_len byte_mode n_slots [] (at_start start).
Proof.
  intros Hb. split; cbn [fst snd no_captures slot_values slot_set]; [done|apply length_replicate|apply length_replicate|].
  intros g Hg. apply lookup_replicate in Hg as [Hg _]. done.
Qed.

Lemma whole_safe : fit -> keeps classes data text_len byte_mode flags n_slots [] (comp (whole r)) meaning.
Proof. intros [Hs Hw Hc Hb]. by apply comp_safe. Qed.

Lemma whole_follows : fit -> follows classes data text_len byte_mode flags (comp (whole r)) meaning.
Proof. intros [Hs Hw Hc Hb]. by eapply comp_follows. Qed.

Lemma run_exact max_steps start steps :
  fit -> at_boundary data text_len byte_mode start -> 0 <= steps <= max_steps -> max_steps < 2 ^ 64 - 1 ->
  match run_at classes data text_len byte_mode max_steps flags (program (comp r)) start n_slots steps with
  | Ok (Ok f, s) => steps < s <= max_steps /\ exists c, least meaning (at_start start) c (frame_sp f, frame_slots f)
  | Ok (Err NoMatch, s) => steps < s <= max_steps /\ forall c y, ~ meaning (at_start start) c y
  | Ok (Err StepLimitExceeded, s) => max_steps < s
  | Err _ => False
  end.
Proof.
  intros Hfit Hb Hs Hm. unfold run_at, steps_fuel. rewrite program_code.
  pose proof (run_explores classes data text_len byte_mode flags max_steps Hm
    (S (Z.to_nat (max_steps - steps))) (sub_program (comp (whole r))) 0 start (no_captures n_slots) [] steps Hs
    ltac:(lia)) as Hrun.
  destruct (run_from _ _ _ _ _ _ _ _ _ _ _ _ _) as [[[f|[]] s]|e]; cbn [explains] in Hrun.
  - destruct Hrun as [Hlt Hall]. split; [done|]. apply single_frame in Hall as [n He].
    destruct (sub_found _ _ _ _ _ _ _ _ _ _ (whole_follows Hfit) He) as (c & y & Hl & -> & ->).
    exists c. by rewrite <- surjective_pairing.
  - destruct Hrun as [Hlt Hall]. split; [done|]. apply single_frame in Hall as [n He].
    eapply sub_failed; [by apply whole_follows|exact He].
  - done.
  - apply single_frame in Hrun as [n He].
    eapply (sub_crashed _ _ _ _ _ _ _ _ _ n _ (whole_safe Hfit (at_start start))); [|exact He].
    by apply reached_refl, start_good.
Qed.

Lemma run_finishes :
  fit -> progressing r = true ->
  forall start, at_boundary data text_len byte_mode start ->
  exists N : nat, forall max_steps steps, 0 <= steps -> steps + Z.of_nat N <= max_steps < 2 ^ 64 - 1 ->
    exists out s, run_at classes data text_len byte_mode max_steps flags (program (comp r)) start n_slots steps = Ok (out, s) /\
      s <= steps + Z.of_nat N /\ out <> Err StepLimitExceeded.
Proof.
  intros Hfit Hp start Hb. pose proof (start_good _ Hb) as Hg.
  assert (Hh : halts classes data text_len byte_mode flags (good data text_len byte_mode n_slots []) (comp (whole r)) meaning).
  { destruct Hfit as [Hs Hw Hc Hl]. by apply comp_halts. }
  destruct (sub_ends _ _ _ _ _ _ _ _ _ Hh Hg) as (n & ans & He).
  destruct (proj1 explore_answers _ _ _ _ _ He) as [N HN]. exists N. intros max_steps steps Hs Hm.
  unfold run_at. rewrite program_code.
  destruct (HN max_steps (steps_fuel max_steps steps) [] steps) as (s & Hs' & Hr).
  { split_and!; [lia|lia|lia|]. unfold steps_fuel. lia. }
  cbv zeta in Hr. cbn [fst snd] in Hr. destruct ans as [f| |].
  - eexists _, s. rewrite Hr. split_and!; [done|lia|done].
  - destruct Hr as (fuel' & _ & Hr). eexists _, s. rewrite Hr. split_and!; [done|lia|done].
  - exfalso. eapply (sub_crashed _ _ _ _ _ _ _ _ _ n _ (whole_safe Hfit (at_start start))); [|exact He].
    by apply reached_refl.
Qed.
End exact.
