(* ===== verification/RegexParser.v ===== *)
(** * Regular expressions: the parser ([lib/re.py])

    [Parser] compiles a pattern in one pass.  Its state is the position, the
    next capture slot, the classes made so far and the group names; the pattern
    is [text_len] bytes of [data].  [parse_alt] is recursive only through
    groups, so the functions of one level take the parser of the level below as
    [alt]; the loops over the text take fuel.  The two messages that end in a
    group name stop before it. *)

From S2P Require Import Prelude RawList Bits Utf8 StrOps RegexProgram RegexMatcher RegexSpec.

Local Open Scope Z_scope.
Local Open Scope monad_scope.

Record PatternError := mkPatternError { pattern_message : string }.

(** A group name is the bytes of its [str]. *)
Record Parser := mkParser {
  pos : nat;
  next_slot : nat;
  classes : list CharClass;
  group_names : list (list Z * nat)
}.

Definition new_parser : Parser := mkParser 0 2 [] [].

Definition parse_err {A} (msg : string) : M Parser abort (result PatternError A) :=
  ret (Err (mkPatternError msg)).

Definition set_pos (p : nat) (s : Parser) : Parser := mkParser p (next_slot s) (classes s) (group_names s).

(** [_substr( source, start, end )] *)
Definition substr (source : list Z) (start stop : nat) : result abort Str :=
  let? piece_len := panic_sub "re._substr: end < start" stop start in
  let? buf := bytes_at source start piece_len in
  let? r := from_owned_cstr (buf ++ [0]) (piece_len + 1) in
  unwrap "re._substr: invalid UTF-8 boundary" r.

Section parser.
Variables (data : list Z) (text_len : nat) (byte_mode : bool).

Definition at_end : M Parser abort bool := fun s => (Ok (text_len <=? pos s)%nat, s).

Definition peek_byte : M Parser abort Z := fun s => (read_ptr data (pos s), s).

Definition advance_byte : M Parser abort unit := modify (fun s => set_pos (pos s + 1) s).

(** [not self._at_end() and self._peek_byte() == b] *)
Definition at_byte (p : Z -> bool) : M Parser abort bool :=
  let* e := at_end in
  if e : bool then ret false else let* c := peek_byte in ret (p c).

Definition decode_cp : M Parser abort Z :=
  let* s := get in
  if byte_mode then
    let* cp := peek_byte in
    modify (set_pos (pos s + 1)) ;;; ret cp
  else
    let* (cp, width) := lift (decode_utf8_at data (pos s)) in
    modify (set_pos (pos s + width)) ;;; ret cp.

(** [_substr( self.data, start, end )], as its bytes. *)
Definition pattern_substr (start stop : nat) : result abort (list Z) :=
  let? piece := substr data start stop in
  Ok (take (byte_len piece) (s_data piece)).

Definition op_result (op : Op) : M Parser abort (result PatternError (list Op)) :=
  ret (Ok (single_op_fragment op)).

Definition append_class (cc : CharClass) : M Parser abort (result PatternError (list Op)) :=
  let* s := get in
  modify (fun s => mkParser (pos s) (next_slot s) (classes s ++ [cc]) (group_names s)) ;;;
  op_result (IN (length (classes s))).

(** ** Numbers *)

Definition is_digit_byte (b : Z) : bool := (48 <=? b) && (b <=? 57).

(** [m = m * 10 + usize( b - 48 )], under [wrap_arithmetic] *)
Definition next_digit (m b : Z) : Z := usize (m * 10 + (b - 48)).

Fixpoint digits_from (fuel : nat) (m : Z) (have : bool) : M Parser abort (Z * bool) :=
  match fuel with
  | O => raise Fault
  | S fuel =>
      let* d := at_byte is_digit_byte in
      if d : bool then
        let* b := peek_byte in
        advance_byte ;;; digits_from fuel (next_digit m b) true
      else ret (m, have)
  end.

Definition loop_fuel (s : Parser) : nat := S (text_len - pos s).

Definition digits : M Parser abort (Z * bool) :=
  let* s := get in digits_from (loop_fuel s) 0 false.

(** Up to [stop]: [while not self._at_end() and self._peek_byte() != stop]. *)
Fixpoint skip_to (fuel : nat) (stop : Z) : M Parser abort unit :=
  match fuel with
  | O => raise Fault
  | S fuel =>
      let* more := at_byte (fun b => negb (b =? stop)) in
      if more : bool then advance_byte ;;; skip_to fuel stop else ret tt
  end.

(** ** Back references *)

Definition backref_fragment (n : Z) : M Parser abort (result PatternError (list Op)) :=
  if n =? 0 then parse_err "re: \0 is not a valid backreference (group numbering starts at 1)"
  else
    let* s := get in
    let* k := lift (panic_sub "re: _backref_fragment: next_slot underflow (unreachable, starts at 2)" (next_slot s) 2) in
    let groups_so_far := (k / 2)%nat in
    if Z.of_nat groups_so_far <? n then parse_err "re: invalid backreference to a group that is not yet defined"
    else op_result (BACKREF (Z.to_nat n)).

Definition parse_numbered_backref : M Parser abort (result PatternError (list Op)) :=
  let* (n, _) := digits in backref_fragment n.

Fixpoint numeric_reference (content : list Z) (n : Z) : result PatternError Z :=
  match content with
  | [] => Ok n
  | b :: content =>
      if negb (is_digit_byte b) then
        Err (mkPatternError "re: \g<...> numeric group reference must be all digits")
      else numeric_reference content (next_digit n b)
  end.

Definition parse_g_backref_numeric (content : list Z) : M Parser abort (result PatternError (list Op)) :=
  match numeric_reference content 0 with
  | Err e => ret (Err e)
  | Ok n => backref_fragment n
  end.

Fixpoint find_name (name : list Z) (names : list (list Z * nat)) : option nat :=
  match names with
  | [] => None
  | (n, g) :: names => if bool_decide (n = name) then Some g else find_name name names
  end.

Definition parse_g_backref : M Parser abort (result PatternError (list Op)) :=
  let* s := get in
  let save_pos := pos s in
  advance_byte ;;;
  let* lt := at_byte (Z.eqb 60) in
  if negb lt then
    modify (set_pos save_pos) ;;;
    let* cp := decode_cp in op_result (CHAR cp)
  else
    advance_byte ;;;
    let* s := get in
    let content_start := pos s in
    skip_to (loop_fuel s) 62 ;;;
    let* e := at_end in
    if e : bool then parse_err "re: unterminated \g<...>"
    else
      let* s := get in
      let* content := lift (pattern_substr content_start (pos s)) in
      advance_byte ;;;
      match content with
      | [] => parse_err "re: \g<...> group reference cannot be empty"
      | b :: _ =>
          if is_digit_byte b then parse_g_backref_numeric content
          else
            let* s := get in
            match find_name content (group_names s) with
            | None => parse_err "re: \g<...> references an undefined group name"
            | Some idx => backref_fragment (Z.of_nat idx)
            end
      end.

(** ** Escapes and classes *)

Definition common_escape_cp (b : Z) : option Z :=
  if b =? 110 then Some 10
  else if b =? 116 then Some 9
  else if b =? 114 then Some 13
  else if b =? 102 then Some 12
  else if b =? 118 then Some 11
  else if b =? 97 then Some 7
  else if b =? 48 then Some 0
  else None.

Definition shorthand_class_for_byte (b : Z) : CharClass :=
  if b =? 100 then digit_class false
  else if b =? 68 then digit_class true
  else if b =? 119 then word_class false
  else if b =? 87 then word_class true
  else if b =? 115 then space_class false
  else space_class true.

Definition parse_escape_atom : M Parser abort (result PatternError (list Op)) :=
  advance_byte ;;;
  let* e := at_end in
  if e : bool then parse_err "re: dangling backslash at end of pattern"
  else
    let* b := peek_byte in
    if (b =? 100) || (b =? 68) || (b =? 119) || (b =? 87) || (b =? 115) || (b =? 83) then
      advance_byte ;;; append_class (shorthand_class_for_byte b)
    else if b =? 98 then advance_byte ;;; op_result WORDB
    else if b =? 66 then advance_byte ;;; op_result NWORDB
    else if (49 <=? b) && (b <=? 57) then parse_numbered_backref
    else if b =? 103 then parse_g_backref
    else
      match common_escape_cp b with
      | Some common => advance_byte ;;; op_result (CHAR common)
      | None => let* cp := decode_cp in op_result (CHAR cp)
      end.

Definition class_member_cp : M Parser abort (result PatternError Z) :=
  let* b := peek_byte in
  if b =? 92 then
    advance_byte ;;;
    let* e := at_end in
    if e : bool then parse_err "re: dangling backslash in character class"
    else
      let* b := peek_byte in
      if b =? 98 then advance_byte ;;; ret (Ok 8)
      else
        match common_escape_cp b with
        | Some common => advance_byte ;;; ret (Ok common)
        | None => let* cp := decode_cp in ret (Ok cp)
        end
  else let* cp := decode_cp in ret (Ok cp).

Definition class_has_range_after : M Parser abort bool :=
  let* s := get in
  let save_pos := pos s in
  advance_byte ;;;
  let* is_range := at_byte (fun b => negb (b =? 93)) in
  modify (set_pos save_pos) ;;; ret is_range.

(** The loop of [_parse_class]; [first] holds until a member has been read. *)
Fixpoint class_members (fuel : nat) (first : bool) (cc : CharClass) :
    M Parser abort (result PatternError CharClass) :=
  match fuel with
  | O => raise Fault
  | S fuel =>
      let* e := at_end in
      if e : bool then parse_err "re: unterminated character class"
      else
        let* b := peek_byte in
        if (b =? 93) && negb first then ret (Ok cc)
        else
          let! lo := class_member_cp in
          let* dash := at_byte (Z.eqb 45) in
          let* range := if dash : bool then class_has_range_after else ret false in
          if range : bool then
            advance_byte ;;;
            let! hi := class_member_cp in
            if hi <? lo then parse_err "re: character class range out of order"
            else class_members fuel false (add_range lo hi cc)
          else class_members fuel false (add_range lo lo cc)
  end.

Definition parse_class : M Parser abort (result PatternError (list Op)) :=
  advance_byte ;;;
  let* caret := at_byte (Z.eqb 94) in
  (if caret : bool then advance_byte else ret tt) ;;;
  let* s := get in
  let! cc := class_members (loop_fuel s) true (mkCharClass [] caret) in
  advance_byte ;;; append_class cc.

(** ** Quantifiers *)

Definition consume_lazy_marker : M Parser abort bool :=
  let* q := at_byte (Z.eqb 63) in
  if q : bool then advance_byte ;;; ret true else ret false.

Definition finish_quantify_range (atom : list Op) (m n : nat) (unbounded : bool) :
    M Parser abort (result PatternError (list Op)) :=
  let* lazy := consume_lazy_marker in
  ret (Ok (if lazy : bool then quantify_range_lazy atom m n unbounded else quantify_range atom m n unbounded)).

Definition parse_brace_quantifier (atom : list Op) : M Parser abort (result PatternError (list Op)) :=
  let* s := get in
  let save_pos := pos s in
  advance_byte ;;;
  let* (m, have_m) := digits in
  if negb have_m then modify (set_pos save_pos) ;;; ret (Ok atom)
  else
    let* close := at_byte (Z.eqb 125) in
    if close : bool then
      advance_byte ;;; finish_quantify_range atom (Z.to_nat m) (Z.to_nat m) false
    else
      let* comma := at_byte (Z.eqb 44) in
      if negb comma then parse_err "re: malformed {m,n} quantifier"
      else
        advance_byte ;;;
        let* close := at_byte (Z.eqb 125) in
        if close : bool then
          advance_byte ;;; finish_quantify_range atom (Z.to_nat m) 0 true
        else
          let* (n, have_n) := digits in
          let* close := at_byte (Z.eqb 125) in
          if negb have_n || negb close then parse_err "re: malformed {m,n} quantifier"
          else
            advance_byte ;;;
            if n <? m then parse_err "re: {m,n} quantifier with n < m"
            else finish_quantify_range atom (Z.to_nat m) (Z.to_nat n) false.

(** ** Groups *)

(** What [(?...] announces. *)
Inductive GroupKind :=
| Capturing (name : list Z)
| NonCapturing
| Lookahead (negate : bool)
| Lookbehind (negate : bool).

(** The part of [_parse_group] up to the body. *)
Definition group_kind : M Parser abort (result PatternError GroupKind) :=
  let* q := at_byte (Z.eqb 63) in
  if negb q then ret (Ok (Capturing []))
  else
    advance_byte ;;;
    let* e := at_end in
    if e : bool then parse_err "re: unexpected end of pattern after (?"
    else
      let* qb := peek_byte in
      if qb =? 58 then advance_byte ;;; ret (Ok NonCapturing)
      else if qb =? 61 then advance_byte ;;; ret (Ok (Lookahead false))
      else if qb =? 33 then advance_byte ;;; ret (Ok (Lookahead true))
      else if qb =? 80 then
        advance_byte ;;;
        let* lt := at_byte (Z.eqb 60) in
        if negb lt then parse_err "re: unsupported group syntax (only (?P<name>...) is recognized after (?P)"
        else
          advance_byte ;;;
          let* s := get in
          let name_start := pos s in
          skip_to (loop_fuel s) 62 ;;;
          let* e := at_end in
          if e : bool then parse_err "re: unterminated (?P<name>...) group name"
          else
            let* s := get in
            let* group_name := lift (pattern_substr name_start (pos s)) in
            match group_name with
            | [] => parse_err "re: empty group name in (?P<...>...)"
            | _ :: _ => advance_byte ;;; ret (Ok (Capturing group_name))
            end
      else if qb =? 60 then
        advance_byte ;;;
        let* e := at_end in
        if e : bool then parse_err "re: unexpected end of pattern after (?<"
        else
          let* lb := peek_byte in
          if lb =? 61 then advance_byte ;;; ret (Ok (Lookbehind false))
          else if lb =? 33 then advance_byte ;;; ret (Ok (Lookbehind true))
          else parse_err "re: unsupported group syntax (only (?<=...)/(?<!...) lookbehind recognized after (?<)"
      else parse_err "re: unsupported group syntax (recognized: (?:...) (?=...) (?!...) (?<=...) (?<!...) (?P<name>...))".

(** The slots of a capturing group, and its name. *)
Definition open_group (name : list Z) : M Parser abort (result PatternError nat) :=
  let* s := get in
  let start_slot := next_slot s in
  modify (fun s => mkParser (pos s) (start_slot + 2) (classes s) (group_names s)) ;;;
  match name with
  | [] => ret (Ok start_slot)
  | _ :: _ =>
      match find_name name (group_names s) with
      | Some _ => parse_err "re: redefinition of group name"
      | None =>
          modify (fun s => mkParser (pos s) (next_slot s) (classes s) (group_names s ++ [(name, (start_slot / 2)%nat)])) ;;;
          ret (Ok start_slot)
      end
  end.

Section level.
Variable alt : M Parser abort (result PatternError (list Op)).

(** The body of a group and its closing parenthesis. *)
Definition group_body : M Parser abort (result PatternError (list Op)) :=
  let! inner := alt in
  let* close := at_byte (Z.eqb 41) in
  if negb close then parse_err "re: unbalanced parenthesis"
  else advance_byte ;;; ret (Ok inner).

Definition parse_group : M Parser abort (result PatternError (list Op)) :=
  advance_byte ;;;
  let! kind := group_kind in
  match kind with
  | Capturing name =>
      let! start_slot := open_group name in
      let! inner := group_body in
      let wrapped := append_fragment [] (single_op_fragment (SAVE start_slot)) in
      let wrapped := append_fragment wrapped inner in
      ret (Ok (append_fragment wrapped (single_op_fragment (SAVE (start_slot + 1)))))
  | NonCapturing => group_body
  | Lookahead negate =>
      let! inner := group_body in
      op_result (LOOKAHEAD negate (sub_program inner))
  | Lookbehind negate =>
      let! inner := group_body in
      let* s := get in
      let* width := lift (fragment_fixed_byte_width inner (classes s) 0) in
      match width with
      | None => parse_err "re: look-behind requires a fixed-width pattern"
      | Some width => op_result (LOOKBEHIND negate width (sub_program inner))
      end
  end.

Definition parse_atom : M Parser abort (result PatternError (list Op)) :=
  let* e := at_end in
  if e : bool then parse_err "re: unexpected end of pattern"
  else
    let* b := peek_byte in
    if b =? 46 then advance_byte ;;; op_result ANY
    else if b =? 94 then advance_byte ;;; op_result BOL
    else if b =? 36 then advance_byte ;;; op_result EOL
    else if b =? 40 then parse_group
    else if b =? 91 then parse_class
    else if b =? 92 then parse_escape_atom
    else if (b =? 41) || (b =? 124) then parse_err "re: unexpected metacharacter"
    else if (b =? 42) || (b =? 43) || (b =? 63) then parse_err "re: nothing to repeat"
    else let* cp := decode_cp in op_result (CHAR cp).

Definition parse_repeat : M Parser abort (result PatternError (list Op)) :=
  let! atom := parse_atom in
  let* e := at_end in
  if e : bool then ret (Ok atom)
  else
    let* b := peek_byte in
    if b =? 42 then
      advance_byte ;;;
      let* lazy := consume_lazy_marker in
      ret (Ok (if lazy : bool then quantify_star_lazy atom else quantify_star atom))
    else if b =? 43 then
      advance_byte ;;;
      let* lazy := consume_lazy_marker in
      ret (Ok (if lazy : bool then quantify_plus_lazy atom else quantify_plus atom))
    else if b =? 63 then
      advance_byte ;;;
      let* lazy := consume_lazy_marker in
      ret (Ok (if lazy : bool then quantify_optional_lazy atom else quantify_optional atom))
    else if b =? 123 then parse_brace_quantifier atom
    else ret (Ok atom).

Fixpoint concat_from (fuel : nat) (out : list Op) : M Parser abort (result PatternError (list Op)) :=
  match fuel with
  | O => raise Fault
  | S fuel =>
      let* more := at_byte (fun b => negb (b =? 124) && negb (b =? 41)) in
      if more : bool then
        let! piece := parse_repeat in
        concat_from fuel (append_fragment out piece)
      else ret (Ok out)
  end.

Definition parse_concat : M Parser abort (result PatternError (list Op)) :=
  let* s := get in concat_from (loop_fuel s) [].

Fixpoint branches_from (fuel : nat) (rest : list (list Op)) :
    M Parser abort (result PatternError (list (list Op))) :=
  match fuel with
  | O => raise Fault
  | S fuel =>
      let* pipe := at_byte (Z.eqb 124) in
      if pipe : bool then
        advance_byte ;;;
        let! nxt := parse_concat in
        branches_from fuel (rest ++ [nxt])
      else ret (Ok rest)
  end.

Definition alt_body : M Parser abort (result PatternError (list Op)) :=
  let! first := parse_concat in
  let* s := get in
  let! rest := branches_from (loop_fuel s) [] in
  ret (Ok (build_alternation first rest)).

End level.

(** [fuel] bounds how deep groups are nested. *)
Fixpoint parse_alt (fuel : nat) : M Parser abort (result PatternError (list Op)) :=
  match fuel with
  | O => raise Fault
  | S fuel => alt_body (parse_alt fuel)
  end.

End parser.
