(* ===== verification/RegexParse.v ===== *)
(** * Regular expressions: every accepted pattern is the program of a tree

    [parse_alt_tree]: on any pattern the parser ends with an error value or with
    the program of some well-formed syntax tree, and it stays inside of the
    pattern.  The only other outcome is the panic on a group name that is not
    UTF-8, in a [bytes] pattern.  [does] is the weakest precondition of the
    parser's monad up to that panic. *)

From S2P Require Import Prelude RawList Bits Utf8 StrOps RegexProgram RegexMatcher RegexSpec RegexExplore RegexCompile RegexSafe RegexParser.

Local Open Scope monad_scope.

(** ** Classes of a program *)

Definition class_below (n : nat) (op : Op) : Prop := match op with IN i => i < n | _ => True end.

Section class_below.
Variable n : nat.
Notation below := (Forall (class_below n)).

Lemma below_append dest f : below dest -> below f -> below (append_fragment dest f).
Proof.
  intros Hd Hf. unfold append_fragment. apply Forall_app. split; [done|]. apply Forall_map.
  eapply Forall_impl; [exact Hf|]. by intros [].
Qed.

Lemma below_patch i op out : class_below n op -> below out -> below (patch i op out).
Proof. intros Hop Ho. unfold patch. by apply Forall_insert. Qed.

Lemma below_times k f out : below f -> below out -> below (append_times k f out).
Proof. intros Hf Ho. induction k as [|k IH]; [done|]. by apply below_append. Qed.

Lemma below_quant q greedy f : below f -> below (comp_quant q greedy f).
Proof.
  intros Hf. assert (Hnil : below []) by constructor.
  assert (Hop : forall op, class_below n op -> below (single_op_fragment op)) by (by repeat constructor).
  assert (Hstar : below (quantify_star f) /\ below (quantify_star_lazy f))
    by (split; repeat (apply below_patch || apply below_append || apply Hop || exact I || done)).
  assert (Hopt : below (quantify_optional f) /\ below (quantify_optional_lazy f))
    by (split; repeat (apply below_patch || apply below_append || apply Hop || exact I || done)).
  destruct Hstar, Hopt. destruct q, greedy; cbn [comp_quant]; try done;
    unfold quantify_plus, quantify_plus_lazy, quantify_range, quantify_range_lazy;
    repeat (apply below_append || apply below_times || done).
Qed.

Lemma comp_classes m r : forall open, wf n m open r -> below (comp r).
Proof.
  assert (Hnil : below []) by constructor.
  assert (Hop : forall op, class_below n op -> below (single_op_fragment op)) by (by repeat constructor).
  induction r as [|op|r1 IH1 r2 IH2|r1 IH1 r2 IH2|q g r IH|g r IH|neg r IH|neg w r IH];
    intros open; cbn [wf comp]; intros H.
  - done.
  - apply Hop. destruct H as [_ H]. by destruct op.
  - destruct H. by apply below_append; eauto.
  - destruct H. unfold alt2. repeat (apply below_patch || apply below_append || apply Hop || exact I || eauto).
  - by apply below_quant; eauto.
  - destruct H as (_ & _ & H). repeat (apply below_append || apply Hop || exact I || eauto).
  - by apply Hop.
  - by apply Hop.
Qed.

End class_below.

(** [_fragment_fixed_byte_width] finds every class. *)
Lemma width_ok classes f : Forall (class_below (length classes)) f ->
  forall total, exists w, fragment_fixed_byte_width f classes total = Ok w.
Proof.
  induction 1 as [|op f Hop Hf IH]; intros total; [by exists (Some total)|].
  destruct op; simpl; try (by apply IH); try (by eexists).
  simpl in Hop. destruct (lookup_lt_is_Some_2 _ _ Hop) as [cls Hcls].
  rewrite (getitem_ok _ _ _ _ Hcls).
  destruct (class_fixed_byte_width cls) as [w|]; [apply IH|by eexists].
Qed.

Section parse.
Variables (data : list Z) (text_len : nat) (byte_mode : bool).
Hypothesis Hsubject : subject data text_len byte_mode.
Hypothesis Hbytes : Forall is_byte (take text_len data).

Notation at_boundary := (at_boundary data text_len byte_mode).
Notation at_end := (at_end text_len).
Notation peek_byte := (peek_byte data).
Notation at_byte := (at_byte data text_len).

(** ** Running the parser *)

(** The panic on a name that is not UTF-8. *)
Definition name_panic : abort := Panic "re._substr: invalid UTF-8 boundary".

Definition does {A} (m : M Parser abort A) (s : Parser) (Q : A -> Parser -> Prop) : Prop :=
  match m s with
  | (Ok a, s') => Q a s'
  | (Err e, _) => byte_mode = true /\ e = name_panic
  end.

(** An error value needs nothing. *)
Definition got {A} (Q : A -> Parser -> Prop) (r : result PatternError A) (s : Parser) : Prop :=
  match r with Ok a => Q a s | Err _ => True end.

Lemma does_bind {A B} (m : M Parser abort A) (k : A -> M Parser abort B) s P Q :
  does m s P -> (forall a s', P a s' -> does (k a) s' Q) -> does (bind m k) s Q.
Proof.
  unfold does, bind. destruct (m s) as [[a|e] s']; [|done]. intros Hm Hk. by apply Hk.
Qed.

Lemma does_or_return {A B} (m : M Parser abort (result PatternError A))
    (k : A -> M Parser abort (result PatternError B)) s P Q :
  does m s (got P) -> (forall a s', P a s' -> does (k a) s' (got Q)) -> does (or_return m k) s (got Q).
Proof.
  intros Hm Hk. unfold or_return. eapply does_bind; [exact Hm|]. intros [a|e] s' H; [by apply Hk|done].
Qed.

Lemma does_mono {A} (m : M Parser abort A) s (P Q : A -> Parser -> Prop) :
  does m s P -> (forall a s', P a s' -> Q a s') -> does m s Q.
Proof. unfold does. destruct (m s) as [[a|e] s']; auto. Qed.

Lemma got_mono {A} (P Q : A -> Parser -> Prop) r s :
  got P r s -> (forall a s', P a s' -> Q a s') -> got Q r s.
Proof. destruct r; simpl; auto. Qed.

Lemma does_ret {A} (a : A) s (Q : A -> Parser -> Prop) : Q a s -> does (ret a) s Q.
Proof. done. Qed.

Lemma does_err {A} msg s (Q : A -> Parser -> Prop) : does (parse_err msg) s (got Q).
Proof. done. Qed.

Lemma does_get {B} (k : Parser -> M Parser abort B) s Q : does (k s) s Q -> does (bind get k) s Q.
Proof. done. Qed.

Lemma does_modify {B} f (k : unit -> M Parser abort B) s Q : does (k tt) (f s) Q -> does (bind (modify f) k) s Q.
Proof. done. Qed.

Lemma does_advance {B} (k : unit -> M Parser abort B) s Q :
  does (k tt) (set_pos (pos s + 1) s) Q -> does (bind advance_byte k) s Q.
Proof. done. Qed.

Lemma does_lift {A B} (r : result abort A) a (k : A -> M Parser abort B) s Q :
  r = Ok a -> does (k a) s Q -> does (bind (lift r) k) s Q.
Proof. by intros ->. Qed.

Lemma does_at_end {B} (k : bool -> M Parser abort B) s Q :
  (text_len <= pos s -> does (k true) s Q) -> (pos s < text_len -> does (k false) s Q) ->
  does (bind at_end k) s Q.
Proof.
  intros H1 H2. unfold does, bind, RegexParser.at_end.
  destruct (Nat.leb_spec text_len (pos s)); [by apply H1|by apply H2].
Qed.

Lemma does_peek {B} (k : Z -> M Parser abort B) s Q :
  pos s < text_len -> (forall b, read_ptr data (pos s) = Ok b -> does (k b) s Q) ->
  does (bind peek_byte k) s Q.
Proof.
  intros Hlt H. destruct (read_below _ _ _ Hsubject _ Hlt) as [b Hb].
  unfold does, bind, RegexParser.peek_byte. rewrite Hb. by apply H.
Qed.

Lemma does_at_byte {B} p (k : bool -> M Parser abort B) s Q :
  (forall b, pos s < text_len -> read_ptr data (pos s) = Ok b -> p b = true -> does (k true) s Q) ->
  does (k false) s Q ->
  does (bind (at_byte p) k) s Q.
Proof.
  intros H1 H2. unfold RegexParser.at_byte.
  assert (He : bind (bind at_end (fun e : bool => if e then ret false else bind peek_byte (fun c => ret (p c)))) k s =
    bind at_end (fun e : bool => if e then k false else bind peek_byte (fun c => k (p c))) s).
  { unfold bind, RegexParser.at_end. destruct (_ <=? _); [done|]. unfold RegexParser.peek_byte.
    by destruct (read_ptr _ _). }
  unfold does. rewrite He. change (does (bind at_end (fun e : bool => if e then k false else bind peek_byte (fun c => k (p c)))) s Q).
  apply does_at_end; [done|]. intros Hlt. apply does_peek; [done|]. intros b Hb.
  destruct (p b) eqn:Hp; [by eapply H1|done].
Qed.

(** ** Positions *)

Lemma byte_at p b : p < text_len -> read_ptr data p = Ok b -> is_byte b.
Proof.
  intros Hp Hr. unfold read_ptr in Hr. destruct (data !! p) as [x|] eqn:Hx; [|done]. injection Hr as <-.
  eapply (Forall_lookup_1 _ _ p); [exact Hbytes|]. by rewrite lookup_take_lt.
Qed.

(** An ASCII byte is a code point. *)
Lemma boundary_ascii_next p b :
  at_boundary p -> p < text_len -> read_ptr data p = Ok b -> (b < 128)%Z -> at_boundary (p + 1).
Proof.
  intros Hb Hp Hr Hlt. destruct (codepoint_ok _ _ _ Hsubject _ Hb Hp) as (cp & w & _ & Hw & _ & Hb').
  unfold codepoint_width_at in Hw. destruct byte_mode; [by injection Hw as <-|].
  unfold decode_utf8_at in Hw. rewrite Hr in Hw. cbn [result_bind] in Hw.
  rewrite (lead_ascii b (byte_at _ _ Hp Hr)), (proj2 (Z.ltb_lt _ _) Hlt) in Hw. by injection Hw as <-.
Qed.

Lemma boundary_ascii_at p b : p < text_len -> read_ptr data p = Ok b -> (b < 128)%Z -> at_boundary p.
Proof.
  intros Hp Hr Hlt. split; [lia|]. intros Hm.
  destruct Hsubject as [?|cps _ Ht Hd Hl]; [congruence|].
  unfold read_ptr in Hr. destruct (data !! p) as [x|] eqn:Hx; [|done]. injection Hr as <-.
  rewrite Hd, lookup_app_l in Hx by lia.
  destruct (StrOps.boundary cps (take p (utf8 cps)) (drop p (utf8 cps)) Ht) as (q & q' & -> & Hq & _).
  - by rewrite take_drop.
  - intros y Hy. rewrite head_lookup, lookup_drop, Nat.add_0_r in Hy.
    rewrite Hx in Hy. injection Hy as <-. unfold continuation. lia.
  - exists q, q'. split_and!; [done|done|done|]. rewrite <- Hq, length_take. lia.
Qed.

Lemma boundary_end : at_boundary text_len.
Proof.
  split; [done|]. intros Hm. destruct Hsubject as [?|cps _ Ht Hd Hl]; [congruence|].
  exists cps, []. rewrite app_nil_r. done.
Qed.

(** ** The parser's invariant *)

Record pinv (s : Parser) : Prop := {
  pi_pos : at_boundary (pos s);
  pi_slots : exists k, next_slot s = 2 * k /\ 1 <= k /\ Forall (fun p => 1 <= p.2 < k) (group_names s)
}.

(** [s'] is later than [s]. *)
Definition ext (s s' : Parser) : Prop :=
  pinv s' /\ pos s <= pos s' /\ next_slot s <= next_slot s' /\ classes s `prefix_of` classes s'.

Lemma ext_refl s : pinv s -> ext s s.
Proof. intros Hs. split_and!; [done|done|done|done]. Qed.

Lemma ext_trans s1 s2 s3 : ext s1 s2 -> ext s2 s3 -> ext s1 s3.
Proof. intros (_ & ? & ? & ?) (? & ? & ? & ?). split_and!; [done|lia|lia|by etrans]. Qed.

Lemma pinv_pos_le s : pinv s -> pos s <= text_len.
Proof. intros [Hb _]. by apply (boundary_le _ _ _ _ Hb). Qed.

Lemma set_pos_ext p s : pinv s -> at_boundary p -> pos s <= p -> ext s (set_pos p s).
Proof. intros [_ Hk] Hb Hp. by split_and!. Qed.

Lemma advance_ext s b :
  pinv s -> pos s < text_len -> read_ptr data (pos s) = Ok b -> (b < 128)%Z ->
  ext s (set_pos (pos s + 1) s).
Proof.
  intros Hs Hlt Hr Hb. apply set_pos_ext; [done| |lia]. by eapply boundary_ascii_next; [apply Hs|..].
Qed.

Lemma does_decode s :
  pinv s -> pos s < text_len ->
  does (decode_cp data byte_mode) s (fun _ s' => ext s s' /\ pos s < pos s').
Proof.
  intros Hs Hlt. destruct (codepoint_ok _ _ _ Hsubject _ (pi_pos _ Hs) Hlt) as (cp & w & Hc & Hw & Hpos & Hb).
  assert (He : ext s (set_pos (pos s + w) s) /\ pos s < pos s + w)
    by (split; [apply set_pos_ext; [done|done|lia]|lia]).
  pose proof (read_below _ _ _ Hsubject _ Hlt) as [b Hr].
  unfold decode_cp. apply does_get. unfold codepoint_at in Hc. unfold codepoint_width_at in Hw.
  unfold does, bind, RegexParser.peek_byte, lift, modify. destruct byte_mode.
  - rewrite Hr. by injection Hw as <-.
  - destruct (decode_utf8_at data (pos s)) as [[cp' w']|]; [|done]. by injection Hw as ->.
Qed.

(** *** Numbers and names *)

Lemma next_digit_nonneg m b : (0 <= next_digit m b)%Z.
Proof. apply Z.mod_pos_bound. done. Qed.

Lemma does_digits_from fuel : forall m have s,
  pinv s -> text_len - pos s < fuel -> (0 <= m)%Z ->
  does (digits_from data text_len fuel m have) s (fun r s' => ext s s' /\ (0 <= r.1)%Z).
Proof.
  induction fuel as [|fuel IH]; intros m have s Hs Hf Hm; [lia|]. simpl.
  apply does_at_byte; [|by split; [apply ext_refl|]].
  intros b Hlt Hr Hd. apply does_peek; [done|]. intros b' Hr'.
  apply does_advance. unfold is_digit_byte in Hd. apply andb_prop in Hd as [_ Hd%Z.leb_le].
  assert (He : ext s (set_pos (pos s + 1) s)) by (apply (advance_ext _ b Hs Hlt Hr); lia).
  eapply does_mono; [apply IH; [apply He|simpl; lia|apply next_digit_nonneg]|].
  intros r s' [He' Hr2]. split; [by eapply ext_trans|done].
Qed.

Lemma does_digits s : pinv s -> does (digits data text_len) s (fun r s' => ext s s' /\ (0 <= r.1)%Z).
Proof. intros Hs. unfold digits. apply does_get. apply does_digits_from; [done|unfold loop_fuel; lia|done]. Qed.

Lemma does_skip_to fuel stop : forall s,
  text_len - pos s < fuel -> pos s <= text_len ->
  does (skip_to data text_len fuel stop) s (fun _ s' =>
    s' = set_pos (pos s') s /\ pos s <= pos s' <= text_len /\
    (pos s' < text_len -> read_ptr data (pos s') = Ok stop)).
Proof.
  induction fuel as [|fuel IH]; intros s Hf Hle; [lia|]. simpl. unfold RegexParser.at_byte.
  assert (Hb : forall (k : bool -> M Parser abort unit) Q,
    (text_len <= pos s -> does (k false) s Q) ->
    (forall b, pos s < text_len -> read_ptr data (pos s) = Ok b -> does (k (negb (b =? stop)%Z)) s Q) ->
    does (bind (bind at_end (fun e : bool => if e then ret false else bind peek_byte (fun c => ret (negb (c =? stop)%Z)))) k) s Q).
  { intros k Q H1 H2. unfold does, bind, RegexParser.at_end.
    destruct (Nat.leb_spec text_len (pos s)) as [Hge|Hlt]; [by apply H1|].
    destruct (read_below _ _ _ Hsubject _ Hlt) as [b Hb]. unfold RegexParser.peek_byte. rewrite Hb. by apply H2. }
  apply Hb.
  - intros Hge. apply does_ret. split_and!; [by destruct s|done|lia|lia].
  - intros b Hlt Hr. destruct (Z.eqb_spec b stop) as [->|Hne]; simpl.
    + apply does_ret. split_and!; [by destruct s|done|lia|done].
    + apply does_advance. eapply does_mono; [apply IH; simpl; lia|].
      intros _ s' (Hs' & Hp & Hst). simpl in Hp. split_and!; [by rewrite Hs'|lia|lia|done].
Qed.

(** The bytes between two boundaries are a string, or are not text. *)
Lemma substr_cases a b :
  at_boundary a -> at_boundary b -> a <= b ->
  (exists piece, substr data a b = Ok piece) \/ (byte_mode = true /\ substr data a b = Err name_panic).
Proof.
  intros Ha Hb Hle. unfold substr. rewrite panic_sub_ok by done. cbn [result_bind].
  pose proof (text_len_data _ _ _ Hsubject) as Hld. pose proof (boundary_le _ _ _ _ Hb) as Hbl.
  unfold bytes_at. rewrite (proj2 (Nat.leb_le _ _)) by lia. cbn [result_bind].
  set (piece := take (b - a) (drop a data)).
  assert (Hlen : length piece = b - a).
  { unfold piece. rewrite length_take, length_drop. lia. }
  assert (Hpb : Forall is_byte piece).
  { unfold piece. apply Forall_forall. intros x Hx. apply list_elem_of_lookup in Hx as [i Hi].
    apply lookup_take_Some in Hi as [Hi Hlt]. rewrite lookup_drop in Hi.
    eapply (Forall_lookup_1 _ _ (a + i)); [exact Hbytes|]. rewrite lookup_take_lt by lia. done. }
  replace (b - a + 1) with (S (length piece)) by lia.
  destruct (utf8_dec piece Hpb) as [(cps & Ht & E)|Hno].
  - destruct (from_owned_cstr_valid cps Ht) as (str & Hs & _). rewrite <- E in Hs. rewrite Hs. left. by exists str.
  - destruct (from_owned_cstr_invalid piece Hpb Hno) as [e He]. rewrite He. right. split; [|done].
    destruct byte_mode eqn:Hm; [done|]. exfalso.
    destruct (text_between data text_len false _ _ eq_refl Ha Hb Hle) as (p & m & q & Ht & Hd & _ & -> & ->).
    apply (Hno m); [|unfold piece].
    + apply Forall_app in Ht as [_ Ht]. by apply Forall_app in Ht as [? _].
    + replace (length (utf8 p) + length (utf8 m) - length (utf8 p)) with (length (utf8 m)) by lia.
      by apply between_bytes with (q := q).
Qed.

Lemma does_substr {B} a b (k : list Z -> M Parser abort B) s Q :
  at_boundary a -> at_boundary b -> a <= b -> (forall piece, does (k piece) s Q) ->
  does (bind (lift (pattern_substr data a b)) k) s Q.
Proof.
  intros Ha Hb Hle Hk. unfold does, bind, lift, pattern_substr.
  destruct (substr_cases a b Ha Hb Hle) as [[piece ->]|[Hm ->]]; [|done]. apply Hk.
Qed.

(** *** Trees *)

(** The tree [r] was read between [s] and [s'], outside of the groups opened
    before [s]. *)
Definition tree (s s' : Parser) (r : Re) : Prop :=
  forall open, (forall g, g ∈ open -> 2 * g < next_slot s) ->
    wf (length (classes s')) (next_slot s') open r.

(** The fragment [f] is the program of such a tree. *)
Definition parsed (s : Parser) (f : list Op) (s' : Parser) : Prop :=
  ext s s' /\ exists r, f = comp r /\ tree s s' r.

Lemma wf_mono n m n' m' r : n <= n' -> m <= m' -> forall open, wf n m open r -> wf n' m' open r.
Proof.
  intros Hn Hm. induction r as [|op|r1 IH1 r2 IH2|r1 IH1 r2 IH2|q g r IH|g r IH|neg r IH|neg w r IH];
    intros open; simpl; auto.
  - intros [Ht Hop]. split; [done|]. destruct op; try done; lia.
  - intros [? ?]. auto.
  - intros [? ?]. auto.
  - intros (? & ? & ?). split_and!; [done|lia|auto].
Qed.

Lemma tree_ext s0 s s' s'' r : next_slot s0 <= next_slot s -> ext s' s'' -> tree s s' r -> tree s0 s'' r.
Proof.
  intros H0 (_ & _ & Hn & Hp) Ht open Ho. eapply wf_mono; [by apply prefix_length|exact Hn|].
  apply Ht. intros g Hg. specialize (Ho _ Hg). lia.
Qed.

Lemma parsed_op s op s' :
  ext s s' -> is_test op = true ->
  match op with
  | IN i => i < length (classes s')
  | BACKREF g => 0 < g /\ 2 * g + 1 < next_slot s'
  | _ => True
  end -> parsed s (single_op_fragment op) s'.
Proof. intros He Ht Hop. split; [done|]. exists (RTest op). split; [done|]. intros open Ho. by split. Qed.


(** A fragment that is not empty in the pattern. *)
Definition read (s : Parser) (f : list Op) (s' : Parser) : Prop := parsed s f s' /\ pos s < pos s'.

Lemma parsed_from s0 s f s' : ext s0 s -> parsed s f s' -> parsed s0 f s'.
Proof.
  intros He (He' & r & -> & Ht). split; [by eapply ext_trans|]. exists r. split; [done|].
  eapply tree_ext; [apply He|by apply ext_refl, He'|done].
Qed.

Lemma read_from s0 s f s' : ext s0 s -> read s f s' -> read s0 f s'.
Proof.
  intros He [Hp Hlt]. split; [by eapply parsed_from|]. destruct He as (_ & ? & _). lia.
Qed.

(** ** The functions of the parser *)

Lemma does_step {B} b (k : unit -> M Parser abort B) s Q :
  pinv s -> pos s < text_len -> read_ptr data (pos s) = Ok b -> (b < 128)%Z ->
  (ext s (set_pos (pos s + 1) s) -> does (k tt) (set_pos (pos s + 1) s) Q) ->
  does (bind advance_byte k) s Q.
Proof. intros Hs Hlt Hr Hb Hk. apply does_advance, Hk. by eapply advance_ext. Qed.

Lemma does_op op s0 s :
  ext s0 s -> pos s0 < pos s -> is_test op = true ->
  match op with
  | IN i => i < length (classes s)
  | BACKREF g => 0 < g /\ 2 * g + 1 < next_slot s
  | _ => True
  end -> does (op_result op) s (got (read s0)).
Proof. intros He Hlt Ht Hop. apply does_ret. split; [by apply parsed_op|done]. Qed.

Lemma does_append_class cc s0 s : ext s0 s -> pos s0 < pos s -> does (append_class cc) s (got (read s0)).
Proof.
  intros He Hlt. unfold append_class. apply does_get, does_modify. apply does_op; [|done|done|].
  - eapply ext_trans; [exact He|]. destruct He as ([Hp Hk] & _). split_and!; [by split|done|done|].
    by exists [cc].
  - simpl. rewrite length_app. simpl. lia.
Qed.

Lemma does_decoded {B} s0 s (k : Z -> M Parser abort B) Q :
  ext s0 s -> pos s < text_len -> (forall cp s', ext s0 s' -> pos s < pos s' -> does (k cp) s' Q) ->
  does (bind (decode_cp data byte_mode) k) s Q.
Proof.
  intros He Hlt Hk. eapply does_bind; [apply does_decode; [apply He|done]|].
  intros cp s' [He' Hlt']. apply Hk; [by eapply ext_trans|done].
Qed.

(** *** Back references *)

Lemma does_backref n s0 s :
  (0 <= n)%Z -> ext s0 s -> pos s0 < pos s -> does (backref_fragment n) s (got (read s0)).
Proof.
  intros Hn He Hlt. unfold backref_fragment. destruct (Z.eqb_spec n 0) as [|Hn0]; [by apply does_err|].
  apply does_get. destruct He as ([Hp (k & Hk & Hk1 & Hnames)] & He').
  eapply does_lift; [apply panic_sub_ok; lia|].
  replace ((next_slot s - 2) / 2) with (k - 1) by (rewrite Hk; replace (2 * k - 2) with ((k - 1) * 2) by lia; by rewrite Nat.div_mul).
  destruct (Z.ltb_spec (Z.of_nat (k - 1)) n) as [|Hle]; [by apply does_err|].
  apply does_op; [|done|done|lia]. split; [|done]. split; [done|by exists k].
Qed.

Lemma does_numbered_backref s0 s :
  ext s0 s -> pos s0 < pos s -> does (parse_numbered_backref data text_len) s (got (read s0)).
Proof.
  intros He Hlt. unfold parse_numbered_backref. eapply does_bind; [apply does_digits, He|].
  intros [n have] s' [He' Hn]. apply does_backref; [done|by eapply ext_trans|]. destruct He' as (_ & ? & _). lia.
Qed.

Lemma numeric_reference_nonneg content : forall n m,
  (0 <= n)%Z -> numeric_reference content n = Ok m -> (0 <= m)%Z.
Proof.
  induction content as [|b content IH]; intros n m Hn; simpl; [by intros [= <-]|].
  destruct (negb _); [done|]. apply IH, next_digit_nonneg.
Qed.

Lemma does_g_backref_numeric content s0 s :
  ext s0 s -> pos s0 < pos s -> does (parse_g_backref_numeric content) s (got (read s0)).
Proof.
  intros He Hlt. unfold parse_g_backref_numeric.
  destruct (numeric_reference content 0) as [n|e] eqn:Hn; [|done].
  apply does_backref; [by eapply numeric_reference_nonneg in Hn|done|done].
Qed.

(** The bytes up to [stop], which is ASCII. *)
Lemma does_name {B} stop s0 (k : unit -> M Parser abort B) s Q :
  ext s0 s -> (0 <= stop < 128)%Z ->
  (forall s', ext s0 s' -> pos s <= pos s' -> (pos s' < text_len -> read_ptr data (pos s') = Ok stop) -> does (k tt) s' Q) ->
  does (bind (skip_to data text_len (loop_fuel text_len s) stop) k) s Q.
Proof.
  intros He Hstop Hk. pose proof (pinv_pos_le _ (proj1 He)) as Hle.
  eapply does_bind; [apply does_skip_to; [unfold loop_fuel; lia|done]|].
  intros [] s' (Hs' & Hp & Hr). apply Hk; [|lia|done].
  eapply ext_trans; [exact He|]. rewrite Hs'. apply set_pos_ext; [apply He| |lia].
  destruct (decide (pos s' = text_len)) as [->|Hne]; [apply boundary_end|].
  eapply boundary_ascii_at; [|apply Hr|]; lia.
Qed.


Lemma is_digit_ascii b : is_digit_byte b = true -> (b < 128)%Z.
Proof. unfold is_digit_byte. intros [_ H%Z.leb_le]%andb_prop. lia. Qed.

Lemma does_g_backref s :
  pinv s -> pos s < text_len -> read_ptr data (pos s) = Ok 103%Z ->
  does (parse_g_backref data text_len byte_mode) s (got (read s)).
Proof.
  intros Hs Hlt Hr. unfold parse_g_backref. apply does_get.
  eapply does_step; [done|done|exact Hr|done|]. intros He1.
  apply does_at_byte.
  - intros b Hlt1 Hr1 <-%Z.eqb_eq. eapply does_step; [apply He1|done|exact Hr1|done|]. intros He2.
    apply does_get. eapply (does_name _ s); [exact (ext_trans _ _ _ He1 He2)|done|].
    intros s3 He3 Hp3 Hr3. simpl in Hp3. apply does_at_end; [intros; by apply does_err|].
    intros Hlt3. apply does_get. apply does_substr; [apply He2|apply He3|simpl; lia|].
    intros content. eapply does_step; [apply He3|done|by apply Hr3|done|]. intros He4.
    pose proof (ext_trans _ _ _ He3 He4) as He. destruct content as [|c content]; [by apply does_err|].
    destruct (is_digit_byte c); [apply does_g_backref_numeric; [done|simpl; lia]|].
    apply does_get. destruct (find_name _ _); [|by apply does_err].
    apply does_backref; [lia|done|simpl; lia].
  - apply does_modify. replace (set_pos (pos s) (set_pos (pos s + 1) s)) with s by (by destruct s).
    eapply does_decoded; [by apply ext_refl|done|]. intros cp s' He Hlt'. by apply does_op.
Qed.

(** *** Escapes and classes *)

Lemma does_escape_atom s :
  pinv s -> pos s < text_len -> read_ptr data (pos s) = Ok 92%Z ->
  does (parse_escape_atom data text_len byte_mode) s (got (read s)).
Proof.
  intros Hs Hlt Hr. unfold parse_escape_atom.
  eapply does_step; [done|done|exact Hr|done|]. intros He1.
  apply does_at_end; [intros; by apply does_err|]. intros Hlt1.
  apply does_peek; [done|]. intros b Hb.
  assert (Hnext : forall (k : unit -> M Parser abort (result PatternError (list Op))), (b < 128)%Z ->
    (ext s (set_pos (pos s + 1 + 1) s) -> does (k tt) (set_pos (pos s + 1 + 1) s) (got (read s))) ->
    does (bind advance_byte k) (set_pos (pos s + 1) s) (got (read s))).
  { intros k Hlt2 Hk. eapply does_step; [apply He1|done|exact Hb|done|]. intros He2.
    by apply Hk, (ext_trans _ _ _ He1 He2). }
  destruct (_ || _) eqn:Hc.
  { apply Hnext; [lia|]. intros He2. apply does_append_class; [done|simpl; lia]. }
  destruct (Z.eqb_spec b 98) as [->|_]; [apply Hnext; [done|]; intros He2; apply does_op; [done|simpl; lia|done|done]|].
  destruct (Z.eqb_spec b 66) as [->|_]; [apply Hnext; [done|]; intros He2; apply does_op; [done|simpl; lia|done|done]|].
  destruct (_ && _) eqn:Hd; [apply does_numbered_backref; [done|simpl; lia]|].
  destruct (Z.eqb_spec b 103) as [->|_].
  { eapply does_mono; [by apply does_g_backref; [apply He1|..]|]. intros [f|] s'; simpl; [|done].
    by apply read_from. }
  destruct (common_escape_cp b) as [common|] eqn:Hcommon.
  - apply Hnext; [|intros He2; apply does_op; [done|simpl; lia|done|done]].
    unfold common_escape_cp in Hcommon. repeat (case_match; [lia|]). done.
  - eapply does_decoded; [exact He1|done|]. intros cp s' He' Hlt'. apply does_op; [done|simpl in Hlt'; lia|done|done].
Qed.

Definition moved {A} (s : Parser) (_ : A) (s' : Parser) : Prop := ext s s' /\ pos s < pos s'.

Lemma common_escape_ascii b common : common_escape_cp b = Some common -> (b < 128)%Z.
Proof. unfold common_escape_cp. intros H. repeat (case_match; [lia|]). done. Qed.

Lemma does_class_member s :
  pinv s -> pos s < text_len -> does (class_member_cp data text_len byte_mode) s (got (moved s)).
Proof.
  intros Hs Hlt. unfold class_member_cp. apply does_peek; [done|]. intros b Hb.
  destruct (Z.eqb_spec b 92) as [->|_].
  - eapply does_step; [done|done|exact Hb|done|]. intros He1.
    apply does_at_end; [intros; by apply does_err|]. intros Hlt1.
    apply does_peek; [done|]. intros b' Hb'.
    destruct (Z.eqb_spec b' 98) as [->|_].
    { eapply does_step; [apply He1|done|exact Hb'|done|]. intros He2. apply does_ret.
      split; [by eapply ext_trans|simpl; lia]. }
    destruct (common_escape_cp b') as [common|] eqn:Hc.
    { eapply does_step; [apply He1|done|exact Hb'|by eapply common_escape_ascii|]. intros He2. apply does_ret.
      split; [by eapply ext_trans|simpl; lia]. }
    eapply does_decoded; [exact He1|done|]. intros cp s' He' Hlt'. apply does_ret. simpl in Hlt'. split; [done|lia].
  - eapply does_decoded; [by apply ext_refl|done|]. intros cp s' He' Hlt'. apply does_ret. by split.
Qed.

Lemma does_class_range {B} s (k : bool -> M Parser abort B) Q :
  pos s < text_len -> (forall r : bool, (r = true -> pos s + 1 < text_len) -> does (k r) s Q) ->
  does (bind (class_has_range_after data text_len) k) s Q.
Proof.
  intros Hlt Hk. unfold class_has_range_after.
  eapply (does_bind _ _ _ (fun r s' => s' = s /\ (r = true -> pos s + 1 < text_len))); [|by intros r s' [-> H]; apply Hk].
  apply does_get, does_advance.
  assert (Es : set_pos (pos s) (set_pos (pos s + 1) s) = s) by (by destruct s).
  apply does_at_byte.
  - intros b Hlt1 _ _. apply does_modify, does_ret. by rewrite Es.
  - apply does_modify, does_ret. by rewrite Es.
Qed.

Lemma does_class_members fuel : forall first cc s,
  pinv s -> text_len - pos s < fuel ->
  does (class_members data text_len byte_mode fuel first cc) s
    (got (fun _ s' => ext s s' /\ pos s' < text_len /\ read_ptr data (pos s') = Ok 93%Z)).
Proof.
  induction fuel as [|fuel IH]; intros first cc s Hs Hf; [lia|]. simpl.
  apply does_at_end; [intros; by apply does_err|]. intros Hlt.
  apply does_peek; [done|]. intros b Hb.
  destruct ((b =? 93)%Z && negb first) eqn:Hc.
  { apply does_ret. apply andb_prop in Hc as [->%Z.eqb_eq _]. split_and!; [by apply ext_refl|done|done]. }
  eapply does_or_return; [by apply does_class_member|]. intros lo s1 [He1 Hlt1].
  assert (Hloop : forall cc s', ext s1 s' ->
    does (class_members data text_len byte_mode fuel false cc) s'
      (got (fun _ s' => ext s s' /\ pos s' < text_len /\ read_ptr data (pos s') = Ok 93%Z))).
  { intros cc' s' He'. pose proof (ext_trans _ _ _ He1 He') as He. destruct He' as (Hs' & Hp & _).
    eapply does_mono; [apply IH; [done|lia]|]. intros [a|] s''; [|done].
    intros (? & ? & ?). split_and!; [by eapply ext_trans|done|done]. }
  assert (Hs1 : pinv s1) by apply He1.
  apply does_at_byte.
  - intros b1 Hlt2 Hb1 <-%Z.eqb_eq. apply does_class_range; [done|]. intros [] Hr; [|by apply Hloop, ext_refl].
    eapply does_step; [done|done|exact Hb1|done|]. intros He2.
    eapply does_or_return; [apply does_class_member; [apply He2|by apply Hr]|]. intros hi s2 [He3 _].
    destruct (_ <? _)%Z; [by apply does_err|]. apply Hloop. by eapply ext_trans.
  - change (does (class_members data text_len byte_mode fuel false (add_range lo lo cc)) s1
      (got (fun _ s' => ext s s' /\ pos s' < text_len /\ read_ptr data (pos s') = Ok 93%Z))).
    by apply Hloop, ext_refl.
Qed.

Lemma does_class s :
  pinv s -> pos s < text_len -> read_ptr data (pos s) = Ok 91%Z ->
  does (parse_class data text_len byte_mode) s (got (read s)).
Proof.
  intros Hs Hlt Hr. unfold parse_class.
  eapply does_step; [done|done|exact Hr|done|]. intros He1.
  assert (Hrest : forall s1 (caret : bool), ext (set_pos (pos s + 1) s) s1 ->
    does (let* s2 := get in
          let! cc := class_members data text_len byte_mode (loop_fuel text_len s2) true (mkCharClass [] caret) in
          advance_byte ;;; append_class cc) s1 (got (read s))).
  { intros s1 caret He2. apply does_get.
    eapply does_or_return; [apply does_class_members; [apply He2|unfold loop_fuel; lia]|].
    intros cc s2 (He3 & Hlt2 & Hb2). eapply does_step; [apply He3|done|exact Hb2|done|]. intros He4.
    pose proof (ext_trans _ _ _ (ext_trans _ _ _ He1 He2) (ext_trans _ _ _ He3 He4)) as He.
    apply does_append_class; [done|]. destruct He2 as (_ & Hp2 & _), He3 as (_ & Hp3 & _). simpl in *. lia. }
  apply does_at_byte.
  - intros b Hlt1 Hb <-%Z.eqb_eq. eapply does_step; [apply He1|done|exact Hb|done|]. intros He2. by apply Hrest.
  - apply (Hrest _ false). by apply ext_refl, He1.
Qed.

(** *** Quantifiers *)

Lemma parsed_later s f s' s'' : parsed s f s' -> ext s' s'' -> parsed s f s''.
Proof.
  intros (He & r & -> & Ht) He'. split; [by eapply ext_trans|]. exists r. split; [done|].
  by eapply tree_ext; [reflexivity|..].
Qed.

Lemma read_later s f s' s'' : read s f s' -> ext s' s'' -> read s f s''.
Proof.
  intros [Hp Hlt] He. split; [by eapply parsed_later|]. destruct He as (_ & ? & _). lia.
Qed.

Lemma read_quant q greedy s f s' : read s f s' -> read s (comp_quant q greedy f) s'.
Proof. intros [(He & r & -> & Ht) Hlt]. split; [|done]. split; [done|]. by exists (RQuant q greedy r). Qed.

Lemma does_lazy {B} s0 s (k : bool -> M Parser abort B) Q :
  ext s0 s -> (forall lazy s', ext s0 s' -> ext s s' -> does (k lazy) s' Q) ->
  does (bind (consume_lazy_marker data text_len) k) s Q.
Proof.
  intros He Hk. eapply (does_bind _ _ _ (fun _ s' => ext s s')); [|intros l s' He'; apply Hk; [by eapply ext_trans|done]].
  unfold consume_lazy_marker. apply does_at_byte; [|by apply does_ret, ext_refl, He].
  intros b Hlt Hb <-%Z.eqb_eq. eapply does_step; [apply He|done|exact Hb|done|]. done.
Qed.

Lemma does_finish_range atom m n (unbounded : bool) s0 s :
  read s0 atom s -> (unbounded = true -> n = 0) ->
  does (finish_quantify_range data text_len atom m n unbounded) s (got (read s0)).
Proof.
  intros Hr Hn. unfold finish_quantify_range. assert (Hs : pinv s) by apply Hr.
  eapply does_lazy; [by apply ext_refl|]. intros lazy s' He _. apply does_ret.
  pose proof (read_later _ _ _ _ Hr He) as Hr'. destruct unbounded.
  - rewrite Hn by done. destruct lazy;
      [by apply (read_quant (QAtLeast m) false)|by apply (read_quant (QAtLeast m) true)].
  - destruct lazy; [by apply (read_quant (QRange m n) false)|by apply (read_quant (QRange m n) true)].
Qed.

Lemma does_brace_quantifier atom s0 s :
  read s0 atom s -> pos s < text_len -> read_ptr data (pos s) = Ok 123%Z ->
  does (parse_brace_quantifier data text_len atom) s (got (read s0)).
Proof.
  intros Hr Hlt Hb. unfold parse_brace_quantifier. assert (Hs : pinv s) by apply Hr.
  apply does_get. eapply does_step; [done|done|exact Hb|done|]. intros He1.
  eapply does_bind; [apply does_digits, He1|]. intros [m have_m] s1 [He2 _].
  pose proof (ext_trans _ _ _ He1 He2) as He. destruct have_m; simpl negb; cbv iota.
  - assert (Hclose : forall m n unbounded s2, ext s s2 -> (unbounded = true -> n = 0) -> pos s2 < text_len ->
      read_ptr data (pos s2) = Ok 125%Z ->
      does (advance_byte ;;; finish_quantify_range data text_len atom m n unbounded) s2 (got (read s0))).
    { intros m' n' unbounded s2 He3 Hn Hlt2 Hb2. eapply does_step; [apply He3|done|exact Hb2|done|]. intros He4.
      apply does_finish_range; [|done]. eapply read_later; [exact Hr|by eapply ext_trans]. }
    apply does_at_byte; [intros b Hlt1 Hb1 <-%Z.eqb_eq; by apply Hclose|].
    apply does_at_byte; [|by apply does_err].
    intros b Hlt1 Hb1 <-%Z.eqb_eq. eapply does_step; [apply He|done|exact Hb1|done|]. intros He3.
    pose proof (ext_trans _ _ _ He He3) as He'.
    apply does_at_byte; [intros b Hlt2 Hb2 <-%Z.eqb_eq; by apply Hclose|].
    eapply does_bind; [apply does_digits, He'|]. intros [n have_n] s2 [He4 _].
    apply does_at_byte; [|by rewrite orb_true_r; apply does_err].
    intros b Hlt2 Hb2 <-%Z.eqb_eq. destruct have_n; [|by apply does_err]. simpl.
    eapply does_step; [apply He4|done|exact Hb2|done|]. intros He5.
    destruct (_ <? _)%Z; [by apply does_err|]. apply does_finish_range; [|done].
    eapply read_later; [exact Hr|]. by eapply ext_trans; [exact He'|eapply ext_trans].
  - apply does_modify, does_ret. eapply read_later; [exact Hr|].
    destruct He as ([Hp Hk] & Hpos & Hn & Hc). split_and!; [|done|done|done]. split; [apply Hs|done].
Qed.

(** *** Groups *)

Lemma does_group_kind s :
  pinv s -> does (group_kind data text_len) s (got (fun _ s' => ext s s')).
Proof.
  intros Hs. unfold group_kind.
  apply does_at_byte; [|by apply does_ret, ext_refl].
  intros b Hlt Hb <-%Z.eqb_eq. eapply does_step; [done|done|exact Hb|done|]. intros He1.
  apply does_at_end; [intros; by apply does_err|]. intros Hlt1. apply does_peek; [done|]. intros qb Hqb.
  assert (Hkind : forall c s1 (kind : GroupKind), ext s s1 -> pos s1 < text_len -> read_ptr data (pos s1) = Ok c -> (c < 128)%Z ->
    does (advance_byte ;;; ret (Ok kind)) s1 (got (fun _ s' => ext s s'))).
  { intros c s1 kind He Hl Hc Hc'. eapply does_step; [apply He|done|exact Hc|done|]. intros He'.
    apply does_ret. by eapply ext_trans. }
  destruct (Z.eqb_spec qb 58) as [->|_]; [by eapply Hkind|].
  destruct (Z.eqb_spec qb 61) as [->|_]; [by eapply Hkind|].
  destruct (Z.eqb_spec qb 33) as [->|_]; [by eapply Hkind|].
  destruct (Z.eqb_spec qb 80) as [->|_].
  { eapply does_step; [apply He1|done|exact Hqb|done|]. intros He2. pose proof (ext_trans _ _ _ He1 He2) as He.
    apply does_at_byte; [|by apply does_err]. intros b Hlt2 Hb2 <-%Z.eqb_eq.
    eapply does_step; [apply He|done|exact Hb2|done|]. intros He3. pose proof (ext_trans _ _ _ He He3) as He'.
    apply does_get. eapply (does_name _ s); [exact He'|done|]. intros s4 He4 Hp4 Hr4.
    apply does_at_end; [intros; by apply does_err|]. intros Hlt4. apply does_get.
    apply does_substr; [apply He'|apply He4|simpl in *; lia|]. intros [|c name]; [by apply does_err|].
    by eapply Hkind; [|..|apply Hr4|]. }
  destruct (Z.eqb_spec qb 60) as [->|_]; [|by apply does_err].
  eapply does_step; [apply He1|done|exact Hqb|done|]. intros He2. pose proof (ext_trans _ _ _ He1 He2) as He.
  apply does_at_end; [intros; by apply does_err|]. intros Hlt2. apply does_peek; [done|]. intros lb Hlb.
  destruct (Z.eqb_spec lb 61) as [->|_]; [by eapply Hkind|].
  destruct (Z.eqb_spec lb 33) as [->|_]; [by eapply Hkind|by apply does_err].
Qed.

Lemma does_open_group name s :
  pinv s ->
  does (open_group name) s (got (fun slot s' =>
    ext s s' /\ exists k, slot = 2 * k /\ next_slot s = 2 * k /\ next_slot s' = 2 * k + 2)).
Proof.
  intros [Hp (k & Hk & Hk1 & Hnames)]. unfold open_group. apply does_get, does_modify.
  assert (Hnext : forall names, Forall (fun p : list Z * nat => 1 <= p.2 < k + 1) names ->
    ext s (mkParser (pos s) (next_slot s + 2) (classes s) names)).
  { intros names Hn. split_and!; [|done|simpl; lia|done]. split; [done|]. exists (k + 1). split_and!; [simpl; lia|lia|done]. }
  assert (Hnames' : Forall (fun p : list Z * nat => 1 <= p.2 < k + 1) (group_names s)).
  { eapply Forall_impl; [exact Hnames|]. simpl. lia. }
  destruct name as [|c name]; [apply does_ret; split; [by apply Hnext|exists k; cbn [next_slot]; lia]|].
  destruct (find_name _ _); [by apply does_err|]. apply does_modify, does_ret.
  split; [|exists k; cbn [next_slot]; lia]. apply Hnext. apply Forall_app. split; [done|]. apply Forall_singleton. cbn [snd].
  rewrite Hk. replace (2 * k / 2) with k by (rewrite Nat.mul_comm; by rewrite Nat.div_mul). lia.
Qed.

(** ** One level of groups *)

Lemma parsed_cat s f s1 g s2 : parsed s f s1 -> parsed s1 g s2 -> parsed s (append_fragment f g) s2.
Proof.
  intros (He1 & r1 & -> & Ht1) (He2 & r2 & -> & Ht2). split; [by eapply ext_trans|].
  exists (RCat r1 r2). split; [done|]. intros open Ho. split.
  - by eapply tree_ext; [reflexivity|exact He2|exact Ht1|].
  - apply Ht2. intros g Hg. specialize (Ho _ Hg). destruct He1 as (_ & _ & ? & _). lia.
Qed.

Lemma parsed_empty s : pinv s -> parsed s [] s.
Proof. intros Hs. split; [by apply ext_refl|]. by exists REmpty. Qed.

Section level.
Variables (alt : M Parser abort (result PatternError (list Op))) (n : nat).
Hypothesis Halt : forall s, pinv s -> text_len - pos s < n -> does alt s (got (parsed s)).

Lemma does_group_body s :
  pinv s -> text_len - pos s < n -> does (group_body data text_len alt) s (got (parsed s)).
Proof.
  intros Hs Hn. unfold group_body. eapply does_or_return; [by apply Halt|]. intros inner s1 Hp.
  apply does_at_byte; [|by apply does_err]. intros b Hlt Hb <-%Z.eqb_eq.
  eapply does_step; [apply Hp|done|exact Hb|done|]. intros He. apply does_ret. by eapply parsed_later.
Qed.

Lemma does_group s :
  pinv s -> pos s < text_len -> read_ptr data (pos s) = Ok 40%Z -> text_len - pos s <= n ->
  does (parse_group data text_len alt) s (got (read s)).
Proof.
  intros Hs Hlt Hr Hn. unfold parse_group. eapply does_step; [done|done|exact Hr|done|]. intros He1.
  eapply does_or_return; [apply does_group_kind, He1|]. intros kind s1 He2.
  pose proof (ext_trans _ _ _ He1 He2) as He. assert (Hlt1 : pos s < pos s1) by (destruct He2 as (_ & H & _); simpl in H; lia).
  assert (Hs1 : pinv s1) by apply He.
  destruct kind as [name| |neg|neg].
  - eapply does_or_return; [by apply does_open_group|]. intros slot s2 (He3 & k & -> & Hk1 & Hk2).
    assert (Hp3 : pos s1 <= pos s2) by apply He3.
    eapply does_or_return; [apply does_group_body; [apply He3|lia]|]. intros inner s3 (He4 & r & -> & Ht).
    assert (Hp4 : pos s2 <= pos s3) by apply He4.
    apply does_ret. split; [|lia]. split; [eapply ext_trans; [exact He|]; by eapply ext_trans|].
    exists (RGroup k r). split; [done|]. intros open Ho. cbn [wf].
    destruct He as (_ & _ & Hn1 & _), He4 as (_ & _ & Hn4 & _). split_and!.
    + intros Hin. specialize (Ho _ Hin). lia.
    + lia.
    + apply Ht. intros g [->|Hg]%elem_of_cons; [lia|]. specialize (Ho _ Hg). lia.
  - eapply does_mono; [apply does_group_body; [done|lia]|]. intros [f|] s2; [|done]. simpl. intros Hp.
    split; [by eapply parsed_from|]. destruct Hp as ((_ & ? & _) & _). lia.
  - eapply does_or_return; [apply does_group_body; [done|lia]|]. intros inner s2 Hp.
    destruct (parsed_from _ _ _ _ He Hp) as (He3 & r & -> & Ht).
    apply does_ret. split; [|destruct Hp as ((_ & ? & _) & _); lia]. split; [done|].
    by exists (RLookahead neg r).
  - eapply does_or_return; [apply does_group_body; [done|lia]|]. intros inner s2 Hp.
    destruct (parsed_from _ _ _ _ He Hp) as (He3 & r & -> & Ht). apply does_get.
    destruct (width_ok (classes s2) (comp r) (comp_classes _ _ _ [] (Ht [] ltac:(by intros ? ?%elem_of_nil))) 0) as [w Hw].
    eapply does_lift; [exact Hw|]. destruct w as [w|]; [|by apply does_err].
    apply does_ret. split; [|destruct Hp as ((_ & ? & _) & _); lia]. split; [done|].
    by exists (RLookbehind neg w r).
Qed.

Lemma does_atom s :
  pinv s -> text_len - pos s <= n ->
  does (parse_atom data text_len byte_mode alt) s (got (read s)).
Proof.
  intros Hs Hn. unfold parse_atom. apply does_at_end; [intros; by apply does_err|]. intros Hlt.
  apply does_peek; [done|]. intros b Hb.
  assert (Hop : forall op, (b < 128)%Z -> is_test op = true -> match op with IN _ | BACKREF _ => False | _ => True end ->
    does (advance_byte ;;; op_result op) s (got (read s))).
  { intros op Hb' Ht Hop. eapply does_step; [done|done|exact Hb|done|]. intros He.
    apply does_op; [done|simpl; lia|done|by destruct op]. }
  destruct (Z.eqb_spec b 46) as [->|_]; [by apply Hop|].
  destruct (Z.eqb_spec b 94) as [->|_]; [by apply Hop|].
  destruct (Z.eqb_spec b 36) as [->|_]; [by apply Hop|].
  destruct (Z.eqb_spec b 40) as [->|_]; [by apply does_group|].
  destruct (Z.eqb_spec b 91) as [->|_]; [by apply does_class|].
  destruct (Z.eqb_spec b 92) as [->|_]; [by apply does_escape_atom|].
  destruct (_ || _); [by apply does_err|]. destruct (_ || _); [by apply does_err|].
  eapply does_decoded; [by apply ext_refl|done|]. intros cp s' He Hlt'. by apply does_op.
Qed.

Lemma does_repeat s :
  pinv s -> text_len - pos s <= n ->
  does (parse_repeat data text_len byte_mode alt) s (got (read s)).
Proof.
  intros Hs Hn. unfold parse_repeat. eapply does_or_return; [by apply does_atom|]. intros atom s1 Hr.
  assert (Hs1 : pinv s1) by apply Hr.
  apply does_at_end; [intros _; by apply does_ret|]. intros Hlt. apply does_peek; [done|]. intros b Hb.
  assert (Hq : forall q, (b < 128)%Z ->
    does (advance_byte ;;; let* lazy := consume_lazy_marker data text_len in
          ret (Ok (if lazy : bool then comp_quant q false atom else comp_quant q true atom))) s1 (got (read s))).
  { intros q Hb'. eapply does_step; [done|done|exact Hb|done|]. intros He.
    eapply does_lazy; [exact He|]. intros lazy s2 He2 _. apply does_ret.
    pose proof (read_later _ _ _ _ Hr He2). by destruct lazy; apply read_quant. }
  destruct (Z.eqb_spec b 42) as [->|_]; [|destruct (Z.eqb_spec b 43) as [->|_]; [|destruct (Z.eqb_spec b 63) as [->|_]; [|destruct (Z.eqb_spec b 123) as [->|_]]]].
  - by apply (Hq QStar).
  - by apply (Hq QPlus).
  - by apply (Hq QOptional).
  - by apply does_brace_quantifier.
  - by apply does_ret.
Qed.

Lemma does_concat_from fuel : forall out s0 s,
  parsed s0 out s -> text_len - pos s < fuel -> text_len - pos s0 <= n ->
  does (concat_from data text_len byte_mode alt fuel out) s (got (parsed s0)).
Proof.
  induction fuel as [|fuel IH]; intros out s0 s Hp Hf Hn; [lia|]. simpl.
  assert (Hs : pinv s) by apply Hp. assert (Hp0 : pos s0 <= pos s) by apply Hp.
  apply does_at_byte; [|by apply does_ret]. intros b Hlt _ _.
  eapply does_or_return; [apply does_repeat; [done|lia]|]. intros piece s' [Hp' Hlt'].
  apply IH; [by eapply parsed_cat|lia|done].
Qed.

Lemma does_concat s :
  pinv s -> text_len - pos s <= n -> does (parse_concat data text_len byte_mode alt) s (got (parsed s)).
Proof.
  intros Hs Hn. unfold parse_concat. apply does_get.
  apply does_concat_from; [by apply parsed_empty|unfold loop_fuel; lia|done].
Qed.

(** The branches of an alternation. *)
Fixpoint alts (r : Re) (rs : list Re) : Re :=
  match rs with [] => r | r' :: rs => RAlt r (alts r' rs) end.

Lemma build_alternation_alts rs : forall r, build_alternation (comp r) (map comp rs) = comp (alts r rs).
Proof. induction rs as [|r' rs IH]; intros r; simpl; [done|]. by rewrite IH. Qed.

Lemma tree_alts s s' rs : forall r, tree s s' r -> Forall (tree s s') rs -> tree s s' (alts r rs).
Proof.
  induction rs as [|r' rs IH]; intros r Hr Hrs; simpl; [done|].
  apply Forall_cons in Hrs as [Hr' Hrs]. intros open Ho. split; [by apply Hr|by apply IH].
Qed.

Lemma does_branches_from fuel : forall rs s0 s,
  ext s0 s -> Forall (tree s0 s) rs -> text_len - pos s < fuel -> text_len - pos s0 <= n ->
  does (branches_from data text_len byte_mode alt fuel (map comp rs)) s
    (got (fun rest s' => ext s s' /\ exists rs', rest = map comp rs' /\ Forall (tree s0 s') rs')).
Proof.
  induction fuel as [|fuel IH]; intros rs s0 s He Hrs Hf Hn; [lia|]. simpl.
  assert (Hs : pinv s) by apply He. assert (Hp0 : pos s0 <= pos s) by apply He.
  apply does_at_byte; [|apply does_ret; split; [by apply ext_refl|by exists rs]].
  intros b Hlt Hb <-%Z.eqb_eq. eapply does_step; [done|done|exact Hb|done|]. intros He1.
  eapply does_or_return; [apply does_concat; [apply He1|simpl; lia]|]. intros nxt s2 (He2 & r & -> & Ht).
  change [comp r] with (map comp [r]). rewrite <- map_app.
  pose proof (ext_trans _ _ _ He1 He2) as He3. pose proof (ext_trans _ _ _ He He3) as He4.
  eapply does_mono; [apply IH; [exact He4| |destruct He2 as (_ & H & _); simpl in H; lia|done]|].
  - apply Forall_app. split.
    + eapply Forall_impl; [exact Hrs|]. intros r'. by eapply tree_ext; [reflexivity|].
    + apply Forall_singleton. eapply tree_ext; [|apply ext_refl, He2|exact Ht]. simpl.
      destruct He as (_ & _ & ? & _). done.
  - intros [rest|] s3; [|done]. intros [He5 H]. split; [by eapply ext_trans|done].
Qed.

Lemma does_alt_body s :
  pinv s -> text_len - pos s <= n -> does (alt_body data text_len byte_mode alt) s (got (parsed s)).
Proof.
  intros Hs Hn. unfold alt_body. eapply does_or_return; [by apply does_concat|].
  intros first s1 (He1 & r & -> & Ht). apply does_get.
  eapply does_or_return.
  { eapply (does_branches_from _ [] s); [exact He1|done|unfold loop_fuel; lia|done]. }
  intros rest s2 (He2 & rs & -> & Hrs). apply does_ret. split; [by eapply ext_trans|].
  rewrite build_alternation_alts. eexists; split; [done|]. apply tree_alts; [|done].
  by eapply tree_ext; [reflexivity|..].
Qed.

End level.

Lemma parse_alt_tree fuel : forall s,
  pinv s -> text_len - pos s < fuel ->
  does (parse_alt data text_len byte_mode fuel) s (got (parsed s)).
Proof.
  induction fuel as [|fuel IH]; intros s Hs Hf; [lia|].
  apply (does_alt_body _ fuel); [by apply IH|done|lia].
Qed.

Lemma new_parser_pinv : pinv new_parser.
Proof.
  split; [|by exists 1]. split; [simpl; lia|]. intros Hm.
  destruct Hsubject as [?|cps _ Ht Hd Hl]; [congruence|]. by exists [], cps.
Qed.

End parse.
