(* ===== verification/RegexPattern.v ===== *)
(** * Regular expressions: patterns and matches ([lib/re.py])

    [Pattern] and [Match], and the loops of [finditer], [findall], [sub] and
    [split].  A [str] is a [Str]; a [bytes] or a [memoryview] is the list of its
    bytes.  [usize] values are natural numbers: positions, lengths and counts
    stay below the length of a text, and the overflow checks on group numbers
    are written out.  Fuel bounds the positions that are left to scan. *)

From S2P Require Import Prelude RawList Bits Utf8 StrOps RegexProgram RegexMatcher RegexSpec RegexExplore RegexCompile RegexSafe RegexCorrect RegexHalts RegexExact RegexParser RegexParse.

Local Open Scope monad_scope.

(** ** Matches *)

(** [source] is unset for a match in bytes. *)
Record Match := mkMatch {
  source : option Str;
  captures : Captures;
  match_names : list (list Z * nat)
}.

(** A [usize] computed under [panic_arithmetic]. *)
Definition panic_usize (msg : string) (n : nat) : result abort nat :=
  if (Z.of_nat n <? 2 ^ 64)%Z then Ok n else Err (Panic msg).

(** [Match.start( n )] *)
Definition match_start (m : Match) (n : nat) : result abort (option nat) :=
  let? slot := panic_usize "re: Match.start: group index overflow" (n * 2) in
  let? set := get_slot "re: Match.start: group index out of range" slot (slot_set (captures m)) in
  if negb set then Ok None
  else let? v := get_slot "re: Match.start slot" slot (slot_values (captures m)) in Ok (Some v).

(** [Match.end( n )] *)
Definition match_end (m : Match) (n : nat) : result abort (option nat) :=
  let? slot := panic_usize "re: Match.end: group index overflow" (n * 2 + 1) in
  let? set := get_slot "re: Match.end: group index out of range" slot (slot_set (captures m)) in
  if negb set then Ok None
  else let? v := get_slot "re: Match.end slot" slot (slot_values (captures m)) in Ok (Some v).

Definition or_panic {A} (msg : string) (o : option A) : result abort A :=
  match o with Some a => Ok a | None => Err (Panic msg) end.

Definition match_span (m : Match) : result abort (nat * nat) :=
  let? s := match_start m 0 in
  let? s := or_panic "re: Match.span: whole match start unexpectedly unset" s in
  let? e := match_end m 0 in
  let? e := or_panic "re: Match.span: whole match end unexpectedly unset" e in
  Ok (s, e).

(** [Match.group( n )] *)
Definition match_group (m : Match) (n : nat) : result abort (option Str) :=
  let? source := or_panic "re: Match.group() is not supported on a byte-mode match" (source m) in
  let? lo_slot := panic_usize "re: Match.group: group index overflow" (n * 2) in
  let? hi_slot := panic_usize "re: Match.group: group index overflow" (n * 2 + 1) in
  let? set := get_slot "re: Match.group: group index out of range" lo_slot (slot_set (captures m)) in
  if negb set then Ok None
  else
    let? lo := get_slot "re: Match.group slot" lo_slot (slot_values (captures m)) in
    let? hi := get_slot "re: Match.group slot" hi_slot (slot_values (captures m)) in
    let? piece := substr (s_data source) lo hi in
    Ok (Some piece).

(** [Match.group( name )] *)
Definition match_group_named (m : Match) (name : list Z) : result abort (option Str) :=
  let? idx := or_panic "re: Match.group: unknown group name" (find_name name (match_names m)) in
  match_group m idx.

Record GroupResult := mkGroupResult { group_text : Str; group_matched : bool }.

Definition group_result (g : option Str) : GroupResult :=
  match g with None => mkGroupResult empty_str false | Some g => mkGroupResult g true end.

(** The loop of [Match.groups], from group [i] on. *)
Fixpoint groups_from (m : Match) (count i : nat) : result abort (list GroupResult) :=
  match count with
  | O => Ok []
  | S count =>
      let? g := match_group m i in
      let? out := groups_from m count (i + 1) in
      Ok (group_result g :: out)
  end.

Definition match_groups (m : Match) : result abort (list GroupResult) :=
  let? count := panic_sub "re: Match.groups: unreachable (dividing by the constant 2)"
    (length (slot_values (captures m)) / 2) 1 in
  groups_from m count 1.

(** [isize( v )] *)
Definition isize (v : nat) : result abort Z := panic_i64 "re: Match.regs: offset does not fit in isize" (Z.of_nat v).

Fixpoint regs_from (m : Match) (count i : nat) : result abort (list (Z * Z)) :=
  match count with
  | O => Ok []
  | S count =>
      let lo_slot := i * 2 in
      let hi_slot := i * 2 + 1 in
      let? set := get_slot "re: Match.regs slot_set" lo_slot (slot_set (captures m)) in
      let? reg :=
        if set : bool then
          let? lo := get_slot "re: Match.regs slot" lo_slot (slot_values (captures m)) in
          let? hi := get_slot "re: Match.regs slot" hi_slot (slot_values (captures m)) in
          let? lo := isize lo in
          let? hi := isize hi in
          Ok (lo, hi)
        else Ok ((-1)%Z, (-1)%Z) in
      let? out := regs_from m count (i + 1) in
      Ok (reg :: out)
  end.

Definition match_regs (m : Match) : result abort (list (Z * Z)) :=
  regs_from m (length (slot_values (captures m)) / 2) 0.

Definition match_lastindex (m : Match) : option nat :=
  if last_group_set (captures m) then Some (last_group (captures m)) else None.

(** ** Patterns *)

Record Pattern := mkPattern {
  pattern_ops : list Op;
  pattern_classes : list CharClass;
  pattern_slots : nat;
  pattern_flags : Z;
  pattern_names : list (list Z * nat);
  pattern_bytes : bool
}.

(** [Pattern._compile_from_parser], in the state of its parser. *)
Definition compile_with_parser (data : list Z) (text_len : nat) (flags : Z) (byte_mode : bool) :
    M Parser abort (result PatternError Pattern) :=
  let! body := parse_alt data text_len byte_mode (S text_len) in
  let* e := at_end text_len in
  if negb e then parse_err "re: unbalanced parenthesis"
  else
    let* parser := get in
    ret (Ok (mkPattern (program body) (classes parser) (next_slot parser) flags (group_names parser) byte_mode)).

Definition compile_from_parser (data : list Z) (text_len : nat) (flags : Z) (byte_mode : bool) :
    result abort (result PatternError Pattern) :=
  fst (compile_with_parser data text_len flags byte_mode new_parser).

Definition compile_str (pattern : Str) (flags : Z) : result abort (result PatternError Pattern) :=
  compile_from_parser (s_data pattern) (byte_len pattern) flags false.

Definition compile_bytes (pattern : list Z) (flags : Z) : result abort (result PatternError Pattern) :=
  compile_from_parser pattern (length pattern) flags true.

Section pattern.
Variables (p : Pattern) (max_steps : Z).

Section raw.
Variables (data : list Z) (data_len : nat).

Definition run_at_pos (pos : nat) (steps : Z) : result abort (result MatchError Frame * Z) :=
  run_at (pattern_classes p) data data_len (pattern_bytes p) max_steps (pattern_flags p) (pattern_ops p)
    pos (pattern_slots p) steps.

(** The loop of [_search_from_raw]; one matcher counts the steps of all of its
    attempts. *)
Fixpoint search_loop (fuel : nat) (pos : nat) (steps : Z) : result abort (result MatchError Frame) :=
  match fuel with
  | O => Err Fault
  | S fuel =>
      let? (outcome, steps) := run_at_pos pos steps in
      match outcome with
      | Ok frame => Ok (Ok frame)
      | Err StepLimitExceeded => Ok (Err StepLimitExceeded)
      | Err NoMatch =>
          if data_len <=? pos then Ok (Err NoMatch)
          else
            let? width := codepoint_width_at data (pattern_bytes p) pos in
            search_loop fuel (pos + width) steps
      end
  end.

Definition search_from_raw (start_pos : nat) : result abort (result MatchError Frame) :=
  search_loop (S (data_len - start_pos)) start_pos 0.

Definition match_at_zero_raw : result abort (result MatchError Frame) :=
  let? (outcome, _) := run_at_pos 0 0 in Ok outcome.
End raw.

(** [Match( s, frame.slot_values, ... )], or the error. *)
Definition wrap_match (source : option Str) (outcome : result MatchError Frame) : result MatchError Match :=
  match outcome with
  | Ok frame => Ok (mkMatch source (frame_slots frame) (pattern_names p))
  | Err e => Err e
  end.

Definition search_from (s : Str) (start_pos : nat) : result abort (result MatchError Match) :=
  let? outcome := search_from_raw (s_data s) (byte_len s) start_pos in Ok (wrap_match (Some s) outcome).

(** Also [_search_from_memoryview]. *)
Definition search_from_bytes (s : list Z) (start_pos : nat) : result abort (result MatchError Match) :=
  let? outcome := search_from_raw s (length s) start_pos in Ok (wrap_match None outcome).

Definition match_str (s : Str) : result abort (result MatchError Match) :=
  let? outcome := match_at_zero_raw (s_data s) (byte_len s) in Ok (wrap_match (Some s) outcome).

Definition match_bytes (s : list Z) : result abort (result MatchError Match) :=
  let? outcome := match_at_zero_raw s (length s) in Ok (wrap_match None outcome).

(** The body of [fullmatch], on the result of [match] and the length. *)
Definition ends_at (len : nat) (r : result MatchError Match) : result abort (result MatchError Match) :=
  match r with
  | Ok m =>
      let? end_pos := match_end m 0 in
      let? end_pos := or_panic "re: fullmatch: whole match end unexpectedly unset" end_pos in
      Ok (if end_pos =? len then Ok m else Err NoMatch)
  | Err e => Ok (Err e)
  end.

Definition fullmatch_str (s : Str) : result abort (result MatchError Match) :=
  let? r := match_str s in ends_at (byte_len s) r.

Definition fullmatch_bytes (s : list Z) : result abort (result MatchError Match) :=
  let? r := match_bytes s in ends_at (length s) r.

(** ** One match after another *)

Definition codepoint_width_at_str (s : Str) (pos : nat) : result abort nat :=
  let? (_, width) := decode_utf8_at (s_data s) pos in Ok width.

Definition advance_pos_after_match (m : Match) (s : Str) : result abort nat :=
  let? start_pos := match_start m 0 in
  let? start_pos := or_panic "re: _advance_pos_after_match: whole match start unexpectedly unset" start_pos in
  let? end_pos := match_end m 0 in
  let? end_pos := or_panic "re: _advance_pos_after_match: whole match end unexpectedly unset" end_pos in
  if start_pos <? end_pos then Ok end_pos
  else let? width := codepoint_width_at_str s start_pos in Ok (start_pos + width).

Definition advance_pos_after_match_bytes (m : Match) : result abort nat :=
  let? start_pos := match_start m 0 in
  let? start_pos := or_panic "re: _advance_pos_after_match_bytes: whole match start unexpectedly unset" start_pos in
  let? end_pos := match_end m 0 in
  let? end_pos := or_panic "re: _advance_pos_after_match_bytes: whole match end unexpectedly unset" end_pos in
  if start_pos <? end_pos then Ok end_pos else Ok (start_pos + 1).

(** What [_find_next_match] makes of an attempt: running out of steps ends the
    scan as well. *)
Definition found_match (attempt : result MatchError Match) : option Match :=
  match attempt with Ok m => Some m | Err _ => None end.

Definition find_next_match (s : Str) (start_pos : nat) : result abort (option Match) :=
  if byte_len s <? start_pos then Ok None
  else let? attempt := search_from s start_pos in Ok (found_match attempt).

(** Also [_find_next_match_memoryview]. *)
Definition find_next_match_bytes (s : list Z) (start_pos : nat) : result abort (option Match) :=
  if length s <? start_pos then Ok None
  else let? attempt := search_from_bytes s start_pos in Ok (found_match attempt).

(** The loops of [finditer], [findall], [_sub_impl] and [split]: [find] is
    [_find_next_match], which [_has_match_at_or_after] and
    [_require_next_match] call; [body] is what the loop does with the match
    before it advances, as long as [more] of its state holds. *)
Section each.
Context {A : Type}.
Variables (find : nat -> result abort (option Match)) (advance : Match -> result abort nat)
  (more : A -> bool) (body : Match -> A -> result abort A).

Definition has_match_at_or_after (pos : nat) : result abort bool :=
  let? m := find pos in Ok (match m with Some _ => true | None => false end).

Definition require_next_match (pos : nat) : result abort Match :=
  let? m := find pos in
  or_panic "re: _require_next_match: unreachable (_has_match_at_or_after already confirmed true)" m.

Fixpoint each_match (fuel : nat) (pos : nat) (has_next : bool) (acc : A) : result abort A :=
  if has_next && more acc then
    match fuel with
    | O => Err Fault
    | S fuel =>
        let? m := require_next_match pos in
        let? acc := body m acc in
        let? pos := advance m in
        let? has_next := has_match_at_or_after pos in
        each_match fuel pos has_next acc
    end
  else Ok acc.

Definition from_start (slen : nat) (acc : A) : result abort A :=
  let? has_next := has_match_at_or_after 0 in
  each_match (S (S slen)) 0 has_next acc.
End each.

(** The matches that [finditer] yields. *)
Definition finditer (s : Str) : result abort (list Match) :=
  from_start (find_next_match s) (fun m => advance_pos_after_match m s) (fun _ => true)
    (fun m out => Ok (out ++ [m])) (byte_len s) [].

Definition finditer_bytes (s : list Z) : result abort (list Match) :=
  from_start (find_next_match_bytes s) advance_pos_after_match_bytes (fun _ => true)
    (fun m out => Ok (out ++ [m])) (length s) [].

(** The body of the loop of [findall]. *)
Definition findall_step (m : Match) (out : list Str) : result abort (list Str) :=
  let? g := match_group m 0 in
  let? g := or_panic "re: findall: whole match text unexpectedly unset" g in
  Ok (out ++ [g]).

Definition findall (s : Str) : result abort (list Str) :=
  from_start (find_next_match s) (fun m => advance_pos_after_match m s) (fun _ => true) findall_step (byte_len s) [].

(** [count == 0 or n < count] *)
Definition below_count (count n : nat) : bool := (count =? 0) || (n <? count).

(** The body of the loop of [_sub_impl], on [out], [last_end] and [n]. *)
Definition sub_step (repl s : Str) (m : Match) (acc : Str * nat * nat) : result abort (Str * nat * nat) :=
  let '(out, last_end, n) := acc in
  let? start := match_start m 0 in
  let? start := or_panic "re: sub: whole match start unexpectedly unset" start in
  let? stop := match_end m 0 in
  let? stop := or_panic "re: sub: whole match end unexpectedly unset" stop in
  let? piece := substr (s_data s) last_end start in
  let? out := str_add out piece in
  let? out := str_add out repl in
  Ok (out, stop, n + 1).

Definition sub_impl (repl s : Str) (count : nat) : result abort (Str * nat) :=
  let? (out, last_end, n) :=
    from_start (find_next_match s) (fun m => advance_pos_after_match m s)
      (fun acc => below_count count (snd acc)) (sub_step repl s) (byte_len s) (empty_str, 0, 0) in
  let? piece := substr (s_data s) last_end (byte_len s) in
  let? out := str_add out piece in
  Ok (out, n).

Definition sub (repl s : Str) (count : nat) : result abort Str :=
  let? (out, _) := sub_impl repl s count in Ok out.

Definition split_step (s : Str) (m : Match) (acc : list Str * nat * nat) : result abort (list Str * nat * nat) :=
  let '(out, last_end, n) := acc in
  let? start := match_start m 0 in
  let? start := or_panic "re: split: whole match start unexpectedly unset" start in
  let? stop := match_end m 0 in
  let? stop := or_panic "re: split: whole match end unexpectedly unset" stop in
  let? piece := substr (s_data s) last_end start in
  Ok (out ++ [piece], stop, n + 1).

Definition split (s : Str) (maxsplit : nat) : result abort (list Str) :=
  let? (out, last_end, n) :=
    from_start (find_next_match s) (fun m => advance_pos_after_match m s)
      (fun acc => below_count maxsplit (snd acc)) (split_step s) (byte_len s) ([], 0, 0) in
  let? piece := substr (s_data s) last_end (byte_len s) in
  Ok (out ++ [piece]).

End pattern.

(** ** The functions of the module *)

Definition default_max_steps : Z := 65536.

(** [Pattern.compile( pattern, flags ).unwrap( msg )] *)
Definition compiled_or_panic (msg : string) (pattern : Str) (flags : Z) : result abort Pattern :=
  let? r := compile_str pattern flags in unwrap msg r.

Definition re_search (pattern s : Str) (flags : Z) : result abort (result MatchError Match) :=
  let? p := compiled_or_panic "re.search: invalid pattern" pattern flags in search_from p default_max_steps s 0.

Definition re_match (pattern s : Str) (flags : Z) : result abort (result MatchError Match) :=
  let? p := compiled_or_panic "re.match: invalid pattern" pattern flags in match_str p default_max_steps s.

Definition re_fullmatch (pattern s : Str) (flags : Z) : result abort (result MatchError Match) :=
  let? p := compiled_or_panic "re.fullmatch: invalid pattern" pattern flags in fullmatch_str p default_max_steps s.

Definition re_findall (pattern s : Str) (flags : Z) : result abort (list Str) :=
  let? p := compiled_or_panic "re.findall: invalid pattern" pattern flags in findall p default_max_steps s.

Definition re_sub (pattern repl s : Str) (count : nat) (flags : Z) : result abort Str :=
  let? p := compiled_or_panic "re.sub: invalid pattern" pattern flags in sub p default_max_steps repl s count.

Definition re_subn (pattern repl s : Str) (count : nat) (flags : Z) : result abort (Str * nat) :=
  let? p := compiled_or_panic "re.subn: invalid pattern" pattern flags in sub_impl p default_max_steps repl s count.

Definition re_split (pattern s : Str) (maxsplit : nat) (flags : Z) : result abort (list Str) :=
  let? p := compiled_or_panic "re.split: invalid pattern" pattern flags in split p default_max_steps s maxsplit.

(** ** Compiling *)

(** [p] is the program of the tree [r]. *)
Record compiled (p : Pattern) (r : Re) : Prop := {
  compiled_ops : pattern_ops p = program (comp r);
  compiled_wf : wf (length (pattern_classes p)) (pattern_slots p) [] (whole r)
}.

Lemma compile_tree data text_len byte_mode flags :
  subject data text_len byte_mode -> Forall is_byte (take text_len data) ->
  match compile_from_parser data text_len flags byte_mode with
  | Ok (Ok p) => (exists r, compiled p r) /\ pattern_flags p = flags /\ pattern_bytes p = byte_mode
  | Ok (Err _) => True
  | Err e => byte_mode = true /\ e = name_panic
  end.
Proof.
  intros Hs Hb. unfold compile_from_parser.
  assert (H : does byte_mode (compile_with_parser data text_len flags byte_mode) new_parser
    (got (fun p _ => (exists r, compiled p r) /\ pattern_flags p = flags /\ pattern_bytes p = byte_mode))).
  { eapply does_or_return.
    { apply parse_alt_tree; [done|done|by apply new_parser_pinv|simpl; lia]. }
    intros body s (He & r & -> & Ht). apply does_at_end; [|intros; by apply does_err].
    intros _. apply does_get, does_ret. split; [|done]. exists r. split; [done|]. cbn [wf whole pattern_classes pattern_slots].
    destruct He as (_ & _ & Hn & _). simpl in Hn. split_and!; [by intros ?%elem_of_nil|lia|].
    apply Ht. intros g ->%list_elem_of_singleton. simpl. lia. }
  unfold does in H. destruct (compile_with_parser _ _ _ _ _) as [[[p|e]|e] s]; exact H.
Qed.

Lemma str_subject s cps : str_ok s cps -> subject (s_data s) (byte_len s) false.
Proof.
  intros Hs. eapply subject_str; [done|apply Hs|apply Hs|]. by apply byte_len_ok.
Qed.

Lemma str_bytes s cps : str_ok s cps -> Forall is_byte (take (byte_len s) (s_data s)).
Proof.
  intros Hs. rewrite (byte_len_ok _ _ Hs), (str_data _ _ Hs), take_app_length. apply utf8_bytes, Hs.
Qed.

(** C13: compiling ends, without a panic or an access out of bounds.  For every
    [str] and all flags, [Pattern.compile] returns an error value or the program
    of a syntax tree in which each group has its own slots and each class and
    each back reference names one that exists.  For [bytes], the only other
    outcome is the panic on a group name that is not UTF-8. *)
Theorem compile_total :
  (forall (pattern : Str) cps flags, str_ok pattern cps ->
    (exists e, compile_str pattern flags = Ok (Err e)) \/
    exists p r, compile_str pattern flags = Ok (Ok p) /\ compiled p r /\ pattern_flags p = flags /\ pattern_bytes p = false) /\
  (forall (pattern : list Z) flags, Forall is_byte pattern ->
    (exists e, compile_bytes pattern flags = Ok (Err e)) \/
    (exists p r, compile_bytes pattern flags = Ok (Ok p) /\ compiled p r /\ pattern_flags p = flags /\ pattern_bytes p = true) \/
    compile_bytes pattern flags = Err name_panic).
Proof.
  split.
  - intros pattern cps flags Hs. unfold compile_str.
    pose proof (compile_tree _ _ _ flags (str_subject _ _ Hs) (str_bytes _ _ Hs)) as H.
    destruct (compile_from_parser _ _ _ _) as [[p|e]|e]; [|by left; exists e|by destruct H].
    destruct H as ([r Hr] & Hf & Hb). right. by exists p, r.
  - intros pattern flags Hb. unfold compile_bytes.
    assert (Hs : subject pattern (length pattern) true) by (by apply subject_bytes).
    pose proof (compile_tree _ _ _ flags Hs) as H. rewrite firstn_all in H. specialize (H Hb).
    destruct (compile_from_parser _ _ _ _) as [[p|e]|e]; [|by left; exists e|by right; right; destruct H as [_ ->]].
    destruct H as ([r Hr] & Hf & Hm). right. left. by exists p, r.
Qed.

(** ** Searching *)

Section search.
Variables (p : Pattern) (r : Re) (data : list Z) (data_len : nat) (max_steps : Z).
Hypothesis Hops : pattern_ops p = program (comp r).
Hypothesis Hfit : fit (pattern_classes p) data data_len (pattern_bytes p) (pattern_slots p) r.

Notation at_boundary := (at_boundary data data_len (pattern_bytes p)).
Notation meaning := (sem (pattern_classes p) data data_len (pattern_bytes p) (pattern_flags p) (whole r)).
Notation from b := ((b, no_captures (pattern_slots p)) : State).

(** No match starts at a boundary in this range. *)
Definition no_match_from (lo hi : nat) : Prop :=
  forall b c y, lo <= b < hi -> at_boundary b -> ~ meaning (from b) c y.

Definition search_result (pos : nat) (res : result abort (result MatchError Frame)) : Prop :=
  match res with
  | Ok (Ok f) =>
      exists b c, pos <= b /\ at_boundary b /\ least meaning (from b) c (frame_sp f, frame_slots f) /\
        no_match_from pos b
  | Ok (Err NoMatch) => no_match_from pos (S data_len)
  | Ok (Err StepLimitExceeded) => True
  | Err _ => False
  end.

Lemma search_loop_result fuel : forall pos steps,
  at_boundary pos -> (0 <= steps <= max_steps)%Z -> (max_steps < 2 ^ 64 - 1)%Z -> data_len - pos < fuel ->
  search_result pos (search_loop p max_steps data data_len fuel pos steps).
Proof.
  induction fuel as [|fuel IH]; intros pos steps Hb Hs Hm Hf; [lia|]. cbn [search_loop]. unfold run_at_pos.
  pose proof (run_exact _ _ _ _ (pattern_flags p) _ _ max_steps pos steps Hfit Hb Hs Hm) as Hrun. rewrite Hops.
  destruct (run_at _ _ _ _ _ _ _ _ _ _) as [[[f|[]] s]|e]; cbn [result_bind]; [| |done|done].
  - destruct Hrun as [_ [c Hl]]. exists pos, c. split_and!; [lia|done|done|]. intros b c' y Hr. lia.
  - destruct Hrun as [Hsteps Hno]. destruct (Nat.leb_spec data_len pos) as [Hge|Hlt].
    + intros b c y Hr Hb'. pose proof (boundary_le _ _ _ _ Hb'). replace b with pos by lia. apply Hno.
    + destruct (codepoint_ok _ _ _ (fit_subject _ _ _ _ _ _ Hfit) _ Hb Hlt) as (cp & w & _ & Hw & Hpos & Hb').
      rewrite Hw. cbn [result_bind].
      assert (Hskip : forall b c y, at_boundary b -> pos <= b < pos + w -> ~ meaning (from b) c y).
      { intros b c y Hbb Hr. destruct (decide (b = pos)) as [->|Hne]; [apply Hno|].
        pose proof (boundary_next _ _ _ _ _ _ Hb Hlt Hw Hbb ltac:(lia)). lia. }
      pose proof (IH (pos + w) s Hb' ltac:(lia) Hm ltac:(lia)) as Hrest.
      destruct (search_loop _ _ _ _ _ _ _) as [[f|[]]|e]; cbn [search_result] in *; [| |done|done].
      * destruct Hrest as (b & c & Hle & Hbb & Hl & Hno'). exists b, c. split_and!; [lia|done|done|].
        intros b' c' y Hr Hbb'. destruct (decide (b' < pos + w)); [apply Hskip; [done|lia]|apply Hno'; [lia|done]].
      * intros b c y Hr Hbb. destruct (decide (b < pos + w)); [apply Hskip; [done|lia]|apply Hrest; [lia|done]].
Qed.

End search.

(** With enough steps, a search does not run out of them. *)
Lemma search_loop_completes p r data data_len fuel :
  pattern_ops p = program (comp r) ->
  fit (pattern_classes p) data data_len (pattern_bytes p) (pattern_slots p) r -> progressing r = true ->
  forall pos, at_boundary data data_len (pattern_bytes p) pos ->
  exists N, forall max_steps steps, (0 <= steps)%Z -> (steps + Z.of_nat N <= max_steps < 2 ^ 64 - 1)%Z ->
    search_loop p max_steps data data_len fuel pos steps <> Ok (Err StepLimitExceeded).
Proof.
  intros Hops Hfit Hprog. induction fuel as [|fuel IH]; intros pos Hb; [by exists 0|].
  destruct (run_finishes _ _ _ _ (pattern_flags p) _ _ Hfit Hprog pos Hb) as [N HN].
  assert (Hrest : exists N', forall max_steps steps, (0 <= steps)%Z -> (steps + Z.of_nat N' <= max_steps < 2 ^ 64 - 1)%Z ->
    pos < data_len -> forall w, codepoint_width_at data (pattern_bytes p) pos = Ok w ->
    search_loop p max_steps data data_len fuel (pos + w) steps <> Ok (Err StepLimitExceeded)).
  { destruct (decide (pos < data_len)) as [Hlt|Hge]; [|exists 0; intros; lia].
    destruct (codepoint_ok _ _ _ (fit_subject _ _ _ _ _ _ Hfit) _ Hb Hlt) as (cp & w & _ & Hw & Hpos & Hb').
    destruct (IH _ Hb') as [N' HN']. exists N'. intros max_steps steps H1 H2 _ w' Hw'. rewrite Hw in Hw'.
    injection Hw' as <-. by apply HN'. }
  destruct Hrest as [N' HN']. exists (N + N'). intros max_steps steps Hs Hm. cbn [search_loop]. unfold run_at_pos. rewrite Hops.
  destruct (HN max_steps steps Hs ltac:(lia)) as (out & s & Hrun & Hle & Hout). rewrite Hrun. cbn [result_bind].
  destruct out as [f|[]]; [done| |done].
  destruct (Nat.leb_spec data_len pos); [done|].
  destruct (codepoint_width_at _ _ _) as [w|e] eqn:Hw; [|done]. cbn [result_bind].
  apply HN'; [|lia|done|done].
  assert (H0 : (steps <= s)%Z).
  { pose proof (run_exact _ _ _ _ (pattern_flags p) _ _ max_steps pos steps Hfit Hb ltac:(lia) ltac:(lia)) as He.
    rewrite Hrun in He. lia. }
  lia.
Qed.

(** C11: a search is the leftmost one.  For a pattern with no reference inside
    of the group it names, on a text that is one byte per character where the
    pattern looks behind ([fit]; elsewhere a search can panic or misread the
    text), [_search_from_raw], the core of every [search], finds the first
    boundary at or after [start_pos] from which the pattern's relation matches,
    and there the match that comes first in the order in which alternatives are
    tried; [NoMatch] says that no boundary has one.  Only the step limit can
    keep it from an answer; when no unbounded repetition can be empty, some
    number of steps is enough. *)
Theorem search_leftmost (p : Pattern) (r : Re) (data : list Z) (data_len start_pos : nat) :
  pattern_ops p = program (comp r) ->
  fit (pattern_classes p) data data_len (pattern_bytes p) (pattern_slots p) r ->
  at_boundary data data_len (pattern_bytes p) start_pos ->
  (forall max_steps, (0 <= max_steps < 2 ^ 64 - 1)%Z ->
    search_result p r data data_len start_pos (search_from_raw p max_steps data data_len start_pos)) /\
  (progressing r = true -> exists N, forall max_steps, (Z.of_nat N <= max_steps < 2 ^ 64 - 1)%Z ->
    search_from_raw p max_steps data data_len start_pos <> Ok (Err StepLimitExceeded)).
Proof.
  intros Hops Hfit Hb. split.
  - intros max_steps Hm. apply search_loop_result; [done|done|done|lia|lia|lia].
  - intros Hp. destruct (search_loop_completes p r data data_len (S (data_len - start_pos)) Hops Hfit Hp _ Hb) as [N HN].
    exists N. intros max_steps Hm. apply HN; lia.
Qed.

(** [(a|b)+c] in ["xabcc"]. *)
Definition sample_tree : Re :=
  RCat (RCat REmpty (RQuant QPlus true (RGroup 1 (RAlt (RCat REmpty (RTest (CHAR 97))) (RCat REmpty (RTest (CHAR 98)))))))
    (RTest (CHAR 99)).

Definition sample_pattern : Pattern := mkPattern (program (comp sample_tree)) [] 4 0 [] false.

Definition sample_subject : list Z := [120; 97; 98; 99; 99; 0]%Z.

Example sample_compiled :
  compile_from_parser [40; 97; 124; 98; 41; 43; 99; 0]%Z 7 0 false = Ok (Ok sample_pattern).
Proof. vm_compute. reflexivity. Qed.

Lemma sample_fit : fit (pattern_classes sample_pattern) sample_subject 5 (pattern_bytes sample_pattern) (pattern_slots sample_pattern) sample_tree.
Proof.
  split.
  - apply (subject_str _ _ _ [120; 97; 98; 99; 99]%Z); [reflexivity|by repeat constructor|reflexivity|reflexivity].
  - cbn. split_and!; first [done | lia | set_solver].
  - reflexivity.
  - discriminate.
Qed.

Lemma sample_boundary : at_boundary sample_subject 5 (pattern_bytes sample_pattern) 0.
Proof.
  split; [lia|]. intros _. exists [], [120; 97; 98; 99; 99]%Z. split_and!; [by repeat constructor|reflexivity|reflexivity|reflexivity].
Qed.

Lemma search_leftmost_witness :
  search_from_raw sample_pattern 65536 sample_subject 5 0 =
    Ok (Ok (mkFrame 17 4 (mkCaptures [1; 4; 2; 3] [true; true; true; true] 1 true))) /\
  search_result sample_pattern sample_tree sample_subject 5 0 (search_from_raw sample_pattern 65536 sample_subject 5 0) /\
  exists N, forall max_steps, (Z.of_nat N <= max_steps < 2 ^ 64 - 1)%Z ->
    search_from_raw sample_pattern max_steps sample_subject 5 0 <> Ok (Err StepLimitExceeded).
Proof.
  destruct (search_leftmost sample_pattern sample_tree sample_subject 5 0 eq_refl sample_fit sample_boundary) as [H1 H2].
  split; [vm_compute; reflexivity|]. split; [apply H1; lia|apply H2; reflexivity].
Defined.

(** ["(a|b)+c"] *)
Definition sample_source : Str := mkStr [40; 97; 124; 98; 41; 43; 99; 0]%Z 8 7 [Some 0].

Lemma sample_source_ok : str_ok sample_source [40; 97; 124; 98; 41; 43; 99]%Z.
Proof.
  destruct (from_owned_cstr_valid [40; 97; 124; 98; 41; 43; 99]%Z) as (s & E & Hs); [by repeat constructor|].
  vm_compute in E. injection E as <-. exact Hs.
Qed.

Lemma compile_total_witness :
  compile_str sample_source 0 = Ok (Ok sample_pattern) /\
  ((exists e, compile_str sample_source 0 = Ok (Err e)) \/
   exists p r, compile_str sample_source 0 = Ok (Ok p) /\ compiled p r /\ pattern_flags p = 0%Z /\ pattern_bytes p = false).
Proof.
  split; [vm_compute; reflexivity|]. exact (proj1 compile_total sample_source _ 0%Z sample_source_ok).
Defined.
