(* ===== verification/RegexPieces.v ===== *)
(** * Regular expressions: [split], [sub] and [findall] cut the text alike

    [split_sub_findall]: for a [str], the three loops visit the same matches.
    What lies between the matches and the matches themselves, put together
    again, is the text; [split] returns the former, [findall] the latter, and
    [sub] the former joined with the replacement. *)

From S2P Require Import Prelude RawList Bits Utf8 StrOps RegexProgram RegexMatcher RegexSpec RegexExplore RegexCompile RegexSafe RegexCorrect RegexHalts RegexExact RegexParser RegexParse RegexPattern.

Local Open Scope monad_scope.

(** The pieces and the matches, alternately. *)
Fixpoint weave (pieces found : list (list Z)) : list Z :=
  match pieces, found with
  | x :: pieces, y :: found => x ++ y ++ weave pieces found
  | x :: _, [] => x
  | [], _ => []
  end.

(** ** The span of a match *)

Section span.
Variables (p : Pattern) (r : Re) (s : Str) (cps : list Z) (max_steps : Z).
Hypothesis Hops : pattern_ops p = program (comp r).
Hypothesis Hmode : pattern_bytes p = false.
Hypothesis Hfit : fit (pattern_classes p) (s_data s) (byte_len s) false (pattern_slots p) r.
Hypothesis Hstr : str_ok s cps.
Hypothesis Hsteps : (0 <= max_steps < 2 ^ 64 - 1)%Z.

Notation at_boundary := (at_boundary (s_data s) (byte_len s) false).
Notation meaning := (sem (pattern_classes p) (s_data s) (byte_len s) false (pattern_flags p) (whole r)).
Notation find := (find_next_match p max_steps s).
Notation advance := (fun m => advance_pos_after_match m s).

Record span (m : Match) (b e : nat) : Prop := {
  span_source : source m = Some s;
  span_begin : slot_values (captures m) !! 0 = Some b;
  span_end : slot_values (captures m) !! 1 = Some e;
  span_begin_set : slot_set (captures m) !! 0 = Some true;
  span_end_set : slot_set (captures m) !! 1 = Some true;
  span_order : b <= e;
  span_low : at_boundary b;
  span_high : at_boundary e
}.

(** The slots of group 0 hold where the match starts and ends. *)
Lemma meaning_span b c y :
  at_boundary b -> meaning (b, no_captures (pattern_slots p)) c y -> span (mkMatch (Some s) y.2 (pattern_names p)) b y.1.
Proof.
  intros Hb (c2 & x2 & c3 & _ & (c0 & x1 & c1 & _ & [_ (s1 & Hs1 & ->)] & Hr) & [_ (s3 & Hs3 & ->)]).
  pose proof (start_good _ _ _ (pattern_slots p) b Hb) as Hg. destruct Hfit as [Hsub Hwf Hcl Hlb].
  cbn [wf whole] in Hwf. destruct Hwf as (_ & Hn & Hwf). change (2 * 0 + 1) with 1 in *.
  destruct (good_save_start _ _ _ _ [] 0 _ s1 Hg Hn Hs1) as (Hg1 & Hlo & _).
  assert (Hset1 : slot_set s1 !! 0 = Some true).
  { destruct (save_slot_ok (2 * 0) b (no_captures (pattern_slots p))) as (s' & Hs' & _ & Hss);
      [cbn; rewrite length_replicate; lia..|]. cbn [fst snd] in Hs1. rewrite Hs1 in Hs'. injection Hs' as <-.
    rewrite Hss. apply list_lookup_insert_eq. cbn. rewrite length_replicate. lia. }
  pose proof (comp_safe (pattern_classes p) _ _ _ (pattern_flags p) _ Hsub r [0] Hwf Hcl Hlb (b, s1)) as Hsafe.
  destruct (RegexExplore.sa_post _ _ _ _ _ _ _ _ _ Hsafe _ _ _ (reached_refl _ _ _ _ _ _ Hg1) Hr) as (Hg2 & Hle & Hkeep).
  destruct (Hkeep 0 ltac:(by left)) as [Ks Kv]. change (2 * 0) with 0 in Ks, Kv, Hlo. cbn [fst snd] in Ks, Kv, Hle, Hlo.
  destruct (save_slot_ok 1 x2.1 x2.2) as (s' & Hs' & Hv & Hset);
    [rewrite (good_values _ _ _ _ _ _ Hg2); lia|rewrite (good_set _ _ _ _ _ _ Hg2); lia|].
  rewrite Hs3 in Hs'. injection Hs' as <-.
  split; cbn [source captures fst snd]; [done|..|done|done|by apply Hg2].
  - rewrite Hv, list_lookup_insert_ne by done. rewrite Kv. exact Hlo.
  - rewrite Hv. apply list_lookup_insert_eq. rewrite (good_values _ _ _ _ _ _ Hg2). lia.
  - rewrite Hset, list_lookup_insert_ne by done. rewrite Ks. exact Hset1.
  - rewrite Hset. apply list_lookup_insert_eq. rewrite (good_set _ _ _ _ _ _ Hg2). lia.
Qed.

Lemma slot_read {A} msg i (l : list A) v : l !! i = Some v -> get_slot msg i l = Ok v.
Proof. apply getitem_ok. Qed.

Lemma panic_usize_ok msg n : (Z.of_nat n < 2 ^ 64)%Z -> panic_usize msg n = Ok n.
Proof. intros Hn. unfold panic_usize. by rewrite (proj2 (Z.ltb_lt _ _)). Qed.

Lemma span_start m b e : span m b e -> match_start m 0 = Ok (Some b).
Proof.
  intros Hm. unfold match_start. rewrite panic_usize_ok by done. cbn [result_bind Nat.mul].
  rewrite (slot_read _ _ _ _ (span_begin_set _ _ _ Hm)). cbn [result_bind negb].
  by rewrite (slot_read _ _ _ _ (span_begin _ _ _ Hm)).
Qed.

Lemma span_stop m b e : span m b e -> match_end m 0 = Ok (Some e).
Proof.
  intros Hm. unfold match_end. rewrite panic_usize_ok by done. cbn [result_bind Nat.mul Nat.add].
  rewrite (slot_read _ _ _ _ (span_end_set _ _ _ Hm)). cbn [result_bind negb].
  by rewrite (slot_read _ _ _ _ (span_end _ _ _ Hm)).
Qed.

Lemma span_group m b e : span m b e ->
  match_group m 0 = let? piece := substr (s_data s) b e in Ok (Some piece).
Proof.
  intros Hm. unfold match_group. rewrite (span_source _ _ _ Hm).
  cbn [or_panic result_bind]. rewrite !panic_usize_ok by done. cbn [result_bind Nat.mul Nat.add].
  rewrite (slot_read _ _ _ _ (span_begin_set _ _ _ Hm)). cbn [result_bind negb].
  rewrite (slot_read _ _ _ _ (span_begin _ _ _ Hm)). cbn [result_bind].
  by rewrite (slot_read _ _ _ _ (span_end _ _ _ Hm)).
Qed.

(** ** The matches of a scan *)

Lemma boundary_mode pos : RegexSafe.at_boundary (s_data s) (byte_len s) (pattern_bytes p) pos <-> at_boundary pos.
Proof. by rewrite Hmode. Qed.

Lemma find_result pos :
  at_boundary pos ->
  find pos = Ok None \/
  exists m b e, find pos = Ok (Some m) /\ span m b e /\ pos <= b.
Proof.
  intros Hb. unfold find_next_match. rewrite (proj2 (Nat.ltb_ge _ _)) by apply (boundary_le _ _ _ _ Hb).
  unfold search_from, search_from_raw.
  pose proof (search_loop_result p r (s_data s) (byte_len s) max_steps Hops) as Hs. rewrite Hmode in Hs.
  specialize (Hs Hfit (S (byte_len s - pos)) pos 0%Z Hb ltac:(lia) ltac:(lia) ltac:(lia)).
  unfold search_result in Hs. rewrite Hmode in Hs.
  destruct (search_loop _ _ _ _ _ _ _) as [[f|[]]|e]; cbn [result_bind wrap_match found_match]; [|by left|by left|done].
  destruct Hs as (b & c & Hle & Hbb & [Hl _] & _). right.
  exists (mkMatch (Some s) (frame_slots f) (pattern_names p)), b, (frame_sp f). split_and!; [done| |done].
  by apply (meaning_span _ c (frame_sp f, frame_slots f)).
Qed.

Lemma find_past pos : byte_len s < pos -> find pos = Ok None.
Proof. intros Hlt. unfold find_next_match. by rewrite (proj2 (Nat.ltb_lt _ _)). Qed.

(** The scan moves on, and not into the match. *)
Lemma advance_result m b e :
  span m b e -> exists pos, advance m = Ok pos /\ e <= pos /\ b < pos /\ (at_boundary pos \/ byte_len s < pos).
Proof.
  intros Hm. unfold advance_pos_after_match. rewrite (span_start _ _ _ Hm). cbn [result_bind or_panic].
  rewrite (span_stop _ _ _ Hm). cbn [result_bind or_panic].
  destruct (Nat.ltb_spec b e) as [Hlt|Hge].
  - exists e. split_and!; [done|done|done|]. left. apply Hm.
  - pose proof (span_order _ _ _ Hm). replace e with b by lia.
    destruct (decide (b = byte_len s)) as [->|Hne].
    + assert (Hw : codepoint_width_at_str s (byte_len s) = Ok 1).
      { unfold codepoint_width_at_str, decode_utf8_at, read_ptr.
        rewrite (byte_len_ok _ _ Hstr), (str_data _ _ Hstr), lookup_app_r, Nat.sub_diag by done. done. }
      rewrite Hw. cbn [result_bind]. eexists. split_and!; [done|lia|lia|right; lia].
    + pose proof (boundary_le _ _ _ _ (span_low _ _ _ Hm)).
      destruct (codepoint_ok _ _ _ (str_subject _ _ Hstr) b (span_low _ _ _ Hm)) as (cp & w & _ & Hw & Hpos & Hb'); [lia|].
      change (codepoint_width_at_str s b) with (codepoint_width_at (s_data s) false b). rewrite Hw. cbn [result_bind].
      eexists. split_and!; [done|lia|lia|by left].
Qed.

(** The matches found from [pos] on, with their spans. *)
Inductive chain : nat -> list (Match * nat * nat) -> Prop :=
| chain_end pos : find pos = Ok None -> chain pos []
| chain_next pos m b e pos' l :
    find pos = Ok (Some m) -> span m b e -> pos <= b -> advance m = Ok pos' -> e <= pos' -> chain pos' l ->
    chain pos ((m, b, e) :: l).

Lemma chain_exists n : forall pos,
  S (byte_len s) - pos < n -> at_boundary pos \/ byte_len s < pos ->
  exists l, chain pos l /\ length l <= S (byte_len s) - pos.
Proof.
  induction n as [|n IH]; intros pos Hn Hpos; [lia|].
  destruct Hpos as [Hpos|Hpos]; [|exists []; split; [by apply chain_end, find_past|simpl; lia]].
  destruct (find_result pos Hpos) as [Hnone|(m & b & e & Hf & Hm & Hle)]; [exists []; split; [by apply chain_end|simpl; lia]|].
  destruct (advance_result _ _ _ Hm) as (pos' & Ha & He & Hb & Hpos'). pose proof (boundary_le _ _ _ _ Hpos).
  destruct (IH pos') as (l & Hl & Hlen); [lia|done|]. exists ((m, b, e) :: l). split; [by eapply chain_next|].
  pose proof (boundary_le _ _ _ _ (span_low _ _ _ Hm)). simpl. lia.
Qed.

(** The loops fold over that list. *)
Fixpoint fold_while {A} (more : A -> bool) (body : Match -> A -> result abort A) (l : list (Match * nat * nat)) (acc : A) :
    result abort A :=
  match l with
  | [] => Ok acc
  | (m, _, _) :: l => if more acc then let? acc := body m acc in fold_while more body l acc else Ok acc
  end.

Lemma chain_has pos l : chain pos l -> has_match_at_or_after find pos = Ok (match l with [] => false | _ => true end).
Proof. unfold has_match_at_or_after. by destruct 1 as [? ->|? ? ? ? ? ? ->]. Qed.

Lemma each_match_fold {A} (more : A -> bool) body : forall l fuel pos acc,
  chain pos l -> length l <= fuel ->
  each_match find advance more body fuel pos (match l with [] => false | _ => true end) acc = fold_while more body l acc.
Proof.
  intros l. induction l as [|[[m b] e] l IH]; intros fuel pos acc Hc Hf; [by destruct fuel|].
  inversion_clear Hc as [|? ? ? ? pos' ? Hfind Hm Hle Ha He Hl]. simpl in Hf. destruct fuel as [|fuel]; [lia|].
  cbn [each_match fold_while andb]. destruct (more acc); [|done].
  unfold require_next_match. rewrite Hfind. cbn [result_bind or_panic].
  destruct (body m acc) as [acc'|err]; cbn [result_bind]; [|done]. rewrite Ha. cbn [result_bind].
  rewrite (chain_has _ _ Hl). cbn [result_bind]. apply IH; [done|lia].
Qed.

Lemma start_boundary : at_boundary 0.
Proof.
  split; [lia|]. intros _. exists [], cps.
  split_and!; [apply Hstr|apply Hstr|by rewrite (byte_len_ok _ _ Hstr)|done].
Qed.

Lemma scan_chain : exists l, chain 0 l /\ length l <= S (byte_len s).
Proof.
  destruct (chain_exists (S (S (byte_len s))) 0) as (l & Hl & Hlen); [lia|left; apply start_boundary|].
  exists l. split; [done|lia].
Qed.

Lemma from_start_fold {A} (more : A -> bool) body l acc :
  chain 0 l -> length l <= S (byte_len s) ->
  from_start find advance more body (byte_len s) acc = fold_while more body l acc.
Proof.
  intros Hl Hlen. unfold from_start. rewrite (chain_has _ _ Hl). cbn [result_bind].
  apply each_match_fold; [done|lia].
Qed.

(** ** Segments of the text *)

(** [m] is the text between two positions. *)
Definition segment (lo hi : nat) (m : list Z) : Prop :=
  exists a c, cps = a ++ m ++ c /\ lo = length (utf8 a) /\ hi = length (utf8 (a ++ m)).

Lemma segment_exists lo hi : at_boundary lo -> at_boundary hi -> lo <= hi -> exists m, segment lo hi m.
Proof.
  intros Hlo Hhi Hle. destruct (text_between _ _ _ lo hi eq_refl Hlo Hhi Hle) as (a & m & c & Ht & Hd & _ & -> & ->).
  exists m, a, c. split_and!; [|done|by rewrite utf8_app, length_app].
  apply utf8_inj; [apply Hstr|done|]. rewrite (str_data _ _ Hstr) in Hd. by apply app_inv_tail in Hd.
Qed.

Lemma utf8_prefix_unique a c a' c' :
  text (a ++ c) -> a ++ c = a' ++ c' -> length (utf8 a) = length (utf8 a') -> a = a'.
Proof.
  intros Ht E Hl. assert (Ht' : text (a' ++ c')) by (by rewrite <- E).
  apply Forall_app in Ht as [Ha _]. apply Forall_app in Ht' as [Ha' _].
  apply utf8_inj; [done|done|]. apply (f_equal utf8) in E. rewrite !utf8_app in E. by apply app_inj_1 in E as [? _].
Qed.

Lemma segment_app lo mid hi m m' : segment lo mid m -> segment mid hi m' -> segment lo hi (m ++ m').
Proof.
  intros (a & c & E & -> & ->) (a' & c' & E' & Hl & ->).
  assert (a ++ m = a') as <-.
  { eapply (utf8_prefix_unique _ c _ (m' ++ c')); [|by rewrite <- app_assoc, <- E|done].
    rewrite <- app_assoc, <- E. apply Hstr. }
  exists a, c'. split_and!; [by rewrite E', <- !app_assoc|done|by rewrite app_assoc].
Qed.

Lemma segment_whole m : segment 0 (byte_len s) m -> m = cps.
Proof.
  intros (a & c & E & Ha & Hm). rewrite (byte_len_ok _ _ Hstr), E in Hm.
  assert (Hz : forall l, text l -> length (utf8 l) = 0 -> l = []).
  { intros [|x l] Ht; [done|]. rewrite utf8_cons, length_app. apply Forall_cons in Ht as [Hx _].
    pose proof (sequence_length _ _ (char_sequence _ Hx)). lia. }
  pose proof (str_text _ _ Hstr) as Ht. rewrite E in Ht. apply Forall_app in Ht as [Hta Ht]. apply Forall_app in Ht as [_ Htc].
  rewrite !utf8_app, !length_app in Hm.
  rewrite E, (Hz a Hta), (Hz c Htc) by lia. by rewrite app_nil_r.
Qed.

Lemma substr_segment lo hi m : segment lo hi m -> exists piece, substr (s_data s) lo hi = Ok piece /\ str_ok piece m.
Proof.
  intros (a & c & E & -> & ->). unfold substr. rewrite utf8_app, length_app, panic_sub_ok by lia. cbn [result_bind].
  replace (length (utf8 a) + length (utf8 m) - length (utf8 a)) with (length (utf8 m)) by lia.
  rewrite (str_data _ _ Hstr), E, !utf8_app, <- !app_assoc, bytes_at_ok by done. cbn [result_bind].
  pose proof (str_text _ _ Hstr) as Ht. rewrite E in Ht. apply Forall_app in Ht as [_ Ht]. apply Forall_app in Ht as [Ht _].
  rewrite Nat.add_1_r. destruct (from_owned_cstr_valid m Ht) as (piece & -> & Hok). by exists piece.
Qed.

(** Where a list of spans cuts the text that is left. *)
Inductive cut : nat -> list (Match * nat * nat) -> list (list Z) -> list (list Z) -> Prop :=
| cut_last last x : segment last (byte_len s) x -> cut last [] [x] []
| cut_match last m b e l x y pieces found :
    span m b e -> segment last b x -> segment b e y -> cut e l pieces found ->
    cut last ((m, b, e) :: l) (x :: pieces) (y :: found).

Lemma chain_cut pos l : chain pos l -> forall k last, at_boundary last -> last <= pos ->
  exists pieces found, cut last (take k l) pieces found.
Proof.
  assert (Hend : forall last, at_boundary last -> exists pieces found, cut last [] pieces found).
  { intros last Hb. destruct (segment_exists last (byte_len s) Hb) as [x Hx];
      [eapply boundary_end, str_subject, Hstr|by apply (boundary_le _ _ _ _ Hb)|].
    exists [x], []. by apply cut_last. }
  induction 1 as [pos|pos m b e pos' l Hf Hm Hle Ha He Hl IH]; intros k last Hb Hp; [rewrite take_nil; by apply Hend|].
  destruct k as [|k]; [by apply Hend|]. simpl.
  destruct (segment_exists last b Hb (span_low _ _ _ Hm)) as [x Hx]; [lia|].
  destruct (segment_exists b e (span_low _ _ _ Hm) (span_high _ _ _ Hm) (span_order _ _ _ Hm)) as [y Hy].
  destruct (IH k e (span_high _ _ _ Hm) He) as (pieces & found & Hc). exists (x :: pieces), (y :: found). by apply cut_match.
Qed.

(** ** The loops *)

Notation all := (fun _ => true).

(** A bound on the number of rounds takes that many matches. *)
Lemma fold_while_count {A} (num : A -> nat) count body :
  (forall m acc acc', body m acc = Ok acc' -> num acc' = num acc + 1) ->
  forall l acc, fold_while (fun acc => below_count count (num acc)) body l acc =
    fold_while all body (take (if count =? 0 then length l else count - num acc) l) acc.
Proof.
  intros Hnum. induction l as [|[[m b] e] l IH]; intros acc; [by rewrite take_nil|].
  cbn [fold_while]. unfold below_count at 1. destruct (Nat.eqb_spec count 0) as [->|Hc].
  - cbn [orb length take fold_while]. destruct (body m acc) as [acc'|err]; cbn [result_bind]; [|done].
    by rewrite IH.
  - cbn [orb]. destruct (Nat.ltb_spec (num acc) count) as [Hlt|Hge].
    + replace (count - num acc) with (S (count - (num acc + 1))) by lia. cbn [take fold_while].
      destruct (body m acc) as [acc'|err] eqn:Hb; cbn [result_bind]; [|done].
      by rewrite IH, (Hnum _ _ _ Hb).
    + by replace (count - num acc) with 0 by lia.
Qed.

Lemma sub_step_count repl m acc acc' : sub_step repl s m acc = Ok acc' -> acc'.2 = acc.2 + 1.
Proof.
  destruct acc as [[out last] n]. unfold sub_step. intros H.
  repeat match type of H with result_bind ?x _ = _ => destruct x; cbn [result_bind] in H; [|done] end.
  by injection H as <-.
Qed.

Lemma split_step_count m acc acc' : split_step s m acc = Ok acc' -> acc'.2 = acc.2 + 1.
Proof.
  destruct acc as [[out last] n]. unfold split_step. intros H.
  repeat match type of H with result_bind ?x _ = _ => destruct x; cbn [result_bind] in H; [|done] end.
  by injection H as <-.
Qed.

Ltac read_span Hm :=
  rewrite (span_start _ _ _ Hm); cbn [result_bind or_panic]; rewrite (span_stop _ _ _ Hm); cbn [result_bind or_panic].

Lemma split_cut last l pieces found : cut last l pieces found -> forall out n,
  exists parts, (let? (out, last_end, n) := fold_while all (split_step s) l (out, last, n) in
                 let? piece := substr (s_data s) last_end (byte_len s) in Ok (out ++ [piece])) = Ok (out ++ parts) /\
    Forall2 str_ok parts pieces.
Proof.
  induction 1 as [last x Hx|last m b e l x y pieces found Hm Hx Hy Hc IH]; intros out n.
  - destruct (substr_segment _ _ _ Hx) as (piece & Hp & Hok). cbn [fold_while result_bind]. rewrite Hp.
    exists [piece]. split; [done|constructor; [exact Hok|constructor]].
  - destruct (substr_segment _ _ _ Hx) as (piece & Hp & Hok). cbn [fold_while]. unfold split_step at 1.
    read_span Hm. rewrite Hp. cbn [result_bind].
    destruct (IH (out ++ [piece]) (n + 1)) as (parts & E & Hparts). exists (piece :: parts).
    split; [by rewrite E, <- app_assoc|by constructor].
Qed.

Lemma sub_cut repl rcps last l pieces found : str_ok repl rcps -> cut last l pieces found ->
  forall out ocps n, str_ok out ocps ->
  exists res, (let? (out, last_end, n) := fold_while all (sub_step repl s) l (out, last, n) in
               let? piece := substr (s_data s) last_end (byte_len s) in
               let? out := str_add out piece in Ok (out, n)) = Ok (res, n + length l) /\
    str_ok res (ocps ++ intercalate rcps pieces).
Proof.
  intros Hr. induction 1 as [last x Hx|last m b e l x y pieces found Hm Hx Hy Hc IH]; intros out ocps n Ho.
  - destruct (substr_segment _ _ _ Hx) as (piece & Hp & Hok). cbn [fold_while result_bind]. rewrite Hp. cbn [result_bind].
    destruct (str_add_ok _ _ _ _ Ho Hok) as (res & -> & Hres). exists res. split; [by rewrite Nat.add_0_r|done].
  - destruct (substr_segment _ _ _ Hx) as (piece & Hp & Hok). cbn [fold_while]. unfold sub_step at 1.
    read_span Hm. rewrite Hp. cbn [result_bind].
    destruct (str_add_ok _ _ _ _ Ho Hok) as (o1 & -> & H1). cbn [result_bind].
    destruct (str_add_ok _ _ _ _ H1 Hr) as (o2 & -> & H2). cbn [result_bind].
    destruct (IH o2 _ (n + 1) H2) as (res & E & Hres). exists res. rewrite E. split; [do 2 f_equal; simpl; lia|].
    rewrite intercalate_cons by (by destruct Hc). by rewrite <- !app_assoc in Hres.
Qed.

Lemma findall_cut last l pieces found : cut last l pieces found -> forall out,
  exists parts, fold_while all findall_step l out = Ok (out ++ parts) /\ Forall2 str_ok parts found.
Proof.
  induction 1 as [last x Hx|last m b e l x y pieces found Hm Hx Hy Hc IH]; intros out.
  - exists []. split; [by rewrite app_nil_r|constructor].
  - destruct (substr_segment _ _ _ Hy) as (piece & Hp & Hok). cbn [fold_while]. unfold findall_step at 1.
    rewrite (span_group _ _ _ Hm), Hp. cbn [result_bind or_panic].
    destruct (IH (out ++ [piece])) as (parts & E & Hparts). exists (piece :: parts).
    split; [by rewrite E, <- app_assoc|by constructor].
Qed.

Lemma cut_weave last l pieces found : cut last l pieces found ->
  segment last (byte_len s) (weave pieces found) /\ length found = length l.
Proof.
  induction 1 as [last x Hx|last m b e l x y pieces found Hm Hx Hy Hc [IH IHl]]; [done|].
  split; [|by simpl; rewrite IHl]. simpl. eapply segment_app; [exact Hx|]. by eapply segment_app.
Qed.

Lemma cut_take k last l pieces found pieces' found' :
  cut last l pieces found -> cut last (take k l) pieces' found' -> found' = take k found.
Proof.
  intros Hc. revert k pieces' found'. induction Hc as [last x Hx|last m b e l x y pieces found Hm Hx Hy Hc IH];
    intros k pieces' found' Hc'.
  - rewrite take_nil in Hc'. inversion Hc'. by rewrite take_nil.
  - destruct k as [|k]; [by inversion Hc'|]. simpl in Hc'.
    inversion Hc' as [|? ? ? ? ? ? y' ? found'' ? ? Hy' Hc'']; subst. simpl. rewrite (IH _ _ _ Hc''). f_equal.
    destruct Hy as (a & c & E & -> & ->), Hy' as (a' & c' & E' & Ha & Ham).
    assert (a = a') as <- by (eapply (utf8_prefix_unique _ (y ++ c) _ (y' ++ c')); [rewrite <- E; apply Hstr|by rewrite <- E|done]).
    rewrite !app_assoc in E, E'.
    assert (a ++ y = a ++ y') as ?%app_inv_head; [|done].
    eapply (utf8_prefix_unique _ c _ c'); [rewrite <- E; apply Hstr|by rewrite <- E|done].
Qed.

End span.

(** C14: [split], [sub] and [findall] cut a text alike.  For a pattern that
    cannot crash on the text and any budget of steps, there are pieces and
    matches that, alternating, are the text; with a bound on their number there
    are no more matches than that.  [split] returns the pieces; [sub] the pieces
    joined with the replacement, and counts the matches; [findall] returns all
    matches, of which the bound takes the first. *)
Theorem split_sub_findall (p : Pattern) (r : Re) (s repl : Str) (cps rcps : list Z) (max_steps : Z) (count : nat) :
  pattern_ops p = program (comp r) -> pattern_bytes p = false ->
  fit (pattern_classes p) (s_data s) (byte_len s) false (pattern_slots p) r ->
  str_ok s cps -> str_ok repl rcps -> (0 <= max_steps < 2 ^ 64 - 1)%Z ->
  exists pieces found parts out texts all_found,
    weave pieces found = cps /\ (count = 0 \/ length found <= count) /\
    split p max_steps s count = Ok parts /\ Forall2 str_ok parts pieces /\
    sub_impl p max_steps repl s count = Ok (out, length found) /\ str_ok out (intercalate rcps pieces) /\
    findall p max_steps s = Ok texts /\ Forall2 str_ok texts all_found /\
    found = (if count =? 0 then all_found else take count all_found).
Proof.
  intros Hops Hmode Hfit Hstr Hrepl Hsteps.
  destruct (scan_chain p r s cps max_steps Hops Hmode Hfit Hstr Hsteps) as (l & Hl & Hlen).
  pose proof (start_boundary s cps Hstr) as H0.
  destruct (chain_cut p s cps max_steps Hstr _ _ Hl (length l) 0 H0 (Nat.le_refl 0)) as (pieces0 & all_found & Hall).
  set (k := if count =? 0 then length l else count - 0).
  destruct (chain_cut p s cps max_steps Hstr _ _ Hl k 0 H0 (Nat.le_refl 0)) as (pieces & found & Hcut).
  destruct (cut_weave s cps Hstr _ _ _ _ Hcut) as [Hweave Hfound].
  destruct (split_cut s cps Hstr _ _ _ _ Hcut [] 0) as (parts & Esplit & Hparts).
  destruct (sub_cut s cps Hstr repl rcps _ _ _ _ Hrepl Hcut empty_str [] 0 empty_str_ok) as (out & Esub & Hout).
  destruct (findall_cut s cps Hstr _ _ _ _ Hall []) as (texts & Efind & Htexts).
  rewrite firstn_all in Hall, Efind.
  exists pieces, found, parts, out, texts, all_found. split_and!.
  - by apply (segment_whole s cps Hstr).
  - unfold k in Hfound. rewrite length_take in Hfound. destruct (Nat.eqb_spec count 0); [by left|right; lia].
  - unfold split. rewrite (from_start_fold p s max_steps _ _ l) by done.
    rewrite (fold_while_count snd count (split_step s) (split_step_count s)). exact Esplit.
  - done.
  - unfold sub_impl. rewrite (from_start_fold p s max_steps _ _ l) by done.
    rewrite (fold_while_count snd count (sub_step repl s) (sub_step_count s repl)), Hfound. exact Esub.
  - done.
  - unfold findall. by rewrite (from_start_fold p s max_steps _ _ l).
  - done.
  - rewrite (cut_take s cps Hstr k _ _ _ _ _ _ Hall Hcut). unfold k.
    destruct (cut_weave s cps Hstr _ _ _ _ Hall) as [_ Hn].
    destruct (Nat.eqb_spec count 0); [rewrite <- Hn; by rewrite firstn_all|by rewrite Nat.sub_0_r].
Qed.

(** [(a|b)+c] in ["xabcc"], replaced by ["-"]. *)
Lemma split_sub_findall_witness : exists s repl pieces found parts out texts all_found,
  str_ok s [120; 97; 98; 99; 99]%Z /\ str_ok repl [45]%Z /\
  weave pieces found = [120; 97; 98; 99; 99]%Z /\
  split sample_pattern 65536 s 0 = Ok parts /\ Forall2 str_ok parts pieces /\
  sub_impl sample_pattern 65536 repl s 0 = Ok (out, length found) /\ str_ok out (intercalate [45]%Z pieces) /\
  findall sample_pattern 65536 s = Ok texts /\ Forall2 str_ok texts all_found /\ found = all_found.
Proof.
  destruct (from_owned_cstr_valid [120; 97; 98; 99; 99]%Z) as (s & _ & Hs); [by repeat constructor|].
  destruct (from_owned_cstr_valid [45]%Z) as (repl & _ & Hr); [by repeat constructor|].
  destruct (split_sub_findall sample_pattern sample_tree s repl [120; 97; 98; 99; 99]%Z [45]%Z 65536 0 eq_refl eq_refl)
    as (pieces & found & parts & out & texts & all_found & H1 & _ & H2 & H3 & H4 & H5 & H6 & H7 & H8).
  - rewrite (str_data _ _ Hs), (byte_len_ok _ _ Hs). exact sample_fit.
  - exact Hs.
  - exact Hr.
  - done.
  - exists s, repl, pieces, found, parts, out, texts, all_found.
    exact (conj Hs (conj Hr (conj H1 (conj H2 (conj H3 (conj H4 (conj H5 (conj H6 (conj H7 H8))))))))).
Defined.

Example split_sub_sample :
  (let? r := from_owned_cstr sample_subject 6 in
   let? s := unwrap "" r in
   let? r := from_owned_cstr [45; 0]%Z 2 in
   let? repl := unwrap "" r in
   let? parts := split sample_pattern 65536 s 0 in
   let? (out, n) := sub_impl sample_pattern 65536 repl s 0 in
   let? texts := findall sample_pattern 65536 s in
   Ok (map s_data parts, s_data out, n, map s_data texts)) =
  Ok ([[120; 0]; [99; 0]], [120; 45; 99; 0], 1%nat, [[97; 98; 99; 0]])%Z.
Proof. vm_compute. reflexivity. Qed.
