(* ===== verification/RegexEscape.v ===== *)
(** * Regular expressions: escaped text ([escape] of [lib/re.py])

    [search_escaped]: the whole engine on a simple case.  Escaping a text and
    compiling the result gives a pattern whose search in a [str] answers what
    [str.find] answers. *)

From S2P Require Import Prelude RawList Bits Utf8 StrOps RegexProgram RegexMatcher RegexSpec RegexExplore RegexCompile RegexSafe RegexCorrect RegexHalts RegexExact RegexParser RegexParse RegexPattern RegexPieces.

Local Open Scope monad_scope.

Section escape.
(** [builtins.is_alnum_cp], which asks the C library or Windows. *)
Variable is_alnum_cp : Z -> bool.

(** [str] of a backslash *)
Definition backslash : Str := mkStr [92; 0]%Z 2 1 [Some 0].

Definition kept_char (cp : Z) : bool := is_alnum_cp cp || (cp =? 95)%Z.

Fixpoint escape_from (fuel : nat) (data : list Z) (n i : nat) (out : Str) : result abort Str :=
  if i <? n then
    match fuel with
    | O => Err Fault
    | S fuel =>
        let? (cp, width) := decode_utf8_at data i in
        let? piece := substr data i (i + width) in
        let? out :=
          if kept_char cp then str_add out piece
          else let? out := str_add out backslash in str_add out piece in
        escape_from fuel data n (i + width) out
    end
  else Ok out.

Definition escape (pattern : Str) : result abort Str :=
  escape_from (byte_len pattern) (s_data pattern) (byte_len pattern) 0 empty_str.

(** ** The escaped text *)

Definition escaped_char (cp : Z) : list Z := if kept_char cp then [cp] else [92; cp]%Z.

Definition escaped (cps : list Z) : list Z := concat (map escaped_char cps).

Lemma escaped_app a b : escaped (a ++ b) = escaped a ++ escaped b.
Proof. unfold escaped. by rewrite map_app, concat_app. Qed.

Lemma escaped_text cps : text cps -> text (escaped cps).
Proof.
  induction 1 as [|cp cps Hcp Ht IH]; [constructor|].
  change (text (escaped_char cp ++ escaped cps)). apply Forall_app. split; [|done].
  unfold escaped_char. destruct (kept_char cp); repeat constructor; done.
Qed.

Lemma backslash_ok : str_ok backslash [92]%Z.
Proof.
  destruct (from_owned_cstr_valid [92]%Z) as (s & E & Hs); [by repeat constructor|].
  vm_compute in E. injection E as <-. exact Hs.
Qed.

(** Where a code point is in a text. *)
Lemma decode_char_at a cp c data :
  data = utf8 (a ++ cp :: c) ++ [0%Z] -> scalar_value cp = true ->
  decode_utf8_at data (length (utf8 a)) = Ok (cp, length (utf8_char cp)).
Proof.
  intros -> Hcp. apply (decode_utf8_at_spec _ _ _ _ (utf8 c ++ [0%Z])); [by apply char_sequence|].
  by rewrite utf8_app, <- app_assoc, drop_app_length, utf8_cons, <- app_assoc.
Qed.

Lemma text_head a cp c : text (a ++ cp :: c) -> scalar_value cp = true.
Proof. intros Ht. apply Forall_app in Ht as [_ Ht]. by apply Forall_cons in Ht as [? _]. Qed.

Lemma length_utf8_snoc a cp : length (utf8 (a ++ [cp])) = length (utf8 a) + length (utf8_char cp).
Proof. by rewrite utf8_app, length_app, utf8_singleton. Qed.

Lemma length_utf8_char cp : scalar_value cp = true -> 0 < length (utf8_char cp).
Proof. intros Hcp. pose proof (sequence_length _ _ (char_sequence _ Hcp)). lia. Qed.

Lemma escape_from_ok s cps : str_ok s cps -> forall todo fuel a out,
  cps = a ++ todo -> str_ok out (escaped a) -> length todo <= fuel ->
  exists e, escape_from fuel (s_data s) (byte_len s) (length (utf8 a)) out = Ok e /\ str_ok e (escaped cps).
Proof.
  intros Hs. induction todo as [|cp todo IH]; intros fuel a out E Hout Hf.
  - rewrite app_nil_r in E. subst a. exists out. split; [|done].
    destruct fuel; cbn [escape_from]; by rewrite (byte_len_ok _ _ Hs), Nat.ltb_irrefl.
  - simpl in Hf. destruct fuel as [|fuel]; [lia|]. cbn [escape_from].
    assert (Hcp : scalar_value cp = true) by (eapply text_head; rewrite <- E; apply Hs).
    pose proof (length_utf8_char _ Hcp).
    rewrite (proj2 (Nat.ltb_lt _ _)).
    2:{ rewrite (byte_len_ok _ _ Hs), E, utf8_app, utf8_cons, !length_app. lia. }
    rewrite (decode_char_at a cp todo) by (by rewrite ?(str_data _ _ Hs), ?E). cbn [result_bind].
    destruct (substr_segment s cps Hs (length (utf8 a)) (length (utf8 a) + length (utf8_char cp)) [cp]) as (piece & Hp & Hpiece).
    { exists a, todo. split_and!; [done|done|by rewrite length_utf8_snoc]. }
    rewrite Hp. cbn [result_bind].
    assert (Hnext : exists out', (if kept_char cp then str_add out piece
        else let? out := str_add out backslash in str_add out piece) = Ok out' /\ str_ok out' (escaped (a ++ [cp]))).
    { rewrite escaped_app. unfold escaped at 2. cbn [map concat]. rewrite app_nil_r. unfold escaped_char.
      destruct (kept_char cp); [by apply str_add_ok|].
      destruct (str_add_ok _ _ _ _ Hout backslash_ok) as (o & -> & Ho). cbn [result_bind].
      destruct (str_add_ok _ _ _ _ Ho Hpiece) as (o' & -> & Ho'). exists o'. split; [done|]. by rewrite <- app_assoc in Ho'. }
    destruct Hnext as (out' & -> & Hout'). cbn [result_bind]. rewrite <- length_utf8_snoc.
    apply IH; [by rewrite <- app_assoc|done|lia].
Qed.

Lemma text_length_utf8 cps : text cps -> length cps <= length (utf8 cps).
Proof. apply utf8_length. Qed.

Lemma escape_ok s cps : str_ok s cps -> exists e, escape s = Ok e /\ str_ok e (escaped cps).
Proof.
  intros Hs. unfold escape. change 0 with (length (utf8 [])) at 1.
  apply (escape_from_ok s cps Hs cps); [done|apply empty_str_ok|].
  rewrite (byte_len_ok _ _ Hs). by apply text_length_utf8, Hs.
Qed.

(** ** Its parse *)

(** What the C standard and the Windows tables say of ASCII. *)
Hypothesis Hascii : forall cp, (0 <= cp < 128)%Z ->
  is_alnum_cp cp = ((48 <=? cp) && (cp <=? 57) || (65 <=? cp) && (cp <=? 90) || (97 <=? cp) && (cp <=? 122))%Z.

(** The first byte of a code point that is kept, or not. *)
Lemma char_first cp : scalar_value cp = true ->
  exists b t, utf8_char cp = b :: t /\ (((0 <= b < 128)%Z /\ b = cp) \/ (192 <= b)%Z).
Proof.
  intros Hcp. apply char_sequence in Hcp. destruct Hcp; eexists _, _; (split; [done|]); [left; lia|right; lia..].
Qed.

Definition first_byte (k : bool) (b : Z) : Prop := (0 <= b < 128)%Z /\ kept_char b = k \/ (192 <= b)%Z.

Lemma first_byte_not k b n : first_byte k b -> (0 <= n < 128)%Z -> kept_char n = negb k -> (b =? n)%Z = false.
Proof. intros [[_ Hb]|Hb] Hn Hk; apply Z.eqb_neq; [intros ->; rewrite Hk in Hb; by destruct k|lia]. Qed.

Ltac kept_ascii := unfold kept_char; rewrite Hascii by lia; reflexivity.

(** [b] is not the byte [n] of the pattern syntax. *)
Ltac not_bytes H := repeat match goal with
  | |- context [Z.eqb ?b ?n] => rewrite (first_byte_not _ b n H) by (first [done | kept_ascii])
  end.

Lemma escaped_first cp c : scalar_value cp = true ->
  exists b t, utf8 (escaped_char cp ++ c) = b :: t /\ (b = 92%Z \/ first_byte true b).
Proof.
  intros Hcp. unfold escaped_char. destruct (kept_char cp) eqn:Hk.
  - destruct (char_first _ Hcp) as (b & t & E & Hb). exists b, (t ++ utf8 c). simpl app.
    rewrite utf8_cons, E. split; [done|]. right. destruct Hb as [[Hb ->]|Hb]; [by left|by right].
  - exists 92%Z, (utf8 (cp :: c)). split; [|by left]. simpl app. by rewrite utf8_cons.
Qed.

Lemma read_first a b t x : read_ptr (utf8 a ++ (b :: t) ++ x) (length (utf8 a)) = Ok b.
Proof. unfold read_ptr. rewrite lookup_app_r, Nat.sub_diag by done. done. Qed.

(** *** Running the parser *)

Section run.
Variables (data : list Z) (text_len : nat).

Lemma run_at_end {B} (k : bool -> M Parser abort B) s : bind (at_end text_len) k s = k (text_len <=? pos s) s.
Proof. done. Qed.

Lemma run_peek {B} (k : Z -> M Parser abort B) s b : read_ptr data (pos s) = Ok b -> bind (peek_byte data) k s = k b s.
Proof. intros H. unfold bind, peek_byte. by rewrite H. Qed.

Lemma run_advance {B} (k : unit -> M Parser abort B) s : bind advance_byte k s = k tt (set_pos (pos s + 1) s).
Proof. done. Qed.

Lemma run_decode {B} (k : Z -> M Parser abort B) s cp w :
  decode_utf8_at data (pos s) = Ok (cp, w) -> bind (decode_cp data false) k s = k cp (set_pos (pos s + w) s).
Proof. intros H. unfold bind, decode_cp, get, lift, modify. unfold bind. rewrite H. done. Qed.

Lemma run_at_byte {B} p (k : bool -> M Parser abort B) s b :
  read_ptr data (pos s) = Ok b -> pos s < text_len -> bind (at_byte data text_len p) k s = k (p b) s.
Proof.
  intros H Hlt. unfold bind, at_byte, at_end, peek_byte. unfold bind.
  rewrite (proj2 (Nat.leb_gt _ _)) by done. by rewrite H.
Qed.

Lemma run_at_byte_end {B} p (k : bool -> M Parser abort B) s :
  text_len <= pos s -> bind (at_byte data text_len p) k s = k false s.
Proof.
  intros H. unfold bind, at_byte, at_end. unfold bind. by rewrite (proj2 (Nat.leb_le _ _)).
Qed.

End run.

Lemma set_pos_twice n m s : set_pos n (set_pos m s) = set_pos n s.
Proof. done. Qed.

(** One escaped code point, up to the next. *)
Lemma escaped_atom alt a cp c s :
  scalar_value cp = true -> pos s = length (utf8 a) ->
  let whole := a ++ escaped_char cp ++ c in
  parse_atom (utf8 whole ++ [0%Z]) (length (utf8 whole)) false alt s =
    (Ok (Ok [CHAR cp]), set_pos (length (utf8 (a ++ escaped_char cp))) s).
Proof.
  intros Hcp Hpos whole. pose proof (length_utf8_char _ Hcp) as Hw.
  destruct (escaped_first cp c Hcp) as (b & t & Hb & Hfirst).
  assert (Hr : read_ptr (utf8 whole ++ [0%Z]) (pos s) = Ok b).
  { rewrite Hpos. unfold whole. rewrite (utf8_app a), Hb, <- app_assoc. apply read_first. }
  assert (Hlen : length (utf8 whole) = length (utf8 a) + S (length t)).
  { unfold whole. by rewrite (utf8_app a), Hb, length_app. }
  unfold parse_atom. rewrite run_at_end, (proj2 (Nat.leb_gt _ _)) by lia. cbv iota. rewrite (run_peek _ _ _ _ Hr).
  unfold escaped_char in *. destruct (kept_char cp) eqn:Hk.
  - assert (Hf : first_byte true b).
    { destruct (char_first _ Hcp) as (b' & t' & E & Hb'). simpl app in Hb. rewrite utf8_cons, E in Hb. injection Hb as <- _.
      destruct Hb' as [[? ->]|?]; [by left|by right]. }
    not_bytes Hf. cbn [orb]. rewrite (run_decode _ _ _ cp (length (utf8_char cp))).
    + unfold op_result, ret, single_op_fragment. do 2 f_equal. by rewrite Hpos, length_utf8_snoc.
    + rewrite Hpos. unfold whole. by apply (decode_char_at _ _ c).
  - destruct (char_first _ Hcp) as (b' & t' & E & Hb').
    assert (b = 92%Z) as ->.
    { simpl app in Hb. rewrite utf8_cons in Hb. by injection Hb as <- _. }
    cbn [Z.eqb Pos.eqb]. unfold parse_escape_atom. rewrite run_advance, run_at_end.
    assert (Hwhole : whole = (a ++ [92%Z]) ++ cp :: c) by (unfold whole; by rewrite <- app_assoc).
    assert (Hpos' : pos (set_pos (pos s + 1) s) = length (utf8 (a ++ [92%Z]))).
    { cbn [pos set_pos]. by rewrite Hpos, length_utf8_snoc. }
    rewrite Hpos', (proj2 (Nat.leb_gt _ _)).
    2:{ rewrite Hwhole, (utf8_app (a ++ [92%Z])), utf8_cons, !length_app. lia. }
    cbv iota. rewrite (run_peek _ _ _ b').
    2:{ rewrite Hpos', Hwhole, (utf8_app (a ++ [92%Z])), utf8_cons, E, <- !app_assoc. apply read_first. }
    assert (Hf : first_byte false b') by (destruct Hb' as [[? ->]|?]; [by left|by right]).
    unfold common_escape_cp. not_bytes Hf. cbn [orb].
    replace ((49 <=? b') && (b' <=? 57))%Z with false.
    2:{ symmetry. destruct Hf as [[Hr' Hk']|Hf]; [|lia]. destruct ((49 <=? b') && (b' <=? 57))%Z eqn:Ed; [|done].
        unfold kept_char in Hk'. rewrite (Hascii _ Hr') in Hk'. lia. }
    rewrite (run_decode _ _ _ cp (length (utf8_char cp))).
    + unfold op_result, ret, single_op_fragment. f_equal.
      rewrite Hpos', set_pos_twice. f_equal. change [92%Z; cp] with ([92%Z] ++ [cp]). by rewrite app_assoc, (length_utf8_snoc (a ++ [92%Z]) cp).
    + rewrite Hpos'. by apply (decode_char_at _ _ c); [rewrite Hwhole|].
Qed.

(** What may follow: another escaped code point, or nothing. *)
Lemma escaped_next alt a cp todo s :
  scalar_value cp = true -> text todo -> pos s = length (utf8 a) ->
  let whole := a ++ escaped_char cp ++ escaped todo in
  parse_repeat (utf8 whole ++ [0%Z]) (length (utf8 whole)) false alt s =
    (Ok (Ok [CHAR cp]), set_pos (length (utf8 (a ++ escaped_char cp))) s).
Proof.
  intros Hcp Ht Hpos whole. unfold parse_repeat, or_return.
  unfold bind at 1. unfold whole. rewrite (escaped_atom alt a cp (escaped todo) s Hcp Hpos). fold whole.
  rewrite run_at_end. cbn [pos set_pos].
  destruct Ht as [|cp' todo Hcp' Ht].
  - unfold whole. rewrite app_nil_r, (proj2 (Nat.leb_le _ _)) by done. done.
  - destruct (escaped_first cp' (escaped todo) Hcp') as (b & t & Hb & Hfirst).
    assert (Hwhole : whole = (a ++ escaped_char cp) ++ escaped_char cp' ++ escaped todo) by (unfold whole; by rewrite <- app_assoc).
    rewrite Hwhole, (utf8_app (a ++ escaped_char cp)), Hb.
    rewrite (proj2 (Nat.leb_gt _ _)) by (rewrite length_app; simpl; lia). cbv iota.
    rewrite (run_peek _ _ _ b) by (cbn [pos set_pos]; rewrite <- app_assoc; apply read_first).
    destruct Hfirst as [->|Hf]; [done|]. not_bytes Hf. done.
Qed.

(** The tree of a text. *)
Definition literal (cps : list Z) : Re := fold_left (fun r cp => RCat r (RTest (CHAR cp))) cps REmpty.

Lemma literal_snoc cps cp : literal (cps ++ [cp]) = RCat (literal cps) (RTest (CHAR cp)).
Proof. unfold literal. by rewrite fold_left_app. Qed.

Lemma escaped_concat alt todo : forall fuel done s,
  text (done ++ todo) -> pos s = length (utf8 (escaped done)) -> length todo < fuel ->
  let whole := escaped (done ++ todo) in
  concat_from (utf8 whole ++ [0%Z]) (length (utf8 whole)) false alt fuel (comp (literal done)) s =
    (Ok (Ok (comp (literal (done ++ todo)))), set_pos (length (utf8 whole)) s).
Proof.
  induction todo as [|cp todo IH]; intros fuel done s Ht Hpos Hf whole; (destruct fuel as [|fuel]; [simpl in Hf; lia|]);
    cbn [concat_from].
  - assert (Hwhole : whole = escaped done) by (unfold whole; by rewrite app_nil_r).
    rewrite Hwhole, run_at_byte_end by lia. cbv iota. rewrite app_nil_r, <- Hpos. by destruct s.
  - pose proof (text_head _ _ _ Ht) as Hcp.
    assert (Htodo : text todo) by (apply Forall_app in Ht as [_ Ht]; by apply Forall_cons in Ht as [_ ?]).
    assert (Hwhole : whole = escaped done ++ escaped_char cp ++ escaped todo) by (unfold whole; by rewrite escaped_app).
    destruct (escaped_first cp (escaped todo) Hcp) as (b & t & Hb & Hfirst).
    rewrite (run_at_byte _ _ _ _ _ b).
    2:{ rewrite Hpos, Hwhole, utf8_app, Hb, <- app_assoc. apply read_first. }
    2:{ rewrite Hpos, Hwhole, utf8_app, Hb, length_app. simpl. lia. }
    replace (negb (b =? 124)%Z && negb (b =? 41)%Z) with true by (destruct Hfirst as [->|Hf']; [done|not_bytes Hf'; done]).
    cbv iota. unfold or_return. unfold bind at 1. rewrite Hwhole.
    rewrite (escaped_next alt (escaped done) cp todo s Hcp Htodo Hpos). rewrite <- Hwhole.
    assert (Hout : append_fragment (comp (literal done)) [CHAR cp] = comp (literal (done ++ [cp]))) by (by rewrite literal_snoc).
    rewrite Hout. unfold whole. replace (done ++ cp :: todo) with ((done ++ [cp]) ++ todo) in * by (by rewrite <- app_assoc).
    rewrite IH; [by rewrite set_pos_twice|done| |simpl in Hf; lia].
    cbn [pos set_pos]. rewrite escaped_app. unfold escaped at 3. cbn [map concat]. by rewrite app_nil_r.
Qed.

Definition literal_pattern (cps : list Z) (flags : Z) : Pattern :=
  mkPattern (program (comp (literal cps))) [] 2 flags [] false.

Lemma escaped_length cps : length cps <= length (escaped cps).
Proof.
  induction cps as [|cp cps IH]; [simpl; lia|]. change (escaped (cp :: cps)) with (escaped_char cp ++ escaped cps).
  rewrite length_app. unfold escaped_char. destruct (kept_char cp); simpl; lia.
Qed.

Lemma escaped_compiles e cps flags :
  text cps -> str_ok e (escaped cps) -> compile_str e flags = Ok (Ok (literal_pattern cps flags)).
Proof.
  intros Ht He. unfold compile_str, compile_from_parser, compile_with_parser.
  rewrite (str_data _ _ He), (byte_len_ok _ _ He). set (len := length (utf8 (escaped cps))).
  assert (Hconcat : parse_concat (utf8 (escaped cps) ++ [0%Z]) len false
      (parse_alt (utf8 (escaped cps) ++ [0%Z]) len false len) new_parser =
      (Ok (Ok (comp (literal cps))), set_pos len new_parser)).
  { unfold parse_concat. unfold bind at 1. cbn [get]. unfold loop_fuel. cbn [pos new_parser].
    pose proof (escaped_length cps). pose proof (text_length_utf8 _ (escaped_text _ Ht)).
    apply (escaped_concat _ cps (S (len - 0)) [] new_parser); [done|done|unfold len; lia]. }
  unfold or_return. unfold bind at 1. cbn [parse_alt]. unfold alt_body, or_return. unfold bind at 1. rewrite Hconcat.
  unfold bind at 1. cbn [get]. unfold bind at 1. unfold loop_fuel. cbn [branches_from].
  rewrite run_at_byte_end by done. cbn [ret build_alternation].
  rewrite run_at_end. cbn [pos set_pos]. rewrite Nat.leb_refl. done.
Qed.

(** ** Its meaning *)

Section meaning.
Variables (cps scps : list Z) (flags : Z).
Hypothesis Hcase : has_flag flags IGNORECASE = false.
Hypothesis Hscps : text scps.

Notation data := (utf8 scps ++ [0%Z]).
Notation len := (length (utf8 scps)).

Lemma char_matches u v cp k : scps = u ++ v ->
  test_op [] data len false flags (CHAR cp) (length (utf8 u)) k =
  Ok (match v with
      | [] => None
      | cp' :: _ => if (cp' =? cp)%Z then Some (length (utf8 (u ++ [cp']))) else None
      end).
Proof.
  intros E. cbn [test_op]. rewrite Hcase. destruct v as [|cp' v].
  - rewrite app_nil_r in E. subst u. by rewrite Nat.ltb_irrefl.
  - assert (Hcp : scalar_value cp' = true) by (eapply text_head; by rewrite <- E).
    pose proof (length_utf8_char _ Hcp).
    rewrite (proj2 (Nat.ltb_lt _ _)) by (rewrite E, utf8_app, utf8_cons, !length_app; lia).
    assert (Hd : decode_utf8_at data (length (utf8 u)) = Ok (cp', length (utf8_char cp')))
      by (by apply (decode_char_at u cp' v); [rewrite E|]).
    unfold codepoint_at. rewrite Hd. cbn [result_bind andb]. rewrite orb_false_r. unfold advance.
    destruct (cp' =? cp)%Z; [|done]. unfold codepoint_width_at. rewrite Hd. cbn [result_bind].
    by rewrite length_utf8_snoc.
Qed.

Lemma literal_sem : forall u v k c y, scps = u ++ v ->
  sem [] data len false flags (literal cps) (length (utf8 u), k) c y <->
  c = [] /\ (exists w, v = cps ++ w) /\ y = (length (utf8 (u ++ cps)), k).
Proof.
  induction cps as [|cp cps' IH] using rev_ind; intros u v k c y E.
  - unfold literal. cbn [fold_left sem]. unfold eps_rel. rewrite app_nil_r. split.
    + intros [-> ->]. split_and!; [done|by exists v|done].
    + by intros (-> & _ & ->).
  - rewrite literal_snoc. cbn [sem]. split.
    + intros (c1 & x & c2 & -> & H1 & [-> (sp & Hsp & ->)]). apply (IH u v) in H1 as (-> & (w & ->) & ->); [|done].
      cbn [fst snd] in Hsp. rewrite (char_matches _ w) in Hsp by (by rewrite <- app_assoc). destruct w as [|cp' w]; [done|].
      destruct (Z.eqb_spec cp' cp) as [->|]; [|done]. injection Hsp as <-.
      split_and!; [done|exists w; by rewrite <- app_assoc|by rewrite <- app_assoc].
    + intros (-> & (w & ->) & ->). exists [], (length (utf8 (u ++ cps')), k), []. split_and!; [done| |].
      * apply (IH u (cps' ++ cp :: w)); [by rewrite E, <- app_assoc|]. split_and!; [done|by exists (cp :: w)|done].
      * split; [done|]. cbn [fst snd]. exists (length (utf8 (u ++ cps' ++ [cp]))). split; [|done].
        rewrite (char_matches _ (cp :: w)) by (by rewrite E, <- !app_assoc). by rewrite Z.eqb_refl, <- app_assoc.
Qed.

Lemma literal_wf n m open : wf n m open (literal cps).
Proof.
  induction cps as [|cp cps' IH] using rev_ind; [done|]. rewrite literal_snoc. by split.
Qed.

Lemma literal_closed open : closed_refs open (literal cps) = true.
Proof.
  induction cps as [|cp cps' IH] using rev_ind; [done|]. rewrite literal_snoc. cbn [closed_refs]. by rewrite IH.
Qed.

Lemma literal_plain : looks_behind (literal cps) = false /\ progressing (literal cps) = true.
Proof.
  induction cps as [|cp cps' IH] using rev_ind; [done|]. rewrite literal_snoc. cbn [looks_behind progressing].
  by destruct IH as [-> ->].
Qed.

Lemma literal_fit : fit [] data len false 2 (literal cps).
Proof.
  split.
  - by eapply subject_str.
  - split_and!; [by intros ?%elem_of_nil|lia|apply literal_wf].
  - apply (literal_closed [0]).
  - intros H. by rewrite (proj1 literal_plain) in H.
Qed.

(** Where the pattern matches, the text is. *)
Lemma literal_whole u v : scps = u ++ v ->
  (exists c y, sem [] data len false flags (whole (literal cps)) (length (utf8 u), no_captures 2) c y) <-> exists w, v = cps ++ w.
Proof.
  intros E. cbn [whole sem]. split.
  - intros (c & y & c1 & x1 & c2 & _ & (c3 & x2 & c4 & _ & [_ (k & _ & ->)] & H) & _).
    cbn [fst snd] in H. by apply (literal_sem u v) in H as (_ & H & _).
  - intros Hw. eexists _, _, _, _, _. split; [done|]. split.
    + eexists _, _, _. split; [done|]. split; [split; [done|]; by eexists|].
      apply (literal_sem u v); [done|]. split_and!; [done|done|done].
    + split; [done|]. eexists. split; [|done]. reflexivity.
Qed.

End meaning.

(** ** Searching for it *)

Lemma first_at_found (P : nat -> Prop) r b :
  first_at P 0 r -> P b -> (forall j, j < b -> ~ P j) -> r = Z.of_nat b.
Proof.
  intros [[-> Hno]|(i & -> & _ & Hi & Hmin)] Hb Hfirst; [destruct (Hno b); [lia|done]|].
  destruct (decide (i < b)) as [Hlt|]; [by destruct (Hfirst i Hlt)|].
  destruct (decide (b < i)) as [Hlt|]; [destruct (Hmin b); [lia|done]|]. f_equal. lia.
Qed.

Section found.
Variables (cps scps : list Z) (flags : Z).
Hypothesis Hcase : has_flag flags IGNORECASE = false.
Hypothesis Hcps : text cps.
Hypothesis Hscps : text scps.

Notation at_boundary := (RegexSafe.at_boundary (utf8 scps ++ [0%Z]) (length (utf8 scps)) false).
Notation matches b := (exists c y, sem [] (utf8 scps ++ [0%Z]) (length (utf8 scps)) false flags
  (RegexExact.whole (literal cps)) (b, no_captures 2) c y).

Lemma boundary_text b : at_boundary b -> exists u v, scps = u ++ v /\ b = length (utf8 u).
Proof.
  intros [_ Hb]. destruct (Hb eq_refl) as (u & v & Ht & Hd & _ & ->). exists u, v. split; [|done].
  apply utf8_inj; [done|done|]. by apply app_inv_tail in Hd.
Qed.

Lemma text_boundary u v : scps = u ++ v -> at_boundary (length (utf8 u)).
Proof.
  intros ->. split; [rewrite utf8_app, length_app; lia|]. intros _. by exists u, v.
Qed.

(** A match is an occurrence, and the first one is the first. *)
Lemma matches_occurs b : at_boundary b -> matches b -> occurs (utf8 cps) (utf8 scps) b.
Proof.
  intros Hb Hm. destruct (boundary_text _ Hb) as (u & v & E & ->).
  apply (literal_whole cps scps flags Hcase Hscps u v E) in Hm as [w ->].
  exists (utf8 u), (utf8 w). by rewrite E, !utf8_app.
Qed.

Lemma occurs_matches j : occurs (utf8 cps) (utf8 scps) j ->
  exists b, b <= j /\ at_boundary b /\ matches b.
Proof.
  intros Ho. destruct (decide (cps = [])) as [->|Hne].
  - exists 0. split_and!; [lia|by apply (text_boundary [] scps)|].
    apply (literal_whole [] scps flags Hcase Hscps [] scps eq_refl). by exists scps.
  - apply occurs_text in Ho as (u & w & E & ->); [|done|done|done]. exists (length (utf8 u)).
    split_and!; [lia|by eapply text_boundary|].
    apply (literal_whole cps scps flags Hcase Hscps u (cps ++ w) E). by exists w.
Qed.

Lemma literal_length b c y : at_boundary b ->
  sem [] (utf8 scps ++ [0%Z]) (length (utf8 scps)) false flags (RegexExact.whole (literal cps)) (b, no_captures 2) c y ->
  y.1 = b + length (utf8 cps).
Proof.
  intros Hb (c1 & x1 & c2 & _ & (c3 & x2 & c4 & _ & [_ (k & _ & ->)] & H) & [_ (k' & _ & ->)]).
  destruct (boundary_text _ Hb) as (u & v & E & ->). cbn [fst snd] in H |- *.
  apply (literal_sem cps scps flags Hcase Hscps u v) in H as (_ & _ & ->); [|done]. cbn [fst].
  by rewrite utf8_app, length_app.
Qed.

End found.

(** C12: searching for an escaped text finds what [str.find] finds.  Escaping
    any [str] gives a pattern that compiles; with enough steps, and case not
    ignored, its search in a [str] from the start reports no match where [find]
    returns -1, and otherwise a match from the offset that [find] returns to the
    end of the text found. *)
Theorem search_escaped (s sub : Str) (scps cps : list Z) (flags : Z) :
  str_ok s scps -> str_ok sub cps -> has_flag flags IGNORECASE = false ->
  exists e p, escape sub = Ok e /\ compile_str e flags = Ok (Ok p) /\
    exists N : nat, forall max_steps, (Z.of_nat N <= max_steps < 2 ^ 64 - 1)%Z ->
      exists i, str_find s sub 0 = Ok i /\
        if (i =? -1)%Z then search_from p max_steps s 0 = Ok (Err NoMatch)
        else exists m, search_from p max_steps s 0 = Ok (Ok m) /\
          match_start m 0 = Ok (Some (Z.to_nat i)) /\
          match_end m 0 = Ok (Some (Z.to_nat i + byte_len sub)).
Proof.
  intros Hs Hsub Hcase. pose proof (str_text _ _ Hs) as Hscps. pose proof (str_text _ _ Hsub) as Hcps.
  destruct (escape_ok _ _ Hsub) as (e & He & Hes). exists e, (literal_pattern cps flags).
  split; [done|]. split; [by apply escaped_compiles|].
  pose proof (literal_fit cps scps Hscps) as Hfit.
  assert (Hfit' : fit (pattern_classes (literal_pattern cps flags)) (s_data s) (byte_len s) false
    (pattern_slots (literal_pattern cps flags)) (literal cps)) by (by rewrite (str_data _ _ Hs), (byte_len_ok _ _ Hs)).
  pose proof (start_boundary s scps Hs) as H0.
  destruct (search_loop_completes (literal_pattern cps flags) (literal cps) _ _ (S (byte_len s - 0)) eq_refl Hfit'
    (proj2 (literal_plain cps)) 0 H0) as [N HN].
  exists N. intros max_steps Hm. specialize (HN max_steps 0%Z ltac:(lia) ltac:(lia)).
  pose proof (search_loop_result (literal_pattern cps flags) (literal cps) (s_data s) (byte_len s) max_steps eq_refl Hfit'
    (S (byte_len s - 0)) 0 0%Z H0 ltac:(lia) ltac:(lia) ltac:(lia)) as Hres.
  destruct (str_find_bytes s sub _ _ 0 Hs Hsub) as (i & Hi & [[? _]|[_ Hfirst]]); [lia|]. exists i. split; [done|].
  unfold search_from, search_from_raw.
  destruct (search_loop _ _ _ _ _ _ _) as [[f|[]]|err]; cbn [result_bind wrap_match search_result] in *; [| |done|done].
  - destruct Hres as (b & c & _ & Hb & [Hsem _] & Hno).
    pose proof (meaning_span _ _ s Hfit' b c _ Hb Hsem) as Hspan.
    rewrite (str_data _ _ Hs), (byte_len_ok _ _ Hs) in Hsem, Hb, Hno.
    assert (i = Z.of_nat b) as ->.
    { apply (first_at_found _ _ _ Hfirst).
      - apply (matches_occurs cps scps flags Hcase Hscps b Hb). eauto.
      - intros j Hj Ho. destruct (occurs_matches cps scps flags Hcase Hcps Hscps j Ho) as (b' & Hle & Hb' & c' & y' & Hm').
        by apply (Hno b' c' y'); [lia|..]. }
    rewrite (proj2 (Z.eqb_neq _ _)) by lia. rewrite Nat2Z.id.
    eexists. split; [done|]. split; [by apply (span_start _ _ _ _ Hspan)|].
    etransitivity; [exact (span_stop _ _ _ _ Hspan)|]. rewrite (byte_len_ok _ _ Hsub). do 2 f_equal.
    exact (literal_length cps scps flags Hcase Hscps b c _ Hb Hsem).
  - assert (i = (-1)%Z) as ->; [|done].
    rewrite (str_data _ _ Hs), (byte_len_ok _ _ Hs) in Hres.
    destruct Hfirst as [[-> _]|(j & -> & _ & Ho & _)]; [done|]. exfalso.
    destruct (occurs_matches cps scps flags Hcase Hcps Hscps j Ho) as (b & Hle & Hb & c & y & Hsem).
    apply (Hres b c y); [|done|done]. pose proof (boundary_le _ _ _ _ Hb). lia.
Qed.

End escape.

(** The code points that are letters or digits, in ASCII. *)
Definition ascii_alnum (cp : Z) : bool :=
  ((48 <=? cp) && (cp <=? 57) || (65 <=? cp) && (cp <=? 90) || (97 <=? cp) && (cp <=? 122))%Z.

(** ["a.bé"] and [".b"] *)
Definition sample_haystack : Str := mkStr [97; 46; 98; 195; 169; 0]%Z 6 4 [Some 0].
Definition sample_needle : Str := mkStr [46; 98; 0]%Z 3 2 [Some 0].

Lemma sample_haystack_ok : str_ok sample_haystack [97; 46; 98; 233]%Z.
Proof.
  destruct (from_owned_cstr_valid [97; 46; 98; 233]%Z) as (s & E & Hs); [by repeat constructor|].
  vm_compute in E. injection E as <-. exact Hs.
Qed.

Lemma sample_needle_ok : str_ok sample_needle [46; 98]%Z.
Proof.
  destruct (from_owned_cstr_valid [46; 98]%Z) as (s & E & Hs); [by repeat constructor|].
  vm_compute in E. injection E as <-. exact Hs.
Qed.

Lemma search_escaped_witness :
  str_find sample_haystack sample_needle 0 = Ok 1%Z /\
  exists e p, escape ascii_alnum sample_needle = Ok e /\ compile_str e 0 = Ok (Ok p) /\
    exists N : nat, forall max_steps, (Z.of_nat N <= max_steps < 2 ^ 64 - 1)%Z ->
      exists i, str_find sample_haystack sample_needle 0 = Ok i /\
        if (i =? -1)%Z then search_from p max_steps sample_haystack 0 = Ok (Err NoMatch)
        else exists m, search_from p max_steps sample_haystack 0 = Ok (Ok m) /\
          match_start m 0 = Ok (Some (Z.to_nat i)) /\
          match_end m 0 = Ok (Some (Z.to_nat i + byte_len sample_needle)).
Proof.
  split; [reflexivity|].
  exact (search_escaped ascii_alnum (fun cp _ => eq_refl) sample_haystack sample_needle _ _ 0
    sample_haystack_ok sample_needle_ok eq_refl).
Defined.

Example escape_sample :
  (let? e := escape ascii_alnum sample_needle in
   let? r := compile_str e 0 in
   let? p := unwrap "" r in
   let? r := search_from p default_max_steps sample_haystack 0 in
   let? m := unwrap "" r in
   let? span := match_span m in
   Ok (s_data e, span)) = Ok ([92; 46; 98; 0]%Z, (1, 3)).
Proof. vm_compute. reflexivity. Qed.
