(* ===== verification/RegexSamples.v ===== *)
(** * Regular expressions: where the engine is not Python's

    Patterns on which [lib/re.py], which calls itself compatible with Python's
    [re], answers otherwise or reads out of bounds, computed by the model. *)

From S2P Require Import Prelude RawList Bits Utf8 RegexProgram RegexMatcher RegexParse RegexPattern.

Local Open Scope Z_scope.
Local Open Scope monad_scope.

Definition str_of (text : list Z) : result abort Str :=
  let? r := from_owned_cstr (utf8 text ++ [0]) (S (length (utf8 text))) in unwrap "" r.

Definition span_of (r : result MatchError Match) : result abort (result MatchError (nat * nat)) :=
  match r with Ok m => let? span := match_span m in Ok (Ok span) | Err e => Ok (Err e) end.

Definition searched (pattern text : list Z) (flags : Z) (pos : nat) : result abort (result MatchError (nat * nat)) :=
  let? pattern := str_of pattern in
  let? s := str_of text in
  let? p := compiled_or_panic "" pattern flags in
  let? r := search_from p default_max_steps s pos in span_of r.

Definition searched_bytes (pattern text : list Z) : result abort (result MatchError (nat * nat)) :=
  let? r := compile_bytes pattern 0 in
  let? p := unwrap "" r in
  let? r := search_from_bytes p default_max_steps text 0 in span_of r.

(** A back reference to a group that is still open is accepted, and panics. *)
Example open_group_reference :
  searched [40; 92; 49; 97; 41] [98; 97] 0 0 = Err (Panic "re: run_at backref: end < start (invariant)").
Proof. vm_compute. reflexivity. Qed.

(** An unbounded repetition of what may be empty, here of a starred group,
    never ends. *)
Example empty_repetition : searched [40; 97; 42; 41; 42] [98] 0 0 = Ok (Err StepLimitExceeded).
Proof. vm_compute. reflexivity. Qed.

(** [[^a]] with [IGNORECASE] matches ["a"]: of ["a"] and ["A"], one is always in. *)
Example negated_class_ignoring_case : searched [91; 94; 97; 93] [97] IGNORECASE 0 = Ok (Ok (0%nat, 1%nat)).
Proof. vm_compute. reflexivity. Qed.

(** Inside of brackets, [\d] is the letter: [[\d]] does not match ["5"]. *)
Example shorthand_in_class :
  searched [91; 92; 100; 93] [53] 0 0 = Ok (Err NoMatch) /\ searched [91; 92; 100; 93] [100] 0 0 = Ok (Ok (0%nat, 1%nat)).
Proof. vm_compute. split; reflexivity. Qed.

(** Looking behind steps back into a code point: the last byte of U+00E0 and
    what follows it decode as something else, or past the end of the text. *)
Example look_behind_in_code_point : searched [40; 63; 60; 61; 97; 41; 64] [224; 64; 65; 33] 0 0 = Ok (Ok (2%nat, 3%nat)).
Proof. vm_compute. reflexivity. Qed.

Example look_behind_past_end : searched [40; 63; 60; 61; 97; 41] [225] 0 0 = Err Fault.
Proof. vm_compute. reflexivity. Qed.

(** In [bytes], a byte from 0x80 on is looked for two bytes back. *)
Example look_behind_byte :
  searched_bytes [40; 63; 60; 61; 255; 41; 98] [255; 98] = Ok (Err NoMatch) /\
  searched_bytes [40; 63; 60; 61; 255; 41; 98] [255; 97; 98] = Ok (Ok (2%nat, 3%nat)).
Proof. vm_compute. split; reflexivity. Qed.

(** A group name in [bytes] that is not UTF-8 is a panic. *)
Example name_not_text : searched_bytes [40; 63; 80; 60; 255; 62; 97; 41] [97] = Err name_panic.
Proof. vm_compute. reflexivity. Qed.

(** [fullmatch] takes the first match only: [a|ab] does not match all of ["ab"]. *)
Example fullmatch_first :
  (let? pattern := str_of [97; 124; 97; 98] in
   let? s := str_of [97; 98] in
   let? r := re_fullmatch pattern s 0 in span_of r) = Ok (Err NoMatch).
Proof. vm_compute. reflexivity. Qed.

(** [$] does not match before a last line feed, and a back reference minds the
    case even under [IGNORECASE]. *)
Example end_before_line_feed : searched [97; 36] [97; 10] 0 0 = Ok (Err NoMatch).
Proof. vm_compute. reflexivity. Qed.

Example reference_minds_case : searched [40; 97; 41; 92; 49] [97; 65] IGNORECASE 0 = Ok (Err NoMatch).
Proof. vm_compute. reflexivity. Qed.

(** A search from behind the end reads behind the end. *)
Example search_behind_end : searched [94] [97; 98] MULTILINE 9 = Err Fault.
Proof. vm_compute. reflexivity. Qed.
